(* ===== verification/_CoqProject ===== *)
-Q . S2P
Prelude.v
Histogram.v
FlightRecorder.v
Memory.v
HandleTable.v
IntrusiveList.v
TimerWheel.v
TimerHeap.v
IoBuffer.v
SpscRing.v
MpscRing.v
Mailbox.v
Channel.v
Fan.v
Barrier.v
Sharded.v
TimerService.v
Backend.v
Epoll.v
Kqueue.v
KqueuePort.v
Uring.v
UringSetup.v
Context.v
Coro.v
WhenAll.v
WhenAny.v
WithTimeout.v
TaskScope.v
FrameCache.v
EventLoop.v
Protocol.v
Http.v
SockAddr.v
Topology.v
Runtime.v
AdminPages.v
Udp.v
Connection.v
Admin.v
AdminServer.v
Server.v
Dns.v
Client.v
CoroConn.v
Sim.v
SimRuntime.v
