(* ===== verification/Prelude.v ===== *)
(** * AffiniX: a verification development

    AffiniX (under [src/]) is a C++ framework of share-nothing event loops.  One
    [EventManager] per thread runs iterations of fixed stages: it drains its mailbox,
    fires timers, waits on a backend, dispatches completions to sinks, runs deferred
    work and flushes writes.  Backends turn operations into completions
    (epoll, io_uring, kqueue, a simulated network).  Connections frame byte streams and
    queue writes on top of sinks; servers and clients own connections; channels,
    fans, barriers and sharded values connect loops through mailboxes.

    This library translates these parts into executable definitions, named as in
    the source, and proves what each promises.  Every file opens with the files and
    functions it models.

    ** Files

    Foundations.
    - Prelude.v (this file): machine words and their wrap-around, byte memory,
      counting and list lemmas shared by the components.
    - Histogram.v, FlightRecorder.v: [core/stats.hpp], [core/flight_recorder.hpp].
    - Memory.v: [core/arena.hpp] and [core/pool.hpp] over 64-bit addresses; modules
      [Arena], [Carve] (blocks cut into slots) and [Pool].
    - HandleTable.v: [core/handle_table.hpp], generation-checked handles with
      deferred reclamation; refines a finite map.
    - IoBuffer.v: [core/io_buffer.hpp] down to the block of memory; refines a byte
      queue.

    Time.
    - IntrusiveList.v: the intrusive lists of [core/timer_wheel.hpp] over an explicit
      store of nodes; refines sequences.
    - TimerWheel.v, TimerHeap.v: the hierarchical wheel and the heap.
    - TimerService.v: arming, cancelling, rescheduling, groups and expiry in
      [core/event_manager.hpp], on top of the three files above; callbacks are
      arbitrary re-entrant calls.

    Between threads.
    - SpscRing.v, MpscRing.v: the rings of [itc/] as interleavings of the atomic
      accesses of producers and consumer.
    - Mailbox.v: [itc/mailbox.hpp], overflow policies, and the arm/block protocol
      by which a loop goes to sleep.
    - Channel.v, Fan.v, Barrier.v, Sharded.v: [itc/channel.hpp], [itc/fan.hpp],
      [itc/barrier.hpp], [itc/sharded.hpp] as interleavings of the loops' tasks.

    The loop and its backends.
    - Backend.v: errors, tags and completions ([sys/error.hpp], [backend/backend.hpp]).
    - Epoll.v: [src/backend/epoll.cpp] over a kernel that is any function of the calls
      made so far.
    - Kqueue.v: [src/backend/kqueue.cpp], in the same way; KqueuePort.v relates its runs to
      those of Epoll.v.
    - Uring.v: [src/backend/uring.cpp], both shared rings with 32-bit positions, over a
      kernel that takes entries and posts completions at any time; UringSetup.v: its setup,
      moves and teardown, with the descriptors and mappings they hold.
    - Context.v: [core/context.hpp], deadlines, traces and the ambient context.
    - EventLoop.v: [BasicEventManager::poll_once] with all stages, sinks, watches and
      shutdown, on top of TimerService.v, HandleTable.v and Context.v; the application
      is any function of the history.
    - Sim.v: [src/backend/sim.cpp] and [src/sim/net.cpp]; SimRuntime.v: the driver
      [src/sim/runtime.cpp] on top of it, with the event managers of the shards behind
      the type class [Shard].

    Coroutines.
    - Coro.v: the promise of a task ([coro/task.hpp]) and the awaiters it parks in
      ([coro/ops.hpp]); a coroutine's code is the tree of its suspension points.
    - WhenAll.v, WhenAny.v, WithTimeout.v: the combinators of [coro/combine.hpp], with
      the lifetime of the awaiter, for arbitrary children.
    - TaskScope.v: [coro/scope.hpp], and in module [Roots] the root tasks of the event
      manager; coroutine frames exist or do not.
    - FrameCache.v: [coro/frame_cache.hpp] over the arena of Memory.v.
    - CoroConn.v: the awaiters of [coro/conn.hpp], the slots of the connection and the
      client they register in, and the lifetimes of frames and connection.

    The network layer.
    - Protocol.v: parse results and the fixed-header framer; the type class
      [FramerLaws] is what a connection asks of a framer.
    - SockAddr.v: [src/net/sock_addr.cpp] over the bytes of an address, and
      [src/net/socket.cpp].
    - Http.v: the admin protocol ([src/admin/http.cpp]), an instance of [FramerLaws].
    - Connection.v: [net/connection.hpp] against [FramerLaws] and IoBuffer.v; the
      application is any re-entrant reaction to callbacks, and what becomes of a second
      or a cancelled receive is the backend's choice.
    - Server.v, Dns.v, Client.v: [net/tcp_server.hpp], [net/dns.hpp],
      [net/tcp_client.hpp].
    - Udp.v: [net/udp_socket.hpp] and [src/net/udp.cpp].

    The process.
    - Topology.v: core sets and the processor lists of [src/sys/topology.cpp].
    - Runtime.v: [runtime.hpp] and [src/runtime.cpp], placement of shards, and starting,
      shutting down and joining them as interleavings of all threads.
    - AdminPages.v: queries and pages of [src/admin/server.cpp], a JSON reader they are
      read back with, and the decoder [tools/afx-flight].
    - Admin.v: routing, gathers over the shards, toggles and responses of the admin
      endpoint, on Connection.v; AdminServer.v: the thread that serves it.

    ** What the theorems show

    - Data: handle tables, lists, buffers, heaps and wheels refine maps, sequences,
      byte queues, priority queues and sets of due timers, for every sequence of
      operations; a released handle stays dead; pool objects are disjoint; merged
      histograms equal the histogram of all values.
    - Concurrency: both rings are FIFO without loss or duplication under every
      interleaving; a loop that sleeps leaves no message behind; channels keep order
      and, over an MPSC ring attached before it is used, strand nothing; barriers and reductions complete
      exactly once.
    - The loop: work posted is run or still queued, flush requests are not lost, a
      released sink is never called again, also when released in the middle of a batch, and the loop does not sleep on pending work.
    - Coroutines: [when_all], [when_any] and [with_timeout] resume their parent exactly
      once with the right result, that of the first child to finish for [when_any], whatever
      the children await and in whatever order it arrives, except in the stops listed below; a scope resumes the task that joins it when its last child is done; the
      destructor of an event manager ends every root task; frames in use are disjoint.
      A coroutine that waits for a connection is woken by data, a close or a stop, and
      answered once; together they receive exactly what the connection delivered.
    - io_uring: both rings are queues under every interleaving with the kernel, each
      posted completion is shown once but for the cancellations the backend asked for, counted
      by tag, the wait blocks only when there is nothing to
      return, and no freed receive context is read if none is freed while in use; whatever
      the kernel refuses during setup, nothing is leaked or given back twice.
    - kqueue: the filters asked of the kernel are always those the outstanding work of a
      descriptor needs; where no errors or hang-ups are reported, the backend returns what
      the epoll backend returns and makes the same calls on sockets.
    - The simulation: the trace is in order of time, no event is lost, late or recorded
      twice, and virtual time reaches every target if no instant brings endless work.
    - Streams: what the epoll backend and the simulated network deliver is in order,
      and a connection hands the application exactly the frames of the stream (over a
      backend that holds one receive at a time), sends in order, and closes exactly once.
    - Clients and servers: every accepted descriptor is accounted for, and an accept stays
      armed until accepting is stopped or refused; a client never destroys an object twice,
      and always has an attempt, a connection or a reconnection under way, with an address
      to try unless the resolver gave none.
    - Addresses: what is parsed or given as a path is read back, and a socket is created
      with exactly the options asked for or closed again.
    - Datagrams: a UDP socket hands every datagram received to the application, cut
      into its messages.
    - The process: after a shutdown every shard it saw ends, no thread uses an event
      manager after its end unless a race the code admits is run, and shards placed on
      physical cores are apart.
    - The admin endpoint: a page gathered from the shards is answered at most once and
      at the latest at its deadline; the JSON pages and the flight dump are read back
      exactly; histogram series are cumulative; [stop] always ends the server's thread.
    - Defects: some theorems exhibit behaviour the code should not have, as concrete
      runs or for all runs: partial writes sent twice, a refused post that wedges a
      channel, a second connection started by the loser of a race, awaiters and frames
      used after their end when a task is stopped, a submission ring that one failed system
      call disables, a shard that misses the shutdown, a page never answered because no shard
      can be reached, a flight page too large to be sent, and, stated as lemmas, items stranded
      at the wrap point of a ring or before a receiver is attached, a resumed receive that
      corrupts the stream, a server that stops accepting, a resolution never retried, stale deadlines, starvation by deferred work, a leaked watch callback, a burst of
      connections that kqueue leaves waiting, a coroutine displaced by a second one that
      waits for the same data, and bytes queued again after a send that waited.

    ** Bounds and fuel

    Integers are [Z] with the wrap-around of their width written out; hypotheses such
    as [zlen l < 2 ^ 64] say where a theorem needs a counter not to have wrapped.
    Loops that follow a list recurse on it.  Loops whose end depends on the kernel
    (Epoll.v, Kqueue.v) take the number of calls as fuel and return [None] when it runs out;
    the interruptions, bytes and queue entries left bound the calls; in Epoll.v that much
    fuel is proved to give a result, and by KqueuePort.v Kqueue.v runs out only where Epoll.v
    does.  SimRuntime.v counts the rounds of its loops, and some fuel is proved to bring
    the clock to the target.  The header loop of Http.v takes the length of the
    text as fuel, one unit per line, which always suffices; the digits of a 64-bit number
    need at most 20.  The destructors of TaskScope.v loop until a list is empty, with its
    length as fuel, which is proved to suffice, and so do the loops of Udp.v with the
    length of the receive queue and of a datagram.  The readers and decoders of
    AdminPages.v take the length of the text, of which every round consumes a part; the
    round trips show that it suffices.  Sequences of events are lists of any length.

    ** Not modelled

    The wrappers of system facilities (affinity, NUMA,
    clocks, logging, crash dumps); benchmarks, examples and tests.  Memory orders weaker than sequential
    consistency are not distinguished: the steps of an interleaving are the atomic
    accesses in program order.  Floating-point results (jitter, percentiles) are
    arguments or left out, except those printed by AdminPages.v, which are rounded to 53
    bits as doubles are. *)

From stdpp Require Import base gmap list sorting.
From Stdlib Require Import ZArith Lia.

Local Open Scope Z_scope.

(** ** Machine words

    Unsigned C++ integers are kept as [Z] in their range; every operation of
    the source that can leave the range is followed by the wrap-around of its
    width. *)

Definition u8 (x : Z) : Z := x mod 2 ^ 8.
Definition u16 (x : Z) : Z := x mod 2 ^ 16.
Definition u32 (x : Z) : Z := x mod 2 ^ 32.
Definition u64 (x : Z) : Z := x mod 2 ^ 64.

(** Two's-complement reading of a 64-bit word ([static_cast<std::intptr_t>]). *)
Definition i64 (x : Z) : Z :=
  let y := u64 x in if y <? 2 ^ 63 then y else y - 2 ^ 64.

(** [~std::uint64_t(0)], [SIZE_MAX]. *)
Definition u64_max : Z := 2 ^ 64 - 1.

Declare Scope afx_scope.
Delimit Scope afx_scope with afx.
Notation "x ⊞ y" := (u64 (x + y)) (at level 50, left associativity) : afx_scope.
Notation "x ⊟ y" := (u64 (x - y)) (at level 50, left associativity) : afx_scope.
Notation "x ⊠ y" := (u64 (x * y)) (at level 40, left associativity) : afx_scope.

(** The side condition under which 64-bit arithmetic is exact. *)
Definition is_u32 (x : Z) : Prop := 0 <= x < 2 ^ 32.
Definition is_u64 (x : Z) : Prop := 0 <= x < 2 ^ 64.

Lemma u64_small x : 0 <= x < 2 ^ 64 -> u64 x = x.
Proof. apply Z.mod_small. Qed.

Lemma u32_small x : 0 <= x < 2 ^ 32 -> u32 x = x.
Proof. apply Z.mod_small. Qed.

Lemma u64_range x : 0 <= u64 x < 2 ^ 64.
Proof. apply Z.mod_pos_bound. lia. Qed.

Lemma u32_range x : 0 <= u32 x < 2 ^ 32.
Proof. apply Z.mod_pos_bound. lia. Qed.

Lemma u64_add_l x y : u64 (u64 x + y) = u64 (x + y).
Proof. apply Zplus_mod_idemp_l. Qed.

Lemma u64_add_r x y : u64 (x + u64 y) = u64 (x + y).
Proof. apply Zplus_mod_idemp_r. Qed.

Lemma u64_sub_l x y : u64 (u64 x - y) = u64 (x - y).
Proof. apply Zminus_mod_idemp_l. Qed.

Lemma u64_sub_r x y : u64 (x - u64 y) = u64 (x - y).
Proof. apply Zminus_mod_idemp_r. Qed.

Lemma u64_idem x : u64 (u64 x) = u64 x.
Proof. apply Zmod_mod. Qed.

(** Masking with [2^k - 1], the slot computation of the rings. *)
Lemma land_mask x k : 0 <= k -> Z.land x (2 ^ k - 1) = x mod 2 ^ k.
Proof. intros. rewrite <- Z.land_ones by done. by rewrite Z.ones_equiv, Z.sub_1_r. Qed.

Lemma u64_mod_pow x k : 0 <= k <= 64 -> u64 x mod 2 ^ k = x mod 2 ^ k.
Proof.
  intros Hk. unfold u64. apply Z.mod_mod_divide.
  exists (2 ^ (64 - k)). rewrite <- Z.pow_add_r by lia. f_equal. lia.
Qed.

Lemma mod_distinct a b m : a < b < a + m -> 0 < m -> a mod m <> b mod m.
Proof.
  intros Hab Hm Heq. pose proof (Z.div_mod a m). pose proof (Z.div_mod b m).
  assert (b - a = m * (b / m - a / m)) by lia. assert (b / m - a / m = 0 \/ 1 <= b / m - a / m \/ b / m - a / m <= -1) by lia.
  nia.
Qed.

Lemma i64_small x : 0 <= x < 2 ^ 63 -> i64 x = x.
Proof.
  intros Hx. unfold i64. rewrite u64_small by lia. rewrite (proj2 (Z.ltb_lt _ _)) by lia. done.
Qed.

(** ** Automation *)

(** Removes wrap-arounds whose operand is provably in range. *)
Ltac wrap_simpl :=
  repeat match goal with
    | |- context [u64 ?x] => rewrite (u64_small x) by lia
    | |- context [u32 ?x] => rewrite (u32_small x) by lia
    end.

Ltac wrap_simpl_in H :=
  repeat match type of H with
    | context [u64 ?x] => rewrite (u64_small x) in H by lia
    | context [u32 ?x] => rewrite (u32_small x) in H by lia
    end.

(** Turns boolean comparisons of the code into propositions. *)
Ltac bool_to_prop :=
  repeat match goal with
    | H : (_ && _)%bool = true |- _ => apply andb_true_iff in H; destruct H
    | H : (_ || _)%bool = false |- _ => apply orb_false_iff in H; destruct H
    | H : negb _ = true |- _ => apply negb_true_iff in H
    | H : negb _ = false |- _ => apply negb_false_iff in H
    | H : (_ =? _) = true |- _ => apply Z.eqb_eq in H
    | H : (_ =? _) = false |- _ => apply Z.eqb_neq in H
    | H : (_ <? _) = true |- _ => apply Z.ltb_lt in H
    | H : (_ <? _) = false |- _ => apply Z.ltb_ge in H
    | H : (_ <=? _) = true |- _ => apply Z.leb_le in H
    | H : (_ <=? _) = false |- _ => apply Z.leb_gt in H
    | H : (_ >=? _) = true |- _ => rewrite Z.geb_leb in H
    | H : (_ >=? _) = false |- _ => rewrite Z.geb_leb in H
    | H : (_ >? _) = true |- _ => rewrite Z.gtb_ltb in H
    | H : (_ >? _) = false |- _ => rewrite Z.gtb_ltb in H
    end.

(** Case analysis on the next boolean test of the goal. *)
Ltac case_test :=
  match goal with
  | |- context [if ?b then _ else _] =>
      lazymatch b with
      | context [if _ then _ else _] => fail
      | _ => let E := fresh "E" in destruct b eqn:E; bool_to_prop
      end
  end.

Ltac case_test_in H :=
  match type of H with
  | context [if ?b then _ else _] =>
      lazymatch b with
      | context [if _ then _ else _] => fail
      | _ => let E := fresh "E" in destruct b eqn:E; bool_to_prop
      end
  end.

Create HintDb afx.

(** ** Lists *)

Section Lists.
Context {A : Type}.
Implicit Types (l : list A) (x : A).

Lemma last_snoc_inv l x : last l = Some x -> l = removelast l ++ [x].
Proof.
  rewrite last_Some. intros [l' ->]. by rewrite removelast_last.
Qed.

Lemma last_None_inv l : last l = None -> l = [].
Proof. by rewrite last_None. Qed.

(** Number of elements satisfying a boolean predicate. *)
Fixpoint count_if (P : A -> bool) l : nat :=
  match l with
  | [] => 0%nat
  | x :: r => ((if P x then 1 else 0) + count_if P r)%nat
  end.

Lemma count_if_app P l k : count_if P (l ++ k) = (count_if P l + count_if P k)%nat.
Proof. induction l as [|x l IH]; simpl; lia. Qed.

Lemma count_if_insert P l i x y :
  l !! i = Some x ->
  Z.of_nat (count_if P (<[i:=y]> l)) =
  Z.of_nat (count_if P l) + (if P y then 1 else 0) - (if P x then 1 else 0).
Proof.
  revert i. induction l as [|z l IH]; intros [|i] H; simplify_eq/=.
  - destruct (P x), (P y); lia.
  - specialize (IH i H). destruct (P z); lia.
Qed.

Lemma count_if_length P l : (count_if P l <= length l)%nat.
Proof. induction l as [|x l IH]; simpl; [lia|]. destruct (P x); lia. Qed.

Lemma count_if_full P l : count_if P l = length l -> forall i x, l !! i = Some x -> P x = true.
Proof.
  induction l as [|y l IH]; intros H i x Hx; [done|]. cbn in H. pose proof (count_if_length P l).
  destruct (P y) eqn:Ey; cbn in H; [|lia]. destruct i; cbn in Hx; [by simplify_eq|]. apply (IH ltac:(lia) i x Hx).
Qed.

Lemma count_if_all P l : (forall i x, l !! i = Some x -> P x = true) -> count_if P l = length l.
Proof.
  induction l as [|y l IH]; intros H; [done|]. cbn. rewrite (H O y eq_refl). cbn. f_equal. apply IH. intros i x Hx. by apply (H (S i)).
Qed.
End Lists.

Lemma foldl_ext_eq {A B} (f g : A -> B -> A) (a : A) (l : list B) :
  (forall x y, f x y = g x y) -> foldl f a l = foldl g a l.
Proof. intros Hfg. revert a. induction l as [|y l IH]; intros a; simpl; [done|]. by rewrite Hfg, IH. Qed.

(** Loops that keep the least candidate seen so far. *)

Lemma foldl_min_le {A} (f : Z -> A -> Z) (l : list A) (b : Z) :
  (forall b x, f b x <= b) -> foldl f b l <= b.
Proof.
  intros Hf. revert b. induction l as [|x l IH]; intros b; [done|]. simpl.
  etrans; [apply IH|apply Hf].
Qed.

Lemma foldl_min_elem {A} (f : Z -> A -> Z) (l : list A) (b c : Z) (x : A) :
  (forall b x, f b x <= b) -> x ∈ l -> (forall b, f b x <= c) -> foldl f b l <= c.
Proof.
  intros Hf Hx Hc. revert b. induction Hx as [x l|x y l _ IH]; intros b; simpl.
  - etrans; [by apply foldl_min_le|apply Hc].
  - by apply IH.
Qed.

Lemma foldl_keeps {A B} (f : B -> A -> B) (Q : B -> Prop) (l : list A) (b : B) :
  (forall b x, x ∈ l -> Q b -> Q (f b x)) -> Q b -> Q (foldl f b l).
Proof.
  revert b. induction l as [|x l IH]; intros b Hf Hb; [done|]. simpl. apply IH.
  - intros. apply Hf; [by right|done].
  - apply Hf; [by left|done].
Qed.

(** ** Regions of memory

    A block of memory is a list; a copy outside its bounds is [None]. *)

Section Regions.
Context {A : Type}.
Implicit Types (m bs : list A).

Definition zlen (l : list A) : Z := Z.of_nat (length l).

Definition region (off n : Z) (m : list A) : list A := take (Z.to_nat n) (drop (Z.to_nat off) m).

Definition mem_read (off n : Z) (m : list A) : option (list A) :=
  if (0 <=? off) && (0 <=? n) && (off + n <=? zlen m) then Some (region off n m) else None.

Definition mem_write (off : Z) (bs m : list A) : option (list A) :=
  if (0 <=? off) && (off + zlen bs <=? zlen m)
  then Some (take (Z.to_nat off) m ++ bs ++ drop (Z.to_nat (off + zlen bs)) m)
  else None.

Lemma zlen_nonneg m : 0 <= zlen m.
Proof. unfold zlen. lia. Qed.

Lemma zlen_cons x m : zlen (x :: m) = 1 + zlen m.
Proof. unfold zlen. rewrite length_cons. lia. Qed.

Lemma zlen_app m bs : zlen (m ++ bs) = zlen m + zlen bs.
Proof. unfold zlen. rewrite length_app. lia. Qed.

Lemma mem_read_ok off n m :
  0 <= off -> 0 <= n -> off + n <= zlen m -> mem_read off n m = Some (region off n m).
Proof.
  intros. unfold mem_read. repeat (rewrite (proj2 (Z.leb_le _ _)) by lia). done.
Qed.

Lemma region_len off n m :
  0 <= off -> 0 <= n -> off + n <= zlen m -> zlen (region off n m) = n.
Proof. unfold zlen, region. intros. rewrite length_take, length_drop. lia. Qed.

Lemma mem_write_ok off bs m :
  0 <= off -> off + zlen bs <= zlen m ->
  exists m', mem_write off bs m = Some m' /\ zlen m' = zlen m /\
    region off (zlen bs) m' = bs /\
    (forall o n, 0 <= o -> 0 <= n -> o + n <= off -> region o n m' = region o n m) /\
    (forall o n, off + zlen bs <= o -> 0 <= n -> region o n m' = region o n m).
Proof.
  intros Ho Hl. unfold mem_write. repeat (rewrite (proj2 (Z.leb_le _ _)) by lia).
  eexists. split; [done|]. unfold zlen, region in *. split_and!.
  - rewrite !length_app, length_take, length_drop. lia.
  - rewrite drop_app_ge by (rewrite length_take; lia).
    rewrite length_take, Nat.min_l by lia. rewrite Nat.sub_diag, drop_0.
    rewrite take_app_le by lia. apply take_ge. lia.
  - intros o n H1 H2 H3. rewrite drop_app_le by (rewrite length_take; lia).
    rewrite take_app_le by (rewrite length_drop, length_take; lia).
    rewrite !take_drop_commute, take_take, Nat.min_l by lia. done.
  - intros o n H1 H2. rewrite drop_app_ge by (rewrite length_take; lia).
    rewrite length_take, Nat.min_l by lia.
    rewrite drop_app_ge by lia. rewrite drop_drop. do 2 f_equal. lia.
Qed.

Lemma region_app off n k m :
  0 <= off -> 0 <= n -> 0 <= k -> region off (n + k) m = region off n m ++ region (off + n) k m.
Proof.
  intros Ho Hn Hk. unfold region. rewrite !Z2Nat.inj_add by lia.
  rewrite <- drop_drop. by rewrite take_take_drop.
Qed.

Lemma region_drop off n k m :
  0 <= off -> 0 <= k <= n -> region (off + k) (n - k) m = drop (Z.to_nat k) (region off n m).
Proof.
  intros Ho Hk. unfold region. rewrite Z2Nat.inj_add, Z2Nat.inj_sub by lia.
  rewrite <- drop_drop, skipn_firstn_comm. done.
Qed.

Lemma region_0 off m : region off 0 m = [].
Proof. done. Qed.

Definition memmove (dst src n : Z) (m : list A) : option (list A) :=
  bs ← mem_read src n m; mem_write dst bs m.

Lemma memmove_ok dst src n m :
  0 <= dst -> 0 <= src -> 0 <= n -> src + n <= zlen m -> dst + n <= zlen m ->
  exists m', memmove dst src n m = Some m' /\ zlen m' = zlen m /\
    region dst n m' = region src n m.
Proof.
  intros Hd Hs Hn H1 H2. unfold memmove. rewrite mem_read_ok by done. simpl.
  pose proof (region_len src n m) as Hl.
  destruct (mem_write_ok dst (region src n m) m) as (m' & -> & Hl' & Hr & _); [done|lia|].
  exists m'. rewrite Hl in Hr by done. done.
Qed.

End Regions.

Arguments mem_read : simpl never.
Arguments mem_write : simpl never.
Arguments memmove : simpl never.
Arguments region : simpl never.
