(* ===== verification/Histogram.v ===== *)
(** * Latency histograms

    [Histogram] of [src/include/afx/core/stats.hpp]: logarithmic buckets, merging of
    shards and percentiles, with the counters at their width. *)

From stdpp Require Import base option gmap list.
From Stdlib Require Import ZArith Lia.
From S2P Require Import Prelude.
Local Open Scope Z_scope.
Local Open Scope afx_scope.

Module Hist.

Definition nbuckets : nat := 64.

Record Histogram := mkHist { buckets_ : list Z; count_ : Z; total_ : Z; max_ : Z; min_ : Z }.

Definition empty : Histogram := mkHist (replicate nbuckets 0) 0 0 0 (2 ^ 64 - 1).

(** [63 - clz(v | 1)]. *)
Definition bucket (v : Z) : nat := Z.to_nat (Z.log2 (Z.lor v 1)).

Definition record (h : Histogram) (v : Z) : Histogram :=
  mkHist (alter (fun n => n ⊞ 1) (bucket v) (buckets_ h)) (count_ h ⊞ 1) (total_ h ⊞ v)
    (if max_ h <? v then v else max_ h) (if v <? min_ h then v else min_ h).

Definition max (h : Histogram) : Z := if count_ h =? 0 then 0 else max_ h.
Definition min (h : Histogram) : Z := if count_ h =? 0 then 0 else min_ h.

Definition merge (h o : Histogram) : Histogram :=
  mkHist (zip_with (fun a b => a ⊞ b) (buckets_ h) (buckets_ o)) (count_ h ⊞ count_ o) (total_ h ⊞ total_ o)
    (if max_ h <? max_ o then max_ o else max_ h) (if min_ o <? min_ h then min_ o else min_ h).

(** The loop of [percentile] from bucket [b] on. *)
Fixpoint find_bucket (bs : list Z) (b cum need : Z) : option Z :=
  match bs with
  | [] => None
  | n :: bs => let cum := cum ⊞ n in if need <=? cum then Some (2 ^ b) else find_bucket bs (b + 1) cum need
  end.

(** [p] is the fraction [num / den]; the product with the count is exact. *)
Definition percentile (num den : Z) (h : Histogram) : Z :=
  if count_ h =? 0 then 0
  else match find_bucket (buckets_ h) 0 0 (u64 (num * count_ h / den) ⊞ 1) with Some v => v | None => max_ h end.

(** ** What a histogram holds *)

Definition record_all (l : list Z) : Histogram := foldl record empty l.
Definition in_bucket (b : nat) (v : Z) : bool := bool_decide (bucket v = b).
Definition values_ok (l : list Z) : Prop := Forall (fun v => 0 <= v < 2 ^ 64) l.

Definition sum (l : list Z) : Z := foldr Z.add 0 l.

Definition summary (l : list Z) : Histogram :=
  mkHist ((fun b => u64 (Z.of_nat (count_if (in_bucket b) l))) <$> seq 0 nbuckets) (u64 (zlen l)) (u64 (sum l))
    (foldr Z.max 0 l) (foldr Z.min (2 ^ 64 - 1) l).

Lemma bucket_lt v : 0 <= v < 2 ^ 64 -> (bucket v < nbuckets)%nat.
Proof.
  intros Hv. unfold bucket, nbuckets. assert (0 < Z.lor v 1) as Hp.
  { assert (0 <= Z.lor v 1) by (apply Z.lor_nonneg; lia). assert (Z.lor v 1 <> 0) by (rewrite Z.lor_eq_0_iff; lia). lia. }
  assert (Z.log2 (Z.lor v 1) < 64); [|pose proof (Z.log2_nonneg (Z.lor v 1)); lia].
  rewrite Z.log2_lor by lia. apply Z.max_lub_lt; [|cbn; lia].
  destruct (decide (v = 0)) as [->|]; [cbn; lia|]. apply Z.log2_lt_pow2; lia.
Qed.

Lemma record_summary l v : 0 <= v < 2 ^ 64 -> values_ok l -> record (summary l) v = summary (l ++ [v]).
Proof.
  intros Hv Hl. unfold record, summary. cbn [buckets_ count_ total_ max_ min_]. f_equal.
  - apply list_eq. intros b. destruct (decide (b < nbuckets)%nat) as [Hb|Hb].
    + assert (seq 0 nbuckets !! b = Some b) as Hs by (rewrite lookup_seq; auto).
      destruct (decide (bucket v = b)) as [E|E].
      * rewrite <- E, list_lookup_alter_eq, E, !list_lookup_fmap, Hs. cbn. f_equal. rewrite u64_add_l, count_if_app. cbn.
        unfold in_bucket at 3. rewrite bool_decide_eq_true_2 by done. f_equal. lia.
      * rewrite list_lookup_alter_ne, !list_lookup_fmap, Hs by done. cbn. f_equal. rewrite count_if_app. cbn.
        unfold in_bucket at 3. rewrite bool_decide_eq_false_2 by done. f_equal. lia.
    + rewrite !lookup_ge_None_2; [done|rewrite length_fmap, length_seq; lia|rewrite length_alter, length_fmap, length_seq; lia].
  - rewrite u64_add_l, zlen_app. done.
  - rewrite u64_add_l. f_equal. unfold sum. induction l as [|x l IH]; cbn; [lia|]. apply Forall_cons in Hl as [_ Hl]. specialize (IH Hl). lia.
  - rewrite foldr_app. cbn. clear Hl. assert (forall c, foldr Z.max c l = Z.max c (foldr Z.max 0 l) \/ c < 0) as Hm.
    { intros c. destruct (decide (c < 0)); [by right|left]. induction l as [|x l IH]; cbn; lia. }
    destruct (Hm (Z.max v 0)) as [-> |]; [|lia]. destruct (Z.ltb_spec (foldr Z.max 0 l) v); [lia|].
    assert (0 <= foldr Z.max 0 l) by (clear; induction l; cbn; lia). lia.
  - rewrite foldr_app. cbn [foldr]. assert (forall c, c <= 2 ^ 64 - 1 -> foldr Z.min c l = Z.min c (foldr Z.min (2 ^ 64 - 1) l)) as Hm.
    { intros c Hc. clear Hl. induction l as [|x l IH]; cbn [foldr]; lia. }
    rewrite (Hm (Z.min v (2 ^ 64 - 1))) by lia. assert (foldr Z.min (2 ^ 64 - 1) l <= 2 ^ 64 - 1) by (clear; induction l; cbn [foldr]; lia).
    destruct (Z.ltb_spec v (foldr Z.min (2 ^ 64 - 1) l)); lia.
Qed.

Lemma record_all_summary l : values_ok l -> record_all l = summary l.
Proof.
  unfold record_all. induction l as [|v l IH] using rev_ind; intros Hl; [reflexivity|].
  apply Forall_app in Hl as [Hl Hv]. apply Forall_cons in Hv as [Hv _]. rewrite foldl_app. cbn [foldl]. rewrite IH by done. by apply record_summary.
Qed.

(** Merging is recording everything in one.  The histogram merged from two
    shards equals, in every bucket, count, total, minimum and maximum, wrap-around
    included, the histogram of all their values recorded in one. *)
Theorem merge_records_all l1 l2 :
  values_ok l1 -> values_ok l2 -> merge (record_all l1) (record_all l2) = record_all (l1 ++ l2).
Proof.
  intros H1 H2. rewrite !record_all_summary by (try done; by apply Forall_app). unfold merge, summary. cbn [buckets_ count_ total_ max_ min_]. f_equal.
  - apply list_eq. intros b. rewrite lookup_zip_with. rewrite !list_lookup_fmap.
    destruct (seq 0 nbuckets !! b) as [c|]; [|done]. cbn. f_equal. rewrite u64_add_l, u64_add_r, count_if_app. f_equal. lia.
  - rewrite u64_add_l, u64_add_r, zlen_app. done.
  - rewrite u64_add_l, u64_add_r. f_equal. unfold sum. clear. induction l1 as [|x l IH]; cbn; lia.
  - rewrite foldr_app. assert (0 <= foldr Z.max 0 l2) by (clear; induction l2; cbn; lia).
    assert (foldr Z.max (foldr Z.max 0 l2) l1 = Z.max (foldr Z.max 0 l1) (foldr Z.max 0 l2)) as ->.
    { clear -H. induction l1 as [|x l IH]; cbn; lia. }
    destruct (Z.ltb_spec (foldr Z.max 0 l1) (foldr Z.max 0 l2)); lia.
  - rewrite foldr_app. assert (foldr Z.min (2 ^ 64 - 1) l2 <= 2 ^ 64 - 1) by (clear; induction l2; cbn [foldr]; lia).
    assert (foldr Z.min (foldr Z.min (2 ^ 64 - 1) l2) l1 = Z.min (foldr Z.min (2 ^ 64 - 1) l1) (foldr Z.min (2 ^ 64 - 1) l2)) as ->.
    { clear -H. induction l1 as [|x l IH]; cbn [foldr]; lia. }
    destruct (Z.ltb_spec (foldr Z.min (2 ^ 64 - 1) l2) (foldr Z.min (2 ^ 64 - 1) l1)); lia.
Qed.

(** ** Percentiles *)

Definition below (b : nat) (v : Z) : bool := (bucket v <? b)%nat.

Lemma below_S b l : count_if (below (S b)) l = (count_if (below b) l + count_if (in_bucket b) l)%nat.
Proof.
  induction l as [|v l IH]; cbn [count_if]; [done|]. rewrite IH. unfold below, in_bucket.
  destruct (Nat.ltb_spec (bucket v) (S b)), (Nat.ltb_spec (bucket v) b); case_bool_decide; lia.
Qed.

Lemma find_bucket_spec l n b need :
  zlen l < 2 ^ 64 -> (b + n = nbuckets)%nat -> Z.of_nat (count_if (below b) l) < need <= Z.of_nat (count_if (below nbuckets) l) ->
  exists c, (c < nbuckets)%nat /\
    find_bucket ((fun b => u64 (Z.of_nat (count_if (in_bucket b) l))) <$> seq b n) (Z.of_nat b) (Z.of_nat (count_if (below b) l)) need
      = Some (2 ^ Z.of_nat c) /\
    Z.of_nat (count_if (below c) l) < need <= Z.of_nat (count_if (below (S c)) l).
Proof.
  intros Hl. revert b. induction n as [|n IH]; intros b Hb Hn.
  - replace b with nbuckets in Hn by lia. lia.
  - cbn [seq fmap list_fmap find_bucket]. pose proof (count_if_length (in_bucket b) l) as H1. pose proof (count_if_length (below (S b)) l) as H2.
    pose proof (below_S b l) as H3. unfold zlen in Hl. rewrite (u64_small (Z.of_nat (count_if (in_bucket b) l))) by lia.
    rewrite u64_small by lia. rewrite <- Nat2Z.inj_add, <- H3. destruct (Z.leb_spec need (Z.of_nat (count_if (below (S b)) l))).
    + exists b. split; [lia|]. split; [done|]. lia.
    + replace (Z.of_nat b + 1) with (Z.of_nat (S b)) by lia. apply IH; lia.
Qed.

(** A percentile is the bucket of the right order statistic.  For a fraction
    below one of [n] recorded values, with [k] its integer part of [n], the result is
    a power of two such that at most [k] values lie in lower buckets and more than
    [k] in its bucket or lower: the k-th smallest value, counted from zero, lies between the
    result and twice it (zero counting as one). *)
Theorem percentile_is_order_statistic num den l :
  values_ok l -> l <> [] -> zlen l < 2 ^ 63 -> 0 <= num < den ->
  exists c, percentile num den (record_all l) = 2 ^ Z.of_nat c /\
    Z.of_nat (count_if (fun v => Z.lor v 1 <? 2 ^ Z.of_nat c) l) <= num * zlen l / den
      < Z.of_nat (count_if (fun v => Z.lor v 1 <? 2 ^ (Z.of_nat c + 1)) l).
Proof.
  intros Hv Hne Hl Hp. assert (0 < zlen l) as Hz by (destruct l; [done|rewrite zlen_cons; pose proof (zlen_nonneg l); lia]).
  assert (forall c m, values_ok m -> count_if (fun v => Z.lor v 1 <? 2 ^ Z.of_nat c) m = count_if (below c) m) as Hc.
  { clear. intros c m Hm. induction m as [|v m IH]; [done|]. apply Forall_cons in Hm as [Hv Hm]. cbn [count_if]. rewrite IH by done. f_equal.
    unfold below, bucket. assert (0 < Z.lor v 1) as Hp.
    { assert (0 <= Z.lor v 1) by (apply Z.lor_nonneg; lia). assert (Z.lor v 1 <> 0) by (rewrite Z.lor_eq_0_iff; lia). lia. }
    pose proof (Z.log2_nonneg (Z.lor v 1)) as Hn. pose proof (Z.log2_lt_pow2 (Z.lor v 1) (Z.of_nat c) Hp) as Hi.
    destruct (Z.ltb_spec (Z.lor v 1) (2 ^ Z.of_nat c)) as [Ha|Ha], (Nat.ltb_spec (Z.to_nat (Z.log2 (Z.lor v 1))) c) as [Hb|Hb]; try done; exfalso.
    - apply Hi in Ha. lia.
    - assert (Z.lor v 1 < 2 ^ Z.of_nat c) by (apply Hi; lia). lia. }
  assert (0 <= num * zlen l / den < zlen l) as Hk.
  { split; [apply Z.div_pos; nia|]. apply Z.div_lt_upper_bound; nia. }
  rewrite record_all_summary by done. unfold percentile. cbn [count_ buckets_ summary]. rewrite (u64_small (zlen l)) by lia.
  rewrite (proj2 (Z.eqb_neq _ _)) by lia. rewrite (u64_small (num * zlen l / den)) by lia. rewrite u64_small by lia.
  assert (count_if (below nbuckets) l = length l) as Hall.
  { clear -Hv. induction l as [|v l IH]; [done|]. apply Forall_cons in Hv as [Hv Hl]. cbn [count_if length]. rewrite IH by done.
    unfold below. rewrite (proj2 (Nat.ltb_lt _ _)) by (by apply bucket_lt). done. }
  assert (count_if (below 0) l = 0%nat) as H0 by (clear; induction l; cbn; lia).
  destruct (find_bucket_spec l nbuckets 0 (num * zlen l / den + 1)) as (c & Hcl & Hf & Hb).
  - lia.
  - done.
  - rewrite H0, Hall. unfold zlen in *. lia.
  - rewrite H0 in Hf. change (Z.of_nat 0) with 0 in Hf. rewrite Hf. exists c. split; [done|].
    replace (Z.of_nat c + 1) with (Z.of_nat (S c)) by lia. rewrite !Hc by done. lia.
Qed.

Lemma merge_records_all_witness :
  merge (record_all [3; 700; 0]) (record_all [5]) = record_all ([3; 700; 0] ++ [5]) /\ max (record_all [3; 700; 0]) = 700.
Proof.
  split; [|vm_compute; reflexivity]. apply (merge_records_all [3; 700; 0] [5]); repeat constructor; lia.
Defined.

Lemma percentile_is_order_statistic_witness :
  exists c, percentile 1 2 (record_all [3; 700; 0]) = 2 ^ Z.of_nat c /\
    Z.of_nat (count_if (fun v => Z.lor v 1 <? 2 ^ Z.of_nat c) [3; 700; 0]) <= 1 * zlen [3; 700; 0] / 2.
Proof.
  destruct (percentile_is_order_statistic 1 2 [3; 700; 0]) as (c & H1 & H2 & _).
  - repeat constructor; lia.
  - discriminate.
  - reflexivity.
  - lia.
  - exists c. split; [exact H1|exact H2].
Defined.

End Hist.
