(* ===== verification/FlightRecorder.v ===== *)
(** * Flight recorder

    [FlightRecorder] of [src/include/afx/core/flight_recorder.hpp], compiled with the
    recorder on, used by the one loop that owns it. *)

From stdpp Require Import base option gmap list.
From Stdlib Require Import ZArith Lia.
From S2P Require Import Prelude.
Local Open Scope Z_scope.
Local Open Scope afx_scope.

Module Recorder.
Section Records.
Context {A : Type}.

Definition kCapacity : Z := 4096.

Record FlightRecorder := mkRecorder { ring_ : list A; head_ : Z }.

(** The ring starts with value-initialised records. *)
Definition recorder (d : A) : FlightRecorder := mkRecorder (replicate (Z.to_nat kCapacity) d) 0.

Definition slot (p : Z) : nat := Z.to_nat (Z.land p (kCapacity - 1)).

Definition record (s : FlightRecorder) (r : A) : FlightRecorder :=
  mkRecorder (<[slot (head_ s) := r]> (ring_ s)) (head_ s ⊞ 1).

Definition size (s : FlightRecorder) : Z := if head_ s <? kCapacity then head_ s else kCapacity.

(** The records read, oldest first. *)
Definition snapshot (cap : Z) (s : FlightRecorder) : list A :=
  let n := size s in
  let n := if cap <? n then cap else n in
  omap (fun i => ring_ s !! slot (head_ s ⊟ n ⊞ Z.of_nat i)) (seq 0 (Z.to_nat n)).

Definition dump (s : FlightRecorder) : list A := snapshot kCapacity s.

Lemma slot_mod p : slot p = Z.to_nat (p mod kCapacity).
Proof. unfold slot. change (kCapacity - 1) with (2 ^ 12 - 1). by rewrite land_mask by lia. Qed.

Record inv (l : list A) (s : FlightRecorder) : Prop := {
  r_len : length (ring_ s) = Z.to_nat kCapacity;
  r_head : head_ s = zlen l;
  r_recent : forall j x, l !! j = Some x -> zlen l - kCapacity <= Z.of_nat j -> ring_ s !! slot (Z.of_nat j) = Some x }.

Lemma record_inv l s r : zlen l < 2 ^ 64 - 1 -> inv l s -> inv (l ++ [r]) (record s r).
Proof.
  intros Hl [L H R]. pose proof (zlen_nonneg l) as Hn.
  assert (forall p, 0 <= p -> (slot p < Z.to_nat kCapacity)%nat) as Hs.
  { intros p Hp. rewrite slot_mod. pose proof (Z.mod_pos_bound p kCapacity). unfold kCapacity in *. lia. }
  constructor; cbn [record ring_ head_].
  - by rewrite length_insert.
  - rewrite H, zlen_app, u64_small by lia. done.
  - intros j x Hx Hj. rewrite zlen_app in Hj. change (zlen [r]) with 1 in Hj. rewrite H. unfold zlen in *.
    destruct (decide (j = length l)) as [->|Hne].
    + rewrite list_lookup_insert_eq by (rewrite L; apply Hs; lia). rewrite lookup_app_r, Nat.sub_diag in Hx by lia. done.
    + assert (j < length l)%nat by (apply lookup_lt_Some in Hx; rewrite length_app in Hx; cbn in Hx; lia).
      rewrite lookup_app_l in Hx by done. rewrite list_lookup_insert_ne; [apply R; [done|lia]|].
      rewrite !slot_mod. pose proof (mod_distinct (Z.of_nat j) (Z.of_nat (length l)) kCapacity) as Hd.
      assert (kCapacity = 4096) as Hk by done. pose proof (Z.mod_pos_bound (Z.of_nat j) kCapacity). 
      pose proof (Z.mod_pos_bound (Z.of_nat (length l)) kCapacity). intros E. apply Hd; lia.
Qed.

(** The flight recorder keeps the last records.  After any sequence of records, a
    snapshot of at most [cap] of them is, oldest first, exactly the last
    [min cap (min n 4096)] records made, and a dump the last [min n 4096]. *)
Theorem recorder_keeps_the_last d cap (l : list A) :
  0 <= cap -> zlen l < 2 ^ 64 ->
  let s := foldl record (recorder d) l in
  snapshot cap s = drop (length l - Z.to_nat (Z.min cap (Z.min (zlen l) kCapacity)))%nat l.
Proof.
  intros Hc Hl s. assert (inv l s) as [L H R].
  { unfold s. clear s cap Hc. induction l as [|r l IH] using rev_ind.
    - constructor; [apply length_replicate|done|]. intros j x Hx. done.
    - rewrite foldl_app. cbn [foldl]. rewrite zlen_app in Hl. change (zlen [r]) with 1 in Hl. apply record_inv; [lia|]. apply IH. lia. }
  clearbody s. unfold snapshot, size. rewrite H. set (n := if cap <? _ then _ else _).
  assert (n = Z.min cap (Z.min (zlen l) kCapacity)) as En.
  { unfold n. destruct (Z.ltb_spec (zlen l) kCapacity), (Z.ltb_spec cap (zlen l)), (Z.ltb_spec cap kCapacity); lia. }
  rewrite <- En. pose proof (zlen_nonneg l) as Hn0. assert (0 <= n <= zlen l /\ n <= kCapacity) as [Hn Hnk] by (unfold kCapacity in *; lia).
  clearbody n. clear En. unfold zlen in *.
  rewrite (u64_small (Z.of_nat (length l) - n)) by lia.
  assert (forall m i, (i + m = Z.to_nat n)%nat ->
    omap (fun i => ring_ s !! slot (Z.of_nat (length l) - n ⊞ Z.of_nat i)) (seq i m) = drop (length l - Z.to_nat n + i) l) as Hm.
  { induction m as [|m IH]; intros i Hi; cbn [seq omap list_omap].
    - rewrite drop_ge by lia. done.
    - rewrite (u64_small (Z.of_nat (length l) - n + Z.of_nat i)) by lia.
      destruct (lookup_lt_is_Some_2 l (length l - Z.to_nat n + i)) as [x Hx]; [lia|].
      replace (Z.of_nat (length l) - n + Z.of_nat i) with (Z.of_nat (length l - Z.to_nat n + i)) by lia.
      rewrite (R _ x Hx) by lia. rewrite (drop_S _ _ _ Hx). f_equal.
      replace (S (length l - Z.to_nat n + i)) with (length l - Z.to_nat n + S i)%nat by lia. apply IH. lia. }
  rewrite Hm by lia. f_equal. lia.
Qed.

End Records.

Lemma recorder_keeps_the_last_witness :
  snapshot 2 (foldl record (recorder 0) [5; 6; 7]) = drop (length [5; 6; 7] - Z.to_nat (Z.min 2 (Z.min (zlen [5; 6; 7]) kCapacity))) [5; 6; 7].
Proof. apply (recorder_keeps_the_last 0 2 [5; 6; 7]); [lia|reflexivity]. Defined.

End Recorder.
