(* ===== verification/Memory.v ===== *)
(** * Arena and object pools

    [Arena] of [src/include/afx/core/arena.hpp] and [Pool] of
    [src/include/afx/core/pool.hpp].  Addresses are 64-bit words.  The arena is
    shared: other users may allocate from it between any two operations.  The heap is
    a parameter, the address of the n-th block it gives; what it promises is that a
    block overlaps neither another nor the arena's region. *)

From stdpp Require Import base option gmap list.
From Stdlib Require Import ZArith Lia.
From S2P Require Import Prelude.
Local Open Scope Z_scope.
Local Open Scope afx_scope.

(** ** Pairwise properties *)

Section Pairwise.
Context {A : Type} (R : A -> A -> Prop).

Fixpoint pairwise (l : list A) : Prop := match l with [] => True | x :: l => Forall (R x) l /\ pairwise l end.

Lemma pairwise_app l k : pairwise (l ++ k) <-> pairwise l /\ pairwise k /\ (forall x y, x ∈ l -> y ∈ k -> R x y).
Proof.
  induction l as [|x l IH]; cbn [app pairwise].
  - split; [intros H; repeat split; [done|]; intros ? ? Hx; by apply elem_of_nil in Hx|tauto].
  - rewrite IH, Forall_app. split.
    + intros ([H1 H2] & H3 & H4 & H5). repeat split; try done. intros y z Hy Hz. apply elem_of_cons in Hy as [->|Hy]; [|by apply H5].
      by eapply Forall_forall in H2.
    + intros ([H1 H2] & H3 & H4). repeat split; try done.
      * apply Forall_forall. intros z Hz. apply H4; [by left|done].
      * intros y z Hy Hz. apply H4; [by right|done].
Qed.

Lemma pairwise_perm l k : (forall x y, R x y -> R y x) -> l ≡ₚ k -> pairwise l -> pairwise k.
Proof.
  intros Hs Hp. induction Hp as [|x l k Hp IH|x y l|l k m _ IH1 _ IH2]; cbn; auto.
  - intros [H1 H2]. split; [|auto]. by rewrite <- Hp.
  - intros (H1 & H2 & H3). apply Forall_cons in H1 as [H0 H1]. repeat split; try done. apply Forall_cons. auto.
Qed.

Lemma pairwise_cons_elem l x y : pairwise (x :: l) -> y ∈ l -> R x y.
Proof. cbn. intros [H _] Hy. by eapply Forall_forall in H. Qed.

End Pairwise.

Module Arena.

Record Arena := mkArena { data : Z; size : Z; off_ : Z }.

Definition alloc (n align : Z) (a : Arena) : option Z * Arena :=
  let cur := data a ⊞ off_ a in
  let al := (cur ⊞ align ⊟ 1) / align ⊠ align in
  let next := al ⊟ data a ⊞ n in
  if size a <? next then (None, a) else (Some al, mkArena (data a) (size a) next).

Definition used (a : Arena) : Z := off_ a.
Definition remaining (a : Arena) : Z := size a ⊟ off_ a.
Definition owns (p : Z) (a : Arena) : bool := (data a <=? p) && (p <? data a ⊞ size a).

(** A region of the address space of which a prefix is in use. *)
Definition arena_ok (a : Arena) : Prop := 0 <= data a /\ 0 <= off_ a <= size a /\ data a + size a < 2 ^ 62.

Definition align_up (x align : Z) : Z := (x + align - 1) / align * align.

Lemma align_up_spec x align : 0 < align -> x <= align_up x align < x + align /\ align_up x align mod align = 0.
Proof.
  intros H. unfold align_up. split; [|apply Z.mod_mul; lia].
  pose proof (Z.mod_pos_bound (x + align - 1) align H). pose proof (Z.div_mod (x + align - 1) align). lia.
Qed.

Lemma alloc_spec n align a :
  arena_ok a -> 0 <= n < 2 ^ 62 -> 0 < align < 2 ^ 62 ->
  match alloc n align a with
  | (Some p, a') =>
      p mod align = 0 /\ data a + off_ a <= p /\ p + n = data a + off_ a' /\ arena_ok a' /\ data a' = data a /\ size a' = size a
  | (None, a') => a' = a /\ data a + size a < align_up (data a + off_ a) align + n
  end.
Proof.
  intros (Hd & Ho & Hs) Hn Ha. pose proof (align_up_spec (data a + off_ a) align) as [Hr Hm]; [lia|]. unfold alloc.
  rewrite (u64_small (data a + off_ a)) by lia. rewrite (u64_small (data a + off_ a + align)) by lia.
  rewrite (u64_small (data a + off_ a + align - 1)) by lia.
  change ((data a + off_ a + align - 1) / align * align) with (align_up (data a + off_ a) align).
  rewrite (u64_small (align_up _ _)) by lia. rewrite (u64_small (align_up _ _ - data a)) by lia. rewrite u64_small by lia.
  destruct (Z.ltb_spec (size a) (align_up (data a + off_ a) align - data a + n)); unfold arena_ok; cbn; [split; [done|lia]|].
  repeat split; try done; lia.
Qed.

(** The arena's allocations are aligned, in range and never overlap: a result is
    aligned, begins at or after everything in use before, ends exactly where the
    arena is in use afterwards, within the region; and an allocation is refused only when the
    aligned block does not fit, leaving the arena as it was. *)
Theorem arena_alloc_is_bump n align a :
  arena_ok a -> 0 <= n < 2 ^ 62 -> 0 < align < 2 ^ 62 ->
  match alloc n align a with
  | (Some p, a') =>
      p mod align = 0 /\ data a + off_ a <= p /\ p + n = data a + off_ a' /\ arena_ok a' /\ data a' = data a /\ size a' = size a
  | (None, a') => a' = a /\ data a + size a < align_up (data a + off_ a) align + n
  end.
Proof. apply alloc_spec. Qed.

(** The size computation wraps: a request near the size of the address space is
    granted, and moves the arena backwards. *)
Lemma huge_request_is_granted :
  alloc (2 ^ 64 - 16) 16 (mkArena 4096 1024 512) = (Some 4608, mkArena 4096 1024 496).
Proof. vm_compute. reflexivity. Qed.

Lemma arena_alloc_is_bump_witness :
  alloc 100 16 (mkArena 4096 1024 5) = (Some 4112, mkArena 4096 1024 116) /\ 4112 mod 16 = 0.
Proof.
  assert (alloc 100 16 (mkArena 4096 1024 5) = (Some 4112, mkArena 4096 1024 116)) as E by (vm_compute; reflexivity).
  split; [exact E|]. pose proof (arena_alloc_is_bump 100 16 (mkArena 4096 1024 5)) as H. rewrite E in H.
  apply H; unfold arena_ok; cbn; lia.
Defined.

End Arena.

(** ** Blocks carved into slots *)

Module Carve.

(** A block at [base], [n] slots of [room] bytes from [first] on, every [stride]. *)
Record Block := mkBlock { base : Z; len : Z; first : Z; stride : Z; room : Z; n : nat }.

Definition slots (b : Block) : list (Z * Z) := (fun i => (base b + first b + stride b * Z.of_nat i, room b)) <$> seq 0 (n b).

Definition block_ok (b : Block) : Prop :=
  0 <= first b /\ 0 < room b <= stride b /\ (n b = O \/ first b + stride b * (Z.of_nat (n b) - 1) + room b <= len b).

Definition apart (x y : Z * Z) : Prop := fst x + snd x <= fst y \/ fst y + snd y <= fst x.
Definition blocks_apart (b c : Block) : Prop := base b + len b <= base c \/ base c + len c <= base b.

Lemma apart_sym x y : apart x y -> apart y x.
Proof. unfold apart. tauto. Qed.

Lemma slots_inside b x : block_ok b -> x ∈ slots b -> base b <= fst x /\ fst x + snd x <= base b + len b /\ snd x = room b /\ 0 < room b.
Proof.
  intros (H1 & H2 & H3) Hx. unfold slots in Hx. apply list_elem_of_fmap in Hx as (i & -> & Hi). apply elem_of_seq in Hi. cbn. nia.
Qed.

Lemma slots_apart b : block_ok b -> pairwise apart (slots b).
Proof.
  intros (H1 & H2 & _). unfold slots. generalize 0%nat. induction (n b) as [|m IH]; intros i; cbn [seq fmap list_fmap pairwise]; [done|].
  split; [|apply IH]. apply Forall_forall. intros y Hy. apply list_elem_of_fmap in Hy as (j & -> & Hj). apply elem_of_seq in Hj.
  left. cbn. nia.
Qed.

Lemma all_slots_apart bs : Forall block_ok bs -> pairwise blocks_apart bs -> pairwise apart (concat (slots <$> bs)).
Proof.
  induction bs as [|b bs IH]; intros Ho Hp; [done|]. apply Forall_cons in Ho as [Hb Ho]. destruct Hp as [Hp1 Hp2].
  cbn. apply pairwise_app. split; [by apply slots_apart|]. split; [by apply IH|]. intros x y Hx Hy.
  apply list_elem_of_In, in_concat in Hy as (l & Hl & Hy). apply list_elem_of_In, list_elem_of_fmap in Hl as (c & -> & Hc).
  apply list_elem_of_In in Hy. rewrite Forall_forall in Ho, Hp1. pose proof (slots_inside b x Hb Hx). pose proof (slots_inside c y (Ho c Hc) Hy).
  destruct (Hp1 c Hc); unfold apart; lia.
Qed.

Lemma length_slots b : length (slots b) = n b.
Proof. unfold slots. by rewrite length_fmap, length_seq. Qed.

End Carve.

Module Pool.
Import Arena Carve.

(** The layout of [Slot] and [Chunk] for a [T] of this size and alignment. *)
Record Layout := mkLayout { size_T : Z; align_T : Z }.
Definition slot_align (l : Layout) : Z := Z.max 8 (align_T l).
Definition slot_size (l : Layout) : Z := align_up (Z.max 8 (size_T l)) (slot_align l).
Definition storage_offset (l : Layout) : Z := align_up 8 (align_T l).
Definition chunk_size (l : Layout) : Z := align_up (storage_offset l + slot_size l) (slot_align l).
Definition header_size (l : Layout) : Z := chunk_size l - slot_size l.

Record Pool := mkPool {
  arena_ : option Arena;
  chunk_objs_ : nat;
  free_ : list Z;
  live : list Z;
  arena_chunks_ : Z;
  heap_chunk_count_ : nat;
  blocks : list Block }.

Definition pool (a : option Arena) (objs_per_chunk : nat) : Pool :=
  mkPool a (if decide (objs_per_chunk = O) then 1 else objs_per_chunk) [] [] 0 0 [].

Definition chunk_bytes (l : Layout) (p : Pool) : Z := header_size l + Z.of_nat (chunk_objs_ p) * slot_size l.
Definition chunk_at (l : Layout) (mem : Z) (p : Pool) : Block :=
  mkBlock mem (chunk_bytes l p) (storage_offset l) (slot_size l) (slot_size l) (chunk_objs_ p).

(** The slots of the chunk are pushed one after the other. *)
Definition add_chunk (l : Layout) (mem : Z) (p : Pool) : Pool :=
  mkPool (arena_ p) (chunk_objs_ p) (reverse (fst <$> slots (chunk_at l mem p)) ++ free_ p) (live p)
    (arena_chunks_ p) (heap_chunk_count_ p) (chunk_at l mem p :: blocks p).

Definition grow (heap : nat -> Z) (l : Layout) (p : Pool) : Pool :=
  let from_arena := match arena_ p with Some a => alloc (chunk_bytes l p) (align_T l) a | None => (None, mkArena 0 0 0) end in
  match from_arena with
  | (Some mem, a) =>
      add_chunk l mem (mkPool (Some a) (chunk_objs_ p) (free_ p) (live p) (arena_chunks_ p + 1) (heap_chunk_count_ p) (blocks p))
  | (None, _) =>
      add_chunk l (heap (heap_chunk_count_ p))
        (mkPool (arena_ p) (chunk_objs_ p) (free_ p) (live p) (arena_chunks_ p) (S (heap_chunk_count_ p)) (blocks p))
  end.

Definition construct (heap : nat -> Z) (l : Layout) (p : Pool) : option Z * Pool :=
  let p := match free_ p with [] => grow heap l p | _ => p end in
  match free_ p with
  | [] => (None, p)
  | s :: r => (Some s, mkPool (arena_ p) (chunk_objs_ p) r (s :: live p) (arena_chunks_ p) (heap_chunk_count_ p) (blocks p))
  end.

(** Of a live object. *)
Definition destroy (x : Z) (p : Pool) : option Pool :=
  if decide (x ∈ live p) then
    Some (mkPool (arena_ p) (chunk_objs_ p) (x :: free_ p) (filter (fun y => y <> x) (live p)) (arena_chunks_ p) (heap_chunk_count_ p) (blocks p))
  else None.

Definition allocated (p : Pool) : Z := zlen (live p).
Definition capacity (p : Pool) : Z := (arena_chunks_ p + Z.of_nat (heap_chunk_count_ p)) * Z.of_nat (chunk_objs_ p).

(** [Other]: another user of the arena allocates. *)
Inductive Action := Construct | Destroy (x : Z) | Other (n align : Z).

Definition step (heap : nat -> Z) (l : Layout) (a : Action) (p : Pool) : option Pool :=
  match a with
  | Construct => Some (snd (construct heap l p))
  | Destroy x => destroy x p
  | Other k align =>
      Some (mkPool (match arena_ p with Some a => Some (snd (alloc k align a)) | None => None end) (chunk_objs_ p) (free_ p) (live p)
              (arena_chunks_ p) (heap_chunk_count_ p) (blocks p))
  end.

Fixpoint run (heap : nat -> Z) (l : Layout) (acts : list Action) (p : Pool) : option Pool :=
  match acts with [] => Some p | a :: acts => match step heap l a p with Some p => run heap l acts p | None => None end end.

(** ** Objects never overlap *)

Definition layout_ok (l : Layout) : Prop := 0 < size_T l < 2 ^ 30 /\ 0 < align_T l < 2 ^ 30.

Lemma layout_facts l : layout_ok l -> 0 < slot_size l < 2 ^ 32 /\ 0 <= storage_offset l <= header_size l /\ header_size l < 2 ^ 33.
Proof.
  intros [Hs Ha]. unfold header_size, chunk_size, slot_size, storage_offset, slot_align.
  pose proof (align_up_spec (Z.max 8 (size_T l)) (Z.max 8 (align_T l))) as [H1 _]; [lia|].
  pose proof (align_up_spec 8 (align_T l)) as [H2 _]; [lia|].
  pose proof (align_up_spec (align_up 8 (align_T l) + align_up (Z.max 8 (size_T l)) (Z.max 8 (align_T l))) (Z.max 8 (align_T l))) as [H3 _]; [lia|].
  lia.
Qed.

Section Inv.
Context (heap : nat -> Z) (l : Layout) (k : nat) (region size0 : Z).

(** What the heap promises for blocks of [bytes] bytes. *)
Definition heap_apart (bytes : Z) : Prop :=
  (forall i j, (i < j)%nat -> heap i + bytes <= heap j \/ heap j + bytes <= heap i) /\
  (forall i, heap i + bytes <= region \/ region + size0 <= heap i).

Definition bytes : Z := header_size l + Z.of_nat k * slot_size l.

Record inv (p : Pool) : Prop := {
  p_objs : chunk_objs_ p = k;
  p_arena : forall a, arena_ p = Some a -> arena_ok a /\ data a = region /\ size a = size0;
  p_blocks : Forall block_ok (blocks p);
  p_apart : pairwise blocks_apart (blocks p);
  p_where : forall b, b ∈ blocks p -> len b = bytes /\
    ((exists a, arena_ p = Some a /\ region <= base b /\ base b + len b <= region + off_ a) \/
     (exists i, (i < heap_chunk_count_ p)%nat /\ base b = heap i));
  p_slots : (fun x => (x, slot_size l)) <$> (live p ++ free_ p) ≡ₚ concat (slots <$> blocks p);
  p_capacity : length (live p ++ free_ p) = (Z.to_nat (arena_chunks_ p + Z.of_nat (heap_chunk_count_ p)) * k)%nat /\ 0 <= arena_chunks_ p }.

Lemma chunk_ok mem p : layout_ok l -> chunk_objs_ p = k -> block_ok (chunk_at l mem p) /\ len (chunk_at l mem p) = bytes.
Proof.
  intros Hl Hk. pose proof (layout_facts l Hl). unfold block_ok, chunk_at, chunk_bytes, bytes. rewrite Hk. cbn. split; [|done].
  split; [lia|]. split; [lia|]. destruct k; [by left|right]. nia.
Qed.

Lemma chunk_slots mem p : layout_ok l -> (fun x => (x, slot_size l)) <$> (fst <$> slots (chunk_at l mem p)) = slots (chunk_at l mem p).
Proof. intros Hl. unfold slots. rewrite <- !list_fmap_compose. apply list_fmap_ext. by intros i x _. Qed.

(** Adding a chunk that overlaps no other. *)
Lemma add_chunk_slots mem p :
  layout_ok l ->
  (fun x => (x, slot_size l)) <$> (live p ++ free_ p) ≡ₚ concat (slots <$> blocks p) ->
  (fun x => (x, slot_size l)) <$> (live (add_chunk l mem p) ++ free_ (add_chunk l mem p)) ≡ₚ concat (slots <$> blocks (add_chunk l mem p)).
Proof.
  intros Hl H. cbn [add_chunk live free_ blocks fmap list_fmap concat]. rewrite app_assoc, (Permutation_app_comm (live p)), <- app_assoc.
  rewrite reverse_Permutation. rewrite fmap_app, chunk_slots by done. apply Permutation_app_head. exact H.
Qed.

Lemma grow_inv p :
  layout_ok l -> heap_apart bytes -> bytes < 2 ^ 62 -> inv p -> inv (grow heap l p).
Proof.
  intros Hl [Hh1 Hh2] Hb [Ob Ar Bl Ap Wh Sl [Cp Cn]]. pose proof (layout_facts l Hl) as Hf.
  assert (chunk_bytes l p = bytes) as Ecb by (unfold chunk_bytes, bytes; by rewrite Ob).
  assert (0 <= bytes) as Hb0 by (unfold bytes; nia).
  unfold grow. destruct (match arena_ p with Some a => _ | None => _ end) as [[mem|] a'] eqn:Ea.
  - destruct (arena_ p) as [a|] eqn:Ear; [|done]. destruct (Ar a eq_refl) as (Ha & Hd & Hsz).
    pose proof (alloc_spec (chunk_bytes l p) (align_T l) a Ha) as Hal. rewrite Ea in Hal. rewrite Ecb in *.
    destruct Hal as (_ & Hp1 & Hp2 & Hok & Hd' & Hs'); [lia|destruct Hl; lia|].
    set (p1 := mkPool _ _ _ _ _ _ _). destruct (chunk_ok mem p1 Hl Ob) as [Hbo Hbl].
    constructor; cbn [add_chunk chunk_objs_ arena_ blocks live free_ arena_chunks_ heap_chunk_count_ p1].
    + done.
    + intros x [= <-]. split; [done|]. lia.
    + by apply Forall_cons.
    + split; [|done]. apply Forall_forall. intros b Hbin. destruct (Wh b Hbin) as [Hlen [(x & [= <-] & H1 & H2)|(i & Hi & Hbi)]].
      * unfold blocks_apart. right. cbn. lia.
      * unfold blocks_apart. cbn [base chunk_at] . rewrite Hlen, Hbi. change (len _) with (chunk_bytes l p1).
        replace (chunk_bytes l p1) with bytes by (symmetry; exact Ecb). destruct Ha as (? & ? & ?), Hok as (? & ? & ?). destruct (Hh2 i); [right|left]; lia.
    + intros b Hbin. apply elem_of_cons in Hbin as [->|Hbin].
      * split; [done|]. left. exists a'. split; [done|]. cbn [base chunk_at]. change (len _) with (chunk_bytes l p1).
        replace (chunk_bytes l p1) with bytes by (symmetry; exact Ecb). destruct Ha as (? & ? & ?). lia.
      * destruct (Wh b Hbin) as [Hlen [(x & [= <-] & H1 & H2)|?]]; (split; [done|]); [left|by right]. exists a'. split; [done|]. lia.
    + apply (add_chunk_slots mem p1); done.
    + rewrite length_app, length_app, length_reverse, length_fmap, length_slots. cbn [n chunk_at chunk_objs_ p1]. rewrite length_app in Cp.
      rewrite Ob. split; [|lia]. replace (Z.to_nat (arena_chunks_ p + 1 + Z.of_nat (heap_chunk_count_ p))) with
        (S (Z.to_nat (arena_chunks_ p + Z.of_nat (heap_chunk_count_ p)))) by lia. lia.
  - set (p1 := mkPool _ _ _ _ _ _ _). set (mem := heap _). destruct (chunk_ok mem p1 Hl Ob) as [Hbo Hbl].
    constructor; cbn [add_chunk chunk_objs_ arena_ blocks live free_ arena_chunks_ heap_chunk_count_ p1].
    + done.
    + done.
    + by apply Forall_cons.
    + split; [|done]. apply Forall_forall. intros b Hbin. unfold blocks_apart. rewrite Hbl. cbn [base chunk_at].
      destruct (Wh b Hbin) as [Hlen [(x & Hx & H1 & H2)|(i & Hi & Hbi)]]; rewrite Hlen in *.
      * destruct (Ar x Hx) as ((? & ? & ?) & ? & ?). pose proof (Hh2 (heap_chunk_count_ p)) as Hx2. fold mem in Hx2. destruct Hx2; lia.
      * rewrite Hbi. pose proof (Hh1 i (heap_chunk_count_ p) Hi) as Hx1. fold mem in Hx1. destruct Hx1; [right|left]; lia.
    + intros b Hbin. apply elem_of_cons in Hbin as [->|Hbin].
      * split; [done|]. right. exists (heap_chunk_count_ p). split; [lia|done].
      * destruct (Wh b Hbin) as [Hlen [?|(i & Hi & Hbi)]]; (split; [done|]); [by left|right]. exists i. split; [lia|done].
    + apply (add_chunk_slots mem p1); done.
    + rewrite length_app, length_app, length_reverse, length_fmap, length_slots. cbn [n chunk_at chunk_objs_ p1]. rewrite length_app in Cp.
      rewrite Ob. split; [|lia]. replace (Z.to_nat (arena_chunks_ p + Z.of_nat (S (heap_chunk_count_ p)))) with
        (S (Z.to_nat (arena_chunks_ p + Z.of_nat (heap_chunk_count_ p)))) by lia. lia.
Qed.

Lemma move_inv p f lv :
  lv ++ f ≡ₚ live p ++ free_ p -> inv p ->
  inv (mkPool (arena_ p) (chunk_objs_ p) f lv (arena_chunks_ p) (heap_chunk_count_ p) (blocks p)).
Proof.
  intros Hp [Ob Ar Bl Ap Wh Sl [Cp Cn]]. constructor; cbn; try done.
  - by rewrite Hp.
  - split; [|done]. by rewrite Hp.
Qed.

Lemma live_nodup p : layout_ok l -> inv p -> NoDup (live p ++ free_ p).
Proof.
  intros Hl Hi. pose proof (all_slots_apart _ (p_blocks _ Hi) (p_apart _ Hi)) as Ha.
  apply (pairwise_perm apart _ _ apart_sym (symmetry (p_slots _ Hi))) in Ha. pose proof (layout_facts l Hl) as [Hs _].
  induction (live p ++ free_ p) as [|x m IH]; [constructor|]. cbn in Ha. destruct Ha as [Hx Hm]. constructor; [|by apply IH].
  intros Hin. rewrite Forall_forall in Hx. specialize (Hx (x, slot_size l)). destruct Hx as [H|H]; [|cbn in H; lia|cbn in H; lia].
  apply list_elem_of_fmap. eauto.
Qed.

Lemma step_inv a p p' :
  layout_ok l -> heap_apart bytes -> bytes < 2 ^ 62 ->
  (forall m al, a = Other m al -> 0 <= m < 2 ^ 62 /\ 0 < al < 2 ^ 62) ->
  step heap l a p = Some p' -> inv p -> inv p'.
Proof.
  intros Hl Hh Hb Ho H Hi. destruct a as [|x|m al]; cbn in H.
  - injection H as <-. unfold construct. set (p1 := match free_ p with [] => _ | _ => _ end).
    assert (inv p1) as Hi1 by (unfold p1; destruct (free_ p); [by apply grow_inv|done]). clearbody p1.
    destruct (free_ p1) as [|s r] eqn:Ef; [done|]. apply (move_inv p1 r (s :: live p1)); [|done]. rewrite Ef.
    cbn. by rewrite Permutation_middle.
  - unfold destroy in H. destruct (decide _) as [Hx|]; [|done]. injection H as <-. apply move_inv; [|done].
    pose proof (live_nodup p Hl Hi) as Hn. apply NoDup_app in Hn as (Hn & _ & _).
    rewrite <- Permutation_middle. rewrite app_comm_cons. apply Permutation_app_tail. clear -Hn Hx.
    apply NoDup_Permutation; [|done|].
    + apply NoDup_cons. split; [|by apply NoDup_filter]. rewrite list_elem_of_filter. tauto.
    + intros y. rewrite elem_of_cons, list_elem_of_filter. destruct (decide (y = x)) as [->|]; tauto.
  - injection H as <-. destruct Hi as [Ob Ar Bl Ap Wh Sl Cp]. destruct (Ho m al eq_refl) as [Hm Hal].
    destruct (arena_ p) as [a|] eqn:Ea; [|by constructor; try done; rewrite ?Ea]. destruct (Ar a eq_refl) as (Ha & Hd & Hsz).
    pose proof (alloc_spec m al a Ha Hm Hal) as Hs. destruct (alloc m al a) as [[q|] a'].
    + destruct Hs as (_ & H1 & H2 & H3 & H4 & H5). constructor; cbn; try done.
      * intros b [= <-]. split; [done|]. lia.
      * intros b Hbin. destruct (Wh b Hbin) as [Hlen [(y & Hy & G1 & G2)|?]]; (split; [done|]); [left|by right]. simplify_eq.
        exists a'. split; [done|]. lia.
    + destruct Hs as [-> _]. by constructor.
Qed.

End Inv.

(** Pool objects never overlap.  Whatever is constructed and destroyed, and whatever
    else is allocated from the shared arena meanwhile, the live objects and the
    free slots are pairwise disjoint memory (so no slot is handed out twice), the
    pool's capacity counts exactly them, and its blocks lie in the arena's region or the heap's blocks. *)
Theorem pool_objects_are_apart heap l a objs acts p :
  layout_ok l -> arena_ok a -> objs <> O -> bytes l objs < 2 ^ 62 ->
  heap_apart heap (data a) (size a) (bytes l objs) ->
  (forall m al, Other m al ∈ acts -> 0 <= m < 2 ^ 62 /\ 0 < al < 2 ^ 62) ->
  run heap l acts (pool (Some a) objs) = Some p ->
  pairwise apart ((fun x => (x, slot_size l)) <$> (live p ++ free_ p)) /\ NoDup (live p ++ free_ p) /\
  capacity p = zlen (live p ++ free_ p) /\ allocated p <= capacity p.
Proof.
  intros Hl Ha Hn Hb Hh Ho H.
  assert (inv heap l objs (data a) (size a) p) as Hi.
  { assert (inv heap l objs (data a) (size a) (pool (Some a) objs)) as H0.
    { constructor; cbn; try done; [by destruct (decide _)|intros x [= <-]; done|intros b Hx; by apply elem_of_nil in Hx]. }
    revert H0 H Ho. generalize (pool (Some a) objs). induction acts as [|c acts IH]; intros q H0 H Ho; cbn in H; [by simplify_eq|].
    destruct (step heap l c q) as [q1|] eqn:E; [|done]. apply (IH q1); [|done|intros m al Hm; apply Ho; by right].
    apply (step_inv heap l objs (data a) (size a) c q); try done. intros m al ->. apply Ho. by left. }
  split; [|split; [by apply (live_nodup heap l objs (data a) (size a))|]].
  - apply (pairwise_perm apart _ _ apart_sym (symmetry (p_slots _ _ _ _ _ _ Hi))). apply all_slots_apart; apply Hi.
  - destruct (p_capacity _ _ _ _ _ _ Hi) as [Hc Hc0]. pose proof (p_objs _ _ _ _ _ _ Hi) as Hob.
    assert (capacity p = zlen (live p ++ free_ p)) as E by (unfold capacity, zlen; rewrite Hob, Hc, Nat2Z.inj_mul, Z2Nat.id by lia; done).
    split; [done|]. rewrite E. unfold allocated. rewrite zlen_app. pose proof (zlen_nonneg (free_ p)). lia.
Qed.

Definition demo_heap (i : nat) : Z := 2 ^ 40 + 4096 * Z.of_nat i.

Lemma pool_objects_are_apart_witness :
  exists p, run demo_heap (mkLayout 24 8) [Construct; Other 100 16; Construct; Construct; Destroy 4104; Construct]
              (pool (Some (mkArena 4096 256 0)) 2) = Some p /\
    NoDup (live p ++ free_ p) /\ capacity p = 4 /\ heap_chunk_count_ p = 0%nat.
Proof.
  eexists. split; [vm_compute; reflexivity|]. split; [|split; vm_compute; reflexivity].
  refine (proj1 (proj2 (pool_objects_are_apart demo_heap (mkLayout 24 8) (mkArena 4096 256 0) 2
    [Construct; Other 100 16; Construct; Construct; Destroy 4104; Construct] _ _ _ _ _ _ _ _))).
  - unfold layout_ok. cbn. lia.
  - unfold arena_ok. cbn. lia.
  - discriminate.
  - vm_compute. reflexivity.
  - change (bytes (mkLayout 24 8) 2) with 56. unfold heap_apart, demo_heap. cbn [data size]. split; intros; lia.
  - intros m al Hm. apply elem_of_cons in Hm as [?|Hm]; [done|]. apply elem_of_cons in Hm as [Hm|Hm]; [injection Hm as -> ->; lia|].
    repeat (apply elem_of_cons in Hm as [?|Hm]; [done|]). by apply elem_of_nil in Hm.
  - vm_compute. reflexivity.
Defined.

(** A chunk is only aligned for [T]: for a [T] of byte alignment the slots, which hold
    a pointer while free, are misaligned once anything of odd size was allocated. *)
Lemma byte_aligned_slots_are_misaligned :
  exists p, run demo_heap (mkLayout 1 1) [Other 3 1; Construct] (pool (Some (mkArena 4096 256 0)) 2) = Some p /\
    live p = [4115] /\ 4115 mod slot_align (mkLayout 1 1) = 3.
Proof. eexists. split; [vm_compute; reflexivity|]. split; vm_compute; reflexivity. Qed.

End Pool.
