(* ===== verification/HandleTable.v ===== *)
(** * Generation-checked handles over a slab

    Models [include/afx/core/handle_table.hpp]: [Handle], [HandleTable::Slot]
    and every operation of [HandleTable].  The deque of slots is a list indexed
    by [idx]; the [storage] bytes of a slot are [None] while no [T] lives there.
    [free_] is a stack whose top is the back of the list, [deferred_] the queue
    of released indices waiting for [reclaim].

    The theorems: the table invariant is preserved by every operation; the
    table refines a finite map from handles to objects; a released slot is not
    reused before [reclaim]; and a released handle stays dead until its slot's
    32-bit generation has gone through a full cycle. *)

From stdpp Require Import base gmap list.
From Stdlib Require Import ZArith Lia.
From S2P Require Import Prelude.

Local Open Scope Z_scope.

Module Handles.

Record Handle := mkHandle { idx : nat; gen : Z }.

#[global] Instance Handle_eq_dec : EqDecision Handle.
Proof. solve_decision. Defined.

#[global] Instance Handle_countable : Countable Handle.
Proof.
  refine (inj_countable' (fun h => (idx h, gen h)) (fun p => mkHandle p.1 p.2) _).
  by intros [].
Defined.

Definition valid (h : Handle) : bool := negb (gen h =? 0).

(** [Handle{}]: the null handle. *)
Definition null_handle : Handle := mkHandle 0 0.

Section Table.
Context {T : Type}.

Record Slot := mkSlot {
  slot_gen : Z;
  alive : bool;
  storage : option T;
}.

Record HandleTable := mkTable {
  slots_ : list Slot;
  first_gen_ : Z;
  free_ : list nat;
  deferred_ : list nat;
  live_ : Z;
}.

(** [HandleTable(first_gen)]; the default constructor is [make 1]. *)
Definition make (first_gen : Z) : HandleTable :=
  mkTable [] (if first_gen =? 0 then 1 else first_gen) [] [] 0.

Definition emplace (v : T) (t : HandleTable) : Handle * HandleTable :=
  let '(i, slots, free) :=
    match last (free_ t) with
    | Some i => (i, slots_ t, removelast (free_ t))
    | None =>
        (Z.to_nat (u32 (Z.of_nat (length (slots_ t)))),
         slots_ t ++ [mkSlot (first_gen_ t) false None],
         free_ t)
    end in
  match slots !! i with
  | Some s =>
      (mkHandle i (slot_gen s),
       mkTable (<[i := mkSlot (slot_gen s) true (Some v)]> slots)
               (first_gen_ t) free (deferred_ t) (u64 (live_ t + 1)))
  | None => (mkHandle i 0, t)
  end.

Definition get (h : Handle) (t : HandleTable) : option T :=
  if negb (valid h) || (length (slots_ t) <=? idx h)%nat then None
  else match slots_ t !! idx h with
       | Some s =>
           if negb (alive s) || negb (slot_gen s =? gen h) then None
           else storage s
       | None => None
       end.

Definition contains (h : Handle) (t : HandleTable) : bool :=
  match get h t with Some _ => true | None => false end.

(** [++s.gen; if (s.gen == 0) s.gen = 1;] *)
Definition next_gen (g : Z) : Z :=
  let g' := u32 (g + 1) in if g' =? 0 then 1 else g'.

Definition release (h : Handle) (t : HandleTable) : HandleTable :=
  match get h t with
  | None => t
  | Some _ =>
      match slots_ t !! idx h with
      | Some s =>
          mkTable (<[idx h := mkSlot (next_gen (slot_gen s)) false None]> (slots_ t))
                  (first_gen_ t) (free_ t) (deferred_ t ++ [idx h]) (u64 (live_ t - 1))
      | None => t
      end
  end.

Definition reclaim (t : HandleTable) : HandleTable :=
  mkTable (slots_ t) (first_gen_ t) (free_ t ++ deferred_ t) [] (live_ t).

(** The write-through of a [T*] returned by [get]: the object in place. *)
Definition update (h : Handle) (f : T -> T) (t : HandleTable) : HandleTable :=
  match get h t, slots_ t !! idx h with
  | Some v, Some s =>
      mkTable (<[idx h := mkSlot (slot_gen s) (alive s) (Some (f v))]> (slots_ t))
              (first_gen_ t) (free_ t) (deferred_ t) (live_ t)
  | _, _ => t
  end.

Definition table_size (t : HandleTable) : Z := live_ t.
Definition capacity (t : HandleTable) : Z := Z.of_nat (length (slots_ t)).

(** [for_each]: the live objects with their handles, in slot order. *)
Fixpoint live_from (i : nat) (l : list Slot) : list (Handle * T) :=
  match l with
  | [] => []
  | s :: r =>
      match alive s, storage s with
      | true, Some v => (mkHandle i (slot_gen s), v) :: live_from (S i) r
      | _, _ => live_from (S i) r
      end
  end.

Definition for_each (t : HandleTable) : list (Handle * T) := live_from 0 (slots_ t).

Definition clear (t : HandleTable) : HandleTable :=
  mkTable [] (first_gen_ t) [] [] 0.

(** ** The invariant *)

Definition slot_ok (s : Slot) : Prop :=
  1 <= slot_gen s < 2 ^ 32 /\ (alive s = true <-> is_Some (storage s)).

Record wf (t : HandleTable) : Prop := {
  wf_cap : Z.of_nat (length (slots_ t)) < 2 ^ 32;
  wf_first : 1 <= first_gen_ t < 2 ^ 32;
  wf_slots : Forall slot_ok (slots_ t);
  wf_nodup : NoDup (free_ t ++ deferred_ t);
  wf_dead : forall i, i ∈ free_ t ++ deferred_ t <->
      exists s, slots_ t !! i = Some s /\ alive s = false;
  wf_live : live_ t = Z.of_nat (count_if alive (slots_ t));
}.

Lemma next_gen_range g : 1 <= g < 2 ^ 32 -> 1 <= next_gen g < 2 ^ 32.
Proof.
  intros Hg. unfold next_gen. pose proof (u32_range (g + 1)).
  case_test; lia.
Qed.

Lemma get_Some_iff h t v :
  wf t ->
  get h t = Some v <->
  exists s, slots_ t !! idx h = Some s /\ alive s = true /\
            slot_gen s = gen h /\ storage s = Some v.
Proof.
  intros Hwf. unfold get, valid. split.
  - intros H. case_test_in H; [done|]. destruct (slots_ t !! idx h) as [s|] eqn:Hs; [|done].
    destruct (alive s) eqn:Ha; [|done]. simpl in H.
    destruct (Z.eqb_spec (slot_gen s) (gen h)); naive_solver.
  - intros (s & Hs & Ha & Hg & Hv).
    pose proof (Forall_lookup_1 _ _ _ _ (wf_slots t Hwf) Hs) as [Hr _].
    destruct (Z.eqb_spec (gen h) 0); [lia|]. simpl.
    destruct (Nat.leb_spec (length (slots_ t)) (idx h)).
    { apply lookup_lt_Some in Hs. lia. }
    rewrite Hs, Ha. simpl. by destruct (Z.eqb_spec (slot_gen s) (gen h)).
Qed.

(** Room for one more object: a free slot, or an index that still fits
    [std::uint32_t]. *)
Definition room (t : HandleTable) : Prop :=
  free_ t <> [] \/ Z.of_nat (length (slots_ t)) + 1 < 2 ^ 32.

Lemma live_le_cap t : wf t -> 0 <= live_ t <= Z.of_nat (length (slots_ t)).
Proof.
  intros Hwf. rewrite (wf_live t Hwf).
  pose proof (count_if_length alive (slots_ t)). lia.
Qed.

(** The slot [emplace] picks: dead if it exists, and its generation. *)
Lemma emplace_eq v t :
  wf t -> room t ->
  exists i g slots free,
    emplace v t =
      (mkHandle i g,
       mkTable slots (first_gen_ t) free (deferred_ t) (live_ t + 1)) /\
    1 <= g < 2 ^ 32 /\
    slots !! i = Some (mkSlot g true (Some v)) /\
    (forall j, j <> i -> slots !! j = slots_ t !! j) /\
    ((free_ t = free ++ [i] /\ length slots = length (slots_ t) /\
      exists s, slots_ t !! i = Some s /\ alive s = false /\ slot_gen s = g /\
                slots = <[i := mkSlot g true (Some v)]> (slots_ t)) \/
     (free_ t = [] /\ free = [] /\ i = length (slots_ t) /\ g = first_gen_ t /\
      slots = slots_ t ++ [mkSlot g true (Some v)] /\ Z.of_nat (length slots) < 2 ^ 32)).
Proof.
  intros Hwf Hroom. pose proof (live_le_cap t Hwf) as Hlive.
  pose proof (wf_cap t Hwf) as Hcap. unfold emplace.
  destruct (last (free_ t)) as [i|] eqn:Hl.
  - apply last_snoc_inv in Hl.
    destruct (proj1 (wf_dead t Hwf i)) as (s & Hs & Hd).
    { rewrite Hl, !elem_of_app, list_elem_of_singleton. auto. }
    rewrite Hs. wrap_simpl.
    exists i, (slot_gen s), (<[i:=mkSlot (slot_gen s) true (Some v)]> (slots_ t)),
      (removelast (free_ t)).
    pose proof (Forall_lookup_1 _ _ _ _ (wf_slots t Hwf) Hs) as [Hr _].
    pose proof (lookup_lt_Some _ _ _ Hs).
    split_and!; [done|lia|lia| | |].
    + by apply list_lookup_insert_eq.
    + intros j Hj. by apply list_lookup_insert_ne.
    + left. split; [done|]. rewrite length_insert. eauto 10.
  - apply last_None_inv in Hl. rewrite Hl.
    destruct Hroom as [?|Hroom]; [done|].
    wrap_simpl. rewrite Nat2Z.id, lookup_app_r, Nat.sub_diag by lia. simpl.
    exists (length (slots_ t)), (first_gen_ t),
      (slots_ t ++ [mkSlot (first_gen_ t) true (Some v)]), [].
    pose proof (wf_first t Hwf).
    split_and!; [|lia|lia| | |].
    + f_equal. f_equal. rewrite insert_app_r_alt, Nat.sub_diag by lia. done.
    + rewrite lookup_app_r, Nat.sub_diag by lia. done.
    + intros j Hj. destruct (decide (j < length (slots_ t))%nat).
      * by rewrite lookup_app_l.
      * rewrite (lookup_ge_None_2 (slots_ t)) by lia.
        apply lookup_ge_None_2. rewrite length_app. simpl. lia.
    + right. split_and!; try done. rewrite length_app. simpl. lia.
Qed.

Lemma emplace_wf v t : wf t -> room t -> wf (emplace v t).2.
Proof.
  intros Hwf Hroom.
  destruct (emplace_eq v t Hwf Hroom)
    as (i & g & slots & free & -> & Hg & Hi & Hne & Hcase). simpl.
  assert (Hok : slot_ok (mkSlot g true (Some v))) by (split; simpl; [lia|naive_solver]).
  destruct Hcase as [(Hf & Hlen & s & Hs & Hd & _ & ->) | (Hf & -> & -> & -> & -> & Hlen)].
  - pose proof (wf_nodup t Hwf) as Hnd. rewrite Hf in Hnd.
    pose proof (lookup_lt_Some _ _ _ Hs) as Hlt.
    constructor; simpl.
    + rewrite Hlen. apply (wf_cap t Hwf).
    + apply (wf_first t Hwf).
    + apply Forall_insert; [apply (wf_slots t Hwf)|done].
    + rewrite <- app_assoc in Hnd. simpl in Hnd.
      rewrite NoDup_app in Hnd |- *. rewrite NoDup_cons in Hnd.
      destruct Hnd as (? & Hx & ? & ?). split_and!; try done. intros x Hin ?.
      apply (Hx x Hin). by right.
    + intros j. pose proof (wf_dead t Hwf j) as Hj. rewrite Hf in Hj.
      rewrite <- app_assoc in Hnd. simpl in Hnd.
      destruct (decide (j = i)) as [->|Hji].
      * rewrite list_lookup_insert_eq by done. split; [|naive_solver].
        rewrite NoDup_app, NoDup_cons in Hnd. destruct Hnd as (? & Hx & ? & ?).
        rewrite elem_of_app. intros [Hin|?]; [|done]. destruct (Hx i Hin). by left.
      * rewrite list_lookup_insert_ne by done. rewrite <- Hj.
        rewrite !elem_of_app, list_elem_of_singleton. naive_solver.
    + rewrite (wf_live t Hwf), (count_if_insert alive _ _ s) by done.
      rewrite Hd. simpl. lia.
  - pose proof (wf_dead t Hwf) as Hdead. pose proof (wf_nodup t Hwf) as Hnd.
    rewrite Hf in Hdead, Hnd.
    constructor; simpl; try done.
    + apply Forall_app; split; [apply (wf_slots t Hwf)|]. by apply Forall_singleton.
    + intros j. rewrite (Hdead j). simpl.
      destruct (decide (j < length (slots_ t))%nat).
      * by rewrite lookup_app_l.
      * split; intros (s & Hs & Hd); [apply lookup_lt_Some in Hs; lia|].
        rewrite lookup_app_r in Hs by lia.
        destruct (j - length (slots_ t))%nat as [|k]; simplify_eq/=.
    + rewrite (wf_live t Hwf), count_if_app. simpl. lia.
Qed.

Lemma emplace_get v t h' :
  wf t -> room t ->
  get h' (emplace v t).2 =
    if decide (h' = (emplace v t).1) then Some v else get h' t.
Proof.
  intros Hwf Hroom. pose proof (emplace_wf v t Hwf Hroom) as Hwf'.
  destruct (emplace_eq v t Hwf Hroom)
    as (i & g & slots & free & Heq & Hg & Hi & Hne & Hcase).
  rewrite Heq in *. simpl in *.
  apply option_eq. intros w. rewrite (get_Some_iff _ _ _ Hwf'). simpl.
  destruct (decide (h' = _)) as [->|Hd]; simpl.
  - rewrite Hi. split; [intros (s & [= <-] & _ & _ & Hv); done|intros [= ->]; eauto 10].
  - rewrite (get_Some_iff _ _ _ Hwf).
    destruct (decide (idx h' = i)) as [Hii|Hii]; [|by rewrite Hne].
    rewrite Hii, Hi. split.
    + intros (s & [= <-] & _ & Hgen & _). destruct Hd. destruct h'; simpl in *. by subst.
    + intros (s & Hs & Ha & Hgen & Hv).
      destruct Hcase as [(_ & _ & s' & Hs' & Hd' & _) | (_ & _ & -> & _)].
      * congruence.
      * apply lookup_lt_Some in Hs. lia.
Qed.

Lemma emplace_fresh v t : wf t -> room t -> get (emplace v t).1 t = None.
Proof.
  intros Hwf Hroom. apply eq_None_not_Some. intros [w Hw].
  destruct (emplace_eq v t Hwf Hroom)
    as (i & g & slots & free & Heq & Hg & Hi & Hne & Hcase).
  rewrite Heq in Hw. apply (get_Some_iff _ _ _ Hwf) in Hw as (s & Hs & Ha & _). simpl in *.
  destruct Hcase as [(_ & _ & s' & Hs' & Hd' & _) | (_ & _ & -> & _)].
  - congruence.
  - apply lookup_lt_Some in Hs. lia.
Qed.

Lemma release_eq h t v :
  wf t -> get h t = Some v ->
  exists s, slots_ t !! idx h = Some s /\ alive s = true /\ slot_gen s = gen h /\
    release h t =
      mkTable (<[idx h := mkSlot (next_gen (slot_gen s)) false None]> (slots_ t))
              (first_gen_ t) (free_ t) (deferred_ t ++ [idx h]) (live_ t - 1).
Proof.
  intros Hwf Hget. pose proof Hget as (s & Hs & Ha & Hg & _)%(get_Some_iff _ _ _ Hwf).
  exists s. unfold release. rewrite Hget, Hs.
  split_and!; try done. f_equal. apply u64_small.
  pose proof (live_le_cap t Hwf). pose proof (wf_cap t Hwf).
  assert (0 < live_ t); [|lia].
  rewrite (wf_live t Hwf).
  pose proof (count_if_insert alive _ _ _ (mkSlot 0 false None) Hs) as Hc.
  rewrite Ha in Hc. simpl in Hc. lia.
Qed.

Lemma release_dead h t : get h t = None -> release h t = t.
Proof. unfold release. by intros ->. Qed.

Lemma release_wf h t : wf t -> wf (release h t).
Proof.
  intros Hwf. destruct (get h t) as [v|] eqn:Hget; [|by rewrite release_dead].
  destruct (release_eq h t v Hwf Hget) as (s & Hs & Ha & Hg & ->).
  pose proof (lookup_lt_Some _ _ _ Hs) as Hlt.
  pose proof (Forall_lookup_1 _ _ _ _ (wf_slots t Hwf) Hs) as [Hr _].
  assert (Hnew : idx h ∉ free_ t ++ deferred_ t).
  { rewrite (wf_dead t Hwf). intros (s' & ? & ?). congruence. }
  constructor; simpl.
  - rewrite length_insert. apply (wf_cap t Hwf).
  - apply (wf_first t Hwf).
  - apply Forall_insert; [apply (wf_slots t Hwf)|].
    split; simpl; [by apply next_gen_range|]. split; [done|by intros [? ?]].
  - rewrite app_assoc. apply NoDup_app. split_and!.
    + apply (wf_nodup t Hwf).
    + intros x Hx ->%list_elem_of_singleton. done.
    + apply NoDup_singleton.
  - intros j. rewrite app_assoc, elem_of_app, (wf_dead t Hwf), list_elem_of_singleton.
    destruct (decide (j = idx h)) as [->|Hj].
    + rewrite list_lookup_insert_eq by done. naive_solver.
    + rewrite list_lookup_insert_ne by done. naive_solver.
  - rewrite (wf_live t Hwf), (count_if_insert alive _ _ s) by done.
    rewrite Ha. simpl. lia.
Qed.

Lemma release_get h t h' :
  wf t -> get h' (release h t) = if decide (h' = h) then None else get h' t.
Proof.
  intros Hwf. destruct (get h t) as [v|] eqn:Hget.
  2:{ rewrite release_dead by done. by case_decide; subst. }
  pose proof (release_wf h t Hwf) as Hwf'.
  destruct (release_eq h t v Hwf Hget) as (s & Hs & Ha & Hg & Heq).
  pose proof (lookup_lt_Some _ _ _ Hs) as Hlt.
  rewrite Heq in *. apply option_eq. intros w.
  rewrite (get_Some_iff _ _ _ Hwf'). simpl.
  destruct (decide (idx h' = idx h)) as [Hi|Hi].
  - rewrite Hi, list_lookup_insert_eq by done. case_decide.
    + split; [intros (? & [= <-] & ? & _)|]; done.
    + rewrite (get_Some_iff _ _ _ Hwf), Hi. split.
      * intros (? & [= <-] & ? & _). done.
      * intros (s' & Hs' & _ & Hg' & _). destruct H.
        destruct h, h'; simpl in *. congruence.
  - rewrite list_lookup_insert_ne by done.
    rewrite decide_False by congruence. by rewrite (get_Some_iff _ _ _ Hwf).
Qed.

Lemma reclaim_wf t : wf t -> wf (reclaim t).
Proof.
  intros []. constructor; simpl; rewrite ?app_nil_r; done.
Qed.

Lemma reclaim_get h t : get h (reclaim t) = get h t.
Proof. done. Qed.

Lemma update_eq h f t v :
  wf t -> get h t = Some v ->
  exists s, slots_ t !! idx h = Some s /\ alive s = true /\ slot_gen s = gen h /\
    update h f t =
      mkTable (<[idx h := mkSlot (slot_gen s) true (Some (f v))]> (slots_ t))
              (first_gen_ t) (free_ t) (deferred_ t) (live_ t).
Proof.
  intros Hwf Hget. pose proof Hget as (s & Hs & Ha & Hg & _)%(get_Some_iff _ _ _ Hwf).
  exists s. unfold update. rewrite Hget, Hs, Ha. done.
Qed.

Lemma update_dead h f t : get h t = None -> update h f t = t.
Proof. unfold update. by intros ->. Qed.

Lemma update_wf h f t : wf t -> wf (update h f t).
Proof.
  intros Hwf. destruct (get h t) as [v|] eqn:Hget; [|by rewrite update_dead].
  destruct (update_eq h f t v Hwf Hget) as (s & Hs & Ha & Hg & ->).
  pose proof (lookup_lt_Some _ _ _ Hs) as Hlt.
  pose proof (Forall_lookup_1 _ _ _ _ (wf_slots t Hwf) Hs) as [Hr _].
  constructor; simpl.
  - rewrite length_insert. apply (wf_cap t Hwf).
  - apply (wf_first t Hwf).
  - apply Forall_insert; [apply (wf_slots t Hwf)|]. split; simpl; [done|]. naive_solver.
  - apply (wf_nodup t Hwf).
  - intros j. rewrite (wf_dead t Hwf). destruct (decide (j = idx h)) as [->|Hj].
    + rewrite list_lookup_insert_eq by done. naive_solver.
    + by rewrite list_lookup_insert_ne.
  - rewrite (wf_live t Hwf), (count_if_insert alive _ _ s) by done.
    rewrite Ha. simpl. lia.
Qed.

Lemma update_get h f t h' :
  wf t -> get h' (update h f t) = if decide (h' = h) then f <$> get h t else get h' t.
Proof.
  intros Hwf. destruct (get h t) as [v|] eqn:Hget.
  2:{ rewrite update_dead by done. by case_decide; subst. }
  pose proof (update_wf h f t Hwf) as Hwf'.
  destruct (update_eq h f t v Hwf Hget) as (s & Hs & Ha & Hg & Heq).
  pose proof (lookup_lt_Some _ _ _ Hs) as Hlt.
  rewrite Heq in *. apply option_eq. intros w.
  rewrite (get_Some_iff _ _ _ Hwf'). simpl.
  destruct (decide (idx h' = idx h)) as [Hi|Hi].
  - rewrite Hi, list_lookup_insert_eq by done. case_decide; subst.
    + split; [intros (? & [= <-] & _ & _ & ?); done|].
      intros [= <-]. eexists. split_and!; done.
    + rewrite (get_Some_iff _ _ _ Hwf), Hi.
      assert (gen h' <> gen h) by (destruct h, h'; simpl in *; congruence).
      split; [intros (? & [= <-] & ? & ? & _)|intros (s' & Hs' & _ & Hg' & _)];
        simpl in *; congruence.
  - rewrite list_lookup_insert_ne by done.
    rewrite decide_False by congruence. by rewrite (get_Some_iff _ _ _ Hwf).
Qed.

Lemma make_wf g : is_u32 g -> wf (make g).
Proof.
  intros [Hg0 Hg]. constructor; simpl; try done.
  - case_test; lia.
  - apply NoDup_nil_2.
  - intros i. split; [by intros ?%not_elem_of_nil|]. intros (s & Hs & _). done.
Qed.

Lemma clear_wf t : wf t -> wf (clear t).
Proof.
  intros Hwf. constructor; simpl; try done.
  - apply (wf_first t Hwf).
  - apply NoDup_nil_2.
  - intros i. split; [by intros ?%not_elem_of_nil|]. intros (s & Hs & _). done.
Qed.

(** ** Refinement of a finite map *)

Definition abs (t : HandleTable) : gmap Handle T := list_to_map (for_each t).

Lemma elem_of_live_from i l h v :
  (h, v) ∈ live_from i l <->
  (i <= idx h)%nat /\
  exists s, l !! (idx h - i)%nat = Some s /\ alive s = true /\
            slot_gen s = gen h /\ storage s = Some v.
Proof.
  revert i. induction l as [|s l IH]; intros i; simpl.
  { split; [by intros ?%not_elem_of_nil|]. intros (_ & s & Hs & _). by rewrite lookup_nil in Hs. }
  assert (Hrest : (h, v) ∈ live_from (S i) l <->
    (S i <= idx h)%nat /\ exists s0, (s :: l) !! (idx h - i)%nat = Some s0 /\
      alive s0 = true /\ slot_gen s0 = gen h /\ storage s0 = Some v).
  { rewrite IH. split; intros (Hle & s0 & Hs & ?); (split; [lia|]); exists s0;
      (replace (idx h - i)%nat with (S (idx h - S i)) in * by lia); done. }
  destruct (decide (idx h = i)) as [Hi|Hi].
  - assert (Hn : (h, v) ∉ live_from (S i) l) by (rewrite IH; lia).
    rewrite Hi, Nat.sub_diag. simpl. destruct (alive s) eqn:Ha, (storage s) as [w|] eqn:Hv.
    + rewrite elem_of_cons. split.
      * intros [[= -> ->]|?]; [|done]. split; [lia|]. eauto.
      * intros (_ & s0 & [= <-] & _ & Hg & Hv'). left. destruct h; simpl in *. congruence.
    + split; [done|]. intros (_ & s0 & [= <-] & ? & ? & ?). congruence.
    + split; [done|]. intros (_ & s0 & [= <-] & ? & ? & ?). congruence.
    + split; [done|]. intros (_ & s0 & [= <-] & ? & ? & ?). congruence.
  - assert (Hcons : forall w, (h, v) ∈ (mkHandle i (slot_gen s), w) :: live_from (S i) l <->
              (h, v) ∈ live_from (S i) l).
    { intros w. rewrite elem_of_cons. split; [|auto]. intros [[= -> _]|?]; done. }
    destruct (alive s), (storage s); rewrite ?Hcons, Hrest; intuition lia.
Qed.

Lemma live_from_NoDup i l : NoDup (live_from i l).*1.
Proof.
  revert i. induction l as [|s l IH]; intros i; simpl; [apply NoDup_nil_2|].
  destruct (alive s), (storage s); simpl; auto. apply NoDup_cons. split; [|done].
  intros ([h v] & Hh & Hin)%list_elem_of_fmap. simpl in Hh.
  apply elem_of_live_from in Hin as [Hle _]. subst h. simpl in Hle. lia.
Qed.

Lemma abs_lookup t h : wf t -> abs t !! h = get h t.
Proof.
  intros Hwf. apply option_eq. intros v. unfold abs.
  rewrite <- elem_of_list_to_map by apply live_from_NoDup.
  rewrite (get_Some_iff _ _ _ Hwf). unfold for_each. rewrite elem_of_live_from.
  rewrite Nat.sub_0_r. intuition lia.
Qed.

Lemma live_from_length i l :
  Forall slot_ok l -> length (live_from i l) = count_if alive l.
Proof.
  revert i. induction l as [|s l IH]; intros i; simpl; [done|].
  intros [[_ Hok] Hl]%Forall_cons. rewrite <- (IH (S i)) by done.
  destruct (alive s), (storage s); simpl; try done.
  destruct (proj1 Hok eq_refl). done.
Qed.

Lemma abs_size t : wf t -> table_size t = Z.of_nat (size (abs t)).
Proof.
  intros Hwf. unfold table_size, abs. rewrite (wf_live t Hwf).
  rewrite map_size_list_to_map by apply live_from_NoDup.
  unfold for_each. by rewrite live_from_length by apply (wf_slots t Hwf).
Qed.

(** The operations as a sequence of steps.  An [Emplace] step needs [room]. *)
Inductive op :=
| Emplace (v : T)
| Release (h : Handle)
| Update (h : Handle) (f : T -> T)
| Reclaim.

Definition apply_op (o : op) (t : HandleTable) : HandleTable :=
  match o with
  | Emplace v => (emplace v t).2
  | Release h => release h t
  | Update h f => update h f t
  | Reclaim => reclaim t
  end.

Definition op_ok (o : op) (t : HandleTable) : Prop :=
  match o with Emplace _ => room t | _ => True end.

Inductive run : list op -> HandleTable -> HandleTable -> Prop :=
| run_nil t : run [] t t
| run_cons o os t t' : op_ok o t -> run os (apply_op o t) t' -> run (o :: os) t t'.

(** What each operation does to the map the table stands for. *)
Definition map_step (o : op) (m m' : gmap Handle T) : Prop :=
  match o with
  | Emplace v => exists h, valid h = true /\ m !! h = None /\ m' = <[h := v]> m
  | Release h => m' = delete h m
  | Update h f => m' = alter f h m
  | Reclaim => m' = m
  end.

Inductive map_run : list op -> gmap Handle T -> gmap Handle T -> Prop :=
| map_run_nil m : map_run [] m m
| map_run_cons o os m m1 m' : map_step o m m1 -> map_run os m1 m' -> map_run (o :: os) m m'.

Lemma apply_op_wf o t : wf t -> op_ok o t -> wf (apply_op o t).
Proof.
  destruct o; simpl; intros;
    [by apply emplace_wf|by apply release_wf|by apply update_wf|by apply reclaim_wf].
Qed.

Lemma emplace_valid v t : wf t -> room t -> valid (emplace v t).1 = true.
Proof.
  intros Hwf Hroom. destruct (emplace_eq v t Hwf Hroom) as (i & g & ? & ? & -> & Hg & _).
  unfold valid. simpl. destruct (Z.eqb_spec g 0); [lia|done].
Qed.

Lemma apply_op_map o t :
  wf t -> op_ok o t -> map_step o (abs t) (abs (apply_op o t)).
Proof.
  intros Hwf Hok. pose proof (apply_op_wf o t Hwf Hok) as Hwf'.
  destruct o as [v|h|h f|]; simpl in *.
  - exists (emplace v t).1. split_and!.
    + by apply emplace_valid.
    + rewrite abs_lookup by done. by apply emplace_fresh.
    + apply map_eq. intros h'. rewrite abs_lookup, emplace_get by done.
      rewrite lookup_insert, abs_lookup by done. repeat case_decide; congruence.
  - apply map_eq. intros h'. rewrite abs_lookup, release_get by done.
    rewrite lookup_delete, abs_lookup by done. repeat case_decide; congruence.
  - apply map_eq. intros h'. rewrite abs_lookup, update_get by done.
    rewrite lookup_alter, !abs_lookup by done. repeat case_decide; subst; done.
  - done.
Qed.

Lemma run_wf os t t' : run os t t' -> wf t -> wf t'.
Proof. induction 1; eauto using apply_op_wf. Qed.

Lemma run_map os t t' : run os t t' -> wf t -> map_run os (abs t) (abs t').
Proof.
  induction 1; intros; [constructor|].
  econstructor; [by apply apply_op_map|]. eauto using apply_op_wf.
Qed.

(** ** Generations *)

(** Number of generations of a slot: [1 .. 2^32 - 1]. *)
Definition gen_cycle : Z := 2 ^ 32 - 1.

Lemma next_gen_mod g k :
  1 <= g < 2 ^ 32 -> (g - k) mod gen_cycle = 0 -> (next_gen g - (k + 1)) mod gen_cycle = 0.
Proof.
  intros Hg Hk. unfold next_gen, gen_cycle in *.
  destruct (Z.eq_dec g (2 ^ 32 - 1)) as [->|Hne].
  - change (u32 (2 ^ 32 - 1 + 1) =? 0) with true. cbn match.
    replace (1 - (k + 1)) with (2 ^ 32 - 1 - k + (-1) * (2 ^ 32 - 1)) by lia.
    rewrite Z.mod_add by lia. done.
  - wrap_simpl. destruct (Z.eqb_spec (g + 1) 0); [lia|].
    replace (g + 1 - (k + 1)) with (g - k) by lia. done.
Qed.

(** The slot of a handle exists and its generation is [k] steps ahead of the
    handle's, for some [1 <= k <= n]. *)
Definition ahead (h : Handle) (n : Z) (t : HandleTable) : Prop :=
  exists s k, slots_ t !! idx h = Some s /\ 1 <= k <= n /\
    (slot_gen s - (gen h + k)) mod gen_cycle = 0.

Lemma ahead_dead h n t : wf t -> n < gen_cycle -> ahead h n t -> get h t = None.
Proof.
  intros Hwf Hn (s & k & Hs & Hk & Hmod). apply eq_None_not_Some.
  intros [v (s' & Hs' & _ & Hg & _)%(get_Some_iff _ _ _ Hwf)].
  rewrite Hs in Hs'. simplify_eq. rewrite Hg in Hmod. unfold gen_cycle in *.
  replace (gen h - (gen h + k)) with (2 ^ 32 - 1 - k + (-1) * (2 ^ 32 - 1)) in Hmod by lia.
  rewrite Z.mod_add, Z.mod_small in Hmod by lia. lia.
Qed.

Definition is_release (o : op) : bool := match o with Release _ => true | _ => false end.

Lemma apply_op_ahead o h n t :
  wf t -> op_ok o t -> ahead h n t ->
  ahead h (if is_release o then n + 1 else n) (apply_op o t).
Proof.
  intros Hwf Hok (s & k & Hs & Hk & Hmod). destruct o as [v|h'|h' f|]; simpl in *.
  - destruct (emplace_eq v t Hwf Hok)
      as (i & g & slots & free & -> & Hg & Hi & Hne & Hcase). simpl.
    destruct (decide (idx h = i)) as [Heq|Hd].
    + exists (mkSlot g true (Some v)), k. rewrite Heq. split_and!; try done; try lia.
      destruct Hcase as [(_ & _ & s' & Hs' & _ & <- & _)|(_ & _ & -> & _)].
      * rewrite <- Heq, Hs in Hs'. simplify_eq. done.
      * apply lookup_lt_Some in Hs. lia.
    + exists s, k. simpl. rewrite Hne by done. done.
  - destruct (get h' t) as [v|] eqn:Hget.
    2:{ rewrite release_dead by done. exists s, k. split_and!; try done; lia. }
    destruct (release_eq h' t v Hwf Hget) as (s' & Hs' & Ha & Hg & ->).
    destruct (decide (idx h' = idx h)) as [Heq|Hd].
    + pose proof (lookup_lt_Some _ _ _ Hs) as Hlt.
      exists (mkSlot (next_gen (slot_gen s')) false None), (k + 1). simpl.
      rewrite Heq, list_lookup_insert_eq by done. split_and!; try done; try lia.
      rewrite Heq, Hs in Hs'. simplify_eq. rewrite Z.add_assoc.
      apply next_gen_mod; [|done].
      apply (Forall_lookup_1 _ _ _ _ (wf_slots t Hwf) Hs).
    + exists s, k. simpl. rewrite list_lookup_insert_ne by done. split_and!; try done; lia.
  - destruct (get h' t) as [v|] eqn:Hget.
    2:{ rewrite update_dead by done. by exists s, k. }
    destruct (update_eq h' f t v Hwf Hget) as (s' & Hs' & Ha & Hg & ->).
    destruct (decide (idx h' = idx h)) as [Heq|Hd].
    + pose proof (lookup_lt_Some _ _ _ Hs) as Hlt.
      exists (mkSlot (slot_gen s') true (Some (f v))), k. simpl.
      rewrite Heq, list_lookup_insert_eq by done. rewrite Heq, Hs in Hs'. simplify_eq. done.
    + exists s, k. simpl. by rewrite list_lookup_insert_ne.
  - by exists s, k.
Qed.

Lemma run_ahead os t t' h n :
  run os t t' -> wf t -> ahead h n t ->
  ahead h (n + Z.of_nat (count_if is_release os)) t'.
Proof.
  intros Hrun. revert n. induction Hrun as [t|o os t t' Hok _ IH]; intros n Hwf Ha; simpl.
  - by rewrite Z.add_0_r.
  - specialize (IH _ (apply_op_wf o t Hwf Hok) (apply_op_ahead o h n t Hwf Hok Ha)).
    destruct (is_release o); [|by rewrite Nat.add_0_l].
    by rewrite Nat2Z.inj_add, Z.add_assoc.
Qed.

Lemma release_ahead h t v : wf t -> get h t = Some v -> ahead h 1 (release h t).
Proof.
  intros Hwf Hget. destruct (release_eq h t v Hwf Hget) as (s & Hs & Ha & Hg & ->).
  pose proof (lookup_lt_Some _ _ _ Hs).
  exists (mkSlot (next_gen (slot_gen s)) false None), 1. simpl.
  rewrite list_lookup_insert_eq by done. split_and!; try done.
  apply next_gen_mod; [apply (Forall_lookup_1 _ _ _ _ (wf_slots t Hwf) Hs)|].
  by rewrite Hg, Z.sub_diag.
Qed.

(** ** Deferred reclamation *)

Definition is_reclaim (o : op) : bool := match o with Reclaim => true | _ => false end.

Lemma apply_op_deferred o t i :
  wf t -> op_ok o t -> is_reclaim o = false ->
  i ∈ deferred_ t -> i ∈ deferred_ (apply_op o t).
Proof.
  intros Hwf Hok Ho Hi. destruct o as [v|h|h f|]; simpl in *.
  - by destruct (emplace_eq v t Hwf Hok) as (? & ? & ? & ? & -> & _).
  - unfold release. repeat case_match; simpl; try done. apply elem_of_app. by left.
  - unfold update. by repeat case_match.
  - done.
Qed.

Lemma emplace_not_deferred v t i :
  wf t -> room t -> i ∈ deferred_ t -> idx (emplace v t).1 <> i.
Proof.
  intros Hwf Hroom Hi Heq.
  destruct (emplace_eq v t Hwf Hroom)
    as (i' & g & slots & free & He & Hg & _ & Hne & Hcase).
  rewrite He in Heq. simpl in Heq. subst i'.
  destruct (proj1 (wf_dead t Hwf i)) as (s & Hs & _); [apply elem_of_app; by right|].
  destruct Hcase as [(Hf & _)|(_ & _ & -> & _)].
  - pose proof (wf_nodup t Hwf) as Hnd. rewrite Hf, !NoDup_app in Hnd.
    destruct Hnd as (_ & Hx & _). apply (Hx i); [|done].
    apply elem_of_app. right. by apply list_elem_of_singleton.
  - apply lookup_lt_Some in Hs. lia.
Qed.

(** ** Properties *)

(** C8: From a fresh table, any sequence of [emplace], [release], [reclaim] and
    in-place updates keeps the table invariant and behaves as the same sequence
    of operations on a finite map from handles to objects: [emplace] inserts at
    a handle that is valid and was not live, [release] deletes its handle,
    [get] is the map's lookup and [size] its cardinality. *)
Theorem handle_table_refines_map g ops t :
  is_u32 g -> run ops (make g) t ->
  wf t /\ map_run ops ∅ (abs t) /\
  table_size t = Z.of_nat (size (abs t)) /\ (forall h, get h t = abs t !! h).
Proof.
  intros Hg Hrun. pose proof (make_wf g Hg) as Hwf0.
  pose proof (run_wf _ _ _ Hrun Hwf0) as Hwf.
  split_and!; [done|by apply (run_map _ _ _ Hrun)|by apply abs_size|].
  intros h. by rewrite abs_lookup.
Qed.

(** A released handle never resolves again: whatever operations follow, as
    long as fewer than [2^32 - 2] releases happen afterwards, [get] on it is
    null, even when its slot has been given to another object. *)
Theorem released_handle_stays_dead h v ops t t' :
  wf t -> get h t = Some v -> run ops (release h t) t' ->
  Z.of_nat (count_if is_release ops) < 2 ^ 32 - 2 ->
  get h t' = None.
Proof.
  intros Hwf Hget Hrun Hcount.
  pose proof (release_wf h t Hwf) as Hwf1.
  apply (ahead_dead h (1 + Z.of_nat (count_if is_release ops))).
  - by apply (run_wf _ _ _ Hrun).
  - unfold gen_cycle. lia.
  - apply (run_ahead _ _ _ _ _ Hrun Hwf1). by apply (release_ahead h t v).
Qed.

(** Deferred reclamation: after [release h], and until [reclaim] runs, no
    [emplace] hands out the slot of [h]; the memory of an object released
    inside a callback is not given to another object under its caller. *)
Theorem no_slot_reuse_before_reclaim h v w ops t t' :
  wf t -> get h t = Some v -> run ops (release h t) t' ->
  count_if is_reclaim ops = 0%nat -> room t' ->
  idx (emplace w t').1 <> idx h.
Proof.
  intros Hwf Hget Hrun Hno Hroom.
  pose proof (release_wf h t Hwf) as Hwf1.
  assert (Hin : idx h ∈ deferred_ (release h t)).
  { destruct (release_eq h t v Hwf Hget) as (s & _ & _ & _ & ->). simpl.
    apply elem_of_app. right. by apply list_elem_of_singleton. }
  clear Hwf Hget. revert Hwf1 Hin Hno Hroom.
  induction Hrun as [t0|o os t0 t1 Hok Hrun IH]; intros Hwf1 Hin Hno Hroom; simpl in *.
  - by apply emplace_not_deferred.
  - destruct (is_reclaim o) eqn:Ho; [done|].
    apply IH; [by apply apply_op_wf|by apply apply_op_deferred|done|done].
Qed.

End Table.

Arguments Slot : clear implicits.
Arguments HandleTable : clear implicits.
Arguments op : clear implicits.

(** A table that reuses slot 0 for a second object, used by the witnesses. *)
Definition demo_table : HandleTable Z := (emplace 11 (emplace 10 (make 1)).2).2.
Definition demo_ops : list (op Z) := [Reclaim; Emplace 12; Release (mkHandle 1 1)].

Lemma demo_wf : wf demo_table.
Proof.
  assert (wf (make (T:=Z) 1)) by (apply make_wf; unfold is_u32; lia).
  repeat (apply emplace_wf; [|right; vm_compute; done]). done.
Qed.

Lemma demo_run :
  run demo_ops (release (mkHandle 0 1) demo_table)
      (foldl (fun t o => apply_op o t) (release (mkHandle 0 1) demo_table) demo_ops).
Proof. repeat (constructor; [simpl; try done; left; vm_compute; done|]). constructor. Qed.

Lemma handle_table_refines_map_witness :
  exists t : HandleTable Z,
    run [Emplace 10; Emplace 11; Release (mkHandle 0 1); Reclaim; Emplace 12] (make 1) t /\
    wf t /\ get (mkHandle 0 2) t = Some 12 /\ abs t !! mkHandle 0 1 = None /\
    table_size t = Z.of_nat (size (abs t)).
Proof.
  assert (Hrun : run [Emplace 10; Emplace 11; Release (mkHandle 0 1); Reclaim; Emplace 12]
      (make 1) (apply_op (Emplace 12) (reclaim (release (mkHandle 0 1) demo_table)))).
  { repeat (constructor; [simpl; try done; try (right; vm_compute; done)|]). constructor. }
  eexists. split; [exact Hrun|].
  assert (Hg : is_u32 1) by (unfold is_u32; lia).
  destruct (handle_table_refines_map _ _ _ Hg Hrun) as (Hwf & _ & Hsize & Hget).
  split_and!; [exact Hwf|vm_compute; reflexivity|rewrite <- Hget; vm_compute; reflexivity|exact Hsize].
Defined.

Lemma released_handle_stays_dead_witness :
  get (mkHandle 0 1) demo_table = Some 10 /\
  exists t', run demo_ops (release (mkHandle 0 1) demo_table) t' /\
             get (mkHandle 0 1) t' = None /\ get (mkHandle 0 2) t' = Some 12.
Proof.
  split; [vm_compute; reflexivity|]. eexists. split; [exact demo_run|]. split.
  - apply (released_handle_stays_dead (mkHandle 0 1) 10 demo_ops demo_table);
      [exact demo_wf|vm_compute; reflexivity|exact demo_run|vm_compute; reflexivity].
  - vm_compute; reflexivity.
Defined.

Lemma no_slot_reuse_before_reclaim_witness :
  idx (emplace 13 (release (mkHandle 0 1) demo_table)).1 <> 0%nat.
Proof.
  apply (no_slot_reuse_before_reclaim (mkHandle 0 1) 10 13 [] demo_table);
    [exact demo_wf|vm_compute; reflexivity|constructor|reflexivity|right; vm_compute; reflexivity].
Defined.

End Handles.
