(* ===== verification/IntrusiveList.v ===== *)
(** * Intrusive circular lists

    Models the pointer code of [include/afx/core/timer_wheel.hpp] that links
    [TimerNode]s into wheel buckets ([detail::list_*]) and timer groups
    ([detail::glist_unlink], [TimerGroupState]).  The memory maps a node's
    address to its pair of links; the [bucket_*] and the [group_*] links are two
    memories of the same shape.  Following a null or dangling pointer is [None].

    [ring m s l] says that the sentinel [s] heads a well-linked circular list
    whose members are [l], in order.  The theorems say that the pointer
    operations succeed on rings and are the sequence operations the other files
    use: append, removal of one member, emptiness, membership. *)

From stdpp Require Import base option gmap list.
From Stdlib Require Import ZArith Lia.
From S2P Require Import Prelude.

Module DList.

Abbreviation ptr := nat (only parsing).

Record Links := mkLinks { prev : option ptr; next : option ptr }.

Abbreviation mem := (gmap nat Links) (only parsing).

(** [p->field]: defined when [p] is a live object. *)
Definition load_prev (m : mem) (p : option ptr) : option (option ptr) :=
  a ← p; l ← m !! a; Some (prev l).
Definition load_next (m : mem) (p : option ptr) : option (option ptr) :=
  a ← p; l ← m !! a; Some (next l).
Definition store_prev (m : mem) (p : option ptr) (v : option ptr) : option mem :=
  a ← p; l ← m !! a; Some (<[a := mkLinks v (next l)]> m).
Definition store_next (m : mem) (p : option ptr) (v : option ptr) : option mem :=
  a ← p; l ← m !! a; Some (<[a := mkLinks (prev l) v]> m).

Arguments load_prev : simpl never.
Arguments load_next : simpl never.
Arguments store_prev : simpl never.
Arguments store_next : simpl never.

Definition list_init (m : mem) (sentinel : ptr) : option mem :=
  m1 ← store_next m (Some sentinel) (Some sentinel);
  store_prev m1 (Some sentinel) (Some sentinel).

Definition list_empty (m : mem) (sentinel : ptr) : option bool :=
  nx ← load_next m (Some sentinel);
  Some (bool_decide (nx = Some sentinel)).

Definition list_push_back (m : mem) (sentinel n : ptr) : option mem :=
  sp ← load_prev m (Some sentinel);
  m1 ← store_prev m (Some n) sp;
  m2 ← store_next m1 (Some n) (Some sentinel);
  sp2 ← load_prev m2 (Some sentinel);
  m3 ← store_next m2 sp2 (Some n);
  store_prev m3 (Some sentinel) (Some n).

Definition list_unlink (m : mem) (n : ptr) : option mem :=
  np ← load_prev m (Some n);
  nn ← load_next m (Some n);
  m1 ← store_next m np nn;
  nn2 ← load_next m1 (Some n);
  np2 ← load_prev m1 (Some n);
  m2 ← store_prev m1 nn2 np2;
  m3 ← store_next m2 (Some n) None;
  store_prev m3 (Some n) None.

Definition list_linked (m : mem) (n : ptr) : option bool :=
  nx ← load_next m (Some n);
  Some (bool_decide (nx <> None)).

(** [glist_unlink] is [list_unlink] on the group links, guarded. *)
Definition glist_unlink (m : mem) (n : ptr) : option mem :=
  nx ← load_next m (Some n);
  match nx with
  | None => Some m
  | Some _ => list_unlink m n
  end.

(** [TimerGroupState::TimerGroupState], [add] and [empty]. *)
Definition group_init (m : mem) (sentinel : ptr) : option mem := list_init m sentinel.
Definition group_add (m : mem) (sentinel n : ptr) : option mem := list_push_back m sentinel n.
Definition group_empty (m : mem) (sentinel : ptr) : option bool := list_empty m sentinel.

(** ** Segments and rings *)

Definition nextp (m : mem) (a : ptr) : option ptr := l ← m !! a; next l.
Definition prevp (m : mem) (a : ptr) : option ptr := l ← m !! a; prev l.

Fixpoint seg (m : mem) (a : ptr) (l : list ptr) (b : ptr) : Prop :=
  match l with
  | [] => nextp m a = Some b /\ prevp m b = Some a
  | x :: r => nextp m a = Some x /\ prevp m x = Some a /\ seg m x r b
  end.

Definition ring (m : mem) (s : ptr) (l : list ptr) : Prop :=
  NoDup (s :: l) /\ seg m s l s.

Lemma seg_app m a l1 x l2 b :
  seg m a (l1 ++ x :: l2) b <-> seg m a l1 x /\ seg m x l2 b.
Proof.
  revert a. induction l1 as [|y l1 IH]; intros a; simpl; [tauto|].
  rewrite IH. tauto.
Qed.

Lemma seg_frame m m' a l b :
  seg m a l b ->
  (forall x, x = a \/ x ∈ l -> nextp m' x = nextp m x) ->
  (forall x, x = b \/ x ∈ l -> prevp m' x = prevp m x) ->
  seg m' a l b.
Proof.
  revert a. induction l as [|y l IH]; intros a Hs Hn Hp; simpl in *.
  - destruct Hs. rewrite Hn, Hp by auto. done.
  - destruct Hs as (H1 & H2 & H3). rewrite Hn by auto. rewrite Hp by (right; left). split_and!; try done.
    apply IH; [done|..]; intros x Hx; [apply Hn|apply Hp];
      destruct Hx as [->|?]; try (by left); right; try (by left); by right.
Qed.

(** The first link and the last link of a segment. *)
Lemma seg_last m a l b : seg m a l b -> prevp m b = Some (default a (last l)).
Proof.
  destruct l as [|x l _] using rev_ind; simpl; [by intros []|].
  rewrite seg_app, last_snoc. by intros [_ [_ ?]].
Qed.

Lemma seg_first m a l b : seg m a l b -> nextp m a = Some (default b (head l)).
Proof. by destruct l; simpl; intros []. Qed.

Lemma nextp_Some_dom m a b : nextp m a = Some b -> is_Some (m !! a).
Proof. unfold nextp. destruct (m !! a); [eauto|done]. Qed.

Lemma prevp_Some_dom m a b : prevp m a = Some b -> is_Some (m !! a).
Proof. unfold prevp. destruct (m !! a); [eauto|done]. Qed.

(** ** Stores *)

Definition upd_next (m : mem) (a : ptr) (v : option ptr) : mem :=
  <[a := mkLinks (prevp m a) v]> m.
Definition upd_prev (m : mem) (a : ptr) (v : option ptr) : mem :=
  <[a := mkLinks v (nextp m a)]> m.

Lemma store_next_eq m a v : is_Some (m !! a) -> store_next m (Some a) v = Some (upd_next m a v).
Proof. intros [l Hl]. unfold store_next, upd_next, prevp. simpl. by rewrite Hl. Qed.

Lemma store_prev_eq m a v : is_Some (m !! a) -> store_prev m (Some a) v = Some (upd_prev m a v).
Proof. intros [l Hl]. unfold store_prev, upd_prev, nextp. simpl. by rewrite Hl. Qed.

Lemma load_next_eq m a : is_Some (m !! a) -> load_next m (Some a) = Some (nextp m a).
Proof. intros [l Hl]. unfold load_next, nextp. simpl. by rewrite Hl. Qed.

Lemma load_prev_eq m a : is_Some (m !! a) -> load_prev m (Some a) = Some (prevp m a).
Proof. intros [l Hl]. unfold load_prev, prevp. simpl. by rewrite Hl. Qed.

Lemma nextp_upd_next m a v x : nextp (upd_next m a v) x = if decide (x = a) then v else nextp m x.
Proof.
  unfold nextp, upd_next. case_decide; subst.
  - by rewrite lookup_insert_eq.
  - by rewrite lookup_insert_ne.
Qed.

Lemma prevp_upd_next m a v x : prevp (upd_next m a v) x = prevp m x.
Proof.
  unfold prevp at 1, upd_next. destruct (decide (x = a)) as [->|].
  - by rewrite lookup_insert_eq.
  - by rewrite lookup_insert_ne.
Qed.

Lemma prevp_upd_prev m a v x : prevp (upd_prev m a v) x = if decide (x = a) then v else prevp m x.
Proof.
  unfold prevp, upd_prev. case_decide; subst.
  - by rewrite lookup_insert_eq.
  - by rewrite lookup_insert_ne.
Qed.

Lemma nextp_upd_prev m a v x : nextp (upd_prev m a v) x = nextp m x.
Proof.
  unfold nextp at 1, upd_prev. destruct (decide (x = a)) as [->|].
  - by rewrite lookup_insert_eq.
  - by rewrite lookup_insert_ne.
Qed.

Lemma upd_next_dom m a v x : is_Some (m !! a) -> is_Some (upd_next m a v !! x) <-> is_Some (m !! x).
Proof. intros ?. unfold upd_next. rewrite lookup_insert_is_Some. split; [intros [->|[_ ?]]|]; try done. intros. destruct (decide (a = x)); auto. Qed.

Lemma upd_prev_dom m a v x : is_Some (m !! a) -> is_Some (upd_prev m a v !! x) <-> is_Some (m !! x).
Proof. intros ?. unfold upd_prev. rewrite lookup_insert_is_Some. split; [intros [->|[_ ?]]|]; try done. intros. destruct (decide (a = x)); auto. Qed.

Create HintDb dlist.
Hint Rewrite nextp_upd_next prevp_upd_next prevp_upd_prev nextp_upd_prev : dlist.

(** Decides the [decide]s left by the rewriting rules above. *)
Ltac links_solve :=
  autorewrite with dlist;
  repeat first
    [ rewrite decide_True by congruence
    | rewrite decide_False by congruence ];
  try done.

Lemma ring_dom m s l x : ring m s l -> x = s \/ x ∈ l -> is_Some (m !! x).
Proof.
  intros [_ Hseg] [->|Hx].
  - by eapply nextp_Some_dom, seg_first.
  - apply list_elem_of_split in Hx as (l1 & l2 & ->).
    apply seg_app in Hseg as [_ Hseg]. by eapply nextp_Some_dom, seg_first.
Qed.

Lemma last_default_in (s : nat) l : default s (last l) = s \/ default s (last l) ∈ l.
Proof.
  destruct l as [|x l _] using rev_ind; [by left|]. right.
  rewrite last_snoc. simpl. apply elem_of_app. right. by apply list_elem_of_singleton.
Qed.

Lemma push_back_eq m s l n :
  ring m s l -> n ∉ s :: l -> is_Some (m !! n) ->
  let p := default s (last l) in
  list_push_back m s n =
    Some (upd_prev (upd_next (upd_next (upd_prev m n (Some p)) n (Some s)) p (Some n)) s (Some n)).
Proof.
  intros Hring Hn Hdom p. unfold list_push_back.
  rewrite not_elem_of_cons in Hn. destruct Hn as [Hns Hnl].
  assert (Hs : is_Some (m !! s)) by (eapply ring_dom; eauto).
  assert (Hp : is_Some (m !! p)) by (eapply ring_dom; [eauto|apply last_default_in]).
  rewrite load_prev_eq by done. simpl.
  rewrite (seg_last _ _ _ _ (proj2 Hring)). fold p.
  rewrite store_prev_eq by done. simpl.
  rewrite store_next_eq by by rewrite upd_prev_dom. simpl.
  rewrite load_prev_eq by by rewrite upd_next_dom, upd_prev_dom; rewrite ?upd_prev_dom. simpl.
  autorewrite with dlist. rewrite decide_False by done.
  rewrite (seg_last _ _ _ _ (proj2 Hring)). fold p.
  rewrite store_next_eq by by rewrite upd_next_dom, upd_prev_dom; rewrite ?upd_prev_dom. simpl.
  rewrite store_prev_eq; [done|].
  rewrite !upd_next_dom, upd_prev_dom; rewrite ?upd_next_dom, ?upd_prev_dom; try done;
    rewrite ?upd_prev_dom; done.
Qed.

Lemma push_back_ring m s l n :
  ring m s l -> n ∉ s :: l -> is_Some (m !! n) ->
  exists m', list_push_back m s n = Some m' /\ ring m' s (l ++ [n]) /\
             (forall x, x ∉ n :: s :: l -> m' !! x = m !! x).
Proof.
  intros Hring Hn Hdom. eexists. split; [by apply push_back_eq|].
  pose proof (last_default_in s l) as Hpl.
  rewrite not_elem_of_cons in Hn. destruct Hn as [Hns Hnl].
  destruct Hring as [Hnd Hseg]. split; [split|].
  - rewrite app_comm_cons. apply NoDup_app. split_and!; [done| |apply NoDup_singleton].
    intros x Hx ->%list_elem_of_singleton. apply elem_of_cons in Hx as []; done.
  - rewrite seg_app. split.
    + destruct l as [|p l _] using rev_ind; simpl in *.
      * split; links_solve.
      * rewrite last_snoc in *. simpl in *. rewrite seg_app in Hseg |- *. simpl.
        destruct Hseg as [Hseg [Hn1 Hp1]].
        rewrite elem_of_app, list_elem_of_singleton in Hnl.
        apply NoDup_cons in Hnd as [Hsl Hnd]. rewrite elem_of_app, list_elem_of_singleton in Hsl.
        apply NoDup_app in Hnd as (Hnd & Hpl' & _).
        assert (p ∉ l) by (intros Hin; apply (Hpl' p Hin); by apply list_elem_of_singleton).
        split.
        -- eapply seg_frame; [done|..]; intros x Hx;
             assert (x <> n) by (intros ->; tauto); links_solve.
           ++ assert (x <> p) by (intros ->; destruct Hx as [->|]; tauto). links_solve.
           ++ assert (x <> s) by (intros ->; destruct Hx as [->|]; tauto). links_solve.
        -- split; links_solve.
    + assert (n <> default s (last l)) by (intros He; rewrite <- He in Hpl; destruct Hpl; done).
      simpl. split; links_solve.
  - intros x Hx. rewrite !not_elem_of_cons in Hx. destruct Hx as (? & ? & ?).
    assert (x <> default s (last l)) by (intros ->; destruct Hpl; done).
    unfold upd_prev, upd_next. by rewrite !lookup_insert_ne.
Qed.

Lemma unlink_eq m s l1 n l2 :
  ring m s (l1 ++ n :: l2) ->
  let p := default s (last l1) in
  let nx := default s (head l2) in
  list_unlink m n =
    Some (upd_prev (upd_next (upd_prev (upd_next m p (Some nx)) nx (Some p)) n None) n None).
Proof.
  intros Hring p nx. unfold list_unlink.
  assert (Hdom : forall x, x = s \/ x ∈ l1 ++ n :: l2 -> is_Some (m !! x)).
  { intros x. by apply ring_dom. }
  destruct Hring as [Hnd Hseg].
  apply NoDup_cons in Hnd as [Hs Hnd]. rewrite elem_of_app, elem_of_cons in Hs.
  apply NoDup_app in Hnd as (_ & Hl1 & Hnd). apply NoDup_cons in Hnd as [Hn2 _].
  assert (Hn1 : n ∉ l1) by (intros Hin; apply (Hl1 n Hin); by left).
  rewrite seg_app in Hseg. destruct Hseg as [Hseg1 Hseg2].
  assert (Hn : is_Some (m !! n)).
  { apply Hdom. right. apply elem_of_app. right. by left. }
  assert (Hp : is_Some (m !! p)).
  { apply Hdom. unfold p. destruct (last_default_in s l1) as [->|]; [by left|].
    right. apply elem_of_app. by left. }
  assert (Hnx : is_Some (m !! nx)).
  { apply Hdom. unfold nx. destruct l2; simpl; [by left|]. right.
    apply elem_of_app. right. right. by left. }
  assert (Hpn : p <> n).
  { unfold p. destruct (last_default_in s l1) as [->|]; intros ?; subst; tauto. }
  rewrite load_prev_eq, (seg_last _ _ _ _ Hseg1) by done. fold p. simpl.
  rewrite load_next_eq, (seg_first _ _ _ _ Hseg2) by done. fold nx. simpl.
  rewrite store_next_eq by done. simpl.
  rewrite load_next_eq by by rewrite upd_next_dom. simpl.
  rewrite load_prev_eq by by rewrite upd_next_dom. simpl.
  autorewrite with dlist. rewrite decide_False by done.
  rewrite (seg_first _ _ _ _ Hseg2), (seg_last _ _ _ _ Hseg1). fold p nx.
  rewrite store_prev_eq by by rewrite upd_next_dom. simpl.
  rewrite store_next_eq by by rewrite upd_prev_dom; rewrite upd_next_dom. simpl.
  rewrite store_prev_eq; [done|].
  rewrite upd_next_dom, upd_prev_dom, upd_next_dom; rewrite ?upd_prev_dom; try done;
    rewrite ?upd_next_dom; done.
Qed.

Lemma unlink_ring m s l1 n l2 :
  ring m s (l1 ++ n :: l2) ->
  exists m', list_unlink m n = Some m' /\ ring m' s (l1 ++ l2) /\
             m' !! n = Some (mkLinks None None) /\
             (forall x, x ∉ s :: l1 ++ n :: l2 -> m' !! x = m !! x).
Proof.
  intros Hring. eexists. split; [by apply unlink_eq|].
  pose proof (last_default_in s l1) as Hpl. pose proof Hring as [Hnd Hseg].
  pose proof Hnd as Hnd0.
  apply NoDup_cons in Hnd as [Hs Hnd]. rewrite elem_of_app, elem_of_cons in Hs.
  apply NoDup_app in Hnd as (Hnd1 & Hl1 & Hnd2). apply NoDup_cons in Hnd2 as [Hn2 Hnd2].
  assert (Hn1 : n ∉ l1) by (intros Hin; apply (Hl1 n Hin); by left).
  assert (H12 : forall x, x ∈ l1 -> x ∈ l2 -> False).
  { intros x Hx1 Hx2. apply (Hl1 x Hx1). by right. }
  assert (Hns : n <> s) by (intros ->; tauto).
  set (p := default s (last l1)) in *. set (nx := default s (head l2)).
  assert (Hpn : p <> n) by (destruct Hpl as [->|]; intros ?; subst; tauto).
  assert (Hnx : nx = s \/ nx ∈ l2) by (unfold nx; destruct l2; simpl; [by left|right; by left]).
  assert (Hnxn : nx <> n) by (destruct Hnx as [->|]; intros ?; subst; tauto).
  split_and!.
  - split.
    + apply NoDup_cons. split; [rewrite elem_of_app; tauto|].
      apply NoDup_app. split_and!; [done| |done]. intros x Hx1 Hx2. by eapply H12.
    + apply seg_app in Hseg as [Hs1 Hs2].
      assert (Hg1 : seg (upd_prev (upd_next (upd_prev (upd_next m p (Some nx)) nx (Some p)) n None) n None)
                s l1 nx).
      { unfold p. destruct l1 as [|q l1 _] using rev_ind; simpl in *.
        - split; links_solve.
        - unfold p in *. rewrite last_snoc in *. simpl in *.
          rewrite seg_app in Hs1 |- *. destruct Hs1 as [Hs1 _].
          apply NoDup_app in Hnd1 as (_ & Hq & _).
          assert (q ∉ l1) by (intros Hin; apply (Hq q Hin); by apply list_elem_of_singleton).
          setoid_rewrite elem_of_app in Hn1. setoid_rewrite list_elem_of_singleton in Hn1.
          setoid_rewrite elem_of_app in Hs. setoid_rewrite list_elem_of_singleton in Hs.
          setoid_rewrite elem_of_app in H12. setoid_rewrite list_elem_of_singleton in H12.
          split; [|split; simpl; links_solve].
          eapply seg_frame; [done|..]; intros x Hx;
            assert (x <> n) by (intros ->; destruct Hx as [->|]; tauto); links_solve.
          + assert (x <> q) by (intros ->; destruct Hx as [->|]; tauto). links_solve.
          + assert (x <> nx).
            { intros Hxe. rewrite Hxe in Hx. destruct Hx as [Hx|Hx].
              - destruct Hnx as [?|Hnx]; [apply Hs; left; right; congruence|]. rewrite Hx in Hnx.
                apply (H12 q); auto.
              - destruct Hnx as [He|Hnx]; [rewrite He in Hx; tauto|]. apply (H12 nx); auto. }
            links_solve. }
      destruct l2 as [|y l2]; simpl in *.
      * by rewrite app_nil_r.
      * rewrite seg_app. split; [done|]. destruct Hs2 as (_ & _ & Hs2). subst nx. simpl in *.
        apply NoDup_cons in Hnd2 as [Hy Hnd2].
        rewrite not_elem_of_cons in Hn2. setoid_rewrite elem_of_cons in H12.
        rewrite elem_of_cons in Hs.
        eapply seg_frame; [done|..]; intros x Hx;
          assert (x <> n) by (intros ->; destruct Hx as [->|]; tauto); links_solve.
        -- assert (x <> p).
           { intros Hxe. rewrite Hxe in Hx. destruct Hpl as [He|Hpl].
             - rewrite He in Hx. destruct Hx as [->|]; tauto.
             - apply (H12 p); [done|]. destruct Hx; auto. }
           links_solve.
        -- assert (x <> y) by (intros ->; destruct Hx as [->|]; tauto). links_solve.
  - unfold upd_prev at 1. rewrite lookup_insert_eq. f_equal. f_equal. links_solve.
  - intros x Hx. rewrite not_elem_of_cons, elem_of_app, elem_of_cons in Hx.
    assert (x <> p) by (intros He; rewrite <- He in Hpl; tauto).
    assert (x <> nx) by (intros He; rewrite <- He in Hnx; tauto).
    unfold upd_prev, upd_next. rewrite !lookup_insert_ne by (intros ->; tauto). done.
Qed.

Lemma ring_frame m m' s l :
  ring m s l -> (forall x, x ∈ s :: l -> m' !! x = m !! x) -> ring m' s l.
Proof.
  intros [Hnd Hseg] Hf. split; [done|].
  eapply seg_frame; [done|..]; intros x Hx; unfold nextp, prevp;
    rewrite Hf; try done; destruct Hx as [->|?]; by constructor.
Qed.

(** ** A family of disjoint rings *)

(** [R] maps each sentinel to the members of its list; every other allocated
    node has null links. *)
Record rings_ok (m : mem) (R : gmap nat (list nat)) : Prop := {
  ro_ring : forall s l, R !! s = Some l -> ring m s l;
  ro_disj : forall s1 l1 s2 l2 x,
    R !! s1 = Some l1 -> R !! s2 = Some l2 -> x ∈ s1 :: l1 -> x ∈ s2 :: l2 -> s1 = s2;
  ro_free : forall x k, m !! x = Some k ->
    (forall s l, R !! s = Some l -> x ∉ s :: l) -> k = mkLinks None None;
}.

Lemma rings_update m m' R s l l' :
  rings_ok m R -> R !! s = Some l -> ring m' s l' ->
  (forall x, x ∉ s :: l -> x ∉ s :: l' -> m' !! x = m !! x) ->
  (forall x, x ∈ s :: l -> x ∉ s :: l' -> m' !! x = Some (mkLinks None None)) ->
  (forall x, x ∈ l' -> x ∉ l -> forall s2 l2, R !! s2 = Some l2 -> x ∉ s2 :: l2) ->
  rings_ok m' (<[s := l']> R).
Proof.
  intros Hok Hs Hr Hframe Hout Hnew.
  assert (Hother : forall s2 l2 x, s2 <> s -> R !! s2 = Some l2 -> x ∈ s2 :: l2 ->
            x ∉ s :: l /\ x ∉ s :: l').
  { intros s2 l2 x Hne Hs2 Hx. assert (Hx1 : x ∉ s :: l).
    { intros Hx'. apply Hne. by apply (ro_disj m R Hok s2 l2 s l x). }
    split; [done|]. intros [->|Hin]%elem_of_cons; [apply Hx1; by left|].
    eapply (Hnew x Hin); [|done|done]. intros ?. apply Hx1. by right. }
  constructor.
  - intros s2 l2. rewrite lookup_insert. case_decide as Heq; [intros [= <-]; by subst|].
    intros Hs2. apply (ring_frame m); [by apply (ro_ring m R Hok)|].
    intros x Hx. destruct (Hother s2 l2 x) as [? ?]; auto.
  - intros s1 l1 s2 l2 x. rewrite !lookup_insert.
    destruct (decide (s = s1)) as [<-|H1], (decide (s = s2)) as [<-|H2]; try done;
      intros E1 E2 X1 X2; simplify_eq.
    + destruct (Hother s2 l2 x) as [? ?]; auto. done.
    + destruct (Hother s1 l1 x) as [? ?]; auto. done.
    + by apply (ro_disj m R Hok s1 l1 s2 l2 x).
  - intros x k Hk Hfree.
    assert (Hx' : x ∉ s :: l') by (apply Hfree; by rewrite lookup_insert_eq).
    destruct (decide (x ∈ s :: l)) as [Hin|Hin].
    + rewrite Hout in Hk by done. congruence.
    + rewrite Hframe in Hk by done. apply (ro_free m R Hok x k Hk).
      intros s2 l2 Hs2. destruct (decide (s = s2)) as [<-|]; [by simplify_eq|].
      apply Hfree. by rewrite lookup_insert_ne.
Qed.

Definition unlinked (R : gmap nat (list nat)) (n : nat) : Prop :=
  forall s l, R !! s = Some l -> n ∉ s :: l.

Lemma rings_push m R s l n :
  rings_ok m R -> R !! s = Some l -> unlinked R n -> is_Some (m !! n) ->
  exists m', list_push_back m s n = Some m' /\ rings_ok m' (<[s := l ++ [n]]> R).
Proof.
  intros Hok Hs Hn Hd. pose proof (Hn s l Hs) as Hnl.
  destruct (push_back_ring m s l n) as (m' & Hm & Hr & Hf);
    [by apply (ro_ring m R Hok)|done|done|].
  exists m'. split; [done|]. eapply rings_update; eauto.
  - intros x Hx1 Hx2. apply Hf. rewrite not_elem_of_cons. split; [|done].
    intros ->. apply Hx2. right. apply elem_of_app. right. by apply list_elem_of_singleton.
  - intros x Hx1 Hx2. destruct Hx2. rewrite elem_of_cons, elem_of_app. 
    apply elem_of_cons in Hx1 as [->|]; auto.
  - intros x [?| ->%list_elem_of_singleton]%elem_of_app Hnx; [done|]. apply Hn.
Qed.

Lemma rings_unlink m R s l1 n l2 :
  rings_ok m R -> R !! s = Some (l1 ++ n :: l2) ->
  exists m', list_unlink m n = Some m' /\ rings_ok m' (<[s := l1 ++ l2]> R).
Proof.
  intros Hok Hs. pose proof (ro_ring m R Hok _ _ Hs) as Hring.
  destruct (unlink_ring m s l1 n l2) as (m' & Hm & Hr & Hn & Hf); [done|].
  exists m'. split; [done|]. eapply rings_update; eauto.
  - intros x Hx1 Hx2. assert (x = n) as ->; [|done].
    rewrite elem_of_cons, elem_of_app, elem_of_cons in Hx1.
    rewrite elem_of_cons, elem_of_app in Hx2. tauto.
  - intros x Hx Hnx. destruct Hnx. apply elem_of_app in Hx.
    rewrite elem_of_app, elem_of_cons. tauto.
Qed.

Lemma list_empty_spec m R s l :
  rings_ok m R -> R !! s = Some l -> list_empty m s = Some (bool_decide (l = [])).
Proof.
  intros Hok Hs. pose proof (ro_ring m R Hok _ _ Hs) as Hring. unfold list_empty.
  rewrite load_next_eq by (eapply ring_dom; eauto). simpl.
  rewrite (seg_first _ _ _ _ (proj2 Hring)). f_equal. apply bool_decide_ext.
  destruct l as [|x l]; simpl; [done|]. destruct Hring as [[Hx _]%NoDup_cons _].
  split; [|done]. intros [= ->]. destruct Hx. by left.
Qed.

Lemma list_linked_spec m R n :
  rings_ok m R -> is_Some (m !! n) ->
  (exists b, list_linked m n = Some b /\ (b = true <-> ~ unlinked R n)).
Proof.
  intros Hok Hd. unfold list_linked. rewrite load_next_eq by done. simpl.
  eexists. split; [done|]. rewrite bool_decide_eq_true. split.
  - intros Hne Hu. apply Hne. destruct Hd as [k Hk]. unfold nextp. rewrite Hk. simpl.
    by rewrite (ro_free m R Hok n k Hk Hu).
  - intros Hnu Hnone. apply Hnu. intros s l Hs Hin.
    destruct (ro_ring m R Hok _ _ Hs) as [_ Hseg].
    apply elem_of_cons in Hin as [->|Hin].
    + rewrite (seg_first _ _ _ _ Hseg) in Hnone. done.
    + apply list_elem_of_split in Hin as (l1 & l2 & ->).
      apply seg_app in Hseg as [_ Hseg]. rewrite (seg_first _ _ _ _ Hseg) in Hnone. done.
Qed.

(** The intrusive bucket and group lists implement sequences.  For a family
    of disjoint rings, [list_push_back] appends an unlinked node to the list of
    the given sentinel, [list_unlink] removes exactly the given member from the
    list it is on, both succeed without touching any other list,
    [list_empty] tests that the list is empty and [list_linked] that the node is
    on some list. *)
Theorem intrusive_lists_are_sequences m R :
  rings_ok m R ->
  (forall s l n, R !! s = Some l -> unlinked R n -> is_Some (m !! n) ->
     exists m', list_push_back m s n = Some m' /\ rings_ok m' (<[s := l ++ [n]]> R)) /\
  (forall s l1 n l2, R !! s = Some (l1 ++ n :: l2) ->
     exists m', list_unlink m n = Some m' /\ rings_ok m' (<[s := l1 ++ l2]> R)) /\
  (forall s l, R !! s = Some l -> list_empty m s = Some (bool_decide (l = []))) /\
  (forall n, is_Some (m !! n) ->
     exists b, list_linked m n = Some b /\ (b = true <-> ~ unlinked R n)).
Proof.
  intros Hok. split_and!.
  - intros. by apply rings_push.
  - intros. by apply rings_unlink.
  - intros. by eapply list_empty_spec.
  - intros. by apply list_linked_spec.
Qed.

(** Two sentinels (0 and 1) and two nodes (2 and 3), nothing linked. *)
Definition demo_mem : mem :=
  <[0 := mkLinks (Some 0) (Some 0)]> (<[1 := mkLinks (Some 1) (Some 1)]>
  (<[2 := mkLinks None None]> {[3 := mkLinks None None]})).
Definition demo_rings : gmap nat (list nat) := <[0 := []]> {[1 := []]}.

Lemma demo_rings_ok : rings_ok demo_mem demo_rings.
Proof.
  unfold demo_mem, demo_rings.
  assert (Hinv : forall s l, (<[0 := []]> {[1 := []]} : gmap nat (list nat)) !! s = Some l ->
            l = [] /\ (s = 0 \/ s = 1)).
  { intros s l. rewrite lookup_insert, lookup_singleton. repeat case_decide; naive_solver. }
  constructor.
  - intros s l [-> [->| ->]]%Hinv; (split; [apply NoDup_singleton|by split]).
  - intros s1 l1 s2 l2 x [-> _]%Hinv [-> _]%Hinv ->%list_elem_of_singleton
      ->%list_elem_of_singleton. done.
  - intros x k. rewrite !lookup_insert, lookup_singleton.
    intros Hk Hfree. repeat case_decide; simplify_eq; try done.
    + destruct (Hfree 0 []); [done|by left].
    + destruct (Hfree 1 []); [done|by left].
Qed.

Lemma intrusive_lists_are_sequences_witness :
  exists m1 m2, list_push_back demo_mem 0 2 = Some m1 /\ list_unlink m1 2 = Some m2 /\
    rings_ok m2 (<[0 := []]> (<[0 := [] ++ [2]]> demo_rings)).
Proof.
  destruct (intrusive_lists_are_sequences _ _ demo_rings_ok) as (Hpush & _ & _ & _).
  destruct (Hpush 0 [] 2) as (m1 & Hm1 & Hok1); [reflexivity| |vm_compute; eauto|].
  { intros s l. unfold demo_rings. rewrite lookup_insert, lookup_singleton.
    repeat case_decide; intros; simplify_eq; by intros ?%list_elem_of_singleton. }
  destruct (intrusive_lists_are_sequences _ _ Hok1) as (_ & Hunlink & _ & _).
  destruct (Hunlink 0 [] 2 []) as (m2 & Hm2 & Hok2); [reflexivity|].
  exists m1, m2. split_and!; [exact Hm1|exact Hm2|exact Hok2].
Defined.

End DList.
