(* ===== verification/TimerWheel.v ===== *)
(** * The hierarchical timing wheel

    Models [TimerWheel] of [include/afx/core/timer_wheel.hpp]: four levels of
    256 slots, [insert], [unlink], [advance] with its priming, snapping,
    cascading and slot expiry, and [next_due_tick].

    A bucket is the sequence of its members (file IntrusiveList.v shows that the
    intrusive lists implement these sequences).  The members carry the two
    fields of [TimerNode] the wheel reads: the identity of the node and its
    [expiry_tick], which never changes while the node is linked.  [fire] is
    arbitrary code of the caller that may use the wheel again, so [advance]
    threads a state [S] that contains the wheel.

    [pend t l j e] is the invariant of a node with expiry tick [e] in slot [j] of
    level [l] when [t] is the next tick to be processed: the slot is serviced at
    a tick [sv >= t] at which the node is either fired or moved to a finer level,
    never too late and never a whole level early.  The theorems: the invariant is
    preserved by every operation, [advance] fires exactly the nodes whose expiry
    tick has been reached, and [next_due_tick] never overshoots. *)

From stdpp Require Import base option gmap list.
From Stdlib Require Import ZArith Lia.
From S2P Require Import Prelude HandleTable.

Local Open Scope Z_scope.
Local Open Scope afx_scope.

Module Wheel.

Definition kLevels : Z := 4.
Definition kSlots : Z := 256.

(** The part of [TimerNode] the wheel reads. *)
Record WNode := mkWNode { node_id : Handles.Handle; expiry_tick : Z }.

#[global] Instance WNode_eq_dec : EqDecision WNode.
Proof. solve_decision. Defined.

Abbreviation buckets := (gmap (Z * Z) (list WNode)).

Record TimerWheel := mkWheel {
  tick_ : Z;
  now_tick_ : Z;
  primed_ : bool;
  count_ : Z;
  max_ticks_per_call_ : Z;
  buckets_ : buckets;
}.

(** Slots [(l, j)] that were never touched hold the empty list. *)
Definition bucket (b : buckets) (l j : Z) : list WNode := default [] (b !! (l, j)).

Definition make (tick : Z) : TimerWheel := mkWheel tick 0 false 0 4096 ∅.

Definition set_now (x : Z) (w : TimerWheel) : TimerWheel :=
  mkWheel (tick_ w) x (primed_ w) (count_ w) (max_ticks_per_call_ w) (buckets_ w).
Definition set_max_ticks_per_call (n : Z) (w : TimerWheel) : TimerWheel :=
  mkWheel (tick_ w) (now_tick_ w) (primed_ w) (count_ w) n (buckets_ w).

Definition tick_of (w : TimerWheel) (ns : Z) : Z :=
  u64 (Z.quot (ns + tick_ w - 1) (tick_ w)).

Definition floor_tick (w : TimerWheel) (ns : Z) : Z := u64 (Z.quot ns (tick_ w)).

Definition fits (expiry now : Z) : bool :=
  if expiry <=? now then true
  else
    let d := Nat.iter (Z.to_nat kLevels) (fun d => Z.shiftr d 8) (expiry ⊟ now) in
    d =? 0.

(** [while (d >= kSlots) { d >>= 8; ++level; }] on a 64-bit [d]: at most seven
    rounds, so eight units of fuel never run out ([level_loop_enough]). *)
Fixpoint level_loop (fuel : nat) (d level : Z) : Z :=
  match fuel with
  | O => level
  | S f => if kSlots <=? d then level_loop f (Z.shiftr d 8) (level + 1) else level
  end.

Definition level_of (d : Z) : Z := level_loop 8 d 0.

Definition slot_of (et level : Z) : Z := Z.land (Z.shiftr et (8 * level)) (kSlots - 1).

(** [list_push_back(&buckets_[level][slot], &n); ++count_;] *)
Definition push (l j : Z) (n : WNode) (w : TimerWheel) : TimerWheel :=
  mkWheel (tick_ w) (now_tick_ w) (primed_ w) (count_ w ⊞ 1) (max_ticks_per_call_ w)
          (<[(l, j) := bucket (buckets_ w) l j ++ [n]]> (buckets_ w)).

Definition insert_node (n : WNode) (et now : Z) (w : TimerWheel) : TimerWheel :=
  let level := level_of (et ⊟ now) in
  push level (slot_of et level) n w.

Definition insert (n : WNode) (now : Z) (w : TimerWheel) : TimerWheel :=
  let et := if now <? expiry_tick n then expiry_tick n else now ⊞ 1 in
  insert_node n et now w.

Definition nodes_of (b : buckets) : list WNode := mjoin (snd <$> map_to_list b).
Definition nodes (w : TimerWheel) : list WNode := nodes_of (buckets_ w).

(** [detail::list_linked(&n)] *)
Definition linked (id : Handles.Handle) (w : TimerWheel) : bool :=
  bool_decide (id ∈ node_id <$> nodes w).

Definition unlink (id : Handles.Handle) (w : TimerWheel) : TimerWheel :=
  if linked id w then
    mkWheel (tick_ w) (now_tick_ w) (primed_ w) (count_ w ⊟ 1) (max_ticks_per_call_ w)
            (filter (fun n => node_id n <> id) <$> buckets_ w)
  else w.

(** Unlinking a node whose bucket is known: [list_unlink(n); --count_;] *)
Definition take_from (l j : Z) (n : WNode) (w : TimerWheel) : TimerWheel :=
  mkWheel (tick_ w) (now_tick_ w) (primed_ w) (count_ w ⊟ 1) (max_ticks_per_call_ w)
          (<[(l, j) := filter (fun m => node_id m <> node_id n) (bucket (buckets_ w) l j)]>
             (buckets_ w)).

Definition cascade_one (level home : Z) (w : TimerWheel) (n : WNode) : TimerWheel :=
  let now := now_tick_ w in
  let et := if now <? expiry_tick n then expiry_tick n else now in
  let lvl := level_of (et ⊟ now) in
  let dst := slot_of et lvl in
  if negb (lvl =? level) || negb (dst =? home)
  then insert_node n et now (take_from level home n w)
  else w.

(** The walk captures [next] before a node moves and no node is pushed to the
    slot being walked, so it visits the members present at the start. *)
Definition cascade (level : Z) (w : TimerWheel) : TimerWheel :=
  let home := slot_of (now_tick_ w) level in
  foldl (cascade_one level home) w (bucket (buckets_ w) level home).

Fixpoint zseq (from : Z) (len : nat) : list Z :=
  match len with O => [] | S k => from :: zseq (from + 1) k end.

(** First [advance]: every queued node, level by level and slot by slot, onto
    [hold]; then back into the wheel relative to the new epoch. *)
Definition hold_of (b : buckets) : list WNode :=
  concat (map (fun l => concat (map (fun j => bucket b l j) (zseq 0 (Z.to_nat kSlots))))
              (zseq 0 (Z.to_nat kLevels))).

Definition prime (target : Z) (w : TimerWheel) : TimerWheel :=
  let now := if target =? 0 then 0 else target ⊟ 1 in
  let min_et := if target =? 0 then 1 else target in
  foldl (fun w n =>
           insert_node n (if min_et <? expiry_tick n then expiry_tick n else min_et) now w)
        (mkWheel (tick_ w) now true 0 (max_ticks_per_call_ w) ∅)
        (hold_of (buckets_ w)).

(** ** [advance] over a state that contains the wheel *)

Class HasWheel (S : Type) := {
  wheel_of : S -> TimerWheel;
  set_wheel : TimerWheel -> S -> S;
  wheel_of_set : forall w s, wheel_of (set_wheel w s) = w;
}.

Section Advance.
Context {S : Type} `{HasWheel S} (fire : WNode -> S -> S).

Fixpoint expire_loop (fuel : nat) (slot : Z) (s : S) : S :=
  match fuel with
  | O => s
  | Datatypes.S f =>
      match bucket (buckets_ (wheel_of s)) 0 slot with
      | [] => s
      | n :: _ =>
          let w := take_from 0 slot n (wheel_of s) in
          if now_tick_ w <? expiry_tick n
          then expire_loop f slot (set_wheel (insert n (now_tick_ w) w) s)
          else expire_loop f slot (fire n (set_wheel w s))
      end
  end.

(** The loop drains the slot: one round per member present at the start is
    enough, because nothing is linked into the current slot during the sweep. *)
Definition expire_slot (slot : Z) (s : S) : S :=
  expire_loop (length (bucket (buckets_ (wheel_of s)) 0 slot)) slot s.

Definition cascade_level (w : TimerWheel) (l : Z) : TimerWheel :=
  if now_tick_ w mod (Z.shiftl kSlots (8 * (l - 1))) =? 0 then cascade l w else w.

(** One round of the loop of [advance]. *)
Definition step_tick (s : S) : S :=
  let w := set_now (now_tick_ (wheel_of s) ⊞ 1) (wheel_of s) in
  let w := foldl cascade_level w (zseq 1 (Z.to_nat (kLevels - 1))) in
  expire_slot (Z.land (now_tick_ w) (kSlots - 1)) (set_wheel w s).

Fixpoint advance_loop (steps : nat) (target : Z) (s : S) : S :=
  match steps with
  | O => s
  | Datatypes.S k =>
      if now_tick_ (wheel_of s) <? target
      then advance_loop k target (step_tick s)
      else s
  end.

Definition advance (target : Z) (s : S) : S :=
  let w0 := wheel_of s in
  let w1 := if primed_ w0 then w0 else prime target w0 in
  if count_ w1 =? 0
  then set_wheel (if now_tick_ w1 <? target then set_now target w1 else w1) s
  else advance_loop (Z.to_nat (max_ticks_per_call_ w1)) target (set_wheel w1 s).

(** A relation that holds across changes of the wheel and across callbacks holds
    across an advance. *)
Lemma advance_invariant (R : S -> S -> Prop) `{!PreOrder R} target s :
  (forall w s, R s (set_wheel w s)) -> (forall n s, R s (fire n s)) -> R s (advance target s).
Proof.
  intros Hw Hf.
  assert (Hx : forall fuel slot s, R s (expire_loop fuel slot s)).
  { induction fuel as [|f IH]; intros slot s0; simpl; [done|]. destruct (bucket _ _ _) as [|n r]; [done|].
    case_test; [etrans; [apply Hw|apply IH]|]. etrans; [apply Hw|]. etrans; [apply Hf|apply IH]. }
  assert (Hl : forall k target s, R s (advance_loop k target s)).
  { induction k as [|k IH]; intros t s0; simpl; [done|]. case_test; [|done].
    etrans; [|apply IH]. unfold step_tick, expire_slot. etrans; [apply Hw|apply Hx]. }
  unfold advance. cbv zeta. destruct (count_ _ =? 0); [apply Hw|]. etrans; [apply Hw|apply Hl].
Qed.

End Advance.

Definition next_due_tick (w : TimerWheel) : Z :=
  if count_ w =? 0 then u64_max
  else
    foldl (fun best l =>
      let span := Z.shiftl 1 (8 * l) in
      let super := u64 (Z.shiftl span 8) in
      let wprev := (now_tick_ w / super) ⊠ super in
      foldl (fun best j =>
        match bucket (buckets_ w) l j with
        | [] => best
        | _ =>
            let cand := wprev ⊞ (j ⊠ span) in
            let cand := if cand <=? now_tick_ w then cand ⊞ super else cand in
            if cand <? best then cand else best
        end) best (zseq 0 (Z.to_nat kSlots)))
      u64_max (zseq 0 (Z.to_nat kLevels)).

(** ** Digits *)

Lemma slot_of_eq et l : 0 <= l -> slot_of et l = (et / 2 ^ (8 * l)) mod kSlots.
Proof.
  intros Hl. unfold slot_of, kSlots. change (256 - 1) with (Z.ones 8).
  rewrite Z.land_ones, Z.shiftr_div_pow2 by lia. done.
Qed.

Lemma slot_of_range et l : 0 <= slot_of et l < kSlots.
Proof.
  unfold slot_of, kSlots. change (256 - 1) with (Z.ones 8).
  rewrite Z.land_ones by lia. apply Z.mod_pos_bound. lia.
Qed.

Lemma pow_step l : 0 <= l -> 2 ^ (8 * (l + 1)) = 256 * 2 ^ (8 * l).
Proof. intros. rewrite Z.mul_add_distr_l, Z.pow_add_r by lia. lia. Qed.

Lemma level_loop_enough fuel d lv :
  0 <= d < 2 ^ (8 * Z.of_nat fuel) -> (0 < fuel)%nat ->
  exists k, level_loop fuel d lv = lv + k /\ 0 <= k /\
    d < 2 ^ (8 * (k + 1)) /\ (k = 0 \/ 2 ^ (8 * k) <= d).
Proof.
  revert d lv. induction fuel as [|f IH]; intros d lv Hd Hf; [lia|]. simpl.
  unfold kSlots. destruct (Z.leb_spec 256 d) as [Hge|Hlt].
  - destruct f as [|f].
    { change (2 ^ (8 * Z.of_nat 1)) with 256 in Hd. lia. }
    rewrite Z.shiftr_div_pow2 by lia. change (2 ^ 8) with 256.
    destruct (IH (d / 256) (lv + 1)) as (k & Hk & Hk0 & Hlt & Hge').
    { rewrite (Nat2Z.inj_succ (S f)) in Hd. unfold Z.succ in Hd.
      rewrite pow_step in Hd by lia. split; [apply Z.div_pos; lia|].
      apply Z.div_lt_upper_bound; lia. }
    { lia. }
    exists (k + 1). rewrite Hk. split_and!; [lia|lia| |right].
    + rewrite (pow_step (k + 1)) by lia.
      pose proof (Z.mul_succ_div_gt d 256). lia.
    + rewrite pow_step by lia. pose proof (Z.mul_div_le d 256).
      destruct Hge' as [->|?]; [change (2 ^ (8 * 0)) with 1|]; lia.
  - exists 0. split_and!; [lia|lia|change (2 ^ (8 * (0 + 1))) with 256; lia|auto].
Qed.

Lemma level_of_spec d :
  0 <= d < 2 ^ 32 ->
  0 <= level_of d < kLevels /\ d < 2 ^ (8 * (level_of d + 1)) /\
  (level_of d = 0 \/ 2 ^ (8 * level_of d) <= d).
Proof.
  intros Hd. unfold level_of.
  destruct (level_loop_enough 8 d 0) as (k & -> & Hk & Hlt & Hge); [|lia|].
  { change (2 ^ (8 * Z.of_nat 8)) with (2 ^ 64). lia. }
  rewrite Z.add_0_l. split_and!; try done. unfold kLevels.
  destruct Hge as [->|Hge]; [lia|].
  assert (2 ^ (8 * k) < 2 ^ 32) as Hp by lia.
  apply Z.pow_lt_mono_r_iff in Hp; lia.
Qed.

Lemma fits_iff e now :
  0 <= e < 2 ^ 64 -> 0 <= now < 2 ^ 63 -> fits e now = true <-> e - now < 2 ^ 32.
Proof.
  intros He Hn. unfold fits. destruct (Z.leb_spec e now).
  - split; [lia|done].
  - wrap_simpl. change (Nat.iter (Z.to_nat kLevels) (fun d => Z.shiftr d 8) (e - now))
      with (Z.shiftr (Z.shiftr (Z.shiftr (Z.shiftr (e - now) 8) 8) 8) 8).
    rewrite !Z.shiftr_shiftr by lia. change (8 + 8 + 8 + 8) with 32.
    rewrite Z.shiftr_div_pow2 by lia. rewrite Z.eqb_eq. split.
    + intros Hd. apply Z.div_small_iff in Hd; lia.
    + intros Hd. apply Z.div_small. lia.
Qed.

(** ** Where a node waits *)

(** A node with expiry tick [e] in slot [j] of level [l], when [t] is the next
    tick to be processed.  [sv] is the tick at which that slot is serviced. *)
Definition pend (t l j e : Z) : Prop :=
  0 <= l < kLevels /\ 0 <= j < kSlots /\
  exists sv, t <= sv < t + 2 ^ (8 * (l + 1)) /\ sv <= Z.max e t /\ e < sv + 2 ^ (8 * l) /\
    sv mod 2 ^ (8 * l) = 0 /\ (sv / 2 ^ (8 * l)) mod kSlots = j.

(** [insert_node] for an effective tick [et] at [now] puts the node where it is
    serviced at the right time. *)
Lemma place_pend now t e et :
  0 <= now -> now <= et -> et - now < 2 ^ 32 -> e <= et -> et <= Z.max e t ->
  t <= et -> now <= t <= now + 1 ->
  let l := level_of (et - now) in
  pend t l (slot_of et l) e /\ (l = 0 \/ pend (now + 1) l (slot_of et l) e).
Proof.
  intros Hnow Hle Hh He Hmax Ht Htn l.
  destruct (level_of_spec (et - now)) as (Hl & Hlt & Hge); [lia|]. fold l in Hl, Hlt, Hge.
  pose proof (slot_of_range et l) as Hj.
  pose proof (Z.pow_pos_nonneg 2 (8 * l)) as Hp.
  pose proof (pow_step l) as Hstep.
  pose proof (Z.div_mod et (2 ^ (8 * l))) as Hdm.
  pose proof (Z.mod_pos_bound et (2 ^ (8 * l))) as Hmb.
  set (q := et / 2 ^ (8 * l)) in *. set (r := et mod 2 ^ (8 * l)) in *.
  assert (Hsv : (2 ^ (8 * l) * q) mod 2 ^ (8 * l) = 0).
  { rewrite Z.mul_comm. apply Z.mod_mul. lia. }
  assert (Hdiv : 2 ^ (8 * l) * q / 2 ^ (8 * l) = q).
  { rewrite Z.mul_comm. apply Z.div_mul. lia. }
  rewrite slot_of_eq in * by lia. fold q in Hj |- *.
  assert (Hpos : l = 0 \/ now + 1 <= 2 ^ (8 * l) * q).
  { destruct Hge as [?|Hge]; [by left|right]. lia. }
  split.
  - split_and!; try lia. exists (2 ^ (8 * l) * q). rewrite Hsv, Hdiv.
    split_and!; try lia; try done.
    destruct Hpos as [Hl0|?]; [|lia]. rewrite Hl0 in Hdm, Hmb. simpl in Hdm, Hmb.
    rewrite Hl0. simpl. unfold r in *. lia.
  - destruct Hpos as [?|Hpos]; [by left|right].
    split_and!; try lia. exists (2 ^ (8 * l) * q). rewrite Hsv, Hdiv.
    split_and!; try lia; try done.
Qed.

(** Not serviced at [t]: the node waits for a later tick and is not yet due. *)
Definition later (t l j e : Z) : Prop := pend (t + 1) l j e /\ t < e.

(** A slot that is serviced at [t] holds only nodes waiting for [t]; other
    slots hold only nodes waiting for a later tick. *)
Lemma pend_home t l j e :
  pend t l j e -> 0 <= t ->
  (t mod 2 ^ (8 * l) = 0 -> j = slot_of t l -> e < t + 2 ^ (8 * l)) /\
  (t mod 2 ^ (8 * l) <> 0 \/ j <> slot_of t l -> later t l j e).
Proof.
  intros (Hl & Hj & sv & Hsv & Hmax & He & Hmod & Hdig) Ht.
  pose proof (Z.pow_pos_nonneg 2 (8 * l)) as Hp.
  pose proof (pow_step l) as Hstep.
  assert (Heq : t mod 2 ^ (8 * l) = 0 -> j = slot_of t l -> sv = t).
  { intros Hm Hjt. rewrite slot_of_eq in Hjt by lia. rewrite <- Hdig in Hjt. clear Hdig.
    unfold kSlots in *.
    set (P := 2 ^ (8 * l)) in *.
    pose proof (Z.div_mod sv P) as H1. pose proof (Z.div_mod t P) as H2.
    rewrite Hmod in H1. rewrite Hm in H2.
    pose proof (Z.div_mod (sv / P) 256) as H3. pose proof (Z.div_mod (t / P) 256) as H4.
    rewrite Hjt in H3.
    assert (sv / P / 256 = t / P / 256); [|nia].
    assert (0 <= sv / P - t / P < 256) by nia. lia. }
  split.
  - intros Hm Hjt. specialize (Heq Hm Hjt). subst sv. done.
  - intros Hne.
    assert (Hst : sv <> t).
    { intros ->. destruct Hne as [Hne|Hne]; [done|]. rewrite slot_of_eq in Hne by lia. done. }
    split; [|lia]. split_and!; try lia. exists sv. split_and!; try lia; try done.
Qed.

(** ** Buckets as a collection of nodes *)

Lemma bucket_insert b l j xs l' j' :
  bucket (<[(l, j) := xs]> b) l' j' = if decide ((l', j') = (l, j)) then xs else bucket b l' j'.
Proof.
  unfold bucket. case_decide as Hd.
  - rewrite Hd, lookup_insert_eq. done.
  - rewrite lookup_insert_ne by done. done.
Qed.

Lemma nodes_of_insert b l j xs :
  nodes_of (<[(l, j) := xs]> b) ≡ₚ xs ++ nodes_of (delete (l, j) b).
Proof.
  unfold nodes_of. rewrite <- insert_delete_eq.
  rewrite map_to_list_insert by apply lookup_delete_eq. done.
Qed.

Lemma nodes_of_split b l j : nodes_of b ≡ₚ bucket b l j ++ nodes_of (delete (l, j) b).
Proof.
  unfold bucket. destruct (b !! (l, j)) as [xs|] eqn:Hb; simpl.
  - rewrite <- nodes_of_insert. by rewrite insert_id.
  - by rewrite delete_id.
Qed.

Lemma elem_of_nodes_of b n : n ∈ nodes_of b <-> exists l j, n ∈ bucket b l j.
Proof.
  unfold nodes_of, bucket. rewrite list_elem_of_join. split.
  - intros (xs & Hn & Hxs). apply list_elem_of_fmap in Hxs as ([[l j] ys] & -> & Hin).
    apply elem_of_map_to_list in Hin. exists l, j. by rewrite Hin.
  - intros (l & j & Hn). destruct (b !! (l, j)) as [xs|] eqn:Hb; simpl in Hn.
    + exists xs. split; [done|]. apply list_elem_of_fmap.
      exists ((l, j), xs). split; [done|]. by apply elem_of_map_to_list.
    + by apply not_elem_of_nil in Hn.
Qed.

Lemma nodes_push l j n w : nodes (push l j n w) ≡ₚ n :: nodes w.
Proof.
  unfold nodes, push. simpl. rewrite nodes_of_insert, (nodes_of_split (buckets_ w) l j).
  rewrite <- app_assoc. simpl. by rewrite <- Permutation_middle.
Qed.

Lemma filter_other (n : WNode) (xs : list WNode) :
  node_id n ∉ node_id <$> xs -> filter (fun m => node_id m <> node_id n) xs = xs.
Proof.
  induction xs as [|x xs IH]; [done|]. rewrite fmap_cons, not_elem_of_cons. intros [Hx Hxs].
  rewrite filter_cons_True by done. by rewrite IH.
Qed.

Lemma filter_first (n : WNode) (xs : list WNode) :
  NoDup (node_id <$> n :: xs) -> filter (fun m => node_id m <> node_id n) (n :: xs) = xs.
Proof.
  rewrite fmap_cons. intros [Hn _]%NoDup_cons. rewrite filter_cons_False by tauto.
  by apply filter_other.
Qed.

Lemma bucket_nodup b l j : NoDup (node_id <$> nodes_of b) -> NoDup (node_id <$> bucket b l j).
Proof.
  rewrite (nodes_of_split b l j), fmap_app, NoDup_app. by intros [? _].
Qed.

Lemma nodes_take l j n xs w :
  NoDup (node_id <$> nodes w) -> bucket (buckets_ w) l j = n :: xs ->
  nodes w ≡ₚ n :: nodes (take_from l j n w) /\
  bucket (buckets_ (take_from l j n w)) l j = xs.
Proof.
  intros Hnd Hb. pose proof (bucket_nodup _ l j Hnd) as Hndb. rewrite Hb in Hndb.
  unfold nodes, take_from. simpl. rewrite Hb, filter_first by done. split.
  - rewrite nodes_of_insert, (nodes_of_split (buckets_ w) l j), Hb. done.
  - rewrite bucket_insert. by rewrite decide_True.
Qed.

(** ** The invariant, for a predicate [Q l j e] on placed nodes *)

Record winv (Q : Z -> Z -> Z -> Prop) (w : TimerWheel) : Prop := {
  wi_now : 0 <= now_tick_ w < 2 ^ 62;
  wi_place : forall l j n, n ∈ bucket (buckets_ w) l j -> Q l j (expiry_tick n);
  wi_range : forall n, n ∈ nodes w -> 0 <= expiry_tick n < now_tick_ w + 2 ^ 32;
  wi_nodup : NoDup (node_id <$> nodes w);
  wi_count : count_ w = Z.of_nat (length (nodes w)) /\ count_ w < 2 ^ 64;
}.

Lemma winv_impl (Q Q' : Z -> Z -> Z -> Prop) w :
  winv Q w ->
  (forall l j n, n ∈ bucket (buckets_ w) l j -> Q l j (expiry_tick n) -> Q' l j (expiry_tick n)) ->
  winv Q' w.
Proof. intros [] HQ. constructor; auto. Qed.

Lemma winv_push Q l j n w :
  winv Q w -> Q l j (expiry_tick n) -> 0 <= expiry_tick n < now_tick_ w + 2 ^ 32 ->
  node_id n ∉ node_id <$> nodes w -> count_ w + 1 < 2 ^ 64 ->
  winv Q (push l j n w).
Proof.
  intros Hw HQ He Hid Hc. destruct (wi_count Q w Hw) as [Hcount _]. constructor.
  - apply (wi_now Q w Hw).
  - intros l' j' m. simpl. rewrite bucket_insert. case_decide as Hd.
    + injection Hd as -> ->. intros [Hm|Hm]%elem_of_app; [by apply (wi_place Q w Hw)|].
      apply list_elem_of_singleton in Hm. by subst.
    + apply (wi_place Q w Hw).
  - intros m. rewrite nodes_push. simpl. intros [->|Hm]%elem_of_cons; [done|].
    by apply (wi_range Q w Hw).
  - rewrite nodes_push, fmap_cons. apply NoDup_cons. split; [done|apply (wi_nodup Q w Hw)].
  - rewrite nodes_push. simpl. wrap_simpl. lia.
Qed.

Lemma winv_take Q l j n xs w :
  winv Q w -> bucket (buckets_ w) l j = n :: xs ->
  winv Q (take_from l j n w) /\ node_id n ∉ node_id <$> nodes (take_from l j n w) /\
  count_ (take_from l j n w) + 1 < 2 ^ 64.
Proof.
  intros Hw Hb. destruct (nodes_take l j n xs w (wi_nodup Q w Hw) Hb) as [Hperm Hb'].
  destruct (wi_count Q w Hw) as [Hcount Hlt].
  pose proof (wi_nodup Q w Hw) as Hnd. rewrite Hperm, fmap_cons in Hnd.
  apply NoDup_cons in Hnd as [Hn Hnd].
  rewrite Hperm in Hcount. simpl in Hcount.
  assert (Hc : count_ (take_from l j n w) = Z.of_nat (length (nodes (take_from l j n w)))).
  { unfold take_from at 1. simpl. wrap_simpl. lia. }
  split_and!; [|done|lia]. constructor.
  - apply (wi_now Q w Hw).
  - intros l' j' m. destruct (decide ((l', j') = (l, j))) as [Hd|Hd].
    + injection Hd as -> ->. rewrite Hb'. intros Hm. apply (wi_place Q w Hw).
      rewrite Hb. by right.
    + unfold take_from. simpl. rewrite bucket_insert, decide_False by done.
      apply (wi_place Q w Hw).
  - intros m Hm. apply (wi_range Q w Hw). rewrite Hperm. by right.
  - done.
  - lia.
Qed.

Lemma insert_node_now n et now w : now_tick_ (insert_node n et now w) = now_tick_ w.
Proof. done. Qed.

(** ** [unlink] *)

Lemma bucket_fmap_filter b id l j :
  bucket (filter (fun n => node_id n <> id) <$> b) l j =
  filter (fun n => node_id n <> id) (bucket b l j).
Proof. unfold bucket. rewrite lookup_fmap. by destruct (b !! (l, j)). Qed.

Lemma nodes_of_fmap_filter b id :
  nodes_of (filter (fun n => node_id n <> id) <$> b) =
  filter (fun n => node_id n <> id) (nodes_of b).
Proof.
  unfold nodes_of. rewrite map_to_list_fmap.
  induction (map_to_list b) as [|[k xs] r IH]; simpl; [done|].
  rewrite filter_app. by f_equal.
Qed.

Lemma filter_id_length (id : Handles.Handle) (xs : list WNode) :
  NoDup (node_id <$> xs) -> id ∈ node_id <$> xs ->
  length xs = S (length (filter (fun n => node_id n <> id) xs)).
Proof.
  induction xs as [|x xs IH]; [by intros _ ?%not_elem_of_nil|].
  rewrite fmap_cons. intros [Hx Hnd]%NoDup_cons [->|Hin]%elem_of_cons.
  - rewrite filter_cons_False by tauto. by rewrite filter_other.
  - rewrite filter_cons_True by (intros <-; done). simpl. by rewrite <- IH.
Qed.

Lemma nodes_unlink id w :
  nodes (unlink id w) = filter (fun n => node_id n <> id) (nodes w).
Proof.
  unfold unlink. destruct (linked id w) eqn:Hl.
  - unfold nodes. simpl. apply nodes_of_fmap_filter.
  - apply bool_decide_eq_false in Hl. symmetry.
    by apply (filter_other (mkWNode id 0)).
Qed.

Lemma winv_unlink Q id w : winv Q w -> winv Q (unlink id w).
Proof.
  intros Hw. pose proof (nodes_unlink id w) as Hn.
  destruct (linked id w) eqn:Hl; [|by unfold unlink; rewrite Hl].
  apply bool_decide_eq_true in Hl as Hin. destruct (wi_count Q w Hw) as [Hc Hlt].
  pose proof (filter_id_length id (nodes w) (wi_nodup Q w Hw) Hin) as Hlen.
  constructor; rewrite ?Hn.
  - unfold unlink. rewrite Hl. apply (wi_now Q w Hw).
  - unfold unlink. rewrite Hl. intros l j n. simpl. rewrite bucket_fmap_filter.
    intros [_ Hm]%list_elem_of_filter. by apply (wi_place Q w Hw).
  - intros n [_ Hm]%list_elem_of_filter. unfold unlink. rewrite Hl.
    by apply (wi_range Q w Hw).
  - eapply sublist_NoDup; [apply (wi_nodup Q w Hw)|].
    apply fmap_sublist, sublist_filter.
  - unfold unlink. rewrite Hl. simpl. wrap_simpl. lia.
Qed.

Lemma unlink_now id w : now_tick_ (unlink id w) = now_tick_ w.
Proof. unfold unlink. by destruct (linked id w). Qed.

(** ** [insert] *)

(** Placing a node while [now] is the tick being processed never puts it into
    the slot that is being drained. *)
Lemma place_not_current now et :
  0 <= now -> now < et -> et - now < 2 ^ 32 ->
  (level_of (et - now), slot_of et (level_of (et - now))) <> (0, slot_of now 0).
Proof.
  intros Hn Hlt Hh [= Hl Hs].
  destruct (level_of_spec (et - now)) as (_ & Hd & _); [lia|].
  rewrite Hl in *. change (2 ^ (8 * (0 + 1))) with 256 in Hd.
  rewrite !slot_of_eq in Hs by lia. change (2 ^ (8 * 0)) with 1 in Hs. unfold kSlots in Hs.
  rewrite !Z.div_1_r in Hs.
  pose proof (Z.div_mod et 256). pose proof (Z.div_mod now 256). lia.
Qed.

Definition effective (now e : Z) : Z := if now <? e then e else now + 1.

Lemma insert_eq n now w :
  0 <= now < 2 ^ 62 -> 0 <= expiry_tick n < now + 2 ^ 32 ->
  insert n now w =
  let et := effective now (expiry_tick n) in
  push (level_of (et - now)) (slot_of et (level_of (et - now))) n w.
Proof.
  intros Hn He. unfold insert, insert_node, effective.
  destruct (Z.ltb_spec now (expiry_tick n)); wrap_simpl; done.
Qed.

Lemma effective_place now e :
  0 <= now -> 0 <= e < now + 2 ^ 32 ->
  let et := effective now e in
  now < et /\ et - now < 2 ^ 32 /\
  pend (now + 1) (level_of (et - now)) (slot_of et (level_of (et - now))) e.
Proof.
  intros Hn He et. assert (Het : now < et /\ e <= et /\ et <= Z.max e (now + 1) /\ et - now < 2 ^ 32).
  { unfold et, effective. destruct (Z.ltb_spec now e); lia. }
  split_and!; try lia. apply place_pend; lia.
Qed.

Lemma winv_insert Q n w :
  winv Q w ->
  (forall l j e, pend (now_tick_ w + 1) l j e -> (l, j) <> (0, slot_of (now_tick_ w) 0) -> Q l j e) ->
  0 <= expiry_tick n < now_tick_ w + 2 ^ 32 ->
  node_id n ∉ node_id <$> nodes w -> count_ w + 1 < 2 ^ 64 ->
  winv Q (insert n (now_tick_ w) w) /\
  nodes (insert n (now_tick_ w) w) ≡ₚ n :: nodes w /\
  bucket (buckets_ (insert n (now_tick_ w) w)) 0 (slot_of (now_tick_ w) 0) =
  bucket (buckets_ w) 0 (slot_of (now_tick_ w) 0).
Proof.
  intros Hw HQ He Hid Hc. pose proof (wi_now Q w Hw) as Hnow.
  rewrite insert_eq by lia. cbv zeta.
  destruct (effective_place (now_tick_ w) (expiry_tick n)) as (Hlt & Hh & Hp); [lia|lia|].
  pose proof (place_not_current (now_tick_ w) (effective (now_tick_ w) (expiry_tick n))) as Hne.
  specialize (Hne ltac:(lia) Hlt Hh). split_and!.
  - apply winv_push; auto.
  - apply nodes_push.
  - simpl. rewrite bucket_insert, decide_False; [done|]. congruence.
Qed.

(** The wheel between two calls: every node waits for a tick after [now]. *)
Definition wheel_ok (w : TimerWheel) : Prop := winv (pend (now_tick_ w + 1)) w.

(** ** Cascading *)

(** While tick [t] is processed and levels [1 .. k-1] have been cascaded. *)
Definition casc (t k l j e : Z) : Prop :=
  if (1 <=? l) && (l <? k) then later t l j e else pend t l j e.

Lemma casc_0 t k j e : casc t k 0 j e <-> pend t 0 j e.
Proof. done. Qed.

Lemma casc_below t k l j e : 1 <= l < k -> casc t k l j e <-> later t l j e.
Proof. intros. unfold casc. rewrite (proj2 (Z.leb_le 1 l)), (proj2 (Z.ltb_lt l k)) by lia. done. Qed.

Lemma casc_above t k l j e : k <= l -> casc t k l j e <-> pend t l j e.
Proof. intros. unfold casc. rewrite (proj2 (Z.ltb_ge l k)) by lia. by rewrite andb_false_r. Qed.

(** The fields an operation on the buckets leaves alone. *)
Definition same_frame (w w' : TimerWheel) : Prop :=
  tick_ w' = tick_ w /\ now_tick_ w' = now_tick_ w /\ primed_ w' = primed_ w /\
  max_ticks_per_call_ w' = max_ticks_per_call_ w.

Lemma same_frame_refl w : same_frame w w.
Proof. done. Qed.

Lemma same_frame_trans w1 w2 w3 : same_frame w1 w2 -> same_frame w2 w3 -> same_frame w1 w3.
Proof. unfold same_frame. intuition congruence. Qed.

Lemma cascade_one_spec t l n xs w :
  winv (casc t l) w -> now_tick_ w = t -> 1 <= l < kLevels ->
  t mod 2 ^ (8 * l) = 0 -> bucket (buckets_ w) l (slot_of t l) = n :: xs ->
  let w' := cascade_one l (slot_of t l) w n in
  winv (casc t l) w' /\ nodes w' ≡ₚ nodes w /\ same_frame w w' /\
  bucket (buckets_ w') l (slot_of t l) = xs.
Proof.
  intros Hw Hnow Hl Hm Hb w'. pose proof (wi_now _ w Hw) as Hr. rewrite Hnow in Hr.
  assert (Hn : n ∈ bucket (buckets_ w) l (slot_of t l)) by (rewrite Hb; by left).
  pose proof (wi_place _ w Hw _ _ _ Hn) as Hp. rewrite casc_above in Hp by lia.
  destruct (pend_home _ _ _ _ Hp) as [Hhome _]; [lia|]. specialize (Hhome Hm eq_refl).
  destruct (wi_range _ w Hw n) as [He0 He1].
  { apply elem_of_nodes_of. eauto. }
  set (et := if t <? expiry_tick n then expiry_tick n else t).
  assert (Het : t <= et /\ expiry_tick n <= et /\ et <= Z.max (expiry_tick n) t /\
                et - t < 2 ^ (8 * l) /\ et - t < 2 ^ 32).
  { pose proof (Z.pow_pos_nonneg 2 (8 * l)). rewrite Hnow in He1.
    unfold et. destruct (Z.ltb_spec t (expiry_tick n)); lia. }
  destruct (level_of_spec (et - t)) as (HL & HLlt & HLge); [lia|].
  assert (HLl : level_of (et - t) < l).
  { destruct HLge as [->|HLge]; [lia|].
    assert (2 ^ (8 * level_of (et - t)) < 2 ^ (8 * l)) as Hlt by lia.
    apply Z.pow_lt_mono_r_iff in Hlt; lia. }
  assert (Hw' : w' = push (level_of (et - t)) (slot_of et (level_of (et - t))) n
                       (take_from l (slot_of t l) n w)).
  { unfold w', cascade_one. rewrite Hnow. fold et. unfold insert_node. wrap_simpl.
    destruct (Z.eqb_spec (level_of (et - t)) l); [lia|done]. }
  destruct (winv_take _ _ _ _ _ _ Hw Hb) as (Hwt & Hid & Hcnt).
  destruct (nodes_take _ _ _ _ _ (wi_nodup _ w Hw) Hb) as [Hperm Hbt].
  destruct (place_pend t t (expiry_tick n) et) as [Hp1 Hp2]; try lia.
  rewrite Hw'. split_and!.
  - apply winv_push; [done| |simpl; lia|done|done].
    destruct (Z.eq_dec (level_of (et - t)) 0) as [Hz|Hz].
    + rewrite Hz in *. by apply casc_0.
    + rewrite casc_below by lia. destruct Hp2 as [?|Hp2]; [done|]. split; [done|].
      destruct HLge as [?|HLge]; [done|]. pose proof (Z.pow_pos_nonneg 2 (8 * level_of (et - t))).
      revert HLge. unfold et at 2. destruct (Z.ltb_spec t (expiry_tick n)); lia.
  - by rewrite nodes_push, <- Hperm.
  - done.
  - simpl. rewrite bucket_insert, decide_False; [exact Hbt|]. intros [= ? _]. lia.
Qed.

Lemma cascade_loop_spec t l xs w :
  winv (casc t l) w -> now_tick_ w = t -> 1 <= l < kLevels ->
  t mod 2 ^ (8 * l) = 0 -> bucket (buckets_ w) l (slot_of t l) = xs ->
  let w' := foldl (cascade_one l (slot_of t l)) w xs in
  winv (casc t l) w' /\ nodes w' ≡ₚ nodes w /\ same_frame w w' /\
  bucket (buckets_ w') l (slot_of t l) = [].
Proof.
  revert w. induction xs as [|n xs IH]; intros w Hw Hnow Hl Hm Hb; simpl.
  { split_and!; done. }
  destruct (cascade_one_spec t l n xs w) as (Hw1 & Hp1 & Hf1 & Hb1); try done.
  destruct (IH (cascade_one l (slot_of t l) w n)) as (Hw2 & Hp2 & Hf2 & Hb2); try done.
  { destruct Hf1 as (_ & -> & _). done. }
  split_and!; try done; [by rewrite Hp2|by eapply same_frame_trans].
Qed.

Lemma cascade_level_spec t l w :
  winv (casc t l) w -> now_tick_ w = t -> 1 <= l < kLevels ->
  let w' := cascade_level w l in
  winv (casc t (l + 1)) w' /\ nodes w' ≡ₚ nodes w /\ same_frame w w'.
Proof.
  intros Hw Hnow Hl. pose proof (wi_now _ w Hw) as Hr. unfold cascade_level.
  assert (Hpow : Z.shiftl kSlots (8 * (l - 1)) = 2 ^ (8 * l)).
  { unfold kSlots. rewrite Z.shiftl_mul_pow2 by lia. change 256 with (2 ^ 8).
    rewrite <- Z.pow_add_r by lia. f_equal. lia. }
  rewrite Hpow, Hnow.
  assert (Hmono : forall w', winv (casc t l) w' ->
    (forall j n, n ∈ bucket (buckets_ w') l j -> pend t l j (expiry_tick n) ->
                 later t l j (expiry_tick n)) -> winv (casc t (l + 1)) w').
  { intros w' Hw' Hpl. eapply winv_impl; [exact Hw'|]. intros l' j n Hn.
    destruct (Z.eq_dec l' l) as [->|Hne].
    - rewrite casc_above, casc_below by lia. by apply Hpl.
    - unfold casc. destruct (Z.leb_spec 1 l'); [|done].
      destruct (Z.ltb_spec l' l), (Z.ltb_spec l' (l + 1)); simpl; try lia; done. }
  destruct (Z.eqb_spec (t mod 2 ^ (8 * l)) 0) as [Hm|Hm].
  - unfold cascade. rewrite Hnow.
    destruct (cascade_loop_spec t l _ w Hw Hnow Hl Hm eq_refl) as (Hw' & Hp & Hf & Hb).
    split_and!; [|done|done]. apply Hmono; [done|]. intros j n Hn Hpend.
    apply (pend_home _ _ _ _ Hpend); [lia|]. right. intros ->. rewrite Hb in Hn.
    by apply not_elem_of_nil in Hn.
  - split_and!; [|done|done]. apply Hmono; [done|]. intros j n _ Hpend.
    apply (pend_home _ _ _ _ Hpend); [lia|]. by left.
Qed.

(** After the cascades of tick [t]: the current slot of level 0 holds nodes due
    by [t], everything else waits for a later tick. *)
Definition mid (t l j e : Z) : Prop :=
  if bool_decide ((l, j) = (0, slot_of t 0)) then e <= t else later t l j e.

Lemma mid_current t e : mid t 0 (slot_of t 0) e <-> e <= t.
Proof. unfold mid. by rewrite bool_decide_true. Qed.

Lemma mid_other t l j e : (l, j) <> (0, slot_of t 0) -> mid t l j e <-> later t l j e.
Proof. intros. unfold mid. by rewrite bool_decide_false. Qed.

Lemma cascades_spec t w :
  winv (pend t) w -> now_tick_ w = t ->
  let w' := foldl cascade_level w (zseq 1 (Z.to_nat (kLevels - 1))) in
  winv (mid t) w' /\ nodes w' ≡ₚ nodes w /\ same_frame w w'.
Proof.
  intros Hw Hnow. change (zseq 1 (Z.to_nat (kLevels - 1))) with [1; 2; 3]. simpl.
  assert (Hw0 : winv (casc t 1) w).
  { eapply winv_impl; [exact Hw|]. intros l j n _. unfold casc.
    destruct (Z.leb_spec 1 l), (Z.ltb_spec l 1); simpl; try lia; done. }
  destruct (cascade_level_spec t 1 w) as (Hw1 & Hp1 & Hf1); try done.
  destruct (cascade_level_spec t 2 (cascade_level w 1)) as (Hw2 & Hp2 & Hf2);
    [done|destruct Hf1 as (_ & -> & _); done|done|].
  pose proof (same_frame_trans _ _ _ Hf1 Hf2) as Hf12.
  destruct (cascade_level_spec t 3 (cascade_level (cascade_level w 1) 2)) as (Hw3 & Hp3 & Hf3);
    [done|destruct Hf12 as (_ & -> & _); done|done|].
  split_and!; [|by rewrite Hp3, Hp2|by eapply same_frame_trans].
  pose proof (wi_now _ w Hw) as Hr.
  eapply winv_impl; [exact Hw3|]. intros l j n _ Hc. unfold mid.
  assert (Hcase : (1 <= l /\ later t l j (expiry_tick n)) \/
                  (l = 0 /\ pend t 0 j (expiry_tick n))).
  { unfold casc in Hc. change (3 + 1) with 4 in Hc.
    destruct (Z.leb_spec 1 l), (Z.ltb_spec l 4); simpl in Hc; auto.
    - destruct Hc as [Hl _]. unfold kLevels in Hl. lia.
    - destruct (Hc) as [Hl _]. right. assert (l = 0) as -> by lia. done.
    - destruct Hc as [Hl _]. unfold kLevels in Hl. lia. }
  case_bool_decide as Hd.
  - injection Hd as -> ->. destruct Hcase as [[? _]|[_ Hp]].
    + lia.
    + destruct (pend_home _ _ _ _ Hp) as [Hh _]; [lia|].
      change (2 ^ (8 * 0)) with 1 in Hh. rewrite Z.mod_1_r in Hh.
      specialize (Hh eq_refl eq_refl). lia.
  - destruct Hcase as [[_ Hp]|[-> Hp]]; [done|].
    apply (pend_home _ _ _ _ Hp); [lia|]. right. intros ->. done.
Qed.

(** The weaker form under which [fire] may insert nodes that are already due:
    they go to the slot of the next tick. *)
Definition midw (t l j e : Z) : Prop :=
  if bool_decide ((l, j) = (0, slot_of t 0)) then e <= t else pend (t + 1) l j e.

Lemma mid_midw t w : winv (mid t) w -> winv (midw t) w.
Proof.
  intros Hw. eapply winv_impl; [exact Hw|]. intros l j n _. unfold mid, midw.
  case_bool_decide; [done|]. by intros [? _].
Qed.

(** ** Expiring the current slot

    [P] is the caller's own invariant.  [Hfire] is what the caller has to show of
    [fire], on a state whose current slot starts with the node being fired. *)
Section Expire.
Context {S : Type} `{HasWheel S} (fire : WNode -> S -> S) (t : Z).
Context (Q : Z -> Z -> Z -> Prop) (P : S -> Prop).

Definition fire_ok : Prop :=
  forall n xs s,
    P s -> winv Q (wheel_of s) -> now_tick_ (wheel_of s) = t ->
    bucket (buckets_ (wheel_of s)) 0 (slot_of t 0) = n :: xs -> expiry_tick n <= t ->
    let s' := fire n (set_wheel (take_from 0 (slot_of t 0) n (wheel_of s)) s) in
    P s' /\ winv Q (wheel_of s') /\ same_frame (wheel_of s) (wheel_of s') /\
    (length (bucket (buckets_ (wheel_of s')) 0 (slot_of t 0)) <= length xs)%nat.

Lemma expire_loop_spec fuel s :
  (forall e, Q 0 (slot_of t 0) e -> e <= t) -> fire_ok ->
  P s -> winv Q (wheel_of s) -> now_tick_ (wheel_of s) = t ->
  (length (bucket (buckets_ (wheel_of s)) 0 (slot_of t 0)) <= fuel)%nat ->
  let s' := expire_loop fire fuel (slot_of t 0) s in
  P s' /\ winv Q (wheel_of s') /\ same_frame (wheel_of s) (wheel_of s') /\
  bucket (buckets_ (wheel_of s')) 0 (slot_of t 0) = [].
Proof.
  intros HQ Hfire. revert s. induction fuel as [|f IH]; intros s HP Hw Hnow Hlen.
  { simpl. split_and!; try done. apply nil_length_inv. lia. }
  simpl. destruct (bucket (buckets_ (wheel_of s)) 0 (slot_of t 0)) as [|n xs] eqn:Hb.
  { split_and!; done. }
  assert (Hdue : expiry_tick n <= t).
  { apply HQ. apply (wi_place Q _ Hw). rewrite Hb. by left. }
  simpl in *. rewrite Hnow. destruct (Z.ltb_spec t (expiry_tick n)); [lia|].
  destruct (Hfire n xs s HP Hw Hnow Hb Hdue) as (HP' & Hw' & Hf' & Hlen').
  destruct (IH _ HP' Hw') as (HP2 & Hw2 & Hf2 & Hb2).
  { destruct Hf' as (_ & -> & _). done. }
  { lia. }
  split_and!; try done. by eapply same_frame_trans.
Qed.

Lemma expire_slot_spec s :
  (forall e, Q 0 (slot_of t 0) e -> e <= t) -> fire_ok ->
  P s -> winv Q (wheel_of s) -> now_tick_ (wheel_of s) = t ->
  let s' := expire_slot fire (slot_of t 0) s in
  P s' /\ winv Q (wheel_of s') /\ same_frame (wheel_of s) (wheel_of s') /\
  bucket (buckets_ (wheel_of s')) 0 (slot_of t 0) = [].
Proof. intros. by apply expire_loop_spec. Qed.

End Expire.

Lemma current_slot t : Z.land t (kSlots - 1) = slot_of t 0.
Proof. unfold slot_of. by rewrite Z.mul_0_r, Z.shiftr_0_r. Qed.

(** ** One tick *)

Section Tick.
Context {S : Type} `{HasWheel S} (fire : WNode -> S -> S) (P : S -> Prop).
Context (Q : Z -> Z -> Z -> Z -> Prop).

(** [P] does not see how the nodes are spread over the buckets. *)
Definition placement_blind : Prop :=
  forall s w, P s -> nodes w ≡ₚ nodes (wheel_of s) -> tick_ w = tick_ (wheel_of s) ->
    P (set_wheel w s).

Lemma step_tick_spec s :
  let t := now_tick_ (wheel_of s) + 1 in
  placement_blind -> fire_ok fire t (Q t) P ->
  (forall e, Q t 0 (slot_of t 0) e -> e <= t) ->
  (forall l j e, mid t l j e -> Q t l j e) ->
  P s -> wheel_ok (wheel_of s) -> t < 2 ^ 62 ->
  let s' := step_tick fire s in
  P s' /\ winv (Q t) (wheel_of s') /\ now_tick_ (wheel_of s') = t /\
  primed_ (wheel_of s') = primed_ (wheel_of s) /\
  max_ticks_per_call_ (wheel_of s') = max_ticks_per_call_ (wheel_of s) /\
  bucket (buckets_ (wheel_of s')) 0 (slot_of t 0) = [].
Proof.
  intros t Hblind Hfire HQ HmQ HP Hw Ht. pose proof (wi_now _ _ Hw) as Hn.
  unfold step_tick. rewrite (u64_small (now_tick_ (wheel_of s) + 1)) by lia. fold t.
  assert (Hw0 : winv (pend t) (set_now t (wheel_of s))).
  { destruct Hw. constructor; simpl; try done; try lia.
    intros n Hnn. specialize (wi_range0 n Hnn). lia. }
  destruct (cascades_spec t (set_now t (wheel_of s)) Hw0 eq_refl) as (Hw1 & Hp1 & Hf1).
  set (w1 := foldl cascade_level (set_now t (wheel_of s)) _) in *.
  destruct Hf1 as (Hf11 & Hf12 & Hf13 & Hf14). simpl in Hf11, Hf12, Hf13, Hf14.
  rewrite Hf12, current_slot.
  destruct (expire_slot_spec fire t (Q t) P (set_wheel w1 s)) as (HP2 & Hw2 & Hf2 & Hb2); try done.
  - apply Hblind; [done|exact Hp1|exact Hf11].
  - rewrite wheel_of_set. eapply winv_impl; [exact Hw1|]. intros; by apply HmQ.
  - by rewrite wheel_of_set.
  - destruct Hf2 as (Hf21 & Hf22 & Hf23 & Hf24). rewrite wheel_of_set in *.
    split_and!; try done; congruence.
Qed.

(** Between ticks again. *)
Lemma drained_ok t w :
  (forall l j e, Q t l j e -> (l, j) <> (0, slot_of t 0) -> pend (t + 1) l j e) ->
  winv (Q t) w -> now_tick_ w = t -> bucket (buckets_ w) 0 (slot_of t 0) = [] ->
  wheel_ok w.
Proof.
  intros HQ Hw Hn Hb. unfold wheel_ok. rewrite Hn. eapply winv_impl; [exact Hw|].
  intros l j n Hin Hq. apply HQ; [done|]. intros [= -> ->]. rewrite Hb in Hin.
  by apply not_elem_of_nil in Hin.
Qed.

Lemma advance_loop_spec steps target s :
  placement_blind ->
  (forall t, 0 < t < 2 ^ 62 -> fire_ok fire t (Q t) P) ->
  (forall t e, Q t 0 (slot_of t 0) e -> e <= t) ->
  (forall t l j e, mid t l j e -> Q t l j e) ->
  (forall t l j e, Q t l j e -> (l, j) <> (0, slot_of t 0) -> pend (t + 1) l j e) ->
  P s -> wheel_ok (wheel_of s) -> target < 2 ^ 62 ->
  let s' := advance_loop fire steps target s in
  P s' /\ wheel_ok (wheel_of s') /\
  primed_ (wheel_of s') = primed_ (wheel_of s) /\
  max_ticks_per_call_ (wheel_of s') = max_ticks_per_call_ (wheel_of s) /\
  now_tick_ (wheel_of s') =
    Z.max (now_tick_ (wheel_of s)) (Z.min target (now_tick_ (wheel_of s) + Z.of_nat steps)).
Proof.
  intros Hblind Hfire HQ HmQ Hpend. revert s. induction steps as [|k IH]; intros s HP Hw Ht.
  { simpl. split_and!; try done. lia. }
  cbn [advance_loop]. destruct (Z.ltb_spec (now_tick_ (wheel_of s)) target) as [Hlt|Hge].
  2:{ split_and!; try done. lia. }
  pose proof (wi_now _ _ Hw) as Hn.
  destruct (step_tick_spec s) as (HP1 & Hw1 & Hn1 & Hpr1 & Hm1 & Hb1); auto.
  { apply Hfire. lia. }
  { lia. }
  destruct (IH (step_tick fire s)) as (HP2 & Hw2 & Hpr2 & Hm2 & Hn2); try done.
  { apply (drained_ok (now_tick_ (wheel_of s) + 1)); [apply Hpend|done..]. }
  split_and!; try done; try congruence. rewrite Hn2, Hn1. lia.
Qed.

End Tick.

(** ** Priming *)

Lemma concat_list_prod {A B C} (f : A * B -> list C) (xs : list A) (ys : list B) :
  concat (map f (list_prod xs ys)) = concat (map (fun x => concat (map (fun y => f (x, y)) ys)) xs).
Proof.
  induction xs as [|x xs IH]; simpl; [done|].
  rewrite map_app, concat_app, map_map. by f_equal.
Qed.

Lemma elem_of_zseq x from len : x ∈ zseq from len <-> from <= x < from + Z.of_nat len.
Proof.
  revert from. induction len as [|k IH]; intros from; simpl.
  - split; [by intros ?%not_elem_of_nil|lia].
  - rewrite elem_of_cons, IH. lia.
Qed.

Lemma NoDup_zseq from len : NoDup (zseq from len).
Proof.
  revert from. induction len as [|k IH]; intros from; simpl; [apply NoDup_nil_2|].
  apply NoDup_cons. rewrite elem_of_zseq. split; [lia|done].
Qed.

(** All bucket keys, in the order in which [prime] walks them. *)
Definition all_keys : list (Z * Z) :=
  list_prod (zseq 0 (Z.to_nat kLevels)) (zseq 0 (Z.to_nat kSlots)).

Lemma elem_of_all_keys l j : (l, j) ∈ all_keys <-> 0 <= l < kLevels /\ 0 <= j < kSlots.
Proof.
  unfold all_keys. rewrite list_elem_of_In, in_prod_iff, <- !list_elem_of_In, !elem_of_zseq.
  unfold kLevels, kSlots. lia.
Qed.

Lemma NoDup_list_prod {A B} (xs : list A) (ys : list B) :
  NoDup xs -> NoDup ys -> NoDup (list_prod xs ys).
Proof.
  intros Hxs Hys. induction Hxs as [|x xs Hx Hxs IH]; simpl; [apply NoDup_nil_2|].
  apply NoDup_app. split_and!; [|..|done].
  - change (map (fun y => (x, y)) ys) with ((fun y => (x, y)) <$> ys).
    apply NoDup_fmap_2; [|done]. intros ?? [= ->]. done.
  - intros [a b] Ha Hb. rewrite list_elem_of_In, in_map_iff in Ha.
    rewrite list_elem_of_In, in_prod_iff, <- !list_elem_of_In in Hb.
    destruct Ha as (y & [= <- <-] & _). by destruct Hb.
Qed.

Lemma hold_of_eq b : hold_of b = concat (map (fun k => bucket b k.1 k.2) all_keys).
Proof. unfold hold_of, all_keys. by rewrite concat_list_prod. Qed.

Lemma walk_keys_nodes ks b :
  NoDup ks -> (forall l j, (l, j) ∉ ks -> bucket b l j = []) ->
  concat (map (fun k => bucket b k.1 k.2) ks) ≡ₚ nodes_of b.
Proof.
  intros Hnd. revert b. induction Hnd as [|[l j] ks Hk Hnd IH]; intros b Hb; simpl.
  - assert (nodes_of b = []) as ->; [|done]. apply elem_of_nil_inv. intros n.
    rewrite elem_of_nodes_of. intros (l & j & Hn).
    rewrite Hb in Hn by apply not_elem_of_nil. by apply not_elem_of_nil in Hn.
  - rewrite (nodes_of_split b l j). f_equiv. rewrite <- IH.
    + match goal with |- ?a ≡ₚ ?b => assert (a = b) as ->; [|done] end.
      f_equal. apply map_ext_in. intros [l' j'] Hin. simpl. unfold bucket.
      rewrite lookup_delete_ne; [done|]. intros Heq. apply Hk. rewrite Heq.
      by apply list_elem_of_In.
    + intros l' j' Hn. unfold bucket. rewrite lookup_delete.
      case_decide as Hd; [done|]. apply Hb. rewrite not_elem_of_cons. split; congruence.
Qed.

Lemma hold_of_nodes t w : winv (pend t) w -> hold_of (buckets_ w) ≡ₚ nodes w.
Proof.
  intros Hw. rewrite hold_of_eq. apply walk_keys_nodes.
  - apply NoDup_list_prod; apply NoDup_zseq.
  - intros l j Hk. destruct (bucket (buckets_ w) l j) as [|n xs] eqn:Hb; [done|].
    destruct Hk. apply elem_of_all_keys.
    destruct (wi_place _ w Hw l j n) as (? & ? & _); [rewrite Hb; by left|done].
Qed.

Lemma insert_many_spec Q now ns w :
  winv Q w -> now_tick_ w = now ->
  (forall l j e, pend (now + 1) l j e -> (l, j) <> (0, slot_of now 0) -> Q l j e) ->
  (forall n, n ∈ ns -> 0 <= expiry_tick n < now + 2 ^ 32) ->
  NoDup (node_id <$> ns ++ nodes w) -> Z.of_nat (length (ns ++ nodes w)) < 2 ^ 64 ->
  let w' := foldl (fun w n => insert n now w) w ns in
  winv Q w' /\ nodes w' ≡ₚ ns ++ nodes w /\ now_tick_ w' = now /\
  tick_ w' = tick_ w /\ primed_ w' = primed_ w /\
  max_ticks_per_call_ w' = max_ticks_per_call_ w.
Proof.
  revert w. induction ns as [|n ns IH]; intros w Hw Hnow HQ Hr Hnd Hlen; simpl.
  { split_and!; done. }
  simpl in Hnd, Hlen. apply NoDup_cons in Hnd as [Hn Hnd].
  rewrite fmap_app, elem_of_app in Hn.
  destruct (wi_count _ w Hw) as [Hc _].
  destruct (winv_insert Q n w) as (Hw1 & Hp1 & _); subst now; try done.
  { apply Hr. by left. }
  { tauto. }
  { rewrite Hc. rewrite length_app in Hlen. lia. }
  destruct (IH (insert n (now_tick_ w) w)) as (Hw2 & Hp2 & Hn2 & Ht2 & Hpr2 & Hm2); try done.
  { intros m Hm. apply Hr. by right. }
  { rewrite Hp1, <- Permutation_middle, fmap_cons. apply NoDup_cons. split; [|done].
    rewrite fmap_app, elem_of_app. tauto. }
  { rewrite Hp1, <- Permutation_middle. exact Hlen. }
  split_and!; try done. rewrite Hp2, Hp1. symmetry. apply Permutation_middle.
Qed.

Lemma insert_clamped n now w :
  0 <= now < 2 ^ 62 ->
  insert_node n (if now + 1 <? expiry_tick n then expiry_tick n else now + 1) now w =
  insert n now w.
Proof.
  intros Hn. unfold insert. wrap_simpl. f_equal.
  destruct (Z.ltb_spec (now + 1) (expiry_tick n)), (Z.ltb_spec now (expiry_tick n)); lia.
Qed.

Definition prime_now (target : Z) : Z := Z.max target 1 - 1.

Lemma prime_spec target w :
  wheel_ok w -> now_tick_ w = 0 -> 0 <= target < 2 ^ 62 ->
  let w' := prime target w in
  wheel_ok w' /\ nodes w' ≡ₚ nodes w /\ now_tick_ w' = prime_now target /\
  tick_ w' = tick_ w /\ primed_ w' = true /\
  max_ticks_per_call_ w' = max_ticks_per_call_ w.
Proof.
  intros Hw Hnow Ht w'. pose proof (hold_of_nodes _ w Hw) as Hhold.
  destruct (wi_count _ w Hw) as [Hc Hlt].
  set (w0 := mkWheel (tick_ w) (prime_now target) true 0 (max_ticks_per_call_ w) ∅).
  assert (Hw' : w' = foldl (fun w n => insert n (prime_now target) w) w0 (hold_of (buckets_ w))).
  { unfold w', prime, w0, prime_now. destruct (Z.eqb_spec target 0) as [->|Hne].
    - apply foldl_ext_eq. intros x n. by apply (insert_clamped n 0).
    - rewrite (u64_small (target - 1)), Z.max_l by lia.
      apply foldl_ext_eq. intros x n. rewrite <- insert_clamped by lia.
      by replace (target - 1 + 1) with target by lia. }
  destruct (insert_many_spec (pend (prime_now target + 1)) (prime_now target)
              (hold_of (buckets_ w)) w0) as (Hw2 & Hp2 & Hn2 & Ht2 & Hpr2 & Hm2); try done.
  - constructor; simpl.
    + unfold prime_now. lia.
    + intros l j n Hn. by apply not_elem_of_nil in Hn.
    + intros n Hn. by apply not_elem_of_nil in Hn.
    + apply NoDup_nil_2.
    + done.
  - intros n Hn. rewrite Hhold in Hn. pose proof (wi_range _ w Hw n Hn).
    rewrite Hnow in *. unfold prime_now. lia.
  - change (nodes w0) with (@nil WNode). rewrite app_nil_r, Hhold. apply (wi_nodup _ w Hw).
  - change (nodes w0) with (@nil WNode). rewrite app_nil_r, Hhold. lia.
  - rewrite <- Hw' in *. unfold wheel_ok. rewrite Hn2. split_and!; try done.
    rewrite Hp2, Hhold. change (nodes w0) with (@nil WNode). by rewrite app_nil_r.
Qed.

(** ** A whole [advance] *)

Definition start_tick (w : TimerWheel) (target : Z) : Z :=
  if primed_ w then now_tick_ w else prime_now target.

Definition primed_wheel (target : Z) (w : TimerWheel) : TimerWheel :=
  if primed_ w then w else prime target w.

Lemma primed_wheel_spec target w :
  wheel_ok w -> (primed_ w = false -> now_tick_ w = 0) -> 0 <= target < 2 ^ 62 ->
  let w' := primed_wheel target w in
  wheel_ok w' /\ nodes w' ≡ₚ nodes w /\ now_tick_ w' = start_tick w target /\
  tick_ w' = tick_ w /\ primed_ w' = true /\
  max_ticks_per_call_ w' = max_ticks_per_call_ w.
Proof.
  intros Hw Hp Ht. unfold primed_wheel, start_tick. destruct (primed_ w) eqn:Hpr.
  - split_and!; done.
  - apply prime_spec; auto.
Qed.

Lemma snap_ok target w :
  wheel_ok w -> count_ w = 0 -> target < 2 ^ 62 ->
  let w' := if now_tick_ w <? target then set_now target w else w in
  wheel_ok w' /\ nodes w' = [] /\ nodes w = [] /\ now_tick_ w' = Z.max (now_tick_ w) target.
Proof.
  intros Hw Hc Ht. destruct (wi_count _ w Hw) as [Hcn Hclt].
  pose proof (wi_now _ w Hw) as Hn.
  assert (Hnil : nodes w = []) by (apply nil_length_inv; lia).
  assert (Hempty : forall l j n, n ∈ bucket (buckets_ w) l j -> False).
  { intros l j n Hin. assert (Hn' : n ∈ nodes w) by (apply elem_of_nodes_of; eauto).
    rewrite Hnil in Hn'. by apply not_elem_of_nil in Hn'. }
  destruct (Z.ltb_spec (now_tick_ w) target); simpl; split_and!; try done; try lia.
  constructor; simpl; try lia.
  - intros l j n Hin. by destruct (Hempty l j n).
  - change (nodes (set_now target w)) with (nodes w). rewrite Hnil.
    intros n Hin. by apply not_elem_of_nil in Hin.
  - change (nodes (set_now target w)) with (nodes w). rewrite Hnil. apply NoDup_nil_2.
  - change (nodes (set_now target w)) with (nodes w). split; [exact Hcn|exact Hclt].
Qed.

Section AdvanceSpec.
Context {S : Type} `{HasWheel S} (fire : WNode -> S -> S) (P : S -> Prop).

Lemma advance_spec target s :
  placement_blind P ->
  (forall t, 0 < t < 2 ^ 62 -> fire_ok fire t (midw t) P) ->
  P s -> wheel_ok (wheel_of s) -> 0 <= target < 2 ^ 62 ->
  (primed_ (wheel_of s) = false -> now_tick_ (wheel_of s) = 0) ->
  let s' := advance fire target s in
  P s' /\ wheel_ok (wheel_of s') /\ primed_ (wheel_of s') = true /\
  now_tick_ (wheel_of s) <= now_tick_ (wheel_of s') /\
  (start_tick (wheel_of s) target <= target ->
   Z.min target (start_tick (wheel_of s) target + max_ticks_per_call_ (wheel_of s))
     <= now_tick_ (wheel_of s') <= target).
Proof.
  intros Hblind Hfire HP Hw Ht Hpr. unfold advance.
  destruct (primed_wheel_spec target (wheel_of s)) as (Hw1 & Hp1 & Hn1 & Ht1 & Hpr1 & Hm1); try done.
  unfold primed_wheel in *. set (w1 := if primed_ (wheel_of s) then _ else _) in *.
  assert (Hle : now_tick_ (wheel_of s) <= start_tick (wheel_of s) target).
  { unfold start_tick, prime_now. destruct (primed_ (wheel_of s)); [lia|].
    rewrite Hpr by done. lia. }
  destruct (Z.eqb_spec (count_ w1) 0) as [Hc|Hc].
  - destruct (snap_ok target w1 Hw1 Hc) as (Hw2 & Hnil2 & Hnil1 & Hn2); [lia|].
    rewrite wheel_of_set. split_and!; try done; try lia.
    + apply Hblind; [done| |].
      * rewrite Hnil2, <- Hp1, Hnil1. done.
      * by destruct (now_tick_ w1 <? target).
    + by destruct (now_tick_ w1 <? target).
  - destruct (advance_loop_spec fire P midw (Z.to_nat (max_ticks_per_call_ w1)) target
                (set_wheel w1 s)) as (HP2 & Hw2 & Hpr2 & Hm2 & Hn2); try done; try lia.
    + intros t e. unfold midw. by rewrite bool_decide_true.
    + intros t l j e. unfold mid, midw. case_bool_decide; [done|]. by intros [? _].
    + intros t l j e Hq Hne. unfold midw in Hq. by rewrite bool_decide_false in Hq.
    + by apply Hblind.
    + by rewrite wheel_of_set.
    + rewrite !wheel_of_set in *. split_and!; try done; try congruence; try lia.
Qed.

End AdvanceSpec.

(** ** What is fired, and when

    A caller that only logs each fired node with the tick at which it fired. *)

Definition Logged : Type := TimerWheel * list (Z * WNode).

#[global] Instance Logged_wheel : HasWheel Logged := {|
  wheel_of := fst;
  set_wheel w s := (w, snd s);
  wheel_of_set w s := eq_refl;
|}.

Definition log_fire (n : WNode) (s : Logged) : Logged :=
  (s.1, s.2 ++ [(now_tick_ s.1, n)]).

Definition due_by (t : Z) (ns : list WNode) : list WNode := filter (fun n => expiry_tick n <= t) ns.
Definition due_after (t : Z) (ns : list WNode) : list WNode := filter (fun n => t < expiry_tick n) ns.

Lemma filter_keep {A} (Q : A -> Prop) `{forall x, Decision (Q x)} (l : list A) :
  Forall Q l -> filter Q l = l.
Proof. induction 1 as [|x l Hx _ IH]; [done|]. rewrite filter_cons_True by done. by rewrite IH. Qed.

Lemma filter_drop {A} (Q : A -> Prop) `{forall x, Decision (Q x)} (l : list A) :
  Forall (fun x => ~ Q x) l -> filter Q l = [].
Proof. induction 1 as [|x l Hx _ IH]; [done|]. by rewrite filter_cons_False. Qed.

Lemma due_split t fired rest ns :
  fired ++ rest ≡ₚ ns -> Forall (fun n => expiry_tick n <= t) fired ->
  Forall (fun n => t < expiry_tick n) rest ->
  fired ≡ₚ due_by t ns /\ rest ≡ₚ due_after t ns.
Proof.
  intros Hp Hf Hr. unfold due_by, due_after.
  rewrite <- Hp, !filter_app. split.
  - rewrite filter_keep by done. rewrite (filter_drop _ rest); [by rewrite app_nil_r|].
    eapply Forall_impl; [exact Hr|]. simpl. intros; lia.
  - rewrite (filter_keep _ rest) by done. rewrite (filter_drop _ fired); [done|].
    eapply Forall_impl; [exact Hf|]. simpl. intros; lia.
Qed.

(** What the log holds while tick [t] is drained: the log before the tick,
    then the nodes fired so far, which with the queued ones make up [ns]. *)

Definition logging (t : Z) (log : list (Z * WNode)) (ns : list WNode) (s : Logged) : Prop :=
  exists fired, s.2 = log ++ ((fun n => (t, n)) <$> fired) /\ fired ++ nodes s.1 ≡ₚ ns /\
    Forall (fun n => expiry_tick n <= t) fired.

Lemma logging_fire t log ns : fire_ok log_fire t (mid t) (logging t log ns).
Proof.
  intros n xs [w lg] (fired & Hlg & Hp & Hf) Hw Hn Hb He. simpl in *.
  destruct (winv_take _ _ _ _ _ _ Hw Hb) as (Hw' & _ & _).
  destruct (nodes_take _ _ _ _ _ (wi_nodup _ w Hw) Hb) as [Hperm Hb'].
  split_and!; try done.
  - exists (fired ++ [n]). rewrite fmap_app, app_assoc, Hlg, <- Hn. split_and!; [done| |].
    + cbn. rewrite <- Hp, <- app_assoc, Hperm, Hn. done.
    + apply Forall_app_2; [|constructor; [|constructor]]; [rewrite Hn; done|lia].
  - apply Nat.eq_le_incl. exact (f_equal length Hb').
Qed.

Lemma logging_blind t log ns : placement_blind (logging t log ns).
Proof.
  intros [w lg] w' (fired & Hlg & Hp & Hf) Hpw _. exists fired. simpl in *.
  rewrite Hpw. done.
Qed.

Lemma log_step w log :
  let t := now_tick_ w + 1 in
  wheel_ok w -> t < 2 ^ 62 ->
  exists w' fired, step_tick log_fire (w, log) = (w', log ++ ((fun n => (t, n)) <$> fired)) /\
    wheel_ok w' /\ now_tick_ w' = t /\
    fired ≡ₚ due_by t (nodes w) /\ nodes w' ≡ₚ due_after t (nodes w).
Proof.
  intros t Hw Ht.
  destruct (step_tick_spec log_fire (logging t log (nodes w)) mid (w, log))
    as (HP & Hw' & Hn' & _ & _ & Hb); try done.
  - apply logging_blind.
  - apply logging_fire.
  - intros e. unfold mid. by rewrite bool_decide_true.
  - exists []. rewrite app_nil_r. done.
  - destruct (step_tick log_fire (w, log)) as [w' log']. simpl in *.
    destruct HP as (fired & Hlog & Hp & Hf). simpl in Hlog, Hp. subst log'. exists w', fired.
    assert (Hlater : Forall (fun n => t < expiry_tick n) (nodes w')).
    { apply Forall_forall. intros n Hin. apply elem_of_nodes_of in Hin as (l & j & Hin).
      pose proof (wi_place _ _ Hw' l j n Hin) as Hm. unfold mid in Hm.
      case_bool_decide as Hlj; [|by destruct Hm].
      injection Hlj as -> ->.
      destruct (not_elem_of_nil n). by apply (eq_ind _ (elem_of n) Hin). }
    destruct (due_split t fired (nodes w') (nodes w)) as [H1 H2]; try done.
    split_and!; try done. apply (drained_ok mid t); try done.
    intros l j e Hm Hne. unfold mid in Hm. rewrite bool_decide_false in Hm by done.
    by destruct Hm.
Qed.

Lemma due_by_after t t' ns :
  t <= t' -> due_by t ns ++ due_by t' (due_after t ns) ≡ₚ due_by t' ns.
Proof.
  intros Ht. unfold due_by, due_after. induction ns as [|n ns IH]; [done|].
  destruct (decide (expiry_tick n <= t)).
  - rewrite filter_cons_True by done. rewrite (filter_cons_False (fun n => t < _)) by lia.
    rewrite (filter_cons_True (fun n => expiry_tick n <= t')) by lia. simpl. by rewrite IH.
  - rewrite filter_cons_False by done. rewrite (filter_cons_True (fun n => t < _)) by lia.
    destruct (decide (expiry_tick n <= t')).
    + rewrite !(filter_cons_True (fun n => expiry_tick n <= t')) by done.
      by rewrite <- Permutation_middle, IH.
    + by rewrite !(filter_cons_False (fun n => expiry_tick n <= t')).
Qed.

Lemma due_after_after t t' ns : t <= t' -> due_after t' (due_after t ns) = due_after t' ns.
Proof.
  intros Ht. unfold due_after. induction ns as [|n ns IH]; [done|].
  destruct (decide (t < expiry_tick n)).
  - rewrite (filter_cons_True (fun n => t < _)) by done.
    destruct (decide (t' < expiry_tick n)).
    + rewrite !filter_cons_True by done. by rewrite IH.
    + by rewrite !filter_cons_False by done.
  - rewrite (filter_cons_False (fun n => t < _)) by done.
    rewrite (filter_cons_False (fun n => t' < _)) by lia. done.
Qed.

Lemma elem_of_due_by t n ns : n ∈ due_by t ns <-> expiry_tick n <= t /\ n ∈ ns.
Proof. unfold due_by. by rewrite list_elem_of_filter. Qed.

Lemma elem_of_due_after t n ns : n ∈ due_after t ns <-> t < expiry_tick n /\ n ∈ ns.
Proof. unfold due_after. by rewrite list_elem_of_filter. Qed.

#[global] Instance due_by_perm t : Proper (Permutation ==> Permutation) (due_by t).
Proof. intros ns ns' H. unfold due_by. by rewrite H. Qed.

#[global] Instance due_after_perm t : Proper (Permutation ==> Permutation) (due_after t).
Proof. intros ns ns' H. unfold due_after. by rewrite H. Qed.

Definition on_time (t : Z) (p : Z * WNode) : Prop := p.1 = Z.max (expiry_tick p.2) t.

Lemma log_loop k target w log :
  (0 < k)%nat -> wheel_ok w -> now_tick_ w < target < 2 ^ 62 ->
  exists w' fired, advance_loop log_fire k target (w, log) = (w', log ++ fired) /\
    wheel_ok w' /\ now_tick_ w' = Z.min target (now_tick_ w + Z.of_nat k) /\
    fired.*2 ≡ₚ due_by (now_tick_ w') (nodes w) /\
    nodes w' ≡ₚ due_after (now_tick_ w') (nodes w) /\
    Forall (on_time (now_tick_ w + 1)) fired.
Proof.
  revert w log. induction k as [|k IH]; intros w log Hk Hw Ht; [lia|].
  cbn [advance_loop wheel_of Logged_wheel fst].
  destruct (Z.ltb_spec (now_tick_ w) target); [|lia].
  destruct (log_step w log Hw) as (w1 & fired1 & -> & Hw1 & Hn1 & Hf1 & Hr1); [lia|].
  set (log1 := (fun n => (now_tick_ w + 1, n)) <$> fired1).
  assert (Hlog1 : log1.*2 = fired1).
  { unfold log1. rewrite <- list_fmap_compose. apply list_fmap_id. }
  assert (Hot1 : Forall (on_time (now_tick_ w + 1)) log1).
  { apply Forall_fmap, Forall_forall. intros n Hin. rewrite Hf1 in Hin.
    apply elem_of_due_by in Hin as [? _]. unfold on_time. simpl. lia. }
  destruct (decide (k = 0%nat \/ target = now_tick_ w1)) as [Hend|Hgo].
  - exists w1, log1. assert (Hstop : advance_loop log_fire k target (w1, log ++ log1) = (w1, log ++ log1)).
    { destruct k as [|k]; [done|]. cbn. destruct Hend as [|Hend]; [lia|].
      by rewrite Hend, Z.ltb_irrefl. }
    rewrite Hstop, Hlog1, Hn1. split_and!; try done; lia.
  - destruct (IH w1 (log ++ log1)) as (w2 & fired2 & -> & Hw2 & Hn2 & Hf2 & Hr2 & Hot2);
      [lia|done|lia|].
    exists w2, (log1 ++ fired2). rewrite <- app_assoc. split_and!; try done; try lia.
    + rewrite fmap_app, Hlog1, Hf1, Hf2, Hr1. apply due_by_after. lia.
    + rewrite Hr2, Hr1. by rewrite due_after_after by lia.
    + apply Forall_app_2; [done|]. apply Forall_forall. intros [τ n] Hin.
      assert (Hn : n ∈ fired2.*2) by (apply list_elem_of_fmap; by exists (τ, n)).
      rewrite Hf2, Hr1 in Hn. apply elem_of_due_by in Hn as [_ Hn].
      apply elem_of_due_after in Hn as [Hn _].
      rewrite Forall_forall in Hot2. specialize (Hot2 _ Hin). unfold on_time in *. simpl in *. lia.
Qed.

(** ** [next_due_tick] *)

Definition next_cand (now l j : Z) : Z :=
  let span := Z.shiftl 1 (8 * l) in
  let super := u64 (Z.shiftl span 8) in
  let cand := ((now / super) ⊠ super) ⊞ (j ⊠ span) in
  if cand <=? now then cand ⊞ super else cand.

Lemma next_cand_eq now l j :
  0 <= now < 2 ^ 62 -> 0 <= l < kLevels -> 0 <= j < kSlots ->
  exists S, S = 2 ^ (8 * l) /\ 1 <= S <= 2 ^ 24 /\
  let c := now / (256 * S) * (256 * S) + j * S in
  next_cand now l j = if c <=? now then c + 256 * S else c.
Proof.
  unfold kLevels, kSlots. intros Hn Hl Hj. exists (2 ^ (8 * l)). split; [done|].
  assert (HS : 1 <= 2 ^ (8 * l) <= 2 ^ 24).
  { split; [pose proof (Z.pow_pos_nonneg 2 (8 * l)); lia|apply Z.pow_le_mono_r; lia]. }
  split; [done|]. unfold next_cand. rewrite Z.shiftl_1_l, Z.shiftl_mul_pow2 by lia.
  change (2 ^ 8) with 256. set (S := 2 ^ (8 * l)) in *. rewrite (Z.mul_comm S 256).
  rewrite (u64_small (256 * S)) by lia.
  assert (Hq : 0 <= now / (256 * S) * (256 * S) <= now).
  { pose proof (Z.div_pos now (256 * S)). pose proof (Z.mul_div_le now (256 * S)). nia. }
  rewrite (u64_small (_ * (256 * S))) by lia. rewrite (u64_small (j * S)) by nia.
  rewrite u64_small by nia. case_test; [|done]. rewrite u64_small by nia. done.
Qed.

Lemma next_cand_bounds now l j :
  0 <= now < 2 ^ 62 -> 0 <= l < kLevels -> 0 <= j < kSlots ->
  now < next_cand now l j < u64_max.
Proof.
  intros Hn Hl Hj. destruct (next_cand_eq now l j) as (S & _ & HS & ->); try done.
  unfold kSlots, u64_max in *.
  pose proof (Z.div_mod now (256 * S)). pose proof (Z.mod_pos_bound now (256 * S)).
  case_test; nia.
Qed.

Lemma next_cand_le now l j e :
  0 <= now < 2 ^ 62 -> pend (now + 1) l j e -> next_cand now l j <= Z.max e (now + 1).
Proof.
  intros Hn (Hl & Hj & sv & Hsv & Hmax & _ & Hmod & Hdiv).
  destruct (next_cand_eq now l j) as (S & HSe & HS & ->); try done.
  rewrite pow_step in Hsv by lia. rewrite <- HSe in *. unfold kSlots in *.
  pose proof (Z.div_mod now (256 * S)). pose proof (Z.mod_pos_bound now (256 * S)).
  pose proof (Z.div_mod sv S). pose proof (Z.div_mod (sv / S) 256).
  set (q := now / (256 * S)) in *. set (r := sv / S / 256) in *.
  assert (Hsv' : sv = r * (256 * S) + j * S) by nia.
  assert (Hcase : r = q \/ r = q + 1) by nia.
  case_test; destruct Hcase as [-> | ->]; nia.
Qed.

Lemma next_due_bounds w n :
  wheel_ok w -> n ∈ nodes w ->
  now_tick_ w < next_due_tick w <= Z.max (expiry_tick n) (now_tick_ w + 1).
Proof.
  intros Hw Hin. pose proof (wi_now _ _ Hw) as Hn. destruct (wi_count _ _ Hw) as [Hc _].
  unfold next_due_tick. destruct (Z.eqb_spec (count_ w) 0) as [H0|_].
  { destruct (nodes w); [by apply not_elem_of_nil in Hin|simpl in *; lia]. }
  split.
  - apply foldl_keeps; [|unfold u64_max; lia]. intros b l Hl Hb.
    apply foldl_keeps; [|done]. intros b' j Hj Hb'. apply elem_of_zseq in Hl, Hj.
    fold (next_cand (now_tick_ w) l j).
    pose proof (next_cand_bounds (now_tick_ w) l j) as Hcb. unfold kLevels, kSlots in *.
    destruct (bucket _ _ _); [lia|]. case_test; lia.
  - apply elem_of_nodes_of in Hin as (l & j & Hin). pose proof (wi_place _ _ Hw _ _ _ Hin) as Hp.
    pose proof (next_cand_le _ _ _ _ Hn Hp) as Hle. destruct Hp as (Hl & Hj & _).
    apply (foldl_min_elem _ _ _ _ l).
    + intros b x. apply foldl_min_le. intros b' y. cbv beta. destruct (bucket (buckets_ w) _ y); [lia|].
      match goal with |- (if ?c then ?x else _) <= _ => destruct (Z.ltb_spec x b'); lia end.
    + apply elem_of_zseq. unfold kLevels in *. lia.
    + intros b. apply (foldl_min_elem _ _ _ _ j).
      * intros b' y. cbv beta. destruct (bucket (buckets_ w) _ y); [lia|].
        match goal with |- (if ?c then ?x else _) <= _ => destruct (Z.ltb_spec x b'); lia end.
      * apply elem_of_zseq. unfold kSlots in *. lia.
      * intros b'. fold (next_cand (now_tick_ w) l j).
        destruct (bucket _ _ _); [by apply not_elem_of_nil in Hin|]. case_test; lia.
Qed.

(** ** The wheel's own operations *)

Lemma wheel_make_ok tick : wheel_ok (make tick).
Proof.
  constructor; simpl; try lia; try done.
  - intros l j n Hin. unfold bucket in Hin. rewrite lookup_empty in Hin.
    by apply not_elem_of_nil in Hin.
  - intros n Hin. by apply not_elem_of_nil in Hin.
  - apply NoDup_nil_2.
Qed.

Lemma insert_ok n w :
  wheel_ok w -> 0 <= expiry_tick n < now_tick_ w + 2 ^ 32 ->
  node_id n ∉ node_id <$> nodes w -> count_ w + 1 < 2 ^ 64 ->
  wheel_ok (insert n (now_tick_ w) w) /\ nodes (insert n (now_tick_ w) w) ≡ₚ n :: nodes w.
Proof.
  intros Hw He Hid Hc. destruct (winv_insert _ n w Hw) as (Hw' & Hp & _); auto.
Qed.

Lemma unlink_ok id w :
  wheel_ok w ->
  wheel_ok (unlink id w) /\ nodes (unlink id w) = filter (fun n => node_id n <> id) (nodes w).
Proof.
  intros Hw. split; [|apply nodes_unlink].
  unfold wheel_ok. rewrite unlink_now. by apply winv_unlink.
Qed.

(** ** Properties *)

(** C11: what the wheel promises the event loop.  One call of [advance] on a
    well-formed wheel fires exactly the queued nodes whose expiry tick has been
    reached by the tick the call stops at, each exactly once, at its own expiry
    tick, or at the first tick after the call's start when it was already
    overdue; every other node stays queued.  The call stops at the target, or
    [max_ticks_per_call_] ticks on when the wheel lags behind by more. *)
Theorem advance_fires_exactly_the_due w log target :
  wheel_ok w -> (primed_ w = false -> now_tick_ w = 0) ->
  0 <= target < 2 ^ 62 -> start_tick w target < target -> 0 < max_ticks_per_call_ w ->
  exists w' fired,
    advance log_fire target (w, log) = (w', log ++ fired) /\ wheel_ok w' /\
    Z.min target (start_tick w target + max_ticks_per_call_ w) <= now_tick_ w' <= target /\
    fired.*2 ≡ₚ due_by (now_tick_ w') (nodes w) /\
    nodes w' ≡ₚ due_after (now_tick_ w') (nodes w) /\
    Forall (on_time (start_tick w target + 1)) fired.
Proof.
  intros Hw Hpr Ht Hs Hmax. unfold advance. cbn [wheel_of Logged_wheel fst].
  destruct (primed_wheel_spec target w) as (Hw1 & Hp1 & Hn1 & _ & _ & Hm1); try done.
  unfold primed_wheel in *. set (w1 := if primed_ w then w else prime target w) in *.
  destruct (Z.eqb_spec (count_ w1) 0) as [Hc|Hc].
  - destruct (snap_ok target w1 Hw1 Hc) as (Hw2 & Hnil2 & Hnil1 & Hn2); [lia|].
    assert (Hnil : nodes w = []) by (apply Permutation_nil_r; by rewrite <- Hp1, Hnil1).
    eexists _, []. rewrite app_nil_r. split; [done|]. split; [exact Hw2|]. rewrite Hnil, Hnil2, Hn2, Hn1.
    split_and!; try done; try lia; constructor.
  - destruct (log_loop (Z.to_nat (max_ticks_per_call_ w1)) target w1 log)
      as (w2 & fired & Heq & Hw2 & Hn2 & Hf & Hr & Hot); try done; try lia.
    exists w2, fired. split; [done|]. rewrite Hn2, <- Hn1, <- Hm1 in *.
    rewrite Hp1 in Hf, Hr. split_and!; try done; lia.
Qed.

Definition demo_node (i : nat) (e : Z) : WNode := mkWNode (Handles.mkHandle i 1) e.

Definition demo_wheel : TimerWheel :=
  insert (demo_node 2 70000) 0 (insert (demo_node 1 300) 0
    (insert (demo_node 0 5) 0 (prime 1 (make 1000)))).

Lemma demo_wheel_ok : wheel_ok demo_wheel.
Proof.
  unfold demo_wheel.
  repeat (apply insert_ok; [|done|apply (bool_decide_unpack _); vm_compute; exact I|done]).
  apply prime_spec; [apply wheel_make_ok|done|lia].
Qed.

Lemma advance_fires_exactly_the_due_witness :
  exists w' fired,
    advance log_fire 300 (demo_wheel, []) = (w', fired) /\ wheel_ok w' /\
    fired = [(5, demo_node 0 5); (300, demo_node 1 300)].
Proof.
  destruct (advance_fires_exactly_the_due demo_wheel [] 300) as (w' & fired & H1 & H2 & _).
  - apply demo_wheel_ok.
  - intros _. reflexivity.
  - lia.
  - vm_compute. reflexivity.
  - vm_compute. reflexivity.
  - exists w', fired. split; [exact H1|]. split; [exact H2|].
    apply (f_equal snd) in H1. revert H1. vm_compute. intros <-. reflexivity.
Defined.

(** the wheel's representation.  Every queued node is linked in a bucket
    inside the 4 x 256 array, in the one slot that is serviced no later than its
    expiry, node identities are unique and the counter counts them.  Creation,
    insertion of a node up to 2^32 ticks ahead and unlinking keep this, and
    change the queued nodes by exactly the node inserted or removed. *)
Theorem wheel_operations_keep_shape n id w :
  wheel_ok w -> 0 <= expiry_tick n < now_tick_ w + 2 ^ 32 ->
  node_id n ∉ node_id <$> nodes w -> count_ w + 1 < 2 ^ 64 ->
  wheel_ok (make (tick_ w)) /\
  wheel_ok (insert n (now_tick_ w) w) /\ nodes (insert n (now_tick_ w) w) ≡ₚ n :: nodes w /\
  wheel_ok (unlink id w) /\ nodes (unlink id w) = filter (fun n => node_id n <> id) (nodes w).
Proof.
  intros Hw He Hid Hc. destruct (insert_ok n w) as [? ?]; try done.
  destruct (unlink_ok id w) as [? ?]; try done.
  split_and!; try done. apply wheel_make_ok.
Qed.

Lemma wheel_operations_keep_shape_witness :
  wheel_ok (insert (demo_node 7 1000) 0 demo_wheel) /\ wheel_ok (unlink (Handles.mkHandle 1 1) demo_wheel).
Proof.
  destruct (wheel_operations_keep_shape (demo_node 7 1000) (Handles.mkHandle 1 1) demo_wheel) as (_ & H1 & _ & H2 & _).
  - apply demo_wheel_ok.
  - split; vm_compute; [discriminate|reflexivity].
  - apply (bool_decide_unpack _). vm_compute. exact I.
  - vm_compute. reflexivity.
  - split; [exact H1|exact H2].
Defined.

(** the tick the virtual-time scheduler may jump to.  On a non-empty wheel
    [next_due_tick] is after the current tick and is not later than the tick at
    which any queued node is due, so a jump to it skips no timer. *)
Theorem next_due_tick_skips_nothing w n :
  wheel_ok w -> n ∈ nodes w ->
  now_tick_ w < next_due_tick w <= Z.max (expiry_tick n) (now_tick_ w + 1).
Proof. apply next_due_bounds. Qed.

Lemma next_due_tick_skips_nothing_witness :
  now_tick_ demo_wheel < next_due_tick demo_wheel <= Z.max 5 1.
Proof.
  apply (next_due_tick_skips_nothing demo_wheel (demo_node 0 5)).
  - apply demo_wheel_ok.
  - apply (bool_decide_unpack _). vm_compute. exact I.
Defined.

End Wheel.
