(* ===== verification/TimerHeap.v ===== *)
(** * The precise-timer heap

    [TimerHeap] of [src/include/afx/core/timer_wheel.hpp]: the four-ary
    min-heap that holds precise and far deadlines.  The vector of node pointers
    is a list, and a node's [in_heap] flag and [heap_idx] field together are an
    entry of a finite map from node identities to positions.  The section on
    [expire] is generic in the state a fire callback may change. *)

From stdpp Require Import base option gmap list.
From Stdlib Require Import ZArith Lia Sorted.
From S2P Require Import Prelude HandleTable.
Local Open Scope Z_scope.

Module Heap.

(** ** Data and operations *)

Record HNode := mkHNode { hid : Handles.Handle; expiry : Z }.

#[global] Instance HNode_eq_dec : EqDecision HNode.
Proof. solve_decision. Defined.

Record TimerHeap := mkHeap {
  heap_ : list HNode;
  heap_idx_ : gmap Handles.Handle nat;
}.

Definition empty_heap : TimerHeap := mkHeap [] ∅.

Definition before (a b : HNode) : bool := expiry a <? expiry b.

(** [std::swap(heap_[i], heap_[j])] and the two [heap_idx] stores after it. *)
Definition swap (i j : nat) (h : TimerHeap) : TimerHeap :=
  match heap_ h !! i, heap_ h !! j with
  | Some x, Some y =>
      mkHeap (<[i := y]> (<[j := x]> (heap_ h)))
             (<[hid x := j]> (<[hid y := i]> (heap_idx_ h)))
  | _, _ => h
  end.

Definition before_at (i j : nat) (h : TimerHeap) : bool :=
  match heap_ h !! i, heap_ h !! j with
  | Some x, Some y => before x y
  | _, _ => false
  end.

Fixpoint sift_up_loop (fuel i : nat) (h : TimerHeap) : TimerHeap :=
  match fuel with
  | O => h
  | S f =>
      if (0 <? i)%nat then
        let p := ((i - 1) / 4)%nat in
        if before_at i p h then sift_up_loop f p (swap i p h) else h
      else h
  end.

Definition sift_up (i : nat) (h : TimerHeap) : TimerHeap := sift_up_loop (S i) i h.

Definition best_child (i : nat) (h : TimerHeap) : nat :=
  foldl (fun best c =>
    if (c <? length (heap_ h))%nat && before_at c best h then c else best)
    i (seq (4 * i + 1) 4).

Fixpoint sift_down_loop (fuel i : nat) (h : TimerHeap) : TimerHeap :=
  match fuel with
  | O => h
  | S f =>
      let best := best_child i h in
      if (best =? i)%nat then h else sift_down_loop f best (swap i best h)
  end.

Definition sift_down (i : nat) (h : TimerHeap) : TimerHeap :=
  sift_down_loop (S (length (heap_ h))) i h.

Definition push (n : HNode) (h : TimerHeap) : TimerHeap :=
  let i := length (heap_ h) in
  sift_up i (mkHeap (heap_ h ++ [n]) (<[hid n := i]> (heap_idx_ h))).

Definition in_heap (id : Handles.Handle) (h : TimerHeap) : bool :=
  bool_decide (is_Some (heap_idx_ h !! id)).

Definition remove (id : Handles.Handle) (h : TimerHeap) : TimerHeap :=
  match heap_idx_ h !! id, last (heap_ h) with
  | Some i, Some l =>
      let h' := mkHeap (removelast (heap_ h)) (delete id (heap_idx_ h)) in
      if (i <? length (heap_ h'))%nat
      then sift_down i (sift_up i (mkHeap (<[i := l]> (heap_ h')) (<[hid l := i]> (heap_idx_ h'))))
      else h'
  | _, _ => h
  end.

Definition top (h : TimerHeap) : option HNode := heap_ h !! 0%nat.
Definition is_empty (h : TimerHeap) : bool := bool_decide (heap_ h = []).
Definition size (h : TimerHeap) : nat := length (heap_ h).

(** The state an expiry callback works on holds the heap. *)
Class HasHeap (S : Type) := {
  heap_of : S -> TimerHeap;
  set_heap : TimerHeap -> S -> S;
  heap_of_set : forall h s, heap_of (set_heap h s) = h;
}.

Section Expire.
Context {S : Type} `{HasHeap S} (fire : HNode -> S -> S).

(** [expire]; [fuel] bounds the number of callbacks.  The loop of the source
    ends when no due node is left. *)
Fixpoint expire (fuel : nat) (now : Z) (s : S) : S :=
  match fuel with
  | O => s
  | Datatypes.S f =>
      match top (heap_of s) with
      | Some n =>
          if expiry n <=? now
          then expire f now (fire n (set_heap (remove (hid n) (heap_of s)) s))
          else s
      | None => s
      end
  end.

Lemma expire_invariant (R : S -> S -> Prop) `{!PreOrder R} fuel now s :
  (forall h s, R s (set_heap h s)) -> (forall n s, R s (fire n s)) -> R s (expire fuel now s).
Proof.
  intros Hh Hf. revert s. induction fuel as [|f IH]; intros s; simpl; [done|].
  destruct (top _) as [n|]; [|done]. destruct (_ <=? _); [|done].
  etrans; [apply Hh|]. etrans; [apply Hf|apply IH].
Qed.

End Expire.

(** ** Swaps *)

Definition key (h : TimerHeap) (i : nat) : Z := default 0 (expiry <$> heap_ h !! i).

(** Positions and [heap_idx] agree in both directions. *)
Record idx_ok (h : TimerHeap) : Prop := {
  ix_pos : forall i n, heap_ h !! i = Some n -> heap_idx_ h !! hid n = Some i;
  ix_node : forall id i, heap_idx_ h !! id = Some i -> exists n, heap_ h !! i = Some n /\ hid n = id;
}.

Definition transpose (i j m : nat) : nat :=
  if decide (m = i) then j else if decide (m = j) then i else m.

#[global] Instance transpose_inj i j : Inj (=) (=) (transpose i j).
Proof. intros a b. unfold transpose. repeat case_decide; lia. Qed.

Section Swap.
Context (i j : nat) (h : TimerHeap).
Hypothesis Hi : (i < length (heap_ h))%nat.
Hypothesis Hj : (j < length (heap_ h))%nat.

Lemma before_at_key : before_at i j h = (key h i <? key h j).
Proof using Hi Hj.
  unfold before_at, key. apply lookup_lt_is_Some in Hi as [x ->], Hj as [y ->]. done.
Qed.

Lemma swap_length : length (heap_ (swap i j h)) = length (heap_ h).
Proof using.
  unfold swap. destruct (heap_ h !! i), (heap_ h !! j); simpl; try done.
  by rewrite !length_insert.
Qed.

Lemma swap_lookup m : i <> j -> heap_ (swap i j h) !! m = heap_ h !! transpose i j m.
Proof using Hi Hj.
  intros Hij. unfold swap, transpose.
  destruct (lookup_lt_is_Some_2 _ _ Hi) as [x Hx], (lookup_lt_is_Some_2 _ _ Hj) as [y Hy].
  rewrite Hx, Hy. simpl. case_decide as H1; [|case_decide as H2]; subst.
  - rewrite list_lookup_insert_eq; [done|]. by rewrite length_insert.
  - rewrite list_lookup_insert_ne by done. by rewrite list_lookup_insert_eq.
  - by rewrite !list_lookup_insert_ne by done.
Qed.

Lemma swap_key m : i <> j -> key (swap i j h) m = key h (transpose i j m).
Proof using Hi Hj. intros. unfold key. by rewrite swap_lookup. Qed.

Lemma swap_perm : i <> j -> heap_ (swap i j h) ≡ₚ heap_ h.
Proof using Hi Hj.
  intros Hij. apply Permutation_inj. split; [apply swap_length|].
  exists (transpose i j). split; [apply _|]. intros m. by apply swap_lookup.
Qed.

Lemma swap_idx : i <> j -> idx_ok h -> idx_ok (swap i j h).
Proof using Hi Hj.
  intros Hij [Hpos Hnode].
  destruct (lookup_lt_is_Some_2 _ _ Hi) as [x Hx], (lookup_lt_is_Some_2 _ _ Hj) as [y Hy].
  assert (Hxy : hid x <> hid y).
  { intros Heq. apply Hpos in Hx, Hy. rewrite Heq in Hx. congruence. }
  assert (Hidx : heap_idx_ (swap i j h) = <[hid x := j]> (<[hid y := i]> (heap_idx_ h))).
  { unfold swap. by rewrite Hx, Hy. }
  split.
  - intros m n Hm. rewrite swap_lookup in Hm by done. rewrite Hidx.
    pose proof (Hpos _ _ Hm) as Hn. revert Hm Hn. unfold transpose.
    case_decide as H1; [|case_decide as H2]; subst; intros Hm Hn.
    + assert (n = y) as -> by congruence. rewrite lookup_insert_ne by done.
      by rewrite lookup_insert_eq.
    + assert (n = x) as -> by congruence. by rewrite lookup_insert_eq.
    + rewrite !lookup_insert_ne; [done| |]; intros Heq; rewrite <- Heq in Hn;
        apply Hpos in Hx, Hy; congruence.
  - intros id m. rewrite Hidx. rewrite !lookup_insert_Some.
    intros [[<- <-]|[Hne [[<- <-]|[Hne' Hm]]]].
    + exists x. rewrite swap_lookup by done. unfold transpose.
      rewrite decide_False by done. by rewrite decide_True.
    + exists y. rewrite swap_lookup by done. unfold transpose. by rewrite decide_True.
    + destruct (Hnode _ _ Hm) as (n & Hn & <-). exists n. split; [|done].
      rewrite swap_lookup by done. unfold transpose.
      rewrite !decide_False; [done|congruence|congruence].
Qed.

End Swap.

(** ** Heap order *)

Definition par (j : nat) : nat := ((j - 1) / 4)%nat.

Lemma par_iff i c : (0 < c)%nat -> par c = i <-> (4 * i + 1 <= c <= 4 * i + 4)%nat.
Proof.
  intros Hc. unfold par. pose proof (Nat.div_mod (c - 1) 4). pose proof (Nat.mod_upper_bound (c - 1) 4).
  lia.
Qed.

Lemma par_lt j : (0 < j)%nat -> (par j < j)%nat.
Proof. intros Hj. pose proof (proj1 (par_iff (par j) j Hj) eq_refl). lia. Qed.

Definition edge (h : TimerHeap) (j : nat) : Prop := key h (par j) <= key h j.

Definition ordered (h : TimerHeap) : Prop :=
  forall j, (0 < j < length (heap_ h))%nat -> edge h j.

(** The children of [i] are not before the parent of [i]. *)
Definition bridged (h : TimerHeap) (i : nat) : Prop :=
  forall c, (0 < i)%nat -> (0 < c < length (heap_ h))%nat -> par c = i -> key h (par i) <= key h c.

(** Ordered but for the edges into [i], out of [i], or both. *)
Definition except_up (h : TimerHeap) (i : nat) : Prop :=
  bridged h i /\ forall j, (0 < j < length (heap_ h))%nat -> j <> i -> edge h j.
Definition except_down (h : TimerHeap) (i : nat) : Prop :=
  bridged h i /\ forall j, (0 < j < length (heap_ h))%nat -> par j <> i -> edge h j.
Definition except_both (h : TimerHeap) (i : nat) : Prop :=
  bridged h i /\ forall j, (0 < j < length (heap_ h))%nat -> j <> i -> par j <> i -> edge h j.

(** What every heap operation keeps: the nodes and the index. *)
Definition same_nodes (h h' : TimerHeap) : Prop :=
  heap_ h' ≡ₚ heap_ h /\ (idx_ok h -> idx_ok h').

Lemma same_nodes_refl h : same_nodes h h.
Proof. done. Qed.

Lemma same_nodes_trans h1 h2 h3 : same_nodes h1 h2 -> same_nodes h2 h3 -> same_nodes h1 h3.
Proof. intros [H1 H2] [H3 H4]. split; [by rewrite H3|auto]. Qed.

Lemma same_nodes_swap i j h :
  (i < length (heap_ h))%nat -> (j < length (heap_ h))%nat -> i <> j -> same_nodes h (swap i j h).
Proof. intros. split; [by apply swap_perm|by apply swap_idx]. Qed.

Lemma except_up_ordered h i :
  (0 < i -> edge h i)%nat -> except_up h i -> ordered h.
Proof. intros He [_ Ho] j Hj. destruct (decide (j = i)) as [->|]; [apply He; lia|by apply Ho]. Qed.

Ltac swap_keys :=
  repeat match goal with
  | H : context [key (swap _ _ _) _] |- _ => rewrite swap_key in H by lia
  | |- context [key (swap _ _ _) _] => rewrite swap_key by lia
  end; unfold transpose; repeat case_decide; subst.

Lemma swap_parent_up h i :
  (0 < i < length (heap_ h))%nat -> except_both h i -> key h i < key h (par i) ->
  except_up (swap i (par i) h) (par i).
Proof.
  intros Hi [Hb Ho] Hlt. pose proof (par_lt i) as Hp.
  split.
  - intros c Hp0 Hc Hpc. rewrite swap_length in Hc. pose proof (par_lt (par i) Hp0).
    assert (Hpp : edge h (par i)) by (apply Ho; lia). unfold edge in Hpp.
    swap_keys; try lia. assert (He : edge h c) by (apply Ho; lia).
    unfold edge in He. rewrite Hpc in He. lia.
  - intros j Hj Hne. rewrite swap_length in Hj. unfold edge.
    destruct (decide (j = i)) as [->|Hji]; [swap_keys; lia|].
    pose proof (par_lt j). destruct (decide (par j = i)) as [Hpj|Hpj].
    + specialize (Hb j). rewrite Hpj in *. swap_keys; try lia.
    + assert (He : edge h j) by (apply Ho; lia). unfold edge in He.
      swap_keys; try lia. rewrite H1 in He. lia.
Qed.

Lemma except_up_both h i : except_up h i -> except_both h i.
Proof. intros [Hb Ho]. split; auto. Qed.

Lemma sift_up_loop_ordered fuel i h :
  (i < fuel)%nat -> (i < length (heap_ h))%nat -> except_up h i ->
  ordered (sift_up_loop fuel i h) /\ same_nodes h (sift_up_loop fuel i h).
Proof.
  revert i h. induction fuel as [|f IH]; intros i h Hf Hi He; [lia|]. cbn [sift_up_loop].
  fold (par i). destruct (Nat.ltb_spec 0 i) as [Hpos|Hz].
  2:{ split; [|apply same_nodes_refl]. apply (except_up_ordered h i); [lia|done]. }
  pose proof (par_lt i Hpos). rewrite before_at_key by lia.
  destruct (Z.ltb_spec (key h i) (key h (par i))) as [Hlt|Hge].
  - destruct (IH (par i) (swap i (par i) h)) as [Hord Hsn]; [lia|rewrite swap_length; lia| |].
    { apply swap_parent_up; [lia|by apply except_up_both|done]. }
    split; [done|]. eapply same_nodes_trans; [|exact Hsn]. apply same_nodes_swap; lia.
  - split; [|apply same_nodes_refl]. apply (except_up_ordered h i); [done|done].
Qed.

Lemma sift_up_ordered i h :
  (i < length (heap_ h))%nat -> except_up h i ->
  ordered (sift_up i h) /\ same_nodes h (sift_up i h).
Proof. intros. apply sift_up_loop_ordered; [lia|done|done]. Qed.

Lemma ordered_except_down h i : ordered h -> except_down h i.
Proof.
  intros Ho. split; [|auto]. intros c Hi Hc Hpc. pose proof (par_lt c).
  specialize (Ho c Hc) as Hc'. specialize (Ho i) as Hi'. unfold edge in *. rewrite Hpc in *. lia.
Qed.

Lemma sift_up_both i h :
  (i < length (heap_ h))%nat -> except_both h i ->
  except_down (sift_up i h) i /\ same_nodes h (sift_up i h).
Proof.
  intros Hi Hb. unfold sift_up. cbn [sift_up_loop]. fold (par i).
  destruct (Nat.ltb_spec 0 i) as [Hpos|Hz].
  2:{ split; [|apply same_nodes_refl]. destruct Hb as [Hb Ho]. split; [done|].
      intros j Hj Hpj. destruct (decide (j = i)) as [->|]; [lia|auto]. }
  pose proof (par_lt i Hpos). rewrite before_at_key by lia.
  destruct (Z.ltb_spec (key h i) (key h (par i))) as [Hlt|Hge].
  - destruct (sift_up_loop_ordered i (par i) (swap i (par i) h)) as [Hord Hsn];
      [lia|rewrite swap_length; lia|by apply swap_parent_up|].
    split; [by apply ordered_except_down|].
    eapply same_nodes_trans; [|exact Hsn]. apply same_nodes_swap; lia.
  - split; [|apply same_nodes_refl]. destruct Hb as [Hb Ho]. split; [done|].
    intros j Hj Hpj. destruct (decide (j = i)) as [->|]; [done|auto].
Qed.

Lemma best_fold h cs b :
  (b < length (heap_ h))%nat ->
  let r := foldl (fun best c =>
    if (c <? length (heap_ h))%nat && before_at c best h then c else best) b cs in
  (r = b \/ r ∈ cs) /\ (r < length (heap_ h))%nat /\ key h r <= key h b /\
  forall c, c ∈ cs -> (c < length (heap_ h))%nat -> key h r <= key h c.
Proof.
  revert b. induction cs as [|c cs IH]; intros b Hb; simpl.
  { split_and!; [by left|done|lia|]. intros c Hc. by apply not_elem_of_nil in Hc. }
  set (b' := if (c <? length (heap_ h))%nat && before_at c b h then c else b).
  assert (Hb' : (b' < length (heap_ h))%nat /\ (b' = b \/ b' = c) /\ key h b' <= key h b /\
                ((c < length (heap_ h))%nat -> key h b' <= key h c)).
  { unfold b'. destruct (Nat.ltb_spec c (length (heap_ h))); simpl; [|split_and!; auto; lia].
    rewrite before_at_key by done. destruct (Z.ltb_spec (key h c) (key h b)); split_and!; auto; lia. }
  destruct Hb' as (Hlt & Hor & Hle & Hlc).
  destruct (IH b' Hlt) as (Hr1 & Hr2 & Hr3 & Hr4). set (r := foldl _ b' cs) in *.
  split_and!; [|done|lia|].
  - destruct Hr1 as [->|]; [|right; by right]. destruct Hor as [->| ->]; [by left|right; by left].
  - intros d Hd Hdl. apply elem_of_cons in Hd as [->|Hd]; [|by apply Hr4]. specialize (Hlc Hdl). lia.
Qed.

Lemma best_child_spec i h :
  (i < length (heap_ h))%nat ->
  let b := best_child i h in
  (b = i \/ (0 < b)%nat /\ par b = i) /\ (b < length (heap_ h))%nat /\ key h b <= key h i /\
  forall c, (0 < c < length (heap_ h))%nat -> par c = i -> key h b <= key h c.
Proof.
  intros Hi. destruct (best_fold h (seq (4 * i + 1) 4) i Hi) as (H1 & H2 & H3 & H4).
  unfold best_child. split_and!; try done.
  - destruct H1 as [->|H1]; [by left|right]. apply elem_of_seq in H1.
    split; [lia|]. apply par_iff; lia.
  - intros c Hc Hpc. apply H4; [|lia]. apply elem_of_seq. apply par_iff in Hpc; lia.
Qed.

Lemma swap_child_down h i :
  let b := best_child i h in
  (i < length (heap_ h))%nat -> except_down h i -> b <> i ->
  except_down (swap i b h) b.
Proof.
  intros b Hi [Hb Ho] Hne. destruct (best_child_spec i h Hi) as (H1 & H2 & H3 & H4). fold b in H1, H2, H3, H4.
  clearbody b.
  destruct H1 as [|[Hb0 Hpb]]; [done|]. pose proof (par_lt b Hb0) as Hlt. rewrite Hpb in Hlt.
  split.
  - intros c _ Hc Hpc. rewrite swap_length in Hc. pose proof (par_lt c).
    assert (He : edge h c) by (apply Ho; lia). unfold edge in He. rewrite Hpc in He. rewrite Hpb.
    swap_keys; lia.
  - intros j Hj Hpj. rewrite swap_length in Hj. unfold edge. pose proof (par_lt j).
    destruct (decide (par j = i)) as [Hji|Hji].
    + rewrite Hji. specialize (H4 j). swap_keys; lia.
    + assert (He : edge h j) by (apply Ho; lia). unfold edge in He. specialize (Hb b).
      destruct (decide (j = i)) as [->|]; swap_keys; try lia.
Qed.

Lemma sift_down_loop_ordered fuel i h :
  (length (heap_ h) <= i + fuel)%nat -> (i < length (heap_ h))%nat -> except_down h i ->
  ordered (sift_down_loop fuel i h) /\ same_nodes h (sift_down_loop fuel i h).
Proof.
  revert i h. induction fuel as [|f IH]; intros i h Hf Hi He; [lia|]. cbn [sift_down_loop].
  destruct (best_child_spec i h Hi) as (H1 & H2 & H3 & H4).
  destruct (Nat.eqb_spec (best_child i h) i) as [Heq|Hne].
  - split; [|apply same_nodes_refl]. destruct He as [_ Ho]. intros j Hj.
    destruct (decide (par j = i)) as [Hp|Hp]; [|auto]. specialize (H4 j Hj Hp).
    rewrite Heq in H4. unfold edge. by rewrite Hp.
  - destruct H1 as [|[Hb0 Hpb]]; [done|]. pose proof (par_lt _ Hb0) as Hlt. rewrite Hpb in Hlt.
    destruct (IH (best_child i h) (swap i (best_child i h) h)) as [Hord Hsn];
      [rewrite swap_length; lia|rewrite swap_length; lia|by apply swap_child_down|].
    split; [done|]. eapply same_nodes_trans; [|exact Hsn]. apply same_nodes_swap; lia.
Qed.

Lemma sift_down_ordered i h :
  (i < length (heap_ h))%nat -> except_down h i ->
  ordered (sift_down i h) /\ same_nodes h (sift_down i h).
Proof. intros. apply sift_down_loop_ordered; [lia|done|done]. Qed.

(** ** The operations *)

Definition heap_ok (h : TimerHeap) : Prop := ordered h /\ idx_ok h.

Lemma empty_heap_ok : heap_ok empty_heap.
Proof.
  split; [|split].
  - intros j Hj. simpl in Hj. lia.
  - intros i n Hn. done.
  - intros id i Hi. simpl in Hi. by rewrite lookup_empty in Hi.
Qed.

Lemma ordered_transfer h h' (Q : nat -> Prop) :
  (forall j, (0 < j < length (heap_ h'))%nat -> Q j ->
     (j < length (heap_ h))%nat /\ key h' j = key h j /\ key h' (par j) = key h (par j)) ->
  ordered h -> forall j, (0 < j < length (heap_ h'))%nat -> Q j -> edge h' j.
Proof.
  intros Hk Ho j Hj Hq. destruct (Hk j Hj Hq) as (Hl & H1 & H2). unfold edge. rewrite H1, H2.
  apply Ho. lia.
Qed.

Lemma push_ok n h :
  heap_ok h -> heap_idx_ h !! hid n = None ->
  heap_ok (push n h) /\ heap_ (push n h) ≡ₚ n :: heap_ h.
Proof.
  intros [Ho [Hpos Hnode]] Hn. unfold push. set (i := length (heap_ h)).
  set (h1 := mkHeap _ _). assert (Hl1 : length (heap_ h1) = S i) by (simpl; rewrite length_app; simpl; lia).
  destruct (sift_up_ordered i h1) as [Hord [Hperm Hidx]]; [lia| |].
  - split.
    + intros c Hi Hc Hpc. apply par_iff in Hpc; lia.
    + apply (ordered_transfer h); [|done]. intros j Hj Hji. pose proof (par_lt j). unfold key. simpl.
      rewrite !lookup_app_l by (fold i; lia). split_and!; [fold i; lia|done|done].
  - split; [split; [done|apply Hidx; split]|].
    + intros j m Hm. simpl in *. apply lookup_app_Some in Hm as [Hm|[Hlen Hm]].
      * rewrite lookup_insert_ne; [by apply Hpos|]. intros Heq. apply Hpos in Hm. congruence.
      * apply list_lookup_singleton_Some in Hm as [Hj <-]. rewrite lookup_insert_eq. f_equal. unfold i in *. lia.
    + intros id j. simpl. rewrite lookup_insert_Some. intros [[<- <-]|[Hne Hj]].
      * exists n. split; [|done]. rewrite lookup_app_r by done. by rewrite Nat.sub_diag.
      * destruct (Hnode _ _ Hj) as (m & Hm & <-). exists m. split; [|done].
        by apply lookup_app_l_Some.
    + rewrite Hperm. simpl. by rewrite Permutation_app_comm.
Qed.

Lemma top_min n m h : heap_ok h -> top h = Some n -> m ∈ heap_ h -> expiry n <= expiry m.
Proof.
  intros [Ho _] Hn Hm. apply list_elem_of_lookup in Hm as [i Hi].
  assert (Hk : key h 0 <= key h i).
  { apply lookup_lt_Some in Hi as Hl. clear Hi. induction i as [i IH] using lt_wf_ind.
    destruct (decide (i = 0%nat)) as [->|]; [lia|].
    pose proof (par_lt i). specialize (IH (par i)). specialize (Ho i). unfold edge in Ho. lia. }
  unfold key, top in *. rewrite Hn, Hi in Hk. done.
Qed.

Lemma removal_idx h l' last i id n :
  idx_ok h -> heap_ h = l' ++ [last] -> l' !! i = Some n -> hid n = id ->
  idx_ok (mkHeap (<[i := last]> l') (<[hid last := i]> (delete id (heap_idx_ h)))).
Proof.
  intros [Hpos Hnode] Hh Hi Hid. rewrite Hh in *.
  assert (Hil : (i < length l')%nat) by (by eapply lookup_lt_Some).
  assert (Hlast : heap_idx_ h !! hid last = Some (length l')).
  { apply Hpos. rewrite lookup_app_r by done. by rewrite Nat.sub_diag. }
  assert (Hn : heap_idx_ h !! id = Some i).
  { rewrite <- Hid. apply Hpos. by apply lookup_app_l_Some. }
  split; simpl.
  - intros j m Hm. apply list_lookup_insert_Some in Hm as [(-> & -> & _)|[Hne Hm]].
    { by rewrite lookup_insert_eq. }
    assert (Hm' : heap_idx_ h !! hid m = Some j) by (apply Hpos; by apply lookup_app_l_Some).
    apply lookup_lt_Some in Hm. rewrite lookup_insert_ne, lookup_delete_ne; [done| |];
      intros Heq; rewrite <- Heq in Hm'; [congruence|]. rewrite Hlast in Hm'. simplify_eq. lia.
  - intros id' j. rewrite lookup_insert_Some. intros [[<- <-]|[Hne Hj]].
    + exists last. split; [|done]. by apply list_lookup_insert_eq.
    + apply lookup_delete_Some in Hj as [Hne' Hj]. destruct (Hnode _ _ Hj) as (m & Hm & <-).
      exists m. split; [|done]. apply lookup_app_Some in Hm as [Hm|[_ Hm]].
      * rewrite list_lookup_insert_ne; [done|]. intros ->. congruence.
      * apply list_lookup_singleton_Some in Hm as [_ <-]. done.
Qed.

Lemma truncate_idx h l' last :
  idx_ok h -> heap_ h = l' ++ [last] -> idx_ok (mkHeap l' (delete (hid last) (heap_idx_ h))).
Proof.
  intros [Hpos Hnode] Hh. rewrite Hh in *.
  assert (Hlast : heap_idx_ h !! hid last = Some (length l')).
  { apply Hpos. rewrite lookup_app_r by done. by rewrite Nat.sub_diag. }
  split; simpl.
  - intros j m Hm. assert (Hm' : heap_idx_ h !! hid m = Some j) by (apply Hpos; by apply lookup_app_l_Some).
    rewrite lookup_delete_ne; [done|]. intros Heq. apply lookup_lt_Some in Hm.
    rewrite <- Heq, Hlast in Hm'. simplify_eq. lia.
  - intros id j Hj. apply lookup_delete_Some in Hj as [Hne Hj].
    destruct (Hnode _ _ Hj) as (m & Hm & <-). exists m. split; [|done].
    apply lookup_app_Some in Hm as [Hm|[_ Hm]]; [done|].
    apply list_lookup_singleton_Some in Hm as [_ <-]. done.
Qed.

Lemma remove_absent id h : heap_idx_ h !! id = None -> remove id h = h.
Proof. intros H. unfold remove. by rewrite H. Qed.

Lemma remove_ok id i h :
  heap_ok h -> heap_idx_ h !! id = Some i ->
  exists n, heap_ h !! i = Some n /\ hid n = id /\
    heap_ok (remove id h) /\ heap_ h ≡ₚ n :: heap_ (remove id h).
Proof.
  intros [Ho Hix] Hid. destruct (ix_node h Hix _ _ Hid) as (n & Hn & Hnid).
  exists n. split; [done|]. split; [done|]. unfold remove. rewrite Hid.
  destruct (last (heap_ h)) as [l|] eqn:Hl.
  2:{ apply last_None_inv in Hl. by rewrite Hl in Hn. }
  apply last_snoc_inv in Hl. cbn [heap_]. set (l' := removelast (heap_ h)) in *.
  destruct (Nat.ltb_spec i (length l')) as [Hi|Hi].
  - assert (Hi' : l' !! i = Some n) by (rewrite Hl, lookup_app_l in Hn; done).
    set (h1 := mkHeap (<[i := l]> l') _).
    assert (Hlen : length (heap_ h1) = length l') by (simpl; by rewrite length_insert).
    assert (Hkey : forall j, j <> i -> (j < length l')%nat -> key h1 j = key h j).
    { intros j Hji Hjl. unfold key. simpl. rewrite list_lookup_insert_ne by done.
      by rewrite Hl, lookup_app_l. }
    assert (Hlh : length (heap_ h) = S (length l')) by (rewrite Hl, length_app; simpl; lia).
    destruct (sift_up_both i h1) as [He1 [Hp1 Hx1]]; [lia| |].
    { split.
      - intros c Hi0 Hc Hpc. pose proof (par_lt c). pose proof (par_lt i).
        rewrite !Hkey by lia. apply (ordered_except_down h i Ho); [lia|lia|done].
      - intros j Hj Hji Hpj. pose proof (par_lt j). unfold edge. rewrite !Hkey by lia.
        apply Ho. lia. }
    destruct (sift_down_ordered i (sift_up i h1)) as [Ho2 [Hp2 Hx2]];
      [rewrite Hp1; lia|done|].
    split; [split; [done|]|].
    + apply Hx2, Hx1. by apply removal_idx with n.
    + rewrite Hp2, Hp1. simpl. rewrite Hl at 1. rewrite insert_take_drop by done.
      rewrite <- (take_drop_middle _ _ _ Hi') at 1. rewrite <- app_assoc. simpl.
      rewrite <- !Permutation_middle. apply Permutation_skip.
      by rewrite app_nil_r.
  - assert (Hnl : n = l /\ i = length l').
    { rewrite Hl in Hn. apply lookup_app_Some in Hn as [Hn|[_ Hn]].
      - apply lookup_lt_Some in Hn. lia.
      - apply list_lookup_singleton_Some in Hn as [? ->]. split; [done|lia]. }
    destruct Hnl as [-> ->]. split; [split|].
    + intros j Hj. simpl in Hj. pose proof (par_lt j). specialize (Ho j).
      unfold edge, key in *. rewrite Hl, length_app, !lookup_app_l in Ho by lia. apply Ho. simpl. lia.
    + rewrite <- Hnid. by apply truncate_idx.
    + rewrite Hl at 1. simpl. by rewrite Permutation_app_comm.
Qed.

Lemma top_remove n h :
  heap_ok h -> top h = Some n ->
  heap_ok (remove (hid n) h) /\ heap_ h ≡ₚ n :: heap_ (remove (hid n) h) /\
  forall m, m ∈ heap_ h -> expiry n <= expiry m.
Proof.
  intros Hok Hn. destruct Hok as [Ho Hix] eqn:E.
  destruct (remove_ok (hid n) 0 h) as (n' & Hn' & _ & Hok' & Hp); [done| |].
  { by apply (ix_pos h Hix). }
  unfold top in Hn. assert (n' = n) as -> by congruence.
  split_and!; [done|done|]. intros m Hm. by apply (top_min n m h).
Qed.

Lemma idx_None_iff h id :
  idx_ok h -> heap_idx_ h !! id = None <-> forall n, n ∈ heap_ h -> hid n <> id.
Proof.
  intros [Hpos Hnode]. split.
  - intros Hn n Hin <-. apply list_elem_of_lookup in Hin as [i Hi]. apply Hpos in Hi. congruence.
  - intros Hall. destruct (heap_idx_ h !! id) as [i|] eqn:Hi; [|done].
    destruct (Hnode _ _ Hi) as (n & Hn & Hid). destruct (Hall n); [|done].
    by eapply list_elem_of_lookup_2.
Qed.

Lemma idx_nodup h : idx_ok h -> NoDup (hid <$> heap_ h).
Proof.
  intros [Hpos _]. apply NoDup_alt. intros i j id Hi Hj.
  apply list_lookup_fmap_Some in Hi as (n & Hid & Hn), Hj as (m & Hid' & Hm).
  apply Hpos in Hn, Hm. congruence.
Qed.

(** ** Expiry of a heap, logging each callback *)

Definition HLogged : Type := TimerHeap * list HNode.

#[global] Instance HLogged_heap : HasHeap HLogged := {|
  heap_of := fst;
  set_heap h s := (h, snd s);
  heap_of_set h s := eq_refl;
|}.

Definition hlog_fire (n : HNode) (s : HLogged) : HLogged := (s.1, s.2 ++ [n]).

Lemma expire_log fuel now h log :
  heap_ok h -> (length (heap_ h) <= fuel)%nat ->
  exists h' fired, expire hlog_fire fuel now (h, log) = (h', log ++ fired) /\
    heap_ok h' /\ heap_ h ≡ₚ fired ++ heap_ h' /\
    Forall (fun n => expiry n <= now) fired /\ Forall (fun n => now < expiry n) (heap_ h') /\
    StronglySorted (fun a b => expiry a <= expiry b) fired.
Proof.
  revert h log. induction fuel as [|f IH]; intros h log Hok Hf.
  { exists h, []. rewrite app_nil_r. assert (heap_ h = []) as -> by (apply nil_length_inv; lia).
    split_and!; try done; constructor. }
  cbn [expire heap_of HLogged_heap fst]. destruct (top h) as [n|] eqn:Ht.
  2:{ exists h, []. rewrite app_nil_r. unfold top in Ht. apply lookup_ge_None in Ht.
      assert (heap_ h = []) as -> by (apply nil_length_inv; lia). split_and!; try done; constructor. }
  destruct (top_remove n h Hok Ht) as (Hok1 & Hp1 & Hmin).
  destruct (Z.leb_spec (expiry n) now) as [Hle|Hgt].
  - destruct (IH (remove (hid n) h) (log ++ [n])) as (h' & fired & Heq & Hok' & Hp & Hd & Hr & Hs).
    { done. }
    { apply Permutation_length in Hp1. simpl in Hp1. lia. }
    exists h', (n :: fired). split_and!; try done.
    + etrans; [exact Heq|]. by rewrite <- app_assoc.
    + rewrite Hp1, Hp. done.
    + by constructor.
    + constructor; [done|]. apply Forall_forall. intros m Hm. apply Hmin. rewrite Hp1, Hp.
      apply elem_of_cons. right. apply elem_of_app. by left.
  - exists h, []. rewrite app_nil_r. split_and!; try done; try constructor.
    apply Forall_forall. intros m Hm. specialize (Hmin m Hm). lia.
Qed.

(** ** Properties *)

(** the heap is a priority queue with removal from the middle.  In a heap
    that satisfies the four-ary order and whose [heap_idx] fields name the
    positions, [push] of a node outside it and [remove] of a node in it keep
    both, and add or remove exactly that node; [remove] of any other node is the
    identity, and [top] is a node of least expiry. *)
Theorem timer_heap_is_priority_queue n m id h :
  heap_ok h -> heap_idx_ h !! hid n = None -> heap_idx_ h !! id <> None -> m ∈ heap_ h ->
  (heap_ok (push n h) /\ heap_ (push n h) ≡ₚ n :: heap_ h) /\
  (exists x, hid x = id /\ heap_ok (remove id h) /\ heap_ h ≡ₚ x :: heap_ (remove id h)) /\
  remove (hid n) h = h /\
  (exists t, top h = Some t /\ expiry t <= expiry m).
Proof.
  intros Hok Hn Hid Hm. split; [|split; [|split]].
  - by apply push_ok.
  - destruct (heap_idx_ h !! id) as [i|] eqn:Hi; [|done].
    destruct (remove_ok id i h Hok Hi) as (x & _ & Hx & Hok' & Hp). by exists x.
  - by apply remove_absent.
  - destruct (top h) as [t|] eqn:Ht.
    + exists t. split; [done|]. by apply (top_min t m h).
    + unfold top in Ht. destruct (heap_ h); [by apply not_elem_of_nil in Hm|done].
Qed.

Definition demo_hnode (i : nat) (e : Z) : HNode := mkHNode (Handles.mkHandle i 1) e.

Definition demo_heap : TimerHeap :=
  push (demo_hnode 5 10) (push (demo_hnode 4 70) (push (demo_hnode 3 20) (push (demo_hnode 2 90)
    (push (demo_hnode 1 30) (push (demo_hnode 0 50) empty_heap))))).

Lemma demo_heap_ok : heap_ok demo_heap.
Proof. unfold demo_heap. repeat (apply push_ok; [|done]). apply empty_heap_ok. Qed.

Lemma timer_heap_is_priority_queue_witness :
  heap_ok (push (demo_hnode 9 15) demo_heap) /\
  exists t, top demo_heap = Some t /\ expiry t <= 20.
Proof.
  destruct (timer_heap_is_priority_queue (demo_hnode 9 15) (demo_hnode 3 20)
              (Handles.mkHandle 2 1) demo_heap) as ([H1 _] & _ & _ & H2).
  - apply demo_heap_ok.
  - vm_compute. reflexivity.
  - vm_compute. discriminate.
  - apply (bool_decide_unpack _). vm_compute. exact I.
  - split; [exact H1|exact H2].
Defined.

(** [expire] fires exactly the nodes whose expiry is not after [now], in
    order of expiry, unlinking each before its callback, and leaves the others
    in a well-formed heap; as many iterations as the heap has nodes are enough. *)
Theorem heap_expire_fires_due_in_order now h log :
  heap_ok h ->
  exists h' fired,
    expire hlog_fire (size h) now (h, log) = (h', log ++ fired) /\
    heap_ok h' /\ heap_ h ≡ₚ fired ++ heap_ h' /\
    Forall (fun n => expiry n <= now) fired /\ Forall (fun n => now < expiry n) (heap_ h') /\
    StronglySorted (fun a b => expiry a <= expiry b) fired.
Proof. intros Hok. by apply expire_log. Qed.

Lemma heap_expire_fires_due_in_order_witness :
  exists h' fired, expire hlog_fire 6 30 (demo_heap, []) = (h', fired) /\
    heap_ok h' /\ fired = [demo_hnode 5 10; demo_hnode 3 20; demo_hnode 1 30].
Proof.
  destruct (heap_expire_fires_due_in_order 30 demo_heap []) as (h' & fired & H1 & H2 & _).
  - apply demo_heap_ok.
  - exists h', fired. split; [exact H1|]. split; [exact H2|].
    apply (f_equal snd) in H1. revert H1. vm_compute. intros <-. reflexivity.
Defined.

End Heap.
