(* ===== verification/IoBuffer.v ===== *)
(** * The connection byte buffer

    [IoBuffer] of [src/include/afx/core/io_buffer.hpp]: one block of memory laid
    out as free headroom, readable bytes, writable bytes.  Offsets and sizes are
    [std::size_t] words, the block is a list of bytes, and an operation that
    copies outside the block, that fails its assertion or whose growth loop does
    not end is [None].  The readable region is the abstract value: the theorems
    show it to be a byte queue with cheap prepending. *)

From stdpp Require Import base option gmap list.
From Stdlib Require Import ZArith Lia.
From S2P Require Import Prelude.
Local Open Scope Z_scope.
Local Open Scope afx_scope.

Module Buffer.

(** ** Data and operations *)

Record IoBuffer := mkIoBuffer {
  cap_ : Z;
  buf_ : list Z;
  headroom_ : Z;
  start_ : Z;
  size_ : Z;
}.

Definition zeros (n : Z) : list Z := replicate (Z.to_nat n) 0.

Definition make (cap headroom : Z) : IoBuffer :=
  let c := Z.max cap (headroom ⊞ 1) in mkIoBuffer c (zeros c) headroom headroom 0.

Definition readable (b : IoBuffer) : list Z := region (start_ b) (size_ b) (buf_ b).
Definition size (b : IoBuffer) : Z := size_ b.
Definition empty (b : IoBuffer) : bool := size_ b =? 0.
Definition capacity (b : IoBuffer) : Z := cap_ b.

(** [while (ncap < need) ncap *= 2]: after 64 doublings the word is zero and the
    loop never ends, so [None] is divergence. *)
Fixpoint grow_loop (fuel : nat) (ncap need : Z) : option Z :=
  match fuel with
  | O => None
  | S f => if ncap <? need then grow_loop f (ncap ⊠ 2) need else Some ncap
  end.

Definition grow (need : Z) (b : IoBuffer) : option IoBuffer :=
  ncap ← grow_loop 65 (if cap_ b =? 0 then 64 else cap_ b ⊠ 2) need;
  data ← mem_read (start_ b) (size_ b) (buf_ b);
  nb ← mem_write (headroom_ b) data (zeros ncap);
  Some (mkIoBuffer ncap nb (headroom_ b) (headroom_ b) (size_ b)).

Definition compact (b : IoBuffer) : option IoBuffer :=
  if start_ b =? headroom_ b then Some b
  else
    m ← memmove (headroom_ b) (start_ b) (size_ b) (buf_ b);
    Some (mkIoBuffer (cap_ b) m (headroom_ b) (headroom_ b) (size_ b)).

Definition ensure_writable (at_least : Z) (b : IoBuffer) : option IoBuffer :=
  if at_least <=? cap_ b ⊟ start_ b ⊟ size_ b then Some b
  else
    b' ← compact b;
    if cap_ b' ⊟ headroom_ b' ⊟ size_ b' <? at_least
    then grow (headroom_ b' ⊞ size_ b' ⊞ at_least) b'
    else Some b'.

(** The buffer after the call, and the offset and length of the span. *)
Definition writable (at_least : Z) (b : IoBuffer) : option (IoBuffer * (Z * Z)) :=
  b' ← ensure_writable at_least b;
  Some (b', (start_ b' ⊞ size_ b', cap_ b' ⊟ start_ b' ⊟ size_ b')).

(** The caller's stores through a span. *)
Definition store_span (off : Z) (bs : list Z) (b : IoBuffer) : option IoBuffer :=
  m ← mem_write off bs (buf_ b);
  Some (mkIoBuffer (cap_ b) m (headroom_ b) (start_ b) (size_ b)).

Definition commit (n : Z) (b : IoBuffer) : option IoBuffer :=
  if start_ b ⊞ size_ b ⊞ n <=? cap_ b
  then Some (mkIoBuffer (cap_ b) (buf_ b) (headroom_ b) (start_ b) (size_ b ⊞ n))
  else None.

Definition consume (n : Z) (b : IoBuffer) : IoBuffer :=
  let n := Z.min n (size_ b) in
  let size := size_ b ⊟ n in
  mkIoBuffer (cap_ b) (buf_ b) (headroom_ b)
    (if size =? 0 then headroom_ b else start_ b ⊞ n) size.

(** The buffer after the call, and the offset of the [n]-byte span. *)
Definition prepend (n : Z) (b : IoBuffer) : option (IoBuffer * Z) :=
  b' ← (if start_ b <? n then
          let new_start := Z.max n (headroom_ b) in
          b1 ← (if cap_ b <? new_start ⊞ size_ b then grow (new_start ⊞ size_ b) b else Some b);
          m ← memmove new_start (start_ b1) (size_ b1) (buf_ b1);
          Some (mkIoBuffer (cap_ b1) m (headroom_ b1) new_start (size_ b1))
        else Some b);
  let start := start_ b' ⊟ n in
  Some (mkIoBuffer (cap_ b') (buf_ b') (headroom_ b') start (size_ b' ⊞ n), start).

Definition reserve (n : Z) (b : IoBuffer) : option IoBuffer :=
  if cap_ b <? n then grow n b else Some b.

(** How clients use the spans: append after [writable], header by [prepend]. *)
Definition append (bs : list Z) (b : IoBuffer) : option IoBuffer :=
  '(b1, (off, _)) ← writable (zlen bs) b;
  b2 ← store_span off bs b1;
  commit (zlen bs) b2.

Definition prepend_bytes (bs : list Z) (b : IoBuffer) : option IoBuffer :=
  '(b1, off) ← prepend (zlen bs) b;
  store_span off bs b1.


(** ** Invariant *)

Record io_ok (b : IoBuffer) : Prop := {
  io_len : zlen (buf_ b) = cap_ b;
  io_head : 0 <= headroom_ b < cap_ b;
  io_pos : 0 <= start_ b /\ 0 <= size_ b /\ start_ b + size_ b <= cap_ b;
  io_cap : cap_ b < 2 ^ 62;
}.

(** The readable bytes start behind the headroom, so that they still fit when
    [compact] moves them there.  It holds of a buffer that has not been prepended
    to since it was last drained. *)
Definition roomy (b : IoBuffer) : Prop := headroom_ b <= start_ b.

Lemma zlen_zeros n : 0 <= n -> zlen (zeros n) = n.
Proof. intros. unfold zlen, zeros. rewrite length_replicate. lia. Qed.

Lemma buffer_make_ok cap headroom :
  0 <= cap < 2 ^ 62 -> 0 <= headroom < 2 ^ 61 ->
  io_ok (make cap headroom) /\ roomy (make cap headroom) /\ readable (make cap headroom) = [].
Proof.
  intros Hc Hh. unfold make, roomy. wrap_simpl. simpl. split; [|split; [lia|done]].
  constructor; simpl; try lia. apply zlen_zeros. lia.
Qed.

Lemma grow_loop_ok k ncap need fuel :
  0 < ncap -> need <= 2 ^ Z.of_nat k * ncap -> ncap < 2 ^ 62 -> need < 2 ^ 61 -> (k < fuel)%nat ->
  exists c, grow_loop fuel ncap need = Some c /\ need <= c /\ ncap <= c /\
    (c = ncap \/ c < 2 * need).
Proof.
  revert ncap fuel. induction k as [|k IH]; intros ncap fuel Hp Hk Hc Hn Hf;
    (destruct fuel as [|fuel]; [lia|]); cbn [grow_loop];
    destruct (Z.ltb_spec ncap need) as [Hlt|Hge].
  - simpl in Hk. lia.
  - exists ncap. split_and!; auto; lia.
  - rewrite u64_small by lia.
    destruct (IH (ncap * 2) fuel) as (c & Hc1 & Hc2 & Hc3 & Hc4); try lia.
    { rewrite Nat2Z.inj_succ, Z.pow_succ_r in Hk by lia. lia. }
    exists c. split_and!; [done|lia|lia|]. right. lia.
  - exists ncap. split_and!; auto; lia.
Qed.

Lemma grow_ok need b :
  io_ok b -> cap_ b < need -> headroom_ b + size_ b <= need -> need < 2 ^ 61 ->
  exists b', grow need b = Some b' /\ io_ok b' /\ readable b' = readable b /\
    need <= cap_ b' /\ headroom_ b' = headroom_ b /\ start_ b' = headroom_ b /\
    size_ b' = size_ b.
Proof.
  intros [Hlen Hhead Hpos Hcap] Hn Hr Hlt. unfold grow.
  destruct (Z.eqb_spec (cap_ b) 0); [lia|]. rewrite u64_small by lia.
  destruct (grow_loop_ok 61 (cap_ b * 2) need 65) as (c & Hg & Hc1 & Hc2 & Hc3); try lia.
  rewrite Hg. cbn [mbind option_bind]. rewrite mem_read_ok by lia. cbn [mbind option_bind].
  pose proof (region_len (start_ b) (size_ b) (buf_ b)) as Hrl.
  pose proof (zlen_zeros c) as Hzl.
  destruct (mem_write_ok (headroom_ b) (region (start_ b) (size_ b) (buf_ b)) (zeros c))
    as (m & -> & Hl & Hreg & _); [lia|rewrite Hrl, Hzl; lia|].
  cbn [mbind option_bind]. eexists. split; [done|]. rewrite Hrl in Hreg by lia.
  unfold readable. simpl. split; [|split_and!; auto; lia].
  constructor; simpl; try lia.
Qed.

(** ** Each operation on the readable bytes *)

Ltac io_steps := cbn [mbind option_bind cap_ buf_ headroom_ start_ size_].

Lemma compact_ok b :
  io_ok b -> roomy b ->
  exists b', compact b = Some b' /\ io_ok b' /\ roomy b' /\ readable b' = readable b /\
    start_ b' = headroom_ b' /\ headroom_ b' = headroom_ b /\ size_ b' = size_ b.
Proof.
  intros [Hlen Hhead Hpos Hcap] Hr. unfold compact, roomy in *.
  destruct (Z.eqb_spec (start_ b) (headroom_ b)) as [He|_].
  { exists b. split_and!; try done; lia. }
  destruct (memmove_ok (headroom_ b) (start_ b) (size_ b) (buf_ b)) as (m & -> & Hl & Hreg); try lia.
  io_steps. eexists. split; [done|]. unfold readable. io_steps.
  split; [constructor; io_steps; lia|]. split_and!; auto; lia.
Qed.

Lemma ensure_writable_ok n b :
  io_ok b -> roomy b -> 0 <= n -> headroom_ b + size_ b + n < 2 ^ 61 ->
  exists b', ensure_writable n b = Some b' /\ io_ok b' /\ roomy b' /\ readable b' = readable b /\
    n <= cap_ b' - start_ b' - size_ b' /\ headroom_ b' = headroom_ b /\ size_ b' = size_ b.
Proof.
  intros Hok Hr Hn Hb. pose proof Hok as [Hlen Hhead Hpos Hcap]. unfold ensure_writable.
  wrap_simpl. destruct (Z.leb_spec n (cap_ b - start_ b - size_ b)) as [Hfit|Hno].
  { exists b. split_and!; try done; lia. }
  destruct (compact_ok b Hok Hr) as (b1 & -> & Hok1 & Hr1 & Hrd1 & Hs1 & Hh1 & Hz1). io_steps.
  pose proof Hok1 as [Hlen1 Hhead1 Hpos1 Hcap1]. unfold roomy in *. wrap_simpl.
  destruct (Z.ltb_spec (cap_ b1 - headroom_ b1 - size_ b1) n) as [Hlt|Hge].
  - destruct (grow_ok (headroom_ b1 + size_ b1 + n) b1) as (b2 & -> & Hok2 & Hrd2 & Hc2 & Hh2 & Hs2 & Hz2);
      try lia; try done.
    exists b2. split_and!; try done; try lia. congruence.
  - exists b1. split_and!; try done; lia.
Qed.

Lemma append_ok bs b :
  io_ok b -> roomy b -> headroom_ b + size_ b + zlen bs < 2 ^ 61 ->
  exists b', append bs b = Some b' /\ io_ok b' /\ roomy b' /\ readable b' = readable b ++ bs /\
    headroom_ b' = headroom_ b /\ size_ b' = size_ b + zlen bs.
Proof.
  intros Hok Hr Hb. pose proof (zlen_nonneg bs) as Hn. unfold append, writable.
  destruct (ensure_writable_ok (zlen bs) b) as (b1 & -> & Hok1 & Hr1 & Hrd1 & Hfit & Hh1 & Hz1); try done.
  io_steps. pose proof Hok1 as [Hlen1 Hhead1 Hpos1 Hcap1]. wrap_simpl. unfold store_span.
  destruct (mem_write_ok (start_ b1 + size_ b1) bs (buf_ b1)) as (m & -> & Hl & Hreg & Hbelow & _);
    [lia|lia|]. io_steps. unfold commit. io_steps. wrap_simpl.
  rewrite (proj2 (Z.leb_le _ _)) by lia. eexists. split; [done|].
  split; [constructor; io_steps; lia|]. unfold roomy in *. io_steps.
  split; [lia|]. split; [|split; lia].
  rewrite <- Hrd1. unfold readable. io_steps.
  rewrite region_app by lia. rewrite Hreg, Hbelow by lia. done.
Qed.

(** Stores through a span leave the bookkeeping alone. *)
Lemma store_span_ok off bs b b' :
  io_ok b -> store_span off bs b = Some b' ->
  io_ok b' /\ cap_ b' = cap_ b /\ headroom_ b' = headroom_ b /\ start_ b' = start_ b /\ size_ b' = size_ b.
Proof.
  intros [Hlen Hhead Hpos Hcap] E. unfold store_span, mem_write in E. case_test_in E; [|done].
  injection E as <-. split; [|done]. constructor; io_steps; try done. rewrite <- Hlen. unfold zlen in *.
  rewrite !length_app, length_take, length_drop. lia.
Qed.

Lemma commit_ok n b b' :
  io_ok b -> 0 <= n < 2 ^ 61 -> commit n b = Some b' ->
  io_ok b' /\ (roomy b -> roomy b') /\ headroom_ b' = headroom_ b /\ size_ b' = size_ b + n.
Proof.
  intros [Hlen Hhead Hpos Hcap] Hn E. unfold commit in E. wrap_simpl_in E. case_test_in E; [|done].
  injection E as <-. split; [constructor; io_steps; lia|]. done.
Qed.

(** Bytes stored in the free tail and committed follow the readable ones. *)
Lemma fill_tail_ok bs b :
  io_ok b -> zlen bs <= cap_ b - start_ b - size_ b ->
  exists b1 b2, store_span (start_ b + size_ b) bs b = Some b1 /\ commit (zlen bs) b1 = Some b2
    /\ readable b1 = readable b /\ readable b2 = readable b ++ bs.
Proof.
  intros Hok Hfit. pose proof (zlen_nonneg bs) as Hn. pose proof Hok as [Hlen1 Hhead1 Hpos1 Hcap1]. unfold store_span.
  destruct (mem_write_ok (start_ b + size_ b) bs (buf_ b)) as (m & -> & Hl & Hreg & Hbelow & _);
    [lia|lia|]. io_steps. eexists _, _. split; [done|]. unfold commit. io_steps. wrap_simpl.
  rewrite (proj2 (Z.leb_le _ _)) by lia. split; [done|]. unfold readable. io_steps.
  rewrite region_app by lia. by rewrite Hreg, !Hbelow by lia.
Qed.

(** The span [writable] hands out starts at the end of the readable bytes and
    reaches the end of the block; nothing moves when it is already large enough. *)
Lemma writable_ok n b :
  io_ok b -> roomy b -> 0 <= n -> headroom_ b + size_ b + n < 2 ^ 61 ->
  exists b', writable n b = Some (b', (start_ b' + size_ b', cap_ b' - start_ b' - size_ b'))
    /\ io_ok b' /\ roomy b' /\ readable b' = readable b /\ headroom_ b' = headroom_ b
    /\ size_ b' = size_ b /\ n <= cap_ b' - start_ b' - size_ b'
    /\ (n <= cap_ b - start_ b - size_ b -> b' = b).
Proof.
  intros Hok Hr Hn Hb. pose proof Hok as [_ _ Hpos Hcap]. unfold writable.
  destruct (ensure_writable_ok n b) as (b'&E&Hok'&Hr'&Hrd&Hfit&Hh&Hz); try done. rewrite E.
  exists b'. pose proof Hok' as [_ _ Hpos' Hcap']. cbn [mbind option_bind]. wrap_simpl.
  split; [done|]. do 6 (split; [done|]). intros Hin. unfold ensure_writable in E.
  wrap_simpl_in E. rewrite (proj2 (Z.leb_le _ _)) in E by lia. by injection E.
Qed.

Lemma consume_ok n b :
  io_ok b -> 0 <= n ->
  io_ok (consume n b) /\ (roomy b -> roomy (consume n b)) /\
  readable (consume n b) = drop (Z.to_nat n) (readable b) /\
  headroom_ (consume n b) = headroom_ b /\ size_ (consume n b) = size_ b - Z.min n (size_ b).
Proof.
  intros [Hlen Hhead Hpos Hcap] Hn. unfold consume, roomy, readable. io_steps. wrap_simpl.
  pose proof (region_len (start_ b) (size_ b) (buf_ b)) as Hl. unfold zlen in Hl, Hlen.
  destruct (Z.eqb_spec (size_ b - Z.min n (size_ b)) 0) as [Hz|Hz].
  - rewrite Hz. split; [constructor; io_steps; unfold zlen; lia|].
    split; [lia|]. split; [|split; lia].
    rewrite region_0, drop_ge; [done|]. lia.
  - assert (Hlt : n < size_ b) by lia. rewrite Z.min_l in * by lia. split; [constructor; io_steps; unfold zlen; lia|].
    split; [lia|]. split; [|split; lia]. apply region_drop; lia.
Qed.

Lemma reserve_ok n b :
  io_ok b -> roomy b -> n < 2 ^ 61 ->
  exists b', reserve n b = Some b' /\ io_ok b' /\ roomy b' /\ readable b' = readable b /\
    headroom_ b' = headroom_ b /\ size_ b' = size_ b.
Proof.
  intros Hok Hr Hn. pose proof Hok as [Hlen Hhead Hpos Hcap]. unfold reserve, roomy in *. destruct (Z.ltb_spec (cap_ b) n).
  - destruct (grow_ok n b) as (b' & -> & Hok' & Hrd & Hc & Hh & Hs & Hz); try done; try lia.
    exists b'. split_and!; try done. lia.
  - by exists b.
Qed.

Lemma prepend_bytes_ok bs b :
  io_ok b -> Z.max (zlen bs) (headroom_ b) + size_ b < 2 ^ 61 ->
  exists b', prepend_bytes bs b = Some b' /\ io_ok b' /\ readable b' = bs ++ readable b /\
    headroom_ b' = headroom_ b.
Proof.
  intros Hok Hb. pose proof (zlen_nonneg bs) as Hn. pose proof Hok as [Hlen Hhead Hpos Hcap].
  assert (Hpre : exists b1, (if start_ b <? zlen bs then
            b1 ← (if cap_ b <? Z.max (zlen bs) (headroom_ b) ⊞ size_ b
                  then grow (Z.max (zlen bs) (headroom_ b) ⊞ size_ b) b else Some b);
            m ← memmove (Z.max (zlen bs) (headroom_ b)) (start_ b1) (size_ b1) (buf_ b1);
            Some (mkIoBuffer (cap_ b1) m (headroom_ b1) (Z.max (zlen bs) (headroom_ b)) (size_ b1))
          else Some b) = Some b1 /\ io_ok b1 /\ readable b1 = readable b /\
          zlen bs <= start_ b1 /\ size_ b1 = size_ b /\ headroom_ b1 = headroom_ b).
  { destruct (Z.ltb_spec (start_ b) (zlen bs)) as [Hlt|Hge]; [|by exists b].
    wrap_simpl. set (ns := Z.max (zlen bs) (headroom_ b)) in *.
    assert (Hg : exists b1, (if cap_ b <? ns + size_ b then grow (ns + size_ b) b else Some b) = Some b1 /\
                 io_ok b1 /\ readable b1 = readable b /\ ns + size_ b <= cap_ b1 /\
                 size_ b1 = size_ b /\ headroom_ b1 = headroom_ b).
    { destruct (Z.ltb_spec (cap_ b) (ns + size_ b)); [|by exists b].
      destruct (grow_ok (ns + size_ b) b) as (b1 & -> & ? & ? & ? & ? & ? & ?); try done; try lia.
      by exists b1. }
    destruct Hg as (b1 & -> & [Hl1 Hh1 Hp1 Hc1] & Hrd1 & Hcap1 & Hz1 & Hhd1). io_steps.
    destruct (memmove_ok ns (start_ b1) (size_ b1) (buf_ b1)) as (m & -> & Hl & Hreg); try lia.
    io_steps. eexists. split; [done|]. unfold readable in *. io_steps.
    split; [constructor; io_steps; lia|]. split_and!; try done; try lia. congruence. }
  unfold prepend_bytes, prepend. destruct Hpre as (b1 & -> & [Hl1 Hh1 Hp1 Hc1] & Hrd1 & Hs1 & Hz1 & Hhd1).
  io_steps. wrap_simpl. unfold store_span. io_steps.
  destruct (mem_write_ok (start_ b1 - zlen bs) bs (buf_ b1)) as (m & -> & Hl & Hreg & _ & Habove);
    [lia|lia|]. io_steps. eexists. split; [done|]. split; [constructor; io_steps; lia|].
  split; [|done]. rewrite <- Hrd1. unfold readable. io_steps.
  rewrite (Z.add_comm (size_ b1)), region_app by lia. rewrite Hreg. f_equal.
  rewrite Habove by lia. f_equal. lia.
Qed.

(** ** The buffer as a byte queue *)

Inductive op :=
  | OAppend (bs : list Z)
  | OConsume (n : Z)
  | OCompact
  | OReserve (n : Z).

Definition step (o : op) (b : IoBuffer) : option IoBuffer :=
  match o with
  | OAppend bs => append bs b
  | OConsume n => Some (consume n b)
  | OCompact => compact b
  | OReserve n => reserve n b
  end.

Fixpoint run (os : list op) (b : IoBuffer) : option IoBuffer :=
  match os with
  | [] => Some b
  | o :: os => b' ← step o b; run os b'
  end.

Definition queue_step (q : list Z) (o : op) : list Z :=
  match o with
  | OAppend bs => q ++ bs
  | OConsume n => drop (Z.to_nat n) q
  | OCompact | OReserve _ => q
  end.

(** Sizes below 2^61: far above any memory, and what keeps [ncap *= 2] from
    wrapping around. *)
Definition op_cost (o : op) : Z := match o with OAppend bs => zlen bs | _ => 0 end.
Definition op_ok (o : op) : Prop :=
  match o with OConsume n => 0 <= n | OReserve n => n < 2 ^ 61 | _ => True end.
Fixpoint cost (os : list op) : Z := match os with [] => 0 | o :: os => op_cost o + cost os end.

Lemma cost_nonneg os : 0 <= cost os.
Proof.
  induction os as [|o os IH]; simpl; [lia|]. destruct o; simpl; try lia.
  pose proof (zlen_nonneg bs). lia.
Qed.

Lemma step_ok o b :
  io_ok b -> roomy b -> op_ok o -> headroom_ b + size_ b + op_cost o < 2 ^ 61 ->
  exists b', step o b = Some b' /\ io_ok b' /\ roomy b' /\
    readable b' = queue_step (readable b) o /\
    headroom_ b' = headroom_ b /\ size_ b' <= size_ b + op_cost o.
Proof.
  intros Hok Hr Ho Hc. pose proof Hok as [_ _ Hpos _]. destruct o as [bs|n| |n]; simpl in *.
  - destruct (append_ok bs b) as (b' & ? & ? & ? & ? & ? & ?); try done.
    exists b'. split_and!; try done. lia.
  - destruct (consume_ok n b Hok Ho) as (? & ? & ? & ? & Hs). exists (consume n b).
    split_and!; auto. rewrite Hs. lia.
  - destruct (compact_ok b Hok Hr) as (b' & ? & ? & ? & ? & ? & ? & ?). exists b'.
    split_and!; try done. lia.
  - destruct (reserve_ok n b Hok Hr Ho) as (b' & ? & ? & ? & ? & ? & ?). exists b'.
    split_and!; try done. lia.
Qed.

(** ** Properties *)

(** C30: the buffer implements a byte queue.  Any sequence of appends (through
    [writable], stores into the span, [commit]), consumes, compactions and
    reservations on a buffer whose bytes start behind the headroom succeeds (no
    copy leaves the block, the assertion holds, growth ends), keeps the layout
    invariant, and leaves as readable bytes exactly what the queue operations
    give, so that no byte is lost, duplicated or reordered by compaction and
    growth. *)
Theorem io_buffer_is_byte_queue os b :
  io_ok b -> roomy b -> Forall op_ok os -> headroom_ b + size_ b + cost os < 2 ^ 61 ->
  exists b', run os b = Some b' /\ io_ok b' /\ roomy b' /\
    readable b' = foldl queue_step (readable b) os.
Proof.
  intros Hok Hr Hos. revert b Hok Hr.
  induction Hos as [|o os Ho Hos IH]; intros b Hok Hr Hc; simpl in *; [by exists b|].
  pose proof (cost_nonneg os).
  destruct (step_ok o b) as (b1 & -> & Hok1 & Hr1 & Hrd1 & Hh1 & Hs1); try done; try lia.
  io_steps. rewrite <- Hrd1. apply IH; [done|done|lia].
Qed.

Definition demo_ops : list op :=
  [OAppend [1; 2; 3; 4; 5; 6]; OConsume 4; OAppend [7; 8; 9; 10]; OReserve 40; OCompact; OConsume 1].

Lemma io_buffer_is_byte_queue_witness :
  exists b', run demo_ops (make 10 4) = Some b' /\ readable b' = [6; 7; 8; 9; 10].
Proof.
  destruct (io_buffer_is_byte_queue demo_ops (make 10 4)) as (b' & H1 & _ & _ & H2).
  - apply buffer_make_ok; lia.
  - apply buffer_make_ok; lia.
  - unfold demo_ops. repeat constructor; simpl; lia.
  - vm_compute. reflexivity.
  - exists b'. split; [exact H1|]. etransitivity; [exact H2|]. vm_compute. reflexivity.
Defined.

(** [prepend] puts a header in front of the readable bytes from any valid
    state, shifting or growing when the headroom is too small, without touching
    the bytes behind it. *)
Theorem prepend_adds_header bs b :
  io_ok b -> Z.max (zlen bs) (headroom_ b) + size_ b < 2 ^ 61 ->
  exists b', prepend_bytes bs b = Some b' /\ io_ok b' /\ readable b' = bs ++ readable b.
Proof.
  intros Hok Hb. destruct (prepend_bytes_ok bs b Hok Hb) as (b' & ? & ? & ? & _). by exists b'.
Qed.

Lemma prepend_adds_header_witness :
  exists b', prepend_bytes [9; 9; 9; 9; 9; 9] (make 10 4) = Some b' /\
    readable b' = [9; 9; 9; 9; 9; 9].
Proof.
  destruct (prepend_adds_header [9; 9; 9; 9; 9; 9] (make 10 4)) as (b' & H1 & _ & H2).
  - apply buffer_make_ok; lia.
  - vm_compute. reflexivity.
  - exists b'. split; [exact H1|]. etransitivity; [exact H2|]. vm_compute. reflexivity.
Defined.

(** after [prepend] the buffer may be left in a valid state in which the
    next [writable] that has to make room copies past the end of the block: the
    readable bytes no longer fit behind the headroom, and [compact] moves them
    there all the same. *)
Theorem writable_overruns_after_prepend n b :
  io_ok b -> cap_ b < headroom_ b + size_ b -> cap_ b - start_ b - size_ b < n ->
  writable n b = None.
Proof.
  intros [Hlen Hhead Hpos Hcap] Hover Hn. unfold writable, ensure_writable, compact, memmove.
  wrap_simpl. rewrite (proj2 (Z.leb_gt _ _)) by lia.
  rewrite (proj2 (Z.eqb_neq _ _)) by lia. rewrite mem_read_ok by lia. io_steps.
  unfold mem_write. rewrite region_len by lia.
  rewrite (proj2 (Z.leb_gt (headroom_ b + _) _)) by lia. by rewrite andb_false_r.
Qed.

Lemma writable_overruns_after_prepend_witness :
  exists b, (b1 ← append [1; 2; 3; 4] (make 8 4); prepend_bytes [5; 6; 7; 8] b1) = Some b /\
    writable 1 b = None.
Proof.
  eexists. split; [vm_compute; reflexivity|].
  apply writable_overruns_after_prepend.
  - constructor; vm_compute; repeat split; discriminate.
  - vm_compute. reflexivity.
  - vm_compute. reflexivity.
Defined.

End Buffer.
