(* ===== verification/SpscRing.v ===== *)
(** * The single-producer single-consumer ring

    [SpscRing] of [src/include/afx/itc/spsc_ring.hpp].  One thread pushes
    ([try_push], [try_push_bulk]) and one drains ([drain], [drain_contiguous]).
    A step is one access to shared memory: a load or store of [head_] or [tail_],
    or a plain access to one slot of [buf_]; a schedule interleaves the steps of
    the two threads in any order.  The counters are 64-bit words that wrap
    around.  Steps interleave sequentially: the release store that publishes a
    counter and the acquire load that reads it order the slot accesses on both
    sides, and the absence of conflicting slot accesses is itself a theorem. *)

From stdpp Require Import base option gmap list.
From Stdlib Require Import ZArith Lia.
From S2P Require Import Prelude.
Local Open Scope Z_scope.
Local Open Scope afx_scope.

Module Spsc.

Section Ring.
Context {A : Type} {HA : Inhabited A}.

(** ** Data *)

Inductive pop := TryPush (v : A) | TryPushBulk (vs : list A).
Inductive cop := Drain (max : nat) | DrainContiguous (max : nat).

(** Where the producer is: [tail_] loaded, or writing the slots it claimed. *)
Inductive ppc :=
  | PIdle
  | PTail (o : pop) (t : Z)
  | PWrite (t : Z) (done todo : list A).

(** Where the consumer is: [head_] loaded, or handing out slots. *)
Inductive cpc :=
  | CIdle
  | CHead (o : cop) (h : Z)
  | CRead (contiguous : bool) (h n i : Z).

Record SpscRing := mkRing {
  cap_ : Z;
  buf_ : list A;
  head_ : Z;
  tail_ : Z;
  prod : ppc;
  cons : cpc;
  accepted : list A;    (* items of the pushes that have returned success *)
  delivered : list A;   (* items handed to the drain callback *)
}.

Definition make (capacity_pow2 : Z) : SpscRing :=
  mkRing capacity_pow2 (replicate (Z.to_nat capacity_pow2) inhabitant) 0 0 PIdle CIdle [] [].

Definition slot (cap p : Z) : nat := Z.to_nat (Z.land p (cap ⊟ 1)).

(** ** Producer *)

(** After the loads of [tail_] and [head_]: the items to write, [None] if full. *)
Definition claim (cap : Z) (o : pop) (t h : Z) : option (list A) :=
  match o with
  | TryPush v => if cap <=? t ⊟ h then None else Some [v]
  | TryPushBulk vs =>
      let room := cap ⊟ (t ⊟ h) in
      let n := if zlen vs <? room then zlen vs else room in
      Some (take (Z.to_nat n) vs)
  end.

Definition set_prod (p : ppc) (s : SpscRing) : SpscRing :=
  mkRing (cap_ s) (buf_ s) (head_ s) (tail_ s) p (cons s) (accepted s) (delivered s).

(** One step of the producer, which starts [o] when it is idle. *)
Definition pstep (o : pop) (s : SpscRing) : SpscRing :=
  match prod s with
  | PIdle => set_prod (PTail o (tail_ s)) s
  | PTail o t =>
      match claim (cap_ s) o t (head_ s) with
      | None => set_prod PIdle s
      | Some vs => set_prod (PWrite t [] vs) s
      end
  | PWrite t done (v :: vs) =>
      mkRing (cap_ s) (<[slot (cap_ s) (t ⊞ zlen done) := v]> (buf_ s)) (head_ s) (tail_ s)
        (PWrite t (done ++ [v]) vs) (cons s) (accepted s) (delivered s)
  | PWrite t done [] =>
      mkRing (cap_ s) (buf_ s) (head_ s) (t ⊞ zlen done)
        PIdle (cons s) (accepted s ++ done) (delivered s)
  end.

(** ** Consumer *)

(** After the loads: how many slots to hand out, [None] for the early return of
    [drain_contiguous] on an empty ring. *)
Definition batch (cap : Z) (o : cop) (h t : Z) : option Z :=
  let avail := t ⊟ h in
  match o with
  | Drain max => Some (if avail <? Z.of_nat max then avail else Z.of_nat max)
  | DrainContiguous max =>
      if avail =? 0 then None
      else
        let contiguous := cap ⊟ Z.land h (cap ⊟ 1) in
        let n := if avail <? contiguous then avail else contiguous in
        Some (if Z.of_nat max <? n then Z.of_nat max else n)
  end.

Definition is_contiguous (o : cop) : bool :=
  match o with Drain _ => false | DrainContiguous _ => true end.

(** The slot of the [i]-th item: [(h + i) & mask_] for [drain], [off + i] inside
    the span of [drain_contiguous]. *)
Definition read_slot (cap : Z) (contiguous : bool) (h i : Z) : nat :=
  if contiguous then Z.to_nat (Z.land h (cap ⊟ 1) + i) else slot cap (h ⊞ i).

Definition set_cons (c : cpc) (s : SpscRing) : SpscRing :=
  mkRing (cap_ s) (buf_ s) (head_ s) (tail_ s) (prod s) c (accepted s) (delivered s).

(** One step of the consumer, which starts [o] when it is idle. *)
Definition cstep (o : cop) (s : SpscRing) : SpscRing :=
  match cons s with
  | CIdle => set_cons (CHead o (head_ s)) s
  | CHead o h =>
      match batch (cap_ s) o h (tail_ s) with
      | None => set_cons CIdle s
      | Some n => set_cons (CRead (is_contiguous o) h n 0) s
      end
  | CRead c h n i =>
      if i <? n then
        mkRing (cap_ s) (buf_ s) (head_ s) (tail_ s) (prod s) (CRead c h n (i + 1)) (accepted s)
          (delivered s ++ [buf_ s !!! read_slot (cap_ s) c h i])
      else
        mkRing (cap_ s) (buf_ s) (h ⊞ n) (tail_ s) (prod s) CIdle (accepted s) (delivered s)
  end.

Definition empty (s : SpscRing) : bool := head_ s =? tail_ s.
Definition size_approx (s : SpscRing) : Z :=
  if head_ s <=? tail_ s then tail_ s ⊟ head_ s else 0.

(** A schedule: who moves, and what it starts when idle. *)
Inductive move := Prod (o : pop) | Cons (o : cop).

Definition step (s : SpscRing) (m : move) : SpscRing :=
  match m with Prod o => pstep o s | Cons o => cstep o s end.

Definition run (ms : list move) (s : SpscRing) : SpscRing := foldl step s ms.

(** ** Invariant *)

Definition written (p : ppc) : list A := match p with PWrite _ d _ => d | _ => [] end.
Definition read_count (c : cpc) : Z := match c with CRead _ _ _ i => i | _ => 0 end.

(** Everything written to the ring so far, published or not. *)
Definition content (s : SpscRing) : list A := accepted s ++ written (prod s).

Definition prod_ok (T room : Z) (p : ppc) : Prop :=
  match p with
  | PIdle => True
  | PTail _ t => t = u64 T
  | PWrite t d todo => t = u64 T /\ zlen d + zlen todo <= room
  end.

Definition cons_ok (cap H T : Z) (c : cpc) : Prop :=
  match c with
  | CIdle => True
  | CHead _ h => h = u64 H
  | CRead c h n i =>
      h = u64 H /\ 0 <= i <= n /\ H + n <= T /\ (c = true -> H mod cap + n <= cap)
  end.

(** [H] is the number of items whose slots have been given back. *)
Record inv_at (k H : Z) (s : SpscRing) : Prop := {
  iv_k : 0 <= k <= 63;
  iv_cap : cap_ s = 2 ^ k;
  iv_buf : zlen (buf_ s) = 2 ^ k;
  iv_head : head_ s = u64 H;
  iv_tail : tail_ s = u64 (zlen (accepted s));
  iv_range : 0 <= H <= zlen (accepted s) /\ zlen (accepted s) <= H + 2 ^ k;
  iv_delivered : delivered s = take (Z.to_nat (H + read_count (cons s))) (accepted s);
  iv_slots : forall p, H + read_count (cons s) <= p < zlen (content s) ->
      buf_ s !! Z.to_nat (p mod 2 ^ k) = content s !! Z.to_nat p;
  iv_prod : prod_ok (zlen (accepted s)) (H + 2 ^ k - zlen (accepted s)) (prod s);
  iv_cons : cons_ok (2 ^ k) H (zlen (accepted s)) (cons s);
}.

Definition inv (k : Z) (s : SpscRing) : Prop := exists H, inv_at k H s.

Lemma spsc_make_inv k : 0 <= k <= 63 -> inv k (make (2 ^ k)).
Proof.
  intros Hk. pose proof (Z.pow_pos_nonneg 2 k). exists 0. constructor; simpl; try done.
  - unfold zlen. rewrite length_replicate. lia.
  - unfold zlen. simpl. lia.
  - intros p Hp. unfold content, zlen in Hp. simpl in Hp. lia.
Qed.

Lemma spsc_slot_eq k p : 0 <= k <= 63 -> slot (2 ^ k) (u64 p) = Z.to_nat (p mod 2 ^ k).
Proof.
  intros Hk. assert (1 <= 2 ^ k <= 2 ^ 63).
  { split; [pose proof (Z.pow_pos_nonneg 2 k); lia|apply Z.pow_le_mono_r; lia]. }
  unfold slot. rewrite (u64_small (2 ^ k - 1)) by lia. rewrite land_mask by lia.
  rewrite u64_mod_pow by lia. done.
Qed.

Lemma pow_bounds k : 0 <= k <= 63 -> 1 <= 2 ^ k <= 2 ^ 63.
Proof.
  intros. split; [pose proof (Z.pow_pos_nonneg 2 k); lia|apply Z.pow_le_mono_r; lia].
Qed.

Lemma u64_diff a b : 0 <= a - b < 2 ^ 64 -> u64 a ⊟ u64 b = a - b.
Proof. intros. rewrite u64_sub_l, u64_sub_r. by apply u64_small. Qed.

Lemma claim_room k H s o :
  inv_at k H s ->
  match claim (cap_ s) o (u64 (zlen (accepted s))) (head_ s) with
  | None => zlen (accepted s) = H + 2 ^ k
  | Some vs => zlen vs <= H + 2 ^ k - zlen (accepted s)
  end.
Proof.
  intros Hi. pose proof (iv_k _ _ _ Hi) as Hk. pose proof (pow_bounds k Hk).
  pose proof (iv_range _ _ _ Hi). rewrite (iv_cap _ _ _ Hi), (iv_head _ _ _ Hi).
  destruct o as [v|vs]; simpl.
  - rewrite u64_diff by lia. destruct (Z.leb_spec (2 ^ k) (zlen (accepted s) - H)); [lia|].
    unfold zlen in *. simpl. lia.
  - rewrite u64_diff by lia. wrap_simpl. case_test; unfold zlen in *; rewrite length_take; lia.
Qed.

Lemma content_len s : zlen (content s) = zlen (accepted s) + zlen (written (prod s)).
Proof. apply zlen_app. Qed.

Lemma spsc_pstep_inv k H s o : inv_at k H s -> inv_at k H (pstep o s).
Proof.
  intros Hi. pose proof (iv_k _ _ _ Hi) as Hk. pose proof (pow_bounds k Hk) as Hpow.
  pose proof (iv_range _ _ _ Hi) as Hr. pose proof (iv_prod _ _ _ Hi) as Hp.
  pose proof (iv_slots _ _ _ Hi) as Hs. pose proof (iv_cons _ _ _ Hi) as Hc.
  unfold pstep. destruct (prod s) as [|o' t|t d todo] eqn:Hpc.
  - destruct Hi. constructor; simpl; try done.
    unfold content in *. simpl. by rewrite Hpc in *.
  - simpl in Hp. subst t. pose proof (claim_room k H s o' Hi) as Hcl.
    destruct (claim _ _ _ _) as [vs|]; destruct Hi; constructor; simpl; try done;
      unfold content in *; simpl; rewrite ?Hpc in *; try done.
  - destruct Hp as [-> Hroom]. destruct todo as [|v todo].
    + assert (Hz : zlen (accepted s ++ d) = zlen (accepted s) + zlen d) by apply zlen_app.
      pose proof (zlen_nonneg d). destruct Hi.
      assert (Hcz : content s = accepted s ++ d) by (unfold content; by rewrite Hpc).
      constructor; simpl; try done; rewrite ?Hz.
      * by rewrite u64_add_l.
      * unfold zlen in *. simpl in *. lia.
      * rewrite iv_delivered0. rewrite take_app_le; [done|]. unfold zlen in *.
        destruct (cons s); simpl in *; lia.
      * unfold content. simpl. rewrite app_nil_r, <- Hcz. done.
      * destruct (cons s); simpl in *; try done. destruct Hc as (? & ? & ? & ?). split_and!; try done; lia.
    + assert (Hz : zlen (d ++ [v]) = zlen d + 1) by (rewrite zlen_app; done).
      assert (Hzt : zlen (v :: todo) = zlen todo + 1) by (unfold zlen; simpl; lia).
      pose proof (zlen_nonneg d). pose proof (zlen_nonneg todo).
      rewrite u64_add_l. rewrite (iv_cap _ _ _ Hi), spsc_slot_eq by done. set (T := zlen (accepted s)) in *.
      assert (Hci : 0 <= read_count (cons s)) by (destruct (cons s); simpl in *; lia).
      pose proof (iv_buf _ _ _ Hi) as Hbuf.
      pose proof (Z.mod_pos_bound (T + zlen d) (2 ^ k) ltac:(lia)) as Hmod.
      destruct Hi. constructor; simpl; try done.
      * unfold zlen in *. by rewrite length_insert.
      * intros p Hp. unfold content in Hp |- *. simpl in *. rewrite app_assoc in Hp |- *.
        rewrite zlen_app in Hp. assert (Hcz : content s = accepted s ++ d) by (unfold content; by rewrite Hpc).
        rewrite <- Hcz in *. assert (Hzc : zlen (content s) = T + zlen d) by (rewrite Hcz; apply zlen_app).
        assert (Hlc : length (content s) = Z.to_nat (T + zlen d)) by (rewrite <- Hzc; unfold zlen; lia).
        change (zlen [v]) with 1 in Hp. destruct (decide (p = T + zlen d)) as [->|Hne].
        -- rewrite list_lookup_insert_eq by (unfold zlen in Hbuf; lia).
           rewrite lookup_app_r, Hlc, Nat.sub_diag by lia. done.
        -- rewrite list_lookup_insert_ne.
           { rewrite lookup_app_l by lia. apply Hs. lia. }
           intros Heq. apply (mod_distinct p (T + zlen d) (2 ^ k)); [lia|lia|].
           pose proof (Z.mod_pos_bound p (2 ^ k)). lia.
      * split; [done|]. lia.
Qed.

Lemma batch_ok k H s o :
  inv_at k H s ->
  match batch (cap_ s) o (u64 H) (tail_ s) with
  | None => True
  | Some n => 0 <= n /\ H + n <= zlen (accepted s) /\ (is_contiguous o = true -> H mod 2 ^ k + n <= 2 ^ k)
  end.
Proof.
  intros Hi. pose proof (iv_k _ _ _ Hi) as Hk. pose proof (pow_bounds k Hk).
  pose proof (iv_range _ _ _ Hi). rewrite (iv_cap _ _ _ Hi), (iv_tail _ _ _ Hi).
  unfold batch. rewrite u64_diff by lia. pose proof (Z.mod_pos_bound H (2 ^ k)).
  destruct o as [mx|mx]; simpl.
  - case_test; split_and!; try done; lia.
  - rewrite (u64_small (2 ^ k - 1)), land_mask, u64_mod_pow by lia. wrap_simpl.
    destruct (Z.eqb_spec (zlen (accepted s) - H) 0); [done|].
    repeat case_test; split_and!; intros; lia.
Qed.

Lemma read_slot_eq k c H n i :
  0 <= k <= 63 -> 0 <= H -> 0 <= i < n -> (c = true -> H mod 2 ^ k + n <= 2 ^ k) ->
  read_slot (2 ^ k) c (u64 H) i = Z.to_nat ((H + i) mod 2 ^ k).
Proof.
  intros Hk HH Hi Hc. pose proof (pow_bounds k Hk). unfold read_slot. destruct c.
  - specialize (Hc eq_refl). pose proof (Z.mod_pos_bound H (2 ^ k)).
    rewrite (u64_small (2 ^ k - 1)), land_mask, u64_mod_pow by lia. f_equal.
    rewrite <- Zplus_mod_idemp_l. symmetry. apply Z.mod_small. lia.
  - by rewrite u64_add_l, spsc_slot_eq.
Qed.

Lemma spsc_cstep_inv k H s o :
  inv_at k H s -> exists H', H <= H' /\ inv_at k H' (cstep o s).
Proof.
  intros Hi. pose proof (iv_k _ _ _ Hi) as Hk. pose proof (pow_bounds k Hk) as Hpow.
  pose proof (iv_range _ _ _ Hi) as Hr. pose proof (iv_prod _ _ _ Hi) as Hp.
  pose proof (iv_slots _ _ _ Hi) as Hs. pose proof (iv_cons _ _ _ Hi) as Hc.
  pose proof (iv_delivered _ _ _ Hi) as Hd. pose proof (content_len s) as Hcl.
  unfold cstep. destruct (cons s) as [|o' h|c h n i] eqn:Hcc; simpl in Hc.
  - exists H. split; [lia|]. destruct Hi. constructor; simpl; try done.
  - subst h. pose proof (batch_ok k H s o' Hi) as Hb. exists H. split; [lia|].
    destruct (batch _ _ _ _) as [n|]; destruct Hi; constructor; simpl; try done.
    destruct Hb as (? & ? & ?). split_and!; try done; lia.
  - destruct Hc as (-> & Hin & Hn & Hcont). destruct (Z.ltb_spec i n) as [Hlt|Hge].
    + exists H. split; [lia|]. rewrite (iv_cap _ _ _ Hi), (read_slot_eq k c H n i) by (try done; lia).
      assert (Hx : accepted s !! Z.to_nat (H + i) = Some (buf_ s !!! Z.to_nat ((H + i) mod 2 ^ k))).
      { assert (Hz : (Z.to_nat (H + i) < length (accepted s))%nat) by (unfold zlen in *; lia).
        pose proof (zlen_nonneg (written (prod s))).
        specialize (Hs (H + i)). simpl in Hs. unfold content in Hs at 2. rewrite lookup_app_l in Hs by done.
        destruct (lookup_lt_is_Some_2 _ _ Hz) as [x Hx]. rewrite Hx in Hs |- *.
        rewrite (list_lookup_total_correct _ _ x); [done|]. apply Hs. lia. }
      destruct Hi. constructor; simpl; try done.
      * rewrite Hd. simpl. replace (Z.to_nat (H + (i + 1))) with (S (Z.to_nat (H + i))) by lia.
        symmetry. by apply take_S_r.
      * intros p Hpp. apply Hs. simpl. change (content _) with (content s) in Hpp. lia.
      * split_and!; try done; lia.
    + exists (H + n). split; [lia|]. assert (i = n) as -> by lia. destruct Hi.
      constructor; simpl; try done; try lia.
      * by rewrite u64_add_l.
      * rewrite Hd. simpl. by rewrite Z.add_0_r.
      * intros p Hpp. apply Hs. simpl. change (content _) with (content s) in Hpp. lia.
      * destruct (prod s); simpl in *; try done. destruct Hp as [? ?]. split; [done|]. lia.
Qed.

Lemma spsc_run_inv k ms s : inv k s -> inv k (run ms s).
Proof.
  revert s. induction ms as [|m ms IH]; intros s Hi; [done|]. apply IH.
  destruct Hi as [H Hi]. destruct m as [o|o]; simpl.
  - exists H. by apply spsc_pstep_inv.
  - destruct (spsc_cstep_inv k H s o Hi) as (H' & _ & Hi'). by exists H'.
Qed.

(** ** Properties *)

(** C10: whatever way the steps of the two threads interleave, the ring is a
    bounded FIFO: what has been handed to the consumer is a prefix of what the
    producer published, in order, with nothing lost, duplicated or invented, and
    at most [cap_] published items are outstanding.  The 64-bit counters may wrap
    around any number of times. *)
Theorem spsc_ring_is_fifo k ms :
  0 <= k <= 63 ->
  let s := run ms (make (2 ^ k)) in
  delivered s `prefix_of` accepted s /\
  zlen (accepted s) <= zlen (delivered s) + 2 ^ k.
Proof.
  intros Hk s. destruct (spsc_run_inv k ms (make (2 ^ k)) (spsc_make_inv k Hk)) as [H Hi]. fold s in Hi.
  pose proof (iv_range _ _ _ Hi). pose proof (iv_delivered _ _ _ Hi) as Hd.
  pose proof (iv_cons _ _ _ Hi) as Hc.
  assert (Hrc : 0 <= read_count (cons s)) by (destruct (cons s); simpl in *; lia).
  split.
  - rewrite Hd. exists (drop (Z.to_nat (H + read_count (cons s))) (accepted s)). by rewrite take_drop.
  - rewrite Hd. unfold zlen in *. rewrite length_take. lia.
Qed.

(** the plain slot accesses of the two threads never conflict: in every
    state that the interleavings reach, the slot the producer is about to write
    is inside the buffer and is not one of the slots the consumer has still to
    read. *)
Theorem spsc_no_slot_conflict k ms t d v todo c h n i j :
  0 <= k <= 63 ->
  let s := run ms (make (2 ^ k)) in
  prod s = PWrite t d (v :: todo) -> cons s = CRead c h n i -> i <= j < n ->
  (slot (cap_ s) (t ⊞ zlen d) < length (buf_ s))%nat /\
  (read_slot (cap_ s) c h j < length (buf_ s))%nat /\
  slot (cap_ s) (t ⊞ zlen d) <> read_slot (cap_ s) c h j.
Proof.
  intros Hk s Hp Hc Hj. destruct (spsc_run_inv k ms (make (2 ^ k)) (spsc_make_inv k Hk)) as [H Hi].
  fold s in Hi. pose proof (iv_range _ _ _ Hi). pose proof (pow_bounds k Hk).
  pose proof (iv_prod _ _ _ Hi) as Hpo. pose proof (iv_cons _ _ _ Hi) as Hco.
  pose proof (iv_buf _ _ _ Hi) as Hb. unfold zlen in Hb.
  rewrite Hp in Hpo. rewrite Hc in Hco. simpl in Hpo, Hco.
  destruct Hpo as [-> Hroom], Hco as (-> & Hin & Hn & Hcont).
  rewrite (iv_cap _ _ _ Hi), u64_add_l, spsc_slot_eq, (read_slot_eq k c H n j) by (try done; lia).
  pose proof (zlen_nonneg d). pose proof (zlen_nonneg todo).
  assert (zlen (v :: todo) = zlen todo + 1) by (unfold zlen; simpl; lia).
  set (p := zlen (accepted s) + zlen d) in *.
  pose proof (Z.mod_pos_bound p (2 ^ k)). pose proof (Z.mod_pos_bound (H + j) (2 ^ k)).
  split; [lia|]. split; [lia|]. intros Heq.
  apply (mod_distinct (H + j) p (2 ^ k)); lia.
Qed.

End Ring.

Arguments SpscRing : clear implicits.
Arguments move : clear implicits.

Definition demo_moves : list (move Z) :=
  [Prod (TryPushBulk [1; 2; 3]); Cons (Drain 2); Prod (TryPush 0); Prod (TryPush 0); Prod (TryPush 0);
   Prod (TryPush 0); Prod (TryPush 0); Cons (Drain 9); Cons (Drain 9); Prod (TryPush 4);
   Prod (TryPush 4); Cons (Drain 9)].

Lemma spsc_ring_is_fifo_witness :
  delivered (run demo_moves (make 2)) `prefix_of` accepted (run demo_moves (make 2)).
Proof. apply (spsc_ring_is_fifo 1 demo_moves). lia. Defined.

(** One item is published, and the consumer starts on it while the next push is
    about to write its slot. *)
Definition conflict_moves : list (move Z) :=
  [Prod (TryPush 1); Prod (TryPush 1); Prod (TryPush 1); Prod (TryPush 1);
   Prod (TryPush 2); Prod (TryPush 2); Cons (Drain 5); Cons (Drain 5)].

Lemma spsc_no_slot_conflict_witness :
  slot 2 (1 ⊞ 0) <> read_slot 2 false 0 0.
Proof.
  destruct (spsc_no_slot_conflict 1 conflict_moves 1 [] 2 [] false 0 1 0 0) as (_ & _ & H).
  - lia.
  - vm_compute. reflexivity.
  - vm_compute. reflexivity.
  - lia.
  - exact H.
Defined.
End Spsc.
