(* ===== verification/MpscRing.v ===== *)
(** * The multi-producer single-consumer ring

    [MpscRing] of [src/include/afx/itc/mpsc_ring.hpp], Vyukov's bounded queue:
    producers claim a position by compare-and-swap on [enq_pos_], write the cell
    and publish it through the cell's sequence number; the consumer takes
    published cells in order and hands them back by advancing the sequence number
    one lap.  A step is one access to shared memory by one thread (any number of
    producers, one consumer), a schedule is any interleaving, and a weak
    compare-and-swap may fail spuriously.  [try_push_bulk] is a producer's list of
    pushes that stops at the first failure, [drain] a consumer's bounded sequence
    of [try_pop]. *)

From stdpp Require Import base option gmap list.
From Stdlib Require Import ZArith Lia.
From S2P Require Import Prelude.
Local Open Scope Z_scope.
Local Open Scope afx_scope.

Module Mpsc.

Section Ring.
Context {A : Type} {HA : Inhabited A}.

(** ** Data *)

Record Cell := mkCell { seq : Z; data : A }.

#[local] Instance Cell_inhabited : Inhabited Cell := populate (mkCell 0 inhabitant).

(** A producer pushing [v], with [rest] still to push after it. *)
Inductive ppc :=
  | PIdle
  | PStart (v : A) (rest : list A)               (* about to load enq_pos_ *)
  | PLoop (v : A) (rest : list A) (pos : Z)      (* about to load the cell's seq *)
  | PCas (v : A) (rest : list A) (pos : Z)       (* saw a free cell *)
  | PWrite (v : A) (rest : list A) (pos : Z)     (* owns pos *)
  | PPublish (v : A) (rest : list A) (pos : Z).  (* has written the data *)

(** The consumer, with [more] further pops allowed. *)
Inductive cpc :=
  | CIdle
  | CTry (more : nat)
  | CStore (more : nat) (pos : Z)     (* saw a published cell *)
  | CMove (more : nat) (pos : Z)      (* has advanced deq_pos_ *)
  | CRelease (more : nat) (pos : Z).  (* has moved the data out *)

Record MpscRing := mkRing {
  cap_ : Z;
  cells_ : list Cell;
  enq_pos_ : Z;
  deq_pos_ : Z;
  prods : gmap nat ppc;
  cons : cpc;
  claimed : list A;     (* items in the order their positions were claimed *)
  delivered : list A;   (* items popped, in order *)
}.

Definition make (capacity_pow2 : Z) : MpscRing :=
  mkRing capacity_pow2
    ((fun i => mkCell (Z.of_nat i) inhabitant) <$> List.seq 0 (Z.to_nat capacity_pow2))
    0 0 ∅ CIdle [] [].

Definition slot (s : MpscRing) (p : Z) : nat := Z.to_nat (Z.land p (cap_ s ⊟ 1)).
Definition cell (s : MpscRing) (p : Z) : Cell := cells_ s !!! slot s p.
Definition store_data (p : Z) (v : A) (s : MpscRing) : list Cell :=
  <[slot s p := mkCell (seq (cell s p)) v]> (cells_ s).
Definition store_seq (p x : Z) (s : MpscRing) : list Cell :=
  <[slot s p := mkCell x (data (cell s p))]> (cells_ s).

(** ** Producers *)

Definition producer (s : MpscRing) (i : nat) : ppc := default PIdle (prods s !! i).

Definition set_prod (i : nat) (p : ppc) (s : MpscRing) : MpscRing :=
  mkRing (cap_ s) (cells_ s) (enq_pos_ s) (deq_pos_ s) (<[i := p]> (prods s)) (cons s)
    (claimed s) (delivered s).

(** The rest of a bulk push after a success. *)
Definition next_push (rest : list A) : ppc :=
  match rest with [] => PIdle | v :: rest => PStart v rest end.

(** One step of producer [i]; when idle it starts pushing [vs]; [spurious] makes a
    compare-and-swap fail although the values agree. *)
Definition pstep (i : nat) (vs : list A) (spurious : bool) (s : MpscRing) : MpscRing :=
  match producer s i with
  | PIdle => set_prod i (next_push vs) s
  | PStart v rest => set_prod i (PLoop v rest (enq_pos_ s)) s
  | PLoop v rest pos =>
      let dif := i64 (seq (cell s pos)) - i64 pos in
      if dif =? 0 then set_prod i (PCas v rest pos) s
      else if dif <? 0 then set_prod i PIdle s
      else set_prod i (PStart v rest) s
  | PCas v rest pos =>
      if (enq_pos_ s =? pos) && negb spurious then
        mkRing (cap_ s) (cells_ s) (pos ⊞ 1) (deq_pos_ s) (<[i := PWrite v rest pos]> (prods s))
          (cons s) (claimed s ++ [v]) (delivered s)
      else set_prod i (PLoop v rest (enq_pos_ s)) s
  | PWrite v rest pos =>
      mkRing (cap_ s) (store_data pos v s) (enq_pos_ s) (deq_pos_ s)
        (<[i := PPublish v rest pos]> (prods s)) (cons s) (claimed s) (delivered s)
  | PPublish v rest pos =>
      mkRing (cap_ s) (store_seq pos (pos ⊞ 1) s) (enq_pos_ s) (deq_pos_ s)
        (<[i := next_push rest]> (prods s)) (cons s) (claimed s) (delivered s)
  end.

(** ** Consumer *)

Definition set_cons (c : cpc) (s : MpscRing) : MpscRing :=
  mkRing (cap_ s) (cells_ s) (enq_pos_ s) (deq_pos_ s) (prods s) c (claimed s) (delivered s).

(** [seq - (pos + 1) != 0] of the cell at [deq_pos_]: nothing to pop. *)
Definition empty (s : MpscRing) : bool :=
  negb (i64 (seq (cell s (deq_pos_ s))) - i64 (deq_pos_ s ⊞ 1) =? 0).

Definition cstep (max : nat) (s : MpscRing) : MpscRing :=
  match cons s with
  | CIdle => set_cons (CTry max) s
  | CTry O => set_cons CIdle s
  | CTry (S more) => if empty s then set_cons CIdle s else set_cons (CStore more (deq_pos_ s)) s
  | CStore more pos =>
      mkRing (cap_ s) (cells_ s) (enq_pos_ s) (pos ⊞ 1) (prods s) (CMove more pos)
        (claimed s) (delivered s)
  | CMove more pos =>
      mkRing (cap_ s) (cells_ s) (enq_pos_ s) (deq_pos_ s) (prods s) (CRelease more pos)
        (claimed s) (delivered s ++ [data (cell s pos)])
  | CRelease more pos =>
      mkRing (cap_ s) (store_seq pos (pos ⊞ cap_ s) s) (enq_pos_ s) (deq_pos_ s) (prods s)
        (CTry more) (claimed s) (delivered s)
  end.

Inductive move := Prod (i : nat) (vs : list A) (spurious : bool) | Cons (max : nat).

Definition step (s : MpscRing) (m : move) : MpscRing :=
  match m with Prod i vs sp => pstep i vs sp s | Cons mx => cstep mx s end.

Definition run (ms : list move) (s : MpscRing) : MpscRing := foldl step s ms.

(** ** Invariant *)

(** The position a producer has claimed and not yet published. *)
Definition owned_pos (pc : ppc) : option Z :=
  match pc with PWrite _ _ p | PPublish _ _ p => Some p | _ => None end.
Definition owns (s : MpscRing) (i : nat) (p : Z) : Prop := owned_pos (producer s i) = Some p.
Definition unowned (s : MpscRing) (p : Z) : Prop := forall i, ~ owns s i p.

Definition at_ (cells : list Cell) (k p : Z) : Cell := cells !!! Z.to_nat (p mod 2 ^ k).

Definition pc_ok (k R : Z) (s : MpscRing) (pc : ppc) : Prop :=
  match pc with
  | PIdle | PStart _ _ => True
  | PLoop _ _ pos => 0 <= pos <= enq_pos_ s
  | PCas _ _ pos => 0 <= pos <= enq_pos_ s /\ (pos = enq_pos_ s -> pos < R + 2 ^ k)
  | PWrite v _ pos => claimed s !! Z.to_nat pos = Some v
  | PPublish v _ pos => claimed s !! Z.to_nat pos = Some v /\ data (at_ (cells_ s) k pos) = v
  end.

Definition cons_ok (R : Z) (s : MpscRing) : Prop :=
  match cons s with
  | CIdle | CTry _ => deq_pos_ s = R /\ zlen (delivered s) = R
  | CStore _ pos => deq_pos_ s = R /\ zlen (delivered s) = R /\ pos = R /\ R < enq_pos_ s /\ unowned s R
  | CMove _ pos => deq_pos_ s = R + 1 /\ zlen (delivered s) = R /\ pos = R
  | CRelease _ pos => deq_pos_ s = R + 1 /\ zlen (delivered s) = R + 1 /\ pos = R
  end.

(** [R] counts the cells handed back; the positions from [R] to [R + cap_] are
    the ones the cells stand for. *)
Record inv_at (k R : Z) (s : MpscRing) : Prop := {
  mi_k : 1 <= k <= 61;
  mi_cap : cap_ s = 2 ^ k;
  mi_cells : zlen (cells_ s) = 2 ^ k;
  mi_enq : enq_pos_ s = zlen (claimed s) /\ zlen (claimed s) < 2 ^ 62;
  mi_range : 0 <= R /\ deq_pos_ s <= enq_pos_ s <= R + 2 ^ k;
  mi_prefix : delivered s `prefix_of` claimed s;
  mi_own : forall i p, owns s i p -> deq_pos_ s <= p < enq_pos_ s;
  mi_inj : forall i j p, owns s i p -> owns s j p -> i = j;
  mi_seq : forall p, R <= p < R + 2 ^ k ->
      seq (at_ (cells_ s) k p) = p \/ seq (at_ (cells_ s) k p) = p + 1;
  mi_free : forall p, enq_pos_ s <= p < R + 2 ^ k -> seq (at_ (cells_ s) k p) = p;
  mi_busy : forall i p, owns s i p -> seq (at_ (cells_ s) k p) = p;
  mi_ready : forall p, R <= p < enq_pos_ s -> unowned s p -> seq (at_ (cells_ s) k p) = p + 1;
  mi_data : forall p, zlen (delivered s) <= p < enq_pos_ s -> unowned s p ->
      claimed s !! Z.to_nat p = Some (data (at_ (cells_ s) k p));
  mi_pc : forall i, pc_ok k R s (producer s i);
  mi_cons : cons_ok R s;
}.

Lemma pow_range k : 1 <= k <= 61 -> 2 <= 2 ^ k <= 2 ^ 61.
Proof.
  intros. split; [|apply Z.pow_le_mono_r; lia].
  change 2 with (2 ^ 1) at 1. apply Z.pow_le_mono_r; lia.
Qed.

Lemma mpsc_make_inv k : 1 <= k <= 61 -> inv_at k 0 (make (2 ^ k)).
Proof.
  intros Hk. pose proof (pow_range k Hk) as Hp.
  assert (Hat : forall p, 0 <= p < 2 ^ k -> seq (at_ (cells_ (make (2 ^ k))) k p) = p).
  { intros p Hpp. unfold at_. simpl. rewrite Z.mod_small by done.
    rewrite (list_lookup_total_correct _ _ (mkCell p inhabitant)); [done|].
    apply list_lookup_fmap_Some. exists (Z.to_nat p). rewrite Z2Nat.id by lia. split; [done|].
    rewrite lookup_seq. lia. }
  constructor; try done.
  - simpl. unfold zlen. rewrite length_fmap, length_seq. lia.
  - simpl. lia.
  - intros p Hpp. left. apply Hat. lia.
  - intros p Hpp. simpl in Hpp. lia.
  - intros p Hpp. unfold zlen in Hpp. simpl in Hpp. lia.
Qed.

Section Cells.
Context (k R : Z) (s : MpscRing).
Hypothesis Hi : inv_at k R s.

Lemma mpsc_slot_eq p : 0 <= p < 2 ^ 64 -> slot s p = Z.to_nat (p mod 2 ^ k).
Proof using Hi.
  intros Hp. pose proof (mi_k _ _ _ Hi) as Hk. pose proof (pow_range k Hk).
  unfold slot. rewrite (mi_cap _ _ _ Hi), (u64_small (2 ^ k - 1)) by lia.
  by rewrite land_mask by lia.
Qed.

Lemma cell_eq p : 0 <= p < 2 ^ 64 -> cell s p = at_ (cells_ s) k p.
Proof using Hi. intros Hp. unfold cell, at_. by rewrite mpsc_slot_eq. Qed.

Lemma slot_in p : (Z.to_nat (p mod 2 ^ k) < length (cells_ s))%nat.
Proof using Hi.
  pose proof (pow_range k (mi_k _ _ _ Hi)). pose proof (mi_cells _ _ _ Hi) as Hc. unfold zlen in Hc.
  pose proof (Z.mod_pos_bound p (2 ^ k)). lia.
Qed.

Lemma at_update_eq p c : at_ (<[Z.to_nat (p mod 2 ^ k) := c]> (cells_ s)) k p = c.
Proof using Hi.
  unfold at_. rewrite list_lookup_total_insert_eq; [done|]. apply slot_in.
Qed.

Lemma at_update_ne p q c :
  p < q < p + 2 ^ k \/ q < p < q + 2 ^ k ->
  at_ (<[Z.to_nat (p mod 2 ^ k) := c]> (cells_ s)) k q = at_ (cells_ s) k q.
Proof using Hi.
  intros Hpq. pose proof (pow_range k (mi_k _ _ _ Hi)).
  unfold at_. rewrite list_lookup_total_insert_ne; [done|].
  pose proof (Z.mod_pos_bound p (2 ^ k)). pose proof (Z.mod_pos_bound q (2 ^ k)). intros Heq.
  destruct Hpq; [apply (mod_distinct p q (2 ^ k))|apply (mod_distinct q p (2 ^ k))]; lia.
Qed.

End Cells.

(** ** The producers' steps *)

Lemma producer_insert s s' i pc j :
  prods s' = <[i := pc]> (prods s) -> producer s' j = if decide (i = j) then pc else producer s j.
Proof.
  intros Hp. unfold producer. rewrite Hp. case_decide; subst.
  - by rewrite lookup_insert_eq.
  - by rewrite lookup_insert_ne.
Qed.

Lemma owns_insert s s' i pc j p :
  prods s' = <[i := pc]> (prods s) ->
  owns s' j p <-> (i = j /\ owned_pos pc = Some p) \/ (i <> j /\ owns s j p).
Proof.
  intros Hp. unfold owns. rewrite (producer_insert s s' i pc j Hp). case_decide; tauto.
Qed.

Lemma deq_range k R s :
  inv_at k R s -> R <= deq_pos_ s <= R + 1 /\ R <= zlen (delivered s) <= deq_pos_ s.
Proof. intros Hi. pose proof (mi_cons _ _ _ Hi) as Hc. unfold cons_ok in Hc. destruct (cons s); lia. Qed.

(** A producer that owns nothing moves to a state that owns nothing. *)
Lemma set_prod_inv k R s i pc :
  inv_at k R s -> owned_pos (producer s i) = None -> owned_pos pc = None -> pc_ok k R s pc ->
  inv_at k R (set_prod i pc s).
Proof.
  intros Hi Hno Hpc Hok. set (s' := set_prod i pc s).
  assert (Hp : prods s' = <[i := pc]> (prods s)) by done.
  assert (Howns : forall j p, owns s' j p <-> owns s j p).
  { intros j p. rewrite (owns_insert s s' i pc j p Hp), Hpc. split.
    - intros [[_ ?]|[_ ?]]; done.
    - intros Ho. right. split; [|done]. intros ->. unfold owns in Ho. congruence. }
  assert (Hun : forall p, unowned s' p <-> unowned s p).
  { intros p. unfold unowned. split; intros Hu j Ho; apply (Hu j), Howns, Ho. }
  destruct Hi. constructor; try done.
  - intros j p Ho. by apply mi_own0 with j, Howns.
  - intros j j' p Ho Ho'. apply mi_inj0 with p; by apply Howns.
  - intros j p Ho. by apply mi_busy0 with j, Howns.
  - intros p Hpp Hu. apply mi_ready0, Hun; done.
  - intros p Hpp Hu. apply mi_data0, Hun; done.
  - intros j. rewrite (producer_insert s s' i pc j Hp). case_decide; [done|apply mi_pc0].
  - unfold cons_ok in *. simpl. destruct (cons s); try done.
    destruct mi_cons0 as (? & ? & ? & ? & Hu). split_and!; try done. by apply Hun.
Qed.

Lemma mpsc_loop_step_inv k R s i v rest pos :
  inv_at k R s -> producer s i = PLoop v rest pos ->
  inv_at k R (let dif := i64 (seq (cell s pos)) - i64 pos in
    if dif =? 0 then set_prod i (PCas v rest pos) s
    else if dif <? 0 then set_prod i PIdle s
    else set_prod i (PStart v rest) s).
Proof.
  intros Hi Hpc. pose proof (mi_pc _ _ _ Hi i) as Hok. rewrite Hpc in Hok. simpl in Hok.
  assert (Hno : owned_pos (producer s i) = None) by (by rewrite Hpc).
  pose proof (mi_enq _ _ _ Hi) as [He Hb]. pose proof (mi_range _ _ _ Hi) as (HR & Hde & HeR).
  pose proof (pow_range k (mi_k _ _ _ Hi)) as Hpow.
  rewrite (cell_eq k R s Hi) by lia. cbv zeta.
  destruct (Z.eqb_spec (i64 (seq (at_ (cells_ s) k pos)) - i64 pos) 0) as [Hd|_].
  2:{ case_test; by apply set_prod_inv. }
  apply set_prod_inv; try done. split; [done|]. intros Heq.
  destruct (decide (pos < R + 2 ^ k)) as [|Hge]; [done|].
  assert (Hpos : pos = R + 2 ^ k) by lia.
  assert (Hat : at_ (cells_ s) k pos = at_ (cells_ s) k R).
  { unfold at_. do 2 f_equal. rewrite Hpos, <- (Z.mul_1_l (2 ^ k)) at 1. apply Z.mod_add. lia. }
  rewrite Hat in Hd. destruct (mi_seq _ _ _ Hi R) as [Hs|Hs]; [lia| |];
    rewrite Hs, !i64_small in Hd by lia; lia.
Qed.

Lemma cas_step_inv k R s i v rest pos :
  inv_at k R s -> producer s i = PCas v rest pos -> enq_pos_ s = pos -> zlen (claimed s) + 1 < 2 ^ 62 ->
  inv_at k R (mkRing (cap_ s) (cells_ s) (pos ⊞ 1) (deq_pos_ s) (<[i := PWrite v rest pos]> (prods s))
          (cons s) (claimed s ++ [v]) (delivered s)).
Proof.
  intros Hi Hpc Hpos Hb. set (s' := mkRing _ _ _ _ _ _ _ _).
  pose proof (mi_pc _ _ _ Hi i) as Hok. rewrite Hpc in Hok. destruct Hok as [Hok Hroom].
  pose proof (mi_enq _ _ _ Hi) as [He _]. pose proof (mi_range _ _ _ Hi) as (HR & Hde & HeR).
  assert (Hp : prods s' = <[i := PWrite v rest pos]> (prods s)) by done.
  assert (Hno : forall p, ~ owns s i p) by (intros p Ho; unfold owns in Ho; rewrite Hpc in Ho; done).
  assert (Howns : forall j p, owns s' j p <-> (i = j /\ p = pos) \/ owns s j p).
  { intros j p. rewrite (owns_insert s s' i _ j p Hp). simpl. split.
    - intros [[? [= <-]]|[? ?]]; [by left|by right].
    - intros [[-> ->]|Ho]; [by left|]. right. split; [|done]. intros ->. by apply (Hno p). }
  assert (Hun : forall p, unowned s' p -> p <> pos /\ unowned s p).
  { intros p Hu. split.
    - intros ->. apply (Hu i), Howns. by left.
    - intros j Ho. apply (Hu j), Howns. by right. }
  assert (Henq : enq_pos_ s' = pos + 1) by (simpl; rewrite u64_small; lia).
  assert (Hlen : length (claimed s) = Z.to_nat pos) by (unfold zlen in He; lia).
  assert (Hlk : forall p, 0 <= p < pos -> claimed s' !! Z.to_nat p = claimed s !! Z.to_nat p).
  { intros p Hpp. simpl. rewrite lookup_app_l by lia. done. }
  destruct (deq_range k R s Hi) as [Hdr _].
  assert (Hcl : zlen (claimed s') = pos + 1) by (simpl; rewrite zlen_app; unfold zlen at 2; simpl; lia).
  destruct Hi. constructor; try done; rewrite ?Henq.
  - by rewrite Hcl; lia.
  - simpl. lia.
  - simpl. by apply prefix_app_r.
  - intros j p Ho. apply Howns in Ho as [[_ ->]|Ho]; [simpl; lia|]. specialize (mi_own0 _ _ Ho). simpl. lia.
  - intros j j' p Ho Ho'. apply Howns in Ho as [[-> ->]|Ho], Ho' as [[-> ?]|Ho']; try done.
    + specialize (mi_own0 _ _ Ho'). lia.
    + subst p. specialize (mi_own0 _ _ Ho). lia.
    + by apply mi_inj0 with p.
  - intros p Hpp. apply mi_free0. lia.
  - intros j p Ho. apply Howns in Ho as [[_ ->]|Ho]; [apply mi_free0; lia|by apply mi_busy0 with j].
  - intros p Hpp Hu. apply Hun in Hu as [Hne Hu]. apply mi_ready0; [lia|done].
  - intros p Hpp Hu. apply Hun in Hu as [Hne Hu]. simpl in Hpp. pose proof (zlen_nonneg (delivered s)).
    rewrite Hlk by lia. apply mi_data0; [lia|done].
  - intros j. rewrite (producer_insert s s' i _ j Hp). case_decide as Hj.
    + simpl. rewrite lookup_app_r by lia. rewrite Hlen, Nat.sub_diag. done.
    + specialize (mi_pc0 j). specialize (mi_own0 j). unfold owns in mi_own0.
      destruct (producer s j); cbn [pc_ok owned_pos] in *; rewrite ?Henq; try done; try lia.
      * specialize (mi_own0 _ eq_refl). by rewrite Hlk by lia.
      * specialize (mi_own0 _ eq_refl). by rewrite Hlk by lia.
  - unfold cons_ok in *. simpl. destruct (cons s); try done.
    destruct mi_cons0 as (? & ? & ? & ? & Hu). split_and!; try done; [simpl; wrap_simpl; lia|].
    intros j Ho. apply Howns in Ho as [[_ ->]|Ho]; [lia|by apply (Hu j)].
Qed.

(** Positions of the window other than [p] keep their cell. *)
Lemma window_ne k R s p q c :
  inv_at k R s -> R <= p < R + 2 ^ k -> R <= q < R + 2 ^ k -> p <> q ->
  at_ (<[Z.to_nat (p mod 2 ^ k) := c]> (cells_ s)) k q = at_ (cells_ s) k q.
Proof. intros Hi Hp Hq Hne. apply (at_update_ne k R s Hi). lia. Qed.

Lemma write_step_inv k R s i v rest pos :
  inv_at k R s -> producer s i = PWrite v rest pos ->
  inv_at k R (mkRing (cap_ s) (store_data pos v s) (enq_pos_ s) (deq_pos_ s)
        (<[i := PPublish v rest pos]> (prods s)) (cons s) (claimed s) (delivered s)).
Proof.
  intros Hi Hpc. set (s' := mkRing _ _ _ _ _ _ _ _).
  pose proof (mi_pc _ _ _ Hi i) as Hok. rewrite Hpc in Hok. simpl in Hok.
  assert (Hown : owns s i pos) by (unfold owns; by rewrite Hpc).
  pose proof (mi_own _ _ _ Hi i pos Hown) as Hpos. pose proof (mi_enq _ _ _ Hi) as [He Hb].
  pose proof (mi_range _ _ _ Hi) as (HR & Hde & HeR). destruct (deq_range k R s Hi) as [Hdr Hdd].
  assert (Hp : prods s' = <[i := PPublish v rest pos]> (prods s)) by done.
  assert (Howns : forall j p, owns s' j p <-> owns s j p).
  { intros j p. rewrite (owns_insert s s' i _ j p Hp). simpl. split.
    - intros [[<- [= <-]]|[_ ?]]; done.
    - intros Ho. destruct (decide (i = j)) as [<-|]; [|by right]. left. split; [done|].
      unfold owns in Ho. by rewrite Hpc in Ho. }
  assert (Hun : forall p, unowned s' p <-> unowned s p).
  { intros p. unfold unowned. split; intros Hu j Ho; apply (Hu j), Howns, Ho. }
  assert (Hcells : cells_ s' = <[Z.to_nat (pos mod 2 ^ k) := mkCell (seq (at_ (cells_ s) k pos)) v]> (cells_ s)).
  { simpl. unfold store_data. by rewrite (mpsc_slot_eq k R s Hi), (cell_eq k R s Hi) by lia. }
  assert (Hsq : forall p, R <= p < R + 2 ^ k -> seq (at_ (cells_ s') k p) = seq (at_ (cells_ s) k p)).
  { intros p Hpp. rewrite Hcells. destruct (decide (pos = p)) as [<-|Hne].
    - by rewrite (at_update_eq k R s Hi).
    - rewrite (window_ne k R s) by (try done; lia). done. }
  assert (Hne : forall p, R <= p < R + 2 ^ k -> p <> pos -> at_ (cells_ s') k p = at_ (cells_ s) k p).
  { intros p Hpp Hne. rewrite Hcells. apply (window_ne k R s); try done; lia. }
  pose proof Hi as Hi0. destruct Hi. constructor; try done.
  - rewrite Hcells. unfold zlen in *. by rewrite length_insert.
  - intros j p Ho. by apply mi_own0 with j, Howns.
  - intros j j' p Ho Ho'. apply mi_inj0 with p; by apply Howns.
  - intros p Hpp. rewrite Hsq by done. by apply mi_seq0.
  - intros p Hpp. simpl in Hpp. rewrite Hsq by lia. apply mi_free0. lia.
  - intros j p Ho. apply Howns in Ho. specialize (mi_own0 _ _ Ho). rewrite Hsq by lia. by apply mi_busy0 with j.
  - intros p Hpp Hu. simpl in Hpp. rewrite Hsq by lia. by apply mi_ready0, Hun.
  - intros p Hpp Hu. apply Hun in Hu. simpl in Hpp. rewrite Hne; [by apply mi_data0|lia|].
    intros ->. by apply (Hu i).
  - intros j. rewrite (producer_insert s s' i _ j Hp). case_decide as Hj.
    + split; [done|]. rewrite Hcells, (at_update_eq k R s Hi0). done.
    + specialize (mi_pc0 j). destruct (producer s j) as [| | | | |v' rest' pos'] eqn:Hj'; try done.
      destruct mi_pc0 as [? ?]. split; [done|].
      assert (Hoj : owns s j pos') by (unfold owns; by rewrite Hj'). specialize (mi_own0 _ _ Hoj).
      rewrite Hne; [done|lia|]. intros ->. by apply Hj, mi_inj0 with pos.
  - unfold cons_ok in *. simpl. destruct (cons s); try done.
    destruct mi_cons0 as (? & ? & ? & ? & Hu). split_and!; try done. by apply Hun.
Qed.

Lemma publish_step_inv k R s i v rest pos :
  inv_at k R s -> producer s i = PPublish v rest pos ->
  inv_at k R (mkRing (cap_ s) (store_seq pos (pos ⊞ 1) s) (enq_pos_ s) (deq_pos_ s)
        (<[i := next_push rest]> (prods s)) (cons s) (claimed s) (delivered s)).
Proof.
  intros Hi Hpc. set (s' := mkRing _ _ _ _ _ _ _ _).
  pose proof (mi_pc _ _ _ Hi i) as Hok. rewrite Hpc in Hok. destruct Hok as [Hcl Hdat].
  assert (Hown : owns s i pos) by (unfold owns; by rewrite Hpc).
  pose proof (mi_own _ _ _ Hi i pos Hown) as Hpos. pose proof (mi_enq _ _ _ Hi) as [He Hb].
  pose proof (mi_range _ _ _ Hi) as (HR & Hde & HeR). destruct (deq_range k R s Hi) as [Hdr Hdd].
  assert (Hp : prods s' = <[i := next_push rest]> (prods s)) by done.
  assert (Hnp : owned_pos (next_push rest) = None) by (by destruct rest).
  assert (Howns : forall j p, owns s' j p <-> p <> pos /\ owns s j p).
  { intros j p. rewrite (owns_insert s s' i _ j p Hp), Hnp. split.
    - intros [[_ ?]|[Hj Ho]]; [done|]. split; [|done]. intros ->. by apply Hj, (mi_inj _ _ _ Hi) with pos.
    - intros [Hne Ho]. right. split; [|done]. intros ->. unfold owns in *. congruence. }
  assert (Hun : forall p, unowned s' p -> p = pos \/ unowned s p).
  { intros p Hu. destruct (decide (p = pos)); [by left|right]. intros j Ho. by apply (Hu j), Howns. }
  assert (Hcells : cells_ s' = <[Z.to_nat (pos mod 2 ^ k) := mkCell (pos + 1) (data (at_ (cells_ s) k pos))]> (cells_ s)).
  { simpl. unfold store_seq. rewrite (mpsc_slot_eq k R s Hi), (cell_eq k R s Hi) by lia.
    by rewrite u64_small by lia. }
  assert (Heq : at_ (cells_ s') k pos = mkCell (pos + 1) v).
  { rewrite Hcells, (at_update_eq k R s Hi). by rewrite Hdat. }
  assert (Hne : forall p, R <= p < R + 2 ^ k -> p <> pos -> at_ (cells_ s') k p = at_ (cells_ s) k p).
  { intros p Hpp Hne. rewrite Hcells. apply (window_ne k R s); try done; lia. }
  destruct Hi. constructor; try done.
  - rewrite Hcells. unfold zlen in *. by rewrite length_insert.
  - intros j p Ho. by apply mi_own0 with j, Howns.
  - intros j j' p Ho Ho'. apply Howns in Ho as [? Ho], Ho' as [? Ho']. by apply mi_inj0 with p.
  - intros p Hpp. destruct (decide (p = pos)) as [->|]; [rewrite Heq; by right|].
    rewrite Hne by done. by apply mi_seq0.
  - intros p Hpp. simpl in Hpp. rewrite Hne by lia. apply mi_free0. lia.
  - intros j p Ho. apply Howns in Ho as [Hpn Ho]. specialize (mi_own0 _ _ Ho).
    rewrite Hne by (try done; lia). by apply mi_busy0 with j.
  - intros p Hpp Hu. simpl in Hpp. destruct (decide (p = pos)) as [->|Hpn]; [by rewrite Heq|].
    rewrite Hne by (try done; lia). destruct (Hun p Hu); [done|]. by apply mi_ready0.
  - intros p Hpp Hu. simpl in Hpp. destruct (decide (p = pos)) as [->|Hpn]; [by rewrite Heq|].
    rewrite Hne by (try done; lia). destruct (Hun p Hu); [done|]. by apply mi_data0.
  - intros j. rewrite (producer_insert s s' i _ j Hp). case_decide as Hj; [by destruct rest|].
    specialize (mi_pc0 j). destruct (producer s j) as [| | | | |v' rest' pos'] eqn:Hj'; try done.
    destruct mi_pc0 as [? ?]. split; [done|].
    assert (Hoj : owns s j pos') by (unfold owns; by rewrite Hj'). specialize (mi_own0 _ _ Hoj).
    rewrite Hne; [done|lia|]. intros ->. by apply Hj, mi_inj0 with pos.
  - unfold cons_ok in *. simpl. destruct (cons s); try done.
    destruct mi_cons0 as (? & ? & ? & ? & Hu). split_and!; try done.
    intros j Ho. apply Howns in Ho as [_ Ho]. by apply (Hu j).
Qed.

Lemma mpsc_pstep_inv k R s i vs sp :
  inv_at k R s -> zlen (claimed s) + 1 < 2 ^ 62 -> inv_at k R (pstep i vs sp s).
Proof.
  intros Hi Hb. pose proof (zlen_nonneg (claimed s)). pose proof (mi_enq _ _ _ Hi) as [He _].
  unfold pstep. destruct (producer s i) as [|v rest|v rest pos|v rest pos|v rest pos|v rest pos] eqn:Hpc.
  - apply set_prod_inv; try done; [by rewrite Hpc|by destruct vs|by destruct vs].
  - apply set_prod_inv; try done; [by rewrite Hpc|]. simpl. lia.
  - by apply mpsc_loop_step_inv.
  - destruct (Z.eqb_spec (enq_pos_ s) pos) as [Heq|Hne]; [destruct sp|]; simpl.
    + apply set_prod_inv; try done; [by rewrite Hpc|]. simpl. lia.
    + by apply cas_step_inv.
    + apply set_prod_inv; try done; [by rewrite Hpc|]. simpl. lia.
  - by apply write_step_inv.
  - by apply publish_step_inv with v.
Qed.

(** ** The consumer's steps *)

Lemma set_cons_inv k R s c :
  inv_at k R s -> cons_ok R (set_cons c s) -> inv_at k R (set_cons c s).
Proof. intros Hi Hc. destruct Hi. constructor; try done. Qed.

Lemma nonempty_ready k R s :
  inv_at k R s -> deq_pos_ s = R -> empty s = false -> R < enq_pos_ s /\ unowned s R.
Proof.
  intros Hi Hd Hem. pose proof (mi_enq _ _ _ Hi) as [He Hb].
  pose proof (mi_range _ _ _ Hi) as (HR & Hde & HeR). pose proof (pow_range k (mi_k _ _ _ Hi)) as Hpow.
  assert (Hs : seq (at_ (cells_ s) k R) = R + 1).
  { unfold empty in Hem. rewrite negb_false_iff, Z.eqb_eq, (cell_eq k R s Hi), Hd in Hem by lia.
    wrap_simpl_in Hem. destruct (mi_seq _ _ _ Hi R) as [Hs|Hs]; [lia| |done].
    rewrite Hs, !i64_small in Hem by lia. lia. }
  split.
  - destruct (decide (R < enq_pos_ s)) as [|Hge]; [done|].
    rewrite (mi_free _ _ _ Hi R) in Hs by lia. lia.
  - intros i Ho. rewrite (mi_busy _ _ _ Hi i R Ho) in Hs. lia.
Qed.

Lemma store_step_inv k R s more pos :
  inv_at k R s -> cons s = CStore more pos ->
  inv_at k R (mkRing (cap_ s) (cells_ s) (enq_pos_ s) (pos ⊞ 1) (prods s) (CMove more pos)
        (claimed s) (delivered s)).
Proof.
  intros Hi Hc. pose proof (mi_cons _ _ _ Hi) as Hok. unfold cons_ok in Hok. rewrite Hc in Hok.
  destruct Hok as (Hd & Hdel & -> & Hlt & Hu). pose proof (mi_enq _ _ _ Hi) as [He Hb].
  pose proof (mi_range _ _ _ Hi) as (HR & Hde & HeR).
  rewrite u64_small by lia. destruct Hi. constructor; try done; simpl; try lia.
  - intros i p Ho. change (owns s i p) in Ho. specialize (mi_own0 _ _ Ho).
    assert (p <> R) by (intros ->; by apply (Hu i)). lia.
Qed.

Lemma move_step_inv k R s more pos :
  inv_at k R s -> cons s = CMove more pos ->
  inv_at k R (mkRing (cap_ s) (cells_ s) (enq_pos_ s) (deq_pos_ s) (prods s) (CRelease more pos)
        (claimed s) (delivered s ++ [data (cell s pos)])).
Proof.
  intros Hi Hc. pose proof (mi_cons _ _ _ Hi) as Hok. unfold cons_ok in Hok. rewrite Hc in Hok.
  destruct Hok as (Hd & Hdel & ->). pose proof (mi_enq _ _ _ Hi) as [He Hb].
  pose proof (mi_range _ _ _ Hi) as (HR & Hde & HeR).
  assert (Hx : claimed s !! Z.to_nat R = Some (data (cell s R))).
  { rewrite (cell_eq k R s Hi) by lia. apply (mi_data _ _ _ Hi); [lia|].
    intros i Ho. pose proof (mi_own _ _ _ Hi i R Ho). lia. }
  assert (Hz : zlen (delivered s ++ [data (cell s R)]) = R + 1) by (rewrite zlen_app; unfold zlen at 2; simpl; lia).
  destruct Hi. constructor; try done.
  - simpl. destruct mi_prefix0 as [r Hr]. rewrite Hr in Hx |- *. unfold zlen in Hdel.
    rewrite lookup_app_r in Hx by lia. replace (_ - _)%nat with 0%nat in Hx by lia.
    destruct r as [|x r]; [done|]. injection Hx as ->. exists r. by rewrite <- app_assoc.
  - intros p Hpp Hu. simpl in Hpp. rewrite Hz in Hpp. apply mi_data0; [lia|done].
Qed.

Lemma release_step_inv k R s more pos :
  inv_at k R s -> cons s = CRelease more pos ->
  inv_at k (R + 1) (mkRing (cap_ s) (store_seq pos (pos ⊞ cap_ s) s) (enq_pos_ s) (deq_pos_ s) (prods s)
        (CTry more) (claimed s) (delivered s)).
Proof.
  intros Hi Hc. pose proof (mi_cons _ _ _ Hi) as Hok. unfold cons_ok in Hok. rewrite Hc in Hok.
  destruct Hok as (Hd & Hdel & ->). pose proof (mi_enq _ _ _ Hi) as [He Hb].
  pose proof (mi_range _ _ _ Hi) as (HR & Hde & HeR). pose proof (pow_range k (mi_k _ _ _ Hi)) as Hpow.
  set (s' := mkRing _ _ _ _ _ _ _ _).
  assert (Hcells : cells_ s' = <[Z.to_nat (R mod 2 ^ k) := mkCell (R + 2 ^ k) (data (at_ (cells_ s) k R))]> (cells_ s)).
  { simpl. unfold store_seq. rewrite (mpsc_slot_eq k R s Hi), (cell_eq k R s Hi), (mi_cap _ _ _ Hi) by lia.
    by rewrite u64_small by lia. }
  assert (Hlap : seq (at_ (cells_ s') k (R + 2 ^ k)) = R + 2 ^ k).
  { assert (Hm : at_ (cells_ s') k (R + 2 ^ k) = at_ (cells_ s') k R).
    { unfold at_. do 2 f_equal. rewrite <- (Z.mul_1_l (2 ^ k)) at 1. apply Z.mod_add. lia. }
    by rewrite Hm, Hcells, (at_update_eq k R s Hi). }
  assert (Hne : forall p, R < p < R + 2 ^ k -> at_ (cells_ s') k p = at_ (cells_ s) k p).
  { intros p Hpp. rewrite Hcells. apply (at_update_ne k R s Hi). lia. }
  assert (Hown : forall i p, owns s i p -> R < p < R + 2 ^ k).
  { intros i p Ho. pose proof (mi_own _ _ _ Hi i p Ho). lia. }
  destruct Hi. constructor; try done.
  - rewrite Hcells. unfold zlen in *. by rewrite length_insert.
  - simpl. lia.
  - intros p Hpp. destruct (decide (p = R + 2 ^ k)) as [->|]; [by left|].
    rewrite Hne by lia. apply mi_seq0. lia.
  - intros p Hpp. simpl in Hpp. destruct (decide (p = R + 2 ^ k)) as [->|]; [done|].
    rewrite Hne by lia. apply mi_free0. lia.
  - intros i p Ho. rewrite Hne by (by apply (Hown i)). by apply mi_busy0 with i.
  - intros p Hpp Hu. simpl in Hpp. rewrite Hne by lia. apply mi_ready0; [lia|done].
  - intros p Hpp Hu. simpl in Hpp. rewrite Hne by lia. apply mi_data0; [lia|done].
  - intros i. specialize (mi_pc0 i). change (producer s' i) with (producer s i).
    destruct (producer s i) as [| | | | |v rest pos'] eqn:Hpi; try done.
    + destruct mi_pc0 as [? Hr]. split; [done|]. intros Hp. specialize (Hr Hp). lia.
    + destruct mi_pc0 as [? ?]. split; [done|]. rewrite Hne; [done|].
      apply (Hown i). unfold owns. by rewrite Hpi.
Qed.

Lemma mpsc_cstep_inv k R s mx : inv_at k R s -> exists R', inv_at k R' (cstep mx s).
Proof.
  intros Hi. pose proof (mi_cons _ _ _ Hi) as Hok. unfold cons_ok in Hok. unfold cstep.
  destruct (cons s) as [|[|more]|more pos|more pos|more pos] eqn:Hc.
  - exists R. by apply set_cons_inv.
  - exists R. by apply set_cons_inv.
  - exists R. destruct (empty s) eqn:Hem; [by apply set_cons_inv|].
    destruct Hok as [Hd Hdel]. destruct (nonempty_ready k R s Hi Hd Hem) as [Hlt Hu].
    apply set_cons_inv; [done|]. unfold cons_ok. simpl. split_and!; try done.
  - exists R. by apply store_step_inv.
  - exists R. by apply move_step_inv.
  - exists (R + 1). by apply release_step_inv.
Qed.

Lemma claimed_step s m : zlen (claimed (step s m)) <= zlen (claimed s) + 1.
Proof.
  destruct m as [i vs sp|mx]; simpl.
  - unfold pstep. destruct (producer s i); simpl; try lia; repeat case_test; simpl; try lia.
    rewrite zlen_app. unfold zlen at 2. simpl. lia.
  - unfold cstep. destruct (cons s) as [|[|]| | |]; simpl; try lia. case_test; simpl; lia.
Qed.

Lemma mpsc_run_inv k ms s :
  (exists R, inv_at k R s) -> zlen (claimed s) + zlen ms < 2 ^ 62 -> exists R, inv_at k R (run ms s).
Proof.
  revert s. induction ms as [|m ms IH]; intros s [R Hi] Hb; [by exists R|].
  pose proof (claimed_step s m) as Hc. pose proof (zlen_nonneg ms).
  assert (zlen (m :: ms) = zlen ms + 1) by (unfold zlen; simpl; lia).
  apply IH; [|simpl in *; lia]. destruct m as [i vs sp|mx]; simpl.
  - exists R. apply mpsc_pstep_inv; [done|lia].
  - by apply mpsc_cstep_inv with R.
Qed.

(** A cell is never behind a position that is not beyond the window. *)
Lemma seq_not_behind k R s pos :
  inv_at k R s -> 0 <= pos < R + 2 ^ k -> pos <= seq (at_ (cells_ s) k pos) <= R + 2 ^ k.
Proof.
  intros Hi Hp. pose proof (pow_range k (mi_k _ _ _ Hi)) as Hpow.
  set (q := pos + ((R + 2 ^ k - 1 - pos) / 2 ^ k) * 2 ^ k).
  assert (Hq : R <= q < R + 2 ^ k /\ pos <= q).
  { unfold q. pose proof (Z.div_mod (R + 2 ^ k - 1 - pos) (2 ^ k)).
    pose proof (Z.mod_pos_bound (R + 2 ^ k - 1 - pos) (2 ^ k)).
    pose proof (Z.div_pos (R + 2 ^ k - 1 - pos) (2 ^ k)). nia. }
  assert (Hat : at_ (cells_ s) k pos = at_ (cells_ s) k q).
  { unfold at_, q. do 2 f_equal. symmetry. apply Z.mod_add. lia. }
  rewrite Hat. destruct (mi_seq _ _ _ Hi q); lia.
Qed.

(** ** Properties *)

(** C9: under every interleaving of any number of producers with the consumer,
    and with compare-and-swaps failing spuriously at will, the popped items are a
    prefix of the items in the order their positions were claimed (nothing lost,
    duplicated, invented or reordered) and no more than [cap_] items are
    outstanding.  The capacity is a power of two of at least two, and fewer than
    2^62 steps are taken. *)
Theorem mpsc_ring_is_fifo k ms :
  1 <= k <= 61 -> zlen ms < 2 ^ 62 ->
  let s := run ms (make (2 ^ k)) in
  delivered s `prefix_of` claimed s /\ zlen (claimed s) <= zlen (delivered s) + 2 ^ k.
Proof.
  intros Hk Hm s. destruct (mpsc_run_inv k ms (make (2 ^ k))) as [R Hi].
  { exists 0. by apply mpsc_make_inv. }
  { done. }
  fold s in Hi. pose proof (mi_enq _ _ _ Hi) as [He _]. pose proof (mi_range _ _ _ Hi) as (_ & _ & HeR).
  destruct (deq_range k R s Hi) as [_ Hdd]. split; [apply (mi_prefix _ _ _ Hi)|lia].
Qed.

(** the plain accesses to a cell's data never conflict: two producers that
    have claimed positions write different cells, and neither is the cell the
    consumer is moving the data out of. *)
Theorem mpsc_cells_are_exclusive k ms i j p q :
  1 <= k <= 61 -> zlen ms < 2 ^ 62 ->
  let s := run ms (make (2 ^ k)) in
  owns s i p -> (i <> j -> owns s j q -> slot s p <> slot s q) /\
  (forall more pos, cons s = CMove more pos -> slot s p <> slot s pos).
Proof.
  intros Hk Hm s Hop. destruct (mpsc_run_inv k ms (make (2 ^ k))) as [R Hi].
  { exists 0. by apply mpsc_make_inv. }
  { done. }
  fold s in Hi. pose proof (mi_enq _ _ _ Hi) as [He Hb]. pose proof (mi_range _ _ _ Hi) as (HR & _ & HeR).
  destruct (deq_range k R s Hi) as [Hdr _]. pose proof (pow_range k Hk).
  assert (Hslot : forall x y, R <= x < R + 2 ^ k -> R <= y < R + 2 ^ k -> x < enq_pos_ s -> y < enq_pos_ s ->
                  x <> y -> slot s x <> slot s y).
  { intros x y Hx Hy Hxe Hye Hne. rewrite !(mpsc_slot_eq k R s Hi) by lia.
    pose proof (Z.mod_pos_bound x (2 ^ k)). pose proof (Z.mod_pos_bound y (2 ^ k)). intros Heq.
    destruct (decide (x < y)); [apply (mod_distinct x y (2 ^ k))|apply (mod_distinct y x (2 ^ k))]; lia. }
  pose proof (mi_own _ _ _ Hi i p Hop) as Hp. split.
  - intros Hij Hoq. pose proof (mi_own _ _ _ Hi j q Hoq). apply Hslot; try lia.
    intros ->. by apply Hij, (mi_inj _ _ _ Hi) with q.
  - intros more pos Hc. pose proof (mi_cons _ _ _ Hi) as Hok. unfold cons_ok in Hok. rewrite Hc in Hok.
    destruct Hok as (Hd & _ & ->). apply Hslot; lia.
Qed.

(** a push reports a full ring only when the ring is full: if the step of a
    producer makes it give up, then all [cap_] cells are claimed and not handed
    back; at most one of them has already been moved out by a consumer that is
    about to hand it back. *)
Theorem mpsc_full_means_full k ms i v rest pos vs sp :
  1 <= k <= 61 -> zlen ms < 2 ^ 62 ->
  let s := run ms (make (2 ^ k)) in
  producer s i = PLoop v rest pos -> producer (pstep i vs sp s) i = PIdle ->
  2 ^ k - 1 <= zlen (claimed s) - zlen (delivered s) /\
  (cons s = CIdle -> zlen (claimed s) - zlen (delivered s) = 2 ^ k).
Proof.
  intros Hk Hm s Hpc Hidle. destruct (mpsc_run_inv k ms (make (2 ^ k))) as [R Hi].
  { exists 0. by apply mpsc_make_inv. }
  { done. }
  fold s in Hi. pose proof (mi_enq _ _ _ Hi) as [He Hb]. pose proof (mi_range _ _ _ Hi) as (HR & Hde & HeR).
  destruct (deq_range k R s Hi) as [Hdr Hdd]. pose proof (pow_range k Hk) as Hpow.
  pose proof (mi_pc _ _ _ Hi i) as Hok. rewrite Hpc in Hok. simpl in Hok.
  assert (Hfull : enq_pos_ s = R + 2 ^ k).
  { destruct (decide (R + 2 ^ k <= pos)) as [|Hin]; [lia|]. exfalso.
    pose proof (seq_not_behind k R s pos Hi) as Hs.
    unfold pstep in Hidle. rewrite Hpc, (cell_eq k R s Hi), !i64_small in Hidle by lia.
    repeat case_test_in Hidle; try lia; unfold producer in Hidle; simpl in Hidle;
      by rewrite lookup_insert_eq in Hidle. }
  split; [lia|]. intros Hc. pose proof (mi_cons _ _ _ Hi) as Hco. unfold cons_ok in Hco.
  rewrite Hc in Hco. lia.
Qed.

(** Two pushes by producer 0, run to completion one after the other. *)
Definition two_pushes (a b : A) : list move :=
  replicate 6 (Prod 0 [a] false) ++ replicate 6 (Prod 0 [b] false).

(** with a capacity of one, which is a power of two, the ring does not work:
    a second push succeeds while the first item has not been popped, the one cell
    is overwritten, and from then on no sequence of consumer steps pops anything. *)
Theorem mpsc_capacity_one_wedges a b ms :
  Forall (fun m => match m with Cons _ => True | _ => False end) ms ->
  let s := run ms (run (two_pushes a b) (make 1)) in
  claimed s = [a; b] /\ delivered s = [].
Proof.
  intros Hms s. set (s0 := run (two_pushes a b) (make 1)) in s.
  assert (H0 : claimed s0 = [a; b] /\ delivered s0 = [] /\ empty s0 = true /\ cons s0 = CIdle) by (vm_compute; auto).
  subst s. clearbody s0. destruct H0 as (Hcl & Hde & Hem & Hci).
  replace s0 with (set_cons CIdle s0) by (destruct s0; simpl in *; by subst).
  assert (Hc : CIdle = CIdle \/ exists n, CIdle = CTry n) by (by left).
  revert Hc. generalize CIdle at 1 3 4 5 as c.
  induction Hms as [|m ms Hm Hms IH]; intros c Hc; [done|].
  destruct m as [|mx]; [done|]. simpl. unfold cstep. simpl.
  change (empty (set_cons c s0)) with (empty s0). rewrite Hem.
  destruct Hc as [->|[[|n] ->]]; apply IH; eauto.
Qed.

End Ring.

Arguments MpscRing : clear implicits.
Arguments move : clear implicits.

(** Two producers claim positions 0 and 1; the second publishes first. *)
Definition demo_moves : list (move Z) :=
  [Prod 0 [10] false; Prod 1 [20] false; Prod 0 [] false; Prod 1 [] false;
   Prod 0 [] false; Prod 1 [] false; Prod 0 [] false; Prod 1 [] false;
   Prod 1 [] false; Prod 1 [] false; Prod 1 [] false].

Lemma mpsc_ring_is_fifo_witness :
  delivered (run demo_moves (make 2)) `prefix_of` claimed (run demo_moves (make 2)).
Proof. apply (mpsc_ring_is_fifo 1 demo_moves); vm_compute; [split; discriminate|reflexivity]. Defined.

Lemma mpsc_cells_are_exclusive_witness :
  slot (run demo_moves (make 2)) 0 <> slot (run demo_moves (make 2)) 1.
Proof.
  destruct (mpsc_cells_are_exclusive 1 demo_moves 0 1 0 1) as [H _].
  - vm_compute. split; discriminate.
  - vm_compute. reflexivity.
  - vm_compute. reflexivity.
  - apply H; [discriminate|vm_compute; reflexivity].
Defined.

(** Both cells are claimed; a third producer finds the ring full. *)
Definition full_moves : list (move Z) :=
  two_pushes 1 2 ++ [Prod 5 [3] false; Prod 5 [] false].

Lemma mpsc_full_means_full_witness :
  zlen (claimed (run full_moves (make 2))) - zlen (delivered (run full_moves (make 2))) = 2.
Proof.
  destruct (mpsc_full_means_full 1 full_moves 5 3 [] 2 [] false) as [_ H].
  - vm_compute. split; discriminate.
  - vm_compute. reflexivity.
  - vm_compute. reflexivity.
  - vm_compute. reflexivity.
  - apply H. vm_compute. reflexivity.
Defined.

Lemma mpsc_capacity_one_wedges_witness :
  delivered (run (replicate 20 (Cons 4)) (run (two_pushes 1 2) (make 1))) = [].
Proof.
  destruct (mpsc_capacity_one_wedges 1 2 (replicate 20 (Cons 4))) as [_ H].
  - repeat constructor.
  - exact H.
Defined.
End Mpsc.
