(* ===== verification/Mailbox.v ===== *)
(** * Mailboxes

    Posting work to an event loop: [InlineFn] ([src/include/afx/sys/inline_fn.hpp])
    as far as ownership of the callable goes, [Mailbox] and [MailboxImpl]
    ([src/include/afx/itc/mailbox.hpp]) with the overflow policies and
    [post_batch], [BasicEventManager::post] and [post_full], and the arm/block
    protocol between the producers' [after_push] and the loop's [wait_timeout]
    ([src/include/afx/core/event_manager.hpp]).

    The overflow paths are functions of the outcomes of the successive [try_push]
    attempts.  The arm/block protocol is an interleaving of the steps of the ring
    of MpscRing.v with the accesses to [state] and to the wake-up token of the
    backend; both sides fence with sequential consistency in the source, so that
    interleaving is the memory model. *)

From stdpp Require Import base option gmap list.
From Stdlib Require Import ZArith Lia.
From S2P Require Import Prelude MpscRing.
Local Open Scope Z_scope.

(** ** InlineFn: who owns the callable *)

Module Inline.

Section Fn.
Context {F : Type}.

(** [ops_] null or not, with the callable it refers to, and the heap flag. *)
Record InlineFn := mkInlineFn { callable : option F; heap_ : bool }.

Definition empty_fn : InlineFn := mkInlineFn None false.

(** Construction from a callable that fits the inline storage or not. *)
Definition make (fits : bool) (f : F) : InlineFn := mkInlineFn (Some f) (negb fits).

Definition to_bool (x : InlineFn) : bool := match callable x with Some _ => true | None => false end.

(** [move_from]: the new value of the target and of the source. *)
Definition move_from (o : InlineFn) : InlineFn * InlineFn :=
  (mkInlineFn (callable o) (heap_ o), mkInlineFn None (heap_ o)).

Definition reset (x : InlineFn) : InlineFn := mkInlineFn None (heap_ x).

(** [operator()]: the callable that runs, [None] for a null dereference. *)
Definition invoke (x : InlineFn) : option F := callable x.

Definition heap_allocated (x : InlineFn) : bool := heap_ x.

End Fn.
Arguments InlineFn : clear implicits.
End Inline.

(** ** Posting and overflow *)

Module Post.
Import Inline.

Section Posting.
Context {F Ctx : Type}.

Inductive OverflowPolicy := Fail_ | SpinRetry | Abort.
Inductive PostResult := Ok | Full | Closed.

Record PostedItem := mkItem { fn : InlineFn F; ctx : Ctx; enq_tsc : Z }.

(** One attempt: did [try_push] succeed, and what [dead] read afterwards. *)
Record attempt := mkAttempt { pushed : bool; dead_after : bool }.

(** How a call ends: with a result, or by aborting the process. *)
Inductive ending := Returns (r : PostResult) | Aborts.

(** What a call did: the items it put into the ring, and its counters. *)
Record trace := mkTrace { ring_items : list PostedItem; pushes : Z; full : Z }.

(** [Mailbox::push_one].  [try_push] moves the item out only when it succeeds.
    [None]: still spinning after the attempts given. *)
Fixpoint push_one (pol : OverflowPolicy) (it : PostedItem) (env : list attempt) (t : trace)
  : option (ending * trace) :=
  match env with
  | [] => None
  | a :: env =>
      if pushed a
      then Some (Returns Ok, mkTrace (ring_items t ++ [it]) (pushes t + 1) (full t))
      else
        let t := mkTrace (ring_items t) (pushes t) (full t + 1) in
        match pol with
        | Fail_ => Some (Returns Full, t)
        | Abort => Some (Aborts, t)
        | SpinRetry => if dead_after a then Some (Returns Closed, t) else push_one pol it env t
        end
  end.

Definition no_trace : trace := mkTrace [] 0 0.

(** [Mailbox::post_with_ctx]; [handle] is false for a default-constructed one. *)
Definition post_with_ctx (handle dead : bool) (pol : OverflowPolicy) (f : InlineFn F) (c : Ctx)
    (tsc : Z) (env : list attempt) : option (ending * trace) :=
  if negb handle || dead then Some (Returns Closed, no_trace)
  else push_one pol (mkItem (fst (move_from f)) c tsc) env no_trace.

(** [Mailbox::post_batch]: the number accepted, the items in the ring, and the
    caller's tasks afterwards.  Each task is moved into a temporary before the
    attempt. *)
Fixpoint post_batch (fns : list (InlineFn F)) (c : Ctx) (env : list bool) (t : list PostedItem)
  : Z * list PostedItem * list (InlineFn F) :=
  match fns, env with
  | f :: fns', ok :: env =>
      let '(tmp, f') := move_from f in
      if ok then
        let '(n, t', rest) := post_batch fns' c env (t ++ [mkItem tmp c 0]) in (n + 1, t', f' :: rest)
      else (0, t, f' :: fns')
  | fns, _ => (0, t, fns)
  end.

(** [BasicEventManager::post_full], the spin loop: every attempt moves the task
    into a new item. *)
Fixpoint spin_push (f : InlineFn F) (c : Ctx) (env : list attempt) (t : trace)
  : option (ending * trace) :=
  match env with
  | [] => None
  | a :: env =>
      let '(tmp, f') := move_from f in
      if pushed a
      then Some (Returns Ok, mkTrace (ring_items t ++ [mkItem tmp c 0]) (pushes t + 1) (full t))
      else if dead_after a then Some (Returns Closed, t) else spin_push f' c env t
  end.

Definition post_full (pol : OverflowPolicy) (f : InlineFn F) (c : Ctx) (env : list attempt) (t : trace)
  : option (ending * trace) :=
  let t := mkTrace (ring_items t) (pushes t) (full t + 1) in
  match pol with
  | Fail_ => Some (Returns Full, t)
  | Abort => Some (Aborts, t)
  | SpinRetry => spin_push f c env t
  end.

(** [BasicEventManager::post]. *)
Definition em_post (pol : OverflowPolicy) (f : InlineFn F) (c : Ctx) (env : list attempt)
  : option (ending * trace) :=
  match env with
  | [] => None
  | a :: env =>
      let '(tmp, f') := move_from f in
      if pushed a then Some (Returns Ok, mkTrace [mkItem tmp c 0] 1 0)
      else post_full pol f' c env no_trace
  end.

(** ** Properties of posting *)

Lemma push_one_spec pol it env t :
  match push_one pol it env t with
  | None => pol = SpinRetry \/ env = []
  | Some (e, t') =>
      match e with
      | Returns Ok => ring_items t' = ring_items t ++ [it] /\ pushes t' = pushes t + 1
      | Returns Full => pol = Fail_ /\ ring_items t' = ring_items t /\ pushes t' = pushes t
      | Returns Closed => pol = SpinRetry /\ ring_items t' = ring_items t /\ pushes t' = pushes t
      | Aborts => pol = Abort /\ ring_items t' = ring_items t
      end
  end.
Proof.
  revert t. induction env as [|a env IH]; intros t; simpl; [by right|].
  destruct (pushed a); [done|]. destruct pol; try done.
  destruct (dead_after a); [done|].
  specialize (IH (mkTrace (ring_items t) (pushes t) (full t + 1))).
  destruct (push_one _ _ _ _) as [[[[]|] t']|]; try done. by left.
Qed.

(** posting through a [Mailbox] is all or nothing, under every overflow
    policy and every sequence of full and free rings: [Ok] means that the ring got
    exactly the caller's task with its context, once; any other ending means that
    the ring got nothing.  [Full] is returned only under [Fail], [Closed] only for
    a dead or empty mailbox or while spinning on a dying loop, and only [Abort]
    aborts. *)
Theorem mailbox_post_is_all_or_nothing handle dead pol f c tsc env e t :
  post_with_ctx handle dead pol f c tsc env = Some (e, t) ->
  match e with
  | Returns Ok =>
      handle = true /\ dead = false /\ pushes t = 1 /\
      exists it, ring_items t = [it] /\ invoke (fn it) = invoke f /\ ctx it = c
  | Returns Full => pol = Fail_ /\ ring_items t = []
  | Returns Closed => (handle = false \/ dead = true \/ pol = SpinRetry) /\ ring_items t = []
  | Aborts => pol = Abort /\ ring_items t = []
  end.
Proof.
  unfold post_with_ctx. destruct (negb handle || dead) eqn:Hd; intros Hp.
  - injection Hp as <- <-. split; [|done]. apply orb_true_iff in Hd as [Hd|Hd]; [left|by right; left].
    by apply negb_true_iff.
  - apply orb_false_iff in Hd as [Hh ->]. apply negb_false_iff in Hh as ->.
    pose proof (push_one_spec pol (mkItem (fst (move_from f)) c tsc) env no_trace) as Hs.
    rewrite Hp in Hs. destruct e as [[]|]; simpl in Hs.
    + destruct Hs as [-> ->]. split_and!; try done. eexists. split; [done|]. done.
    + destruct Hs as (? & ? & ?). done.
    + destruct Hs as (? & ? & ?). split; [by right; right|done].
    + done.
Qed.

(** [BasicEventManager::post] under [SpinRetry] loses the task.  The first
    attempt moves it into a temporary, so once that attempt finds the ring full
    the item that a later attempt pushes holds an empty function, and running it
    dereferences null. *)
Theorem em_post_spin_posts_empty_task f c a env t :
  pushed a = false -> em_post SpinRetry f c (a :: env) = Some (Returns Ok, t) ->
  exists it, ring_items t = [it] /\ invoke (fn it) = None.
Proof.
  intros Ha. simpl. rewrite Ha.
  assert (Hspin : forall env f t0, callable f = None -> spin_push f c env t0 = Some (Returns Ok, t) ->
                  exists it, ring_items t = ring_items t0 ++ [it] /\ invoke (fn it) = None).
  { clear. induction env as [|b env IH]; intros f t0 Hf; [done|]. simpl.
    destruct (pushed b).
    - intros [= <-]. simpl. eexists. split; done.
    - destruct (dead_after b); [done|]. intros Hs. by apply IH in Hs. }
  unfold post_full. intros Hs. by apply Hspin in Hs.
Qed.

(** when [post_batch] stops at a full ring, the first task it did not accept
    is gone from the caller's span as well: it was moved into the temporary that
    [try_push] refused. *)
Theorem post_batch_drops_refused_task fns c oks :
  (length oks < length fns)%nat -> Forall (fun b => b = true) oks ->
  exists n items rest,
    post_batch fns c (oks ++ [false]) [] = (n, items, rest) /\
    n = Z.of_nat (length oks) /\ length items = length oks /\
    callable <$> rest !! length oks = Some None.
Proof.
  intros Hl Hoks.
  assert (Hgen : forall acc, exists n items rest,
    post_batch fns c (oks ++ [false]) acc = (n, items, rest) /\
    n = Z.of_nat (length oks) /\ length items = (length acc + length oks)%nat /\
    callable <$> rest !! length oks = Some None).
  { revert fns Hl. induction Hoks as [|b oks -> _ IH]; intros fns Hl acc;
      (destruct fns as [|f fns]; simpl in Hl; [lia|]); simpl.
    - eexists _, _, _. split; [done|]. split_and!; done.
    - destruct (IH fns ltac:(lia) (acc ++ [mkItem (mkInlineFn (callable f) (heap_ f)) c 0]))
        as (n & items & rest & -> & -> & Hi & Hr).
      eexists _, _, _. split; [done|]. split_and!; [lia| |done].
      rewrite Hi, length_app. simpl. lia. }
  apply (Hgen []).
Qed.

End Posting.

Lemma mailbox_post_is_all_or_nothing_witness :
  exists it, ring_items (mkTrace [mkItem (Inline.make true 7) 5 1] 1 2) = [it] /\
    invoke (fn it) = Some 7 /\ ctx it = 5.
Proof.
  destruct (mailbox_post_is_all_or_nothing true false SpinRetry (Inline.make true 7) 5 1
              [mkAttempt false false; mkAttempt false false; mkAttempt true false] (Returns Ok)
              (mkTrace [mkItem (Inline.make true 7) 5 1] 1 2)) as (_ & _ & _ & H).
  - reflexivity.
  - exact H.
Defined.

Lemma em_post_spin_posts_empty_task_witness :
  exists it, ring_items (mkTrace [mkItem (mkInlineFn (@None Z) false) 5 0] 1 1) = [it] /\ invoke (fn it) = None.
Proof.
  apply (em_post_spin_posts_empty_task (Inline.make true 7) 5 (mkAttempt false false) [mkAttempt true false]).
  - reflexivity.
  - reflexivity.
Defined.

Lemma post_batch_drops_refused_task_witness :
  exists n items rest,
    post_batch [Inline.make true 1; Inline.make true 2; Inline.make true 3] 5 [true; false] [] = (n, items, rest) /\
    n = 1 /\ length items = 1%nat /\ callable <$> rest !! 1%nat = Some None.
Proof.
  apply (post_batch_drops_refused_task _ 5 [true]).
  - vm_compute. lia.
  - repeat constructor.
Defined.

End Post.

(** ** The arm/block protocol *)

Module ArmBlock.
Import Mpsc.

Section Protocol.
Context {A : Type} {HA : Inhabited A}.

Inductive MailboxState := Running | Blocked.

(** Where the loop is in an iteration, around its wait. *)
Inductive loop_pc :=
  | LDrain      (* stage 1: popping the ring *)
  | LCheck      (* first ring.empty() *)
  | LArm        (* about to store Blocked *)
  | LRecheck    (* second ring.empty(), after the fence *)
  | LDisarm     (* found an item: about to store Running *)
  | LPoll       (* a wait with timeout zero *)
  | LSleep      (* blocked in backend_.wait *)
  | LWoken.     (* about to store Running again *)

Record Mailbox := mkMailbox {
  ring : MpscRing A;
  state : MailboxState;
  token : bool;              (* the backend's pending wake-up (eventfd counter) *)
  posted : gset nat;         (* producers that have pushed and not yet run after_push *)
  loop : loop_pc;
}.

Definition make (capacity : Z) : Mailbox := mkMailbox (Mpsc.make capacity) Running false ∅ LDrain.

(** ** Producers *)




(** ** The loop *)






(** ** Invariant *)









End Protocol.

Arguments move : clear implicits.



End ArmBlock.
