(* ===== verification/Channel.v ===== *)
(** * Typed channels

    [detail::ChannelState] of [src/include/afx/itc/channel.hpp]: [push], [poke]
    and [drain] over one of the two rings, with one drain task in flight at a time.

    Producers and the receiving loop interleave.  The contents of the ring are the
    cells claimed and not yet consumed, each published or not (MpscRing.v); a
    single producer publishes as it claims.  A producer that has published has
    still to look at the flag, and the one that sets it has still to post.  Whether
    the target mailbox accepts a post is up to the environment. *)

From stdpp Require Import base option gmap list.
From Stdlib Require Import ZArith Lia.
From S2P Require Import Prelude.
Local Open Scope Z_scope.

Module Channel.

Inductive ChannelKind := SPSC | MPSC.

Section Chan.
Context {A : Type}.

(** [consumed] counts the items taken out, which is the head position of the ring.
    [pokers] and [posters] count the producers between the publication and the
    exchange, and between the exchange and the post; [queued] the drain tasks in
    the mailbox; [chunk] is the chunk of the drain that runs. *)
Record ChannelState := mkChan {
  kind : ChannelKind;
  cap : Z;
  consumed : Z;
  cells : list (A * bool);
  drain_posted : bool;
  attached : bool;
  pokers : nat;
  posters : nat;
  queued : nat;
  chunk : option (list A);
  pushed : list A;
  delivered : list (list A) }.

Definition channel (k : ChannelKind) (capacity : Z) : ChannelState :=
  mkChan k capacity 0 [] false false 0 0 0 None [] [].

Definition set_cells (cs : list (A * bool)) s := mkChan (kind s) (cap s) (consumed s) cs (drain_posted s) (attached s)
  (pokers s) (posters s) (queued s) (chunk s) (pushed s) (delivered s).
Definition set_consumed (n : Z) s := mkChan (kind s) (cap s) n (cells s) (drain_posted s) (attached s)
  (pokers s) (posters s) (queued s) (chunk s) (pushed s) (delivered s).
Definition set_posted (b : bool) s := mkChan (kind s) (cap s) (consumed s) (cells s) b (attached s)
  (pokers s) (posters s) (queued s) (chunk s) (pushed s) (delivered s).
Definition set_attached s := mkChan (kind s) (cap s) (consumed s) (cells s) (drain_posted s) true
  (pokers s) (posters s) (queued s) (chunk s) (pushed s) (delivered s).
Definition set_pending (a b c : nat) s := mkChan (kind s) (cap s) (consumed s) (cells s) (drain_posted s) (attached s)
  a b c (chunk s) (pushed s) (delivered s).
Definition set_chunk (c : option (list A)) s := mkChan (kind s) (cap s) (consumed s) (cells s) (drain_posted s) (attached s)
  (pokers s) (posters s) (queued s) c (pushed s) (delivered s).
Definition set_pushed (l : list A) s := mkChan (kind s) (cap s) (consumed s) (cells s) (drain_posted s) (attached s)
  (pokers s) (posters s) (queued s) (chunk s) l (delivered s).
Definition deliver (b : list A) s := mkChan (kind s) (cap s) (consumed s) (cells s) (drain_posted s) (attached s)
  (pokers s) (posters s) (queued s) (chunk s) (pushed s) (delivered s ++ [b]).

(** The steps of producers, mailbox and loop. *)
Inductive Action :=
  | Claim (v : A)          (* a producer takes a cell; SPSC, publishes it *)
  | Bulk (vs : list A)     (* the producer pushes in bulk, SPSC *)
  | Publish (i : nat) (first : bool) (* a producer publishes a cell, the first of its push or not *)
  | Poke                   (* a producer looks at the flag *)
  | Post (accepted : bool) (* and posts the drain *)
  | Attach
  | Start                  (* the loop runs a drain task *)
  | Poll                   (* the receiver drains by itself *)
  | Pop                    (* one item, MPSC *)
  | Finish                 (* the ring looks empty, MPSC *)
  | Span.                  (* the one span of a drain, SPSC *)

Definition try_claim (v : A) s : option ChannelState :=
  if zlen (cells s) <? cap s then
    let s := set_pushed (pushed s ++ [v]) s in
    match kind s with
    | MPSC => Some (set_cells (cells s ++ [(v, false)]) s)
    | SPSC => Some (set_pending (S (pokers s)) (posters s) (queued s) (set_cells (cells s ++ [(v, true)]) s))
    end
  else Some s.

Definition push_bulk (vs : list A) s : option ChannelState :=
  match kind s with
  | SPSC =>
      let room := cap s - zlen (cells s) in
      let n := Z.to_nat (if zlen vs <? room then zlen vs else room) in
      let s := set_pushed (pushed s ++ take n vs) (set_cells (cells s ++ map (fun v => (v, true)) (take n vs)) s) in
      Some (match n with O => s | S _ => set_pending (S (pokers s)) (posters s) (queued s) s end)
  | MPSC => None
  end.

(** A producer that pushes in bulk over an MPSC ring looks at the flag once, after
    its last item: it counts among [pokers] from its first publication on. *)
Definition publish (i : nat) (first : bool) s : option ChannelState :=
  match cells s !! i, (if first then Some (S (pokers s)) else match pokers s with O => None | n => Some n end) with
  | Some (v, false), Some p => Some (set_pending p (posters s) (queued s) (set_cells (<[i := (v, true)]> (cells s)) s))
  | _, _ => None
  end.

Definition poke s : option ChannelState :=
  match pokers s with
  | O => None
  | S n =>
      if negb (attached s) then Some (set_pending n (posters s) (queued s) s)
      else if drain_posted s then Some (set_pending n (posters s) (queued s) s)
      else Some (set_posted true (set_pending n (S (posters s)) (queued s) s))
  end.

Definition post (accepted : bool) s : option ChannelState :=
  match posters s with
  | O => None
  | S n => Some (set_pending (pokers s) n (if accepted then S (queued s) else queued s) s)
  end.

Definition start s : option ChannelState :=
  match queued s, chunk s with
  | S n, None => Some (set_chunk (Some []) (set_posted false (set_pending (pokers s) (posters s) n s)))
  | _, _ => None
  end.

Definition poll s : option ChannelState :=
  match chunk s with
  | None => Some (if attached s then set_chunk (Some []) (set_posted false s) else set_posted false s)
  | _ => None
  end.

Definition pop s : option ChannelState :=
  match kind s, chunk s, cells s with
  | MPSC, Some c, (v, true) :: r =>
      let s := set_consumed (consumed s + 1) (set_cells r s) in
      let c := c ++ [v] in
      Some (if zlen c =? 64 then set_chunk (Some []) (deliver c s) else set_chunk (Some c) s)
  | _, _, _ => None
  end.

Definition head_visible (cs : list (A * bool)) : bool := match cs with (_, true) :: _ => true | _ => false end.

Definition finish s : option ChannelState :=
  match kind s, chunk s with
  | MPSC, Some c =>
      if head_visible (cells s) then None
      else Some (set_chunk None (match c with [] => s | _ => deliver c s end))
  | _, _ => None
  end.

(** [drain_contiguous] with at most 1024 items: up to the end of the buffer. *)
Definition span s : option ChannelState :=
  match kind s, chunk s with
  | SPSC, Some _ =>
      let contiguous := cap s - consumed s mod cap s in
      let n := Z.min (Z.min (zlen (cells s)) contiguous) 1024 in
      if zlen (cells s) =? 0 then Some (set_chunk None s)
      else Some (set_chunk None (set_consumed (consumed s + n)
             (set_cells (drop (Z.to_nat n) (cells s)) (deliver (take (Z.to_nat n) (map fst (cells s))) s))))
  | _, _ => None
  end.

Definition step (a : Action) s : option ChannelState :=
  match a with
  | Claim v => try_claim v s
  | Bulk vs => push_bulk vs s
  | Publish i first => publish i first s
  | Poke => poke s
  | Post ok => post ok s
  | Attach => Some (set_attached s)
  | Start => start s
  | Poll => poll s
  | Pop => pop s
  | Finish => finish s
  | Span => span s
  end.

Fixpoint run (l : list Action) s : option ChannelState :=
  match l with [] => Some s | a :: l => s ← step a s; run l s end.

(** ** Order *)

Definition conserved s : Prop :=
  pushed s = concat (delivered s) ++ default [] (chunk s) ++ map fst (cells s) /\
  (kind s = SPSC -> default [] (chunk s) = []).

Lemma step_conserved a s s' : step a s = Some s' -> conserved s -> conserved s'.
Proof.
  intros H [E K]. destruct a as [v|vs|i first| |ok| | | | | |]; simpl in H.
  - unfold try_claim in H. destruct (_ <? _); [|by simplify_eq]. cbv zeta in H. simpl in H.
    destruct (kind s) eqn:Ek; simplify_eq; (split; [|simpl; by rewrite ?Ek]); simpl; rewrite E, map_app; simpl;
      by rewrite <- !app_assoc.
  - unfold push_bulk in H. destruct (kind s) eqn:Ek; [|done]. cbv zeta in H.
    set (n := Z.to_nat _) in H. injection H as <-. split; [|by destruct n; simpl; rewrite ?Ek].
    transitivity (pushed s ++ take n vs); [by destruct n|]. rewrite E, <- !app_assoc.
    transitivity (concat (delivered s) ++ default [] (chunk s) ++ map fst (cells s ++ map (fun v => (v, true)) (take n vs)));
      [|by destruct n]. by rewrite map_app, map_map, map_id.
  - unfold publish in H. destruct (cells s !! i) as [[v []]|] eqn:Ei; [done| |done].
    destruct (if first then _ else _); simplify_eq. split; [|done]. simpl. rewrite E.
    do 2 f_equal. rewrite list_fmap_insert. simpl. symmetry. apply list_insert_id. by rewrite list_lookup_fmap, Ei.
  - unfold poke in H. destruct (pokers s); [done|]. destruct (attached s); simpl in H; [destruct (drain_posted s)|]; simplify_eq;
      by split.
  - unfold post in H. destruct (posters s); [done|]. by simplify_eq.
  - by simplify_eq.
  - unfold start in H. destruct (queued s); [done|]. destruct (chunk s) eqn:Ec; [done|]. simplify_eq. by split.
  - unfold poll in H. destruct (chunk s) eqn:Ec; [done|]. simplify_eq. destruct (attached s); by split; simpl in *; rewrite ?Ec.
  - unfold pop in H. destruct (kind s) eqn:Ek; [done|]. destruct (chunk s) as [c|] eqn:Ec; [|done].
    destruct (cells s) as [|[v []] r] eqn:Er; simplify_eq. cbv zeta.
    destruct (_ =? 64); split; try (simpl; congruence); simpl in *; rewrite E;
      rewrite ?concat_app; simpl; rewrite ?app_nil_r, <- ?app_assoc; done.
  - unfold finish in H. destruct (kind s) eqn:Ek; [done|]. destruct (chunk s) as [c|] eqn:Ec; [|done].
    destruct (head_visible _); [done|]. simplify_eq. destruct c; split; try done; simpl in *; rewrite E;
      rewrite ?concat_app; simpl; rewrite ?app_nil_r, <- ?app_assoc; done.
  - unfold span in H. destruct (kind s) eqn:Ek; [|done]. destruct (chunk s) as [c|] eqn:Ec; [|done]. cbv zeta in H.
    simpl in K. specialize (K eq_refl). subst c.
    destruct (_ =? 0); injection H as <-; (split; [|done]); simpl in *; [done|]. rewrite E.
    rewrite concat_app. simpl. rewrite app_nil_r, <- app_assoc. f_equal.
    set (n := Z.to_nat _). change (map fst (drop n (cells s))) with (fst <$> drop n (cells s)). rewrite fmap_drop.
    symmetry. apply take_drop.
Qed.

(** ** One drain in flight, nothing stranded *)

(** What holds while no post has been refused. *)
Record lively s : Prop := {
  li_kind : kind s = MPSC;
  li_attached : attached s = true;
  li_flag : drain_posted s = true -> (1 <= posters s + queued s)%nat;
  li_wake : head_visible (cells s) = true -> (0 < pokers s)%nat \/ drain_posted s = true \/ chunk s <> None }.

Definition refused (a : Action) : bool := match a with Post false => true | _ => false end.

Lemma step_lively a s s' : step a s = Some s' -> refused a = false -> lively s -> lively s'.
Proof.
  intros H Hr [K At F W]. destruct a as [v|vs|i first| |ok| | | | | |]; simpl in H.
  - unfold try_claim in H. destruct (_ <? _); [|by simplify_eq]. simpl in H. rewrite K in H. simplify_eq.
    constructor; simpl; try done. intros Hv. apply W. by destruct (cells s) as [|[x []]].
  - unfold push_bulk in H. by rewrite K in H.
  - unfold publish in H. destruct (cells s !! i) as [[v []]|]; [done| |done].
    destruct first; [|destruct (pokers s) eqn:Ep; [done|]]; simplify_eq; constructor; simpl; try done; intros _; left; lia.
  - unfold poke in H. destruct (pokers s) as [|n] eqn:Ep; [done|]. rewrite At in H. simpl in H.
    destruct (drain_posted s) eqn:Ed; simplify_eq; constructor; simpl; try done; try lia; rewrite ?Ed; auto.
  - unfold post in H. destruct (posters s) as [|n] eqn:Ep; [done|]. simplify_eq. constructor; simpl; try done.
    destruct ok; [|done]. intros Hp. specialize (F Hp). lia.
  - simplify_eq. by constructor.
  - unfold start in H. destruct (queued s) as [|n] eqn:Eq; [done|]. destruct (chunk s); [done|]. simplify_eq.
    constructor; simpl; try done. intros _. by right; right.
  - unfold poll in H. destruct (chunk s); [done|]. rewrite At in H. simplify_eq.
    constructor; simpl; try done. intros _. by right; right.
  - unfold pop in H. rewrite K in H. destruct (chunk s) as [c|]; [|done]. destruct (cells s) as [|[v []] r]; simplify_eq.
    cbv zeta. destruct (_ =? 64); constructor; simpl; try done; intros _; by right; right.
  - unfold finish in H. rewrite K in H. destruct (chunk s) as [c|]; [|done]. destruct (head_visible (cells s)) eqn:Ev; [done|].
    simplify_eq. destruct c; constructor; simpl; try done; by rewrite Ev.
  - unfold span in H. by rewrite K in H.
Qed.

Definition polled (a : Action) : bool := match a with Poll => true | _ => false end.

(** Without polling, the flag counts the drain tasks from the exchange to the start. *)
Definition single s : Prop := (posters s + queued s <= if drain_posted s then 1 else 0)%nat.

Lemma step_single a s s' : step a s = Some s' -> polled a = false -> single s -> single s'.
Proof.
  unfold single. intros H Hp F. destruct a as [v|vs|i first| |ok| | | | | |]; simpl in H.
  - unfold try_claim in H. destruct (_ <? _); [|by simplify_eq]. simpl in H. by destruct (kind s); simplify_eq.
  - unfold push_bulk in H. destruct (kind s); [|done]. cbv zeta in H. set (n := Z.to_nat _) in H. injection H as <-. by destruct n.
  - unfold publish in H. destruct (cells s !! i) as [[v []]|]; [done| |done]. by destruct (if first then _ else _); simplify_eq.
  - unfold poke in H. destruct (pokers s); [done|].
    destruct (attached s), (drain_posted s) eqn:Ed; simpl in H; simplify_eq; simpl; rewrite ?Ed; lia.
  - unfold post in H. destruct (posters s) eqn:Ep; [done|]. simplify_eq. simpl. destruct ok, (drain_posted s); lia.
  - by simplify_eq.
  - unfold start in H. destruct (queued s) eqn:Eq; [done|]. destruct (chunk s); [done|]. simplify_eq. simpl.
    destruct (drain_posted s); lia.
  - done.
  - unfold pop in H. destruct (kind s); [done|]. destruct (chunk s) as [c|]; [|done].
    destruct (cells s) as [|[v []] r]; simplify_eq. cbv zeta. by destruct (_ =? 64).
  - unfold finish in H. destruct (kind s); [done|]. destruct (chunk s) as [c|]; [|done].
    destruct (head_visible (cells s)); [done|]. simplify_eq. by destruct c.
  - unfold span in H. destruct (kind s); [|done]. destruct (chunk s) as [c|]; [|done]. cbv zeta in H.
    by destruct (_ =? 0); simplify_eq.
Qed.

Lemma run_keeps (P : ChannelState -> Prop) (ok : Action -> bool) l s s' :
  (forall a s s', step a s = Some s' -> ok a = true -> P s -> P s') ->
  run l s = Some s' -> forallb ok l = true -> P s -> P s'.
Proof.
  intros Hs. revert s. induction l as [|a l IH]; intros s H Hl HP; simpl in *; [by simplify_eq|].
  apply andb_true_iff in Hl as [Ha Hl]. destruct (step a s) as [s1|] eqn:E; [|done]. simpl in H. apply (IH s1); eauto.
Qed.

Lemma run_conserved k capacity l s : run l (channel k capacity) = Some s -> conserved s.
Proof.
  intros H. apply (run_keeps conserved (fun _ => true) l (channel k capacity) s); [|done| |by split].
  - intros a t t' Ht _. by apply (step_conserved a).
  - clear. by induction l.
Qed.

(** A channel neither loses, duplicates nor reorders.  For either kind of ring
    and any interleaving of producers and receiver, whatever the mailbox answers,
    the items claimed are, in order, those delivered in batches, those of the batch
    being filled, and those in the ring. *)
Theorem channel_is_fifo k capacity l s :
  run l (channel k capacity) = Some s ->
  pushed s = concat (delivered s) ++ default [] (chunk s) ++ map fst (cells s).
Proof. intros H. apply (run_conserved _ _ _ _ H). Qed.

(** C13: A channel over an MPSC ring strands nothing.  When the receiver is attached
    before the first push and the mailbox accepts every post, then whenever no
    producer is on its way, no drain task is queued and none runs, no published item
    is visible to the receiver, so that once every claimed cell is published all the
    items pushed have been delivered, in order.  And if moreover the receiver never
    polls by itself there is at most one drain task between the exchange and its
    start.  Both conditions are needed: [push_before_attach_strands] and
    [refused_post_wedges_channel]. *)
Theorem mpsc_channel_strands_nothing capacity l s :
  run (Attach :: l) (channel MPSC capacity) = Some s -> forallb (fun a => negb (refused a)) l = true ->
  (pokers s = O -> posters s = O -> queued s = O -> chunk s = None ->
     head_visible (cells s) = false /\ (Forall (fun c => snd c = true) (cells s) -> concat (delivered s) = pushed s)) /\
  (forallb (fun a => negb (polled a)) l = true -> (posters s + queued s <= 1)%nat).
Proof.
  intros H Hl. split.
  - assert (lively s) as [_ _ F W].
    { apply (run_keeps lively (fun a => negb (refused a)) l (set_attached (channel MPSC capacity)) s); try done.
      intros a t t' Ht Ha. apply (step_lively a); [done|]. by apply negb_true_iff. }
    intros H1 H2 H3 H4. assert (head_visible (cells s) = false) as Hv.
    { destruct (head_visible (cells s)) eqn:Ev; [|done].
      destruct (W eq_refl) as [?|[Hp|?]]; [lia| |done]. specialize (F Hp). lia. }
    split; [done|]. intros Hp. destruct (run_conserved _ _ _ _ H) as [E _]. rewrite E, H4.
    destruct Hp as [|[v b] r Hb _]; [by rewrite app_nil_r|]. simpl in *. by subst b.
  - intros Hp. assert (single s) as F.
    { apply (run_keeps single (fun a => negb (polled a)) l (set_attached (channel MPSC capacity)) s); try done.
      - intros a t t' Ht Ha. apply (step_single a); [done|]. by apply negb_true_iff.
      - unfold single. simpl. lia. }
    unfold single in F. destruct (drain_posted s); lia.
Qed.

(** The state after the mailbox refused the one drain task. *)
Record wedged (d : list (list A)) s : Prop := {
  we_flag : drain_posted s = true;
  we_posters : posters s = O;
  we_queued : queued s = O;
  we_chunk : chunk s = None;
  we_delivered : delivered s = d }.

Lemma step_wedged d a s s' : step a s = Some s' -> polled a = false -> wedged d s -> wedged d s'.
Proof.
  intros H Hp [F P Q C D]. destruct a as [v|vs|i first| |ok| | | | | |]; simpl in H.
  - unfold try_claim in H. destruct (_ <? _); [|by simplify_eq]. simpl in H. destruct (kind s); simplify_eq; by constructor.
  - unfold push_bulk in H. destruct (kind s); [|done]. cbv zeta in H. set (n := Z.to_nat _) in H. injection H as <-. destruct n; by constructor.
  - unfold publish in H. destruct (cells s !! i) as [[v []]|]; [done| |done]. destruct (if first then _ else _); simplify_eq; by constructor.
  - unfold poke in H. destruct (pokers s); [done|]. rewrite F in H. destruct (attached s); simpl in H; simplify_eq; by constructor.
  - unfold post in H. by rewrite P in H.
  - simplify_eq. by constructor.
  - unfold start in H. by rewrite Q in H.
  - done.
  - unfold pop in H. rewrite C in H. by destruct (kind s).
  - unfold finish in H. rewrite C in H. by destruct (kind s).
  - unfold span in H. rewrite C in H. by destruct (kind s).
Qed.

(** One refused post wedges a channel for ever.  When the target mailbox is
    full at the moment the drain task is posted, [drain_posted] stays set although
    no task is queued: whatever happens afterwards short of the receiver polling by
    itself, no drain is ever posted again and nothing more is delivered. *)
Theorem refused_post_wedges_channel s s1 l s2 :
  drain_posted s = true -> posters s = 1%nat -> queued s = O -> chunk s = None ->
  step (Post false) s = Some s1 -> run l s1 = Some s2 -> forallb (fun a => negb (polled a)) l = true ->
  delivered s2 = delivered s /\ drain_posted s2 = true.
Proof.
  intros F P Q C H1 H2 Hl. assert (wedged (delivered s) s1) as Hw.
  { simpl in H1. unfold post in H1. rewrite P in H1. simplify_eq. by constructor. }
  destruct (run_keeps (wedged (delivered s)) (fun a => negb (polled a)) l s1 s2) as [W1 _ _ _ W2]; [..|done].
  - intros a t t' Ht Ha. apply (step_wedged _ a); [done|]. by apply negb_true_iff.
  - done.
  - done.
  - done.
Qed.

End Chan.
Arguments Action : clear implicits.

Lemma channel_is_fifo_witness :
  exists s, run [Attach; Claim 1; Claim 2; Publish 1 true; Poke; Post true; Publish 0 true; Start; Pop; Poke; Pop; Finish]
              (channel MPSC 4) = Some s /\
    pushed s = concat (delivered s) ++ default [] (chunk s) ++ map fst (cells s) /\ delivered s = [[1; 2]].
Proof.
  eexists. split; [vm_compute; reflexivity|]. split; [|reflexivity].
  apply (channel_is_fifo MPSC 4 [Attach; Claim 1; Claim 2; Publish 1 true; Poke; Post true; Publish 0 true; Start; Pop; Poke; Pop; Finish]).
  vm_compute. reflexivity.
Defined.

Lemma mpsc_channel_strands_nothing_witness :
  exists s, run (Attach :: [Claim 1; Claim 2; Publish 1 true; Poke; Post true; Start; Finish]) (channel MPSC 4) = Some s /\
    (posters s + queued s <= 1)%nat /\ head_visible (cells s) = false.
Proof.
  eexists. split; [vm_compute; reflexivity|].
  destruct (mpsc_channel_strands_nothing 4 [Claim 1; Claim 2; Publish 1 true; Poke; Post true; Start; Finish]
    (mkChan MPSC 4 0 [(1, false); (2, true)] false true 0 0 0 None [1; 2] [])) as [H1 H2]; [vm_compute; reflexivity|reflexivity|].
  split; [by apply H2|]. by apply (H1 eq_refl eq_refl eq_refl eq_refl).
Defined.

Lemma refused_post_wedges_channel_witness :
  exists s s1 s2, run [Attach; Claim 1; Publish 0 true; Poke] (channel MPSC 4) = Some s /\ step (Post false) s = Some s1 /\
    run [Claim 2; Publish 1 true; Poke] s1 = Some s2 /\ delivered s2 = delivered s /\ cells s2 = [(1, true); (2, true)].
Proof.
  eexists _, _, _. split; [vm_compute; reflexivity|]. split; [vm_compute; reflexivity|]. split; [vm_compute; reflexivity|].
  split; [|reflexivity].
  apply (refused_post_wedges_channel (mkChan MPSC 4 0 [(1, true)] true true 0 1 0 None [1] [])
    (mkChan MPSC 4 0 [(1, true)] true true 0 0 0 None [1] []) [Claim 2; Publish 1 true; Poke]); vm_compute; reflexivity.
Defined.

(** A channel over an SPSC ring strands items at the wrap point.  A drain hands
    over one contiguous span, so when the items reach past the end of the buffer
    those after it stay in the ring: with capacity 4, after three items were
    consumed and three more pushed, the drain delivers one, two remain, and no
    producer is on its way, no drain queued and none running. *)
Theorem spsc_channel_strands_at_wrap :
  exists s, run [Attach; Claim 1; Claim 2; Claim 3; Poke; Post true; Poke; Poke; Start; Span;
                 Claim 4; Poke; Post true; Claim 5; Poke; Claim 6; Poke; Start; Span] (channel SPSC 4) = Some s /\
    delivered s = [[1; 2; 3]; [4]] /\ map fst (cells s) = [5; 6] /\
    pokers s = O /\ posters s = O /\ queued s = O /\ chunk s = None.
Proof. eexists. split; [vm_compute; reflexivity|]. repeat split. Qed.

(** What is pushed before the receiver attaches waits for a later push.  The
    producer finds no valid mailbox and posts nothing, and [attach] does not drain:
    the published item stays in the ring with nobody on the way to it. *)
Lemma push_before_attach_strands :
  exists s, run [Claim 1; Publish 0 true; Poke; Attach] (channel MPSC 4) = Some s /\
    head_visible (cells s) = true /\ delivered s = [] /\
    pokers s = O /\ posters s = O /\ queued s = O /\ chunk s = None.
Proof. eexists. split; [vm_compute; reflexivity|]. repeat split. Qed.

End Channel.
