(* ===== verification/Fan.v ===== *)
(** * Fan: dispatch over a set of mailboxes

    [Fan] of [src/include/afx/itc/fan.hpp]: which mailbox an item goes to.  Posting
    itself is Mailbox.v. *)

From stdpp Require Import base option gmap list.
From Stdlib Require Import ZArith Lia.
From S2P Require Import Prelude.
Local Open Scope Z_scope.
Local Open Scope afx_scope.

Module Fan.

Inductive FanMode := RoundRobin | Hash | Broadcast.

Section Item.
Context {T : Type}.

(** [n] is the number of mailboxes; a [HashBy] constructor gives a key function. *)
Record Fan := mkFan { n : Z; mode_ : FanMode; key_fn_ : option (T -> Z); rr_ : Z }.

Definition make (n : Z) (mode : FanMode) : Fan := mkFan n mode None 0.
Definition make_hash (n : Z) (key : T -> Z) : Fan := mkFan n Hash (Some key) 0.

Definition pick (item : T) (f : Fan) : Z * Fan :=
  match mode_ f, key_fn_ f with
  | Hash, Some key => (u64 (key item) mod n f, f)
  | _, _ => (u64 (rr_ f) mod n f, mkFan (n f) (mode_ f) (key_fn_ f) (rr_ f ⊞ 1))
  end.

(** The mailbox an item is posted to; without mailboxes it is refused as closed. *)
Definition dispatch (item : T) (f : Fan) : option Z * Fan :=
  if n f =? 0 then (None, f) else let '(i, f) := pick item f in (Some i, f).

Fixpoint dispatch_all (items : list T) (f : Fan) : list (option Z) * Fan :=
  match items with
  | [] => ([], f)
  | x :: r => let '(i, f) := dispatch x f in let '(is_, f) := dispatch_all r f in (i :: is_, f)
  end.

Definition broadcast (f : Fan) : list Z := seqZ 0 (n f).

Lemma dispatch_all_round_robin items f :
  0 < n f -> (mode_ f = Hash -> key_fn_ f = None) -> 0 <= rr_ f -> rr_ f + zlen items <= 2 ^ 64 ->
  fst (dispatch_all items f) = (fun k => Some (k mod n f)) <$> seqZ (rr_ f) (zlen items).
Proof.
  revert f. induction items as [|x r IH]; intros f Hn Hm H0 Hb; [done|].
  rewrite zlen_cons in *. pose proof (zlen_nonneg r). rewrite seqZ_cons by lia.
  change (fmap ?g (?a :: ?l)) with (g a :: (g <$> l)). cbn [dispatch_all]. unfold dispatch. rewrite (proj2 (Z.eqb_neq _ _)) by lia.
  assert (pick x f = (rr_ f mod n f, mkFan (n f) (mode_ f) (key_fn_ f) (rr_ f ⊞ 1))) as ->.
  { unfold pick. rewrite u64_small by lia. destruct (mode_ f); [done| |done]. by rewrite Hm. }
  assert (u64 (rr_ f + 1) = rr_ f + 1 \/ r = []) as Hw.
  { destruct (decide (r = [])) as [|Hr]; [by right|]. left. apply u64_small. destruct r; [done|]. rewrite zlen_cons in *.
    pose proof (zlen_nonneg r). lia. }
  destruct Hw as [Hw| ->]; [|reflexivity].
  rewrite Hw. specialize (IH (mkFan (n f) (mode_ f) (key_fn_ f) (rr_ f + 1))). cbn in IH.
  destruct (dispatch_all r _) as [l f']. simpl in *. rewrite IH by (auto; lia). f_equal. f_equal. f_equal; lia.
Qed.

(** A hashing fan is shard affine.  Whatever was dispatched before, two items
    with the same key go to the same mailbox, and it is one of the fan's. *)
Theorem fan_hash_is_affine nb key (before between : list T) x y :
  0 < nb -> u64 (key x) = u64 (key y) ->
  let f := snd (dispatch_all before (make_hash nb key)) in
  exists i, fst (dispatch x f) = Some i /\ fst (dispatch y (snd (dispatch_all between (snd (dispatch x f))))) = Some i /\
    0 <= i < nb.
Proof.
  intros Hn E. assert (forall items, snd (dispatch_all items (make_hash nb key)) = make_hash nb key) as Hs.
  { induction items as [|z r IH]; [done|]. cbn [dispatch_all]. unfold dispatch. cbn.
    rewrite (proj2 (Z.eqb_neq _ _)) by lia. cbn. by destruct (dispatch_all r _). }
  cbv zeta. rewrite Hs. exists (u64 (key x) mod nb). unfold dispatch at 1 3. cbn. rewrite (proj2 (Z.eqb_neq _ _)) by lia. cbn.
  fold (make_hash nb key). rewrite Hs. unfold dispatch. cbn. rewrite (proj2 (Z.eqb_neq _ _)) by lia. cbn.
  rewrite <- E. split; [done|]. split; [done|]. apply Z.mod_pos_bound. lia.
Qed.

End Item.
End Fan.
