(* ===== verification/Barrier.v ===== *)
(** * Barrier

    [Barrier::arrive_all] of [src/include/afx/itc/barrier.hpp]: a task per mailbox
    that runs [per_shard] and counts down a shared counter.  Whether a mailbox accepts
    the task is up to the environment; the loops interleave at the counter. *)

From stdpp Require Import base option gmap list.
From Stdlib Require Import ZArith Lia.
From S2P Require Import Prelude.
Local Open Scope Z_scope.
Local Open Scope afx_scope.

Module Barrier.

(** Where the task of a mailbox is. *)
Inductive Task := Refused | Posted | Ran | Arrived.
Inductive Event := EShard (i : nat) | EDone (i : nat).

(** The events are listed latest first. *)
Record State := mkState { remaining : Z; tasks : list Task; events : list Event }.

(** One answer of a mailbox per mailbox. *)
Definition arrive_all (accepts : list bool) : State :=
  mkState (zlen accepts) (map (fun ok : bool => if ok then Posted else Refused) accepts) [].

(** The task of mailbox [i] runs [shard_fn], then counts down. *)
Definition step (s : State) (i : nat) : State :=
  match tasks s !! i with
  | Some Posted => mkState (remaining s) (<[i := Ran]> (tasks s)) (EShard i :: events s)
  | Some Ran =>
      mkState (remaining s ⊟ 1) (<[i := Arrived]> (tasks s))
        (if remaining s =? 1 then EDone i :: events s else events s)
  | _ => s
  end.

Definition run (schedule : list nat) (s : State) : State := foldl step s schedule.

Definition is_arrived (t : Task) : bool := match t with Arrived => true | _ => false end.
Definition is_shard (e : Event) : bool := match e with EShard _ => true | _ => false end.

Record inv (accepts : list bool) (s : State) : Prop := {
  in_len : length (tasks s) = length accepts;
  in_refused : forall i, accepts !! i = Some false -> tasks s !! i = Some Refused;
  in_count : remaining s = zlen accepts - Z.of_nat (count_if is_arrived (tasks s));
  in_ran : forall i, tasks s !! i = Some Ran \/ tasks s !! i = Some Arrived -> EShard i ∈ events s;
  in_done : if remaining s =? 0 then exists i l, events s = EDone i :: l /\ forallb is_shard l = true
            else forallb is_shard (events s) = true }.

Lemma init_inv accepts : accepts <> [] -> inv accepts (arrive_all accepts).
Proof.
  intros Hn. constructor; cbn.
  - apply length_map.
  - intros i Hi. change (((fun ok : bool => if ok then Posted else Refused) <$> accepts) !! i = Some Refused).
    by rewrite list_lookup_fmap, Hi.
  - assert (count_if is_arrived (map (fun ok : bool => if ok then Posted else Refused) accepts) = 0%nat) as ->; [|lia].
    clear. induction accepts as [|[] l IH]; [done|exact IH|exact IH].
  - intros i. change (map ?f ?l) with (f <$> l). rewrite list_lookup_fmap. by destruct (accepts !! i) as [[]|]; intros [?|?].
  - destruct accepts; [done|]. rewrite zlen_cons, (proj2 (Z.eqb_neq _ _)); [done|]. pose proof (zlen_nonneg accepts). lia.
Qed.

Lemma barrier_step_inv accepts s i : zlen accepts < 2 ^ 64 -> inv accepts s -> inv accepts (step s i).
Proof.
  intros Hb [L R C E D]. unfold step. destruct (tasks s !! i) as [t|] eqn:Ei; [|by constructor].
  assert (i < length (tasks s))%nat as Hi by (by apply lookup_lt_Some in Ei).
  destruct t; try (by constructor); constructor; cbn; try (by rewrite length_insert).
  - intros j Hj. rewrite list_lookup_insert_ne; [by apply R|]. intros ->. by rewrite R in Ei.
  - rewrite C. f_equal. f_equal. pose proof (count_if_insert is_arrived (tasks s) i Posted Ran Ei) as H. cbn in H. lia.
  - intros j Hj. destruct (decide (i = j)) as [->|]; [by left|]. rewrite list_lookup_insert_ne in Hj by done. right. auto.
  - destruct (remaining s =? 0) eqn:Er; [|done]. exfalso. apply Z.eqb_eq in Er.
    assert (count_if is_arrived (tasks s) = length (tasks s)) as Hc by (unfold zlen in C; lia).
    by specialize (count_if_full _ _ Hc i Posted Ei).
  - intros j Hj. rewrite list_lookup_insert_ne; [by apply R|]. intros ->. by rewrite R in Ei.
  - pose proof (count_if_insert is_arrived (tasks s) i Ran Arrived Ei) as H. cbn in H.
    pose proof (count_if_length is_arrived (<[i:=Arrived]> (tasks s))) as H2. rewrite length_insert in H2.
    rewrite u64_small; unfold zlen in *; lia.
  - intros j Hj. assert (EShard j ∈ events s) as Hin.
    { destruct (decide (i = j)) as [->|]; [apply E; by left|]. rewrite list_lookup_insert_ne in Hj by done. auto. }
    destruct (_ =? 1); [by right|done].
  - assert (0 < remaining s < 2 ^ 64) as Hr.
    { pose proof (count_if_length is_arrived (tasks s)). destruct (decide (count_if is_arrived (tasks s) = length (tasks s))) as [Hc|].
      - by specialize (count_if_full _ _ Hc i Ran Ei).
      - unfold zlen in *. lia. }
    rewrite u64_small by lia. rewrite (proj2 (Z.eqb_neq (remaining s) 0)) in D by lia.
    destruct (remaining s =? 1) eqn:E1; [apply Z.eqb_eq in E1|apply Z.eqb_neq in E1].
    + rewrite (proj2 (Z.eqb_eq _ _)) by lia. eauto.
    + by rewrite (proj2 (Z.eqb_neq _ _)) by lia.
Qed.

Lemma barrier_run_inv accepts schedule s : zlen accepts < 2 ^ 64 -> inv accepts s -> inv accepts (run schedule s).
Proof. intros Hb. unfold run. revert s. induction schedule as [|i l IH]; intros s H; [done|]. apply IH. by apply barrier_step_inv. Qed.

(** Progress: how many moves the task of a mailbox has behind it. *)
Definition stage (s : State) (i : nat) : nat :=
  match tasks s !! i with Some Arrived => 2 | Some Ran => 1 | _ => 0 end.

Lemma step_stage s i j : (stage s j <= stage (step s i) j)%nat.
Proof.
  unfold stage, step. destruct (tasks s !! i) as [[]|] eqn:Ei; cbn; try lia;
    (destruct (decide (i = j)) as [->|]; [rewrite list_lookup_insert_eq by (by apply lookup_lt_Some in Ei); rewrite Ei; lia
      |rewrite list_lookup_insert_ne by done; lia]).
Qed.

Definition accepted (s : State) (i : nat) : Prop := exists t, tasks s !! i = Some t /\ t <> Refused.

Lemma step_accepted s i j : accepted s j -> accepted (step s i) j.
Proof.
  intros (t & Ht & Hn). unfold accepted, step. destruct (tasks s !! i) as [[]|] eqn:Ei; cbn; try (by eexists);
    (destruct (decide (i = j)) as [->|]; [rewrite list_lookup_insert_eq by (by apply lookup_lt_Some in Ei)|
      rewrite list_lookup_insert_ne by done]; by eexists).
Qed.

Lemma run_stage schedule s i : accepted s i -> (Nat.min 2 (stage s i + count_if (Nat.eqb i) schedule) <= stage (run schedule s) i)%nat.
Proof.
  unfold run. revert s. induction schedule as [|j l IH]; intros s Ha; cbn [foldl count_if]; [lia|].
  specialize (IH (step s j) (step_accepted _ _ _ Ha)). pose proof (step_stage s j i). destruct (Nat.eqb_spec i j) as [->|]; [|lia].
  assert (stage (step s j) j = Nat.min 2 (S (stage s j))) as Hs; [|lia].
  destruct Ha as (t & Ht & Hn). unfold stage, step. rewrite Ht. pose proof (lookup_lt_Some _ _ _ Ht).
  destruct t; try done; cbn; rewrite ?list_lookup_insert_eq by done; rewrite ?Ht; done.
Qed.

Lemma arrive_accepted accepts i : forallb id accepts = true -> (i < length accepts)%nat -> accepted (arrive_all accepts) i.
Proof.
  intros Ha Hi. destruct (lookup_lt_is_Some_2 accepts i Hi) as [b Hb]. exists Posted. split; [|done]. cbn.
  change (map ?f ?l) with (f <$> l). rewrite list_lookup_fmap, Hb. cbn. destruct b; [done|].
  apply forallb_forall with (x := false) in Ha; [done|]. apply list_elem_of_In. by apply list_elem_of_lookup_2 with i.
Qed.

(** C38: A barrier runs [done] exactly once, after every shard.  For any interleaving
    of the loops, [done] is run at most once and is then the last thing to happen, after
    every mailbox's [per_shard]; when a mailbox refused the post it never runs;
    and when all accepted it has run as soon as every loop made its two moves. *)
Theorem barrier_done_once accepts schedule :
  accepts <> [] -> zlen accepts < 2 ^ 64 ->
  let s := run schedule (arrive_all accepts) in
  (forall l i r, events s = l ++ EDone i :: r ->
     l = [] /\ forallb is_shard r = true /\ (forall j, (j < length accepts)%nat -> EShard j ∈ r)) /\
  (forallb id accepts = false -> forallb is_shard (events s) = true) /\
  (forallb id accepts = true -> (forall j, (j < length accepts)%nat -> (2 <= count_if (Nat.eqb j) schedule)%nat) ->
     exists i r, events s = EDone i :: r).
Proof.
  intros Hn Hb s. pose proof (barrier_run_inv accepts schedule _ Hb (init_inv accepts Hn)) as [L R C E D]. fold s in L, R, C, E, D.
  split; [|split].
  - intros l i r He. destruct (remaining s =? 0) eqn:Er.
    + destruct D as (i' & l' & He' & Hl). rewrite He' in He. destruct l as [|e l]; simpl in He; simplify_eq.
      * split; [done|]. split; [done|]. intros j Hj. apply Z.eqb_eq in Er.
        assert (count_if is_arrived (tasks s) = length (tasks s)) as Hc by (unfold zlen in C; lia).
        destruct (lookup_lt_is_Some_2 (tasks s) j) as [t Ht]; [lia|].
        pose proof (count_if_full _ _ Hc j t Ht). destruct t; try done. specialize (E j (or_intror Ht)). rewrite He' in E.
        apply elem_of_cons in E as [?|?]; done.
      * rewrite forallb_app in Hl. cbn in Hl. by rewrite andb_false_r in Hl.
    + rewrite He, forallb_app in D. cbn in D. by rewrite andb_false_r in D.
  - intros Hf. destruct (remaining s =? 0) eqn:Er; [|done]. apply Z.eqb_eq in Er.
    assert (count_if is_arrived (tasks s) = length (tasks s)) as Hc by (unfold zlen in C; lia).
    assert (exists i, accepts !! i = Some false) as [i Hi].
    { clear -Hf. induction accepts as [|[] l IH]; [done| |by exists O]. destruct (IH Hf) as [i Hi]. by exists (S i). }
    by specialize (count_if_full _ _ Hc i _ (R i Hi)).
  - intros Ha Hs. assert (count_if is_arrived (tasks s) = length (tasks s)) as Hc.
    { apply count_if_all. intros i t Ht. pose proof (lookup_lt_Some _ _ _ Ht). specialize (Hs i ltac:(lia)).
      pose proof (run_stage schedule (arrive_all accepts) i (arrive_accepted accepts i Ha ltac:(lia))) as Hst. fold s in Hst.
      unfold stage in Hst at 2. rewrite Ht in Hst. destruct t; [lia..|done]. }
    rewrite (proj2 (Z.eqb_eq _ _)) in D by (unfold zlen in C; lia). destruct D as (i & r & He & _). eauto.
Qed.

Lemma barrier_done_once_witness :
  let s := run [0; 1; 1; 0; 2; 2]%nat (arrive_all [true; true; true]) in
  exists i r, events s = EDone i :: r.
Proof.
  refine (proj2 (proj2 (barrier_done_once [true; true; true] [0; 1; 1; 0; 2; 2]%nat _ _)) _ _).
  - discriminate.
  - reflexivity.
  - reflexivity.
  - intros [|[|[|j]]] Hj; cbn in *; lia.
Defined.

End Barrier.
