(* ===== verification/Sharded.v ===== *)
(** * Sharded values

    [Sharded] of [src/include/afx/itc/sharded.hpp]: a value per loop, constructed and
    invoked through its loop's mailbox, and [map_reduce], whose tasks interleave at
    their accesses to the shared accumulator and counter.  Whether a mailbox accepts
    a task is up to the environment. *)

From stdpp Require Import base option gmap list.
From Stdlib Require Import ZArith Lia.
From S2P Require Import Prelude.
Local Open Scope Z_scope.
Local Open Scope afx_scope.

Module Sharded.

Section Slots.
Context {T : Type}.

(** The tasks of a shard's mailbox run in the order they were accepted. *)
Inductive Task := Construct (v : T) | Invoke (f : T -> T).
Record Slot := mkSlot { queue : list Task; value : option T }.

(** The constructor posts the construction to each shard. *)
Definition make (factory : nat -> T) (accepts : list bool) : list Slot :=
  imap (fun i (ok : bool) => mkSlot (if ok then [Construct (factory i)] else []) None) accepts.

Definition invoke_on (i : nat) (f : T -> T) (accepted : bool) (ss : list Slot) : list Slot :=
  if accepted then alter (fun s => mkSlot (queue s ++ [Invoke f]) (value s)) i ss else ss.

Definition run_task (t : Task) (v : option T) : option T :=
  match t with Construct x => Some x | Invoke f => match v with Some x => Some (f x) | None => None end end.

(** The loop of shard [i] runs all its tasks. *)
Definition drain (i : nat) (ss : list Slot) : list Slot :=
  alter (fun s => mkSlot [] (foldl (fun v t => run_task t v) (value s) (queue s))) i ss.

(** Invocations of an accepted shard run on its own value, in order, after its
    construction. *)
Lemma invoke_after_construct factory accepts i (fs : list (T -> T)) :
  accepts !! i = Some true ->
  drain i (foldl (fun ss f => invoke_on i f true ss) (make factory accepts) fs) !! i =
  Some (mkSlot [] (Some (foldl (fun v f => f v) (factory i) fs))).
Proof.
  intros Hi.
  assert (forall fs q v ss, ss !! i = Some (mkSlot q v) ->
    foldl (fun ss f => invoke_on i f true ss) ss fs !! i = Some (mkSlot (q ++ map Invoke fs) v)) as Hq.
  { clear. induction fs as [|f fs IH]; intros q v ss Hs; cbn [foldl map]; [by rewrite app_nil_r|].
    rewrite (IH (q ++ [Invoke f]) v); [by rewrite <- app_assoc|]. unfold invoke_on. by rewrite list_lookup_alter_eq, Hs. }
  unfold drain. rewrite list_lookup_alter_eq. erewrite Hq.
  2:{ unfold make. rewrite list_lookup_imap, Hi. reflexivity. }
  cbn. do 2 f_equal. generalize (factory i). clear. induction fs as [|f fs IH]; intros v; [done|]. cbn. apply IH.
Qed.

End Slots.

Section MapReduce.
Context {R : Type} `{!EqDecision R}.
Implicit Types (reduce : R -> R -> R) (results : list (option R)).

(** Where the task of a shard is: it has mapped, has loaded the accumulator, has
    folded its result, is the last to report, has reported. *)
Inductive pc := Refused | Posted | Mapped (r : R) | Loaded (r cur : R) | Folded | Last | Arrived.

(** [order] lists the shards in the order their results were folded. *)
Record State := mkState { remaining : Z; acc : R; pcs : list pc; order : list nat; done : list R }.

Definition map_reduce (r0 : R) (accepts : list bool) : State :=
  mkState (zlen accepts) r0 (map (fun ok : bool => if ok then Posted else Refused) accepts) [] [].

Definition set_pc (i : nat) (p : pc) (s : State) : State :=
  mkState (remaining s) (acc s) (<[i := p]> (pcs s)) (order s) (done s).

(** The next access of shard [i]; [results] is what [map] gives on each shard, none
    for a shard without a value, and the exchange may fail spuriously. *)
Definition step reduce results (s : State) (m : nat * bool) : State :=
  let '(i, spurious) := m in
  match pcs s !! i with
  | Some Posted => set_pc i (match results !! i with Some (Some r) => Mapped r | _ => Folded end) s
  | Some (Mapped r) => set_pc i (Loaded r (acc s)) s
  | Some (Loaded r cur) =>
      if negb spurious && bool_decide (acc s = cur) then
        mkState (remaining s) (reduce cur r) (<[i := Folded]> (pcs s)) (order s ++ [i]) (done s)
      else set_pc i (Loaded r (acc s)) s
  | Some Folded =>
      mkState (remaining s ⊟ 1) (acc s) (<[i := if remaining s =? 1 then Last else Arrived]> (pcs s)) (order s) (done s)
  | Some Last => mkState (remaining s) (acc s) (<[i := Arrived]> (pcs s)) (order s) (done s ++ [acc s])
  | _ => s
  end.

Definition run reduce results (schedule : list (nat * bool)) (s : State) : State := foldl (step reduce results) s schedule.

Definition result results (i : nat) : option R := mjoin (results !! i).
Definition is_reported (p : pc) : bool := match p with Last | Arrived => true | _ => false end.
Definition is_last (p : pc) : bool := match p with Last => true | _ => false end.
Definition is_folded (p : pc) : bool := match p with Folded | Last | Arrived => true | _ => false end.

Record inv r0 reduce results (accepts : list bool) (s : State) : Prop := {
  iv_len : length (pcs s) = length accepts;
  iv_refused : forall i, accepts !! i = Some false -> pcs s !! i = Some Refused;
  iv_count : remaining s = zlen accepts - Z.of_nat (count_if is_reported (pcs s));
  iv_acc : acc s = foldl reduce r0 (omap (result results) (order s));
  iv_nodup : NoDup (order s);
  iv_order : forall i, i ∈ order s <-> exists p r, pcs s !! i = Some p /\ is_folded p = true /\ result results i = Some r;
  iv_result : forall i r, pcs s !! i = Some (Mapped r) \/ (exists cur, pcs s !! i = Some (Loaded r cur)) -> result results i = Some r;
  iv_done : (Z.of_nat (count_if is_last (pcs s)) + zlen (done s) = if remaining s =? 0 then 1 else 0) /\
            Forall (eq (acc s)) (done s) }.

(** While a shard has not reported, [done] has not run. *)
Lemma pending_done r0 reduce results accepts s i p :
  inv r0 reduce results accepts s -> pcs s !! i = Some p -> is_reported p = false ->
  0 < remaining s <= zlen accepts /\ done s = [] /\ count_if is_last (pcs s) = O.
Proof.
  intros [L _ C _ _ _ _ [D _]] Hp Hr. pose proof (count_if_length is_reported (pcs s)) as Hl.
  assert (count_if is_reported (pcs s) <> length (pcs s)) as Hne.
  { intros Hc. pose proof (count_if_full _ _ Hc i p Hp). congruence. }
  unfold zlen in *. rewrite (proj2 (Z.eqb_neq _ _)) in D by lia. split; [lia|].
  split; [destruct (done s); [done|cbn in D; lia]|lia].
Qed.

Lemma map_reduce_inv r0 reduce results accepts : accepts <> [] -> inv r0 reduce results accepts (map_reduce r0 accepts).
Proof.
  intros Hn. assert (forall i p, pcs (map_reduce r0 accepts) !! i = Some p -> p = Posted \/ p = Refused) as Hp.
  { intros i p. cbn. change (map ?f ?l) with (f <$> l). rewrite list_lookup_fmap. destruct (accepts !! i) as [[]|]; cbn; intros; simplify_eq; auto. }
  assert (forall P : pc -> bool, P Posted = false -> P Refused = false -> count_if P (pcs (map_reduce r0 accepts)) = O) as Hc.
  { intros P H1 H2. cbn. clear -H1 H2. induction accepts as [|[] l IH]; cbn; [done|by rewrite H1|by rewrite H2]. }
  constructor.
  - apply length_map.
  - intros i Hi. cbn. change (map ?f ?l) with (f <$> l). by rewrite list_lookup_fmap, Hi.
  - rewrite Hc by done. cbn. lia.
  - done.
  - constructor.
  - intros i. split; [intros H; by apply elem_of_nil in H|]. intros (p & r & H & Hf & _). by destruct (Hp i p H) as [-> | ->].
  - intros i r [H|[cur H]]; by destruct (Hp _ _ H).
  - rewrite Hc by done. split; [|constructor]. cbn. destruct accepts; [done|]. rewrite zlen_cons, (proj2 (Z.eqb_neq _ _)); [done|].
    pose proof (zlen_nonneg accepts). lia.
Qed.

(** A move that only changes where a shard is. *)
Lemma set_pc_inv r0 reduce results accepts s i p q :
  inv r0 reduce results accepts s -> pcs s !! i = Some p -> p <> Refused ->
  is_reported p = false -> is_reported q = false -> is_folded p = false ->
  (is_folded q = true -> result results i = None) ->
  (forall r, q = Mapped r \/ (exists cur, q = Loaded r cur) -> result results i = Some r) ->
  inv r0 reduce results accepts (set_pc i q s).
Proof.
  intros H Hp Hn Rp Rq Fp Fq Hq. pose proof (lookup_lt_Some _ _ _ Hp) as Hi.
  destruct (pending_done _ _ _ _ _ _ _ H Hp Rp) as (Hr & Hd & Hl). destruct H as [L F C A N O V [D D2]].
  assert (is_last p = false /\ is_last q = false) as [Lp Lq] by (by destruct p, q).
  constructor; cbn; try done.
  - by rewrite length_insert.
  - intros j Hj. destruct (decide (i = j)) as [->|]; [|rewrite list_lookup_insert_ne by done; auto]. rewrite F in Hp by done. congruence.
  - pose proof (count_if_insert is_reported _ _ _ q Hp) as E. rewrite Rp, Rq in E. lia.
  - intros j. rewrite O. destruct (decide (i = j)) as [->|]; [|by rewrite list_lookup_insert_ne by done].
    rewrite list_lookup_insert_eq by done. split; intros (x & r & Hx & Hf & Hv); [congruence|].
    injection Hx as <-. by rewrite Fq in Hv.
  - intros j r. destruct (decide (i = j)) as [->|]; [|rewrite list_lookup_insert_ne by done; auto].
    rewrite list_lookup_insert_eq by done. intros [Hx|[cur Hx]]; simplify_eq; apply Hq; eauto.
  - split; [|done]. pose proof (count_if_insert is_last _ _ _ q Hp) as E. rewrite Lp, Lq in E. lia.
Qed.

(** A successful exchange. *)
Lemma fold_inv r0 reduce results accepts s i r :
  inv r0 reduce results accepts s -> pcs s !! i = Some (Loaded r (acc s)) ->
  inv r0 reduce results accepts (mkState (remaining s) (reduce (acc s) r) (<[i := Folded]> (pcs s)) (order s ++ [i]) (done s)).
Proof.
  intros H Hp. pose proof (lookup_lt_Some _ _ _ Hp) as Hi.
  destruct (pending_done _ _ _ _ _ _ _ H Hp eq_refl) as (Hr & Hd & Hl). destruct H as [L F C A N O V [D D2]].
  assert (result results i = Some r) as Hv by (apply V; eauto).
  assert (i ∉ order s) as Hni by (rewrite O; intros (p & r' & Hx & Hf & _); by simplify_eq).
  constructor; cbn.
  - by rewrite length_insert.
  - intros j Hj. destruct (decide (i = j)) as [->|]; [|rewrite list_lookup_insert_ne by done; auto]. by rewrite F in Hp.
  - pose proof (count_if_insert is_reported _ _ _ Folded Hp) as E. cbn in E. lia.
  - rewrite omap_app, foldl_app, <- A. cbn. by rewrite Hv.
  - apply NoDup_app. split; [done|]. split; [|apply NoDup_singleton]. intros j Hj Hx. apply list_elem_of_singleton in Hx. by subst.
  - intros j. rewrite elem_of_app, list_elem_of_singleton, O. destruct (decide (i = j)) as [->|Hne].
    + rewrite list_lookup_insert_eq by done. split; [intros _; eauto|by right].
    + rewrite list_lookup_insert_ne by done. split; [intros [?|?]; [done|by subst]|by left].
  - intros j r'. destruct (decide (i = j)) as [->|]; [|rewrite list_lookup_insert_ne by done; auto].
    rewrite list_lookup_insert_eq by done. intros [Hx|[cur Hx]]; done.
  - rewrite Hd. split; [|constructor]. pose proof (count_if_insert is_last _ _ _ Folded Hp) as E. cbn in E. rewrite Hd in D. lia.
Qed.

(** Moving a folded shard on keeps what concerns the fold. *)
Lemma report_frame r0 reduce results accepts s i p q rem d :
  inv r0 reduce results accepts s -> pcs s !! i = Some p -> is_folded p = true -> is_folded q = true ->
  rem = zlen accepts - Z.of_nat (count_if is_reported (<[i := q]> (pcs s))) ->
  (Z.of_nat (count_if is_last (<[i := q]> (pcs s))) + zlen d = if rem =? 0 then 1 else 0) -> Forall (eq (acc s)) d ->
  inv r0 reduce results accepts (mkState rem (acc s) (<[i := q]> (pcs s)) (order s) d).
Proof.
  intros [L F C A N O V [D D2]] Hp Fp Fq Hrem Hd Hd2. pose proof (lookup_lt_Some _ _ _ Hp) as Hi. constructor; cbn; try done.
  - by rewrite length_insert.
  - intros j Hj. destruct (decide (i = j)) as [->|]; [|rewrite list_lookup_insert_ne by done; auto]. rewrite F in Hp by done. by simplify_eq.
  - intros j. rewrite O. destruct (decide (i = j)) as [->|]; [|by rewrite list_lookup_insert_ne by done].
    rewrite list_lookup_insert_eq by done. split; intros (x & r & Hx & Hf & Hv); eauto 6.
  - intros j r. destruct (decide (i = j)) as [->|]; [|rewrite list_lookup_insert_ne by done; auto].
    rewrite list_lookup_insert_eq by done. intros [Hx|[cur Hx]]; by simplify_eq.
Qed.

Lemma reduce_step_inv r0 reduce results accepts s m :
  zlen accepts < 2 ^ 64 -> inv r0 reduce results accepts s -> inv r0 reduce results accepts (step reduce results s m).
Proof.
  intros Hb H. destruct m as [i spurious]. unfold step. destruct (pcs s !! i) as [p|] eqn:Hp; [|done].
  destruct p as [| |r|r cur| | |]; try done.
  - apply (set_pc_inv _ _ _ _ _ _ Posted); try done; unfold result; destruct (results !! i) as [[r|]|]; cbn; try done;
      intros r' [Hx|[cur Hx]]; by simplify_eq.
  - apply (set_pc_inv _ _ _ _ _ _ (Mapped r)); try done. intros r' [Hx|[cur Hx]]; simplify_eq. apply (iv_result _ _ _ _ _ H). by left.
  - destruct (negb spurious && bool_decide (acc s = cur)) eqn:Ec.
    + apply andb_true_iff in Ec as [_ Ec]. apply bool_decide_eq_true in Ec. subst cur. by apply fold_inv.
    + apply (set_pc_inv _ _ _ _ _ _ (Loaded r cur)); try done. intros r' [Hx|[cur' Hx]]; simplify_eq.
      apply (iv_result _ _ _ _ _ H). eauto.
  - destruct (pending_done _ _ _ _ _ _ _ H Hp eq_refl) as (Hr & Hd & Hl).
    pose proof (iv_count _ _ _ _ _ H) as C. rewrite u64_small by lia.
    pose proof (count_if_insert is_reported _ _ _ Last Hp) as L1. pose proof (count_if_insert is_last _ _ _ Last Hp) as L2.
    pose proof (count_if_insert is_reported _ _ _ Arrived Hp) as A1. pose proof (count_if_insert is_last _ _ _ Arrived Hp) as A2.
    cbn in L1, L2, A1, A2. rewrite Hd.
    destruct (Z.eqb_spec (remaining s) 1) as [E|E]; apply (report_frame _ _ _ _ _ _ Folded); try done; try lia; try by constructor.
    + rewrite (proj2 (Z.eqb_eq (remaining s - 1) 0)) by lia. change (zlen []) with 0. lia.
    + rewrite (proj2 (Z.eqb_neq (remaining s - 1) 0)) by lia. change (zlen []) with 0. lia.
  - pose proof (count_if_insert is_reported _ _ _ Arrived Hp) as E1.
    pose proof (count_if_insert is_last _ _ _ Arrived Hp) as E2. cbn in E1, E2.
    destruct H as [L F C A N O V [D D2]] eqn:EH. clear EH. apply (report_frame _ _ _ _ _ _ Last); try done; [lia| |].
    + rewrite zlen_app. unfold zlen at 2. cbn. lia.
    + apply Forall_app. split; [done|]. by constructor.
Qed.

Lemma reduce_run_inv r0 reduce results accepts schedule s :
  zlen accepts < 2 ^ 64 -> inv r0 reduce results accepts s -> inv r0 reduce results accepts (run reduce results schedule s).
Proof.
  intros Hb. unfold run. revert s. induction schedule as [|m l IH]; intros s H; [done|]. apply IH. by apply reduce_step_inv.
Qed.

Lemma omap_result results : omap (result results) (seq 0 (length results)) = omap id results.
Proof.
  induction results as [|r l IH] using rev_ind; [done|]. rewrite length_app, Nat.add_comm. cbn [length Nat.add].
  rewrite seq_S, !omap_app. f_equal.
  - rewrite <- IH. apply list_omap_ext. apply Forall2_same_length_lookup_2; [done|]. intros i x y Hx Hy. simplify_eq.
    apply lookup_seq in Hx as [-> Hi]. unfold result. by rewrite lookup_app_l by done.
  - cbn. unfold result. rewrite lookup_app_r, Nat.sub_diag by lia. by destruct r.
Qed.

Lemma omap_filter_result results (l : list nat) :
  omap (result results) (filter (fun i => is_Some (result results i)) l) = omap (result results) l.
Proof.
  induction l as [|i l IH]; [done|]. rewrite filter_cons. destruct (decide _) as [[r Hr]|Hn]; cbn; rewrite IH; [done|].
  destruct (result results i) eqn:E; [|done]. destruct Hn. eauto.
Qed.

(** Once every shard reported, the folded results are those of all shards. *)
Lemma order_complete r0 reduce results accepts s :
  inv r0 reduce results accepts s -> length results = length accepts -> remaining s = 0 ->
  omap (result results) (order s) ≡ₚ omap id results.
Proof.
  intros [L _ C _ N O _ _] Hl Hr. rewrite <- omap_result, <- (omap_filter_result results (seq _ _)).
  assert (order s ≡ₚ filter (fun i => is_Some (result results i)) (seq 0 (length results))) as ->; [|done].
  apply NoDup_Permutation; [done|apply NoDup_filter, NoDup_seq|]. intros i. rewrite list_elem_of_filter, elem_of_seq, O.
  assert (count_if is_reported (pcs s) = length (pcs s)) as Hc by (unfold zlen in C; lia). split.
  - intros (p & r & Hp & _ & Hv). apply lookup_lt_Some in Hp. split; [by exists r|lia].
  - intros [[r Hv] Hi]. destruct (lookup_lt_is_Some_2 (pcs s) i) as [p Hp]; [lia|]. exists p, r. split; [done|]. split; [|done].
    pose proof (count_if_full _ _ Hc i p Hp). by destruct p.
Qed.

Lemma foldl_perm (f : R -> R -> R) :
  (forall a x y, f (f a x) y = f (f a y) x) -> forall l k, l ≡ₚ k -> forall a, foldl f a l = foldl f a k.
Proof.
  intros Hf l k Hp. induction Hp as [| x l k _ IH|x y l|l k m _ IH1 _ IH2]; intros a; cbn; [done|apply IH| |].
  - by rewrite Hf.
  - by rewrite IH1.
Qed.

(** Map-reduce folds every shard's result exactly once.  For any interleaving of
    the shards' loads, exchanges (failing spuriously or not) and countdowns, [done]
    runs at most once, and then with the fold, from the value-initialised
    accumulator, of exactly the results of all shards that have a value, in some
    order; in shard order when the order does not matter to [reduce].  When a
    mailbox refused the post, [done] never runs. *)
Theorem map_reduce_folds_all r0 reduce results accepts schedule :
  accepts <> [] -> zlen accepts < 2 ^ 64 -> length results = length accepts ->
  let s := run reduce results schedule (map_reduce r0 accepts) in
  (done s = [] \/ exists p v, done s = [v] /\ p ≡ₚ omap id results /\ v = foldl reduce r0 p /\
     ((forall a x y, reduce (reduce a x) y = reduce (reduce a y) x) -> v = foldl reduce r0 (omap id results))) /\
  (forallb id accepts = false -> done s = []).
Proof.
  intros Hn Hb Hl s. pose proof (reduce_run_inv r0 reduce results accepts schedule _ Hb (map_reduce_inv r0 reduce results accepts Hn)) as H.
  fold s in H. pose proof (iv_done _ _ _ _ _ H) as [D D2]. split.
  - destruct (done s) as [|v d] eqn:Ed; [by left|right]. rewrite zlen_cons in D. pose proof (zlen_nonneg d).
    destruct (Z.eqb_spec (remaining s) 0) as [Hr|]; [|lia]. destruct d; [|rewrite zlen_cons in D; pose proof (zlen_nonneg d); lia].
    pose proof (order_complete _ _ _ _ _ H Hl Hr) as Hp. apply Forall_cons in D2 as [<- _].
    eexists _, _. split; [done|]. split; [exact Hp|]. rewrite (iv_acc _ _ _ _ _ H). split; [done|]. intros Hc. by apply foldl_perm.
  - intros Hf. assert (exists i, accepts !! i = Some false) as [i Hi].
    { clear -Hf. induction accepts as [|[] l IH]; [done| |by exists O]. destruct (IH Hf) as [i Hi]. by exists (S i). }
    by destruct (pending_done _ _ _ _ _ i Refused H (iv_refused _ _ _ _ _ H i Hi)) as (_ & ? & _).
Qed.

End MapReduce.

Lemma map_reduce_folds_all_witness :
  let s := run Z.add [Some 5; None; Some 7] [(0, false); (2, false); (0, false); (2, false); (1, false); (0, false); (2, false);
             (2, true); (2, false); (0, false); (1, false); (2, false); (2, false)]%nat (map_reduce 0 [true; true; true]) in
  done s = [12] /\ (done s = [] \/ exists p v, done s = [v] /\ p ≡ₚ omap id [Some 5; None; Some 7] /\ v = foldl Z.add 0 p /\
     ((forall a x y, a + x + y = a + y + x) -> v = foldl Z.add 0 (omap id [Some 5; None; Some 7]))).
Proof.
  split; [vm_compute; reflexivity|].
  refine (proj1 (map_reduce_folds_all 0 Z.add [Some 5; None; Some 7] [true; true; true] _ _ _ _)); [discriminate|reflexivity|reflexivity].
Defined.

End Sharded.
