(* ===== verification/TimerService.v ===== *)
(** * Timers of the event manager

    The timer service of [BasicEventManager]
    ([src/include/afx/core/event_manager.hpp]): [arm] behind [after], [at] and
    [every], [cancel], [reschedule], [time_until], timer groups, [fire_timer],
    [expire_timers] and the timer part of [bookkeeping].  It joins the handle
    table, the wheel and the heap: a [TimerNode] lives in the table and is linked
    by its handle into the wheel or the heap.  A group is the sequence of its
    members (IntrusiveList.v).

    Timer callbacks are user code that may call the timer service again.  [user]
    gives the calls that a callback makes from the state it starts in; the service
    is deterministic, so this is every callback.  A callback that throws stops
    early, which is a shorter list of calls.

    [dangling] is not a field of the code: it records that the service was handed a
    node whose slot had been released, which in the code is an access to a
    destroyed object. *)

From stdpp Require Import base option gmap list.
From Stdlib Require Import ZArith Lia.
From S2P Require Import Prelude HandleTable TimerWheel TimerHeap.
Local Open Scope Z_scope.

Module Timers.
Import Handles.

Section Service.
Context {Fn Ctx : Type}.

(** ** Data *)

Inductive RepeatMode := FixedRate | FixedDelay.

Record TimerNode := mkNode {
  expiry : Z;            (* nanoseconds *)
  expiry_tick : Z;
  period : Z;
  mode : RepeatMode;
  fn : option Fn;
  group : Handle;
  ctx : option Ctx;
  id : Handle;
  cancelled : bool;
  precise_ : bool;
}.

Definition blank_node : TimerNode :=
  mkNode 0 0 0 FixedRate None null_handle None null_handle false false.

Record TimerCtx := mkTimerCtx { tc_id : Handle; scheduled : Z; tc_now : Z; missed : Z }.

Record Stats := mkStats {
  timers_armed : Z;
  timers_fired : Z;
  timers_cancelled : Z;
  timer_coalesced : Z;
  groups_cancelled : Z;
}.

Record Em := mkEm {
  now_ : Z;
  ctx_ : option Ctx;
  wheel_ : Wheel.TimerWheel;
  heap_ : Heap.TimerHeap;
  timers_ : HandleTable TimerNode;
  groups_ : HandleTable (list Handle);
  dead_timers_ : list Handle;
  stats_ : Stats;
  fired : list (option Fn * TimerCtx);   (* the callbacks invoked so far *)
  dangling : bool;
}.

Definition set_now (t : Z) (e : Em) : Em :=
  mkEm t (ctx_ e) (wheel_ e) (heap_ e) (timers_ e) (groups_ e) (dead_timers_ e) (stats_ e) (fired e) (dangling e).
Definition set_ctx (c : option Ctx) (e : Em) : Em :=
  mkEm (now_ e) c (wheel_ e) (heap_ e) (timers_ e) (groups_ e) (dead_timers_ e) (stats_ e) (fired e) (dangling e).
Definition set_wheel_ (w : Wheel.TimerWheel) (e : Em) : Em :=
  mkEm (now_ e) (ctx_ e) w (heap_ e) (timers_ e) (groups_ e) (dead_timers_ e) (stats_ e) (fired e) (dangling e).
Definition set_heap_ (h : Heap.TimerHeap) (e : Em) : Em :=
  mkEm (now_ e) (ctx_ e) (wheel_ e) h (timers_ e) (groups_ e) (dead_timers_ e) (stats_ e) (fired e) (dangling e).
Definition set_timers (t : HandleTable TimerNode) (e : Em) : Em :=
  mkEm (now_ e) (ctx_ e) (wheel_ e) (heap_ e) t (groups_ e) (dead_timers_ e) (stats_ e) (fired e) (dangling e).
Definition set_groups (g : HandleTable (list Handle)) (e : Em) : Em :=
  mkEm (now_ e) (ctx_ e) (wheel_ e) (heap_ e) (timers_ e) g (dead_timers_ e) (stats_ e) (fired e) (dangling e).
Definition set_dead (d : list Handle) (e : Em) : Em :=
  mkEm (now_ e) (ctx_ e) (wheel_ e) (heap_ e) (timers_ e) (groups_ e) d (stats_ e) (fired e) (dangling e).
Definition set_stats (s : Stats) (e : Em) : Em :=
  mkEm (now_ e) (ctx_ e) (wheel_ e) (heap_ e) (timers_ e) (groups_ e) (dead_timers_ e) s (fired e) (dangling e).
Definition set_dangling (e : Em) : Em :=
  mkEm (now_ e) (ctx_ e) (wheel_ e) (heap_ e) (timers_ e) (groups_ e) (dead_timers_ e) (stats_ e) (fired e) true.
Definition log_fired (f : option Fn) (tc : TimerCtx) (e : Em) : Em :=
  mkEm (now_ e) (ctx_ e) (wheel_ e) (heap_ e) (timers_ e) (groups_ e) (dead_timers_ e) (stats_ e)
    (fired e ++ [(f, tc)]) (dangling e).

Definition count_armed (s : Stats) : Stats :=
  mkStats (timers_armed s + 1) (timers_fired s) (timers_cancelled s) (timer_coalesced s) (groups_cancelled s).
Definition count_fired (s : Stats) : Stats :=
  mkStats (timers_armed s) (timers_fired s + 1) (timers_cancelled s) (timer_coalesced s) (groups_cancelled s).
Definition count_coalesced (n : Z) (s : Stats) : Stats :=
  mkStats (timers_armed s) (timers_fired s) (timers_cancelled s) (timer_coalesced s + n) (groups_cancelled s).
Definition count_cancelled (n g : Z) (s : Stats) : Stats :=
  mkStats (timers_armed s) (timers_fired s) (timers_cancelled s + n) (timer_coalesced s) (groups_cancelled s + g).

#[export] Instance Em_wheel : Wheel.HasWheel Em := {|
  Wheel.wheel_of := wheel_;
  Wheel.set_wheel := set_wheel_;
  Wheel.wheel_of_set w e := eq_refl;
|}.

#[export] Instance Em_heap : Heap.HasHeap Em := {|
  Heap.heap_of := heap_;
  Heap.set_heap := set_heap_;
  Heap.heap_of_set h e := eq_refl;
|}.

(** Stores to fields of a node. *)
Definition with_expiry (x tick : Z) (n : TimerNode) : TimerNode :=
  mkNode x tick (period n) (mode n) (fn n) (group n) (ctx n) (id n) (cancelled n) (precise_ n).
Definition with_cancelled (n : TimerNode) : TimerNode :=
  mkNode (expiry n) (expiry_tick n) (period n) (mode n) (fn n) null_handle (ctx n) (id n) true (precise_ n).
Definition with_group (g : Handle) (n : TimerNode) : TimerNode :=
  mkNode (expiry n) (expiry_tick n) (period n) (mode n) (fn n) g (ctx n) (id n) (cancelled n) (precise_ n).

(** ** Linking *)

(** [n.in_heap = false]. *)
Definition clear_in_heap (h : Handle) (q : Heap.TimerHeap) : Heap.TimerHeap :=
  Heap.mkHeap (Heap.heap_ q) (delete h (Heap.heap_idx_ q)).

Definition insert_timer (n : TimerNode) (e : Em) : Em :=
  let e := set_heap_ (clear_in_heap (id n) (heap_ e)) e in
  let now_tick := Wheel.now_tick_ (wheel_ e) in
  if Wheel.fits (expiry_tick n) now_tick && negb (precise_ n)
  then set_wheel_ (Wheel.insert (Wheel.mkWNode (id n) (expiry_tick n)) now_tick (wheel_ e)) e
  else set_heap_ (Heap.push (Heap.mkHNode (id n) (expiry n)) (heap_ e)) e.

Definition unlink_timer (h : Handle) (e : Em) : Em :=
  if Heap.in_heap h (heap_ e)
  then set_heap_ (Heap.remove h (heap_ e)) e
  else set_wheel_ (Wheel.unlink h (wheel_ e)) e.

(** [detail::glist_unlink]: out of the list of its group, if it is in one. *)
Definition glist_unlink (n : TimerNode) (e : Em) : Em :=
  set_groups (update (group n) (filter (fun h => h <> id n)) (groups_ e)) e.

Definition push_dead (h : Handle) (e : Em) : Em := set_dead (dead_timers_ e ++ [h]) e.

(** [n.expiry = x; n.expiry_tick = wheel_.tick_of(x); insert_timer(n);] *)
Definition rearm (h : Handle) (x : Z) (n : TimerNode) (e : Em) : Em :=
  let n' := with_expiry x (Wheel.tick_of (wheel_ e) x) n in
  insert_timer n' (set_timers (update h (fun _ => n') (timers_ e)) e).

(** ** The public operations *)

Definition arm (expiry period : Z) (mode : RepeatMode) (f : Fn) (g : Handle) (precise : bool) (e : Em)
  : Handle * Em :=
  let '(h, t) := emplace blank_node (timers_ e) in
  let joins := valid g && contains g (groups_ e) in
  let n := mkNode expiry (Wheel.tick_of (wheel_ e) expiry) period mode (Some f)
             (if joins then g else null_handle) (ctx_ e) h false precise in
  let e := set_timers (update h (fun _ => n) t) e in
  let e := if joins then set_groups (update g (fun ms => ms ++ [h]) (groups_ e)) e else e in
  let e := insert_timer n e in
  (h, set_stats (count_armed (stats_ e)) e).

Definition after (d : Z) (f : Fn) (g : Handle) (e : Em) : Handle * Em :=
  arm (now_ e + d) 0 FixedRate f g false e.
Definition at_ (t : Z) (f : Fn) (g : Handle) (e : Em) : Handle * Em :=
  arm t 0 FixedRate f g true e.
Definition every (period : Z) (f : Fn) (initial_delay : Z) (m : RepeatMode) (g : Handle) (e : Em)
  : Handle * Em :=
  let d := if initial_delay =? 0 then period else initial_delay in
  arm (now_ e + d) period m f g false e.

Definition cancel (h : Handle) (e : Em) : bool * Em :=
  match get h (timers_ e) with
  | None => (false, e)
  | Some n =>
      if cancelled n then (false, e)
      else
        let e := unlink_timer h e in
        let e := glist_unlink n e in
        let e := set_timers (update h with_cancelled (timers_ e)) e in
        let e := push_dead h e in
        (true, set_stats (count_cancelled 1 0 (stats_ e)) e)
  end.

Definition reschedule (h : Handle) (d : Z) (e : Em) : bool * Em :=
  match get h (timers_ e) with
  | None => (false, e)
  | Some n =>
      if cancelled n then (false, e)
      else
        let e := unlink_timer h e in
        (true, rearm h (now_ e + d) n e)
  end.

Definition time_until (h : Handle) (e : Em) : option Z :=
  match get h (timers_ e) with
  | None => None
  | Some n =>
      if cancelled n then None
      else Some (if now_ e <? expiry n then expiry n - now_ e else 0)
  end.

Definition make_timer_group (e : Em) : Handle * Em :=
  let '(g, t) := emplace [] (groups_ e) in (g, set_groups t e).

(** The loop of [cancel_group] over the members in order. *)
Fixpoint cancel_members (g : Handle) (ms : list Handle) (e : Em) : Em :=
  match ms with
  | [] => e
  | h :: ms =>
      let e := set_groups (update g (filter (fun x => x <> h)) (groups_ e)) e in
      let e := set_timers (update h with_cancelled (timers_ e)) e in
      let e := unlink_timer h e in
      cancel_members g ms (push_dead h e)
  end.

Definition cancel_group (g : Handle) (e : Em) : Z * Em :=
  match get g (groups_ e) with
  | None => (0, e)
  | Some ms =>
      let e := cancel_members g ms e in
      let n := zlen ms in
      (n, set_stats (count_cancelled n (if n =? 0 then 0 else 1) (stats_ e)) e)
  end.

(** The calls a callback, or code outside one, makes. *)
Inductive Op :=
  | OAfter (d : Z) (f : Fn) (g : Handle)
  | OAt (t : Z) (f : Fn) (g : Handle)
  | OEvery (p : Z) (f : Fn) (init : Z) (m : RepeatMode) (g : Handle)
  | OCancel (h : Handle)
  | OReschedule (h : Handle) (d : Z)
  | OMakeGroup
  | OCancelGroup (g : Handle).

Definition exec_op (o : Op) (e : Em) : Em :=
  match o with
  | OAfter d f g => (after d f g e).2
  | OAt t f g => (at_ t f g e).2
  | OEvery p f i m g => (every p f i m g e).2
  | OCancel h => (cancel h e).2
  | OReschedule h d => (reschedule h d e).2
  | OMakeGroup => (make_timer_group e).2
  | OCancelGroup g => (cancel_group g e).2
  end.

Definition exec_ops (os : list Op) (e : Em) : Em := foldl (fun e o => exec_op o e) e os.

(** ** Firing *)

(** [while (next <= now_) { next += n.period; ++tc.missed; }] *)
Fixpoint coalesce_loop (fuel : nat) (next period now missed : Z) : Z * Z :=
  match fuel with
  | O => (next, missed)
  | S f => if next <=? now then coalesce_loop f (next + period) period now (u32 (missed + 1))
           else (next, missed)
  end.

Definition coalesce (expiry period now : Z) : Z * Z :=
  let next := expiry + period in
  coalesce_loop (Z.to_nat ((now - next) / period + 2)) next period now 0.

Section Fire.
Variable user : option Fn -> TimerCtx -> Em -> list Op.

(** [run_guarded(n.ctx, ...)]: the callback runs under the timer's context. *)
Definition run_callback (c : option Ctx) (f : option Fn) (tc : TimerCtx) (e : Em) : Em :=
  let saved := ctx_ e in
  let e := set_ctx c (log_fired f tc e) in
  set_ctx saved (exec_ops (user f tc e) e).

Definition repeats (n : TimerNode) : bool := 0 <? period n.
Definition is_rate (n : TimerNode) : bool := match mode n with FixedRate => true | FixedDelay => false end.

(** [fire_timer] up to the callback: a fixed-rate timer skips the periods it has
    missed and is linked for the next one.  Also the number missed. *)
Definition prefire (h : Handle) (n : TimerNode) (e : Em) : Em * Z :=
  if repeats n && is_rate n then
    let '(next, miss) := coalesce (expiry n) (period n) (now_ e) in
    let e := set_stats (count_coalesced miss (stats_ e)) e in
    (rearm h next n e, miss)
  else (e, 0).

(** [fire_timer] after the callback; [n2] is the node then. *)
Definition postfire (h : Handle) (n n2 : TimerNode) (e : Em) : Em :=
  let e := if repeats n && negb (is_rate n) && negb (cancelled n2)
           then rearm h (now_ e + period n2) n2 e else e in
  if negb (repeats n) && negb (cancelled n2) then push_dead (id n2) (glist_unlink n2 e) else e.

Definition fire_timer (h : Handle) (e : Em) : Em :=
  match get h (timers_ e) with
  | None => set_dangling e
  | Some n =>
      if cancelled n then push_dead (id n) e
      else
        let '(e, miss) := prefire h n e in
        let tc := mkTimerCtx (id n) (expiry n) (now_ e) miss in
        let e := set_stats (count_fired (stats_ e)) e in
        let e := run_callback (ctx n) (fn n) tc e in
        match get h (timers_ e) with
        | None => set_dangling e
        | Some n2 => postfire h n n2 e
        end
  end.

(** [expire_timers]: the wheel first, then the heap; [fuel] bounds the callbacks of
    the heap's loop, which the source does not bound. *)
Definition expire_timers (fuel : nat) (e : Em) : Em :=
  let e := Wheel.advance (fun x => fire_timer (Wheel.node_id x))
             (Wheel.floor_tick (wheel_ e) (now_ e)) e in
  Heap.expire (fun x => fire_timer (Heap.hid x)) fuel (now_ e) e.

(** The reclamation of dead timers in [bookkeeping]. *)
Definition reclaim_timers (e : Em) : Em :=
  let t := foldl (fun t h => release h t) (timers_ e) (dead_timers_ e) in
  set_groups (reclaim (groups_ e)) (set_dead [] (set_timers (reclaim t) e)).

End Fire.

Definition make (tick first_gen : Z) : Em :=
  mkEm 0 None (Wheel.make tick) Heap.empty_heap (Handles.make first_gen) (Handles.make first_gen)
    [] (mkStats 0 0 0 0 0) [] false.

(** ** Invariant *)

(** A handle that resolves to a timer that is armed: neither cancelled nor waiting
    to be released. *)
Definition armed (e : Em) (h : Handle) (n : TimerNode) : Prop :=
  get h (timers_ e) = Some n /\ cancelled n = false /\ h ∉ dead_timers_ e.

Record em_ok (e : Em) : Prop := {
  eo_timers : wf (timers_ e);
  eo_groups : wf (groups_ e);
  eo_tick : 0 < Wheel.tick_ (wheel_ e);
  eo_id : forall h n, get h (timers_ e) = Some n -> id n = h;
  eo_wheel : forall x, x ∈ Wheel.nodes (wheel_ e) ->
      Heap.heap_idx_ (heap_ e) !! Wheel.node_id x = None /\
      exists n, armed e (Wheel.node_id x) n /\ expiry_tick n = Wheel.expiry_tick x;
  eo_heap_ok : Heap.heap_ok (heap_ e);
  eo_heap : forall x, x ∈ Heap.heap_ (heap_ e) ->
      exists n, armed e (Heap.hid x) n /\ expiry n = Heap.expiry x;
  eo_members : forall g ms, get g (groups_ e) = Some ms ->
      NoDup ms /\ forall h, h ∈ ms -> exists n, armed e h n /\ group n = g;
  eo_dead : forall h, h ∈ dead_timers_ e -> is_Some (get h (timers_ e));
  eo_safe : dangling e = false;
}.

(** Not linked into the wheel or the heap. *)
Definition unlinked (e : Em) (h : Handle) : Prop :=
  Heap.heap_idx_ (heap_ e) !! h = None /\ h ∉ Wheel.node_id <$> Wheel.nodes (wheel_ e).

(** What an operation may do to the wheel in the middle of a slot's expiry: it
    keeps the placement invariant and adds nothing to the current slot. *)
Definition keeps (Q : Z -> Z -> Z -> Prop) (w w' : Wheel.TimerWheel) : Prop :=
  Wheel.winv Q w' /\ Wheel.same_frame w w' /\
  (length (Wheel.bucket (Wheel.buckets_ w') 0 (Wheel.slot_of (Wheel.now_tick_ w) 0)) <=
   length (Wheel.bucket (Wheel.buckets_ w) 0 (Wheel.slot_of (Wheel.now_tick_ w) 0)))%nat.

Definition admits (Q : Z -> Z -> Z -> Prop) (now : Z) : Prop :=
  forall l j e, Wheel.pend (now + 1) l j e -> (l, j) <> (0, Wheel.slot_of now 0) -> Q l j e.

Lemma keeps_refl Q w : Wheel.winv Q w -> keeps Q w w.
Proof. intros Hw. split; [done|]. split; [|lia]. split_and!; done. Qed.

Lemma keeps_trans Q w1 w2 w3 : keeps Q w1 w2 -> keeps Q w2 w3 -> keeps Q w1 w3.
Proof.
  intros (H1 & (F1 & F2 & F3 & F4) & L1) (H2 & (G1 & G2 & G3 & G4) & L2).
  split; [done|]. split; [split_and!; congruence|]. rewrite F2 in L2. lia.
Qed.

Lemma filter_length_le {X} (P : X -> Prop) `{forall x, Decision (P x)} (l : list X) :
  (length (filter P l) <= length l)%nat.
Proof.
  induction l as [|x l IH]; [done|]. rewrite filter_cons. case_decide; simpl; lia.
Qed.

Lemma keeps_unlink Q h w : Wheel.winv Q w -> keeps Q w (Wheel.unlink h w).
Proof.
  intros Hw. split; [by apply Wheel.winv_unlink|].
  unfold Wheel.unlink. destruct (Wheel.linked h w); [|split; [split_and!; done|lia]].
  split; [split_and!; done|]. simpl. unfold Wheel.bucket. rewrite lookup_fmap.
  destruct (_ !! _); simpl; [|lia]. apply filter_length_le.
Qed.

(** The handles linked into the wheel are live, so there are fewer than 2^32. *)
Lemma wheel_count Q e : em_ok e -> Wheel.winv Q (wheel_ e) -> Wheel.count_ (wheel_ e) + 1 < 2 ^ 64.
Proof.
  intros He Hw. destruct (Wheel.wi_count _ _ Hw) as [-> _].
  assert (Hle : (length (Wheel.nodes (wheel_ e)) <= size (abs (timers_ e)))%nat).
  { rewrite <- (length_fmap Wheel.node_id), <- size_dom.
    rewrite <- (size_list_to_set (C := gset Handle)) by apply (Wheel.wi_nodup _ _ Hw).
    apply subseteq_size. intros h Hh. apply elem_of_list_to_set, list_elem_of_fmap in Hh as (x & -> & Hx).
    destruct (eo_wheel e He x Hx) as (_ & n & (Hn & _) & _).
    apply elem_of_dom. rewrite abs_lookup by apply (eo_timers e He). by rewrite Hn. }
  pose proof (abs_size _ (eo_timers e He)) as Hs.
  pose proof (live_le_cap _ (eo_timers e He)) as Hc. unfold table_size in Hs.
  pose proof (wf_cap _ (eo_timers e He)). lia.
Qed.

(** ** Linking keeps the invariant *)

Lemma set_wheel_ok w e :
  em_ok e -> (forall x, x ∈ Wheel.nodes w -> x ∈ Wheel.nodes (wheel_ e)) ->
  Wheel.tick_ w = Wheel.tick_ (wheel_ e) -> em_ok (set_wheel_ w e).
Proof.
  intros He Hsub Ht. destruct He. constructor; try done.
  - simpl. congruence.
  - intros x Hx. by apply eo_wheel0, Hsub.
Qed.

Lemma unlink_timer_ok Q h e :
  em_ok e -> Wheel.winv Q (wheel_ e) ->
  let e' := unlink_timer h e in
  em_ok e' /\ keeps Q (wheel_ e) (wheel_ e') /\ unlinked e' h /\
  (forall h', unlinked e h' -> unlinked e' h').
Proof.
  intros He Hw. unfold unlink_timer, Heap.in_heap. pose proof (eo_heap_ok e He) as Hh.
  case_bool_decide as Hin.
  - destruct Hin as [i Hi]. destruct (Heap.remove_ok h i (heap_ e) Hh Hi) as (n & _ & Hnid & Hh' & Hp).
    pose proof (Heap.idx_nodup _ (proj2 Hh)) as Hnd. rewrite Hp in Hnd. simpl in Hnd.
    apply NoDup_cons in Hnd as [Hnot _].
    assert (Hsub : forall x, x ∈ Heap.heap_ (Heap.remove h (heap_ e)) -> x ∈ Heap.heap_ (heap_ e)).
    { intros x Hx. rewrite Hp. by right. }
    assert (Hnone : forall h', Heap.heap_idx_ (heap_ e) !! h' = None ->
                    Heap.heap_idx_ (Heap.remove h (heap_ e)) !! h' = None).
    { intros h' Hh0. apply Heap.idx_None_iff; [apply Hh'|]. intros x Hx.
      apply (Heap.idx_None_iff _ _ (proj2 Hh)); auto. }
    assert (Hun : Heap.heap_idx_ (Heap.remove h (heap_ e)) !! h = None).
    { apply Heap.idx_None_iff; [apply Hh'|]. intros x Hx Hxid. apply Hnot.
      rewrite Hnid. apply list_elem_of_fmap. by exists x. }
    split; [|split; [by apply keeps_refl|split]].
    + destruct He. constructor; try done.
      * intros x Hx. destruct (eo_wheel0 x Hx) as [? ?]. split; [by apply Hnone|done].
      * intros x Hx. by apply eo_heap0, Hsub.
    + split; [done|]. simpl. intros (x & Hx & Hin)%list_elem_of_fmap.
      destruct (eo_wheel e He x Hin) as [Hc _]. rewrite <- Hx in Hc. congruence.
    + intros h' [H1 H2]. split; [by apply Hnone|done].
  - assert (Hnodes : forall x, x ∈ Wheel.nodes (Wheel.unlink h (wheel_ e)) ->
              x ∈ Wheel.nodes (wheel_ e) /\ Wheel.node_id x <> h).
    { intros x. rewrite Wheel.nodes_unlink, list_elem_of_filter. tauto. }
    pose proof (keeps_unlink Q h _ Hw) as Hk. pose proof Hk as (_ & (Ht & _) & _).
    split; [|split; [done|split]].
    + apply set_wheel_ok; [done| |done]. intros x Hx. by apply Hnodes.
    + split; [by apply eq_None_not_Some|]. simpl.
      intros (x & Hx & Hin')%list_elem_of_fmap. by apply Hnodes in Hin' as [_ Hne].
    + intros h' [H1 H2]. split; [done|]. simpl.
      intros (x & Hx & Hin')%list_elem_of_fmap. apply H2, list_elem_of_fmap. exists x.
      split; [done|]. by apply Hnodes.
Qed.

Lemma unlink_timer_frame h e :
  let e' := unlink_timer h e in
  timers_ e' = timers_ e /\ groups_ e' = groups_ e /\ dead_timers_ e' = dead_timers_ e /\
  now_ e' = now_ e /\ fired e' = fired e /\ ctx_ e' = ctx_ e.
Proof. unfold unlink_timer. by destruct (Heap.in_heap h (heap_ e)). Qed.

(** In no group. *)
Definition ungrouped (e : Em) (h : Handle) : Prop :=
  forall g ms, get g (groups_ e) = Some ms -> h ∉ ms.

(** A store to the fields of an unlinked node that keeps its identity; it may
    cancel the node only when it is in no group. *)
Lemma update_node_ok h f e :
  em_ok e -> unlinked e h ->
  (forall n, get h (timers_ e) = Some n ->
     id (f n) = id n /\ (ungrouped e h \/ (cancelled (f n) = cancelled n /\ group (f n) = group n))) ->
  em_ok (set_timers (update h f (timers_ e)) e).
Proof.
  intros He [Hnh Hnw] Hf. pose proof (eo_timers e He) as Hwf.
  assert (Harm : forall h' n, h' <> h -> armed e h' n -> armed (set_timers (update h f (timers_ e)) e) h' n).
  { intros h' n Hne (Hn & Hc & Hd). split; [|done]. simpl. rewrite update_get by done.
    by rewrite decide_False. }
  destruct He. constructor; try done; simpl.
  - by apply update_wf.
  - intros h' n. rewrite update_get by done. case_decide as Hh; [|by apply eo_id0].
    subst h'. destruct (get h (timers_ e)) as [m|] eqn:Hm; [|done]. simpl. intros [= <-].
    destruct (Hf m eq_refl) as [-> _]. by apply eo_id0.
  - intros x Hx. destruct (eo_wheel0 x Hx) as (Hi & n & Ha & Ht). split; [done|]. exists n.
    split; [|done]. apply Harm; [|done]. intros Heq. apply Hnw, list_elem_of_fmap. by exists x.
  - intros x Hx. destruct (eo_heap0 x Hx) as (n & Ha & Ht). exists n. split; [|done].
    apply Harm; [|done]. by apply (Heap.idx_None_iff _ _ (proj2 eo_heap_ok0)).
  - intros g ms Hg. destruct (eo_members0 g ms Hg) as [Hnd Hms]. split; [done|].
    intros h' Hin. destruct (Hms h' Hin) as (n & Ha & Hgr).
    destruct (decide (h' = h)) as [->|Hne]; [|exists n; split; [by apply Harm|done]].
    destruct Ha as (Hn & Hc & Hd). destruct (Hf n Hn) as [_ [Hu|[Hc' Hg']]].
    + by destruct (Hu g ms Hg).
    + exists (f n). split; [|congruence]. split; [|split; [congruence|done]].
      simpl. rewrite update_get by done. rewrite decide_True by done. by rewrite Hn.
  - intros h' Hh'. rewrite update_get by done. case_decide as Heq; [|by apply eo_dead0].
    subst h'. destruct (eo_dead0 h Hh') as [n ->]. done.
Qed.

Lemma push_dead_ok h e :
  em_ok e -> is_Some (get h (timers_ e)) -> unlinked e h -> ungrouped e h -> em_ok (push_dead h e).
Proof.
  intros He Hsome [Hnh Hnw] Hg.
  assert (Harm : forall h' n, h' <> h -> armed e h' n -> armed (push_dead h e) h' n).
  { intros h' n Hne (Hn & Hc & Hd). split; [done|]. split; [done|]. simpl.
    rewrite elem_of_app, list_elem_of_singleton. tauto. }
  destruct He. constructor; try done.
  - intros x Hx. destruct (eo_wheel0 x Hx) as (Hi & n & Ha & Ht). split; [done|]. exists n.
    split; [|done]. apply Harm; [|done]. intros Heq. apply Hnw, list_elem_of_fmap. by exists x.
  - intros x Hx. destruct (eo_heap0 x Hx) as (n & Ha & Ht). exists n. split; [|done].
    apply Harm; [|done]. by apply (Heap.idx_None_iff _ _ (proj2 eo_heap_ok0)).
  - intros g ms Hgm. destruct (eo_members0 g ms Hgm) as [Hnd Hms]. split; [done|].
    intros h' Hin. destruct (Hms h' Hin) as (n & Ha & Hgr). exists n. split; [|done].
    apply Harm; [|done]. intros ->. by apply (Hg g ms).
  - intros h'. simpl. rewrite elem_of_app, list_elem_of_singleton. intros [?| ->]; [by apply eo_dead0|done].
Qed.

Lemma update_groups_ok g f e :
  em_ok e ->
  (forall ms, get g (groups_ e) = Some ms -> NoDup (f ms) /\
     forall h, h ∈ f ms -> exists n, armed e h n /\ group n = g) ->
  em_ok (set_groups (update g f (groups_ e)) e).
Proof.
  intros He Hf. pose proof (eo_groups e He) as Hwf. destruct He. constructor; try done; simpl.
  - by apply update_wf.
  - intros g' ms. rewrite update_get by done. case_decide as Hg; [|by apply eo_members0].
    subst g'. destruct (get g (groups_ e)) as [ms0|] eqn:Hms; [|done]. simpl. intros [= <-]. by apply Hf.
Qed.

Lemma filter_members_ok g h e :
  em_ok e -> em_ok (set_groups (update g (filter (fun x => x <> h)) (groups_ e)) e).
Proof.
  intros He. apply update_groups_ok; [done|]. intros ms Hms.
  destruct (eo_members e He g ms Hms) as [Hnd Hin]. split; [by apply NoDup_filter|].
  intros h'. rewrite list_elem_of_filter. intros [_ ?]. by apply Hin.
Qed.

Lemma glist_unlink_ok h n e :
  em_ok e -> get h (timers_ e) = Some n -> em_ok (glist_unlink n e) /\ ungrouped (glist_unlink n e) h.
Proof.
  intros He Hn. split; [by apply filter_members_ok|]. intros g ms. simpl.
  rewrite update_get by apply (eo_groups e He). rewrite (eo_id e He h n Hn).
  case_decide as Hg.
  - subst g. destruct (get (group n) (groups_ e)); [|done]. simpl. intros [= <-].
    rewrite list_elem_of_filter. tauto.
  - intros Hms Hin. destruct (eo_members e He g ms Hms) as [_ Hms'].
    destruct (Hms' h Hin) as (n' & (Hn' & _) & Hg'). congruence.
Qed.

Lemma insert_timer_frame n e :
  let e' := insert_timer n e in
  timers_ e' = timers_ e /\ groups_ e' = groups_ e /\ dead_timers_ e' = dead_timers_ e /\
  now_ e' = now_ e /\ fired e' = fired e /\ ctx_ e' = ctx_ e.
Proof. unfold insert_timer. by destruct (_ && _). Qed.

Lemma insert_timer_ok Q n e :
  em_ok e -> armed e (id n) n -> unlinked e (id n) -> is_u64 (expiry_tick n) ->
  Wheel.winv Q (wheel_ e) -> admits Q (Wheel.now_tick_ (wheel_ e)) ->
  let e' := insert_timer n e in
  em_ok e' /\ keeps Q (wheel_ e) (wheel_ e') /\
  (forall h, h <> id n -> unlinked e h -> unlinked e' h).
Proof.
  intros He Ha [Hnh Hnw] Hu Hw HQ. unfold insert_timer.
  assert (Hclear : clear_in_heap (id n) (heap_ e) = heap_ e).
  { unfold clear_in_heap. rewrite delete_id by done. by destruct (heap_ e). }
  rewrite Hclear. cbn [wheel_ set_heap_ heap_]. unfold is_u64 in Hu.
  pose proof (Wheel.wi_now _ _ Hw) as Hnow.
  destruct (Wheel.fits _ _ && _) eqn:Hfit.
  - apply andb_true_iff in Hfit as [Hfit _]. apply Wheel.fits_iff in Hfit; [|lia|lia].
    set (x := Wheel.mkWNode (id n) (expiry_tick n)).
    destruct (Wheel.winv_insert Q x (wheel_ e) Hw HQ) as (Hw' & Hp & Hb); [simpl; lia|done|by apply wheel_count with Q|].
    split; [|split].
    + destruct He. constructor; try done.
      intros y Hy. cbn [wheel_ set_wheel_ set_heap_] in Hy. rewrite Hp in Hy.
      apply elem_of_cons in Hy as [->|Hy]; [|by apply eo_wheel0].
      split; [done|]. exists n. done.
    + split; [done|]. split; [split_and!; done|].
      cbn [wheel_ set_wheel_ set_heap_]. rewrite Hb. lia.
    + intros h Hne [H1 H2]. split; [done|]. cbn [wheel_ set_wheel_ set_heap_]. rewrite Hp. simpl.
      rewrite elem_of_cons. tauto.
  - set (x := Heap.mkHNode (id n) (expiry n)).
    destruct (Heap.push_ok x (heap_ e) (eo_heap_ok e He) Hnh) as [Hok Hp].
    assert (Hnone : forall h, h <> id n -> Heap.heap_idx_ (heap_ e) !! h = None ->
                    Heap.heap_idx_ (Heap.push x (heap_ e)) !! h = None).
    { intros h Hne Hh. apply Heap.idx_None_iff; [apply Hok|]. intros y. rewrite Hp.
      intros [->|Hy]%elem_of_cons; [done|].
      by apply (Heap.idx_None_iff _ _ (proj2 (eo_heap_ok e He))). }
    split; [|split].
    + destruct He. constructor; try done.
      * intros y Hy. destruct (eo_wheel0 y Hy) as [Hi Hn]. split; [|done]. apply Hnone; [|done].
        intros Heq. apply Hnw, list_elem_of_fmap. by exists y.
      * intros y. cbn [heap_ set_heap_]. rewrite Hp. intros [->|Hy]%elem_of_cons; [by exists n|by apply eo_heap0].
    + by apply keeps_refl.
    + intros h Hne [H1 H2]. split; [by apply Hnone|done].
Qed.

Lemma tick_of_u64 w x : is_u64 (Wheel.tick_of w x).
Proof. unfold is_u64, Wheel.tick_of. apply u64_range. Qed.

(** ** The operations keep the invariant *)

(** The state of a timer that is firing: not linked, and not waiting for release
    unless it has been cancelled. *)
Definition parked (e : Em) (h : Handle) : Prop :=
  unlinked e h /\ exists n, get h (timers_ e) = Some n /\ (cancelled n = false -> h ∉ dead_timers_ e).

(** What the code relies on when it makes a call: room in the handle tables, and
    no rescheduling of the timer that is firing or of a one-shot that has already
    fired in this iteration. *)
Definition safe_op (firing : option Handle) (e : Em) (o : Op) : Prop :=
  match o with
  | OAfter _ _ _ | OAt _ _ _ | OEvery _ _ _ _ _ => room (timers_ e)
  | OReschedule h _ => firing <> Some h /\ h ∉ dead_timers_ e
  | OMakeGroup => room (groups_ e)
  | OCancel _ | OCancelGroup _ => True
  end.

Fixpoint safe_ops (firing : option Handle) (os : list Op) (e : Em) : Prop :=
  match os with
  | [] => True
  | o :: os => safe_op firing e o /\ safe_ops firing os (exec_op o e)
  end.

Record op_spec (Q : Z -> Z -> Z -> Prop) (firing : option Handle) (e e' : Em) : Prop := {
  os_ok : em_ok e';
  os_keeps : keeps Q (wheel_ e) (wheel_ e');
  os_now : now_ e' = now_ e;
  os_fired : fired e' = fired e;
  os_live : forall h n, get h (timers_ e) = Some n ->
      exists n', get h (timers_ e') = Some n' /\ (cancelled n = true -> cancelled n' = true) /\
        period n' = period n /\ mode n' = mode n;
  os_parked : forall h, firing = Some h -> parked e h -> parked e' h;
}.

Lemma op_spec_refl Q f e : em_ok e -> Wheel.winv Q (wheel_ e) -> op_spec Q f e e.
Proof. intros He Hw. constructor; eauto using keeps_refl. Qed.

Lemma op_spec_trans Q f e1 e2 e3 : op_spec Q f e1 e2 -> op_spec Q f e2 e3 -> op_spec Q f e1 e3.
Proof.
  intros [A1 A2 A3 A4 A5 A6] [B1 B2 B3 B4 B5 B6]. constructor; try congruence; eauto using keeps_trans.
  intros h n Hn. destruct (A5 h n Hn) as (n' & Hn' & Hc' & Hp' & Hm').
  destruct (B5 h n' Hn') as (n'' & Hn'' & Hc'' & Hp'' & Hm''). exists n''.
  split; [done|]. split; [auto|]. split; congruence.
Qed.

Section Ops.
Context (Q : Z -> Z -> Z -> Prop) (firing : option Handle).

Lemma rearm_ok h x n e :
  em_ok e -> Wheel.winv Q (wheel_ e) -> admits Q (Wheel.now_tick_ (wheel_ e)) ->
  armed e h n -> unlinked e h ->
  let e' := rearm h x n e in
  em_ok e' /\ keeps Q (wheel_ e) (wheel_ e') /\
  dead_timers_ e' = dead_timers_ e /\ now_ e' = now_ e /\ fired e' = fired e /\
  (forall h', get h' (timers_ e') =
     if decide (h' = h) then Some (with_expiry x (Wheel.tick_of (wheel_ e) x) n) else get h' (timers_ e)) /\
  (forall h', h' <> h -> unlinked e h' -> unlinked e' h').
Proof.
  intros He Hw HQ (Hn & Hc & Hd) Hu. unfold rearm.
  set (n' := with_expiry x (Wheel.tick_of (wheel_ e) x) n).
  assert (Hid : id n' = h) by (by apply (eo_id e He h n)).
  assert (He2 : em_ok (set_timers (update h (fun _ => n') (timers_ e)) e)).
  { apply update_node_ok; [done|done|]. rewrite Hn. intros ? [= <-]. split; [done|by right]. }
  set (e2 := set_timers _ e) in *.
  assert (Hg2 : forall h', get h' (timers_ e2) = if decide (h' = h) then Some n' else get h' (timers_ e)).
  { intros h'. cbn [e2 timers_ set_timers]. rewrite update_get by apply (eo_timers e He). by rewrite Hn. }
  destruct (insert_timer_ok Q n' e2) as (He3 & Hk3 & Huu3); try done.
  { rewrite Hid. split; [rewrite Hg2; by rewrite decide_True|done]. }
  { by rewrite Hid. }
  { apply tick_of_u64. }
  destruct (insert_timer_frame n' e2) as (Gt & _ & Gd & Gn & Gf & _).
  split; [done|]. split; [done|]. split; [by rewrite Gd|]. split; [by rewrite Gn|]. split; [by rewrite Gf|].
  split; [intros h'; rewrite Gt; apply Hg2|]. intros h' Hne Hu'. apply Huu3; [congruence|done].
Qed.

Lemma reschedule_ok h d e :
  em_ok e -> Wheel.winv Q (wheel_ e) -> admits Q (Wheel.now_tick_ (wheel_ e)) ->
  safe_op firing e (OReschedule h d) -> op_spec Q firing e (reschedule h d e).2.
Proof.
  intros He Hw HQ [Hfir Hdead]. unfold reschedule.
  destruct (get h (timers_ e)) as [n|] eqn:Hn; [|by apply op_spec_refl].
  destruct (cancelled n) eqn:Hc; [by apply op_spec_refl|].
  destruct (unlink_timer_ok Q h e He Hw) as (He1 & Hk1 & Hu1 & Huu1).
  destruct (unlink_timer_frame h e) as (Ft & Fg & Fd & Fnw & Ff & Fc).
  pose proof Hk1 as (Hw1 & (_ & Hnow1 & _) & _).
  destruct (rearm_ok h (now_ (unlink_timer h e) + d) n (unlink_timer h e))
    as (He2 & Hk2 & Gd & Gn & Gf & Gg & Gu); try done.
  { by rewrite Hnow1. }
  { split; [by rewrite Ft|]. split; [done|by rewrite Fd]. }
  cbn [snd]. constructor.
  - exact He2.
  - by eapply keeps_trans.
  - etransitivity; [exact Gn|done].
  - etransitivity; [exact Gf|done].
  - intros h' m Hm. rewrite Gg, Ft. case_decide as Hh; [|by exists m].
    subst h'. assert (m = n) as -> by congruence. eexists. split; [done|]. done.
  - intros h' Hh' [Hu (m & Hm & Hmd)]. assert (h' <> h) by congruence. split.
    + apply Gu; [done|]. by apply Huu1.
    + exists m. rewrite Gg, decide_False, Ft, Gd, Fd by done. done.
Qed.

Lemma cancel_ok h e :
  em_ok e -> Wheel.winv Q (wheel_ e) -> op_spec Q firing e (cancel h e).2.
Proof.
  intros He Hw. unfold cancel.
  destruct (get h (timers_ e)) as [n|] eqn:Hn; [|by apply op_spec_refl].
  destruct (cancelled n) eqn:Hc; [by apply op_spec_refl|].
  destruct (unlink_timer_ok Q h e He Hw) as (He1 & Hk1 & Hu1 & Huu1).
  destruct (unlink_timer_frame h e) as (Ft & Fg & Fd & Fnw & Ff & Fc).
  set (e1 := unlink_timer h e) in *.
  destruct (glist_unlink_ok h n e1) as [He2 Hug2]; [done|by rewrite Ft|].
  set (e2 := glist_unlink n e1) in *.
  assert (He3 : em_ok (set_timers (update h with_cancelled (timers_ e2)) e2)).
  { apply update_node_ok; [done|done|]. intros m Hm. split; [done|by left]. }
  set (e3 := set_timers _ e2) in *.
  assert (Hg : forall h', get h' (timers_ e3) = if decide (h' = h) then Some (with_cancelled n) else get h' (timers_ e)).
  { intros h'. cbn [e3 e2 timers_ set_timers glist_unlink set_groups].
    rewrite update_get by (rewrite Ft; apply (eo_timers e He)). by rewrite Ft, Hn. }
  assert (He4 : em_ok (push_dead h e3)).
  { apply push_dead_ok; try done. rewrite Hg. by rewrite decide_True. }
  cbn [snd]. constructor; try done.
  - destruct He4. by constructor.
  - intros h' m Hm. cbn [timers_ set_stats push_dead set_dead]. rewrite Hg. case_decide as Hh; [|by exists m].
    subst h'. assert (m = n) as -> by congruence. by exists (with_cancelled n).
  - intros h' Hh' [Hu (m & Hm & Hmd)]. split; [by apply Huu1|].
    cbn [timers_ set_stats push_dead set_dead dead_timers_]. rewrite Hg. case_decide as Hh.
    + by exists (with_cancelled n).
    + exists m. split; [done|]. intros Hcm. cbn. rewrite Fd, elem_of_app, list_elem_of_singleton. tauto.
Qed.

Lemma fresh_unlinked h e : em_ok e -> get h (timers_ e) = None -> unlinked e h /\ ungrouped e h.
Proof.
  intros He Hn. split; [split|].
  - apply (Heap.idx_None_iff _ _ (proj2 (eo_heap_ok e He))). intros x Hx <-.
    destruct (eo_heap e He x Hx) as (n & (Hn' & _) & _). congruence.
  - intros (x & -> & Hx)%list_elem_of_fmap.
    destruct (eo_wheel e He x Hx) as (_ & n & (Hn' & _) & _). congruence.
  - intros g ms Hms Hin. destruct (eo_members e He g ms Hms) as [_ Hm].
    destruct (Hm h Hin) as (n & (Hn' & _) & _). congruence.
Qed.

(** A new node in a fresh slot. *)
Lemma add_node_ok h n t e :
  em_ok e -> wf t -> id n = h -> get h (timers_ e) = None ->
  (forall h', get h' t = if decide (h' = h) then Some n else get h' (timers_ e)) ->
  em_ok (set_timers t e).
Proof.
  intros He Ht Hid Hfresh Hget.
  assert (Harm : forall h' m, armed e h' m -> armed (set_timers t e) h' m).
  { intros h' m (Hm & Hc & Hd). split; [|done]. simpl. rewrite Hget.
    rewrite decide_False; [done|congruence]. }
  destruct He. constructor; try done; simpl.
  - intros h' m. rewrite Hget. case_decide; [|by apply eo_id0]. intros [= <-]. congruence.
  - intros x Hx. destruct (eo_wheel0 x Hx) as (Hi & m & Ha & ?). eauto.
  - intros x Hx. destruct (eo_heap0 x Hx) as (m & Ha & ?). eauto.
  - intros g ms Hms. destruct (eo_members0 g ms Hms) as [Hnd Hm]. split; [done|].
    intros h' Hin. destruct (Hm h' Hin) as (m & Ha & ?). eauto.
  - intros h' Hh'. rewrite Hget. case_decide; [done|by apply eo_dead0].
Qed.

Lemma arm_ok x p m f g pr e :
  em_ok e -> Wheel.winv Q (wheel_ e) -> admits Q (Wheel.now_tick_ (wheel_ e)) -> room (timers_ e) ->
  op_spec Q firing e (arm x p m f g pr e).2.
Proof.
  intros He Hw HQ Hroom. unfold arm. pose proof (eo_timers e He) as Hwf.
  pose proof (emplace_wf blank_node _ Hwf Hroom) as Hwf'.
  pose proof (emplace_fresh blank_node _ Hwf Hroom) as Hfresh.
  pose proof (fun h' => emplace_get blank_node _ h' Hwf Hroom) as Hget0.
  destruct (emplace blank_node (timers_ e)) as [h t]. cbn [fst snd] in *.
  set (joins := valid g && contains g (groups_ e)).
  set (n := mkNode _ _ _ _ _ _ _ _ _ _).
  assert (Hget : forall h', get h' (update h (fun _ => n) t) = if decide (h' = h) then Some n else get h' (timers_ e)).
  { intros h'. rewrite update_get, !Hget0 by done. rewrite (decide_True _ _ eq_refl). by case_decide. }
  assert (He1 : em_ok (set_timers (update h (fun _ => n) t) e)) by (apply (add_node_ok h n); try done; by apply update_wf).
  destruct (fresh_unlinked h e He Hfresh) as [Hun Hug].
  assert (Hnd : h ∉ dead_timers_ e).
  { intros Hd. destruct (eo_dead e He h Hd). congruence. }
  set (e1 := set_timers _ e) in *.
  set (e2 := if joins then _ else e1).
  assert (He2 : em_ok e2 /\ wheel_ e2 = wheel_ e /\ heap_ e2 = heap_ e /\ timers_ e2 = timers_ e1 /\
                dead_timers_ e2 = dead_timers_ e /\ now_ e2 = now_ e /\ fired e2 = fired e).
  { unfold e2. destruct joins eqn:Hj; [|done]. split; [|done]. apply update_groups_ok; [done|].
    intros ms Hms. destruct (eo_members e1 He1 g ms Hms) as [Hnd' Hin]. split.
    - apply NoDup_app. split; [done|]. split; [|apply NoDup_singleton].
      intros h' Hh' ->%list_elem_of_singleton. by apply (Hug g ms).
    - intros h'. rewrite elem_of_app, list_elem_of_singleton. intros [Hh'| ->]; [by apply Hin|].
      exists n. split; [|done]. split; [|done].
      cbn [e1 timers_ set_timers]. rewrite Hget. by rewrite decide_True. }
  clearbody e2. destruct He2 as (He2 & Ew & Eh & Et & Ed & En & Ef).
  destruct (insert_timer_ok Q n e2) as (He3 & Hk3 & Hu3); try done.
  { split; [|split; [done|cbn; by rewrite Ed]]. rewrite Et. cbn [e1 timers_ set_timers].
    rewrite Hget. by rewrite decide_True. }
  { unfold unlinked. by rewrite Ew, Eh. }
  { apply tick_of_u64. }
  { by rewrite Ew. }
  { by rewrite Ew. }
  destruct (insert_timer_frame n e2) as (Gt & Gg & Gd & Gn & Gf & Gc).
  rewrite Ew in Hk3. cbn [snd]. constructor.
  - destruct He3. by constructor.
  - done.
  - simpl. congruence.
  - simpl. congruence.
  - intros h' m' Hm'. exists m'. cbn [timers_ set_stats]. rewrite Gt, Et. cbn [e1 timers_ set_timers].
    rewrite Hget, decide_False by congruence. done.
  - intros h' Hh' [Hu' (m' & Hm' & Hmd)]. assert (h' <> h) by congruence. split.
    + apply Hu3; [done|]. unfold unlinked in *. by rewrite Ew, Eh.
    + exists m'. cbn [timers_ set_stats dead_timers_]. rewrite Gt, Et, Gd, Ed. cbn [e1 timers_ set_timers].
      rewrite Hget, decide_False by done. done.
Qed.

Lemma make_group_ok e :
  em_ok e -> Wheel.winv Q (wheel_ e) -> room (groups_ e) -> op_spec Q firing e (make_timer_group e).2.
Proof.
  intros He Hw Hroom. unfold make_timer_group. pose proof (eo_groups e He) as Hwf.
  pose proof (emplace_wf ([] : list Handle) _ Hwf Hroom) as Hwf'.
  pose proof (fun h' => emplace_get ([] : list Handle) _ h' Hwf Hroom) as Hget.
  destruct (emplace [] (groups_ e)) as [g t]. cbn [fst snd] in *.
  constructor; try done; eauto using keeps_refl.
  destruct He. constructor; try done. intros g' ms. simpl. rewrite Hget.
  case_decide; [|by apply eo_members0]. intros [= <-]. split; [apply NoDup_nil_2|].
  intros h Hin. by apply not_elem_of_nil in Hin.
Qed.

Lemma cancel_members_ok g ms e :
  em_ok e -> Wheel.winv Q (wheel_ e) -> get g (groups_ e) = Some ms ->
  op_spec Q firing e (cancel_members g ms e).
Proof.
  revert e. induction ms as [|h ms IH]; intros e He Hw Hg; [by apply op_spec_refl|].
  destruct (eo_members e He g _ Hg) as [Hnd Hin]. apply NoDup_cons in Hnd as [Hhn Hnd].
  destruct (Hin h) as (n & (Hn & Hc & Hd) & Hgr); [by left|].
  cbn [cancel_members].
  pose proof (filter_members_ok g h e He) as He1. set (e1 := set_groups _ e) in *.
  assert (Hms1 : get g (groups_ e1) = Some ms).
  { cbn. rewrite update_get by apply (eo_groups e He). rewrite decide_True, Hg by done.
    change (Some (filter (fun x => x <> h) (h :: ms)) = Some ms). f_equal.
    rewrite filter_cons_False by tauto. apply Wheel.filter_keep, Forall_forall. by intros x Hx ->. }
  assert (Hug1 : ungrouped e1 h).
  { intros g' ms'. destruct (decide (g' = g)) as [->|Hne]; [rewrite Hms1; by intros [= <-]|].
    cbn. rewrite update_get by apply (eo_groups e He). rewrite decide_False by done.
    intros Hms' Hin'. destruct (eo_members e He g' ms' Hms') as [_ Hin2].
    destruct (Hin2 h Hin') as (n' & (Hn' & _) & Hg'). congruence. }
  (* the cancelled mark before the unlinking commutes with it *)
  set (e2 := set_timers (update h with_cancelled (timers_ e1)) e1).
  destruct (unlink_timer_ok Q h e1 He1) as (He3 & Hk3 & Hu3 & Huu3); [done|].
  destruct (unlink_timer_frame h e1) as (Ft & Fg & Fd & Fnw & Ff & Fc).
  assert (Hcomm : unlink_timer h e2 = set_timers (update h with_cancelled (timers_ e1)) (unlink_timer h e1)).
  { unfold unlink_timer. cbn [e2 heap_ set_timers]. by destruct (Heap.in_heap h (heap_ e1)). }
  rewrite Hcomm. set (e3 := unlink_timer h e1) in *.
  assert (He4 : em_ok (set_timers (update h with_cancelled (timers_ e1)) e3)).
  { rewrite <- Ft. apply update_node_ok; [done|done|]. intros m Hm. split; [done|left].
    unfold ungrouped. by rewrite Fg. }
  set (e4 := set_timers _ e3) in *.
  assert (Hg4 : forall h', get h' (timers_ e4) = if decide (h' = h) then Some (with_cancelled n) else get h' (timers_ e)).
  { intros h'. cbn [e4 timers_ set_timers]. rewrite update_get by apply (eo_timers e1 He1). cbn. by rewrite Hn. }
  assert (He5 : em_ok (push_dead h e4)).
  { apply push_dead_ok; try done.
    - rewrite Hg4. by rewrite decide_True.
    - unfold ungrouped. cbn. by rewrite Fg. }
  assert (Hspec : op_spec Q firing e (push_dead h e4)).
  { constructor; try done.
    - intros h' m Hm. cbn [timers_ push_dead set_dead]. rewrite Hg4. case_decide as Hh; [|by exists m].
      subst h'. assert (m = n) as -> by congruence. by exists (with_cancelled n).
    - intros h' Hh' [Hu (m & Hm & Hmd)]. split; [by apply Huu3|].
      cbn [timers_ push_dead set_dead dead_timers_]. rewrite Hg4. case_decide as Hh.
      + by exists (with_cancelled n).
      + exists m. split; [done|]. intros Hcm. cbn. rewrite Fd, elem_of_app, list_elem_of_singleton. cbn. tauto. }
  eapply op_spec_trans; [exact Hspec|]. apply IH; [done| |].
  - destruct Hk3 as [Hw3 _]. done.
  - cbn. rewrite Fg. done.
Qed.

Lemma cancel_group_ok g e :
  em_ok e -> Wheel.winv Q (wheel_ e) -> op_spec Q firing e (cancel_group g e).2.
Proof.
  intros He Hw. unfold cancel_group. destruct (get g (groups_ e)) as [ms|] eqn:Hg; [|by apply op_spec_refl].
  destruct (cancel_members_ok g ms e He Hw Hg) as [H1 H2 H3 H4 H5 H6]. constructor; try done.
  destruct H1. by constructor.
Qed.

Lemma exec_op_ok o e :
  em_ok e -> Wheel.winv Q (wheel_ e) -> admits Q (Wheel.now_tick_ (wheel_ e)) -> safe_op firing e o ->
  op_spec Q firing e (exec_op o e).
Proof.
  intros He Hw HQ Hs. destruct o; simpl in Hs; cbn [exec_op].
  - by apply arm_ok.
  - by apply arm_ok.
  - by apply arm_ok.
  - by apply cancel_ok.
  - by apply reschedule_ok.
  - by apply make_group_ok.
  - by apply cancel_group_ok.
Qed.

Lemma exec_ops_ok os e :
  em_ok e -> Wheel.winv Q (wheel_ e) -> admits Q (Wheel.now_tick_ (wheel_ e)) -> safe_ops firing os e ->
  op_spec Q firing e (exec_ops os e).
Proof.
  revert e. induction os as [|o os IH]; intros e He Hw HQ Hs; [by apply op_spec_refl|].
  destruct Hs as [Ho Hos]. pose proof (exec_op_ok o e He Hw HQ Ho) as Hspec.
  eapply op_spec_trans; [exact Hspec|]. destruct Hspec as [H1 (H2 & (_ & Hn & _) & _) _ _ _ _].
  apply IH; [done|done|by rewrite Hn|done].
Qed.

(** ** Firing keeps the invariant *)

Lemma em_ok_frame e e' :
  wheel_ e' = wheel_ e -> heap_ e' = heap_ e -> timers_ e' = timers_ e -> groups_ e' = groups_ e ->
  dead_timers_ e' = dead_timers_ e -> dangling e' = dangling e -> em_ok e -> em_ok e'.
Proof.
  intros H1 H2 H3 H4 H5 H6 []. constructor; unfold armed in *; rewrite ?H1, ?H2, ?H3, ?H4, ?H5, ?H6; done.
Qed.

Variable user : option Fn -> TimerCtx -> Em -> list Op.
Hypothesis user_safe : forall f tc e, em_ok e -> safe_ops (Some (tc_id tc)) (user f tc e) e.

Lemma run_callback_ok c f tc e :
  firing = Some (tc_id tc) ->
  em_ok e -> Wheel.winv Q (wheel_ e) -> admits Q (Wheel.now_tick_ (wheel_ e)) ->
  let e' := run_callback user c f tc e in
  em_ok e' /\ keeps Q (wheel_ e) (wheel_ e') /\ now_ e' = now_ e /\
  fired e' = fired e ++ [(f, tc)] /\
  (forall h n, get h (timers_ e) = Some n ->
      exists n', get h (timers_ e') = Some n' /\ (cancelled n = true -> cancelled n' = true) /\
        period n' = period n /\ mode n' = mode n) /\
  (parked e (tc_id tc) -> parked e' (tc_id tc)).
Proof using user_safe.
  intros Hf He Hw HQ. unfold run_callback. set (e1 := set_ctx c (log_fired f tc e)).
  assert (He1 : em_ok e1) by (by apply (em_ok_frame e)).
  pose proof (exec_ops_ok (user f tc e1) e1 He1 Hw HQ) as Hspec. rewrite Hf in Hspec.
  destruct (Hspec (user_safe f tc e1 He1)) as [H1 H2 H3 H4 H5 H6].
  set (e2 := exec_ops _ e1) in *. split_and!; try done.
  - by apply (em_ok_frame e2).
  - intros Hp. by apply (H6 (tc_id tc)).
Qed.

(** Slots are not released, and cancelled timers stay cancelled. *)
Definition live_mono (e e' : Em) : Prop :=
  forall h n, get h (timers_ e) = Some n ->
    exists n', get h (timers_ e') = Some n' /\ (cancelled n = true -> cancelled n' = true).

Lemma live_mono_refl e : live_mono e e.
Proof. intros h n Hn. by exists n. Qed.

Lemma live_mono_trans e1 e2 e3 : live_mono e1 e2 -> live_mono e2 e3 -> live_mono e1 e3.
Proof.
  intros H1 H2 h n Hn. destruct (H1 h n Hn) as (n' & Hn' & Hc'). destruct (H2 h n' Hn') as (n'' & Hn'' & Hc'').
  exists n''. auto.
Qed.

Lemma live_mono_update h f e e' :
  em_ok e -> timers_ e' = update h f (timers_ e) ->
  (forall n, get h (timers_ e) = Some n -> cancelled n = true -> cancelled (f n) = true) ->
  live_mono e e'.
Proof.
  intros He Ht Hf h' n Hn. rewrite Ht, update_get by apply (eo_timers e He).
  case_decide as Hh; [|by exists n]. subst h'. rewrite Hn. simpl. eauto.
Qed.

Lemma rearm_mono h x n e :
  em_ok e -> Wheel.winv Q (wheel_ e) -> admits Q (Wheel.now_tick_ (wheel_ e)) ->
  armed e h n -> unlinked e h -> live_mono e (rearm h x n e).
Proof.
  intros He Hw HQ Ha Hu h' m Hm. destruct (rearm_ok h x n e) as (_ & _ & _ & _ & _ & Hg & _); try done.
  rewrite Hg. case_decide as Hh; [|by exists m]. subst h'. destruct Ha as (Hn & Hc & _).
  eexists. split; [done|]. cbn. congruence.
Qed.

Lemma em_wheel_frame e e' :
  wheel_ e' = wheel_ e -> Wheel.winv Q (wheel_ e) -> admits Q (Wheel.now_tick_ (wheel_ e)) ->
  Wheel.winv Q (wheel_ e') /\ admits Q (Wheel.now_tick_ (wheel_ e')).
Proof. by intros ->. Qed.

(** Before the callback: a fixed-rate timer is linked for its next period. *)
Lemma prefire_ok h n e :
  em_ok e -> Wheel.winv Q (wheel_ e) -> admits Q (Wheel.now_tick_ (wheel_ e)) ->
  armed e h n -> unlinked e h ->
  let '(e1, _) := prefire h n e in
  em_ok e1 /\ keeps Q (wheel_ e) (wheel_ e1) /\ now_ e1 = now_ e /\ fired e1 = fired e /\ live_mono e e1 /\
  (repeats n && is_rate n = false -> parked e1 h).
Proof.
  intros He Hw HQ Ha Hu. unfold prefire. destruct (repeats n && is_rate n).
  - destruct (coalesce _ _ _) as [next miss]. set (ea := set_stats _ e).
    assert (Hea : em_ok ea) by (by apply (em_ok_frame e)).
    destruct (rearm_ok h next n ea) as (H1 & H2 & H3 & H4 & H5 & H6 & H7); try done.
    split; [done|]. split; [done|]. split; [done|]. split; [done|]. split; [|done].
    by apply (rearm_mono h next n ea).
  - split; [done|]. split; [by apply keeps_refl|]. split; [done|]. split; [done|].
    split; [apply live_mono_refl|]. intros _. split; [done|]. destruct Ha as (Hn & _ & Hd). by exists n.
Qed.

(** After the callback: a fixed-delay timer is linked again, a one-shot dies. *)
Lemma postfire_ok h n n2 e :
  em_ok e -> Wheel.winv Q (wheel_ e) -> admits Q (Wheel.now_tick_ (wheel_ e)) ->
  get h (timers_ e) = Some n2 -> (repeats n && is_rate n = false -> parked e h) ->
  let e' := postfire h n n2 e in
  em_ok e' /\ keeps Q (wheel_ e) (wheel_ e') /\ now_ e' = now_ e /\ fired e' = fired e /\ live_mono e e'.
Proof.
  intros He Hw HQ Hn2 Hpk. unfold postfire. pose proof (eo_id e He h n2 Hn2) as Hid2.
  destruct (repeats n) eqn:Hr; cbn [negb andb] in *.
  - destruct (is_rate n) eqn:Hrate; cbn [negb andb]; [|destruct (cancelled n2) eqn:Hc; cbn [negb]].
    + split; [done|]. split; [by apply keeps_refl|]. split; [done|]. split; [done|apply live_mono_refl].
    + split; [done|]. split; [by apply keeps_refl|]. split; [done|]. split; [done|apply live_mono_refl].
    + destruct (Hpk eq_refl) as [Hu (m & Hm & Hmd)]. assert (m = n2) as -> by congruence.
      assert (Ha : armed e h n2) by (split; [done|]; auto).
      destruct (rearm_ok h (now_ e + period n2) n2 e) as (H1 & H2 & H3 & H4 & H5 & _ & _); try done.
      split; [done|]. split; [done|]. split; [done|]. split; [done|]. by apply rearm_mono.
  - destruct (cancelled n2) eqn:Hc; cbn [negb].
    + split; [done|]. split; [by apply keeps_refl|]. split; [done|]. split; [done|apply live_mono_refl].
    + destruct (Hpk eq_refl) as [Hu _]. destruct (glist_unlink_ok h n2 e He Hn2) as [He4 Hug4].
      split; [rewrite Hid2; by apply push_dead_ok|]. split; [by apply keeps_refl|].
      split; [done|]. split; [done|]. intros h' m Hm. by exists m.
Qed.

Lemma fire_timer_ok h n e :
  firing = Some h ->
  em_ok e -> Wheel.winv Q (wheel_ e) -> admits Q (Wheel.now_tick_ (wheel_ e)) ->
  armed e h n -> unlinked e h ->
  let e' := fire_timer user h e in
  em_ok e' /\ keeps Q (wheel_ e) (wheel_ e') /\ now_ e' = now_ e /\ live_mono e e' /\
  exists tc, tc_id tc = h /\ fired e' = fired e ++ [(fn n, tc)].
Proof using user_safe.
  intros Hf He Hw HQ Ha Hu. pose proof Ha as (Hn & Hc & Hd). unfold fire_timer. rewrite Hn, Hc.
  pose proof (eo_id e He h n Hn) as Hid. pose proof (prefire_ok h n e He Hw HQ Ha Hu) as Hpre.
  destruct (prefire h n e) as [e1 miss]. destruct Hpre as (He1 & Hk1 & Hn1 & Hf1 & Hl1 & Hpk1).
  pose proof Hk1 as (Hw1 & (_ & Hnow1 & _) & _). cbv zeta.
  set (tc := mkTimerCtx _ _ _ _). set (e2 := set_stats _ e1).
  destruct (run_callback_ok (ctx n) (fn n) tc e2) as (He3 & Hk3 & Hn3 & Hf3 & Hl3 & Hpk3); try done.
  { rewrite Hf. cbn. by rewrite Hid. }
  { by apply (em_ok_frame e1). }
  { change (wheel_ e2) with (wheel_ e1). by rewrite Hnow1. }
  set (e3 := run_callback _ _ _ _ e2) in *.
  assert (Hk13 : keeps Q (wheel_ e) (wheel_ e3)) by (by eapply keeps_trans).
  pose proof Hk13 as (Hw3 & (_ & Hnow3 & _) & _).
  assert (Hlm : live_mono e e3).
  { eapply live_mono_trans; [exact Hl1|]. intros h' m Hm.
    destruct (Hl3 h' m Hm) as (m' & ? & ? & _). eauto. }
  destruct (Hlm h n Hn) as (n2 & Hg2 & _). rewrite Hg2.
  destruct (postfire_ok h n n2 e3) as (He4 & Hk4 & Hn4 & Hf4 & Hl4); try done.
  { by rewrite Hnow3. }
  { intros Hr. rewrite <- Hid at 1. apply Hpk3. cbn. rewrite Hid. by apply Hpk1. }
  split; [done|]. split; [by eapply keeps_trans|].
  split; [rewrite Hn4, Hn3; exact Hn1|]. split; [by eapply live_mono_trans|].
  exists tc. split; [done|]. rewrite Hf4, Hf3. cbn. by rewrite Hf1.
Qed.

End Ops.

(** ** Whole expiry passes *)

Section Passes.
Variable user : option Fn -> TimerCtx -> Em -> list Op.
Hypothesis user_safe : forall f tc e, em_ok e -> safe_ops (Some (tc_id tc)) (user f tc e) e.

(** A further property of the state that expiry keeps: it reads only the nodes and
    the log, and firing an armed timer keeps it. *)
Variable R : Em -> Prop.
Hypothesis R_frame : forall e e', timers_ e' = timers_ e -> fired e' = fired e -> R e -> R e'.
Hypothesis R_fire : forall h n e e',
  armed e h n -> live_mono e e' ->
  (exists tc, tc_id tc = h /\ fired e' = fired e ++ [(fn n, tc)]) -> R e -> R e'.

Definition pass_ok (t : Z) (e : Em) : Prop := em_ok e /\ now_ e = t /\ R e.

Lemma admits_midw t : admits (Wheel.midw t) t.
Proof using. intros l j e Hp Hne. unfold Wheel.midw. by rewrite bool_decide_false. Qed.

Lemma admits_pend t : admits (Wheel.pend (t + 1)) t.
Proof using. by intros l j e Hp _. Qed.

Lemma pass_blind t : Wheel.placement_blind (pass_ok t).
Proof using R_frame.
  intros e w (He & Hn & HR) Hp Ht. split; [|split; [done|by apply (R_frame e)]].
  apply set_wheel_ok; [done| |done]. intros x Hx. by rewrite <- Hp.
Qed.

Lemma wheel_fire_ok now t :
  Wheel.fire_ok (fun x => fire_timer user (Wheel.node_id x)) t (Wheel.midw t) (pass_ok now).
Proof using user_safe R_frame R_fire.
  intros x xs e (He & Hnow & HR) Hw Hnt Hb Hle. cbn [Wheel.wheel_of Em_wheel] in *.
  destruct (Wheel.winv_take _ _ _ _ _ _ Hw Hb) as (Hw1 & Hnot & _).
  destruct (Wheel.nodes_take _ _ _ _ _ (Wheel.wi_nodup _ _ Hw) Hb) as [Hp Hb1].
  set (w1 := Wheel.take_from _ _ _ _) in *. set (e1 := Wheel.set_wheel w1 e).
  assert (He1 : em_ok e1).
  { apply set_wheel_ok; [done| |done]. intros y Hy. rewrite Hp. by right. }
  destruct (eo_wheel e He x) as (Hidx & n & Ha & _); [rewrite Hp; by left|].
  destruct (fire_timer_ok (Wheel.midw t) (Some (Wheel.node_id x)) user user_safe (Wheel.node_id x) n e1)
    as (He2 & (Hw2 & Hf2 & Hl2) & Hn2 & Hlm & Htc); try done.
  { change (wheel_ e1) with w1. change (Wheel.now_tick_ w1) with (Wheel.now_tick_ (wheel_ e)).
    rewrite Hnt. apply admits_midw. }
  split.
  - split; [done|]. split; [by rewrite Hn2|]. apply (R_fire (Wheel.node_id x) n e1); try done.
    by apply (R_frame e).
  - split; [done|]. split; [done|]. change (wheel_ e1) with w1 in Hl2.
    change (Wheel.now_tick_ w1) with (Wheel.now_tick_ (wheel_ e)) in Hl2. rewrite Hnt, Hb1 in Hl2. exact Hl2.
Qed.

Lemma heap_expire_ok fuel now e :
  pass_ok now e -> Wheel.wheel_ok (wheel_ e) ->
  let e' := Heap.expire (fun x => fire_timer user (Heap.hid x)) fuel now e in
  pass_ok now e' /\ Wheel.wheel_ok (wheel_ e') /\ Wheel.same_frame (wheel_ e) (wheel_ e').
Proof using user_safe R_frame R_fire.
  revert e. induction fuel as [|f IH]; intros e (He & Hn & HR) Hw; [split_and!; done|].
  cbn [Heap.expire]. change (Heap.heap_of e) with (heap_ e).
  destruct (Heap.top (heap_ e)) as [x|] eqn:Ht; [|split_and!; done].
  destruct (Z.leb_spec (Heap.expiry x) now); [|split_and!; done].
  assert (Hin : x ∈ Heap.heap_ (heap_ e)) by (by eapply list_elem_of_lookup_2).
  destruct (eo_heap e He x Hin) as (n & Ha & _).
  destruct (unlink_timer_ok (Wheel.pend (Wheel.now_tick_ (wheel_ e) + 1)) (Heap.hid x) e He Hw)
    as (He1 & Hk1 & Hu1 & _).
  assert (Hun : unlink_timer (Heap.hid x) e = Heap.set_heap (Heap.remove (Heap.hid x) (heap_ e)) e).
  { unfold unlink_timer, Heap.in_heap. rewrite bool_decide_true; [done|].
    eexists. by apply (Heap.ix_pos _ (proj2 (eo_heap_ok e He)) 0%nat). }
  rewrite <- Hun. destruct (unlink_timer_frame (Heap.hid x) e) as (Ft & _ & Fd & Fnw & Ff & _).
  set (e1 := unlink_timer (Heap.hid x) e) in *. pose proof Hk1 as (Hw1 & Hfr1 & _).
  pose proof Hfr1 as (_ & Hnow1 & _).
  assert (Ha1 : armed e1 (Heap.hid x) n) by (unfold armed; by rewrite Ft, Fd).
  destruct (fire_timer_ok (Wheel.pend (Wheel.now_tick_ (wheel_ e) + 1)) (Some (Heap.hid x)) user user_safe
              (Heap.hid x) n e1) as (He2 & Hk2 & Hn2 & Hlm & Htc); try done.
  { rewrite Hnow1. apply admits_pend. }
  destruct Hk2 as (Hw2 & Hfr2 & _). pose proof Hfr2 as (_ & Hnow2 & _).
  destruct (IH (fire_timer user (Heap.hid x) e1)) as (HP & Hw3 & Hfr3).
  - split; [done|]. split; [by rewrite Hn2, Fnw|].
    apply (R_fire (Heap.hid x) n e1); try done. by apply (R_frame e).
  - unfold Wheel.wheel_ok. by rewrite Hnow2, Hnow1.
  - split; [done|]. split; [done|]. destruct Hfr1 as (? & ? & ? & ?), Hfr2 as (? & ? & ? & ?), Hfr3 as (? & ? & ? & ?).
    split_and!; congruence.
Qed.

End Passes.

(** ** Runs of the service *)

(** What holds between two calls from outside: the invariant, the wheel's own one,
    and a clock that has not overflowed. *)
Record sys_ok (e : Em) : Prop := {
  so_em : em_ok e;
  so_wheel : Wheel.wheel_ok (wheel_ e);
  so_primed : Wheel.primed_ (wheel_ e) = false -> Wheel.now_tick_ (wheel_ e) = 0;
  so_now : 0 <= now_ e < 2 ^ 62;
}.

Lemma get_make {T} h g : get h (Handles.make (T := T) g) = None.
Proof. unfold get. simpl. by rewrite orb_true_r. Qed.

Lemma make_sys_ok tick g : 0 < tick -> is_u32 g -> sys_ok (make tick g).
Proof.
  intros Ht Hg. constructor; [|apply Wheel.wheel_make_ok|done|simpl; lia].
  constructor; simpl; try done; try (by apply make_wf).
  - intros h n. by rewrite get_make.
  - intros x Hx. by apply not_elem_of_nil in Hx.
  - intros x Hx. by apply not_elem_of_nil in Hx.
  - intros g' ms. by rewrite get_make.
  - intros h Hh. by apply not_elem_of_nil in Hh.
Qed.

Lemma floor_tick_bounds w t :
  0 < Wheel.tick_ w -> 0 <= t < 2 ^ 62 -> 0 <= Wheel.floor_tick w t < 2 ^ 62.
Proof.
  intros Ht Hb. unfold Wheel.floor_tick. rewrite Z.quot_div_nonneg by lia.
  pose proof (Z.div_pos t (Wheel.tick_ w)).
  assert (t / Wheel.tick_ w <= t) by (apply Z.div_le_upper_bound; nia).
  rewrite u64_small; lia.
Qed.

Section Runs.
Variable user : option Fn -> TimerCtx -> Em -> list Op.
Hypothesis user_safe : forall f tc e, em_ok e -> safe_ops (Some (tc_id tc)) (user f tc e) e.

Lemma expire_timers_ok (R : Em -> Prop) fuel e :
  (forall e e', timers_ e' = timers_ e -> fired e' = fired e -> R e -> R e') ->
  (forall h n e e', armed e h n -> live_mono e e' ->
     (exists tc, tc_id tc = h /\ fired e' = fired e ++ [(fn n, tc)]) -> R e -> R e') ->
  sys_ok e -> R e ->
  sys_ok (expire_timers user fuel e) /\ R (expire_timers user fuel e) /\
  now_ (expire_timers user fuel e) = now_ e.
Proof using user_safe.
  intros HRf HRfire [He Hw Hpr Hn] HR. unfold expire_timers.
  pose proof (floor_tick_bounds (wheel_ e) (now_ e) (eo_tick e He) Hn) as Hft.
  destruct (Wheel.advance_spec (fun x => fire_timer user (Wheel.node_id x)) (pass_ok R (now_ e))
              (Wheel.floor_tick (wheel_ e) (now_ e)) e) as (HP & Hw1 & Hpr1 & _ & _); try done.
  { by apply pass_blind. }
  { intros t Ht. by apply wheel_fire_ok. }
  set (e1 := Wheel.advance _ _ e) in *. pose proof HP as (_ & Hn1 & _). rewrite Hn1.
  destruct (heap_expire_ok user user_safe R HRf HRfire fuel (now_ e) e1 HP Hw1) as ((He2 & Hn2 & HR2) & Hw2 & Hfr2).
  split; [|done]. constructor; [done|done| |by rewrite Hn2].
  destruct Hfr2 as (_ & _ & Hp2 & _). intros Hf. change (Wheel.wheel_of e1) with (wheel_ e1) in Hpr1. congruence.
Qed.

Lemma release_all (ds : list Handle) (t : HandleTable TimerNode) :
  wf t -> let t' := foldl (fun t h => release h t) t ds in
  wf t' /\ forall h, get h t' = if decide (h ∈ ds) then None else get h t.
Proof using.
  revert t. induction ds as [|d ds IH]; intros t Ht; cbn.
  - split; [done|]. intros h. by rewrite decide_False by apply not_elem_of_nil.
  - destruct (IH (release d t)) as [Hwf Hg]; [by apply release_wf|]. split; [done|].
    intros h. rewrite Hg, release_get by done.
    destruct (decide (h = d)) as [->|Hne].
    + rewrite (decide_True (P := d ∈ d :: ds)) by (by left). by destruct (decide (d ∈ ds)).
    + destruct (decide (h ∈ ds)) as [Hin|Hin].
      * by rewrite decide_True by (by right).
      * rewrite decide_False; [done|]. by intros [?|?]%elem_of_cons.
Qed.

Lemma reclaim_timers_ok e : em_ok e -> em_ok (reclaim_timers e).
Proof using.
  intros He. destruct (release_all (dead_timers_ e) (timers_ e) (eo_timers e He)) as [Hwf Hg].
  set (t' := foldl _ _ _) in *.
  assert (Harm : forall h n, armed e h n -> armed (reclaim_timers e) h n).
  { intros h n (Hn & Hc & Hd). split; [|split; [done|apply not_elem_of_nil]].
    cbn. rewrite reclaim_get. fold t'. by rewrite Hg, decide_False. }
  pose proof (reclaim_wf _ Hwf) as Hwf'. pose proof (reclaim_wf _ (eo_groups e He)) as Hgwf'.
  destruct He. constructor; try done.
  - intros h n. cbn. rewrite reclaim_get. fold t'. rewrite Hg. case_decide; [done|]. apply eo_id0.
  - intros x Hx. destruct (eo_wheel0 x Hx) as (? & n & Ha & ?). eauto.
  - intros x Hx. destruct (eo_heap0 x Hx) as (n & Ha & ?). eauto.
  - intros g ms Hms. destruct (eo_members0 g ms Hms) as [Hnd Hm]. split; [done|].
    intros h Hin. destruct (Hm h Hin) as (n & Ha & ?). eauto.
  - intros h Hh. by apply not_elem_of_nil in Hh.
Qed.

(** What the loop does with the timers: the clock is read, calls are made outside
    timer callbacks, timers expire, dead timers are reclaimed. *)
Inductive action := ANow (t : Z) | AOp (o : Op) | AExpire (fuel : nat) | AReclaim.

Definition act (a : action) (e : Em) : Em :=
  match a with
  | ANow t => set_now t e
  | AOp o => exec_op o e
  | AExpire fuel => expire_timers user fuel e
  | AReclaim => reclaim_timers e
  end.

Definition act_ok (a : action) (e : Em) : Prop :=
  match a with
  | ANow t => now_ e <= t < 2 ^ 62
  | AOp o => safe_op None e o
  | AExpire _ | AReclaim => True
  end.

Fixpoint allowed (l : list action) (e : Em) : Prop :=
  match l with [] => True | a :: l => act_ok a e /\ allowed l (act a e) end.

Definition run (l : list action) (e : Em) : Em := foldl (fun e a => act a e) e l.

Lemma exec_op_sys o e : sys_ok e -> safe_op None e o ->
  sys_ok (exec_op o e) /\ live_mono e (exec_op o e) /\ fired (exec_op o e) = fired e.
Proof using.
  intros [He Hw Hpr Hn] Hs. pose proof (admits_pend (Wheel.now_tick_ (wheel_ e))) as HQ.
  destruct (exec_op_ok _ None o e He Hw HQ Hs) as [H1 (Hw' & (F1 & F2 & F3 & F4) & _) H3 H4 H5 H6].
  split; [constructor|split; [|done]].
  - done.
  - unfold Wheel.wheel_ok. by rewrite F2.
  - rewrite F3, F2. done.
  - by rewrite H3.
  - intros h n Hh. destruct (H5 h n Hh) as (n' & ? & ? & _). eauto.
Qed.

Lemma act_sys a e : sys_ok e -> act_ok a e -> sys_ok (act a e).
Proof using user_safe.
  intros Hs Ha. pose proof Hs as [He Hw Hpr Hn]. destruct a as [t|o|fuel|]; cbn.
  - cbn in Ha. constructor; try done; [by apply (em_ok_frame e)|cbn; lia].
  - by apply exec_op_sys.
  - by apply (expire_timers_ok (fun _ => True)).
  - constructor; try done. by apply reclaim_timers_ok.
Qed.


(** ** Cancellation *)

(** [h] is cancelled, and no callback has been invoked for it since the log was
    [log]. *)
Definition silenced (h : Handle) (log : list (option Fn * TimerCtx)) (e : Em) : Prop :=
  (exists n, get h (timers_ e) = Some n /\ cancelled n = true) /\
  exists l, fired e = log ++ l /\ Forall (fun p => tc_id (snd p) <> h) l.

Lemma silenced_frame h log e e' :
  timers_ e' = timers_ e -> fired e' = fired e -> silenced h log e -> silenced h log e'.
Proof using. intros Ht Hf. unfold silenced. by rewrite Ht, Hf. Qed.

Lemma silenced_fire h log h' n e e' :
  armed e h' n -> live_mono e e' ->
  (exists tc, tc_id tc = h' /\ fired e' = fired e ++ [(fn n, tc)]) -> silenced h log e -> silenced h log e'.
Proof using.
  intros (Hn & Hc & _) Hlm (tc & Htc & Hf) [(m & Hm & Hmc) (l & Hl & Hall)]. split.
  - destruct (Hlm h m Hm) as (m' & Hm' & Hc'). eauto.
  - exists (l ++ [(fn n, tc)]). rewrite Hf, Hl, <- app_assoc. split; [done|].
    apply Forall_app_2; [done|]. constructor; [|constructor]. cbn. intros <-. subst h'. congruence.
Qed.

Lemma act_silenced h log a e :
  sys_ok e -> act_ok a e -> a <> AReclaim -> silenced h log e -> silenced h log (act a e).
Proof using user_safe.
  intros Hs Ha Hne Hq. destruct a as [t|o|fuel|]; cbn; try done.
  - destruct (exec_op_sys o e Hs Ha) as (_ & Hlm & Hf). destruct Hq as [(m & Hm & Hmc) Hl].
    split; [|by rewrite Hf]. destruct (Hlm h m Hm) as (m' & ? & ?). eauto.
  - apply (expire_timers_ok (silenced h log)); try done.
    + intros. by eapply silenced_frame.
    + intros. by eapply silenced_fire.
Qed.

(** ** Properties *)


(** cancellation is final.  Once [cancel] has returned true, no callback is
    invoked for that timer by any later calls and expiry passes, up to the
    reclamation at the end of the iteration, which makes the handle stale. *)
Theorem cancelled_timer_never_fires h e e' l :
  sys_ok e -> cancel h e = (true, e') -> allowed l e' -> AReclaim ∉ l ->
  exists later, fired (run l e') = fired e ++ later /\ Forall (fun p => tc_id (snd p) <> h) later.
Proof using user_safe.
  intros Hs Hc Hl Hr.
  assert (Hs' : sys_ok e') by (pose proof (exec_op_sys (OCancel h) e Hs I) as [H _]; cbn in H; by rewrite Hc in H).
  assert (Hq : silenced h (fired e) e').
  { unfold cancel in Hc. destruct (get h (timers_ e)) as [n|] eqn:Hn; [|done].
    destruct (cancelled n) eqn:Hcn; [done|]. injection Hc as <-. split.
    - exists (with_cancelled n). split; [|done]. cbn.
      destruct (unlink_timer_frame h e) as (-> & _).
      rewrite update_get by apply (eo_timers e (so_em e Hs)). by rewrite decide_True, Hn by done.
    - exists []. cbn. destruct (unlink_timer_frame h e) as (_ & _ & _ & _ & -> & _).
      rewrite app_nil_r. done. }
  assert (Hfin : silenced h (fired e) (run l e')).
  { clear Hc. revert e' Hs' Hq Hl. induction l as [|a l IH]; intros e' Hs' Hq Hl; [done|].
    destruct Hl as [Ha Hl]. apply not_elem_of_cons in Hr as [Hne Hr].
    apply (IH Hr (act a e')); [by apply act_sys|by apply act_silenced|done]. }
  destruct Hfin as [_ Hfin]. exact Hfin.
Qed.

End Runs.

Lemma coalesce_loop_spec fuel next period now missed :
  0 < period -> now - next < Z.of_nat fuel * period -> 0 <= missed < 2 ^ 32 ->
  exists k, 0 <= k /\ coalesce_loop fuel next period now missed = (next + k * period, u32 (missed + k)) /\
    now < next + k * period /\ (k = 0 \/ next + (k - 1) * period <= now).
Proof.
  intros Hp. revert next missed. induction fuel as [|f IH]; intros next missed Hf Hm.
  - exists 0. cbn. rewrite u32_small by lia. split_and!; try lia. f_equal; lia.
  - cbn [coalesce_loop]. destruct (Z.leb_spec next now) as [Hle|Hgt].
    + destruct (IH (next + period) (u32 (missed + 1))) as (k & Hk & -> & Hlt & Hor); [nia|apply u32_range|].
      exists (k + 1). split; [lia|]. split; [|split; [nia|right; nia]].
      f_equal; [nia|]. unfold u32. rewrite Zplus_mod_idemp_l. f_equal. lia.
    + exists 0. rewrite u32_small by lia. split_and!; try lia. f_equal; lia.
Qed.

(** a fixed-rate timer that is late skips whole periods: its next expiry is on
    its grid, is the first grid point after now (or the next one when it is on
    time), and [missed] counts the skipped points. *)
Theorem fixed_rate_stays_on_grid expiry period now :
  0 < period ->
  exists k, 0 <= k /\ coalesce expiry period now = (expiry + (k + 1) * period, u32 k) /\
    now < expiry + (k + 1) * period /\ (k = 0 \/ expiry + k * period <= now).
Proof.
  intros Hp. unfold coalesce. set (next := expiry + period).
  pose proof (Z.div_mod (now - next) period). pose proof (Z.mod_pos_bound (now - next) period).
  destruct (coalesce_loop_spec (Z.to_nat ((now - next) / period + 2)) next period now 0) as (k & Hk & -> & Hlt & Hor);
    [done| |lia|].
  { destruct (decide (0 <= (now - next) / period + 2)); [rewrite Z2Nat.id by lia; nia|nia]. }
  exists k. unfold next in *. split; [done|]. split; [f_equal; nia|]. split; [nia|].
  destruct Hor as [?|?]; [by left|right; nia].
Qed.

End Service.

(** Callback 1 cancels the second timer; the others do nothing. *)
Definition demo_user (f : option Z) (tc : TimerCtx) (e : Em (Fn := Z) (Ctx := Z)) : list (Op (Fn := Z)) :=
  match f with Some 1 => [OCancel (mkHandle 1 1)] | _ => [] end.

Lemma demo_user_safe f tc e : em_ok e -> safe_ops (Some (tc_id tc)) (demo_user f tc e) e.
Proof. intros _. destruct f as [[|[| |]|]|]; cbn; auto. Qed.




Definition two_timers : Em (Fn := Z) (Ctx := Z) :=
  exec_ops [OAfter 2000000 5 null_handle; OAfter 3000000 6 null_handle] (make 1000000 1).

Lemma two_timers_ok : sys_ok two_timers.
Proof.
  unfold two_timers, exec_ops. cbn [foldl].
  apply exec_op_sys; [|right; vm_compute; reflexivity].
  apply exec_op_sys; [|right; vm_compute; reflexivity].
  apply make_sys_ok; [lia|unfold is_u32; lia].
Qed.

Lemma cancelled_timer_never_fires_witness :
  exists later, fired (run demo_user [ANow 9000000; AExpire 5] (cancel (mkHandle 1 1) two_timers).2) =
    fired two_timers ++ later /\ Forall (fun p => tc_id (snd p) <> mkHandle 1 1) later.
Proof.
  apply (cancelled_timer_never_fires demo_user demo_user_safe (mkHandle 1 1) two_timers).
  - apply two_timers_ok.
  - vm_compute. reflexivity.
  - cbn [allowed]. split; [vm_compute; split; [discriminate|reflexivity]|]. split; exact I.
  - intros H. repeat (apply elem_of_cons in H as [H|H]; [discriminate|]). by apply not_elem_of_nil in H.
Defined.

Lemma fixed_rate_stays_on_grid_witness :
  exists k, 0 <= k /\ coalesce 100 30 195 = (100 + (k + 1) * 30, u32 k) /\
    195 < 100 + (k + 1) * 30 /\ (k = 0 \/ 100 + k * 30 <= 195).
Proof. apply (fixed_rate_stays_on_grid 100 30 195). lia. Defined.

(** A callback that reschedules its own one-shot timer. *)
Definition self_reschedule (f : option Z) (tc : TimerCtx) (e : Em (Fn := Z) (Ctx := Z)) : list (Op (Fn := Z)) :=
  [OReschedule (tc_id tc) 5000000].

(** a one-shot timer that reschedules itself from its own callback ends as a
    dangling node: [reschedule] succeeds and links it again, [fire_timer] then queues
    it for release, the reclamation at the end of the iteration destroys it while it
    is still linked, and the next expiry pass fires the destroyed node. *)
Theorem self_rescheduled_one_shot_dangles :
  let e0 := (after 2000000 7 null_handle (make (Ctx := Z) 1000000 1)).2 in
  let e1 := run self_reschedule [ANow 2500000; AExpire 5; AReclaim] e0 in
  dangling e1 = false /\
  (exists x, x ∈ Wheel.nodes (wheel_ e1) /\ get (Wheel.node_id x) (timers_ e1) = None) /\
  dangling (run self_reschedule [ANow 9000000; AExpire 5] e1) = true.
Proof.
  cbv zeta. split; [vm_compute; reflexivity|]. split; [|vm_compute; reflexivity].
  exists (Wheel.mkWNode (mkHandle 0 1) 8). split.
  - apply (bool_decide_unpack _). vm_compute. exact I.
  - vm_compute. reflexivity.
Qed.

End Timers.
