(* ===== verification/Backend.v ===== *)
(** * The backend seam: errors, results and completion tags

    The vocabulary every I/O component shares: [Error], [Err] and [Result] of
    [src/include/afx/sys/error.hpp] and [src/include/afx/sys/result.hpp], and
    [UserData], [OpKind], [Interest], [Completion] of
    [src/include/afx/backend/backend.hpp]. *)

From stdpp Require Import base option gmap list.
From Stdlib Require Import ZArith Lia.
From S2P Require Import Prelude.
Local Open Scope Z_scope.

(** ** Errors *)

Module Errors.

Inductive ErrorCategory := Ok | Sys | Net | Frame | Config | Itc | Internal | Cancelled.

Record Error := mkError { code : Z; category : ErrorCategory }.

#[global] Instance category_eq_dec : EqDecision ErrorCategory.
Proof. solve_decision. Defined.
#[global] Instance error_eq_dec : EqDecision Error.
Proof. solve_decision. Defined.

(** [Error{}]. *)
Definition no_error : Error := mkError 0 Ok.

Definition error_ok (e : Error) : bool := bool_decide (category e = Ok).

Inductive Err :=
  | None_ | Full | Closed | Stopped | Expired | NotFound | Invalid | WouldBlock
  | Overflow | BadMagic | UnsupportedVersion | FrameTooLarge | ConnectFailed
  | ResolveFailed | NoResources | PermissionDenied | Unsupported | Truncated.

(** [static_cast<std::uint16_t>(e)]: the position in the enumeration. *)
Definition err_code (e : Err) : Z :=
  match e with
  | None_ => 0 | Full => 1 | Closed => 2 | Stopped => 3 | Expired => 4
  | NotFound => 5 | Invalid => 6 | WouldBlock => 7 | Overflow => 8
  | BadMagic => 9 | UnsupportedVersion => 10 | FrameTooLarge => 11
  | ConnectFailed => 12 | ResolveFailed => 13 | NoResources => 14
  | PermissionDenied => 15 | Unsupported => 16 | Truncated => 17
  end.

Definition make_error (c : ErrorCategory) (e : Err) : Error := mkError (err_code e) c.

(** [e & 0xFFFF] narrowed to 16 bits. *)
Definition errno_error (e : Z) : Error := mkError (Z.land e 65535) Sys.

Inductive Result (A : Type) := Val (a : A) | Bad (e : Error).
Arguments Val {A} a.
Arguments Bad {A} e.

(** [Result<void>] stores only an [Error], and holds a value when it is [Ok]. *)
Definition result_void (e : Error) : Result unit :=
  if error_ok e then Val tt else Bad e.

Definition has_value {A} (r : Result A) : bool :=
  match r with Val _ => true | Bad _ => false end.

(** [value_or]. *)
Definition value_or {A} (r : Result A) (u : A) : A :=
  match r with Val a => a | Bad _ => u end.

End Errors.
Export Errors.

(** ** Completion tags *)

Module Tags.

(** A [UserData] is its [raw] 64-bit word: kind, slot and generation. *)
Definition UserData := Z.

Definition ud_make (kind slot gen : Z) : UserData :=
  Z.lor (Z.lor (Z.shiftl (u8 kind) 56) (Z.shiftl (Z.land (u32 slot) 16777215) 32)) (u32 gen).

Definition ud_kind (u : UserData) : Z := u8 (Z.shiftr u 56).
Definition ud_slot (u : UserData) : Z := Z.land (Z.shiftr u 32) 16777215.
Definition ud_gen (u : UserData) : Z := Z.land u 4294967295.

Inductive OpKind := OpNone | OpWatch | OpRecv | OpSend | OpAccept | OpConnect | OpFlushWrite.

#[global] Instance opkind_eq_dec : EqDecision OpKind.
Proof. solve_decision. Defined.

(** [std::uint8_t(kind)]. *)
Definition op_code (k : OpKind) : Z :=
  match k with
  | OpNone => 0 | OpWatch => 1 | OpRecv => 2 | OpSend => 3
  | OpAccept => 4 | OpConnect => 5 | OpFlushWrite => 6
  end.

(** [Interest] is a bit set of two flags. *)
Definition Interest := Z.
Definition INone : Interest := 0.
Definition Readable : Interest := 1.
Definition Writable : Interest := 2.
Definition interest_or (a b : Interest) : Interest := Z.lor a b.
Definition has (i f : Interest) : bool := negb (Z.land i f =? 0).

(** The kernel stamps of a completion; the dequeue cycle count [tsc] is a clock
    reading that no modelled code branches on. *)
Record Timestamps := mkStamps { hw_ns : Z; sw_ns : Z }.
Definition no_stamps : Timestamps := mkStamps 0 0.

Definition HasHwStamp : Z := 1.
Definition HasSwStamp : Z := 2.
Definition More : Z := 4.
Definition HasFds : Z := 8.
Definition FdTrunc : Z := 16.
Definition ReadyRead : Z := 1.
Definition ReadyWrite : Z := 2.
Definition ReadyErr : Z := 4.
Definition ReadyHangup : Z := 8.

Record Completion := mkComp { user : UserData; result : Z; flags : Z; stamps : Timestamps }.

#[global] Instance stamps_eq_dec : EqDecision Timestamps.
Proof. solve_decision. Defined.
#[global] Instance completion_eq_dec : EqDecision Completion.
Proof. solve_decision. Defined.

(** A completion with no flags and no stamps. *)
Definition plain (u : UserData) (res : Z) : Completion := mkComp u res 0 no_stamps.

(** ** The tag is its three fields *)

Lemma lor_disjoint_add a b k :
  0 <= k -> 0 <= b < 2 ^ k -> Z.lor (Z.shiftl a k) b = a * 2 ^ k + b.
Proof.
  intros Hk Hb. rewrite Z.shiftl_mul_pow2 by done.
  assert (Z.land (a * 2 ^ k) b = 0) as Hl.
  { apply Z.bits_inj'. intros n Hn. rewrite Z.land_spec, Z.bits_0.
    destruct (decide (n < k)) as [|Hge].
    - by rewrite Z.mul_pow2_bits_low.
    - destruct (decide (b = 0)) as [->|]; [by rewrite Z.bits_0, andb_false_r|].
      rewrite (Z.bits_above_log2 b n); [apply andb_false_r|lia|].
      enough (Z.log2 b < k) by lia. apply Z.log2_lt_pow2; lia. }
  pose proof (Z.add_lor_land (a * 2 ^ k) b). lia.
Qed.

Lemma ud_make_sum kind slot gen :
  ud_make kind slot gen = u8 kind * 2 ^ 56 + slot mod 2 ^ 24 * 2 ^ 32 + u32 gen.
Proof.
  unfold ud_make.
  change 16777215 with (2 ^ 24 - 1). rewrite (land_mask _ 24) by lia.
  assert (u32 slot mod 2 ^ 24 = slot mod 2 ^ 24) as ->.
  { unfold u32. apply Z.mod_mod_divide. by exists (2 ^ 8). }
  pose proof (Z.mod_pos_bound slot (2 ^ 24) ltac:(lia)). pose proof (u32_range gen).
  rewrite <- Z.lor_assoc, (lor_disjoint_add (slot mod 2 ^ 24) _ 32) by lia.
  rewrite (lor_disjoint_add (u8 kind) _ 56) by lia. lia.
Qed.

(** a completion tag carries its kind, the low 24 bits of its slot and its
    generation: the three accessors read back what [make] packed, the tag fits
    in 64 bits, and two tags of in-range fields are equal only when every field
    is equal, so that a stale generation never matches. *)
Theorem user_data_round_trip kind slot gen :
  0 <= ud_make kind slot gen < 2 ^ 64
  /\ ud_kind (ud_make kind slot gen) = u8 kind
  /\ ud_slot (ud_make kind slot gen) = slot mod 2 ^ 24
  /\ ud_gen (ud_make kind slot gen) = u32 gen
  /\ forall kind' slot' gen',
       ud_make kind slot gen = ud_make kind' slot' gen' <->
       u8 kind = u8 kind' /\ slot mod 2 ^ 24 = slot' mod 2 ^ 24 /\ u32 gen = u32 gen'.
Proof.
  assert (forall k s g, 0 <= ud_make k s g < 2 ^ 64 /\ ud_kind (ud_make k s g) = u8 k /\
    ud_slot (ud_make k s g) = s mod 2 ^ 24 /\ ud_gen (ud_make k s g) = u32 g) as Hall.
  { intros k s g. rewrite ud_make_sum. unfold ud_kind, ud_slot, ud_gen.
    change 16777215 with (2 ^ 24 - 1). change 4294967295 with (2 ^ 32 - 1).
    rewrite !land_mask, !Z.shiftr_div_pow2 by lia.
    pose proof (Z.mod_pos_bound s (2 ^ 24) ltac:(lia)). pose proof (u32_range g).
    assert (0 <= u8 k < 2 ^ 8) by (apply Z.mod_pos_bound; lia).
    generalize dependent (s mod 2 ^ 24). intros s' Hs.
    generalize dependent (u32 g). intros g' Hg. remember (u8 k) as k' eqn:Hk. clear Hk.
    repeat split; [lia|lia|..].
    - rewrite <- (Z.div_unique (k' * 2 ^ 56 + s' * 2 ^ 32 + g') (2 ^ 56) k' (s' * 2 ^ 32 + g')) by lia.
      apply Z.mod_small. lia.
    - rewrite <- (Z.div_unique (k' * 2 ^ 56 + s' * 2 ^ 32 + g') (2 ^ 32) (k' * 2 ^ 24 + s') g') by lia.
      rewrite Z.add_comm, Z.mod_add by lia. apply Z.mod_small. lia.
    - symmetry. apply (Z.mod_unique_pos _ _ (k' * 2 ^ 24 + s')); lia. }
  destruct (Hall kind slot gen) as (?&Hk&Hs&Hg). do 4 (split; [done|]).
  intros k' s' g'. destruct (Hall k' s' g') as (?&Hk'&Hs'&Hg'). split.
  - intros Heq. rewrite Heq in Hk, Hs, Hg. repeat split; congruence.
  - intros (E1&E2&E3). by rewrite !ud_make_sum, E1, E2, E3.
Qed.

End Tags.
Export Tags.
