(* ===== verification/Epoll.v ===== *)
(** * The epoll backend

    [EpollBackend] of [src/include/afx/backend/epoll.hpp] and
    [src/src/backend/epoll.cpp]: the proactor interface emulated over readiness
    events.  The kernel is a parameter: a function from the calls made so far,
    with their answers, to the answer of the next one.  Every system call is
    recorded in [log], so that theorems can speak of what reached the wire.
    Loops whose end depends on the kernel take [fuel], the number of calls they
    may make; running out is [None]. *)

From stdpp Require Import base option gmap list.
From Stdlib Require Import ZArith Lia.
From S2P Require Import Prelude Backend.
Local Open Scope Z_scope.

Module Epoll.

(** ** Constants of the platform *)

Definition EPOLLIN : Z := 1.
Definition EPOLLOUT : Z := 4.
Definition EPOLLERR : Z := 8.
Definition EPOLLHUP : Z := 16.
Definition EPOLLRDHUP : Z := 8192.
Definition EPOLLET : Z := 2147483648.
Definition EINTR : Z := 4.
Definition EAGAIN : Z := 11.
Definition EINPROGRESS : Z := 115.
Definition ECANCELED : Z := 125.

Definition kAcceptsPerWait : nat := 32.

(** [std::int32_t(x)]. *)
Definition i32 (x : Z) : Z := let y := u32 x in if y <? 2 ^ 31 then y else y - 2 ^ 32.

Lemma i32_small x : 0 <= x < 2 ^ 31 -> i32 x = x.
Proof. intros H. unfold i32. rewrite u32_small by lia. by rewrite (proj2 (Z.ltb_lt _ _)) by lia. Qed.

(** [ev & mask] as a condition. *)
Definition any (ev mask : Z) : bool := negb (Z.land ev mask =? 0).

Definition to_epoll (i : Interest) : Z :=
  Z.lor (if has i Readable then EPOLLIN else 0) (if has i Writable then EPOLLOUT else 0).

(** ** System calls *)

Inductive Call :=
  | CSendmsg (fd : Z) (iov : list (list Z))
  | CSend (fd : Z) (bytes : list Z)
  | CRecv (fd : Z) (len : Z) (with_control : bool)
  | CAccept (fd : Z)
  | CConnect (fd : Z)
  | CSoError (fd : Z)
  | CCtlAdd (fd ev : Z)
  | CCtlMod (fd ev : Z)
  | CCtlDel (fd : Z)
  | CWait (timeout : Z)
  | CWakeRead
  | CWakeWrite
  | CClose (fd : Z).

(** What a call returned: its value or [-errno] in [ret], the bytes received,
    the descriptors and truncation mark of an [SCM_RIGHTS] message, the software
    and hardware times of each [SCM_TIMESTAMPING] message, and the events of an
    [epoll_pwait2].  For [CSoError] it is the pending [SO_ERROR]. *)
Record Answer := mkAns {
  ret : Z;
  data : list Z;
  rights : list Z;
  ctrunc : bool;
  rx_times : list (Z * Z);
  events : list (Z * Z) }.

Definition ans (r : Z) : Answer := mkAns r [] [] false [] [].

Definition Log := list (Call * Answer).

(** ** State *)

Record SendReq := mkReq { req_ud : UserData; req_bytes : list Z; req_off : Z }.

(** [recv_len] is the size of [recv_buf] and [recv_mem] what the drains wrote at
    its start; [inbox_cap] is the capacity of the registered [FdInbox], if any. *)
Record FdState := mkFd {
  registered : bool;
  interest : Interest;
  watch_ud : UserData;
  recv_armed : bool;
  recv_ud : UserData;
  recv_len : Z;
  recv_mem : list Z;
  timestamping : bool;
  inbox_cap : option nat;
  sendq : list SendReq;
  accept_armed : bool;
  accept_ud : UserData;
  connect_pending : bool;
  connect_ud : UserData }.

Definition fd_state0 : FdState :=
  mkFd false INone 0 false 0 0 [] false None [] false 0 false 0.

(** [inbox] is the caller's landing pad per descriptor, [buf[0 .. count)]. *)
Record EpollBackend := mkEp {
  fds_ : gmap Z FdState;
  ready_ : list Completion;
  pending_events_ : list (Z * Z);
  inbox : gmap Z (list Z);
  log : Log }.

Definition epoll0 : EpollBackend := mkEp ∅ [] [] ∅ [].

Definition set_registered b s := mkFd b (interest s) (watch_ud s) (recv_armed s) (recv_ud s)
  (recv_len s) (recv_mem s) (timestamping s) (inbox_cap s) (sendq s) (accept_armed s)
  (accept_ud s) (connect_pending s) (connect_ud s).
Definition set_watch i u s := mkFd (registered s) i u (recv_armed s) (recv_ud s)
  (recv_len s) (recv_mem s) (timestamping s) (inbox_cap s) (sendq s) (accept_armed s)
  (accept_ud s) (connect_pending s) (connect_ud s).
Definition set_recv b u n s := mkFd (registered s) (interest s) (watch_ud s) b u
  n (recv_mem s) (timestamping s) (inbox_cap s) (sendq s) (accept_armed s)
  (accept_ud s) (connect_pending s) (connect_ud s).
Definition set_recv_armed b s := set_recv b (recv_ud s) (recv_len s) s.
Definition set_recv_mem m s := mkFd (registered s) (interest s) (watch_ud s) (recv_armed s) (recv_ud s)
  (recv_len s) m (timestamping s) (inbox_cap s) (sendq s) (accept_armed s)
  (accept_ud s) (connect_pending s) (connect_ud s).
Definition set_ts b s := mkFd (registered s) (interest s) (watch_ud s) (recv_armed s) (recv_ud s)
  (recv_len s) (recv_mem s) b (inbox_cap s) (sendq s) (accept_armed s)
  (accept_ud s) (connect_pending s) (connect_ud s).
Definition set_inbox_cap c s := mkFd (registered s) (interest s) (watch_ud s) (recv_armed s) (recv_ud s)
  (recv_len s) (recv_mem s) (timestamping s) c (sendq s) (accept_armed s)
  (accept_ud s) (connect_pending s) (connect_ud s).
Definition set_sendq q s := mkFd (registered s) (interest s) (watch_ud s) (recv_armed s) (recv_ud s)
  (recv_len s) (recv_mem s) (timestamping s) (inbox_cap s) q (accept_armed s)
  (accept_ud s) (connect_pending s) (connect_ud s).
Definition set_accept b u s := mkFd (registered s) (interest s) (watch_ud s) (recv_armed s) (recv_ud s)
  (recv_len s) (recv_mem s) (timestamping s) (inbox_cap s) (sendq s) b
  u (connect_pending s) (connect_ud s).
Definition set_connect b u s := mkFd (registered s) (interest s) (watch_ud s) (recv_armed s) (recv_ud s)
  (recv_len s) (recv_mem s) (timestamping s) (inbox_cap s) (sendq s) (accept_armed s)
  (accept_ud s) b u.

Definition set_fds m e := mkEp m (ready_ e) (pending_events_ e) (inbox e) (log e).
Definition set_ready r e := mkEp (fds_ e) r (pending_events_ e) (inbox e) (log e).
Definition set_pending p e := mkEp (fds_ e) (ready_ e) p (inbox e) (log e).
Definition set_inbox m e := mkEp (fds_ e) (ready_ e) (pending_events_ e) m (log e).
Definition set_log l e := mkEp (fds_ e) (ready_ e) (pending_events_ e) (inbox e) l.

(** [fds_[fd]] creates a default entry; a handler's [FdState&] is written back
    to the map when the handler returns. *)
Definition fd_ref (e : EpollBackend) (fd : Z) : FdState := default fd_state0 (fds_ e !! fd).
Definition fd_put (fd : Z) (s : FdState) (e : EpollBackend) : EpollBackend :=
  set_fds (<[fd := s]> (fds_ e)) e.

(** [queue_completion]. *)
Definition queue_completion (u : UserData) (res flags : Z) (e : EpollBackend) : EpollBackend :=
  set_ready (ready_ e ++ [mkComp u res flags no_stamps]) e.

(** [pending_events_.emplace_back(fd, ev)]. *)
Definition push_event (fd ev : Z) (e : EpollBackend) : EpollBackend :=
  set_pending (pending_events_ e ++ [(fd, ev)]) e.

Section Backend.
(** The kernel, and whether the build defines [AFX_WITH_TIMESTAMPING]. *)
Context (kernel : Log -> Call -> Answer) (with_timestamping : bool).

Definition syscall (c : Call) (e : EpollBackend) : Answer * EpollBackend :=
  let a := kernel (log e) c in (a, set_log (log e ++ [(c, a)]) e).

(** A call whose answer the code ignores. *)
Definition syscall_ (c : Call) (e : EpollBackend) : EpollBackend := snd (syscall c e).

(** ** Registration *)

Definition ensure_registered (fd : Z) (s : FdState) (e : EpollBackend)
    : Result unit * FdState * EpollBackend :=
  let '(a, e) := syscall (CCtlAdd fd (Z.lor EPOLLET EPOLLRDHUP)) e in
  if ret a <? 0 then (Bad (errno_error (- ret a)), s, e)
  else (Val tt, set_registered true s, e).

Definition event_mask (s : FdState) : Z :=
  Z.lor (Z.lor (Z.lor (Z.lor EPOLLET EPOLLRDHUP) (to_epoll (interest s)))
          (if recv_armed s || accept_armed s then EPOLLIN else 0))
        (if negb (bool_decide (sendq s = [])) || connect_pending s then EPOLLOUT else 0).

Definition update_events (fd : Z) (s : FdState) (e : EpollBackend) : EpollBackend :=
  if negb (registered s) then e else syscall_ (CCtlMod fd (event_mask s)) e.

(** The tail every submission shares: register if needed, update the mask. *)
Definition register_and_update (fd : Z) (s : FdState) (e : EpollBackend) : Result unit * EpollBackend :=
  if negb (registered s) then
    match ensure_registered fd s e with
    | (Bad r, s, e) => (Bad r, fd_put fd s e)
    | (Val _, s, e) => (Val tt, fd_put fd s (update_events fd s e))
    end
  else (Val tt, fd_put fd s (update_events fd s e)).

Definition attach (fd : Z) (i : Interest) (u : UserData) (e : EpollBackend) : Result unit * EpollBackend :=
  register_and_update fd (set_watch i u (fd_ref e fd)) e.

Definition modify (fd : Z) (i : Interest) (u : UserData) (e : EpollBackend) : Result unit * EpollBackend :=
  match fds_ e !! fd with
  | None => (Bad (make_error Sys NotFound), e)
  | Some s => let s := set_watch i u s in (Val tt, fd_put fd s (update_events fd s e))
  end.

Definition detach (fd : Z) (e : EpollBackend) : Result unit * EpollBackend :=
  match fds_ e !! fd with
  | None => (Val tt, e)
  | Some s =>
      let e := if registered s then syscall_ (CCtlDel fd) e else e in
      (Val tt, set_fds (delete fd (fds_ e)) e)
  end.

Definition set_timestamping (fd : Z) (on : bool) (e : EpollBackend) : EpollBackend :=
  fd_put fd (set_ts on (fd_ref e fd)) e.

Definition set_fd_inbox (fd : Z) (cap : option nat) (e : EpollBackend) : EpollBackend :=
  fd_put fd (set_inbox_cap cap (fd_ref e fd)) e.

(** ** Submissions *)

Definition submit_recv (u : UserData) (fd len : Z) (e : EpollBackend) : Result unit * EpollBackend :=
  let s := fd_ref e fd in
  if recv_armed s then (Bad (make_error Internal Invalid), fd_put fd s e)
  else register_and_update fd (set_recv true u len s) e.

(** The bytes past the first [skip] of an [iov], copied piece by piece. *)
Fixpoint copy_tail (iov : list (list Z)) (skip : Z) : list Z :=
  match iov with
  | [] => []
  | b :: iov =>
      if zlen b <=? skip then copy_tail iov (skip - zlen b)
      else drop (Z.to_nat skip) b ++ copy_tail iov 0
  end.

Definition submit_sendv (u : UserData) (fd : Z) (iov : list (list Z)) (e : EpollBackend)
    : Result unit * EpollBackend :=
  let s := fd_ref e fd in
  let total := zlen (concat iov) in
  if negb (bool_decide (sendq s = [])) then
    let s := set_sendq (sendq s ++ [mkReq u (concat iov) 0]) s in
    (Val tt, fd_put fd s (update_events fd s e))
  else
    let '(a, e) := syscall (CSendmsg fd (take 64 iov)) e in
    let w := ret a in
    if (w <? 0) && negb (w =? - EAGAIN) then
      (Val tt, queue_completion u w 0 (fd_put fd s e))
    else
      let sent := if w <? 0 then 0 else w in
      if sent =? total then (Val tt, queue_completion u (i32 sent) 0 (fd_put fd s e))
      else
        let s := set_sendq (sendq s ++ [mkReq u (copy_tail iov sent) 0]) s in
        register_and_update fd s e.

Definition submit_send (u : UserData) (fd : Z) (bytes : list Z) (e : EpollBackend)
    : Result unit * EpollBackend := submit_sendv u fd [bytes] e.

Definition submit_accept (u : UserData) (fd : Z) (e : EpollBackend) : Result unit * EpollBackend :=
  register_and_update fd (set_accept true u (fd_ref e fd)) e.

Definition submit_connect (u : UserData) (fd : Z) (e : EpollBackend) : Result unit * EpollBackend :=
  let s := fd_ref e fd in
  let '(a, e) := syscall (CConnect fd) e in
  if ret a =? 0 then (Val tt, queue_completion u 0 0 (fd_put fd s e))
  else if negb (ret a =? - EINPROGRESS) then (Val tt, queue_completion u (ret a) 0 (fd_put fd s e))
  else register_and_update fd (set_connect true u s) e.

(** The body of [cancel]'s loop, for one descriptor. *)
Definition cancel_one (u : UserData) (e : EpollBackend) (p : Z * FdState) : EpollBackend :=
  let '(fd, s) := p in
  let r := recv_armed s && (recv_ud s =? u) in
  let a := accept_armed s && (accept_ud s =? u) in
  let c := connect_pending s && (connect_ud s =? u) in
  let hits := filter (fun q => req_ud q = u) (sendq s) in
  let n := ((if r then 1 else 0) + length hits + (if a then 1 else 0) + (if c then 1 else 0))%nat in
  let s := if r then set_recv_armed false s else s in
  let s := set_sendq (filter (fun q => req_ud q <> u) (sendq s)) s in
  let s := if a then set_accept false (accept_ud s) s else s in
  let s := if c then set_connect false (connect_ud s) s else s in
  let e := set_ready (ready_ e ++ replicate n (plain u (- ECANCELED))) e in
  let e := fd_put fd s e in
  if (0 <? n)%nat then update_events fd s e else e.

Definition cancel (u : UserData) (e : EpollBackend) : Result unit * EpollBackend :=
  (Val tt, foldl (cancel_one u) e (map_to_list (fds_ e))).

Definition wake (e : EpollBackend) : EpollBackend := syscall_ CWakeWrite e.

(** ** Readiness *)

(** [collect_rights]: stores descriptors up to the inbox's capacity, closes the
    surplus, and tells whether any were lost. *)
Fixpoint collect_rights (fds : list Z) (cap : nat) (got : list Z) (trunc : bool) (e : EpollBackend)
    : list Z * bool * EpollBackend :=
  match fds with
  | [] => (got, trunc, e)
  | f :: fds =>
      if (length got <? cap)%nat then collect_rights fds cap (got ++ [f]) trunc e
      else collect_rights fds cap got true (syscall_ (CClose f) e)
  end.

(** [parse_rx_timestamping]: a zero time is an absent one. *)
Fixpoint parse_rx_timestamping (times : list (Z * Z)) (flags : Z) (st : Timestamps) : Z * Timestamps :=
  match times with
  | [] => (flags, st)
  | (sw, hw) :: times =>
      let '(flags, st) :=
        if sw =? 0 then (flags, st) else (Z.lor flags HasSwStamp, mkStamps (hw_ns st) sw) in
      let '(flags, st) :=
        if hw =? 0 then (flags, st) else (Z.lor flags HasHwStamp, mkStamps hw (sw_ns st)) in
      parse_rx_timestamping times flags st
  end.

(** What a drain accumulated. *)
Record Drain := mkDrain {
  d_total : Z; d_mem : list Z; d_stamps : Timestamps; d_flags : Z; d_fds : list Z; d_trunc : bool }.

(** The stamps and descriptors of one successful [recvmsg]. *)
Definition harvest (s : FdState) (a : Answer) (d : Drain) (e : EpollBackend) : Drain * EpollBackend :=
  let '(fl, st) :=
    if with_timestamping && timestamping s
    then parse_rx_timestamping (rx_times a) 0 (d_stamps d) else (0, d_stamps d) in
  let '(fds, trunc, e) :=
    match inbox_cap s with
    | Some cap => collect_rights (rights a) cap (d_fds d) (d_trunc d || ctrunc a) e
    | None => (d_fds d, d_trunc d, e)
    end in
  (mkDrain (d_total d) (d_mem d) st (Z.lor (d_flags d) fl) fds trunc, e).

(** [recv] writes its bytes at [recv_buf + at]. *)
Definition write_at (m : list Z) (at_ : Z) (bs : list Z) : list Z :=
  take (Z.to_nat at_) m ++ bs ++ drop (Z.to_nat at_ + length bs) m.

(** The [for (;;)] loop of [on_readable]: receives until the buffer is full, the
    peer has closed, or the kernel has nothing more; yields the completion's
    result. *)
Fixpoint drain_recv (fuel : nat) (fd : Z) (s : FdState) (want_msg : bool) (d : Drain)
    (e : EpollBackend) : option (Z * Drain * EpollBackend) :=
  match fuel with
  | O => None
  | S fuel =>
      let rem := recv_len s - d_total d in
      if rem =? 0 then Some (i32 (d_total d), d, e)
      else
        let '(a, e) := syscall (CRecv fd rem want_msg) e in
        let r := ret a in
        if 0 <? r then
          let '(d, e) := if want_msg then harvest s a d e else (d, e) in
          drain_recv fuel fd s want_msg
            (mkDrain (d_total d + r) (write_at (d_mem d) (d_total d) (data a))
               (d_stamps d) (d_flags d) (d_fds d) (d_trunc d)) e
        else if r =? 0 then Some (if d_total d =? 0 then 0 else i32 (d_total d), d, e)
        else if r =? - EAGAIN then
          Some (if d_total d =? 0 then - EAGAIN else i32 (d_total d), d, e)
        else if r =? - EINTR then drain_recv fuel fd s want_msg d e
        else Some (r, d, e)
  end.

(** The accept loop: at most [kAcceptsPerWait] connections, each reported while
    [out] has room; one that does not fit is closed. *)
Fixpoint accept_loop (k : nat) (fd : Z) (s : FdState) (cap : nat) (out : list Completion)
    (e : EpollBackend) : list Completion * EpollBackend :=
  match k with
  | O => (out, e)
  | S k =>
      let '(a, e) := syscall (CAccept fd) e in
      if ret a <? 0 then (out, e)
      else if (length out <? cap)%nat then
        accept_loop k fd s cap (out ++ [plain (accept_ud s) (ret a)]) e
      else (out, syscall_ (CClose (ret a)) (push_event fd EPOLLIN e))
  end.

(** Reports [c] when [out] has room, otherwise remembers the event. *)
Definition emit_or_defer (cap : nat) (fd ev : Z) (c : Completion) (out : list Completion)
    (e : EpollBackend) : list Completion * EpollBackend :=
  if (length out <? cap)%nat then (out ++ [c], e) else (out, push_event fd ev e).

Definition on_readable (fuel : nat) (fd : Z) (s : FdState) (cap : nat) (out : list Completion)
    (e : EpollBackend) : option (FdState * list Completion * EpollBackend) :=
  let '(out, e) :=
    if has (interest s) Readable
    then emit_or_defer cap fd EPOLLIN (plain (watch_ud s) ReadyRead) out e else (out, e) in
  if accept_armed s then
    let '(out, e) := accept_loop kAcceptsPerWait fd s cap out e in Some (s, out, e)
  else if negb (recv_armed s) then Some (s, out, e)
  else
    let want_msg := bool_decide (is_Some (inbox_cap s)) || (with_timestamping && timestamping s) in
    '(res, d, e) ← drain_recv fuel fd s want_msg (mkDrain 0 (recv_mem s) no_stamps 0 [] false) e;
    let s := set_recv_mem (d_mem d) s in
    if (res =? - EAGAIN) && bool_decide (d_fds d = []) then Some (s, out, e)
    else
      let s := set_recv_armed false s in
      let e := update_events fd s e in
      let e := if bool_decide (is_Some (inbox_cap s)) then set_inbox (<[fd := d_fds d]> (inbox e)) e else e in
      let fl := Z.lor (d_flags d) (if bool_decide (d_fds d = []) then 0 else HasFds) in
      let fl := Z.lor fl (if d_trunc d then FdTrunc else 0) in
      if (length out <? cap)%nat then
        Some (s, out ++ [mkComp (recv_ud s) res fl (d_stamps d)], e)
      else
        let s := set_recv_armed true s in
        Some (s, out, update_events fd s (push_event fd EPOLLIN e)).

(** The send loop of [on_writable]. *)
Fixpoint send_loop (fuel : nat) (fd : Z) (s : FdState) (cap : nat) (out : list Completion)
    (e : EpollBackend) : option (FdState * list Completion * EpollBackend) :=
  match sendq s with
  | [] => Some (s, out, e)
  | q :: rest =>
      match fuel with
      | O => None
      | S fuel =>
          let '(a, e) := syscall (CSend fd (drop (Z.to_nat (req_off q)) (req_bytes q))) e in
          let w := ret a in
          if w <? 0 then
            if w =? - EINTR then send_loop fuel fd s cap out e
            else if w =? - EAGAIN then Some (s, out, e)
            else
              let s := set_sendq rest s in
              let '(out, e) := emit_or_defer cap fd EPOLLOUT (plain (req_ud q) w) out (update_events fd s e) in
              send_loop fuel fd s cap out e
          else
            let off := req_off q + w in
            if off =? zlen (req_bytes q) then
              let s := set_sendq rest s in
              let '(out, e) := emit_or_defer cap fd EPOLLOUT
                (plain (req_ud q) (i32 (zlen (req_bytes q)))) out (update_events fd s e) in
              send_loop fuel fd s cap out e
            else send_loop fuel fd (set_sendq (mkReq (req_ud q) (req_bytes q) off :: rest) s) cap out e
      end
  end.

Definition on_writable (fuel : nat) (fd : Z) (s : FdState) (cap : nat) (out : list Completion)
    (e : EpollBackend) : option (FdState * list Completion * EpollBackend) :=
  let '(s, out, e) :=
    if connect_pending s then
      let s := set_connect false (connect_ud s) s in
      let '(a, e) := syscall (CSoError fd) e in
      let e := update_events fd s e in
      let '(out, e) := emit_or_defer cap fd EPOLLOUT (plain (connect_ud s) (- ret a)) out e in
      (s, out, e)
    else (s, out, e) in
  '(s, out, e) ← send_loop fuel fd s cap out e;
  let '(out, e) :=
    if has (interest s) Writable
    then emit_or_defer cap fd EPOLLOUT (plain (watch_ud s) ReadyWrite) out e else (out, e) in
  Some (s, out, e).

Definition on_errorish (fd : Z) (s : FdState) (ev : Z) (cap : nat) (out : list Completion)
    (e : EpollBackend) : FdState * list Completion * EpollBackend :=
  if recv_armed s then
    let s := set_recv_armed false s in
    let '(a, e) := syscall (CSoError fd) e in
    let e := update_events fd s e in
    if (length out <? cap)%nat then (s, out ++ [plain (recv_ud s) (- ret a)], e)
    else
      let s := set_recv_armed true s in
      (s, out, update_events fd s (push_event fd ev e))
  else if negb (interest s =? INone) then
    let '(out, e) := emit_or_defer cap fd ev
      (plain (watch_ud s)
         (Z.lor (if any ev EPOLLERR then ReadyErr else 0)
                (if any ev (Z.lor EPOLLHUP EPOLLRDHUP) then ReadyHangup else 0))) out e in
    (s, out, e)
  else (s, out, e).

Definition dispatch_event (fuel : nat) (fd : Z) (s : FdState) (ev : Z) (cap : nat)
    (out : list Completion) (e : EpollBackend) : option (FdState * list Completion * EpollBackend) :=
  let '(s, out, e) :=
    if any ev (Z.lor (Z.lor EPOLLERR EPOLLHUP) EPOLLRDHUP)
    then on_errorish fd s ev cap out e else (s, out, e) in
  '(s, out, e) ← (if any ev EPOLLIN then on_readable fuel fd s cap out e else Some (s, out, e));
  if any ev EPOLLOUT then on_writable fuel fd s cap out e else Some (s, out, e).

(** ** The wait *)

(** Dispatches an event to the descriptor's state in the map, if it is there. *)
Definition dispatch_fd (fuel : nat) (fd ev : Z) (cap : nat) (out : list Completion)
    (e : EpollBackend) : option (list Completion * EpollBackend) :=
  match fds_ e !! fd with
  | None => Some (out, e)
  | Some s =>
      '(s, out, e) ← dispatch_event fuel fd s ev cap out e;
      Some (out, fd_put fd s e)
  end.

(** Events left over from a saturated wait; a dispatch may append to the queue,
    so the loop is bounded by [fuel]. *)
Fixpoint pending_loop (fuel : nat) (cap : nat) (out : list Completion) (e : EpollBackend)
    : option (list Completion * EpollBackend) :=
  if (length out <? cap)%nat then
    match pending_events_ e with
    | [] => Some (out, e)
    | (fd, ev) :: rest =>
        match fuel with
        | O => None
        | S fuel' =>
            '(out, e) ← dispatch_fd fuel fd ev cap out (set_pending rest e);
            pending_loop fuel' cap out e
        end
    end
  else Some (out, e).

(** [do r = epoll_pwait2(...) while (r < 0 && errno == EINTR)]. *)
Fixpoint pwait (fuel : nat) (timeout : Z) (e : EpollBackend) : option (Answer * EpollBackend) :=
  match fuel with
  | O => None
  | S fuel =>
      let '(a, e) := syscall (CWait timeout) e in
      if ret a =? - EINTR then pwait fuel timeout e else Some (a, e)
  end.

(** [while (read(wake_fd_, &v, 8) == 8) {}]. *)
Fixpoint drain_wake (fuel : nat) (e : EpollBackend) : option EpollBackend :=
  match fuel with
  | O => None
  | S fuel =>
      let '(a, e) := syscall CWakeRead e in
      if ret a =? 8 then drain_wake fuel e else Some e
  end.

Fixpoint event_loop (fuel : nat) (wake_fd : Z) (evs : list (Z * Z)) (cap : nat)
    (out : list Completion) (e : EpollBackend) : option (list Completion * EpollBackend) :=
  match evs with
  | [] => Some (out, e)
  | (fd, ev) :: evs =>
      if fd =? wake_fd then
        e ← drain_wake fuel e; event_loop fuel wake_fd evs cap out e
      else if bool_decide (is_Some (fds_ e !! fd)) then
        if (length out <? cap)%nat then
          '(out, e) ← dispatch_fd fuel fd ev cap out e;
          event_loop fuel wake_fd evs cap out e
        else event_loop fuel wake_fd evs cap out (push_event fd ev e)
      else event_loop fuel wake_fd evs cap out e
  end.

Definition wait (fuel : nat) (wake_fd : Z) (cap : nat) (timeout : Z) (e : EpollBackend)
    : option (list Completion * EpollBackend) :=
  let out := take cap (ready_ e) in
  let e := set_ready (drop cap (ready_ e)) e in
  if (length out =? cap)%nat then Some (out, e)
  else
    '(out, e) ← pending_loop fuel cap out e;
    if (length out =? cap)%nat then Some (out, e)
    else
      let block := negb (negb (bool_decide (ready_ e = [])) || (0 <? length out)%nat || (timeout <=? 0)) in
      '(a, e) ← pwait fuel (if block then timeout else 0) e;
      if ret a <? 0 then Some (out, e)
      else event_loop fuel wake_fd (take 64 (events a)) cap out e.

(** ** What reached the wire *)

(** The bytes of a send the kernel accepted. *)
Definition accepted (fd : Z) (x : Call * Answer) : list Z :=
  match fst x with
  | CSendmsg f iov => if f =? fd then take (Z.to_nat (ret (snd x))) (concat iov) else []
  | CSend f bs => if f =? fd then take (Z.to_nat (ret (snd x))) bs else []
  | _ => []
  end.
Definition wire (fd : Z) (l : Log) : list Z := concat (map (accepted fd) l).

(** The bytes received, in order. *)
Definition arrived (fd : Z) (x : Call * Answer) : list Z :=
  match fst x with
  | CRecv f _ _ => if f =? fd then data (snd x) else []
  | _ => []
  end.
Definition received (fd : Z) (l : Log) : list Z := concat (map (arrived fd) l).

(** The queued bytes a descriptor still has to send. *)
Definition req_rest (q : SendReq) : list Z := drop (Z.to_nat (req_off q)) (req_bytes q).
Definition unsent (s : FdState) : list Z := concat (map req_rest (sendq s)).
Definition req_ok (q : SendReq) : Prop := 0 <= req_off q <= zlen (req_bytes q).
Definition queue_ok (s : FdState) : Prop := Forall req_ok (sendq s).

(** A stream descriptor: no watch interest, no connect in progress. *)
Definition stream_fd (s : FdState) : Prop :=
  interest s = INone /\ connect_pending s = false /\ queue_ok s.

(** A kernel whose sends on [fd] accept a non-empty part of what they are given
    or answer [EAGAIN] ([send(2)] on a healthy non-blocking socket). *)
Definition healthy_send (fd : Z) : Prop :=
  forall l,
    (forall iov, ret (kernel l (CSendmsg fd iov)) = - EAGAIN
       \/ 0 <= ret (kernel l (CSendmsg fd iov)) <= zlen (concat iov)) /\
    (forall bs, ret (kernel l (CSend fd bs)) = - EAGAIN
       \/ 0 <= ret (kernel l (CSend fd bs)) <= zlen bs
          /\ (bs <> [] -> 0 < ret (kernel l (CSend fd bs)))).

(** A kernel whose receives on [fd] return the count of the bytes they deliver,
    at most what was asked, or answer [EAGAIN] ([recv(2)]). *)
Definition healthy_recv (fd : Z) : Prop :=
  forall l n w, 0 < n ->
    let a := kernel l (CRecv fd n w) in
    ret a = - EAGAIN /\ data a = [] \/ 0 <= ret a <= n /\ zlen (data a) = ret a.

Lemma wire_snoc fd l c a : wire fd (l ++ [(c, a)]) = wire fd l ++ accepted fd (c, a).
Proof. unfold wire. rewrite map_app, concat_app. simpl. by rewrite app_nil_r. Qed.

Lemma received_snoc fd l c a : received fd (l ++ [(c, a)]) = received fd l ++ arrived fd (c, a).
Proof. unfold received. rewrite map_app, concat_app. simpl. by rewrite app_nil_r. Qed.

(** What [update_events] leaves alone. *)
Lemma update_events_frame fd s e :
  fds_ (update_events fd s e) = fds_ e /\ ready_ (update_events fd s e) = ready_ e
  /\ pending_events_ (update_events fd s e) = pending_events_ e
  /\ inbox (update_events fd s e) = inbox e
  /\ forall f, wire f (log (update_events fd s e)) = wire f (log e)
          /\ received f (log (update_events fd s e)) = received f (log e).
Proof.
  unfold update_events. destruct (registered s); simpl; [|naive_solver].
  repeat split; try done; rewrite ?wire_snoc, ?received_snoc; apply app_nil_r.
Qed.

Lemma wire_update fd s e f : wire f (log (update_events fd s e)) = wire f (log e).
Proof. apply update_events_frame. Qed.

Lemma received_update fd s e f : received f (log (update_events fd s e)) = received f (log e).
Proof. apply update_events_frame. Qed.

Lemma ready_update fd s e : ready_ (update_events fd s e) = ready_ e.
Proof. apply update_events_frame. Qed.

Lemma fds_update fd s e : fds_ (update_events fd s e) = fds_ e.
Proof. apply update_events_frame. Qed.

Lemma fd_ref_put fd s e : fd_ref (fd_put fd s e) fd = s.
Proof. unfold fd_ref, fd_put. simpl. by rewrite lookup_insert_eq. Qed.

Lemma ready_put fd s e : ready_ (fd_put fd s e) = ready_ e.
Proof. done. Qed.

Lemma log_put fd s e : log (fd_put fd s e) = log e.
Proof. done. Qed.

Lemma copy_tail_drop iov n : 0 <= n -> copy_tail iov n = drop (Z.to_nat n) (concat iov).
Proof.
  revert n. induction iov as [|b iov IH]; intros n Hn; simpl; [by rewrite drop_nil|].
  unfold zlen. case_test.
  - rewrite IH by lia. rewrite drop_app_ge by lia. f_equal. lia.
  - rewrite drop_app_le by lia. by rewrite IH.
Qed.

Lemma take_64_prefix (iov : list (list Z)) w :
  0 <= w <= zlen (concat (take 64 iov)) ->
  take (Z.to_nat w) (concat (take 64 iov)) = take (Z.to_nat w) (concat iov)
  /\ w <= zlen (concat iov).
Proof.
  unfold zlen. intros Hw. rewrite <- (take_drop 64 iov) at 2 3.
  rewrite concat_app, length_app, take_app_le by lia. split; [done|lia].
Qed.

(** The shared tail of the submissions keeps the wire and the queue. *)
Lemma register_and_update_frame fd s e :
  let e' := snd (register_and_update fd s e) in
  exists b, fd_ref e' fd = set_registered b s /\ ready_ e' = ready_ e
    /\ forall f, wire f (log e') = wire f (log e).
Proof.
  unfold register_and_update, ensure_registered, syscall.
  destruct (registered s) eqn:Hr; simpl; [|case_test; simpl].
  - exists true. rewrite fd_ref_put, ready_update. repeat split; try done.
    + destruct s. unfold set_registered. simpl in *. by subst.
    + intros f. apply wire_update.
  - exists false. rewrite fd_ref_put. repeat split; try done.
    + destruct s. unfold set_registered. simpl in *. by subst.
    + intros f. rewrite wire_snoc. apply app_nil_r.
  - exists true. rewrite fd_ref_put. repeat split; try done.
    intros f. rewrite !wire_snoc. unfold accepted. simpl. by rewrite !app_nil_r.
Qed.

(** ** Sending keeps the stream *)

Lemma rest_after_partial q w :
  req_ok q -> 0 <= w <= zlen (req_rest q) ->
  take (Z.to_nat w) (req_rest q) ++ drop (Z.to_nat (req_off q + w)) (req_bytes q) = req_rest q.
Proof.
  unfold req_ok, req_rest. intros Hq Hw. rewrite Z2Nat.inj_add, <- drop_drop by lia.
  apply take_drop.
Qed.

Lemma req_rest_fresh u bs : req_rest (mkReq u bs 0) = bs.
Proof. apply drop_0. Qed.

Lemma req_rest_len q : req_ok q -> zlen (req_rest q) = zlen (req_bytes q) - req_off q.
Proof. unfold req_ok, req_rest, zlen. rewrite length_drop. lia. Qed.

(** One [send] of the front request: what is left of it, and of the wire. *)
Lemma front_send fd q rest s e a :
  sendq s = q :: rest -> req_ok q -> 0 <= ret a <= zlen (req_rest q) ->
  let l := log e ++ [(CSend fd (req_rest q), a)] in
  wire fd l ++ drop (Z.to_nat (req_off q + ret a)) (req_bytes q) ++ concat (map req_rest rest)
  = wire fd (log e) ++ unsent s.
Proof.
  intros Hs Hq Ha l. unfold l, unsent. rewrite Hs, wire_snoc. unfold accepted. simpl.
  rewrite Z.eqb_refl, <- !app_assoc. f_equal. rewrite app_assoc. f_equal.
  by apply rest_after_partial.
Qed.

(** The state of a send loop that has run: requests leave from the front, each
    with one completion, and nothing but the queue changes. *)
Definition sends_from (fd : Z) (s s' : FdState) (done : list Completion) (e e' : EpollBackend) : Prop :=
  queue_ok s' /\ s' = set_sendq (sendq s') s
  /\ wire fd (log e') ++ unsent s' = wire fd (log e) ++ unsent s
  /\ map user done ++ map req_ud (sendq s') = map req_ud (sendq s)
  /\ ready_ e' = ready_ e /\ (length (unsent s') <= length (unsent s))%nat.

Lemma sends_from_step fd s s1 s' c1 c2 e e1 e' :
  sends_from fd s s1 c1 e e1 -> sends_from fd s1 s' c2 e1 e' ->
  sends_from fd s s' (c1 ++ c2) e e'.
Proof.
  intros (_&F1&W1&U1&R1&L1) (Q2&F2&W2&U2&R2&L2). split; [done|]. split; [|split; [|split; [|split]]].
  - rewrite F2, F1. by destruct s.
  - by rewrite W2.
  - rewrite map_app, <- app_assoc, U2. done.
  - by rewrite R2.
  - lia.
Qed.

Lemma send_loop_spec fuel fd cap s out e :
  healthy_send fd -> queue_ok s ->
  (length (sendq s) + length (unsent s) <= fuel)%nat ->
  (length out + length (sendq s) <= cap)%nat ->
  exists s' out' e', send_loop fuel fd s cap out e = Some (s', out ++ out', e')
    /\ sends_from fd s s' out' e e'.
Proof.
  intros Hk. revert s out e. induction fuel as [|fuel IH]; intros s out e Hq Hf Hc; simpl.
  { destruct (sendq s) eqn:Hs; simpl in *; [|lia]. exists s, [], e. rewrite app_nil_r.
    split; [done|]. repeat split; try done; by destruct s. }
  destruct (sendq s) as [|q rest] eqn:Hs.
  { exists s, [], e. rewrite app_nil_r. split; [done|]. repeat split; try done; by destruct s. }
  fold (req_rest q). assert (req_ok q /\ Forall req_ok rest) as [Hq1 Hq2].
  { unfold queue_ok in Hq. rewrite Hs in Hq. by apply Forall_cons in Hq. }
  destruct (Hk (log e)) as [_ Hsend]. specialize (Hsend (req_rest q)).
  pose proof (req_rest_len q Hq1) as Hlen.
  set (a := kernel (log e) (CSend fd (req_rest q))) in *.
  case_test.
  { assert (ret a = - EAGAIN) as -> by lia. exists s, [], (set_log (log e ++ [(CSend fd (req_rest q), a)]) e).
    rewrite app_nil_r. split; [done|]. repeat split; try done; [by destruct s|].
    simpl. rewrite wire_snoc. unfold accepted. simpl. rewrite Z.eqb_refl.
    replace (Z.to_nat (ret a)) with O by lia. by rewrite take_0, app_nil_r. }
  destruct Hsend as [Hsend|[Hr Hpos]]; [unfold EAGAIN in *; lia|].
  pose proof (front_send fd q rest s e a Hs Hq1 Hr) as Hw. cbv zeta in Hw.
  unfold unsent in Hf. rewrite Hs in Hf. simpl in Hf. rewrite length_app in Hf.
  assert (Z.of_nat (length (req_rest q)) = zlen (req_bytes q) - req_off q) as Hl by (by rewrite <- Hlen).
  unfold req_ok in Hq1. case_test.
  - unfold emit_or_defer. simpl in Hc. rewrite (proj2 (Nat.ltb_lt _ _)) by lia.
    edestruct (IH (set_sendq rest s) (out ++ [plain (req_ud q) (i32 (zlen (req_bytes q)))]))
      as (s'&out'&e'&E'&S');
      [done|simpl; unfold unsent; simpl; lia|rewrite length_app; simpl; lia|].
    eexists s', _, e'. rewrite E', <- app_assoc. split; [done|].
    eapply sends_from_step; [|exact S'].
    split; [done|]. split; [done|]. rewrite wire_update, ready_update.
    split; [|split; [simpl; by rewrite Hs|split; [done|]]];
      [|unfold unsent; rewrite Hs; simpl; rewrite length_app; lia].
    rewrite <- Hw. unfold unsent. simpl. rewrite E0, drop_ge; [done|unfold zlen; lia].
  - edestruct (IH (set_sendq (mkReq (req_ud q) (req_bytes q) (req_off q + ret a) :: rest) s) out)
      as (s'&out'&e'&E'&S').
    + unfold queue_ok. simpl. constructor; [|done]. unfold req_ok. simpl. lia.
    + unfold unsent. simpl. rewrite length_app. unfold req_rest at 1. simpl. rewrite length_drop.
      assert (0 < ret a). { apply Hpos. intros Hn. rewrite Hn in Hlen. unfold zlen in *. simpl in *. lia. }
      unfold zlen in *. lia.
    + simpl in *. lia.
    + eexists s', _, e'. rewrite E'. split; [done|].
      eapply (sends_from_step fd s _ s' []); [|exact S'].
      split; [|split; [done|split; [|split; [simpl; by rewrite Hs|split; [done|]]]]].
      * unfold queue_ok. simpl. constructor; [|done]. unfold req_ok. simpl. lia.
      * rewrite <- Hw. done.
      * unfold unsent. rewrite Hs. simpl. rewrite !length_app. unfold req_rest at 1 3. simpl.
        rewrite !length_drop. lia.
Qed.

Lemma on_writable_stream fuel fd cap s e :
  healthy_send fd -> stream_fd s ->
  (length (sendq s) + length (unsent s) <= fuel)%nat -> (length (sendq s) <= cap)%nat ->
  exists s' out e', on_writable fuel fd s cap [] e = Some (s', out, e')
    /\ sends_from fd s s' out e e' /\ stream_fd s'.
Proof.
  intros Hk (Hi&Hc&Hq) Hf Hcap. unfold on_writable. rewrite Hc.
  destruct (send_loop_spec fuel fd cap s [] e) as (s'&out&e'&E&S'); [done..|].
  rewrite E. simpl. exists s', out, e'. pose proof S' as (Q&F&_).
  assert (interest s' = INone /\ connect_pending s' = false) as [Hi' Hc'] by (by rewrite F).
  rewrite Hi'. simpl. repeat split; by try apply S'.
Qed.

(** A submission on a stream descriptor adds its bytes to the stream, and its
    completion to the queue of those to come. *)
Lemma submit_sendv_stream u fd iov e :
  healthy_send fd -> stream_fd (fd_ref e fd) ->
  let e' := snd (submit_sendv u fd iov e) in
  stream_fd (fd_ref e' fd)
  /\ wire fd (log e') ++ unsent (fd_ref e' fd)
     = wire fd (log e) ++ unsent (fd_ref e fd) ++ concat iov
  /\ (length (unsent (fd_ref e' fd)) <= length (unsent (fd_ref e fd)) + length (concat iov))%nat
  /\ exists done, ready_ e' = ready_ e ++ done
     /\ map user done ++ map req_ud (sendq (fd_ref e' fd)) = map req_ud (sendq (fd_ref e fd)) ++ [u].
Proof.
  intros Hk Hs. pose proof Hs as (Hi&Hc&Hq). unfold submit_sendv.
  destruct (decide (sendq (fd_ref e fd) = [])) as [Hn|Hn].
  - rewrite bool_decide_eq_true_2 by done. cbn [negb]. unfold syscall. cbv zeta.
    destruct (Hk (log e)) as [Hm _]. specialize (Hm (take 64 iov)).
    set (a := kernel (log e) (CSendmsg fd (take 64 iov))) in *.
    assert (((ret a <? 0) && negb (ret a =? - EAGAIN))%bool = false) as ->.
    { destruct Hm as [->|Hm]; [done|]. destruct (Z.ltb_spec (ret a) 0); [lia|done]. }
    set (sent := if ret a <? 0 then 0 else ret a).
    assert (0 <= sent <= zlen (concat (take 64 iov)) /\ Z.to_nat (ret a) = Z.to_nat sent) as [Hsent Hto].
    { subst sent. pose proof (zlen_nonneg (concat (take 64 iov))). case_test; destruct Hm; unfold EAGAIN in *; lia. }
    destruct (take_64_prefix iov sent Hsent) as [Htk Hle].
    assert (unsent (fd_ref e fd) = []) as Hu by (unfold unsent; by rewrite Hn).
    assert (wire fd (log e ++ [(CSendmsg fd (take 64 iov), a)])
            = wire fd (log e) ++ take (Z.to_nat sent) (concat iov)) as Hw.
    { rewrite wire_snoc. unfold accepted. simpl. by rewrite Z.eqb_refl, Hto, Htk. }
    case_test; cbn [snd].
    + unfold queue_completion. cbn [log ready_ set_ready]. change (fd_ref (set_ready ?r ?x) fd) with (fd_ref x fd).
      rewrite fd_ref_put, log_put, ready_put. cbn [log ready_ set_log]. split; [done|].
      rewrite Hu, Hw, Hn, take_ge by (unfold zlen in *; lia). rewrite app_nil_r. split; [done|].
      split; [simpl; lia|]. by eexists.
    + edestruct register_and_update_frame as (b&Er&Rr&Wr). rewrite Er, Rr, Wr.
      cbn [log ready_ set_log]. rewrite Hw. cbn [sendq set_sendq set_registered]. rewrite Hn. cbn [app].
      rewrite copy_tail_drop by lia. unfold unsent. cbn [sendq set_sendq set_registered]. rewrite Hn. cbn [map concat app].
      rewrite req_rest_fresh, app_nil_r, <- app_assoc, take_drop.
      split; [|split; [done|split; [rewrite length_drop; simpl; lia|exists []; by rewrite app_nil_r]]].
      repeat split; try done. constructor; [|done]. unfold req_ok. simpl. pose proof (zlen_nonneg (drop (Z.to_nat sent) (concat iov))). lia.
  - rewrite bool_decide_eq_false_2 by done. cbn [negb snd]. rewrite fd_ref_put, log_put, ready_put, wire_update, ready_update.
    assert (unsent (set_sendq (sendq (fd_ref e fd) ++ [mkReq u (concat iov) 0]) (fd_ref e fd))
            = unsent (fd_ref e fd) ++ concat iov) as Hu.
    { unfold unsent. simpl. rewrite map_app, concat_app. simpl. by rewrite app_nil_r. }
    rewrite Hu. split; [|split; [done|split; [rewrite length_app; lia|]]].
    + repeat split; try done. unfold queue_ok. simpl. apply Forall_app. split; [done|].
      constructor; [|done]. unfold req_ok. simpl. pose proof (zlen_nonneg (concat iov)). lia.
    + exists []. rewrite app_nil_r. simpl. by rewrite map_app.
Qed.

(** ** A stream descriptor over time *)

(** A submission, or a writable event reported for the descriptor. *)
Inductive SendOp := OSend (u : UserData) (iov : list (list Z)) | OWritable.

(** Runs the operations, collecting the completions in the order they appear in
    [ready_] and in the batches of the waits. *)
Fixpoint run_sends (fuel : nat) (fd : Z) (cap : nat) (ops : list SendOp) (acc : list Completion)
    (e : EpollBackend) : option (list Completion * EpollBackend) :=
  match ops with
  | [] => Some (acc, e)
  | OSend u iov :: ops =>
      let e' := snd (submit_sendv u fd iov e) in
      run_sends fuel fd cap ops (acc ++ drop (length (ready_ e)) (ready_ e')) e'
  | OWritable :: ops =>
      '(s, out, e) ← on_writable fuel fd (fd_ref e fd) cap [] e;
      run_sends fuel fd cap ops (acc ++ out) (fd_put fd s e)
  end.

Definition op_bytes (o : SendOp) : list Z := match o with OSend _ iov => concat iov | OWritable => [] end.
Definition op_uds (o : SendOp) : list UserData := match o with OSend u _ => [u] | OWritable => [] end.

Lemma run_sends_spec fuel fd cap ops acc e :
  healthy_send fd -> stream_fd (fd_ref e fd) ->
  (length (sendq (fd_ref e fd)) + length (unsent (fd_ref e fd))
     + length ops + length (concat (map op_bytes ops)) <= fuel)%nat ->
  (length (sendq (fd_ref e fd)) + length ops <= cap)%nat ->
  exists acc' e', run_sends fuel fd cap ops acc e = Some (acc ++ acc', e')
    /\ wire fd (log e') ++ unsent (fd_ref e' fd)
       = wire fd (log e) ++ unsent (fd_ref e fd) ++ concat (map op_bytes ops)
    /\ map user acc' ++ map req_ud (sendq (fd_ref e' fd))
       = map req_ud (sendq (fd_ref e fd)) ++ concat (map op_uds ops).
Proof.
  intros Hk. revert acc e. induction ops as [|[u iov|] ops IH]; intros acc e Hs Hf Hc; simpl.
  - exists [], e. by rewrite !app_nil_r.
  - destruct (submit_sendv_stream u fd iov e Hk Hs) as (Hs'&Hw&Hlu&c&Hr&Hu).
    set (e1 := snd (submit_sendv u fd iov e)) in *.
    assert (length (sendq (fd_ref e1 fd)) + length c = S (length (sendq (fd_ref e fd))))%nat as Hlq.
    { apply (f_equal length) in Hu. rewrite !length_app, !length_map in Hu. simpl in Hu. lia. }
    simpl in Hf, Hc. rewrite length_app in Hf.
    destruct (IH (acc ++ drop (length (ready_ e)) (ready_ e1)) e1) as (acc'&e'&E&W&U); [done|lia|lia|].
    eexists _, e'. rewrite E, Hr, drop_app_length, <- app_assoc. split; [done|]. split.
    + rewrite W, app_assoc, Hw, <- !app_assoc. done.
    + rewrite map_app, <- app_assoc, U, app_assoc, Hu, <- app_assoc. done.
  - simpl in Hf, Hc.
    destruct (on_writable_stream fuel fd cap (fd_ref e fd) e Hk Hs) as (s'&out&e1&E1&(Q&F&W1&U1&R1&L1)&Hs'); [lia|lia|].
    rewrite E1. simpl.
    assert (length (sendq s') <= length (sendq (fd_ref e fd)))%nat as Hlq.
    { apply (f_equal length) in U1. rewrite length_app, !length_map in U1. lia. }
    destruct (IH (acc ++ out) (fd_put fd s' e1)) as (acc'&e'&E&W&U); rewrite ?fd_ref_put; [done|lia|lia|].
    eexists _, e'. rewrite E, <- app_assoc. split; [done|]. rewrite fd_ref_put, log_put in W. rewrite fd_ref_put in U.
    split; [by rewrite W, app_assoc, W1, <- app_assoc|by rewrite map_app, <- app_assoc, U, app_assoc, U1].
Qed.

(** ** Receiving *)

(** [e'] has made further calls, none of which received bytes. *)
Definition quiet (e e' : EpollBackend) : Prop :=
  exists l, log e' = log e ++ l /\ forall f, received f l = [].

Lemma quiet_refl e : quiet e e.
Proof. exists []. by rewrite app_nil_r. Qed.

Lemma received_app f l l' : received f (l ++ l') = received f l ++ received f l'.
Proof. unfold received. by rewrite map_app, concat_app. Qed.

Lemma quiet_trans e1 e2 e3 : quiet e1 e2 -> quiet e2 e3 -> quiet e1 e3.
Proof.
  intros (l&E&R) (l'&E'&R'). exists (l ++ l'). rewrite E', E, <- app_assoc. split; [done|].
  intros f. by rewrite received_app, R, R'.
Qed.

Lemma quiet_update fd s e : quiet e (update_events fd s e).
Proof.
  unfold update_events. destruct (registered s); [|apply quiet_refl].
  by exists [(CCtlMod fd (event_mask s), kernel (log e) (CCtlMod fd (event_mask s)))].
Qed.

Lemma quiet_collect fds cap got trunc e : quiet e (snd (collect_rights fds cap got trunc e)).
Proof.
  revert got trunc e. induction fds as [|f fds IH]; intros got trunc e; simpl; [apply quiet_refl|].
  case_test; [apply IH|]. eapply quiet_trans; [|apply IH].
  by exists [(CClose f, kernel (log e) (CClose f))].
Qed.

Lemma harvest_frame s a d e d' e' :
  harvest s a d e = (d', e') -> quiet e e' /\ d_total d' = d_total d /\ d_mem d' = d_mem d.
Proof.
  unfold harvest. intros E.
  destruct (if with_timestamping && timestamping s then _ else _) as [fl st].
  destruct (inbox_cap s) as [c|].
  - pose proof (quiet_collect (rights a) c (d_fds d) (d_trunc d || ctrunc a) e) as Q.
    destruct (collect_rights _ _ _ _ _) as [[fds tr] e1]. by injection E as <- <-.
  - injection E as <- <-. split; [apply quiet_refl|done].
Qed.

Lemma write_at_take m n bs :
  0 <= n <= zlen m ->
  take (Z.to_nat (n + zlen bs)) (write_at m n bs) = take (Z.to_nat n) m ++ bs
  /\ n + zlen bs <= zlen (write_at m n bs).
Proof.
  unfold write_at, zlen. intros Hn. rewrite app_assoc. split.
  - rewrite take_app_le by (rewrite length_app, length_take; lia).
    apply take_ge. rewrite length_app, length_take. lia.
  - rewrite !length_app, length_take, length_drop. lia.
Qed.

(** What a drain that starts in [d] did: the calls [l] it made received exactly
    the bytes it stored after those already there, and the result says how many,
    or that there was nothing, or that the peer has closed. *)
Definition drained (fd : Z) (s : FdState) (d : Drain) (e : EpollBackend)
    (res : Z) (d' : Drain) (e' : EpollBackend) : Prop :=
  exists l, log e' = log e ++ l
    /\ d_total d' = d_total d + zlen (received fd l) /\ d_total d' <= recv_len s
    /\ take (Z.to_nat (d_total d')) (d_mem d') = take (Z.to_nat (d_total d)) (d_mem d) ++ received fd l
    /\ (res = d_total d' /\ (d_total d' = 0 -> exists n w a, (CRecv fd n w, a) ∈ l /\ ret a = 0)
        \/ res = - EAGAIN /\ d_total d' = 0)
    /\ (d_total d' = 0 -> d_fds d' = d_fds d).

Lemma drain_recv_spec fuel fd s w d e :
  healthy_recv fd -> 0 < recv_len s < 2 ^ 31 ->
  0 <= d_total d <= recv_len s -> d_total d <= zlen (d_mem d) ->
  recv_len s - d_total d < Z.of_nat fuel ->
  exists res d' e', drain_recv fuel fd s w d e = Some (res, d', e') /\ drained fd s d e res d' e'.
Proof.
  intros Hk Hlen. revert d e. induction fuel as [|fuel IH]; intros d e Hd Hm Hf; [lia|].
  assert (i32 (d_total d) = d_total d) as Hi by (apply i32_small; lia).
  cbn [drain_recv]. case_test.
  { eexists _, d, e. split; [done|]. exists []. rewrite !app_nil_r, Hi. unfold zlen. simpl.
    repeat split; try lia. }
  unfold syscall. cbv zeta. set (c := CRecv fd (recv_len s - d_total d) w).
  pose proof (Hk (log e) (recv_len s - d_total d) w ltac:(lia)) as Ha. cbv zeta in Ha. fold c in Ha.
  set (a := kernel (log e) c) in *.
  assert (forall l, received fd ((c, a) :: l) = data a ++ received fd l) as Hrec.
  { intros l. unfold received. simpl. unfold arrived at 1. simpl. by rewrite Z.eqb_refl. }
  case_test.
  - destruct Ha as [[? _]|[Har Hda]]; [unfold EAGAIN in *; lia|].
    destruct (if w then _ else _) as [d1 e1] eqn:Eh.
    assert (quiet (set_log (log e ++ [(c, a)]) e) e1 /\ d_total d1 = d_total d /\ d_mem d1 = d_mem d) as (Q&Ht&Hme).
    { destruct w; [by eapply harvest_frame|]. injection Eh as <- <-. split; [apply quiet_refl|done]. }
    destruct (write_at_take (d_mem d) (d_total d) (data a)) as [Hwt Hwl]; [lia|].
    rewrite Ht, Hme. rewrite Hda in Hwt, Hwl.
    edestruct (IH (mkDrain (d_total d + ret a) (write_at (d_mem d) (d_total d) (data a))
      (d_stamps d1) (d_flags d1) (d_fds d1) (d_trunc d1)) e1) as (res&d'&e'&E'&l&El&Tl&Bl&Ml&Rl&Fl);
      cbn [d_total d_mem] in *; [lia|lia|lia|].
    exists res, d', e'. split; [done|]. destruct Q as (l1&El1&Rl1). cbn [log set_log] in El1.
    exists ((c, a) :: l1 ++ l). rewrite El, El1, <- !app_assoc. rewrite Hrec, received_app, Rl1.
    cbn [app]. rewrite zlen_app, Hda. split; [done|]. split; [lia|]. split; [done|].
    split; [by rewrite Ml, Hwt, <- app_assoc|].
    split; [|pose proof (zlen_nonneg (received fd l)); lia].
    destruct Rl as [[-> Rl]|[-> Rl]]; [left|right; split; [done|lia]]. split; [done|].
    intros H0. destruct (Rl H0) as (n&w'&a'&Hin&Hr). exists n, w', a'.
    split; [|done]. right. apply elem_of_app. by right.
  - destruct Ha as [[Ha Hda]|[Har Hda]].
    + rewrite Ha. change (- EAGAIN =? 0) with false. rewrite Z.eqb_refl. cbn iota.
      eexists _, d, _. split; [done|]. exists [(c, a)]. rewrite (Hrec []), Hda, !app_nil_r. unfold zlen. simpl.
      repeat split; try lia. case_test; [by right|left]. split; [done|lia].
    + assert (ret a = 0) as Ha by lia. rewrite Ha. rewrite Z.eqb_refl. cbn iota.
      assert (data a = []) as Hd0 by (apply length_zero_iff_nil; unfold zlen in *; lia).
      eexists _, d, _. split; [done|]. exists [(c, a)]. rewrite (Hrec []), Hd0, !app_nil_r. unfold zlen. simpl.
      repeat split; try lia. left. split; [case_test; lia|].
      intros _. eexists _, _, a. split; [by left|done].
Qed.

(** ** Properties *)

(** C4: the send path keeps the byte stream.  Over any sequence of submissions and
    writable events on a stream descriptor, with a kernel that fails no send, room for
    the completions in the batch and enough fuel for the bytes, every loop ends, and the bytes the kernel accepted followed by the bytes still queued
    are the submitted bytes in submission order, each exactly once, however the
    kernel splits the writes.  Every submission has exactly one completion, in
    submission order: those reported so far followed by those of the queued
    requests are the submitted tags. *)
Theorem epoll_send_stream_in_order fuel fd cap ops :
  healthy_send fd ->
  (length ops + length (concat (map op_bytes ops)) <= fuel)%nat -> (length ops <= cap)%nat ->
  exists out e', run_sends fuel fd cap ops [] epoll0 = Some (out, e')
    /\ wire fd (log e') ++ unsent (fd_ref e' fd) = concat (map op_bytes ops)
    /\ map user out ++ map req_ud (sendq (fd_ref e' fd)) = concat (map op_uds ops).
Proof.
  intros Hk Hf Hc.
  destruct (run_sends_spec fuel fd cap ops [] epoll0) as (out&e'&E&W&U); [done| |done..|].
  { repeat split. constructor. }
  by exists out, e'.
Qed.

(** a readable event on an armed receive drains the socket into the submitted
    buffer and reports exactly that.  With a healthy kernel the drain ends, and
    either nothing had arrived and the receive stays armed, or one completion
    with the submitted tag is reported: its result is the number of bytes the
    calls received, those bytes are at the start of the buffer, within its
    length, and the receive is disarmed.  A result of zero means the kernel
    reported the end of the stream. *)
Theorem epoll_recv_reports_what_arrived fuel fd s cap out e :
  healthy_recv fd -> recv_armed s = true -> accept_armed s = false -> interest s = INone ->
  0 < recv_len s < 2 ^ 31 -> recv_len s < Z.of_nat fuel -> (length out < cap)%nat ->
  exists s' out' e' l, on_readable fuel fd s cap out e = Some (s', out', e') /\ log e' = log e ++ l /\
    (received fd l = [] /\ out' = out /\ recv_armed s' = true
     \/ exists c, out' = out ++ [c] /\ user c = recv_ud s /\ result c = zlen (received fd l)
        /\ zlen (received fd l) <= recv_len s
        /\ take (length (received fd l)) (recv_mem s') = received fd l
        /\ recv_armed s' = false
        /\ (received fd l = [] -> exists n w a, (CRecv fd n w, a) ∈ l /\ ret a = 0)).
Proof.
  intros Hk Ha Hacc Hi Hl Hf Hcap. unfold on_readable. rewrite Hi, Hacc, Ha. cbn [negb].
  change (has INone Readable) with false. cbn iota.
  edestruct (drain_recv_spec fuel fd s
    (bool_decide (is_Some (inbox_cap s)) || with_timestamping && timestamping s)
    (mkDrain 0 (recv_mem s) no_stamps 0 [] false) e) as (res&d&e1&->&l&El&Tl&Bl&Ml&Rl&Fl);
    cbn [d_total d_mem d_fds] in *; [done|done|lia|apply zlen_nonneg|lia|].
  cbn [mbind option_bind]. rewrite Z.add_0_l in Tl.
  destruct Rl as [[-> Rl]|[-> Rl]].
  - assert (((d_total d =? - EAGAIN) && bool_decide (d_fds d = []))%bool = false) as ->.
    { rewrite (proj2 (Z.eqb_neq _ _)); [done|]. pose proof (zlen_nonneg (received fd l)). unfold EAGAIN. lia. }
    rewrite (proj2 (Nat.ltb_lt _ _)) by done.
    destruct (quiet_update fd (set_recv_armed false (set_recv_mem (d_mem d) s)) e1) as (l'&El'&Rl').
    eexists _, _, _, (l ++ l'). split; [done|].
    assert (received fd (l ++ l') = received fd l) as -> by (rewrite received_app, Rl'; apply app_nil_r).
    split; [case_test; cbn [log set_inbox]; by rewrite El', El, app_assoc|].
    right. eexists. split; [done|]. cbn [user result recv_ud set_recv_armed set_recv set_recv_mem recv_mem recv_armed].
    repeat split; [lia|lia| |].
    + rewrite Tl in Ml. unfold zlen in Ml. by rewrite Nat2Z.id in Ml.
    + intros H0. rewrite H0 in Tl. destruct (Rl Tl) as (n&w&a&Hin&Hr). exists n, w, a.
      split; [|done]. apply elem_of_app. by left.
  - rewrite (Fl Rl), Z.eqb_refl. cbn. eexists _, _, _, l. split; [done|]. split; [done|]. left.
    split; [|done]. apply length_zero_iff_nil. unfold zlen in *. lia.
Qed.

(** after a partial write the completion counts only the tail.  When the
    first [sendmsg] of a submission accepts [w] bytes of a longer payload and
    the next writable event sends the rest, all the bytes are on the wire but
    the completion's result is the length of the payload less [w]. *)
Theorem epoll_partial_send_underreports fuel fd u iov cap e w :
  let e1 := snd (submit_sendv u fd iov e) in
  let tail := drop (Z.to_nat w) (concat iov) in
  sendq (fd_ref e fd) = [] -> connect_pending (fd_ref e fd) = false -> interest (fd_ref e fd) = INone ->
  ret (kernel (log e) (CSendmsg fd (take 64 iov))) = w ->
  0 < w <= zlen (concat (take 64 iov)) -> w < zlen (concat iov) < 2 ^ 31 ->
  ret (kernel (log e1) (CSend fd tail)) = zlen tail ->
  exists s2 e2,
    on_writable (S fuel) fd (fd_ref e1 fd) (S cap) [] e1
      = Some (s2, [plain u (zlen (concat iov) - w)], e2)
    /\ sendq s2 = [] /\ wire fd (log e2) = wire fd (log e) ++ concat iov.
Proof.
  intros e1 tail Hq Hc Hi Hw Hw1 Hw2 Ht.
  assert (sendq (fd_ref e1 fd) = [mkReq u tail 0] /\ connect_pending (fd_ref e1 fd) = false
    /\ interest (fd_ref e1 fd) = INone /\ wire fd (log e1) = wire fd (log e) ++ take (Z.to_nat w) (concat iov))
    as (Hq1&Hc1&Hi1&W1).
  { subst e1 tail. unfold submit_sendv. rewrite Hq. cbn [negb bool_decide decide]. unfold syscall. cbv zeta.
    rewrite bool_decide_eq_true_2 by done. cbn [negb]. rewrite Hw. rewrite (proj2 (Z.ltb_ge w 0)) by lia.
    cbn [andb]. rewrite (proj2 (Z.eqb_neq w _)) by lia.
    edestruct register_and_update_frame as (b&Er&_&Wr). rewrite Er, Wr.
    cbn [log set_log]. rewrite wire_snoc. cbn [sendq set_sendq set_registered connect_pending interest app].
    rewrite copy_tail_drop by lia. unfold accepted. cbn [fst snd]. rewrite Z.eqb_refl, Hw.
    destruct (take_64_prefix iov w) as [-> _]; [lia|]. done. }
  clearbody e1. unfold on_writable. rewrite Hc1. cbn [send_loop]. rewrite Hq1. cbn [req_off req_bytes req_ud].
  change (drop (Z.to_nat 0) tail) with tail. unfold syscall. cbv zeta. rewrite Ht.
  rewrite (proj2 (Z.ltb_ge (zlen tail) 0)) by apply zlen_nonneg. rewrite Z.add_0_l, Z.eqb_refl.
  assert (zlen tail = zlen (concat iov) - w) as Hl by (subst tail; unfold zlen in *; rewrite length_drop; lia).
  assert (i32 (zlen tail) = zlen (concat iov) - w) as -> by (rewrite Hl; apply i32_small; lia).
  unfold emit_or_defer. cbn [length Nat.ltb Nat.leb app].
  assert (forall f s o x, sendq s = [] -> send_loop f fd s (S cap) o x = Some (s, o, x)) as Hend.
  { intros f s o x Hs. destruct f; simpl; by rewrite Hs. }
  rewrite Hend by done. cbn [mbind option_bind interest set_sendq]. rewrite Hi1. cbn [has Z.land negb Z.eqb INone].
  eexists _, _. split; [done|]. split; [done|].
  rewrite wire_update. cbn [log set_log]. rewrite wire_snoc, W1. unfold accepted. cbn [fst snd].
  rewrite Z.eqb_refl, Ht, (take_ge tail) by (unfold zlen; lia). subst tail. by rewrite <- app_assoc, take_drop.
Qed.

(** a hang-up event hides unread bytes.  When the kernel reports [EPOLLRDHUP]
    together with [EPOLLIN] (the peer sent its last bytes and closed), the
    dispatch completes the armed receive with zero, the end of the stream,
    without receiving anything: whatever the socket still holds is not read. *)
Theorem epoll_hangup_hides_unread_bytes fuel fd s ev cap out e :
  recv_armed s = true -> accept_armed s = false -> interest s = INone ->
  any ev EPOLLRDHUP = true -> any ev EPOLLOUT = false ->
  ret (kernel (log e) (CSoError fd)) = 0 -> (length out < cap)%nat ->
  exists e', dispatch_event fuel fd s ev cap out e
      = Some (set_recv_armed false s, out ++ [plain (recv_ud s) 0], e')
    /\ exists l, log e' = log e ++ l /\ forall n w a, (CRecv fd n w, a) ∉ l.
Proof.
  intros Ha Hacc Hi Hr Ho Hso Hc. unfold dispatch_event.
  assert (any ev (Z.lor (Z.lor EPOLLERR EPOLLHUP) EPOLLRDHUP) = true) as ->.
  { unfold any in *. rewrite Z.land_lor_distr_r. bool_to_prop. apply negb_true_iff, Z.eqb_neq.
    intros H0. by apply Z.lor_eq_0_iff in H0 as [_ H0]. }
  unfold on_errorish, syscall. rewrite Ha. cbv zeta. rewrite Hso, (proj2 (Nat.ltb_lt _ _)) by done. rewrite Ho.
  assert (forall o x, on_readable fuel fd (set_recv_armed false s) cap o x = Some (set_recv_armed false s, o, x)) as Hrd.
  { intros o x. unfold on_readable. cbn [interest accept_armed recv_armed set_recv_armed set_recv]. by rewrite Hi, Hacc. }
  rewrite Hrd. assert (forall {B} (b : bool) (x : option B), (if b then x else x) = x) as Hb by (by intros ? []).
  rewrite Hb. cbn [mbind option_bind]. eexists. split; [done|].
  unfold update_events. cbn [registered set_recv_armed set_recv]. destruct (registered s); cbn [negb syscall_ syscall snd log set_log].
  - eexists [_; _]. rewrite <- app_assoc. split; [done|]. intros n w a Hin.
    apply elem_of_cons in Hin as [?|Hin]; [done|]. by apply list_elem_of_singleton in Hin.
  - eexists [_]. split; [done|]. intros n w a Hin. by apply list_elem_of_singleton in Hin.
Qed.

(** a saturated wait loses a send completion.  When the batch is full, a
    writable event that finishes a queued send drops the request and reports
    nothing; only the event is remembered, and dispatching it again with room
    reports nothing either: the submission is never completed. *)
Theorem epoll_saturated_wait_loses_completion fuel fd s q cap out e :
  sendq s = [q] -> connect_pending s = false -> interest s = INone -> req_off q = 0 ->
  ret (kernel (log e) (CSend fd (req_bytes q))) = zlen (req_bytes q) -> length out = cap ->
  exists s1 e1, on_writable (S fuel) fd s cap out e = Some (s1, out, e1)
    /\ sendq s1 = [] /\ ready_ e1 = ready_ e
    /\ pending_events_ e1 = pending_events_ e ++ [(fd, EPOLLOUT)]
    /\ forall fuel' cap' e2, dispatch_event fuel' fd s1 EPOLLOUT cap' [] e2 = Some (s1, [], e2).
Proof.
  intros Hq Hc Hi Hoff Hret Hlen. unfold on_writable. rewrite Hc. cbn [send_loop]. rewrite Hq, Hoff.
  change (drop (Z.to_nat 0) (req_bytes q)) with (req_bytes q). unfold syscall. cbv zeta. rewrite Hret.
  rewrite (proj2 (Z.ltb_ge _ 0)) by apply zlen_nonneg. rewrite Z.add_0_l, Z.eqb_refl.
  unfold emit_or_defer. rewrite Hlen, Nat.ltb_irrefl.
  assert (forall f o x, send_loop f fd (set_sendq [] s) cap o x = Some (set_sendq [] s, o, x)) as Hend by (by intros []).
  rewrite Hend. cbn [mbind option_bind interest set_sendq]. rewrite Hi. cbn [has Z.land negb Z.eqb INone].
  eexists _, _. split; [done|]. split; [done|].
  split; [exact (ready_update _ _ _)|]. split.
  - cbn [push_event set_pending pending_events_]. by rewrite (proj1 (proj2 (proj2 (update_events_frame _ _ _)))).
  - intros fuel' cap' e2. unfold dispatch_event, on_writable.
    change (any EPOLLOUT (Z.lor (Z.lor EPOLLERR EPOLLHUP) EPOLLRDHUP)) with false.
    change (any EPOLLOUT EPOLLIN) with false. change (any EPOLLOUT EPOLLOUT) with true.
    cbn [mbind option_bind connect_pending set_sendq]. rewrite Hc.
    destruct fuel'; cbn [send_loop sendq set_sendq mbind option_bind interest]; by rewrite Hi.
Qed.

(** ** Termination *)

Definition interrupts (l : Log) : nat := count_if (fun x => ret (snd x) =? - EINTR) l.

(** A kernel that interrupts at most [k] calls, accepts at most what it is given and
    at least a byte of it, and delivers at most what is asked; it may fail in any way. *)
Definition tame (k : nat) (fd : Z) : Prop :=
  forall l,
    (forall c, (k <= interrupts l)%nat -> ret (kernel l c) <> - EINTR) /\
    (forall bs, ret (kernel l (CSend fd bs)) <= zlen bs /\ (bs <> [] -> ret (kernel l (CSend fd bs)) <> 0)) /\
    (forall n w, 0 < n -> ret (kernel l (CRecv fd n w)) <= n).

Definition quieter (e e' : EpollBackend) : Prop := (interrupts (log e) <= interrupts (log e'))%nat.

Lemma quieter_syscall c e : quieter e (snd (syscall c e)).
Proof. unfold quieter, interrupts. cbn. rewrite count_if_app. lia. Qed.

Lemma quieter_update fd s e : quieter e (update_events fd s e).
Proof. unfold update_events. destruct (negb _); [unfold quieter; lia|apply quieter_syscall]. Qed.

Lemma quieter_emit cap fd ev c out e : quieter e (snd (emit_or_defer cap fd ev c out e)).
Proof. unfold emit_or_defer, quieter. destruct (_ <? _)%nat; apply Nat.le_refl. Qed.

Lemma quieter_harvest s a d e : quieter e (snd (harvest s a d e)).
Proof.
  unfold harvest. destruct (if _ && _ then _ else _) as [fl st]. destruct (inbox_cap s) as [c|]; [|unfold quieter; cbn; lia].
  assert (forall fds got tr e, quieter e (snd (collect_rights fds c got tr e))) as H.
  { induction fds as [|f fds IH]; intros got tr e0; cbn [collect_rights]; [unfold quieter; cbn; lia|].
    destruct (_ <? _)%nat; [apply IH|]. pose proof (IH got true (syscall_ (CClose f) e0)). pose proof (quieter_syscall (CClose f) e0).
    unfold quieter, syscall_ in *. lia. }
  specialize (H (rights a) (d_fds d) (d_trunc d || ctrunc a) e). by destruct (collect_rights _ _ _ _ _) as [[? ?] ?].
Qed.

Lemma interrupts_snoc l c a : interrupts (l ++ [(c, a)]) = (interrupts l + if (ret a =? - EINTR)%Z then 1 else 0)%nat.
Proof. unfold interrupts. rewrite count_if_app. cbn [count_if snd]. lia. Qed.

Lemma harvest_total s a d e : d_total (fst (harvest s a d e)) = d_total d.
Proof.
  unfold harvest. destruct (if _ && _ then _ else _) as [fl st].
  destruct (match inbox_cap s with Some _ => _ | None => _ end) as [[? ?] ?]. done.
Qed.

Lemma drain_recv_terminates k fuel fd s w d e :
  tame k fd -> 0 <= d_total d <= recv_len s ->
  (k - interrupts (log e) + Z.to_nat (recv_len s - d_total d) < fuel)%nat ->
  exists r d' e', drain_recv fuel fd s w d e = Some (r, d', e') /\ quieter e e'.
Proof.
  intros Hk. revert d e. induction fuel as [|fuel IH]; intros d e Hd Hf; [lia|]. cbn [drain_recv].
  destruct (Z.eqb_spec (recv_len s - d_total d) 0) as [|Hr]; [eexists _, _, _; split; [done|unfold quieter; lia]|].
  destruct (Hk (log e)) as (Hi & _ & Hn). specialize (Hn (recv_len s - d_total d) w ltac:(lia)).
  unfold syscall. cbv zeta. set (c := CRecv fd _ w) in *. set (a := kernel (log e) c) in *. set (e1 := set_log _ e).
  assert (quieter e e1) as Hq by (exact (quieter_syscall c e)).
  destruct (Z.ltb_spec 0 (ret a)).
  - assert (exists d1 e2, (if w then harvest s a d e1 else (d, e1)) = (d1, e2) /\ quieter e1 e2 /\ d_total d1 = d_total d) as (d1 & e2 & -> & Hq2 & Ht).
    { destruct w; [|eexists _, _; repeat split; unfold quieter; lia]. pose proof (quieter_harvest s a d e1) as Hx. pose proof (harvest_total s a d e1).
      destruct (harvest s a d e1) as [d1 e2]. by exists d1, e2. }
    destruct (IH (mkDrain (d_total d1 + ret a) (write_at (d_mem d1) (d_total d1) (data a)) (d_stamps d1) (d_flags d1) (d_fds d1) (d_trunc d1)) e2)
      as (r & d' & e' & E & Hq'); cbn [d_total]; [lia|unfold quieter in *; lia|].
    exists r, d', e'. split; [exact E|]. unfold quieter in *. lia.
  - destruct (ret a =? 0); [by eexists _, _, _|]. destruct (ret a =? - EAGAIN); [by eexists _, _, _|].
    destruct (Z.eqb_spec (ret a) (- EINTR)) as [Hx|]; [|by eexists _, _, _].
    assert (interrupts (log e1) = S (interrupts (log e))) as Hs.
    { cbn. rewrite interrupts_snoc, (proj2 (Z.eqb_eq _ _) Hx). lia. }
    assert (interrupts (log e) < k)%nat as Hlt.
    { destruct (decide (interrupts (log e) < k)%nat); [done|]. exfalso. apply (Hi c); [lia|done]. }
    destruct (IH d e1) as (r & d' & e' & E & Hq'); [done|lia|]. exists r, d', e'. split; [exact E|]. unfold quieter in *. lia.
Qed.

(** Calls a queue may need: one per byte and one per entry. *)
Definition send_work (s : FdState) : nat := foldr (fun q n => (S (Z.to_nat (zlen (req_bytes q) - req_off q)) + n)%nat) O (sendq s).

Lemma send_loop_terminates k fuel fd cap s out e :
  tame k fd -> queue_ok s -> (k - interrupts (log e) + send_work s < fuel)%nat ->
  exists s' out' e', send_loop fuel fd s cap out e = Some (s', out', e').
Proof.
  intros Hk. revert s out e. induction fuel as [|fuel IH]; intros s out e Hq Hf; [lia|]. cbn [send_loop].
  unfold queue_ok, send_work in *. destruct (sendq s) as [|q rest] eqn:Es; [by eexists _, _, _|].
  apply Forall_cons in Hq as [Hq Hrest]. cbn [foldr] in Hf. unfold req_ok in Hq.
  destruct (Hk (log e)) as (Hi & Hsend & _). set (bs := drop (Z.to_nat (req_off q)) (req_bytes q)) in *.
  specialize (Hsend bs). assert (zlen bs = zlen (req_bytes q) - req_off q) as Hlen by (unfold bs, zlen in *; rewrite length_drop; lia).
  unfold syscall. cbv zeta. set (a := kernel (log e) (CSend fd bs)) in *. set (e1 := set_log _ e).
  assert (quieter e e1) as Hqe by (exact (quieter_syscall (CSend fd bs) e)). unfold quieter in Hqe.
  assert (forall c out' x, exists out2 x2, emit_or_defer cap fd EPOLLOUT c out' (update_events fd x e1) = (out2, x2) /\
            (interrupts (log e1) <= interrupts (log x2))%nat) as Hemit.
  { intros c out' x. pose proof (quieter_emit cap fd EPOLLOUT c out' (update_events fd x e1)) as H1. pose proof (quieter_update fd x e1) as H2.
    destruct (emit_or_defer _ _ _ _ _ _) as [o2 x2]. exists o2, x2. unfold quieter in *. split; [done|cbn in H1; lia]. }
  destruct (Z.ltb_spec (ret a) 0).
  - destruct (Z.eqb_spec (ret a) (- EINTR)) as [Hx|].
    + assert (interrupts (log e1) = S (interrupts (log e))) as Hs.
      { cbn. rewrite interrupts_snoc. fold a. rewrite (proj2 (Z.eqb_eq _ _) Hx). lia. }
      assert (interrupts (log e) < k)%nat as Hlt.
      { destruct (decide (interrupts (log e) < k)%nat); [done|]. exfalso. apply (Hi (CSend fd bs)); [lia|done]. }
      apply IH; rewrite Es; [by constructor|cbn [foldr]; lia].
    + destruct (ret a =? - EAGAIN); [by eexists _, _, _|].
      destruct (Hemit (plain (req_ud q) (ret a)) out (set_sendq rest s)) as (o2 & x2 & -> & Hx2). apply IH; [done|]. cbn [sendq set_sendq]. lia.
  - destruct (Z.eqb_spec (req_off q + ret a) (zlen (req_bytes q))).
    + destruct (Hemit (plain (req_ud q) (i32 (zlen (req_bytes q)))) out (set_sendq rest s)) as (o2 & x2 & -> & Hx2).
      apply IH; [done|]. cbn [sendq set_sendq]. lia.
    + assert (bs <> []) as Hne by (intros Hb; assert (zlen bs = 0) by (by rewrite Hb); lia).
      destruct Hsend as [Hs1 Hs2]. specialize (Hs2 Hne). apply IH; cbn [sendq set_sendq foldr req_bytes req_off].
      * constructor; [unfold req_ok; cbn; lia|done].
      * lia.
Qed.

(** Handling a readiness event terminates.  For a kernel that interrupts at most [k]
    calls and otherwise answers, fails or refuses as it likes, dispatching any event on a
    descriptor makes at most as many calls in each loop as there are interruptions,
    bytes and entries left: with that much fuel it returns. *)
Theorem epoll_dispatch_terminates k fuel fd s ev cap out e :
  tame k fd -> queue_ok s -> 0 <= recv_len s ->
  (k + Z.to_nat (recv_len s) + send_work s < fuel)%nat ->
  exists s' out' e', dispatch_event fuel fd s ev cap out e = Some (s', out', e').
Proof.
  intros Hk Hq Hl Hf. unfold dispatch_event.
  set (r1 := if any ev _ then on_errorish fd s ev cap out e else (s, out, e)).
  assert (exists s1 o1 e1, r1 = (s1, o1, e1) /\ sendq s1 = sendq s /\ recv_len s1 = recv_len s) as (s1 & o1 & e1 & -> & Hs1 & Hl1).
  { unfold r1, on_errorish. destruct (any ev _); [|by eexists _, _, _]. destruct (recv_armed s).
    - cbn [syscall]. destruct (_ <? _)%nat; by eexists _, _, _.
    - destruct (negb _); [|by eexists _, _, _]. destruct (emit_or_defer _ _ _ _ _ _). by eexists _, _, _. }
  assert (exists s2 o2 e2, (if any ev EPOLLIN then on_readable fuel fd s1 cap o1 e1 else Some (s1, o1, e1)) = Some (s2, o2, e2) /\ sendq s2 = sendq s)
    as (s2 & o2 & e2 & -> & Hs2).
  { destruct (any ev EPOLLIN); [|by eexists _, _, _]. unfold on_readable. destruct (if has _ _ then _ else _) as [o3 e3].
    destruct (accept_armed s1); [destruct (accept_loop _ _ _ _ _ _); by eexists _, _, _|]. destruct (negb _); [by eexists _, _, _|].
    destruct (drain_recv_terminates k fuel fd s1 (bool_decide (is_Some (inbox_cap s1)) || (with_timestamping && timestamping s1))
      (mkDrain 0 (recv_mem s1) no_stamps 0 [] false) e3) as (r & d & e4 & -> & _); [done|cbn; lia|cbn [d_total]; rewrite Hl1; lia|].
    cbn [mbind option_bind]. destruct (_ && _); [by eexists _, _, _|]. destruct (_ <? _)%nat; by eexists _, _, _. }
  cbn [mbind option_bind]. destruct (any ev EPOLLOUT); [|by eexists _, _, _]. unfold on_writable.
  set (r3 := if connect_pending s2 then _ else _). assert (exists s3 o3 e3, r3 = (s3, o3, e3) /\ sendq s3 = sendq s) as (s3 & o3 & e3 & -> & Hs3).
  { unfold r3. destruct (connect_pending s2); [|by eexists _, _, _]. cbn [syscall]. destruct (emit_or_defer _ _ _ _ _ _). by eexists _, _, _. }
  destruct (send_loop_terminates k fuel fd cap s3 o3 e3) as (s4 & o4 & e4 & ->); [done|unfold queue_ok; by rewrite Hs3|unfold send_work; rewrite Hs3; fold (send_work s); lia|].
  cbn [mbind option_bind]. destruct (if has _ _ then _ else _). by eexists _, _, _.
Qed.
End Backend.

(** ** Witnesses *)

(** A kernel that accepts two bytes of a first write and all of a later one, has
    two bytes to read, and answers zero otherwise. *)
Definition small_kernel (l : Log) (c : Call) : Answer :=
  match c with
  | CSendmsg _ iov => ans (Z.min 2 (zlen (concat iov)))
  | CSend _ bs => ans (zlen bs)
  | CRecv _ n _ =>
      if existsb (fun x => match fst x with CRecv _ _ _ => true | _ => false end) l
      then ans (- EAGAIN) else mkAns (zlen (take (Z.to_nat n) [7; 8])) (take (Z.to_nat n) [7; 8]) [] false [] []
  | _ => ans 0
  end.

Lemma small_kernel_send fd : healthy_send small_kernel fd.
Proof.
  intros l. split.
  - intros iov. right. simpl. pose proof (zlen_nonneg (concat iov)). lia.
  - intros bs. right. simpl. pose proof (zlen_nonneg bs). split; [lia|].
    intros Hn. destruct bs; [done|]. unfold zlen. simpl. lia.
Qed.

Lemma small_kernel_recv fd : healthy_recv small_kernel fd.
Proof.
  intros l n w Hn. simpl. destruct (existsb _ l); [by left|right].
  cbn [ret data]. split; [|done]. unfold zlen. rewrite length_take. simpl. lia.
Qed.

(** A descriptor with a receive of up to eight bytes armed under tag 5. *)
Definition armed_fd : FdState := set_recv true 5 8 fd_state0.

Lemma epoll_send_stream_in_order_witness :
  exists out e', run_sends small_kernel 20 3 8 [OSend 1 [[1; 2]; [3]]; OSend 2 [[4]]; OWritable] [] epoll0
    = Some (out, e') /\ wire 3 (log e') ++ unsent (fd_ref e' 3) = [1; 2; 3; 4]
    /\ map user out ++ map req_ud (sendq (fd_ref e' 3)) = [1; 2].
Proof.
  apply (epoll_send_stream_in_order small_kernel 20 3 8 [OSend 1 [[1; 2]; [3]]; OSend 2 [[4]]; OWritable]
           (small_kernel_send 3)); simpl; lia.
Defined.

Lemma epoll_recv_reports_what_arrived_witness :
  exists s' out' e' l, on_readable small_kernel false 20 3 armed_fd 4 [] epoll0 = Some (s', out', e')
    /\ log e' = log epoll0 ++ l /\
    (received 3 l = [] /\ out' = [] /\ recv_armed s' = true
     \/ exists c, out' = [] ++ [c] /\ user c = recv_ud armed_fd /\ result c = zlen (received 3 l)
        /\ zlen (received 3 l) <= recv_len armed_fd
        /\ take (length (received 3 l)) (recv_mem s') = received 3 l
        /\ recv_armed s' = false
        /\ (received 3 l = [] -> exists n w a, (CRecv 3 n w, a) ∈ l /\ ret a = 0)).
Proof.
  apply (epoll_recv_reports_what_arrived small_kernel false 20 3 armed_fd 4 [] epoll0 (small_kernel_recv 3));
    simpl; try done; lia.
Defined.

Lemma epoll_partial_send_underreports_witness :
  exists s2 e2,
    on_writable small_kernel 5 3 (fd_ref (snd (submit_sendv small_kernel 9 3 [[1; 2; 3; 4; 5]] epoll0)) 3) 4 []
      (snd (submit_sendv small_kernel 9 3 [[1; 2; 3; 4; 5]] epoll0)) = Some (s2, [plain 9 3], e2)
    /\ sendq s2 = [] /\ wire 3 (log e2) = [1; 2; 3; 4; 5].
Proof.
  apply (epoll_partial_send_underreports small_kernel 4 3 9 [[1; 2; 3; 4; 5]] 3 epoll0 2);
    try reflexivity; vm_compute; split; congruence.
Defined.

Lemma epoll_hangup_hides_unread_bytes_witness :
  exists e', dispatch_event small_kernel false 5 3 armed_fd (Z.lor EPOLLIN EPOLLRDHUP) 4 [] epoll0
      = Some (set_recv_armed false armed_fd, [] ++ [plain 5 0], e')
    /\ exists l, log e' = log epoll0 ++ l /\ forall n w a, (CRecv 3 n w, a) ∉ l.
Proof.
  apply (epoll_hangup_hides_unread_bytes small_kernel false 5 3 armed_fd (Z.lor EPOLLIN EPOLLRDHUP) 4 [] epoll0);
    try reflexivity; simpl; lia.
Defined.

Lemma epoll_saturated_wait_loses_completion_witness :
  exists s1 e1, on_writable small_kernel 5 3 (set_sendq [mkReq 9 [1; 2] 0] fd_state0) 0 [] epoll0 = Some (s1, [], e1)
    /\ sendq s1 = [] /\ ready_ e1 = []
    /\ pending_events_ e1 = [] ++ [(3, EPOLLOUT)]
    /\ forall fuel' cap' e2, dispatch_event small_kernel false fuel' 3 s1 EPOLLOUT cap' [] e2 = Some (s1, [], e2).
Proof.
  apply (epoll_saturated_wait_loses_completion small_kernel false 4 3
           (set_sendq [mkReq 9 [1; 2] 0] fd_state0) (mkReq 9 [1; 2] 0) 0 [] epoll0); reflexivity.
Defined.

(** A kernel that interrupts its first call. *)
Definition once_interrupted (l : Log) (c : Call) : Answer :=
  match l with [] => ans (- EINTR) | _ => match c with CSend _ bs => ans (zlen bs) | _ => ans 0 end end.

Lemma epoll_dispatch_terminates_witness :
  exists s' out' e', dispatch_event once_interrupted true 20 3 (set_sendq [mkReq 5 [1; 2; 3] 0] fd_state0) EPOLLOUT 8 [] epoll0
                     = Some (s', out', e').
Proof.
  apply (epoll_dispatch_terminates once_interrupted true 1 20 3 (set_sendq [mkReq 5 [1; 2; 3] 0] fd_state0) EPOLLOUT 8 [] epoll0).
  - intros l. split; [|split].
    + intros c Hc. destruct l; [cbn in Hc; lia|]. destruct c; cbn; unfold EINTR; try lia. pose proof (zlen_nonneg bytes). lia.
    + intros bs. pose proof (zlen_nonneg bs). destruct l; cbn; unfold EINTR; [lia|]. split; [lia|].
      intros Hn Hz. destruct bs; [done|]. rewrite zlen_cons in Hz. pose proof (zlen_nonneg bs). lia.
    + intros n w Hn. destruct l; cbn; unfold EINTR; lia.
  - apply Forall_cons. split; [unfold req_ok, zlen; cbn; lia|]. apply Forall_nil_2.
  - cbn. lia.
  - vm_compute. lia.
Defined.

End Epoll.
