(* ===== verification/Kqueue.v ===== *)
(** * The kqueue backend

    [KqueueBackend] of [src/include/afx/backend/kqueue.hpp] and
    [src/src/backend/kqueue.cpp]: the proactor interface over the filters of a
    kqueue.  As in Epoll.v the kernel is any function from the calls made so far to the
    answer of the next one, every call is recorded in [log], and loops whose end depends
    on the kernel take [fuel].  Descriptors' states, requests and the copying of
    vectors are as in Epoll.v, from which [copy_tail] and [write_at] are used. *)

From stdpp Require Import base option gmap list.
From Stdlib Require Import ZArith Lia.
From S2P Require Import Prelude Backend Epoll.
Local Open Scope Z_scope.

Module Kqueue.

(** ** Constants of the platform (the values of macOS) *)

Definition EINTR : Z := 4.
Definition EAGAIN : Z := 35.
Definition EINPROGRESS : Z := 36.
Definition ECANCELED : Z := 89.
Definition EV_ERROR : Z := 16384.
Definition EV_EOF : Z := 32768.
Definition kAcceptsPerWait : nat := 32.
Definition kWakeIdent : Z := 717086.

Inductive Filter := FRead | FWrite | FUser.
#[global] Instance filter_eq : EqDecision Filter.
Proof. solve_decision. Defined.

Record Kevent := mkKev { ident : Z; filt : Filter; flags : Z; kdata : Z }.

(** ** System calls *)

Inductive Call :=
  | CKqueue
  | CKevent (fd : Z) (f : Filter) (add : bool)   (* [EV_ADD | EV_CLEAR], or [EV_DELETE] *)
  | CTrigger                                     (* [NOTE_TRIGGER] of the wake ident *)
  | CWait (timeout : Z)
  | CSendmsg (fd : Z) (iov : list (list Z))
  | CSend (fd : Z) (bytes : list Z)
  | CRecv (fd : Z) (len : Z) (with_control : bool)
  | CAccept (fd : Z)
  | CGetfl (fd : Z)
  | CSetfl (fd : Z) (base : Z)                   (* [base | O_NONBLOCK] *)
  | CSetfd (fd : Z)                              (* [FD_CLOEXEC] *)
  | CConnect (fd : Z)
  | CSoError (fd : Z)
  | CClose (fd : Z).

(** [ret] is what the call returned, or minus [errno] when it failed.  For [CSoError] it
    is the pending error, negative when [getsockopt] failed. *)
Record Answer := mkAns { ret : Z; data : list Z; rights : list Z; ctrunc : bool; events : list Kevent }.
Definition ans (r : Z) : Answer := mkAns r [] [] false [].
Definition Log := list (Call * Answer).

(** ** State *)

Record SendReq := mkReq { req_ud : UserData; req_bytes : list Z; req_off : Z }.

Record FdState := mkFd {
  interest : Interest;
  watch_ud : UserData;
  rd_armed : bool;
  wr_armed : bool;
  recv_armed : bool;
  recv_ud : UserData;
  recv_len : Z;
  recv_mem : list Z;
  inbox_cap : option nat;
  sendq : list SendReq;
  accept_armed : bool;
  accept_ud : UserData;
  connect_pending : bool;
  connect_ud : UserData }.

Definition fd_state0 : FdState := mkFd INone 0 false false false 0 0 [] None [] false 0 false 0.

Record KqueueBackend := mkKq {
  kq_ : Z;
  fds_ : gmap Z FdState;
  ready_ : list Completion;
  pending_events_ : list Kevent;
  inbox : gmap Z (list Z);
  log : Log }.

Definition kqueue0 : KqueueBackend := mkKq (-1) ∅ [] [] ∅ [].

Definition set_watch i u s := mkFd i u (rd_armed s) (wr_armed s) (recv_armed s) (recv_ud s) (recv_len s) (recv_mem s) (inbox_cap s) (sendq s) (accept_armed s) (accept_ud s) (connect_pending s) (connect_ud s).
Definition set_rd b s := mkFd (interest s) (watch_ud s) b (wr_armed s) (recv_armed s) (recv_ud s) (recv_len s) (recv_mem s) (inbox_cap s) (sendq s) (accept_armed s) (accept_ud s) (connect_pending s) (connect_ud s).
Definition set_wr b s := mkFd (interest s) (watch_ud s) (rd_armed s) b (recv_armed s) (recv_ud s) (recv_len s) (recv_mem s) (inbox_cap s) (sendq s) (accept_armed s) (accept_ud s) (connect_pending s) (connect_ud s).
Definition set_recv b u n s := mkFd (interest s) (watch_ud s) (rd_armed s) (wr_armed s) b u n (recv_mem s) (inbox_cap s) (sendq s) (accept_armed s) (accept_ud s) (connect_pending s) (connect_ud s).
Definition set_recv_armed b s := set_recv b (recv_ud s) (recv_len s) s.
Definition set_recv_mem m s := mkFd (interest s) (watch_ud s) (rd_armed s) (wr_armed s) (recv_armed s) (recv_ud s) (recv_len s) m (inbox_cap s) (sendq s) (accept_armed s) (accept_ud s) (connect_pending s) (connect_ud s).
Definition set_inbox_cap c s := mkFd (interest s) (watch_ud s) (rd_armed s) (wr_armed s) (recv_armed s) (recv_ud s) (recv_len s) (recv_mem s) c (sendq s) (accept_armed s) (accept_ud s) (connect_pending s) (connect_ud s).
Definition set_sendq q s := mkFd (interest s) (watch_ud s) (rd_armed s) (wr_armed s) (recv_armed s) (recv_ud s) (recv_len s) (recv_mem s) (inbox_cap s) q (accept_armed s) (accept_ud s) (connect_pending s) (connect_ud s).
Definition set_accept b u s := mkFd (interest s) (watch_ud s) (rd_armed s) (wr_armed s) (recv_armed s) (recv_ud s) (recv_len s) (recv_mem s) (inbox_cap s) (sendq s) b u (connect_pending s) (connect_ud s).
Definition set_connect b u s := mkFd (interest s) (watch_ud s) (rd_armed s) (wr_armed s) (recv_armed s) (recv_ud s) (recv_len s) (recv_mem s) (inbox_cap s) (sendq s) (accept_armed s) (accept_ud s) b u.

Definition set_fds m e := mkKq (kq_ e) m (ready_ e) (pending_events_ e) (inbox e) (log e).
Definition set_ready r e := mkKq (kq_ e) (fds_ e) r (pending_events_ e) (inbox e) (log e).
Definition set_pending p e := mkKq (kq_ e) (fds_ e) (ready_ e) p (inbox e) (log e).
Definition set_inbox m e := mkKq (kq_ e) (fds_ e) (ready_ e) (pending_events_ e) m (log e).
Definition set_log l e := mkKq (kq_ e) (fds_ e) (ready_ e) (pending_events_ e) (inbox e) l.

Definition fd_ref (e : KqueueBackend) (fd : Z) : FdState := default fd_state0 (fds_ e !! fd).
Definition fd_put (fd : Z) (s : FdState) (e : KqueueBackend) : KqueueBackend := set_fds (<[fd := s]> (fds_ e)) e.

Definition queue_completion (u : UserData) (res : Z) (e : KqueueBackend) : KqueueBackend :=
  set_ready (ready_ e ++ [plain u res]) e.
Definition push_event (ev : Kevent) (e : KqueueBackend) : KqueueBackend :=
  set_pending (pending_events_ e ++ [ev]) e.
(** The event remembered for a batch that is full. *)
Definition later (fd : Z) (f : Filter) : Kevent := mkKev fd f 0 0.

Section Backend.
Context (kernel : Log -> Call -> Answer).

Definition syscall (c : Call) (e : KqueueBackend) : Answer * KqueueBackend :=
  let a := kernel (log e) c in (a, set_log (log e ++ [(c, a)]) e).
Definition syscall_ (c : Call) (e : KqueueBackend) : KqueueBackend := snd (syscall c e).

(** The constructor and the destructor. *)
Definition KqueueBackend_ctor : KqueueBackend :=
  let '(a, e) := syscall CKqueue kqueue0 in
  let e := mkKq (ret a) (fds_ e) (ready_ e) (pending_events_ e) (inbox e) (log e) in
  if 0 <=? kq_ e then syscall_ (CKevent kWakeIdent FUser true) e else e.

Definition KqueueBackend_dtor (e : KqueueBackend) : KqueueBackend :=
  if 0 <=? kq_ e then syscall_ (CClose (kq_ e)) e else e.

(** [getsockopt(fd, SOL_SOCKET, SO_ERROR, &err, &l)] on [err]. *)
Definition so_error (fd err : Z) (e : KqueueBackend) : Z * KqueueBackend :=
  let '(a, e) := syscall (CSoError fd) e in (if ret a <? 0 then err else ret a, e).

(** ** Filters *)

Definition wants_rd (s : FdState) : bool := recv_armed s || accept_armed s || has (interest s) Readable.
Definition wants_wr (s : FdState) : bool :=
  negb (bool_decide (sendq s = [])) || connect_pending s || has (interest s) Writable.

Definition update_filters (fd : Z) (s : FdState) (e : KqueueBackend) : FdState * KqueueBackend :=
  let rd := wants_rd s in
  let wr := wants_wr s in
  let '(s, e) := if Bool.eqb rd (rd_armed s) then (s, e) else (set_rd rd s, syscall_ (CKevent fd FRead rd) e) in
  if Bool.eqb wr (wr_armed s) then (s, e) else (set_wr wr s, syscall_ (CKevent fd FWrite wr) e).

(** [update_filters(fd, s)] at the end of an operation on [fds_[fd]]. *)
Definition put_updated (fd : Z) (s : FdState) (e : KqueueBackend) : KqueueBackend :=
  let '(s, e) := update_filters fd s e in fd_put fd s e.

Definition attach (fd : Z) (i : Interest) (u : UserData) (e : KqueueBackend) : Result unit * KqueueBackend :=
  (Val tt, put_updated fd (set_watch i u (fd_ref e fd)) e).

Definition modify (fd : Z) (i : Interest) (u : UserData) (e : KqueueBackend) : Result unit * KqueueBackend :=
  match fds_ e !! fd with
  | None => (Bad (make_error Sys NotFound), e)
  | Some s => (Val tt, put_updated fd (set_watch i u s) e)
  end.

Definition detach (fd : Z) (e : KqueueBackend) : Result unit * KqueueBackend :=
  (Val tt, set_fds (delete fd (fds_ e)) e).

Definition set_fd_inbox (fd : Z) (cap : option nat) (e : KqueueBackend) : KqueueBackend :=
  fd_put fd (set_inbox_cap cap (fd_ref e fd)) e.

(** ** Submissions *)

Definition submit_recv (u : UserData) (fd len : Z) (e : KqueueBackend) : Result unit * KqueueBackend :=
  let s := fd_ref e fd in
  if recv_armed s then (Bad (make_error Internal Invalid), fd_put fd s e)
  else (Val tt, put_updated fd (set_recv true u len s) e).

Definition submit_sendv (u : UserData) (fd : Z) (iov : list (list Z)) (e : KqueueBackend) : Result unit * KqueueBackend :=
  let s := fd_ref e fd in
  let total := zlen (concat iov) in
  if negb (bool_decide (sendq s = [])) then
    (Val tt, put_updated fd (set_sendq (sendq s ++ [mkReq u (concat iov) 0]) s) e)
  else
    let '(a, e) := syscall (CSendmsg fd (take 64 iov)) e in
    let w := ret a in
    if (w <? 0) && negb (w =? - EAGAIN) then (Val tt, queue_completion u w (fd_put fd s e))
    else
      let sent := if w <? 0 then 0 else w in
      if sent =? total then (Val tt, queue_completion u (Epoll.i32 sent) (fd_put fd s e))
      else (Val tt, put_updated fd (set_sendq (sendq s ++ [mkReq u (Epoll.copy_tail iov sent) 0]) s) e).

Definition submit_send (u : UserData) (fd : Z) (bytes : list Z) (e : KqueueBackend) : Result unit * KqueueBackend :=
  submit_sendv u fd [bytes] e.

Definition submit_accept (u : UserData) (fd : Z) (e : KqueueBackend) : Result unit * KqueueBackend :=
  (Val tt, put_updated fd (set_accept true u (fd_ref e fd)) e).

Definition submit_connect (u : UserData) (fd : Z) (e : KqueueBackend) : Result unit * KqueueBackend :=
  let s := fd_ref e fd in
  let '(a, e) := syscall (CConnect fd) e in
  if ret a =? 0 then (Val tt, queue_completion u 0 (fd_put fd s e))
  else if negb (ret a =? - EINPROGRESS) then (Val tt, queue_completion u (ret a) (fd_put fd s e))
  else (Val tt, put_updated fd (set_connect true u s) e).

(** The body of [cancel]'s loop, for one descriptor. *)
Definition cancel_one (u : UserData) (e : KqueueBackend) (p : Z * FdState) : KqueueBackend :=
  let '(fd, s) := p in
  let r := recv_armed s && (recv_ud s =? u) in
  let a := accept_armed s && (accept_ud s =? u) in
  let c := connect_pending s && (connect_ud s =? u) in
  let hits := filter (fun q => req_ud q = u) (sendq s) in
  let n := ((if r then 1 else 0) + length hits + (if a then 1 else 0) + (if c then 1 else 0))%nat in
  let s' := if r then set_recv_armed false s else s in
  let s' := set_sendq (filter (fun q => req_ud q <> u) (sendq s)) s' in
  let s' := if a then set_accept false (accept_ud s) s' else s' in
  let s' := if c then set_connect false (connect_ud s) s' else s' in
  let e := set_ready (ready_ e ++ replicate n (plain u (- ECANCELED))) e in
  if (0 <? n)%nat then put_updated fd s' e else fd_put fd s e.

Definition cancel (u : UserData) (e : KqueueBackend) : Result unit * KqueueBackend :=
  (Val tt, foldl (cancel_one u) e (map_to_list (fds_ e))).

Definition wake (e : KqueueBackend) : KqueueBackend := syscall_ CTrigger e.

(** ** Readiness *)

Fixpoint collect_rights (fds : list Z) (cap : nat) (got : list Z) (trunc : bool) (e : KqueueBackend)
    : list Z * bool * KqueueBackend :=
  match fds with
  | [] => (got, trunc, e)
  | f :: fds =>
      if (length got <? cap)%nat then collect_rights fds cap (got ++ [f]) trunc e
      else collect_rights fds cap got true (syscall_ (CClose f) e)
  end.

Record Drain := mkDrain { d_total : Z; d_mem : list Z; d_fds : list Z; d_trunc : bool }.

(** The [for (;;)] loop of [on_readable]. *)
Fixpoint drain_recv (fuel : nat) (fd : Z) (s : FdState) (d : Drain) (e : KqueueBackend) : option (Z * Drain * KqueueBackend) :=
  match fuel with
  | O => None
  | S fuel =>
      let rem := recv_len s - d_total d in
      if rem =? 0 then Some (Epoll.i32 (d_total d), d, e)
      else
        let '(a, e) := syscall (CRecv fd rem (bool_decide (is_Some (inbox_cap s)))) e in
        let r := ret a in
        if 0 <? r then
          let '(fds, trunc, e) :=
            match inbox_cap s with
            | Some cap => collect_rights (rights a) cap (d_fds d) (d_trunc d || ctrunc a) e
            | None => (d_fds d, d_trunc d, e)
            end in
          drain_recv fuel fd s (mkDrain (d_total d + r) (Epoll.write_at (d_mem d) (d_total d) (data a)) fds trunc) e
        else if r =? 0 then Some (if d_total d =? 0 then 0 else Epoll.i32 (d_total d), d, e)
        else if r =? - EAGAIN then Some (if d_total d =? 0 then - EAGAIN else Epoll.i32 (d_total d), d, e)
        else if r =? - EINTR then drain_recv fuel fd s d e
        else Some (r, d, e)
  end.

(** [accept_cloexec]. *)
Definition accept_cloexec (fd : Z) (e : KqueueBackend) : Z * KqueueBackend :=
  let '(a, e) := syscall (CAccept fd) e in
  let cfd := ret a in
  if cfd <? 0 then (cfd, e)
  else
    let '(fl, e) := syscall (CGetfl cfd) e in
    let e := if 0 <=? ret fl then syscall_ (CSetfl cfd (ret fl)) e else e in
    (cfd, syscall_ (CSetfd cfd) e).

Fixpoint accept_loop (k : nat) (fd : Z) (s : FdState) (cap : nat) (out : list Completion) (e : KqueueBackend)
    : list Completion * KqueueBackend :=
  match k with
  | O => (out, e)
  | S k =>
      let '(cfd, e) := accept_cloexec fd e in
      if cfd <? 0 then (out, e)
      else if (length out <? cap)%nat then accept_loop k fd s cap (out ++ [plain (accept_ud s) cfd]) e
      else (out, push_event (later fd FRead) (syscall_ (CClose cfd) e))
  end.

(** Reports [c] when [out] has room, otherwise remembers the event. *)
Definition emit_or_defer (cap : nat) (ev : Kevent) (c : Completion) (out : list Completion) (e : KqueueBackend)
    : list Completion * KqueueBackend :=
  if (length out <? cap)%nat then (out ++ [c], e) else (out, push_event ev e).

Definition on_readable (fuel : nat) (fd : Z) (s : FdState) (cap : nat) (out : list Completion) (e : KqueueBackend)
    : option (FdState * list Completion * KqueueBackend) :=
  let '(out, e) :=
    if has (interest s) Readable then emit_or_defer cap (later fd FRead) (plain (watch_ud s) ReadyRead) out e else (out, e) in
  if accept_armed s then
    let '(out, e) := accept_loop kAcceptsPerWait fd s cap out e in Some (s, out, e)
  else if negb (recv_armed s) then Some (s, out, e)
  else
    '(res, d, e) ← drain_recv fuel fd s (mkDrain 0 (recv_mem s) [] false) e;
    let s := set_recv_mem (d_mem d) s in
    if (res =? - EAGAIN) && bool_decide (d_fds d = []) then Some (s, out, e)
    else
      let '(s, e) := update_filters fd (set_recv_armed false s) e in
      let e := if bool_decide (is_Some (inbox_cap s)) then set_inbox (<[fd := d_fds d]> (inbox e)) e else e in
      let fl := Z.lor (if bool_decide (d_fds d = []) then 0 else HasFds) (if d_trunc d then FdTrunc else 0) in
      if (length out <? cap)%nat then Some (s, out ++ [mkComp (recv_ud s) res fl no_stamps], e)
      else
        let '(s, e) := update_filters fd (set_recv_armed true s) (push_event (later fd FRead) e) in
        Some (s, out, e).

(** The send loop of [on_writable]. *)
Fixpoint send_loop (fuel : nat) (fd : Z) (s : FdState) (cap : nat) (out : list Completion) (e : KqueueBackend)
    : option (FdState * list Completion * KqueueBackend) :=
  match sendq s with
  | [] => Some (s, out, e)
  | q :: rest =>
      match fuel with
      | O => None
      | S fuel =>
          let '(a, e) := syscall (CSend fd (drop (Z.to_nat (req_off q)) (req_bytes q))) e in
          let w := ret a in
          if w <? 0 then
            if w =? - EINTR then send_loop fuel fd s cap out e
            else if w =? - EAGAIN then Some (s, out, e)
            else
              let '(s, e) := update_filters fd (set_sendq rest s) e in
              let '(out, e) := emit_or_defer cap (later fd FWrite) (plain (req_ud q) w) out e in
              send_loop fuel fd s cap out e
          else
            let off := req_off q + w in
            if off =? zlen (req_bytes q) then
              let '(s, e) := update_filters fd (set_sendq rest s) e in
              let '(out, e) := emit_or_defer cap (later fd FWrite) (plain (req_ud q) (Epoll.i32 (zlen (req_bytes q)))) out e in
              send_loop fuel fd s cap out e
            else send_loop fuel fd (set_sendq (mkReq (req_ud q) (req_bytes q) off :: rest) s) cap out e
      end
  end.

Definition on_writable (fuel : nat) (fd : Z) (s : FdState) (cap : nat) (out : list Completion) (e : KqueueBackend)
    : option (FdState * list Completion * KqueueBackend) :=
  let '(s, out, e) :=
    if connect_pending s then
      let s := set_connect false (connect_ud s) s in
      let '(err, e) := so_error fd 0 e in
      let '(s, e) := update_filters fd s e in
      let '(out, e) := emit_or_defer cap (later fd FWrite) (plain (connect_ud s) (- err)) out e in
      (s, out, e)
    else (s, out, e) in
  '(s, out, e) ← send_loop fuel fd s cap out e;
  let '(out, e) :=
    if has (interest s) Writable then emit_or_defer cap (later fd FWrite) (plain (watch_ud s) ReadyWrite) out e else (out, e) in
  Some (s, out, e).

Definition on_errorish (fd : Z) (s : FdState) (ev : Kevent) (cap : nat) (out : list Completion) (e : KqueueBackend)
    : FdState * list Completion * KqueueBackend :=
  let is_error := Epoll.any (flags ev) EV_ERROR in
  if recv_armed s && bool_decide (filt ev = FRead) && negb is_error then (s, out, e)
  else if recv_armed s then
    let s := set_recv_armed false s in
    let err := Epoll.i32 (kdata ev) in
    let '(err, e) := if is_error then so_error fd err e else (err, e) in
    let '(s, e) := update_filters fd s e in
    if (length out <? cap)%nat then (s, out ++ [plain (recv_ud s) (- err)], e)
    else
      let '(s, e) := update_filters fd (set_recv_armed true s) (push_event ev e) in (s, out, e)
  else if negb (interest s =? INone) then
    let '(out, e) := emit_or_defer cap ev
      (plain (watch_ud s)
         (Z.lor (if is_error then ReadyErr else 0) (if Epoll.any (flags ev) EV_EOF then ReadyHangup else 0))) out e in
    (s, out, e)
  else (s, out, e).

Definition dispatch_event (fuel : nat) (fd : Z) (s : FdState) (ev : Kevent) (cap : nat) (out : list Completion) (e : KqueueBackend)
    : option (FdState * list Completion * KqueueBackend) :=
  let '(s, out, e) :=
    if Epoll.any (flags ev) (Z.lor EV_ERROR EV_EOF) then on_errorish fd s ev cap out e else (s, out, e) in
  match filt ev with
  | FRead => on_readable fuel fd s cap out e
  | FWrite => on_writable fuel fd s cap out e
  | FUser => Some (s, out, e)
  end.

(** ** The wait *)

Definition dispatch_fd (fuel : nat) (ev : Kevent) (cap : nat) (out : list Completion) (e : KqueueBackend)
    : option (list Completion * KqueueBackend) :=
  match fds_ e !! ident ev with
  | None => Some (out, e)
  | Some s => '(s, out, e) ← dispatch_event fuel (ident ev) s ev cap out e; Some (out, fd_put (ident ev) s e)
  end.

Fixpoint pending_loop (fuel : nat) (cap : nat) (out : list Completion) (e : KqueueBackend)
    : option (list Completion * KqueueBackend) :=
  if (length out <? cap)%nat then
    match pending_events_ e with
    | [] => Some (out, e)
    | ev :: rest =>
        match fuel with
        | O => None
        | S fuel' => '(out, e) ← dispatch_fd fuel ev cap out (set_pending rest e); pending_loop fuel' cap out e
        end
    end
  else Some (out, e).

Fixpoint kevent_wait (fuel : nat) (timeout : Z) (e : KqueueBackend) : option (Answer * KqueueBackend) :=
  match fuel with
  | O => None
  | S fuel =>
      let '(a, e) := syscall (CWait timeout) e in
      if ret a =? - EINTR then kevent_wait fuel timeout e else Some (a, e)
  end.

Fixpoint event_loop (fuel : nat) (evs : list Kevent) (cap : nat) (out : list Completion) (e : KqueueBackend)
    : option (list Completion * KqueueBackend) :=
  match evs with
  | [] => Some (out, e)
  | ev :: evs =>
      if bool_decide (filt ev = FUser) && (ident ev =? kWakeIdent) then event_loop fuel evs cap out e
      else if bool_decide (is_Some (fds_ e !! ident ev)) then
        if (length out <? cap)%nat then '(out, e) ← dispatch_fd fuel ev cap out e; event_loop fuel evs cap out e
        else event_loop fuel evs cap out (push_event ev e)
      else event_loop fuel evs cap out e
  end.

Definition wait (fuel : nat) (cap : nat) (timeout : Z) (e : KqueueBackend) : option (list Completion * KqueueBackend) :=
  let out := take cap (ready_ e) in
  let e := set_ready (drop cap (ready_ e)) e in
  if (length out =? cap)%nat then Some (out, e)
  else
    '(out, e) ← pending_loop fuel cap out e;
    if (length out =? cap)%nat then Some (out, e)
    else
      let poll := negb (bool_decide (ready_ e = [])) || (0 <? length out)%nat || (timeout <=? 0) in
      '(a, e) ← kevent_wait fuel (if poll then 0 else timeout) e;
      if ret a <? 0 then Some (out, e) else event_loop fuel (take 64 (events a)) cap out e.

End Backend.

(** ** Runs

    What an event manager may ask of the backend, in any order. *)

Inductive Op :=
  | OAttach (fd : Z) (i : Interest) (u : UserData)
  | OModify (fd : Z) (i : Interest) (u : UserData)
  | ODetach (fd : Z)
  | OInbox (fd : Z) (cap : option nat)
  | ORecv (u : UserData) (fd len : Z)
  | OSendv (u : UserData) (fd : Z) (iov : list (list Z))
  | OAccept (u : UserData) (fd : Z)
  | OConnect (u : UserData) (fd : Z)
  | OCancel (u : UserData)
  | OWake
  | OWait (cap : nat) (timeout : Z).

Section Runs.
Context (kernel : Log -> Call -> Answer).

Definition perform (fuel : nat) (op : Op) (e : KqueueBackend) : option KqueueBackend :=
  match op with
  | OAttach fd i u => Some (snd (attach kernel fd i u e))
  | OModify fd i u => Some (snd (modify kernel fd i u e))
  | ODetach fd => Some (snd (detach fd e))
  | OInbox fd cap => Some (set_fd_inbox fd cap e)
  | ORecv u fd len => Some (snd (submit_recv kernel u fd len e))
  | OSendv u fd iov => Some (snd (submit_sendv kernel u fd iov e))
  | OAccept u fd => Some (snd (submit_accept kernel u fd e))
  | OConnect u fd => Some (snd (submit_connect kernel u fd e))
  | OCancel u => Some (snd (cancel kernel u e))
  | OWake => Some (wake kernel e)
  | OWait cap timeout => snd <$> wait kernel fuel cap timeout e
  end.

Fixpoint run (fuel : nat) (ops : list Op) (e : KqueueBackend) : option KqueueBackend :=
  match ops with
  | [] => Some e
  | op :: ops => e ← perform fuel op e; run fuel ops e
  end.

End Runs.

(** Whether the last change the backend asked of the kernel for filter [f] of [fd] was to
    add it. *)
Definition ask (fd : Z) (f : Filter) (b : bool) (p : Call * Answer) : bool :=
  match fst p with
  | CKevent d g add => if bool_decide (d = fd /\ g = f) then add else b
  | _ => b
  end.
Definition asked (fd : Z) (f : Filter) (l : Log) : bool := foldl (ask fd f) false l.

(** ** Frames *)

Definition tied (fd : Z) (s : FdState) (e : KqueueBackend) : Prop :=
  asked fd FRead (log e) = rd_armed s /\ asked fd FWrite (log e) = wr_armed s.
Definition settled (s : FdState) : Prop := rd_armed s = wants_rd s /\ wr_armed s = wants_wr s.
Definition synced (fd : Z) (s : FdState) (e : KqueueBackend) : Prop := tied fd s e /\ settled s.

(** [e'] asks for the same filters as [e]; or only those of [fd] may differ. *)
Definition still (e e' : KqueueBackend) : Prop :=
  fds_ e' = fds_ e /\ forall g f, asked g f (log e') = asked g f (log e).
Definition frame (fd : Z) (e e' : KqueueBackend) : Prop :=
  fds_ e' = fds_ e /\ forall g f, g <> fd -> asked g f (log e') = asked g f (log e).
(** What a handler of [fd] does to its state. *)
Definition good (fd : Z) (s : FdState) (e : KqueueBackend) (s' : FdState) (e' : KqueueBackend) : Prop :=
  frame fd e e' /\ (synced fd s e -> synced fd s' e').

Lemma asked_snoc fd f l p : asked fd f (l ++ [p]) = ask fd f (asked fd f l) p.
Proof. unfold asked. by rewrite foldl_snoc. Qed.

Lemma still_refl e : still e e.
Proof. done. Qed.

Lemma still_trans e1 e2 e3 : still e1 e2 -> still e2 e3 -> still e1 e3.
Proof. intros [H1 H2] [H3 H4]. split; [congruence|]. intros g f. by rewrite H4, H2. Qed.

Lemma still_frame fd e e' : still e e' -> frame fd e e'.
Proof. intros [H1 H2]. split; auto. Qed.

Lemma frame_trans fd e1 e2 e3 : frame fd e1 e2 -> frame fd e2 e3 -> frame fd e1 e3.
Proof. intros [H1 H2] [H3 H4]. split; [congruence|]. intros g f Hg. by rewrite H4, H2. Qed.

Lemma tied_still fd s s' e e' :
  still e e' -> rd_armed s' = rd_armed s -> wr_armed s' = wr_armed s -> tied fd s e -> tied fd s' e'.
Proof. intros [_ H] Hr Hw [H1 H2]. split; rewrite H; congruence. Qed.

Lemma good_still fd s e e' : still e e' -> good fd s e s e'.
Proof. intros H. split; [by apply still_frame|]. intros [H1 H2]. split; [by eapply tied_still|done]. Qed.

Lemma good_unchanged fd s s' e e' :
  still e e' -> rd_armed s' = rd_armed s -> wr_armed s' = wr_armed s ->
  wants_rd s' = wants_rd s -> wants_wr s' = wants_wr s -> good fd s e s' e'.
Proof.
  intros H Hr Hw Hwr Hww. split; [by apply still_frame|]. intros [H1 [H2 H3]].
  split; [by eapply tied_still|]. split; congruence.
Qed.

Lemma good_trans fd s1 e1 s2 e2 s3 e3 : good fd s1 e1 s2 e2 -> good fd s2 e2 s3 e3 -> good fd s1 e1 s3 e3.
Proof. intros [H1 H2] [H3 H4]. split; [by eapply frame_trans|auto]. Qed.

Section Frames.
Context (kernel : Log -> Call -> Answer).

Definition not_change (c : Call) : bool := match c with CKevent _ _ _ => false | _ => true end.

Lemma still_syscall c e a e' : syscall kernel c e = (a, e') -> not_change c = true -> still e e'.
Proof.
  unfold syscall. intros [= <- <-] Hc. split; [done|]. intros g f. cbn [log set_log].
  rewrite asked_snoc. unfold ask. cbn [fst]. by destruct c.
Qed.

Lemma still_syscall_ c e : not_change c = true -> still e (syscall_ kernel c e).
Proof. intros H. unfold syscall_. destruct (syscall kernel c e) eqn:E. by eapply still_syscall. Qed.

Lemma asked_change fd f b e g h :
  asked g h (log (syscall_ kernel (CKevent fd f b) e)) = (if bool_decide (fd = g /\ f = h) then b else asked g h (log e)).
Proof. unfold syscall_, syscall. cbn [snd log set_log]. by rewrite asked_snoc. Qed.

(** After [update_filters] the filters asked for are those wanted. *)
Lemma update_filters_spec fd s e s' e' :
  update_filters kernel fd s e = (s', e') ->
  s' = set_wr (wants_wr s) (set_rd (wants_rd s) s) /\ frame fd e e' /\ (tied fd s e -> tied fd s' e').
Proof.
  unfold update_filters.
  destruct (Bool.eqb_spec (wants_rd s) (rd_armed s)) as [Hr|Hr]; cbn [wr_armed set_rd];
    destruct (Bool.eqb_spec (wants_wr s) (wr_armed s)) as [Hw|Hw]; intros [= <- <-].
  all: split; [destruct s; cbn [wants_rd wants_wr rd_armed wr_armed set_rd set_wr] in *; unfold set_rd, set_wr; cbn; congruence|].
  all: split; [split; [done|]; intros g f Hg; rewrite ?asked_change, ?bool_decide_eq_false_2 by naive_solver; done|].
  all: intros [H1 H2]; split; rewrite ?asked_change; cbn [rd_armed wr_armed set_rd set_wr].
  all: repeat first [rewrite bool_decide_eq_true_2 by done | rewrite bool_decide_eq_false_2 by naive_solver]; congruence.
Qed.

Lemma good_update fd s e s1 e1 s2 e2 :
  frame fd e e1 -> (synced fd s e -> tied fd s1 e1) -> update_filters kernel fd s1 e1 = (s2, e2) -> good fd s e s2 e2.
Proof.
  intros Hf Ht (-> & Hf2 & Ht2)%update_filters_spec. split; [by eapply frame_trans|].
  intros Hs. split; [by auto|]. by destruct s1.
Qed.

(** The usual case: the handler changed fields other than the two flags. *)
Lemma good_update_still fd s e s1 e1 s2 e2 :
  still e e1 -> rd_armed s1 = rd_armed s -> wr_armed s1 = wr_armed s ->
  update_filters kernel fd s1 e1 = (s2, e2) -> good fd s e s2 e2.
Proof.
  intros H Hr Hw. apply good_update; [by apply still_frame|]. intros [Ht _]. by eapply tied_still.
Qed.

Lemma still_emit cap ev c out e out' e' : emit_or_defer cap ev c out e = (out', e') -> still e e'.
Proof. unfold emit_or_defer. by case_match; intros [= <- <-]. Qed.

Lemma still_so_error fd err e err' e' : so_error kernel fd err e = (err', e') -> still e e'.
Proof. unfold so_error. destruct (syscall _ _ _) eqn:E. intros [= <- <-]. by eapply still_syscall. Qed.

Lemma still_collect fds cap got trunc e r e' : collect_rights kernel fds cap got trunc e = (r, e') -> still e e'.
Proof.
  revert got trunc e. induction fds as [|f fds IH]; intros got trunc e; cbn [collect_rights]; [intros [= <- <-]; apply still_refl|].
  case_match; intros E; apply IH in E; [done|]. eapply still_trans; [exact (still_syscall_ (CClose f) e eq_refl)|exact E].
Qed.

Lemma still_drain fuel fd s d e r e' : drain_recv kernel fuel fd s d e = Some (r, e') -> still e e'.
Proof.
  revert d e. induction fuel as [|fuel IH]; intros d e; cbn [drain_recv]; [done|].
  destruct (_ =? 0); [intros [= <- <-]; apply still_refl|].
  destruct (syscall _ _ e) as [a e1] eqn:E1. apply still_syscall in E1; [|done].
  destruct (0 <? ret a).
  - destruct (inbox_cap s) as [cap|]; [|intros H; by eapply still_trans; [|eapply IH]].
    destruct (collect_rights _ _ _ _ _ _) as [[fds tr] e2] eqn:E2. apply still_collect in E2.
    intros H. eapply still_trans; [exact E1|]. eapply still_trans; [exact E2|]. by eapply IH.
  - destruct (_ =? 0); [by intros [= <- <-]|]. destruct (_ =? - EAGAIN); [by intros [= <- <-]|].
    destruct (_ =? - EINTR); [intros H; eapply still_trans; [exact E1|by eapply IH]|by intros [= <- <-]].
Qed.

Lemma still_accept_cloexec fd e r e' : accept_cloexec kernel fd e = (r, e') -> still e e'.
Proof.
  unfold accept_cloexec. destruct (syscall _ _ e) as [a e1] eqn:E1. apply still_syscall in E1; [|done].
  destruct (_ <? 0); [by intros [= <- <-]|]. destruct (syscall _ _ e1) as [fl e2] eqn:E2. apply still_syscall in E2; [|done].
  intros [= <- <-]. eapply still_trans; [exact E1|]. eapply still_trans; [exact E2|].
  case_match; [eapply still_trans; [exact (still_syscall_ (CSetfl (ret a) (ret fl)) e2 eq_refl)|]|]; by apply still_syscall_.
Qed.

Lemma still_accept_loop k fd s cap out e out' e' : accept_loop kernel k fd s cap out e = (out', e') -> still e e'.
Proof.
  revert out e. induction k as [|k IH]; intros out e; cbn [accept_loop]; [intros [= <- <-]; apply still_refl|].
  destruct (accept_cloexec _ _ _) as [cfd e1] eqn:E1. apply still_accept_cloexec in E1.
  destruct (_ <? 0); [by intros [= <- <-]|]. destruct (_ <? cap)%nat; intros H.
  - eapply still_trans; [exact E1|]. by eapply IH.
  - injection H as <- <-. eapply still_trans; [exact E1|]. exact (still_syscall_ (CClose cfd) e1 eq_refl).
Qed.

End Frames.

Section Handlers.
Context (kernel : Log -> Call -> Answer).

Lemma good_on_readable fuel fd s cap out e s' out' e' :
  on_readable kernel fuel fd s cap out e = Some (s', out', e') -> good fd s e s' e'.
Proof.
  unfold on_readable.
  destruct (if has (interest s) Readable then _ else _) as [out1 e1] eqn:E1.
  assert (still e e1) as H1.
  { destruct (has _ _); [by eapply still_emit|]. injection E1 as <- <-. apply still_refl. }
  destruct (accept_armed s).
  { destruct (accept_loop _ _ _ _ _ _ _) as [out2 e2] eqn:E2. apply still_accept_loop in E2.
    intros [= <- <- <-]. apply good_still. by eapply still_trans. }
  destruct (negb _); [intros [= <- <- <-]; by apply good_still|].
  destruct (drain_recv _ _ _ _ _ _) as [[[res d] e2]|] eqn:E2; [|done]. cbn [mbind option_bind].
  apply still_drain in E2. pose proof (still_trans _ _ _ H1 E2) as H2.
  destruct (_ && _); [intros [= <- <- <-]; by apply good_unchanged|].
  destruct (update_filters _ _ _ e2) as [s3 e3] eqn:E3.
  eapply (good_update_still kernel fd s e) in E3; [|exact H2|done|done].
  set (e4 := if bool_decide (is_Some _) then _ else e3). assert (still e3 e4) as H4 by (unfold e4; by destruct (bool_decide _)).
  destruct (_ <? cap)%nat; [intros [= <- <- <-]; eapply good_trans; [exact E3|by apply good_still]|].
  destruct (update_filters _ _ _ _) as [s5 e5] eqn:E5. intros [= <- <- <-].
  eapply good_trans; [exact E3|]. by eapply (good_update_still kernel fd s3 e3); [| | |exact E5].
Qed.

Lemma good_pop fd s q e e1 s2 e2 cap ev c out out3 e3 :
  still e e1 -> update_filters kernel fd (set_sendq q s) e1 = (s2, e2) ->
  emit_or_defer cap ev c out e2 = (out3, e3) -> good fd s e s2 e3.
Proof.
  intros H1 H2 H3. eapply good_trans; [by eapply good_update_still in H2|]. apply good_still. by eapply still_emit.
Qed.

Lemma good_send_loop fuel fd cap s out e s' out' e' :
  send_loop kernel fuel fd s cap out e = Some (s', out', e') -> good fd s e s' e'.
Proof.
  revert s out e. induction fuel as [|fuel IH]; intros s out e; cbn [send_loop]; destruct (sendq s) as [|q rest] eqn:Eq;
    try done; try (intros [= <- <- <-]; apply good_still, still_refl).
  destruct (syscall _ _ e) as [a e1] eqn:E1. apply still_syscall in E1; [|done].
  destruct (ret a <? 0).
  - destruct (_ =? - EINTR); [intros H; eapply good_trans; [by apply good_still|by eapply IH]|].
    destruct (_ =? - EAGAIN); [intros [= <- <- <-]; by apply good_still|].
    destruct (update_filters _ _ _ _) as [s2 e2] eqn:E2. destruct (emit_or_defer _ _ _ _ _) as [out3 e3] eqn:E3.
    intros H. eapply good_trans; [by eapply good_pop|by eapply IH].
  - destruct (_ =? zlen _).
    + destruct (update_filters _ _ _ _) as [s2 e2] eqn:E2. destruct (emit_or_defer _ _ _ _ _) as [out3 e3] eqn:E3.
      intros H. eapply good_trans; [by eapply good_pop|by eapply IH].
    + intros H. eapply good_trans; [|by eapply IH]. apply good_unchanged; [exact E1|done..|].
      unfold wants_wr. cbn [sendq set_sendq connect_pending interest]. by rewrite Eq.
Qed.

Lemma good_on_writable fuel fd s cap out e s' out' e' :
  on_writable kernel fuel fd s cap out e = Some (s', out', e') -> good fd s e s' e'.
Proof.
  unfold on_writable. destruct (if connect_pending s then _ else _) as [[s1 out1] e1] eqn:E1.
  assert (good fd s e s1 e1) as H1.
  { destruct (connect_pending s); [|injection E1 as <- <- <-; apply good_still, still_refl].
    destruct (so_error _ _ _ _) as [err e2] eqn:E2. apply still_so_error in E2.
    destruct (update_filters _ _ _ _) as [s3 e3] eqn:E3. destruct (emit_or_defer _ _ _ _ _) as [out4 e4] eqn:E4.
    injection E1 as <- <- <-. apply still_emit in E4. eapply good_trans; [|by apply good_still].
    by eapply good_update_still in E3. }
  destruct (send_loop _ _ _ _ _ _) as [[[s2 out2] e2]|] eqn:E2; [|done]. cbn [mbind option_bind].
  apply good_send_loop in E2.
  destruct (if has (interest s2) Writable then _ else _) as [out3 e3] eqn:E3. intros [= <- <- <-].
  eapply good_trans; [exact H1|]. eapply good_trans; [exact E2|]. apply good_still.
  destruct (has _ _); [by eapply still_emit|]. injection E3 as <- <-. apply still_refl.
Qed.

Lemma good_on_errorish fd s ev cap out e s' out' e' :
  on_errorish kernel fd s ev cap out e = (s', out', e') -> good fd s e s' e'.
Proof.
  unfold on_errorish. destruct (_ && _ && _); [intros [= <- <- <-]; apply good_still, still_refl|].
  destruct (recv_armed s).
  - destruct (if Epoll.any _ _ then _ else _) as [err e1] eqn:E1.
    assert (still e e1) as H1.
    { destruct (Epoll.any _ _); [by eapply still_so_error|]. injection E1 as <- <-. apply still_refl. }
    destruct (update_filters _ _ _ e1) as [s2 e2] eqn:E2. eapply (good_update_still kernel fd s e) in E2; [|exact H1|done|done].
    destruct (_ <? cap)%nat; [by intros [= <- <- <-]|].
    destruct (update_filters _ _ _ _) as [s3 e3] eqn:E3. intros [= <- <- <-]. eapply good_trans; [exact E2|].
    by eapply good_update_still in E3.
  - destruct (negb _); [|intros [= <- <- <-]; apply good_still, still_refl].
    destruct (emit_or_defer _ _ _ _ _) as [out1 e1] eqn:E1. intros [= <- <- <-]. apply good_still. by eapply still_emit.
Qed.

Lemma good_dispatch_event fuel fd s ev cap out e s' out' e' :
  dispatch_event kernel fuel fd s ev cap out e = Some (s', out', e') -> good fd s e s' e'.
Proof.
  unfold dispatch_event. destruct (if Epoll.any _ _ then _ else _) as [[s1 out1] e1] eqn:E1.
  assert (good fd s e s1 e1) as H1.
  { destruct (Epoll.any _ _); [by eapply good_on_errorish|]. injection E1 as <- <- <-. apply good_still, still_refl. }
  destruct (filt ev); intros E2; [apply good_on_readable in E2|apply good_on_writable in E2|].
  1, 2: by eapply good_trans. by injection E2 as <- <- <-.
Qed.

(** ** Every operation keeps the filters in step *)

(** [D] holds the descriptors that were detached. *)
Definition in_step (D : list Z) (e : KqueueBackend) : Prop := forall fd, fd ∉ D -> synced fd (fd_ref e fd) e.

Lemma in_step_still D e e' : still e e' -> in_step D e -> in_step D e'.
Proof.
  intros [H1 H2] He fd Hfd. unfold fd_ref. rewrite H1. destruct (He fd Hfd) as [[Ha Hb] Hs].
  split; [|done]. split; by rewrite H2.
Qed.

Lemma in_step_put D fd e s' e' : in_step D e -> good fd (fd_ref e fd) e s' e' -> in_step D (fd_put fd s' e').
Proof.
  intros He [[Hf Hl] Hs] g Hg. destruct (decide (g = fd)) as [->|Hne].
  - unfold fd_ref. cbn [fds_ fd_put set_fds]. rewrite lookup_insert_eq. exact (Hs (He fd Hg)).
  - unfold fd_ref. cbn [fds_ fd_put set_fds]. rewrite lookup_insert_ne by done. rewrite Hf.
    destruct (He g Hg) as [[Ha Hb] Hst]. split; [|done]. split; cbn [log fd_put set_fds]; by rewrite Hl.
Qed.

Lemma in_step_updated D fd e s e1 :
  in_step D e -> still e e1 -> rd_armed s = rd_armed (fd_ref e fd) -> wr_armed s = wr_armed (fd_ref e fd) ->
  in_step D (put_updated kernel fd s e1).
Proof.
  intros He H1 Hr Hw. unfold put_updated. destruct (update_filters _ _ _ _) as [s2 e2] eqn:E2.
  eapply in_step_put; [exact He|]. by eapply good_update_still in E2.
Qed.

Lemma in_step_detach D fd e : in_step D e -> in_step (fd :: D) (snd (detach fd e)).
Proof.
  intros He g [Hne Hg]%not_elem_of_cons. unfold fd_ref. cbn [detach snd fds_ set_fds].
  rewrite lookup_delete_ne by done. exact (He g Hg).
Qed.

Lemma in_step_dispatch_fd D fuel ev cap out e out' e' :
  dispatch_fd kernel fuel ev cap out e = Some (out', e') -> in_step D e -> in_step D e'.
Proof.
  unfold dispatch_fd. intros H He. destruct (fds_ e !! ident ev) as [s|] eqn:Es; [|by injection H as <- <-].
  destruct (dispatch_event _ _ _ _ _ _ _ _) as [[[s1 out1] e1]|] eqn:E1; [|done]. injection H as <- <-.
  apply good_dispatch_event in E1. eapply in_step_put; [exact He|]. unfold fd_ref. by rewrite Es.
Qed.

Lemma in_step_pending D fuel cap out e out' e' :
  pending_loop kernel fuel cap out e = Some (out', e') -> in_step D e -> in_step D e'.
Proof.
  revert out e. induction fuel as [|fuel IH]; intros out e; cbn [pending_loop];
    (destruct (_ <? cap)%nat; [|by intros [= <- <-]]); destruct (pending_events_ e) as [|ev rest];
    try done; try by intros [= <- <-].
  destruct (dispatch_fd _ _ _ _ _ _) as [[out1 e1]|] eqn:E1; [|done]. intros H He.
  eapply IH; [exact H|]. by eapply in_step_dispatch_fd.
Qed.

Lemma still_kevent_wait fuel timeout e a e' : kevent_wait kernel fuel timeout e = Some (a, e') -> still e e'.
Proof.
  revert e. induction fuel as [|fuel IH]; intros e; cbn [kevent_wait]; [done|].
  destruct (syscall _ _ e) as [b e1] eqn:E1. apply still_syscall in E1; [|done].
  destruct (_ =? _); [intros H; eapply still_trans; [exact E1|by apply IH]|by intros [= <- <-]].
Qed.

Lemma in_step_event_loop D fuel evs cap out e out' e' :
  event_loop kernel fuel evs cap out e = Some (out', e') -> in_step D e -> in_step D e'.
Proof.
  revert out e. induction evs as [|ev evs IH]; intros out e; cbn [event_loop]; [by intros [= <- <-]|].
  destruct (_ && _); [apply IH|]. destruct (bool_decide _); [|apply IH].
  destruct (_ <? cap)%nat; [|intros H He; by eapply IH].
  destruct (dispatch_fd _ _ _ _ _ _) as [[out1 e1]|] eqn:E1; [|done]. intros H He.
  eapply IH; [exact H|]. by eapply in_step_dispatch_fd.
Qed.

Lemma in_step_wait D fuel cap timeout e out e' :
  wait kernel fuel cap timeout e = Some (out, e') -> in_step D e -> in_step D e'.
Proof.
  unfold wait. intros H He. set (e0 := set_ready _ e) in H. assert (in_step D e0) as H0 by exact He.
  destruct (_ =? cap)%nat; [by injection H as <- <-|].
  destruct (pending_loop _ _ _ _ _) as [[out1 e1]|] eqn:E1; [|done]. cbn [mbind option_bind] in H.
  pose proof (in_step_pending _ _ _ _ _ _ _ E1 H0) as H1.
  destruct (_ =? cap)%nat; [by injection H as <- <-|].
  destruct (kevent_wait _ _ _ _) as [[a e2]|] eqn:E2; [|done]. cbn [mbind option_bind] in H.
  pose proof (in_step_still D _ _ (still_kevent_wait _ _ _ _ _ E2) H1) as H2.
  destruct (_ <? 0); [by injection H as <- <-|]. by eapply in_step_event_loop.
Qed.

End Handlers.

Section Steps.
Context (kernel : Log -> Call -> Answer).

Lemma cancel_one_flags u s (r a c : bool) :
  let s1 := if r then set_recv_armed false s else s in
  let s2 := set_sendq (filter (fun q => req_ud q <> u) (sendq s)) s1 in
  let s3 := if a then set_accept false (accept_ud s) s2 else s2 in
  let s4 := if c then set_connect false (connect_ud s) s3 else s3 in
  rd_armed s4 = rd_armed s /\ wr_armed s4 = wr_armed s.
Proof. by destruct r, a, c. Qed.

Lemma fds_put_updated fd s e g : g <> fd -> fds_ (put_updated kernel fd s e) !! g = fds_ e !! g.
Proof.
  intros Hg. unfold put_updated. destruct (update_filters _ _ _ _) as [s2 e2] eqn:E2.
  apply update_filters_spec in E2 as (_ & [Hf _] & _). cbn [fds_ fd_put set_fds]. by rewrite lookup_insert_ne, Hf by done.
Qed.

Lemma in_step_cancel_one D u e fd s :
  fds_ e !! fd = Some s -> in_step D e ->
  in_step D (cancel_one kernel u e (fd, s)) /\ forall g, g <> fd -> fds_ (cancel_one kernel u e (fd, s)) !! g = fds_ e !! g.
Proof.
  intros Hs He. assert (fd_ref e fd = s) as Hr by (unfold fd_ref; by rewrite Hs). unfold cancel_one. cbv zeta.
  destruct (0 <? _)%nat.
  - split; [|intros g Hg; by rewrite fds_put_updated].
    destruct (cancel_one_flags u s (recv_armed s && (recv_ud s =? u)) (accept_armed s && (accept_ud s =? u))
      (connect_pending s && (connect_ud s =? u))) as [H1 H2].
    eapply in_step_updated; [exact He|done|rewrite Hr; exact H1|rewrite Hr; exact H2].
  - split; [|intros g Hg; cbn [fds_ fd_put set_fds]; by rewrite lookup_insert_ne].
    eapply in_step_put; [exact He|]. rewrite Hr. by apply good_still.
Qed.

Lemma in_step_cancel D u e : in_step D e -> in_step D (snd (cancel kernel u e)).
Proof.
  intros He. unfold cancel. cbn [snd].
  assert (forall l e, NoDup l.*1 -> (forall fd s, (fd, s) ∈ l -> fds_ e !! fd = Some s) -> in_step D e ->
    in_step D (foldl (cancel_one kernel u) e l)) as H.
  { clear e He. induction l as [|[fd s] l IH]; intros e Hn Hl He; cbn [foldl]; [done|].
    cbn [fmap list_fmap fst] in Hn. apply NoDup_cons in Hn as [Hx Hn].
    destruct (in_step_cancel_one D u e fd s) as [H1 H2]; [apply Hl; left|exact He|].
    apply IH; [exact Hn| |exact H1]. intros g t Hg. rewrite H2; [apply Hl; by right|].
    intros ->. apply Hx. apply list_elem_of_fmap. by exists (fd, t). }
  apply H; [apply NoDup_fst_map_to_list| |exact He]. intros fd s Hin. by apply elem_of_map_to_list.
Qed.

Lemma in_step_sendv D u fd iov e : in_step D e -> in_step D (snd (submit_sendv kernel u fd iov e)).
Proof.
  intros He. unfold submit_sendv. destruct (negb _); [by eapply in_step_updated|].
  destruct (syscall _ _ e) as [a e1] eqn:E1. apply still_syscall in E1; [|done].
  destruct (_ && _); [by eapply (in_step_put D fd e); [|apply good_still]|].
  destruct (_ =? zlen _); [by eapply (in_step_put D fd e); [|apply good_still]|].
  by eapply in_step_updated.
Qed.

Lemma in_step_connect D u fd e : in_step D e -> in_step D (snd (submit_connect kernel u fd e)).
Proof.
  intros He. unfold submit_connect. destruct (syscall _ _ e) as [a e1] eqn:E1. apply still_syscall in E1; [|done].
  destruct (_ =? 0); [by eapply (in_step_put D fd e); [|apply good_still]|].
  destruct (negb _); [by eapply (in_step_put D fd e); [|apply good_still]|].
  by eapply in_step_updated.
Qed.

Definition detached (op : Op) : list Z := match op with ODetach fd => [fd] | _ => [] end.

Lemma in_step_perform D fuel op e e' :
  perform kernel fuel op e = Some e' -> in_step D e -> in_step (detached op ++ D) e'.
Proof.
  intros H He. destruct op; cbn [perform detached app] in *.
  all: try (injection H as <-).
  - by eapply in_step_updated.
  - unfold modify. destruct (fds_ e !! fd) as [s|] eqn:Es; [|exact He].
    eapply in_step_updated; [exact He|done|..]; unfold fd_ref; by rewrite Es.
  - by apply in_step_detach.
  - eapply (in_step_put D fd e); [exact He|]. by apply good_unchanged.
  - unfold submit_recv. destruct (recv_armed _); [|by eapply in_step_updated].
    eapply (in_step_put D fd e); [exact He|]. by apply good_still.
  - by apply in_step_sendv.
  - by eapply in_step_updated.
  - by apply in_step_connect.
  - by apply in_step_cancel.
  - eapply in_step_still; [|exact He]. by apply still_syscall_.
  - destruct (wait _ _ _ _ _) as [[out e1]|] eqn:E1; [|done]. injection H as <-. by eapply in_step_wait.
Qed.

Lemma in_step_run fuel ops D e e' :
  run kernel fuel ops e = Some e' -> in_step D e -> forall fd, fd ∉ D -> ODetach fd ∉ ops -> synced fd (fd_ref e' fd) e'.
Proof.
  revert D e. induction ops as [|op ops IH]; intros D e; cbn [run].
  - intros [= <-] He fd Hfd _. by apply He.
  - destruct (perform _ _ _ _) as [e1|] eqn:E1; [|done]. cbn [mbind option_bind]. intros H He fd Hfd [Hop Hops]%not_elem_of_cons.
    eapply IH; [exact H|by eapply in_step_perform| |done]. rewrite elem_of_app. intros [Hin|?]; [|done].
    destruct op; cbn [detached] in Hin; try (by inversion Hin). apply list_elem_of_singleton in Hin. congruence.
Qed.

Lemma in_step_ctor : in_step [] (KqueueBackend_ctor kernel).
Proof.
  assert (fds_ (KqueueBackend_ctor kernel) = ∅) as E.
  { unfold KqueueBackend_ctor, syscall_, syscall. cbn [kq_]. by destruct (0 <=? _). }
  intros fd _. unfold fd_ref. rewrite E, lookup_empty. split; [|done].
  unfold tied, KqueueBackend_ctor, syscall_, syscall. cbn [kq_]. destruct (0 <=? _); [|done].
  cbn. rewrite !bool_decide_eq_false_2 by naive_solver. done.
Qed.

(** ** What one readiness event does *)

Lemma accept_loop_all k fd s cap out e :
  (forall l, 0 <= ret (kernel l (CAccept fd))) -> (length out + k <= cap)%nat ->
  exists out' e', accept_loop kernel k fd s cap out e = (out', e') /\ length out' = (length out + k)%nat
    /\ pending_events_ e' = pending_events_ e.
Proof.
  intros Hk. revert out e. induction k as [|k IH]; intros out e Hc; cbn [accept_loop]; [exists out, e; by rewrite Nat.add_0_r|].
  destruct (accept_cloexec kernel fd e) as [cfd e1] eqn:E1. unfold accept_cloexec in E1.
  destruct (syscall _ _ e) as [a e0] eqn:E0. unfold syscall in E0. injection E0 as <- <-.
  specialize (Hk (log e)). rewrite (proj2 (Z.ltb_ge _ _)) in E1 by lia.
  destruct (syscall _ _ _) as [fl e2] eqn:E2. unfold syscall in E2. injection E2 as <- <-. injection E1 as <- <-.
  rewrite (proj2 (Z.ltb_ge _ _)) by lia. rewrite (proj2 (Nat.ltb_lt _ _)) by lia.
  match goal with |- context [accept_loop _ k fd s cap ?o ?e2] =>
    destruct (IH o e2) as (out' & e' & H1 & H2 & H3); [rewrite length_app; cbn [length]; lia|] end.
  exists out', e'. split; [exact H1|]. rewrite H2, H3, length_app. cbn [length]. split; [lia|]. by destruct (0 <=? _).
Qed.

Lemma submit_accept_silent fd u e :
  settled (fd_ref e fd) -> accept_armed (fd_ref e fd) = true -> log (snd (submit_accept kernel u fd e)) = log e.
Proof.
  intros [Hr Hw] Ha. unfold submit_accept, put_updated, update_filters. cbn [snd].
  assert (wants_rd (set_accept true u (fd_ref e fd)) = rd_armed (fd_ref e fd)) as ->.
  { rewrite Hr. unfold wants_rd. cbn [recv_armed accept_armed interest set_accept]. by rewrite Ha. }
  assert (wants_wr (set_accept true u (fd_ref e fd)) = wr_armed (fd_ref e fd)) as -> by (rewrite Hw; done).
  cbn [rd_armed set_accept]. rewrite Bool.eqb_reflx. cbn [wr_armed set_accept]. by rewrite Bool.eqb_reflx.
Qed.

End Steps.

(** ** Properties *)

(** C28: Whatever operations the event manager performs from the construction of the
    backend on, and whatever the kernel answers, the filters that the backend last asked
    the kernel to keep for a descriptor are exactly those its outstanding work needs: the
    read filter while a receive, an accept or a readable interest is outstanding, the
    write filter while a send is queued, a connection is being made or a writable
    interest is set.  The exception is a descriptor that was detached, whose filters are
    left to the closing of the descriptor. *)
Theorem kqueue_filters_follow_operations kernel fuel ops e :
  run kernel fuel ops (KqueueBackend_ctor kernel) = Some e ->
  forall fd, ODetach fd ∉ ops ->
    asked fd FRead (log e) = wants_rd (fd_ref e fd) /\ asked fd FWrite (log e) = wants_wr (fd_ref e fd).
Proof.
  intros H fd Hfd. destruct (in_step_run kernel fuel ops [] _ _ H (in_step_ctor kernel) fd) as [[H1 H2] [H3 H4]];
    [set_solver|exact Hfd|]. split; congruence.
Qed.

(** A burst of connections that keeps [accept] succeeding is cut off after
    [kAcceptsPerWait] of them, and nothing makes the kernel report the rest: the event is
    not remembered, no filter is asked for again, and the accept that is submitted for
    each completion makes no call, because the read filter is already there.  The filter
    is an edge, so the rest waits for another connection. *)
Theorem kqueue_accept_burst_stalls kernel fuel fd s cap out e :
  (forall l, 0 <= ret (kernel l (CAccept fd))) -> (length out + kAcceptsPerWait <= cap)%nat ->
  accept_armed s = true -> has (interest s) Readable = false -> settled s ->
  exists out' e', on_readable kernel fuel fd s cap out e = Some (s, out', e')
    /\ length out' = (length out + kAcceptsPerWait)%nat
    /\ pending_events_ e' = pending_events_ e
    /\ still e e'
    /\ forall u, log (snd (submit_accept kernel u fd (fd_put fd s e'))) = log e'.
Proof.
  intros Hk Hc Ha Hi Hs. destruct (accept_loop_all kernel kAcceptsPerWait fd s cap out e Hk Hc) as (out' & e' & H1 & H2 & H3).
  exists out', e'. unfold on_readable. rewrite Hi, Ha, H1. split; [done|]. split; [done|]. split; [done|].
  split; [by eapply still_accept_loop|]. intros u.
  assert (fd_ref (fd_put fd s e') fd = s) as E by (unfold fd_ref; cbn [fds_ fd_put set_fds]; by rewrite lookup_insert_eq).
  rewrite submit_accept_silent; [done|by rewrite E..].
Qed.

(** An end-of-file that the kernel reports on the write filter completes an armed
    receive with the negated [data] of the event, which for that filter is the space in
    the send buffer and not an error, without reading what the peer had sent. *)
Theorem kqueue_write_eof_fails_recv kernel fd s ev cap out e :
  recv_armed s = true -> filt ev = FWrite -> flags ev = EV_EOF -> (length out < cap)%nat ->
  exists s' e', on_errorish kernel fd s ev cap out e = (s', out ++ [plain (recv_ud s) (- Epoll.i32 (kdata ev))], e')
    /\ recv_armed s' = false
    /\ update_filters kernel fd (set_recv_armed false s) e = (s', e').
Proof.
  intros Hr Hf Hx Hc. unfold on_errorish. rewrite Hr, Hf, Hx.
  change (Epoll.any EV_EOF EV_ERROR) with false. rewrite bool_decide_eq_false_2 by done. cbn [andb negb].
  destruct (update_filters kernel fd (set_recv_armed false s) e) as [s' e'] eqn:E.
  pose proof (update_filters_spec kernel _ _ _ _ _ E) as (-> & _ & _).
  rewrite (proj2 (Nat.ltb_lt _ _)) by lia. by eexists _, _.
Qed.

(** ** Witnesses *)

(** A kernel with one listener and one stream: connections always arrive on 3, a connect
    is in progress, a send takes one byte, a receive finds nothing, and the wait reports
    the given events. *)
Definition demo_kernel (evs : list Kevent) (l : Log) (c : Call) : Answer :=
  match c with
  | CKqueue => ans 9
  | CWait _ => mkAns 1 [] [] false evs
  | CSendmsg _ _ => ans 1
  | CSend _ bs => ans (zlen bs)
  | CRecv _ _ _ => ans (- EAGAIN)
  | CAccept _ => ans 7
  | CConnect _ => ans (- EINPROGRESS)
  | _ => ans 0
  end.

Definition demo_ops : list Op :=
  [OAccept 1 3; OConnect 2 5; ORecv 4 5 16; OSendv 6 5 [[1; 2]; [3]]; OWait 8 0; OCancel 4].

Lemma kqueue_filters_follow_operations_witness :
  exists e, run (demo_kernel [mkKev 5 FWrite 0 0]) 10 demo_ops (KqueueBackend_ctor (demo_kernel [mkKev 5 FWrite 0 0])) = Some e
    /\ (asked 3 FRead (log e) = true /\ asked 5 FRead (log e) = false /\ asked 5 FWrite (log e) = false)
    /\ (asked 5 FRead (log e) = wants_rd (fd_ref e 5) /\ asked 5 FWrite (log e) = wants_wr (fd_ref e 5)).
Proof.
  eexists. split; [vm_compute; reflexivity|]. split; [vm_compute; auto|].
  apply (kqueue_filters_follow_operations (demo_kernel [mkKev 5 FWrite 0 0]) 10 demo_ops); [vm_compute; reflexivity|].
  unfold demo_ops. set_solver.
Defined.

Lemma kqueue_accept_burst_stalls_witness :
  exists out' e', on_readable (demo_kernel []) 1 3 (set_rd true (set_accept true 1 fd_state0)) 64 [] kqueue0
      = Some (set_rd true (set_accept true 1 fd_state0), out', e')
    /\ length out' = (0 + kAcceptsPerWait)%nat /\ pending_events_ e' = [] /\ still kqueue0 e'
    /\ forall u, log (snd (submit_accept (demo_kernel []) u 3 (fd_put 3 (set_rd true (set_accept true 1 fd_state0)) e'))) = log e'.
Proof.
  apply (kqueue_accept_burst_stalls (demo_kernel []) 1 3 (set_rd true (set_accept true 1 fd_state0)) 64 [] kqueue0);
    [intros l; cbn; lia|vm_compute; lia|reflexivity..|split; reflexivity].
Defined.

Lemma kqueue_write_eof_fails_recv_witness :
  exists s' e', on_errorish (demo_kernel []) 5 (set_rd true (set_recv true 4 16 fd_state0)) (mkKev 5 FWrite EV_EOF 8192) 8 [] kqueue0
      = (s', [plain 4 (-8192)], e')
    /\ recv_armed s' = false
    /\ update_filters (demo_kernel []) 5 (set_recv_armed false (set_rd true (set_recv true 4 16 fd_state0))) kqueue0 = (s', e').
Proof.
  apply (kqueue_write_eof_fails_recv (demo_kernel []) 5 (set_rd true (set_recv true 4 16 fd_state0))
    (mkKev 5 FWrite EV_EOF 8192) 8 [] kqueue0); [reflexivity..|cbn; lia].
Defined.

End Kqueue.
