(* ===== verification/KqueuePort.v ===== *)
(** * The kqueue backend is a port of the epoll backend

    [src/src/backend/kqueue.cpp] calls itself a faithful port of the structure of
    [src/src/backend/epoll.cpp].  Here both models are run side by side on the same
    operations, over kernels that agree on everything but the numbers of errors and the
    form of readiness: where neither kernel reports errors or hang-ups as events, the
    two backends report the same completions in the same waits and make the same calls
    on their sockets. *)

From stdpp Require Import base option gmap list.
From Stdlib Require Import ZArith Lia.
From S2P Require Import Prelude Backend Epoll Kqueue.
Local Open Scope Z_scope.

Module Port.

(** ** Corresponding data *)

(** The errors of one system in the numbers of the other. *)
Record errno_map (err : Z -> Z) : Prop := {
  em_zero : err 0 = 0;
  em_pos : forall x, 0 < x -> 0 < err x;
  em_eagain : forall x, err x = Kqueue.EAGAIN <-> x = Epoll.EAGAIN;
  em_eintr : forall x, err x = Kqueue.EINTR <-> x = Epoll.EINTR;
  em_einprogress : forall x, err x = Kqueue.EINPROGRESS <-> x = Epoll.EINPROGRESS;
  em_ecanceled : err Epoll.ECANCELED = Kqueue.ECANCELED }.

Section Simulation.
Context (err : Z -> Z) (EM : errno_map err).

(** The value of a call, and the result of a completion. *)
Definition same_ret (r r' : Z) : Prop := (0 <= r /\ r' = r) \/ (exists x, 0 < x /\ r = - x /\ r' = - err x).
Definition same_result (r r' : Z) : Prop := r' = r \/ (exists x, 0 < x /\ r = - x /\ r' = - err x).
Definition same_comp (c c' : Completion) : Prop :=
  user c' = user c /\ same_result (result c) (result c') /\ Tags.flags c' = Tags.flags c /\ stamps c' = stamps c.

Definition kreq (q : Epoll.SendReq) : Kqueue.SendReq := Kqueue.mkReq (Epoll.req_ud q) (Epoll.req_bytes q) (Epoll.req_off q).

(** What a descriptor's state holds besides its registration. *)
Definition shape (s : Epoll.FdState) : Kqueue.FdState :=
  Kqueue.mkFd (Epoll.interest s) (Epoll.watch_ud s) false false (Epoll.recv_armed s) (Epoll.recv_ud s) (Epoll.recv_len s)
    (Epoll.recv_mem s) (Epoll.inbox_cap s) (map kreq (Epoll.sendq s)) (Epoll.accept_armed s) (Epoll.accept_ud s)
    (Epoll.connect_pending s) (Epoll.connect_ud s).
Definition strip (t : Kqueue.FdState) : Kqueue.FdState := Kqueue.set_wr false (Kqueue.set_rd false t).
Definition like (s : Epoll.FdState) (t : Kqueue.FdState) : Prop := strip t = shape s.

(** A readiness event of one kind, without error or hang-up. *)
Definition kev (p : Z * Z) : Kqueue.Kevent :=
  Kqueue.later (fst p) (if snd p =? Epoll.EPOLLIN then Kqueue.FRead else Kqueue.FWrite).
Definition clean (p : Z * Z) : Prop := 0 <= fst p /\ (snd p = Epoll.EPOLLIN \/ snd p = Epoll.EPOLLOUT).

(** ** Corresponding calls *)

Definition socket_call (c : Epoll.Call) : bool :=
  match c with
  | Epoll.CCtlAdd _ _ | Epoll.CCtlMod _ _ | Epoll.CCtlDel _ | Epoll.CWakeRead | Epoll.CWakeWrite => false
  | _ => true
  end.

Definition kcall (c : Kqueue.Call) : option Epoll.Call :=
  match c with
  | Kqueue.CWait t => Some (Epoll.CWait t)
  | Kqueue.CSendmsg fd iov => Some (Epoll.CSendmsg fd iov)
  | Kqueue.CSend fd bs => Some (Epoll.CSend fd bs)
  | Kqueue.CRecv fd len m => Some (Epoll.CRecv fd len m)
  | Kqueue.CAccept fd => Some (Epoll.CAccept fd)
  | Kqueue.CConnect fd => Some (Epoll.CConnect fd)
  | Kqueue.CSoError fd => Some (Epoll.CSoError fd)
  | Kqueue.CClose fd => Some (Epoll.CClose fd)
  | _ => None
  end.

Definition same_answer (c : Epoll.Call) (a : Epoll.Answer) (b : Kqueue.Answer) : Prop :=
  (match c with
   | Epoll.CSoError _ => 0 <= Epoll.ret a /\ Kqueue.ret b = err (Epoll.ret a)
   | _ => same_ret (Epoll.ret a) (Kqueue.ret b)
   end)
  /\ Kqueue.data b = Epoll.data a /\ Kqueue.rights b = Epoll.rights a /\ Kqueue.ctrunc b = Epoll.ctrunc a
  /\ Kqueue.events b = map kev (Epoll.events a) /\ Forall clean (Epoll.events a)
  /\ match c with Epoll.CRecv _ len _ => 0 <= len -> Epoll.ret a <= len | _ => True end.

(** Logs with the same calls on sockets, answered alike. *)
Inductive logs : Epoll.Log -> Kqueue.Log -> Prop :=
  | logs_nil : logs [] []
  | logs_both l l' c a c' b : logs l l' -> kcall c' = Some c -> same_answer c a b -> logs (l ++ [(c, a)]) (l' ++ [(c', b)])
  | logs_epoll l l' c a : logs l l' -> socket_call c = false -> logs (l ++ [(c, a)]) l'
  | logs_kqueue l l' c b : logs l l' -> kcall c = None -> logs l (l' ++ [(c, b)]).

(** Kernels that answer alike after the same calls; registration does not fail. *)
Context (ke : Epoll.Log -> Epoll.Call -> Epoll.Answer) (kk : Kqueue.Log -> Kqueue.Call -> Kqueue.Answer).
Definition same_kernels : Prop :=
  (forall l l' c c', logs l l' -> kcall c' = Some c -> same_answer c (ke l c) (kk l' c'))
  /\ (forall l fd ev, 0 <= Epoll.ret (ke l (Epoll.CCtlAdd fd ev))).
Context (SK : same_kernels).

(** Receive buffers are of a size a completion can report. *)
Definition sized (s : Epoll.FdState) : Prop := 0 <= Epoll.recv_len s < 2 ^ 31.

Record rel (e : Epoll.EpollBackend) (k : Kqueue.KqueueBackend) : Prop := {
  r_fds : shape <$> Epoll.fds_ e = strip <$> Kqueue.fds_ k;
  r_ready : Forall2 same_comp (Epoll.ready_ e) (Kqueue.ready_ k);
  r_pending : Kqueue.pending_events_ k = map kev (Epoll.pending_events_ e) /\ Forall clean (Epoll.pending_events_ e);
  r_inbox : Kqueue.inbox k = Epoll.inbox e;
  r_sized : map_Forall (fun _ s => sized s) (Epoll.fds_ e);
  r_logs : logs (Epoll.log e) (Kqueue.log k) }.

(** ** Small steps *)

Lemma like_fields s t : like s t ->
  Kqueue.interest t = Epoll.interest s /\ Kqueue.watch_ud t = Epoll.watch_ud s /\ Kqueue.recv_armed t = Epoll.recv_armed s
  /\ Kqueue.recv_ud t = Epoll.recv_ud s /\ Kqueue.recv_len t = Epoll.recv_len s /\ Kqueue.recv_mem t = Epoll.recv_mem s
  /\ Kqueue.inbox_cap t = Epoll.inbox_cap s /\ Kqueue.sendq t = map kreq (Epoll.sendq s)
  /\ Kqueue.accept_armed t = Epoll.accept_armed s /\ Kqueue.accept_ud t = Epoll.accept_ud s
  /\ Kqueue.connect_pending t = Epoll.connect_pending s /\ Kqueue.connect_ud t = Epoll.connect_ud s.
Proof. destruct s, t. intros H. injection H as. subst. done. Qed.

Lemma fd_ref_like e k fd : rel e k -> like (Epoll.fd_ref e fd) (Kqueue.fd_ref k fd) /\ sized (Epoll.fd_ref e fd).
Proof.
  intros [Hf _ _ _ Hs _]. unfold Epoll.fd_ref, Kqueue.fd_ref.
  assert (shape <$> Epoll.fds_ e !! fd = strip <$> Kqueue.fds_ k !! fd) as H by (rewrite <- !lookup_fmap; by rewrite Hf).
  destruct (Epoll.fds_ e !! fd) as [s|] eqn:Es, (Kqueue.fds_ k !! fd) as [t|]; try done.
  apply (inj Some) in H. split; [exact (eq_sym H)|]. exact (Hs fd s Es).
Qed.

Lemma rel_put e k fd s t : rel e k -> like s t -> sized s -> rel (Epoll.fd_put fd s e) (Kqueue.fd_put fd t k).
Proof.
  intros [] Hl Hs. constructor; try done; cbn [Epoll.fds_ Epoll.fd_put Epoll.set_fds Kqueue.fds_ Kqueue.fd_put Kqueue.set_fds].
  - rewrite !fmap_insert, r_fds0. by rewrite Hl.
  - by apply map_Forall_insert_2.
Qed.

Lemma rel_log_e e k c a : rel e k -> socket_call c = false -> rel (Epoll.set_log (Epoll.log e ++ [(c, a)]) e) k.
Proof. intros [] Hc. constructor; try done. by apply logs_epoll. Qed.

Lemma rel_log_k e k c b : rel e k -> kcall c = None -> rel e (Kqueue.set_log (Kqueue.log k ++ [(c, b)]) k).
Proof. intros [] Hc. constructor; try done. by apply logs_kqueue. Qed.

(** A call that both make. *)
Lemma rel_call e k c c' a e' b k' :
  rel e k -> Epoll.syscall ke c e = (a, e') -> Kqueue.syscall kk c' k = (b, k') -> kcall c' = Some c ->
  same_answer c a b /\ rel e' k'.
Proof.
  intros H [= <- <-] [= <- <-] Hc. destruct SK as [Hk _]. pose proof (Hk _ _ c c' (r_logs _ _ H) Hc) as Ha.
  split; [done|]. destruct H. constructor; try done. by apply logs_both.
Qed.

Lemma rel_update e k fd s t t' k' :
  rel e k -> like s t -> Kqueue.update_filters kk fd t k = (t', k') -> rel (Epoll.update_events ke fd s e) k' /\ like s t'.
Proof.
  intros H Hl Hu. split.
  - assert (rel e k') as H'.
    { unfold Kqueue.update_filters in Hu.
      destruct (Bool.eqb _ (Kqueue.rd_armed t)); destruct (Bool.eqb _ _); injection Hu as _ <-; unfold Kqueue.syscall_, Kqueue.syscall;
        cbn [snd]; repeat apply rel_log_k; done. }
    unfold Epoll.update_events. destruct (negb _); [done|]. by apply rel_log_e.
  - apply Kqueue.update_filters_spec in Hu as (-> & _ & _). unfold like. by rewrite <- Hl.
Qed.

(** The tail that submissions share. *)
Lemma rel_submit e k fd s t :
  rel e k -> like s t -> sized s ->
  fst (Epoll.register_and_update ke fd s e) = Val tt
  /\ rel (snd (Epoll.register_and_update ke fd s e)) (Kqueue.put_updated kk fd t k).
Proof.
  intros H Hl Hs. unfold Epoll.register_and_update, Kqueue.put_updated.
  destruct (Kqueue.update_filters kk fd t k) as [t' k'] eqn:Eu. destruct (Epoll.registered s) eqn:Er; cbn [negb].
  - destruct (rel_update e k fd s t t' k' H Hl Eu) as [H1 H2]. split; [done|]. by apply rel_put.
  - unfold Epoll.ensure_registered, Epoll.syscall. destruct SK as [_ Hadd].
    rewrite (proj2 (Z.ltb_ge _ _)) by apply Hadd. cbn [fst snd].
    split; [done|]. set (e1 := Epoll.set_log _ e). assert (rel e1 k) as H1 by by apply rel_log_e.
    assert (like (Epoll.set_registered true s) t) as Hl' by done.
    destruct (rel_update e1 k fd _ t t' k' H1 Hl' Eu) as [H2 H3]. by apply rel_put.
Qed.

(** ** Handlers *)

Abbreviation outs := (Forall2 same_comp).

Lemma outs_length o o' : outs o o' -> length o' = length o.
Proof. intros H. symmetry. by eapply Forall2_length. Qed.

Lemma same_plain u r r' : same_result r r' -> same_comp (plain u r) (plain u r').
Proof. done. Qed.

Lemma same_refl r : same_result r r.
Proof. by left. Qed.

Lemma ret_result r r' : same_ret r r' -> same_result r r'.
Proof. intros [[_ ->]|H]; [by left|by right]. Qed.

(** Tests on the value of a call come out alike. *)
Lemma ret_neg r r' : same_ret r r' -> (r' <? 0) = (r <? 0).
Proof.
  intros [[_ ->]|(x & Hx & -> & ->)]; [done|]. pose proof (em_pos _ EM x Hx).
  rewrite !(proj2 (Z.ltb_lt _ _)) by lia. done.
Qed.
Lemma ret_positive r r' : same_ret r r' -> (0 <? r') = (0 <? r).
Proof.
  intros [[_ ->]|(x & Hx & -> & ->)]; [done|]. pose proof (em_pos _ EM x Hx).
  rewrite !(proj2 (Z.ltb_ge _ _)) by lia. done.
Qed.
Lemma ret_zero r r' : same_ret r r' -> (r' =? 0) = (r =? 0).
Proof.
  intros [[_ ->]|(x & Hx & -> & ->)]; [done|]. pose proof (em_pos _ EM x Hx).
  rewrite !(proj2 (Z.eqb_neq _ _)) by lia. done.
Qed.
Lemma ret_errno r r' n n' : 0 < n -> 0 < n' -> (forall x, err x = n' <-> x = n) -> same_ret r r' -> (r' =? - n') = (r =? - n).
Proof.
  intros Hn Hn' He [[Hr ->]|(x & Hx & -> & ->)]; [rewrite !(proj2 (Z.eqb_neq _ _)) by lia; done|].
  destruct (Z.eqb_spec (- x) (- n)) as [Hq|Hq].
  - rewrite Z.eqb_eq. f_equal. apply He. lia.
  - rewrite Z.eqb_neq. intros H. apply Hq. f_equal. apply He. lia.
Qed.
Lemma ret_eagain r r' : same_ret r r' -> (r' =? - Kqueue.EAGAIN) = (r =? - Epoll.EAGAIN).
Proof. by apply ret_errno; [| |apply EM]. Qed.
Lemma ret_eintr r r' : same_ret r r' -> (r' =? - Kqueue.EINTR) = (r =? - Epoll.EINTR).
Proof. by apply ret_errno; [| |apply EM]. Qed.
Lemma ret_einprogress r r' : same_ret r r' -> (r' =? - Kqueue.EINPROGRESS) = (r =? - Epoll.EINPROGRESS).
Proof. by apply ret_errno; [| |apply EM]. Qed.

Lemma rel_push e k p : rel e k -> clean p -> rel (Epoll.push_event (fst p) (snd p) e) (Kqueue.push_event (kev p) k).
Proof.
  intros [] Hp. destruct r_pending0 as [Hq Hc]. constructor; try done.
  cbn [Kqueue.push_event Kqueue.set_pending Kqueue.pending_events_ Epoll.push_event Epoll.set_pending Epoll.pending_events_].
  rewrite Hq, map_app. destruct p. split; [done|]. apply Forall_app. by split; [|apply Forall_singleton].
Qed.

Lemma rel_emit e k cap p c c' o o' oe e' ok k' :
  rel e k -> outs o o' -> clean p -> same_comp c c' ->
  Epoll.emit_or_defer cap (fst p) (snd p) c o e = (oe, e') -> Kqueue.emit_or_defer cap (kev p) c' o' k = (ok, k') ->
  rel e' k' /\ outs oe ok.
Proof.
  intros H Ho Hp Hc. unfold Epoll.emit_or_defer, Kqueue.emit_or_defer. rewrite (outs_length _ _ Ho).
  destruct (_ <? cap)%nat; intros [= <- <-] [= <- <-]; split; try done; [|by apply rel_push].
  apply Forall2_app; [done|]. by constructor.
Qed.

Lemma clean_in fd : 0 <= fd -> clean (fd, Epoll.EPOLLIN).
Proof. split; [done|by left]. Qed.
Lemma clean_out fd : 0 <= fd -> clean (fd, Epoll.EPOLLOUT).
Proof. split; [done|by right]. Qed.

Lemma rel_close e k fd : rel e k -> rel (Epoll.syscall_ ke (Epoll.CClose fd) e) (Kqueue.syscall_ kk (Kqueue.CClose fd) k).
Proof.
  intros H. unfold Epoll.syscall_, Kqueue.syscall_.
  destruct (Epoll.syscall ke _ e) as [a e1] eqn:E1, (Kqueue.syscall kk _ k) as [b k1] eqn:E2.
  by apply (rel_call e k (Epoll.CClose fd) (Kqueue.CClose fd) a e1 b k1).
Qed.

Lemma rel_collect l cap got tr : forall e k re e' rk k',
  rel e k -> Epoll.collect_rights ke l cap got tr e = (re, e') -> Kqueue.collect_rights kk l cap got tr k = (rk, k') ->
  rel e' k' /\ rk = re.
Proof.
  revert got tr. induction l as [|f l IH]; intros got tr e k re e' rk k' H; cbn [Epoll.collect_rights Kqueue.collect_rights].
  - by intros [= <- <-] [= <- <-].
  - destruct (_ <? cap)%nat; [by apply IH|]. apply IH. by apply rel_close.
Qed.

(** Only what the accept loop does between two connections differs. *)
Lemma rel_accept_cloexec e k fd a e1 cfd k1 :
  rel e k -> Epoll.syscall ke (Epoll.CAccept fd) e = (a, e1) -> Kqueue.accept_cloexec kk fd k = (cfd, k1) ->
  same_ret (Epoll.ret a) cfd /\ rel e1 k1.
Proof.
  intros H E1. unfold Kqueue.accept_cloexec. destruct (Kqueue.syscall kk (Kqueue.CAccept fd) k) as [b k2] eqn:E2.
  destruct (rel_call e k (Epoll.CAccept fd) (Kqueue.CAccept fd) a e1 b k2 H E1 E2 eq_refl) as [(Hr & _) H2].
  destruct (_ <? 0); [by intros [= <- <-]|]. unfold Kqueue.syscall_, Kqueue.syscall. cbn [snd].
  intros [= <- <-]. split; [done|]. destruct (0 <=? _); repeat apply rel_log_k; done.
Qed.

Lemma rel_accept_loop n fd s t cap : 0 <= fd -> like s t -> forall e k o o' oe e' ok k',
  rel e k -> outs o o' -> Epoll.accept_loop ke n fd s cap o e = (oe, e') ->
  Kqueue.accept_loop kk n fd t cap o' k = (ok, k') -> rel e' k' /\ outs oe ok.
Proof.
  intros Hfd Hl. destruct (like_fields s t Hl) as (_ & _ & _ & _ & _ & _ & _ & _ & _ & Hu & _).
  induction n as [|n IH]; intros e k o o' oe e' ok k' H Ho; cbn [Epoll.accept_loop Kqueue.accept_loop];
    [by intros [= <- <-] [= <- <-]|].
  destruct (Epoll.syscall ke _ e) as [a e1] eqn:E1, (Kqueue.accept_cloexec kk fd k) as [cfd k1] eqn:E2.
  destruct (rel_accept_cloexec e k fd a e1 cfd k1 H E1 E2) as [Hr H1]. rewrite (ret_neg _ _ Hr).
  destruct (Z.ltb_spec (Epoll.ret a) 0) as [Hneg|Hpos]; [by intros [= <- <-] [= <- <-]|].
  assert (cfd = Epoll.ret a) as -> by (destruct Hr as [[_ ->]|(x & Hx & Hy & _)]; [done|lia]).
  rewrite (outs_length _ _ Ho), Hu. destruct (_ <? cap)%nat.
  - apply IH; [done|]. apply Forall2_app; [done|]. constructor; [apply same_plain, same_refl|done].
  - intros [= <- <-] [= <- <-]. split; [|done]. pose proof (rel_push _ _ (fd, Epoll.EPOLLIN) H1 (clean_in fd Hfd)) as H2.
    exact (rel_close _ _ (Epoll.ret a) H2).
Qed.

(** The drains accumulate the same bytes and descriptors. *)
Definition same_drain (d : Epoll.Drain) (d' : Kqueue.Drain) : Prop :=
  Kqueue.d_total d' = Epoll.d_total d /\ Kqueue.d_mem d' = Epoll.d_mem d /\ Kqueue.d_fds d' = Epoll.d_fds d
  /\ Kqueue.d_trunc d' = Epoll.d_trunc d /\ Epoll.d_flags d = 0 /\ Epoll.d_stamps d = no_stamps.

(** Built without kernel time stamps. *)
Lemma rel_harvest s t a b e k d d' d1 e1 :
  like s t -> rel e k -> same_drain d d' -> Kqueue.rights b = Epoll.rights a -> Kqueue.ctrunc b = Epoll.ctrunc a ->
  (if bool_decide (is_Some (Epoll.inbox_cap s)) then Epoll.harvest ke false s a d e else (d, e)) = (d1, e1) ->
  exists k1, rel e1 k1 /\ Epoll.d_total d1 = Epoll.d_total d /\ Epoll.d_mem d1 = Epoll.d_mem d
    /\ Epoll.d_flags d1 = 0 /\ Epoll.d_stamps d1 = no_stamps
    /\ (match Kqueue.inbox_cap t with
        | Some cap => Kqueue.collect_rights kk (Kqueue.rights b) cap (Kqueue.d_fds d') (Kqueue.d_trunc d' || Kqueue.ctrunc b) k
        | None => (Kqueue.d_fds d', Kqueue.d_trunc d', k)
        end) = (Epoll.d_fds d1, Epoll.d_trunc d1, k1).
Proof.
  intros Hl H (Ht & Hm & Hf & Hc & Hg & Hst) Hr Hct.
  destruct (like_fields s t Hl) as (_ & _ & _ & _ & _ & _ & Hi & _). rewrite Hi, Hr, Hct, Hf, Hc.
  destruct (Epoll.inbox_cap s) as [cap|] eqn:Ei.
  - rewrite bool_decide_eq_true_2 by done. unfold Epoll.harvest. cbn [andb]. rewrite Ei.
    destruct (Epoll.collect_rights ke _ _ _ _ e) as [[fds tr] e2] eqn:E2.
    destruct (Kqueue.collect_rights kk _ _ _ _ k) as [[fds' tr'] k2] eqn:E3.
    destruct (rel_collect _ _ _ _ _ _ _ _ _ _ H E2 E3) as [H2 [= -> ->]]. intros [= <- <-]. exists k2. cbn. rewrite Hg. done.
  - rewrite bool_decide_eq_false_2 by (by intros [? ?]). intros [= <- <-]. by exists k.
Qed.

Lemma i32_result x : 0 <= x < 2 ^ 31 -> same_ret (Epoll.i32 x) (Epoll.i32 x).
Proof. intros H. rewrite Epoll.i32_small by done. left. lia. Qed.

(** Either both drains run out of fuel, or they end alike. *)
Lemma rel_drain fuel fd s t : like s t -> sized s -> forall e k d d',
  rel e k -> same_drain d d' -> 0 <= Epoll.d_total d <= Epoll.recv_len s ->
  match Epoll.drain_recv ke false fuel fd s (bool_decide (is_Some (Epoll.inbox_cap s))) d e, Kqueue.drain_recv kk fuel fd t d' k with
  | Some (r, d1, e1), Some (r', d1', k1) => same_ret r r' /\ same_drain d1 d1' /\ rel e1 k1
  | None, None => True
  | _, _ => False
  end.
Proof.
  intros Hl Hsz. destruct (like_fields s t Hl) as (_ & _ & _ & _ & Hlen & _ & Hi & _).
  induction fuel as [|fuel IH]; intros e k d d' H Hd Ht; cbn [Epoll.drain_recv Kqueue.drain_recv]; [done|].
  pose proof Hd as (Et & Em & Ef & Etr & Eg & Est). rewrite Hlen, Et, Hi. unfold sized in Hsz.
  destruct (Z.eqb_spec (Epoll.recv_len s - Epoll.d_total d) 0) as [Hz|Hz]; [split; [apply i32_result; lia|done]|].
  destruct (Epoll.syscall ke _ e) as [a e1] eqn:E1, (Kqueue.syscall kk _ k) as [b k1] eqn:E2.
  destruct (rel_call e k _ _ a e1 b k1 H E1 E2 eq_refl) as [(Hr & Hdat & Hri & Hct & _ & _ & Hle) H1].
  cbn beta iota in Hr. rewrite (ret_positive _ _ Hr), (ret_zero _ _ Hr), (ret_eagain _ _ Hr), (ret_eintr _ _ Hr).
  destruct (Z.ltb_spec 0 (Epoll.ret a)) as [Hpos|Hneg].
  - assert (Kqueue.ret b = Epoll.ret a) as Er by (destruct Hr as [[_ ->]|(x & Hx & Hy & _)]; [done|lia]).
    destruct (if bool_decide _ then _ else _) as [d1 e2] eqn:E3.
    destruct (rel_harvest s t a b e1 k1 d d' d1 e2 Hl H1 Hd Hri Hct E3) as (k2 & H2 & Ht1 & Hm1 & Hg1 & Hs1 & Hk).
    rewrite Hi in Hk. rewrite Hk. apply IH; [done| |cbn [Epoll.d_total]; rewrite Ht1; lia].
    unfold same_drain. cbn. rewrite Er, Hdat, Em, Hm1, Ht1. done.
  - destruct (Epoll.ret a =? 0).
    { split; [|done]. destruct (_ =? 0); [by left|apply i32_result; lia]. }
    destruct (Epoll.ret a =? - Epoll.EAGAIN).
    { split; [|done]. destruct (_ =? 0); [|apply i32_result; lia]. right. exists Epoll.EAGAIN. split; [done|]. split; [done|].
      f_equal. symmetry. by apply EM. }
    destruct (Epoll.ret a =? - Epoll.EINTR); [by apply IH|]. done.
Qed.

(** Setters of the same member keep states alike. *)
Lemma like_recv_armed b s t : like s t -> like (Epoll.set_recv_armed b s) (Kqueue.set_recv_armed b t).
Proof. intros H. unfold like. change (strip _) with (Kqueue.set_recv_armed b (strip t)). by rewrite H. Qed.
Lemma like_recv b u n s t : like s t -> like (Epoll.set_recv b u n s) (Kqueue.set_recv b u n t).
Proof. intros H. unfold like. change (strip _) with (Kqueue.set_recv b u n (strip t)). by rewrite H. Qed.
Lemma like_recv_mem m s t : like s t -> like (Epoll.set_recv_mem m s) (Kqueue.set_recv_mem m t).
Proof. intros H. unfold like. change (strip _) with (Kqueue.set_recv_mem m (strip t)). by rewrite H. Qed.
Lemma like_sendq q s t : like s t -> like (Epoll.set_sendq q s) (Kqueue.set_sendq (map kreq q) t).
Proof. intros H. unfold like. change (strip _) with (Kqueue.set_sendq (map kreq q) (strip t)). by rewrite H. Qed.
Lemma like_accept b u s t : like s t -> like (Epoll.set_accept b u s) (Kqueue.set_accept b u t).
Proof. intros H. unfold like. change (strip _) with (Kqueue.set_accept b u (strip t)). by rewrite H. Qed.
Lemma like_connect b u s t : like s t -> like (Epoll.set_connect b u s) (Kqueue.set_connect b u t).
Proof. intros H. unfold like. change (strip _) with (Kqueue.set_connect b u (strip t)). by rewrite H. Qed.
Lemma like_watch i u s t : like s t -> like (Epoll.set_watch i u s) (Kqueue.set_watch i u t).
Proof. intros H. unfold like. change (strip _) with (Kqueue.set_watch i u (strip t)). by rewrite H. Qed.
Lemma like_inbox c s t : like s t -> like (Epoll.set_inbox_cap c s) (Kqueue.set_inbox_cap c t).
Proof. intros H. unfold like. change (strip _) with (Kqueue.set_inbox_cap c (strip t)). by rewrite H. Qed.

(** Two computations run out of fuel together or end in related results. *)
Definition both {A B} (R : A -> B -> Prop) (x : option A) (y : option B) : Prop :=
  match x, y with Some a, Some b => R a b | None, None => True | _, _ => False end.

Definition handled (x : Epoll.FdState * list Completion * Epoll.EpollBackend)
    (y : Kqueue.FdState * list Completion * Kqueue.KqueueBackend) : Prop :=
  like x.1.1 y.1.1 /\ sized x.1.1 /\ outs x.1.2 y.1.2 /\ rel x.2 y.2.
Definition waited (x : list Completion * Epoll.EpollBackend) (y : list Completion * Kqueue.KqueueBackend) : Prop :=
  outs x.1 y.1 /\ rel x.2 y.2.

(** Watch readiness at the start or the end of a handler. *)
Lemma rel_watch (w : bool) e k cap p u r o o' oe e' ok k' :
  rel e k -> outs o o' -> clean p ->
  (if w then Epoll.emit_or_defer cap (fst p) (snd p) (plain u r) o e else (o, e)) = (oe, e') ->
  (if w then Kqueue.emit_or_defer cap (kev p) (plain u r) o' k else (o', k)) = (ok, k') ->
  rel e' k' /\ outs oe ok.
Proof.
  intros H Ho Hp. destruct w; [apply rel_emit; [done..|apply same_plain, same_refl]|].
  by intros [= <- <-] [= <- <-].
Qed.

Lemma rel_on_readable fuel fd s t cap o o' e k : 0 <= fd -> like s t -> sized s -> outs o o' -> rel e k ->
  both handled (Epoll.on_readable ke false fuel fd s cap o e) (Kqueue.on_readable kk fuel fd t cap o' k).
Proof.
  intros Hfd Hl Hs Ho H. unfold Epoll.on_readable, Kqueue.on_readable.
  destruct (like_fields s t Hl) as (Hi & Hw & Hra & Hru & Hlen & Hmem & Hin & _ & Haa & _). rewrite Hi, Hw, Hra, Haa, Hmem.
  destruct (if has _ _ then Epoll.emit_or_defer _ _ _ _ _ _ else _) as [o1 e1] eqn:E1.
  destruct (if has _ _ then Kqueue.emit_or_defer _ _ _ _ _ else _) as [o1' k1] eqn:E2.
  destruct (rel_watch _ e k cap (fd, Epoll.EPOLLIN) _ _ _ _ _ _ _ _ H Ho (clean_in fd Hfd) E1 E2) as [H1 Ho1].
  destruct (Epoll.accept_armed s).
  { destruct (Epoll.accept_loop _ _ _ _ _ _ _) as [o2 e2] eqn:E3, (Kqueue.accept_loop _ _ _ _ _ _ _) as [o2' k2] eqn:E4.
    destruct (rel_accept_loop _ fd s t cap Hfd Hl _ _ _ _ _ _ _ _ H1 Ho1 E3 E4). done. }
  destruct (Epoll.recv_armed s); [cbn [negb]|done]. rewrite orb_false_r.
  pose proof (rel_drain fuel fd s t Hl Hs e1 k1 (Epoll.mkDrain 0 (Epoll.recv_mem s) no_stamps 0 [] false)
    (Kqueue.mkDrain 0 (Epoll.recv_mem s) [] false) H1) as Hd.
  unfold sized in Hs. specialize (Hd ltac:(done) ltac:(cbn; lia)).
  destruct (Epoll.drain_recv _ _ _ _ _ _ _ _) as [[[r d] e2]|], (Kqueue.drain_recv _ _ _ _ _ _) as [[[r' d'] k2]|]; try done.
  destruct Hd as (Hr & (Et & Em & Ef & Etr & Eg & Est) & H2). cbn [mbind option_bind].
  rewrite (ret_eagain _ _ Hr), Ef, Em, Etr, Eg, Est, Z.lor_0_l.
  pose proof (like_recv_mem (Epoll.d_mem d) _ _ Hl) as Hl1. destruct (_ && _); [done|].
  apply (like_recv_armed false) in Hl1 as Hl2.
  destruct (Kqueue.update_filters _ _ _ k2) as [t3 k3] eqn:E3. destruct (rel_update _ _ fd _ _ _ _ H2 Hl2 E3) as [H3 Hl3].
  destruct (like_fields _ _ Hl3) as (_ & _ & _ & Hu3 & _ & _ & Hi3 & _). rewrite Hi3, Hu3, (outs_length _ _ Ho1).
  cbn [Epoll.inbox_cap Epoll.set_recv_armed Epoll.set_recv Epoll.set_recv_mem].
  set (e4 := if bool_decide (is_Some _) then _ else Epoll.update_events _ _ _ _).
  set (k4 := if bool_decide (is_Some _) then _ else k3).
  assert (rel e4 k4) as H4.
  { unfold e4, k4. destruct (bool_decide (is_Some _)); [|done]. destruct H3. constructor; try done. cbn. by rewrite r_inbox0. }
  destruct (_ <? cap)%nat.
  { split; [done|]. split; [done|]. split; [|done]. cbn [fst snd]. apply Forall2_app; [done|]. constructor; [|done].
    split; [done|]. split; [by apply ret_result|done]. }
  apply (like_recv_armed true) in Hl3 as Hl4. pose proof (rel_push _ _ _ H4 (clean_in fd Hfd)) as H5.
  cbn [fst snd] in H5. change (kev (fd, Epoll.EPOLLIN)) with (Kqueue.later fd Kqueue.FRead) in H5.
  destruct (Kqueue.update_filters _ _ _ (Kqueue.push_event _ _)) as [t5 k5] eqn:E5.
  destruct (rel_update _ _ fd _ _ _ _ H5 Hl4 E5) as [H6 Hl6]. done.
Qed.

(** A finished request leaves the queue. *)
Lemma rel_pop fd cap s t rest o o' e k u r r' t1 k1 oe e2 ok k2 : 0 <= fd -> like s t -> outs o o' -> rel e k -> same_result r r' ->
  Kqueue.update_filters kk fd (Kqueue.set_sendq (map kreq rest) t) k = (t1, k1) ->
  Epoll.emit_or_defer cap fd Epoll.EPOLLOUT (plain u r) o (Epoll.update_events ke fd (Epoll.set_sendq rest s) e) = (oe, e2) ->
  Kqueue.emit_or_defer cap (Kqueue.later fd Kqueue.FWrite) (plain u r') o' k1 = (ok, k2) ->
  like (Epoll.set_sendq rest s) t1 /\ outs oe ok /\ rel e2 k2.
Proof.
  intros Hfd Hl Ho H Hr Eu Ee Ek. apply (like_sendq rest) in Hl. destruct (rel_update _ _ fd _ _ _ _ H Hl Eu) as [H1 Hl1].
  destruct (rel_emit _ _ cap (fd, Epoll.EPOLLOUT) (plain u r) (plain u r') _ _ _ _ _ _ H1 Ho (clean_out fd Hfd) (same_plain u _ _ Hr) Ee Ek). done.
Qed.

Lemma rel_send_loop fuel fd cap : 0 <= fd -> forall s t o o' e k, like s t -> sized s -> outs o o' -> rel e k ->
  both handled (Epoll.send_loop ke fuel fd s cap o e) (Kqueue.send_loop kk fuel fd t cap o' k).
Proof.
  intros Hfd. induction fuel as [|fuel IH]; intros s t o o' e k Hl Hs Ho H; cbn [Epoll.send_loop Kqueue.send_loop];
    destruct (like_fields s t Hl) as (_ & _ & _ & _ & _ & _ & _ & Hq & _); rewrite Hq;
    destruct (Epoll.sendq s) as [|q rest]; cbn [map]; try done.
  destruct (Epoll.syscall ke _ e) as [a e1] eqn:E1, (Kqueue.syscall kk _ k) as [b k1] eqn:E2.
  destruct (rel_call e k _ _ a e1 b k1 H E1 E2 eq_refl) as [(Hr & _) H1]. cbn beta iota in Hr.
  rewrite (ret_neg _ _ Hr), (ret_eintr _ _ Hr), (ret_eagain _ _ Hr).
  destruct (Z.ltb_spec (Epoll.ret a) 0) as [Hneg|Hpos].
  - destruct (_ =? - Epoll.EINTR); [by apply IH|]. destruct (_ =? - Epoll.EAGAIN); [done|].
    destruct (Kqueue.update_filters _ _ _ _) as [t2 k2] eqn:E3.
    destruct (Epoll.emit_or_defer _ _ _ _ _ _) as [o3 e3] eqn:E4, (Kqueue.emit_or_defer _ _ _ _ _) as [o3' k3] eqn:E5.
    destruct (rel_pop fd cap s t rest o o' e1 k1 _ _ _ _ _ _ _ _ _ Hfd Hl Ho H1 (ret_result _ _ Hr) E3 E4 E5) as (? & ? & ?).
    by apply IH.
  - assert (Kqueue.ret b = Epoll.ret a) as -> by (destruct Hr as [[_ ->]|(x & Hx & Hy & _)]; [done|lia]).
    cbn [kreq Kqueue.req_off Kqueue.req_bytes Kqueue.req_ud].
    destruct (_ =? zlen _).
    + destruct (Kqueue.update_filters _ _ _ _) as [t2 k2] eqn:E3.
      destruct (Epoll.emit_or_defer _ _ _ _ _ _) as [o3 e3] eqn:E4, (Kqueue.emit_or_defer _ _ _ _ _) as [o3' k3] eqn:E5.
      destruct (rel_pop fd cap s t rest o o' e1 k1 _ _ _ _ _ _ _ _ _ Hfd Hl Ho H1 (same_refl _) E3 E4 E5) as (? & ? & ?).
      by apply IH.
    + apply IH; [|done..]. by apply (like_sendq (Epoll.mkReq _ _ _ :: rest)).
Qed.

Lemma rel_on_writable fuel fd s t cap o o' e k : 0 <= fd -> like s t -> sized s -> outs o o' -> rel e k ->
  both handled (Epoll.on_writable ke fuel fd s cap o e) (Kqueue.on_writable kk fuel fd t cap o' k).
Proof.
  intros Hfd Hl Hs Ho H. unfold Epoll.on_writable, Kqueue.on_writable.
  destruct (if Epoll.connect_pending s then _ else _) as [[s1 o1] e1] eqn:E1.
  destruct (if Kqueue.connect_pending t then _ else _) as [[t1 o1'] k1] eqn:E2.
  assert (like s1 t1 /\ sized s1 /\ outs o1 o1' /\ rel e1 k1) as (Hl1 & Hs1 & Ho1 & H1).
  { destruct (like_fields s t Hl) as (_ & _ & _ & _ & _ & _ & _ & _ & _ & _ & Hc & Hcu). rewrite Hc in E2.
    destruct (Epoll.connect_pending s); [|injection E1 as <- <- <-; injection E2 as <- <- <-; done].
    unfold Kqueue.so_error in E2. rewrite Hcu in E2.
    destruct (Epoll.syscall ke _ e) as [a e2] eqn:E3, (Kqueue.syscall kk _ k) as [b k2] eqn:E4.
    destruct (rel_call e k _ _ a e2 b k2 H E3 E4 eq_refl) as [((Hr & Hb) & _) H2]. cbn beta iota in Hr.
    assert (0 <= Kqueue.ret b) as Hb0.
    { rewrite Hb. destruct (Z.eq_dec (Epoll.ret a) 0) as [->|Hn]; [by rewrite (em_zero _ EM)|].
      pose proof (em_pos _ EM (Epoll.ret a)). lia. }
    rewrite (proj2 (Z.ltb_ge _ _)) in E2 by done.
    apply (like_connect false (Epoll.connect_ud s)) in Hl as Hl1.
    destruct (Kqueue.update_filters _ _ _ _) as [t3 k3] eqn:E5. destruct (rel_update _ _ fd _ _ _ _ H2 Hl1 E5) as [H3 Hl3].
    destruct (like_fields _ _ Hl3) as (_ & _ & _ & _ & _ & _ & _ & _ & _ & _ & _ & Hu3). rewrite Hu3 in E2.
    destruct (Epoll.emit_or_defer _ _ _ _ _ _) as [o3 e3] eqn:E6, (Kqueue.emit_or_defer _ _ _ _ _) as [o3' k4] eqn:E7.
    assert (same_result (- Epoll.ret a) (- Kqueue.ret b)) as Hres.
    { rewrite Hb. destruct (Z.eq_dec (Epoll.ret a) 0) as [->|Hn]; [left; by rewrite (em_zero _ EM)|].
      right. exists (Epoll.ret a). split; [lia|done]. }
    injection E1 as <- <- <-. injection E2 as <- <- <-.
    destruct (rel_emit _ _ cap (fd, Epoll.EPOLLOUT) (plain _ _) (plain _ _) _ _ _ _ _ _ H3 Ho (clean_out fd Hfd) (same_plain _ _ _ Hres) E6 E7). done. }
  pose proof (rel_send_loop fuel fd cap Hfd s1 t1 o1 o1' e1 k1 Hl1 Hs1 Ho1 H1) as Hd.
  destruct (Epoll.send_loop _ _ _ _ _ _ _) as [[[s2 o2] e2]|], (Kqueue.send_loop _ _ _ _ _ _ _) as [[[t2 o2'] k2]|]; try done.
  destruct Hd as (Hl2 & Hs2 & Ho2 & H2). cbn [mbind option_bind fst snd] in *.
  destruct (like_fields _ _ Hl2) as (Hi & Hw & _). rewrite Hi, Hw.
  destruct (if has _ _ then Epoll.emit_or_defer _ _ _ _ _ _ else _) as [o3 e3] eqn:E3.
  destruct (if has _ _ then Kqueue.emit_or_defer _ _ _ _ _ else _) as [o3' k3] eqn:E4.
  destruct (rel_watch _ e2 k2 cap (fd, Epoll.EPOLLOUT) _ _ _ _ _ _ _ _ H2 Ho2 (clean_out fd Hfd) E3 E4) as [H3 Ho3]. done.
Qed.

(** ** Waits *)

Ltac eval_any :=
  repeat match goal with |- context [Epoll.any ?a ?b] =>
    let v := eval vm_compute in (Epoll.any a b) in change (Epoll.any a b) with v end.

Lemma rel_dispatch fuel p cap o o' e k : clean p -> outs o o' -> rel e k ->
  both waited (Epoll.dispatch_fd ke false fuel (fst p) (snd p) cap o e) (Kqueue.dispatch_fd kk fuel (kev p) cap o' k).
Proof.
  intros [Hfd Hev] Ho H. unfold Epoll.dispatch_fd, Kqueue.dispatch_fd. cbn [kev Kqueue.later Kqueue.ident].
  assert (shape <$> Epoll.fds_ e !! fst p = strip <$> Kqueue.fds_ k !! fst p) as Hl
    by (rewrite <- !lookup_fmap; by rewrite (r_fds _ _ H)).
  destruct (Epoll.fds_ e !! fst p) as [s|] eqn:Es, (Kqueue.fds_ k !! fst p) as [t|] eqn:Et; try done.
  apply (inj Some), eq_sym in Hl. pose proof (r_sized _ _ H _ _ Es) as Hs. cbn beta in Hs.
  assert (both handled (Epoll.dispatch_event ke false fuel (fst p) s (snd p) cap o e)
    (Kqueue.dispatch_event kk fuel (fst p) t (kev p) cap o' k)) as Hb.
  { unfold Epoll.dispatch_event, Kqueue.dispatch_event, kev. destruct Hev as [-> | ->]; cbn [Kqueue.later Kqueue.flags Kqueue.filt].
    - pose proof (rel_on_readable fuel (fst p) s t cap o o' e k Hfd Hl Hs Ho H) as Hb. eval_any.
      revert Hb. change (Epoll.EPOLLIN =? Epoll.EPOLLIN) with true. cbn iota.
      destruct (Epoll.on_readable _ _ _ _ _ _ _ _) as [[[? ?] ?]|]; done.
    - eval_any. exact (rel_on_writable fuel (fst p) s t cap o o' e k Hfd Hl Hs Ho H). }
  destruct (Epoll.dispatch_event _ _ _ _ _ _ _ _ _) as [[[s1 o1] e1]|], (Kqueue.dispatch_event _ _ _ _ _ _ _ _) as [[[t1 o1'] k1]|];
    try done. destruct Hb as (Hl1 & Hs1 & Ho1 & H1). cbn [mbind option_bind fst snd] in *. split; [done|]. by apply rel_put.
Qed.

Lemma rel_pending fuel cap : forall o o' e k, outs o o' -> rel e k ->
  both waited (Epoll.pending_loop ke false fuel cap o e) (Kqueue.pending_loop kk fuel cap o' k).
Proof.
  induction fuel as [|fuel IH]; intros o o' e k Ho H; cbn [Epoll.pending_loop Kqueue.pending_loop];
    rewrite (outs_length _ _ Ho); (destruct (_ <? cap)%nat; [|done]);
    destruct (r_pending _ _ H) as [Hp Hc]; rewrite Hp; destruct (Epoll.pending_events_ e) as [|p ps]; cbn [map]; try done;
    destruct p as [fd ev]; [done|].
  apply Forall_cons in Hc as [Hcp Hc].
  assert (rel (Epoll.set_pending ps e) (Kqueue.set_pending (map kev ps) k)) as H1 by (destruct H; by constructor).
  pose proof (rel_dispatch (S fuel) (fd, ev) cap o o' _ _ Hcp Ho H1) as Hd. cbn [fst snd] in Hd.
  destruct (Epoll.dispatch_fd _ _ _ _ _ _ _ _) as [[o1 e1]|], (Kqueue.dispatch_fd _ _ _ _ _ _) as [[o1' k1]|]; try done.
  destruct Hd as [Ho1 H2]. by apply IH.
Qed.

Lemma rel_kevent fuel timeout : forall e k, rel e k ->
  both (fun x y => same_answer (Epoll.CWait timeout) x.1 y.1 /\ rel x.2 y.2)
    (Epoll.pwait ke fuel timeout e) (Kqueue.kevent_wait kk fuel timeout k).
Proof.
  induction fuel as [|fuel IH]; intros e k H; cbn [Epoll.pwait Kqueue.kevent_wait]; [done|].
  destruct (Epoll.syscall ke _ e) as [a e1] eqn:E1, (Kqueue.syscall kk _ k) as [b k1] eqn:E2.
  destruct (rel_call e k _ _ a e1 b k1 H E1 E2 eq_refl) as [Ha H1]. rewrite (ret_eintr _ _ (proj1 Ha)).
  destruct (_ =? _); [by apply IH|done].
Qed.

(** Whether a descriptor is known is known to both. *)
Lemma rel_known e k fd : rel e k -> bool_decide (is_Some (Kqueue.fds_ k !! fd)) = bool_decide (is_Some (Epoll.fds_ e !! fd)).
Proof.
  intros H. apply bool_decide_ext. rewrite <- (fmap_is_Some strip), <- (fmap_is_Some shape), <- !lookup_fmap.
  by rewrite (r_fds _ _ H).
Qed.

Lemma rel_events fuel cap evs : Forall clean evs -> forall o o' e k, outs o o' -> rel e k ->
  both waited (Epoll.event_loop ke false fuel (-1) evs cap o e) (Kqueue.event_loop kk fuel (map kev evs) cap o' k).
Proof.
  induction 1 as [|[fd ev] evs Hp Hevs IH]; intros o o' e k Ho H; cbn [Epoll.event_loop Kqueue.event_loop map]; [done|].
  pose proof Hp as [Hfd _]. cbn [fst] in Hfd. rewrite (proj2 (Z.eqb_neq _ _)) by lia.
  rewrite (bool_decide_eq_false_2 (Kqueue.filt (kev (fd, ev)) = Kqueue.FUser)) by (cbn; by destruct (_ =? _)).
  cbn [andb kev Kqueue.later Kqueue.ident fst snd].
  rewrite (rel_known _ _ _ H), (outs_length _ _ Ho). destruct (bool_decide _); [|by apply IH].
  destruct (_ <? cap)%nat; [|apply IH; [done|]; exact (rel_push _ _ (fd, ev) H Hp)].
  pose proof (rel_dispatch fuel (fd, ev) cap o o' e k Hp Ho H) as Hd. cbn [fst snd kev Kqueue.later] in Hd.
  destruct (Epoll.dispatch_fd _ _ _ _ _ _ _ _) as [[o1 e1]|], (Kqueue.dispatch_fd _ _ _ _ _ _) as [[o1' k1]|]; try done.
  destruct Hd as [Ho1 H1]. by apply IH.
Qed.

Lemma rel_wait fuel cap timeout e k : rel e k ->
  both waited (Epoll.wait ke false fuel (-1) cap timeout e) (Kqueue.wait kk fuel cap timeout k).
Proof.
  intros H. unfold Epoll.wait, Kqueue.wait. pose proof (r_ready _ _ H) as Hr.
  pose proof (Forall2_take _ _ _ cap Hr) as Ho. rewrite (outs_length _ _ Ho).
  assert (rel (Epoll.set_ready (drop cap (Epoll.ready_ e)) e) (Kqueue.set_ready (drop cap (Kqueue.ready_ k)) k)) as H0.
  { destruct H. constructor; try done. by apply Forall2_drop. }
  destruct (_ =? cap)%nat; [done|]. pose proof (rel_pending fuel cap _ _ _ _ Ho H0) as Hp.
  destruct (Epoll.pending_loop _ _ _ _ _ _) as [[o1 e1]|], (Kqueue.pending_loop _ _ _ _ _) as [[o1' k1]|]; try done.
  destruct Hp as [Ho1 H1]. cbn [mbind option_bind fst snd] in *. rewrite (outs_length _ _ Ho1).
  destruct (_ =? cap)%nat; [done|].
  assert (bool_decide (Kqueue.ready_ k1 = []) = bool_decide (Epoll.ready_ e1 = [])) as ->.
  { apply bool_decide_ext. pose proof (r_ready _ _ H1) as Hr1. split; intros Hn; rewrite Hn in Hr1; by inversion Hr1. }
  set (b := negb (bool_decide _) || _ || _).
  assert ((if negb b then timeout else 0) = (if b then 0 else timeout)) as -> by by destruct b.
  pose proof (rel_kevent fuel (if b then 0 else timeout) e1 k1 H1) as Hk.
  destruct (Epoll.pwait _ _ _ _) as [[a e2]|], (Kqueue.kevent_wait _ _ _ _) as [[a' k2]|]; try done.
  destruct Hk as [(Hret & _ & _ & _ & Hev & Hcl & _) H2]. cbn [mbind option_bind fst snd] in *. rewrite (ret_neg _ _ Hret).
  destruct (_ <? 0); [done|]. rewrite Hev, firstn_map. apply rel_events; [by apply Forall_take|done|done].
Qed.

(** ** Submissions *)

Lemma rel_queue e k u r r' : rel e k -> same_result r r' -> rel (Epoll.queue_completion u r 0 e) (Kqueue.queue_completion u r' k).
Proof.
  intros [] Hr. constructor; try done. cbn. apply Forall2_app; [done|]. constructor; [by apply same_plain|done].
Qed.

Lemma rel_sendv u fd iov e k : rel e k ->
  fst (Epoll.submit_sendv ke u fd iov e) = fst (Kqueue.submit_sendv kk u fd iov k)
  /\ rel (snd (Epoll.submit_sendv ke u fd iov e)) (snd (Kqueue.submit_sendv kk u fd iov k)).
Proof.
  intros H. unfold Epoll.submit_sendv, Kqueue.submit_sendv. destruct (fd_ref_like e k fd H) as [Hl Hs].
  set (s := Epoll.fd_ref e fd) in *. set (t := Kqueue.fd_ref k fd) in *.
  destruct (like_fields s t Hl) as (_ & _ & _ & _ & _ & _ & _ & Hq & _). rewrite Hq.
  assert (forall q, like (Epoll.set_sendq (Epoll.sendq s ++ [q]) s) (Kqueue.set_sendq (map kreq (Epoll.sendq s) ++ [kreq q]) t)) as Hadd.
  { intros q. replace (map kreq (Epoll.sendq s) ++ [kreq q]) with (map kreq (Epoll.sendq s ++ [q])) by by rewrite map_app.
    by apply like_sendq. }
  assert (bool_decide (map kreq (Epoll.sendq s) = []) = bool_decide (Epoll.sendq s = [])) as ->
    by (apply bool_decide_ext; by destruct (Epoll.sendq s)).
  destruct (negb _).
  - split; [done|]. cbn [snd]. unfold Kqueue.put_updated. destruct (Kqueue.update_filters _ _ _ _) as [t1 k1] eqn:E1.
    destruct (rel_update e k fd _ _ t1 k1 H (Hadd (Epoll.mkReq u (concat iov) 0)) E1) as [H1 Hl1]. by apply rel_put.
  - destruct (Epoll.syscall ke _ e) as [a e1] eqn:E1, (Kqueue.syscall kk _ k) as [b k1] eqn:E2.
    destruct (rel_call e k _ _ a e1 b k1 H E1 E2 eq_refl) as [(Hr & _) H1]. cbn beta iota in Hr.
    rewrite (ret_neg _ _ Hr), (ret_eagain _ _ Hr).
    destruct (Z.ltb_spec (Epoll.ret a) 0) as [Hneg|Hpos]; cbn [andb].
    + destruct (negb (_ =? - _)); [split; [done|]; apply rel_queue; [by apply rel_put|by apply ret_result]|].
      destruct (0 =? _); [split; [done|]; apply rel_queue; [by apply rel_put|apply same_refl]|].
      destruct (rel_submit e1 k1 fd _ _ H1 (Hadd (Epoll.mkReq u (Epoll.copy_tail iov 0) 0)) Hs) as [Hf H2]. done.
    + assert (Kqueue.ret b = Epoll.ret a) as -> by (destruct Hr as [[_ ->]|(x & Hx & Hy & _)]; [done|lia]).
      destruct (_ =? zlen _); [split; [done|]; apply rel_queue; [by apply rel_put|apply same_refl]|].
      destruct (rel_submit e1 k1 fd _ _ H1 (Hadd (Epoll.mkReq u (Epoll.copy_tail iov (Epoll.ret a)) 0)) Hs) as [Hf H2]. done.
Qed.

Lemma rel_connect u fd e k : rel e k ->
  fst (Epoll.submit_connect ke u fd e) = fst (Kqueue.submit_connect kk u fd k)
  /\ rel (snd (Epoll.submit_connect ke u fd e)) (snd (Kqueue.submit_connect kk u fd k)).
Proof.
  intros H. unfold Epoll.submit_connect, Kqueue.submit_connect. destruct (fd_ref_like e k fd H) as [Hl Hs].
  destruct (Epoll.syscall ke _ e) as [a e1] eqn:E1, (Kqueue.syscall kk _ k) as [b k1] eqn:E2.
  destruct (rel_call e k _ _ a e1 b k1 H E1 E2 eq_refl) as [(Hr & _) H1]. cbn beta iota in Hr.
  rewrite (ret_zero _ _ Hr), (ret_einprogress _ _ Hr).
  destruct (_ =? 0); [split; [done|]; apply rel_queue; [by apply rel_put|apply same_refl]|].
  destruct (negb _); [split; [done|]; apply rel_queue; [by apply rel_put|by apply ret_result]|].
  destruct (rel_submit e1 k1 fd _ _ H1 (like_connect true u _ _ Hl) Hs) as [Hf H2]. done.
Qed.

Lemma cons_inj {A} (x y : A) l l' : x :: l = y :: l' -> x = y /\ l = l'.
Proof. by intros [= -> ->]. Qed.

(** [cancel] goes over the descriptors in the same order. *)
Lemma cancel_hits u (q : list Epoll.SendReq) :
  filter (fun r => Kqueue.req_ud r = u) (map kreq q) = map kreq (filter (fun r => Epoll.req_ud r = u) q)
  /\ filter (fun r => Kqueue.req_ud r <> u) (map kreq q) = map kreq (filter (fun r => Epoll.req_ud r <> u) q).
Proof.
  induction q as [|r q [IH1 IH2]]; [done|]. cbn [map]. rewrite !filter_cons. cbn [kreq Kqueue.req_ud].
  repeat case_decide; try tauto; cbn [map]; by rewrite ?IH1, ?IH2.
Qed.

Lemma no_hits u (q : list Epoll.SendReq) :
  length (filter (fun r => Epoll.req_ud r = u) q) = 0%nat -> filter (fun r => Epoll.req_ud r <> u) q = q.
Proof.
  induction q as [|r q IH]; [done|]. rewrite !filter_cons. repeat case_decide; try tauto; cbn [length]; [lia|].
  intros Hn. by rewrite IH.
Qed.

Lemma rel_cancelled e k u n : rel e k ->
  rel (Epoll.set_ready (Epoll.ready_ e ++ replicate n (plain u (- Epoll.ECANCELED))) e)
      (Kqueue.set_ready (Kqueue.ready_ k ++ replicate n (plain u (- Kqueue.ECANCELED))) k).
Proof.
  intros []. constructor; try done. cbn. apply Forall2_app; [done|]. induction n as [|n IH]; cbn; [done|]. constructor; [|done].
  apply same_plain. right. exists Epoll.ECANCELED. split; [done|]. split; [done|]. by rewrite (em_ecanceled _ EM).
Qed.

Lemma rel_cancel_one u fd s t e k : rel e k -> like s t -> sized s ->
  rel (Epoll.cancel_one ke u e (fd, s)) (Kqueue.cancel_one kk u k (fd, t)).
Proof.
  intros H Hl Hs. unfold Epoll.cancel_one, Kqueue.cancel_one.
  destruct (like_fields s t Hl) as (_ & _ & Hra & Hru & _ & _ & _ & Hq & Haa & Hau & Hcp & Hcu).
  destruct (cancel_hits u (Epoll.sendq s)) as [Hh Hk]. rewrite Hra, Hru, Hq, Haa, Hau, Hcp, Hcu, Hh, Hk, length_map.
  set (r := Epoll.recv_armed s && _). set (a := Epoll.accept_armed s && _). set (c := Epoll.connect_pending s && _).
  set (n := (_ + _)%nat).
  set (s4 := if c then Epoll.set_connect _ _ _ else _). set (t4 := if c then Kqueue.set_connect _ _ _ else _).
  assert (like s4 t4 /\ sized s4) as [Hl4 Hs4].
  { split; [|by unfold s4; destruct r, a, c]. unfold s4, t4. destruct r, a, c;
      repeat first [apply like_connect | apply like_accept | apply like_sendq | apply like_recv_armed]; done. }
  pose proof (rel_cancelled e k u n H) as H1. destruct (Nat.ltb_spec 0 n) as [Hn|Hn].
  - unfold Kqueue.put_updated. destruct (Kqueue.update_filters _ _ _ _) as [t5 k5] eqn:E5.
    destruct (rel_update _ _ fd _ _ _ _ H1 Hl4 E5) as [H2 Hl5]. pose proof (rel_put _ _ fd _ _ H2 Hl5 Hs4) as H3.
    unfold Epoll.update_events in *. by destruct (negb _).
  - assert (n = 0%nat) as Hz by lia. unfold n in Hz.
    assert (s4 = s) as ->.
    { unfold s4. destruct r; [cbn in Hz; lia|]. destruct a; [lia|]. destruct c; [lia|].
      rewrite (no_hits u (Epoll.sendq s)) by (cbn in Hz; lia). by destruct s. }
    by apply rel_put.
Qed.

Lemma rel_cancel u e k : rel e k -> rel (snd (Epoll.cancel ke u e)) (snd (Kqueue.cancel kk u k)).
Proof.
  intros H. unfold Epoll.cancel, Kqueue.cancel. cbn [snd].
  assert (Forall2 (fun p q => p.1 = q.1 /\ like p.2 q.2 /\ sized p.2) (map_to_list (Epoll.fds_ e)) (map_to_list (Kqueue.fds_ k))) as Hl.
  { pose proof (f_equal map_to_list (r_fds _ _ H)) as Hm. rewrite !map_to_list_fmap in Hm.
    assert (Forall (fun p => sized p.2) (map_to_list (Epoll.fds_ e))) as Hsz.
    { apply Forall_forall. intros [fd s] Hin. apply elem_of_map_to_list in Hin. exact (r_sized _ _ H fd s Hin). }
    revert Hm Hsz. generalize (map_to_list (Epoll.fds_ e)), (map_to_list (Kqueue.fds_ k)).
    induction l as [|[fd s] l IH]; intros [|[fd' t] l']; cbn [fmap list_fmap]; try done. intros Hm Hsz.
    apply cons_inj in Hm as [Hp Hm]. apply Forall_cons in Hsz as [Hs Hsz]. constructor; [|by apply IH].
    apply (f_equal fst) in Hp as H1. apply (f_equal snd) in Hp as H2. split; [exact H1|]. split; [exact (eq_sym H2)|done]. }
  revert Hl. generalize (map_to_list (Epoll.fds_ e)), (map_to_list (Kqueue.fds_ k)). intros l l' Hl.
  revert e k H. induction Hl as [|[fd s] [fd' t] l l' (Hfd & Hlk & Hs) Hl IH]; intros e k H; cbn [foldl]; [done|].
  cbn [fst snd] in *. subst fd'. apply IH. by apply rel_cancel_one.
Qed.

(** ** Runs *)

Abbreviation Op := Kqueue.Op.

(** An operation's result, and the completions of a wait. *)
Definition Outcome : Type := Result unit * list Completion.

Definition eperform (fuel : nat) (op : Op) (e : Epoll.EpollBackend) : option (Outcome * Epoll.EpollBackend) :=
  let one '(r, e) := Some (r, [], e) in
  match op with
  | Kqueue.OAttach fd i u => one (Epoll.attach ke fd i u e)
  | Kqueue.OModify fd i u => one (Epoll.modify ke fd i u e)
  | Kqueue.ODetach fd => one (Epoll.detach ke fd e)
  | Kqueue.OInbox fd cap => Some (Val tt, [], Epoll.set_fd_inbox fd cap e)
  | Kqueue.ORecv u fd len => one (Epoll.submit_recv ke u fd len e)
  | Kqueue.OSendv u fd iov => one (Epoll.submit_sendv ke u fd iov e)
  | Kqueue.OAccept u fd => one (Epoll.submit_accept ke u fd e)
  | Kqueue.OConnect u fd => one (Epoll.submit_connect ke u fd e)
  | Kqueue.OCancel u => one (Epoll.cancel ke u e)
  | Kqueue.OWake => Some (Val tt, [], Epoll.wake ke e)
  | Kqueue.OWait cap timeout => '(o, e) ← Epoll.wait ke false fuel (-1) cap timeout e; Some (Val tt, o, e)
  end.

Definition kperform (fuel : nat) (op : Op) (k : Kqueue.KqueueBackend) : option (Outcome * Kqueue.KqueueBackend) :=
  let one '(r, k) := Some (r, [], k) in
  match op with
  | Kqueue.OAttach fd i u => one (Kqueue.attach kk fd i u k)
  | Kqueue.OModify fd i u => one (Kqueue.modify kk fd i u k)
  | Kqueue.ODetach fd => one (Kqueue.detach fd k)
  | Kqueue.OInbox fd cap => Some (Val tt, [], Kqueue.set_fd_inbox fd cap k)
  | Kqueue.ORecv u fd len => one (Kqueue.submit_recv kk u fd len k)
  | Kqueue.OSendv u fd iov => one (Kqueue.submit_sendv kk u fd iov k)
  | Kqueue.OAccept u fd => one (Kqueue.submit_accept kk u fd k)
  | Kqueue.OConnect u fd => one (Kqueue.submit_connect kk u fd k)
  | Kqueue.OCancel u => one (Kqueue.cancel kk u k)
  | Kqueue.OWake => Some (Val tt, [], Kqueue.wake kk k)
  | Kqueue.OWait cap timeout => '(o, k) ← Kqueue.wait kk fuel cap timeout k; Some (Val tt, o, k)
  end.

Fixpoint runs {S} (perform : Op -> S -> option (Outcome * S)) (ops : list Op) (x : S) : option (list Outcome * S) :=
  match ops with
  | [] => Some ([], x)
  | op :: ops => '(o, x) ← perform op x; '(os, x) ← runs perform ops x; Some (o :: os, x)
  end.

Definition good_op (op : Op) : Prop := match op with Kqueue.ORecv _ _ len => 0 <= len < 2 ^ 31 | _ => True end.

Definition same_outcome (x y : Outcome) : Prop := x.1 = y.1 /\ outs x.2 y.2.
Definition performed (x : Outcome * Epoll.EpollBackend) (y : Outcome * Kqueue.KqueueBackend) : Prop :=
  same_outcome x.1 y.1 /\ rel x.2 y.2.

Lemma performed_one (x : Result unit * Epoll.EpollBackend) (y : Result unit * Kqueue.KqueueBackend) :
  fst x = fst y -> rel (snd x) (snd y) ->
  both performed (let '(r, e) := x in Some (r, [], e)) (let '(r, k) := y in Some (r, [], k)).
Proof. destruct x, y. cbn. intros -> H. by split. Qed.

Lemma rel_perform fuel op e k : good_op op -> rel e k -> both performed (eperform fuel op e) (kperform fuel op k).
Proof.
  intros Hop H. destruct op; cbn [eperform kperform good_op] in *.
  - destruct (fd_ref_like e k fd H) as [Hl Hs]. destruct (rel_submit e k fd _ _ H (like_watch i u _ _ Hl) Hs) as [H1 H2].
    apply performed_one; [exact H1|exact H2].
  - assert (shape <$> Epoll.fds_ e !! fd = strip <$> Kqueue.fds_ k !! fd) as Hl
      by (rewrite <- !lookup_fmap; by rewrite (r_fds _ _ H)).
    unfold Epoll.modify, Kqueue.modify.
    destruct (Epoll.fds_ e !! fd) as [s|] eqn:Es, (Kqueue.fds_ k !! fd) as [t|] eqn:Et; try done.
    apply (inj Some), eq_sym in Hl. pose proof (r_sized _ _ H _ _ Es) as Hs.
    unfold Kqueue.put_updated. destruct (Kqueue.update_filters _ _ _ _) as [t1 k1] eqn:E1.
    destruct (rel_update e k fd _ _ t1 k1 H (like_watch i u _ _ Hl) E1) as [H1 Hl1]. split; [done|]. by apply rel_put.
  - unfold Epoll.detach, Kqueue.detach. assert (rel (Epoll.set_fds (delete fd (Epoll.fds_ e)) e) (Kqueue.set_fds (delete fd (Kqueue.fds_ k)) k)) as H1.
    { destruct H. constructor; try done; cbn; [rewrite !fmap_delete; by rewrite r_fds0|by apply map_Forall_delete]. }
    destruct (Epoll.fds_ e !! fd) as [s|] eqn:Es; cbn.
    + split; [done|]. destruct (Epoll.registered s); [|done]. cbn [snd]. exact (rel_log_e _ _ (Epoll.CCtlDel fd) _ H1 eq_refl).
    + split; [done|]. cbn [snd]. rewrite (delete_id (Epoll.fds_ e)) in H1 by done. by destruct e.
  - destruct (fd_ref_like e k fd H) as [Hl Hs]. split; [done|]. apply rel_put; [done|by apply like_inbox|done].
  - destruct (fd_ref_like e k fd H) as [Hl Hs]. destruct (like_fields _ _ Hl) as (_ & _ & Hra & _).
    unfold Epoll.submit_recv, Kqueue.submit_recv. rewrite Hra. destruct (Epoll.recv_armed _).
    + split; [done|]. by apply rel_put.
    + destruct (rel_submit e k fd (Epoll.set_recv true u len (Epoll.fd_ref e fd)) _ H (like_recv true u len _ _ Hl) Hop) as [H1 H2].
      exact (performed_one _ (Val tt, Kqueue.put_updated kk fd (Kqueue.set_recv true u len (Kqueue.fd_ref k fd)) k) H1 H2).
  - destruct (rel_sendv u fd iov e k H) as [H1 H2]. by apply performed_one.
  - destruct (fd_ref_like e k fd H) as [Hl Hs]. destruct (rel_submit e k fd _ _ H (like_accept true u _ _ Hl) Hs) as [H1 H2].
    apply performed_one; [exact H1|exact H2].
  - destruct (rel_connect u fd e k H) as [H1 H2]. by apply performed_one.
  - pose proof (rel_cancel u e k H) as H1. by split.
  - split; [done|]. cbn [snd]. apply rel_log_k; [|done]. by apply rel_log_e.
  - pose proof (rel_wait fuel cap timeout e k H) as Hw.
    destruct (Epoll.wait _ _ _ _ _ _ _) as [[o e1]|], (Kqueue.wait _ _ _ _ _) as [[o' k1]|]; try done.
    destruct Hw as [Ho H1]. by split.
Qed.

Lemma rel_runs fuel ops : Forall good_op ops -> forall e k, rel e k ->
  both (fun x y => Forall2 same_outcome x.1 y.1 /\ rel x.2 y.2) (runs (eperform fuel) ops e) (runs (kperform fuel) ops k).
Proof.
  induction 1 as [|op ops Hop Hops IH]; intros e k H; cbn [runs]; [done|].
  pose proof (rel_perform fuel op e k Hop H) as Hp.
  destruct (eperform fuel op e) as [[o e1]|], (kperform fuel op k) as [[o' k1]|]; try done. destruct Hp as [Ho H1].
  cbn [mbind option_bind fst snd] in *. specialize (IH e1 k1 H1).
  destruct (runs (eperform fuel) ops e1) as [[os e2]|], (runs (kperform fuel) ops k1) as [[os' k2]|]; try done.
  destruct IH as [Hos H2]. split; [by constructor|done].
Qed.

Lemma rel_start : rel Epoll.epoll0 (Kqueue.KqueueBackend_ctor kk).
Proof.
  unfold Kqueue.KqueueBackend_ctor, Kqueue.syscall_, Kqueue.syscall. cbn [Kqueue.kq_].
  pose proof (logs_kqueue [] [] Kqueue.CKqueue (kk [] Kqueue.CKqueue) logs_nil eq_refl) as H1.
  destruct (0 <=? _); constructor; try done; try (by rewrite !fmap_empty).
  exact (logs_kqueue _ _ (Kqueue.CKevent Kqueue.kWakeIdent Kqueue.FUser true) _ H1 eq_refl).
Qed.

End Simulation.

(** ** The equivalence *)

(** C26: On the same operations, over kernels that answer alike and report readiness
    without errors or hang-ups, the kqueue and the epoll backend return the same
    results and the same completions from every wait, up to the numbering of errors,
    and make the same calls on sockets in the same order; and one runs out of fuel
    only if the other does. *)
Theorem kqueue_runs_like_epoll err ke kk fuel ops :
  errno_map err -> same_kernels err ke kk -> Forall good_op ops ->
  both (fun x y => Forall2 (same_outcome err) x.1 y.1 /\ logs err (Epoll.log x.2) (Kqueue.log y.2))
    (runs (eperform ke fuel) ops Epoll.epoll0) (runs (kperform kk fuel) ops (Kqueue.KqueueBackend_ctor kk)).
Proof.
  intros EM SK Hops. pose proof (rel_runs err EM ke kk SK fuel ops Hops _ _ (rel_start err kk)) as H.
  destruct (runs (eperform ke fuel) ops _) as [[os e]|], (runs (kperform kk fuel) ops _) as [[os' k]|]; try done.
  destruct H as [Hos H]. split; [done|]. exact (r_logs _ _ _ H).
Qed.

(** ** Witness *)

Definition demo_err (x : Z) : Z :=
  if x =? 11 then 35 else if x =? 35 then 11 else if x =? 115 then 36 else if x =? 36 then 115
  else if x =? 125 then 89 else if x =? 89 then 125 else x.

(** Both kernels know descriptor 5, always ready both ways, which takes one byte of a
    vector and all of a single buffer and yields two bytes per receive. *)
Definition demo_ret (eagain einprogress : Z) (c : Epoll.Call) : Z :=
  match c with
  | Epoll.CSendmsg _ _ => 1
  | Epoll.CSend _ bs => zlen bs
  | Epoll.CRecv _ len _ => Z.min 2 (Z.max len 0)
  | Epoll.CAccept _ => - eagain
  | Epoll.CConnect _ => - einprogress
  | Epoll.CWait _ => 2
  | _ => 0
  end.
Definition demo_data (c : Epoll.Call) : list Z := match c with Epoll.CRecv _ len _ => take (Z.to_nat len) [7; 8] | _ => [] end.
Definition demo_events (c : Epoll.Call) : list (Z * Z) :=
  match c with Epoll.CWait _ => [(5, Epoll.EPOLLIN); (5, Epoll.EPOLLOUT)] | _ => [] end.
Definition demo_epoll (_ : Epoll.Log) (c : Epoll.Call) : Epoll.Answer :=
  Epoll.mkAns (demo_ret 11 115 c) (demo_data c) [] false [] (demo_events c).
Definition demo_kqueue (_ : Kqueue.Log) (c : Kqueue.Call) : Kqueue.Answer :=
  match kcall c with
  | Some c => Kqueue.mkAns (demo_ret 35 36 c) (demo_data c) [] false (map kev (demo_events c))
  | None => Kqueue.ans 0
  end.

Lemma demo_errno_map : errno_map demo_err.
Proof.
  unfold demo_err. split; try done; intros x;
    repeat match goal with |- context [?a =? ?b] => destruct (Z.eqb_spec a b) end;
    unfold Kqueue.EAGAIN, Kqueue.EINTR, Kqueue.EINPROGRESS, Epoll.EAGAIN, Epoll.EINTR, Epoll.EINPROGRESS; lia.
Qed.

Lemma demo_same_kernels : same_kernels demo_err demo_epoll demo_kqueue.
Proof.
  split; [|done]. intros l l' c c' _ Hc. unfold demo_kqueue. rewrite Hc. unfold demo_epoll, same_answer.
  assert (Forall clean (demo_events c)) as Hev.
  { destruct c; cbn; try constructor; [split; [done|by left]|constructor; [split; [done|by right]|constructor]]. }
  split; [|split; [done|]; split; [done|]; split; [done|]; split; [done|]; split; [done|]; by destruct c; cbn; try lia].
  destruct c; cbn; try (split; lia); try (left; split; [lia|reflexivity]).
  - left. split; [apply zlen_nonneg|reflexivity].
  - right. exists 11. split; [lia|split; reflexivity].
  - right. exists 115. split; [lia|split; reflexivity].
Qed.

Definition demo_ops : list Kqueue.Op :=
  [Kqueue.OConnect 2 5; Kqueue.ORecv 4 5 6; Kqueue.OSendv 6 5 [[1; 2]; [3]]; Kqueue.OAccept 1 3; Kqueue.OWait 8 0; Kqueue.OCancel 1; Kqueue.OWait 8 0].

Lemma kqueue_runs_like_epoll_witness :
  (fmap fst (runs (kperform demo_kqueue 20) demo_ops (Kqueue.KqueueBackend_ctor demo_kqueue))
   = Some [(Val tt, []); (Val tt, []); (Val tt, []); (Val tt, []); (Val tt, [plain 4 6; plain 2 0; plain 6 2]);
           (Val tt, []); (Val tt, [plain 1 (-89)])])
  /\ both (fun x y => Forall2 (same_outcome demo_err) x.1 y.1 /\ logs demo_err (Epoll.log x.2) (Kqueue.log y.2))
       (runs (eperform demo_epoll 20) demo_ops Epoll.epoll0) (runs (kperform demo_kqueue 20) demo_ops (Kqueue.KqueueBackend_ctor demo_kqueue)).
Proof.
  split; [vm_compute; reflexivity|].
  apply (kqueue_runs_like_epoll demo_err demo_epoll demo_kqueue 20 demo_ops);
    [exact demo_errno_map|exact demo_same_kernels|].
  unfold demo_ops. repeat constructor; cbn; lia.
Defined.

End Port.
