(* ===== verification/Uring.v ===== *)
(** * The io_uring backend

    [UringBackend] of [src/include/afx/backend/uring.hpp] and
    [src/src/backend/uring.cpp]: operations are staged as entries of the submission
    ring, results are read from the completion ring; both are shared with the
    kernel.  The kernel is a parameter: what it does inside the n-th
    [io_uring_enter] (how many entries it takes, which completions it posts, what
    it returns), and steps of its own between the program's.  [issued], [taken],
    [posted] and [drained] are the histories of the two rings. *)

From stdpp Require Import base option gmap list.
From Stdlib Require Import ZArith Lia.
From S2P Require Import Prelude Backend Epoll.
Local Open Scope Z_scope.

Module Uring.

(** ** Platform constants and tags *)

Definition POLLIN : Z := 1.
Definition POLLPRI : Z := 2.
Definition POLLOUT : Z := 4.
Definition POLLERR : Z := 8.
Definition POLLHUP : Z := 16.
Definition POLLNVAL : Z := 32.
Definition POLLRDNORM : Z := 64.
Definition POLLRDBAND : Z := 128.
Definition POLLWRNORM : Z := 256.
Definition POLLWRBAND : Z := 512.
Definition POLLRDHUP : Z := 8192.
Definition ECANCELED : Z := 125.
Definition IORING_CQE_F_BUFFER : Z := 1.
Definition IORING_CQE_F_MORE : Z := 2.
Definition kMsgringSlots : Z := 64.

Definition kInternalKind : Z := 255.
Definition kWakeTag : UserData := ud_make kInternalKind 0 0.
Definition kCancelTag : UserData := ud_make kInternalKind 0 1.
Definition kRemoveTag : UserData := ud_make kInternalKind 0 2.
Definition kMsgRingWakeTag : UserData := ud_make kInternalKind 0 3.
Definition kMsgRingDoneSub : Z := 4.

Definition is_internal (tag : UserData) : bool := Z.shiftr tag 56 =? kInternalKind.

(** [v & mask] as a condition. *)
Definition bits (v mask : Z) : bool := negb (Z.land v mask =? 0).

Definition to_poll (i : Interest) : Z :=
  Z.lor (if has i Readable then POLLIN else 0) (if has i Writable then POLLOUT else 0).

Definition to_ready (res : Z) : Z :=
  if res <? 0 then ReadyErr
  else
    Z.lor (Z.lor (Z.lor
      (if bits res (Z.lor (Z.lor (Z.lor POLLIN POLLRDNORM) POLLRDBAND) POLLPRI) then ReadyRead else 0)
      (if bits res (Z.lor (Z.lor POLLOUT POLLWRNORM) POLLWRBAND) then ReadyWrite else 0))
      (if bits res (Z.lor POLLERR POLLNVAL) then ReadyErr else 0))
      (if bits res (Z.lor POLLHUP POLLRDHUP) then ReadyHangup else 0).

(** ** The submission ring *)

(** A submission entry: the fields that its operation sets.  Memory the kernel
    reads later is named by the tag or the context that holds it. *)
Inductive Sqe :=
  | SPollAdd (fd events : Z) (u : UserData)
  | SPollRemove (addr : UserData)
  | SRecv (fd len : Z) (u : UserData)
  | SRecvSelect (fd len : Z) (u : UserData)
  | SRecvmsg (fd ctx : Z) (u : UserData)
  | SSend (fd : Z) (bytes : list Z) (u : UserData)
  | SSendmsg (fd : Z) (u : UserData)
  | SAccept (fd : Z) (multishot : bool) (u : UserData)
  | SConnect (fd : Z) (u : UserData)
  | SCancel (addr : UserData)
  | SMsgRing (target slot : Z).

Record Sq := mkSq {
  sq_head : Z;               (* the kernel's *)
  sq_tail : Z;
  sq_entries : Z;
  sq_array : gmap Z Z;
  sqes : gmap Z Sqe;
  pending : Z;               (* [pending_] *)
  issued : list Sqe;
  taken : list Sqe }.

Definition sq0 (entries : Z) : Sq := mkSq 0 0 entries ∅ ∅ 0 [] [].

(** [alloc_sqe] and the stores of the operation into the entry it returned. *)
Definition stage (s : Sqe) (q : Sq) : option Sq :=
  let slot := u32 (sq_tail q + pending q) in
  if sq_entries q <=? u32 (slot - sq_head q) then None
  else
    let idx := Z.land slot (sq_entries q - 1) in
    Some (mkSq (sq_head q) (sq_tail q) (sq_entries q) (<[idx := idx]> (sq_array q)) (<[idx := s]> (sqes q))
               (u32 (pending q + 1)) (issued q ++ [s]) (taken q)).

Definition commit_sqes (q : Sq) : Sq :=
  if pending q =? 0 then q
  else mkSq (sq_head q) (u32 (sq_tail q + pending q)) (sq_entries q) (sq_array q) (sqes q) 0 (issued q) (taken q).

(** The kernel takes the next entry that the tail makes visible. *)
Definition kernel_take (q : Sq) : Sq :=
  if sq_head q =? sq_tail q then q
  else
    match sq_array q !! Z.land (sq_head q) (sq_entries q - 1) with
    | Some i =>
        match sqes q !! i with
        | Some s => mkSq (u32 (sq_head q + 1)) (sq_tail q) (sq_entries q) (sq_array q) (sqes q) (pending q) (issued q) (taken q ++ [s])
        | None => q
        end
    | None => q
    end.

(** ** The completion ring *)

(** A completion entry, with what the kernel wrote elsewhere for it: the bytes of
    a provided buffer, and the control data of a [recvmsg]. *)
Record Cqe := mkCqe {
  user_data : UserData;
  res : Z;
  cflags : Z;
  payload : list Z;
  rights : list Z;
  ctrunc : bool;
  rx_times : list (Z * Z);
  controllen : Z }.

Record Cq := mkCq {
  cq_head : Z;
  cq_tail : Z;               (* the kernel's *)
  cq_entries : Z;
  cqes : gmap Z Cqe;
  cq_overflow : Z;
  posted : list Cqe;
  drained : list Cqe }.

Definition cq0 (entries : Z) : Cq := mkCq 0 0 entries ∅ 0 [] [].

(** The kernel posts a completion, or counts it as dropped when there is no room. *)
Definition kernel_post (c : Cqe) (q : Cq) : Cq :=
  if cq_entries q <=? u32 (cq_tail q - cq_head q) then
    mkCq (cq_head q) (cq_tail q) (cq_entries q) (cqes q) (u32 (cq_overflow q + 1)) (posted q) (drained q)
  else
    mkCq (cq_head q) (u32 (cq_tail q + 1)) (cq_entries q) (<[Z.land (cq_tail q) (cq_entries q - 1) := c]> (cqes q))
         (cq_overflow q) (posted q ++ [c]) (drained q).

(** ** The backend *)

(** A provided-buffer ring: the descriptor ring, [tail], what the kernel wrote
    into each buffer, and the size of one. *)
Record Pbuf := mkPbuf {
  p_entries : Z;
  p_tail : Z;
  p_bufs : gmap Z Z;
  p_mem : gmap Z (list Z);
  p_size : Z }.

(** [RecvmsgCtx]: [inbox] is the capacity of the registered [FdInbox], if any, and
    [room] is [msg.msg_controllen], which the kernel overwrites. *)
Record RecvmsgCtx := mkCtx { ts_on : bool; inbox : option nat; room : Z; got_fds : list Z }.

Definition cbuf_size : Z := 128.
Definition ctx0 : RecvmsgCtx := mkCtx false None 0 [].

Record UringBackend := mkU {
  sq : Sq;
  cq : Cq;
  sqpoll_ : bool;
  multishot_accept_ : bool;
  wake_armed_ : bool;
  saw_wake_ : bool;
  watch_ : gmap Z UserData;
  swallow_ : gset Z;
  armed_accepts_ : gset Z;
  sendv_ : gmap Z (list (list Z));
  connect_ : gset Z;
  pbuf_ : option Pbuf;
  recv_dst_ : gmap Z Z;          (* tag to the size of the caller's span *)
  spans : gmap Z (list Z);       (* what was copied to the span of a tag *)
  ts_ctx_ : gmap Z Z;            (* descriptor to context *)
  contexts : gmap Z RecvmsgCtx;  (* the contexts that exist *)
  fresh_ctx : Z;
  ts_pending_ : gmap Z Z;        (* tag to context *)
  msgring_ok_ : bool;
  msgring_fb_ : gmap Z Z;        (* slot to the mailbox to wake instead *)
  msgring_head_ : Z;
  msgring_sends_ : Z;
  msgring_fallbacks_ : Z;
  woken : list Z;                (* mailboxes woken through their eventfd *)
  closed : list Z;               (* surplus descriptors closed *)
  enters : list (Z * Z * Z) }.   (* io_uring_enter calls: submit, min_complete, answer *)

Definition set_sq v b := mkU v (cq b) (sqpoll_ b) (multishot_accept_ b) (wake_armed_ b) (saw_wake_ b) (watch_ b) (swallow_ b) (armed_accepts_ b) (sendv_ b) (connect_ b) (pbuf_ b) (recv_dst_ b) (spans b) (ts_ctx_ b) (contexts b) (fresh_ctx b) (ts_pending_ b) (msgring_ok_ b) (msgring_fb_ b) (msgring_head_ b) (msgring_sends_ b) (msgring_fallbacks_ b) (woken b) (closed b) (enters b).
Definition set_cq v b := mkU (sq b) v (sqpoll_ b) (multishot_accept_ b) (wake_armed_ b) (saw_wake_ b) (watch_ b) (swallow_ b) (armed_accepts_ b) (sendv_ b) (connect_ b) (pbuf_ b) (recv_dst_ b) (spans b) (ts_ctx_ b) (contexts b) (fresh_ctx b) (ts_pending_ b) (msgring_ok_ b) (msgring_fb_ b) (msgring_head_ b) (msgring_sends_ b) (msgring_fallbacks_ b) (woken b) (closed b) (enters b).
Definition set_wake a s b := mkU (sq b) (cq b) (sqpoll_ b) (multishot_accept_ b) a s (watch_ b) (swallow_ b) (armed_accepts_ b) (sendv_ b) (connect_ b) (pbuf_ b) (recv_dst_ b) (spans b) (ts_ctx_ b) (contexts b) (fresh_ctx b) (ts_pending_ b) (msgring_ok_ b) (msgring_fb_ b) (msgring_head_ b) (msgring_sends_ b) (msgring_fallbacks_ b) (woken b) (closed b) (enters b).
Definition set_watch w s b := mkU (sq b) (cq b) (sqpoll_ b) (multishot_accept_ b) (wake_armed_ b) (saw_wake_ b) w s (armed_accepts_ b) (sendv_ b) (connect_ b) (pbuf_ b) (recv_dst_ b) (spans b) (ts_ctx_ b) (contexts b) (fresh_ctx b) (ts_pending_ b) (msgring_ok_ b) (msgring_fb_ b) (msgring_head_ b) (msgring_sends_ b) (msgring_fallbacks_ b) (woken b) (closed b) (enters b).
Definition set_ops a v c b := mkU (sq b) (cq b) (sqpoll_ b) (multishot_accept_ b) (wake_armed_ b) (saw_wake_ b) (watch_ b) (swallow_ b) a v c (pbuf_ b) (recv_dst_ b) (spans b) (ts_ctx_ b) (contexts b) (fresh_ctx b) (ts_pending_ b) (msgring_ok_ b) (msgring_fb_ b) (msgring_head_ b) (msgring_sends_ b) (msgring_fallbacks_ b) (woken b) (closed b) (enters b).
Definition set_recv p d m b := mkU (sq b) (cq b) (sqpoll_ b) (multishot_accept_ b) (wake_armed_ b) (saw_wake_ b) (watch_ b) (swallow_ b) (armed_accepts_ b) (sendv_ b) (connect_ b) p d m (ts_ctx_ b) (contexts b) (fresh_ctx b) (ts_pending_ b) (msgring_ok_ b) (msgring_fb_ b) (msgring_head_ b) (msgring_sends_ b) (msgring_fallbacks_ b) (woken b) (closed b) (enters b).
Definition set_ctx t c f p b := mkU (sq b) (cq b) (sqpoll_ b) (multishot_accept_ b) (wake_armed_ b) (saw_wake_ b) (watch_ b) (swallow_ b) (armed_accepts_ b) (sendv_ b) (connect_ b) (pbuf_ b) (recv_dst_ b) (spans b) t c f p (msgring_ok_ b) (msgring_fb_ b) (msgring_head_ b) (msgring_sends_ b) (msgring_fallbacks_ b) (woken b) (closed b) (enters b).
Definition set_msg f h n k w b := mkU (sq b) (cq b) (sqpoll_ b) (multishot_accept_ b) (wake_armed_ b) (saw_wake_ b) (watch_ b) (swallow_ b) (armed_accepts_ b) (sendv_ b) (connect_ b) (pbuf_ b) (recv_dst_ b) (spans b) (ts_ctx_ b) (contexts b) (fresh_ctx b) (ts_pending_ b) (msgring_ok_ b) f h n k w (closed b) (enters b).
Definition add_closed l b := mkU (sq b) (cq b) (sqpoll_ b) (multishot_accept_ b) (wake_armed_ b) (saw_wake_ b) (watch_ b) (swallow_ b) (armed_accepts_ b) (sendv_ b) (connect_ b) (pbuf_ b) (recv_dst_ b) (spans b) (ts_ctx_ b) (contexts b) (fresh_ctx b) (ts_pending_ b) (msgring_ok_ b) (msgring_fb_ b) (msgring_head_ b) (msgring_sends_ b) (msgring_fallbacks_ b) (woken b) (closed b ++ l) (enters b).
Definition add_enter e b := mkU (sq b) (cq b) (sqpoll_ b) (multishot_accept_ b) (wake_armed_ b) (saw_wake_ b) (watch_ b) (swallow_ b) (armed_accepts_ b) (sendv_ b) (connect_ b) (pbuf_ b) (recv_dst_ b) (spans b) (ts_ctx_ b) (contexts b) (fresh_ctx b) (ts_pending_ b) (msgring_ok_ b) (msgring_fb_ b) (msgring_head_ b) (msgring_sends_ b) (msgring_fallbacks_ b) (woken b) (closed b) (enters b ++ [e]).

(** What the kernel does inside an [io_uring_enter]: its answer, how many entries
    it could take, and what it posted. *)
Record Entered := mkEntered { e_ret : Z; e_take : nat; e_posts : list Cqe }.

Section Backend.
Context (kernel : nat -> Entered) (wake_fd : Z).

(** Without a polling thread the kernel takes no more entries than the call
    submits. *)
Definition uring_enter (submit min_complete : Z) (b : UringBackend) : Z * UringBackend :=
  let a := kernel (length (enters b)) in
  let n := if sqpoll_ b then e_take a else Nat.min (e_take a) (Z.to_nat submit) in
  let b := set_sq (Nat.iter n kernel_take (sq b)) b in
  let b := set_cq (foldl (fun q c => kernel_post c q) (cq b) (e_posts a)) b in
  (e_ret a, add_enter (submit, min_complete, e_ret a) b).

Definition flush_full_sq (b : UringBackend) : Result unit * UringBackend :=
  let sub := pending (sq b) in
  let b := set_sq (commit_sqes (sq b)) b in
  if sub =? 0 then (Val tt, b)
  else
    let '(r, b) := uring_enter sub 0 b in
    if r <? 0 then (Bad (errno_error (- r)), b) else (Val tt, b).

(** The idiom of every operation: an entry, after a flush if there is no room. *)
Definition stage_or_flush (s : Sqe) (b : UringBackend) : Result unit * UringBackend :=
  match stage s (sq b) with
  | Some q => (Val tt, set_sq q b)
  | None =>
      match flush_full_sq b with
      | (Bad e, b) => (Bad e, b)
      | (Val _, b) =>
          match stage s (sq b) with
          | Some q => (Val tt, set_sq q b)
          | None => (Bad (make_error Internal Full), b)
          end
      end
  end.

Definition arm_wake_poll (b : UringBackend) : bool * UringBackend :=
  match stage (SPollAdd wake_fd POLLIN kWakeTag) (sq b) with
  | Some q => (true, set_wake true (saw_wake_ b) (set_sq q b))
  | None => (false, b)
  end.

(** ** Watches *)

Definition attach (fd : Z) (i : Interest) (u : UserData) (b : UringBackend) : Result unit * UringBackend :=
  let '(r, b) :=
    match watch_ b !! fd with
    | Some old => stage_or_flush (SPollRemove old) b
    | None => (Val tt, b)
    end in
  match r with
  | Bad e => (Bad e, b)
  | Val _ =>
      let '(r, b) := stage_or_flush (SPollAdd fd (to_poll i) u) b in
      match r with
      | Bad e => (Bad e, b)
      | Val _ => (Val tt, set_watch (<[fd := u]> (watch_ b)) (swallow_ b) b)
      end
  end.

Definition modify (fd : Z) (i : Interest) (u : UserData) (b : UringBackend) : Result unit * UringBackend :=
  match watch_ b !! fd with
  | None => (Bad (make_error Internal NotFound), b)
  | Some old =>
      let '(r, b) := stage_or_flush (SPollRemove old) b in
      match r with
      | Bad e => (Bad e, b)
      | Val _ =>
          let b := set_watch (watch_ b) ({[old]} ∪ swallow_ b) b in
          let '(r, b) := stage_or_flush (SPollAdd fd (to_poll i) u) b in
          match r with
          | Bad e => (Bad e, b)
          | Val _ => (Val tt, set_watch (<[fd := u]> (watch_ b)) (swallow_ b) b)
          end
      end
  end.

(** [ts_ctx_.erase(fd)]: the context is destroyed. *)
Definition erase_ctx (fd : Z) (b : UringBackend) : UringBackend :=
  match ts_ctx_ b !! fd with
  | Some c => set_ctx (delete fd (ts_ctx_ b)) (delete c (contexts b)) (fresh_ctx b) (ts_pending_ b) b
  | None => b
  end.

Definition detach (fd : Z) (b : UringBackend) : Result unit * UringBackend :=
  match watch_ b !! fd with
  | None => (Bad (make_error Internal NotFound), b)
  | Some old =>
      let '(r, b) := stage_or_flush (SPollRemove old) b in
      match r with
      | Bad e => (Bad e, b)
      | Val _ => (Val tt, erase_ctx fd (set_watch (delete fd (watch_ b)) (swallow_ b) b))
      end
  end.

(** [ts_ctx_[fd]]: the context, created if there is none. *)
Definition ctx_of (fd : Z) (b : UringBackend) : Z * RecvmsgCtx * UringBackend :=
  match ts_ctx_ b !! fd with
  | Some c => (c, default ctx0 (contexts b !! c), b)
  | None =>
      let c := fresh_ctx b in
      (c, ctx0, set_ctx (<[fd := c]> (ts_ctx_ b)) (<[c := ctx0]> (contexts b)) (c + 1) (ts_pending_ b) b)
  end.

Definition put_ctx (c : Z) (x : RecvmsgCtx) (b : UringBackend) : UringBackend :=
  set_ctx (ts_ctx_ b) (<[c := x]> (contexts b)) (fresh_ctx b) (ts_pending_ b) b.

Definition set_timestamping (fd : Z) (on : bool) (b : UringBackend) : UringBackend :=
  let '(c, x, b) := ctx_of fd b in
  let b := put_ctx c (mkCtx on (inbox x) (room x) (got_fds x)) b in
  match on, inbox x with
  | false, None => erase_ctx fd b
  | _, _ => put_ctx c (mkCtx on (inbox x) cbuf_size (got_fds x)) b
  end.

Definition set_fd_inbox (fd : Z) (cap : option nat) (b : UringBackend) : UringBackend :=
  let '(c, x, b) := ctx_of fd b in
  let b := put_ctx c (mkCtx (ts_on x) cap (room x) (got_fds x)) b in
  match cap, ts_on x with
  | None, false => erase_ctx fd b
  | _, _ => put_ctx c (mkCtx (ts_on x) cap cbuf_size (got_fds x)) b
  end.

(** ** Operations *)

(** A submission whose bookkeeping [f] follows once its entry is staged. *)
Definition submit (s : Sqe) (f : UringBackend -> UringBackend) (b : UringBackend) : Result unit * UringBackend :=
  match stage_or_flush s b with
  | (Val _, b) => (Val tt, f b)
  | (Bad e, b) => (Bad e, b)
  end.

Definition invalid : Result unit := Bad (make_error Internal Invalid).

Definition submit_recv (u : UserData) (fd len : Z) (b : UringBackend) : Result unit * UringBackend :=
  match pbuf_ b, recv_dst_ b !! u with
  | Some _, Some _ => (invalid, b)
  | _, _ =>
      match ts_ctx_ b !! fd, pbuf_ b with
      | Some c, _ =>
          submit (SRecvmsg fd c u) (fun b => set_ctx (ts_ctx_ b) (contexts b) (fresh_ctx b) (<[u := c]> (ts_pending_ b)) b) b
      | None, Some p =>
          submit (SRecvSelect fd (u32 (p_size p)) u) (fun b => set_recv (pbuf_ b) (<[u := len]> (recv_dst_ b)) (spans b) b) b
      | None, None => submit (SRecv fd (u32 len) u) id b
      end
  end.

Definition submit_send (u : UserData) (fd : Z) (bytes : list Z) (b : UringBackend) : Result unit * UringBackend :=
  submit (SSend fd (take (Z.to_nat (u32 (zlen bytes))) bytes) u) id b.

Definition submit_sendv (u : UserData) (fd : Z) (iov : list (list Z)) (b : UringBackend) : Result unit * UringBackend :=
  if 64 <? zlen iov then (invalid, b)
  else
    match sendv_ b !! u with
    | Some _ => (invalid, b)
    | None => submit (SSendmsg fd u) (fun b => set_ops (armed_accepts_ b) (<[u := iov]> (sendv_ b)) (connect_ b) b) b
    end.

Definition submit_accept (u : UserData) (fd : Z) (b : UringBackend) : Result unit * UringBackend :=
  if multishot_accept_ b && bool_decide (u ∈ armed_accepts_ b) then (invalid, b)
  else
    submit (SAccept fd (multishot_accept_ b) u)
      (fun b => if multishot_accept_ b then set_ops ({[u]} ∪ armed_accepts_ b) (sendv_ b) (connect_ b) b else b) b.

Definition submit_connect (u : UserData) (fd : Z) (b : UringBackend) : Result unit * UringBackend :=
  if bool_decide (u ∈ connect_ b) then (invalid, b)
  else submit (SConnect fd u) (fun b => set_ops (armed_accepts_ b) (sendv_ b) ({[u]} ∪ connect_ b) b) b.

Definition cancel (u : UserData) (b : UringBackend) : Result unit * UringBackend := submit (SCancel u) id b.

(** The wake of another event manager through its ring, [target] its mailbox. *)
Definition msg_ring_wake (target_fd target : Z) (b : UringBackend) : bool * UringBackend :=
  if negb (msgring_ok_ b) || (target_fd <? 0) then (false, b)
  else
    let slot := Z.land (msgring_head_ b) (kMsgringSlots - 1) in
    let b := set_msg (msgring_fb_ b) (u32 (msgring_head_ b + 1)) (msgring_sends_ b) (msgring_fallbacks_ b) (woken b) b in
    match msgring_fb_ b !! slot with
    | Some _ => (false, b)
    | None =>
        match stage_or_flush (SMsgRing target_fd slot) b with
        | (Bad _, b) => (false, b)
        | (Val _, b) =>
            (true, set_msg (<[slot := target]> (msgring_fb_ b)) (msgring_head_ b) (u64 (msgring_sends_ b + 1))
                           (msgring_fallbacks_ b) (woken b) b)
        end
    end.

(** ** Completions *)

Definition provide_buffer (bid : Z) (p : Pbuf) : Pbuf :=
  mkPbuf (p_entries p) (u16 (p_tail p + 1)) (<[Z.land (p_tail p) (p_entries p - 1) := bid]> (p_bufs p)) (p_mem p) (p_size p).

(** The completion of one of the backend's own entries. *)
Definition internal_cqe (c : Cqe) (b : UringBackend) : UringBackend :=
  if user_data c =? kWakeTag then
    set_wake (if bits (cflags c) IORING_CQE_F_MORE then wake_armed_ b else false) true b
  else if user_data c =? kMsgRingWakeTag then set_wake (wake_armed_ b) true b
  else if u32 (user_data c) =? kMsgRingDoneSub then
    let slot := Z.land (Z.shiftr (user_data c) 32) (kMsgringSlots - 1) in
    let '(k, w) :=
      if res c <? 0 then
        (u64 (msgring_fallbacks_ b + 1),
         match msgring_fb_ b !! slot with Some t => woken b ++ [t] | None => woken b end)
      else (msgring_fallbacks_ b, woken b) in
    set_msg (delete slot (msgring_fb_ b)) (msgring_head_ b) (msgring_sends_ b) k w b
  else b.

(** The control data of a [recvmsg]: flags and stamps; [None] is an access to a
    context that was destroyed.  The kernel has left the length of what it
    delivered in the context. *)
Definition recvmsg_done (c : Cqe) (b : UringBackend) : option (Z * Timestamps * UringBackend) :=
  match ts_pending_ b !! user_data c with
  | None => Some (0, no_stamps, b)
  | Some i =>
      '(fl, st, b) ←
        (if 0 <? res c then
           x ← contexts b !! i;
           let '(fl, st) := if ts_on x then Epoll.parse_rx_timestamping (rx_times c) 0 no_stamps else (0, no_stamps) in
           match inbox x with
           | Some cap =>
               let fds := take cap (rights c) in
               let fl := Z.lor fl (match fds with [] => 0 | _ => HasFds end) in
               let fl := Z.lor fl (if ctrunc c || (cap <? length (rights c))%nat then FdTrunc else 0) in
               Some (fl, st, add_closed (drop cap (rights c)) (put_ctx i (mkCtx (ts_on x) (inbox x) (controllen c) fds) b))
           | None => Some (fl, st, put_ctx i (mkCtx (ts_on x) (inbox x) (controllen c) (got_fds x)) b)
           end
         else Some (0, no_stamps, b));
      Some (fl, st, set_ctx (ts_ctx_ b) (contexts b) (fresh_ctx b) (delete (user_data c) (ts_pending_ b)) b)
  end.

(** The result of a receive; a provided buffer is copied out and handed back. *)
Definition recv_result (c : Cqe) (b : UringBackend) : Z * UringBackend :=
  match recv_dst_ b !! user_data c with
  | None => (res c, b)
  | Some size =>
      let '(r, p, m) :=
        match bits (cflags c) IORING_CQE_F_BUFFER, pbuf_ b with
        | true, Some p =>
            let bid := u16 (Z.shiftr (cflags c) 16) in
            if 0 <? res c then
              let ncp := Z.min (res c) size in
              (ncp, Some (provide_buffer bid p), <[user_data c := take (Z.to_nat ncp) (default [] (p_mem p !! bid))]> (spans b))
            else (res c, Some (provide_buffer bid p), spans b)
        | _, _ => (res c, pbuf_ b, spans b)
        end in
      (r, set_recv p (delete (user_data c) (recv_dst_ b)) m b)
  end.

(** One completion entry: what the caller gets of it. *)
Definition deliver (c : Cqe) (b : UringBackend) : option (option Completion * UringBackend) :=
  let u := user_data c in
  if is_internal u then Some (None, internal_cqe c b)
  else if (res c =? - ECANCELED) && bool_decide (u ∈ swallow_ b) then
    Some (None, set_watch (watch_ b) (swallow_ b ∖ {[u]}) b)
  else
    let more := if bits (cflags c) IORING_CQE_F_MORE then More else 0 in
    let kind := ud_kind u in
    if kind =? op_code OpWatch then Some (Some (mkComp u (to_ready (res c)) more no_stamps), b)
    else if kind =? op_code OpSend then
      Some (Some (mkComp u (res c) more no_stamps), set_ops (armed_accepts_ b) (delete u (sendv_ b)) (connect_ b) b)
    else if kind =? op_code OpConnect then
      Some (Some (mkComp u (res c) more no_stamps), set_ops (armed_accepts_ b) (sendv_ b) (connect_ b ∖ {[u]}) b)
    else if kind =? op_code OpAccept then
      Some (Some (mkComp u (res c) more no_stamps),
            if bits (cflags c) IORING_CQE_F_MORE then b
            else set_ops (armed_accepts_ b ∖ {[u]}) (sendv_ b) (connect_ b) b)
    else if kind =? op_code OpRecv then
      '(fl, st, b) ← recvmsg_done c b;
      let '(r, b) := recv_result c b in
      Some (Some (mkComp u r (Z.lor more fl) st), b)
    else Some (Some (mkComp u (res c) more no_stamps), b).

(** The loop of [drain_cq], over the entries between [head] and the tail that was
    read; also the entries it went over. *)
Fixpoint drain_loop (n : nat) (head : Z) (cap : nat) (out : list Completion) (seen : list Cqe) (b : UringBackend)
    : option (list Completion * list Cqe * Z * UringBackend) :=
  match n with
  | O => Some (out, seen, head, b)
  | S n =>
      if (cap <=? length out)%nat then Some (out, seen, head, b)
      else
        c ← cqes (cq b) !! Z.land head (cq_entries (cq b) - 1);
        '(o, b) ← deliver c b;
        drain_loop n (u32 (head + 1)) cap (out ++ option_list o) (seen ++ [c]) b
  end.

Definition drain_cq (cap : nat) (b : UringBackend) : option (list Completion * UringBackend) :=
  let q := cq b in
  '(out, seen, head, b) ← drain_loop (Z.to_nat (u32 (cq_tail q - cq_head q))) (cq_head q) cap [] [] b;
  let q := cq b in
  let b := set_cq (mkCq head (cq_tail q) (cq_entries q) (cqes q) (cq_overflow q) (posted q) (drained q ++ seen)) b in
  Some (out, if wake_armed_ b then b else snd (arm_wake_poll b)).

(** The system calls of [wait], which submit [sub] entries and may block;
    [need_wakeup] is the kernel's flag in the submission ring. *)
Definition wait_enter (sub : Z) (can_wait need_wakeup : bool) (b : UringBackend) : UringBackend :=
  if sqpoll_ b then
    let b := if need_wakeup then snd (uring_enter 0 0 b) else b in
    if can_wait then snd (uring_enter 0 1 b) else b
  else if (0 <? sub) || can_wait then snd (uring_enter sub (if can_wait then 1 else 0) b)
  else b.

Definition wait (cap : nat) (timeout : Z) (need_wakeup : bool) (b : UringBackend) : option (list Completion * UringBackend) :=
  let b := set_wake (wake_armed_ b) false b in
  '(out, b) ← drain_cq cap b;
  let sub := pending (sq b) in
  let b := set_sq (commit_sqes (sq b)) b in
  let can_wait := (length out =? 0)%nat && negb (saw_wake_ b) && (0 <? timeout) in
  let b := wait_enter sub can_wait need_wakeup b in
  if (length out <? cap)%nat then
    '(out2, b) ← drain_cq (cap - length out) b;
    Some (out ++ out2, b)
  else Some (out, b).

(** A mailbox is destroyed: the weak pointers of the slots to it are empty ones. *)
Definition mailbox_gone (target : Z) (b : UringBackend) : UringBackend :=
  set_msg (filter (fun '(_, t) => t <> target) (msgring_fb_ b)) (msgring_head_ b) (msgring_sends_ b) (msgring_fallbacks_ b) (woken b) b.

(** ** Construction *)

(** [register_pbuf_ring]: every buffer is provided once. *)
Definition register_pbuf_ring (entries size : Z) (mem : gmap Z (list Z)) : Pbuf :=
  foldl (fun p bid => provide_buffer bid p) (mkPbuf entries 0 ∅ mem size) (Z.of_nat <$> seq 0 (Z.to_nat entries)).

Record UringConfig := mkCfg {
  multishot_accept : bool;
  want_sqpoll : bool;
  msg_ring_wakes : bool;
  use_pbuf_ring : bool;
  pbuf_entries : Z;
  pbuf_buf_size : Z }.

(** [init]: [setup] answers [io_uring_setup] with the sizes of the two rings,
    [mapped] says that the mappings and the eventfd succeed, [registered] that the
    buffer ring does, [msg_ring] what [msg_ring_supported] answers. *)
Definition init (setup : bool -> option (Z * Z)) (mapped registered msg_ring : bool) (mem : gmap Z (list Z))
    (cfg : UringConfig) : option UringBackend :=
  let first := setup (want_sqpoll cfg) in
  '(se, ce) ← (match first with Some r => Some r | None => if want_sqpoll cfg then setup false else None end);
  if negb mapped then None
  else
    let '(ok, b) :=
      arm_wake_poll (mkU (sq0 se) (cq0 ce) (want_sqpoll cfg && bool_decide (is_Some first)) (multishot_accept cfg)
                         false false ∅ ∅ ∅ ∅ ∅ None ∅ ∅ ∅ ∅ 0 ∅ (msg_ring_wakes cfg && msg_ring) ∅ 0 0 0 [] [] []) in
    if negb ok then None
    else if use_pbuf_ring cfg then
      if registered then
        Some (set_recv (Some (register_pbuf_ring (pbuf_entries cfg) (pbuf_buf_size cfg) mem)) (recv_dst_ b) (spans b) b)
      else None
    else Some b.

(** ** Runs *)

(** What can happen next: a call of the owner, the kernel's polling thread taking
    an entry, a completion being posted while the owner does something else, or
    the end of a mailbox of another thread. *)
Inductive Act :=
  | DoAttach (fd : Z) (i : Interest) (u : UserData)
  | DoModify (fd : Z) (i : Interest) (u : UserData)
  | DoDetach (fd : Z)
  | DoTimestamping (fd : Z) (on : bool)
  | DoInbox (fd : Z) (cap : option nat)
  | DoRecv (u : UserData) (fd len : Z)
  | DoSend (u : UserData) (fd : Z) (bytes : list Z)
  | DoSendv (u : UserData) (fd : Z) (iov : list (list Z))
  | DoAccept (u : UserData) (fd : Z)
  | DoConnect (u : UserData) (fd : Z)
  | DoCancel (u : UserData)
  | DoMsgRing (target_fd target : Z)
  | DoWait (cap : nat) (timeout : Z) (need_wakeup : bool)
  | KPoll
  | KPost (c : Cqe)
  | MailboxGone (target : Z).

Definition step (a : Act) (b : UringBackend) : option (list Completion * UringBackend) :=
  match a with
  | DoAttach fd i u => Some ([], snd (attach fd i u b))
  | DoModify fd i u => Some ([], snd (modify fd i u b))
  | DoDetach fd => Some ([], snd (detach fd b))
  | DoTimestamping fd on => Some ([], set_timestamping fd on b)
  | DoInbox fd cap => Some ([], set_fd_inbox fd cap b)
  | DoRecv u fd len => Some ([], snd (submit_recv u fd len b))
  | DoSend u fd bytes => Some ([], snd (submit_send u fd bytes b))
  | DoSendv u fd iov => Some ([], snd (submit_sendv u fd iov b))
  | DoAccept u fd => Some ([], snd (submit_accept u fd b))
  | DoConnect u fd => Some ([], snd (submit_connect u fd b))
  | DoCancel u => Some ([], snd (cancel u b))
  | DoMsgRing t m => Some ([], snd (msg_ring_wake t m b))
  | DoWait cap timeout nw => wait cap timeout nw b
  | KPoll => Some ([], if sqpoll_ b then set_sq (kernel_take (sq b)) b else b)
  | KPost c => Some ([], set_cq (kernel_post c (cq b)) b)
  | MailboxGone t => Some ([], mailbox_gone t b)
  end.

Fixpoint run (acts : list Act) (b : UringBackend) : option (list Completion * UringBackend) :=
  match acts with
  | [] => Some ([], b)
  | a :: acts =>
      '(out, b) ← step a b;
      '(out', b) ← run acts b;
      Some (out ++ out', b)
  end.

End Backend.

(** ** Capabilities and the choice of a backend *)

(** [UringCaps]: the words of the bitmap, and [probe] over the flags of the
    operations that the kernel reported. *)
Definition supports (caps : list Z) (op : Z) : bool :=
  Z.testbit (nth (Z.to_nat (op / 32)) caps 0) (op mod 32).

Definition probe (ops : list bool) : list Z :=
  foldl (fun caps '(i, on) =>
           if (on : bool) then alter (fun w => Z.lor w (Z.shiftl 1 (Z.of_nat i mod 32))) (i / 32)%nat caps else caps)
        (replicate 8 0) (imap pair ops).

(** The operation codes of the kernel's interface. *)
Definition OP_POLL_ADD : Z := 6.
Definition OP_POLL_REMOVE : Z := 7.
Definition OP_SENDMSG : Z := 9.
Definition OP_RECVMSG : Z := 10.
Definition OP_ACCEPT : Z := 13.
Definition OP_ASYNC_CANCEL : Z := 14.
Definition OP_CONNECT : Z := 16.
Definition OP_SEND : Z := 26.
Definition OP_RECV : Z := 27.

Definition required : list Z :=
  [OP_POLL_ADD; OP_POLL_REMOVE; OP_SENDMSG; OP_RECV; OP_SEND; OP_ACCEPT; OP_ASYNC_CANCEL; OP_CONNECT].

(** The constructor of [AutoBackend]: the ring, or [None] for epoll. *)
Definition auto_backend (want_epoll : bool) (caps : option (list Z)) (create : option UringBackend) : option UringBackend :=
  let ok := negb want_epoll && match caps with Some c => forallb (supports c) required | None => false end in
  if ok then create else None.

(** ** 32-bit ring positions *)

Lemma ring_count a b : 0 <= b - a < 2 ^ 32 -> u32 (u32 b - u32 a) = b - a.
Proof. intros H. unfold u32. rewrite <- Zminus_mod. apply Z.mod_small. lia. Qed.

Lemma ring_slot j k : 0 <= k <= 32 -> Z.land (u32 j) (2 ^ k - 1) = j mod 2 ^ k.
Proof.
  intros Hk. rewrite land_mask by lia. unfold u32. apply Z.mod_mod_divide. exists (2 ^ (32 - k)).
  rewrite <- Z.pow_add_r by lia. f_equal. lia.
Qed.

Lemma ring_distinct i j k : 0 <= k -> i < j -> j - i < 2 ^ k -> i mod 2 ^ k <> j mod 2 ^ k.
Proof.
  intros Hk Hij Hd E. assert (0 < 2 ^ k) by (apply Z.pow_pos_nonneg; lia).
  pose proof (Z.div_mod i (2 ^ k) ltac:(lia)). pose proof (Z.div_mod j (2 ^ k) ltac:(lia)).
  assert (j - i = 2 ^ k * (j / 2 ^ k - i / 2 ^ k)) as Hq by lia.
  destruct (Z.le_gt_cases (j / 2 ^ k - i / 2 ^ k) 0); nia.
Qed.

Lemma u32_succ x : u32 (u32 x + 1) = u32 (x + 1).
Proof. unfold u32. apply Zplus_mod_idemp_l. Qed.

Lemma pow_31 k : 0 <= k <= 31 -> 0 < 2 ^ k <= 2 ^ 31.
Proof. intros Hk. split; [apply Z.pow_pos_nonneg; lia|apply Z.pow_le_mono_r; lia]. Qed.

(** ** The submission ring is a queue *)

(** The counters are the lengths of the histories, and an entry the kernel has not
    taken is still in its slot. *)
Record sq_ok (k : Z) (q : Sq) : Prop := {
  sq_k : 0 <= k <= 31;
  sq_size : sq_entries q = 2 ^ k;
  sq_head_is : sq_head q = u32 (zlen (taken q));
  sq_tail_is : sq_tail q = u32 (zlen (issued q) - pending q);
  sq_pending : 0 <= pending q /\ zlen (taken q) + pending q <= zlen (issued q);
  sq_fits : zlen (issued q) - zlen (taken q) <= 2 ^ k;
  sq_prefix : taken q = take (length (taken q)) (issued q);
  sq_slots : forall j s, (length (taken q) <= j)%nat -> issued q !! j = Some s ->
    sq_array q !! (Z.of_nat j mod 2 ^ k) = Some (Z.of_nat j mod 2 ^ k) /\ sqes q !! (Z.of_nat j mod 2 ^ k) = Some s }.

Lemma sq0_ok k : 0 <= k <= 31 -> sq_ok k (sq0 (2 ^ k)).
Proof. intros Hk. pose proof (pow_31 k Hk). split; try done; simpl; unfold zlen; simpl; lia. Qed.

(** An entry is staged exactly when fewer than the ring holds are outstanding. *)
Lemma stage_spec k s q :
  sq_ok k q ->
  match stage s q with
  | Some q' => sq_ok k q' /\ issued q' = issued q ++ [s] /\ taken q' = taken q /\ pending q' = pending q + 1
  | None => zlen (issued q) - zlen (taken q) = 2 ^ k
  end.
Proof.
  intros [Hk Hsz Hh Ht Hp Hf Hpre Hs]. pose proof (pow_31 k Hk) as Hpow. unfold stage. rewrite Ht, Hh, Hsz.
  assert (u32 (u32 (zlen (issued q) - pending q) + pending q) = u32 (zlen (issued q))) as ->.
  { unfold u32. rewrite Zplus_mod_idemp_l. f_equal. lia. }
  rewrite ring_count by lia. destruct (Z.leb_spec (2 ^ k) (zlen (issued q) - zlen (taken q))); [lia|].
  rewrite ring_slot by lia. rewrite (u32_small (pending q + 1)) by (unfold zlen in *; lia).
  split; [|done]. split; cbn [sq_head sq_tail sq_entries sq_array sqes pending issued taken]; rewrite ?zlen_app, ?zlen_cons; try done.
  - f_equal. unfold zlen. simpl. lia.
  - unfold zlen in *. simpl. lia.
  - unfold zlen in *. simpl. lia.
  - rewrite take_app_le; [done|]. unfold zlen in *. lia.
  - intros j s' Hj Hl. apply lookup_app_Some in Hl as [Hl|[Hge Hl]].
    + apply lookup_lt_Some in Hl as Hlt.
      rewrite !lookup_insert_ne by (apply not_eq_sym, ring_distinct; unfold zlen in *; lia). by apply Hs.
    + destruct (j - length (issued q))%nat as [|m] eqn:E; [|done]. simpl in Hl. injection Hl as <-.
      assert (j = length (issued q)) as -> by lia. unfold zlen. by rewrite !lookup_insert_eq.
Qed.

Lemma commit_sqes_ok k q : sq_ok k q -> sq_ok k (commit_sqes q) /\ issued (commit_sqes q) = issued q /\
  taken (commit_sqes q) = taken q /\ pending (commit_sqes q) = 0.
Proof.
  intros [Hk Hsz Hh Ht Hp Hf Hpre Hs]. unfold commit_sqes. destruct (Z.eqb_spec (pending q) 0) as [E|E]; [done|].
  split_and!; try done. split; simpl; try done; [|lia]. rewrite Ht. unfold u32. rewrite Zplus_mod_idemp_l. f_equal. lia.
Qed.

(** What the kernel takes is the next entry in the order of issue. *)
Lemma take_ok k q :
  sq_ok k q ->
  sq_ok k (kernel_take q) /\ issued (kernel_take q) = issued q /\ pending (kernel_take q) = pending q /\
  (zlen (taken q) + pending q < zlen (issued q) -> zlen (taken (kernel_take q)) = zlen (taken q) + 1) /\
  (zlen (taken q) <= zlen (taken (kernel_take q))).
Proof.
  intros O. pose proof O as [Hk Hsz Hh Ht Hp Hf Hpre Hs]. pose proof (pow_31 k Hk) as Hpow. unfold kernel_take. rewrite Hh, Ht, Hsz.
  destruct (Z.eqb_spec (u32 (zlen (taken q))) (u32 (zlen (issued q) - pending q))) as [E|E].
  { split_and!; try done. intros Hlt.
    assert (u32 (u32 (zlen (issued q) - pending q) - u32 (zlen (taken q))) = zlen (issued q) - pending q - zlen (taken q)) as H
      by (apply ring_count; lia).
    rewrite E, Z.sub_diag in H. unfold u32 in H. rewrite Z.mod_0_l in H by lia. lia. }
  assert (zlen (taken q) <> zlen (issued q) - pending q) by congruence.
  destruct (lookup_lt_is_Some_2 (issued q) (length (taken q))) as [s Hsl]; [unfold zlen in *; lia|].
  destruct (Hs (length (taken q)) s (le_n _) Hsl) as [Ha Hq].
  change (Z.of_nat (length (taken q))) with (zlen (taken q)) in Ha, Hq. rewrite ring_slot by lia. rewrite Ha, Hq.
  split_and!; [|done|done|intros _; cbn [taken]; by rewrite zlen_app|cbn [taken]; rewrite zlen_app; unfold zlen; simpl; lia].
  split; cbn [sq_head sq_tail sq_entries sq_array sqes pending issued taken]; rewrite ?zlen_app; try done.
  - rewrite u32_succ. f_equal.
  - unfold zlen in *. simpl. lia.
  - unfold zlen in *. simpl. lia.
  - rewrite length_app. simpl. rewrite Nat.add_1_r. rewrite (take_S_r _ _ s Hsl). by rewrite <- Hpre.
  - intros j s' Hj. apply Hs. rewrite length_app in Hj. lia.
Qed.

(** ** The completion ring is a queue *)

Record cq_ok (k : Z) (q : Cq) : Prop := {
  cq_k : 0 <= k <= 31;
  cq_size : cq_entries q = 2 ^ k;
  cq_head_is : cq_head q = u32 (zlen (drained q));
  cq_tail_is : cq_tail q = u32 (zlen (posted q));
  cq_fits : zlen (drained q) <= zlen (posted q) <= zlen (drained q) + 2 ^ k;
  cq_prefix : drained q = take (length (drained q)) (posted q);
  cq_slots : forall j c, (length (drained q) <= j)%nat -> posted q !! j = Some c -> cqes q !! (Z.of_nat j mod 2 ^ k) = Some c }.

Lemma cq0_ok k : 0 <= k <= 31 -> cq_ok k (cq0 (2 ^ k)).
Proof. intros Hk. pose proof (pow_31 k Hk). split; try done; simpl; unfold zlen; simpl; lia. Qed.

Lemma post_ok k c q :
  cq_ok k q -> cq_ok k (kernel_post c q) /\ drained (kernel_post c q) = drained q /\ posted q `prefix_of` posted (kernel_post c q).
Proof.
  intros [Hk Hsz Hh Ht Hf Hpre Hs]. pose proof (pow_31 k Hk) as Hpow. unfold kernel_post. rewrite Hh, Ht, Hsz.
  rewrite ring_count by lia. destruct (Z.leb_spec (2 ^ k) (zlen (posted q) - zlen (drained q))); [by split|].
  rewrite ring_slot by lia. split; [|split; [done|by eexists]].
  split; cbn [cq_head cq_tail cq_entries cqes posted drained]; rewrite ?zlen_app; try done.
  - rewrite u32_succ. f_equal.
  - unfold zlen in *. simpl. lia.
  - rewrite take_app_le; [done|]. unfold zlen in *. lia.
  - intros j c' Hj Hl. apply lookup_app_Some in Hl as [Hl|[Hge Hl]].
    + apply lookup_lt_Some in Hl as Hlt.
      rewrite lookup_insert_ne by (apply not_eq_sym, ring_distinct; unfold zlen in *; lia). by apply Hs.
    + destruct (j - length (posted q))%nat as [|m] eqn:E; [|done]. simpl in Hl. injection Hl as <-.
      assert (j = length (posted q)) as -> by lia. unfold zlen. by rewrite lookup_insert_eq.
Qed.

Lemma posts_ok k cs q :
  cq_ok k q ->
  let q' := foldl (fun q c => kernel_post c q) q cs in
  cq_ok k q' /\ drained q' = drained q /\ posted q `prefix_of` posted q'.
Proof.
  revert q. induction cs as [|c cs IH]; intros q O; simpl; [done|].
  destruct (post_ok k c q O) as (O1 & D1 & P1). destruct (IH _ O1) as (O2 & D2 & P2).
  split_and!; [done|by rewrite D2|by etrans].
Qed.

(** How many committed entries the kernel has not taken. *)
Definition backlog (q : Sq) : Z := zlen (issued q) - pending q - zlen (taken q).

Lemma takes_ok k n q :
  sq_ok k q ->
  let q' := Nat.iter n kernel_take q in
  sq_ok k q' /\ issued q' = issued q /\ pending q' = pending q /\ backlog q - Z.of_nat n <= backlog q' <= backlog q.
Proof.
  intros O. induction n as [|n IH]; simpl; [split_and!; try done; lia|].
  destruct IH as (O' & I' & P' & B'). set (q' := Nat.iter n kernel_take q) in *.
  destruct (take_ok k q' O') as (O2 & I2 & P2 & _ & L2).
  assert (zlen (taken (kernel_take q')) <= zlen (taken q') + 1) as U.
  { unfold kernel_take. destruct (_ =? _); [lia|]. destruct (sq_array q' !! _); [|lia].
    destruct (sqes q' !! _); [|lia]. cbn [taken]. rewrite zlen_app. unfold zlen at 2. simpl. lia. }
  split_and!; [done|congruence|congruence| |]; unfold backlog in *; rewrite I2, P2; lia.
Qed.

(** ** What a step does to the rings *)

(** The result shown for an entry: the readiness of a watch; otherwise the kernel's,
    or less for a receive whose span is shorter than what arrived. *)
Definition result_of (c : Cqe) (r : Z) : Prop :=
  let kind := ud_kind (user_data c) in
  if kind =? op_code OpWatch then r = to_ready (res c)
  else r = res c \/ (kind = op_code OpRecv /\ 0 < res c /\ r < res c).

(** The completions shown for a sequence of entries, in order: entries of the
    backend's own are hidden, and cancelled ones with the tags [ts] are swallowed. *)
Inductive Shown : list UserData -> list Cqe -> list Completion -> Prop :=
  | shown_nil : Shown [] [] []
  | shown_internal ts c cs out : is_internal (user_data c) = true -> Shown ts cs out -> Shown ts (c :: cs) out
  | shown_swallowed ts c cs out :
      is_internal (user_data c) = false -> res c = - ECANCELED -> Shown ts cs out -> Shown (user_data c :: ts) (c :: cs) out
  | shown_one ts c cs out o :
      is_internal (user_data c) = false ->
      user o = user_data c ->
      Z.testbit (flags o) 2 = bits (cflags c) IORING_CQE_F_MORE ->
      result_of c (result o) ->
      Shown ts cs out -> Shown ts (c :: cs) (o :: out).

Lemma Shown_app t1 t2 cs1 cs2 o1 o2 : Shown t1 cs1 o1 -> Shown t2 cs2 o2 -> Shown (t1 ++ t2) (cs1 ++ cs2) (o1 ++ o2).
Proof.
  induction 1 as [|? ? ? ? ? ? IH|? ? ? ? ? ? ? IH|? ? ? ? ? ? ? ? ? ? IH]; intros Hshown; simpl;
    [exact Hshown|apply shown_internal|apply shown_swallowed|apply shown_one]; try assumption; apply IH, Hshown.
Qed.

(** How often a tag occurs, and how often the poll with that tag was asked to be
    removed. *)
Definition times (u : UserData) (ts : list UserData) : nat := count_if (fun t => t =? u) ts.
Definition is_remove (u : UserData) (s : Sqe) : bool := match s with SPollRemove old => old =? u | _ => false end.
Definition removes (u : UserData) (l : list Sqe) : nat := count_if (is_remove u) l.

(** Whether the next cancellation of the tag is to be swallowed. *)
Definition owed (u : UserData) (b : UringBackend) : nat := if bool_decide (u ∈ swallow_ b) then 1 else 0.

Lemma times_app u t1 t2 : times u (t1 ++ t2) = (times u t1 + times u t2)%nat.
Proof. apply count_if_app. Qed.

Record ok (k m : Z) (b : UringBackend) : Prop := { ok_sq : sq_ok k (sq b); ok_cq : cq_ok m (cq b) }.

(** A step that drains [cs] and shows [out] for them. *)
Record moves (k m : Z) (cs : list Cqe) (out : list Completion) (b b' : UringBackend) : Prop := {
  mv_ok : ok k m b';
  mv_issued : issued (sq b) `prefix_of` issued (sq b');
  mv_posted : posted (cq b) `prefix_of` posted (cq b');
  mv_drained : drained (cq b') = drained (cq b) ++ cs;
  mv_shown : exists ts, Shown ts cs out /\
    forall u, (times u ts + owed u b' + removes u (issued (sq b)) <= owed u b + removes u (issued (sq b')))%nat;
  mv_poll : sqpoll_ b' = sqpoll_ b;
  mv_backlog : sqpoll_ b = false -> backlog (sq b) <= backlog (sq b') }.

Lemma moves_trans k m cs1 cs2 o1 o2 b1 b2 b3 :
  moves k m cs1 o1 b1 b2 -> moves k m cs2 o2 b2 b3 -> moves k m (cs1 ++ cs2) (o1 ++ o2) b1 b3.
Proof.
  intros [K1 I1 P1 D1 (n1 & S1 & L1) Q1 B1] [K2 I2 P2 D2 (n2 & S2 & L2) Q2 B2].
  split; [done|by etrans|by etrans|by rewrite D2, D1, app_assoc| |congruence|].
  - exists (n1 ++ n2). split; [by apply Shown_app|]. intros u. specialize (L1 u). specialize (L2 u). rewrite times_app. lia.
  - intros E. specialize (B1 E). rewrite Q1 in B2. specialize (B2 E). lia.
Qed.

(** A step that drains nothing. *)
Notation quiet k m := (moves k m [] []).

Lemma rings_quiet_trans k m b1 b2 b3 : quiet k m b1 b2 -> quiet k m b2 b3 -> quiet k m b1 b3.
Proof. apply moves_trans. Qed.

(** Bookkeeping: the rings and the swallowed tags stay. *)
Lemma quiet_same k m b b' :
  ok k m b -> sq b' = sq b -> cq b' = cq b -> swallow_ b' = swallow_ b -> sqpoll_ b' = sqpoll_ b -> quiet k m b b'.
Proof.
  intros [Os Oc] Es Ec Ew Ep. split; rewrite ?Es, ?Ec; [split; by rewrite ?Es, ?Ec|done|done|by rewrite app_nil_r| |done|done].
  exists []. split; [constructor|]. intros u. unfold owed. by rewrite Ew.
Qed.

Lemma removes_app u l1 l2 : removes u (l1 ++ l2) = (removes u l1 + removes u l2)%nat.
Proof. apply count_if_app. Qed.

Lemma removes_prefix u l1 l2 : l1 `prefix_of` l2 -> (removes u l1 <= removes u l2)%nat.
Proof. intros [l ->]. rewrite removes_app. lia. Qed.

Lemma quiet_sq k m b q :
  ok k m b -> sq_ok k q -> issued (sq b) `prefix_of` issued q ->
  (sqpoll_ b = false -> backlog (sq b) <= backlog q) -> quiet k m b (set_sq q b).
Proof.
  intros [Os Oc] Oq P B. split; [by split|done|done|simpl; by rewrite app_nil_r| |done|done].
  exists []. split; [constructor|]. intros u. pose proof (removes_prefix u _ _ P). unfold owed. simpl. lia.
Qed.

Lemma quiet_cq k m b q :
  ok k m b -> cq_ok m q -> posted (cq b) `prefix_of` posted q -> drained q = drained (cq b) -> quiet k m b (set_cq q b).
Proof.
  intros [Os Oc] Oq P R. split; [by split|done|done|simpl; by rewrite app_nil_r| |done|done].
  exists []. by split; [constructor|].
Qed.

(** Staging an entry; a removal leaves room for one more swallowed tag. *)
Lemma stage_quiet k m s b q :
  ok k m b -> stage s (sq b) = Some q ->
  quiet k m b (set_sq q b) /\ forall u, removes u (issued q) = (removes u (issued (sq b)) + removes u [s])%nat.
Proof.
  intros O E. pose proof (stage_spec k s _ (ok_sq _ _ _ O)) as H. rewrite E in H. destruct H as (Oq & I & T & P).
  split; [|intros u; by rewrite I, removes_app]. apply quiet_sq; [done|done|rewrite I; by eexists|].
  intros _. unfold backlog. rewrite I, T, P, zlen_app. unfold zlen. simpl. lia.
Qed.

Section Steps.
Context (kernel : nat -> Entered) (wake_fd k m : Z).

Lemma enter_spec s mc b :
  ok k m b ->
  let b' := snd (uring_enter kernel s mc b) in
  ok k m b' /\ issued (sq b') = issued (sq b) /\ posted (cq b) `prefix_of` posted (cq b') /\
  drained (cq b') = drained (cq b) /\ swallow_ b' = swallow_ b /\ sqpoll_ b' = sqpoll_ b /\
  (sqpoll_ b = false -> 0 <= s -> backlog (sq b) - s <= backlog (sq b')) /\ pending (sq b') = pending (sq b).
Proof.
  intros [Os Oc]. cbv zeta. unfold uring_enter, add_enter, set_cq, set_sq. cbn [snd sq cq swallow_ sqpoll_ ].
  set (a := kernel (length (enters b))). set (n := if sqpoll_ b then _ else _).
  destruct (takes_ok k n _ Os) as (O1 & I1 & P1 & B1). destruct (posts_ok m (e_posts a) _ Oc) as (O2 & D2 & P2).
  split_and!; try done. intros E Hs. subst n. rewrite E in *. lia.
Qed.

Lemma enter_quiet s mc b : ok k m b -> sqpoll_ b = true \/ s = 0 -> quiet k m b (snd (uring_enter kernel s mc b)).
Proof.
  intros O Hs. destruct (enter_spec s mc b O) as (O' & I & P & D & W & Q & B & _).
  split; [done|by rewrite I|done|by rewrite D, app_nil_r| |done|].
  - exists []. split; [constructor|]. intros u. unfold owed. by rewrite I, W.
  - intros E. destruct Hs as [Hs| ->]; [congruence|]. specialize (B E). lia.
Qed.

Lemma commit_quiet b : ok k m b -> quiet k m b (set_sq (commit_sqes (sq b)) b).
Proof.
  intros O. destruct (commit_sqes_ok k _ (ok_sq _ _ _ O)) as (O' & I & T & P).
  apply quiet_sq; [done|done|by rewrite I|]. intros _. unfold backlog. rewrite I, T, P.
  pose proof (sq_pending _ _ (ok_sq _ _ _ O)). lia.
Qed.

(** What was committed is what is submitted. *)
Lemma commit_enter_quiet mc b :
  ok k m b -> quiet k m b (snd (uring_enter kernel (pending (sq b)) mc (set_sq (commit_sqes (sq b)) b))).
Proof.
  intros O. pose proof (commit_quiet b O) as C. destruct (commit_sqes_ok k _ (ok_sq _ _ _ O)) as (O' & I & T & P).
  destruct (enter_spec (pending (sq b)) mc _ (mv_ok _ _ _ _ _ _ C)) as (O2 & I2 & P2 & D2 & W2 & Q2 & B2 & _).
  cbn [set_sq sq cq swallow_ sqpoll_] in *.
  split; [done|by rewrite I2, I|done|by rewrite D2, app_nil_r| |done|].
  - exists []. split; [constructor|]. intros u. unfold owed. cbn [set_sq swallow_]. by rewrite I2, I, W2.
  - intros E. specialize (B2 E). pose proof (sq_pending _ _ (ok_sq _ _ _ O)). unfold backlog in *. rewrite I, T, P in B2. lia.
Qed.

Lemma flush_quiet b : ok k m b -> quiet k m b (snd (flush_full_sq kernel b)) /\ swallow_ (snd (flush_full_sq kernel b)) = swallow_ b.
Proof.
  intros O. unfold flush_full_sq. destruct (Z.eqb_spec (pending (sq b)) 0) as [E|E]; [split; [by apply commit_quiet|done]|].
  pose proof (commit_enter_quiet 0 b O) as C. destruct (uring_enter _ _ _ _) as [r b'] eqn:Eu.
  assert (swallow_ b' = swallow_ b) by (unfold uring_enter in Eu; by simplify_eq).
  destruct (r <? 0); done.
Qed.

Lemma stage_or_flush_quiet s b :
  ok k m b ->
  let '(r, b') := stage_or_flush kernel s b in
  quiet k m b b' /\ swallow_ b' = swallow_ b /\
  (r = Val tt -> forall u, removes u (issued (sq b)) + removes u [s] <= removes u (issued (sq b')))%nat.
Proof.
  intros O. unfold stage_or_flush. destruct (stage s (sq b)) as [q|] eqn:E.
  { destruct (stage_quiet _ _ _ _ _ O E) as [Q R]. split_and!; [done|done|intros _ u; simpl; by rewrite R]. }
  destruct (flush_quiet b O) as [F W]. destruct (flush_full_sq kernel b) as [[[]|e] b1]; simpl in F, W; [|done].
  destruct (stage s (sq b1)) as [q|] eqn:E1; [|done].
  pose proof (mv_ok _ _ _ _ _ _ F) as O1. destruct (stage_quiet _ _ _ _ _ O1 E1) as [Q R].
  split_and!; [by eapply rings_quiet_trans|done|]. intros _ u. cbn [set_sq sq]. rewrite R.
  pose proof (removes_prefix u _ _ (mv_issued _ _ _ _ _ _ F)). lia.
Qed.

(** Bookkeeping leaves the rings, the swallowed tags and the mode. *)
Definition same (b b' : UringBackend) : Prop :=
  sq b' = sq b /\ cq b' = cq b /\ swallow_ b' = swallow_ b /\ sqpoll_ b' = sqpoll_ b.

Lemma quiet_of_same b b' : ok k m b -> same b b' -> quiet k m b b'.
Proof. intros O (? & ? & ? & ?). by apply quiet_same. Qed.

Lemma rings_quiet_refl b : ok k m b -> quiet k m b b.
Proof. intros O. by apply quiet_same. Qed.

Lemma quiet_then b b1 b2 : quiet k m b b1 -> same b1 b2 -> quiet k m b b2.
Proof. intros Q S2. eapply rings_quiet_trans; [done|]. apply quiet_of_same; [exact (mv_ok _ _ _ _ _ _ Q)|done]. Qed.

Lemma submit_quiet s f b : ok k m b -> (forall b, same b (f b)) -> quiet k m b (snd (submit kernel s f b)).
Proof.
  intros O Hf. unfold submit. pose proof (stage_or_flush_quiet s b O) as H.
  destruct (stage_or_flush kernel s b) as [[v|e] b']; destruct H as (Q & _); [|done]. by eapply quiet_then.
Qed.

(** An entry that follows another one, and the bookkeeping at the end. *)
Lemma entry_quiet s f b b0 :
  quiet k m b0 b -> (forall b, same b (f b)) ->
  quiet k m b0 (snd (let '(r, b) := stage_or_flush kernel s b in match r with Bad e => (Bad e, b) | Val _ => (Val tt, f b) end)).
Proof.
  intros Q0 Hf. pose proof (stage_or_flush_quiet s b (mv_ok _ _ _ _ _ _ Q0)) as H.
  destruct (stage_or_flush kernel s b) as [[v|e] b']; destruct H as (Q & _); [eapply quiet_then; [|apply Hf]|];
    by eapply rings_quiet_trans.
Qed.

Lemma attach_quiet fd i u b : ok k m b -> quiet k m b (snd (attach kernel fd i u b)).
Proof.
  intros O. unfold attach. destruct (watch_ b !! fd) as [old|]; [|by apply (entry_quiet _ (fun b => set_watch _ _ b)); [apply rings_quiet_refl|]].
  pose proof (stage_or_flush_quiet (SPollRemove old) b O) as H.
  destruct (stage_or_flush kernel (SPollRemove old) b) as [[v|e] b']; destruct H as (Q & _); [|done].
  by apply (entry_quiet _ (fun b => set_watch _ _ b)).
Qed.

(** A modification may swallow one cancelled completion for the poll it removes. *)
Lemma modify_quiet fd i u b : ok k m b -> quiet k m b (snd (modify kernel fd i u b)).
Proof.
  intros O. unfold modify. destruct (watch_ b !! fd) as [old|]; [|by apply rings_quiet_refl].
  pose proof (stage_or_flush_quiet (SPollRemove old) b O) as H.
  destruct (stage_or_flush kernel (SPollRemove old) b) as [[[]|e] b']; destruct H as (Q & W & R); [|done].
  apply (entry_quiet _ (fun b => set_watch _ _ b)); [|done]. specialize (R eq_refl). simpl in R.
  destruct Q as [K1 I1 P1 D1 (n & S1 & L1) Q1 B1]. split; try done; [by destruct K1|].
  exists []. split; [constructor|]. intros u'. specialize (R u'). unfold owed. cbn [set_watch swallow_ sq]. rewrite W.
  destruct (decide (u' = old)) as [->|Hne].
  - assert (removes old [SPollRemove old] = 1%nat) as E1 by (unfold removes; cbn; by rewrite Z.eqb_refl).
    rewrite E1 in R. simpl. rewrite bool_decide_eq_true_2 by set_solver. lia.
  - rewrite (bool_decide_ext (u' ∈ {[old]} ∪ swallow_ b) (u' ∈ swallow_ b)) by set_solver. simpl. lia.
Qed.

Lemma same_trans b1 b2 b3 : same b1 b2 -> same b2 b3 -> same b1 b3.
Proof. intros (? & ? & ? & ?) (? & ? & ? & ?). split_and!; congruence. Qed.

Lemma erase_ctx_same fd b : same b (erase_ctx fd b).
Proof. unfold erase_ctx. by destruct (ts_ctx_ b !! fd). Qed.

Lemma ctx_of_same fd b : same b (snd (ctx_of fd b)).
Proof. unfold ctx_of. by destruct (ts_ctx_ b !! fd). Qed.

Lemma detach_quiet fd b : ok k m b -> quiet k m b (snd (detach kernel fd b)).
Proof.
  intros O. unfold detach. destruct (watch_ b !! fd) as [old|]; [|by apply rings_quiet_refl].
  apply (entry_quiet _ (fun b => erase_ctx fd (set_watch _ _ b))); [by apply rings_quiet_refl|].
  intros b'. eapply same_trans; [|apply erase_ctx_same]. done.
Qed.

Lemma set_timestamping_same fd on b : same b (set_timestamping fd on b).
Proof.
  unfold set_timestamping. pose proof (ctx_of_same fd b) as H. destruct (ctx_of fd b) as [[c x] b1]. simpl in H.
  eapply same_trans; [exact H|]. destruct on, (inbox x); try done. by eapply same_trans; [|apply erase_ctx_same].
Qed.

Lemma set_fd_inbox_same fd cap b : same b (set_fd_inbox fd cap b).
Proof.
  unfold set_fd_inbox. pose proof (ctx_of_same fd b) as H. destruct (ctx_of fd b) as [[c x] b1]. simpl in H.
  eapply same_trans; [exact H|]. destruct cap, (ts_on x); try done. by eapply same_trans; [|apply erase_ctx_same].
Qed.

Lemma submit_recv_quiet u fd len b : ok k m b -> quiet k m b (snd (submit_recv kernel u fd len b)).
Proof.
  intros O. unfold submit_recv.
  destruct (pbuf_ b), (recv_dst_ b !! u), (ts_ctx_ b !! fd); try (by apply rings_quiet_refl); by apply submit_quiet.
Qed.

Lemma submit_sendv_quiet u fd iov b : ok k m b -> quiet k m b (snd (submit_sendv kernel u fd iov b)).
Proof.
  intros O. unfold submit_sendv. destruct (64 <? zlen iov), (sendv_ b !! u); try (by apply rings_quiet_refl). by apply submit_quiet.
Qed.

Lemma submit_accept_quiet u fd b : ok k m b -> quiet k m b (snd (submit_accept kernel u fd b)).
Proof.
  intros O. unfold submit_accept. destruct (_ && _); [by apply rings_quiet_refl|]. apply submit_quiet; [done|].
  intros b'. by destruct (multishot_accept_ b').
Qed.

Lemma submit_connect_quiet u fd b : ok k m b -> quiet k m b (snd (submit_connect kernel u fd b)).
Proof. intros O. unfold submit_connect. destruct (bool_decide _); [by apply rings_quiet_refl|by apply submit_quiet]. Qed.

Lemma msg_ring_wake_quiet t mb b : ok k m b -> quiet k m b (snd (msg_ring_wake kernel t mb b)).
Proof.
  intros O. unfold msg_ring_wake. destruct (_ || _); [by apply rings_quiet_refl|]. cbv zeta.
  set (b1 := set_msg _ _ _ _ _ b). assert (quiet k m b b1) as Q1 by (by apply quiet_of_same).
  destruct (msgring_fb_ b1 !! _); [done|].
  pose proof (stage_or_flush_quiet (SMsgRing t (Z.land (msgring_head_ b) (kMsgringSlots - 1))) b1 (mv_ok _ _ _ _ _ _ Q1)) as H.
  destruct (stage_or_flush kernel _ b1) as [[v|e] b2]; destruct H as (Q & _);
    [eapply quiet_then; [by eapply rings_quiet_trans|done]|by eapply rings_quiet_trans].
Qed.

Lemma arm_wake_quiet b : ok k m b -> quiet k m b (snd (arm_wake_poll wake_fd b)).
Proof.
  intros O. unfold arm_wake_poll. destruct (stage _ (sq b)) as [q|] eqn:E; [|by apply rings_quiet_refl].
  eapply quiet_then; [by eapply stage_quiet|done].
Qed.

(** ** Draining *)

Lemma rx_no_more times fl st : Z.testbit (fst (Epoll.parse_rx_timestamping times fl st)) 2 = Z.testbit fl 2.
Proof.
  revert fl st. induction times as [|[sw hw] times IH]; intros fl st; [done|].
  cbn [Epoll.parse_rx_timestamping]. destruct (sw =? 0), (hw =? 0); cbv beta iota; rewrite IH, ?Z.lor_spec; by rewrite ?orb_false_r.
Qed.

Lemma recvmsg_done_spec c b fl st b' :
  recvmsg_done c b = Some (fl, st, b') -> same b b' /\ Z.testbit fl 2 = false /\ recv_dst_ b' = recv_dst_ b /\ pbuf_ b' = pbuf_ b.
Proof.
  unfold recvmsg_done. destruct (ts_pending_ b !! user_data c) as [i|]; [|intros [= <- _ <-]; done].
  destruct (0 <? res c); [|intros [= <- _ <-]; done]. destruct (contexts b !! i) as [x|]; [|done]. cbn [mbind option_bind].
  pose proof (rx_no_more (rx_times c) 0 no_stamps) as R.
  destruct (if ts_on x then _ else _) as [fl0 st0] eqn:Ef.
  assert (Z.testbit fl0 2 = false) as H0.
  { destruct (ts_on x); [rewrite Ef in R; done|by injection Ef as <- _]. }
  destruct (inbox x) as [cap|]; cbn [mbind option_bind]; intros [= <- _ <-]; (split_and!; [done| |done|done]); [|done].
  rewrite !Z.lor_spec, H0. destruct (take cap (rights c)); simpl; by destruct (_ || _).
Qed.

Lemma recv_result_spec c b r b' :
  recv_result c b = (r, b') -> same b b' /\ (r = res c \/ (0 < res c /\ r < res c)).
Proof.
  unfold recv_result. destruct (recv_dst_ b !! user_data c) as [size|]; [|intros [= <- <-]; split; [done|by left]].
  destruct (bits (cflags c) IORING_CQE_F_BUFFER), (pbuf_ b) as [p|]; try (intros [= <- <-]; split; [done|by left]).
  destruct (Z.ltb_spec 0 (res c)); intros [= <- <-]; (split; [done|]); [|by left].
  destruct (Z.min_spec (res c) size) as [[? ->]|[? ->]]; [by left|].
  destruct (Z.eq_dec size (res c)); [by left|right; lia].
Qed.

(** What one entry shows. *)
Lemma deliver_spec c b o b' :
  deliver c b = Some (o, b') ->
  sq b' = sq b /\ cq b' = cq b /\ sqpoll_ b' = sqpoll_ b /\
  exists ts, Shown ts [c] (option_list o) /\ forall u, (times u ts + owed u b' <= owed u b)%nat.
Proof.
  unfold deliver. destruct (is_internal (user_data c)) eqn:Ei.
  { intros [= <- <-]. assert (same b (internal_cqe c b)) as (-> & -> & Ew & ->).
    { unfold internal_cqe. destruct (_ =? kWakeTag); [done|]. destruct (_ =? kMsgRingWakeTag); [done|].
      destruct (_ =? kMsgRingDoneSub); [|done]. by destruct (res c <? 0). }
    do 3 (split; [done|]). exists []. split; [apply shown_internal; [done|constructor]|]. intros u. unfold owed. by rewrite Ew. }
  destruct ((res c =? - ECANCELED) && bool_decide (user_data c ∈ swallow_ b)) eqn:Es.
  { apply andb_prop in Es as [E1 E2]. apply Z.eqb_eq in E1. apply bool_decide_eq_true in E2. intros [= <- <-].
    do 3 (split; [done|]). exists [user_data c]. split; [apply shown_swallowed; [done|done|constructor]|].
    intros u. unfold owed, times. cbn [set_watch swallow_]. destruct (decide (user_data c = u)) as [<-|Hne].
    - cbn [count_if]. rewrite Z.eqb_refl, bool_decide_eq_false_2, bool_decide_eq_true_2 by set_solver. lia.
    - cbn [count_if]. rewrite (proj2 (Z.eqb_neq _ _) Hne).
      by rewrite (bool_decide_ext (u ∈ swallow_ b ∖ {[user_data c]}) (u ∈ swallow_ b)) by set_solver. }
  clear Es. set (more := if bits (cflags c) IORING_CQE_F_MORE then More else 0).
  assert (forall r fl st, Z.testbit fl 2 = false -> result_of c r -> Shown [] [c] [mkComp (user_data c) r (Z.lor more fl) st]) as Hs.
  { intros r fl st Hf Hr. apply shown_one; [done|done| |done|constructor]. cbn [flags]. rewrite Z.lor_spec, Hf, orb_false_r.
    unfold more. by destruct (bits (cflags c) IORING_CQE_F_MORE). }
  assert (forall r st, result_of c r -> Shown [] [c] [mkComp (user_data c) r more st]) as Hs'.
  { intros r st Hr. rewrite <- (Z.lor_0_r more). by apply Hs. }
  assert (ud_kind (user_data c) =? op_code OpWatch = false -> result_of c (res c)) as Hr.
  { unfold result_of. intros ->. by left. }
  destruct (ud_kind (user_data c) =? op_code OpWatch) eqn:Ew.
  { intros [= <- <-]. do 3 (split; [done|]). exists []. split; [apply Hs'|done]. unfold result_of. by rewrite Ew. }
  specialize (Hr eq_refl).
  destruct (_ =? op_code OpSend); [intros [= <- <-]; do 3 (split; [done|]); exists []; split; [by apply Hs'|done]|].
  destruct (_ =? op_code OpConnect); [intros [= <- <-]; do 3 (split; [done|]); exists []; split; [by apply Hs'|done]|].
  destruct (_ =? op_code OpAccept).
  { intros [= <- <-]. destruct (bits _ _); do 3 (split; [done|]); exists []; (split; [by apply Hs'|done]). }
  destruct (Z.eqb_spec (ud_kind (user_data c)) (op_code OpRecv)) as [Ek|Ek];
    [|intros [= <- <-]; do 3 (split; [done|]); exists []; split; [by apply Hs'|done]].
  destruct (recvmsg_done c b) as [[[fl st] b1]|] eqn:Er; [|discriminate]. cbn [mbind option_bind].
  destruct (recvmsg_done_spec _ _ _ _ _ Er) as ((S1 & C1 & W1 & P1) & F1 & _).
  destruct (recv_result c b1) as [r b2] eqn:Er2. destruct (recv_result_spec _ _ _ _ Er2) as ((S2' & C2 & W2 & P2) & R2).
  intros [= <- <-]. split; [exact (eq_trans S2' S1)|]. split; [exact (eq_trans C2 C1)|]. split; [exact (eq_trans P2 P1)|]. exists []. split; [apply Hs; [exact F1|]|intros u; unfold owed; rewrite W2, W1; apply le_n].
  unfold result_of. rewrite Ew. destruct R2 as [->|?]; [by left|right; by split].
Qed.

(** A wake from another thread. *)
Definition is_wake (c : Cqe) : bool := (user_data c =? kWakeTag) || (user_data c =? kMsgRingWakeTag).

Lemma recvmsg_done_rest c b fl st b' :
  recvmsg_done c b = Some (fl, st, b') -> enters b' = enters b /\ saw_wake_ b' = saw_wake_ b.
Proof.
  unfold recvmsg_done. destruct (ts_pending_ b !! user_data c) as [i|]; [|intros [= _ _ <-]; done].
  destruct (0 <? res c); [|intros [= _ _ <-]; done]. destruct (contexts b !! i) as [x|]; [|discriminate]. cbn [mbind option_bind].
  destruct (if ts_on x then _ else _). destruct (inbox x); cbn [mbind option_bind]; intros [= _ _ <-]; done.
Qed.

Lemma recv_result_rest c b : enters (snd (recv_result c b)) = enters b /\ saw_wake_ (snd (recv_result c b)) = saw_wake_ b.
Proof.
  unfold recv_result. destruct (recv_dst_ b !! user_data c); [|done].
  destruct (bits _ _), (pbuf_ b); try done. by destruct (0 <? res c).
Qed.

(** A drained wake is remembered. *)
Lemma deliver_rest c b o b' :
  deliver c b = Some (o, b') -> enters b' = enters b /\ (saw_wake_ b' = false -> saw_wake_ b = false /\ is_wake c = false).
Proof.
  assert (is_internal (user_data c) = false -> is_wake c = false) as Hi.
  { intros Ei. unfold is_wake. apply orb_false_iff.
    split; apply Z.eqb_neq; intros E; rewrite E in Ei; by vm_compute in Ei. }
  unfold deliver. destruct (is_internal (user_data c)) eqn:Ei.
  { intros [= _ <-]. unfold internal_cqe, is_wake.
    destruct (_ =? kWakeTag); [done|]. destruct (_ =? kMsgRingWakeTag); [done|].
    destruct (_ =? kMsgRingDoneSub); [|done]. by destruct (res c <? 0). }
  specialize (Hi eq_refl).
  destruct (_ && _); [intros [= _ <-]; done|].
  destruct (_ =? op_code OpWatch); [intros [= _ <-]; done|].
  destruct (_ =? op_code OpSend); [intros [= _ <-]; done|].
  destruct (_ =? op_code OpConnect); [intros [= _ <-]; done|].
  destruct (_ =? op_code OpAccept); [intros [= _ <-]; by destruct (bits _ _)|].
  destruct (_ =? op_code OpRecv); [|intros [= _ <-]; done].
  destruct (recvmsg_done c b) as [[[fl st] b1]|] eqn:Er; [|discriminate]. cbn [mbind option_bind].
  destruct (recvmsg_done_rest _ _ _ _ _ Er) as [E1 W1]. pose proof (recv_result_rest c b1) as [E2 W2].
  destruct (recv_result c b1) as [r b2]. cbn [snd] in *. intros [= _ <-].
  split; [exact (eq_trans E2 E1)|]. intros H. split; [|exact Hi]. rewrite <- W1, <- W2. exact H.
Qed.

(** The entries the loop went over are the next ones that were posted. *)
Record looped (cap : nat) (out : list Completion) (seen : list Cqe) (b : UringBackend)
    (out' : list Completion) (seen' : list Cqe) (head' : Z) (b' : UringBackend) : Prop := {
  lp_sq : sq b' = sq b;
  lp_cq : cq b' = cq b;
  lp_poll : sqpoll_ b' = sqpoll_ b;
  lp_enters : enters b' = enters b;
  lp_head : head' = u32 (zlen (drained (cq b)) + zlen seen');
  lp_prefix : (drained (cq b) ++ seen') `prefix_of` posted (cq b);
  lp_shown : exists ts cs o, seen' = seen ++ cs /\ out' = out ++ o /\ Shown ts cs o /\ forall u, (times u ts + owed u b' <= owed u b)%nat;
  lp_cap : (length out' <= Nat.max cap (length out))%nat;
  lp_all : (length out' < cap)%nat -> drained (cq b) ++ seen' = posted (cq b);
  lp_wake : saw_wake_ b' = false ->
    saw_wake_ b = false /\ (Forall (fun c => is_wake c = false) seen -> Forall (fun c => is_wake c = false) seen') }.

Lemma drain_loop_spec n cap out seen b out' seen' head' b' :
  cq_ok m (cq b) ->
  (drained (cq b) ++ seen) `prefix_of` posted (cq b) ->
  (length (drained (cq b)) + length seen + n = length (posted (cq b)))%nat ->
  drain_loop n (u32 (zlen (drained (cq b)) + zlen seen)) cap out seen b = Some (out', seen', head', b') ->
  looped cap out seen b out' seen' head' b'.
Proof.
  revert out seen b. induction n as [|n IH]; intros out seen b O Hp Hn; cbn [drain_loop].
  { intros [= <- <- <- <-]. split; try done; [|lia|].
    - exists [], [], []. rewrite !app_nil_r. split_and!; [done|done|constructor|done].
    - intros _. destruct Hp as [tl E]. rewrite E. apply (f_equal length) in E. rewrite !length_app in E.
      destruct tl; [by rewrite app_nil_r|simpl in E; lia]. }
  destruct (Nat.leb_spec cap (length out)).
  { intros [= <- <- <- <-]. split; try done; [|lia|lia]. exists [], [], []. rewrite !app_nil_r. split_and!; [done|done|constructor|done]. }
  destruct (lookup_lt_is_Some_2 (posted (cq b)) (length (drained (cq b)) + length seen)) as [c Hc]; [lia|].
  assert (cqes (cq b) !! Z.land (u32 (zlen (drained (cq b)) + zlen seen)) (cq_entries (cq b) - 1) = Some c) as ->.
  { destruct O. rewrite cq_size0, ring_slot by lia. rewrite <- (cq_slots0 (length (drained (cq b)) + length seen)%nat c);
      [|lia|done]. do 2 f_equal. unfold zlen. lia. }
  cbn [mbind option_bind]. destruct (deliver c b) as [[o b1]|] eqn:Ed; [|discriminate]. cbn [mbind option_bind].
  destruct (deliver_spec _ _ _ _ Ed) as (S1 & C1 & Q1 & n1 & H1 & W1). destruct (deliver_rest _ _ _ _ Ed) as [E1 K1].
  assert ((drained (cq b) ++ seen ++ [c]) `prefix_of` posted (cq b)) as Hp'.
  { destruct Hp as [tl E]. rewrite E in Hc. rewrite lookup_app_r in Hc by (rewrite length_app; lia).
    rewrite length_app, Nat.sub_diag in Hc. destruct tl as [|c' tl]; [done|]. injection Hc as ->.
    exists tl. rewrite E. by rewrite <- !app_assoc. }
  rewrite u32_succ. replace (zlen (drained (cq b)) + zlen seen + 1) with (zlen (drained (cq b1)) + zlen (seen ++ [c]))
    by (rewrite C1, zlen_app; unfold zlen; simpl; lia).
  intros E. apply IH in E; [|by rewrite C1|by rewrite C1|rewrite C1, length_app; simpl; lia].
  destruct E as [S2 C2 Q2 E2 H2 P2 (n2 & cs & o2 & Es & Eo & Sh & W2) L2 A2 K2].
  rewrite C1 in *. split; try congruence; [| |exact A2|].
  - exists (n1 ++ n2), (c :: cs), (option_list o ++ o2). rewrite Es, Eo, <- !app_assoc.
    split_and!; [done|done|by apply (Shown_app n1 n2 [c])|]. intros u. specialize (W1 u). specialize (W2 u). rewrite times_app. lia.
  - rewrite length_app in L2. destruct o; simpl in L2; lia.
  - intros Hw. destruct (K2 Hw) as [Hw1 HF]. destruct (K1 Hw1) as [Hw0 Hc0]. split; [done|].
    intros Hf. apply HF, Forall_app. split; [done|]. by constructor.
Qed.

Record drained_by (cap : nat) (cs : list Cqe) (out : list Completion) (b b' : UringBackend) : Prop := {
  dr_moves : moves k m cs out b b';
  dr_enters : enters b' = enters b;
  dr_posted : posted (cq b') = posted (cq b);
  dr_cap : (length out <= cap)%nat;
  dr_all : (length out < cap)%nat -> drained (cq b') = posted (cq b);
  dr_wake : saw_wake_ b' = false -> Forall (fun c => is_wake c = false) cs;
  dr_pending : pending (sq b) <= pending (sq b');
  dr_shown : exists ts, Shown ts cs out /\ forall u, (times u ts <= owed u b)%nat }.

Lemma arm_wake_rest b :
  ok k m b ->
  let b' := snd (arm_wake_poll wake_fd b) in
  cq b' = cq b /\ saw_wake_ b' = saw_wake_ b /\ enters b' = enters b /\ pending (sq b) <= pending (sq b').
Proof.
  intros O. unfold arm_wake_poll. pose proof (stage_spec k (SPollAdd wake_fd POLLIN kWakeTag) _ (ok_sq _ _ _ O)) as H.
  destruct (stage _ (sq b)) as [q|]; [|done]. destruct H as (_ & _ & _ & P). simpl. split_and!; try done. lia.
Qed.

Lemma drain_cq_spec cap b out b' : ok k m b -> drain_cq wake_fd cap b = Some (out, b') -> exists cs, drained_by cap cs out b b'.
Proof.
  intros O. pose proof (ok_cq _ _ _ O) as Oc. unfold drain_cq.
  assert (Z.to_nat (u32 (cq_tail (cq b) - cq_head (cq b))) = (length (posted (cq b)) - length (drained (cq b)))%nat) as Hn.
  { destruct Oc. pose proof (pow_31 m cq_k0). rewrite cq_head_is0, cq_tail_is0, ring_count by lia. unfold zlen. lia. }
  destruct (drain_loop _ _ _ _ _ _) as [[[[o cs] head] b1]|] eqn:E; [|discriminate]. cbn [mbind option_bind].
  rewrite Hn in E. assert (cq_head (cq b) = u32 (zlen (drained (cq b)) + zlen (@nil Cqe))) as Hh
    by (rewrite (cq_head_is _ _ Oc); f_equal; unfold zlen; simpl; lia).
  rewrite Hh in E.
  assert ((drained (cq b) ++ []) `prefix_of` posted (cq b)) as Hpre.
  { rewrite app_nil_r. rewrite (cq_prefix _ _ Oc). apply prefix_take. }
  apply drain_loop_spec in E; [|done|done|pose proof (cq_fits _ _ Oc); unfold zlen in *; simpl; lia].
  destruct E as [S2 C2 Q2 E2 H2 P2 (n2 & cs' & o2 & Es & Eo & Sh & W2) L2 A2 K2]. simpl in Es, Eo. subst cs' o2.
  set (q := mkCq _ _ _ _ _ _ _). set (b2 := set_cq q b1).
  assert (cq_ok m q) as Oq.
  { destruct Oc. subst q. rewrite C2. split; cbn [cq_head cq_tail cq_entries cqes posted drained]; try done.
    - rewrite H2. by rewrite zlen_app.
    - pose proof (prefix_length _ _ P2) as PL. rewrite length_app in PL. rewrite zlen_app. unfold zlen in *. lia.
    - destruct P2 as [tl ->]. by rewrite take_app_length.
    - intros j c Hj. apply cq_slots0. rewrite length_app in Hj. lia. }
  assert (moves k m cs o b b2) as M.
  { split; [split; [subst b2; simpl; rewrite S2; apply O|done]|subst b2; simpl; by rewrite S2|subst b2 q; simpl; by rewrite C2
           |subst b2 q; simpl; by rewrite C2| |done|subst b2; simpl; by rewrite S2].
    exists n2. split; [done|]. intros u. specialize (W2 u). subst b2. unfold owed in *. simpl. rewrite S2. lia. }
  pose proof (mv_ok _ _ _ _ _ _ M) as O2. pose proof (arm_wake_quiet _ O2) as Mw.
  destruct (arm_wake_rest _ O2) as (Cw & Ww & Ew & Pw).
  intros [= <- <-]. exists cs. subst b2.
  assert (forall b3, quiet k m (set_cq q b1) b3 -> cq b3 = q -> saw_wake_ b3 = saw_wake_ b1 -> enters b3 = enters b1 ->
          pending (sq b1) <= pending (sq b3) -> drained_by cap cs o b b3) as Hend.
  { intros b3 M3 C3 W3 E3 P3. split.
    - rewrite <- (app_nil_r cs), <- (app_nil_r o). by eapply moves_trans.
    - by rewrite E3.
    - rewrite C3. subst q. simpl. by rewrite C2.
    - simpl in L2. lia.
    - intros Hl. rewrite C3. subst q. simpl. rewrite C2. by apply A2.
    - intros Hw. rewrite W3 in Hw. by apply (K2 Hw).
    - by rewrite <- S2.
    - exists n2. split; [done|]. intros u. specialize (W2 u). lia. }
  destruct (wake_armed_ b1); apply Hend; try done. by apply rings_quiet_refl.
Qed.

(** ** Waiting *)

Lemma enter_log s mc b : enters (snd (uring_enter kernel s mc b)) = enters b ++ [(s, mc, e_ret (kernel (length (enters b))))].
Proof. done. Qed.

(** What is staged is submitted, and only a call that may wait blocks. *)
Lemma wait_enter_spec cw nw b :
  ok k m b ->
  let b' := wait_enter kernel (pending (sq b)) cw nw (set_sq (commit_sqes (sq b)) b) in
  quiet k m b b' /\
  exists es, enters b' = enters b ++ es /\
    forall s r, (s, 1, r) ∈ es -> cw = true /\ (sqpoll_ b = false -> s = pending (sq b)).
Proof.
  intros O. cbv zeta. unfold wait_enter. pose proof (commit_quiet b O) as C. pose proof (mv_ok _ _ _ _ _ _ C) as O1.
  cbn [set_sq sqpoll_]. fold (set_sq (commit_sqes (sq b)) b). destruct (sqpoll_ b) eqn:Ep.
  - set (b1 := if nw then _ else _).
    assert (quiet k m b b1 /\ exists es, enters b1 = enters b ++ es /\ forall s r, (s, 1, r) ∈ es -> False) as (Q1 & es & E1 & N1).
    { subst b1. destruct nw.
      - split; [eapply rings_quiet_trans; [done|apply enter_quiet; auto]|]. eexists. split; [exact (enter_log 0 0 (set_sq (commit_sqes (sq b)) b))|].
        intros s r H. by apply list_elem_of_singleton in H.
      - split; [done|]. exists []. split; [by rewrite app_nil_r|]. intros s r H. by apply not_elem_of_nil in H. }
    destruct cw.
    + split; [eapply rings_quiet_trans; [done|apply enter_quiet; [exact (mv_ok _ _ _ _ _ _ Q1)|auto]]|].
      eexists. rewrite enter_log, E1, <- app_assoc. split; [done|]. done.
    + split; [done|]. exists es. split; [done|]. intros s r H. by destruct (N1 s r).
  - destruct ((0 <? pending (sq b)) || cw).
    + split; [by apply commit_enter_quiet|]. eexists.
      split; [exact (enter_log (pending (sq b)) (if cw then 1 else 0) (set_sq (commit_sqes (sq b)) b))|].
      intros s r H. apply list_elem_of_singleton in H. destruct cw; [|done]. split; [done|]. intros _. congruence.
    + split; [done|]. exists []. split; [by rewrite app_nil_r|]. intros s r H. by apply not_elem_of_nil in H.
Qed.

Record waited (cap : nat) (timeout : Z) (cs : list Cqe) (out : list Completion) (b b' : UringBackend) : Prop := {
  wt_moves : moves k m cs out b b';
  wt_cap : (length out <= cap)%nat;
  wt_all : (length out < cap)%nat -> drained (cq b') = posted (cq b');
  wt_block : exists es, enters b' = enters b ++ es /\
    forall s r, (s, 1, r) ∈ es -> (0 < cap)%nat ->
      0 < timeout /\ (sqpoll_ b = false -> pending (sq b) <= s) /\
      let held := drop (length (drained (cq b))) (posted (cq b)) in
      Forall (fun c => is_wake c = false) held /\ exists ts, Shown ts held [] /\ forall u, (times u ts <= owed u b)%nat }.

Lemma wait_spec cap timeout nw b out b' :
  ok k m b -> wait kernel wake_fd cap timeout nw b = Some (out, b') -> exists cs, waited cap timeout cs out b b'.
Proof.
  intros O. unfold wait. set (b0 := set_wake _ _ b).
  assert (quiet k m b b0) as Q0 by (by apply quiet_of_same). pose proof (mv_ok _ _ _ _ _ _ Q0) as O0.
  destruct (drain_cq wake_fd cap b0) as [[out1 b1]|] eqn:E1; [|discriminate]. cbn [mbind option_bind].
  destruct (drain_cq_spec _ _ _ _ O0 E1) as [cs1 [M1 N1 P1 L1 A1 W1 G1 H1]]. pose proof (mv_ok _ _ _ _ _ _ M1) as O1.
  set (cw := (_ =? 0)%nat && _ && _). destruct (wait_enter_spec cw nw b1 O1) as (Q2 & es & E2 & B2).
  set (b2 := wait_enter _ _ _ _ _) in *. pose proof (mv_ok _ _ _ _ _ _ Q2) as O2.
  assert (moves k m cs1 out1 b b2) as M2.
  { pose proof (moves_trans _ _ _ _ _ _ _ _ _ (moves_trans _ _ _ _ _ _ _ _ _ Q0 M1) Q2) as M. by rewrite !app_nil_r in M. }
  assert (forall s r, (s, 1, r) ∈ es -> (0 < cap)%nat ->
      0 < timeout /\ (sqpoll_ b = false -> pending (sq b) <= s) /\
      let held := drop (length (drained (cq b))) (posted (cq b)) in
      Forall (fun c => is_wake c = false) held /\ exists ts, Shown ts held [] /\ forall u, (times u ts <= owed u b)%nat) as HB.
  { intros s r He Hc. destruct (B2 s r He) as [Ecw Hs]. subst cw. apply andb_prop in Ecw as [Ecw Et].
    apply andb_prop in Ecw as [El Ew]. apply Z.ltb_lt in Et. apply Nat.eqb_eq in El. apply negb_true_iff in Ew.
    split; [done|]. split; [intros Ep; rewrite Hs; [exact G1|by rewrite (mv_poll _ _ _ _ _ _ M1)]|].
    assert (drop (length (drained (cq b))) (posted (cq b)) = cs1) as ->.
    { change (cq b) with (cq b0). rewrite <- A1 by lia. rewrite (mv_drained _ _ _ _ _ _ M1). by rewrite drop_app_length. }
    split; [by apply W1|]. apply length_zero_iff_nil in El. by subst out1. }
  destruct (Nat.ltb_spec (length out1) cap) as [Hl|Hl].
  - destruct (drain_cq wake_fd (cap - length out1) b2) as [[out2 b3]|] eqn:E3; [|discriminate]. cbn [mbind option_bind].
    destruct (drain_cq_spec _ _ _ _ O2 E3) as [cs2 [M3 N3 P3 L3 A3 W3 G3 _]]. intros [= <- <-]. exists (cs1 ++ cs2).
    split; [by eapply moves_trans|rewrite length_app; lia|rewrite length_app, P3; intros; apply A3; lia|].
    exists es. split; [|done]. by rewrite N3, E2, N1.
  - intros [= <- <-]. exists cs1. split; [done|done|lia|]. exists es. split; [|done]. by rewrite E2, N1.
Qed.

Lemma kpoll_quiet b : ok k m b -> quiet k m b (if sqpoll_ b then set_sq (kernel_take (sq b)) b else b).
Proof.
  intros O. destruct (sqpoll_ b) eqn:Ep; [|by apply rings_quiet_refl].
  destruct (take_ok k _ (ok_sq _ _ _ O)) as (O1 & I1 & _). apply quiet_sq; [done|done|by rewrite I1|congruence].
Qed.

Lemma kpost_quiet c b : ok k m b -> quiet k m b (set_cq (kernel_post c (cq b)) b).
Proof. intros O. destruct (post_ok m c _ (ok_cq _ _ _ O)) as (O1 & D1 & P1). by apply quiet_cq. Qed.

Lemma step_moves a b out b' : ok k m b -> step kernel wake_fd a b = Some (out, b') -> exists cs, moves k m cs out b b'.
Proof.
  intros O. destruct a; cbn [step]; try (intros [= <- <-]; exists []).
  - by apply attach_quiet.
  - by apply modify_quiet.
  - by apply detach_quiet.
  - apply quiet_of_same; [done|apply set_timestamping_same].
  - apply quiet_of_same; [done|apply set_fd_inbox_same].
  - by apply submit_recv_quiet.
  - by apply submit_quiet.
  - by apply submit_sendv_quiet.
  - by apply submit_accept_quiet.
  - by apply submit_connect_quiet.
  - by apply submit_quiet.
  - by apply msg_ring_wake_quiet.
  - intros E. destruct (wait_spec _ _ _ _ _ _ O E) as [cs Hw]. exists cs. apply Hw.
  - by apply kpoll_quiet.
  - by apply kpost_quiet.
  - by apply quiet_of_same.
Qed.

Lemma run_moves acts b out b' : ok k m b -> run kernel wake_fd acts b = Some (out, b') -> exists cs, moves k m cs out b b'.
Proof.
  revert b out. induction acts as [|a acts IH]; intros b out O; cbn [run].
  { intros [= <- <-]. exists []. by apply rings_quiet_refl. }
  destruct (step kernel wake_fd a b) as [[o1 b1]|] eqn:E1; [|discriminate]. cbn [mbind option_bind].
  destruct (step_moves _ _ _ _ O E1) as [cs1 M1].
  destruct (run kernel wake_fd acts b1) as [[o2 b2]|] eqn:E2; [|discriminate]. cbn [mbind option_bind].
  intros [= <- <-]. destruct (IH _ _ (mv_ok _ _ _ _ _ _ M1) E2) as [cs2 M2]. exists (cs1 ++ cs2). by eapply moves_trans.
Qed.

(** ** Receive contexts *)

(** Every context that a descriptor or a pending receive refers to exists. *)
Record ctx_ok (b : UringBackend) : Prop := {
  cx_pending : forall u c, ts_pending_ b !! u = Some c -> is_Some (contexts b !! c) /\ c < fresh_ctx b;
  cx_table : forall fd c, ts_ctx_ b !! fd = Some c -> is_Some (contexts b !! c) /\ c < fresh_ctx b;
  cx_inj : forall fd fd' c, ts_ctx_ b !! fd = Some c -> ts_ctx_ b !! fd' = Some c -> fd = fd' }.

Definition ctx_same (b b' : UringBackend) : Prop :=
  ts_pending_ b' = ts_pending_ b /\ contexts b' = contexts b /\ ts_ctx_ b' = ts_ctx_ b /\ fresh_ctx b' = fresh_ctx b.

Lemma ctx_ok_same b b' : ctx_same b b' -> ctx_ok b -> ctx_ok b'.
Proof. intros (E1 & E2 & E3 & E4) [H1 H2 H3]. split; rewrite ?E1, ?E2, ?E3, ?E4; done. Qed.

Lemma stage_or_flush_ctx s b : ctx_same b (snd (stage_or_flush kernel s b)).
Proof.
  unfold stage_or_flush. destruct (stage s (sq b)); [done|]. unfold flush_full_sq.
  destruct (_ =? 0); [by destruct (stage s _)|]. destruct (uring_enter _ _ _ _) as [r b1] eqn:E.
  assert (ctx_same b b1) as Hs by (unfold uring_enter in E; by simplify_eq).
  destruct (r <? 0); [done|]. by destruct (stage s _).
Qed.

Lemma submit_ctx s f b : (forall b, ctx_same b (f b)) -> ctx_same b (snd (submit kernel s f b)).
Proof.
  intros Hf. unfold submit. pose proof (stage_or_flush_ctx s b) as H. destruct (stage_or_flush kernel s b) as [[v|e] b']; [|done].
  destruct H as (? & ? & ? & ?), (Hf b') as (? & ? & ? & ?). split_and!; simpl in *; congruence.
Qed.

Lemma ctx_same_trans b1 b2 b3 : ctx_same b1 b2 -> ctx_same b2 b3 -> ctx_same b1 b3.
Proof. intros (? & ? & ? & ?) (? & ? & ? & ?). split_and!; congruence. Qed.

Lemma attach_ctx fd i u b : ctx_same b (snd (attach kernel fd i u b)).
Proof.
  unfold attach. destruct (watch_ b !! fd) as [old|].
  - pose proof (stage_or_flush_ctx (SPollRemove old) b) as H. destruct (stage_or_flush kernel _ b) as [[v|e] b1]; [|done].
    eapply ctx_same_trans; [exact H|]. simpl. pose proof (stage_or_flush_ctx (SPollAdd fd (to_poll i) u) b1) as H1.
    by destruct (stage_or_flush kernel _ b1) as [[v'|e] b2].
  - pose proof (stage_or_flush_ctx (SPollAdd fd (to_poll i) u) b) as H1.
    by destruct (stage_or_flush kernel _ b) as [[v'|e] b2].
Qed.

Lemma modify_ctx fd i u b : ctx_same b (snd (modify kernel fd i u b)).
Proof.
  unfold modify. destruct (watch_ b !! fd) as [old|]; [|done].
  pose proof (stage_or_flush_ctx (SPollRemove old) b) as H. destruct (stage_or_flush kernel _ b) as [[v|e] b1]; [|done].
  eapply ctx_same_trans; [exact H|]. cbv zeta. cbn [snd]. set (b2 := set_watch _ _ b1).
  pose proof (stage_or_flush_ctx (SPollAdd fd (to_poll i) u) b2) as H1.
  by destruct (stage_or_flush kernel _ b2) as [[v'|e] b3].
Qed.

Lemma msg_ring_wake_ctx t mb b : ctx_same b (snd (msg_ring_wake kernel t mb b)).
Proof.
  unfold msg_ring_wake. destruct (_ || _); [done|]. cbv zeta. set (b1 := set_msg _ _ _ _ _ b).
  destruct (msgring_fb_ b1 !! _); [done|].
  pose proof (stage_or_flush_ctx (SMsgRing t (Z.land (msgring_head_ b) (kMsgringSlots - 1))) b1) as H.
  by destruct (stage_or_flush kernel _ b1) as [[v|e] b2].
Qed.

(** No pending receive uses the context of [fd]. *)
Definition unused (fd : Z) (b : UringBackend) : bool :=
  match ts_ctx_ b !! fd with
  | Some c => bool_decide (map_Forall (fun _ c' => c' <> c) (ts_pending_ b))
  | None => true
  end.

Lemma erase_ctx_ok fd b : ctx_ok b -> unused fd b = true -> ctx_ok (erase_ctx fd b).
Proof.
  intros [H1 H2 H3] Hu. unfold erase_ctx. unfold unused in Hu. destruct (ts_ctx_ b !! fd) as [c|] eqn:E; [|by split].
  apply bool_decide_eq_true in Hu. split; simpl.
  - intros u c' Hp. rewrite lookup_delete_ne; [by eapply H1|]. intros <-. by apply (Hu u c).
  - intros fd' c' [Hne Hl]%lookup_delete_Some. rewrite lookup_delete_ne; [by eapply H2|]. intros <-. apply Hne. by eapply H3.
  - intros fd1 fd2 c' [_ Hl1]%lookup_delete_Some [_ Hl2]%lookup_delete_Some. by eapply H3.
Qed.

Lemma put_ctx_ok c x b : ctx_ok b -> ctx_ok (put_ctx c x b).
Proof.
  intros [H1 H2 H3]. split; simpl; [intros u c' Hp; destruct (H1 _ _ Hp)|intros fd c' Hp; destruct (H2 _ _ Hp)|done];
    rewrite lookup_insert_is_Some'; auto.
Qed.

Lemma ctx_of_ok fd b : ctx_ok b -> ctx_ok (snd (ctx_of fd b)) /\ ts_pending_ (snd (ctx_of fd b)) = ts_pending_ b.
Proof.
  intros O. unfold ctx_of. destruct (ts_ctx_ b !! fd) as [c|] eqn:E; [done|]. split; [|done]. destruct O as [H1 H2 H3]. split; simpl.
  - intros u c Hp. destruct (H1 _ _ Hp). rewrite lookup_insert_is_Some'. split; [by right|lia].
  - intros fd' c [[<- <-]|[Hne Hl]]%lookup_insert_Some; [rewrite lookup_insert_eq; split; [done|lia]|].
    destruct (H2 _ _ Hl) as [? ?]. rewrite lookup_insert_is_Some'. split; [by right|lia].
  - intros fd1 fd2 c [[<- <-]|[Hne Hl]]%lookup_insert_Some [[Hq Hq']|[Hne' Hl']]%lookup_insert_Some; try done.
    + destruct (H2 _ _ Hl'). lia.
    + subst. destruct (H2 _ _ Hl). lia.
    + by eapply H3.
Qed.

(** A new context is of no pending receive. *)
Lemma ctx_of_unused fd b : ctx_ok b -> unused fd b = true -> unused fd (snd (ctx_of fd b)) = true.
Proof.
  intros O. unfold ctx_of, unused. destruct (ts_ctx_ b !! fd) as [c|] eqn:E; simpl; [by rewrite E|]. intros _.
  rewrite lookup_insert_eq. apply bool_decide_eq_true. intros u c Hp ->. destruct (cx_pending _ O _ _ Hp). lia.
Qed.

Lemma set_timestamping_ok fd on b : ctx_ok b -> (on = false -> unused fd b = true) -> ctx_ok (set_timestamping fd on b).
Proof.
  intros O Hu. unfold set_timestamping. destruct (ctx_of_ok fd b O) as [O1 _]. pose proof (ctx_of_unused fd b O) as U1.
  destruct (ctx_of fd b) as [[c x] b1]. simpl in O1, U1. destruct on, (inbox x); try by do 2 apply put_ctx_ok.
  apply erase_ctx_ok; [by apply put_ctx_ok|exact (U1 (Hu eq_refl))].
Qed.

Lemma set_fd_inbox_ok fd cap b : ctx_ok b -> (cap = None -> unused fd b = true) -> ctx_ok (set_fd_inbox fd cap b).
Proof.
  intros O Hu. unfold set_fd_inbox. destruct (ctx_of_ok fd b O) as [O1 _]. pose proof (ctx_of_unused fd b O) as U1.
  destruct (ctx_of fd b) as [[c x] b1]. simpl in O1, U1. destruct cap, (ts_on x); try by do 2 apply put_ctx_ok.
  apply erase_ctx_ok; [by apply put_ctx_ok|exact (U1 (Hu eq_refl))].
Qed.

Lemma detach_ctx_ok fd b : ctx_ok b -> unused fd b = true -> ctx_ok (snd (detach kernel fd b)).
Proof.
  intros O Hu. unfold detach. destruct (watch_ b !! fd) as [old|]; [|done].
  pose proof (stage_or_flush_ctx (SPollRemove old) b) as H. destruct (stage_or_flush kernel _ b) as [[v|e] b1]; simpl in H;
    [|by eapply ctx_ok_same].
  apply erase_ctx_ok; [eapply ctx_ok_same; [|done]; done|]. destruct H as (Hp & _ & Ht & _). unfold unused in *. simpl. by rewrite Hp, Ht.
Qed.

Lemma submit_recv_ok u fd len b : ctx_ok b -> ctx_ok (snd (submit_recv kernel u fd len b)).
Proof.
  intros O. unfold submit_recv.
  assert (forall c, ts_ctx_ b !! fd = Some c -> ctx_ok (snd (submit kernel (SRecvmsg fd c u)
    (fun b => set_ctx (ts_ctx_ b) (contexts b) (fresh_ctx b) (<[u := c]> (ts_pending_ b)) b) b))) as Hr.
  { intros c Ec. unfold submit. pose proof (stage_or_flush_ctx (SRecvmsg fd c u) b) as H.
    destruct (stage_or_flush kernel _ b) as [[v|e] b1]; simpl in H; [|by eapply ctx_ok_same].
    pose proof (ctx_ok_same _ _ H O) as [H1 H2 H3]. destruct H as (_ & _ & Ht & _). split; simpl; [|done|done].
    intros u' c' [[<- <-]|[_ Hl]]%lookup_insert_Some; [|by eapply H1]. apply (H2 fd). by rewrite Ht. }
  destruct (pbuf_ b), (recv_dst_ b !! u), (ts_ctx_ b !! fd); try done; try (by apply Hr);
    (eapply ctx_ok_same; [by apply submit_ctx|done]).
Qed.

(** ** No fault *)

Lemma recvmsg_done_total c b :
  ctx_ok b -> exists fl st b', recvmsg_done c b = Some (fl, st, b') /\ ctx_ok b'.
Proof.
  intros O. unfold recvmsg_done. destruct (ts_pending_ b !! user_data c) as [i|] eqn:Ep; [|by eauto].
  assert (forall b1, ctx_ok b1 ->
    ctx_ok (set_ctx (ts_ctx_ b1) (contexts b1) (fresh_ctx b1) (delete (user_data c) (ts_pending_ b1)) b1)) as Hd.
  { intros b1 [H1 H2 H3]. split; simpl; [|done|done]. intros u c' [_ Hl]%lookup_delete_Some. by eapply H1. }
  destruct (0 <? res c); [|cbn [mbind option_bind]; eauto 6].
  destruct (cx_pending _ O _ _ Ep) as [[x Ex] _]. rewrite Ex. cbn [mbind option_bind].
  destruct (if ts_on x then _ else _). destruct (inbox x); cbn [mbind option_bind]; do 3 eexists; (split; [reflexivity|]); apply Hd.
  - apply (ctx_ok_same (put_ctx i (mkCtx (ts_on x) (Some n) (controllen c) (take n (rights c))) b)); [done|by apply put_ctx_ok].
  - by apply put_ctx_ok.
Qed.

Lemma deliver_total c b : ctx_ok b -> exists o b', deliver c b = Some (o, b') /\ ctx_ok b'.
Proof.
  intros O. unfold deliver. destruct (is_internal (user_data c)).
  { do 2 eexists. split; [reflexivity|]. eapply ctx_ok_same; [|exact O]. unfold internal_cqe.
    destruct (_ =? kWakeTag); [done|]. destruct (_ =? kMsgRingWakeTag); [done|].
    destruct (_ =? kMsgRingDoneSub); [|done]. by destruct (res c <? 0). }
  assert (forall o b', ctx_same b b' -> exists o' b'', Some (o, b') = Some (o' : option Completion, b'') /\ ctx_ok b'') as Hs.
  { intros o b' Hs. do 2 eexists. split; [reflexivity|]. by eapply ctx_ok_same. }
  destruct (_ && _); [by apply Hs|].
  destruct (_ =? op_code OpWatch); [by apply Hs|].
  destruct (_ =? op_code OpSend); [by apply Hs|].
  destruct (_ =? op_code OpConnect); [by apply Hs|].
  destruct (_ =? op_code OpAccept); [apply Hs; by destruct (bits _ _)|].
  destruct (_ =? op_code OpRecv); [|by apply Hs]. clear Hs.
  destruct (recvmsg_done_total c b O) as (fl & st & b1 & -> & O1). cbn [mbind option_bind].
  destruct (recv_result c b1) as [r b2] eqn:E. do 2 eexists. split; [reflexivity|]. eapply ctx_ok_same; [|exact O1].
  revert E. unfold recv_result. destruct (recv_dst_ b1 !! _); [|intros [= _ <-]; done].
  destruct (bits _ _), (pbuf_ b1); try (intros [= _ <-]; done). destruct (0 <? res c); intros [= _ <-]; done.
Qed.

Lemma drain_loop_total n cap out seen b :
  cq_ok m (cq b) -> ctx_ok b -> (length (drained (cq b)) + length seen + n <= length (posted (cq b)))%nat ->
  exists out' seen' head' b',
    drain_loop n (u32 (zlen (drained (cq b)) + zlen seen)) cap out seen b = Some (out', seen', head', b') /\ ctx_ok b'.
Proof.
  revert out seen b. induction n as [|n IH]; intros out seen b O X Hn; cbn [drain_loop]; [by eauto 8|].
  destruct (cap <=? length out)%nat; [by eauto 8|].
  destruct (lookup_lt_is_Some_2 (posted (cq b)) (length (drained (cq b)) + length seen)) as [c Hc]; [lia|].
  assert (cqes (cq b) !! Z.land (u32 (zlen (drained (cq b)) + zlen seen)) (cq_entries (cq b) - 1) = Some c) as ->.
  { destruct O. rewrite cq_size0, ring_slot by lia. rewrite <- (cq_slots0 (length (drained (cq b)) + length seen)%nat c);
      [|lia|done]. do 2 f_equal. unfold zlen. lia. }
  cbn [mbind option_bind]. destruct (deliver_total c b X) as (o & b1 & Ed & X1). rewrite Ed. cbn [mbind option_bind].
  destruct (deliver_spec _ _ _ _ Ed) as (_ & C1 & _).
  rewrite u32_succ. replace (zlen (drained (cq b)) + zlen seen + 1) with (zlen (drained (cq b1)) + zlen (seen ++ [c]))
    by (rewrite C1, zlen_app; unfold zlen; simpl; lia).
  apply IH; [by rewrite C1|done|rewrite C1, length_app; simpl; lia].
Qed.

Lemma drain_cq_total cap b : ok k m b -> ctx_ok b -> exists out b', drain_cq wake_fd cap b = Some (out, b') /\ ctx_ok b'.
Proof.
  intros O X. pose proof (ok_cq _ _ _ O) as Oc. unfold drain_cq.
  assert (Z.to_nat (u32 (cq_tail (cq b) - cq_head (cq b))) = (length (posted (cq b)) - length (drained (cq b)))%nat) as Hn.
  { destruct Oc. pose proof (pow_31 m cq_k0). rewrite cq_head_is0, cq_tail_is0, ring_count by lia. unfold zlen. lia. }
  assert (cq_head (cq b) = u32 (zlen (drained (cq b)) + zlen (@nil Cqe))) as Hh
    by (rewrite (cq_head_is _ _ Oc); f_equal; unfold zlen; simpl; lia).
  rewrite Hn, Hh.
  destruct (drain_loop_total (length (posted (cq b)) - length (drained (cq b))) cap [] [] b Oc X) as (o & cs & h & b1 & -> & X1).
  { pose proof (cq_fits _ _ Oc). unfold zlen in *. simpl. lia. }
  cbn [mbind option_bind]. do 2 eexists. split; [reflexivity|]. eapply ctx_ok_same; [|exact X1]. simpl.
  destruct (wake_armed_ b1); [done|]. unfold arm_wake_poll. by destruct (stage _ _).
Qed.

Lemma wait_enter_ctx sub cw nw b : ctx_same b (wait_enter kernel sub cw nw b).
Proof. unfold wait_enter. destruct (sqpoll_ b), nw, cw; try done; simpl; by destruct (_ || _). Qed.

Lemma wait_total cap timeout nw b :
  ok k m b -> ctx_ok b -> exists out b', wait kernel wake_fd cap timeout nw b = Some (out, b') /\ ctx_ok b'.
Proof.
  intros O X. unfold wait. set (b0 := set_wake _ _ b).
  assert (quiet k m b b0) as Q0 by (by apply quiet_of_same). pose proof (mv_ok _ _ _ _ _ _ Q0) as O0.
  destruct (drain_cq_total cap b0 O0) as (out1 & b1 & E1 & X1); [by apply (ctx_ok_same b)|]. rewrite E1. cbn [mbind option_bind].
  destruct (drain_cq_spec _ _ _ _ O0 E1) as [cs1 [M1 _ _ _ _ _ _]]. pose proof (mv_ok _ _ _ _ _ _ M1) as O1.
  set (cw := (_ =? 0)%nat && _ && _). destruct (wait_enter_spec cw nw b1 O1) as [Q2 _].
  pose proof (wait_enter_ctx (pending (sq b1)) cw nw (set_sq (commit_sqes (sq b1)) b1)) as W2.
  set (b2 := wait_enter _ _ _ _ _) in *. assert (ctx_ok b2) as X2 by (eapply ctx_ok_same; [exact W2|by apply (ctx_ok_same b1)]).
  destruct (length out1 <? cap)%nat; [|by eauto].
  destruct (drain_cq_total (cap - length out1) b2 (mv_ok _ _ _ _ _ _ Q2) X2) as (out2 & b3 & -> & X3). cbn [mbind option_bind]. eauto.
Qed.

(** A step that destroys no context of a pending receive. *)
Definition careful_step (a : Act) (b : UringBackend) : bool :=
  match a with
  | DoDetach fd | DoTimestamping fd false | DoInbox fd None => unused fd b
  | _ => true
  end.

Fixpoint careful (acts : list Act) (b : UringBackend) : bool :=
  match acts with
  | [] => true
  | a :: acts => careful_step a b && match step kernel wake_fd a b with Some (_, b) => careful acts b | None => true end
  end.

Lemma step_total a b :
  ok k m b -> ctx_ok b -> careful_step a b = true -> exists out b', step kernel wake_fd a b = Some (out, b') /\ ctx_ok b'.
Proof.
  intros O X. destruct a; cbn [step careful_step]; intros Hc;
    try (do 2 eexists; split; [reflexivity|]; eapply ctx_ok_same; [|exact X]; done).
  - do 2 eexists. split; [reflexivity|]. eapply ctx_ok_same; [apply attach_ctx|done].
  - do 2 eexists. split; [reflexivity|]. eapply ctx_ok_same; [apply modify_ctx|done].
  - do 2 eexists. split; [reflexivity|]. by apply detach_ctx_ok.
  - do 2 eexists. split; [reflexivity|]. apply set_timestamping_ok; [done|]. intros ->. exact Hc.
  - do 2 eexists. split; [reflexivity|]. apply set_fd_inbox_ok; [done|]. intros ->. exact Hc.
  - do 2 eexists. split; [reflexivity|]. by apply submit_recv_ok.
  - do 2 eexists. split; [reflexivity|]. eapply ctx_ok_same; [by apply submit_ctx|done].
  - do 2 eexists. split; [reflexivity|]. eapply ctx_ok_same; [|exact X]. unfold submit_sendv.
    destruct (64 <? zlen iov), (sendv_ b !! u); try done. by apply submit_ctx.
  - do 2 eexists. split; [reflexivity|]. eapply ctx_ok_same; [|exact X]. unfold submit_accept. destruct (_ && _); [done|].
    apply submit_ctx. intros b'. by destruct (multishot_accept_ b').
  - do 2 eexists. split; [reflexivity|]. eapply ctx_ok_same; [|exact X]. unfold submit_connect. destruct (bool_decide _); [done|].
    by apply submit_ctx.
  - do 2 eexists. split; [reflexivity|]. eapply ctx_ok_same; [by apply submit_ctx|done].
  - do 2 eexists. split; [reflexivity|]. eapply ctx_ok_same; [apply msg_ring_wake_ctx|done].
  - by apply wait_total.
  - do 2 eexists. split; [reflexivity|]. eapply ctx_ok_same; [|exact X]. by destruct (sqpoll_ b).
Qed.

Lemma run_total acts b : ok k m b -> ctx_ok b -> careful acts b = true -> is_Some (run kernel wake_fd acts b).
Proof.
  revert b. induction acts as [|a acts IH]; intros b O X; cbn [run careful]; [by eauto|].
  intros [Hc Hr]%andb_prop. destruct (step_total a b O X Hc) as (o & b1 & E1 & X1). rewrite E1 in Hr |- *.
  cbn [mbind option_bind]. destruct (step_moves _ _ _ _ O E1) as [cs M1].
  destruct (IH b1 (mv_ok _ _ _ _ _ _ M1) X1 Hr) as [[o2 b2] ->]. by eauto.
Qed.

Lemma init_spec setup mapped registered msg_ring mem cfg b :
  0 <= k <= 31 -> 0 <= m <= 31 -> (forall p r, setup p = Some r -> r = (2 ^ k, 2 ^ m)) ->
  init wake_fd setup mapped registered msg_ring mem cfg = Some b ->
  ok k m b /\ ctx_ok b /\ drained (cq b) = [] /\ posted (cq b) = [] /\ swallow_ b = ∅ /\ forall u, removes u (issued (sq b)) = 0%nat.
Proof.
  intros Hk Hm Hset. unfold init.
  destruct (match setup (want_sqpoll cfg) with Some r => Some r | None => _ end) as [[se ce]|] eqn:Es; [|discriminate].
  assert ((se, ce) = (2 ^ k, 2 ^ m)) as [= -> ->].
  { destruct (setup (want_sqpoll cfg)) eqn:E1; [simplify_eq; by eapply Hset|].
    destruct (want_sqpoll cfg); [by eapply Hset|discriminate]. }
  cbn [mbind option_bind]. destruct mapped; cbn [negb]; [|discriminate].
  set (b0 := mkU _ _ _ _ _ _ _ _ _ _ _ _ _ _ _ _ _ _ _ _ _ _ _ _ _ _).
  assert (ok k m b0) as O0 by (split; [by apply sq0_ok|by apply cq0_ok]).
  assert (ctx_ok b0) as X0 by (by split).
  unfold arm_wake_poll. destruct (stage _ (sq b0)) as [q|] eqn:Eq; [|discriminate]. cbn [negb].
  destruct (stage_quiet _ _ _ _ _ O0 Eq) as [[O1 _ _ _ _ _ _] R1].
  assert (forall b', sq b' = q -> cq b' = cq b0 -> swallow_ b' = ∅ -> ctx_same b0 b' ->
    ok k m b' /\ ctx_ok b' /\ drained (cq b') = [] /\ posted (cq b') = [] /\ swallow_ b' = ∅ /\ forall u, removes u (issued (sq b')) = 0%nat) as Hend.
  { intros b' Es' Ec' Ew' Ex'. split_and!; try (by rewrite ?Ec'); [|by eapply ctx_ok_same|intros u; by rewrite Es', R1].
    split; [rewrite Es'; exact (ok_sq _ _ _ O1)|rewrite Ec'; apply O0]. }
  destruct (use_pbuf_ring cfg); [destruct registered; [|discriminate]|]; intros [= <-]; by apply Hend.
Qed.

End Steps.

(** ** What the backend promises *)

(** C7: however the owner's calls, the kernel and its polling thread interleave,
    both rings are queues: the kernel takes the entries in the order they were
    issued, at most the size of the ring are outstanding, the entries read from the
    completion ring are the ones that were posted, in order, none lost or read
    twice, and the completions returned are one for each of them, in that order,
    with its tag, its result (that of a watch as readiness, that of a receive cut to
    its span) and its continuation flag, except the backend's own and, for each
    tag, no more cancellations than removals of the poll with that tag were issued. *)
Theorem uring_rings_are_queues kernel wake_fd k m setup mapped registered msg_ring mem cfg b0 acts out b :
  0 <= k <= 31 -> 0 <= m <= 31 -> (forall p r, setup p = Some r -> r = (2 ^ k, 2 ^ m)) ->
  init wake_fd setup mapped registered msg_ring mem cfg = Some b0 ->
  run kernel wake_fd acts b0 = Some (out, b) ->
  taken (sq b) `prefix_of` issued (sq b) /\ zlen (issued (sq b)) - zlen (taken (sq b)) <= 2 ^ k /\
  drained (cq b) `prefix_of` posted (cq b) /\ zlen (posted (cq b)) - zlen (drained (cq b)) <= 2 ^ m /\
  exists ts, Shown ts (drained (cq b)) out /\ forall u, (times u ts <= removes u (issued (sq b)))%nat.
Proof.
  intros Hk Hm Hset Hi Hr. destruct (init_spec _ _ _ _ _ _ _ _ _ _ Hk Hm Hset Hi) as (O & _ & D & _ & W & R).
  destruct (run_moves _ _ _ _ _ _ _ _ O Hr) as [cs [[Os Oc] I P Dr (n & Sh & L) Q B]].
  rewrite D in Dr. simpl in Dr. subst cs.
  split_and!; [rewrite (sq_prefix _ _ Os); apply prefix_take|apply Os|rewrite (cq_prefix _ _ Oc); apply prefix_take| |].
  - pose proof (cq_fits _ _ Oc). lia.
  - exists n. split; [done|]. intros u. specialize (L u). specialize (R u). assert (owed u b0 = 0%nat) as E0 by (unfold owed; by rewrite W). lia.
Qed.

(** C17: [wait] returns no more completions than there is room for, leaves nothing
    in the completion ring unless the room was used up, and blocks only if the
    timeout is positive, everything staged goes to the kernel with the call, and
    what the ring held on entry contains no wake and shows no completion: it is of
    the backend's own, or cancellations of tags that were to be swallowed on entry,
    one for each. *)
Theorem uring_wait_blocks_only_when_idle kernel wake_fd k m cap timeout nw b out b' :
  ok k m b -> wait kernel wake_fd cap timeout nw b = Some (out, b') ->
  (length out <= cap)%nat /\ ((length out < cap)%nat -> drained (cq b') = posted (cq b')) /\
  exists es, enters b' = enters b ++ es /\
    forall s r, (s, 1, r) ∈ es -> (0 < cap)%nat ->
      0 < timeout /\ (sqpoll_ b = false -> pending (sq b) <= s) /\
      let held := drop (length (drained (cq b))) (posted (cq b)) in
      Forall (fun c => is_wake c = false) held /\ exists ts, Shown ts held [] /\ forall u, (times u ts <= owed u b)%nat.
Proof. intros O H. destruct (wait_spec _ _ _ _ _ _ _ _ _ _ O H) as [cs [_ Hcap Hall Hb]]. done. Qed.

(** as long as no context is destroyed while a receive that uses it is in
    flight, no interleaving makes the backend read a destroyed context or a slot
    of the completion ring that was never written. *)
Theorem uring_no_fault kernel wake_fd k m setup mapped registered msg_ring mem cfg b0 acts :
  0 <= k <= 31 -> 0 <= m <= 31 -> (forall p r, setup p = Some r -> r = (2 ^ k, 2 ^ m)) ->
  init wake_fd setup mapped registered msg_ring mem cfg = Some b0 ->
  careful kernel wake_fd acts b0 = true ->
  is_Some (run kernel wake_fd acts b0).
Proof.
  intros Hk Hm Hset Hi Hc. destruct (init_spec _ _ _ _ _ _ _ _ _ _ Hk Hm Hset Hi) as (O & X & _). by eapply run_total.
Qed.

(** An operation on a ring full of entries that were committed. *)
Lemma full_ring_refuses kernel k m s b :
  ok k m b -> backlog (sq b) = 2 ^ k -> fst (stage_or_flush kernel s b) = Bad (make_error Internal Full).
Proof.
  intros O Hb. unfold stage_or_flush, flush_full_sq. pose proof (ok_sq _ _ _ O) as Os.
  pose proof (sq_pending _ _ Os). pose proof (sq_fits _ _ Os). unfold backlog in Hb. assert (pending (sq b) = 0) as Ep by lia.
  pose proof (pow_31 k (sq_k _ _ Os)) as Hp.
  pose proof (stage_spec k s _ Os) as St. destruct (stage s (sq b)) as [q|] eqn:Es.
  { destruct St as ([_ _ _ _ _ Hf _ _] & I & T & _). rewrite I, T, zlen_app in Hf. unfold zlen in *. simpl in Hf. lia. }
  rewrite Ep. cbn [Z.eqb]. unfold commit_sqes. rewrite Ep. cbn [Z.eqb set_sq sq]. by rewrite Es.
Qed.

(** one [io_uring_enter] that fails when the submission ring is full of staged
    entries disables the backend for good: the entries were committed, no later
    call submits them again, so that whatever happens afterwards every operation
    that needs an entry is refused. *)
Theorem uring_failed_enter_wedges kernel wake_fd k m b s e acts out b' :
  ok k m b -> sqpoll_ b = false -> pending (sq b) = 2 ^ k ->
  kernel (length (enters b)) = mkEntered (- e) 0 [] -> 0 < e ->
  run kernel wake_fd acts (snd (stage_or_flush kernel s b)) = Some (out, b') ->
  fst (stage_or_flush kernel s b) = Bad (errno_error e) /\
  forall s', fst (stage_or_flush kernel s' b') = Bad (make_error Internal Full).
Proof.
  intros O Hp Hfull Hke He Hr. pose proof (ok_sq _ _ _ O) as Os. pose proof (pow_31 k (sq_k _ _ Os)) as Hpow.
  pose proof (sq_pending _ _ Os). pose proof (sq_fits _ _ Os).
  assert (stage s (sq b) = None) as Es.
  { pose proof (stage_spec k s _ Os) as St. destruct (stage s (sq b)) as [q|]; [|done].
    destruct St as ([_ _ _ _ _ Hf _ _] & I & T & _). rewrite I, T, zlen_app in Hf. unfold zlen in *. simpl in Hf. lia. }
  pose proof (stage_or_flush_quiet kernel k m s b O) as Hq.
  assert (fst (stage_or_flush kernel s b) = Bad (errno_error e) /\ backlog (sq (snd (stage_or_flush kernel s b))) = 2 ^ k) as [E1 E2].
  { unfold stage_or_flush, flush_full_sq. rewrite Es. destruct (Z.eqb_spec (pending (sq b)) 0); [lia|].
    unfold uring_enter. cbn [set_sq enters sqpoll_ sq cq]. rewrite Hke, Hp. cbn [e_take e_ret e_posts Nat.min Nat.iter].
    destruct (Z.ltb_spec (- e) 0); [|lia]. rewrite Z.opp_involutive. split; [done|]. cbn [snd add_enter set_cq set_sq sq].
    destruct (commit_sqes_ok k _ Os) as (_ & I & T & P). unfold backlog.
    change (Nat.iter 0 kernel_take (commit_sqes (sq b))) with (commit_sqes (sq b)). rewrite I, T, P. lia. }
  split; [done|]. intros s'. destruct (stage_or_flush kernel s b) as [r b1]. destruct Hq as (Q & _). cbn [fst snd] in *.
  destruct (run_moves _ _ _ _ _ _ _ _ (mv_ok _ _ _ _ _ _ Q) Hr) as [cs [O2 _ _ _ _ _ B]].
  rewrite (mv_poll _ _ _ _ _ _ Q) in B. specialize (B Hp). apply (full_ring_refuses kernel k m); [done|].
  pose proof (sq_pending _ _ (ok_sq _ _ _ O2)). pose proof (sq_fits _ _ (ok_sq _ _ _ O2)). unfold backlog in *. lia.
Qed.

(** ** Witnesses and faults *)

Definition no_cfg : UringConfig := mkCfg true false true false 0 0.
Definition two_rings (p : bool) : option (Z * Z) := Some (2 ^ 2, 2 ^ 2).
Definition plain_cqe (u r : Z) : Cqe := mkCqe u r 0 [] [] false [] 0.

(** The kernel takes what it is given; the third call also finishes the send. *)
Definition obliging (i : nat) : Entered :=
  mkEntered 1 8 (match i with 2%nat => [plain_cqe (ud_make (op_code OpSend) 7 1) 3] | _ => [] end).

Definition busy (i : nat) : Entered := mkEntered (- 16) 0 [].

Definition some_run : list Act :=
  [DoSend (ud_make (op_code OpSend) 7 1) 7 [1; 2; 3]; DoTimestamping 7 true; DoRecv (ud_make (op_code OpRecv) 7 2) 7 64;
   DoWait 4 0 false; KPost (plain_cqe kWakeTag 1); DoWait 4 10 false; DoAttach 9 Readable (ud_make (op_code OpWatch) 9 1);
   KPost (plain_cqe (ud_make (op_code OpRecv) 7 2) 5); DoWait 4 10 false; DoDetach 9].

Definition uring_start : UringBackend :=
  default (mkU (sq0 0) (cq0 0) false false false false ∅ ∅ ∅ ∅ ∅ None ∅ ∅ ∅ ∅ 0 ∅ false ∅ 0 0 0 [] [] [])
          (init 3 two_rings true true true ∅ no_cfg).

Lemma two_rings_sizes p r : two_rings p = Some r -> r = (2 ^ 2, 2 ^ 2).
Proof. by intros [= <-]. Qed.

Lemma uring_start_init : init 3 two_rings true true true ∅ no_cfg = Some uring_start.
Proof. vm_compute. reflexivity. Qed.

Lemma some_run_runs : is_Some (run obliging 3 some_run uring_start).
Proof. vm_compute. by eexists. Qed.

Lemma uring_rings_are_queues_witness :
  exists out b, run obliging 3 some_run uring_start = Some (out, b) /\ (length out = 2)%nat /\ taken (sq b) `prefix_of` issued (sq b).
Proof.
  destruct (run obliging 3 some_run uring_start) as [[out b]|] eqn:E; [|by vm_compute in E].
  exists out, b. split; [done|]. split.
  - vm_compute in E. by injection E as <- <-.
  - apply (uring_rings_are_queues obliging 3 2 2 two_rings true true true ∅ no_cfg uring_start some_run out b);
      [lia|lia|apply two_rings_sizes|apply uring_start_init|exact E].
Defined.

Lemma uring_start_ok : ok 2 2 uring_start.
Proof. apply (init_spec 3 2 2 two_rings true true true ∅ no_cfg); [lia|lia|apply two_rings_sizes|apply uring_start_init]. Qed.

Lemma uring_wait_blocks_only_when_idle_witness :
  exists out b, wait obliging 3 4 10 false uring_start = Some (out, b) /\ enters b = [(1, 1, 1)] /\ (length out <= 4)%nat.
Proof.
  destruct (wait obliging 3 4 10 false uring_start) as [[out b]|] eqn:E; [|by vm_compute in E].
  exists out, b. split; [done|]. split.
  - vm_compute in E. by injection E as <- <-.
  - apply (uring_wait_blocks_only_when_idle obliging 3 2 2 4 10 false uring_start out b uring_start_ok E).
Defined.

Lemma uring_no_fault_witness : careful obliging 3 some_run uring_start = true /\ is_Some (run obliging 3 some_run uring_start).
Proof.
  assert (careful obliging 3 some_run uring_start = true) as Hc by (vm_compute; reflexivity). split; [done|].
  apply (uring_no_fault obliging 3 2 2 two_rings true true true ∅ no_cfg uring_start some_run);
    [lia|lia|apply two_rings_sizes|apply uring_start_init|exact Hc].
Defined.

(** Three sends fill the ring next to the wake poll. *)
Definition full_start : UringBackend :=
  default uring_start (snd <$> run busy 3 [DoSend 1 7 [1]; DoSend 2 7 [2]; DoSend 3 7 [3]] uring_start).

Lemma full_start_ok : ok 2 2 full_start.
Proof.
  unfold full_start. destruct (run busy 3 _ uring_start) as [[out b]|] eqn:E; [|apply uring_start_ok].
  destruct (run_moves _ _ _ _ _ _ _ _ uring_start_ok E) as [cs M]. exact (mv_ok _ _ _ _ _ _ M).
Qed.

Lemma uring_failed_enter_wedges_witness :
  fst (stage_or_flush busy (SCancel 1) full_start) = Bad (errno_error 16) /\
  exists acts out b, run busy 3 acts (snd (stage_or_flush busy (SCancel 1) full_start)) = Some (out, b) /\
    forall s', fst (stage_or_flush busy s' b) = Bad (make_error Internal Full).
Proof.
  set (acts := [DoWait 4 0 false; DoWait 4 10 false]).
  destruct (run busy 3 acts (snd (stage_or_flush busy (SCancel 1) full_start))) as [[out b]|] eqn:E; [|by vm_compute in E].
  destruct (uring_failed_enter_wedges busy 3 2 2 full_start (SCancel 1) 16 acts out b) as [H1 H2];
    [apply full_start_ok|by vm_compute|by vm_compute|by vm_compute|lia|exact E|].
  split; [exact H1|]. exists acts, out, b. split; [exact E|exact H2].
Defined.

(** A descriptor with receive timestamps is detached with its receive in flight;
    the receive completes with data, and [drain_cq] reads the destroyed context. *)
Lemma detach_in_flight_faults :
  run obliging 3
    [DoAttach 7 Readable (ud_make (op_code OpWatch) 7 1); DoTimestamping 7 true; DoRecv (ud_make (op_code OpRecv) 7 2) 7 64;
     DoWait 4 0 false; DoDetach 7; KPost (plain_cqe (ud_make (op_code OpRecv) 7 2) 5); DoWait 4 0 false] uring_start = None.
Proof. vm_compute. reflexivity. Qed.

(** A receive without descriptors leaves no room for those of the next one: the
    kernel stored the length it delivered, and no submission restores it. *)
Lemma control_room_lost :
  exists out b, run obliging 3
    [DoInbox 7 (Some 4%nat); DoRecv (ud_make (op_code OpRecv) 7 2) 7 64; DoWait 4 0 false;
     KPost (plain_cqe (ud_make (op_code OpRecv) 7 2) 5); DoWait 4 0 false; DoRecv (ud_make (op_code OpRecv) 7 2) 7 64;
     DoWait 4 0 false] uring_start = Some (out, b) /\
  room <$> contexts b !! 0 = Some 0 /\ last (taken (sq b)) = Some (SRecvmsg 7 0 (ud_make (op_code OpRecv) 7 2)).
Proof. do 2 eexists. split_and!; vm_compute; reflexivity. Qed.

(** A modification that fails for want of a second entry has removed the poll all
    the same, while [watch_] still lists it. *)
Lemma modify_fails_half_way :
  match run busy 3 [DoAttach 7 Readable 5; DoSend 2 7 [2]] uring_start with
  | Some (_, b) =>
      let '(r, b') := modify busy 7 Writable 6 b in
      r = Bad (errno_error 16) /\ last (issued (sq b')) = Some (SPollRemove 5) /\ watch_ b' !! 7 = Some 5
  | None => False
  end.
Proof. vm_compute. split_and!; reflexivity. Qed.

(** The operations that receives with a context use are not required of the kernel. *)
Lemma recvmsg_not_required : forallb (fun op => negb (op =? OP_RECVMSG)) required = true.
Proof. reflexivity. Qed.

(** ** Provided buffers and capabilities *)

Lemma provide_all n k mem size :
  0 <= k <= 15 -> Z.of_nat n <= 2 ^ k ->
  let p := foldl (fun p bid => provide_buffer bid p) (mkPbuf (2 ^ k) 0 ∅ mem size) (Z.of_nat <$> seq 0 n) in
  p_entries p = 2 ^ k /\ p_tail p = Z.of_nat n /\ forall i, (i < n)%nat -> p_bufs p !! Z.of_nat i = Some (Z.of_nat i).
Proof.
  intros Hk. assert (0 < 2 ^ k <= 2 ^ 15) as Hp by (split; [apply Z.pow_pos_nonneg; lia|apply Z.pow_le_mono_r; lia]).
  induction n as [|n IH]; intros Hn; [by split_and!; intros; lia || done|].
  rewrite seq_S, fmap_app, foldl_app. simpl foldl. destruct (IH ltac:(lia)) as (E1 & E2 & E3).
  set (p := foldl _ _ (Z.of_nat <$> seq 0 n)) in *. unfold provide_buffer. cbn [p_entries p_tail p_bufs]. rewrite E1, E2.
  split_and!; [done|unfold u16; rewrite Z.mod_small by lia; lia|].
  intros i Hi. rewrite land_mask, Z.mod_small by lia. destruct (decide (i = n)) as [->|Hne]; [by rewrite lookup_insert_eq|].
  rewrite lookup_insert_ne by lia. apply E3. lia.
Qed.

(** Every buffer of the ring is given to the kernel, once. *)
Lemma register_provides_all k size mem i :
  0 <= k <= 15 -> 0 <= i < 2 ^ k ->
  p_bufs (register_pbuf_ring (2 ^ k) size mem) !! i = Some i /\ p_tail (register_pbuf_ring (2 ^ k) size mem) = 2 ^ k.
Proof.
  intros Hk Hi. destruct (provide_all (Z.to_nat (2 ^ k)) k mem size Hk) as (_ & E2 & E3); [lia|]. split; [|etrans; [exact E2|lia]].
  specialize (E3 (Z.to_nat i) ltac:(lia)). by rewrite Z2Nat.id in E3 by lia.
Qed.

Lemma nth_alter {A} (f : A -> A) i j (l : list A) d :
  (i < length l)%nat -> nth j (alter f i l) d = if decide (j = i) then f (nth i l d) else nth j l d.
Proof.
  intros Hi. rewrite !nth_lookup. destruct (decide (j = i)) as [->|Hne].
  - rewrite list_lookup_alter_eq. by destruct (lookup_lt_is_Some_2 l i Hi) as [x ->].
  - by rewrite list_lookup_alter_ne.
Qed.

Lemma supports_set caps i j :
  length caps = 8%nat -> (j < 256)%nat ->
  supports (alter (fun w => Z.lor w (Z.shiftl 1 (Z.of_nat j mod 32))) (j / 32)%nat caps) (Z.of_nat i) =
  supports caps (Z.of_nat i) || (i =? j)%nat.
Proof.
  intros Hlen Hj. unfold supports. change 32 with (Z.of_nat 32). rewrite <- !Nat2Z.inj_div, <- !Nat2Z.inj_mod, !Nat2Z.id.
  rewrite nth_alter by (rewrite Hlen; apply Nat.Div0.div_lt_upper_bound; lia).
  pose proof (Nat.div_mod i 32 ltac:(lia)) as Di. pose proof (Nat.div_mod j 32 ltac:(lia)) as Dj.
  pose proof (Nat.mod_upper_bound i 32 ltac:(lia)). pose proof (Nat.mod_upper_bound j 32 ltac:(lia)).
  destruct (decide (i / 32 = j / 32)%nat) as [E|E].
  - rewrite E, Z.lor_spec. f_equal. rewrite Z.shiftl_spec by lia. destruct (Nat.eqb_spec i j) as [->|Hne]; [by rewrite Z.sub_diag|].
    destruct (Z.of_nat (i mod 32) - Z.of_nat (j mod 32)) as [|p|p] eqn:Ed; [nia| |done]. by destruct p.
  - destruct (Nat.eqb_spec i j) as [->|_]; [done|by rewrite orb_false_r].
Qed.

Lemma length_probe ops : length (probe ops) = 8%nat.
Proof.
  unfold probe. induction ops as [|on ops IH] using rev_ind; [done|].
  rewrite imap_app, foldl_app. simpl. destruct on; [by rewrite length_alter|done].
Qed.

(** The bitmap answers for each operation what the kernel reported. *)
Lemma supports_probe ops i : (length ops <= 256)%nat -> supports (probe ops) (Z.of_nat i) = default false (ops !! i).
Proof.
  induction ops as [|on ops IH] using rev_ind; intros Hl.
  { unfold supports. assert (forall j, nth j (probe []) 0 = 0) as -> by (intros j; do 8 (destruct j; [done|]); by destruct j).
    by rewrite Z.testbit_0_l. }
  rewrite length_app in Hl. simpl in Hl. specialize (IH ltac:(lia)). pose proof (length_probe ops) as Hlen.
  assert (supports (probe (ops ++ [on])) (Z.of_nat i) = supports (probe ops) (Z.of_nat i) || on && (i =? length ops)%nat) as ->.
  { unfold probe at 1. rewrite imap_app, foldl_app. cbn [imap foldl]. fold (probe ops). rewrite Nat.add_0_r.
    destruct on; [|by rewrite orb_false_r]. apply supports_set; [done|lia]. }
  rewrite IH. destruct (Nat.eqb_spec i (length ops)) as [->|Hne].
  - rewrite list_lookup_middle, lookup_ge_None_2 by done. by destruct on.
  - rewrite andb_false_r, orb_false_r. destruct (decide (i < length ops)%nat); [by rewrite lookup_app_l|].
    rewrite !lookup_ge_None_2; [done|rewrite length_app; simpl; lia|lia].
Qed.

End Uring.
