(* ===== verification/UringSetup.v ===== *)
(** * The resources of an io_uring backend ([src/backend/uring.cpp])

    Setting a ring up, tearing it down, moving it and probing the kernel: which
    descriptors, mappings and blocks of memory [UringBackend] acquires and gives back,
    on every path.  What the rings are used for is in Uring.v.

    The kernel is any function of what happened so far.  [held] is what the process
    holds of it; giving back what is not held, or a mapping with another length, sets
    [fault]. *)

From stdpp Require Import base option gmap list.
From Stdlib Require Import ZArith Lia.
From S2P Require Import Prelude Backend Uring.
Import Errors.
Local Open Scope Z_scope.

Module Setup.

(** ** The kernel *)

Inductive Area := SqRing | CqRing | SqesArea | Anonymous.
Inductive Call :=
  | CSetup (entries : Z) (sqpoll : bool)
  | CMmap (a : Area) (fd len : Z)
  | CEventfd
  | CRegisterProbe (fd : Z)
  | CRegisterPbuf (fd addr entries bgid : Z)
  | CUnregisterPbuf (fd bgid : Z)
  | CCalloc (len : Z)
  | CFree (addr : Z)
  | CClose (fd : Z)
  | CMunmap (addr len : Z).

(** What [io_uring_setup] stores in [io_uring_params]. *)
Record UringParams := mkParams {
  p_sq_entries : Z; p_cq_entries : Z; sq_off_array : Z; cq_off_cqes : Z; feat_single_mmap : bool }.

(** [ret] is the result, [err] the error number when it is negative. *)
Record Answer := mkAnswer { ret : Z; err : Z; params : UringParams; supported : list bool }.

Inductive Res := RFd (fd : Z) | RMap (addr len : Z) | RMem (addr : Z).
#[global] Instance res_eq_dec : EqDecision Res.
Proof. solve_decision. Defined.

(** ** The backend *)

Record UringBackend := mkUring {
  ring_fd_ : Z; wake_fd_ : Z;
  sq_map_ : Z; sq_map_sz_ : Z; cq_map_ : Z; cq_map_sz_ : Z; sqes_map_ : Z; sqes_map_sz_ : Z;
  pbuf_ : bool; pbuf_map_ : Z; pbuf_map_sz_ : Z; pbuf_bgid_ : Z;
  multishot_accept_ : bool; wake_armed_ : bool; msgring_ok_ : bool; sqpoll_ : bool }.

(** [objects] are the backends that exist, [msg_ring] the static of [msg_ring_supported]. *)
Record World := mkWorld {
  log : list Call; errno : Z; held : list Res; fault : bool;
  msg_ring : option bool; objects : gmap nat UringBackend }.

Definition uring0 : UringBackend := mkUring (-1) (-1) 0 0 0 0 0 0 false 0 0 0 false false false false.

Definition set_ring x b := mkUring x (wake_fd_ b) (sq_map_ b) (sq_map_sz_ b) (cq_map_ b) (cq_map_sz_ b) (sqes_map_ b) (sqes_map_sz_ b) (pbuf_ b) (pbuf_map_ b) (pbuf_map_sz_ b) (pbuf_bgid_ b) (multishot_accept_ b) (wake_armed_ b) (msgring_ok_ b) (sqpoll_ b).
Definition set_wake x b := mkUring (ring_fd_ b) x (sq_map_ b) (sq_map_sz_ b) (cq_map_ b) (cq_map_sz_ b) (sqes_map_ b) (sqes_map_sz_ b) (pbuf_ b) (pbuf_map_ b) (pbuf_map_sz_ b) (pbuf_bgid_ b) (multishot_accept_ b) (wake_armed_ b) (msgring_ok_ b) (sqpoll_ b).
Definition set_sq_map a n b := mkUring (ring_fd_ b) (wake_fd_ b) a n (cq_map_ b) (cq_map_sz_ b) (sqes_map_ b) (sqes_map_sz_ b) (pbuf_ b) (pbuf_map_ b) (pbuf_map_sz_ b) (pbuf_bgid_ b) (multishot_accept_ b) (wake_armed_ b) (msgring_ok_ b) (sqpoll_ b).
Definition set_cq_map a n b := mkUring (ring_fd_ b) (wake_fd_ b) (sq_map_ b) (sq_map_sz_ b) a n (sqes_map_ b) (sqes_map_sz_ b) (pbuf_ b) (pbuf_map_ b) (pbuf_map_sz_ b) (pbuf_bgid_ b) (multishot_accept_ b) (wake_armed_ b) (msgring_ok_ b) (sqpoll_ b).
Definition set_sqes_map a n b := mkUring (ring_fd_ b) (wake_fd_ b) (sq_map_ b) (sq_map_sz_ b) (cq_map_ b) (cq_map_sz_ b) a n (pbuf_ b) (pbuf_map_ b) (pbuf_map_sz_ b) (pbuf_bgid_ b) (multishot_accept_ b) (wake_armed_ b) (msgring_ok_ b) (sqpoll_ b).
Definition set_pbuf p a n b := mkUring (ring_fd_ b) (wake_fd_ b) (sq_map_ b) (sq_map_sz_ b) (cq_map_ b) (cq_map_sz_ b) (sqes_map_ b) (sqes_map_sz_ b) p a n (pbuf_bgid_ b) (multishot_accept_ b) (wake_armed_ b) (msgring_ok_ b) (sqpoll_ b).
Definition set_bgid x b := mkUring (ring_fd_ b) (wake_fd_ b) (sq_map_ b) (sq_map_sz_ b) (cq_map_ b) (cq_map_sz_ b) (sqes_map_ b) (sqes_map_sz_ b) (pbuf_ b) (pbuf_map_ b) (pbuf_map_sz_ b) x (multishot_accept_ b) (wake_armed_ b) (msgring_ok_ b) (sqpoll_ b).
Definition set_flags m w g s b := mkUring (ring_fd_ b) (wake_fd_ b) (sq_map_ b) (sq_map_sz_ b) (cq_map_ b) (cq_map_sz_ b) (sqes_map_ b) (sqes_map_sz_ b) (pbuf_ b) (pbuf_map_ b) (pbuf_map_sz_ b) (pbuf_bgid_ b) m w g s.

Definition set_msg_ring x w := mkWorld (log w) (errno w) (held w) (fault w) x (objects w).
Definition set_objects x w := mkWorld (log w) (errno w) (held w) (fault w) (msg_ring w) x.

(** ** System calls *)

Fixpoint remove1 (x : Res) (l : list Res) : list Res :=
  match l with [] => [] | y :: l => if decide (x = y) then l else y :: remove1 x l end.

Definition MAP_FAILED : Z := -1.

(** What a call acquires and what it gives back. *)
Definition gets (c : Call) (a : Answer) : option Res :=
  match c with
  | CSetup _ _ | CEventfd => if 0 <=? ret a then Some (RFd (ret a)) else None
  | CMmap _ _ len => if ret a =? MAP_FAILED then None else Some (RMap (ret a) len)
  | CCalloc _ => if ret a =? 0 then None else Some (RMem (ret a))
  | _ => None
  end.
Definition gives (c : Call) : option Res :=
  match c with
  | CClose fd => Some (RFd fd)
  | CMunmap a len => Some (RMap a len)
  | CFree a => Some (RMem a)
  | _ => None
  end.

Section Kernel.
Context (kernel : World -> Call -> Answer).

Definition syscall (c : Call) (w : World) : Answer * World :=
  let a := kernel w c in
  let h := match gives c with Some x => remove1 x (held w) | None => held w end in
  let bad := match gives c with Some x => negb (bool_decide (x ∈ held w)) | None => false end in
  (a, mkWorld (log w ++ [c]) (if ret a <? 0 then err a else errno w)
        (match gets c a with Some x => x :: h | None => h end) (fault w || bad) (msg_ring w) (objects w)).
Definition syscall_ (c : Call) (w : World) : World := snd (syscall c w).

(** As in the headers of Linux 6.1. *)
Definition IORING_OP_LAST : Z := 49.
Definition ENOMEM : Z := 12.
Definition EINVAL : Z := 22.

(** ** Probing *)

Definition probe (w : World) : Result (list Z) * World :=
  let '(a, w) := syscall (CSetup 8 false) w in
  let fd := ret a in
  if fd <? 0 then (Bad (errno_error (errno w)), w)
  else
    let '(a, w) := syscall (CCalloc (16 + IORING_OP_LAST * 8)) w in
    let pr := ret a in
    if pr =? 0 then (Bad (errno_error ENOMEM), syscall_ (CClose fd) w)
    else
      let '(r, w) := syscall (CRegisterProbe fd) w in
      let w := syscall_ (CClose fd) w in
      if ret r <? 0 then let w := syscall_ (CFree pr) w in (Bad (errno_error (errno w)), w)
      else (Val (Uring.probe (supported r)), syscall_ (CFree pr) w).

Definition OP_MSG_RING : Z := 40.

Definition msg_ring_supported (w : World) : bool * World :=
  match msg_ring w with
  | Some ok => (ok, w)
  | None =>
      let '(caps, w) := probe w in
      let ok := match caps with Val c => Uring.supports c OP_MSG_RING | Bad _ => false end in
      (ok, set_msg_ring (Some ok) w)
  end.

(** ** Tearing down *)

Definition when (b : bool) (c : Call) (w : World) : World := if b then syscall_ c w else w.

Definition teardown (b : UringBackend) (w : World) : UringBackend * World :=
  let '(b, w) :=
    if 0 <=? ring_fd_ b then
      let w := when (pbuf_ b) (CUnregisterPbuf (ring_fd_ b) (pbuf_bgid_ b)) w in
      (set_ring (-1) b, syscall_ (CClose (ring_fd_ b)) w)
    else (b, w) in
  let '(b, w) := if 0 <=? wake_fd_ b then (set_wake (-1) b, syscall_ (CClose (wake_fd_ b)) w) else (b, w) in
  let shared := cq_map_ b =? sq_map_ b in
  let w := when (negb (sq_map_ b =? 0)) (CMunmap (sq_map_ b) (sq_map_sz_ b)) w in
  let w := when (negb (cq_map_ b =? 0) && negb shared) (CMunmap (cq_map_ b) (cq_map_sz_ b)) w in
  let w := when (negb (sqes_map_ b =? 0)) (CMunmap (sqes_map_ b) (sqes_map_sz_ b)) w in
  let w := when (negb (pbuf_map_ b =? 0)) (CMunmap (pbuf_map_ b) (pbuf_map_sz_ b)) w in
  (set_sq_map 0 (sq_map_sz_ b) (set_cq_map 0 (cq_map_sz_ b) (set_sqes_map 0 (sqes_map_sz_ b)
     (set_pbuf false 0 (pbuf_map_sz_ b) b))), w).

(** ** Setting up *)

Record UringConfig := mkConfig {
  sq_entries : Z; use_pbuf_ring : bool; pbuf_bgid : Z; pbuf_entries : Z;
  multishot_accept : bool; msg_ring_wakes : bool; want_sqpoll : bool }.

(** The entry of [arm_wake_poll] fits into a new ring of the given size. *)
Definition wake_fits (entries : Z) : bool :=
  bool_decide (is_Some (Uring.stage (Uring.SPollAdd 0 Uring.POLLIN Uring.kWakeTag) (Uring.sq0 entries))).

Definition sizeof_buf : Z := 16.
Definition sizeof_sqe : Z := 64.
Definition sizeof_cqe : Z := 16.

(** The result is zero or an error number, negated. *)
Definition register_pbuf_ring (cfg : UringConfig) (b : UringBackend) (w : World) : Z * UringBackend * World :=
  let sz := u64 (pbuf_entries cfg * sizeof_buf) in
  let '(a, w) := syscall (CMmap Anonymous (-1) sz) w in
  if ret a =? MAP_FAILED then (- errno w, set_pbuf (pbuf_ b) 0 sz b, w)
  else
    let b := set_pbuf true (ret a) sz b in
    let '(r, w) := syscall (CRegisterPbuf (ring_fd_ b) (pbuf_map_ b) (pbuf_entries cfg) (pbuf_bgid cfg)) w in
    if ret r <? 0 then (- errno w, b, w) else (0, set_bgid (pbuf_bgid cfg) b, w).

(** The part of [init] that [goto fail] leaves: true when it is done. *)
Definition map_rings (cfg : UringConfig) (p : UringParams) (b : UringBackend) (w : World) : bool * UringBackend * World :=
  let sq_ring_sz := u64 (sq_off_array p + p_sq_entries p * 4) in
  let cq_ring_sz := u64 (cq_off_cqes p + p_cq_entries p * sizeof_cqe) in
  let map_sz := if feat_single_mmap p then Z.max sq_ring_sz cq_ring_sz else sq_ring_sz in
  let '(a, w) := syscall (CMmap SqRing (ring_fd_ b) map_sz) w in
  if ret a =? MAP_FAILED then (false, set_sq_map 0 map_sz b, w)
  else
    let b := set_sq_map (ret a) map_sz b in
    let '(ok, b, w) :=
      if feat_single_mmap p then (true, set_cq_map (sq_map_ b) (sq_map_sz_ b) b, w)
      else
        let '(a, w) := syscall (CMmap CqRing (ring_fd_ b) cq_ring_sz) w in
        if ret a =? MAP_FAILED then (false, set_cq_map 0 cq_ring_sz b, w)
        else (true, set_cq_map (ret a) cq_ring_sz b, w) in
    if negb ok then (false, b, w)
    else
      let sqes_sz := u64 (p_sq_entries p * sizeof_sqe) in
      let '(a, w) := syscall (CMmap SqesArea (ring_fd_ b) sqes_sz) w in
      if ret a =? MAP_FAILED then (false, set_sqes_map 0 sqes_sz b, w)
      else
        let b := set_sqes_map (ret a) sqes_sz b in
        let '(a, w) := syscall CEventfd w in
        let b := set_wake (ret a) b in
        if ret a <? 0 then (false, b, w)
        else if negb (wake_fits (p_sq_entries p)) then (false, b, w)
        else
          let b := set_flags (multishot_accept_ b) true (msgring_ok_ b) (sqpoll_ b) b in
          if use_pbuf_ring cfg then
            let '(r, b, w) := register_pbuf_ring cfg b w in (r =? 0, b, w)
          else (true, b, w).

Definition init (cfg : UringConfig) (b : UringBackend) (w : World) : Z * UringBackend * World :=
  let b := set_flags (multishot_accept cfg) (wake_armed_ b) (msgring_ok_ b) (sqpoll_ b) b in
  let '(a, w) := syscall (CSetup (sq_entries cfg) (want_sqpoll cfg)) w in
  let b := set_ring (ret a) b in
  let '(a, b, w) :=
    if (ret a <? 0) && want_sqpoll cfg then
      let '(a, w) := syscall (CSetup (sq_entries cfg) false) w in (a, set_ring (ret a) b, w)
    else if (0 <=? ret a) && want_sqpoll cfg then
      (a, set_flags (multishot_accept_ b) (wake_armed_ b) (msgring_ok_ b) true b, w)
    else (a, b, w) in
  if ring_fd_ b <? 0 then (- errno w, b, w)
  else
    let '(ok, w) := if msg_ring_wakes cfg then msg_ring_supported w else (false, w) in
    let b := set_flags (multishot_accept_ b) (wake_armed_ b) ok (sqpoll_ b) b in
    let '(done, b, w) := map_rings cfg (params a) b w in
    if (done : bool) then (0, b, w)
    else
      let e := if errno w =? 0 then EINVAL else errno w in
      let '(b, w) := teardown b w in (- e, b, w).

(** ** Objects *)

(** [operator=(UringBackend&&)] from [o] into [b]; what the two are afterwards.  The
    pointers into the mappings and the tables of operations move along with them. *)
Definition move_assign (b o : UringBackend) (w : World) : UringBackend * UringBackend * World :=
  let '(b, w) := teardown b w in
  (o,
   mkUring (-1) (-1) 0 (sq_map_sz_ o) 0 (cq_map_sz_ o) 0 (sqes_map_sz_ o) false 0 (pbuf_map_sz_ o) (pbuf_bgid_ o)
     (multishot_accept_ o) false (msgring_ok_ o) (sqpoll_ o),
   w).

(** [create]: a local backend, set up, moved into the result, and destroyed. *)
Definition create (cfg : UringConfig) (w : World) : Result UringBackend * World :=
  let '(r, b, w) := init cfg uring0 w in
  if r =? 0 then
    let '(b', b, w) := move_assign uring0 b w in
    let '(_, w) := teardown b w in (Val b', w)
  else let '(_, w) := teardown b w in (Bad (errno_error (- r)), w).

Inductive Op :=
  | OCreate (i : nat) (cfg : UringConfig)
  | OMoveAssign (dst src : nat)
  | OMoveConstruct (dst src : nat)
  | ODestroy (i : nat)
  | OProbe.

(** Objects are constructed where none is, and used where one is. *)
Definition perform (o : Op) (w : World) : option World :=
  match o with
  | OCreate i cfg =>
      match objects w !! i with
      | Some _ => None
      | None =>
          let '(r, w) := create cfg w in
          Some (match r with Val b => set_objects (<[i := b]> (objects w)) w | Bad _ => w end)
      end
  | OMoveAssign i j =>
      b ← objects w !! i; o ← objects w !! j;
      if decide (i = j) then Some w
      else let '(b, o, w) := move_assign b o w in Some (set_objects (<[i := b]> (<[j := o]> (objects w))) w)
  | OMoveConstruct i j =>
      match objects w !! i with
      | Some _ => None
      | None =>
          o ← objects w !! j;
          let '(b, o, w) := move_assign uring0 o w in Some (set_objects (<[i := b]> (<[j := o]> (objects w))) w)
      end
  | ODestroy i =>
      b ← objects w !! i; let '(_, w) := teardown b w in Some (set_objects (delete i (objects w)) w)
  | OProbe => Some (snd (probe w))
  end.

Fixpoint run (os : list Op) (w : World) : option World :=
  match os with [] => Some w | o :: os => w ← perform o w; run os w end.

Definition world0 : World := mkWorld [] 0 [] false None ∅.

End Kernel.

(** ** What a backend owns *)

Definition fd_res (fd : Z) : list Res := if 0 <=? fd then [RFd fd] else [].
Definition map_res (a n : Z) : list Res := if a =? 0 then [] else [RMap a n].
Definition owned (b : UringBackend) : list Res :=
  fd_res (ring_fd_ b) ++ fd_res (wake_fd_ b) ++ map_res (sq_map_ b) (sq_map_sz_ b)
  ++ (if cq_map_ b =? sq_map_ b then [] else map_res (cq_map_ b) (cq_map_sz_ b))
  ++ map_res (sqes_map_ b) (sqes_map_sz_ b) ++ map_res (pbuf_map_ b) (pbuf_map_sz_ b).

(** A descriptor, a mapping or a block of memory that was not there before. *)
Definition fresh (l : list Res) (x : Res) : Prop :=
  match x with
  | RMap a _ => 0 < a /\ forall n, RMap a n ∉ l
  | _ => x ∉ l
  end.

(** The kernel gives what nobody holds, and a failing call has an error number. *)
Definition good_kernel (kernel : World -> Call -> Answer) : Prop :=
  forall w c, (ret (kernel w c) < 0 -> 0 < err (kernel w c)) /\
    (forall x, gets c (kernel w c) = Some x -> fresh (held w) x).

(** The process holds [F], for the objects [O]. *)
Record holds (O : gmap nat UringBackend) (F : list Res) (w : World) : Prop := {
  h_held : held w ≡ₚ F;
  h_fault : fault w = false;
  h_errno : 0 <= errno w;
  h_objects : objects w = O }.

Lemma remove1_perm x l : x ∈ l -> l ≡ₚ x :: remove1 x l.
Proof.
  induction l as [|y l IH]; [by intros ?%elem_of_nil|]. cbn. case_decide as E; [by subst|].
  intros [?|H]%elem_of_cons; [done|]. etransitivity; [apply perm_skip, IH, H|apply perm_swap].
Qed.

Lemma holds_perm O F F' w : F ≡ₚ F' -> holds O F w -> holds O F' w.
Proof. intros E []. constructor; try done. by rewrite <- E. Qed.

Section Proofs.
Context (kernel : World -> Call -> Answer) (GK : good_kernel kernel).
Implicit Types (w : World) (O : gmap nat UringBackend) (F : list Res).

Lemma errno_step O F w c : holds O F w -> 0 <= (if ret (kernel w c) <? 0 then err (kernel w c) else errno w).
Proof. intros H. destruct (Z.ltb_spec (ret (kernel w c)) 0) as [E|E]; [|apply H]. apply Z.lt_le_incl, (GK w c), E. Qed.

Lemma take_spec O F c a w w' : syscall kernel c w = (a, w') -> gives c = None -> holds O F w ->
  holds O (match gets c a with Some x => x :: F | None => F end) w'
  /\ (ret a < 0 -> 0 < errno w') /\ (forall x, gets c a = Some x -> fresh F x).
Proof.
  unfold syscall. intros [= <- <-] Hg H. rewrite Hg. split; [|split].
  - constructor; cbn; [|by rewrite orb_false_r; apply H|by apply (errno_step O F)|apply H].
    destruct (gets c _); [apply perm_skip|]; apply H.
  - cbn. intros Hr. rewrite (proj2 (Z.ltb_lt _ _)) by done. by apply GK.
  - intros x Hx. apply (proj2 (GK w c)) in Hx. destruct x; cbn in *; rewrite ?(h_held _ _ _ H) in Hx; try done.
    destruct Hx as [? Hx]. split; [done|]. intros n. rewrite <- (h_held _ _ _ H). apply Hx.
Qed.

Lemma give_spec O F c x w : gives c = Some x -> holds O (x :: F) w -> holds O F (syscall_ kernel c w).
Proof.
  intros Hg H. assert (gets c (kernel w c) = None) as Hn by (by destruct c).
  assert (x ∈ held w) as Hx by (rewrite (h_held _ _ _ H); apply list_elem_of_here).
  unfold syscall_, syscall. rewrite Hg, Hn. constructor; cbn; [|..|apply H].
  - apply (Permutation_cons_inv (a := x)). rewrite <- (remove1_perm x (held w) Hx). apply H.
  - rewrite (h_fault _ _ _ H), bool_decide_eq_true_2 by done. done.
  - by apply (errno_step O (x :: F)).
Qed.

Lemma idle_spec O F c w : gives c = None -> (forall a, gets c a = None) -> holds O F w -> holds O F (syscall_ kernel c w).
Proof.
  intros Hg Hn H. unfold syscall_. destruct (syscall kernel c w) as [a w'] eqn:E.
  destruct (take_spec O F c a w w' E Hg H) as (H' & _). by rewrite Hn in H'.
Qed.

Lemma close_spec O F fd w : 0 <= fd -> holds O (fd_res fd ++ F) w -> holds O F (syscall_ kernel (CClose fd) w).
Proof. intros Hfd. unfold fd_res. rewrite (proj2 (Z.leb_le _ _)) by done. by apply give_spec. Qed.

Lemma when_munmap_spec O F b a n w : holds O ((if b : bool then [RMap a n] else []) ++ F) w -> holds O F (when kernel b (CMunmap a n) w).
Proof. destruct b; [by apply give_spec|done]. Qed.

Lemma teardown_spec O F b w : holds O (owned b ++ F) w ->
  holds O F (snd (teardown kernel b w)) /\ owned (fst (teardown kernel b w)) = [].
Proof.
  intros H. unfold teardown, owned in *. rewrite <- !app_assoc in H.
  set (x := if 0 <=? ring_fd_ b then _ else _).
  assert (exists w1, x = (set_ring (if 0 <=? ring_fd_ b then -1 else ring_fd_ b) b, w1) /\
    holds O (fd_res (wake_fd_ b) ++ map_res (sq_map_ b) (sq_map_sz_ b)
      ++ (if cq_map_ b =? sq_map_ b then [] else map_res (cq_map_ b) (cq_map_sz_ b))
      ++ map_res (sqes_map_ b) (sqes_map_sz_ b) ++ map_res (pbuf_map_ b) (pbuf_map_sz_ b) ++ F) w1) as (w1 & -> & H1).
  { unfold x. destruct (Z.leb_spec 0 (ring_fd_ b)) as [E|E].
    - eexists. split; [reflexivity|]. apply close_spec; [done|]. unfold when. destruct (pbuf_ b); [by apply idle_spec|done].
    - exists w. split; [by destruct b|]. unfold fd_res in H at 1. by rewrite (proj2 (Z.leb_gt _ _)) in H by done. }
  clear H. set (y := if 0 <=? wake_fd_ _ then _ else _).
  assert (exists w2, y = (set_wake (if 0 <=? wake_fd_ b then -1 else wake_fd_ b) (set_ring (if 0 <=? ring_fd_ b then -1 else ring_fd_ b) b), w2) /\
    holds O (map_res (sq_map_ b) (sq_map_sz_ b)
      ++ (if cq_map_ b =? sq_map_ b then [] else map_res (cq_map_ b) (cq_map_sz_ b))
      ++ map_res (sqes_map_ b) (sqes_map_sz_ b) ++ map_res (pbuf_map_ b) (pbuf_map_sz_ b) ++ F) w2) as (w2 & -> & H2).
  { unfold y. cbn [wake_fd_ set_ring]. destruct (Z.leb_spec 0 (wake_fd_ b)) as [E|E].
    - eexists. split; [reflexivity|]. by apply close_spec.
    - exists w1. split; [by destruct b|]. unfold fd_res in H1 at 1. by rewrite (proj2 (Z.leb_gt _ _)) in H1 by done. }
  clear H1. cbn -[owned syscall_ when Z.eqb Z.leb]. split.
  - do 4 apply when_munmap_spec. unfold map_res in H2.
    destruct (sq_map_ b =? 0), (cq_map_ b =? sq_map_ b), (cq_map_ b =? 0), (sqes_map_ b =? 0), (pbuf_map_ b =? 0);
      cbn in *; (eapply holds_perm; [|exact H2]); reflexivity.
  - unfold owned, fd_res, map_res. cbn -[Z.leb]. destruct (0 <=? ring_fd_ b) eqn:E1, (0 <=? wake_fd_ b) eqn:E2; by rewrite ?E1, ?E2.
Qed.

Lemma probe_spec O F w : holds O F w -> holds O F (snd (probe kernel w)).
Proof.
  intros H. unfold probe. destruct (syscall kernel (CSetup 8 false) w) as [a w1] eqn:E1.
  destruct (take_spec O F _ a w w1 E1 eq_refl H) as (H1 & _ & _). cbn [gets] in H1.
  destruct (Z.leb_spec 0 (ret a)) as [Ha|Ha]; [rewrite (proj2 (Z.ltb_ge _ _)) by done|by rewrite (proj2 (Z.ltb_lt _ _)) by done].
  destruct (syscall kernel (CCalloc _) w1) as [a2 w2] eqn:E2.
  destruct (take_spec O _ _ a2 w1 w2 E2 eq_refl H1) as (H2 & _ & _). cbn [gets] in H2.
  destruct (ret a2 =? 0); [by apply (give_spec O F _ (RFd (ret a)))|].
  destruct (syscall kernel (CRegisterProbe (ret a)) w2) as [a3 w3] eqn:E3.
  destruct (take_spec O _ _ a3 w2 w3 E3 eq_refl H2) as (H3 & _ & _). cbn [gets] in H3.
  assert (holds O (RMem (ret a2) :: F) (syscall_ kernel (CClose (ret a)) w3)) as H4.
  { apply (give_spec O _ _ (RFd (ret a))); [done|]. eapply holds_perm; [apply perm_swap|done]. }
  destruct (ret a3 <? 0); by apply (give_spec O F _ (RMem (ret a2))).
Qed.

Lemma msg_ring_supported_spec O F w : holds O F w -> holds O F (snd (msg_ring_supported kernel w)).
Proof.
  intros H. unfold msg_ring_supported. destruct (msg_ring w); [done|]. pose proof (probe_spec O F w H) as H1.
  destruct (probe kernel w) as [r w1]. destruct H1. by constructor.
Qed.

(** A mapping asked for: none, or one that is new. *)
Lemma mmap_spec O F area fd n a w w' : syscall kernel (CMmap area fd n) w = (a, w') -> holds O F w ->
  (ret a = MAP_FAILED /\ holds O F w' /\ 0 < errno w') \/
  (ret a <> MAP_FAILED /\ 0 < ret a /\ (forall n, RMap (ret a) n ∉ F) /\ holds O (RMap (ret a) n :: F) w').
Proof.
  intros E H. destruct (take_spec O F _ a w w' E eq_refl H) as (H1 & H2 & H3). cbn [gets] in *.
  destruct (Z.eqb_spec (ret a) MAP_FAILED) as [Ea|Ea].
  - left. split; [done|]. split; [done|]. apply H2. rewrite Ea. done.
  - right. destruct (H3 _ eq_refl). done.
Qed.

Lemma map_res_nonzero a n : 0 < a -> map_res a n = [RMap a n].
Proof. intros H. unfold map_res. by rewrite (proj2 (Z.eqb_neq _ _)) by lia. Qed.

Lemma register_pbuf_ring_spec O F cfg b w :
  pbuf_map_ b = 0 -> holds O (owned b ++ F) w ->
  exists r b' w', register_pbuf_ring kernel cfg b w = (r, b', w') /\ holds O (owned b' ++ F) w' /\ (r <> 0 -> 0 < errno w').
Proof.
  intros Hb H. unfold register_pbuf_ring. set (sz := u64 _).
  destruct (syscall kernel (CMmap Anonymous (-1) sz) w) as [a w1] eqn:E1.
  destruct (mmap_spec O _ _ _ _ a w w1 E1 H) as [(Ea & H1 & He)|(Ea & Hp & _ & H1)].
  - rewrite Ea, Z.eqb_refl. eexists _, _, w1. split; [reflexivity|]. split; [|done].
    revert H1. unfold owned. cbn -[Z.leb]. by rewrite Hb.
  - rewrite (proj2 (Z.eqb_neq _ _)) by done. cbv zeta.
    destruct (syscall kernel (CRegisterPbuf _ _ _ _) w1) as [r w2] eqn:E2.
    destruct (take_spec O _ _ r w1 w2 E2 eq_refl H1) as (H2 & He & _). cbn [gets] in H2.
    assert (forall g, holds O (owned (set_bgid g (set_pbuf true (ret a) sz b)) ++ F) w2) as H3.
    { intros g. eapply holds_perm; [|exact H2]. unfold owned. cbn -[Z.leb]. rewrite Hb, (map_res_nonzero (ret a)) by done.
      unfold map_res at 7. cbn. rewrite !app_nil_r. rewrite <- !app_assoc. solve_Permutation. }
    destruct (Z.ltb_spec (ret r) 0) as [Er|Er]; eexists _, _, w2; (split; [reflexivity|]); (split; [|by auto]).
    + exact (H3 (pbuf_bgid_ b)).
    + exact (H3 (pbuf_bgid cfg)).
Qed.

(** A backend that has its ring and nothing else. *)
Definition bare (b : UringBackend) : Prop :=
  wake_fd_ b = -1 /\ sq_map_ b = 0 /\ cq_map_ b = 0 /\ sqes_map_ b = 0 /\ pbuf_map_ b = 0.

Lemma map_cq_spec O F p cq_sz a n b w :
  bare b -> 0 < a -> holds O (RMap a n :: fd_res (ring_fd_ b) ++ F) w ->
  exists ok b' w',
    (if feat_single_mmap p then (true, set_cq_map (sq_map_ (set_sq_map a n b)) (sq_map_sz_ (set_sq_map a n b)) (set_sq_map a n b), w)
     else
       let '(c, w) := syscall kernel (CMmap CqRing (ring_fd_ (set_sq_map a n b)) cq_sz) w in
       if ret c =? MAP_FAILED then (false, set_cq_map 0 cq_sz (set_sq_map a n b), w)
       else (true, set_cq_map (ret c) cq_sz (set_sq_map a n b), w)) = (ok, b', w')
    /\ holds O (owned b' ++ F) w' /\ wake_fd_ b' = -1 /\ sqes_map_ b' = 0 /\ pbuf_map_ b' = 0.
Proof.
  intros (Hw & _ & _ & Hs & Hp) Ha H. destruct (feat_single_mmap p).
  - eexists _, _, w. split; [reflexivity|]. split; [|done]. eapply holds_perm; [|exact H].
    unfold owned. cbn -[Z.leb]. rewrite Hw, Hs, Hp, Z.eqb_refl, map_res_nonzero by done. cbn -[Z.leb].
    rewrite ?app_nil_r. solve_Permutation.
  - destruct (syscall kernel _ w) as [c w1] eqn:E1.
    destruct (mmap_spec O _ _ _ _ c w w1 E1 H) as [(Ec & H1 & _)|(Ec & Hc & Hnew & H1)].
    + rewrite Ec, Z.eqb_refl. eexists _, _, w1. split; [reflexivity|]. split; [|done]. eapply holds_perm; [|exact H1].
      unfold owned. cbn -[Z.leb Z.eqb]. rewrite Hw, Hs, Hp, map_res_nonzero by done. cbn -[Z.leb Z.eqb].
      rewrite (proj2 (Z.eqb_neq 0 a)) by lia. cbn. solve_Permutation.
    + rewrite (proj2 (Z.eqb_neq _ _)) by done. eexists _, _, w1. split; [reflexivity|]. split; [|done].
      eapply holds_perm; [|exact H1]. unfold owned. cbn -[Z.leb Z.eqb]. rewrite Hw, Hs, Hp, !map_res_nonzero by done.
      assert (ret c <> a) as Hne by (intros E; apply (Hnew n); rewrite E; apply list_elem_of_here).
      rewrite (proj2 (Z.eqb_neq _ _)) by done. cbn. solve_Permutation.
Qed.

Lemma map_rest_spec O F cfg p b w :
  wake_fd_ b = -1 -> sqes_map_ b = 0 -> pbuf_map_ b = 0 -> holds O (owned b ++ F) w ->
  exists ok b' w',
    (let sqes_sz := u64 (p_sq_entries p * sizeof_sqe) in
     let '(a, w) := syscall kernel (CMmap SqesArea (ring_fd_ b) sqes_sz) w in
     if ret a =? MAP_FAILED then (false, set_sqes_map 0 sqes_sz b, w)
     else
       let b := set_sqes_map (ret a) sqes_sz b in
       let '(a, w) := syscall kernel CEventfd w in
       let b := set_wake (ret a) b in
       if ret a <? 0 then (false, b, w)
       else if negb (wake_fits (p_sq_entries p)) then (false, b, w)
       else
         let b := set_flags (multishot_accept_ b) true (msgring_ok_ b) (sqpoll_ b) b in
         if use_pbuf_ring cfg then
           let '(r, b, w) := register_pbuf_ring kernel cfg b w in (r =? 0, b, w)
         else (true, b, w)) = (ok, b', w')
    /\ holds O (owned b' ++ F) w'.
Proof.
  intros Hw Hs Hp H. set (sz := u64 _). cbv zeta.
  destruct (syscall kernel (CMmap SqesArea _ sz) w) as [a w1] eqn:E1.
  destruct (mmap_spec O _ _ _ _ a w w1 E1 H) as [(Ea & H1 & _)|(Ea & Ha & _ & H1)].
  { rewrite Ea, Z.eqb_refl. eexists _, _, w1. split; [reflexivity|]. revert H1. unfold owned. cbn -[Z.leb]. by rewrite Hs. }
  rewrite (proj2 (Z.eqb_neq _ _)) by done. destruct (syscall kernel CEventfd w1) as [c w2] eqn:E2.
  destruct (take_spec O _ _ c w1 w2 E2 eq_refl H1) as (H2 & _ & _). cbn [gets] in H2.
  set (b1 := set_wake (ret c) (set_sqes_map (ret a) sz b)).
  assert (holds O (owned b1 ++ F) w2) as H3.
  { eapply holds_perm; [|exact H2]. unfold owned, b1. cbn -[Z.leb Z.eqb]. rewrite Hw, Hs, Hp, (map_res_nonzero (ret a)) by done.
    change (fd_res (ret c)) with (if 0 <=? ret c then [RFd (ret c)] else []).
    destruct (0 <=? ret c); cbn -[Z.leb Z.eqb]; rewrite ?app_nil_r, <- !app_assoc; cbn; solve_Permutation. }
  destruct (ret c <? 0); [by eexists _, _, w2|]. destruct (negb _); [by eexists _, _, w2|].
  destruct (use_pbuf_ring cfg); [|by eexists _, _, w2].
  destruct (register_pbuf_ring_spec O F cfg (set_flags (multishot_accept_ b1) true (msgring_ok_ b1) (sqpoll_ b1) b1) w2)
    as (r & b' & w' & -> & H4 & _); [done|done|]. by eexists _, _, w'.
Qed.

Lemma map_rings_spec O F cfg p b w :
  bare b -> holds O (fd_res (ring_fd_ b) ++ F) w ->
  exists ok b' w', map_rings kernel cfg p b w = (ok, b', w') /\ holds O (owned b' ++ F) w'.
Proof.
  intros Hb H. unfold map_rings. set (n := if feat_single_mmap p then Z.max _ _ else _). cbv zeta.
  destruct (syscall kernel (CMmap SqRing _ n) w) as [a w1] eqn:E1.
  destruct (mmap_spec O _ _ _ _ a w w1 E1 H) as [(Ea & H1 & _)|(Ea & Ha & _ & H1)].
  { rewrite Ea, Z.eqb_refl. eexists _, _, w1. split; [reflexivity|]. destruct Hb as (Hw & _ & Hc & Hs & Hp).
    revert H1. unfold owned. cbn -[Z.leb]. rewrite Hw, Hc, Hs, Hp. cbn -[Z.leb]. by rewrite app_nil_r. }
  rewrite (proj2 (Z.eqb_neq _ _)) by done.
  destruct (map_cq_spec O F p (u64 (cq_off_cqes p + p_cq_entries p * sizeof_cqe)) (ret a) n b w1 Hb Ha H1)
    as (ok & b2 & w2 & -> & H2 & Hw & Hs & Hp).
  destruct ok; cbn [negb]; [|by eexists _, _, w2]. by apply map_rest_spec.
Qed.

Lemma uring_init_spec O F cfg w : holds O F w ->
  exists r b w', init kernel cfg uring0 w = (r, b, w') /\ holds O (owned b ++ F) w'.
Proof.
  intros H. unfold init. destruct (syscall kernel (CSetup (sq_entries cfg) (want_sqpoll cfg)) w) as [a w1] eqn:E1.
  destruct (take_spec O F _ a w w1 E1 eq_refl H) as (H1 & _ & _). cbn [gets] in H1. cbv zeta.
  set (x := if (ret a <? 0) && want_sqpoll cfg then _ else _).
  assert (exists a2 b2 w2, x = (a2, b2, w2) /\ bare b2 /\ holds O (fd_res (ring_fd_ b2) ++ F) w2 /\ owned b2 = fd_res (ring_fd_ b2))
    as (a2 & b2 & w2 & -> & Hb & H2 & Ho).
  { unfold x. destruct (Z.leb_spec 0 (ret a)) as [Ea|Ea].
    - rewrite (proj2 (Z.ltb_ge _ _)) by done. cbn [andb].
      destruct (want_sqpoll cfg); eexists _, _, w1; (split; [reflexivity|]); (split; [done|]);
        unfold fd_res, owned; cbn -[Z.leb]; unfold fd_res; by rewrite (proj2 (Z.leb_le _ _)) by done.
    - rewrite (proj2 (Z.ltb_lt _ _)) by done. cbn [andb]. destruct (want_sqpoll cfg).
      + destruct (syscall kernel (CSetup (sq_entries cfg) false) w1) as [c w2] eqn:E2.
        destruct (take_spec O F _ c w1 w2 E2 eq_refl H1) as (H2 & _ & _). cbn [gets] in H2.
        eexists _, _, w2. split; [reflexivity|]. split; [done|]. unfold owned. cbn -[Z.leb]. rewrite app_nil_r. split; [|done].
        unfold fd_res. by destruct (0 <=? ret c).
      + eexists _, _, w1. split; [reflexivity|]. split; [done|]. unfold owned. cbn -[Z.leb]. rewrite app_nil_r. split; [|done].
        unfold fd_res. by rewrite (proj2 (Z.leb_gt _ _)) by done. }
  destruct (Z.ltb_spec (ring_fd_ b2) 0) as [Er|Er]; [eexists _, _, w2; split; [reflexivity|by rewrite Ho]|].
  set (y := if msg_ring_wakes cfg then _ else _).
  assert (exists ok w3, y = (ok, w3) /\ holds O (fd_res (ring_fd_ b2) ++ F) w3) as (ok & w3 & -> & H3).
  { unfold y. destruct (msg_ring_wakes cfg); [|by eexists _, w2]. pose proof (msg_ring_supported_spec O _ w2 H2) as H3.
    destruct (msg_ring_supported kernel w2) as [ok w3]. by eexists _, w3. }
  destruct (map_rings_spec O F cfg (params a2) (set_flags (multishot_accept_ b2) (wake_armed_ b2) ok (sqpoll_ b2) b2) w3 Hb H3)
    as (fin & b4 & w4 & -> & H4).
  destruct fin; [by eexists _, _, w4|]. destruct (teardown_spec O F b4 w4 H4) as [H5 H6].
  destruct (teardown kernel b4 w4) as [b5 w5]. eexists _, _, w5. split; [reflexivity|]. cbn in H5, H6. by rewrite H6.
Qed.

Lemma move_assign_spec O F b o w : holds O (owned b ++ F) w ->
  exists o' w', move_assign kernel b o w = (o, o', w') /\ owned o' = [] /\ holds O F w'.
Proof.
  intros H. unfold move_assign. destruct (teardown_spec O F b w H) as [H1 _]. destruct (teardown kernel b w) as [b1 w1].
  eexists _, w1. split; [reflexivity|]. split; [|done]. done.
Qed.

Lemma create_spec O F cfg w : holds O F w ->
  exists r w', create kernel cfg w = (r, w') /\ holds O ((match r with Val b => owned b | Bad _ => [] end) ++ F) w'.
Proof.
  intros H. unfold create. destruct (uring_init_spec O F cfg w H) as (r & b & w1 & -> & H1). destruct (r =? 0).
  - destruct (move_assign_spec O (owned b ++ F) uring0 b w1 H1) as (o' & w2 & -> & Ho & H2).
    destruct (teardown_spec O (owned b ++ F) o' w2) as [H3 _]; [by rewrite Ho|].
    destruct (teardown kernel o' w2) as [? w3]. by eexists _, w3.
  - destruct (teardown_spec O F b w1 H1) as [H2 _]. destruct (teardown kernel b w1) as [? w2]. by eexists _, w2.
Qed.

(** ** All objects *)

Definition all_owned (O : gmap nat UringBackend) : list Res := concat (map (fun x => owned x.2) (map_to_list O)).

Lemma all_owned_insert O i b : O !! i = None -> all_owned (<[i := b]> O) ≡ₚ owned b ++ all_owned O.
Proof.
  intros Hi. unfold all_owned. rewrite <- !flat_map_concat_map. rewrite (map_to_list_insert O i b Hi). done.
Qed.

Lemma all_owned_delete O i b : O !! i = Some b -> all_owned O ≡ₚ owned b ++ all_owned (delete i O).
Proof. intros Hi. rewrite <- (insert_delete_id O i b Hi) at 1. apply all_owned_insert, lookup_delete_eq. Qed.

Lemma all_owned_update O i b b' : O !! i = Some b -> all_owned (<[i := b']> O) ≡ₚ owned b' ++ all_owned (delete i O).
Proof. intros Hi. rewrite <- insert_delete_eq. apply all_owned_insert, lookup_delete_eq. Qed.

Lemma holds_objects O O' F w : holds O F w -> holds O' F (set_objects O' w).
Proof. intros []. by constructor. Qed.

Definition sound w : Prop := holds (objects w) (all_owned (objects w)) w.

Lemma moved_sound O i j o o' w :
  O !! j = Some o -> i <> j -> owned o' = [] ->
  holds O (all_owned (delete i O)) w -> sound (set_objects (<[i := o]> (<[j := o']> O)) w).
Proof.
  intros Hj Hne Ho H. unfold sound. cbn [objects set_objects]. eapply holds_objects, holds_perm, H.
  assert (delete i O !! j = Some o) as Hj' by (by rewrite lookup_delete_ne).
  rewrite <- (insert_delete_eq (<[j := o']> O) i o), all_owned_insert by apply lookup_delete_eq.
  rewrite (delete_insert_ne _ i j) by done. rewrite (all_owned_update _ j o o' Hj'), Ho. by rewrite (all_owned_delete _ j o Hj').
Qed.

Lemma perform_sound o w w' : perform kernel o w = Some w' -> sound w -> sound w'.
Proof.
  unfold sound at 1. intros E H. destruct o as [i cfg|i j|i j|i|]; cbn [perform] in E.
  - destruct (objects w !! i) eqn:Ei; [done|].
    destruct (create_spec (objects w) _ cfg w H) as (r & w1 & Er & H1). rewrite Er in E. injection E as <-.
    destruct r as [b|e]; [|unfold sound; by rewrite (h_objects _ _ _ H1)].
    unfold sound. cbn [objects set_objects]. rewrite (h_objects _ _ _ H1). eapply holds_objects, holds_perm, H1.
    by rewrite all_owned_insert.
  - destruct (objects w !! i) as [b|] eqn:Ei; [|done]. destruct (objects w !! j) as [o|] eqn:Ej; [|done].
    cbn [mbind option_bind] in E. case_decide as Hij; [by injection E as <-|].
    destruct (move_assign_spec (objects w) (all_owned (delete i (objects w))) b o w) as (o' & w1 & Em & Ho & H1).
    { eapply holds_perm, H. by apply all_owned_delete. }
    rewrite Em in E. injection E as <-. rewrite (h_objects _ _ _ H1).
    by apply (moved_sound (objects w) i j o o').
  - destruct (objects w !! i) eqn:Ei; [done|]. destruct (objects w !! j) as [o|] eqn:Ej; [|done].
    cbn [mbind option_bind] in E.
    destruct (move_assign_spec (objects w) (all_owned (objects w)) uring0 o w H) as (o' & w1 & Em & Ho & H1).
    rewrite Em in E. injection E as <-. rewrite (h_objects _ _ _ H1).
    apply (moved_sound (objects w) i j o o'); try done; [intros ->; congruence|by rewrite delete_id].
  - destruct (objects w !! i) as [b|] eqn:Ei; [|done]. cbn [mbind option_bind] in E.
    destruct (teardown_spec (objects w) (all_owned (delete i (objects w))) b w) as [H1 _].
    { eapply holds_perm, H. by apply all_owned_delete. }
    destruct (teardown kernel b w) as [b' w1]. injection E as <-. cbn in H1.
    unfold sound. cbn [objects set_objects]. rewrite (h_objects _ _ _ H1). by eapply holds_objects.
  - injection E as <-. pose proof (probe_spec _ _ _ H) as H1. unfold sound. by rewrite (h_objects _ _ _ H1).
Qed.

(** C27: Whatever the kernel refuses, and however backends are created, moved, assigned and
    destroyed, nothing is given back twice or by one that does not hold it, and what the
    process holds is exactly what the living backends own: a setup that fails, a probe
    and a destroyed backend leave nothing behind. *)
Theorem uring_setup_leaks_nothing os w :
  run kernel os world0 = Some w ->
  fault w = false /\ held w ≡ₚ all_owned (objects w) /\ (objects w = ∅ -> held w = []).
Proof.
  intros E. assert (sound w) as H.
  { assert (sound world0) as H0 by (constructor; done || (cbn; lia)). revert E H0. generalize world0.
    induction os as [|o os IH]; intros w0; cbn [run]; [by intros [= ->]|].
    destruct (perform kernel o w0) as [w1|] eqn:E1; [|done]. cbn [mbind option_bind]. intros E H0.
    apply (IH w1 E). by eapply perform_sound. }
  split; [apply H|]. split; [apply H|]. intros Ho. pose proof (h_held _ _ _ H) as Hh. rewrite Ho in Hh.
  by apply Permutation_nil_r.
Qed.

End Proofs.

(** ** Witness *)

(** A kernel that refuses buffer rings and submission threads and numbers what it gives. *)
Definition res_id (x : Res) : Z := match x with RFd x => x | RMap x _ => x | RMem x => x end.
Definition next_id (l : list Res) : Z := foldr (fun x m => Z.max (res_id x + 1) m) 3 l.
Definition demo_kernel (w : World) (c : Call) : Answer :=
  let p := mkParams 8 16 64 128 false in
  match c with
  | CSetup _ true | CRegisterPbuf _ _ _ _ => mkAnswer (-1) 22 p []
  | CSetup _ _ | CEventfd | CMmap _ _ _ | CCalloc _ => mkAnswer (next_id (held w)) 0 p []
  | _ => mkAnswer 0 0 p []
  end.

Lemma next_id_above l x : x ∈ l -> res_id x < next_id l.
Proof.
  induction l as [|y l IH]; [by intros ?%elem_of_nil|]. intros [->|H]%elem_of_cons; cbn; [lia|]. apply IH in H. unfold next_id in H. lia.
Qed.

Lemma next_id_low l : 3 <= next_id l.
Proof. induction l; cbn; [lia|]. unfold next_id in IHl. lia. Qed.

Lemma demo_kernel_good : good_kernel demo_kernel.
Proof.
  intros w c. split; [destruct c as [? []| | | | | | | | |]; cbn; pose proof (next_id_low (held w)); lia|].
  intros x Hx. assert (fresh (held w) x) as Hf; [|done].
  assert (res_id x = next_id (held w)) as E.
  { destruct c as [? []| | | | | | | | |]; cbn in Hx; repeat case_match; by inversion Hx. }
  destruct x; cbn in *; [|split; [pose proof (next_id_low (held w)); lia|intros n]|];
    intros Hin%next_id_above; cbn in Hin; lia.
Qed.

Definition demo_config (pbuf sqpoll : bool) : UringConfig := mkConfig 8 pbuf 7 16 true true sqpoll.
Definition demo_ops : list Op :=
  [ OCreate 0 (demo_config false true); OCreate 1 (demo_config true false); OCreate 2 (demo_config false false);
    OMoveConstruct 3 0; OMoveAssign 2 3; OMoveAssign 2 2; OProbe; ODestroy 0; ODestroy 3 ].

Lemma uring_setup_leaks_nothing_witness :
  match run demo_kernel demo_ops world0 with
  | Some w =>
      (length (held w) = 5%nat /\ length (log w) = 40%nat) /\
      (fault w = false /\ held w ≡ₚ all_owned (objects w) /\ (objects w = ∅ -> held w = []))
  | None => False
  end.
Proof.
  destruct (run demo_kernel demo_ops world0) as [w|] eqn:E; [|vm_compute in E; discriminate].
  split; [vm_compute in E; injection E as <-; vm_compute; split; reflexivity|].
  exact (uring_setup_leaks_nothing demo_kernel demo_kernel_good demo_ops w E).
Defined.

End Setup.
