(* ===== verification/Context.v ===== *)
(** * Contexts that follow the work

    [Deadline], [TraceId], [StopToken], [StopSource] and [Context] of
    [src/include/afx/core/context.hpp], the ambient context of a thread,
    [ContextScope] and the context a spawned coroutine starts with
    ([src/include/afx/core/event_manager.hpp]).

    A pointer to a context slot is [None] when it is indeterminate. *)

From stdpp Require Import base option gmap list.
From Stdlib Require Import ZArith Lia.
From S2P Require Import Prelude.
Local Open Scope Z_scope.

Module Ctx.

(** ** Deadlines *)

(** [set_] and [t_]. *)
Definition Deadline : Type := option Z.

Definition duration_max : Z := 2 ^ 63 - 1.

Definition is_set (d : Deadline) : bool := match d with Some _ => true | None => false end.
Definition expired (now : Z) (d : Deadline) : bool := match d with Some t => t <=? now | None => false end.
Definition remaining (now : Z) (d : Deadline) : Z :=
  match d with
  | None => duration_max
  | Some t => if now <? t then t - now else 0
  end.
Definition earliest_of (d o : Deadline) : Deadline :=
  match d, o with
  | None, _ => o
  | _, None => d
  | Some a, Some b => Some (Z.min a b)
  end.

(** ** Traces and cooperative cancellation *)

Record TraceId := mkTraceId { hi : Z; lo : Z; span : Z }.

Definition no_trace : TraceId := mkTraceId 0 0 0.
Definition trace_valid (t : TraceId) : bool := negb (hi t =? 0) || negb (lo t =? 0).
Definition short_id (t : TraceId) : Z := Z.lxor (hi t) (lo t).

(** The shared states of stop sources, and a token: the state it refers to. *)
Definition StopStates : Type := gmap Z bool.
Definition StopToken : Type := option Z.

Definition stop_requested (m : StopStates) (t : StopToken) : bool :=
  match t with Some s => default false (m !! s) | None => false end.
Definition make_source (m : StopStates) : Z * StopStates :=
  let s := fresh (dom m) in (s, <[s := false]> m).
Definition token (s : Z) : StopToken := Some s.
Definition request (s : Z) (m : StopStates) : StopStates := <[s := true]> m.

Record Context := mkCtx {
  deadline : Deadline;
  trace : TraceId;
  stop : StopToken;
  priority : Z }.

Definition empty_ctx : Context := mkCtx None no_trace None 0.

(** ** The ambient context *)

(** The context slots of a program's event managers, and which one the thread's
    [tls_ambient] points to. *)
Record Thread := mkThread { slots : gmap Z Context; tls : option Z }.

Definition slot_ctx (s : Z) (th : Thread) : Context := default empty_ctx (slots th !! s).
Definition ambient_context (th : Thread) : Context :=
  match tls th with Some s => slot_ctx s th | None => empty_ctx end.

Record ContextScope := mkScope {
  slot_ : option Z;          (* None: never initialised *)
  prev_ : Context;
  tls_prev_ : option Z;
  active_ : bool }.

(** The constructor: [with_context]. *)
Definition enter (s : Z) (next : Context) (th : Thread) : ContextScope * Thread :=
  (mkScope (Some s) (slot_ctx s th) (tls th) true,
   mkThread (<[s := next]> (slots th)) (Some s)).

(** [restore]; [None] is a store through an indeterminate pointer. *)
Definition restore (sc : ContextScope) (th : Thread) : option (ContextScope * Thread) :=
  if negb (active_ sc) then Some (sc, th)
  else
    s ← slot_ sc;
    Some (mkScope (slot_ sc) (prev_ sc) (tls_prev_ sc) false,
          mkThread (<[s := prev_ sc]> (slots th)) (tls_prev_ sc)).

(** The move constructor, which does not initialise [slot_]: the new scope and
    the old one. *)
Definition move_scope (o : ContextScope) : ContextScope * ContextScope :=
  (mkScope None (prev_ o) (tls_prev_ o) (active_ o),
   mkScope (slot_ o) (prev_ o) (tls_prev_ o) false).

(** The context of a spawned coroutine: [ctx] merged with the ambient one. *)
Definition spawn_ctx (amb ctx : Context) : Context :=
  mkCtx (earliest_of (deadline amb) (deadline ctx))
        (if trace_valid (trace ctx) then trace ctx else trace amb)
        (match stop ctx with Some _ => stop ctx | None => stop amb end)
        (priority ctx).

(** ** Deadlines only tighten *)

Lemma expired_earliest now d o : expired now (earliest_of d o) = expired now d || expired now o.
Proof.
  destruct d as [a|], o as [b|]; simpl; rewrite ?orb_false_r; try done.
  destruct (Z.leb_spec a now), (Z.leb_spec b now); simpl; try (apply Z.leb_le; lia). apply Z.leb_gt. lia.
Qed.

Lemma remaining_earliest now d o :
  (forall t, d = Some t \/ o = Some t -> t - now <= duration_max) ->
  remaining now (earliest_of d o) = Z.min (remaining now d) (remaining now o).
Proof.
  intros H. destruct d as [a|], o as [b|]; simpl; try done; try lia.
  - repeat case_test; lia.
  - specialize (H a ltac:(tauto)). unfold duration_max in *. case_test; lia.
  - specialize (H b ltac:(tauto)). unfold duration_max in *. case_test; lia.
Qed.

(** The context after a chain of hops, each with what the spawner asked for. *)
Definition hops (amb : Context) (asked : list Context) : Context := foldl spawn_ctx amb asked.

Lemma hops_expired now asked amb :
  expired now (deadline (hops amb asked)) =
  expired now (deadline amb) || existsb (fun c => expired now (deadline c)) asked.
Proof.
  revert amb. induction asked as [|c l IH]; intros amb; simpl; [by rewrite orb_false_r|].
  unfold hops in *. rewrite IH. simpl. by rewrite expired_earliest, orb_assoc.
Qed.

(** A hop only tightens a deadline.  Through any chain of spawns the work is
    expired exactly when the first context or one of those asked for on the way
    is, it never has more time left than any of them, and a trace once valid is
    replaced only by a valid one. *)
Theorem hops_only_tighten now amb asked :
  (forall c t, c ∈ amb :: asked -> deadline c = Some t -> t - now <= duration_max) ->
  expired now (deadline (hops amb asked)) =
    expired now (deadline amb) || existsb (fun c => expired now (deadline c)) asked /\
  (forall c, c ∈ amb :: asked -> remaining now (deadline (hops amb asked)) <= remaining now (deadline c)) /\
  (trace_valid (trace amb) = true -> trace_valid (trace (hops amb asked)) = true).
Proof.
  intros Hb. split; [apply hops_expired|]. revert amb Hb.
  induction asked as [|a l IH]; intros amb Hb.
  { split; [|done]. intros c ->%list_elem_of_singleton. done. }
  destruct (IH (spawn_ctx amb a)) as [IH1 IH2].
  { intros c t [->|Hc]%elem_of_cons Ht; [|apply (Hb c); [set_solver|done]].
    simpl in Ht. destruct (deadline amb) as [x|] eqn:Ex, (deadline a) as [y|] eqn:Ey; simplify_eq/=.
    - pose proof (Hb amb x ltac:(set_solver) Ex). lia.
    - by apply (Hb amb); [set_solver|].
    - by apply (Hb a); [set_solver|]. }
  assert (remaining now (deadline (hops amb (a :: l))) <= Z.min (remaining now (deadline amb)) (remaining now (deadline a))) as Hm.
  { rewrite <- remaining_earliest; [apply (IH1 (spawn_ctx amb a)); set_solver|].
    intros t [Ht|Ht]; [by apply (Hb amb); [set_solver|]|by apply (Hb a); [set_solver|]]. }
  split.
  - intros c Hc. apply elem_of_cons in Hc as [->|Hc]; [lia|]. apply elem_of_cons in Hc as [->|Hc]; [lia|].
    apply IH1. set_solver.
  - intros Ht. apply IH2. simpl. by destruct (trace_valid (trace a)) eqn:E.
Qed.

Lemma hops_only_tighten_witness :
  let amb := mkCtx (Some 100) (mkTraceId 1 2 3) None 0 in
  let a := mkCtx (Some 70) no_trace None 0 in
  let b := mkCtx None no_trace (Some 4) 1 in
  deadline (hops amb [a; b]) = Some 70 /\ remaining 50 (deadline (hops amb [a; b])) <= remaining 50 (deadline amb) /\
  trace_valid (trace (hops amb [a; b])) = true.
Proof.
  cbv zeta. split; [reflexivity|].
  destruct (hops_only_tighten 50 (mkCtx (Some 100) (mkTraceId 1 2 3) None 0)
    [mkCtx (Some 70) no_trace None 0; mkCtx None no_trace (Some 4) 1]) as (_&H1&H2).
  - intros c t Hc Ht. unfold duration_max.
    repeat (apply elem_of_cons in Hc as [->|Hc]; [simpl in Ht; simplify_eq; lia|]). by apply not_elem_of_nil in Hc.
  - split; [apply H1; left|by apply H2].
Defined.

(** ** Scopes nest *)

(** Work on a thread: scopes with work inside, destroyed in reverse order of
    their construction. *)
Inductive work := Scope (s : Z) (next : Context) (body : list work).

Fixpoint do_work (fuel : nat) (ws : list work) (th : Thread) : option Thread :=
  match fuel, ws with
  | _, [] => Some th
  | O, _ => None
  | S fuel, Scope s c body :: ws =>
      let '(sc, th) := enter s c th in
      th ← do_work fuel body th;
      '(_, th) ← restore sc th;
      do_work fuel ws th
  end.

(** Two threads that the rest of the program cannot tell apart. *)
Definition same_ambient (th th' : Thread) : Prop :=
  tls th' = tls th /\ forall s, slot_ctx s th' = slot_ctx s th.

Lemma slot_ctx_insert s c m t s' :
  slot_ctx s' (mkThread (<[s := c]> m) t) = if decide (s = s') then c else slot_ctx s' (mkThread m t).
Proof.
  unfold slot_ctx. simpl. destruct (decide (s = s')) as [->|]; [by rewrite lookup_insert_eq|by rewrite lookup_insert_ne].
Qed.

(** Scopes are balanced.  Whatever scopes open and close inside one another,
    over any event managers, the thread's ambient context and every manager's
    context are as before afterwards; and a scope that was moved from another
    restores through a pointer that was never set. *)
Theorem scopes_restore_ambient fuel ws th th' :
  do_work fuel ws th = Some th' ->
  same_ambient th th' /\
  (forall s c, let '(sc, t) := enter s c th in restore (fst (move_scope sc)) t = None).
Proof.
  intros H. split; [|done]. revert ws th th' H. induction fuel as [|fuel IH]; intros ws th th' H.
  { destruct ws; [|done]. by simplify_eq/=. }
  destruct ws as [|[s c body] ws]; [by simplify_eq/=|]. simpl in H.
  destruct (do_work fuel body _) as [t1|] eqn:E1; [|done]. simpl in H.
  apply IH in E1 as [Et Es]. apply IH in H as [Ht Hs]. simpl in Ht. split; [done|].
  intros s'. rewrite Hs, slot_ctx_insert. destruct (decide (s = s')) as [->|Hne]; [done|].
  etrans; [exact (Es s')|]. rewrite slot_ctx_insert, decide_False by done. done.
Qed.

Lemma scopes_restore_ambient_witness :
  let th := mkThread (<[1 := empty_ctx]> (<[2 := empty_ctx]> ∅)) None in
  let c := mkCtx (Some 9) no_trace None 0 in
  is_Some (do_work 5 [Scope 1 c [Scope 2 c []; Scope 1 empty_ctx []]] th) /\
  forall th', do_work 5 [Scope 1 c [Scope 2 c []; Scope 1 empty_ctx []]] th = Some th' -> same_ambient th th'.
Proof.
  cbv zeta. split; [vm_compute; by eexists|]. intros th' H. exact (proj1 (scopes_restore_ambient 5 _ _ th' H)).
Defined.

End Ctx.
