(* ===== verification/Coro.v ===== *)
(** * Coroutine tasks

    The promise of a task ([src/include/afx/coro/task.hpp]) and the awaiters it
    parks in: [SleepOp] and [PostReplyOp] of [src/include/afx/coro/ops.hpp],
    [JoinOp] of [src/include/afx/coro/scope.hpp] and [Task::Awaiter].

    A coroutine's code is the tree of its suspension points: what it awaits, and
    for every answer the code that follows.  The frame of a parked coroutine is
    the tree that is left.  A value and an exception are numbers: the library
    only moves them. *)

From stdpp Require Import base option gmap list.
From Stdlib Require Import ZArith Lia.
From S2P Require Import Prelude Context.
Local Open Scope Z_scope.

Module Coro.

(** ** Code *)

(** What a task stores: [result_] or [ep_]. *)
Inductive ret := Val (v : Z) | Exn (e : Z).

(** The [Result] of an await: resolved, [Cancelled], or a refused post. *)
Inductive answer := Done | Cancelled | Refused.

(** What a frame is parked in: a [SleepOp]; a [PostReplyOp], with whether its
    post was taken and [PostReplyState::cancelled]; a [JoinOp]. *)
Inductive awaiter := Sleep | Reply (posted cancelled : bool) | Join.

(** [Call own b k] awaits the task [b], whose promise has [stopped_] = [own]
    once it runs. *)
Inductive body :=
| Return (r : ret)
| Await (a : awaiter) (k : answer -> body)
| Call (own : bool) (b : body) (k : ret -> body).

(** [await_suspend] of a sleep and of a post, [stop] being [stop_requested()]:
    [None] suspends, an answer goes on with it at once. *)
Definition sleep_suspend (stop : bool) : option answer := if stop then Some Cancelled else None.
Definition reply_suspend (stop posted : bool) : option answer :=
  if stop then Some Cancelled else if posted then None else Some Refused.

(** [reply]: what the await returns when the hop lands. *)
Definition reply_answer (cancelled : bool) : answer := if cancelled then Cancelled else Done.

(** Runs code to its next suspension.  [tok] is the stop token's state and [st]
    the promise's [stopped_]: a sleep and a post refuse to suspend when either
    is set, a join suspends anyway, and an awaited task starts at once, with
    [stopped_] inherited. *)
Fixpoint settle (tok st : bool) (b : body) : body :=
  match b with
  | Return r => Return r
  | Await Sleep k =>
      match sleep_suspend (st || tok) with Some a => settle tok st (k a) | None => b end
  | Await (Reply posted _) k =>
      match reply_suspend (st || tok) posted with
      | Some a => settle tok st (k a)
      | None => Await (Reply posted false) k
      end
  | Await Join k => b
  | Call _ b k =>
      match settle tok st b with
      | Return r => settle tok st (k r)
      | b' => Call st b' k
      end
  end.

(** What a parked frame waits for arrives: the timer fires, the reply hop lands
    or the scope drains. *)
Fixpoint fire (tok st : bool) (b : body) : body :=
  match b with
  | Return r => Return r
  | Await Sleep k => settle tok st (k Done)
  | Await (Reply _ c) k => settle tok st (k (reply_answer c))
  | Await Join k => settle tok st (k Done)
  | Call own b k =>
      match fire tok own b with
      | Return r => settle tok st (k r)
      | b' => Call own b' k
      end
  end.

(** Is a cancel thunk installed in the promise?  A sleep and a post install
    one, [request_stop] takes it out, and neither a join nor an awaited task has
    one. *)
Definition cancel_fn (b : body) : bool :=
  match b with
  | Await Sleep _ => true
  | Await (Reply _ c) _ => negb c
  | _ => false
  end.

(** The thunk: a sleep retracts its timer and resumes the task there and then,
    a post only marks the exchange. *)
Definition cancel_thunk (tok : bool) (b : body) : body :=
  match b with
  | Await Sleep k => settle tok true (k Cancelled)
  | Await (Reply posted _) k => Await (Reply posted true) k
  | _ => b
  end.

(** ** Promises *)

Record Promise := mkPromise {
  code : body;
  started : bool;
  stopped_ : bool;
  ctx : Ctx.Context }.

(** A task as its coroutine function returns it. *)
Definition task (b : body) : Promise := mkPromise b false false Ctx.empty_ctx.

Definition token_stop (m : Ctx.StopStates) (p : Promise) : bool := Ctx.stop_requested m (Ctx.stop (ctx p)).
Definition stop_requested (m : Ctx.StopStates) (p : Promise) : bool := stopped_ p || token_stop m p.

(** What a completed task holds. *)
Definition result (p : Promise) : option ret :=
  match started p, code p with true, Return r => Some r | _, _ => None end.

Definition start (m : Ctx.StopStates) (p : Promise) : Promise :=
  mkPromise (settle (token_stop m p) (stopped_ p) (code p)) true (stopped_ p) (ctx p).

Definition wake (m : Ctx.StopStates) (p : Promise) : Promise :=
  if started p then mkPromise (fire (token_stop m p) (stopped_ p) (code p)) true (stopped_ p) (ctx p) else p.

Definition request_stop (m : Ctx.StopStates) (p : Promise) : Promise :=
  mkPromise (if started p && cancel_fn (code p) then cancel_thunk (token_stop m p) (code p) else code p)
            (started p) true (ctx p).

(** What a child takes over from the task that awaits it. *)
Definition inherit_ctx (pp p : Ctx.Context) : Ctx.Context :=
  Ctx.mkCtx (Ctx.earliest_of (Ctx.deadline pp) (Ctx.deadline p)) (Ctx.trace pp)
            (match Ctx.stop pp with Some _ => Ctx.stop pp | None => Ctx.stop p end) (Ctx.priority p).

Definition inherit (pp p : Promise) : Promise :=
  mkPromise (code p) (started p) (stopped_ p || stopped_ pp) (inherit_ctx (ctx pp) (ctx p)).

(** For the examples: a child that sleeps and returns [v], or an exception if it is cancelled. *)
Definition napper (v : Z) : body := Await Sleep (fun a => Return (match a with Done => Val v | _ => Exn 1 end)).

(** ** Facts *)

Lemma result_request_stop m p r : result p = Some r -> result (request_stop m p) = Some r.
Proof.
  unfold result, request_stop. destruct p as [b s st c]; simpl. destruct s; [|done].
  by destruct b.
Qed.

Lemma result_wake m p r : result p = Some r -> result (wake m p) = Some r.
Proof.
  unfold result, wake. destruct p as [b s st c]; simpl. destruct s; [|done].
  by destruct b.
Qed.

Lemma result_started p r : result p = Some r -> started p = true.
Proof. unfold result. by destruct (started p). Qed.

Lemma started_request_stop m p : started (request_stop m p) = started p.
Proof. done. Qed.

Lemma started_wake m p : started (wake m p) = started p.
Proof. unfold wake. by destruct (started p) eqn:E. Qed.

Lemma result_not_started p : started p = false -> result p = None.
Proof. unfold result. by intros ->. Qed.

(** A task that sees its stop when it starts never parks in a sleep or a post. *)
Lemma settle_stopped tok b :
  match settle tok true b with Await (Sleep | Reply _ _) _ => False | _ => True end.
Proof.
  induction b as [r|[| |] k IH|own b IHb k IHk]; simpl; try done; try apply IH.
  destruct (settle tok true b); [apply IHk|done|done].
Qed.

(** Two requests are one. *)
Lemma request_stop_idem m p : cancel_fn (code (request_stop m p)) = false \/ started p = false.
Proof.
  destruct p as [b s st c]; unfold request_stop; simpl. destruct s; [|by right]. left. simpl.
  destruct b as [r|[|po ca|] k|own b k]; simpl; try done.
  - pose proof (settle_stopped (token_stop m (mkPromise (Await Sleep k) true st c)) (k Cancelled)) as H.
    destruct (settle _ true _) as [|[| |] ?|]; done.
  - by destruct ca.
Qed.

Lemma token_stop_request s m p : token_stop m p = true -> token_stop (Ctx.request s m) p = true.
Proof.
  unfold token_stop, Ctx.stop_requested, Ctx.request, Ctx.StopStates in *. destruct (Ctx.stop (ctx p)) as [t|]; [|done].
  destruct (decide (s = t)) as [->|]; [by rewrite lookup_insert_eq|by rewrite lookup_insert_ne].
Qed.

Lemma stop_requested_request s m p : stop_requested m p = true -> stop_requested (Ctx.request s m) p = true.
Proof.
  unfold stop_requested. intros [Hs|Hs]%orb_true_iff; apply orb_true_iff; [by left|right]. by apply token_stop_request.
Qed.

(** A task that awaits another is not interrupted: only its flag is set. *)
Lemma stop_does_not_reach_awaited_task m own b k st c :
  request_stop m (mkPromise (Call own b k) true st c) = mkPromise (Call own b k) true true c.
Proof. done. Qed.

End Coro.
