(* ===== verification/WhenAll.v ===== *)
(** * [when_all]

    [WhenAllOp] of [src/include/afx/coro/combine.hpp]: the awaiter starts every
    child, the last one to finish resumes the parent, and the parent's await
    returns the children's results in order.

    The awaiter is a temporary of the parent's [co_await] expression: when the
    parent is resumed it takes the results and the awaiter is destroyed, before
    the call that resumed it returns.  [alive] is the awaiter's lifetime, and
    [None] is an access to it after its end or to a result that is not there. *)

From stdpp Require Import base option gmap list.
From Stdlib Require Import ZArith Lia.
From S2P Require Import Prelude Context Coro.
Import Coro.
Local Open Scope Z_scope.
Local Open Scope afx_scope.

Module All.

(** What the parent's [co_await] yields: the tuple, [cancelled_err()], or a
    child's exception. *)
Inductive awaited := Got (vs : list Z) | Stopped | Threw (e : Z).

Record WhenAllOp := mkOp {
  tasks_ : list Promise;
  parent_ : Promise;
  armed : bool;              (* the parent's [cancel_fn] is this awaiter's *)
  remaining_ : Z;
  parent_suspended_ : bool;
  wake_ : bool;
  dead_ : bool;
  stops : Ctx.StopStates;    (* the program's stop sources *)
  alive : bool;
  returned : list awaited }. (* what the await has returned, each time *)

Definition set_tasks v o := mkOp v (parent_ o) (armed o) (remaining_ o) (parent_suspended_ o) (wake_ o) (dead_ o) (stops o) (alive o) (returned o).
Definition set_parent v a o := mkOp (tasks_ o) v a (remaining_ o) (parent_suspended_ o) (wake_ o) (dead_ o) (stops o) (alive o) (returned o).
Definition set_remaining v o := mkOp (tasks_ o) (parent_ o) (armed o) v (parent_suspended_ o) (wake_ o) (dead_ o) (stops o) (alive o) (returned o).
Definition set_suspended v o := mkOp (tasks_ o) (parent_ o) (armed o) (remaining_ o) v (wake_ o) (dead_ o) (stops o) (alive o) (returned o).
Definition set_wake v o := mkOp (tasks_ o) (parent_ o) (armed o) (remaining_ o) (parent_suspended_ o) v (dead_ o) (stops o) (alive o) (returned o).
Definition set_stops v o := mkOp (tasks_ o) (parent_ o) (armed o) (remaining_ o) (parent_suspended_ o) (wake_ o) (dead_ o) v (alive o) (returned o).

Definition op0 (m : Ctx.StopStates) (parent : Promise) (ts : list Promise) : WhenAllOp :=
  mkOp ts parent false (zlen ts) false false false m true [].

(** [collect]: the results in order, or the first exception among them. *)
Fixpoint collect (ts : list Promise) : option awaited :=
  match ts with
  | [] => Some (Got [])
  | p :: ts =>
      r ← result p;
      match r with
      | Exn e => Some (Threw e)
      | Val v => a ← collect ts; Some (match a with Got vs => Got (v :: vs) | _ => a end)
      end
  end.

(** The destructor.  It sets [dead_] before it cancels the children, so the
    [done_thunk] of a child that unwinds returns at once. *)
Definition destroy (o : WhenAllOp) : WhenAllOp :=
  mkOp (request_stop (stops o) <$> tasks_ o) (parent_ o) (armed o) (remaining_ o) (parent_suspended_ o) (wake_ o)
       true (stops o) false (returned o).

(** The parent runs on: [await_resume], then the end of the temporary. *)
Definition await_resume (o : WhenAllOp) : option WhenAllOp :=
  let o := set_parent (parent_ o) false o in
  a ← if stop_requested (stops o) (parent_ o) then Some Stopped else collect (tasks_ o);
  Some (destroy (mkOp (tasks_ o) (parent_ o) (armed o) (remaining_ o) (parent_suspended_ o) (wake_ o) (dead_ o)
                      (stops o) (alive o) (returned o ++ [a]))).

Definition done_thunk (o : WhenAllOp) : option WhenAllOp :=
  if dead_ o then Some o
  else
    let o := set_remaining (remaining_ o ⊟ 1) o in
    if remaining_ o =? 0 then if parent_suspended_ o then await_resume o else Some (set_wake true o)
    else Some o.

(** Child [j] has run up to [p']: [done_fn] is called if that was its end. *)
Definition child_ran (j : nat) (p' : Promise) (o : WhenAllOp) : option WhenAllOp :=
  p ← tasks_ o !! j;
  let o := set_tasks (<[j := p']> (tasks_ o)) o in
  match result p, result p' with
  | None, Some _ => done_thunk o
  | _, _ => Some o
  end.

Definition start_one (j : nat) (o : WhenAllOp) : option WhenAllOp :=
  p ← tasks_ o !! j; child_ran j (start (stops o) (inherit (parent_ o) p)) o.
Definition stop_one (j : nat) (o : WhenAllOp) : option WhenAllOp :=
  p ← tasks_ o !! j; child_ran j (request_stop (stops o) p) o.

(** A fold over the children, which are members of the awaiter. *)
Fixpoint each (f : nat -> WhenAllOp -> option WhenAllOp) (js : list nat) (o : WhenAllOp) : option WhenAllOp :=
  match js with
  | [] => Some o
  | j :: js => if alive o then o ← f j o; each f js o else None
  end.

Definition start_all (o : WhenAllOp) : option WhenAllOp := each start_one (seq 0 (length (tasks_ o))) o.
Definition cancel_children (o : WhenAllOp) : option WhenAllOp := each stop_one (seq 0 (length (tasks_ o))) o.

Definition await_suspend (o : WhenAllOp) : option WhenAllOp :=
  o ← start_all (set_parent (parent_ o) true o);
  if wake_ o then await_resume o else Some (set_suspended true o).

(** [co_await when_all(ts...)]; with no child the parent never suspends. *)
Definition when_all (m : Ctx.StopStates) (parent : Promise) (ts : list Promise) : option WhenAllOp :=
  let o := op0 m parent ts in
  match ts with
  | [] => Some (destroy (mkOp [] parent false 0 false false false m true [Got []]))
  | _ => await_suspend o
  end.

(** What happens while the parent waits: what child [j] awaits arrives; the
    parent's [request_stop]; a stop source is triggered; the parent's frame is
    destroyed, its promise with it. *)
Inductive act := Wake (j : nat) | ParentStop | TokenStop (s : Z) | Teardown.

Definition step (a : act) (o : WhenAllOp) : option WhenAllOp :=
  match a with
  | Wake j =>
      if alive o then match tasks_ o !! j with Some p => child_ran j (wake (stops o) p) o | None => Some o end
      else Some o
  | ParentStop =>
      let pp := parent_ o in
      let o' := set_parent (mkPromise (code pp) (started pp) true (ctx pp)) false o in
      if armed o then cancel_children o' else Some o'
  | TokenStop s => Some (set_stops (Ctx.request s (stops o)) o)
  | Teardown => if alive o then Some (destroy (set_parent (parent_ o) false o)) else Some o
  end.

Fixpoint run (acts : list act) (o : WhenAllOp) : option WhenAllOp :=
  match acts with
  | [] => Some o
  | a :: acts => o ← step a o; run acts o
  end.

(** ** What holds between events *)

Definition pending (p : Promise) : bool := match result p with None => true | Some _ => false end.
Definition left_ (o : WhenAllOp) : Z := Z.of_nat (count_if pending (tasks_ o)).

(** The awaiter lives and counts the children that are not done; the parent is
    suspended ([s]) or still starting them. *)
Record waiting (s : bool) (o : WhenAllOp) : Prop := {
  w_alive : alive o = true;
  w_dead : dead_ o = false;
  w_susp : parent_suspended_ o = s;
  w_ret : returned o = [];
  w_left : remaining_ o = left_ o;
  w_wake : wake_ o = negb s && (left_ o =? 0);
  w_some : s = true -> 0 < left_ o;
  w_size : zlen (tasks_ o) < 2 ^ 64 }.

(** The parent has been resumed, once. *)
Definition resumed (o : WhenAllOp) : Prop :=
  alive o = false /\ armed o = false /\ left_ o = 0 /\
  exists a, returned o = [a] /\
    ((a = Stopped /\ stop_requested (stops o) (parent_ o) = true) \/ collect (tasks_ o) = Some a).

(** The parent's frame was destroyed while it waited. *)
Definition torn_down (o : WhenAllOp) : Prop := alive o = false /\ armed o = false /\ returned o = [].

(** ** Results *)

Lemma pending_false p : pending p = false <-> is_Some (result p).
Proof. unfold pending. destruct (result p); split; done. Qed.

Lemma collect_total ts : count_if pending ts = 0%nat -> is_Some (collect ts).
Proof.
  induction ts as [|p ts IH]; cbn [count_if]; intros H; simpl; [by eexists|].
  destruct (pending p) eqn:E; [lia|]. apply pending_false in E as [r ->]. simpl.
  destruct r; simpl; [|by eexists]. destruct IH as [a ->]; [lia|]. by eexists.
Qed.

Lemma collect_stop m ts a : collect ts = Some a -> collect (request_stop m <$> ts) = Some a.
Proof.
  revert a. induction ts as [|p ts IH]; intros a; [done|]. rewrite fmap_cons. cbn [collect].
  destruct (result p) as [r|] eqn:E; [|done]. rewrite (result_request_stop m p r E). cbn.
  destruct r; [|done]. destruct (collect ts) as [a'|]; [|done]. by rewrite (IH a' eq_refl).
Qed.

Lemma count_stop m ts : count_if pending ts = 0%nat -> count_if pending (request_stop m <$> ts) = 0%nat.
Proof.
  induction ts as [|p ts IH]; cbn [count_if]; intros H; [done|]. rewrite fmap_cons. cbn [count_if].
  destruct (pending p) eqn:E; [lia|]. rewrite IH by lia. apply pending_false in E as [r E].
  unfold pending. by rewrite (result_request_stop m p r E).
Qed.

Lemma collect_not_stopped ts : collect ts <> Some Stopped.
Proof.
  induction ts as [|p ts IH]; simpl; [done|]. destruct (result p) as [[|]|]; simpl; try done.
  destruct (collect ts) as [[| |]|]; simpl; try done.
Qed.

Lemma left_pending o : 0 < left_ o -> exists j p, tasks_ o !! j = Some p /\ result p = None.
Proof.
  unfold left_. induction (tasks_ o) as [|p ts IH]; cbn [count_if]; [lia|]. intros H.
  destruct (result p) eqn:E; [|by exists O, p].
  destruct IH as (j&q&?&?); [|by exists (S j), q]. unfold pending in H at 1. rewrite E in H. lia.
Qed.

Lemma pending_left o j p : tasks_ o !! j = Some p -> result p = None -> 0 < left_ o.
Proof.
  unfold left_. revert j. induction (tasks_ o) as [|q ts IH]; intros [|j] Hj Hp; simplify_eq/=.
  - unfold pending. rewrite Hp. lia.
  - specialize (IH j Hj Hp). destruct (pending q); lia.
Qed.

(** ** One child runs *)

Lemma all_await_resume_ok o :
  left_ o = 0 -> returned o = [] -> exists o', await_resume o = Some o' /\ resumed o'.
Proof.
  intros Hl Hr. unfold await_resume. simpl. destruct (collect_total (tasks_ o)) as [a Ha]; [unfold left_ in Hl; lia|].
  rewrite Hr, Ha. unfold resumed, left_ in *.
  destruct (stop_requested (stops o) (parent_ o)) eqn:E; simpl; eexists; (split; [done|]); simpl.
  - split_and!; try done; [rewrite count_stop; lia|]. eexists; split; [done|by left].
  - split_and!; try done; [rewrite count_stop; lia|]. eexists; split; [done|right]. by apply collect_stop.
Qed.

(** What a child that runs leaves alone. *)
Definition same_frame (o o' : WhenAllOp) : Prop :=
  armed o' = armed o /\ parent_ o' = parent_ o /\ stops o' = stops o.

Lemma child_parks s j p p' o :
  waiting s o -> tasks_ o !! j = Some p -> pending p' = pending p ->
  waiting s (set_tasks (<[j := p']> (tasks_ o)) o).
Proof.
  intros [Ha Hd Hs Hr Hl Hw Hp Hz] Hj E. pose proof (count_if_insert pending (tasks_ o) j p p' Hj) as Hc.
  rewrite E in Hc. assert (left_ (set_tasks (<[j:=p']> (tasks_ o)) o) = left_ o) as El by (unfold left_; simpl; lia).
  split; rewrite ?El; try done. unfold zlen in *. simpl. by rewrite length_insert.
Qed.

Lemma child_ends s j p p' o :
  waiting s o -> tasks_ o !! j = Some p -> pending p = true -> pending p' = false ->
  exists o', done_thunk (set_tasks (<[j := p']> (tasks_ o)) o) = Some o' /\
    ((waiting s o' /\ tasks_ o' = <[j := p']> (tasks_ o) /\ same_frame o o') \/ (s = true /\ resumed o' /\ count_if pending (<[j := p']> (tasks_ o)) = 0%nat)).
Proof.
  intros [Ha Hd Hs Hr Hl Hw Hp Hz] Hj E1 E2. pose proof (count_if_insert pending (tasks_ o) j p p' Hj) as Hc.
  pose proof (count_if_length pending (tasks_ o)). rewrite E1, E2 in Hc. unfold left_, zlen in *.
  assert (length (<[j:=p']> (tasks_ o)) = length (tasks_ o)) as Hn by apply length_insert.
  unfold done_thunk. simpl. rewrite Hd, Hl, Hs, u64_small by lia. set (o1 := set_remaining _ _).
  destruct (Z.eqb_spec (Z.of_nat (count_if pending (tasks_ o)) - 1) 0) as [E|E]; [destruct s|].
  - destruct (all_await_resume_ok o1) as (o'&?&?); [unfold left_; simpl; lia|done|]. exists o'. split; [done|right]. split_and!; [done|done|lia].
  - eexists; split; [done|]. left. split_and!; try done.
    split; simpl; try done; unfold left_, zlen in *; simpl in *; rewrite ?Hn; try lia.
  - eexists; split; [done|]. left. split_and!; try done.
    split; simpl; try done; unfold left_, zlen in *; simpl in *; rewrite ?Hn; try lia.
    rewrite Hw. destruct s; [done|]. simpl. transitivity false; [apply Z.eqb_neq; lia|symmetry; apply Z.eqb_neq; lia].
Qed.

Lemma all_child_ran_ok s j p p' o :
  waiting s o -> tasks_ o !! j = Some p -> (forall r, result p = Some r -> result p' = Some r) ->
  exists o', child_ran j p' o = Some o' /\
    ((waiting s o' /\ tasks_ o' = <[j := p']> (tasks_ o) /\ same_frame o o') \/ (s = true /\ resumed o' /\ count_if pending (<[j := p']> (tasks_ o)) = 0%nat)).
Proof.
  intros W Hj Hk. unfold child_ran. rewrite Hj. simpl.
  assert (pending p' = pending p -> exists o', Some (set_tasks (<[j:=p']> (tasks_ o)) o) = Some o' /\
    ((waiting s o' /\ tasks_ o' = <[j := p']> (tasks_ o) /\ same_frame o o') \/ (s = true /\ resumed o' /\ count_if pending (<[j := p']> (tasks_ o)) = 0%nat))) as Hsame.
  { intros E. eexists; split; [done|]. left. split; [by apply (child_parks s j p)|done]. }
  destruct (result p) as [r|] eqn:Ep.
  { apply Hsame. unfold pending. by rewrite Ep, (Hk r eq_refl). }
  destruct (result p') as [r|] eqn:Ep'; [|apply Hsame; unfold pending; by rewrite Ep, Ep'].
  apply (child_ends s j p); [done|done| |]; unfold pending; by rewrite ?Ep, ?Ep'.
Qed.

(** ** The loops *)

Lemma all_start_loop js o :
  waiting false o -> (forall j, j ∈ js -> (j < length (tasks_ o))%nat) ->
  (forall j p, j ∈ js -> tasks_ o !! j = Some p -> started p = false) -> NoDup js ->
  exists o', each start_one js o = Some o' /\ waiting false o'.
Proof.
  revert o. induction js as [|j js IH]; intros o W Hin Hst Hnd; [by eexists|].
  apply NoDup_cons in Hnd as [Hnj Hnd]. cbn [each]. rewrite (w_alive _ _ W).
  destruct (lookup_lt_is_Some_2 (tasks_ o) j) as [p Hp]; [apply Hin; set_solver|].
  assert (start_one j o = child_ran j (start (stops o) (inherit (parent_ o) p)) o) as -> by (unfold start_one; by rewrite Hp).
  destruct (all_child_ran_ok false j p (start (stops o) (inherit (parent_ o) p)) o W Hp) as (o'&->&[(W'&Ht&_)|[? _]]); [|simpl|done].
  { intros r Hr. by rewrite (result_not_started p) in Hr by (apply (Hst j); set_solver). }
  apply IH; [done| | |done].
  - intros i Hi. rewrite Ht, length_insert. apply Hin. set_solver.
  - intros i q Hi. rewrite Ht, list_lookup_insert_ne by set_solver. apply Hst. set_solver.
Qed.

(** Cancelling the children while the last of them is pending: it is still
    there when the loop reaches it. *)
Lemma all_cancel_loop n i o p :
  waiting true o -> (i + S n = length (tasks_ o))%nat ->
  last (tasks_ o) = Some p -> result p = None ->
  exists o', each stop_one (seq i (S n)) o = Some o' /\ (waiting true o' \/ resumed o').
Proof.
  revert i o. induction n as [|n IH]; intros i o W Hn Hl Hp; cbn [seq each]; rewrite (w_alive _ _ W);
    (destruct (lookup_lt_is_Some_2 (tasks_ o) i) as [q Hq]; [lia|]); (assert (stop_one i o = child_ran i (request_stop (stops o) q) o) as -> by (unfold stop_one; by rewrite Hq));
    destruct (all_child_ran_ok true i q (request_stop (stops o) q) o W Hq) as (o'&->&Ho); try apply result_request_stop; simpl.
  - exists o'. split; [done|]. destruct Ho as [(?&_)|(_&?&_)]; auto.
  - rewrite last_lookup in Hl.
    assert (<[i := request_stop (stops o) q]> (tasks_ o) !! pred (length (tasks_ o)) = Some p) as Hlast.
    { rewrite list_lookup_insert_ne by lia. done. }
    destruct Ho as [(W'&Ht&_)|(_&_&H0)].
    + apply IH; [done|rewrite Ht, length_insert; lia|by rewrite last_lookup, Ht, length_insert|done].
    + pose proof (pending_left (set_tasks _ o) _ p Hlast Hp) as H1. unfold left_ in H1. simpl in H1. lia.
Qed.

(** ** Every event *)

(** Between events; [td] is whether the parent's frame may have been destroyed. *)
Definition settled (td : Prop) (o : WhenAllOp) : Prop :=
  waiting true o \/ resumed o \/ (td /\ torn_down o).

(** The child that cancelling reaches last is done already. *)
Definition last_done (o : WhenAllOp) : Prop :=
  exists p, last (tasks_ o) = Some p /\ is_Some (result p).

Lemma waiting_nonempty o : waiting true o -> exists p, last (tasks_ o) = Some p.
Proof.
  intros W. pose proof (w_some _ _ W eq_refl) as H. unfold left_ in H.
  destruct (last (tasks_ o)) as [p|] eqn:E; [by exists p|]. apply last_None in E. rewrite E in H. simpl in H. lia.
Qed.

Lemma all_cancel_ok o :
  waiting true o ->
  match cancel_children o with Some o' => waiting true o' \/ resumed o' | None => last_done o end.
Proof.
  intros W. destruct (waiting_nonempty o W) as [p Hp]. destruct (result p) as [r|] eqn:E.
  - assert (last_done o) as Hd by (exists p; split; [done|by eexists]). clear E.
    enough (forall js o1, waiting true o1 \/ resumed o1 -> (forall j, j ∈ js -> (j < length (tasks_ o1))%nat) ->
      match each stop_one js o1 with Some o' => waiting true o' \/ resumed o' | None => True end) as Hg.
    { unfold cancel_children. pose proof (Hg (seq 0 (length (tasks_ o))) o (or_introl W)) as H.
      destruct (each _ _ _); [apply H|done]. intros j Hj%elem_of_seq. lia. }
    induction js as [|j js IH]; intros o1 Ho Hin; [done|]. cbn [each].
    destruct Ho as [W1|(->&_)]; [|done]. rewrite (w_alive _ _ W1).
    destruct (lookup_lt_is_Some_2 (tasks_ o1) j) as [q Hq]; [apply Hin; set_solver|].
    assert (stop_one j o1 = child_ran j (request_stop (stops o1) q) o1) as -> by (unfold stop_one; by rewrite Hq).
    destruct (all_child_ran_ok true j q (request_stop (stops o1) q) o1 W1 Hq (result_request_stop _ _)) as (o2&->&[(W2&Ht&_)|(_&R&_)]); simpl.
    + apply IH; [by left|]. intros i Hi. rewrite Ht, length_insert. apply Hin. set_solver.
    + destruct js; [by right|]. simpl. by rewrite (proj1 R).
  - unfold cancel_children. destruct (length (tasks_ o)) as [|n] eqn:En; [by rewrite (nil_length_inv _ En) in Hp|].
    destruct (all_cancel_loop n 0 o p W) as (o'&->&?); [lia|done|done|done].
Qed.

Lemma all_step_settled td a o :
  settled td o ->
  match step a o with
  | Some o' => settled (td \/ a = Teardown) o'
  | None => a = ParentStop /\ waiting true o /\ last_done o
  end.
Proof.
  intros [W|[R|[Htd T]]].
  - destruct a as [j| |s|]; simpl.
    + rewrite (w_alive _ _ W). destruct (tasks_ o !! j) as [p|] eqn:Hp; [|by left].
      destruct (all_child_ran_ok true j p (wake (stops o) p) o W Hp (result_wake _ _)) as (o'&->&[(W'&_)|(_&R&_)]);
        [by left|by right; left].
    + set (o1 := set_parent _ _ _). assert (waiting true o1) as W1 by (destruct W; by split).
      destruct (armed o); [|by left]. pose proof (all_cancel_ok o1 W1) as H.
      destruct (cancel_children o1); [|done]. destruct H; [by left|by right; left].
    + left. destruct W. by split.
    + rewrite (w_alive _ _ W). right; right. split; [by right|]. split; [done|]. split; [done|]. apply (w_ret _ _ W).
  - destruct R as (Ha&Hr&Hl&x&Hx&Hc). destruct a as [j| |s|]; simpl; rewrite ?Ha, ?Hr; right; left; split_and!; try done;
      exists x; (split; [done|]); destruct Hc as [[-> Hs]|Hc]; auto; left; (split; [done|]); simpl; try done.
    by apply stop_requested_request.
  - destruct T as (Ha&Hr&Hx). destruct a as [j| |s|]; simpl; rewrite ?Ha, ?Hr; right; right; (split; [by left|done]).
Qed.

Lemma all_run_settled acts td o :
  settled td o ->
  match run acts o with
  | Some o' => settled (td \/ Teardown ∈ acts) o'
  | None => exists before after o1, acts = before ++ ParentStop :: after /\ run before o = Some o1 /\
            waiting true o1 /\ last_done o1
  end.
Proof.
  revert td o. induction acts as [|a acts IH]; intros td o H; simpl.
  { destruct H as [?|[?|[? ?]]]; [by left|by right; left|right; right]. auto. }
  pose proof (all_step_settled td a o H) as Hs. destruct (step a o) as [o1|] eqn:E; simpl.
  - specialize (IH _ o1 Hs). destruct (run acts o1) as [o2|].
    + destruct IH as [?|[?|[? ?]]]; [by left|by right; left|right; right]. split; [set_solver|done].
    + destruct IH as (b&f&o2&->&Hb&?). exists (a :: b), f, o2. split; [done|]. simpl. by rewrite E.
  - destruct Hs as (->&W&L). by exists [], acts, o.
Qed.

Lemma when_all_settled m parent ts :
  zlen ts < 2 ^ 64 -> Forall (fun p => started p = false) ts ->
  exists o, when_all m parent ts = Some o /\ settled False o.
Proof.
  intros Hz Hs. destruct ts as [|p0 ts0] eqn:Ets.
  { eexists; split; [done|]. right; left. split_and!; try done. eexists; split; [done|by right]. }
  rewrite <- Ets in *. assert (when_all m parent ts = await_suspend (op0 m parent ts)) as -> by (by rewrite Ets).
  assert (count_if pending ts = length ts) as Hc.
  { apply count_if_all. intros i x Hx. unfold pending. rewrite result_not_started; [done|].
    by eapply Forall_lookup_1 in Hs. }
  assert (0 < length ts)%nat by (rewrite Ets; simpl; lia). clear Ets.
  unfold await_suspend, start_all. cbn [tasks_ op0 set_parent].
  destruct (all_start_loop (seq 0 (length ts)) (set_parent parent true (op0 m parent ts))) as (o&Ho&W).
  - split; try done; unfold left_; simpl; rewrite ?Hc; try done. symmetry. apply Z.eqb_neq. lia.
  - intros j Hj%elem_of_seq. simpl. lia.
  - intros j p _ Hp. by eapply Forall_lookup_1 in Hs.
  - apply NoDup_seq.
  - change (parent_ (op0 m parent ts)) with parent. rewrite Ho. simpl. rewrite (w_wake _ _ W). simpl.
    destruct (Z.eqb_spec (left_ o) 0) as [E|E].
    + destruct (all_await_resume_ok o E (w_ret _ _ W)) as (o'&->&R). exists o'. split; [done|by right; left].
    + eexists; split; [done|]. left. destruct W as [Ha Hd Hu Hr Hl Hw Hp Hn].
      apply Z.eqb_neq in E as E'. rewrite E' in Hw. split; try done. simpl. intros _. unfold left_ in *. simpl. lia.
Qed.

(** C14: [when_all] resumes its parent exactly once, when the last child is
    done.  For any children, any order in which what they await arrives, and any
    stops: as long as a child is pending the parent has not been resumed; after
    that its await has returned exactly once, the children's results in order,
    the first exception among them, or [Cancelled] if a stop was requested; and
    the destroyed awaiter is used only when the parent is stopped while the last
    child of the list is done and another is not. *)
Theorem when_all_resumes_once m parent ts acts :
  zlen ts < 2 ^ 64 -> Forall (fun p => started p = false) ts ->
  exists o0, when_all m parent ts = Some o0 /\
  match run acts o0 with
  | Some o =>
      (alive o = true /\ returned o = [] /\ exists j p, tasks_ o !! j = Some p /\ result p = None) \/
      (alive o = false /\ (forall j p, tasks_ o !! j = Some p -> is_Some (result p)) /\
       exists a, returned o = [a] /\
         (a = Stopped /\ stop_requested (stops o) (parent_ o) = true \/ collect (tasks_ o) = Some a)) \/
      (Teardown ∈ acts /\ alive o = false /\ returned o = [])
  | None =>
      exists before after o1, acts = before ++ ParentStop :: after /\ run before o0 = Some o1 /\
      alive o1 = true /\ last_done o1
  end.
Proof.
  intros Hz Hs. destruct (when_all_settled m parent ts Hz Hs) as (o0&H0&S0). exists o0. split; [done|].
  pose proof (all_run_settled acts False o0 S0) as H. destruct (run acts o0) as [o|].
  - destruct H as [W|[R|[H (?&_&?)]]].
    + left. split_and!; [apply (w_alive _ _ W)|apply (w_ret _ _ W)|]. apply left_pending, (w_some _ _ W eq_refl).
    + right; left. destruct R as (?&_&Hl&?). split_and!; [done| |done]. intros j p Hp.
      destruct (result p) eqn:E; [by eexists|]. pose proof (pending_left o j p Hp E). lia.
    + right; right. split_and!; [|done|done]. by destruct H.
  - destruct H as (b&f&o1&?&?&W&?). exists b, f, o1. split_and!; [done|done|apply (w_alive _ _ W)|done].
Qed.

Lemma when_all_resumes_once_witness :
  let ts := [task (napper 7); task (Return (Val 8)); task (napper 9)] in
  (exists o0, when_all ∅ (task (Return (Val 0))) ts = Some o0) /\
  (o ← when_all ∅ (task (Return (Val 0))) ts; o ← run [Wake 2; Wake 0] o; Some (returned o)) = Some [Got [7; 8; 9]] /\
  (o ← when_all ∅ (task (Return (Val 0))) ts; o ← run [Wake 0; ParentStop] o; Some (returned o)) = Some [Stopped].
Proof.
  cbv zeta. split; [|split; reflexivity].
  destruct (when_all_resumes_once ∅ (task (Return (Val 0))) [task (napper 7); task (Return (Val 8)); task (napper 9)] [])
    as (o0&H&_); [vm_compute; done|repeat constructor|by exists o0].
Defined.

(** ** A stop that outlives the awaiter *)

Lemma all_stop_loop_fault n i o :
  waiting true o -> (i + n = length (tasks_ o))%nat -> last_done o ->
  (forall j p, tasks_ o !! j = Some p -> result p = None -> (i <= j)%nat /\ is_Some (result (request_stop (stops o) p))) ->
  each stop_one (seq i n) o = None.
Proof.
  revert i o. induction n as [|n IH]; intros i o W Hn Hld Hu.
  { destruct (left_pending o (w_some _ _ W eq_refl)) as (j&p&Hj&Hp). apply lookup_lt_Some in Hj as Hlt.
    destruct (Hu j p Hj Hp). lia. }
  cbn [seq each]. rewrite (w_alive _ _ W). destruct (lookup_lt_is_Some_2 (tasks_ o) i) as [q Hq]; [lia|].
  assert (stop_one i o = child_ran i (request_stop (stops o) q) o) as -> by (unfold stop_one; by rewrite Hq).
  destruct (all_child_ran_ok true i q _ o W Hq (result_request_stop (stops o) q)) as (o'&->&[(W'&Ht&_&_&Hst)|(_&R&H0)]); simpl.
  - apply IH; [done|rewrite Ht, length_insert; lia| |].
    + destruct Hld as (p&Hp&r&Hr). unfold last_done. rewrite last_lookup in Hp. rewrite last_lookup, Ht, length_insert.
      destruct (decide (i = pred (length (tasks_ o)))) as [->|]; [|rewrite list_lookup_insert_ne by done; naive_solver].
      rewrite list_lookup_insert_eq by lia. simplify_eq. eexists; split; [done|]. exists r. by apply result_request_stop.
    + rewrite Ht, Hst. intros j p Hj Hp. destruct (decide (i = j)) as [->|Hne].
      * rewrite list_lookup_insert_eq in Hj by lia. simplify_eq. destruct (result q) as [r|] eqn:Eq.
        { by rewrite (result_request_stop _ q r Eq) in Hp. }
        destruct (Hu j q Hq Eq) as [_ [r Hr]]. by rewrite Hr in Hp.
      * rewrite list_lookup_insert_ne in Hj by done. destruct (Hu j p Hj Hp). split; [lia|done].
  - destruct n as [|n]; [|simpl; by rewrite (proj1 R)]. exfalso. destruct Hld as (p&Hp&r&Hr). rewrite last_lookup in Hp.
    replace (pred (length (tasks_ o))) with i in Hp by lia. simplify_eq.
    pose proof (count_if_insert pending (tasks_ o) i p (request_stop (stops o) p) Hp) as Hc.
    pose proof (w_some _ _ W eq_refl) as Hl. unfold left_ in Hl.
    assert (pending p = false) as E1 by (unfold pending; by rewrite Hr).
    assert (pending (request_stop (stops o) p) = false) as E2 by (unfold pending; by rewrite (result_request_stop _ p r Hr)).
    rewrite E1, E2 in Hc. lia.
Qed.

(** stopping the parent of a [when_all] uses the awaiter after its end.
    When the last child of the list is done and the pending ones unwind as soon
    as they are cancelled, the parent runs on from inside the loop that cancels
    the children and destroys the awaiter and its tasks, and the loop goes on to
    the next of them. *)
Theorem when_all_stop_outlives_awaiter m parent ts o0 acts o :
  zlen ts < 2 ^ 64 -> Forall (fun p => started p = false) ts ->
  when_all m parent ts = Some o0 -> run acts o0 = Some o ->
  alive o = true -> armed o = true -> last_done o ->
  (forall p, p ∈ tasks_ o -> result p = None -> is_Some (result (request_stop (stops o) p))) ->
  step ParentStop o = None.
Proof.
  intros Hz Hs H0 Hr Ha Harm Hl Hu. destruct (when_all_settled m parent ts Hz Hs) as (o1&H1&S1).
  rewrite H0 in H1. injection H1 as <-.
  pose proof (all_run_settled acts False o0 S1) as H. rewrite Hr in H.
  assert (waiting true o) as W by (destruct H as [?|[(?&_)|(_&?&_)]]; [done|congruence|congruence]).
  simpl. rewrite Harm. unfold cancel_children. cbn [tasks_ set_parent].
  apply all_stop_loop_fault; [destruct W; by split|simpl; lia|done|].
  simpl. intros j p Hj Hp. split; [lia|]. apply Hu; [by eapply list_elem_of_lookup_2|done].
Qed.

Lemma when_all_stop_outlives_awaiter_witness :
  let ts := [task (napper 7); task (Return (Val 8))] in
  exists o0 o, when_all ∅ (task (Return (Val 0))) ts = Some o0 /\ run [] o0 = Some o /\ step ParentStop o = None.
Proof.
  cbv zeta. eexists _, _. split; [vm_compute; reflexivity|]. split; [reflexivity|].
  refine (when_all_stop_outlives_awaiter ∅ (task (Return (Val 0))) [task (napper 7); task (Return (Val 8))] _ [] _ _ _ _ _ _ _ _ _).
  - vm_compute; done.
  - repeat constructor.
  - vm_compute; reflexivity.
  - reflexivity.
  - reflexivity.
  - reflexivity.
  - eexists. split; [reflexivity|]. eexists. reflexivity.
  - intros p Hp _. repeat (apply elem_of_cons in Hp as [->|Hp]; [eexists; reflexivity|]). by apply not_elem_of_nil in Hp.
Defined.

End All.
