(* ===== verification/WhenAny.v ===== *)
(** * [when_any]

    [WhenAnyOp] of [src/include/afx/coro/combine.hpp]: the first child to finish
    stops the others and resumes the parent, whose await returns its index and
    its result.

    As for [when_all], [alive] is the lifetime of the awaiter, which ends when
    the parent is resumed, and [None] is an access to it after its end or to a
    result that is not there. *)

From stdpp Require Import base option gmap list.
From Stdlib Require Import ZArith Lia.
From S2P Require Import Prelude Context Coro.
Import Coro.
Local Open Scope Z_scope.

Module Any.

(** What the parent's [co_await] yields: an index and a value, the default
    [Out{}], [cancelled_err()], or the winner's exception. *)
Inductive awaited := Won (i : nat) (v : Z) | Default | Stopped | Threw (e : Z).

(** [finished] records the children in the order in which they finish. *)
Record WhenAnyOp := mkOp {
  tasks_ : list Promise;
  parent_ : Promise;
  armed : bool;              (* the parent's [cancel_fn] is this awaiter's *)
  winner_ : nat;
  won_ : bool;
  parent_suspended_ : bool;
  wake_ : bool;
  dead_ : bool;
  stops : Ctx.StopStates;    (* the program's stop sources *)
  alive : bool;
  returned : list awaited;   (* what the await has returned, each time *)
  finished : list nat }.

Definition set_tasks v o := mkOp v (parent_ o) (armed o) (winner_ o) (won_ o) (parent_suspended_ o) (wake_ o) (dead_ o) (stops o) (alive o) (returned o) (finished o).
Definition set_parent v a o := mkOp (tasks_ o) v a (winner_ o) (won_ o) (parent_suspended_ o) (wake_ o) (dead_ o) (stops o) (alive o) (returned o) (finished o).
Definition set_winner v o := mkOp (tasks_ o) (parent_ o) (armed o) v true (parent_suspended_ o) (wake_ o) (dead_ o) (stops o) (alive o) (returned o) (finished o).
Definition set_suspended v o := mkOp (tasks_ o) (parent_ o) (armed o) (winner_ o) (won_ o) v (wake_ o) (dead_ o) (stops o) (alive o) (returned o) (finished o).
Definition set_wake v o := mkOp (tasks_ o) (parent_ o) (armed o) (winner_ o) (won_ o) (parent_suspended_ o) v (dead_ o) (stops o) (alive o) (returned o) (finished o).
Definition set_stops v o := mkOp (tasks_ o) (parent_ o) (armed o) (winner_ o) (won_ o) (parent_suspended_ o) (wake_ o) (dead_ o) v (alive o) (returned o) (finished o).
Definition set_end d v o := mkOp (tasks_ o) (parent_ o) (armed o) (winner_ o) (won_ o) (parent_suspended_ o) (wake_ o) d (stops o) v (returned o) (finished o).
Definition set_returned v o := mkOp (tasks_ o) (parent_ o) (armed o) (winner_ o) (won_ o) (parent_suspended_ o) (wake_ o) (dead_ o) (stops o) (alive o) v (finished o).
Definition set_finished v o := mkOp (tasks_ o) (parent_ o) (armed o) (winner_ o) (won_ o) (parent_suspended_ o) (wake_ o) (dead_ o) (stops o) (alive o) (returned o) v.

Definition op0 (m : Ctx.StopStates) (parent : Promise) (ts : list Promise) : WhenAnyOp :=
  mkOp ts parent false (length ts) false false false false m true [] [].

Definition outcome (i : nat) (r : ret) : awaited := match r with Val v => Won i v | Exn e => Threw e end.

(** [winner_result]: only the winner's result is taken. *)
Definition winner_result (o : WhenAnyOp) : option awaited :=
  match tasks_ o !! winner_ o with
  | Some p => outcome (winner_ o) <$> result p
  | None => Some Default
  end.

(** A fold over the children, which are members of the awaiter. *)
Fixpoint each (f : nat -> WhenAnyOp -> option WhenAnyOp) (js : list nat) (o : WhenAnyOp) : option WhenAnyOp :=
  match js with
  | [] => Some o
  | j :: js => if alive o then o ← f j o; each f js o else None
  end.

(** [thunk j] is the [done_fn] of child [j]. *)
Section Children.
Variable thunk : nat -> WhenAnyOp -> option WhenAnyOp.

(** Child [j] has run up to [p']: its [done_fn] is called if that was its end. *)
Definition child_ran (j : nat) (p' : Promise) (o : WhenAnyOp) : option WhenAnyOp :=
  p ← tasks_ o !! j;
  let o := set_tasks (<[j := p']> (tasks_ o)) o in
  match result p, result p' with
  | None, Some _ => thunk j (set_finished (finished o ++ [j]) o)
  | _, _ => Some o
  end.

Definition stop_one (j : nat) (o : WhenAnyOp) : option WhenAnyOp :=
  p ← tasks_ o !! j; child_ran j (request_stop (stops o) p) o.

Definition cancel_children (o : WhenAnyOp) : option WhenAnyOp := each stop_one (seq 0 (length (tasks_ o))) o.

Definition cancel_others (except : nat) (o : WhenAnyOp) : option WhenAnyOp :=
  each (fun i o => if bool_decide (i = except) then Some o else stop_one i o) (seq 0 (length (tasks_ o))) o.

(** The destructor. *)
Definition destroy (o : WhenAnyOp) : option WhenAnyOp :=
  o ← cancel_children (set_end true (alive o) o); Some (set_end (dead_ o) false o).

(** The parent runs on: [await_resume], then the end of the temporary. *)
Definition await_resume (o : WhenAnyOp) : option WhenAnyOp :=
  let o := set_parent (parent_ o) false o in
  a ← if stop_requested (stops o) (parent_ o) && negb (won_ o) then Some Stopped else winner_result o;
  destroy (set_returned (returned o ++ [a]) o).

End Children.

(** [done_thunk] of child [j].  Cancelling the others and destroying the awaiter
    run the [done_thunk] of each child that unwinds there; [depth] bounds that
    nesting, and as a child finishes once their number is enough. *)
Fixpoint done_thunk (depth : nat) (j : nat) (o : WhenAnyOp) : option WhenAnyOp :=
  match depth with
  | O => None
  | S depth =>
      if dead_ o then Some o
      else if won_ o then Some o
      else
        o ← cancel_others (done_thunk depth) j (set_winner j o);
        if parent_suspended_ o then await_resume (done_thunk depth) o else Some (set_wake true o)
  end.

Definition thunks (j : nat) (o : WhenAnyOp) : option WhenAnyOp := done_thunk (S (length (tasks_ o))) j o.

Definition start_one (j : nat) (o : WhenAnyOp) : option WhenAnyOp :=
  p ← tasks_ o !! j; child_ran thunks j (start (stops o) (inherit (parent_ o) p)) o.

Definition start_all (o : WhenAnyOp) : option WhenAnyOp := each start_one (seq 0 (length (tasks_ o))) o.

Definition await_suspend (o : WhenAnyOp) : option WhenAnyOp :=
  o ← start_all (set_parent (parent_ o) true o);
  if wake_ o then await_resume thunks o else Some (set_suspended true o).

(** [co_await when_any(ts...)]. *)
Definition when_any (m : Ctx.StopStates) (parent : Promise) (ts : list Promise) : option WhenAnyOp :=
  await_suspend (op0 m parent ts).

(** What happens while the parent waits: what child [j] awaits arrives; the
    parent's [request_stop]; a stop source is triggered; the parent's frame is
    destroyed, its promise with it. *)
Inductive act := Wake (j : nat) | ParentStop | TokenStop (s : Z) | Teardown.

Definition step (a : act) (o : WhenAnyOp) : option WhenAnyOp :=
  match a with
  | Wake j =>
      if alive o then match tasks_ o !! j with Some p => child_ran thunks j (wake (stops o) p) o | None => Some o end
      else Some o
  | ParentStop =>
      let pp := parent_ o in
      let o' := set_parent (mkPromise (code pp) (started pp) true (ctx pp)) false o in
      if armed o then cancel_children thunks o' else Some o'
  | TokenStop s => Some (set_stops (Ctx.request s (stops o)) o)
  | Teardown => if alive o then destroy thunks (set_parent (parent_ o) false o) else Some o
  end.

Fixpoint run (acts : list act) (o : WhenAnyOp) : option WhenAnyOp :=
  match acts with
  | [] => Some o
  | a :: acts => o ← step a o; run acts o
  end.

(** ** What holds between events *)

(** The children are being started. *)
Record starting (o : WhenAnyOp) : Prop := {
  st_alive : alive o = true;
  st_dead : dead_ o = false;
  st_susp : parent_suspended_ o = false;
  st_ret : returned o = [];
  st_wake : wake_ o = won_ o;
  st_fin : if won_ o then head (finished o) = Some (winner_ o) else finished o = [];
  st_tasks : if won_ o then exists p, tasks_ o !! winner_ o = Some p /\ is_Some (result p) /\
                             forall i q, i <> winner_ o -> tasks_ o !! i = Some q -> stopped_ q = true
             else forall i p, tasks_ o !! i = Some p -> result p = None }.

(** The parent is suspended and no child is done. *)
Record waiting (o : WhenAnyOp) : Prop := {
  w_alive : alive o = true;
  w_dead : dead_ o = false;
  w_susp : parent_suspended_ o = true;
  w_ret : returned o = [];
  w_won : won_ o = false;
  w_fin : finished o = [];
  w_tasks : forall i p, tasks_ o !! i = Some p -> result p = None }.

(** The parent has been resumed, once, with the result of the child [j] that
    finished first. *)
Definition resumed_by (j : nat) (o : WhenAnyOp) : Prop :=
  alive o = false /\ armed o = false /\ head (finished o) = Some j /\
  exists p r, tasks_ o !! j = Some p /\ result p = Some r /\ returned o = [outcome j r] /\
    forall i q, i <> j -> tasks_ o !! i = Some q -> stopped_ q = true.

Definition torn_down (o : WhenAnyOp) : Prop := alive o = false /\ armed o = false /\ returned o = [].

(** ** Children that unwind after the race *)

(** The [done_thunk] of a child that finishes after the winner, or into the
    destructor, does nothing. *)
Definition quiet (thunk : nat -> WhenAnyOp -> option WhenAnyOp) : Prop :=
  forall j o, dead_ o || won_ o = true -> thunk j o = Some o.

Lemma done_thunk_quiet d : quiet (done_thunk (S d)).
Proof. intros j o H. simpl. by destruct (dead_ o), (won_ o). Qed.

Lemma thunks_quiet : quiet thunks.
Proof. intros j o. apply done_thunk_quiet. Qed.

Lemma stop_one_quiet t j p o :
  quiet t -> dead_ o || won_ o = true -> tasks_ o !! j = Some p ->
  exists l, stop_one t j o = Some (set_finished (finished o ++ l) (set_tasks (<[j := request_stop (stops o) p]> (tasks_ o)) o)).
Proof.
  intros Q H Hp. unfold stop_one, child_ran. rewrite Hp. simpl.
  destruct (result p), (result (request_stop (stops o) p)).
  2: { exists []. by rewrite app_nil_r. }
  1: { exists []. by rewrite app_nil_r. }
  - exists [j]. by rewrite Q.
  - exists []. by rewrite app_nil_r.
Qed.

(** The children from [i] on but for those of [keep], stopped. *)
Definition stop_from (i : nat) (keep : nat -> bool) (o : WhenAnyOp) : list Promise :=
  imap (fun k p => if keep k || bool_decide (k < i)%nat then p else request_stop (stops o) p) (tasks_ o).

Lemma stop_from_lookup i keep o k :
  stop_from i keep o !! k = (fun p : Promise => if keep k || bool_decide (k < i)%nat then p else request_stop (stops o) p) <$> tasks_ o !! k.
Proof. apply list_lookup_imap. Qed.

Lemma set_tasks_id o : set_tasks (tasks_ o) o = o.
Proof. by destruct o. Qed.
Lemma set_finished_id o : set_finished (finished o) o = o.
Proof. by destruct o. Qed.

Lemma quiet_loop t (keep : nat -> bool) f n i o :
  quiet t -> (forall j o, f j o = if keep j then Some o else stop_one t j o) ->
  alive o = true -> dead_ o || won_ o = true -> (i + n = length (tasks_ o))%nat ->
  exists l, each f (seq i n) o = Some (set_finished (finished o ++ l) (set_tasks (stop_from i keep o) o)).
Proof.
  intros Q Hf. revert i o. induction n as [|n IH]; intros i o Ha Hq Hn; cbn [seq each].
  { exists []. rewrite app_nil_r. do 2 f_equal. assert (stop_from i keep o = tasks_ o) as ->.
    - apply list_eq. intros k. rewrite stop_from_lookup. destruct (tasks_ o !! k) eqn:E; [|done]. simpl.
      rewrite bool_decide_eq_true_2, orb_true_r; [done|]. apply lookup_lt_Some in E. lia.
    - rewrite set_tasks_id. by rewrite set_finished_id. }
  rewrite Ha, Hf. destruct (lookup_lt_is_Some_2 (tasks_ o) i) as [p Hp]; [lia|]. destruct (keep i) eqn:Ek; simpl.
  - destruct (IH (S i) o Ha Hq ltac:(lia)) as [l ->]. exists l. do 3 f_equal. apply list_eq. intros k. rewrite !stop_from_lookup.
    destruct (decide (k = i)) as [->|Hk]; [by rewrite Ek|]. by rewrite (bool_decide_ext (k < S i)%nat (k < i)%nat) by lia.
  - destruct (stop_one_quiet t i p o Q Hq Hp) as [l0 ->]. simpl.
    set (o1 := set_finished _ _). destruct (IH (S i) o1 Ha Hq) as [l ->]; [simpl; rewrite length_insert; lia|].
    exists (l0 ++ l). rewrite app_assoc. assert (stop_from (S i) keep o1 = stop_from i keep o) as ->; [|done].
    apply list_eq. intros k. rewrite !stop_from_lookup. simpl. destruct (decide (k = i)) as [->|Hk].
    + rewrite list_lookup_insert_eq by (by eapply lookup_lt_Some). rewrite Hp. simpl. rewrite Ek, bool_decide_eq_true_2 by lia.
      by rewrite bool_decide_eq_false_2 by lia.
    + rewrite list_lookup_insert_ne by done. by rewrite (bool_decide_ext (k < S i)%nat (k < i)%nat) by lia.
Qed.

Lemma destroy_quiet t o :
  quiet t -> alive o = true ->
  exists l, destroy t o = Some (set_finished (finished o ++ l) (set_tasks (request_stop (stops o) <$> tasks_ o) (set_end true false o))).
Proof.
  intros Q Ha. unfold destroy, cancel_children.
  destruct (quiet_loop t (fun _ => false) (stop_one t) (length (tasks_ o)) 0 (set_end true (alive o) o)) as [l H]; try done.
  cbn [tasks_ set_end] in *. rewrite H. exists l.
  assert (stop_from 0 (fun _ => false) (set_end true (alive o) o) = request_stop (stops o) <$> tasks_ o) as ->; [|done].
  apply list_eq. intros k. by rewrite stop_from_lookup, list_lookup_fmap.
Qed.

Lemma cancel_others_quiet t j o :
  quiet t -> alive o = true -> won_ o = true ->
  exists l, cancel_others t j o = Some (set_finished (finished o ++ l)
    (set_tasks (stop_from 0 (fun i => bool_decide (i = j)) o) o)).
Proof. intros Q Ha Hw. unfold cancel_others. apply (quiet_loop t); try done. by rewrite Hw, orb_true_r. Qed.

(** ** One child runs *)

Lemma any_await_resume_ok t o p :
  quiet t -> alive o = true -> won_ o = true -> returned o = [] -> head (finished o) = Some (winner_ o) ->
  tasks_ o !! winner_ o = Some p -> is_Some (result p) ->
  (forall i q, i <> winner_ o -> tasks_ o !! i = Some q -> stopped_ q = true) ->
  exists o', await_resume t o = Some o' /\ resumed_by (winner_ o) o'.
Proof.
  intros Q Ha Hw Hr Hh Hp [r Hres] Hs. unfold await_resume, winner_result. simpl. rewrite Hw, andb_false_r, Hp, Hres, Hr. simpl.
  match goal with |- context [destroy t ?x] => destruct (destroy_quiet t x Q Ha) as [l ->] end.
  eexists; split; [done|]. split; [done|]. split; [done|]. split; [simpl; by destruct (finished o)|].
  simpl. exists (request_stop (stops o) p), r.
  split_and!; [by rewrite list_lookup_fmap, Hp|by apply result_request_stop|done|].
  intros i q Hi. rewrite list_lookup_fmap. destruct (tasks_ o !! i); simpl; [|done]. by intros [= <-].
Qed.

(** The first child to finish; the children before and after it are stopped. *)
Lemma child_wins j p' o :
  (alive o = true /\ dead_ o = false /\ returned o = [] /\ won_ o = false /\ finished o = [j]) ->
  tasks_ o !! j = Some p' -> is_Some (result p') ->
  exists o', thunks j o = Some o' /\
    (if parent_suspended_ o then resumed_by j o'
     else starting o' /\ started <$> tasks_ o' = started <$> tasks_ o).
Proof.
  intros (Ha&Hd&Hr&Hw&Hf) Hj Hp. unfold thunks.
  destruct (length (tasks_ o)) as [|n] eqn:El; [apply lookup_lt_Some in Hj; lia|]. cbn [done_thunk]. rewrite Hd, Hw.
  change (match n with O => _ | S _ => _ end) with (done_thunk n).
  destruct (cancel_others_quiet (done_thunk (S n)) j (set_winner j o)) as [l Hl]; [apply done_thunk_quiet|done|done|].
  cbn [done_thunk] in Hl. rewrite Hl. cbn [mbind option_bind]. clear Hl. set (o1 := set_finished _ _).
  assert (tasks_ o1 !! j = Some p') as Hj1.
  { unfold o1. cbn [tasks_ set_finished set_tasks]. rewrite stop_from_lookup. cbn [tasks_ set_winner]. rewrite Hj. simpl.
    by rewrite bool_decide_eq_true_2. }
  assert (forall i q, i <> j -> tasks_ o1 !! i = Some q -> stopped_ q = true) as Hs.
  { intros i q Hi. unfold o1. cbn [tasks_ set_finished set_tasks]. rewrite stop_from_lookup.
    destruct (tasks_ (set_winner j o) !! i); simpl; [|done].
    rewrite bool_decide_eq_false_2 by done. by intros [= <-]. }
  assert (head (finished o1) = Some j) as Hh by (unfold o1; simpl; by rewrite Hf).
  change (parent_suspended_ o1) with (parent_suspended_ o). destruct (parent_suspended_ o) eqn:Es.
  - apply (any_await_resume_ok (done_thunk (S n)) o1 p'); try done. apply done_thunk_quiet.
  - eexists; split; [done|]. split.
    + split; try done. simpl. by exists p'.
    + apply list_eq. intros k. rewrite !list_lookup_fmap. unfold o1. simpl. rewrite stop_from_lookup. simpl.
      destruct (tasks_ o !! k); simpl; [|done]. by destruct (_ || _).
Qed.

(** ** The loops *)

(** Which children have been started. *)
Definition begun (o : WhenAnyOp) : list bool := started <$> tasks_ o.

Lemma start_one_ok j p o :
  starting o -> tasks_ o !! j = Some p -> started p = false ->
  exists o', start_one j o = Some o' /\ starting o' /\ begun o' = <[j := true]> (begun o).
Proof.
  intros Sg Hj Hst. unfold start_one, child_ran. rewrite Hj. simpl.
  rewrite (result_not_started p Hst). set (p' := start _ _). set (o1 := set_tasks _ o).
  assert (begun o1 = <[j := true]> (begun o)) as Hb by (unfold begun, o1; simpl; by rewrite list_fmap_insert).
  assert (j < length (tasks_ o))%nat as Hlt by (by eapply lookup_lt_Some).
  destruct Sg as [Ha Hd Hs Hr Hw Hf Ht]. destruct (won_ o) eqn:Ew.
  - destruct Ht as (q&Hq&[r Hres]&Hoth).
    assert (j <> winner_ o) as Hne by (intros ->; simplify_eq; by rewrite result_not_started in Hres).
    assert (forall l, starting (set_finished (finished o ++ l) o1)) as S1.
    { intros l. split; try done; simpl; rewrite ?Ew; [done|by destruct (finished o)|]. exists q.
      rewrite list_lookup_insert_ne by done. split_and!; [done|by eexists|]. intros i q' Hi. destruct (decide (i = j)) as [->|].
      - rewrite list_lookup_insert_eq by done. intros [= <-]. simpl. by rewrite (Hoth j p).
      - rewrite list_lookup_insert_ne by done. by apply Hoth. }
    destruct (result p').
    + rewrite thunks_quiet by (simpl; by rewrite Ew, orb_true_r). eexists. split_and!; [done|apply S1|done].
    + exists o1. split_and!; [done| |done]. specialize (S1 []). by rewrite app_nil_r in S1.
  - destruct (result p') as [r|] eqn:Ep.
    + destruct (child_wins j p' (set_finished (finished o1 ++ [j]) o1)) as (o'&Ho'&H);
        [by simpl; rewrite Hf|by apply list_lookup_insert_eq|by eexists|].
      simpl in H. rewrite Hs in H. exists o'. split_and!; [done|apply H|]. rewrite <- Hb. apply H.
    + exists o1. split_and!; [done| |done]. split; try done; simpl; rewrite ?Ew; [done|done|]. intros i q.
      destruct (decide (i = j)) as [->|]; [rewrite list_lookup_insert_eq by done; by intros [= <-]|].
      rewrite list_lookup_insert_ne by done. apply Ht.
Qed.

Lemma any_start_loop n i o :
  starting o -> (i + n = length (tasks_ o))%nat ->
  (forall j p, (i <= j)%nat -> tasks_ o !! j = Some p -> started p = false) ->
  exists o', each start_one (seq i n) o = Some o' /\ starting o'.
Proof.
  revert i o. induction n as [|n IH]; intros i o Sg Hn Hst; [by exists o|]. cbn [seq each]. rewrite (st_alive _ Sg).
  destruct (lookup_lt_is_Some_2 (tasks_ o) i) as [p Hp]; [lia|].
  destruct (start_one_ok i p o Sg Hp) as (o'&->&S'&Hb); [by apply (Hst i)|]. simpl.
  assert (length (tasks_ o') = length (tasks_ o)) as Hl.
  { apply (f_equal length) in Hb. unfold begun in Hb. by rewrite length_insert, !length_fmap in Hb. }
  apply IH; [done|lia|]. intros j q Hj Hq. apply (f_equal (.!! j)) in Hb. unfold begun in Hb.
  rewrite list_lookup_insert_ne, !list_lookup_fmap, Hq in Hb by lia.
  destruct (tasks_ o !! j) as [q0|] eqn:E; simplify_eq/=. rewrite Hb. apply (Hst j); [lia|done].
Qed.

Lemma any_child_ran_ok j p p' o :
  waiting o -> tasks_ o !! j = Some p ->
  exists o', child_ran thunks j p' o = Some o' /\
    if result p' then resumed_by j o'
    else waiting o' /\ tasks_ o' = <[j := p']> (tasks_ o) /\ stops o' = stops o.
Proof.
  intros [Ha Hd Hs Hr Hw Hf Ht] Hj. unfold child_ran. rewrite Hj. simpl. rewrite (Ht j p Hj).
  assert (j < length (tasks_ o))%nat as Hlt by (by eapply lookup_lt_Some).
  destruct (result p') as [r|] eqn:E.
  - destruct (child_wins j p' (set_finished (finished o ++ [j]) (set_tasks (<[j := p']> (tasks_ o)) o))) as (o'&->&H);
      [by simpl; rewrite Hf|by apply list_lookup_insert_eq|by eexists|]. simpl in H. rewrite Hs in H. by exists o'.
  - eexists; split; [done|]. split_and!; [|done|done]. split; try done. simpl. intros i q.
    destruct (decide (i = j)) as [->|]; [rewrite list_lookup_insert_eq by done; by intros [= <-]|].
    rewrite list_lookup_insert_ne by done. apply Ht.
Qed.

(** Does child [p] unwind inside a stop request? *)
Definition unwinds (m : Ctx.StopStates) (p : Promise) : bool :=
  match result (request_stop m p) with Some _ => true | None => false end.

(** Cancelling the children is defined unless one before the last unwinds. *)
Lemma any_cancel_loop n i o :
  waiting o -> (i + n = length (tasks_ o))%nat ->
  match each (stop_one thunks) (seq i n) o with
  | Some o' => (waiting o' \/ exists j, resumed_by j o') /\
               (forall j p, (i <= j)%nat -> (S j < length (tasks_ o))%nat -> tasks_ o !! j = Some p -> unwinds (stops o) p = false)
  | None => exists j p, (i <= j)%nat /\ (S j < length (tasks_ o))%nat /\ tasks_ o !! j = Some p /\ unwinds (stops o) p = true
  end.
Proof.
  revert i o. induction n as [|n IH]; intros i o W Hn; cbn [seq each].
  { split; [by left|]. intros j p. lia. }
  rewrite (w_alive _ W). destruct (lookup_lt_is_Some_2 (tasks_ o) i) as [q Hq]; [lia|].
  assert (stop_one thunks i o = child_ran thunks i (request_stop (stops o) q) o) as -> by (unfold stop_one; by rewrite Hq).
  destruct (any_child_ran_ok i q (request_stop (stops o) q) o W Hq) as (o'&->&H). simpl.
  destruct (result (request_stop (stops o) q)) as [r|] eqn:E.
  - assert (unwinds (stops o) q = true) as Hu by (unfold unwinds; by rewrite E).
    destruct n as [|n]; simpl.
    + split; [right; by exists i|]. intros j p. lia.
    + rewrite (proj1 H). exists i, q. split_and!; [lia|lia|done|done].
  - assert (unwinds (stops o) q = false) as Hu by (unfold unwinds; by rewrite E).
    destruct H as (W'&Ht&Hst). specialize (IH (Datatypes.S i) o' W'). rewrite Ht, length_insert in IH. specialize (IH ltac:(lia)).
    rewrite Hst in IH. destruct (each _ _ o') as [o2|].
    + destruct IH as [IH1 IH2]. split; [done|]. intros j p Hij Hj Hp. destruct (decide (j = i)) as [->|]; [by simplify_eq|].
      apply (IH2 j); [lia|lia|]. by rewrite list_lookup_insert_ne.
    + destruct IH as (j&p&?&?&Hp&?). rewrite list_lookup_insert_ne in Hp by lia. exists j, p. split_and!; [lia|lia|done|done].
Qed.

(** ** Every event *)

(** Between events; [td] is whether the parent's frame may have been destroyed. *)
Definition settled (td : Prop) (o : WhenAnyOp) : Prop :=
  waiting o \/ (exists j, resumed_by j o) \/ (td /\ torn_down o).

(** A child before the last of the list would unwind inside a stop request. *)
Definition early_unwind (o : WhenAnyOp) : Prop :=
  exists j p, (S j < length (tasks_ o))%nat /\ tasks_ o !! j = Some p /\ unwinds (stops o) p = true.

Lemma any_step_settled td a o :
  settled td o ->
  match step a o with
  | Some o' => settled (td \/ a = Teardown) o'
  | None => a = ParentStop /\ waiting o /\ early_unwind o
  end.
Proof.
  intros [W|[[k R]|[Htd T]]].
  - destruct a as [j| |s|]; simpl.
    + rewrite (w_alive _ W). destruct (tasks_ o !! j) as [p|] eqn:Hp; [|by left].
      destruct (any_child_ran_ok j p (wake (stops o) p) o W Hp) as (o'&->&H).
      destruct (result (wake _ p)); [right; left; by exists j|left; apply H].
    + set (o1 := set_parent _ _ _). assert (waiting o1) as W1 by (destruct W; by split).
      destruct (armed o); [|by left]. pose proof (any_cancel_loop (length (tasks_ o1)) 0 o1 W1 ltac:(lia)) as H.
      unfold cancel_children. destruct (each _ _ o1); [|destruct H as (j&p&_&?&?&?); split_and!; [done|done|by exists j, p]].
      destruct H as [[?|?] _]; [by left|by right; left].
    + left. destruct W. by split.
    + rewrite (w_alive _ W). destruct (destroy_quiet thunks (set_parent (parent_ o) false o)) as [l ->];
        [apply thunks_quiet|apply (w_alive _ W)|].
      right; right. split; [by right|]. split; [done|]. split; [done|]. apply (w_ret _ W).
  - destruct R as (Ha&Hr&H). destruct a as [j| |s|]; simpl; rewrite ?Ha, ?Hr; right; left; exists k; done.
  - destruct T as (Ha&Hr&Hx). destruct a as [j| |s|]; simpl; rewrite ?Ha, ?Hr; right; right; (split; [by left|done]).
Qed.

Lemma any_run_settled acts td o :
  settled td o ->
  match run acts o with
  | Some o' => settled (td \/ Teardown ∈ acts) o'
  | None => exists before after o1, acts = before ++ ParentStop :: after /\ run before o = Some o1 /\
            waiting o1 /\ early_unwind o1
  end.
Proof.
  revert td o. induction acts as [|a acts IH]; intros td o H; simpl.
  { destruct H as [?|[?|[? ?]]]; [by left|by right; left|right; right]. auto. }
  pose proof (any_step_settled td a o H) as Hs. destruct (step a o) as [o1|] eqn:E; simpl.
  - specialize (IH _ o1 Hs). destruct (run acts o1) as [o2|].
    + destruct IH as [?|[?|[? ?]]]; [by left|by right; left|right; right]. split; [set_solver|done].
    + destruct IH as (b&f&o2&->&Hb&?). exists (a :: b), f, o2. split; [done|]. simpl. by rewrite E.
  - destruct Hs as (->&W&L). by exists [], acts, o.
Qed.

Lemma when_any_settled m parent ts :
  Forall (fun p => started p = false) ts -> exists o, when_any m parent ts = Some o /\ settled False o.
Proof.
  intros Hs. assert (forall j p, ts !! j = Some p -> started p = false) as Hst.
  { intros j p Hp. by eapply Forall_lookup_1 in Hs. }
  unfold when_any, await_suspend, start_all. cbn [tasks_ op0 set_parent parent_].
  destruct (any_start_loop (length ts) 0 (set_parent parent true (op0 m parent ts))) as (o&->&Sg); [|done|naive_solver|].
  { split; try done. simpl. intros i p Hp. apply result_not_started. by apply (Hst i). }
  simpl. destruct Sg as [Ha Hd Hu Hr Hw Hf Ht]. rewrite Hw. destruct (won_ o) eqn:E.
  - destruct Ht as (p&Hp&Hres&Hoth). destruct (any_await_resume_ok thunks o p) as (o'&->&R); try done; [apply thunks_quiet|].
    exists o'. split; [done|right; left; by eexists].
  - eexists; split; [done|]. left. by split.
Qed.

(** C15: the first child of a [when_any] to finish wins.  For any children, any
    order in which what they await arrives, and any stops: as long as the parent
    waits, no child has finished; after that its await has returned exactly once,
    with the index and the value or with the exception of the child that finished
    first of all, however many finished since, and every other child has been told
    to stop; unless the parent's frame was destroyed, when the await returns nothing.
    The exception is a parent that is stopped while a child before the last of the
    list unwinds at once: that child wins, and the loop that cancels the children
    goes on in the destroyed awaiter. *)
Theorem when_any_first_wins m parent ts acts :
  Forall (fun p => started p = false) ts ->
  exists o0, when_any m parent ts = Some o0 /\
  match run acts o0 with
  | Some o =>
      (alive o = true /\ returned o = [] /\ finished o = [] /\ forall j p, tasks_ o !! j = Some p -> result p = None) \/
      (alive o = false /\ exists j p r, head (finished o) = Some j /\
         tasks_ o !! j = Some p /\ result p = Some r /\ returned o = [outcome j r] /\
         forall i q, i <> j -> tasks_ o !! i = Some q -> stopped_ q = true) \/
      (Teardown ∈ acts /\ alive o = false /\ returned o = [])
  | None =>
      exists before after o1, acts = before ++ ParentStop :: after /\ run before o0 = Some o1 /\
      alive o1 = true /\ early_unwind o1
  end.
Proof.
  intros Hs. destruct (when_any_settled m parent ts Hs) as (o0&H0&S0). exists o0. split; [done|].
  pose proof (any_run_settled acts False o0 S0) as H. destruct (run acts o0) as [o|].
  - destruct H as [W|[[j (?&_&?&p&r&?)]|[H (?&_&?)]]].
    + left. destruct W. done.
    + right; left. split; [done|]. by exists j, p, r.
    + right; right. split_and!; [|done|done]. by destruct H.
  - destruct H as (b&f&o1&?&?&W&?). exists b, f, o1. split_and!; [done|done|apply (w_alive _ W)|done].
Qed.

Lemma when_any_first_wins_witness :
  let ts := [task (napper 7); task (napper 8); task (napper 9)] in
  (exists o0, when_any ∅ (task (Return (Val 0))) ts = Some o0) /\
  (o ← when_any ∅ (task (Return (Val 0))) ts; o ← run [Wake 1; Wake 0] o; Some (returned o, finished o, result <$> tasks_ o)) =
    Some ([Won 1 8], [1; 0; 2]%nat, [Some (Exn 1); Some (Val 8); Some (Exn 1)]).
Proof.
  cbv zeta. split; [|reflexivity].
  destruct (when_any_first_wins ∅ (task (Return (Val 0))) [task (napper 7); task (napper 8); task (napper 9)] [])
    as (o0&H&_); [repeat constructor|by exists o0].
Defined.

(** stopping the parent of a [when_any] uses the awaiter after its end.
    Whenever a child before the last unwinds as soon as it is cancelled, it wins,
    the parent runs on from inside the loop that cancels the children and
    destroys the awaiter and its tasks, and the loop goes on to the next. *)
Theorem when_any_stop_outlives_awaiter m parent ts o0 acts o :
  Forall (fun p => started p = false) ts ->
  when_any m parent ts = Some o0 -> run acts o0 = Some o ->
  alive o = true -> armed o = true -> early_unwind o ->
  step ParentStop o = None.
Proof.
  intros Hs H0 Hr Ha Harm Hu. destruct (when_any_settled m parent ts Hs) as (o1&H1&S1). rewrite H0 in H1. injection H1 as <-.
  pose proof (any_run_settled acts False o0 S1) as H. rewrite Hr in H.
  assert (waiting o) as W by (destruct H as [?|[(?&?&_)|(_&?&_)]]; [done|congruence|congruence]).
  simpl. rewrite Harm. set (o1 := set_parent _ _ _). assert (waiting o1) as W1 by (destruct W; by split).
  pose proof (any_cancel_loop (length (tasks_ o1)) 0 o1 W1 ltac:(lia)) as Hc. unfold cancel_children.
  destruct (each _ _ o1); [|done]. destruct Hc as [_ Hc], Hu as (j&p&Hj&Hp&Hu).
  specialize (Hc j p ltac:(lia) Hj Hp). simpl in Hc. congruence.
Qed.

Lemma when_any_stop_outlives_awaiter_witness :
  let ts := [task (napper 7); task (napper 8)] in
  exists o0 o, when_any ∅ (task (Return (Val 0))) ts = Some o0 /\ run [] o0 = Some o /\ step ParentStop o = None.
Proof.
  cbv zeta. eexists _, _. split; [vm_compute; reflexivity|]. split; [reflexivity|].
  refine (when_any_stop_outlives_awaiter ∅ (task (Return (Val 0))) [task (napper 7); task (napper 8)] _ [] _ _ _ _ _ _ _).
  - repeat constructor.
  - vm_compute; reflexivity.
  - reflexivity.
  - reflexivity.
  - reflexivity.
  - eexists 0%nat, _. split; [vm_compute; lia|]. split; reflexivity.
Defined.

End Any.
