(* ===== verification/WithTimeout.v ===== *)
(** * [with_timeout]

    [WithTimeoutOp] of [src/include/afx/coro/combine.hpp]: one child against a
    timer of the event manager.

    [alive] is the lifetime of the awaiter, which ends when the parent is
    resumed; [None] is an access to it after its end, a timer that fires into it
    included, or to a result that is not there. *)

From stdpp Require Import base option gmap list.
From Stdlib Require Import ZArith Lia.
From S2P Require Import Prelude Context Coro.
Import Coro.
Local Open Scope Z_scope.

Module Timeout.

(** What the parent's [co_await] yields. *)
Inductive awaited := Got (v : Z) | Expired | Stopped | Threw (e : Z).

Definition outcome (r : ret) : awaited := match r with Val v => Got v | Exn e => Threw e end.

Record WithTimeoutOp := mkOp {
  t_ : Promise;
  parent_ : Promise;
  cancel_set : bool;         (* the parent's [cancel_fn] is this awaiter's *)
  timer : bool;              (* the event manager holds this awaiter's timer *)
  err_ : option awaited;
  armed_ : bool;
  timed_out_ : bool;
  child_done_ : bool;
  suspended_ : bool;
  resumed_ : bool;
  dead_ : bool;
  stops : Ctx.StopStates;    (* the program's stop sources *)
  alive : bool;
  returned : list awaited }. (* what the await has returned, each time *)

Definition set_child v o := mkOp v (parent_ o) (cancel_set o) (timer o) (err_ o) (armed_ o) (timed_out_ o) (child_done_ o) (suspended_ o) (resumed_ o) (dead_ o) (stops o) (alive o) (returned o).
Definition set_parent v c o := mkOp (t_ o) v c (timer o) (err_ o) (armed_ o) (timed_out_ o) (child_done_ o) (suspended_ o) (resumed_ o) (dead_ o) (stops o) (alive o) (returned o).
Definition set_timer v a o := mkOp (t_ o) (parent_ o) (cancel_set o) v (err_ o) a (timed_out_ o) (child_done_ o) (suspended_ o) (resumed_ o) (dead_ o) (stops o) (alive o) (returned o).
Definition set_err v o := mkOp (t_ o) (parent_ o) (cancel_set o) (timer o) (Some v) (armed_ o) (timed_out_ o) (child_done_ o) (suspended_ o) (resumed_ o) (dead_ o) (stops o) (alive o) (returned o).
Definition set_timed_out o := mkOp (t_ o) (parent_ o) (cancel_set o) (timer o) (err_ o) (armed_ o) true (child_done_ o) (suspended_ o) (resumed_ o) (dead_ o) (stops o) (alive o) (returned o).
Definition set_child_done o := mkOp (t_ o) (parent_ o) (cancel_set o) (timer o) (err_ o) (armed_ o) (timed_out_ o) true (suspended_ o) (resumed_ o) (dead_ o) (stops o) (alive o) (returned o).
Definition set_suspended o := mkOp (t_ o) (parent_ o) (cancel_set o) (timer o) (err_ o) (armed_ o) (timed_out_ o) (child_done_ o) true (resumed_ o) (dead_ o) (stops o) (alive o) (returned o).
Definition set_resumed o := mkOp (t_ o) (parent_ o) (cancel_set o) (timer o) (err_ o) (armed_ o) (timed_out_ o) (child_done_ o) (suspended_ o) true (dead_ o) (stops o) (alive o) (returned o).
Definition set_dead o := mkOp (t_ o) (parent_ o) (cancel_set o) (timer o) (err_ o) (armed_ o) (timed_out_ o) (child_done_ o) (suspended_ o) (resumed_ o) true (stops o) (alive o) (returned o).
Definition set_stops v o := mkOp (t_ o) (parent_ o) (cancel_set o) (timer o) (err_ o) (armed_ o) (timed_out_ o) (child_done_ o) (suspended_ o) (resumed_ o) (dead_ o) v (alive o) (returned o).
Definition set_gone o := mkOp (t_ o) (parent_ o) (cancel_set o) (timer o) (err_ o) (armed_ o) (timed_out_ o) (child_done_ o) (suspended_ o) (resumed_ o) (dead_ o) (stops o) false (returned o).
Definition add_returned a o := mkOp (t_ o) (parent_ o) (cancel_set o) (timer o) (err_ o) (armed_ o) (timed_out_ o) (child_done_ o) (suspended_ o) (resumed_ o) (dead_ o) (stops o) (alive o) (returned o ++ [a]).

Definition op0 (m : Ctx.StopStates) (parent child : Promise) : WithTimeoutOp :=
  mkOp child parent false false None false false false false false false m true [].

(** [if (armed_) { timer_cancel; armed_ = false; }] *)
Definition disarm (o : WithTimeoutOp) : WithTimeoutOp := if armed_ o then set_timer false false o else o.

(** The destructor: the timer is retracted and a child that is not done is
    cancelled; with [dead_] set its [child_thunk] only clears up. *)
Definition destroy (o : WithTimeoutOp) : WithTimeoutOp :=
  let o := set_dead o in
  let o := if armed_ o then set_timer false (armed_ o) o else o in
  let o :=
    if child_done_ o then o
    else
      let p' := request_stop (stops o) (t_ o) in
      let o := set_child p' o in
      match result p' with
      | Some _ => let o := set_child_done o in if timed_out_ o then o else disarm o
      | None => o
      end in
  set_gone o.

(** The parent runs on: [await_resume], then the end of the temporary. *)
Definition await_resume (o : WithTimeoutOp) : option WithTimeoutOp :=
  let o := set_parent (parent_ o) false o in
  a ← match err_ o with
      | Some e => Some e
      | None => if timed_out_ o then Some Expired else outcome <$> result (t_ o)
      end;
  Some (destroy (add_returned a o)).

Definition resume_parent (o : WithTimeoutOp) : option WithTimeoutOp :=
  if negb (alive o) then None
  else if resumed_ o || dead_ o then Some o
  else
    let o := set_resumed o in
    if suspended_ o then await_resume o else Some o.

Definition child_thunk (o : WithTimeoutOp) : option WithTimeoutOp :=
  if negb (alive o) then None
  else
    let o := set_child_done o in
    if timed_out_ o then Some o
    else resume_parent (disarm o).

(** The child has run up to [p']: [done_fn] is called if that was its end. *)
Definition child_ran (p' : Promise) (o : WithTimeoutOp) : option WithTimeoutOp :=
  let o' := set_child p' o in
  match result (t_ o), result p' with
  | None, Some _ => child_thunk o'
  | _, _ => Some o'
  end.

Definition stop_child (o : WithTimeoutOp) : option WithTimeoutOp := child_ran (request_stop (stops o) (t_ o)) o.

Definition timer_thunk (o : WithTimeoutOp) : option WithTimeoutOp :=
  if negb (alive o) then None
  else
    let o := set_err Expired (set_timed_out (set_timer (timer o) false o)) in
    o ← stop_child o;
    resume_parent o.

Definition cancel_thunk (o : WithTimeoutOp) : option WithTimeoutOp :=
  if negb (alive o) then None
  else
    let o := set_err Stopped (disarm o) in
    o ← stop_child o;
    resume_parent o.

(** What the child takes over: all but [stopped_], which the parent does not
    have. *)
Definition adopt (parent child : Promise) : Promise :=
  mkPromise (code child) (started child) (stopped_ child) (inherit_ctx (ctx parent) (ctx child)).

Definition await_suspend (o : WithTimeoutOp) : option WithTimeoutOp :=
  if stop_requested (stops o) (parent_ o) then await_resume (set_err Stopped o)
  else
    let o := set_parent (parent_ o) true o in
    let o := set_child (adopt (parent_ o) (t_ o)) o in
    let o := set_timer true true o in
    let p' := start (stops o) (t_ o) in
    o ← match result p' with
        | Some _ => child_thunk (set_child p' o)
        | None => Some (set_child p' o)
        end;
    if child_done_ o then await_resume o else Some (set_suspended o).

(** [co_await with_timeout(d, child)]. *)
Definition with_timeout (m : Ctx.StopStates) (parent child : Promise) : option WithTimeoutOp :=
  await_suspend (op0 m parent child).

(** What happens while the parent waits: what the child awaits arrives; the
    timer falls due; the parent's [request_stop]; a stop source is triggered;
    the parent's frame is destroyed, its promise with it. *)
Inductive act := ChildWake | TimerFire | ParentStop | TokenStop (s : Z) | Teardown.

Definition step (a : act) (o : WithTimeoutOp) : option WithTimeoutOp :=
  match a with
  | ChildWake => if alive o then child_ran (wake (stops o) (t_ o)) o else Some o
  | TimerFire => if timer o then timer_thunk (set_timer false (armed_ o) o) else Some o
  | ParentStop =>
      let pp := parent_ o in
      let o' := set_parent (mkPromise (code pp) (started pp) true (ctx pp)) false o in
      if cancel_set o then cancel_thunk o' else Some o'
  | TokenStop s => Some (set_stops (Ctx.request s (stops o)) o)
  | Teardown => if alive o then Some (destroy (set_parent (parent_ o) false o)) else Some o
  end.

Fixpoint run (acts : list act) (o : WithTimeoutOp) : option WithTimeoutOp :=
  match acts with
  | [] => Some o
  | a :: acts => o ← step a o; run acts o
  end.

(** ** The race it is *)

(** Waiting; over, with what the await returns; the parent is gone; an access
    to the awaiter after its end. *)
Inductive verdict := Waiting | Over (a : awaited) | Gone | Fault.

(** A child, as far as it has run, against what happens. *)
Fixpoint race (m : Ctx.StopStates) (c : Promise) (acts : list act) : verdict :=
  match acts with
  | [] => Waiting
  | ChildWake :: acts =>
      let c := wake m c in
      match result c with Some r => Over (outcome r) | None => race m c acts end
  | TimerFire :: _ => Over Expired
  | ParentStop :: _ => match result (request_stop m c) with Some _ => Fault | None => Over Stopped end
  | TokenStop s :: acts => race (Ctx.request s m) c acts
  | Teardown :: _ => Gone
  end.

(** What can be seen of an awaiter: what its await has returned, and whether its
    timer is still held. *)
Definition observe (v : verdict) : option (list awaited * bool) :=
  match v with
  | Waiting => Some ([], true)
  | Over a => Some ([a], false)
  | Gone => Some ([], false)
  | Fault => None
  end.

(** The parent waits on [c]. *)
Definition waiting (m : Ctx.StopStates) (c : Promise) (o : WithTimeoutOp) : Prop :=
  t_ o = c /\ result c = None /\ cancel_set o = true /\ timer o = true /\ err_ o = None /\ armed_ o = true /\
  timed_out_ o = false /\ child_done_ o = false /\ suspended_ o = true /\ resumed_ o = false /\ dead_ o = false /\
  stops o = m /\ alive o = true /\ returned o = [].

(** The awaiter is gone, and nothing refers to it. *)
Definition over (l : list awaited) (o : WithTimeoutOp) : Prop :=
  alive o = false /\ timer o = false /\ cancel_set o = false /\ returned o = l.

(** ** It is that race *)

Arguments await_resume : simpl never.

Definition seen (o : option WithTimeoutOp) : option (list awaited * bool) := o ← o; Some (returned o, timer o).

Lemma over_run l acts o : over l o -> seen (run acts o) = Some (l, false).
Proof.
  revert o. induction acts as [|a acts IH]; intros o H.
  { destruct H as (_&Ht&_&Hr). simpl. by rewrite Ht, Hr. }
  simpl. assert (exists o', step a o = Some o' /\ over l o') as (o'&->&H'); [|by apply IH].
  destruct H as (Ha&Ht&Hc&Hr). destruct a; simpl; rewrite ?Ha, ?Ht, ?Hc; eexists; (split; [done|]); done.
Qed.

(** The end of the awaiter leaves no timer and no cancel thunk behind. *)
Lemma destroy_over o :
  cancel_set o = false -> (timer o = true -> armed_ o = true) -> over (returned o) (destroy o).
Proof.
  intros Hc Ht. unfold destroy, disarm, over. destruct o as [t p c ti e a to cd su re d st al r]; simpl in *.
  destruct a, ti, cd; simpl; try done; try (by specialize (Ht eq_refl)); case_match; simpl; try done; destruct to; done.
Qed.

Lemma await_resume_over o a :
  match err_ o with Some e => Some e | None => if timed_out_ o then Some Expired else outcome <$> result (t_ o) end = Some a ->
  (timer o = true -> armed_ o = true) -> returned o = [] ->
  exists o', await_resume o = Some o' /\ over [a] o'.
Proof.
  intros H Ht Hr. unfold await_resume. cbn [err_ timed_out_ t_ set_parent]. rewrite H. simpl. eexists; split; [done|].
  pose proof (destroy_over (add_returned a (set_parent (parent_ o) false o)) eq_refl Ht) as D. simpl in D.
  by rewrite Hr in D.
Qed.

Lemma waiting_wake m c o :
  waiting m c o ->
  exists o', step ChildWake o = Some o' /\
    match result (wake m c) with Some r => over [outcome r] o' | None => waiting m (wake m c) o' end.
Proof.
  intros (Hc&Hn&H). destruct o as [t p cs ti e a to cd su re d st al r]; simpl in *. destruct_and! H. subst.
  unfold child_ran. simpl. rewrite Hn. destruct (result (wake m c)) as [r|] eqn:E.
  - unfold child_thunk, resume_parent, disarm. simpl. apply await_resume_over; simpl; [by rewrite E|done|done].
  - eexists; split; [done|]. done.
Qed.

Lemma resume_parent_over o a :
  alive o = true -> resumed_ o = false -> dead_ o = false -> suspended_ o = true -> err_ o = Some a ->
  timer o = false -> returned o = [] -> exists o', resume_parent o = Some o' /\ over [a] o'.
Proof.
  intros Ha Hr Hd Hs He Ht Hn. unfold resume_parent. rewrite Ha, Hr, Hd. cbn [negb orb suspended_ set_resumed]. rewrite Hs.
  apply await_resume_over; simpl; [by rewrite He|congruence|done].
Qed.

Lemma waiting_fire m c o : waiting m c o -> exists o', step TimerFire o = Some o' /\ over [Expired] o'.
Proof.
  intros (Hc&Hn&?&Ht&?&?&?&?&Hs&Hr&Hd&?&Ha&Hret). cbn [step]. rewrite Ht. unfold timer_thunk. cbn [alive set_timer timer].
  rewrite Ha. cbn [negb]. set (o1 := set_err _ _).
  assert (exists q o2, stop_child o1 = Some o2 /\ (o2 = set_child q o1 \/ o2 = set_child_done (set_child q o1))) as (q&o2&->&Ho).
  { unfold stop_child, child_ran. exists (request_stop (stops o1) (t_ o1)). generalize (request_stop (stops o1) (t_ o1)).
    intros q. change (t_ o1) with (t_ o). rewrite Hc, Hn. destruct (result q); [|eexists; split; [done|by left]].
    unfold child_thunk. cbn. rewrite Ha. eexists; split; [done|by right]. }
  apply resume_parent_over; by destruct Ho as [->| ->].
Qed.

Lemma waiting_stop m c o :
  waiting m c o ->
  match result (request_stop m c) with
  | Some _ => step ParentStop o = None
  | None => exists o', step ParentStop o = Some o' /\ over [Stopped] o'
  end.
Proof.
  intros (Hc&Hn&H). destruct o as [t p cs ti e a to cd su re d st al r]; simpl in *. destruct_and! H. subst.
  unfold cancel_thunk, stop_child, child_ran, disarm. simpl. rewrite Hn.
  by destruct (result (request_stop m c)); simpl; [|unfold resume_parent; simpl; apply await_resume_over].
Qed.

Lemma waiting_run acts m c o : waiting m c o -> seen (run acts o) = observe (race m c acts).
Proof.
  revert m c o. induction acts as [|a acts IH]; intros m c o W.
  { destruct W as (?&?&?&Ht&W). destruct_and! W. simpl. congruence. }
  destruct a as [| | |s|]; cbn [run race].
  - destruct (waiting_wake m c o W) as (o'&->&H). simpl. destruct (result (wake m c)); [by apply over_run|by apply IH].
  - destruct (waiting_fire m c o W) as (o'&->&H). by apply over_run.
  - pose proof (waiting_stop m c o W) as H. destruct (result (request_stop m c)); [by rewrite H|].
    destruct H as (o'&->&H). by apply over_run.
  - simpl. apply IH. destruct W as (?&?&?&?&?&?&?&?&?&?&?&<-&?&?). repeat split; done.
  - destruct W as (?&?&?&Ht&?&Har&?&?&?&?&?&?&Ha&Hr). simpl. rewrite Ha. simpl. rewrite <- Hr. apply over_run.
    by apply (destroy_over (set_parent (parent_ o) false o)).
Qed.

(** C16: [with_timeout] is a race between the child and the timer.  Whatever
    happens, in any order: the await of a stopped parent returns [Cancelled]
    without starting the child; otherwise it returns exactly once, with the
    child's result if the child ends first, [Expired] if the timer falls due
    first, [Cancelled] if the parent is stopped first; the timer is never left
    behind and never fires into a destroyed awaiter; except that a parent
    stopped while the child unwinds at once, and only it, makes the code use the
    awaiter after its end. *)
Theorem with_timeout_is_a_race m parent child acts :
  seen (o ← with_timeout m parent child; run acts o) =
  if stop_requested m parent then Some ([Stopped], false)
  else
    let c := start m (adopt parent child) in
    match result c with
    | Some r => Some ([outcome r], false)
    | None => observe (race m c acts)
    end.
Proof.
  unfold with_timeout, await_suspend. cbn [stops parent_ op0]. destruct (stop_requested m parent).
  { destruct (await_resume_over (set_err Stopped (op0 m parent child)) Stopped) as (o&->&H); [done|done|done|].
    by apply over_run. }
  cbv zeta. cbn [set_parent set_child set_timer parent_ stops t_ op0].
  destruct (result (start m (adopt parent child))) as [r|] eqn:E.
  - unfold child_thunk, resume_parent, disarm. simpl.
    match goal with |- context [await_resume ?x] => destruct (await_resume_over x (outcome r)) as (o'&->&Ho); [|done|done|] end.
    { simpl. by rewrite E. }
    by apply over_run.
  - simpl. by apply waiting_run.
Qed.

End Timeout.
