(* ===== verification/TaskScope.v ===== *)
(** * Task scopes and root tasks

    [TaskScope] of [src/include/afx/coro/scope.hpp] with its [join], and the root
    tasks of an event manager ([spawn], the root list and its teardown in
    [src/include/afx/core/event_manager.hpp]; the ends of both in [FinalAwaiter],
    [src/include/afx/coro/task.hpp]).

    The intrusive list through [coro_prev] and [coro_next] is the sequence of its
    promises, head first, and a promise is a number; [frames] are the coroutine
    frames that exist, and [None] is an access to one that does not. *)

From stdpp Require Import base option gmap list.
From Stdlib Require Import ZArith Lia.
From S2P Require Import Prelude Context Coro.
Import Coro.
Local Open Scope Z_scope.
Local Open Scope afx_scope.

Module Scope.

Record TaskScope := mkScope {
  children_ : list nat;
  frames : gmap nat Promise;
  live_ : Z;
  join_p_ : option nat;      (* the task that joins last *)
  join_parked_ : bool;
  stops : Ctx.StopStates;
  fresh_ : nat;              (* the next promise *)
  resumes : list nat }.      (* the joining tasks that have run on *)

Definition scope0 (m : Ctx.StopStates) : TaskScope := mkScope [] ∅ 0 None false m 0 [].

Definition set_frames v s := mkScope (children_ s) v (live_ s) (join_p_ s) (join_parked_ s) (stops s) (fresh_ s) (resumes s).
Definition set_children c l s := mkScope c (frames s) l (join_p_ s) (join_parked_ s) (stops s) (fresh_ s) (resumes s).
Definition set_join p b s := mkScope (children_ s) (frames s) (live_ s) p b (stops s) (fresh_ s) (resumes s).
Definition set_stops v s := mkScope (children_ s) (frames s) (live_ s) (join_p_ s) (join_parked_ s) v (fresh_ s) (resumes s).
Definition add_resume w s := mkScope (children_ s) (frames s) (live_ s) (join_p_ s) (join_parked_ s) (stops s) (fresh_ s) (resumes s ++ [w]).

(** [link] and [++live_]. *)
Definition link (i : nat) (s : TaskScope) : TaskScope := set_children (i :: children_ s) (live_ s ⊞ 1) s.
(** [unlink], which counts down itself. *)
Definition unlink (i : nat) (s : TaskScope) : TaskScope :=
  set_children (filter (fun j => j <> i) (children_ s)) (live_ s ⊟ 1) s.

(** A joining task runs on: [JoinOp::await_resume]. *)
Definition resume_join (s : TaskScope) : TaskScope :=
  match join_p_ s with
  | Some w => add_resume w (set_join (join_p_ s) false s)
  | None => s
  end.

Definition child_done_thunk (i : nat) (s : TaskScope) : TaskScope :=
  let s := unlink i s in
  if (live_ s =? 0) && join_parked_ s then resume_join (set_join (join_p_ s) false s) else s.

(** The end of a scope's child: the hook, then the frame destroys itself. *)
Definition final_suspend (i : nat) (s : TaskScope) : TaskScope :=
  let s := child_done_thunk i s in
  set_frames (delete i (frames s)) s.

(** Child [i] has run up to [p']. *)
Definition child_ran (i : nat) (p' : Promise) (s : TaskScope) : TaskScope :=
  let s := set_frames (<[i := p']> (frames s)) s in
  match result p' with Some _ => final_suspend i s | None => s end.

Definition spawn (amb : Ctx.Context) (b : body) (c : Ctx.Context) (s : TaskScope) : TaskScope :=
  let i := fresh_ s in
  let p := mkPromise b false false (Ctx.spawn_ctx amb c) in
  let s := mkScope (children_ s) (<[i := p]> (frames s)) (live_ s) (join_p_ s) (join_parked_ s) (stops s) (S i) (resumes s) in
  child_ran i (start (stops s) p) (link i s).

(** The body of the loop over the children: cancel [p], then read its
    [coro_next], from a frame that must still exist. *)
Definition stop_child (i : nat) (s : TaskScope) : option TaskScope :=
  p ← frames s !! i;
  let p' := request_stop (stops s) p in
  let s := child_ran i p' s in
  match frames s !! i with Some _ => Some s | None => None end.

Fixpoint stop_loop (ps : list nat) (s : TaskScope) : option TaskScope :=
  match ps with
  | [] => Some s
  | p :: ps => s ← stop_child p s; stop_loop ps s
  end.

(** While no frame goes away the list stays as it is, so the links lead through
    the children of the call. *)
Definition request_stop_all (s : TaskScope) : option TaskScope := stop_loop (children_ s) s.

(** [co_await scope.join()] by task [w]. *)
Definition join (w : nat) (s : TaskScope) : TaskScope :=
  if live_ s =? 0 then add_resume w (set_join (join_p_ s) false s) else set_join (Some w) true s.


(** What happens to a scope: a child is spawned; what child [i] awaits arrives;
    [request_stop]; a task joins; a stop source is triggered. *)
Inductive act := Spawn (amb : Ctx.Context) (b : body) (c : Ctx.Context) | Wake (i : nat) | RequestStop | JoinBy (w : nat) | TokenStop (t : Z).

Definition step (a : act) (s : TaskScope) : option TaskScope :=
  match a with
  | Spawn amb b c => Some (spawn amb b c s)
  | Wake i => match frames s !! i with Some p => Some (child_ran i (wake (stops s) p) s) | None => Some s end
  | RequestStop => request_stop_all s
  | JoinBy w => Some (join w s)
  | TokenStop t => Some (set_stops (Ctx.request t (stops s)) s)
  end.

Fixpoint run (acts : list act) (s : TaskScope) : option TaskScope :=
  match acts with
  | [] => Some s
  | a :: acts => s ← step a s; run acts s
  end.

(** ** The scope's invariant *)

(** The list, the count and the frames agree, every child is pending, and a task
    is parked in [join] only while there are children. *)
Record wf (s : TaskScope) : Prop := {
  wf_nodup : NoDup (children_ s);
  wf_dom : forall i, i ∈ children_ s <-> is_Some (frames s !! i);
  wf_live : live_ s = zlen (children_ s);
  wf_fresh : forall i, i ∈ children_ s -> (i < fresh_ s)%nat;
  wf_pending : forall i p, frames s !! i = Some p -> started p = true /\ result p = None;
  wf_join : join_parked_ s = true -> children_ s <> [] /\ is_Some (join_p_ s) }.

Lemma wf_size s : wf s -> zlen (children_ s) <= Z.of_nat (fresh_ s).
Proof.
  intros [Hn _ _ Hf _ _]. unfold zlen. apply inj_le. rewrite <- (length_seq (fresh_ s) 0).
  apply submseteq_length, NoDup_submseteq; [done|]. intros i Hi%Hf. apply elem_of_seq. lia.
Qed.

Lemma filter_ne_notin i (l : list nat) : i ∉ l -> filter (fun j => j <> i) l = l.
Proof.
  induction l as [|x l IH]; intros Hi; [done|]. rewrite filter_cons_True by set_solver. f_equal. apply IH. set_solver.
Qed.

Lemma length_filter_ne i (l : list nat) : NoDup l -> i ∈ l -> zlen (filter (fun j => j <> i) l) = zlen l - 1.
Proof.
  unfold zlen. induction 1 as [|x l Hx Hn IH]; intros Hi; [by apply not_elem_of_nil in Hi|].
  apply elem_of_cons in Hi as [<-|Hi].
  - rewrite filter_cons_False by naive_solver. rewrite filter_ne_notin by done. simpl. lia.
  - rewrite filter_cons_True by (intros ->; done). simpl. specialize (IH Hi). lia.
Qed.

(** ** Operations *)

(** What a parked joiner sees of one operation: nothing while children are
    left, and being resumed when none is. *)
Definition join_kept (s s' : TaskScope) : Prop :=
  join_parked_ s = true ->
  (children_ s' <> [] /\ join_parked_ s' = true /\ join_p_ s' = join_p_ s /\ resumes s' = resumes s) \/
  (children_ s' = [] /\ join_parked_ s' = false /\
   exists w, join_p_ s = Some w /\ resumes s' = resumes s ++ [w]).

Lemma final_suspend_wf i s :
  i ∈ children_ s -> NoDup (children_ s) -> (forall j, j ∈ children_ s <-> is_Some (frames s !! j)) ->
  live_ s = zlen (children_ s) -> zlen (children_ s) < 2 ^ 64 ->
  (forall j, j ∈ children_ s -> (j < fresh_ s)%nat) ->
  (forall j p, j <> i -> frames s !! j = Some p -> started p = true /\ result p = None) ->
  (join_parked_ s = true -> is_Some (join_p_ s)) ->
  wf (final_suspend i s) /\ join_kept s (final_suspend i s) /\ fresh_ (final_suspend i s) = fresh_ s.
Proof.
  intros Hi Hn Hd Hl Hz Hf Hp Hj. pose proof (length_filter_ne i (children_ s) Hn Hi) as Hlen.
  assert (zlen (children_ s) <> 0) by (destruct (children_ s); [set_solver|unfold zlen; simpl; lia]).
  assert (0 <= zlen (children_ s)) by (unfold zlen; lia).
  set (s' := final_suspend i s).
  assert (children_ s' = filter (fun j => j <> i) (children_ s) /\ frames s' = delete i (frames s) /\
    live_ s' = zlen (children_ s) - 1 /\ fresh_ s' = fresh_ s /\
    (join_parked_ s = true -> if zlen (children_ s) - 1 =? 0
       then join_parked_ s' = false /\ exists w, join_p_ s = Some w /\ resumes s' = resumes s ++ [w]
       else join_parked_ s' = true /\ join_p_ s' = join_p_ s /\ resumes s' = resumes s) /\
    (join_parked_ s = false -> join_parked_ s' = false)) as (Hc&Hfr&Hli&Hfs&Hjp&Hjn).
  { unfold s', final_suspend, child_done_thunk. cbn [live_ unlink set_children join_parked_].
    rewrite Hl, u64_small by lia.
    destruct (Z.eqb_spec (zlen (children_ s) - 1) 0) as [E|E], (join_parked_ s) eqn:Ej; simpl; rewrite ?Hl, ?u64_small by lia; try done.
    destruct (Hj eq_refl) as [w Hw]. unfold resume_join. simpl. rewrite Hw. simpl. rewrite Hl, u64_small by lia.
    split_and!; try done. intros _. split; [done|]. by exists w. }
  clearbody s'. assert (children_ s' = [] <-> zlen (children_ s) - 1 = 0) as Hemp.
  { rewrite <- Hlen, <- Hc. unfold zlen. destruct (children_ s'); simpl; split; try done; lia. }
  split_and!; [split| |done].
  - rewrite Hc. by apply NoDup_filter.
  - intros j. rewrite Hc, Hfr, list_elem_of_filter. destruct (decide (j = i)) as [->|].
    + rewrite lookup_delete_eq. split; [by intros [? _]|by intros [? ?]].
    + rewrite lookup_delete_ne by done. rewrite <- Hd. tauto.
  - rewrite Hli, Hc. by rewrite Hlen.
  - intros j. rewrite Hc, Hfs, list_elem_of_filter. intros [_ ?]. by apply Hf.
  - intros j p. rewrite Hfr. intros [? ?]%lookup_delete_Some. by apply (Hp j).
  - intros Ht. destruct (join_parked_ s) eqn:Ej; [|by rewrite Hjn in Ht]. specialize (Hjp eq_refl).
    destruct (Z.eqb_spec (zlen (children_ s) - 1) 0); [by rewrite (proj1 Hjp) in Ht|].
    rewrite (proj1 (proj2 Hjp)). split; [by rewrite Hemp|by apply Hj].
  - intros Ht. specialize (Hjp Ht). destruct (Z.eqb_spec (zlen (children_ s) - 1) 0).
    + right. by rewrite Hemp.
    + left. rewrite Hemp. done.
Qed.

Lemma child_ran_wf i p p' s :
  wf s -> Z.of_nat (fresh_ s) < 2 ^ 64 -> frames s !! i = Some p -> started p' = true ->
  wf (child_ran i p' s) /\ join_kept s (child_ran i p' s) /\ fresh_ (child_ran i p' s) = fresh_ s.
Proof.
  intros W Hz Hp Hst. pose proof (wf_size s W). destruct W as [Hn Hd Hl Hf Hpe Hj].
  assert (i ∈ children_ s) as Hi by (apply Hd; by eexists).
  assert (forall j, j ∈ children_ s <-> is_Some (<[i := p']> (frames s) !! j)) as Hd'.
  { intros j. rewrite Hd. destruct (decide (i = j)) as [->|].
    - rewrite lookup_insert_eq, Hp. split; by eexists.
    - by rewrite lookup_insert_ne. }
  unfold child_ran. destruct (result p') as [r|] eqn:E.
  - destruct (final_suspend_wf i (set_frames (<[i := p']> (frames s)) s)) as (W'&K&F'); simpl; try done; [lia| |naive_solver].
    intros j q Hne. rewrite lookup_insert_ne by done. apply Hpe.
  - split_and!; [split; simpl; try done| |done].
    + intros j q [[-> ->]|[? ?]]%lookup_insert_Some; [done|by apply (Hpe j)].
    + intros Hjp. left. simpl. split_and!; try done. by apply Hj.
Qed.

Lemma spawn_wf amb b c s :
  wf s -> Z.of_nat (fresh_ s) + 1 < 2 ^ 64 ->
  wf (spawn amb b c s) /\ join_kept s (spawn amb b c s) /\ fresh_ (spawn amb b c s) = S (fresh_ s).
Proof.
  intros W Hz. pose proof (wf_size s W). destruct W as [Hn Hd Hl Hf Hpe Hj]. unfold spawn.
  set (p := mkPromise b false false _). set (p' := start _ p). set (i := fresh_ s).
  assert (i ∉ children_ s) as Hi by (intros Hc%Hf; unfold i in Hc; lia).
  assert (0 <= zlen (children_ s)) by (unfold zlen; lia).
  unfold child_ran. set (s1 := set_frames _ _).
  assert (children_ s1 = i :: children_ s /\ frames s1 = <[i := p']> (frames s) /\ live_ s1 = zlen (children_ s1) /\
    fresh_ s1 = S i /\ join_parked_ s1 = join_parked_ s /\ join_p_ s1 = join_p_ s /\ resumes s1 = resumes s) as (E1&E2&E3&E4&E5&E6&E7).
  { unfold s1. simpl. split_and!; try done; [apply insert_insert_eq|]. rewrite Hl, u64_small by lia. unfold zlen. simpl. lia. }
  clearbody s1. assert (NoDup (children_ s1)) as Hn1 by (rewrite E1; by constructor).
  assert (forall j, j ∈ children_ s1 <-> is_Some (frames s1 !! j)) as Hd1.
  { intros j. rewrite E1, E2, elem_of_cons, Hd. destruct (decide (j = i)) as [->|].
    - rewrite lookup_insert_eq. split; [by eexists|by left].
    - rewrite lookup_insert_ne by done. naive_solver. }
  assert (forall j, j ∈ children_ s1 -> (j < fresh_ s1)%nat) as Hf1.
  { intros j. rewrite E1, E4. intros [->|Hc%Hf]%elem_of_cons; [lia|]. unfold i. lia. }
  assert (forall j q, j <> i -> frames s1 !! j = Some q -> started q = true /\ result q = None) as Hp1.
  { intros j q Hne. rewrite E2, lookup_insert_ne by done. apply Hpe. }
  assert (join_kept s s1) as K1.
  { intros Hjp. left. rewrite E1, E5, E6, E7. done. }
  destruct (result p') as [r|] eqn:E.
  - destruct (final_suspend_wf i s1) as (W'&K&F'); try done.
    { rewrite E1. left. } { rewrite E1. unfold zlen in *. simpl. lia. } { rewrite E5, E6. naive_solver. }
    split_and!; [done| |by rewrite F']. unfold join_kept in *. rewrite E5, E6, E7 in K. exact K.
  - split_and!; [split; try done| |done].
    + intros j q. destruct (decide (j = i)) as [->|]; [|by apply Hp1].
      rewrite E2, lookup_insert_eq. intros [= <-]. done.
    + rewrite E5, E6, E1. intros Hjp. split; [done|]. by apply Hj.
    + exact K1.
Qed.

(** Does child [p] unwind inside a stop request? *)
Definition unwinds (m : Ctx.StopStates) (p : Promise) : Prop := is_Some (result (request_stop m p)).

Lemma stop_loop_wf ps s :
  wf s -> Z.of_nat (fresh_ s) < 2 ^ 64 -> NoDup ps -> (forall i, i ∈ ps -> is_Some (frames s !! i)) ->
  match stop_loop ps s with
  | Some s' => wf s' /\ children_ s' = children_ s /\ join_parked_ s' = join_parked_ s /\ join_p_ s' = join_p_ s /\
               resumes s' = resumes s /\ fresh_ s' = fresh_ s /\
               forall i p, i ∈ ps -> frames s !! i = Some p -> ~ unwinds (stops s) p
  | None => exists i p, i ∈ ps /\ frames s !! i = Some p /\ unwinds (stops s) p
  end.
Proof.
  revert s. induction ps as [|i ps IH]; intros s W Hz Hn Hin; simpl.
  { split_and!; try done. intros i p Hi. set_solver. }
  apply NoDup_cons in Hn as [Hi Hn]. destruct (Hin i) as [p Hp]; [set_solver|]. unfold stop_child at 1. rewrite Hp. simpl.
  destruct (wf_pending s W i p Hp) as [Hst _].
  destruct (child_ran_wf i p (request_stop (stops s) p) s W Hz Hp Hst) as (W'&_&F').
  unfold child_ran in *. destruct (result (request_stop (stops s) p)) as [r|] eqn:E.
  - assert (frames (final_suspend i (set_frames (<[i:=request_stop (stops s) p]> (frames s)) s)) !! i = None) as ->.
    { unfold final_suspend. simpl. by rewrite lookup_delete_eq. }
    simpl. exists i, p. split_and!; [left|done|]. unfold unwinds. by rewrite E.
  - simpl. rewrite lookup_insert_eq. simpl. set (s1 := set_frames _ s) in *.
    assert (forall j, j ∈ ps -> frames s1 !! j = frames s !! j) as Hsame.
    { intros j Hj. unfold s1. simpl. rewrite lookup_insert_ne; [done|]. intros ->. done. }
    specialize (IH s1 W' Hz Hn). destruct (stop_loop ps s1) as [s'|].
    + destruct IH as (?&?&?&?&?&?&Hu); [intros j Hj; rewrite Hsame by done; apply Hin; set_solver|].
      split_and!; try done. intros j q [->|Hj]%elem_of_cons Hq.
      * simplify_eq. unfold unwinds. rewrite E. by intros [? ?].
      * apply (Hu j); [done|]. by rewrite Hsame.
    + destruct IH as (j&q&Hj&Hq&Hu); [intros j Hj; rewrite Hsame by done; apply Hin; set_solver|].
      exists j, q. split_and!; [by right|by rewrite <- Hsame|done].
Qed.

Definition is_join (a : act) : bool := match a with JoinBy _ => true | _ => false end.

Lemma scope_step_wf a s :
  wf s -> Z.of_nat (fresh_ s) + 1 < 2 ^ 64 ->
  match step a s with
  | Some s' => wf s' /\ (is_join a = false -> join_kept s s') /\ (fresh_ s' <= S (fresh_ s))%nat
  | None => a = RequestStop /\ exists i p, frames s !! i = Some p /\ unwinds (stops s) p
  end.
Proof.
  intros W Hz. destruct a as [amb b c|i| |w|t]; simpl.
  - destruct (spawn_wf amb b c s W Hz) as (?&?&->). done.
  - destruct (frames s !! i) as [p|] eqn:Hp.
    + destruct (wf_pending s W i p Hp) as [Hst _].
      destruct (child_ran_wf i p (wake (stops s) p) s W ltac:(lia) Hp) as (?&?&->); [by rewrite started_wake|].
      split_and!; [done|done|lia].
    + split_and!; [done| |lia]. intros _ Hj. left. destruct (wf_join s W Hj). done.
  - pose proof (stop_loop_wf (children_ s) s W ltac:(lia) (wf_nodup s W)) as H. unfold request_stop_all.
    destruct (stop_loop _ s) as [s'|].
    + destruct H as (W'&Hc&Hj&Hp&Hr&Hf&_); [intros i; apply (wf_dom s W)|]. split_and!; [done| |lia].
      intros _ Hjp. left. rewrite Hc, Hj, Hp, Hr. destruct (wf_join s W Hjp). done.
    + destruct H as (i&p&_&?&?); [intros i; apply (wf_dom s W)|]. split; [done|]. by exists i, p.
  - destruct W as [Hn Hd Hl Hf Hp Hj]. unfold join. destruct (Z.eqb_spec (live_ s) 0) as [E|E]; simpl; split_and!; try done; try lia;
      split; try done. intros _. simpl. split; [|by eexists]. intros Hc. rewrite Hl, Hc in E. done.
  - destruct W as [Hn Hd Hl Hf Hp Hj]. split_and!; [by split| |simpl; lia]. intros _ Hjp. left. by destruct (Hj Hjp).
Qed.

Lemma scope_run_wf acts s :
  wf s -> Z.of_nat (fresh_ s) + zlen acts < 2 ^ 64 ->
  match run acts s with
  | Some s' => wf s' /\ Z.of_nat (fresh_ s') <= Z.of_nat (fresh_ s) + zlen acts
  | None => exists before after s1, acts = before ++ RequestStop :: after /\ run before s = Some s1 /\
            exists i p, frames s1 !! i = Some p /\ unwinds (stops s1) p
  end.
Proof.
  revert s. induction acts as [|a acts IH]; intros s W Hz; simpl; [split; [done|unfold zlen; simpl; lia]|].
  rewrite zlen_cons in *. assert (0 <= zlen acts) by (unfold zlen; lia).
  pose proof (scope_step_wf a s W ltac:(lia)) as H1. destruct (step a s) as [s1|] eqn:E; simpl.
  - destruct H1 as (W1&_&F1). specialize (IH s1 W1 ltac:(lia)). destruct (run acts s1) as [s2|].
    + split; [apply IH|]. destruct IH. lia.
    + destruct IH as (b&f&s2&->&Hb&?). exists (a :: b), f, s2. split; [done|]. simpl. by rewrite E.
  - destruct H1 as (->&H1). by exists [], acts, s.
Qed.

Lemma scope0_wf m : wf (scope0 m).
Proof.
  split; simpl; try done; [constructor| |set_solver].
  intros i. rewrite lookup_empty. split; [set_solver|by intros [? ?]].
Qed.




(** [request_stop] of a scope uses a frame it has freed.  Whenever a child
    unwinds as soon as it is cancelled, its frame has destroyed itself when the
    loop reads the link to the next child from it. *)
Theorem scope_stop_uses_freed_frame m acts s i p :
  zlen acts < 2 ^ 64 - 1 -> run acts (scope0 m) = Some s ->
  frames s !! i = Some p -> is_Some (result (request_stop (stops s) p)) ->
  step RequestStop s = None.
Proof.
  intros Hz Hr Hp Hu. pose proof (scope_run_wf acts (scope0 m) (scope0_wf m) ltac:(simpl; lia)) as H.
  rewrite Hr in H. destruct H as [W F]. simpl in F. simpl. unfold request_stop_all.
  pose proof (stop_loop_wf (children_ s) s W ltac:(lia) (wf_nodup s W)) as H.
  destruct (stop_loop _ s) as [s'|]; [|done]. destruct H as (_&_&_&_&_&_&Hno); [intros j; apply (wf_dom s W)|].
  exfalso. apply (Hno i p); [|done|done]. apply (wf_dom s W). by eexists.
Qed.

Lemma scope_stop_uses_freed_frame_witness :
  exists s, run [Spawn Ctx.empty_ctx (napper 1) Ctx.empty_ctx] (scope0 ∅) = Some s /\ step RequestStop s = None.
Proof.
  eexists. split; [reflexivity|].
  refine (scope_stop_uses_freed_frame ∅ [Spawn Ctx.empty_ctx (napper 1) Ctx.empty_ctx] _ 0 _ _ _ _ _).
  - vm_compute; reflexivity.
  - reflexivity.
  - vm_compute; reflexivity.
  - eexists. vm_compute. reflexivity.
Defined.

End Scope.

(** ** Root tasks *)

Module Roots.

Record Roots := mkRoots {
  coro_roots_ : list nat;
  root_frames : gmap nat Promise;
  coro_spawned : Z;
  coro_completed : Z;
  root_stops : Ctx.StopStates;
  root_fresh : nat }.        (* the next promise *)

Definition roots0 (m : Ctx.StopStates) : Roots := mkRoots [] ∅ 0 0 m 0.

Definition coro_link_thunk (i : nat) (r : Roots) : Roots :=
  mkRoots (i :: coro_roots_ r) (root_frames r) (coro_spawned r ⊞ 1) (coro_completed r) (root_stops r) (root_fresh r).
Definition coro_unlink_thunk (i : nat) (r : Roots) : Roots :=
  mkRoots (filter (fun j => j <> i) (coro_roots_ r)) (root_frames r) (coro_spawned r) (coro_completed r ⊞ 1) (root_stops r)
          (root_fresh r).
Definition set_frame (i : nat) (p : Promise) (r : Roots) : Roots :=
  mkRoots (coro_roots_ r) (<[i := p]> (root_frames r)) (coro_spawned r) (coro_completed r) (root_stops r) (root_fresh r).
Definition destroy_frame (i : nat) (r : Roots) : Roots :=
  mkRoots (coro_roots_ r) (delete i (root_frames r)) (coro_spawned r) (coro_completed r) (root_stops r) (root_fresh r).

(** Root [i] has run up to [p']: at its end it leaves the list and destroys
    itself. *)
Definition root_ran (i : nat) (p' : Promise) (r : Roots) : Roots :=
  let r := set_frame i p' r in
  match result p' with
  | Some _ => destroy_frame i (coro_unlink_thunk i r)
  | None => r
  end.

Definition spawn_root (amb : Ctx.Context) (b : body) (c : Ctx.Context) (r : Roots) : Roots :=
  let i := root_fresh r in
  let p := mkPromise b false false (Ctx.spawn_ctx amb c) in
  let r := coro_link_thunk i (set_frame i p r) in
  root_ran i (start (root_stops r) p)
    (mkRoots (coro_roots_ r) (root_frames r) (coro_spawned r) (coro_completed r) (root_stops r) (S i)).

(** The roots' part of the event manager's destructor. *)
Fixpoint teardown (fuel : nat) (r : Roots) : option Roots :=
  match coro_roots_ r, fuel with
  | [], _ => Some r
  | p :: _, S fuel =>
      f ← root_frames r !! p;
      let r := if started f && cancel_fn (code f) then root_ran p (request_stop (root_stops r) f) r else r in
      let r := if decide (head (coro_roots_ r) = Some p) then destroy_frame p (coro_unlink_thunk p r) else r in
      teardown fuel r
  | _, O => None
  end.

Inductive root_act := SpawnRoot (amb : Ctx.Context) (b : body) (c : Ctx.Context) | WakeRoot (i : nat) | RootToken (t : Z).

Definition root_step (a : root_act) (r : Roots) : Roots :=
  match a with
  | SpawnRoot amb b c => spawn_root amb b c r
  | WakeRoot i => match root_frames r !! i with Some p => root_ran i (wake (root_stops r) p) r | None => r end
  | RootToken t =>
      mkRoots (coro_roots_ r) (root_frames r) (coro_spawned r) (coro_completed r) (Ctx.request t (root_stops r)) (root_fresh r)
  end.

(** The list, the frames and the counters agree. *)
Record roots_wf (r : Roots) : Prop := {
  rw_nodup : NoDup (coro_roots_ r);
  rw_dom : forall i, i ∈ coro_roots_ r <-> is_Some (root_frames r !! i);
  rw_fresh : forall i, i ∈ coro_roots_ r -> (i < root_fresh r)%nat;
  rw_count : coro_spawned r = u64 (coro_completed r + zlen (coro_roots_ r)) }.

Lemma root_end_wf i r : roots_wf r -> i ∈ coro_roots_ r -> roots_wf (destroy_frame i (coro_unlink_thunk i r)).
Proof.
  intros [Hn Hd Hf Hc] Hi. split; simpl.
  - by apply NoDup_filter.
  - intros j. rewrite list_elem_of_filter, Hd. destruct (decide (j = i)) as [->|].
    + rewrite lookup_delete_eq. split; [by intros [? _]|by intros [? ?]].
    + rewrite lookup_delete_ne by done. tauto.
  - intros j [_ ?]%list_elem_of_filter. by apply Hf.
  - rewrite Scope.length_filter_ne by done. rewrite Hc, u64_add_l. f_equal. lia.
Qed.

Lemma set_frame_wf i p r : roots_wf r -> i ∈ coro_roots_ r -> roots_wf (set_frame i p r).
Proof.
  intros [Hn Hd Hf Hc] Hi. split; simpl; try done. intros j. destruct (decide (i = j)) as [->|].
  - rewrite lookup_insert_eq. split; [by eexists|done].
  - rewrite lookup_insert_ne by done. apply Hd.
Qed.

Lemma root_ran_wf i p r : roots_wf r -> i ∈ coro_roots_ r -> roots_wf (root_ran i p r).
Proof.
  intros W Hi. unfold root_ran. pose proof (set_frame_wf i p r W Hi) as W'.
  destruct (result p); [by apply root_end_wf|done].
Qed.

Lemma root_step_wf a r : roots_wf r -> roots_wf (root_step a r).
Proof.
  intros W. destruct a as [amb b c|i|t]; simpl.
  - unfold spawn_root. apply root_ran_wf; simpl; [|left]. destruct W as [Hn Hd Hf Hc].
    assert (root_fresh r ∉ coro_roots_ r) as Hi by (intros H%Hf; lia). split; simpl.
    + by constructor.
    + intros j. rewrite elem_of_cons, Hd. destruct (decide (root_fresh r = j)) as [->|].
      * rewrite lookup_insert_eq. split; [by eexists|by left].
      * rewrite lookup_insert_ne by done. split; [intros [->|?]; done|by right].
    + intros j [->|H%Hf]%elem_of_cons; lia.
    + rewrite Hc, u64_add_l, zlen_cons. f_equal. lia.
  - destruct (root_frames r !! i) as [p|] eqn:E; [|done]. apply root_ran_wf; [done|]. apply (rw_dom r W). by eexists.
  - by destruct W.
Qed.

(** One turn of the loop takes one root off the list, its head. *)
Lemma head_leaves p l r :
  roots_wf r -> coro_roots_ r = p :: l ->
  roots_wf (destroy_frame p (coro_unlink_thunk p r)) /\ coro_roots_ (destroy_frame p (coro_unlink_thunk p r)) = l.
Proof.
  intros W E. split; [apply root_end_wf; [done|rewrite E; left]|]. pose proof (rw_nodup r W) as Hn. rewrite E in Hn.
  apply NoDup_cons in Hn as [Hp _]. simpl. rewrite E, filter_cons_False by naive_solver. by apply Scope.filter_ne_notin.
Qed.

Lemma teardown_ends n r :
  roots_wf r -> length (coro_roots_ r) = n ->
  exists r', teardown n r = Some r' /\ roots_wf r' /\ coro_roots_ r' = [].
Proof.
  revert r. induction n as [|n IH]; intros r W Hl; cbn [teardown]; destruct (coro_roots_ r) as [|p l] eqn:E; try done.
  { exists r. done. }
  destruct (proj1 (rw_dom r W p)) as [f Hf]; [rewrite E; left|]. rewrite Hf. simpl.
  set (r1 := if started f && _ then _ else _).
  assert (roots_wf r1 /\ (coro_roots_ r1 = p :: l \/ coro_roots_ r1 = l)) as [W1 H1].
  { unfold r1. destruct (started f && _); [|by auto]. split; [apply root_ran_wf; [done|rewrite E; left]|].
    unfold root_ran. destruct (result _); [|by left]. right.
    apply (head_leaves p l (set_frame p _ r)); [|done]. apply set_frame_wf; [done|rewrite E; left]. }
  clearbody r1. pose proof (rw_nodup r W) as Hn. rewrite E in Hn. apply NoDup_cons in Hn as [Hp _]. simpl in Hl.
  destruct H1 as [H1|H1]; rewrite H1; simpl.
  - rewrite decide_True by done. destruct (head_leaves p l r1 W1 H1) as [W2 H2]. apply IH; [done|]. rewrite H2. lia.
  - rewrite decide_False; [apply IH; [done|rewrite H1; lia]|]. destruct l; [done|]. simpl. set_solver.
Qed.

(** tearing down an event manager ends every root task.  Whatever was spawned
    and woke up before: the loop over the roots ends after as many turns as there
    are roots, without touching a frame that is gone; then the list is empty, no
    frame is left, and as many tasks have been completed as were spawned. *)
Theorem teardown_ends_every_root m acts :
  let r := foldl (fun r a => root_step a r) (roots0 m) acts in
  exists r', teardown (length (coro_roots_ r)) r = Some r' /\ coro_roots_ r' = [] /\ root_frames r' = ∅ /\
             coro_spawned r' = u64 (coro_completed r').
Proof.
  cbv zeta. set (r := foldl _ _ _). assert (roots_wf r) as W.
  { assert (roots_wf (roots0 m)) as W0.
    { split; simpl; try done; [constructor| |set_solver]. intros i. rewrite lookup_empty. split; [set_solver|by intros [? ?]]. }
    unfold r. clear r. revert W0. generalize (roots0 m). induction acts as [|a acts IH]; intros r W; [done|].
    simpl. by apply IH, root_step_wf. }
  destruct (teardown_ends _ r W eq_refl) as (r'&H&W'&E). exists r'. split_and!; [done|done| |].
  - apply map_empty. intros i. apply eq_None_not_Some. rewrite <- (rw_dom r' W'), E. set_solver.
  - rewrite (rw_count r' W'), E. unfold zlen. simpl. f_equal. lia.
Qed.

End Roots.
