(* ===== verification/FrameCache.v ===== *)
(** * The cache of coroutine frames

    [FrameCache] of [src/include/afx/coro/frame_cache.hpp]: size classes of 64 bytes
    over chunks of the event manager's arena, with a free list each, and the heap
    for what does not fit.

    [headers] is the memory of the block headers, by the address handed out.  The
    arena is shared with other users, and the heap's answer to a request is part of
    the request: an address the heap may give at that moment. *)

From stdpp Require Import base option gmap list.
From Stdlib Require Import ZArith Lia.
From S2P Require Import Prelude Memory.
Import Arena Carve.
Local Open Scope Z_scope.
Local Open Scope afx_scope.

Module Frames.

Definition kMagic : Z := 0x46524D43.
Definition kHeap : Z := 0xFFFF.
Definition kGranularity : Z := 64.
Definition kBuckets : Z := 16.
Definition kChunkBytes : Z := 4096.
Definition header_bytes : Z := 16.   (* [sizeof(BlockHeader)] *)

(** A frame that is handed out: its address, its header's class, the bytes there
    are and the bytes asked for. *)
Record Frame := mkFrame { f_ptr : Z; f_cls : Z; f_room : Z; f_size : Z }.

Record FrameCache := mkCache {
  arena_ : option Arena;
  free_ : gmap Z (list Z);
  headers : gmap Z (Z * Z);          (* [cls] and [magic] *)
  heap_fallbacks_ : Z;
  corrupt_ : Z;
  blocks : list Block;               (* the chunks carved so far *)
  live : list Frame }.               (* the frames handed out *)

Definition cache0 (a : option Arena) : FrameCache := mkCache a ∅ ∅ 0 0 [] [].

Definition bucket (c : Z) (fc : FrameCache) : list Z := default [] (free_ fc !! c).

Definition heap_block (need n h : Z) (fc : FrameCache) : FrameCache :=
  let p := h ⊞ header_bytes in
  mkCache (arena_ fc) (free_ fc) (<[p := (kHeap, kMagic)]> (headers fc)) (heap_fallbacks_ fc ⊞ 1) (corrupt_ fc) (blocks fc)
          (mkFrame p kHeap (need - header_bytes) n :: live fc).

(** A chunk sliced into blocks of bucket [c]; the header comes first. *)
Definition block_bytes (c : Z) : Z := (c + 1) * kGranularity.
Definition chunk (c mem : Z) : Block :=
  mkBlock mem kChunkBytes header_bytes (block_bytes c) (block_bytes c - header_bytes) (Z.to_nat (kChunkBytes / block_bytes c)).

Definition set_headers (c : Z) (ps : list Z) (m : gmap Z (Z * Z)) : gmap Z (Z * Z) :=
  foldr (fun p m => <[p := (c, kMagic)]> m) m ps.

(** The loop of [carve]: every block gets its header and goes on the free list. *)
Definition add_chunk (c mem : Z) (a : Arena) (fc : FrameCache) : FrameCache :=
  let ps := fst <$> slots (chunk c mem) in
  mkCache (Some a) (<[c := reverse ps ++ bucket c fc]> (free_ fc)) (set_headers c ps (headers fc)) (heap_fallbacks_ fc)
          (corrupt_ fc) (chunk c mem :: blocks fc) (live fc).

(** [alloc_block_user]: the head of the list. *)
Definition pop (c n : Z) (fc : FrameCache) : option FrameCache :=
  match bucket c fc with
  | [] => None
  | u :: r =>
      Some (mkCache (arena_ fc) (<[c := r]> (free_ fc)) (headers fc) (heap_fallbacks_ fc) (corrupt_ fc) (blocks fc)
                    (mkFrame u c (block_bytes c - header_bytes) n :: live fc))
  end.

Definition carve (cls n h : Z) (fc : FrameCache) : option FrameCache :=
  let from_arena := match arena_ fc with Some a => alloc kChunkBytes 16 a | None => (None, mkArena 0 0 0) end in
  match from_arena with
  | (None, _) => Some (heap_block (cls * kGranularity) n h fc)
  | (Some mem, a) => pop (cls - 1) n (add_chunk (cls - 1) mem a fc)
  end.

Definition class_of (n : Z) : Z := (n ⊞ header_bytes ⊞ kGranularity ⊟ 1) / kGranularity.

(** [FrameCache::alloc], [h] the heap's answer if it is asked. *)
Definition alloc_frame (n h : Z) (fc : FrameCache) : option FrameCache :=
  let cls := class_of n in
  if kBuckets <? cls then Some (heap_block (n ⊞ header_bytes) n h fc)
  else match bucket (cls - 1) fc with
       | _ :: _ => pop (cls - 1) n fc
       | [] => carve cls n h fc
       end.

(** [FrameCache::free], of a frame that is handed out. *)
Definition free_frame (p : Z) (fc : FrameCache) : option FrameCache :=
  if decide (p ∈ f_ptr <$> live fc) then
    '(cls, magic) ← headers fc !! p;
    let rest := filter (fun f => f_ptr f <> p) (live fc) in
    if negb (magic =? kMagic) then
      Some (mkCache (arena_ fc) (free_ fc) (headers fc) (heap_fallbacks_ fc) (corrupt_ fc ⊞ 1) (blocks fc) rest)
    else if cls =? kHeap then
      Some (mkCache (arena_ fc) (free_ fc) (delete p (headers fc)) (heap_fallbacks_ fc) (corrupt_ fc) (blocks fc) rest)
    else
      Some (mkCache (arena_ fc) (<[cls := p :: bucket cls fc]> (free_ fc)) (headers fc) (heap_fallbacks_ fc) (corrupt_ fc)
                    (blocks fc) rest)
  else None.

(** [Other]: another user of the arena allocates. *)
Inductive Action := Alloc (n h : Z) | Free (p : Z) | Other (k align : Z).

Definition step (a : Action) (fc : FrameCache) : option FrameCache :=
  match a with
  | Alloc n h => alloc_frame n h fc
  | Free p => free_frame p fc
  | Other k align =>
      Some (mkCache (match arena_ fc with Some a => Some (snd (alloc k align a)) | None => None end) (free_ fc) (headers fc)
                    (heap_fallbacks_ fc) (corrupt_ fc) (blocks fc) (live fc))
  end.

Fixpoint run (acts : list Action) (fc : FrameCache) : option FrameCache :=
  match acts with [] => Some fc | a :: acts => fc ← step a fc; run acts fc end.

(** ** What the environment promises *)

Definition heap_frame (f : Frame) : Prop := f_cls f = kHeap.
Definition extent (f : Frame) : Z * Z := (f_ptr f - header_bytes, f_room f + header_bytes).

(** The bytes that the heap is asked for, if it is. *)
Definition heap_bytes (n : Z) : Z := if kBuckets <? class_of n then n ⊞ header_bytes else class_of n * kGranularity.

(** The heap gives no memory twice and none of the arena's; sizes are sane. *)
Definition fits (region size0 : Z) (a : Action) (fc : FrameCache) : Prop :=
  match a with
  | Alloc n h =>
      0 <= n < 2 ^ 62 /\ 0 <= h < 2 ^ 62 /\ apart (h, heap_bytes n) (region, size0) /\
      (forall f, f ∈ live fc -> heap_frame f -> apart (h, heap_bytes n) (extent f))
  | Free _ => True
  | Other k align => 0 <= k < 2 ^ 62 /\ 0 < align < 2 ^ 62
  end.

Fixpoint all_fit (region size0 : Z) (acts : list Action) (fc : FrameCache) : Prop :=
  match acts with
  | [] => True
  | a :: acts =>
      fits region size0 a fc /\ match step a fc with Some fc => all_fit region size0 acts fc | None => True end
  end.

(** ** The cache's invariant *)

Definition is_class (c : Z) : Prop := 0 <= c < kBuckets.
Definition ptrs (c : Z) (bs : list Block) : list Z :=
  fst <$> concat (slots <$> filter (fun b => stride b = block_bytes c) bs).
Definition live_of (c : Z) (fs : list Frame) : list Z := f_ptr <$> filter (fun f => f_cls f = c) fs.

Section Inv.
Context (region size0 : Z).

(** The arena in use holds the chunks, apart from one another; the blocks of a
    class are its free list and its live frames; every header is right; and the
    heap's frames are apart from the arena and from one another. *)
Record inv (fc : FrameCache) : Prop := {
  v_arena : forall a, arena_ fc = Some a -> arena_ok a /\ data a = region /\ size a = size0;
  v_blocks : forall b, b ∈ blocks fc -> exists c a, is_class c /\ b = chunk c (base b) /\ arena_ fc = Some a /\
               region <= base b /\ base b + kChunkBytes <= region + off_ a;
  v_apart : pairwise blocks_apart (blocks fc);
  v_slots : forall c, is_class c -> bucket c fc ++ live_of c (live fc) ≡ₚ ptrs c (blocks fc);
  v_free : forall c p, is_class c -> p ∈ bucket c fc -> headers fc !! p = Some (c, kMagic);
  v_live : forall f, f ∈ live fc -> headers fc !! f_ptr f = Some (f_cls f, kMagic) /\ 0 <= f_size f <= f_room f /\
             ((is_class (f_cls f) /\ f_room f = block_bytes (f_cls f) - header_bytes) \/
              (heap_frame f /\ apart (extent f) (region, size0)));
  v_nodup : NoDup (f_ptr <$> live fc);
  v_heap : forall f g, f ∈ live fc -> g ∈ live fc -> heap_frame f -> heap_frame g -> f_ptr f <> f_ptr g ->
             apart (extent f) (extent g) }.

Lemma chunk_is_ok c mem : is_class c -> block_ok (chunk c mem).
Proof.
  unfold is_class, block_ok, chunk, kBuckets. cbn. unfold block_bytes, kGranularity, kChunkBytes, header_bytes. intros Hc.
  pose proof (Z.mul_div_le 4096 ((c + 1) * 64)). split; [lia|]. split; [lia|]. right. rewrite Z2Nat.id by (apply Z.div_pos; lia). lia.
Qed.

Lemma chunk_inj c c' : block_bytes c = block_bytes c' -> c = c'.
Proof. unfold block_bytes, kGranularity. lia. Qed.

Lemma inv_blocks_ok fc : inv fc -> Forall block_ok (blocks fc).
Proof. intros V. apply Forall_forall. intros b Hb. destruct (v_blocks fc V b Hb) as (c&a&Hc&->&_). by apply chunk_is_ok. Qed.

(** A block of a class lies in a chunk of that class. *)
Lemma ptrs_in c bs p :
  p ∈ ptrs c bs -> exists b x, b ∈ bs /\ stride b = block_bytes c /\ x ∈ slots b /\ fst x = p.
Proof.
  unfold ptrs. intros (x&->&Hx)%list_elem_of_fmap. apply list_elem_of_In, in_concat in Hx as (l&Hl&Hx).
  apply list_elem_of_In, list_elem_of_fmap in Hl as (b&->&Hb). apply list_elem_of_filter in Hb as [Hs Hb].
  exists b, x. split_and!; [done|done|by apply list_elem_of_In|done].
Qed.

Lemma arena_ptr fc c p :
  inv fc -> is_class c -> p ∈ bucket c fc ++ live_of c (live fc) ->
  exists b a, b ∈ blocks fc /\ (p, block_bytes c - header_bytes) ∈ slots b /\ arena_ fc = Some a /\
    region + header_bytes <= p /\ p + (block_bytes c - header_bytes) <= region + off_ a.
Proof.
  intros V Hc Hp. rewrite (v_slots fc V c Hc) in Hp. apply ptrs_in in Hp as (b&[q r]&Hb&Hs&Hx&Hq). simpl in Hq. subst q.
  destruct (v_blocks fc V b Hb) as (c'&a&Hc'&Eb&Ha&Hr1&Hr2). exists b, a.
  pose proof (slots_inside b (p, r) (proj1 (Forall_forall _ _) (inv_blocks_ok fc V) b Hb) Hx) as (H1&H2&H3&_). simpl in *.
  assert (c' = c) as -> by (apply chunk_inj; rewrite Eb in Hs; exact Hs).
  assert (r = block_bytes c - header_bytes) as -> by (rewrite H3, Eb; done).
  unfold slots in Hx. apply list_elem_of_fmap in Hx as (i&[= Ep]&Hi). split_and!; try done.
  - unfold slots. rewrite Ep. apply list_elem_of_fmap. exists i. split; [|done]. f_equal. by rewrite H3 || (rewrite Eb; done).
  - assert (first b = header_bytes) as Hfi by (rewrite Eb; done).
    assert (0 <= stride b) by (rewrite Hs; unfold block_bytes, kGranularity, is_class in *; lia). nia.
  - assert (len b = kChunkBytes) as Hle by (rewrite Eb; done). lia.
Qed.

Lemma pairwise_filter (bs : list Block) (P : Block -> Prop) `{forall b, Decision (P b)} :
  pairwise blocks_apart bs -> pairwise blocks_apart (filter P bs).
Proof.
  induction bs as [|b bs IH]; [done|]. intros [H1 H2]. rewrite filter_cons. destruct (decide (P b)); [|by apply IH].
  split; [|by apply IH]. rewrite Forall_forall in *. intros x [_ Hx]%list_elem_of_filter. by apply H1.
Qed.

Lemma ptrs_nodup fc c : inv fc -> NoDup (ptrs c (blocks fc)).
Proof.
  intros V. unfold ptrs. set (bs := filter _ (blocks fc)).
  assert (Forall block_ok bs) as Ho.
  { apply Forall_forall. intros b [_ Hb]%list_elem_of_filter. by eapply Forall_forall in Hb; [|apply (inv_blocks_ok fc V)]. }
  pose proof (all_slots_apart bs Ho (pairwise_filter _ _ (v_apart fc V))) as Ha.
  assert (forall x, x ∈ concat (slots <$> bs) -> 0 < snd x) as Hpos.
  { intros x Hx. apply list_elem_of_In, in_concat in Hx as (l&Hl&Hx). apply list_elem_of_In, list_elem_of_fmap in Hl as (b&->&Hb).
    apply list_elem_of_In in Hx. destruct (slots_inside b x) as (_&_&->&?); [by eapply Forall_forall in Hb|done|done]. }
  induction (concat (slots <$> bs)) as [|x l IH]; [constructor|]. destruct Ha as [Hx Ha]. rewrite fmap_cons. constructor.
  - intros (y&Hy&Hin)%list_elem_of_fmap. rewrite Forall_forall in Hx. specialize (Hx y Hin).
    pose proof (Hpos x ltac:(left)). pose proof (Hpos y ltac:(by right)). unfold apart in Hx. lia.
  - apply IH; [done|]. intros y Hy. apply Hpos. by right.
Qed.

Lemma class_not_heap c : is_class c -> c <> kHeap.
Proof. unfold is_class, kBuckets, kHeap. lia. Qed.

(** A free block is not a live frame. *)
Lemma free_not_live fc c p : inv fc -> is_class c -> p ∈ bucket c fc -> p ∉ f_ptr <$> live fc.
Proof.
  intros V Hc Hp (f&->&Hf)%list_elem_of_fmap. destruct (v_live fc V f Hf) as (Hh&_).
  pose proof (v_free fc V c _ Hc Hp) as Hh'. rewrite Hh in Hh'. injection Hh' as Hcl.
  pose proof (ptrs_nodup fc c V) as Hn. rewrite <- (v_slots fc V c Hc) in Hn. apply NoDup_app in Hn as (_&Hd&_).
  apply (Hd _ Hp). apply list_elem_of_fmap. exists f. split; [done|]. by apply list_elem_of_filter.
Qed.

Lemma live_arena fc f :
  inv fc -> f ∈ live fc -> is_class (f_cls f) -> f_ptr f ∈ bucket (f_cls f) fc ++ live_of (f_cls f) (live fc).
Proof.
  intros V Hf Hc. apply elem_of_app. right. apply list_elem_of_fmap. exists f. split; [done|]. by apply list_elem_of_filter.
Qed.

(** ** Each operation keeps it *)

Lemma free_bucket_insert c c' l fc a m x y z w :
  bucket c' (mkCache a (<[c := l]> (free_ fc)) m x y z w) = if decide (c = c') then l else bucket c' fc.
Proof. unfold bucket. simpl. destruct (decide (c = c')) as [->|]; [by rewrite lookup_insert_eq|by rewrite lookup_insert_ne]. Qed.

Lemma pop_inv c n fc fc' :
  inv fc -> is_class c -> 0 <= n <= block_bytes c - header_bytes -> pop c n fc = Some fc' -> inv fc'.
Proof.
  intros V Hc Hn. unfold pop. destruct (bucket c fc) as [|u r] eqn:Eb; [done|]. intros [= <-].
  assert (u ∈ bucket c fc) as Hu by (rewrite Eb; left). pose proof (free_not_live fc c u V Hc Hu) as Hul.
  assert (forall c' p, p ∈ (if decide (c = c') then r else bucket c' fc) -> p ∈ bucket c' fc) as Hsub.
  { intros c' p. destruct (decide (c = c')) as [->|]; [rewrite Eb; by right|done]. }
  destruct V as [Va Vb Vp Vs Vf Vl Vn Vh] eqn:EV. split; cbn [arena_ blocks live headers]; try done.
  - intros c' Hc'. rewrite free_bucket_insert, <- (Vs c' Hc'). unfold live_of. rewrite filter_cons. simpl.
    destruct (decide (c = c')) as [->|]; [|done]. rewrite fmap_cons, Eb. simpl. by rewrite Permutation_middle.
  - intros c' p Hc'. rewrite free_bucket_insert. intros Hp. apply Vf; auto.
  - intros f [->|Hf]%elem_of_cons; [|by apply Vl]. cbn. split_and!; [by apply Vf|lia|lia|]. by left.
  - rewrite fmap_cons. by constructor.
  - assert (forall g, g = mkFrame u c (block_bytes c - header_bytes) n -> heap_frame g -> False) as Hno.
    { intros g -> Hg. by apply (class_not_heap c). }
    intros f g [Ef|Hf]%elem_of_cons [Eg|Hg]%elem_of_cons; intros; try (by exfalso; eapply Hno); by apply Vh.
Qed.

Lemma set_headers_lookup c ps m p :
  set_headers c ps m !! p = if decide (p ∈ ps) then Some (c, kMagic) else m !! p.
Proof.
  induction ps as [|q ps IH]; cbn [set_headers foldr]; [done|]. destruct (decide (q = p)) as [->|Hne].
  - rewrite lookup_insert_eq, decide_True; [done|left].
  - rewrite lookup_insert_ne by done. fold (set_headers c ps m). rewrite IH.
    destruct (decide (p ∈ ps)); [by rewrite decide_True by (by right)|]. rewrite decide_False; [done|]. set_solver.
Qed.

Lemma chunk_ptr c mem p :
  is_class c -> p ∈ fst <$> slots (chunk c mem) -> mem + header_bytes <= p < mem + kChunkBytes.
Proof.
  intros Hc (x&->&Hx)%list_elem_of_fmap. destruct (slots_inside _ x (chunk_is_ok c mem Hc) Hx) as (H1&H2&H3&H4). cbn in *.
  unfold slots in Hx. apply list_elem_of_fmap in Hx as (i&->&_). cbn in *. unfold block_bytes, kGranularity, is_class, header_bytes in *. lia.
Qed.

(** An address of the cache, free or live, lies in the arena in use or in the heap. *)
Lemma live_where fc f :
  inv fc -> f ∈ live fc ->
  (exists a, arena_ fc = Some a /\ region + header_bytes <= f_ptr f /\ f_ptr f < region + off_ a) \/
  (heap_frame f /\ apart (extent f) (region, size0)).
Proof.
  intros V Hf. destruct (v_live fc V f Hf) as (_&_&[[Hc _]|H]); [left|by right].
  destruct (arena_ptr fc _ _ V Hc (live_arena fc f V Hf Hc)) as (b&a&_&_&Ha&H1&H2). exists a. split_and!; [done|done|].
  unfold block_bytes, kGranularity, header_bytes, is_class in *. lia.
Qed.

Lemma add_chunk_inv c mem a a' fc :
  inv fc -> is_class c -> arena_ fc = Some a -> alloc kChunkBytes 16 a = (Some mem, a') -> inv (add_chunk c mem a' fc).
Proof.
  intros V Hc Ha Hal. destruct (v_arena fc V a Ha) as (Hok&Hd&Hs).
  pose proof (alloc_spec kChunkBytes 16 a Hok) as Hsp. rewrite Hal in Hsp.
  destruct Hsp as (_&Hlo&Hhi&Hok'&Hd'&Hs'); [unfold kChunkBytes; lia|lia|].
  set (ps := fst <$> slots (chunk c mem)).
  assert (forall p, p ∈ ps -> region + off_ a < p < region + off_ a') as Hps.
  { intros p Hp. pose proof (chunk_ptr c mem p Hc Hp). unfold header_bytes in *. lia. }
  assert (forall p, p < region + off_ a -> p ∉ ps) as Hold by (intros p Hp Hin; specialize (Hps p Hin); lia).
  assert (forall f, f ∈ live fc -> f_ptr f ∉ ps) as Hlive.
  { intros f Hf. destruct (live_where fc f V Hf) as [(x&Hx&_&Hlt)|[_ Hap]]; [simplify_eq; by apply Hold|].
    intros Hin. specialize (Hps _ Hin). destruct (v_live fc V f Hf) as (_&Hsz&_). destruct Hok as (?&?&?), Hok' as (?&?&?).
    unfold apart, extent, header_bytes in Hap. cbn in Hap. lia. }
  assert (forall c' p, is_class c' -> p ∈ bucket c' fc -> p ∉ ps) as Hfree.
  { intros c' p Hc' Hp. destruct (arena_ptr fc c' p V Hc') as (b&x&_&_&Hx&_&H2); [apply elem_of_app; by left|].
    simplify_eq. apply Hold. unfold block_bytes, kGranularity, header_bytes, is_class in *. lia. }
  destruct V as [Va Vb Vp Vs Vf Vl Vn Vh]. unfold add_chunk. fold ps. split; cbn [arena_ blocks live headers]; try done.
  - intros x [= <-]. split; [done|]. lia.
  - intros b [->|Hb]%elem_of_cons.
    + exists c, a'. split_and!; try done; cbn; destruct Hok as (?&?&?); lia.
    + destruct (Vb b Hb) as (c'&x&?&?&?&?&?). simplify_eq. exists c', a'. split_and!; try done. unfold kChunkBytes in *. lia.
  - split; [|done]. apply Forall_forall. intros b Hb. destruct (Vb b Hb) as (c'&x&?&Eb&?&?&?). simplify_eq. right.
    rewrite Eb at 2. cbn. lia.
  - intros c' Hc'. rewrite free_bucket_insert. unfold ptrs. rewrite filter_cons. cbn [stride chunk].
    destruct (decide (c = c')) as [->|Hne].
    + rewrite decide_True by done. rewrite fmap_cons. cbn [concat]. rewrite fmap_app. fold (ptrs c' (blocks fc)). fold ps.
      rewrite <- (Vs c' Hc'), reverse_Permutation, app_assoc. done.
    + rewrite decide_False by (intros H%chunk_inj; congruence). by apply Vs.
  - intros c' p Hc'. rewrite free_bucket_insert, set_headers_lookup. destruct (decide (c = c')) as [->|Hne].
    + intros [Hp|Hp]%elem_of_app; [rewrite elem_of_reverse in Hp; by rewrite decide_True|].
      rewrite decide_False by (by apply (Hfree c')). by apply Vf.
    + intros Hp. rewrite decide_False by (by apply (Hfree c')). by apply Vf.
  - intros f Hf. rewrite set_headers_lookup, decide_False by (by apply Hlive). by apply Vl.
Qed.

Lemma heap_inv need n h fc :
  inv fc -> 0 <= h < 2 ^ 62 -> 0 <= n -> n + header_bytes <= need -> apart (h, need) (region, size0) ->
  (forall f, f ∈ live fc -> heap_frame f -> apart (h, need) (extent f)) -> inv (heap_block need n h fc).
Proof.
  intros V Hh Hn Hne Hreg Hap. unfold heap_block. rewrite u64_small by (unfold header_bytes; lia).
  set (p := h + header_bytes). set (f0 := mkFrame p kHeap (need - header_bytes) n).
  assert (extent f0 = (h, need)) as Ee by (unfold extent, f0, p; cbn; f_equal; lia).
  assert (forall a, arena_ fc = Some a -> arena_ok a /\ size a = size0) as Hao by (intros a Ha; by destruct (v_arena fc V a Ha) as (?&_&?)).
  assert (forall f, f ∈ live fc -> f_ptr f <> p) as Hlp.
  { intros f Hf E. destruct (live_where fc f V Hf) as [(a&Ha&H1&H2)|[Hhf _]].
    - destruct (Hao a Ha) as [(?&?&?) ?]. unfold apart, p, header_bytes in *. cbn in *. lia.
    - specialize (Hap f Hf Hhf). destruct (v_live fc V f Hf) as (_&?&_). unfold apart, extent, p, header_bytes in *. cbn in *. lia. }
  assert (forall c q, is_class c -> q ∈ bucket c fc -> q <> p) as Hfp.
  { intros c q Hc Hq E. destruct (arena_ptr fc c q V Hc) as (b&a&_&_&Ha&H1&H2); [apply elem_of_app; by left|].
    destruct (Hao a Ha) as [(?&?&?) ?]. unfold apart, p, header_bytes, block_bytes, kGranularity, is_class in *. cbn in *. lia. }
  destruct V as [Va Vb Vp Vs Vf Vl Vn Vh]. split; cbn [arena_ blocks live headers]; try done.
  - intros c Hc. unfold live_of. rewrite filter_cons_False by (cbn; intros <-; by apply (class_not_heap kHeap)). by apply Vs.
  - intros c q Hc Hq. rewrite lookup_insert_ne by (intros <-; by apply (Hfp c p)). by apply Vf.
  - intros f [->|Hf]%elem_of_cons.
    + cbn [f_ptr f_cls f_size f_room f0]. rewrite lookup_insert_eq. split_and!; [done|lia|lia|]. right. split; [done|]. by rewrite Ee.
    + rewrite lookup_insert_ne by (symmetry; by apply Hlp). by apply Vl.
  - rewrite fmap_cons. constructor; [|done]. intros (f&Ef&Hf)%list_elem_of_fmap. by apply (Hlp f).
  - intros f g [->|Hf]%elem_of_cons [->|Hg]%elem_of_cons Hhf Hhg Hn'; rewrite ?Ee; [done|by apply Hap| |by apply Vh].
    apply apart_sym. by apply Hap.
Qed.

Lemma class_of_spec n : 0 <= n < 2 ^ 62 -> 1 <= class_of n /\ n + header_bytes <= class_of n * kGranularity.
Proof.
  intros Hn. unfold class_of, header_bytes, kGranularity. rewrite (u64_small (n + 16)), (u64_small (n + 16 + 64)), u64_small by lia.
  pose proof (Z.div_mod (n + 16 + 64 - 1) 64 ltac:(lia)). pose proof (Z.mod_pos_bound (n + 16 + 64 - 1) 64 ltac:(lia)). lia.
Qed.

Lemma chunk_slots_cons c mem : is_class c -> exists p l, reverse (fst <$> slots (chunk c mem)) = p :: l.
Proof.
  intros Hc. destruct (reverse _) as [|p l] eqn:E; [|by exists p, l].
  apply (f_equal length) in E. rewrite length_reverse, length_fmap, length_slots in E. cbn in E.
  unfold is_class, block_bytes, kBuckets, kChunkBytes, kGranularity in *.
  assert (1 <= 4096 / ((c + 1) * 64)) by (apply Z.div_le_lower_bound; lia). lia.
Qed.

(** An allocation takes a free block, carves a chunk because there is none, or
    asks the heap. *)
Lemma alloc_cases n h fc :
  inv fc -> 0 <= n < 2 ^ 62 ->
  let c := class_of n - 1 in
  alloc_frame n h fc = Some (heap_block (heap_bytes n) n h fc) \/
  (is_class c /\ 0 <= n <= block_bytes c - header_bytes /\
   exists fc1 fc', alloc_frame n h fc = Some fc' /\ pop c n fc1 = Some fc' /\
     (fc1 = fc \/ (bucket c fc = [] /\ exists mem a a', arena_ fc = Some a /\ alloc kChunkBytes 16 a = (Some mem, a') /\
                  fc1 = add_chunk c mem a' fc))).
Proof.
  intros V Hn. cbv zeta. destruct (class_of_spec n Hn) as [H1 H2]. unfold alloc_frame, heap_bytes.
  destruct (Z.ltb_spec kBuckets (class_of n)) as [Hb|Hb]; [by left|].
  assert (is_class (class_of n - 1)) as Hc by (unfold is_class; lia).
  assert (0 <= n <= block_bytes (class_of n - 1) - header_bytes) as Hr by (unfold block_bytes; lia).
  destruct (bucket (class_of n - 1) fc) as [|u r] eqn:Eb.
  - unfold carve. destruct (arena_ fc) as [a|] eqn:Ea; [|by left].
    destruct (alloc kChunkBytes 16 a) as [[mem|] a'] eqn:Eal; [|by left]. right. split_and!; [done|lia|lia|].
    destruct (chunk_slots_cons (class_of n - 1) mem Hc) as (q&l&Eq).
    assert (bucket (class_of n - 1) (add_chunk (class_of n - 1) mem a' fc) = q :: l) as Ebk.
    { unfold add_chunk. rewrite free_bucket_insert, decide_True by done. by rewrite Eb, Eq, app_nil_r. }
    eexists (add_chunk _ mem a' fc), _. split_and!; [unfold pop; by rewrite Ebk|unfold pop; by rewrite Ebk|].
    right. split; [done|]. by exists mem, a, a'.
  - right. split_and!; [done|lia|lia|]. eexists fc, _. split_and!; [unfold pop; by rewrite Eb|unfold pop; by rewrite Eb|by left].
Qed.

Lemma filter_other_frames (l : list Frame) p :
  p ∉ f_ptr <$> l -> filter (fun f => f_ptr f <> p) l = l.
Proof.
  induction l as [|x l IH]; [done|]. rewrite fmap_cons, not_elem_of_cons. intros [H1 H2].
  rewrite filter_cons_True by done. by rewrite IH.
Qed.

(** A live frame, taken out of the list. *)
Lemma remove_live fc f :
  inv fc -> f ∈ live fc ->
  exists l1 l2, live fc = l1 ++ f :: l2 /\ filter (fun g => f_ptr g <> f_ptr f) (live fc) = l1 ++ l2 /\
    NoDup (f_ptr <$> l1 ++ l2) /\ f_ptr f ∉ f_ptr <$> l1 ++ l2.
Proof.
  intros V (l1&l2&E)%list_elem_of_split. pose proof (v_nodup fc V) as Hn. rewrite E in Hn.
  rewrite fmap_app, fmap_cons, <- Permutation_middle, NoDup_cons, <- fmap_app in Hn. destruct Hn as [Hf Hn].
  exists l1, l2. split_and!; try done. rewrite E, filter_app, filter_cons_False by naive_solver.
  rewrite <- filter_app. by apply filter_other_frames.
Qed.

Lemma free_inv p fc fc' : inv fc -> free_frame p fc = Some fc' -> inv fc' /\ corrupt_ fc' = corrupt_ fc /\ blocks fc' = blocks fc.
Proof.
  intros V. unfold free_frame. destruct (decide _) as [Hp|]; [|done]. apply list_elem_of_fmap in Hp as (f&->&Hf).
  destruct (v_live fc V f Hf) as (Hh&Hsz&Hk). rewrite Hh. simpl.
  destruct (remove_live fc f V Hf) as (l1&l2&El&->&Hn&Hnf).
  assert (forall g, g ∈ l1 ++ l2 -> g ∈ live fc /\ f_ptr g <> f_ptr f) as Hrest.
  { intros g Hg. split; [rewrite El; set_solver|]. intros E. apply Hnf. rewrite <- E. apply list_elem_of_fmap. eauto. }
  assert (forall c, live_of c (live fc) ≡ₚ (if decide (f_cls f = c) then [f_ptr f] else []) ++ live_of c (l1 ++ l2)) as Hlo.
  { intros c. unfold live_of. rewrite El, !filter_app, filter_cons, !fmap_app.
    destruct (decide (f_cls f = c)); [|done]. rewrite fmap_cons. simpl. by rewrite Permutation_middle. }
  change (kMagic =? kMagic) with true. simpl. destruct Hk as [[Hc _]|[Hheap _]].
  - rewrite (proj2 (Z.eqb_neq _ _)) by (by apply class_not_heap). intros [= <-]. split; [|done].
    assert (forall c, is_class c -> f_ptr f ∈ bucket c fc -> False) as Hnb.
    { intros c Hc' Hb. apply (free_not_live fc c _ V Hc' Hb). apply list_elem_of_fmap. eauto. }
    destruct V as [Va Vb Vp Vs Vf Vl Vn Vh]. split; cbn [arena_ blocks live headers]; try done.
    + intros c' Hc'. rewrite free_bucket_insert, <- (Vs c' Hc'), (Hlo c'). destruct (decide (f_cls f = c')) as [->|]; [|done].
      simpl. by rewrite Permutation_middle.
    + intros c' q Hc'. rewrite free_bucket_insert. destruct (decide (f_cls f = c')) as [<-|]; [|by apply Vf].
      intros [->|Hq]%elem_of_cons; [done|by apply Vf].
    + intros g [Hg _]%Hrest. by apply Vl.
    + intros g g' [Hg _]%Hrest [Hg' _]%Hrest. by apply Vh.
  - unfold heap_frame in Hheap. rewrite Hheap in Hh |- *. change (kHeap =? kHeap) with true. intros [= <-]. split; [|done].
    destruct V as [Va Vb Vp Vs Vf Vl Vn Vh]. split; cbn [arena_ blocks live headers]; try done.
    + intros c' Hc'. rewrite <- (Vs c' Hc'), (Hlo c'). rewrite decide_False; [done|]. intros E. apply (class_not_heap c' Hc'). congruence.
    + intros c' q Hc' Hq. pose proof (Vf c' q Hc' Hq) as Hq'. rewrite lookup_delete_ne; [done|]. intros <-.
      apply (class_not_heap c' Hc'). congruence.
    + intros g [Hg Hne]%Hrest. rewrite lookup_delete_ne by done. by apply Vl.
    + intros g g' [Hg _]%Hrest [Hg' _]%Hrest. by apply Vh.
Qed.

Lemma other_inv k al fc :
  inv fc -> 0 <= k < 2 ^ 62 -> 0 < al < 2 ^ 62 ->
  inv (mkCache (match arena_ fc with Some a => Some (snd (alloc k al a)) | None => None end) (free_ fc) (headers fc)
               (heap_fallbacks_ fc) (corrupt_ fc) (blocks fc) (live fc)).
Proof.
  intros V Hk Hal. destruct V as [Va Vb Vp Vs Vf Vl Vn Vh]. destruct (arena_ fc) as [a|] eqn:Ea; [|by split; try done; rewrite ?Ea].
  destruct (Va a eq_refl) as (Hok&Hd&Hs). pose proof (alloc_spec k al a Hok Hk Hal) as H.
  destruct (alloc k al a) as [[q|] a']; [|destruct H as [-> _]; by split].
  destruct H as (_&H1&H2&H3&H4&H5). split; cbn; try done.
  - intros x [= <-]. split; [done|]. lia.
  - intros b Hb. destruct (Vb b Hb) as (c&x&?&?&?&?&?). simplify_eq. exists c, a'. split_and!; try done. lia.
Qed.

Lemma frame_step_inv a fc fc' :
  inv fc -> fits region size0 a fc -> step a fc = Some fc' -> inv fc' /\ corrupt_ fc' = corrupt_ fc.
Proof.
  intros V Hfit Hs. destruct a as [n h|p|k al]; cbn [step fits] in *.
  - destruct Hfit as (Hn&Hh&Hr&Hl). destruct (class_of_spec n Hn) as [_ Hcs].
    destruct (alloc_cases n h fc V Hn) as [E|(Hc&Hroom&fc1&fc2&E&Hpop&H)]; rewrite E in Hs; injection Hs as <-.
    + split; [|done]. apply heap_inv; try done; [lia|]. unfold heap_bytes. destruct (Z.ltb_spec kBuckets (class_of n)); [|lia].
      unfold header_bytes in *. rewrite u64_small by lia. lia.
    + assert (inv fc1 /\ corrupt_ fc1 = corrupt_ fc) as [V1 Hcor].
      { destruct H as [->|(_&mem&a&a'&Ha&Hal&->)]; [done|]. split; [by apply (add_chunk_inv _ mem a)|done]. }
      split; [by apply (pop_inv (class_of n - 1) n fc1)|]. rewrite <- Hcor. unfold pop in Hpop. by destruct (bucket _ fc1); simplify_eq.
  - destruct (free_inv p fc fc' V Hs) as (?&?&_). done.
  - injection Hs as <-. destruct Hfit. split; [|done]. by apply other_inv.
Qed.

Lemma frame_run_inv acts fc fc' :
  inv fc -> all_fit region size0 acts fc -> run acts fc = Some fc' -> inv fc' /\ corrupt_ fc' = corrupt_ fc.
Proof.
  revert fc. induction acts as [|a acts IH]; intros fc V Hfit Hr; cbn in *; [by simplify_eq|].
  destruct Hfit as [Hf Hfit]. destruct (step a fc) as [fc1|] eqn:E; [|done]. cbn in Hr.
  destruct (frame_step_inv a fc fc1 V Hf E) as [V1 <-]. by apply IH.
Qed.

(** ** Frames in use are apart *)

Lemma slots_of_blocks fc b x : b ∈ blocks fc -> x ∈ slots b -> x ∈ concat (slots <$> blocks fc).
Proof. intros Hb Hx. apply list_elem_of_In, in_concat. exists (slots b). split; apply list_elem_of_In; [apply list_elem_of_fmap; eauto|done]. Qed.

Lemma pairwise_elems (l : list (Z * Z)) x y : pairwise apart l -> x ∈ l -> y ∈ l -> x <> y -> apart x y.
Proof.
  induction l as [|z l IH]; intros Hp Hx Hy Hne; [set_solver|]. destruct Hp as [Hz Hp]. rewrite Forall_forall in Hz.
  apply elem_of_cons in Hx as [->|Hx]; apply elem_of_cons in Hy as [->|Hy]; [done|by apply Hz|by apply apart_sym, Hz|by apply IH].
Qed.

Lemma live_apart fc f g :
  inv fc -> f ∈ live fc -> g ∈ live fc -> f_ptr f <> f_ptr g -> apart (f_ptr f, f_size f) (f_ptr g, f_size g).
Proof.
  intros V Hf Hg Hne. destruct (v_live fc V f Hf) as (_&Hsf&Hkf), (v_live fc V g Hg) as (_&Hsg&Hkg).
  assert (forall f, f ∈ live fc -> is_class (f_cls f) -> exists b, b ∈ blocks fc /\
    (f_ptr f, block_bytes (f_cls f) - header_bytes) ∈ slots b /\
    region + header_bytes <= f_ptr f /\ f_ptr f + (block_bytes (f_cls f) - header_bytes) <= region + size0) as Har.
  { intros x Hx Hc. destruct (arena_ptr fc _ _ V Hc (live_arena fc x V Hx Hc)) as (b&a&?&?&Ha&?&?). exists b.
    destruct (v_arena fc V a Ha) as ((?&?&?)&?&?). split_and!; [done|done|lia|lia]. }
  destruct Hkf as [[Hcf Hrf]|[Hhf Haf]], Hkg as [[Hcg Hrg]|[Hhg Hag]].
  - destruct (Har f Hf Hcf) as (b&Hb&Hxf&_), (Har g Hg Hcg) as (b'&Hb'&Hxg&_).
    pose proof (all_slots_apart _ (inv_blocks_ok fc V) (v_apart fc V)) as Hp.
    pose proof (pairwise_elems _ _ _ Hp (slots_of_blocks fc b _ Hb Hxf) (slots_of_blocks fc b' _ Hb' Hxg)) as H.
    specialize (H ltac:(congruence)). unfold apart in *. cbn in *. lia.
  - destruct (Har f Hf Hcf) as (b&_&_&H1&H2). unfold apart, extent, header_bytes in *. cbn in *. lia.
  - destruct (Har g Hg Hcg) as (b&_&_&H1&H2). unfold apart, extent, header_bytes in *. cbn in *. lia.
  - pose proof (v_heap fc V f g Hf Hg Hhf Hhg Hne) as H. unfold apart, extent, header_bytes in *. cbn in *. lia.
Qed.

(** ** Chunks are carved for the peak *)

Definition chunks_of (c : Z) (fc : FrameCache) : nat := length (filter (fun b => stride b = block_bytes c) (blocks fc)).
Definition per_chunk (c : Z) : nat := Z.to_nat (kChunkBytes / block_bytes c).

Lemma class_count fc c :
  inv fc -> is_class c -> (length (bucket c fc) + length (live_of c (live fc)) = chunks_of c fc * per_chunk c)%nat.
Proof.
  intros V Hc. rewrite <- length_app, (Permutation_length (v_slots fc V c Hc)). unfold ptrs, chunks_of. rewrite length_fmap.
  assert (forall b, b ∈ blocks fc -> stride b = block_bytes c -> n b = per_chunk c) as Hn.
  { intros b Hb Hs. destruct (v_blocks fc V b Hb) as (c'&a&_&E&_). rewrite E in Hs |- *. cbn in *. by apply chunk_inj in Hs as ->. }
  induction (blocks fc) as [|b bs IH]; [done|]. rewrite filter_cons. destruct (decide _) as [Hs|].
  - rewrite fmap_cons. cbn [concat length]. rewrite length_app, length_slots, (Hn b) by (done || left).
    rewrite IH; [lia|]. intros x Hx. apply Hn. by right.
  - apply IH. intros x Hx. apply Hn. by right.
Qed.

Lemma step_chunks a fc fc' c :
  inv fc -> fits region size0 a fc -> step a fc = Some fc' -> is_class c ->
  chunks_of c fc' = chunks_of c fc \/
  (chunks_of c fc' = S (chunks_of c fc) /\ bucket c fc = [] /\
   length (live_of c (live fc')) = S (length (live_of c (live fc)))).
Proof.
  intros V Hfit Hs Hc. destruct a as [n h|p|k al]; cbn [step fits] in *.
  - destruct Hfit as (Hn&_). destruct (alloc_cases n h fc V Hn) as [E|(Hcl&_&fc1&fc2&E&Hpop&H)]; rewrite E in Hs; injection Hs as <-; [by left|].
    unfold pop in Hpop. destruct (bucket _ fc1) as [|u r]; [done|]. injection Hpop as <-.
    destruct H as [->|(Hb&mem&a&a'&_&_&->)]; [by left|]. unfold chunks_of, live_of. cbn [blocks live add_chunk]. rewrite !filter_cons.
    cbn [stride chunk f_cls]. destruct (decide (class_of n - 1 = c)) as [<-|Hne].
    + right. rewrite decide_True by done. done.
    + left. rewrite decide_False; [done|]. intros Eq%chunk_inj. done.
  - left. unfold chunks_of. by destruct (free_inv p fc fc' V Hs) as (_&_&->).
  - injection Hs as <-. by left.
Qed.

End Inv.

Lemma cache0_inv a : arena_ok a -> inv (data a) (size a) (cache0 (Some a)).
Proof.
  intros Ha. split; cbn; try done; try (intros; set_solver). constructor.
Qed.

(** C39: coroutine frames never overlap.  Whatever frames are allocated and freed,
    from the free lists, from fresh chunks or from the heap, and whatever else is
    allocated from the shared arena meanwhile: the frames in use are pairwise
    disjoint memory and each has the bytes that were asked for, an allocation
    always gives a frame, a frame in use can be freed, and no free is taken for
    corrupt. *)
Theorem frames_are_apart a acts fc :
  arena_ok a -> all_fit (data a) (size a) acts (cache0 (Some a)) -> run acts (cache0 (Some a)) = Some fc ->
  (forall i j f g, i <> j -> live fc !! i = Some f -> live fc !! j = Some g ->
     apart (f_ptr f, f_size f) (f_ptr g, f_size g)) /\
  (forall f, f ∈ live fc -> 0 <= f_size f <= f_room f /\ is_Some (free_frame (f_ptr f) fc)) /\
  (forall n h, 0 <= n < 2 ^ 62 -> is_Some (alloc_frame n h fc)) /\
  corrupt_ fc = 0.
Proof.
  intros Ha Hfit Hr. destruct (frame_run_inv _ _ acts _ fc (cache0_inv a Ha) Hfit Hr) as [V Hcor]. split_and!.
  - intros i j f g Hij Hi Hj. apply (live_apart (data a) (size a) fc); [done|by eapply list_elem_of_lookup_2..|].
    intros E. apply Hij. eapply (NoDup_lookup (f_ptr <$> live fc)); [apply (v_nodup _ _ fc V)| |];
      rewrite list_lookup_fmap, ?Hi, ?Hj; simpl; [done|by rewrite E].
  - intros f Hf. destruct (v_live _ _ fc V f Hf) as (Hh&Hs&_). split; [done|]. unfold free_frame.
    rewrite decide_True by (apply list_elem_of_fmap; eauto). rewrite Hh. cbn. destruct (f_cls f =? kHeap); by eexists.
  - intros n h Hn. destruct (alloc_cases _ _ n h fc V Hn) as [->|(_&_&_&fc'&->&_)]; by eexists.
  - exact Hcor.
Qed.

(** Discharges what the environment promises on closed data. *)
Ltac check_apart := first [left; vm_compute; discriminate | right; vm_compute; discriminate].
Ltac check_fit :=
  first
    [ exact I
    | cbn [fits]; lia
    | cbn [fits]; split_and!; [lia|lia|lia|lia|check_apart|];
      let f := fresh "f" in let Hf := fresh "Hf" in let Hh := fresh "Hh" in
      intros f Hf Hh; cbn [live cache0] in Hf;
      repeat (apply elem_of_cons in Hf as [->|Hf]; [first [discriminate Hh | check_apart]|]); by apply not_elem_of_nil in Hf ].
Ltac check_all_fit :=
  repeat (cbn [all_fit]; match goal with
    | |- True => exact I
    | |- _ /\ match step ?a ?s with _ => _ end =>
        split; [check_fit|]; let v := eval vm_compute in (step a s) in change (step a s) with v; cbv beta iota
    end).

Lemma frames_are_apart_witness :
  let acts := [Alloc 1000 (2 ^ 40); Other 100 16; Alloc 1000 (2 ^ 40); Alloc 2000 (2 ^ 40); Free 7184; Alloc 40 (2 ^ 41); Alloc 990 (2 ^ 42)] in
  exists fc, run acts (cache0 (Some (mkArena 4096 8192 0))) = Some fc /\ corrupt_ fc = 0 /\
    (f_ptr <$> live fc) = [7184; 2 ^ 41 + 16; 2 ^ 40 + 16; 6160].
Proof.
  cbv zeta. eexists. split; [vm_compute; reflexivity|]. split; [|vm_compute; reflexivity].
  refine (proj2 (proj2 (proj2 (frames_are_apart (mkArena 4096 8192 0) [Alloc 1000 (2 ^ 40); Other 100 16; Alloc 1000 (2 ^ 40);
    Alloc 2000 (2 ^ 40); Free 7184; Alloc 40 (2 ^ 41); Alloc 990 (2 ^ 42)] _ _ _ _)))).
  - unfold arena_ok. cbn. lia.
  - check_all_fit.
  - vm_compute. reflexivity.
Defined.

(** the arena pays for the peak, not for the churn.  Of every size class that
    has chunks, all but one of them were filled by frames that were in use at
    the same time, at some moment of the run. *)
Theorem chunks_track_the_peak a acts fc c :
  arena_ok a -> all_fit (data a) (size a) acts (cache0 (Some a)) -> run acts (cache0 (Some a)) = Some fc ->
  is_class c -> chunks_of c fc <> O ->
  exists before after q, acts = before ++ after /\ run before (cache0 (Some a)) = Some q /\
    ((chunks_of c fc - 1) * per_chunk c < length (live_of c (live q)))%nat.
Proof.
  intros Ha Hfit Hr Hc Hne. enough (forall acts fc0, inv (data a) (size a) fc0 -> all_fit (data a) (size a) acts fc0 ->
    run acts fc0 = Some fc -> chunks_of c fc = chunks_of c fc0 \/
    exists before after q, acts = before ++ after /\ run before fc0 = Some q /\
      ((chunks_of c fc - 1) * per_chunk c < length (live_of c (live q)))%nat) as H.
  { destruct (H acts _ (cache0_inv a Ha) Hfit Hr) as [E|H']; [|done]. by rewrite E in Hne. }
  clear acts Hfit Hr. induction acts as [|x acts IH]; intros fc0 V Hfit Hr; cbn in Hfit, Hr; [left; congruence|].
  destruct Hfit as [Hf Hfit]. destruct (step x fc0) as [fc1|] eqn:E; [|done]. cbn in Hr.
  destruct (frame_step_inv _ _ x fc0 fc1 V Hf E) as [V1 _]. destruct (IH fc1 V1 Hfit Hr) as [IH1|(b&f&q&->&Hq&Hlt)].
  - destruct (step_chunks _ _ x fc0 fc1 c V Hf E Hc) as [E1|(E1&Eb&El)]; [left; congruence|right].
    exists [x], acts, fc1. split_and!; [done|cbn; by rewrite E|]. rewrite El, IH1, E1.
    pose proof (class_count _ _ fc0 c V Hc) as Hcount. rewrite Eb in Hcount. simpl in Hcount.
    replace (S (chunks_of c fc0) - 1)%nat with (chunks_of c fc0) by lia. lia.
  - right. exists (x :: b), f, q. split_and!; [done|cbn; by rewrite E|done].
Qed.

Lemma chunks_track_the_peak_witness :
  exists fc before after q, run [Alloc 2000 (2 ^ 40); Alloc 900 (2 ^ 41)] (cache0 (Some (mkArena 4096 8192 0))) = Some fc /\
    [Alloc 2000 (2 ^ 40); Alloc 900 (2 ^ 41)] = before ++ after /\ run before (cache0 (Some (mkArena 4096 8192 0))) = Some q /\
    ((chunks_of 14 fc - 1) * per_chunk 14 < length (live_of 14 (live q)))%nat.
Proof.
  eexists. destruct (chunks_track_the_peak (mkArena 4096 8192 0) [Alloc 2000 (2 ^ 40); Alloc 900 (2 ^ 41)]
    ltac:(let v := eval vm_compute in (default (cache0 None) (run [Alloc 2000 (2 ^ 40); Alloc 900 (2 ^ 41)] (cache0 (Some (mkArena 4096 8192 0))))) in exact v) 14)
    as (b&f&q&H1&H2&H3).
  - unfold arena_ok. cbn. lia.
  - check_all_fit.
  - vm_compute. reflexivity.
  - unfold is_class, kBuckets. lia.
  - vm_compute. discriminate.
  - exists b, f, q. split_and!; [vm_compute; reflexivity|exact H1|exact H2|exact H3].
Defined.

End Frames.
