(* ===== verification/EventLoop.v ===== *)
(** * The event loop

    [BasicEventManager::poll_once] of [src/include/afx/core/event_manager.hpp] and
    its stages: [drain_mailbox], [expire_timers], [wait_timeout],
    [dispatch_completions], [run_deferred], [flush_writes] and [bookkeeping], with
    [run_guarded], the completion sinks and raw watches, [post], [defer],
    [next_wakeup] and the shutdown sequence.  It joins the timer service, the
    handle tables, the contexts and the tags of completions.

    The application is what its callbacks do: [react] gives the calls a callback
    makes, from the whole history up to its own invocation, and [throws] whether
    it ends in an exception.  The hooks of owned objects make calls in the same way.
    The mailbox ring is the sequence of its items (MpscRing.v), which other threads
    extend at the moments an [Input] says.  The backend is the log of the calls
    made to it, [attach_result] its answers, and the completions of each wait are
    part of the [Input].

    [EvPosted], [EvDefer], [EvNote] and [EvReleased] are entries of the history
    that record calls; the others record that a callback ran.  The stage timings,
    the histograms, the flight recorder and the stall detector are not modelled,
    nor is the shuffling of a chaos build. *)

From stdpp Require Import base option gmap list.
From Stdlib Require Import ZArith Lia.
From S2P Require Import Prelude HandleTable TimerWheel TimerHeap TimerService Backend Context.
Local Open Scope Z_scope.

Module Loop.
Import Handles Ctx.

(** ** Data *)

Inductive WaitStrategy := Block | SpinThenBlock | Spin.
Inductive CallbackErrorPolicy := RouteToHandler | CloseConnection | Terminate.
Inductive MailboxState := Running | Blocked.

Record EventManagerConfig := mkConfig {
  wait : WaitStrategy;
  spin_budget : Z;
  timer_tick : Z;
  max_itc_batch : nat;
  max_defer_batch : nat;
  on_callback_error : CallbackErrorPolicy;
  mailbox_capacity : nat }.

(** What a timer runs: an application callback, or the next [drain_step]. *)
Inductive TimerFn := UserFn (f : Z) | DrainFn.

Definition TEm : Type := Timers.Em (Fn := TimerFn) (Ctx := Context).
Definition TOp : Type := Timers.Op (Fn := TimerFn).

Record PostedItem := mkItem { task : Z; ictx : Context }.

(** [obj] names the object and its functions; [boxed] is the allocation a raw
    watch keeps its callback in. *)
Record SinkEntry := mkSink {
  obj : Z;
  teardown : bool;
  boxed : option Z;
  sctx : option Context;
  write_pending : bool }.

Definition set_write_pending (b : bool) (s : SinkEntry) : SinkEntry :=
  mkSink (obj s) (teardown s) (boxed s) (sctx s) b.

(** Calls to the backend. *)
Inductive BackendCall :=
  | BAttach (fd : Z) (i : Interest) (u : UserData)
  | BModify (fd : Z) (i : Interest) (u : UserData)
  | BDetach (fd : Z)
  | BWake.

(** The history. *)
Inductive Event :=
  | EvPosted (it : PostedItem)
  | EvTask (it : PostedItem)
  | EvShed (it : PostedItem)
  | EvTimer (f : option TimerFn) (tc : Timers.TimerCtx)
  | EvCompletion (h : Handle) (o : Z) (c : Completion)
  | EvDefer (t : Z)
  | EvDeferred (t : Z)
  | EvNote (h : Handle)
  | EvFlush (h : Handle) (o : Z)
  | EvReleased (h : Handle)
  | EvTeardown (o : Z)
  | EvIdle
  | EvIteration
  | EvBegin (o : Z)
  | EvNotify (o : Z)
  | EvHalfClose (o : Z).

Record LoopStats := mkLStats {
  iterations : Z; idle_iterations : Z; spins : Z; blocks : Z; wakeups : Z;
  mailbox_pushes : Z; mailbox_pops : Z; mailbox_full : Z;
  deadline_expired_before_start : Z; callback_errors : Z }.

(** [tm] holds the clock, the ambient context and the timers.  [boxes] are the
    callbacks of raw watches that are allocated.  [defer_run_] is the part of the
    batch that has not been looked at, and [flushing] the part of the local list of
    [flush_writes]. *)
Record Em := mkEm {
  tm : TEm;
  sinks_ : HandleTable SinkEntry;
  watch_fds_ : gmap Z Z;
  pending_writes_ : list Handle;
  flushing : list Handle;
  ring : list PostedItem;
  mb_state : MailboxState;
  defer_next_ : list Z;
  defer_run_ : list Z;
  owned_ : list Z;
  shutting_down_ : bool;
  shutdown_deadline_ : Z;
  spin_until_ : Z;
  blocked_ : bool;
  stop_ : bool;
  aborted : bool;
  stats_ : LoopStats;
  boxes : list Z;
  bcalls : list BackendCall;
  history : list Event }.

Definition set_tm x e := mkEm x (sinks_ e) (watch_fds_ e) (pending_writes_ e) (flushing e) (ring e) (mb_state e) (defer_next_ e) (defer_run_ e) (owned_ e) (shutting_down_ e) (shutdown_deadline_ e) (spin_until_ e) (blocked_ e) (stop_ e) (aborted e) (stats_ e) (boxes e) (bcalls e) (history e).
Definition set_sinks x e := mkEm (tm e) x (watch_fds_ e) (pending_writes_ e) (flushing e) (ring e) (mb_state e) (defer_next_ e) (defer_run_ e) (owned_ e) (shutting_down_ e) (shutdown_deadline_ e) (spin_until_ e) (blocked_ e) (stop_ e) (aborted e) (stats_ e) (boxes e) (bcalls e) (history e).
Definition set_watch x e := mkEm (tm e) (sinks_ e) x (pending_writes_ e) (flushing e) (ring e) (mb_state e) (defer_next_ e) (defer_run_ e) (owned_ e) (shutting_down_ e) (shutdown_deadline_ e) (spin_until_ e) (blocked_ e) (stop_ e) (aborted e) (stats_ e) (boxes e) (bcalls e) (history e).
Definition set_pending x e := mkEm (tm e) (sinks_ e) (watch_fds_ e) x (flushing e) (ring e) (mb_state e) (defer_next_ e) (defer_run_ e) (owned_ e) (shutting_down_ e) (shutdown_deadline_ e) (spin_until_ e) (blocked_ e) (stop_ e) (aborted e) (stats_ e) (boxes e) (bcalls e) (history e).
Definition set_flushing x e := mkEm (tm e) (sinks_ e) (watch_fds_ e) (pending_writes_ e) x (ring e) (mb_state e) (defer_next_ e) (defer_run_ e) (owned_ e) (shutting_down_ e) (shutdown_deadline_ e) (spin_until_ e) (blocked_ e) (stop_ e) (aborted e) (stats_ e) (boxes e) (bcalls e) (history e).
Definition set_ring x e := mkEm (tm e) (sinks_ e) (watch_fds_ e) (pending_writes_ e) (flushing e) x (mb_state e) (defer_next_ e) (defer_run_ e) (owned_ e) (shutting_down_ e) (shutdown_deadline_ e) (spin_until_ e) (blocked_ e) (stop_ e) (aborted e) (stats_ e) (boxes e) (bcalls e) (history e).
Definition set_mb x e := mkEm (tm e) (sinks_ e) (watch_fds_ e) (pending_writes_ e) (flushing e) (ring e) x (defer_next_ e) (defer_run_ e) (owned_ e) (shutting_down_ e) (shutdown_deadline_ e) (spin_until_ e) (blocked_ e) (stop_ e) (aborted e) (stats_ e) (boxes e) (bcalls e) (history e).
Definition set_next x e := mkEm (tm e) (sinks_ e) (watch_fds_ e) (pending_writes_ e) (flushing e) (ring e) (mb_state e) x (defer_run_ e) (owned_ e) (shutting_down_ e) (shutdown_deadline_ e) (spin_until_ e) (blocked_ e) (stop_ e) (aborted e) (stats_ e) (boxes e) (bcalls e) (history e).
Definition set_run x e := mkEm (tm e) (sinks_ e) (watch_fds_ e) (pending_writes_ e) (flushing e) (ring e) (mb_state e) (defer_next_ e) x (owned_ e) (shutting_down_ e) (shutdown_deadline_ e) (spin_until_ e) (blocked_ e) (stop_ e) (aborted e) (stats_ e) (boxes e) (bcalls e) (history e).
Definition set_shutting x e := mkEm (tm e) (sinks_ e) (watch_fds_ e) (pending_writes_ e) (flushing e) (ring e) (mb_state e) (defer_next_ e) (defer_run_ e) (owned_ e) x (shutdown_deadline_ e) (spin_until_ e) (blocked_ e) (stop_ e) (aborted e) (stats_ e) (boxes e) (bcalls e) (history e).
Definition set_deadline x e := mkEm (tm e) (sinks_ e) (watch_fds_ e) (pending_writes_ e) (flushing e) (ring e) (mb_state e) (defer_next_ e) (defer_run_ e) (owned_ e) (shutting_down_ e) x (spin_until_ e) (blocked_ e) (stop_ e) (aborted e) (stats_ e) (boxes e) (bcalls e) (history e).
Definition set_spin x e := mkEm (tm e) (sinks_ e) (watch_fds_ e) (pending_writes_ e) (flushing e) (ring e) (mb_state e) (defer_next_ e) (defer_run_ e) (owned_ e) (shutting_down_ e) (shutdown_deadline_ e) x (blocked_ e) (stop_ e) (aborted e) (stats_ e) (boxes e) (bcalls e) (history e).
Definition set_blocked x e := mkEm (tm e) (sinks_ e) (watch_fds_ e) (pending_writes_ e) (flushing e) (ring e) (mb_state e) (defer_next_ e) (defer_run_ e) (owned_ e) (shutting_down_ e) (shutdown_deadline_ e) (spin_until_ e) x (stop_ e) (aborted e) (stats_ e) (boxes e) (bcalls e) (history e).
Definition set_stop x e := mkEm (tm e) (sinks_ e) (watch_fds_ e) (pending_writes_ e) (flushing e) (ring e) (mb_state e) (defer_next_ e) (defer_run_ e) (owned_ e) (shutting_down_ e) (shutdown_deadline_ e) (spin_until_ e) (blocked_ e) x (aborted e) (stats_ e) (boxes e) (bcalls e) (history e).
Definition set_aborted x e := mkEm (tm e) (sinks_ e) (watch_fds_ e) (pending_writes_ e) (flushing e) (ring e) (mb_state e) (defer_next_ e) (defer_run_ e) (owned_ e) (shutting_down_ e) (shutdown_deadline_ e) (spin_until_ e) (blocked_ e) (stop_ e) x (stats_ e) (boxes e) (bcalls e) (history e).
Definition set_stats x e := mkEm (tm e) (sinks_ e) (watch_fds_ e) (pending_writes_ e) (flushing e) (ring e) (mb_state e) (defer_next_ e) (defer_run_ e) (owned_ e) (shutting_down_ e) (shutdown_deadline_ e) (spin_until_ e) (blocked_ e) (stop_ e) (aborted e) x (boxes e) (bcalls e) (history e).
Definition set_boxes x e := mkEm (tm e) (sinks_ e) (watch_fds_ e) (pending_writes_ e) (flushing e) (ring e) (mb_state e) (defer_next_ e) (defer_run_ e) (owned_ e) (shutting_down_ e) (shutdown_deadline_ e) (spin_until_ e) (blocked_ e) (stop_ e) (aborted e) (stats_ e) x (bcalls e) (history e).
Definition set_bcalls x e := mkEm (tm e) (sinks_ e) (watch_fds_ e) (pending_writes_ e) (flushing e) (ring e) (mb_state e) (defer_next_ e) (defer_run_ e) (owned_ e) (shutting_down_ e) (shutdown_deadline_ e) (spin_until_ e) (blocked_ e) (stop_ e) (aborted e) (stats_ e) (boxes e) x (history e).
Definition set_history x e := mkEm (tm e) (sinks_ e) (watch_fds_ e) (pending_writes_ e) (flushing e) (ring e) (mb_state e) (defer_next_ e) (defer_run_ e) (owned_ e) (shutting_down_ e) (shutdown_deadline_ e) (spin_until_ e) (blocked_ e) (stop_ e) (aborted e) (stats_ e) (boxes e) (bcalls e) x.

(** [++stats_.x] *)
Definition count_iteration e := let s := stats_ e in set_stats (mkLStats (u64 (iterations s + 1)) (idle_iterations s) (spins s) (blocks s) (wakeups s) (mailbox_pushes s) (mailbox_pops s) (mailbox_full s) (deadline_expired_before_start s) (callback_errors s)) e.
Definition count_idle e := let s := stats_ e in set_stats (mkLStats (iterations s) (u64 (idle_iterations s + 1)) (spins s) (blocks s) (wakeups s) (mailbox_pushes s) (mailbox_pops s) (mailbox_full s) (deadline_expired_before_start s) (callback_errors s)) e.
Definition count_spin e := let s := stats_ e in set_stats (mkLStats (iterations s) (idle_iterations s) (u64 (spins s + 1)) (blocks s) (wakeups s) (mailbox_pushes s) (mailbox_pops s) (mailbox_full s) (deadline_expired_before_start s) (callback_errors s)) e.
Definition count_block e := let s := stats_ e in set_stats (mkLStats (iterations s) (idle_iterations s) (spins s) (u64 (blocks s + 1)) (wakeups s) (mailbox_pushes s) (mailbox_pops s) (mailbox_full s) (deadline_expired_before_start s) (callback_errors s)) e.
Definition count_wakeup e := let s := stats_ e in set_stats (mkLStats (iterations s) (idle_iterations s) (spins s) (blocks s) (u64 (wakeups s + 1)) (mailbox_pushes s) (mailbox_pops s) (mailbox_full s) (deadline_expired_before_start s) (callback_errors s)) e.
Definition count_push e := let s := stats_ e in set_stats (mkLStats (iterations s) (idle_iterations s) (spins s) (blocks s) (wakeups s) (u64 (mailbox_pushes s + 1)) (mailbox_pops s) (mailbox_full s) (deadline_expired_before_start s) (callback_errors s)) e.
Definition count_pop e := let s := stats_ e in set_stats (mkLStats (iterations s) (idle_iterations s) (spins s) (blocks s) (wakeups s) (mailbox_pushes s) (u64 (mailbox_pops s + 1)) (mailbox_full s) (deadline_expired_before_start s) (callback_errors s)) e.
Definition count_full e := let s := stats_ e in set_stats (mkLStats (iterations s) (idle_iterations s) (spins s) (blocks s) (wakeups s) (mailbox_pushes s) (mailbox_pops s) (u64 (mailbox_full s + 1)) (deadline_expired_before_start s) (callback_errors s)) e.
Definition count_expired e := let s := stats_ e in set_stats (mkLStats (iterations s) (idle_iterations s) (spins s) (blocks s) (wakeups s) (mailbox_pushes s) (mailbox_pops s) (mailbox_full s) (u64 (deadline_expired_before_start s + 1)) (callback_errors s)) e.
Definition count_error e := let s := stats_ e in set_stats (mkLStats (iterations s) (idle_iterations s) (spins s) (blocks s) (wakeups s) (mailbox_pushes s) (mailbox_pops s) (mailbox_full s) (deadline_expired_before_start s) (u64 (callback_errors s + 1))) e.

Definition log (ev : Event) (e : Em) : Em := set_history (history e ++ [ev]) e.
Definition now_ (e : Em) : Z := Timers.now_ (tm e).
Definition ctx_ (e : Em) : option Context := Timers.ctx_ (tm e).
Definition set_ctx (c : option Context) (e : Em) : Em := set_tm (Timers.set_ctx c (tm e)) e.
Definition backend_call (b : BackendCall) (e : Em) : Em := set_bcalls (bcalls e ++ [b]) e.

#[global] Instance Loop_wheel : Wheel.HasWheel Em := {|
  Wheel.wheel_of e := Timers.wheel_ (tm e);
  Wheel.set_wheel w e := set_tm (Timers.set_wheel_ w (tm e)) e;
  Wheel.wheel_of_set w e := eq_refl;
|}.
#[global] Instance Loop_heap : Heap.HasHeap Em := {|
  Heap.heap_of e := Timers.heap_ (tm e);
  Heap.set_heap h e := set_tm (Timers.set_heap_ h (tm e)) e;
  Heap.heap_of_set h e := eq_refl;
|}.

(** The calls application code makes on its event manager; [begin_shutdown], which
    itself runs the hooks of the owned objects, is apart. *)
Inductive PlainCall :=
  | CDefer (t : Z)
  | CPost (t : Z)
  | CNote (h : Handle)
  | CRegister (o : Z) (td : bool) (c : option Context)
  | CRelease (h : Handle)
  | CWatch (fd : Z) (i : Interest) (f : Z)
  | CModify (h : Handle) (i : Interest)
  | CUnwatch (h : Handle)
  | CTimer (o : TOp)
  | CStop.
Inductive Call := Plain (c : PlainCall) | CShutdown (dl : Z).

Section App.
Context (cfg : EventManagerConfig)
        (attach_result : list BackendCall -> Result unit)
        (react : list Event -> list Call)
        (throws : list Event -> bool)
        (hook_calls : list Event -> list PlainCall)
        (drained : Z -> list Event -> bool).

(** ** Work *)

Definition defer (t : Z) (e : Em) : Em := log (EvDefer t) (set_next (defer_next_ e ++ [t]) e).

(** [MpscRing::try_push], and [post] with the overflow policy [Fail], the default
    (Mailbox.v has the others): the item carries the ambient context, and a blocked loop is woken. *)
Definition try_push (it : PostedItem) (e : Em) : option Em :=
  if (length (ring e) <? mailbox_capacity cfg)%nat
  then Some (log (EvPosted it) (set_ring (ring e ++ [it]) e))
  else None.
Definition post_wake (e : Em) : Em :=
  let e := count_push e in
  match mb_state e with Blocked => backend_call BWake e | Running => e end.
Definition post_full (e : Em) : Em := count_full e.
Definition post (t : Z) (e : Em) : Em :=
  match try_push (mkItem t (default empty_ctx (ctx_ e))) e with
  | Some e => post_wake e
  | None => post_full e
  end.

(** ** Sinks *)

Definition key_of (h : Handle) : Z := Z.lor (Z.shiftl (Z.of_nat (idx h)) 32) (gen h).
Definition tag_of (h : Handle) (k : OpKind) : UserData := ud_make (op_code k) (Z.of_nat (idx h)) (gen h).

Definition register_sink (o : Z) (td : bool) (c : option Context) (e : Em) : Handle * Em :=
  let '(h, t) := emplace (mkSink o td None c false) (sinks_ e) in (h, set_sinks t e).

(** [if (s && s->teardown) s->teardown(s->obj);]: for a watch it frees the box. *)
Definition run_teardown (h : Handle) (e : Em) : Em :=
  match get h (sinks_ e) with
  | Some s =>
      if teardown s then
        let e := match boxed s with
                 | Some b => set_boxes (filter (fun x => x <> b) (boxes e)) e
                 | None => e
                 end in
        log (EvTeardown (obj s)) e
      else e
  | None => e
  end.

(** [sinks_.release], which has no effect on a handle that is not live. *)
Definition release (h : Handle) (e : Em) : Em :=
  match get h (sinks_ e) with
  | Some _ => log (EvReleased h) (set_sinks (Handles.release h (sinks_ e)) e)
  | None => e
  end.

Definition release_sink (h : Handle) (e : Em) : Em := release h (run_teardown h e).

Definition note_write_pending (h : Handle) (e : Em) : Em :=
  match get h (sinks_ e) with
  | Some s =>
      if write_pending s then e
      else log (EvNote h)
             (set_pending (pending_writes_ e ++ [h]) (set_sinks (update h (set_write_pending true) (sinks_ e)) e))
  | None => e
  end.

(** A fresh address for an allocation. *)
Definition new_box (e : Em) : Z := fresh (list_to_set (boxes e) : gset Z).

Definition watch (fd : Z) (i : Interest) (f : Z) (e : Em) : Result Handle * Em :=
  let box := new_box e in
  let e := set_boxes (boxes e ++ [box]) e in
  let '(h, t) := emplace (mkSink f true (Some box) (ctx_ e) false) (sinks_ e) in
  let e := set_sinks t e in
  let e := backend_call (BAttach fd i (tag_of h OpWatch)) e in
  match attach_result (bcalls e) with
  | Bad err => (Bad err, release h e)
  | Val _ => (Val h, set_watch (<[key_of h := fd]> (watch_fds_ e)) e)
  end.

Definition modify (h : Handle) (i : Interest) (e : Em) : Result unit * Em :=
  match watch_fds_ e !! key_of h with
  | None => (Bad (make_error Internal NotFound), e)
  | Some fd =>
      let e := backend_call (BModify fd i (tag_of h OpWatch)) e in
      (attach_result (bcalls e), e)
  end.

Definition unwatch (h : Handle) (e : Em) : Em :=
  let e := match watch_fds_ e !! key_of h with
           | Some fd => set_watch (delete (key_of h) (watch_fds_ e)) (backend_call (BDetach fd) e)
           | None => e
           end in
  release_sink h e.

Definition stop (e : Em) : Em := backend_call BWake (set_stop true e).

Definition exec_plain (c : PlainCall) (e : Em) : Em :=
  match c with
  | CDefer t => defer t e
  | CPost t => post t e
  | CNote h => note_write_pending h e
  | CRegister o td c => snd (register_sink o td c e)
  | CRelease h => release_sink h e
  | CWatch fd i f => snd (watch fd i f e)
  | CModify h i => snd (modify h i e)
  | CUnwatch h => unwatch h e
  | CTimer o => set_tm (Timers.exec_op o (tm e)) e
  | CStop => stop e
  end.

(** ** Shutdown *)

(** One of [ShutdownHooks] of every owned object, in the order they were added. *)
Definition run_hook (ev : Event) (e : Em) : Em :=
  let e := log ev e in foldl (fun e c => exec_plain c e) e (hook_calls (history e)).
Definition hooks (f : Z -> Event) (e : Em) : Em := foldl (fun e o => run_hook (f o) e) e (owned_ e).

Definition drain_step (e : Em) : Em :=
  let all := forallb (fun o => drained o (history e)) (owned_ e) in
  if all || (shutdown_deadline_ e <=? now_ e) then stop (hooks EvHalfClose e)
  else set_tm (snd (Timers.after 1000000 DrainFn null_handle (tm e))) e.

Definition begin_shutdown (dl : Z) (e : Em) : Em :=
  if shutting_down_ e then e
  else
    let e := set_shutting true e in
    let e := hooks EvBegin e in
    let e := hooks EvNotify e in
    drain_step (set_deadline dl e).

Definition exec_call (c : Call) (e : Em) : Em :=
  match c with Plain c => exec_plain c e | CShutdown dl => begin_shutdown dl e end.
Definition exec_calls (cs : list Call) (e : Em) : Em := foldl (fun e c => exec_call c e) e cs.

(** ** Callbacks *)

(** A callback runs: it is in the history, then its calls happen. *)
Definition invoke (ev : Event) (e : Em) : Em :=
  let e := log ev e in exec_calls (react (history e)) e.

Definition invoke_guarded (ev : Event) (e : Em) : Em :=
  let threw := throws (history e ++ [ev]) in
  let e := invoke ev e in
  if threw then
    let e := count_error e in
    match on_callback_error cfg with Terminate => set_aborted true e | _ => e end
  else e.

(** [run_guarded]: under the given context, which is replaced by the previous one
    afterwards. *)
Definition run_guarded (c : option Context) (ev : Event) (e : Em) : Em :=
  let saved := ctx_ e in
  set_ctx saved (invoke_guarded ev (set_ctx c e)).

(** ** The stages *)

Fixpoint drain_mailbox (n : nat) (e : Em) : bool * Em :=
  match n with
  | O => (false, e)
  | S n =>
      match ring e with
      | [] => (false, e)
      | it :: r =>
          let e := count_pop (set_ring r e) in
          let e := if expired (now_ e) (deadline (ictx it))
                   then log (EvShed it) (count_expired e)
                   else run_guarded (Some (ictx it)) (EvTask it) e in
          (true, snd (drain_mailbox n e))
      end
  end.

(** The callback of a timer, under the timer's context. *)
Definition run_timer (c : option Context) (f : option TimerFn) (tc : Timers.TimerCtx) (e : Em) : Em :=
  match f with
  | Some DrainFn =>
      let saved := ctx_ e in
      set_ctx saved (drain_step (log (EvTimer f tc) (set_ctx c e)))
  | _ => run_guarded c (EvTimer f tc) e
  end.

Definition upd_tm (f : TEm -> TEm) (e : Em) : Em := set_tm (f (tm e)) e.

(** [fire_timer], with the parts of TimerService.v before and after the callback. *)
Definition fire_timer (h : Handle) (e : Em) : Em :=
  match get h (Timers.timers_ (tm e)) with
  | None => upd_tm Timers.set_dangling e
  | Some n =>
      if Timers.cancelled n then upd_tm (Timers.push_dead (Timers.id n)) e
      else
        let '(t, miss) := Timers.prefire h n (tm e) in
        let tc := Timers.mkTimerCtx (Timers.id n) (Timers.expiry n) (Timers.now_ t) miss in
        let e := set_tm (Timers.set_stats (Timers.count_fired (Timers.stats_ t)) t) e in
        let e := run_timer (Timers.ctx n) (Timers.fn n) tc e in
        match get h (Timers.timers_ (tm e)) with
        | None => upd_tm Timers.set_dangling e
        | Some n2 => upd_tm (Timers.postfire h n n2) e
        end
  end.

(** Whether a timer fired in the stage: the history tells.  The nodes the wheel and
    the heap hold are not cancelled (TimerService.v), so that one which is cancelled
    when its turn comes was cancelled by a timer that fired before it. *)
Definition is_timer (ev : Event) : bool := match ev with EvTimer _ _ => true | _ => false end.

Definition expire_timers (fuel : nat) (e : Em) : bool * Em :=
  let e1 := Wheel.advance (fun x => fire_timer (Wheel.node_id x))
              (Wheel.floor_tick (Timers.wheel_ (tm e)) (now_ e)) e in
  let e2 := Heap.expire (fun x => fire_timer (Heap.hid x)) fuel (now_ e1) e1 in
  (negb (count_if is_timer (history e2) =? count_if is_timer (history e))%nat, e2).

Definition next_deadline_timeout (e : Em) : Z :=
  let t := tm e in
  let nd := match Heap.top (Timers.heap_ t) with Some n => Some (Heap.expiry n) | None => None end in
  let nd := if Wheel.count_ (Timers.wheel_ t) =? 0 then nd
            else
              let w := (Wheel.now_tick_ (Timers.wheel_ t) + 1) * Wheel.tick_ (Timers.wheel_ t) in
              match nd with Some x => if w <? x then Some w else nd | None => Some w end in
  match nd with
  | None => 24 * 3600 * 10 ^ 9
  | Some x => if now_ e <? x then x - now_ e else 0
  end.

(** [next_wakeup]; [None] is [TimePoint::max()]. *)
Definition next_wakeup (clock : Z) (e : Em) : option Z * Em :=
  let e := upd_tm (Timers.set_now clock) e in
  let t := tm e in
  let nd := match Heap.top (Timers.heap_ t) with Some n => Some (Heap.expiry n) | None => None end in
  (if Wheel.count_ (Timers.wheel_ t) =? 0 then nd
   else
     let w := Wheel.next_due_tick (Timers.wheel_ t) * Wheel.tick_ (Timers.wheel_ t) in
     Some (match nd with Some x => Z.min x w | None => w end), e).

(** [wait_timeout]; [late] are the items other threads push between the first look
    at the ring and the second. *)
Definition arrive (its : list PostedItem) (e : Em) : Em :=
  foldl (fun e it => default e (try_push it e)) e its.

Definition nonempty {A} (l : list A) : bool := match l with [] => false | _ => true end.

Definition wait_timeout (late : list PostedItem) (e : Em) : Z * Em :=
  let may_block := match wait cfg with
                   | Spin => false
                   | Block => true
                   | SpinThenBlock => spin_until_ e <=? now_ e
                   end in
  let may_block := may_block && negb (nonempty (defer_next_ e)) in
  let may_block := may_block && negb (nonempty (ring e)) in
  let may_block := may_block && negb (nonempty (pending_writes_ e)) in
  let e := if may_block then set_mb Blocked e else e in
  let e := arrive late e in
  if may_block then
    if nonempty (ring e) then (0, set_mb Running e)
    else
      let e := count_block e in
      let t := next_deadline_timeout e in
      ((if t <? 0 then 0 else t), set_blocked true e)
  else (0, count_spin e).

Definition dispatch_one (c : Completion) (e : Em) : Em :=
  let h := mkHandle (Z.to_nat (ud_slot (user c))) (ud_gen (user c)) in
  match get h (sinks_ e) with
  | None => e
  | Some s => run_guarded (sctx s) (EvCompletion h (obj s) c) e
  end.
Definition dispatch_completions (cs : list Completion) (e : Em) : Em :=
  foldl (fun e c => dispatch_one c e) e cs.

(** The loop over the batch: [n] tasks are run, the others wait for the next
    round. *)
Fixpoint run_batch (n : nat) (ts : list Z) (e : Em) : Em :=
  match ts with
  | [] => e
  | t :: ts =>
      let e := set_run ts e in
      match n with
      | O => run_batch O ts (set_next (defer_next_ e ++ [t]) e)
      | S n => run_batch n ts (run_guarded (ctx_ e) (EvDeferred t) e)
      end
  end.
Definition run_deferred (e : Em) : bool * Em :=
  match defer_next_ e with
  | [] => (false, e)
  | ts => (true, run_batch (max_defer_batch cfg) ts (set_next [] (set_run ts e)))
  end.

Fixpoint flush_loop (hs : list Handle) (e : Em) : Em :=
  match hs with
  | [] => e
  | h :: hs =>
      let e := set_flushing hs e in
      flush_loop hs
        match get h (sinks_ e) with
        | None => e
        | Some s => invoke (EvFlush h (obj s)) (set_sinks (update h (set_write_pending false) (sinks_ e)) e)
        end
  end.
Definition flush_writes (e : Em) : Em :=
  let pending := pending_writes_ e in
  flush_loop pending (set_flushing pending (set_pending [] e)).

Definition bookkeeping (worked : bool) (e : Em) : Em :=
  let worked := worked || nonempty (pending_writes_ e) in
  let e := if worked then set_spin (now_ e + spin_budget cfg) e else e in
  let e := if blocked_ e then count_wakeup (set_blocked false e) else e in
  let e := if worked then e else invoke EvIdle (count_idle e) in
  let e := invoke EvIteration e in
  let e := upd_tm Timers.reclaim_timers e in
  set_sinks (reclaim (sinks_ e)) e.

(** What an iteration meets: the clock, the items other threads have pushed by its
    start and while it prepares to wait, and what the wait reports. *)
Record Input := mkInput {
  clock : Z;
  early : list PostedItem;
  late : list PostedItem;
  completions : list Completion }.

Definition poll_once (fuel : nat) (i : Input) (e : Em) : bool * Em :=
  let e := arrive (early i) e in
  let e := count_iteration e in
  let e := upd_tm (Timers.set_now (clock i)) e in
  let '(did_mailbox, e) := drain_mailbox (max_itc_batch cfg) e in
  let '(did_timers, e) := expire_timers fuel e in
  let '(_, e) := wait_timeout (late i) e in
  let e := if blocked_ e then set_mb Running e else e in
  let e := dispatch_completions (completions i) e in
  let did_io := nonempty (completions i) in
  let '(did_defer, e) := run_deferred e in
  let e := flush_writes e in
  let worked := did_mailbox || did_timers || did_io || did_defer in
  (worked, bookkeeping worked e).

Fixpoint run (fuel : nat) (inp : list Input) (e : Em) : Em :=
  match inp with
  | [] => e
  | i :: inp => if stop_ e then e else run fuel inp (snd (poll_once fuel i e))
  end.

(** ** An iteration as a sequence of steps *)

(** What the steps below are about is the same. *)
Definition same_work (e e' : Em) : Prop :=
  sinks_ e' = sinks_ e /\ pending_writes_ e' = pending_writes_ e /\ flushing e' = flushing e /\
  ring e' = ring e /\ defer_next_ e' = defer_next_ e /\ defer_run_ e' = defer_run_ e /\ history e' = history e.

(** Entries that say nothing of tasks, completions, flushes and releases. *)
Definition plain_event (ev : Event) : bool :=
  match ev with
  | EvTimer _ _ | EvTeardown _ | EvIdle | EvIteration | EvBegin _ | EvNotify _ | EvHalfClose _ => true
  | _ => false
  end.

(** What a call may do. *)
Inductive cstep (e : Em) : Em -> Prop :=
  | c_other e' : same_work e e' -> cstep e e'
  | c_event ev : plain_event ev = true -> cstep e (log ev e)
  | c_defer t : cstep e (defer t e)
  | c_push it e' : try_push it e = Some e' -> cstep e e'
  | c_register s : write_pending s = false -> cstep e (set_sinks (emplace s (sinks_ e)).2 e)
  | c_release h : cstep e (release h e)
  | c_note h : cstep e (note_write_pending h e).

(** What the loop itself does. *)
Inductive lstep (e : Em) : Em -> Prop :=
  | l_call e' : cstep e e' -> lstep e e'
  | l_pop it r ev : ring e = it :: r -> ev = EvTask it \/ ev = EvShed it -> lstep e (log ev (set_ring r e))
  | l_complete h s c : get h (sinks_ e) = Some s -> lstep e (log (EvCompletion h (obj s) c) e)
  | l_batch : defer_run_ e = [] -> lstep e (set_next [] (set_run (defer_next_ e) e))
  | l_run t ts : defer_run_ e = t :: ts -> lstep e (log (EvDeferred t) (set_run ts e))
  | l_later t ts : defer_run_ e = t :: ts -> lstep e (set_next (defer_next_ e ++ [t]) (set_run ts e))
  | l_collect : flushing e = [] -> lstep e (set_flushing (pending_writes_ e) (set_pending [] e))
  | l_skip h hs : flushing e = h :: hs -> get h (sinks_ e) = None -> lstep e (set_flushing hs e)
  | l_flush h hs s : flushing e = h :: hs -> get h (sinks_ e) = Some s ->
      lstep e (log (EvFlush h (obj s)) (set_sinks (update h (set_write_pending false) (sinks_ e)) (set_flushing hs e)))
  | l_reclaim : lstep e (set_sinks (reclaim (sinks_ e)) e).

Lemma c_same e e' e'' : cstep e e' -> same_work e' e'' -> rtc cstep e e''.
Proof. intros H1 H2. eapply rtc_l; [exact H1|]. apply rtc_once. by apply c_other. Qed.
Lemma c_only e e' : same_work e e' -> rtc cstep e e'.
Proof. intros H. apply rtc_once. by apply c_other. Qed.
Lemma l_calls e e' : rtc cstep e e' -> rtc lstep e e'.
Proof. intros H. eapply rtc_subrel; [|exact H]. intros x y. by constructor. Qed.
Lemma l_only e e' : same_work e e' -> rtc lstep e e'.
Proof. intros H. by apply l_calls, c_only. Qed.

(** Calls leave the loop's two running lists alone. *)
Lemma csteps_keep e e' : rtc cstep e e' -> defer_run_ e' = defer_run_ e /\ flushing e' = flushing e.
Proof.
  induction 1 as [|e1 e2 e3 H _ [IH1 IH2]]; [done|]. rewrite IH1, IH2. destruct H; try done.
  - by destruct H as (_&_&?&_&_&?&_).
  - unfold try_push in H. destruct (_ <? _)%nat; [|done]. by simplify_eq.
  - unfold release. by destruct (get h _).
  - unfold note_write_pending. by destruct (get h _) as [[? ? ? ? []]|].
Qed.

(** Between iterations both running lists are empty. *)
Definition at_rest (e : Em) : Prop := defer_run_ e = [] /\ flushing e = [].

Lemma foldl_rtc {A B} (R : A -> A -> Prop) (f : A -> B -> A) l a :
  (forall a b, rtc R a (f a b)) -> rtc R a (foldl f a l).
Proof. intros Hf. revert a. induction l as [|b l IH]; intros a; simpl; [done|]. etrans; [apply Hf|apply IH]. Qed.

Lemma release_sink_steps h e : rtc cstep e (release_sink h e).
Proof.
  unfold release_sink. etrans; [|apply rtc_once, c_release].
  unfold run_teardown. destruct (get h (sinks_ e)) as [s|]; [|done]. destruct (teardown s); [|done].
  destruct (boxed s); [|by apply rtc_once, c_event].
  etrans; [|by apply rtc_once, c_event]. by apply c_only.
Qed.

Lemma exec_plain_steps c e : rtc cstep e (exec_plain c e).
Proof.
  destruct c; simpl.
  - apply rtc_once, c_defer.
  - unfold post. destruct (try_push _ e) as [e1|] eqn:E; [|by apply c_only].
    eapply c_same; [by eapply c_push|]. unfold post_wake. by destruct (mb_state _).
  - apply rtc_once, c_note.
  - unfold register_sink. destruct (emplace _ _) as [h t] eqn:E. simpl.
    replace t with (emplace (mkSink o td None c false) (sinks_ e)).2 by (by rewrite E). by apply rtc_once, c_register.
  - apply release_sink_steps.
  - unfold watch. destruct (emplace _ _) as [h t] eqn:E. 
    change (emplace (mkSink f true (Some (new_box e)) (ctx_ e) false) (sinks_ e) = (h, t)) in E.
    set (e1 := set_boxes _ e). set (e2 := backend_call _ _).
    assert (rtc cstep e e2) as H.
    { etrans; [by apply (c_only e e1)|].
      eapply c_same; [apply (c_register e1 (mkSink f true (Some (new_box e)) (ctx_ e) false)); done|].
      change (sinks_ e1) with (sinks_ e). by rewrite E. }
    destruct (attach_result _); simpl; [etrans; [exact H|by apply c_only]|].
    etrans; [exact H|]. apply rtc_once, c_release.
  - unfold modify. destruct (_ !! _); [by apply c_only|done].
  - unfold unwatch. destruct (_ !! _); [|apply release_sink_steps].
    etrans; [|apply release_sink_steps]. by apply c_only.
  - by apply c_only.
  - by apply c_only.
Qed.

Lemma hooks_steps f e : (forall o, plain_event (f o) = true) -> rtc cstep e (hooks f e).
Proof.
  intros Hf. apply foldl_rtc. intros a o. unfold run_hook. etrans; [by apply rtc_once, c_event|].
  apply foldl_rtc. intros. apply exec_plain_steps.
Qed.

Lemma drain_step_steps e : rtc cstep e (drain_step e).
Proof.
  unfold drain_step. destruct (_ || _); [|by apply c_only].
  etrans; [by apply (hooks_steps EvHalfClose)|by apply c_only].
Qed.

Lemma exec_calls_steps cs e : rtc cstep e (exec_calls cs e).
Proof.
  apply foldl_rtc. intros a [c|dl]; simpl; [apply exec_plain_steps|].
  unfold begin_shutdown. destruct (shutting_down_ a); [done|]. cbv zeta.
  etrans; [by apply (c_only a (set_shutting true a))|]. etrans; [by apply (hooks_steps EvBegin)|].
  etrans; [by apply (hooks_steps EvNotify)|]. set (e1 := hooks EvNotify _).
  etrans; [by apply (c_only e1 (set_deadline dl e1))|]. apply drain_step_steps.
Qed.

(** A callback is its entry in the history and then calls. *)
Lemma run_guarded_steps c ev e : rtc cstep (log ev e) (run_guarded c ev e).
Proof.
  unfold run_guarded, invoke_guarded, invoke.
  etrans; [by apply (c_only _ (log ev (set_ctx c e)))|].
  etrans; [apply (exec_calls_steps (react (history (log ev (set_ctx c e)))))|].
  destruct (throws _); [|by apply c_only]. by destruct (on_callback_error cfg); apply c_only.
Qed.

Lemma invoke_steps ev e : rtc cstep (log ev e) (invoke ev e).
Proof. apply exec_calls_steps. Qed.

Lemma run_timer_steps c f tc e : rtc cstep e (run_timer c f tc e).
Proof.
  unfold run_timer. destruct f as [[f|]|].
  - etrans; [|apply run_guarded_steps]. by apply rtc_once, c_event.
  - etrans; [by apply (c_only _ (set_ctx c e))|].
    etrans; [by apply rtc_once, (c_event (set_ctx c e) (EvTimer (Some DrainFn) tc))|].
    etrans; [apply drain_step_steps|by apply c_only].
  - etrans; [|apply run_guarded_steps]. by apply rtc_once, c_event.
Qed.

Lemma fire_timer_steps h e : rtc cstep e (fire_timer h e).
Proof.
  unfold fire_timer. destruct (get h _) as [n|]; [|by apply c_only]. destruct (Timers.cancelled n); [by apply c_only|].
  destruct (Timers.prefire h n (tm e)) as [t miss]. cbv zeta. set (e1 := set_tm _ e).
  set (e2 := run_timer _ _ _ e1). etrans; [by apply (c_only e e1)|].
  transitivity e2; [apply run_timer_steps|]. by destruct (get h (Timers.timers_ (tm e2))); apply c_only.
Qed.

Lemma expire_timers_steps fuel e : rtc cstep e (snd (expire_timers fuel e)).
Proof.
  unfold expire_timers. cbv zeta. cbn [snd]. set (e1 := Wheel.advance _ _ e).
  assert (rtc cstep e e1) as H1.
  { apply (Wheel.advance_invariant _ (rtc cstep)); [intros; by apply c_only|intros; apply fire_timer_steps]. }
  etrans; [exact H1|]. apply (Heap.expire_invariant _ (rtc cstep)); [intros; by apply c_only|intros; apply fire_timer_steps].
Qed.

Lemma arrive_steps its e : rtc cstep e (arrive its e).
Proof.
  apply foldl_rtc. intros a it. destruct (try_push it a) as [a'|] eqn:E; [|done]. by apply rtc_once, (c_push a it).
Qed.

Lemma drain_mailbox_steps n e : rtc lstep e (snd (drain_mailbox n e)).
Proof.
  revert e. induction n as [|n IH]; intros e; simpl; [done|]. destruct (ring e) as [|it r] eqn:Er; [done|].
  cbn [snd]. etrans; [|apply IH]. destruct (expired _ _).
  - eapply rtc_l; [apply (l_pop e it r (EvShed it)); auto|]. by apply l_only.
  - eapply rtc_l; [apply (l_pop e it r (EvTask it)); auto|]. set (e1 := count_pop (set_ring r e)).
    etrans; [by apply (l_only _ (log (EvTask it) e1))|]. apply l_calls, run_guarded_steps.
Qed.

Lemma drain_mailbox_rest n e : at_rest e -> at_rest (snd (drain_mailbox n e)).
Proof.
  revert e. induction n as [|n IH]; intros e R; simpl; [done|]. destruct (ring e) as [|it r]; [done|].
  cbn [snd]. apply IH. destruct (expired _ _); [done|]. set (e1 := count_pop (set_ring r e)).
  destruct (csteps_keep _ _ (run_guarded_steps (Some (ictx it)) (EvTask it) e1)) as [K1 K2].
  destruct R. split; [by rewrite K1|by rewrite K2].
Qed.

Lemma wait_timeout_steps its e : rtc cstep e (snd (wait_timeout its e)).
Proof.
  unfold wait_timeout. cbv zeta. set (b := _ && _ && _ && _). clearbody b.
  set (e1 := if b then set_mb Blocked e else e).
  assert (rtc cstep e (arrive its e1)) as H.
  { etrans; [|apply arrive_steps]. subst e1. destruct b; [by apply c_only|done]. }
  destruct b; [|etrans; [exact H|by apply c_only]].
  destruct (nonempty _); (etrans; [exact H|by apply c_only]).
Qed.

Lemma dispatch_steps cs e : rtc lstep e (dispatch_completions cs e).
Proof.
  apply foldl_rtc. intros a c. unfold dispatch_one. set (h := mkHandle _ _).
  destruct (get h (sinks_ a)) as [s|] eqn:E; [|done].
  eapply rtc_l; [by apply (l_complete a h s c)|]. apply l_calls, run_guarded_steps.
Qed.

Lemma dispatch_rest cs e : at_rest e -> at_rest (dispatch_completions cs e).
Proof.
  intros R. unfold dispatch_completions. apply (foldl_keeps _ at_rest); [|done]. intros a c _ Ra. unfold dispatch_one. set (h := mkHandle _ _).
  destruct (get h (sinks_ a)) as [s|]; [|done].
  destruct (csteps_keep _ _ (run_guarded_steps (sctx s) (EvCompletion h (obj s) c) a)) as [K1 K2].
  destruct Ra. split; [by rewrite K1|by rewrite K2].
Qed.

Lemma run_batch_steps ts n e :
  defer_run_ e = ts -> rtc lstep e (run_batch n ts e) /\
  defer_run_ (run_batch n ts e) = [] /\ flushing (run_batch n ts e) = flushing e.
Proof.
  revert n e. induction ts as [|t ts IH]; intros n e Hr; simpl; [done|]. destruct n as [|n].
  - set (e1 := set_next _ _). destruct (IH O e1 eq_refl) as (H1&H2&H3). split; [|done].
    eapply rtc_l; [|exact H1]. by apply (l_later e t ts).
  - set (e1 := log (EvDeferred t) (set_run ts e)).
    set (e2 := run_guarded _ _ (set_run ts e)).
    assert (rtc cstep e1 e2) as Hc by apply run_guarded_steps.
    destruct (csteps_keep _ _ Hc) as [K1 K2]. destruct (IH n e2 K1) as (H1&H2&H3).
    split; [|split; [done|by rewrite H3, K2]]. eapply rtc_l; [by apply (l_run e t ts)|].
    etrans; [by apply l_calls, Hc|exact H1].
Qed.

Lemma run_deferred_steps e :
  defer_run_ e = [] -> rtc lstep e (snd (run_deferred e)) /\
  defer_run_ (snd (run_deferred e)) = [] /\ flushing (snd (run_deferred e)) = flushing e.
Proof.
  intros Hr. unfold run_deferred. destruct (defer_next_ e) as [|t ts] eqn:E; [done|]. cbn [snd].
  set (e1 := set_next [] _). destruct (run_batch_steps (t :: ts) (max_defer_batch cfg) e1 eq_refl) as (H1&H2&H3).
  split; [|done]. eapply rtc_l; [apply (l_batch e Hr)|]. by rewrite E.
Qed.

Lemma flush_loop_steps hs e :
  flushing e = hs -> rtc lstep e (flush_loop hs e) /\
  flushing (flush_loop hs e) = [] /\ defer_run_ (flush_loop hs e) = defer_run_ e.
Proof.
  revert e. induction hs as [|h hs IH]; intros e Hf; simpl; [done|].
  destruct (get h (sinks_ e)) as [s|] eqn:E.
  - set (e0 := set_sinks _ _). set (e1 := log (EvFlush h (obj s)) e0). set (e2 := invoke _ e0).
    assert (rtc cstep e1 e2) as Hc by apply invoke_steps. destruct (csteps_keep _ _ Hc) as [K1 K2].
    destruct (IH e2 K2) as (H1&H2&H3). split; [|split; [done|by rewrite H3, K1]].
    eapply rtc_l; [by apply (l_flush e h hs s)|]. etrans; [by apply l_calls, Hc|exact H1].
  - set (e1 := set_flushing hs e). destruct (IH e1 eq_refl) as (H1&H2&H3). split; [|done].
    eapply rtc_l; [by apply (l_skip e h hs)|exact H1].
Qed.

Lemma flush_writes_steps e :
  flushing e = [] -> rtc lstep e (flush_writes e) /\
  flushing (flush_writes e) = [] /\ defer_run_ (flush_writes e) = defer_run_ e.
Proof.
  intros Hf. unfold flush_writes. set (e1 := set_flushing _ _).
  destruct (flush_loop_steps (pending_writes_ e) e1 eq_refl) as (H1&H2&H3). split; [|done].
  eapply rtc_l; [by apply (l_collect e)|exact H1].
Qed.

Lemma bookkeeping_steps b e :
  rtc lstep e (bookkeeping b e) /\ flushing (bookkeeping b e) = flushing e /\
  defer_run_ (bookkeeping b e) = defer_run_ e.
Proof.
  unfold bookkeeping. cbv zeta. set (w := b || _). clearbody w.
  set (e1 := if w then set_spin _ e else e). set (e2 := if blocked_ e1 then _ else e1).
  set (e3 := if w then e2 else _). set (e4 := invoke EvIteration e3). set (e5 := upd_tm _ e4).
  assert (same_work e e1) as H1 by (subst e1; by destruct w).
  assert (same_work e e2) as H2 by (subst e2; by destruct (blocked_ e1)).
  assert (rtc cstep e e4) as H4.
  { etrans; [by apply (c_only e e2)|]. transitivity e3; [subst e3; destruct w; [done|]|].
    - etrans; [by apply (c_only e2 (count_idle e2))|]. etrans; [by apply rtc_once, (c_event (count_idle e2) EvIdle)|].
      apply invoke_steps.
    - etrans; [by apply rtc_once, (c_event e3 EvIteration)|apply invoke_steps]. }
  destruct (csteps_keep _ _ H4) as [K1 K2]. split; [|by split].
  etrans; [by apply l_calls, H4|]. etrans; [by apply (l_only e4 e5)|]. apply rtc_once, l_reclaim.
Qed.

Lemma lsteps_of_csteps_rest e e' : rtc cstep e e' -> at_rest e -> rtc lstep e e' /\ at_rest e'.
Proof.
  intros H [R1 R2]. destruct (csteps_keep _ _ H) as [K1 K2]. split; [by apply l_calls|]. split; congruence.
Qed.

(** Every iteration is a sequence of the steps above. *)
Lemma poll_once_steps fuel i e :
  at_rest e -> rtc lstep e (snd (poll_once fuel i e)) /\ at_rest (snd (poll_once fuel i e)).
Proof.
  intros HR. unfold poll_once. cbv zeta. set (e1 := upd_tm _ _).
  assert (rtc lstep e e1 /\ at_rest e1) as [S1 R1].
  { apply lsteps_of_csteps_rest; [|done]. etrans; [apply arrive_steps|by apply c_only]. }
  pose proof (drain_mailbox_rest (max_itc_batch cfg) e1 R1) as R2.
  pose proof (drain_mailbox_steps (max_itc_batch cfg) e1) as S2.
  destruct (drain_mailbox (max_itc_batch cfg) e1) as [b2 e2]. cbn [snd] in S2, R2.
  pose proof (lsteps_of_csteps_rest _ _ (expire_timers_steps fuel e2) R2) as [S3 R3].
  destruct (expire_timers fuel e2) as [b3 e3]. cbn [snd] in S3, R3.
  pose proof (lsteps_of_csteps_rest _ _ (wait_timeout_steps (late i) e3) R3) as [S4 R4].
  destruct (wait_timeout (late i) e3) as [t4 e4]. cbn [snd] in S4, R4.
  set (e5 := if blocked_ e4 then _ else e4).
  assert (rtc lstep e4 e5 /\ at_rest e5) as [S5 R5].
  { apply lsteps_of_csteps_rest; [|done]. subst e5. destruct (blocked_ e4); [by apply c_only|done]. }
  pose proof (dispatch_steps (completions i) e5) as S6. pose proof (dispatch_rest (completions i) e5 R5) as R6.
  set (e6 := dispatch_completions _ e5) in *.
  pose proof (run_deferred_steps e6 (proj1 R6)) as (S7&R7&R7').
  destruct (run_deferred e6) as [b7 e7]. cbn [snd] in *.
  destruct (flush_writes_steps e7) as (S8&R8&R8'); [rewrite R7'; apply R6|].
  set (e8 := flush_writes e7) in *. set (w := b2 || _ || _ || _).
  destruct (bookkeeping_steps w e8) as (S9&R9&R9').
  split; [|split; congruence].
  repeat (etrans; [eassumption|]). done.
Qed.

Lemma run_steps fuel inp e : at_rest e -> rtc lstep e (run fuel inp e) /\ at_rest (run fuel inp e).
Proof.
  revert e. induction inp as [|i inp IH]; intros e R; simpl; [done|]. destruct (stop_ e); [done|].
  destruct (poll_once_steps fuel i e R) as [S1 R1]. destruct (IH _ R1) as [S2 R2]. split; [by etrans|done].
Qed.

(** ** Tasks are conserved *)

Definition posted (l : list Event) : list PostedItem := omap (fun ev => match ev with EvPosted it => Some it | _ => None end) l.
Definition handled (l : list Event) : list PostedItem :=
  omap (fun ev => match ev with EvTask it | EvShed it => Some it | _ => None end) l.
Definition deferred (l : list Event) : list Z := omap (fun ev => match ev with EvDefer t => Some t | _ => None end) l.
Definition ran (l : list Event) : list Z := omap (fun ev => match ev with EvDeferred t => Some t | _ => None end) l.

Record tasks_ok (e : Em) : Prop := {
  t_posted : posted (history e) = handled (history e) ++ ring e;
  t_room : (length (ring e) <= mailbox_capacity cfg)%nat;
  t_deferred : deferred (history e) ≡ₚ ran (history e) ++ defer_run_ e ++ defer_next_ e }.

(** An entry that is not about tasks. *)
Lemma tasks_log ev e :
  match ev with EvPosted _ | EvTask _ | EvShed _ | EvDefer _ | EvDeferred _ => false | _ => true end = true ->
  tasks_ok e -> tasks_ok (log ev e).
Proof.
  intros Hev [H1 H2 H3]. constructor; simpl; unfold posted, handled, deferred, ran in *;
    rewrite ?omap_app; destruct ev; try done; simpl; by rewrite ?app_nil_r.
Qed.

Lemma tasks_same e e' :
  ring e' = ring e -> defer_run_ e' = defer_run_ e -> defer_next_ e' = defer_next_ e -> history e' = history e ->
  tasks_ok e -> tasks_ok e'.
Proof. intros E1 E2 E3 E4 []. constructor; by rewrite ?E1, ?E2, ?E3, ?E4. Qed.

Lemma cstep_tasks e e' : cstep e e' -> tasks_ok e -> tasks_ok e'.
Proof.
  intros H T. destruct H as [e' (_&_&_&E1&E2&E3&E4)|ev Hev|t|it e' Hp|s|h|h].
  - by apply (tasks_same e).
  - apply tasks_log; [by destruct ev|done].
  - destruct T as [H1 H2 H3]. constructor; simpl; unfold posted, handled, deferred, ran in *;
      rewrite ?omap_app; simpl; rewrite ?app_nil_r; try done.
    rewrite H3. by rewrite <- !app_assoc.
  - unfold try_push in Hp. destruct (Nat.ltb_spec (length (ring e)) (mailbox_capacity cfg)); [|done].
    injection Hp as <-. destruct T as [H1 H2 H3]. constructor; simpl; unfold posted, handled, deferred, ran in *;
      rewrite ?omap_app; simpl; rewrite ?app_nil_r; try done.
    + by rewrite H1, app_assoc.
    + rewrite length_app. simpl. lia.
  - by apply (tasks_same e).
  - unfold release. destruct (get h (sinks_ e)); [|done]. apply tasks_log; [done|]. by apply (tasks_same e).
  - unfold note_write_pending. destruct (get h (sinks_ e)) as [s|]; [|done]. destruct (write_pending s); [done|].
    apply tasks_log; [done|]. by apply (tasks_same e).
Qed.

Lemma lstep_tasks e e' : lstep e e' -> tasks_ok e -> tasks_ok e'.
Proof.
  intros H T. destruct H as [e' H|it r ev Hr Hev|h s c Hg|Hr|t ts Hr|t ts Hr|Hf|h hs Hf|h hs s Hf Hg|].
  - by apply (cstep_tasks e).
  - destruct T as [H1 H2 H3]. rewrite Hr in *. constructor; simpl in *; unfold posted, handled, deferred, ran in *;
      rewrite ?omap_app; destruct Hev as [-> | ->]; simpl; rewrite ?app_nil_r; try done; try lia;
      by rewrite H1, <- app_assoc.
  - by apply tasks_log.
  - destruct T as [H1 H2 H3]. constructor; try done. simpl. rewrite Hr in H3. simpl in H3. by rewrite app_nil_r.
  - destruct T as [H1 H2 H3]. rewrite Hr in H3. constructor; simpl; unfold posted, handled, deferred, ran in *;
      rewrite ?omap_app; simpl; rewrite ?app_nil_r; try done. rewrite H3. by rewrite <- !app_assoc.
  - destruct T as [H1 H2 H3]. rewrite Hr in H3. constructor; simpl; try done. rewrite H3. solve_Permutation.
  - by apply (tasks_same e).
  - by apply (tasks_same e).
  - apply tasks_log; [done|]. by apply (tasks_same e).
  - by apply (tasks_same e).
Qed.

(** ** The table of sinks *)

Definition is_released (ev : Event) : bool := match ev with EvReleased _ => true | _ => false end.
Definition releases (l : list Event) : Z := Z.of_nat (count_if is_released l).

(** A callback of a sink runs, and a sink is released, only while it is registered. *)
Definition live_event (e : Em) (ev : Event) : Prop :=
  match ev with EvCompletion h _ _ | EvFlush h _ | EvReleased h => is_Some (get h (sinks_ e)) | _ => True end.

Definition releasing (ev : option Event) : option Handle := match ev with Some (EvReleased h) => Some h | _ => None end.
Definition released_by (o : option (op SinkEntry)) : option Handle := match o with Some (Release h) => Some h | _ => None end.

(** What a step does to the table: at most one operation of the table, which
    registers nothing with a write pending; and the entry it adds to the history,
    which is that of the release if it is one. *)
Definition table_step (e e' : Em) (o : option (op SinkEntry)) : Prop :=
  sinks_ e' = match o with Some o => apply_op o (sinks_ e) | None => sinks_ e end /\
  (exists ev, history e' = history e ++ option_list ev /\ from_option (live_event e) True ev /\ releasing ev = released_by o) /\
  match o with Some (Emplace s) => write_pending s = false | _ => True end.

Lemma table_quiet e e' o :
  sinks_ e' = match o with Some o => apply_op o (sinks_ e) | None => sinks_ e end ->
  history e' = history e -> released_by o = None ->
  match o with Some (Emplace s) => write_pending s = false | _ => True end -> table_step e e' o.
Proof. intros H1 H2 H3 H4. split; [done|]. split; [|done]. exists None. by rewrite app_nil_r. Qed.

Lemma table_event e e' o ev :
  sinks_ e' = match o with Some o => apply_op o (sinks_ e) | None => sinks_ e end ->
  history e' = history e ++ [ev] -> live_event e ev -> releasing (Some ev) = released_by o ->
  match o with Some (Emplace s) => write_pending s = false | _ => True end -> table_step e e' o.
Proof. intros H1 H2 H3 H4 H5. split; [done|]. split; [|done]. by exists (Some ev). Qed.

Lemma cstep_table e e' : cstep e e' -> exists o, table_step e e' o.
Proof.
  intros H. destruct H as [e' (E1&_&_&_&_&_&E2)|ev Hev|t|it e' Hp|s Hs|h|h].
  - exists None. by apply table_quiet.
  - exists None. by apply (table_event _ _ _ ev); destruct ev.
  - exists None. by apply (table_event _ _ _ (EvDefer t)).
  - exists None. unfold try_push in Hp. destruct (_ <? _)%nat; [|done]. injection Hp as <-.
    by apply (table_event _ _ _ (EvPosted it)).
  - exists (Some (Emplace s)). by apply table_quiet.
  - unfold release. destruct (get h (sinks_ e)) as [s|] eqn:E; [|exists None; by apply table_quiet].
    exists (Some (Release h)). apply (table_event _ _ _ (EvReleased h)); try done. by exists s.
  - unfold note_write_pending. destruct (get h (sinks_ e)) as [s|]; [|exists None; by apply table_quiet].
    destruct (write_pending s); [exists None; by apply table_quiet|].
    exists (Some (Update h (set_write_pending true))). by apply (table_event _ _ _ (EvNote h)).
Qed.

Lemma lstep_table e e' : lstep e e' -> exists o, table_step e e' o.
Proof.
  intros H. destruct H as [e' H|it r ev Hr Hev|h s c Hg|Hr|t ts Hr|t ts Hr|Hf|h hs Hf|h hs s Hf Hg|].
  - by apply cstep_table.
  - exists None. apply (table_event _ _ _ ev); try done; by destruct Hev as [-> | ->].
  - exists None. apply (table_event _ _ _ (EvCompletion h (obj s) c)); try done. by exists s.
  - exists None. by apply table_quiet.
  - exists None. by apply (table_event _ _ _ (EvDeferred t)).
  - exists None. by apply table_quiet.
  - exists None. by apply table_quiet.
  - exists None. by apply table_quiet.
  - exists (Some (Update h (set_write_pending false))). apply (table_event _ _ _ (EvFlush h (obj s))); try done. by exists s.
  - exists (Some Reclaim). by apply table_quiet.
Qed.

Definition table_len (e : Em) : Z := Z.of_nat (length (slots_ (sinks_ e))).

Lemma table_step_len e e' o : table_step e e' o -> table_len e <= table_len e'.
Proof.
  intros (E&_). unfold table_len. rewrite E. destruct o as [[s|h|h f|]|]; simpl; try lia.
  - unfold emplace. destruct (last _) as [i|].
    + destruct (_ !! i); simpl; rewrite ?length_insert; lia.
    + destruct (_ !! _); simpl; rewrite ?length_insert, ?length_app; simpl; lia.
  - unfold Handles.release. destruct (get h _); [|lia]. destruct (_ !! _); simpl; rewrite ?length_insert; lia.
  - unfold update. destruct (get h _); [|lia]. destruct (slots_ (sinks_ e) !! idx h); simpl; rewrite ?length_insert; lia.
Qed.

Lemma lsteps_len e e' : rtc lstep e e' -> table_len e <= table_len e'.
Proof.
  induction 1 as [|e1 e2 e3 H _ IH]; [lia|]. destruct (lstep_table _ _ H) as [o Ho].
  pose proof (table_step_len _ _ _ Ho). lia.
Qed.

(** The table never grew beyond the range of its indices. *)
Definition within (e : Em) : Prop := table_len e + 1 < 2 ^ 32.

Lemma table_step_ok e e' o : table_step e e' o -> within e -> match o with Some o => op_ok o (sinks_ e) | None => True end.
Proof. intros _ Hw. destruct o as [[]|]; try done. right. exact Hw. Qed.

Lemma table_step_wf e e' o : table_step e e' o -> within e -> wf (sinks_ e) -> wf (sinks_ e').
Proof.
  intros Ht Hw Hwf. pose proof (table_step_ok _ _ _ Ht Hw) as Hok. destruct Ht as (->&_).
  destruct o as [o|]; [by apply apply_op_wf|done].
Qed.

(** Induction over the steps of a run whose table stayed within its range. *)
Lemma lsteps_ind (P : Em -> Prop) e e' :
  (forall a b, lstep a b -> within a -> wf (sinks_ a) -> P a -> P b) ->
  rtc lstep e e' -> within e' -> wf (sinks_ e) -> P e -> wf (sinks_ e') /\ P e'.
Proof.
  intros Hstep Hr. induction Hr as [e|e1 e2 e3 H Hr IH]; intros Hw Hwf HP; [done|].
  assert (within e1) as Hw1.
  { unfold within in *. pose proof (lsteps_len e1 e3 ltac:(by eapply rtc_l)). lia. }
  apply IH; [done| |by apply (Hstep e1)]. destruct (lstep_table _ _ H) as [o Ho]. by apply (table_step_wf e1 e2 o).
Qed.

(** ** No flush is lost *)

(** A sink marked as having a write pending is on the list. *)
Definition marks_ok (e : Em) : Prop :=
  forall h s, get h (sinks_ e) = Some s -> write_pending s = true -> h ∈ flushing e ++ pending_writes_ e.

Lemma cstep_marks a b : cstep a b -> within a -> wf (sinks_ a) -> marks_ok a -> marks_ok b.
Proof.
  intros H Hw Hwf M. destruct H as [b (E1&E2&E3&_)|ev Hev|t|it b Hp|s Hs|h|h]; try done.
  - intros h s. rewrite E1, E2, E3. apply M.
  - unfold try_push in Hp. destruct (_ <? _)%nat; [|done]. injection Hp as <-. exact M.
  - intros h s0. simpl. rewrite emplace_get by (try done; by right). case_decide; [|apply M].
    intros [= <-]. congruence.
  - unfold release. destruct (get h (sinks_ a)); [|done]. intros h' s0. simpl. rewrite release_get by done. case_decide; [done|]. apply M.
  - unfold note_write_pending. destruct (get h (sinks_ a)) as [s|] eqn:Eg; [|done].
    destruct (write_pending s) eqn:Ew; [done|]. intros h' s'. simpl. rewrite update_get by done.
    case_decide as Hd; [intros _ _; subst; set_solver|]. intros Hg Hp. specialize (M h' s' Hg Hp). set_solver.
Qed.

Lemma lstep_marks a b : lstep a b -> within a -> wf (sinks_ a) -> marks_ok a -> marks_ok b.
Proof.
  intros H Hw Hwf M. destruct H as [b H|it r ev Hr Hev|h s c Hg|Hr|t ts Hr|t ts Hr|Hf|h hs Hf Hn|h hs s Hf Hg|]; try done.
  - by apply (cstep_marks a).
  - intros h s Hg Hp. specialize (M h s Hg Hp). simpl. rewrite Hf in M. set_solver.
  - intros h' s' Hg Hp. specialize (M h' s' Hg Hp). simpl in *. rewrite Hf in M.
    assert (h' <> h) by congruence. set_solver.
  - intros h' s'. simpl. rewrite update_get by done. case_decide as Hd.
    + rewrite Hg. simpl. intros [= <-]. done.
    + intros Hg' Hp. specialize (M h' s' Hg' Hp). rewrite Hf in M. set_solver.
Qed.

(** ** Released sinks are silent *)

(** Callbacks of the sink of a handle. *)
Definition concerns (h : Handle) (ev : Event) : bool :=
  match ev with EvCompletion h' _ _ | EvFlush h' _ => bool_decide (h' = h) | _ => false end.

(** After every release: the generation of the slot is ahead by the releases since,
    and until it has gone round no callback of the sink ran. *)
Definition silent (e : Em) : Prop :=
  forall h before since, history e = before ++ EvReleased h :: since ->
  ahead h (1 + releases since) (sinks_ e) /\
  (releases since < 2 ^ 32 - 2 -> Forall (fun ev => concerns h ev = false) since).

Lemma releases_app l k : releases (l ++ k) = releases l + releases k.
Proof. unfold releases. rewrite count_if_app. lia. Qed.

Lemma releases_step ev (o : option (op SinkEntry)) :
  releasing ev = released_by o ->
  releases (option_list ev) = match o with Some o => if is_release o then 1 else 0 | None => 0 end.
Proof. intros H. by destruct ev as [[]|], o as [[]|]. Qed.

(** A step adds at most one entry: either it is the release itself, or the release
    came before. *)
Lemma split_history {B} (l before since : list B) (ev : option B) x :
  l ++ option_list ev = before ++ x :: since ->
  (exists since', l = before ++ x :: since' /\ since = since' ++ option_list ev) \/ (ev = Some x /\ since = []).
Proof.
  destruct ev as [y|]; simpl; [|rewrite app_nil_r; intros ->; left; exists since; by rewrite app_nil_r].
  intros H. destruct since as [|z since] using rev_ind; [right|left].
  - by apply app_inj_tail in H as [_ ->].
  - rewrite app_comm_cons, app_assoc in H. apply app_inj_tail in H as [-> ->]. by exists since.
Qed.

Lemma lstep_silent a b : lstep a b -> within a -> wf (sinks_ a) -> silent a -> silent b.
Proof.
  intros H Hw Hwf Hs h before since Eb. destruct (lstep_table _ _ H) as [o Ht].
  pose proof (table_step_ok _ _ _ Ht Hw) as Hok. destruct Ht as (E&(ev&Eh&Hl&Hr)&_).
  rewrite Eh in Eb. apply split_history in Eb as [(since'&Ea&->)|[-> ->]].
  - destruct (Hs h before since' Ea) as [Ha Hq]. rewrite releases_app, (releases_step ev o Hr). split.
    + rewrite E. destruct o as [o|]; [|by rewrite Z.add_0_r]. pose proof (apply_op_ahead o h _ _ Hwf Hok Ha) as H'.
      destruct (is_release o); [by rewrite Z.add_assoc|by rewrite Z.add_0_r].
    + intros Hb. assert (releases since' < 2 ^ 32 - 2) as Hb' by (destruct o as [o|]; [destruct (is_release o)|]; lia).
      apply Forall_app. split; [by apply Hq|]. destruct ev as [ev|]; [|done]. constructor; [|done].
      assert (get h (sinks_ a) = None) as Hd.
      { apply (ahead_dead h (1 + releases since')); [done|unfold gen_cycle; lia|done]. }
      unfold concerns. destruct ev; try done; simpl in Hl; case_bool_decide; subst; try done; rewrite Hd in Hl; by destruct Hl.
  - split; [|done]. rewrite E. destruct o as [[]|]; try done. simpl in Hr. injection Hr as <-. destruct Hl as [v Hv].
    by apply (release_ahead h _ v).
Qed.

(** ** The manager at its start *)

Definition make (clock first_gen : Z) (own : list Z) : Em :=
  mkEm (Timers.set_now clock (Timers.make (timer_tick cfg) first_gen)) (Handles.make first_gen) ∅ [] [] []
    Running [] [] own false 0 0 false false false (mkLStats 0 0 0 0 0 0 0 0 0 0) [] [] [].

(** A run after the calls that set the application up. *)
Definition started (clock first_gen : Z) (own : list Z) (setup : list Call) : Em :=
  exec_calls setup (make clock first_gen own).

Lemma started_run fuel inp clock g own setup :
  rtc lstep (make clock g own) (run fuel inp (started clock g own setup)) /\
  at_rest (run fuel inp (started clock g own setup)).
Proof.
  pose proof (exec_calls_steps setup (make clock g own)) as H.
  destruct (run_steps fuel inp (started clock g own setup)) as [H1 H2].
  { destruct (csteps_keep _ _ H) as [K1 K2]. split; [exact K1|exact K2]. }
  split; [|done]. etrans; [by apply l_calls, H|exact H1].
Qed.

(** C5: The loop loses no work and invents none.  Over any number of iterations,
    whatever the callbacks, the hooks and the other threads do, the items accepted
    by the mailbox are exactly those run or shed for an expired deadline, in the
    order they were posted, followed by those still in the ring, which never holds
    more than its capacity; and the deferred tasks are exactly those that ran and
    those that wait, each once. *)
Theorem loop_conserves_work fuel inp clock g own setup :
  let e := run fuel inp (started clock g own setup) in
  posted (history e) = handled (history e) ++ ring e /\ (length (ring e) <= mailbox_capacity cfg)%nat /\
  deferred (history e) ≡ₚ ran (history e) ++ defer_next_ e.
Proof.
  cbv zeta. destruct (started_run fuel inp clock g own setup) as [Hs [Hr _]].
  assert (tasks_ok (run fuel inp (started clock g own setup))) as [H1 H2 H3].
  { generalize dependent (run fuel inp (started clock g own setup)). intros e Hs _.
    assert (tasks_ok (make clock g own)) as H0 by (constructor; simpl; [done|lia|done]).
    induction Hs as [e|e1 e2 e3 H _ IH]; [done|]. apply IH. by apply (lstep_tasks e1). }
  rewrite Hr in H3. done.
Qed.

(** No flush is lost.  Over any run, a sink that is marked as having a write
    pending, so that further writes do not list it again, is on the list the next
    flush works through; otherwise its bytes would wait for ever. *)
Theorem loop_loses_no_flush fuel inp clock g own setup h s :
  is_u32 g ->
  let e := run fuel inp (started clock g own setup) in
  within e -> get h (sinks_ e) = Some s -> write_pending s = true -> h ∈ pending_writes_ e.
Proof.
  intros Hg e Hw Hh Hp. destruct (started_run fuel inp clock g own setup) as [Hs [_ Hf]]. fold e in Hs, Hf.
  destruct (lsteps_ind marks_ok _ _ lstep_marks Hs Hw) as [_ M].
  - by apply make_wf.
  - intros h' s'. simpl. by rewrite Timers.get_make.
  - specialize (M h s Hh Hp). by rewrite Hf in M.
Qed.

(** C34: A released sink is silent.  Over any run of the loop, from the moment a live
    sink is released, by [unwatch], by [release_sink] or by a [watch] that fails,
    inside a callback in the middle of a batch of completions or of a flush or
    outside, no completion and no flush reaches its callback, even when completions
    for it are still in flight and its slot has been given to another sink, until
    [2^32 - 2] sinks have been released since; as long as the table of sinks stays
    within the range of its indices. *)
Theorem released_sink_is_silent fuel inp clock g own setup h before since :
  is_u32 g ->
  let e := run fuel inp (started clock g own setup) in
  within e -> history e = before ++ EvReleased h :: since -> releases since < 2 ^ 32 - 2 ->
  Forall (fun ev => concerns h ev = false) since.
Proof.
  intros Hg e Hw Hh Hr. destruct (started_run fuel inp clock g own setup) as [Hs _]. fold e in Hs.
  destruct (lsteps_ind silent _ _ lstep_silent Hs Hw) as [_ H].
  - by apply make_wf.
  - intros h' b' s' E. by destruct b'.
  - by apply (H h before since Hh).
Qed.

(** ** Sleeping *)

Lemma arrive_frame its e :
  let e' := arrive its e in
  tm e' = tm e /\ pending_writes_ e' = pending_writes_ e /\ defer_next_ e' = defer_next_ e /\ mb_state e' = mb_state e.
Proof.
  simpl. unfold arrive. revert e. induction its as [|it its IH]; intros e; simpl; [done|].
  destruct (IH (default e (try_push it e))) as (E1&E2&E3&E4). rewrite E1, E2, E3, E4.
  unfold try_push. by destruct (_ <? _)%nat.
Qed.

Lemma next_deadline_bounds e :
  Wheel.wheel_ok (Timers.wheel_ (tm e)) -> 0 < Wheel.tick_ (Timers.wheel_ (tm e)) -> Heap.heap_ok (Timers.heap_ (tm e)) ->
  0 <= next_deadline_timeout e /\
  (0 < next_deadline_timeout e ->
   (forall n, n ∈ Wheel.nodes (Timers.wheel_ (tm e)) ->
      now_ e + next_deadline_timeout e <=
      Z.max (Wheel.expiry_tick n) (Wheel.now_tick_ (Timers.wheel_ (tm e)) + 1) * Wheel.tick_ (Timers.wheel_ (tm e))) /\
   (forall n, n ∈ Heap.heap_ (Timers.heap_ (tm e)) -> now_ e + next_deadline_timeout e <= Heap.expiry n)).
Proof.
  intros Hw Ht Hh. unfold next_deadline_timeout. cbv zeta. set (w := Timers.wheel_ (tm e)) in *.
  set (tick := (Wheel.now_tick_ w + 1) * Wheel.tick_ w).
  assert (forall n, n ∈ Wheel.nodes w -> (Wheel.count_ w =? 0) = false /\
    tick <= Z.max (Wheel.expiry_tick n) (Wheel.now_tick_ w + 1) * Wheel.tick_ w) as Hn.
  { intros n Hn. split; [|subst tick; nia]. apply Z.eqb_neq. destruct (Wheel.wi_count _ _ Hw) as [-> _].
    destruct (Wheel.nodes w); [by apply not_elem_of_nil in Hn|simpl; lia]. }
  assert (forall m, m ∈ Heap.heap_ (Timers.heap_ (tm e)) -> exists n, Heap.top (Timers.heap_ (tm e)) = Some n /\ Heap.expiry n <= Heap.expiry m) as Hm.
  { intros m Hm. destruct (Heap.top (Timers.heap_ (tm e))) as [n|] eqn:E; [|].
    - exists n. split; [done|]. by apply (Heap.top_min n m (Timers.heap_ (tm e))).
    - unfold Heap.top in E. destruct (Heap.heap_ _); [by apply not_elem_of_nil in Hm|done]. }
  destruct (Heap.top (Timers.heap_ (tm e))) as [top|]; destruct (Wheel.count_ w =? 0);
    try destruct (Z.ltb_spec tick (Heap.expiry top)); try destruct (Z.ltb_spec (now_ e) tick);
    try destruct (Z.ltb_spec (now_ e) (Heap.expiry top)); split; try lia; intros Hpos; split; intros n Hin;
    try (destruct (Hn n Hin) as [? ?]; try done; lia);
    try (destruct (Hm n Hin) as (x&[= <-]&?); lia); try (destruct (Hm n Hin) as (x&?&?); done).
Qed.

(** C35: The loop never sleeps on work.  The time it decides to wait is never
    negative and, when it is positive, no item is in the ring even though other
    threads may have posted since the first look, no task is deferred, no write is
    pending, the mailbox is published as blocked so that a later post wakes it, and
    it wakes no later than the instant at which any armed timer is due; under
    [Spin] it does not wait at all. *)
Theorem loop_never_sleeps_on_work its e :
  Wheel.wheel_ok (Timers.wheel_ (tm e)) -> 0 < Wheel.tick_ (Timers.wheel_ (tm e)) -> Heap.heap_ok (Timers.heap_ (tm e)) ->
  let '(t, e') := wait_timeout its e in
  0 <= t /\ (wait cfg = Spin -> t = 0) /\
  (0 < t ->
   ring e' = [] /\ defer_next_ e' = [] /\ pending_writes_ e' = [] /\ mb_state e' = Blocked /\
   (forall n, n ∈ Wheel.nodes (Timers.wheel_ (tm e)) ->
      now_ e + t <= Z.max (Wheel.expiry_tick n) (Wheel.now_tick_ (Timers.wheel_ (tm e)) + 1) * Wheel.tick_ (Timers.wheel_ (tm e))) /\
   (forall n, n ∈ Heap.heap_ (Timers.heap_ (tm e)) -> now_ e + t <= Heap.expiry n)).
Proof.
  intros Hw Ht Hh. unfold wait_timeout. cbv zeta. set (b0 := match wait cfg with Block => _ | _ => _ end).
  set (b := b0 && _ && _ && _). destruct b eqn:Eb; [|split; [lia|split; [done|lia]]].
  destruct (arrive_frame its (set_mb Blocked e)) as (E1&E2&E3&E4). set (e1 := arrive its _) in *.
  subst b b0. destruct (nonempty (ring e1)) eqn:Er.
  { split; [lia|]. split; [done|lia]. }
  set (e2 := count_block e1). assert (tm e2 = tm e) as Et by exact E1.
  destruct (next_deadline_bounds e2) as [B1 B2]; [by rewrite Et..|].
  rewrite (proj2 (Z.ltb_ge _ 0)) by done. split; [done|]. split.
  { intros Hsp. rewrite Hsp in Eb. done. }
  intros Hpos. specialize (B2 Hpos). unfold now_ in B2. rewrite Et in B2.
  bool_to_prop. simpl. rewrite E2, E3, E4.
  split; [by destruct (ring e1)|]. split; [simpl; by destruct (defer_next_ e)|].
  split; [simpl; by destruct (pending_writes_ e)|]. split; [done|exact B2].
Qed.

(** A failed [watch] leaks its callback.  When the backend refuses the
    descriptor, [watch] reports the error and releases the sink without running its
    teardown: the allocation that holds the callback stays, and no sink refers to
    it any more, so that nothing will ever free it. *)
Theorem failed_watch_leaks_callback fd i f e err :
  wf (sinks_ e) -> within e ->
  (forall h s b, get h (sinks_ e) = Some s -> boxed s = Some b -> b ∈ boxes e) ->
  (forall calls, attach_result calls = Bad err) ->
  let '(r, e') := watch fd i f e in
  r = Bad err /\ boxes e' = boxes e ++ [new_box e] /\ new_box e ∉ boxes e /\
  forall h s, get h (sinks_ e') = Some s -> boxed s <> Some (new_box e).
Proof.
  intros Hwf Hw Hb Hr.
  assert (new_box e ∉ boxes e) as Hnew.
  { unfold new_box. intros Hin. apply (is_fresh (list_to_set (boxes e) : gset Z)). by apply elem_of_list_to_set. }
  unfold watch. destruct (emplace _ _) as [h t] eqn:E. rewrite Hr. cbv beta iota.
  change (emplace (mkSink f true (Some (new_box e)) (ctx_ e) false) (sinks_ e) = (h, t)) in E.
  set (sk := mkSink f true (Some (new_box e)) (ctx_ e) false) in E.
  assert (room (sinks_ e)) as Hroom by (right; exact Hw).
  assert (t = (emplace sk (sinks_ e)).2) as -> by (by rewrite E).
  assert (h = (emplace sk (sinks_ e)).1) as -> by (by rewrite E). unfold release. cbn [backend_call set_sinks set_bcalls sinks_].
  rewrite emplace_get, decide_True by done.
  split; [done|]. split; [done|]. split; [done|]. intros h' s' Hg. cbn in Hg.
  rewrite release_get in Hg by (by apply emplace_wf). case_decide; [done|].
  rewrite emplace_get, decide_False in Hg by done. intros Hbx. by apply Hnew, (Hb h' s').
Qed.

End App.


(** ** A small application *)

Definition demo_cfg : EventManagerConfig := mkConfig Block 50000 1000000 2 2 RouteToHandler 4.
Definition accepts (calls : list BackendCall) : Result unit := Val tt.
Definition no_hooks (l : list Event) : list PlainCall := [].
Definition never_throws (l : list Event) : bool := false.
Definition all_drained (o : Z) (l : list Event) : bool := true.

(** Task 1 registers a sink, defers task 5 and notes a write; task 2 unwatches. *)
Definition demo_react (l : list Event) : list Call :=
  match last l with
  | Some (EvTask it) =>
      if task it =? 1 then [Plain (CRegister 7 false None); Plain (CDefer 5); Plain (CPost 3)]
      else if task it =? 2 then [Plain (CUnwatch (mkHandle 0 1))]
      else [Plain (CNote (mkHandle 1 1))]
  | Some (EvDeferred _) => [Plain (CNote (mkHandle 0 1))]
  | Some EvIteration => [Plain (CNote (mkHandle 0 1))]
  | _ => []
  end.

Definition demo_run : nat -> list Input -> Em -> Em := run demo_cfg accepts demo_react never_throws no_hooks all_drained.
Definition demo_started (setup : list Call) : Em :=
  started demo_cfg accepts no_hooks all_drained 0 1 [] setup.
Definition demo_inputs : list Input :=
  [mkInput 1000 [mkItem 1 empty_ctx; mkItem 9 (mkCtx (Some 500) no_trace None 0)] [] [];
   mkInput 2000 [] [mkItem 4 empty_ctx] [plain (ud_make 2 0 1) 10]].

Lemma loop_loses_no_flush_witness :
  let e := run demo_cfg accepts demo_react never_throws no_hooks all_drained 5 demo_inputs
             (started demo_cfg accepts no_hooks all_drained 0 1 [] []) in
  is_Some (get (mkHandle 0 1) (sinks_ e)) /\ mkHandle 0 1 ∈ pending_writes_ e.
Proof.
  cbv zeta. split; [vm_compute; by eexists|].
  apply (loop_loses_no_flush demo_cfg accepts demo_react never_throws no_hooks all_drained 5 demo_inputs 0 1 [] []
           (mkHandle 0 1) (mkSink 7 false None None true)).
  - unfold is_u32. lia.
  - vm_compute. reflexivity.
  - vm_compute. reflexivity.
  - reflexivity.
Defined.

(** Task 1 registers two sinks; the completion of the first releases the second. *)
Definition evict_react (l : list Event) : list Call :=
  match last l with
  | Some (EvTask it) => [Plain (CRegister 7 false None); Plain (CRegister 8 false None); Plain (CNote (mkHandle 1 1))]
  | Some (EvCompletion h o c) => if o =? 7 then [Plain (CNote (mkHandle 1 1)); Plain (CRelease (mkHandle 1 1))] else []
  | _ => []
  end.
Definition evict_inputs : list Input :=
  [mkInput 1000 [mkItem 1 empty_ctx] [] [];
   mkInput 2000 [] [] [plain (ud_make 2 1 1) 5; plain (ud_make 2 0 1) 10; plain (ud_make 2 1 1) 6]].

Lemma released_sink_is_silent_witness :
  let e := run demo_cfg accepts evict_react never_throws no_hooks all_drained 5 evict_inputs
             (started demo_cfg accepts no_hooks all_drained 0 1 [] []) in
  count_if (concerns (mkHandle 1 1)) (history e) = 2%nat /\
  exists before since, history e = before ++ EvReleased (mkHandle 1 1) :: since /\ since <> [] /\
    Forall (fun ev => concerns (mkHandle 1 1) ev = false) since.
Proof.
  cbv zeta. split; [vm_compute; reflexivity|].
  set (e := run _ _ _ _ _ _ _ _ _). set (n := length (history e)).
  exists (take (n - 2) (history e)), (drop (n - 1) (history e)).
  assert (history e = take (n - 2) (history e) ++ EvReleased (mkHandle 1 1) :: drop (n - 1) (history e)) as E by (vm_compute; reflexivity).
  split; [exact E|]. split; [vm_compute; discriminate|].
  apply (released_sink_is_silent demo_cfg accepts evict_react never_throws no_hooks all_drained 5 evict_inputs 0 1 [] []
    (mkHandle 1 1) (take (n - 2) (history e))).
  - unfold is_u32. lia.
  - vm_compute. reflexivity.
  - exact E.
  - vm_compute. reflexivity.
Defined.

(** A manager with one timer, due in three ticks. *)
Definition waiting : Em :=
  started demo_cfg accepts no_hooks all_drained 0 1 [] [Plain (CTimer (Timers.OAfter 3000000 (UserFn 1) null_handle))].

Lemma loop_never_sleeps_on_work_witness :
  fst (wait_timeout demo_cfg [] waiting) = 1000000 /\
  ring (snd (wait_timeout demo_cfg [] waiting)) = [] /\
  (forall n, n ∈ Wheel.nodes (Timers.wheel_ (tm waiting)) -> 0 + 1000000 <= Z.max (Wheel.expiry_tick n) 1 * 1000000).
Proof.
  pose proof (loop_never_sleeps_on_work demo_cfg [] waiting) as H.
  assert (wait_timeout demo_cfg [] waiting = (1000000, snd (wait_timeout demo_cfg [] waiting))) as E by (vm_compute; reflexivity).
  rewrite E in H. destruct H as (_&_&H).
  - assert (Timers.wheel_ (tm waiting) =
      Wheel.insert (Wheel.mkWNode (mkHandle 0 1) 3) (Wheel.now_tick_ (Wheel.make 1000000)) (Wheel.make 1000000)) as ->
      by (vm_compute; reflexivity).
    apply Wheel.insert_ok; [apply Wheel.wheel_make_ok|simpl; lia|apply not_elem_of_nil|simpl; lia].
  - vm_compute. reflexivity.
  - apply Heap.empty_heap_ok.
  - destruct H as (H1&_&_&_&H2&_); [lia|]. split; [vm_compute; reflexivity|]. split; [exact H1|exact H2].
Defined.

Lemma failed_watch_leaks_callback_witness :
  let e := demo_started [] in
  let refuses := fun _ : list BackendCall => Bad (A := unit) (make_error Internal NotFound) in
  boxes (snd (watch refuses 4 Readable 11 e)) = [0] /\ new_box e = 0 /\
  forall h s, get h (sinks_ (snd (watch refuses 4 Readable 11 e))) = Some s -> boxed s <> Some (new_box e).
Proof.
  cbv zeta. split; [vm_compute; reflexivity|]. split; [vm_compute; reflexivity|].
  pose proof (failed_watch_leaks_callback (fun _ => Bad (make_error Internal NotFound)) 4 Readable 11
    (demo_started []) (make_error Internal NotFound)) as H.
  destruct (watch _ 4 Readable 11 (demo_started [])) as [r e'].
  destruct H as (_&_&_&H).
  - apply (make_wf 1). unfold is_u32. lia.
  - vm_compute. reflexivity.
  - intros h s b. change (get h (Handles.make 1) = Some s -> boxed s = Some b -> b ∈ []). by rewrite Timers.get_make.
  - done.
  - exact H.
Defined.

(** ** Starvation *)

(** Tasks 1 and 2 defer themselves again whenever they run. *)
Definition starve_react (l : list Event) : list Call :=
  match last l with
  | Some (EvDeferred t) => if t <? 3 then [Plain (CDefer t)] else []
  | _ => []
  end.
Definition starve_round (e : Em) : Em :=
  snd (poll_once demo_cfg accepts starve_react never_throws no_hooks all_drained 0 (mkInput 0 [] [] []) e).
Fixpoint starve_rounds (n : nat) (e : Em) : Em :=
  match n with O => e | S n => starve_round (starve_rounds n e) end.

(** A manager with no timers and no mail, on which tasks 1, 2 and 3 are deferred. *)
Record hungry (e : Em) : Prop := {
  hu_ring : ring e = [];
  hu_writes : pending_writes_ e = [];
  hu_next : defer_next_ e = [1; 2; 3];
  hu_stop : stop_ e = false;
  hu_wheel : Wheel.count_ (Timers.wheel_ (tm e)) = 0 /\ Wheel.primed_ (Timers.wheel_ (tm e)) = true;
  hu_heap : Heap.heap_ (Timers.heap_ (tm e)) = [] }.

Lemma expire_idle e :
  Wheel.count_ (Timers.wheel_ (tm e)) = 0 -> Wheel.primed_ (Timers.wheel_ (tm e)) = true ->
  Heap.heap_ (Timers.heap_ (tm e)) = [] ->
  exists w, expire_timers demo_cfg accepts starve_react never_throws no_hooks all_drained 0 e =
    (false, set_tm (Timers.set_wheel_ w (tm e)) e) /\ Wheel.count_ w = 0 /\ Wheel.primed_ w = true.
Proof.
  intros Hc Hp Hh. unfold expire_timers, Wheel.advance. cbv zeta. cbn [Wheel.wheel_of Wheel.set_wheel Loop_wheel].
  rewrite Hp. cbv iota. rewrite Hc. cbn [Z.eqb].
  match goal with |- context [Timers.set_wheel_ ?x _] => set (w := x) end. exists w.
  split; [|subst w; by case_test]. cbn [Heap.expire history set_tm]. by rewrite Nat.eqb_refl.
Qed.

(** What a round without mail, timers and completions leaves alone. *)
Record calm (e e' : Em) : Prop := {
  ca_ring : ring e' = ring e;
  ca_writes : pending_writes_ e' = pending_writes_ e;
  ca_stop : stop_ e' = stop_ e;
  ca_wheel : Timers.wheel_ (tm e') = Timers.wheel_ (tm e);
  ca_heap : Timers.heap_ (tm e') = Timers.heap_ (tm e) }.

Lemma calm_trans e1 e2 e3 : calm e1 e2 -> calm e2 e3 -> calm e1 e3.
Proof. intros [] []. constructor; congruence. Qed.

Lemma starve_task c t e : t < 3 ->
  let e' := run_guarded demo_cfg accepts starve_react never_throws no_hooks all_drained c (EvDeferred t) e in
  calm e e' /\ defer_next_ e' = defer_next_ e ++ [t] /\ history e' = history e ++ [EvDeferred t; EvDefer t].
Proof.
  intros Ht. unfold run_guarded, invoke_guarded, invoke, never_throws. cbv zeta. set (e1 := set_ctx c e).
  assert (starve_react (history (log (EvDeferred t) e1)) = [Plain (CDefer t)]) as ->.
  { unfold starve_react. cbn [history log set_history]. rewrite last_snoc.
    by rewrite (proj2 (Z.ltb_lt t 3) Ht). }
  cbn [exec_calls foldl exec_call exec_plain]. split; [by constructor|]. split; [done|].
  cbn. by rewrite <- app_assoc.
Qed.

Lemma starve_batch e :
  let e' := run_batch demo_cfg accepts starve_react never_throws no_hooks all_drained 2 [1; 2; 3] (set_next [] e) in
  calm e e' /\ defer_next_ e' = [1; 2; 3] /\
  history e' = history e ++ [EvDeferred 1; EvDefer 1; EvDeferred 2; EvDefer 2].
Proof.
  cbn [run_batch]. cbv zeta. set (e1 := set_run [2; 3] (set_next [] e)).
  destruct (starve_task (ctx_ e1) 1 e1) as (C1&D1&G1); [lia|]. cbv zeta in *. set (e2 := run_guarded _ _ _ _ _ _ _ _ e1) in *.
  set (e3 := set_run [3] e2). destruct (starve_task (ctx_ e3) 2 e3) as (C2&D2&G2); [lia|].
  set (e4 := run_guarded _ _ _ _ _ _ _ _ e3) in *. split; [|split].
  - apply (calm_trans e e1); [by constructor|]. apply (calm_trans e1 e2); [done|].
    apply (calm_trans e2 e4); [by destruct C2|by constructor].
  - cbn [defer_next_ set_next set_run]. rewrite D2. cbn [defer_next_ e3 set_run]. by rewrite D1.
  - cbn [history set_next set_run]. rewrite G2. cbn [history e3 set_run]. rewrite G1. by rewrite <- app_assoc.
Qed.

Lemma starve_bookkeeping e :
  pending_writes_ e = [] ->
  let e' := bookkeeping demo_cfg accepts starve_react no_hooks all_drained true (flush_writes demo_cfg accepts starve_react no_hooks all_drained e) in
  calm e e' /\ defer_next_ e' = defer_next_ e /\ history e' = history e ++ [EvIteration].
Proof.
  intros Hp. unfold flush_writes. rewrite Hp. cbn [flush_loop]. unfold bookkeeping, invoke. cbv zeta.
  set (e1 := set_flushing _ _). cbn [orb]. set (e2 := set_spin _ e1). set (e3 := if blocked_ e2 then _ else e2).
  assert (calm e e3 /\ defer_next_ e3 = defer_next_ e /\ history e3 = history e) as (C&D&G).
  { subst e3 e2 e1. by destruct (blocked_ _); (split; [constructor|]; cbn; rewrite ?Hp). }
  assert (starve_react (history (log EvIteration e3)) = []) as ->.
  { unfold starve_react. cbn [history log set_history]. by rewrite last_snoc. }
  cbn [exec_calls foldl]. split; [|split; [exact D|cbn; by rewrite G]].
  apply (calm_trans e e3); [done|by constructor].
Qed.

Lemma hungry_round e : hungry e -> hungry (starve_round e) /\ ran (history (starve_round e)) = ran (history e) ++ [1; 2].
Proof.
  intros [H1 H2 H3 H4 [H5 H5'] H6]. unfold starve_round, poll_once. cbv zeta.
  cbn [early late completions clock arrive foldl]. set (e1 := upd_tm _ _).
  assert (drain_mailbox demo_cfg accepts starve_react never_throws no_hooks all_drained (max_itc_batch demo_cfg) e1 = (false, e1)) as ->.
  { cbn. change (ring e1) with (ring e). by rewrite H1. }
  destruct (expire_idle e1) as (w&->&Hw1&Hw2); [done..|]. set (e2 := set_tm _ e1).
  assert (wait_timeout demo_cfg [] e2 = (0, count_spin e2)) as ->.
  { unfold wait_timeout. change (defer_next_ e2) with (defer_next_ e). by rewrite H3. }
  set (e3 := if blocked_ (count_spin e2) then _ else _).
  assert (calm e2 e3 /\ defer_next_ e3 = [1; 2; 3] /\ history e3 = history e) as (C3&D3&G3).
  { subst e3. by destruct (blocked_ _); (split; [constructor|]). }
  clearbody e3. cbn [dispatch_completions foldl]. unfold run_deferred. rewrite D3. cbn [max_defer_batch demo_cfg].
  destruct (starve_batch (set_run [1; 2; 3] e3)) as (C4&D4&G4). set (e4 := run_batch _ _ _ _ _ _ _ _ _) in *.
  assert (calm e2 e4) as C by (apply (calm_trans e2 e3); [done|by destruct C4]).
  destruct (starve_bookkeeping e4) as (C5&D5&G5); [destruct C; by rewrite ca_writes0|].
  set (e5 := bookkeeping _ _ _ _ _ _ _) in *. pose proof (calm_trans _ _ _ C C5) as [].
  change (hungry e5 /\ ran (history e5) = ran (history e) ++ [1; 2]). split.
  - constructor.
    + by rewrite ca_ring0.
    + by rewrite ca_writes0.
    + by rewrite D5.
    + by rewrite ca_stop0.
    + by rewrite ca_wheel0.
    + by rewrite ca_heap0.
  - rewrite G5, G4. cbn [history set_run]. rewrite G3.
    unfold ran. by rewrite !omap_app, <- app_assoc.
Qed.

(** Deferred work can starve.  A batch runs the first [max_defer_batch] tasks
    and puts the others back behind those that were deferred while it ran, so that
    as many tasks that defer themselves again as the batch is long, which each
    iteration runs once, keep a third task waiting for ever: after any number of
    iterations only they have run. *)
Theorem deferred_work_can_starve n :
  let e0 := demo_started [Plain (CDefer 1); Plain (CDefer 2); Plain (CDefer 3)] in
  let e := starve_rounds n (starve_round e0) in
  ran (history e) = concat (replicate (S n) [1; 2]) /\ defer_next_ e = [1; 2; 3].
Proof.
  cbv zeta. set (e1 := starve_round _).
  assert (hungry e1 /\ ran (history e1) = [1; 2]) as [Hh Hr] by (vm_compute; by repeat constructor).
  clearbody e1.
  assert (hungry (starve_rounds n e1) /\ ran (history (starve_rounds n e1)) = concat (replicate (S n) [1; 2])) as [Q1 Q2].
  { induction n as [|n [IH1 IH2]]; [done|]. cbn [starve_rounds]. destruct (hungry_round _ IH1) as [Q1 Q2].
    split; [done|]. by rewrite Q2, IH2, (replicate_S_end (S n)), concat_app. }
  split; [exact Q2|apply Q1].
Qed.

End Loop.
