(* ===== verification/Protocol.v ===== *)
(** * Protocols and framing

    [ParseResult] and [FixedHeaderFramer] of
    [src/include/afx/net/protocol.hpp].  [FramerLaws] is what the read loop of a
    connection relies on in a framer; the fixed-header framer is an instance as
    long as the sizes its protocol reports do not overflow [std::size_t]. *)

From stdpp Require Import base option gmap list.
From Stdlib Require Import ZArith Lia.
From S2P Require Import Prelude Backend.
Local Open Scope Z_scope.
Local Open Scope afx_scope.

Module Framing.

(** [kind] with the field each case carries: [Message] its message and
    [consumed], [NeedMore] its [need], [Error] its error. *)
Inductive ParseResult (M : Type) :=
  | PMessage (m : M) (consumed : Z)
  | PNeedMore (need : Z)
  | PError (e : Error).
Arguments PMessage {M} m consumed.
Arguments PNeedMore {M} need.
Arguments PError {M} e.

(** What a framer promises: a message consumes a non-empty part of the input,
    depends on that part alone and is the same whatever follows it; so is an
    error; and a request for more stays within bounds. *)
Class FramerLaws {M : Type} (parse : list Z -> ParseResult M) : Prop := {
  parse_bound : forall bs m k, parse bs = PMessage m k -> 0 < k <= zlen bs;
  parse_stable : forall bs m k x, parse bs = PMessage m k -> parse (bs ++ x) = PMessage m k;
  parse_local : forall bs m k, parse bs = PMessage m k -> parse (take (Z.to_nat k) bs) = PMessage m k;
  parse_error_stable : forall bs e x, parse bs = PError e -> parse (bs ++ x) = PError e;
  parse_need : forall bs n, parse bs = PNeedMore n -> 0 <= n < 2 ^ 60 }.

(** ** The fixed-header framer *)

Section FixedHeader.
(** The user's protocol: [kHeaderSize], [validate] and [body_size].  A header is
    the [kHeaderSize] bytes copied into it. *)
Context (kHeaderSize : Z)
        (validate : list Z -> Result unit)
        (body_size : list Z -> Result Z).

(** [FrameView]: the header by value and a view of the body. *)
Definition FrameView : Type := list Z * list Z.

(** [in.subspan(off, n)], undefined when it leaves the span. *)
Definition subspan (bs : list Z) (off n : Z) : option (list Z) := mem_read off n bs.

Definition framer_parse (bs : list Z) : option (ParseResult FrameView) :=
  if zlen bs <? kHeaderSize then Some (PNeedMore (kHeaderSize ⊟ zlen bs))
  else
    let h := take (Z.to_nat kHeaderSize) bs in
    match validate h with
    | Bad e => Some (PError e)
    | Val _ =>
        match body_size h with
        | Bad e => Some (PError e)
        | Val n =>
            let total := kHeaderSize ⊞ n in
            if zlen bs <? total then Some (PNeedMore (total ⊟ zlen bs))
            else
              body ← subspan bs kHeaderSize n;
              Some (PMessage (h, body) total)
        end
    end.

(** The framer as a total function, where an undefined subspan is an error. *)
Definition framer (bs : list Z) : ParseResult FrameView :=
  default (PError no_error) (framer_parse bs).

(** Protocols whose frames fit: header and body together are below [2^60]. *)
Definition sizes_fit : Prop :=
  0 < kHeaderSize < 2 ^ 59 /\ forall h n, body_size h = Val n -> 0 <= n < 2 ^ 59.

Context (Hfit : sizes_fit).

Lemma take_header (bs x : list Z) :
  kHeaderSize <= zlen bs -> take (Z.to_nat kHeaderSize) (bs ++ x) = take (Z.to_nat kHeaderSize) bs.
Proof. unfold zlen. intros. apply take_app_le. lia. Qed.

(** Every branch of the parse, with the wrap-arounds gone. *)
Lemma framer_parse_cases bs :
  (zlen bs < kHeaderSize /\ framer_parse bs = Some (PNeedMore (kHeaderSize - zlen bs)))
  \/ kHeaderSize <= zlen bs /\
     let h := take (Z.to_nat kHeaderSize) bs in
     ((exists e, validate h = Bad e /\ framer_parse bs = Some (PError e))
      \/ validate h = Val tt /\
         ((exists e, body_size h = Bad e /\ framer_parse bs = Some (PError e))
          \/ exists n, body_size h = Val n /\ 0 <= n < 2 ^ 59 /\
             (zlen bs < kHeaderSize + n /\ framer_parse bs = Some (PNeedMore (kHeaderSize + n - zlen bs))
              \/ kHeaderSize + n <= zlen bs /\
                 framer_parse bs = Some (PMessage (h, region kHeaderSize n bs) (kHeaderSize + n))))).
Proof.
  destruct Hfit as [Hh Hb]. pose proof (zlen_nonneg bs). unfold framer_parse.
  case_test; [left; split; [done|]; by rewrite u64_small by lia|right]. split; [done|]. cbv zeta.
  destruct (validate _) as [[]|e]; [right; split; [done|]|left; by exists e].
  destruct (body_size _) as [n|e] eqn:En; [right|left; by exists e].
  exists n. pose proof (Hb _ _ En). split; [done|]. split; [done|]. wrap_simpl.
  case_test; [left; split; [done|]; by rewrite u64_small by lia|right; split; [done|]].
  unfold subspan. by rewrite mem_read_ok by lia.
Qed.

Lemma region_prefix (bs x : list Z) off n :
  0 <= off -> 0 <= n -> off + n <= zlen bs -> region off n (bs ++ x) = region off n bs.
Proof.
  unfold region, zlen. intros. rewrite drop_app_le by lia. apply take_app_le. rewrite length_drop. lia.
Qed.

(** The framer meets the laws the read loop relies on. *)
#[global] Instance framer_laws : FramerLaws framer.
Proof.
  destruct Hfit as [Hh _]. unfold framer. constructor.
  - intros bs m k E. destruct (framer_parse_cases bs) as
      [(?&F)|(?&[(?&?&F)|(?&[(?&?&F)|(n&?&?&[(?&F)|(?&F)])])])]; rewrite F in E; simplify_eq/=; lia.
  - intros bs m k x E. destruct (framer_parse_cases bs) as
      [(?&F)|(Hl&[(?&?&F)|(Hv&[(?&?&F)|(n&Hn&?&[(?&F)|(Ht&F)])])])]; rewrite F in E; simplify_eq/=.
    pose proof (zlen_nonneg x). unfold framer_parse. rewrite zlen_app.
    rewrite (proj2 (Z.ltb_ge _ _)) by lia. rewrite take_header by done. rewrite Hv, Hn. wrap_simpl.
    rewrite (proj2 (Z.ltb_ge _ _)) by lia. unfold subspan. rewrite mem_read_ok by (rewrite ?zlen_app; lia).
    simpl. by rewrite region_prefix by lia.
  - intros bs m k E. destruct (framer_parse_cases bs) as
      [(?&F)|(Hl&[(?&?&F)|(Hv&[(?&?&F)|(n&Hn&?&[(?&F)|(Ht&F)])])])]; rewrite F in E; simplify_eq/=.
    set (p := take (Z.to_nat (kHeaderSize + n)) bs).
    assert (zlen p = kHeaderSize + n) as Hp by (subst p; unfold zlen in *; rewrite length_take; lia).
    assert (take (Z.to_nat kHeaderSize) p = take (Z.to_nat kHeaderSize) bs) as Hh'.
    { rewrite <- (take_drop (Z.to_nat (kHeaderSize + n)) bs). fold p. symmetry. apply take_header. lia. }
    unfold framer_parse. rewrite Hp, (proj2 (Z.ltb_ge _ _)) by lia. rewrite Hh', Hv, Hn. wrap_simpl.
    rewrite (proj2 (Z.ltb_ge _ _)) by lia. unfold subspan. rewrite mem_read_ok by lia. simpl.
    assert (region kHeaderSize n p = region kHeaderSize n bs) as ->; [|done].
    rewrite <- (take_drop (Z.to_nat (kHeaderSize + n)) bs). fold p. symmetry. apply region_prefix; lia.
  - intros bs e x E. pose proof (zlen_nonneg x). destruct (framer_parse_cases bs) as
      [(?&F)|(Hl&[(?&Hv&F)|(Hv&[(?&Hn&F)|(n&Hn&?&[(?&F)|(Ht&F)])])])]; rewrite F in E; simplify_eq/=;
      unfold framer_parse; rewrite zlen_app, (proj2 (Z.ltb_ge _ _)) by lia; rewrite take_header by done;
      [by rewrite Hv|by rewrite Hv, Hn].
  - intros bs n E. destruct (framer_parse_cases bs) as
      [(?&F)|(?&[(?&?&F)|(?&[(?&?&F)|(m&?&?&[(?&F)|(?&F)])])])]; rewrite F in E; simplify_eq/=;
      pose proof (zlen_nonneg bs); lia.
Qed.

(** framing round trip.  The bytes of a valid header followed by a body of
    the declared size parse to exactly that header and body, consuming exactly
    them, whatever follows; a proper prefix asks for exactly the bytes missing
    from the part (header or frame) it has reached, and never yields a message. *)
Theorem fixed_header_round_trip h body rest :
  zlen h = kHeaderSize -> validate h = Val tt -> body_size h = Val (zlen body) ->
  framer_parse (h ++ body ++ rest) = Some (PMessage (h, body) (kHeaderSize + zlen body))
  /\ forall p q, h ++ body = p ++ q -> q <> [] ->
       framer_parse p = Some (PNeedMore ((if zlen p <? kHeaderSize then kHeaderSize
                                          else kHeaderSize + zlen body) - zlen p)).
Proof.
  intros Hlen Hv Hb. assert (Hth : forall x, take (Z.to_nat kHeaderSize) (h ++ x) = h).
  { intros x. rewrite take_app_le by (unfold zlen in *; lia). apply take_ge. unfold zlen in *. lia. }
  pose proof (zlen_nonneg rest). pose proof (zlen_nonneg body). split.
  - destruct (framer_parse_cases (h ++ body ++ rest)) as [(Hs&_)|(_&C)]; [rewrite zlen_app, Hlen in Hs; pose proof (zlen_nonneg (body ++ rest)); lia|].
    cbv zeta in C. rewrite Hth, Hv, Hb, !zlen_app in C.
    destruct C as [(?&?&_)|(_&[(?&?&_)|(n&Hn&_&[(Hs&_)|(_&F)])])]; [done|done|simplify_eq; lia|].
    injection Hn as <-. rewrite F. do 4 f_equal. unfold region, zlen in *.
    rewrite drop_app_ge by lia. replace (Z.to_nat kHeaderSize - length h)%nat with O by lia.
    rewrite drop_0, take_app_le by lia. apply take_ge. lia.
  - intros p q Hpq Hq. assert (zlen p + zlen q = kHeaderSize + zlen body) as Hpl.
    { rewrite <- zlen_app, <- Hpq, zlen_app. lia. }
    assert (0 < zlen q) by (destruct q; [done|unfold zlen; simpl; lia]).
    destruct (framer_parse_cases p) as [(Hs&F)|(Hs&C)]; [by rewrite (proj2 (Z.ltb_lt _ _)) by done|].
    rewrite (proj2 (Z.ltb_ge _ _)) by done. cbv zeta in C.
    assert (take (Z.to_nat kHeaderSize) p = h) as Hp.
    { rewrite <- (Hth body), Hpq. symmetry. apply take_header. done. }
    rewrite Hp, Hv, Hb in C.
    destruct C as [(?&?&_)|(_&[(?&?&_)|(n&Hn&_&[(_&F)|(Hge&_)])])]; [done|done| |]; injection Hn as <-; [done|lia].
Qed.

End FixedHeader.

(** A protocol with a one-byte header that is the body's length. *)
Definition byte_size (h : list Z) : Result Z := Val (default 0 (head h) mod 256).
Definition any_header (h : list Z) : Result unit := Val tt.

Lemma byte_sizes_fit : sizes_fit 1 byte_size.
Proof.
  split; [lia|]. intros h n [= <-]. pose proof (Z.mod_pos_bound (default 0 (head h)) 256 ltac:(lia)). lia.
Qed.

Lemma fixed_header_round_trip_witness :
  framer_parse 1 any_header byte_size ([2] ++ [7; 8] ++ [1; 9])
    = Some (PMessage ([2], [7; 8]) (1 + zlen [7; 8]))
  /\ forall p q, [2] ++ [7; 8] = p ++ q -> q <> [] ->
       framer_parse 1 any_header byte_size p
       = Some (PNeedMore ((if zlen p <? 1 then 1 else 1 + zlen [7; 8]) - zlen p)).
Proof.
  apply (fixed_header_round_trip 1 any_header byte_size byte_sizes_fit [2] [7; 8] [1; 9]); reflexivity.
Defined.

End Framing.
