(* ===== verification/Http.v ===== *)
(** * The HTTP of the admin endpoint

    [HttpProto::parse], [iequals] and [parse_content_length] of
    [src/src/admin/http.cpp] and [http_response] of
    [src/include/afx/admin/http.hpp].  Text is a list of byte values; views into
    the read buffer are the bytes they cover.

    [HttpProto] is an instance of the framer laws of Protocol.v, so what
    Connection.v shows of every framer holds of the admin connections. *)

From stdpp Require Import base option gmap list strings.
From Stdlib Require Import ZArith Lia Ascii.
From S2P Require Import Prelude Backend Protocol.
Local Open Scope Z_scope.

Module Http.
Import Framing.

(** ** Text *)

Definition str (s : string) : list Z := map (fun a => Z.of_N (N_of_ascii a)) (String.list_ascii_of_string s).

Definition CR : Z := 13.
Definition LF : Z := 10.
Definition SP : Z := 32.
Definition TAB : Z := 9.
Definition CRLF : list Z := [CR; LF].

(** [string_view::find(char)] and [rfind(char)]. *)
Fixpoint find (c : Z) (l : list Z) : option nat :=
  match l with
  | [] => None
  | x :: l => if x =? c then Some O else S <$> find c l
  end.
Fixpoint rfind (c : Z) (l : list Z) : option nat :=
  match l with
  | [] => None
  | x :: l => match rfind c l with
              | Some i => Some (S i)
              | None => if x =? c then Some O else None
              end
  end.

(** Does the text start with a line end? *)
Definition at_crlf (l : list Z) : bool :=
  match l with a :: b :: _ => (a =? CR) && (b =? LF) | _ => false end.

(** [string_view::find] of a line end. *)
Fixpoint find_crlf (l : list Z) : option nat :=
  if at_crlf l then Some O
  else match l with [] => None | _ :: l => S <$> find_crlf l end.

(** The scan for an empty line. *)
Fixpoint find_head (l : list Z) : option nat :=
  if at_crlf l && at_crlf (drop 2 l) then Some O
  else match l with [] => None | _ :: l => S <$> find_head l end.

Definition lower (c : Z) : Z := Z.lor c 32.
Fixpoint iequals (a b : list Z) : bool :=
  match a, b with
  | [], [] => true
  | x :: a, y :: b => (lower x =? lower y) && iequals a b
  | _, _ => false
  end.

Definition is_ows (c : Z) : bool := (c =? SP) || (c =? TAB).
Fixpoint strip_front (v : list Z) : list Z :=
  match v with c :: r => if is_ows c then strip_front r else v | [] => [] end.
Definition strip (v : list Z) : list Z := reverse (strip_front (reverse (strip_front v))).

Fixpoint number (n : Z) (v : list Z) : option Z :=
  match v with
  | [] => Some n
  | c :: v => if (c <? 48) || (57 <? c) then None else number (n * 10 + (c - 48)) v
  end.

Definition parse_content_length (v : list Z) : option Z :=
  let v := strip v in
  if (zlen v =? 0) || (10 <? zlen v) then None else number 0 v.

(** ** Requests *)

Record HttpRequest := mkRequest {
  method : list Z;
  path : list Z;
  query : list Z;
  version : list Z;
  body : list Z;
  content_length : Z }.

Definition bad_request : Error := make_error Frame Invalid.
Definition too_large : Error := make_error Frame FrameTooLarge.

(** The header lines after the request line: the last [Content-Length]. *)
Fixpoint headers (fuel : nat) (rest : list Z) (cl : Z) : option Z :=
  match fuel with
  | O => Some cl
  | S fuel =>
      if zlen rest <=? 2 then Some cl
      else
        match find_crlf rest with
        | None => Some cl
        | Some nl =>
            let h := take nl rest in
            let rest := drop (nl + 2) rest in
            match find 58 h with
            | None => headers fuel rest cl
            | Some colon =>
                if iequals (take colon h) (str "content-length") then
                  match parse_content_length (drop (S colon) h) with
                  | None => None
                  | Some n => headers fuel rest n
                  end
                else headers fuel rest cl
            end
        end
  end.

(** The head of a request: its line, and the length its headers declare. *)
Definition parse_head (max_body : Z) (head : list Z) : Error + HttpRequest :=
  match find_crlf head with
  | None => inl bad_request
  | Some eol =>
      let line := take eol head in
      match find SP line, rfind SP line with
      | Some sp1, Some sp2 =>
          if (sp1 =? sp2)%nat then inl bad_request
          else
            let target := take (sp2 - sp1 - 1) (drop (S sp1) line) in
            let '(p, q) := match find 63 target with
                           | Some i => (take i target, drop (S i) target)
                           | None => (target, [])
                           end in
            match headers (length head) (drop (eol + 2) head) 0 with
            | None => inl bad_request
            | Some cl =>
                if max_body <? cl then inl too_large
                else inr (mkRequest (take sp1 line) p q (drop (S sp2) line) [] cl)
            end
      | _, _ => inl bad_request
      end
  end.

Definition with_body (b : list Z) (r : HttpRequest) : HttpRequest :=
  mkRequest (method r) (path r) (query r) (version r) b (content_length r).

Definition http_parse (max_head max_body : Z) (bs : list Z) : ParseResult HttpRequest :=
  match find_head (take (Z.to_nat (Z.min (zlen bs) max_head)) bs) with
  | None => if max_head <=? zlen bs then PError too_large else PNeedMore 1
  | Some i =>
      let head_end := Z.of_nat i + 4 in
      match parse_head max_body (take (Z.to_nat head_end) bs) with
      | inl e => PError e
      | inr r =>
          let total := head_end + content_length r in
          if zlen bs <? total then PNeedMore (total - zlen bs)
          else PMessage (with_body (region head_end (content_length r) bs) r) total
      end
  end.

(** ** Responses *)

(** [std::to_string] of a number that is not negative. *)
Fixpoint digits (fuel : nat) (n : Z) : list Z :=
  match fuel with
  | O => []
  | S fuel => (if n <? 10 then [] else digits fuel (n / 10)) ++ [48 + n mod 10]
  end.
Definition to_string (n : Z) : list Z := digits 20 n.

Definition http_response (status : Z) (reason content_type b : list Z) : list Z :=
  str "HTTP/1.1 " ++ to_string status ++ [SP] ++ reason
  ++ CRLF ++ str "Content-Type: " ++ content_type
  ++ CRLF ++ str "Content-Length: " ++ to_string (zlen b)
  ++ CRLF ++ str "Connection: close" ++ CRLF ++ CRLF ++ b.

(** ** The framer laws *)

(** Is there an empty line here? *)
Definition blank (l : list Z) : bool := at_crlf l && at_crlf (drop 2 l).

Lemma blank_take n l y : (4 <= n)%nat -> (4 <= length l)%nat -> blank (take n l ++ y) = blank l.
Proof.
  intros Hn Hl. destruct l as [|a [|b [|c [|d r]]]]; simpl in Hl; try lia.
  destruct n as [|[|[|[|n]]]]; try lia. done.
Qed.

(** The empty line found is within its prefix, and what follows does not matter. *)
Lemma find_head_prefix l i :
  find_head l = Some i -> (i + 4 <= length l)%nat /\ forall y, find_head (take (i + 4) l ++ y) = Some i.
Proof.
  revert i. induction l as [|x l IH]; intros i H; [done|].
  change (find_head (x :: l)) with (if blank (x :: l) then Some O else S <$> find_head l) in H.
  destruct (blank (x :: l)) eqn:E.
  - injection H as <-. destruct l as [|b [|c [|d r]]]; [done|..].
    1,2: unfold blank in E; simpl in E; by rewrite andb_false_r in E.
    split; [simpl; lia|]. intros y. change (take (0 + 4) (x :: b :: c :: d :: r) ++ y) with ([x; b; c; d] ++ y).
    change (find_head ([x; b; c; d] ++ y)) with (if blank (x :: b :: c :: d :: r) then Some O else S <$> find_head ([b; c; d] ++ y)).
    by rewrite E.
  - destruct (find_head l) as [j|]; [|done]. injection H as <-. destruct (IH j eq_refl) as [Hl Hy].
    split; [simpl; lia|]. intros y. change (take (S j + 4) (x :: l) ++ y) with (x :: (take (j + 4) l ++ y)).
    change (find_head (x :: (take (j + 4) l ++ y))) with
      (if blank (x :: take (j + 4) l ++ y) then Some O else S <$> find_head (take (j + 4) l ++ y)).
    rewrite Hy. change (x :: take (j + 4) l ++ y) with (take (S (j + 4)) (x :: l) ++ y).
    rewrite blank_take by (simpl; lia). by rewrite E.
Qed.

Lemma number_bound v n k :
  0 <= n -> number n v = Some k ->
  n * 10 ^ zlen v <= k < (n + 1) * 10 ^ zlen v.
Proof.
  intros Hn. revert n Hn. induction v as [|c v IH]; intros n Hn H; simpl in H.
  { unfold zlen. simpl. simplify_eq. lia. }
  destruct (Z.ltb_spec c 48), (Z.ltb_spec 57 c); simpl in H; try done.
  specialize (IH (n * 10 + (c - 48)) ltac:(lia) H).
  assert (zlen (c :: v) = zlen v + 1) as -> by (unfold zlen; simpl; lia).
  rewrite Z.pow_add_r by (unfold zlen; lia). assert (0 < 10 ^ zlen v) by (apply Z.pow_pos_nonneg; unfold zlen; lia). nia.
Qed.

Lemma content_length_bound v n : parse_content_length v = Some n -> 0 <= n < 10 ^ 10.
Proof.
  unfold parse_content_length. destruct (zlen (strip v) =? 0), (Z.ltb_spec 10 (zlen (strip v))); simpl; try done.
  intros E. pose proof (number_bound _ 0 n ltac:(lia) E) as [? ?].
  assert (10 ^ zlen (strip v) <= 10 ^ 10) by (apply Z.pow_le_mono_r; lia). lia.
Qed.

Lemma headers_bound fuel rest cl n : 0 <= cl < 10 ^ 10 -> headers fuel rest cl = Some n -> 0 <= n < 10 ^ 10.
Proof.
  revert rest cl. induction fuel as [|fuel IH]; intros rest cl Hc H; simpl in H; [by simplify_eq|].
  destruct (_ <=? _); [by simplify_eq|]. destruct (find_crlf rest) as [nl|]; [|by simplify_eq].
  destruct (find 58 _) as [colon|]; [|by eapply IH]. destruct (iequals _ _); [|by eapply IH].
  destruct (parse_content_length _) as [m|] eqn:E; [|done]. eapply IH; [|exact H]. by apply content_length_bound in E.
Qed.

Lemma parse_head_bound max_body head r : parse_head max_body head = inr r -> 0 <= content_length r < 10 ^ 10.
Proof.
  unfold parse_head. destruct (find_crlf head) as [eol|]; [|done]. cbv zeta.
  destruct (find SP _) as [sp1|]; [|done]. destruct (rfind SP _) as [sp2|]; [|done]. destruct (sp1 =? sp2)%nat; [done|].
  destruct (find 63 _); (destruct (headers _ _ 0) as [cl|] eqn:E; [|done]; destruct (max_body <? cl); [done|];
    intros [= <-]; simpl; eapply headers_bound; [|exact E]; lia).
Qed.

Section Laws.
Context (max_head max_body : Z).

(** Every outcome of the parse. *)
Lemma http_parse_cases bs :
  (find_head (take (Z.to_nat max_head) bs) = None /\
   http_parse max_head max_body bs = if max_head <=? zlen bs then PError too_large else PNeedMore 1)
  \/ exists i, find_head (take (Z.to_nat max_head) bs) = Some i /\ Z.of_nat i + 4 <= max_head /\ Z.of_nat i + 4 <= zlen bs /\
       match parse_head max_body (take (i + 4) bs) with
       | inl e => http_parse max_head max_body bs = PError e
       | inr r => 0 <= content_length r < 10 ^ 10 /\
           http_parse max_head max_body bs =
             (let total := Z.of_nat i + 4 + content_length r in
              if zlen bs <? total then PNeedMore (total - zlen bs)
              else PMessage (with_body (region (Z.of_nat i + 4) (content_length r) bs) r) total)
       end.
Proof.
  unfold http_parse. assert (take (Z.to_nat (Z.min (zlen bs) max_head)) bs = take (Z.to_nat max_head) bs) as ->.
  { destruct (Z.min_spec (zlen bs) max_head) as [[? ->]|[? ->]]; [|done]. unfold zlen in *. rewrite !take_ge by lia. done. }
  destruct (find_head _) as [i|] eqn:E; [right|by left]. exists i. split; [done|].
  destruct (find_head_prefix _ _ E) as [Hl _]. rewrite length_take in Hl. split; [lia|]. split; [unfold zlen; lia|].
  replace (Z.to_nat (Z.of_nat i + 4)) with (i + 4)%nat by lia.
  destruct (parse_head max_body (take (i + 4) bs)) as [e|r] eqn:Er; [done|]. split; [by apply parse_head_bound in Er|done].
Qed.

(** A head that was found is found in any input that starts with it. *)
Lemma find_head_again bs i y :
  find_head (take (Z.to_nat max_head) bs) = Some i ->
  find_head (take (Z.to_nat max_head) (take (i + 4) bs ++ y)) = Some i /\ take (i + 4) (take (i + 4) bs ++ y) = take (i + 4) bs.
Proof.
  intros E. destruct (find_head_prefix _ _ E) as [Hl Hy]. rewrite length_take in Hl.
  assert (length (take (i + 4) bs) = i + 4)%nat as Hlen by (rewrite length_take; lia).
  split; [|rewrite take_app_le by lia; by rewrite take_take, Nat.min_id].
  rewrite take_app, take_take, Hlen, Nat.min_r by lia.
  specialize (Hy (take (Z.to_nat max_head - (i + 4)) y)). rewrite take_take, Nat.min_l in Hy by lia. exact Hy.
Qed.

(** The same parse for any input that agrees on the frame. *)
Lemma http_parse_again bs i r y :
  find_head (take (Z.to_nat max_head) bs) = Some i -> Z.of_nat i + 4 <= zlen bs ->
  parse_head max_body (take (i + 4) bs) = inr r -> 0 <= content_length r ->
  Z.of_nat i + 4 + content_length r <= zlen bs ->
  http_parse max_head max_body (take (Z.to_nat (Z.of_nat i + 4 + content_length r)) bs ++ y) =
    PMessage (with_body (region (Z.of_nat i + 4) (content_length r) bs) r) (Z.of_nat i + 4 + content_length r).
Proof.
  intros E Hi Hr Hc Ht. set (k := Z.to_nat (Z.of_nat i + 4 + content_length r)).
  assert (take k bs ++ y = take (i + 4) bs ++ (drop (i + 4) (take k bs) ++ y)) as Ek.
  { rewrite app_assoc. f_equal. rewrite <- (take_drop (i + 4) (take k bs)) at 1. by rewrite take_take, Nat.min_l by lia. }
  destruct (find_head_again bs i (drop (i + 4) (take k bs) ++ y) E) as [E1 E2]. rewrite <- Ek in E1, E2.
  assert (zlen (take k bs) = Z.of_nat i + 4 + content_length r) as Hk by (unfold zlen in *; rewrite length_take; lia).
  destruct (http_parse_cases (take k bs ++ y)) as [[E3 _]|(i'&E3&_&_&C)]; [congruence|].
  assert (i' = i) as -> by congruence. rewrite E2, Hr in C. destruct C as [_ ->]. cbv zeta.
  rewrite zlen_app, Hk. pose proof (zlen_nonneg y). rewrite (proj2 (Z.ltb_ge _ _)) by lia. do 2 f_equal.
  rewrite region_prefix by lia. rewrite <- (take_drop k bs) at 2. symmetry. apply region_prefix; lia.
Qed.

#[global] Instance http_laws : FramerLaws (http_parse max_head max_body).
Proof.
  constructor.
  - intros bs m k E. destruct (http_parse_cases bs) as [[_ F]|(i&_&_&?&C)]; [rewrite F in E; by case_test_in E|].
    destruct (parse_head _ _) as [e|r]; [congruence|]. destruct C as [? F]. rewrite F in E. cbv zeta in E.
    case_test_in E; [done|]. simplify_eq. lia.
  - intros bs m k x E. destruct (http_parse_cases bs) as [[_ F]|(i&Ei&_&?&C)]; [rewrite F in E; by case_test_in E|].
    destruct (parse_head _ _) as [e|r] eqn:Er; [congruence|]. destruct C as [? F]. rewrite F in E. cbv zeta in E.
    case_test_in E; [done|]. injection E as <- <-.
    pose proof (http_parse_again bs i r (drop (Z.to_nat (Z.of_nat i + 4 + content_length r)) bs ++ x) Ei ltac:(lia) Er ltac:(lia) ltac:(lia)) as H'.
    by rewrite app_assoc, take_drop in H'.
  - intros bs m k E. destruct (http_parse_cases bs) as [[_ F]|(i&Ei&_&?&C)]; [rewrite F in E; by case_test_in E|].
    destruct (parse_head _ _) as [e|r] eqn:Er; [congruence|]. destruct C as [? F]. rewrite F in E. cbv zeta in E.
    case_test_in E; [done|]. injection E as <- <-.
    pose proof (http_parse_again bs i r [] Ei ltac:(lia) Er ltac:(lia) ltac:(lia)) as H'. by rewrite app_nil_r in H'.
  - intros bs e x E. pose proof (zlen_nonneg x). destruct (http_parse_cases bs) as [[En F]|(i&Ei&_&?&C)].
    + rewrite F in E. case_test_in E; [|done]. simplify_eq.
      destruct (http_parse_cases (bs ++ x)) as [[_ ->]|(i&Ei&_)].
      * rewrite zlen_app. by rewrite (proj2 (Z.leb_le _ _)) by lia.
      * rewrite take_app_le in Ei by (unfold zlen in *; lia). congruence.
    + destruct (parse_head _ _) as [e'|r] eqn:Er; [|destruct C as [? F]; rewrite F in E; cbv zeta in E; by case_test_in E].
      destruct (find_head_again bs i (drop (i + 4) bs ++ x) Ei) as [E1 E2]. rewrite app_assoc, take_drop in E1, E2.
      destruct (http_parse_cases (bs ++ x)) as [[E3 _]|(i'&E3&_&_&C')]; [congruence|].
      assert (i' = i) as -> by congruence. rewrite E2, Er in C'. congruence.
  - intros bs n E. destruct (http_parse_cases bs) as [[_ F]|(i&_&?&?&C)]; [rewrite F in E; case_test_in E; by simplify_eq|].
    destruct (parse_head _ _) as [e|r]; [congruence|]. destruct C as [? F]. rewrite F in E. cbv zeta in E.
    pose proof (zlen_nonneg bs). case_test_in E; [simplify_eq; lia|done].
Qed.

End Laws.

(** ** Lines *)

Definition no_cr (l : list Z) : Prop := Forall (fun c => c <> CR) l.
Definition lines (ls : list (list Z)) : list Z := concat (map (fun l => l ++ CRLF) ls).

Lemma find_crlf_line l y : no_cr l -> find_crlf (l ++ CRLF ++ y) = Some (length l).
Proof.
  induction 1 as [|c l Hc Hl IH]; [done|]. cbn [app length find_crlf].
  assert (at_crlf (c :: l ++ CRLF ++ y) = false) as ->.
  { unfold at_crlf. destruct (l ++ CRLF ++ y); [done|]. by rewrite (proj2 (Z.eqb_neq c CR)). }
  by rewrite IH.
Qed.

Lemma find_head_skip c l : c <> CR -> find_head (c :: l) = S <$> find_head l.
Proof.
  intros Hc. change (find_head (c :: l)) with (if blank (c :: l) then Some O else S <$> find_head l).
  assert (blank (c :: l) = false) as ->; [|done]. unfold blank, at_crlf at 1. destruct l; [done|].
  by rewrite (proj2 (Z.eqb_neq c CR)).
Qed.

Lemma find_head_line l y : no_cr l -> find_head (l ++ y) = (fun i => length l + i)%nat <$> find_head y.
Proof.
  induction 1 as [|c l Hc Hl IH]; [simpl; by destruct (find_head y)|]. cbn [app]. rewrite find_head_skip, IH by done.
  by destruct (find_head y).
Qed.

(** The empty line after a sequence of lines that are not empty is the first. *)
Lemma find_head_lines ls y :
  Forall (fun l => no_cr l /\ l <> []) ls -> ls <> [] ->
  find_head (lines ls ++ CRLF ++ y) = Some (length (lines ls) - 2)%nat.
Proof.
  intros H. induction H as [|l ls [Hl Hn] H IH]; [done|]. intros _. unfold lines. cbn [map concat].
  fold (lines ls). rewrite <- !app_assoc, find_head_line by done. destruct ls as [|l2 ls].
  { rewrite app_assoc, length_app, length_app. cbn. f_equal. lia. }
  specialize (IH ltac:(done)). assert (blank (CRLF ++ lines (l2 :: ls) ++ CRLF ++ y) = false) as Hb.
  { apply Forall_cons in H as [[H2 Hn2] _]. destruct l2 as [|c l2]; [done|]. apply Forall_cons in H2 as [Hc _].
    unfold blank. apply andb_false_iff. right.
    change (at_crlf (c :: ((l2 ++ CRLF) ++ lines ls) ++ CRLF ++ y) = false). unfold at_crlf.
    destruct (((l2 ++ CRLF) ++ lines ls) ++ CRLF ++ y); [done|]. by rewrite (proj2 (Z.eqb_neq c CR)). }
  change (find_head (CRLF ++ lines (l2 :: ls) ++ CRLF ++ y)) with
    (if blank (CRLF ++ lines (l2 :: ls) ++ CRLF ++ y) then Some O else S <$> find_head (LF :: lines (l2 :: ls) ++ CRLF ++ y)).
  rewrite Hb, find_head_skip, IH by done. simpl. f_equal.
  assert (2 <= length (lines (l2 :: ls)))%nat by (unfold lines; simpl; rewrite !length_app; simpl; lia).
  rewrite !length_app. simpl. lia.
Qed.

Lemma lines_longer ls : (length ls <= length (lines ls))%nat.
Proof. induction ls as [|l ls IH]; [done|]. unfold lines in *. simpl. rewrite !length_app. simpl. lia. Qed.

Lemma find_none c l : Forall (fun x => x <> c) l -> forall y, find c (l ++ c :: y) = Some (length l).
Proof.
  induction 1 as [|x l Hx Hl IH]; intros y; cbn; [by rewrite Z.eqb_refl|]. rewrite (proj2 (Z.eqb_neq x c)) by done. by rewrite IH.
Qed.
Lemma find_absent c l : Forall (fun x => x <> c) l -> find c l = None.
Proof. induction 1 as [|x l Hx Hl IH]; cbn; [done|]. rewrite (proj2 (Z.eqb_neq x c)) by done. by rewrite IH. Qed.
Lemma rfind_absent c l : Forall (fun x => x <> c) l -> rfind c l = None.
Proof. induction 1 as [|x l Hx Hl IH]; cbn; [done|]. rewrite IH. by rewrite (proj2 (Z.eqb_neq x c)). Qed.
Lemma rfind_last c l y : Forall (fun x => x <> c) y -> rfind c (l ++ c :: y) = Some (length l).
Proof.
  intros Hy. induction l as [|x l IH]; cbn; [by rewrite (rfind_absent c y Hy), Z.eqb_refl|]. by rewrite IH.
Qed.

(** ** Numbers *)

Lemma number_app x y n : number n (x ++ y) = (k ← number n x; number k y).
Proof. revert n. induction x as [|c x IH]; intros n; simpl; [done|]. by destruct (_ || _). Qed.

Lemma digits_chars fuel n : 0 <= n -> Forall (fun c => 48 <= c <= 57) (digits fuel n).
Proof.
  revert n. induction fuel as [|f IH]; intros n Hn; simpl; [done|]. pose proof (Z.mod_pos_bound n 10 ltac:(lia)).
  apply Forall_app. split; [case_test; [done|apply IH; apply Z.div_pos; lia]|]. constructor; [lia|done].
Qed.

Lemma digits_number fuel n : 0 <= n < 10 ^ Z.of_nat fuel -> (0 < fuel)%nat -> number 0 (digits fuel n) = Some n.
Proof.
  revert n. induction fuel as [|f IH]; intros n Hn Hf; [lia|]. cbn [digits]. rewrite number_app.
  pose proof (Z.mod_pos_bound n 10 ltac:(lia)) as Hm. pose proof (Z.div_mod n 10 ltac:(lia)) as Hd.
  assert (forall k, number k [48 + n mod 10] = Some (k * 10 + n mod 10)) as Hl.
  { intros k. cbn. rewrite (proj2 (Z.ltb_ge _ _)), (proj2 (Z.ltb_ge _ _)) by lia. cbn. f_equal. lia. }
  destruct (Z.ltb_spec n 10) as [H|H].
  - change (number 0 [48 + n mod 10] = Some n). rewrite Hl. f_equal. rewrite Z.mod_small; lia.
  - assert (0 < Z.of_nat f). { destruct f; [simpl in Hn; lia|lia]. }
    rewrite IH; [cbn [mbind option_bind]; rewrite Hl; f_equal; lia| |lia].
    replace (10 ^ Z.of_nat (S f)) with (10 * 10 ^ Z.of_nat f) in Hn by (rewrite Nat2Z.inj_succ, Z.pow_succ_r; lia).
    split; [apply Z.div_pos; lia|]. apply Z.div_lt_upper_bound; lia.
Qed.

Lemma digits_len fuel k n : (0 < k)%nat -> 0 <= n < 10 ^ Z.of_nat k -> (length (digits fuel n) <= k)%nat.
Proof.
  revert k n. induction fuel as [|f IH]; intros k n Hk Hn; simpl; [lia|]. rewrite length_app. simpl.
  destruct (Z.ltb_spec n 10); [simpl; lia|]. destruct k as [|[|k]]; [lia|simpl in Hn; lia|].
  assert (length (digits f (n / 10)) <= S k)%nat; [|lia]. apply IH; [lia|].
  replace (10 ^ Z.of_nat (S (S k))) with (10 * 10 ^ Z.of_nat (S k)) in Hn by (rewrite (Nat2Z.inj_succ (S k)), Z.pow_succ_r; lia).
  split; [apply Z.div_pos; lia|]. apply Z.div_lt_upper_bound; lia.
Qed.

Lemma to_string_snoc n : exists x, to_string n = x ++ [48 + n mod 10].
Proof. unfold to_string. generalize 19%nat. intros f. by eexists. Qed.

Lemma strip_front_digit c v : 48 <= c -> strip_front (c :: v) = c :: v.
Proof. intros Hc. cbn. unfold is_ows, SP, TAB. by rewrite !(proj2 (Z.eqb_neq c _)) by lia. Qed.

Lemma content_length_to_string n :
  0 <= n < 10 ^ 10 -> parse_content_length (SP :: to_string n) = Some n.
Proof.
  intros Hn. pose proof (digits_chars 20 n ltac:(lia)) as Hc. fold (to_string n) in Hc. unfold parse_content_length.
  destruct (to_string_snoc n) as [x Ex].
  assert (strip (SP :: to_string n) = to_string n) as ->.
  { unfold strip. change (strip_front (SP :: to_string n)) with (strip_front (to_string n)).
    assert (exists a b z, to_string n = a :: b /\ reverse (to_string n) = (48 + n mod 10) :: z) as (a&b&z&E&E').
    { rewrite Ex, reverse_app. destruct x as [|a x]; [by eexists _, _, _|]. by eexists _, _, _. }
    rewrite E in Hc. apply Forall_cons in Hc as [Ha _].
    rewrite E at 1. rewrite strip_front_digit, <- E, E' by lia. pose proof (Z.mod_pos_bound n 10 ltac:(lia)).
    rewrite strip_front_digit, <- E' by lia. apply reverse_involutive. }
  assert (length (to_string n) <= 10)%nat by (apply digits_len; [lia|done]).
  assert (0 < length (to_string n))%nat by (rewrite Ex, length_app; simpl; lia).
  rewrite (proj2 (Z.eqb_neq _ 0)) by (unfold zlen; lia). rewrite (proj2 (Z.ltb_ge _ _)) by (unfold zlen; lia).
  apply digits_number; [lia|lia].
Qed.

(** ** Round trips *)

(** A header field, without its line end. *)
Definition field (h : list Z * list Z) : list Z := h.1 ++ 58 :: h.2.

(** The length the fields declare: the last one counts, a malformed one is
    refused. *)
Fixpoint declared (hs : list (list Z * list Z)) (cl : Z) : option Z :=
  match hs with
  | [] => Some cl
  | (n, v) :: hs =>
      if iequals n (str "content-length")
      then k ← parse_content_length v; declared hs k
      else declared hs cl
  end.

(** A field the syntax allows: no colon in the name, no line end. *)
Definition field_ok (h : list Z * list Z) : Prop := Forall (fun c => c <> 58) h.1 /\ no_cr h.1 /\ no_cr h.2.

Lemma field_line h : field_ok h -> no_cr (field h) /\ field h <> [].
Proof.
  intros (_&H1&H2). split; [|unfold field; by destruct h.1]. apply Forall_app. split; [done|]. by constructor.
Qed.

Lemma headers_declared hs fuel cl :
  Forall field_ok hs -> (length hs < fuel)%nat -> headers fuel (lines (map field hs) ++ CRLF) cl = declared hs cl.
Proof.
  intros H. revert fuel cl. induction H as [|[n v] hs Hh H IH]; intros fuel cl Hf; (destruct fuel as [|fuel]; [lia|]).
  { done. }
  simpl in Hf. destruct (field_line _ Hh) as [Hc _]. unfold lines. cbn [map concat]. fold (lines (map field hs)).
  cbn [headers declared]. rewrite <- !app_assoc.
  assert ((zlen (field (n, v) ++ CRLF ++ lines (map field hs) ++ CRLF) <=? 2) = false) as ->.
  { apply Z.leb_gt. unfold zlen, field. rewrite !length_app. simpl. lia. }
  rewrite find_crlf_line by done. cbv zeta. rewrite take_app_length.
  replace (drop (length (field (n, v)) + 2) (field (n, v) ++ CRLF ++ lines (map field hs) ++ CRLF))
    with (lines (map field hs) ++ CRLF) by (by rewrite drop_app_add).
  destruct Hh as (Hn&_&_). unfold field at 1. cbn [fst snd] in *. rewrite (find_none 58 n Hn v).
  unfold field. cbn [fst snd]. rewrite take_app_length, (drop_app_ge n) by lia.
  replace (S (length n) - length n)%nat with 1%nat by lia. change (drop 1 (58 :: v)) with v.
  destruct (iequals n _); [|apply IH; lia]. destruct (parse_content_length v) as [k|]; cbn [mbind option_bind]; [apply IH; lia|reflexivity].
Qed.

Definition target (p : list Z) (q : option (list Z)) : list Z := p ++ match q with Some q => 63 :: q | None => [] end.
Definition request_line (m p : list Z) (q : option (list Z)) (v : list Z) : list Z := m ++ SP :: target p q ++ SP :: v.
Definition request_head (m p : list Z) (q : option (list Z)) (v : list Z) (hs : list (list Z * list Z)) : list Z :=
  lines (request_line m p q v :: map field hs) ++ CRLF.

(** Parts of a request line: the method and the version have no space, the path no
    question mark, and nothing a line end. *)
Definition line_ok (m p : list Z) (q : option (list Z)) (v : list Z) : Prop :=
  Forall (fun c => c <> SP) m /\ Forall (fun c => c <> SP) v /\ Forall (fun c => c <> 63) p /\ no_cr (request_line m p q v).

Lemma parse_head_request max_body m p q v hs cl :
  line_ok m p q v -> Forall field_ok hs -> declared hs 0 = Some cl -> cl <= max_body ->
  parse_head max_body (request_head m p q v hs) = inr (mkRequest m p (default [] q) v [] cl).
Proof.
  intros (Hm&Hv&Hp&Hl) Hh Hd Hb. unfold parse_head, request_head, lines. cbn [map concat]. fold (lines (map field hs)).
  rewrite <- !app_assoc, find_crlf_line by done. cbv zeta. rewrite take_app_length.
  unfold request_line at 1. rewrite (find_none SP m Hm). unfold request_line at 1.
  replace (m ++ SP :: target p q ++ SP :: v) with ((m ++ SP :: target p q) ++ SP :: v) by (by rewrite <- app_assoc).
  rewrite (rfind_last SP _ v Hv).
  assert (length (m ++ SP :: target p q) = length m + S (length (target p q)))%nat as El by (by rewrite length_app).
  rewrite El. destruct (Nat.eqb_spec (length m) (length m + S (length (target p q)))); [lia|].
  assert (take (length m + S (length (target p q)) - length m - 1) (drop (S (length m)) (request_line m p q v)) = target p q) as ->.
  { unfold request_line. rewrite drop_app_ge by lia. replace (S (length m) - length m)%nat with 1%nat by lia.
    change (drop 1 (SP :: target p q ++ SP :: v)) with (target p q ++ SP :: v).
    replace (_ - _ - 1)%nat with (length (target p q)) by lia. apply take_app_length. }
  assert (match find 63 (target p q) with Some i => (take i (target p q), drop (S i) (target p q)) | None => (target p q, []) end
          = (p, default [] q)) as ->.
  { unfold target. destruct q as [q|]; simpl; [|by rewrite app_nil_r, find_absent].
    rewrite (find_none 63 p Hp), take_app_length, drop_app_ge by lia. by replace (S (length p) - length p)%nat with 1%nat by lia. }
  replace (drop (length (request_line m p q v) + 2) (request_line m p q v ++ CRLF ++ lines (map field hs) ++ CRLF))
    with (lines (map field hs) ++ CRLF) by (by rewrite drop_app_add).
  rewrite headers_declared by (try done; rewrite !length_app; simpl; pose proof (lines_longer (map field hs)) as H; rewrite length_map in H; lia).
  rewrite Hd, (proj2 (Z.ltb_ge _ _)) by lia. do 2 f_equal; unfold request_line.
  - apply take_app_length.
  - rewrite app_comm_cons, app_assoc, drop_app_ge by lia. by replace (_ - _)%nat with 1%nat by lia.
Qed.

Section RoundTrip.
Context (max_head max_body : Z).

(** C36: Parsing undoes printing.  The text of a request, of any method, target,
    version and header fields the syntax allows, whose fields declare the length of
    its body, parses to exactly that request and consumes exactly it, whatever
    follows; and any cut of it is a request for more and never a message or an
    error. *)
Theorem http_request_round_trip m p q v hs b rest :
  line_ok m p q v -> Forall field_ok hs -> declared hs 0 = Some (zlen b) -> zlen b <= max_body ->
  zlen (request_head m p q v hs) <= max_head ->
  let text := request_head m p q v hs ++ b in
  http_parse max_head max_body (text ++ rest) = PMessage (mkRequest m p (default [] q) v b (zlen b)) (zlen text) /\
  forall x y, text = x ++ y -> y <> [] -> exists n, http_parse max_head max_body x = PNeedMore n.
Proof.
  intros Hl Hh Hd Hb Hm text. set (head := request_head m p q v hs) in *.
  assert (forall y, find_head (head ++ y) = Some (length head - 4)%nat /\ (4 <= length head)%nat) as Hhead.
  { intros y. unfold head, request_head. rewrite <- app_assoc, find_head_lines; [|constructor|done].
    - unfold lines. cbn [map concat]. rewrite !length_app. simpl. split; [f_equal; lia|lia].
    - destruct Hl as (_&_&_&Hn). split; [done|]. unfold request_line. by destruct m.
    - apply Forall_fmap. eapply Forall_impl; [exact Hh|]. intros h. apply field_line. }
  destruct (Hhead []) as [_ H4].
  assert (find_head (take (Z.to_nat max_head) (text ++ rest)) = Some (length head - 4)%nat) as Hf.
  { subst text. unfold zlen in Hm. rewrite <- app_assoc, take_app, take_ge by lia. apply Hhead. }
  assert (find_head (take (Z.to_nat max_head) text) = Some (length head - 4)%nat) as Hf'.
  { subst text. unfold zlen in Hm. rewrite take_app, take_ge by lia. apply Hhead. }
  assert (forall z, take (length head - 4 + 4) (head ++ z) = head) as Ht.
  { intros z. replace (length head - 4 + 4)%nat with (length head) by lia. apply take_app_length. }
  assert (parse_head max_body head = inr (mkRequest m p (default [] q) v [] (zlen b))) as Hp by (by apply parse_head_request).
  assert (Z.of_nat (length head - 4) + 4 = zlen head) as Hz by (unfold zlen; lia). clearbody head.
  assert (http_parse max_head max_body (text ++ rest) = PMessage (mkRequest m p (default [] q) v b (zlen b)) (zlen text)) as Hfull.
  { destruct (http_parse_cases max_head max_body (text ++ rest)) as [[E _]|(i&E&_&_&C)]; [congruence|].
    assert (i = length head - 4)%nat as -> by congruence. subst text. rewrite <- app_assoc, Ht, Hp in C. destruct C as [_ C].
    rewrite app_assoc in C. rewrite C. cbv zeta. cbn [content_length]. rewrite Hz, zlen_app. pose proof (zlen_nonneg rest).
    rewrite (zlen_app head b), (proj2 (Z.ltb_ge _ _)) by lia. unfold with_body. cbn. do 2 f_equal.
    unfold region, zlen. by rewrite !Nat2Z.id, <- app_assoc, drop_app_length, take_app_length. }
  split; [exact Hfull|]. intros x y Exy Hy. destruct (http_parse max_head max_body x) as [r k|n|e] eqn:E; [|by exists n|].
  - pose proof (parse_bound (parse := http_parse max_head max_body) _ _ _ E) as Hk.
    pose proof (parse_stable (parse := http_parse max_head max_body) _ _ _ (y ++ rest) E) as Hs.
    rewrite app_assoc, <- Exy, Hfull in Hs. injection Hs as _ Hs. rewrite Exy, zlen_app in Hs.
    destruct y; [done|]. unfold zlen in *. simpl in *. lia.
  - pose proof (parse_error_stable (parse := http_parse max_head max_body) _ _ (y ++ rest) E) as Hs.
    rewrite app_assoc, <- Exy, Hfull in Hs. done.
Qed.
End RoundTrip.

Lemma http_request_round_trip_witness :
  let hs := [(str "Host", str " x"); (str "Content-Length", str " 3")] in
  let text := request_head (str "POST") (str "/log") (Some (str "a=1")) (str "HTTP/1.1") hs ++ [1; 2; 3] in
  http_parse 16384 1048576 (text ++ [71]) =
    PMessage (mkRequest (str "POST") (str "/log") (str "a=1") (str "HTTP/1.1") [1; 2; 3] 3) (zlen text) /\
  forall x y, text = x ++ y -> y <> [] -> exists n, http_parse 16384 1048576 x = PNeedMore n.
Proof.
  cbv zeta. apply (http_request_round_trip 16384 1048576 (str "POST") (str "/log") (Some (str "a=1")) (str "HTTP/1.1")
    [(str "Host", str " x"); (str "Content-Length", str " 3")] [1; 2; 3] [71]).
  - unfold line_ok, no_cr. vm_compute. repeat split; repeat constructor; discriminate.
  - unfold field_ok, no_cr. vm_compute. repeat constructor; discriminate.
  - vm_compute. reflexivity.
  - vm_compute. discriminate.
  - vm_compute. discriminate.
Defined.

(** A response frames its body.  Whatever the status, reason, content type and
    body, the first empty line of the response ends its head, the header fields
    declare exactly the length of the body, and what follows the head is the body:
    a client that reads responses as the parser reads requests gets it whole. *)
Theorem http_response_frames_body status reason content_type b :
  0 <= status -> no_cr reason -> no_cr content_type -> zlen b < 10 ^ 10 ->
  exists line fields, let head := lines (line :: map field fields) ++ CRLF in
    http_response status reason content_type b = head ++ b /\
    find_head (head ++ b) = Some (length head - 4)%nat /\
    headers (length head) (lines (map field fields) ++ CRLF) 0 = Some (zlen b).
Proof.
  intros Hs Hr Hc Hb.
  set (fs := [(str "Content-Type", SP :: content_type); (str "Content-Length", SP :: to_string (zlen b));
              (str "Connection", str " close")]).
  assert (forall n, 0 <= n -> no_cr (to_string n)) as Hd.
  { intros n Hn. eapply Forall_impl; [exact (digits_chars 20 n Hn)|]. unfold CR. simpl. lia. }
  pose proof (zlen_nonneg b) as H0.
  assert (Forall field_ok fs) as Hf.
  { unfold fs. repeat (apply Forall_cons; split); try done;
      (split; [vm_compute; repeat constructor; discriminate|]; split; [vm_compute; repeat constructor; discriminate|]); cbn [snd].
    - by apply Forall_cons.
    - apply Forall_cons. split; [done|by apply Hd].
    - vm_compute. repeat constructor; discriminate. }
  exists (str "HTTP/1.1 " ++ to_string status ++ [SP] ++ reason), fs. cbv zeta.
  assert (no_cr (str "HTTP/1.1 " ++ to_string status ++ [SP] ++ reason)) as Hl.
  { apply Forall_app. split; [vm_compute; repeat constructor; discriminate|]. apply Forall_app. split; [by apply Hd|].
    by apply Forall_cons. }
  split; [|split].
  - unfold http_response, lines, fs. cbn [map concat]. unfold field. cbn [fst snd]. rewrite <- !app_assoc. done.
  - rewrite <- app_assoc, find_head_lines; [|constructor|done].
    + unfold lines. cbn [map concat]. rewrite !length_app. simpl. f_equal. lia.
    + split; [done|]. done.
    + apply Forall_fmap. eapply Forall_impl; [exact Hf|]. intros h. apply field_line.
  - rewrite headers_declared; [|done|].
    + unfold fs, declared. change (iequals (str "Content-Type") _) with false. change (iequals (str "Content-Length") _) with true.
      change (iequals (str "Connection") _) with false. cbv iota. by rewrite content_length_to_string.
    + rewrite length_app. pose proof (lines_longer ((str "HTTP/1.1 " ++ to_string status ++ [SP] ++ reason) :: map field fs)).
      simpl in *. lia.
Qed.

Lemma http_response_frames_body_witness :
  exists line fields, let head := lines (line :: map field fields) ++ CRLF in
    http_response 200 (str "OK") (str "text/plain") (str "hello") = head ++ str "hello" /\
    find_head (head ++ str "hello") = Some (length head - 4)%nat /\
    headers (length head) (lines (map field fields) ++ CRLF) 0 = Some (zlen (str "hello")).
Proof.
  apply (http_response_frames_body 200 (str "OK") (str "text/plain") (str "hello")).
  - lia.
  - vm_compute. repeat constructor; discriminate.
  - vm_compute. repeat constructor; discriminate.
  - vm_compute. reflexivity.
Defined.

End Http.
