(* ===== verification/SockAddr.v ===== *)
(** * Socket addresses and sockets ([src/net/sock_addr.cpp], [src/net/socket.cpp])

    Module [Addr]: [SockAddr] as the 128 bytes of [sockaddr_storage] with the layouts of
    Linux on a little-endian machine.  Module [Sock]: the wrappers of [namespace sock]
    over a kernel that is any function of the calls made so far. *)

From stdpp Require Import base option list strings.
From Stdlib Require Import ZArith Lia.
From S2P Require Import Prelude Backend Http.
Import Errors.
Local Open Scope Z_scope.

Module Addr.

(** ** Storage *)

Definition store (off : nat) (bs l : list Z) : list Z := take off l ++ bs ++ drop (off + length bs) l.
Definition load (off n : nat) (l : list Z) : list Z := take n (drop off l).
Definition bytes16 (x : Z) : list Z := [x mod 256; x / 256].
Definition bytes32 (x : Z) : list Z := [x mod 256; x / 2 ^ 8 mod 256; x / 2 ^ 16 mod 256; x / 2 ^ 24].
Definition value (l : list Z) : Z := foldr (fun b x => b + 256 * x) 0 l.

Definition htons (x : Z) : Z := x mod 256 * 256 + x / 256.
Definition ntohs : Z -> Z := htons.
Definition htonl (x : Z) : Z := value (rev (bytes32 x)).

Definition AF_UNIX : Z := 1.
Definition AF_INET : Z := 2.
Definition AF_INET6 : Z := 10.
Definition INADDR_ANY : Z := 0.
Definition INADDR_LOOPBACK : Z := 0x7f000001.
Definition sun_path_size : Z := 108.

(** The bytes of [ss_]. *)
Definition SockAddr : Type := list Z.
Definition addr0 : SockAddr := replicate 128 0.
Definition family (a : SockAddr) : Z := value (load 0 2 a).

(** ** Construction *)

Definition ipv4 (addr_be port : Z) : SockAddr :=
  let a := store 0 (bytes16 AF_INET) addr0 in
  let a := store 4 (bytes32 addr_be) a in
  store 2 (bytes16 (htons port)) a.

Definition any (port : Z) : SockAddr := ipv4 INADDR_ANY port.
Definition loopback (port : Z) : SockAddr := ipv4 (htonl INADDR_LOOPBACK) port.

Definition unix_domain (path : list Z) : Result SockAddr :=
  if bool_decide (path = []) || (sun_path_size <=? zlen path) then Bad (make_error Net Invalid)
  else
    let a := store 0 (bytes16 AF_UNIX) addr0 in
    let a := store 2 path a in
    Val (store (2 + length path) [0] a).

(** The characters up to the first zero byte; [None] when there is none. *)
Fixpoint c_str (l : list Z) : option (list Z) :=
  match l with
  | [] => None
  | 0 :: _ => Some []
  | c :: l => s ← c_str l; Some (c :: s)
  end.

Definition unix_path (a : SockAddr) : option (list Z) :=
  if negb (family a =? AF_UNIX) then Some [] else c_str (drop 2 a).

(** [inet_pton] and [inet_ntop]: texts of addresses and their bytes. *)
Section Text.
Context (pton4 pton6 : list Z -> option (list Z)) (ntop4 ntop6 : list Z -> list Z).

(** [s.c_str()] ends at the first zero byte of the text, or at its end. *)
Definition text (ip : list Z) : list Z := default ip (c_str ip).

Definition parse (ip : list Z) (port : Z) : Result SockAddr :=
  match pton4 (text ip) with
  | Some b => Val (ipv4 (value b) port)
  | None =>
      match pton6 (text ip) with
      | Some b =>
          let a := store 0 (bytes16 AF_INET6) addr0 in
          let a := store 8 b a in
          Val (store 2 (bytes16 (htons port)) a)
      | None => Bad (make_error Net Invalid)
      end
  end.

(** ** Reading *)

Definition port (a : SockAddr) : Z :=
  if family a =? AF_INET then ntohs (value (load 2 2 a))
  else if family a =? AF_INET6 then ntohs (value (load 2 2 a))
  else 0.

Definition len (a : SockAddr) : Z :=
  if family a =? AF_INET6 then 28
  else if family a =? AF_INET then 16
  else if family a =? AF_UNIX then 110
  else 128.

Definition to_string (a : SockAddr) : option (list Z) :=
  if family a =? AF_INET then
    Some (ntop4 (load 4 4 a) ++ Http.str ":" ++ Http.to_string (ntohs (value (load 2 2 a))))
  else if family a =? AF_INET6 then
    Some (Http.str "[" ++ ntop6 (load 8 16 a) ++ Http.str "]:" ++ Http.to_string (ntohs (value (load 2 2 a))))
  else if family a =? AF_UNIX then p ← unix_path a; Some (Http.str "unix:" ++ p)
  else Some (Http.str "<unknown>").

(** [operator==]. *)
Definition eqb (a b : SockAddr) : bool := bool_decide (a = b).

(** ** Lemmas *)

Lemma store_load off n bs l : n = length bs -> (off + length bs <= length l)%nat -> load off n (store off bs l) = bs.
Proof.
  intros -> H. unfold load, store. rewrite drop_app_length' by (rewrite length_take; lia). by rewrite take_app_length.
Qed.

Lemma store_length off bs l : (off + length bs <= length l)%nat -> length (store off bs l) = length l.
Proof. intros H. unfold store. rewrite !length_app, length_take, length_drop. lia. Qed.

(** A store leaves the bytes before and behind it alone. *)
Lemma load_store_before off n o bs l : (off + n <= o)%nat -> (o + length bs <= length l)%nat ->
  load off n (store o bs l) = load off n l.
Proof.
  intros H1 H2. unfold load, store. rewrite drop_app_le by (rewrite length_take; lia).
  rewrite take_app_le by (rewrite length_drop, length_take; lia). rewrite <- (take_drop o l) at 2.
  rewrite drop_app_le by (rewrite length_take; lia). by rewrite take_app_le by (rewrite length_drop, length_take; lia).
Qed.

Lemma load_store_behind off n o bs l : (o + length bs <= off)%nat -> (o + length bs <= length l)%nat ->
  load off n (store o bs l) = load off n l.
Proof.
  intros H1 H2. unfold load, store. rewrite drop_app_ge by (rewrite length_take; lia).
  rewrite length_take_le by lia. rewrite drop_app_ge by lia. rewrite drop_drop. f_equal. f_equal. lia.
Qed.

Lemma htons_htons p : 0 <= p < 2 ^ 16 -> ntohs (value (bytes16 (htons p))) = p.
Proof.
  intros H. unfold ntohs, value, bytes16, htons. cbn -[Z.modulo Z.div Z.mul]. rewrite Z.mul_0_r, Z.add_0_r.
  pose proof (Z.div_mod p 256). pose proof (Z.mod_pos_bound p 256). assert (0 <= p / 256 < 256) by (split; [apply Z.div_pos|apply Z.div_lt_upper_bound]; lia).
  rewrite (Z.add_comm (p mod 256 * 256)), Z.mod_add, Z.div_add, (Z.mod_small (p / 256)), (Z.div_small (p / 256)) by lia.
  rewrite Z.add_0_l. rewrite (Z.mul_comm 256), Z.mod_add, Z.div_add, (Z.mod_small (p / 256)), (Z.div_small (p / 256)) by lia. lia.
Qed.

Definition is_bytes (l : list Z) : Prop := Forall (fun b => 0 <= b < 256) l.

Lemma bytes32_value b : length b = 4%nat -> is_bytes b -> bytes32 (value b) = b.
Proof.
  intros Hl Hb. destruct b as [|b0 [|b1 [|b2 [|b3 [|]]]]]; try done.
  unfold is_bytes in Hb. rewrite !Forall_cons in Hb. destruct Hb as (H0 & H1 & H2 & H3 & _).
  unfold bytes32, value. cbn [foldr]. change (2 ^ 8) with 256. change (2 ^ 16) with (256 * 256). change (2 ^ 24) with (256 * 256 * 256).
  rewrite <- !Z.div_div by lia.
  assert (forall b x, 0 <= b < 256 -> (b + 256 * x) mod 256 = b) as Em.
  { intros b x Hx. by rewrite (Z.mul_comm 256), Z.mod_add, Z.mod_small by lia. }
  assert (forall b x, 0 <= b < 256 -> (b + 256 * x) / 256 = x) as Ed.
  { intros b x Hx. rewrite (Z.mul_comm 256), Z.div_add, Z.div_small by lia. lia. }
  rewrite !Ed, !Em by done. by rewrite Z.mul_0_r, Z.add_0_r.
Qed.

(** An internet address: its family, its port and its bytes at offset [off]. *)
Lemma inet_fields f off b p :
  (0 <= p < 2 ^ 16) -> (4 <= off)%nat -> (off + length b <= 128)%nat ->
  let a := store 2 (bytes16 (htons p)) (store off b (store 0 (bytes16 f) addr0)) in
  value (load 0 2 a) = value (bytes16 f) /\ ntohs (value (load 2 2 a)) = p /\ load off (length b) a = b /\ length a = 128%nat.
Proof.
  intros Hp Ho Hl a. set (a0 := store 0 (bytes16 f) addr0). set (a1 := store off b a0).
  assert (length a0 = 128%nat) as L0 by (unfold a0; rewrite store_length; [done|cbn; lia]).
  assert (length a1 = 128%nat) as L1 by (unfold a1; rewrite store_length; [done|rewrite L0; lia]).
  unfold a. fold a0. fold a1. split; [|split; [|split]].
  - rewrite load_store_before by (cbn; rewrite ?L1; lia). unfold a1. rewrite load_store_before by (rewrite ?L0; lia).
    unfold a0. by rewrite store_load by (cbn; lia).
  - rewrite store_load by (cbn; lia). by apply htons_htons.
  - rewrite load_store_behind by (cbn; rewrite ?L1; lia). unfold a1. apply store_load; [done|]. rewrite L0. lia.
  - rewrite store_length; [done|]. cbn. lia.
Qed.

(** What [inet_pton] promises: the bytes of an address. *)
Context (pton4_bytes : forall s b, pton4 s = Some b -> length b = 4%nat /\ is_bytes b)
        (pton6_bytes : forall s b, pton6 s = Some b -> length b = 16%nat /\ is_bytes b).

(** An address that was parsed holds the bytes of the text and the port it was given. *)
Theorem sock_addr_round_trip ip p a :
  0 <= p < 2 ^ 16 -> parse ip p = Val a ->
  port a = p /\ length a = 128%nat /\
  ((family a = AF_INET /\ len a = 16 /\ pton4 (text ip) = Some (load 4 4 a)) \/
   (family a = AF_INET6 /\ len a = 28 /\ pton4 (text ip) = None /\ pton6 (text ip) = Some (load 8 16 a))).
Proof.
  intros Hp. unfold parse. destruct (pton4 (text ip)) as [b|] eqn:E4.
  - intros [= <-]. destruct (pton4_bytes _ _ E4) as [Hl Hb]. unfold ipv4. rewrite bytes32_value by done.
    destruct (inet_fields AF_INET 4 b p Hp) as (Hf & Hq & Hx & HL); [lia|lia|]. rewrite Hl in Hx.
    set (a := store 2 _ _) in *. clearbody a. unfold port, len, family. rewrite Hf, Hx. split; [done|]. split; [done|]. by left.
  - destruct (pton6 (text ip)) as [b|] eqn:E6; [|done]. intros [= <-]. destruct (pton6_bytes _ _ E6) as [Hl Hb].
    destruct (inet_fields AF_INET6 8 b p Hp) as (Hf & Hq & Hx & HL); [lia|lia|]. rewrite Hl in Hx.
    set (a := store 2 _ _) in *. clearbody a. unfold port, len, family. rewrite Hf, Hx. split; [done|]. split; [done|]. by right.
Qed.

(** Two parsed addresses are equal exactly when the texts name the same bytes and the
    ports agree. *)
Lemma parsed_eqb ip ip' p p' a a' :
  0 <= p < 2 ^ 16 -> 0 <= p' < 2 ^ 16 -> parse ip p = Val a -> parse ip' p' = Val a' ->
  eqb a a' = true <->
  p = p' /\ pton4 (text ip) = pton4 (text ip') /\ (pton4 (text ip) = None -> pton6 (text ip) = pton6 (text ip')).
Proof.
  intros Hp Hp' Ha Ha'. unfold eqb. rewrite bool_decide_eq_true. split.
  - intros <-. destruct (sock_addr_round_trip ip p a Hp Ha) as (<- & _ & H). destruct (sock_addr_round_trip ip' p' a Hp' Ha') as (<- & _ & H').
    split; [done|]. assert (AF_INET <> AF_INET6) by done.
    destruct H as [(? & _ & E)|(? & _ & E & E6)], H' as [(? & _ & E')|(? & _ & E' & E6')]; try congruence;
      (split; [congruence|intros; congruence]).
  - intros (<- & E4 & E6). unfold parse in Ha, Ha'. rewrite <- E4 in Ha'. destruct (pton4 (text ip)); [congruence|].
    rewrite <- E6 in Ha' by done. destruct (pton6 (text ip)); congruence.
Qed.

End Text.

Lemma c_str_app s l : Forall (fun c => c <> 0) s -> c_str (s ++ 0 :: l) = Some s.
Proof. induction 1 as [|c s Hc _ IH]; [done|]. cbn. destruct c; [done|..]; by rewrite IH. Qed.

(** A path without zero bytes that fits is read back as it was given; others are refused. *)
Theorem unix_path_round_trip path :
  Forall (fun c => c <> 0) path ->
  match unix_domain path with
  | Val a => 0 < zlen path < 108 /\ unix_path a = Some path /\ port a = 0 /\ len a = 110
  | Bad e => e = make_error Net Invalid /\ (path = [] \/ 108 <= zlen path)
  end.
Proof.
  intros Hz. unfold unix_domain, sun_path_size. case_bool_decide as E; [split; [done|by left]|]. cbn [orb].
  destruct (Z.leb_spec 108 (zlen path)) as [El|El]; [split; [done|by right]|]. unfold zlen in *.
  assert (0 < length path)%nat as Hpos by (destruct path; cbn; [done|lia]).
  set (a0 := store 0 (bytes16 AF_UNIX) addr0). set (a1 := store 2 path a0).
  assert (length a0 = 128%nat) as L0 by (unfold a0; rewrite store_length; [done|cbn; lia]).
  assert (length a1 = 128%nat) as L1 by (unfold a1; rewrite store_length; [done|rewrite L0; lia]).
  assert (family (store (2 + length path) [0] a1) = AF_UNIX) as Hf.
  { unfold family. rewrite load_store_before by (cbn [length]; lia). unfold a1. rewrite load_store_before by lia.
    unfold a0. by rewrite store_load by (cbn; lia). }
  split; [lia|]. unfold unix_path, port, len. rewrite Hf. split; [|done].
  change (negb (AF_UNIX =? AF_UNIX)) with false. cbv iota.
  unfold store at 1. rewrite drop_app_le by (rewrite length_take; lia).
  replace (drop 2 (take (2 + length path) a1)) with path; [apply c_str_app, Hz|].
  rewrite <- (store_load 2 (length path) path a0) at 1 by lia. fold a1. unfold load. by rewrite <- take_drop_commute.
Qed.

(** A path that begins with a zero byte, the name of an abstract socket, is accepted. *)
Lemma leading_zero_accepted :
  match unix_domain [0; 97; 98] with Val a => unix_path a = Some [] /\ load 2 3 a = [0; 97; 98] | Bad _ => False end.
Proof. vm_compute. by split. Qed.

End Addr.

Module Sock.
Import Addr.

Inductive Option := TCP_NODELAY | TCP_QUICKACK | SO_RCVBUF | SO_SNDBUF | SO_KEEPALIVE | TCP_KEEPIDLE
  | SO_TIMESTAMPING | SO_REUSEADDR | SO_REUSEPORT.
Inductive Call :=
  | CSocket (family : Z) (nonblock cloexec : bool)
  | CGetfl (fd : Z)
  | CSetfl (fd flags : Z)
  | CSetsockopt (fd : Z) (o : Option) (v : Z)
  | CGetsockname (fd : Z)
  | CGetpeername (fd : Z)
  | CBind (fd : Z) (addr : list Z)
  | CListen (fd backlog : Z)
  | CSendmsg (fd : Z) (payload fds : list Z)
  | CClose (fd : Z).

(** The result of a call, an error number negated when it fails, and the address of
    [getsockname] and [getpeername]. *)
Record Answer := mkAnswer { ret : Z; addr : SockAddr }.

Record SocketOptions := mkOptions {
  nodelay : bool; quickack : bool; rcvbuf : Z; sndbuf : Z; keepalive : bool; keepalive_idle : Z;
  timestamping : bool; nonblock : bool }.

Definition O_NONBLOCK : Z := 2048.
Definition EINTR : Z := 4.
Definition RX_FLAGS : Z := 4 + 8 + 16.

Section Kernel.
Context (kernel : list Call -> Call -> Answer).

(** A fallible operation extends the log of calls. *)
Definition M (A : Type) : Type := list Call -> Result A * list Call.
Definition mret {A} (x : A) : M A := fun l => (Val x, l).
Definition merr {A} (e : Error) : M A := fun l => (Bad e, l).
Definition mbind {A B} (m : M A) (f : A -> M B) : M B :=
  fun l => match m l with (Val x, l) => f x l | (Bad e, l) => (Bad e, l) end.
Notation "x <- m ; k" := (mbind m (fun x => k)) (at level 100, m at next level, right associativity).

Definition raw (c : Call) : M Answer := fun l => (Val (kernel l c), l ++ [c]).
(** A call whose failure is the operation's. *)
Definition sys (c : Call) : M Answer :=
  a <- raw c; if ret a <? 0 then merr (errno_error (- ret a)) else mret a.
Definition when (b : bool) (m : M unit) : M unit := if b then m else mret tt.

(** As built for Linux, where [socket] takes the flags. *)
Definition socket_nb (family : Z) : M Z := a <- sys (CSocket family true true); mret (ret a).

Definition set_nonblocking (fd : Z) : M unit :=
  a <- sys (CGetfl fd); _ <- sys (CSetfl fd (Z.lor (ret a) O_NONBLOCK)); mret tt.

Definition set (fd : Z) (o : Option) (v : Z) : M unit := _ <- sys (CSetsockopt fd o v); mret tt.

(** With [AFX_WITH_TIMESTAMPING]. *)
Definition apply (fd : Z) (o : SocketOptions) : M unit :=
  a <- raw (CGetsockname fd);
  let fam := if ret a =? 0 then family (addr a) else AF_INET in
  let inet := (fam =? AF_INET) || (fam =? AF_INET6) in
  _ <- when (nonblock o) (set_nonblocking fd);
  _ <- when (inet && nodelay o) (set fd TCP_NODELAY 1);
  _ <- when (inet && quickack o) (set fd TCP_QUICKACK 1);
  _ <- when (negb (rcvbuf o =? 0)) (set fd SO_RCVBUF (rcvbuf o));
  _ <- when (negb (sndbuf o =? 0)) (set fd SO_SNDBUF (sndbuf o));
  _ <- when (inet && keepalive o)
         (_ <- set fd SO_KEEPALIVE 1;
          when (negb (keepalive_idle o =? 0)) (set fd TCP_KEEPIDLE (keepalive_idle o ÷ 1000000000)));
  when (timestamping o) (set fd SO_TIMESTAMPING RX_FLAGS).

Definition create (family : Z) (o : SocketOptions) : M Z :=
  fd <- socket_nb family;
  fun l =>
    match apply fd o l with
    | (Val _, l) => (Val fd, l)
    | (Bad e, l) => (Bad e, l ++ [CClose fd])
    end.

Definition bind (fd : Z) (a : SockAddr) (reuse_addr reuse_port : bool) : M unit :=
  _ <- when reuse_addr (_ <- raw (CSetsockopt fd SO_REUSEADDR 1); mret tt);
  _ <- when reuse_port (_ <- raw (CSetsockopt fd SO_REUSEPORT 1); mret tt);
  _ <- sys (CBind fd (take (Z.to_nat (len a)) a)); mret tt.

Definition listen (fd backlog : Z) : M unit := _ <- sys (CListen fd backlog); mret tt.
Definition local_addr (fd : Z) : M SockAddr := a <- sys (CGetsockname fd); mret (addr a).
Definition peer_addr (fd : Z) : M SockAddr := a <- sys (CGetpeername fd); mret (addr a).

(** The loop around [sendmsg]; [fuel] bounds the calls. *)
Fixpoint sendmsg_loop (fuel : nat) (c : Call) (l : list Call) : option (Z * list Call) :=
  match fuel with
  | O => None
  | S fuel => let r := ret (kernel l c) in if r =? - EINTR then sendmsg_loop fuel c (l ++ [c]) else Some (r, l ++ [c])
  end.

Definition send_fds (fuel : nat) (fd : Z) (payload fds : list Z) (l : list Call) : option (Result Z * list Call) :=
  if bool_decide (payload = []) || bool_decide (fds = []) then Some (Bad (make_error Net Invalid), l)
  else if 8 <? zlen fds then Some (Bad (make_error Net Invalid), l)
  else
    '(r, l) ← sendmsg_loop fuel (CSendmsg fd payload fds) l;
    Some (if r <? 0 then Bad (errno_error (- r)) else Val r, l).

(** ** What the options ask for *)

Definition requests (fd : Z) (inet : bool) (flags : Z) (o : SocketOptions) : list Call :=
  (if nonblock o then [CGetfl fd; CSetfl fd (Z.lor flags O_NONBLOCK)] else [])
  ++ (if inet && nodelay o then [CSetsockopt fd TCP_NODELAY 1] else [])
  ++ (if inet && quickack o then [CSetsockopt fd TCP_QUICKACK 1] else [])
  ++ (if negb (rcvbuf o =? 0) then [CSetsockopt fd SO_RCVBUF (rcvbuf o)] else [])
  ++ (if negb (sndbuf o =? 0) then [CSetsockopt fd SO_SNDBUF (sndbuf o)] else [])
  ++ (if inet && keepalive o then
        CSetsockopt fd SO_KEEPALIVE 1 ::
        (if negb (keepalive_idle o =? 0) then [CSetsockopt fd TCP_KEEPIDLE (keepalive_idle o ÷ 1000000000)] else [])
      else [])
  ++ (if timestamping o then [CSetsockopt fd SO_TIMESTAMPING RX_FLAGS] else []).

(** The calls in order, up to the first that fails. *)
Fixpoint attempt (cs : list Call) (l : list Call) : Result unit * list Call :=
  match cs with
  | [] => (Val tt, l)
  | c :: cs =>
      let r := ret (kernel l c) in
      if r <? 0 then (Bad (errno_error (- r)), l ++ [c]) else attempt cs (l ++ [c])
  end.

Lemma attempt_app cs cs' l :
  attempt (cs ++ cs') l = match attempt cs l with (Val _, l) => attempt cs' l | (Bad e, l) => (Bad e, l) end.
Proof. revert l. induction cs as [|c cs IH]; intros l; [done|]. cbn. destruct (_ <? _); [done|]. apply IH. Qed.

Lemma set_attempt fd o v l : set fd o v l = attempt [CSetsockopt fd o v] l.
Proof. unfold set, sys, mbind, raw. cbn. by destruct (_ <? _). Qed.

Lemma when_attempt b m cs l : (forall l, m l = attempt cs l) -> when b m l = attempt (if b then cs else []) l.
Proof. intros H. unfold when. destruct b; [apply H|done]. Qed.

Lemma then_attempt m k cs cs' l :
  m l = attempt cs l -> (forall l, k tt l = attempt cs' l) -> mbind m k l = attempt (cs ++ cs') l.
Proof. intros Hm Hk. unfold mbind. rewrite attempt_app, Hm. destruct (attempt cs l) as [[[]|e] l']; [apply Hk|done]. Qed.

Lemma set_nonblocking_attempt fd l :
  set_nonblocking fd l = attempt [CGetfl fd; CSetfl fd (Z.lor (ret (kernel l (CGetfl fd))) O_NONBLOCK)] l.
Proof. unfold set_nonblocking, sys, mbind, raw. cbn. destruct (_ <? _); [done|]. cbn. by destruct (_ <? _). Qed.

(** The family the options are chosen for. *)
Definition is_inet (a : Answer) : bool :=
  let fam := if ret a =? 0 then family (addr a) else AF_INET in (fam =? AF_INET) || (fam =? AF_INET6).

Lemma apply_attempt fd o l :
  apply fd o l =
    let l1 := l ++ [CGetsockname fd] in
    attempt (requests fd (is_inet (kernel l (CGetsockname fd))) (ret (kernel l1 (CGetfl fd))) o) l1.
Proof.
  cbv zeta. unfold apply, requests. unfold mbind at 1, raw. fold (is_inet (kernel l (CGetsockname fd))).
  set (inet := is_inet _). set (l1 := l ++ _).
  apply then_attempt; [unfold when; destruct (nonblock o); [apply set_nonblocking_attempt|done]|]. intros l2.
  repeat (apply then_attempt; [apply when_attempt; intros; try apply set_attempt|intros]).
  - apply (then_attempt _ _ [_]); [apply set_attempt|]. intros. apply when_attempt. intros. apply set_attempt.
  - apply when_attempt. intros. apply set_attempt.
Qed.

(** Where an attempt ends: all calls made, or the calls up to the first that fails. *)
Lemma attempt_outcome cs l r l' : attempt cs l = (r, l') ->
  match r with
  | Val _ => l' = l ++ cs
  | Bad e => exists done c, done ++ [c] `prefix_of` cs /\ l' = l ++ done ++ [c] /\
      ret (kernel (l ++ done) c) < 0 /\ e = errno_error (- ret (kernel (l ++ done) c))
  end.
Proof.
  revert l. induction cs as [|c cs IH]; intros l; cbn; [intros [= <- <-]; by rewrite app_nil_r|].
  destruct (Z.ltb_spec (ret (kernel l c)) 0) as [E|E].
  - intros [= <- <-]. exists [], c. rewrite app_nil_r. split; [by exists cs|]. done.
  - intros H. apply IH in H. destruct r as [[]|e].
    + by rewrite H, <- app_assoc.
    + destruct H as (done & c' & [tl Htl] & Hl & Hr). exists (c :: done), c'.
      split; [exists tl; cbn; by rewrite Htl|]. rewrite Hl, <- !app_assoc in *. done.
Qed.

Lemma create_unfold fam o l :
  create fam o l =
    let fd := ret (kernel l (CSocket fam true true)) in
    let l1 := l ++ [CSocket fam true true] in
    if fd <? 0 then (Bad (errno_error (- fd)), l1)
    else match apply fd o l1 with (Val _, l) => (Val fd, l) | (Bad e, l) => (Bad e, l ++ [CClose fd]) end.
Proof. unfold create, socket_nb, sys. unfold mbind, raw. cbv zeta. by destruct (_ <? _). Qed.

(** A socket is created with exactly the options asked for, in order, or not at all:
    when one of them is refused the descriptor is closed and that error returned. *)
Theorem socket_created_or_closed fam o l r l' :
  create fam o l = (r, l') ->
  let s := CSocket fam true true in
  let fd := ret (kernel l s) in
  let l1 := (l ++ [s]) ++ [CGetsockname fd] in
  let cs := requests fd (is_inet (kernel (l ++ [s]) (CGetsockname fd))) (ret (kernel l1 (CGetfl fd))) o in
  match r with
  | Val x => x = fd /\ 0 <= fd /\ l' = l1 ++ cs
  | Bad e =>
      (fd < 0 /\ l' = l ++ [s] /\ e = errno_error (- fd)) \/
      (0 <= fd /\ exists done c, done ++ [c] `prefix_of` cs /\ l' = l1 ++ done ++ [c] ++ [CClose fd] /\
         ret (kernel (l1 ++ done) c) < 0 /\ e = errno_error (- ret (kernel (l1 ++ done) c)))
  end.
Proof.
  rewrite create_unfold. cbv zeta.
  set (fd := ret (kernel l (CSocket fam true true))).
  destruct (Z.ltb_spec fd 0) as [E|E]; [intros [= <- <-]; by left|]. rewrite apply_attempt. cbv zeta.
  destruct (attempt _ _) as [r1 l2] eqn:Ea. apply attempt_outcome in Ea. destruct r1 as [[]|e]; intros [= <- <-].
  - done.
  - right. split; [done|]. destruct Ea as (done & c & Hp & Hl & Hr). exists done, c. split; [done|]. split; [|done].
    by rewrite Hl, <- !app_assoc.
Qed.

End Kernel.
End Sock.
