(* ===== verification/Topology.v ===== *)
(** * Topology and core sets

    [Topology] of [src/include/afx/sys/topology.hpp] and [src/src/sys/topology.cpp]:
    the cores read from sysfs, the lists of CPUs it prints, and the choice of one
    core per physical core; [CoreSet] of [src/include/afx/sys/affinity.hpp] as its
    words.  The contents of sysfs are arguments: the directories in the order they
    are listed, with the files of each. *)

From stdpp Require Import base option gmap list strings sorting.
From Stdlib Require Import ZArith Lia.
From S2P Require Import Prelude Http.
Local Open Scope Z_scope.

(** ** Core sets *)

Module CoreSet.

Record CoreSet := mkSet { bits_ : list Z; all_ : bool }.

Definition empty_set : CoreSet := mkSet [] false.
Definition all : CoreSet := mkSet [] true.

(** [std::vector::resize] to more elements. *)
Definition grow (n : nat) (l : list Z) : list Z := l ++ replicate (n - length l) 0.

Definition add (cpu : Z) (s : CoreSet) : CoreSet :=
  if cpu <? 0 then s
  else
    let bits := if zlen (bits_ s) * 64 <=? cpu then grow (Z.to_nat (cpu / 64 + 1)) (bits_ s) else bits_ s in
    mkSet (alter (fun w => Z.lor w (Z.shiftl 1 (cpu mod 64))) (Z.to_nat (cpu / 64)) bits) (all_ s).

Definition contains (cpu : Z) (s : CoreSet) : bool :=
  all_ s || ((0 <=? cpu) && (cpu <? zlen (bits_ s) * 64) &&
             Z.testbit (nth (Z.to_nat (cpu / 64)) (bits_ s) 0) (cpu mod 64)).

Definition cpus (s : CoreSet) : list Z :=
  filter (fun i => contains i s = true) (Z.of_nat <$> seq 0 (Z.to_nat (zlen (bits_ s) * 64))).

Definition size (s : CoreSet) : Z := if all_ s then u64_max else zlen (cpus s).
Definition is_empty (s : CoreSet) : bool := negb (all_ s) && match bits_ s with [] => true | _ => false end.

Definition of_list (ids : list Z) : CoreSet := foldl (fun s i => add i s) empty_set ids.

(** The integers from [a] to [b]. *)
Definition zrange (a b : Z) : list Z := (fun i => a + Z.of_nat i) <$> seq 0 (Z.to_nat (b - a + 1)).

Definition range (first last : Z) : CoreSet := of_list (zrange first last).

Lemma nth_grow n l i : nth i (grow n l) 0 = nth i l 0.
Proof.
  unfold grow. destruct (decide (i < length l)%nat); [by rewrite app_nth1|].
  rewrite app_nth2 by lia. rewrite (nth_overflow l) by lia. rewrite nth_lookup.
  destruct (replicate _ 0 !! _) as [x|] eqn:E; [|done]. by apply lookup_replicate in E as [-> _].
Qed.

Lemma bit_alter l j x :
  0 <= x -> (Z.to_nat (x / 64) < length l)%nat -> 0 <= j ->
  Z.testbit (nth (Z.to_nat (j / 64)) (alter (fun w => Z.lor w (Z.shiftl 1 (x mod 64))) (Z.to_nat (x / 64)) l) 0) (j mod 64) =
  Z.testbit (nth (Z.to_nat (j / 64)) l 0) (j mod 64) || (j =? x).
Proof.
  intros Hx Hl Hj. pose proof (Z.mod_pos_bound x 64 ltac:(lia)). pose proof (Z.mod_pos_bound j 64 ltac:(lia)).
  pose proof (Z.div_mod x 64 ltac:(lia)). pose proof (Z.div_mod j 64 ltac:(lia)).
  pose proof (Z.div_pos x 64 Hx ltac:(lia)). pose proof (Z.div_pos j 64 Hj ltac:(lia)).
  rewrite !nth_lookup. destruct (decide (x / 64 = j / 64)) as [E|E].
  - rewrite <- E. rewrite list_lookup_alter_eq. destruct (lookup_lt_is_Some_2 _ _ Hl) as [w ->]. simpl.
    rewrite Z.lor_spec, Z.shiftl_spec by lia. f_equal. destruct (Z.eqb_spec j x) as [->|Hne]; [by rewrite Z.sub_diag|].
    destruct (j mod 64 - x mod 64) as [|p|p] eqn:Ed; [lia| |done]. by destruct p.
  - rewrite list_lookup_alter_ne by lia. destruct (Z.eqb_spec j x) as [->|_]; [done|by rewrite orb_false_r].
Qed.

Lemma nth_beyond (l : list Z) j : zlen l * 64 <= j -> nth (Z.to_nat (j / 64)) l 0 = 0.
Proof. intros H. apply nth_overflow. unfold zlen in H. assert (Z.of_nat (length l) <= j / 64) by (apply Z.div_le_lower_bound; lia). lia. Qed.

(** Whether a CPU is in the set, by its bit alone. *)
Lemma contains_bit j s : contains j s = all_ s || ((0 <=? j) && Z.testbit (nth (Z.to_nat (j / 64)) (bits_ s) 0) (j mod 64)).
Proof.
  unfold contains. destruct (all_ s); [done|]. simpl. destruct (0 <=? j); [|done]. simpl.
  destruct (Z.ltb_spec j (zlen (bits_ s) * 64)); [done|]. by rewrite nth_beyond, Z.testbit_0_l by lia.
Qed.

Lemma contains_add j x s : contains j (add x s) = contains j s || ((0 <=? x) && (j =? x)).
Proof.
  unfold add. destruct (Z.ltb_spec x 0); [by destruct (Z.leb_spec 0 x); [lia|rewrite orb_false_r]|].
  destruct (Z.leb_spec 0 x); [|lia]. rewrite !contains_bit. cbn [bits_ all_]. destruct (all_ s); [done|]. simpl.
  set (l := if _ <=? x then _ else _).
  assert (Z.to_nat (x / 64) < length l)%nat as Hl.
  { pose proof (Z.div_pos x 64 ltac:(lia) ltac:(lia)). subst l. unfold zlen, grow. destruct (Z.leb_spec (Z.of_nat (length (bits_ s)) * 64) x).
    - rewrite length_app, length_replicate. lia.
    - assert (x / 64 < Z.of_nat (length (bits_ s))) by (apply Z.div_lt_upper_bound; lia). lia. }
  destruct (Z.leb_spec 0 j); [|destruct (Z.eqb_spec j x); [lia|done]]. rewrite bit_alter by done. simpl. do 2 f_equal.
  subst l. destruct (_ <=? x); [apply nth_grow|done].
Qed.

Lemma contains_of_list ids j : contains j (of_list ids) = bool_decide (0 <= j /\ j ∈ ids).
Proof.
  unfold of_list. assert (forall s, contains j (foldl (fun s i => add i s) s ids) = contains j s || bool_decide (0 <= j /\ j ∈ ids)) as H.
  { induction ids as [|i ids IH]; intros s; simpl.
    - rewrite bool_decide_eq_false_2; [by rewrite orb_false_r|]. intros [_ H]. by apply not_elem_of_nil in H.
    - rewrite IH, contains_add, <- orb_assoc. f_equal. apply eq_bool_prop_intro.
      rewrite orb_True, andb_True, !bool_decide_spec, Is_true_true, Z.leb_le, Is_true_true, Z.eqb_eq, elem_of_cons. naive_solver lia. }
  rewrite H. assert (contains j empty_set = false) as ->; [|done]. rewrite contains_bit. simpl.
  destruct (Z.to_nat (j / 64)); rewrite Z.testbit_0_l; by rewrite andb_false_r.
Qed.

Lemma elem_of_zrange a b i : i ∈ zrange a b <-> a <= i <= b.
Proof.
  unfold zrange. rewrite list_elem_of_fmap. split.
  - intros (k & -> & Hk). apply elem_of_seq in Hk. lia.
  - intros Hi. exists (Z.to_nat (i - a)). rewrite elem_of_seq. lia.
Qed.

Lemma elem_of_cpus s j : all_ s = false -> j ∈ cpus s <-> contains j s = true.
Proof.
  intros Ha. unfold cpus. rewrite list_elem_of_filter, list_elem_of_fmap. split; [tauto|]. intros Hc. split; [done|].
  unfold contains in Hc. rewrite Ha in Hc. simpl in Hc. apply andb_prop in Hc as [[H1 H2]%andb_prop _].
  exists (Z.to_nat j). rewrite elem_of_seq. lia.
Qed.

End CoreSet.

(** ** The topology *)

Module Topo.
Import CoreSet.

(** *** Text *)

Definition is_digit (c : Z) : bool := (48 <=? c) && (c <=? 57).
Definition is_space (c : Z) : bool := (c =? 32) || ((9 <=? c) && (c <=? 13)).

(** The value of the digits at the front. *)
Fixpoint digits_value (acc : Z) (s : list Z) : Z :=
  match s with
  | c :: s => if is_digit c then digits_value (acc * 10 + (c - 48)) s else acc
  | [] => acc
  end.

Fixpoint skip_space (s : list Z) : list Z :=
  match s with c :: r => if is_space c then skip_space r else s | [] => [] end.

(** [std::atoi], of a value that an [int] holds. *)
Definition atoi (s : list Z) : Z :=
  match skip_space s with
  | [] => 0
  | c :: r => if c =? 45 then - digits_value 0 r else digits_value 0 (if c =? 43 then r else c :: r)
  end.

(** The tokens [std::getline] reads between commas: nothing after the last one. *)
Fixpoint tokens (cur : list Z) (s : list Z) : list (list Z) :=
  match s with
  | [] => match cur with [] => [] | _ => [reverse cur] end
  | c :: s => if c =? 44 then reverse cur :: tokens [] s else tokens (c :: cur) s
  end.

(** What follows the first dash. *)
Fixpoint after_dash (s : list Z) : option (list Z) :=
  match s with [] => None | c :: s => if c =? 45 then Some s else after_dash s end.

Definition parse_token (tok : list Z) : list Z :=
  let '(a, b) := match after_dash tok with Some r => (atoi tok, atoi r) | None => (atoi tok, atoi tok) end in
  zrange a b.

Definition parse_cpu_list (s : list Z) : list Z := mjoin (parse_token <$> tokens [] s).

(** [std::from_chars] of an [int]: no space, no plus sign, in range. *)
Definition from_chars (s : list Z) : option Z :=
  let '(sign, s) := match s with c :: r => if c =? 45 then (-1, r) else (1, s) | [] => (1, s) end in
  match s with
  | c :: _ =>
      if is_digit c then
        let v := sign * digits_value 0 s in
        if (- 2 ^ 31 <=? v) && (v <? 2 ^ 31) then Some v else None
      else None
  | [] => None
  end.

(** *** Detection *)

Record Core := mkCore { id : Z; package : Z; physical : Z; numa : Z; smt_siblings : list Z }.

(** A directory of CPUs: its name, what its files hold if they can be read. *)
Record CpuDir := mkDir {
  d_name : list Z;
  physical_package_id : option Z;
  core_id : option Z;
  thread_siblings_list : option (list Z) }.

Definition starts_with (p s : list Z) : bool := bool_decide (take (length p) s = p).

(** The first node directory, in the order of the listing, that lists the CPU. *)
Fixpoint node_of (nodes : list (list Z * list (list Z))) (name : list Z) : Z :=
  match nodes with
  | [] => -1
  | (nn, entries) :: nodes =>
      let nid :=
        if starts_with (Http.str "node") nn then
          match from_chars (drop 4 nn) with Some n => if n <? 0 then None else Some n | None => None end
        else None in
      match nid with
      | Some n => if bool_decide (name ∈ entries) then n else node_of nodes name
      | None => node_of nodes name
      end
  end.

Definition core_of (nodes : list (list Z * list (list Z))) (d : CpuDir) : option Core :=
  if negb (starts_with (Http.str "cpu") (d_name d)) then None
  else
    match from_chars (drop 3 (d_name d)) with
    | Some i =>
        if i <? 0 then None
        else
          let sib := match thread_siblings_list d with Some l => parse_cpu_list l | None => [] end in
          Some (mkCore i (default 0 (physical_package_id d)) (default i (core_id d)) (node_of nodes (d_name d))
                       (match sib with [] => [i] | _ => sib end))
    | None => None
    end.

Definition id_le (a b : Core) : Prop := id a <= id b.
#[export] Instance id_le_dec : RelDecision id_le.
Proof. intros a b. unfold id_le. apply _. Defined.

(** [detect]: without sysfs there is one flat core for each of the [online] ones. *)
Definition detect (sysfs : option (list CpuDir)) (nodes : list (list Z * list (list Z))) (online : Z) : list Core :=
  match sysfs with
  | None => (fun i => mkCore i 0 i (-1) [i]) <$> zrange 0 ((if 0 <? online then online else 1) - 1)
  | Some dirs => merge_sort id_le (omap (core_of nodes) dirs)
  end.

Definition core (t : list Core) (logical : Z) : option Core := head (filter (fun c => id c = logical) t).
Definition numa_node_of (t : list Core) (core_id : Z) : Z := match core t core_id with Some c => numa c | None => -1 end.

(** The first core of each physical one. *)
Fixpoint firsts (seen : gset (Z * Z)) (t : list Core) : list Core :=
  match t with
  | [] => []
  | c :: t =>
      let key := (package c, physical c) in
      if decide (key ∈ seen) then firsts seen t else c :: firsts ({[key]} ∪ seen) t
  end.

Definition physical_cores (t : list Core) : list Z := id <$> firsts ∅ t.

(** *** Printed lists *)

(** The kernel's format: ranges, a single CPU without the dash. *)
Definition print_range (r : Z * Z) : list Z :=
  if fst r =? snd r then Http.to_string (fst r) else Http.to_string (fst r) ++ [45] ++ Http.to_string (snd r).

Fixpoint print_list (rs : list (Z * Z)) : list Z :=
  match rs with
  | [] => []
  | [r] => print_range r
  | r :: rs => print_range r ++ [44] ++ print_list rs
  end.

Lemma digits_value_number s v acc rest :
  Http.number acc s = Some v -> (match rest with c :: _ => is_digit c = false | [] => True end) ->
  digits_value acc (s ++ rest) = v.
Proof.
  revert acc. induction s as [|c s IH]; intros acc; simpl.
  - intros [= <-] Hr. destruct rest as [|c rest]; [done|]. simpl. by rewrite Hr.
  - destruct ((c <? 48) || (57 <? c)) eqn:E; [done|]. apply orb_false_iff in E as [E1 E2].
    assert (is_digit c = true) as -> by (unfold is_digit; lia). apply IH.
Qed.

Definition in_int (n : Z) : Prop := 0 <= n < 2 ^ 31.

Lemma to_string_shape n : in_int n -> exists c s, Http.to_string n = c :: s /\ is_digit c = true.
Proof.
  intros Hn. pose proof (Http.digits_chars 20 n ltac:(unfold in_int in *; lia)) as Hc. unfold Http.to_string.
  destruct (Http.digits 20 n) as [|c s] eqn:E.
  - cbn [Http.digits] in E. apply app_eq_nil in E as [_ E]. done.
  - exists c, s. split; [done|]. apply Forall_cons_1 in Hc as [Hc _]. unfold is_digit. lia.
Qed.

Lemma atoi_to_string n rest :
  in_int n -> (match rest with c :: _ => is_digit c = false | [] => True end) -> atoi (Http.to_string n ++ rest) = n.
Proof.
  intros Hn Hr. destruct (to_string_shape n Hn) as (c & s & E & Hc). unfold is_digit in Hc.
  transitivity (digits_value 0 (Http.to_string n ++ rest)).
  - unfold atoi. rewrite E. cbn [app skip_space]. assert (is_space c = false) as -> by (unfold is_space; lia).
    destruct (Z.eqb_spec c 45); [lia|]. destruct (Z.eqb_spec c 43); [lia|]. done.
  - apply digits_value_number; [|done]. unfold Http.to_string. apply Http.digits_number; [|lia]. unfold in_int in Hn. lia.
Qed.

Lemma to_string_no_dash n r : in_int n -> after_dash (Http.to_string n ++ r) = after_dash r.
Proof.
  intros Hn. pose proof (Http.digits_chars 20 n ltac:(unfold in_int in *; lia)) as Hc. unfold Http.to_string.
  induction Hc as [|c s Hc _ IH]; [done|]. simpl. destruct (Z.eqb_spec c 45); [lia|done].
Qed.

Definition range_ok (r : Z * Z) : Prop := in_int (fst r) /\ in_int (snd r).

Lemma parse_printed_range r : range_ok r -> parse_token (print_range r) = zrange (fst r) (snd r).
Proof.
  destruct r as [a b]. intros [Ha Hb]. unfold parse_token, print_range. simpl in *. destruct (Z.eqb_spec a b) as [->|Hne].
  - rewrite <- (app_nil_r (Http.to_string b)). rewrite to_string_no_dash by done. simpl.
    by rewrite atoi_to_string by done.
  - rewrite to_string_no_dash by done. simpl. rewrite atoi_to_string by done.
    rewrite <- (app_nil_r (Http.to_string b)). by rewrite atoi_to_string by done.
Qed.

Lemma tokens_app cur s rest : Forall (fun c => c <> 44) s -> tokens cur (s ++ rest) = tokens (reverse s ++ cur) rest.
Proof.
  revert cur. induction s as [|c s IH]; intros cur H; [done|]. apply Forall_cons_1 in H as [Hc Hs]. simpl.
  destruct (Z.eqb_spec c 44); [done|]. rewrite IH by done. by rewrite reverse_cons, <- app_assoc.
Qed.

Lemma print_range_chars r : range_ok r -> Forall (fun c => c <> 44) (print_range r) /\ print_range r <> [].
Proof.
  intros [Ha Hb]. assert (forall n, in_int n -> Forall (fun c => c <> 44) (Http.to_string n)) as Hd.
  { intros n Hn. eapply Forall_impl; [apply (Http.digits_chars 20 n); unfold in_int in *; lia|]. simpl. lia. }
  destruct (to_string_shape _ Ha) as (c & s & E & _). unfold print_range. destruct (fst r =? snd r).
  - split; [by apply Hd|]. by rewrite E.
  - split; [|by rewrite E]. apply Forall_app. split; [by apply Hd|]. apply Forall_app. split; [|by apply Hd].
    by constructor.
Qed.

(** the list of CPUs that sysfs prints for any ranges is read back as their
    CPUs, in order. *)
Theorem cpu_list_round_trip rs :
  Forall range_ok rs -> parse_cpu_list (print_list rs) = mjoin ((fun r => zrange (fst r) (snd r)) <$> rs).
Proof.
  intros H. unfold parse_cpu_list. induction H as [|r rs Hr Hrs IH]; [done|].
  destruct (print_range_chars r Hr) as [Hc Hn]. destruct rs as [|r' rs].
  - cbn [print_list]. rewrite <- (app_nil_r (print_range r)), tokens_app, app_nil_r by done. cbn [tokens].
    destruct (reverse (print_range r)) as [|c l] eqn:E.
    { apply (f_equal reverse) in E. rewrite reverse_involutive in E. done. }
    rewrite <- E, reverse_involutive. cbn. by rewrite parse_printed_range.
  - cbn [print_list]. rewrite tokens_app, app_nil_r by done. cbn [app tokens]. rewrite Z.eqb_refl, reverse_involutive.
    rewrite !fmap_cons. cbn [mjoin list_join]. fold (@mjoin list _ Z). rewrite parse_printed_range by done. f_equal. exact IH.
Qed.

Lemma cpu_list_round_trip_witness : parse_cpu_list (Http.str "0-3,8,10-12") = [0; 1; 2; 3; 8; 10; 11; 12].
Proof.
  change (Http.str "0-3,8,10-12") with (print_list [(0, 3); (8, 8); (10, 12)]).
  rewrite (cpu_list_round_trip [(0, 3); (8, 8); (10, 12)]) by (repeat constructor; simpl; lia). reflexivity.
Defined.

(** *** One core for each physical core *)

Definition key (c : Core) : Z * Z := (package c, physical c).

Lemma firsts_spec seen t :
  firsts seen t `sublist_of` t /\ NoDup (key <$> firsts seen t) /\
  (forall k, k ∈ key <$> firsts seen t <-> k ∉ seen /\ k ∈ key <$> t).
Proof.
  revert seen. induction t as [|c t IH]; intros seen; simpl.
  { split_and!; [done|constructor|]. intros k. set_solver. }
  destruct (decide ((package c, physical c) ∈ seen)) as [Hin|Hin].
  - destruct (IH seen) as (H1 & H2 & H3). split_and!; [by apply sublist_cons|done|]. intros k. rewrite H3. set_solver.
  - destruct (IH ({[(package c, physical c)]} ∪ seen)) as (H1 & H2 & H3). split_and!.
    + by apply sublist_skip.
    + simpl. constructor; [|done]. rewrite H3. set_solver.
    + intros k. simpl. rewrite !elem_of_cons, H3. destruct (decide (k = key c)) as [->|Hne]; set_solver.
Qed.

(** The cores are in the order of their numbers, each once, whatever the listing. *)
Lemma detect_sorted dirs nodes online : Sorted id_le (detect (Some dirs) nodes online).
Proof. apply Sorted_merge_sort. intros a b. unfold id_le. lia. Qed.

Lemma detect_complete dirs nodes online : detect (Some dirs) nodes online ≡ₚ omap (core_of nodes) dirs.
Proof. apply merge_sort_Permutation. Qed.

End Topo.
