(* ===== verification/Runtime.v ===== *)
(** * The runtime

    [Runtime] of [src/include/afx/runtime.hpp] and [src/src/runtime.cpp]: groups of
    shards, the placement of their threads on cores, and starting, shutting down
    and joining them.  Threads interleave: each shard runs [thread_main], the
    signal thread runs [signal_thread_main], and any number of callers run
    [start], [shutdown] and [join] (the owner, its destructor, a signal handler),
    one access to shared state at a time.  A step that uses an event manager after
    its end is [None].  Of an event manager the model has what these threads see:
    whether it exists, [running_], [stop_], and the [begin_shutdown] posted to it;
    the loop itself is EventLoop.v. *)

From stdpp Require Import base option gmap list strings.
From Stdlib Require Import ZArith Lia.
From S2P Require Import Prelude Http Topology.
Local Open Scope Z_scope.

Module Runtime.
Import CoreSet Topo.

(** ** Data *)

Inductive Placement := OnePerPhysicalCore | OnePerLogicalCore | Explicit | NoPlacement.

Record ThreadConfig := mkThread { cores : CoreSet; placement : Placement; sched_other : bool }.

(** Where a shard's thread is in [thread_main], with the core it got; [TFail] stores
    its failure. *)
Inductive Tpc :=
  | TNone | TPin | TFail | TSched (core : Z) | TMake (core : Z) | TPublish | TReady | TSetup (n : nat) | TEnter | TLoop | TLeave
  | TUnpublish | TDestroy | TExit.

Record Shard := mkShard {
  name : list Z;
  cfg : ThreadConfig;
  setup : list nat;            (* the functions registered by [each] *)
  requested_core : Z;
  bound_core : Z;
  pc : Tpc;
  em : bool;                   (* the published pointer is not null *)
  ready : bool;
  failed : bool;
  alive : bool;                (* the event manager exists *)
  running_ : bool;
  stop_ : bool;
  inbox : bool;                (* [begin_shutdown] is in the mailbox *)
  shutting_down : bool;
  ran : list nat }.

Definition new_shard (nm : list Z) (c : ThreadConfig) : Shard :=
  mkShard nm c [] (-1) (-1) TNone false false false false false false false false [].

Definition set_pc p s := mkShard (name s) (cfg s) (setup s) (requested_core s) (bound_core s) p (em s) (ready s) (failed s) (alive s) (running_ s) (stop_ s) (inbox s) (shutting_down s) (ran s).
Definition set_setup f s := mkShard (name s) (cfg s) f (requested_core s) (bound_core s) (pc s) (em s) (ready s) (failed s) (alive s) (running_ s) (stop_ s) (inbox s) (shutting_down s) (ran s).
Definition set_core r b s := mkShard (name s) (cfg s) (setup s) r b (pc s) (em s) (ready s) (failed s) (alive s) (running_ s) (stop_ s) (inbox s) (shutting_down s) (ran s).
Definition set_shared e r f s := mkShard (name s) (cfg s) (setup s) (requested_core s) (bound_core s) (pc s) e r f (alive s) (running_ s) (stop_ s) (inbox s) (shutting_down s) (ran s).
Definition set_em a r s := mkShard (name s) (cfg s) (setup s) (requested_core s) (bound_core s) (pc s) (em s) (ready s) (failed s) a r (stop_ s) (inbox s) (shutting_down s) (ran s).
Definition set_ask st i d s := mkShard (name s) (cfg s) (setup s) (requested_core s) (bound_core s) (pc s) (em s) (ready s) (failed s) (alive s) (running_ s) st i d (ran s).
Definition set_ran l s := mkShard (name s) (cfg s) (setup s) (requested_core s) (bound_core s) (pc s) (em s) (ready s) (failed s) (alive s) (running_ s) (stop_ s) (inbox s) (shutting_down s) l.

(** ** Groups *)

Definition shard_name (nm : list Z) (i : nat) : list Z := nm ++ Http.str "-" ++ Http.to_string (Z.of_nat i).

(** [spawn_group]: the shards, and the group's first index and size. *)
Definition spawn_group (nm : list Z) (n : nat) (c : ThreadConfig) (shards : list Shard) : list Shard * (nat * nat) :=
  (shards ++ ((fun i => new_shard (shard_name nm i) c) <$> seq 0 n), (length shards, n)).

Definition each (g : nat * nat) (f : nat) (shards : list Shard) : list Shard :=
  imap (fun i s => if (fst g <=? i)%nat && (i <? fst g + snd g)%nat then set_setup (setup s ++ [f]) s else s) shards.

(** ** Placement *)

(** The core of shard [i], and the counter of physical cores after it. *)
Definition place (topo : list Core) (i phys_i : nat) (c : ThreadConfig) : Z * nat :=
  let phys := physical_cores topo in
  match placement c with
  | OnePerPhysicalCore =>
      match phys with [] => (-1, phys_i) | _ => (nth (phys_i mod length phys) phys (-1), S phys_i) end
  | OnePerLogicalCore =>
      (match topo with [] => -1 | _ => default (-1) (id <$> topo !! (i mod length topo)%nat) end, phys_i)
  | Explicit => (match cpus (cores c) with [] => -1 | cs => nth (i mod length cs) cs (-1) end, phys_i)
  | NoPlacement => (-1, phys_i)
  end.

(** The cores of all shards, in the order of [start]. *)
Fixpoint placements (topo : list Core) (i phys_i : nat) (cs : list ThreadConfig) : list Z :=
  match cs with
  | [] => []
  | c :: cs => let '(core, phys_i) := place topo i phys_i c in core :: placements topo (S i) phys_i cs
  end.

(** ** A shard's thread *)

Inductive Pinned := PinOk | PinUnsupported | PinFailed.

(** What the system and the application answer to a step. *)
Record Answer := mkAnswer { pin : Pinned; sched_ok : bool; drained : bool; accepted : bool; pipe_ok : bool }.

(** One iteration of the loop: the posted [begin_shutdown] runs, and a loop that is
    shutting down stops once it has drained or its deadline has passed. *)
Definition poll_once (a : Answer) (s : Shard) : Shard :=
  let down := shutting_down s || inbox s in
  set_ask (stop_ s || (down && drained a)) false down s.

Definition thread_step (a : Answer) (s : Shard) : Shard :=
  match pc s with
  | TNone | TExit => s
  | TPin =>
      if 0 <=? requested_core s then
        match pin a with
        | PinOk => set_pc (TSched (requested_core s)) s
        | PinUnsupported => set_pc (TSched (-1)) s
        | PinFailed => set_pc TFail s
        end
      else set_pc (TSched (requested_core s)) s
  | TSched core => if negb (sched_ok a) && negb (sched_other (cfg s)) then set_pc TFail s else set_pc (TMake core) s
  | TFail => set_pc TExit (set_shared (em s) true true s)
  | TMake core => set_pc TPublish (set_core (requested_core s) core (set_em true false s))
  | TPublish => set_pc TReady (set_shared true (ready s) (failed s) s)
  | TReady => set_pc (TSetup (length (setup s))) (set_shared (em s) true (failed s) s)
  | TSetup O => set_pc TEnter s
  | TSetup (S n) => set_pc (TSetup n) (set_ran (ran s ++ option_list (setup s !! (length (setup s) - S n)%nat)) s)
  | TEnter => set_pc TLoop (set_em (alive s) true s)
  | TLoop => if stop_ s then set_pc TLeave s else poll_once a s
  | TLeave => set_pc TUnpublish (set_em (alive s) false s)
  | TUnpublish => set_pc TDestroy (set_shared false (ready s) (failed s) s)
  | TDestroy => set_pc TExit (set_em false (running_ s) s)
  end.

(** ** Callers *)

Inductive Call := KStart | KShutdown | KJoin.

Inductive Cpc :=
  | CIdle | CStart (i phys_i : nat) | CPipe | CLoad (i : nat) | CIsRunning (i : nat) | CPost (i : nat) | CStop (i : nat)
  | CSigStop | CSigWrite | CJoin (i : nat) | CJoinSignal.

Record Caller := mkCaller { cpc : Cpc; script : list Call }.

(** The signal thread, and the pipe that wakes it. *)
Inductive Spc := SNone | SBegin | SCheck | SPoll | SClose | SExit.
Inductive Pipe := PipeNone | PipeOpen (written : bool) | PipeClosed.

Record Runtime := mkRt {
  shards : list Shard;
  topo_ : list Core;
  signal_handlers : list Z;
  stopping_ : bool;
  started_ : bool;
  callers : list Caller;
  signal_thread : Spc;
  signal_stop_ : bool;
  signal_selfpipe : Pipe;
  handled : list nat;          (* handlers run, by position *)
  stray : nat }.               (* bytes written to a descriptor that was closed *)

Definition set_shards l r := mkRt l (topo_ r) (signal_handlers r) (stopping_ r) (started_ r) (callers r) (signal_thread r) (signal_stop_ r) (signal_selfpipe r) (handled r) (stray r).
Definition set_flags sp st r := mkRt (shards r) (topo_ r) (signal_handlers r) sp st (callers r) (signal_thread r) (signal_stop_ r) (signal_selfpipe r) (handled r) (stray r).
Definition set_callers c r := mkRt (shards r) (topo_ r) (signal_handlers r) (stopping_ r) (started_ r) c (signal_thread r) (signal_stop_ r) (signal_selfpipe r) (handled r) (stray r).
Definition set_signal t st p h n r := mkRt (shards r) (topo_ r) (signal_handlers r) (stopping_ r) (started_ r) (callers r) t st p h n.

Definition set_shard (i : nat) (s : Shard) (r : Runtime) : Runtime := set_shards (<[i := s]> (shards r)) r.

(** The next call of a caller. *)
Definition begin_call (r : Runtime) (c : Caller) : Caller * Runtime :=
  match script c with
  | [] => (mkCaller CIdle [], r)
  | KStart :: k =>
      if started_ r then (mkCaller CIdle k, r) else (mkCaller (CStart 0 0) k, set_flags (stopping_ r) true r)
  | KShutdown :: k =>
      if stopping_ r then (mkCaller CIdle k, r) else (mkCaller (CLoad 0) k, set_flags true (started_ r) r)
  | KJoin :: k => (mkCaller (CJoin 0) k, r)
  end.

(** The accesses of [start]: a thread is launched, at last that of the signals. *)
Definition start_step (a : Answer) (c : Caller) (r : Runtime) : Caller * Runtime :=
  let go p := mkCaller p (script c) in
  match cpc c with
  | CStart i p =>
      match shards r !! i with
      | Some s =>
          let '(core, p) := place (topo_ r) i p (cfg s) in
          (go (CStart (S i) p), set_shard i (set_pc TPin (set_core core (bound_core s) s)) r)
      | None => (go (match signal_handlers r with [] => CIdle | _ => CPipe end), r)
      end
  | CPipe =>
      (go CIdle, if pipe_ok a then set_signal SBegin (signal_stop_ r) (PipeOpen false) (handled r) (stray r) r else r)
  | _ => (c, r)
  end.

(** The accesses of [shutdown] after its exchange of [stopping_]. *)
Definition shutdown_step (a : Answer) (c : Caller) (r : Runtime) : option (Caller * Runtime) :=
  let go p := mkCaller p (script c) in
  match cpc c with
  | CLoad i =>
      match shards r !! i with
      | Some s => Some (go (if em s then CIsRunning i else CLoad (S i)), r)
      | None => Some (go CSigStop, r)
      end
  | CIsRunning i =>
      s ← shards r !! i;
      if alive s then Some (go (if running_ s then CPost i else CStop i), r) else None
  | CPost i =>
      s ← shards r !! i;
      if alive s then
        if accepted a then Some (go (CLoad (S i)), set_shard i (set_ask (stop_ s) true (shutting_down s) s) r)
        else Some (go (CStop i), r)
      else None
  | CStop i =>
      s ← shards r !! i;
      if alive s then Some (go (CLoad (S i)), set_shard i (set_ask true (inbox s) (shutting_down s) s) r) else None
  | CSigStop => Some (go CSigWrite, set_signal (signal_thread r) true (signal_selfpipe r) (handled r) (stray r) r)
  | CSigWrite =>
      Some (go CIdle,
            match signal_selfpipe r with
            | PipeNone => r
            | PipeOpen _ => set_signal (signal_thread r) (signal_stop_ r) (PipeOpen true) (handled r) (stray r) r
            | PipeClosed => set_signal (signal_thread r) (signal_stop_ r) PipeClosed (handled r) (S (stray r)) r
            end)
  | _ => Some (c, r)
  end.

(** [join] passes the threads that have ended; otherwise it stays where it is. *)
Definition join_step (c : Caller) (r : Runtime) : Caller :=
  let go p := mkCaller p (script c) in
  match cpc c with
  | CJoin i =>
      match shards r !! i with
      | Some s => match pc s with TNone | TExit => go (CJoin (S i)) | _ => c end
      | None => go CJoinSignal
      end
  | CJoinSignal => match signal_thread r with SNone | SExit => go CIdle | _ => c end
  | _ => c
  end.

(** One access of a caller. *)
Definition caller_step (a : Answer) (c : Caller) (r : Runtime) : option (Caller * Runtime) :=
  match cpc c with
  | CIdle => Some (begin_call r c)
  | CStart _ _ | CPipe => Some (start_step a c r)
  | CJoin _ | CJoinSignal => Some (join_step c r, r)
  | _ => shutdown_step a c r
  end.

(** ** The signal thread *)

Inductive Event := EvNone | EvPipe | EvSignal (n : Z) | EvNoSignalfd.

(** The handlers of a signal, by position. *)
Definition handlers_of (hs : list Z) (n : Z) : list nat :=
  omap (fun x => if (snd x : Z) =? n then Some (fst x) else None) (imap pair hs).

Definition signal_step (ev : Event) (r : Runtime) : Runtime :=
  let go t := set_signal t (signal_stop_ r) (signal_selfpipe r) (handled r) (stray r) r in
  match signal_thread r with
  | SNone | SExit => r
  | SBegin => match ev with EvNoSignalfd => go SExit | _ => go SCheck end
  | SCheck => if signal_stop_ r then go SClose else go SPoll
  | SPoll =>
      match ev, signal_selfpipe r with
      | EvPipe, PipeOpen true => go SClose
      | EvSignal _, PipeOpen true => go SClose
      | EvSignal n, _ => set_signal SCheck (signal_stop_ r) (signal_selfpipe r) (handled r ++ handlers_of (signal_handlers r) n) (stray r) r
      | _, _ => go SCheck
      end
  | SClose => set_signal SExit (signal_stop_ r) PipeClosed (handled r) (stray r) r
  end.

(** ** Reading the shards *)

Record ShardInfo := mkInfo { i_name : list Z; i_requested : Z; i_bound : Z; i_running : bool; i_failed : bool }.

Definition shard_info (r : Runtime) (i : nat) : ShardInfo :=
  match shards r !! i with
  | Some s => mkInfo (name s) (requested_core s) (bound_core s) (em s) (failed s)
  | None => mkInfo [] (-1) (-1) false false
  end.

(** [Group::mailboxes], by shard: [None] while it spins on a shard that is not
    ready. *)
Fixpoint mailboxes (r : Runtime) (todo : list nat) : option (list nat) :=
  match todo with
  | [] => Some []
  | i :: todo =>
      s ← shards r !! i;
      if ready s then l ← mailboxes r todo; Some (if em s then i :: l else l) else None
  end.

Definition group_mailboxes (g : nat * nat) (r : Runtime) : option (list nat) := mailboxes r (seq (fst g) (snd g)).

(** ** Runs *)

Inductive Act :=
  | AThread (i : nat) (a : Answer)
  | ACaller (j : nat) (a : Answer)
  | ASignal (ev : Event)
  | AppStop (i : nat).         (* the application stops its own loop *)

Definition app_stop (s : Shard) : Shard :=
  match pc s with
  | TSetup _ | TLoop => set_ask true (inbox s) (shutting_down s) s
  | _ => s
  end.

Definition step (x : Act) (r : Runtime) : option Runtime :=
  match x with
  | AThread i a => Some (set_shards (alter (thread_step a) i (shards r)) r)
  | ACaller j a =>
      match callers r !! j with
      | Some c => '(c, r') ← caller_step a c r; Some (set_callers (<[j := c]> (callers r')) r')
      | None => Some r
      end
  | ASignal ev => Some (signal_step ev r)
  | AppStop i => Some (set_shards (alter app_stop i (shards r)) r)
  end.

Fixpoint run (acts : list Act) (r : Runtime) : option Runtime :=
  match acts with
  | [] => Some r
  | x :: acts => r ← step x r; run acts r
  end.

(** A runtime whose callers have not begun. *)
Definition new_runtime (ss : list Shard) (topo : list Core) (sigs : list Z) (scripts : list (list Call)) : Runtime :=
  mkRt ss topo sigs false false (mkCaller CIdle <$> scripts) SNone false PipeNone [] 0.

(** [~Runtime]. *)
Definition destructor : list Call := [KShutdown; KJoin].

(** ** Shards *)

Definition asked (s : Shard) : bool := stop_ s || inbox s || shutting_down s.

(** What a shard's flags say at each point of its thread. *)
Definition shard_ok (s : Shard) : Prop :=
  match pc s with
  | TNone | TPin | TFail | TSched _ | TMake _ =>
      em s = false /\ alive s = false /\ ready s = false /\ failed s = false /\ running_ s = false /\ asked s = false
  | TPublish => em s = false /\ alive s = true /\ ready s = false /\ failed s = false /\ running_ s = false /\ asked s = false
  | TReady => em s = true /\ alive s = true /\ ready s = false /\ failed s = false /\ running_ s = false
  | TSetup _ | TEnter => em s = true /\ alive s = true /\ ready s = true /\ failed s = false /\ running_ s = false
  | TLoop => em s = true /\ alive s = true /\ ready s = true /\ failed s = false /\ running_ s = true
  | TLeave => em s = true /\ alive s = true /\ ready s = true /\ failed s = false /\ stop_ s = true
  | TUnpublish => em s = true /\ alive s = true /\ ready s = true /\ failed s = false /\ stop_ s = true
  | TDestroy => em s = false /\ alive s = true /\ ready s = true /\ failed s = false /\ stop_ s = true
  | TExit => em s = false /\ alive s = false /\ ready s = true /\ (failed s = true \/ stop_ s = true)
  end.

Lemma new_shard_ok nm c : shard_ok (new_shard nm c).
Proof. done. Qed.

Ltac shard_cases :=
  simpl;
  repeat match goal with
  | |- context [if ?b then _ else _] => destruct b eqn:?; simpl
  | |- context [match pin ?a with _ => _ end] => destruct (pin a); simpl
  end.

Lemma thread_step_ok a s : shard_ok s -> shard_ok (thread_step a s).
Proof.
  unfold shard_ok, thread_step, asked, poll_once. destruct (pc s) as [| | |co|co| | |[|n]| | | | | |] eqn:E;
    shard_cases; rewrite ?E; naive_solver.
Qed.

Lemma thread_step_unasked a s : asked s = false -> asked (thread_step a s) = false.
Proof.
  unfold asked, thread_step, poll_once. intros H. apply orb_false_iff in H as [[H1 H2]%orb_false_iff H3].
  destruct (pc s) as [| | |co|co| | |[|n]| | | | | |]; shard_cases; try done; rewrite ?H2, ?H3; simpl; first [done|by rewrite H1].
Qed.

Lemma thread_step_asked a s : asked s = true -> asked (thread_step a s) = true.
Proof.
  unfold asked, thread_step, poll_once. intros H.
  destruct (pc s) as [| | |co|co| | |[|n]| | | | | |]; shard_cases; try exact H;
    destruct (inbox s), (shutting_down s); simpl in *; try done; rewrite ?orb_true_r, ?orb_false_r; done.
Qed.

(** A published loop that nobody asked to stop stays published. *)
Lemma thread_step_em a s : shard_ok s -> asked s = false -> em s = true -> em (thread_step a s) = true.
Proof.
  unfold shard_ok, asked, thread_step. intros Hok H He. apply orb_false_iff in H as [[H1 _]%orb_false_iff _].
  destruct (pc s) as [| | |co|co| | |[|n]| | | | | |]; shard_cases; naive_solver congruence.
Qed.

Lemma thread_step_ready a s : ready s = true -> ready (thread_step a s) = true.
Proof. unfold thread_step. intros H. destruct (pc s) as [| | |co|co| | |[|n]| | | | | |]; shard_cases; done. Qed.

Lemma thread_step_none a s : pc s = TNone -> thread_step a s = s.
Proof. unfold thread_step. by intros ->. Qed.

Lemma thread_step_failed a s : failed s = true -> shard_ok s -> thread_step a s = s.
Proof.
  unfold thread_step, shard_ok. destruct (pc s); try done; intros H (? & ? & ? & Hf & _); congruence.
Qed.

(** ** The invariant of a run *)

(** The shard a shutdown is about to look at, and the one whose event manager it
    has in hand; the shard that [start] is about to launch. *)
Definition phase (p : Cpc) : option nat := match p with CLoad i | CIsRunning i | CPost i | CStop i => Some i | _ => None end.
Definition holds (p : Cpc) : option nat := match p with CIsRunning i | CPost i | CStop i => Some i | _ => None end.
Definition starts (p : Cpc) : option nat := match p with CStart i _ => Some i | _ => None end.

Record inv (r : Runtime) : Prop := {
  v_ok : forall i s, shards r !! i = Some s -> shard_ok s;
  v_one : forall j1 j2 c1 c2, callers r !! j1 = Some c1 -> callers r !! j2 = Some c2 ->
    is_Some (phase (cpc c1)) -> is_Some (phase (cpc c2)) -> j1 = j2;
  v_unasked : forall j c a i s, callers r !! j = Some c -> phase (cpc c) = Some a -> (a <= i)%nat ->
    shards r !! i = Some s -> asked s = false;
  v_hold : forall j c a, callers r !! j = Some c -> holds (cpc c) = Some a -> exists s, shards r !! a = Some s /\ em s = true;
  v_idle : stopping_ r = false ->
    (forall i s, shards r !! i = Some s -> asked s = false) /\ (forall j c, callers r !! j = Some c -> phase (cpc c) = None);
  v_one_start : forall j1 j2 c1 c2, callers r !! j1 = Some c1 -> callers r !! j2 = Some c2 ->
    is_Some (starts (cpc c1)) -> is_Some (starts (cpc c2)) -> j1 = j2;
  v_start : forall j c a i s, callers r !! j = Some c -> starts (cpc c) = Some a -> (a <= i)%nat ->
    shards r !! i = Some s -> pc s = TNone;
  v_fresh : started_ r = false ->
    (forall i s, shards r !! i = Some s -> pc s = TNone) /\ (forall j c, callers r !! j = Some c -> starts (cpc c) = None) }.

Lemma holds_phase p a : holds p = Some a -> phase p = Some a.
Proof. by destruct p. Qed.

Lemma inv_same r r' :
  shards r' = shards r -> callers r' = callers r -> stopping_ r' = stopping_ r -> started_ r' = started_ r -> inv r -> inv r'.
Proof. intros E1 E2 E3 E4 [H1 H2 H3 H4 H5 H6 H7 H8]. split; rewrite ?E1, ?E2, ?E3, ?E4; done. Qed.

(** A thread's step keeps what others rely on. *)
Definition tame (s s' : Shard) : Prop :=
  shard_ok s' /\ (asked s = false -> asked s' = false) /\ (asked s = false -> em s = true -> em s' = true) /\
  (pc s = TNone -> pc s' = TNone).

Lemma thread_step_tame a s : shard_ok s -> tame s (thread_step a s).
Proof.
  intros O. split_and!; [by apply thread_step_ok|by apply thread_step_unasked|by apply thread_step_em|].
  intros E. by rewrite thread_step_none.
Qed.

Lemma lookup_alter_tame f i (l : list Shard) k s' :
  (forall s, shard_ok s -> tame s (f s)) -> (forall i s, l !! i = Some s -> shard_ok s) -> alter f i l !! k = Some s' ->
  exists s, l !! k = Some s /\ (tame s s').
Proof.
  intros Hf Hok Hl. destruct (decide (k = i)) as [->|Hne].
  - rewrite list_lookup_alter_eq in Hl. destruct (l !! i) as [s|] eqn:E; [|done]. injection Hl as <-. exists s. split; [done|]. eauto.
  - rewrite list_lookup_alter_ne in Hl by done. exists s'. split; [done|]. split; [eauto|done].
Qed.

Lemma inv_alter f i r : (forall s, shard_ok s -> tame s (f s)) -> inv r -> inv (set_shards (alter f i (shards r)) r).
Proof.
  intros Hf [H1 H2 H3 H4 H5 H6 H7 H8].
  assert (forall k s', alter f i (shards r) !! k = Some s' -> exists s, shards r !! k = Some s /\ tame s s') as Hl
    by (intros; eapply lookup_alter_tame; eauto).
  split; simpl; try done.
  - intros k s' Hs. destruct (Hl k s' Hs) as (s & _ & T & _). done.
  - intros j c a k s' Hc Hp Ha Hs. destruct (Hl k s' Hs) as (s & E & _ & T & _). apply T. eauto.
  - intros j c a Hc Hh. destruct (H4 j c a Hc Hh) as (s & E & He).
    destruct (decide (a = i)) as [->|Hne]; [|exists s; by rewrite list_lookup_alter_ne].
    exists (f s). rewrite list_lookup_alter_eq, E. split; [done|]. destruct (Hf s (H1 _ _ E)) as (_ & _ & T & _). apply T; [|done].
    eapply H3; [exact Hc|by apply holds_phase|done|done].
  - intros Hst. destruct (H5 Hst) as [Ha Hp]. split; [|done]. intros k s' Hs. destruct (Hl k s' Hs) as (s & E & _ & T & _). eauto.
  - intros j c a k s' Hc Hp Ha Hs. destruct (Hl k s' Hs) as (s & E & _ & _ & _ & T). eauto.
  - intros Hst. destruct (H8 Hst) as [Ha Hp]. split; [|done]. intros k s' Hs. destruct (Hl k s' Hs) as (s & E & _ & _ & _ & T). eauto.
Qed.

(** A caller moves on without touching the shards. *)
Lemma inv_caller r j c c' :
  inv r -> callers r !! j = Some c ->
  (forall a', phase (cpc c') = Some a' -> exists a, phase (cpc c) = Some a /\ (a <= a')%nat) ->
  (forall a, holds (cpc c') = Some a -> exists s, shards r !! a = Some s /\ em s = true) ->
  (forall a', starts (cpc c') = Some a' -> exists a, starts (cpc c) = Some a /\ (a <= a')%nat) ->
  inv (set_callers (<[j := c']> (callers r)) r).
Proof.
  intros [H1 H2 H3 H4 H5 H6 H7 H8] Hc Hph Hho Hst.
  assert (forall k x, <[j := c']> (callers r) !! k = Some x -> (k = j /\ x = c') \/ (k <> j /\ callers r !! k = Some x)) as Hl.
  { intros k x Hx. destruct (decide (k = j)) as [->|Hne].
    - rewrite list_lookup_insert_eq in Hx by (by eapply lookup_lt_Some). left. split; congruence.
    - rewrite list_lookup_insert_ne in Hx by done. by right. }
  split; simpl; try done.
  - intros j1 j2 c1 c2 [[-> ->]|[Hn1 E1]]%Hl [[-> ->]|[Hn2 E2]]%Hl P1 P2; try done.
    + destruct P1 as [a1 P1]. destruct (Hph a1 P1) as (a & P & _). eapply H2; [exact Hc|exact E2|by eexists|done].
    + destruct P2 as [a2 P2]. destruct (Hph a2 P2) as (a & P & _). eapply H2; [exact E1|exact Hc|done|by eexists].
    + by eapply H2.
  - intros k x a i s [[-> ->]|[Hn E]]%Hl P Ha Hs; [|by eapply H3]. destruct (Hph a P) as (a0 & P0 & Hle).
    refine (H3 _ _ _ _ _ Hc P0 _ Hs); lia.
  - intros k x a [[-> ->]|[Hn E]]%Hl P; [by apply Hho|by eapply H4].
  - intros Hsp. destruct (H5 Hsp) as [Ha Hp]. split; [done|]. intros k x [[-> ->]|[Hn E]]%Hl; [|by eapply Hp].
    destruct (phase (cpc c')) as [a'|] eqn:P; [|done]. destruct (Hph a' eq_refl) as (a & P0 & _). rewrite (Hp j c Hc) in P0. done.
  - intros j1 j2 c1 c2 [[-> ->]|[Hn1 E1]]%Hl [[-> ->]|[Hn2 E2]]%Hl P1 P2; try done.
    + destruct P1 as [a1 P1]. destruct (Hst a1 P1) as (a & P & _). eapply H6; [exact Hc|exact E2|by eexists|done].
    + destruct P2 as [a2 P2]. destruct (Hst a2 P2) as (a & P & _). eapply H6; [exact E1|exact Hc|done|by eexists].
    + by eapply H6.
  - intros k x a i s [[-> ->]|[Hn E]]%Hl P Ha Hs; [|by eapply H7]. destruct (Hst a P) as (a0 & P0 & Hle).
    refine (H7 _ _ _ _ _ Hc P0 _ Hs); lia.
  - intros Hsp. destruct (H8 Hsp) as [Ha Hp]. split; [done|]. intros k x [[-> ->]|[Hn E]]%Hl; [|by eapply Hp].
    destruct (starts (cpc c')) as [a'|] eqn:P; [|done]. destruct (Hst a' eq_refl) as (a & P0 & _). rewrite (Hp j c Hc) in P0. done.
Qed.

Lemma lookup_set_caller (l : list Caller) j c c' k x :
  l !! j = Some c -> <[j := c']> l !! k = Some x -> (k = j /\ x = c') \/ (k <> j /\ l !! k = Some x).
Proof.
  intros Hc Hx. destruct (decide (k = j)) as [->|Hne].
  - rewrite list_lookup_insert_eq in Hx by (by eapply lookup_lt_Some). left. split; congruence.
  - rewrite list_lookup_insert_ne in Hx by done. by right.
Qed.

Lemma lookup_set_shard (l : list Shard) i s s' k x :
  l !! i = Some s -> <[i := s']> l !! k = Some x -> (k = i /\ x = s') \/ (k <> i /\ l !! k = Some x).
Proof.
  intros Hc Hx. destruct (decide (k = i)) as [->|Hne].
  - rewrite list_lookup_insert_eq in Hx by (by eapply lookup_lt_Some). left. split; congruence.
  - rewrite list_lookup_insert_ne in Hx by done. by right.
Qed.

(** A published event manager can be asked to stop at any time. *)
Lemma set_ask_ok st i d s : shard_ok s -> em s = true -> (stop_ s = true -> st = true) -> shard_ok (set_ask st i d s).
Proof. unfold shard_ok. intros Hok He Hst. simpl. destruct (pc s); intuition congruence. Qed.

(** The shutdown has asked the shard it holds. *)
Lemma inv_ask r j c i s s' k :
  inv r -> callers r !! j = Some c -> holds (cpc c) = Some i -> shards r !! i = Some s -> shard_ok s' -> pc s' = pc s ->
  inv (set_callers (<[j := mkCaller (CLoad (S i)) k]> (callers r)) (set_shard i s' r)).
Proof.
  intros [H1 H2 H3 H4 H5 H6 H7 H8] Hc Hh Hs Ok' Epc. pose proof (holds_phase _ _ Hh) as Hp.
  assert (forall k x, callers r !! k = Some x -> k <> j -> phase (cpc x) = None) as Hoth.
  { intros k0 x Ex Hne. destruct (phase (cpc x)) eqn:E; [|done]. destruct Hne. eapply H2; [exact Ex|exact Hc|by rewrite E|by rewrite Hp]. }
  split; simpl.
  - intros i' x [[-> ->]|[Hn E]]%(lookup_set_shard _ _ _ _ _ _ Hs); eauto.
  - intros j1 j2 c1 c2 [[-> ->]|[Hn1 E1]]%(lookup_set_caller _ _ _ _ _ _ Hc) [[-> ->]|[Hn2 E2]]%(lookup_set_caller _ _ _ _ _ _ Hc) [a1 P1] [a2 P2];
      try done; [by rewrite (Hoth _ _ E2 Hn2) in P2|by rewrite (Hoth _ _ E1 Hn1) in P1|by rewrite (Hoth _ _ E1 Hn1) in P1].
  - intros j1 c1 a i' x [[-> ->]|[Hn1 E1]]%(lookup_set_caller _ _ _ _ _ _ Hc) P Ha; [|by rewrite (Hoth _ _ E1 Hn1) in P].
    simpl in P. injection P as <-. intros [[-> ->]|[Hn E]]%(lookup_set_shard _ _ _ _ _ _ Hs); [lia|]. refine (H3 _ _ _ _ _ Hc Hp _ E). lia.
  - intros j1 c1 a [[-> ->]|[Hn1 E1]]%(lookup_set_caller _ _ _ _ _ _ Hc) P; [done|].
    apply holds_phase in P. by rewrite (Hoth _ _ E1 Hn1) in P.
  - intros Hst. destruct (H5 Hst) as [_ HN]. by rewrite (HN j c Hc) in Hp.
  - intros j1 j2 c1 c2 [[-> ->]|[Hn1 E1]]%(lookup_set_caller _ _ _ _ _ _ Hc) [[-> ->]|[Hn2 E2]]%(lookup_set_caller _ _ _ _ _ _ Hc) P1 P2; try done;
      [by destruct P1|by destruct P2|by eapply H6].
  - intros j1 c1 a i' x [[-> ->]|[Hn1 E1]]%(lookup_set_caller _ _ _ _ _ _ Hc) P Ha; [done|].
    intros [[-> ->]|[Hn E]]%(lookup_set_shard _ _ _ _ _ _ Hs); [|by eapply H7]. rewrite Epc. by eapply H7.
  - intros Hst. destruct (H8 Hst) as [Ha HN]. split.
    + intros i' x [[-> ->]|[Hn E]]%(lookup_set_shard _ _ _ _ _ _ Hs); [|by eapply Ha]. rewrite Epc. by eapply Ha.
    + intros j1 c1 [[-> ->]|[Hn1 E1]]%(lookup_set_caller _ _ _ _ _ _ Hc); [done|]. by eapply HN.
Qed.

(** [start] launches the next thread. *)
Lemma inv_launch r j c i s p p' core k :
  inv r -> callers r !! j = Some c -> cpc c = CStart i p -> shards r !! i = Some s ->
  inv (set_callers (<[j := mkCaller (CStart (S i) p') k]> (callers r)) (set_shard i (set_pc TPin (set_core core (bound_core s) s)) r)).
Proof.
  intros [H1 H2 H3 H4 H5 H6 H7 H8] Hc Ec Hs. set (s' := set_pc TPin _).
  assert (starts (cpc c) = Some i) as Hst by (by rewrite Ec).
  assert (pc s = TNone) as Epc by (eapply H7; [exact Hc|exact Hst|apply le_n|exact Hs]).
  pose proof (H1 _ _ Hs) as Ok. assert (shard_ok s') as Ok' by (unfold shard_ok in *; rewrite Epc in Ok; exact Ok).
  assert (em s = false /\ asked s = false) as [Hem Has] by (unfold shard_ok in Ok; rewrite Epc in Ok; tauto).
  assert (forall k x, callers r !! k = Some x -> k <> j -> starts (cpc x) = None) as Hoth.
  { intros k0 x Ex Hne. destruct (starts (cpc x)) eqn:E; [|done]. destruct Hne. eapply H6; [exact Ex|exact Hc|by rewrite E|by rewrite Hst]. }
  split; simpl.
  - intros i' x [[-> ->]|[Hn E]]%(lookup_set_shard _ _ _ _ _ _ Hs); eauto.
  - intros j1 j2 c1 c2 [[-> ->]|[Hn1 E1]]%(lookup_set_caller _ _ _ _ _ _ Hc) [[-> ->]|[Hn2 E2]]%(lookup_set_caller _ _ _ _ _ _ Hc) P1 P2; try done;
      [by destruct P1|by destruct P2|by eapply H2].
  - intros j1 c1 a i' x [[-> ->]|[Hn1 E1]]%(lookup_set_caller _ _ _ _ _ _ Hc) P Ha; [done|].
    intros [[-> ->]|[Hn E]]%(lookup_set_shard _ _ _ _ _ _ Hs); [exact Has|by eapply H3].
  - intros j1 c1 a [[-> ->]|[Hn1 E1]]%(lookup_set_caller _ _ _ _ _ _ Hc) P; [done|].
    destruct (H4 _ _ _ E1 P) as (s1 & Es1 & He1). exists s1. split; [|done]. rewrite list_lookup_insert_ne; [done|]. intros ->. congruence.
  - intros Hsp. destruct (H5 Hsp) as [Ha HN]. split.
    + intros i' x [[-> ->]|[Hn E]]%(lookup_set_shard _ _ _ _ _ _ Hs); [exact Has|by eapply Ha].
    + intros j1 c1 [[-> ->]|[Hn1 E1]]%(lookup_set_caller _ _ _ _ _ _ Hc); [done|by eapply HN].
  - intros j1 j2 c1 c2 [[-> ->]|[Hn1 E1]]%(lookup_set_caller _ _ _ _ _ _ Hc) [[-> ->]|[Hn2 E2]]%(lookup_set_caller _ _ _ _ _ _ Hc) [a1 P1] [a2 P2];
      try done; [by rewrite (Hoth _ _ E2 Hn2) in P2|by rewrite (Hoth _ _ E1 Hn1) in P1|by rewrite (Hoth _ _ E1 Hn1) in P1].
  - intros j1 c1 a i' x [[-> ->]|[Hn1 E1]]%(lookup_set_caller _ _ _ _ _ _ Hc) P Ha; [|by rewrite (Hoth _ _ E1 Hn1) in P].
    simpl in P. injection P as <-. intros [[-> ->]|[Hn E]]%(lookup_set_shard _ _ _ _ _ _ Hs); [lia|]. refine (H7 _ _ _ _ _ Hc Hst _ E). lia.
  - intros Hsp. destruct (H8 Hsp) as [_ HN]. by rewrite (HN j c Hc) in Hst.
Qed.

Lemma inv_begin r j c :
  inv r -> callers r !! j = Some c -> cpc c = CIdle ->
  let '(c', r') := begin_call r c in inv (set_callers (<[j := c']> (callers r')) r').
Proof.
  intros V Hc Ec. unfold begin_call.
  assert (forall k, inv (set_callers (<[j := mkCaller CIdle k]> (callers r)) r)) as Hidle by (intros k; by apply (inv_caller r j c)).
  destruct (script c) as [|[| |] k]; [apply Hidle|destruct (started_ r) eqn:Est; [apply Hidle|]
                                    |destruct (stopping_ r) eqn:Esp; [apply Hidle|]|by apply (inv_caller r j c)].
  - destruct V as [H1 H2 H3 H4 H5 H6 H7 H8]. destruct (H8 Est) as [Ha HN]. split; simpl; try done.
    + intros j1 j2 c1 c2 [[-> ->]|[Hn1 E1]]%(lookup_set_caller _ _ _ _ _ _ Hc) [[-> ->]|[Hn2 E2]]%(lookup_set_caller _ _ _ _ _ _ Hc) P1 P2; try done;
        [by destruct P1|by destruct P2|by eapply H2].
    + intros j1 c1 a i x [[-> ->]|[Hn1 E1]]%(lookup_set_caller _ _ _ _ _ _ Hc) P; [done|by eapply H3].
    + intros j1 c1 a [[-> ->]|[Hn1 E1]]%(lookup_set_caller _ _ _ _ _ _ Hc) P; [done|by eapply H4].
    + intros Hsp. destruct (H5 Hsp) as [Ha' HN']. split; [done|].
      intros j1 c1 [[-> ->]|[Hn1 E1]]%(lookup_set_caller _ _ _ _ _ _ Hc); [done|by eapply HN'].
    + intros j1 j2 c1 c2 [[-> ->]|[Hn1 E1]]%(lookup_set_caller _ _ _ _ _ _ Hc) [[-> ->]|[Hn2 E2]]%(lookup_set_caller _ _ _ _ _ _ Hc) [a1 P1] [a2 P2];
        try done; [by rewrite (HN _ _ E2) in P2|by rewrite (HN _ _ E1) in P1|by rewrite (HN _ _ E1) in P1].
    + intros j1 c1 a i x _ _ _. apply Ha.
  - destruct V as [H1 H2 H3 H4 H5 H6 H7 H8]. destruct (H5 Esp) as [Ha HN]. split; simpl; try done.
    + intros j1 j2 c1 c2 [[-> ->]|[Hn1 E1]]%(lookup_set_caller _ _ _ _ _ _ Hc) [[-> ->]|[Hn2 E2]]%(lookup_set_caller _ _ _ _ _ _ Hc) [a1 P1] [a2 P2];
        try done; [by rewrite (HN _ _ E2) in P2|by rewrite (HN _ _ E1) in P1|by rewrite (HN _ _ E1) in P1].
    + intros j1 c1 a i x _ _ _. apply Ha.
    + intros j1 c1 a [[-> ->]|[Hn1 E1]]%(lookup_set_caller _ _ _ _ _ _ Hc) P; [done|by eapply H4].
    + intros j1 j2 c1 c2 [[-> ->]|[Hn1 E1]]%(lookup_set_caller _ _ _ _ _ _ Hc) [[-> ->]|[Hn2 E2]]%(lookup_set_caller _ _ _ _ _ _ Hc) P1 P2; try done;
        [by destruct P1|by destruct P2|by eapply H6].
    + intros j1 c1 a i x [[-> ->]|[Hn1 E1]]%(lookup_set_caller _ _ _ _ _ _ Hc) P; [done|by eapply H7].
    + intros Hsp. destruct (H8 Hsp) as [Ha' HN']. split; [done|].
      intros j1 c1 [[-> ->]|[Hn1 E1]]%(lookup_set_caller _ _ _ _ _ _ Hc); [done|by eapply HN'].
Qed.

Lemma shard_alive r i s : inv r -> shards r !! i = Some s -> em s = true -> alive s = true.
Proof. intros V Hs He. pose proof (v_ok _ V _ _ Hs) as Ok. unfold shard_ok in Ok. destruct (pc s); intuition congruence. Qed.

Lemma caller_step_inv a j c r :
  inv r -> callers r !! j = Some c ->
  exists c' r', caller_step a c r = Some (c', r') /\ inv (set_callers (<[j := c']> (callers r')) r').
Proof.
  intros V Hc. unfold caller_step, start_step, shutdown_step, join_step.
  assert (forall c', phase (cpc c') = None -> starts (cpc c') = None -> inv (set_callers (<[j := c']> (callers r)) r)) as Hquiet.
  { intros c' P S'. apply (inv_caller r j c); [done|done| | |]; intros x Hx; [congruence|apply holds_phase in Hx; congruence|congruence]. }
  assert (forall i, holds (cpc c) = Some i -> exists s, shards r !! i = Some s /\ em s = true /\ alive s = true) as Hh.
  { intros i Hi. destruct (v_hold _ V _ _ _ Hc Hi) as (s & Es & He). exists s. split_and!; [done|done|by eapply shard_alive]. }
  destruct (cpc c) as [|i p| |i|i|i|i| | |i|] eqn:Ec.
  - pose proof (inv_begin r j c V Hc Ec) as H. destruct (begin_call r c) as [c' r'] eqn:E. eauto.
  - destruct (shards r !! i) as [s|] eqn:Es.
    + destruct (place (topo_ r) i p (cfg s)) as [core p']. do 2 eexists. split; [reflexivity|].
      exact (inv_launch r j c i s p p' core (script c) V Hc Ec Es).
    + do 2 eexists. split; [reflexivity|]. apply Hquiet; by destruct (signal_handlers r).
  - do 2 eexists. split; [reflexivity|]. destruct (pipe_ok a); [|by apply Hquiet].
    eapply inv_same; [..|by apply (Hquiet (mkCaller CIdle (script c)))]; done.
  - destruct (shards r !! i) as [s|] eqn:Es; [|do 2 eexists; split; [reflexivity|by apply Hquiet]].
    do 2 eexists. split; [reflexivity|]. apply (inv_caller r j c); [done|done|rewrite Ec| |rewrite Ec]; intros x Hx; destruct (em s) eqn:He; simpl in Hx;
      try done; injection Hx as <-; eauto.
  - destruct (Hh i eq_refl) as (s & -> & He & Ha). cbn [mbind option_bind]. rewrite Ha. do 2 eexists. split; [reflexivity|].
    apply (inv_caller r j c); [done|done|rewrite Ec| |rewrite Ec]; intros x Hx; destruct (running_ s); simpl in Hx; try done; injection Hx as <-; eauto;
      (eapply v_hold; [done|exact Hc|by rewrite Ec]).
  - destruct (Hh i eq_refl) as (s & Es & He & Ha). rewrite Es. cbn [mbind option_bind]. rewrite Ha. destruct (accepted a).
    + do 2 eexists. split; [reflexivity|]. refine (inv_ask r j c i s _ (script c) V Hc _ Es _ _); [by rewrite Ec| |done].
      apply set_ask_ok; [by eapply v_ok|done|done].
    + do 2 eexists. split; [reflexivity|]. apply (inv_caller r j c); [done|done|rewrite Ec| |rewrite Ec]; intros x Hx; simpl in Hx; try done; injection Hx as <-; eauto.
  - destruct (Hh i eq_refl) as (s & Es & He & Ha). rewrite Es. cbn [mbind option_bind]. rewrite Ha.
    do 2 eexists. split; [reflexivity|]. refine (inv_ask r j c i s _ (script c) V Hc _ Es _ _); [by rewrite Ec| |done].
    apply set_ask_ok; [by eapply v_ok|done|done].
  - do 2 eexists. split; [reflexivity|]. eapply inv_same; [..|by apply (Hquiet (mkCaller CSigWrite (script c)))]; done.
  - do 2 eexists. split; [reflexivity|].
    eapply inv_same; [..|by apply (Hquiet (mkCaller CIdle (script c)))]; by destruct (signal_selfpipe r).
  - destruct (shards r !! i) as [s|]; do 2 eexists; (split; [reflexivity|]); apply Hquiet; try done; destruct (pc s); simpl; by rewrite ?Ec.
  - do 2 eexists. split; [reflexivity|]. apply Hquiet; destruct (signal_thread r); simpl; by rewrite ?Ec.
Qed.

(** An action of the runtime's own threads. *)
Definition own (x : Act) : bool := match x with AppStop _ => false | _ => true end.

Lemma rt_step_inv x r : inv r -> own x = true -> exists r', step x r = Some r' /\ inv r'.
Proof.
  intros V Hx. destruct x as [i a|j a|ev|i]; [| | |done]; cbn [step].
  - eexists. split; [reflexivity|]. apply inv_alter; [|done]. intros s. apply thread_step_tame.
  - destruct (callers r !! j) as [c|] eqn:Hc; [|by eauto].
    destruct (caller_step_inv a j c r V Hc) as (c' & r' & -> & V'). cbn [mbind option_bind]. eauto.
  - eexists. split; [reflexivity|]. eapply inv_same; [..|exact V]; unfold signal_step;
      destruct (signal_thread r); try done; destruct ev; try done; try (by destruct (signal_stop_ r));
      destruct (signal_selfpipe r) as [|[]|]; done.
Qed.

Lemma rt_run_inv acts r : inv r -> forallb own acts = true -> exists r', run acts r = Some r' /\ inv r'.
Proof.
  revert r. induction acts as [|x acts IH]; intros r V H; [by eauto|]. apply andb_prop in H as [Hx H]. cbn [run].
  destruct (rt_step_inv x r V Hx) as (r1 & -> & V1). by apply IH.
Qed.

(** Shards that no thread runs yet. *)
Definition fresh (ss : list Shard) : Prop := Forall (fun s => exists nm c f, s = set_setup f (new_shard nm c)) ss.

Lemma new_runtime_inv ss topo sigs scripts : fresh ss -> inv (new_runtime ss topo sigs scripts).
Proof.
  intros Hf. assert (forall i s, ss !! i = Some s -> shard_ok s /\ asked s = false /\ pc s = TNone) as Hs.
  { intros i s E. apply (Forall_lookup_1 _ _ _ _ Hf) in E as (nm & c & f & ->). done. }
  assert (forall j c, (mkCaller CIdle <$> scripts) !! j = Some c -> cpc c = CIdle) as Hc.
  { intros j c E. rewrite list_lookup_fmap in E. destruct (scripts !! j); [|done]. by injection E as <-. }
  split; simpl.
  - intros i s E. by apply (Hs i).
  - intros j1 j2 c1 c2 E1 E2 [a P]. by rewrite (Hc _ _ E1) in P.
  - intros j c a i s E P. by rewrite (Hc _ _ E) in P.
  - intros j c a E P. by rewrite (Hc _ _ E) in P.
  - intros _. split; [intros i s E; by apply (Hs i)|]. intros j c E. by rewrite (Hc _ _ E).
  - intros j1 j2 c1 c2 E1 E2 [a P]. by rewrite (Hc _ _ E1) in P.
  - intros j c a i s E P. by rewrite (Hc _ _ E) in P.
  - intros _. split; [intros i s E; by apply (Hs i)|]. intros j c E. by rewrite (Hc _ _ E).
Qed.

(** whatever threads call [start], [shutdown] and [join], in whatever order their
    steps interleave with the shards and the signal thread, no call uses an event
    manager that does not exist, as long as no loop is stopped from elsewhere. *)
Theorem runtime_uses_live_managers ss topo sigs scripts acts :
  fresh ss -> forallb own acts = true -> is_Some (run acts (new_runtime ss topo sigs scripts)).
Proof.
  intros Hf Ho. destruct (rt_run_inv acts _ (new_runtime_inv ss topo sigs scripts Hf) Ho) as (r & -> & _). by eexists.
Qed.

(** ** Shutting down *)

Definition done_with (s : Shard) : Prop := asked s = true \/ failed s = true.

(** Every shard is ready, and the shutdown is done with those it has passed. *)
Record going (r : Runtime) : Prop := {
  g_inv : inv r;
  g_ready : forall i s, shards r !! i = Some s -> ready s = true;
  g_past : forall j c a i s, callers r !! j = Some c -> phase (cpc c) = Some a -> (i < a)%nat -> shards r !! i = Some s -> done_with s;
  g_done : stopping_ r = true -> (forall j c, callers r !! j = Some c -> phase (cpc c) = None) ->
    forall i s, shards r !! i = Some s -> done_with s }.

(** How many iterations that drain, or other steps, a shard's thread has left. *)
Definition steps_left (s : Shard) : nat :=
  match pc s with
  | TSetup n => n + 7
  | TEnter => 6
  | TLoop => if stop_ s then 4 else 5
  | TLeave => 3
  | TUnpublish => 2
  | TDestroy => 1
  | _ => 0
  end%nat.

Lemma steps_left_thread a s :
  shard_ok s -> ready s = true -> done_with s ->
  (steps_left (thread_step a s) <= steps_left s)%nat /\
  (drained a = true -> (0 < steps_left s)%nat -> (steps_left (thread_step a s) < steps_left s)%nat).
Proof.
  unfold shard_ok, thread_step, steps_left, done_with, asked, poll_once. intros Hok Hr Hd.
  destruct (pc s) as [| | |co|co| | |[|n]| | | | | |] eqn:E; simpl; rewrite ?E; try (intuition (try congruence; lia)); [destruct (stop_ s); split; lia|].
  destruct (stop_ s) eqn:Es; simpl; [split; lia|]. rewrite ?E.
  split; [destruct (_ && _); lia|]. intros Hdr _. destruct Hd as [Hd|Hf]; [|destruct Hok as (_ & _ & _ & Hf' & _); congruence].
  simpl in Hd. rewrite orb_comm in Hd. rewrite Hd, Hdr. simpl. lia.
Qed.

(** A ready shard that is finished has left its loop. *)
Lemma steps_left_exit s : shard_ok s -> ready s = true -> steps_left s = 0%nat -> pc s = TExit.
Proof. unfold shard_ok, steps_left. destruct (pc s); try done; try lia; try (intuition congruence). by destruct (stop_ s). Qed.

Lemma thread_step_done a s : shard_ok s -> done_with s -> done_with (thread_step a s).
Proof. intros O [H|H]; [left; by apply thread_step_asked|right; by rewrite thread_step_failed]. Qed.

(** One step seen from shard [i]: it stays ready, and a shard that is done with
    makes progress with every draining step of its own. *)
Definition mine (i : nat) (x : Act) : bool := match x with AThread k a => (k =? i)%nat && drained a | _ => false end.

Definition forward (r r' : Runtime) (x : Act) : Prop :=
  forall i s', shards r' !! i = Some s' -> exists s, shards r !! i = Some s /\ ready s' = true /\
    (done_with s -> done_with s' /\ (steps_left s' <= steps_left s)%nat /\
      (mine i x = true -> (0 < steps_left s)%nat -> (steps_left s' < steps_left s)%nat)).

Lemma forward_same r r' x : going r -> shards r' = shards r -> (forall i, mine i x = false) -> forward r r' x.
Proof. intros G E Hm i s' Hs. rewrite E in Hs. exists s'. split_and!; [done|by eapply g_ready|]. intros Hd. split_and!; [done|done|by rewrite Hm]. Qed.

Lemma forward_ask r r' x i s st b :
  going r -> shards r !! i = Some s -> shards r' = <[i := set_ask st b (shutting_down s) s]> (shards r) ->
  (st = true \/ (st = stop_ s /\ b = true)) -> (forall i, mine i x = false) -> forward r r' x.
Proof.
  intros G Hs E Hst Hm k s' Hk. rewrite E in Hk. destruct (lookup_set_shard _ _ _ _ _ _ Hs Hk) as [[-> ->]|[Hn Ek]].
  - exists s. split_and!; [done|exact (g_ready _ G _ _ Hs)|]. intros Hd. split_and!; [|unfold steps_left; simpl; destruct (pc s); try lia|by rewrite Hm].
    + destruct Hd as [Hd|Hd]; [left|by right]. unfold asked in *. simpl. destruct Hst as [->|[-> ->]]; [done|]. by rewrite orb_true_r.
    + destruct Hst as [->|[-> _]]; [destruct (stop_ s); lia|done].
  - exists s'. split_and!; [done|by eapply g_ready|]. intros Hd. split_and!; [done|done|by rewrite Hm].
Qed.

(** Asking makes a shard done with. *)
Lemma ask_done s st b : (st = true \/ b = true) -> done_with (set_ask st b (shutting_down s) s).
Proof. intros [->| ->]; left; unfold asked; simpl; [done|by rewrite orb_true_r]. Qed.

Lemma going_caller r j c c' :
  going r -> callers r !! j = Some c -> inv (set_callers (<[j := c']> (callers r)) r) ->
  (forall a', phase (cpc c') = Some a' ->
     exists a, phase (cpc c) = Some a /\ (a' = a \/ (a' = S a /\ forall s, shards r !! a = Some s -> done_with s))) ->
  (phase (cpc c') = None -> phase (cpc c) = None \/
     exists a, phase (cpc c) = Some a /\ (length (shards r) <= a)%nat) ->
  going (set_callers (<[j := c']> (callers r)) r).
Proof.
  intros [V R P D] Hc V' Hph Hno. split; simpl; [done|done| |].
  - intros k x a i s [[-> ->]|[Hn E]]%(lookup_set_caller _ _ _ _ _ _ Hc) Hp Hi Hs; [|by eapply P].
    destruct (Hph a Hp) as (a0 & P0 & [->|[-> Hd]]); [by eapply P|].
    destruct (decide (i = a0)) as [->|Hne]; [by apply Hd|]. refine (P _ _ _ _ _ Hc P0 _ Hs). lia.
  - intros Hst Hnone i s Hs.
    assert (phase (cpc c') = None) as Hp' by (apply (Hnone j); rewrite list_lookup_insert_eq; [done|by eapply lookup_lt_Some]).
    destruct (Hno Hp') as [Hp|(a & Hp & Hle)].
    + refine (D Hst _ i s Hs). intros k x Hk. destruct (decide (k = j)) as [->|Hne]; [congruence|].
      apply (Hnone k). by rewrite list_lookup_insert_ne.
    + refine (P _ _ _ _ _ Hc Hp _ Hs). apply lookup_lt_Some in Hs. lia.
Qed.

Lemma going_same r r' :
  shards r' = shards r -> callers r' = callers r -> stopping_ r' = stopping_ r -> started_ r' = started_ r -> going r -> going r'.
Proof. intros E1 E2 E3 E4 [V R P D]. split; [by eapply inv_same|..]; rewrite ?E1, ?E2, ?E3; done. Qed.

Lemma going_begin r j c :
  going r -> callers r !! j = Some c -> cpc c = CIdle ->
  let '(c', r') := begin_call r c in going (set_callers (<[j := c']> (callers r')) r') /\ shards r' = shards r.
Proof.
  intros G Hc Ec. pose proof (inv_begin r j c (g_inv _ G) Hc Ec) as V. unfold begin_call in *.
  assert (forall c', phase (cpc c') = None -> inv (set_callers (<[j := c']> (callers r)) r) -> going (set_callers (<[j := c']> (callers r)) r)) as Hq.
  { intros c' Hp Hv. apply (going_caller r j c); [done|done|done|congruence|]. intros _. left. by rewrite Ec. }
  destruct (script c) as [|[| |] k]; [split; [by apply Hq|done]|destruct (started_ r) eqn:Est; [split; [by apply Hq|done]|]
                                    |destruct (stopping_ r) eqn:Esp; [split; [by apply Hq|done]|]|split; [by apply Hq|done]].
  - split; [|done]. destruct G as [V0 R P D]. split; simpl; [done|done| |].
    + intros j1 c1 a i x [[-> ->]|[Hn1 E1]]%(lookup_set_caller _ _ _ _ _ _ Hc) Hp; [done|by eapply P].
    + intros Hst Hno i s Hs. refine (D Hst _ i s Hs). intros k0 x Hk. destruct (decide (k0 = j)) as [->|Hne].
      * assert (x = c) as -> by congruence. by rewrite Ec.
      * apply (Hno k0). by rewrite list_lookup_insert_ne.
  - split; [|done]. destruct G as [V0 R P D]. split; simpl; [done|done| |].
    + intros j1 c1 a i x [[-> ->]|[Hn1 E1]]%(lookup_set_caller _ _ _ _ _ _ Hc) Hp Hi; [|by eapply P].
      simpl in Hp. injection Hp as <-. lia.
    + intros _ Hno. specialize (Hno j (mkCaller (CLoad 0) k)).
      rewrite list_lookup_insert_eq in Hno by (by eapply lookup_lt_Some). by specialize (Hno eq_refl).
Qed.

(** A caller asks the shard it holds and goes on. *)
Lemma going_ask r j c i s st b k x :
  going r -> callers r !! j = Some c -> holds (cpc c) = Some i -> shards r !! i = Some s ->
  (st = true \/ (st = stop_ s /\ b = true)) -> (forall i, mine i x = false) ->
  let r' := set_callers (<[j := mkCaller (CLoad (S i)) k]> (callers r)) (set_shard i (set_ask st b (shutting_down s) s) r) in
  inv r' -> going r' /\ forward r r' x.
Proof.
  intros G Hc Hh Hs Hst Hm r' V'. split; [|by eapply forward_ask]. pose proof (holds_phase _ _ Hh) as Hp.
  assert (done_with (set_ask st b (shutting_down s) s)) as Hd by (apply ask_done; naive_solver).
  destruct G as [V R P D]. split; [done| | |]; subst r'; simpl.
  - intros i' x' [[-> ->]|[Hn E]]%(lookup_set_shard _ _ _ _ _ _ Hs); [exact (R _ _ Hs)|by eapply R].
  - intros j1 c1 a i' x' [[-> ->]|[Hn1 E1]]%(lookup_set_caller _ _ _ _ _ _ Hc) Hp1 Hi.
    + simpl in Hp1. injection Hp1 as <-. intros [[-> ->]|[Hn E]]%(lookup_set_shard _ _ _ _ _ _ Hs); [done|]. refine (P _ _ _ _ _ Hc Hp _ E). lia.
    + destruct Hn1. eapply (v_one _ V); [exact E1|exact Hc|by rewrite Hp1|by rewrite Hp].
  - intros _ Hno. specialize (Hno j (mkCaller (CLoad (S i)) k)).
    rewrite list_lookup_insert_eq in Hno by (by eapply lookup_lt_Some). by specialize (Hno eq_refl).
Qed.

Lemma caller_step_going a j c r c' r' :
  going r -> callers r !! j = Some c -> caller_step a c r = Some (c', r') ->
  let r1 := set_callers (<[j := c']> (callers r')) r' in going r1 /\ forward r r1 (ACaller j a).
Proof.
  intros G Hc E. destruct (caller_step_inv a j c r (g_inv _ G) Hc) as (c2 & r2 & E2 & V'). rewrite E in E2. injection E2 as <- <-.
  cbv zeta. unfold caller_step, start_step, shutdown_step, join_step in E.
  assert (forall c' r', shards r' = shards r -> callers r' = callers r -> stopping_ r' = stopping_ r -> started_ r' = started_ r ->
    inv (set_callers (<[j := c']> (callers r')) r') ->
    (forall a', phase (cpc c') = Some a' ->
       exists a, phase (cpc c) = Some a /\ (a' = a \/ (a' = S a /\ forall s, shards r !! a = Some s -> done_with s))) ->
    (phase (cpc c') = None -> phase (cpc c) = None \/ exists a, phase (cpc c) = Some a /\ (length (shards r) <= a)%nat) ->
    going (set_callers (<[j := c']> (callers r')) r') /\ forward r (set_callers (<[j := c']> (callers r')) r') (ACaller j a)) as Hmove.
  { intros c1 r1 E1 E2 E3 E4 V1 Hp Hn. split; [|by apply forward_same].
    apply (going_same (set_callers (<[j := c1]> (callers r)) r)); simpl; try done; [by rewrite E2|].
    apply (going_caller r j c); [done|done| |done|done]. eapply inv_same; [..|exact V1]; simpl; congruence. }
  destruct (cpc c) as [|i p| |i|i|i|i| | |i|] eqn:Ec.
  - pose proof (going_begin r j c G Hc Ec) as Hb. injection E as E. rewrite E in Hb. destruct Hb as [Gb Eb]. split; [done|by apply forward_same].
  - destruct (shards r !! i) as [s|] eqn:Es.
    + pose proof (g_ready _ G _ _ Es) as Hr. pose proof (v_ok _ (g_inv _ G) _ _ Es) as Ok.
      assert (pc s = TNone) as Ep by (eapply (v_start _ (g_inv _ G)); [exact Hc|by rewrite Ec|apply le_n|exact Es]).
      unfold shard_ok in Ok. rewrite Ep in Ok. intuition congruence.
    + injection E as <- <-. apply Hmove; try done; [|by left]. by destruct (signal_handlers r).
  - injection E as <- <-. apply Hmove; try (by destruct (pipe_ok a)); try done; by left.
  - destruct (shards r !! i) as [s|] eqn:Es; injection E as <- <-.
    + apply Hmove; try done; [|by destruct (em s)]. intros a' Ha. exists i. split; [done|].
      destruct (em s) eqn:He; simpl in Ha; injection Ha as <-; [by left|]. right. split; [done|].
      intros s' Es'. rewrite Es in Es'. injection Es' as <-. pose proof (g_ready _ G _ _ Es) as Hr.
      pose proof (v_ok _ (g_inv _ G) _ _ Es) as Ok. unfold shard_ok in Ok. assert (failed s = true \/ stop_ s = true) as [Hf|Hf] by (destruct (pc s); intuition congruence); [by right|].
      left. unfold asked. by rewrite Hf.
    + apply Hmove; try done. intros _. right. exists i. split; [done|]. by apply lookup_ge_None.
  - destruct (shards r !! i) as [s|] eqn:Es; [|discriminate]. cbn [mbind option_bind] in E. destruct (alive s); [|discriminate].
    injection E as <- <-. apply Hmove; try done; [|by destruct (running_ s)]. intros a' Ha. exists i. split; [done|]. left.
    destruct (running_ s); simpl in Ha; congruence.
  - destruct (shards r !! i) as [s|] eqn:Es; [|discriminate]. cbn [mbind option_bind] in E. destruct (alive s); [|discriminate].
    destruct (accepted a); injection E as <- <-.
    + apply (going_ask r j c i s); [done|done|by rewrite Ec|done|by right|done|exact V'].
    + apply Hmove; try done. intros a' Ha. exists i. split; [done|]. left. simpl in Ha. congruence.
  - destruct (shards r !! i) as [s|] eqn:Es; [|discriminate]. cbn [mbind option_bind] in E. destruct (alive s); [|discriminate].
    injection E as <- <-. apply (going_ask r j c i s); [done|done|by rewrite Ec|done|by left|done|exact V'].
  - injection E as <- <-. apply Hmove; try done. by left.
  - injection E as <- <-. apply Hmove; try (by destruct (signal_selfpipe r)); try done; by left.
  - destruct (shards r !! i) as [s|] eqn:Es; injection E as <- <-; apply Hmove; try done; try (by left); destruct (pc s); simpl; try done; by rewrite Ec.
  - injection E as <- <-. apply Hmove; try done; [|by left]. destruct (signal_thread r); simpl; try done; by rewrite Ec.
Qed.

Lemma step_going x r r' : going r -> own x = true -> step x r = Some r' -> going r' /\ forward r r' x.
Proof.
  intros G Hx E. destruct (rt_step_inv x r (g_inv _ G) Hx) as (r2 & E2 & V'). rewrite E in E2. injection E2 as <-.
  destruct x as [i a|j a|ev|i]; [| | |done]; cbn [step] in E.
  - injection E as <-. destruct G as [V R P D].
    assert (forall k s', alter (thread_step a) i (shards r) !! k = Some s' -> exists s, shards r !! k = Some s /\
      (s' = s /\ k <> i \/ s' = thread_step a s /\ k = i)) as Hl.
    { intros k s' Hs. destruct (decide (k = i)) as [->|Hne].
      - rewrite list_lookup_alter_eq in Hs. destruct (shards r !! i) as [s|]; [|done]. injection Hs as <-. eauto.
      - rewrite list_lookup_alter_ne in Hs by done. eauto. }
    assert (forall k s', alter (thread_step a) i (shards r) !! k = Some s' -> exists s, shards r !! k = Some s /\ ready s' = true /\
      (done_with s -> done_with s')) as Hd.
    { intros k s' Hs. destruct (Hl k s' Hs) as (s & Es & [[-> _]|[-> _]]); exists s; split_and!; [done|by eapply R|done|done| |].
      - apply thread_step_ready. by eapply R.
      - apply thread_step_done. by eapply V. }
    split.
    + split; [done| | |]; simpl.
      * intros k s' Hs. by destruct (Hd k s' Hs) as (s & _ & Hr & _).
      * intros j c b k s' Hc Hp Hk Hs. destruct (Hd k s' Hs) as (s & Es & _ & Hw). apply Hw. by eapply P.
      * intros Hst Hno k s' Hs. destruct (Hd k s' Hs) as (s & Es & _ & Hw). apply Hw. by eapply D.
    + intros k s' Hs. simpl in Hs. destruct (Hd k s' Hs) as (s & Es & Hr & Hw). exists s. split_and!; [done|done|]. intros Hdone. split; [by apply Hw|].
      destruct (Hl k s' Hs) as (s1 & Es1 & [[-> Hne]|[-> ->]]); rewrite Es in Es1; injection Es1 as <-.
      * split; [done|]. simpl. destruct (Nat.eqb_spec i k); [congruence|done].
      * destruct (steps_left_thread a s) as [H1 H2]; [by eapply V|by eapply R|done|]. split; [done|]. simpl. rewrite Nat.eqb_refl. exact H2.
  - destruct (callers r !! j) as [c|] eqn:Hc; [|injection E as <-; split; [done|by apply forward_same]].
    destruct (caller_step a c r) as [[c' r1]|] eqn:Es; [|discriminate]. cbn [mbind option_bind] in E. injection E as <-.
    by apply (caller_step_going a j c r).
  - injection E as <-. assert (shards (signal_step ev r) = shards r /\ callers (signal_step ev r) = callers r /\
      stopping_ (signal_step ev r) = stopping_ r /\ started_ (signal_step ev r) = started_ r) as (E1 & E2 & E3 & E4).
    { unfold signal_step. destruct (signal_thread r); try done; destruct ev; try done; try (by destruct (signal_stop_ r));
        destruct (signal_selfpipe r) as [|[]|]; done. }
    split; [by eapply going_same|by apply forward_same].
Qed.

Lemma run_going acts r r' :
  going r -> forallb own acts = true -> run acts r = Some r' ->
  going r' /\
  forall i s', shards r' !! i = Some s' -> exists s, shards r !! i = Some s /\
    (done_with s -> done_with s' /\ (steps_left s' + Nat.min (count_if (mine i) acts) (steps_left s) <= steps_left s)%nat).
Proof.
  revert r. induction acts as [|x acts IH]; intros r G; cbn [forallb run].
  { intros _ [= <-]. split; [done|]. intros i s' Hs. exists s'. split; [done|]. intros Hd. split; [done|]. simpl. lia. }
  intros [Hx Ho]%andb_prop. destruct (step x r) as [r1|] eqn:E; [|discriminate]. cbn [mbind option_bind]. intros Er.
  destruct (step_going x r r1 G Hx E) as [G1 F1]. destruct (IH r1 G1 Ho Er) as [G2 F2]. split; [done|].
  intros i s' Hs. destruct (F2 i s' Hs) as (s1 & Es1 & H2). destruct (F1 i s1 Es1) as (s & Es & _ & H1). exists s. split; [done|].
  intros Hd. destruct (H1 Hd) as (Hd1 & L1 & M1). destruct (H2 Hd1) as (Hd2 & L2). split; [done|]. cbn [count_if].
  destruct (mine i x); [|lia]. specialize (M1 eq_refl). lia.
Qed.

(** C22: a shutdown that begins when every shard is ready reaches them all: however the
    threads interleave, as long as no loop is stopped by anything but the shutdown,
    once it has gone through the shards each of them has failed or was asked to stop, and its thread ends after as many draining iterations
    and other steps as it had left, so that [join] returns.  With a loop that
    stops by itself the shutdown may use a destroyed event manager
    ([shutdown_races_with_stop]). *)
Theorem shutdown_ends_every_shard ss topo sigs scripts acts1 acts2 acts3 r1 r2 r3 i s2 s3 :
  fresh ss -> forallb own (acts1 ++ acts2 ++ acts3) = true ->
  run acts1 (new_runtime ss topo sigs scripts) = Some r1 -> stopping_ r1 = false ->
  Forall (fun s => ready s = true) (shards r1) ->
  run acts2 r1 = Some r2 -> stopping_ r2 = true -> Forall (fun c => phase (cpc c) = None) (callers r2) ->
  run acts3 r2 = Some r3 -> shards r2 !! i = Some s2 -> shards r3 !! i = Some s3 ->
  done_with s2 /\ ((steps_left s2 <= count_if (mine i) acts3)%nat -> pc s3 = TExit).
Proof.
  intros Hf Ho H1 Hst Hr H2 Hst2 Hph H3 Hs2 Hs3. rewrite !forallb_app in Ho. apply andb_prop in Ho as [Ho1 [Ho2 Ho3]%andb_prop].
  destruct (rt_run_inv acts1 _ (new_runtime_inv ss topo sigs scripts Hf) Ho1) as (r & E & V). rewrite H1 in E. injection E as <-.
  assert (going r1) as G1.
  { destruct (v_idle _ V Hst) as [_ HN]. split; [done| | |congruence].
    - intros k s Hs. by apply (Forall_lookup_1 _ _ _ _ Hr Hs).
    - intros j c a k s Hc Hp. by rewrite (HN j c Hc) in Hp. }
  destruct (run_going acts2 r1 r2 G1 Ho2 H2) as [G2 _].
  assert (done_with s2) as Hd.
  { refine (g_done _ G2 Hst2 _ i s2 Hs2). intros j c Hc. by apply (Forall_lookup_1 _ _ _ _ Hph Hc). }
  split; [done|]. intros Hn. destruct (run_going acts3 r2 r3 G2 Ho3 H3) as [G3 F3].
  destruct (F3 i s3 Hs3) as (s & Es & Hw). rewrite Hs2 in Es. injection Es as <-. destruct (Hw Hd) as [_ L].
  apply steps_left_exit; [by eapply (g_inv _ G3)|by eapply (g_ready _ G3)|lia].
Qed.

(** ** Shards that a shutdown misses *)

(** The shutdown is past shard [i] and has not asked it. *)
Definition missed (i : nat) (r : Runtime) : Prop :=
  stopping_ r = true /\ (exists s, shards r !! i = Some s /\ asked s = false) /\
  forall j c a, callers r !! j = Some c -> phase (cpc c) = Some a -> (i < a)%nat.

Lemma missed_caller a j c r i c' r' :
  missed i r -> callers r !! j = Some c -> caller_step a c r = Some (c', r') ->
  missed i (set_callers (<[j := c']> (callers r')) r').
Proof.
  intros (Hst & (s & Hs & Ha) & Hp) Hc E. unfold caller_step, start_step, shutdown_step, join_step in E.
  assert (forall c' r', stopping_ r' = true -> callers r' = callers r ->
    (exists s, shards r' !! i = Some s /\ asked s = false) -> (forall a', phase (cpc c') = Some a' -> (i < a')%nat) ->
    missed i (set_callers (<[j := c']> (callers r')) r')) as Hm.
  { intros c1 r1 E1 E2 E3 E4. split; [done|]. split; [done|]. intros k x b. simpl. rewrite E2.
    intros [[-> ->]|[Hn Ek]]%(lookup_set_caller _ _ _ _ _ _ Hc); [apply E4|by eapply Hp]. }
  assert (forall b, phase (cpc c) = Some b -> (i < b)%nat) as Hb by (intros b; by apply (Hp j)).
  assert (forall k x, k <> i -> exists s, <[k := x]> (shards r) !! i = Some s /\ asked s = false) as Hk.
  { intros k x Hne. exists s. by rewrite list_lookup_insert_ne. }
  destruct (cpc c) as [|n p| |n|n|n|n| | |n|] eqn:Ec.
  - unfold begin_call in E. rewrite Hst in E. destruct (script c) as [|[| |] k]; [|destruct (started_ r)| |]; injection E as <- <-; apply Hm; by eauto.
  - destruct (shards r !! n) as [s'|] eqn:En; [destruct (place _ _ _ _)|]; injection E as <- <-; apply Hm; try done.
    + simpl. destruct (decide (n = i)) as [->|Hne]; [|by apply Hk]. rewrite Hs in En. injection En as <-.
      eexists. split; [rewrite list_lookup_insert_eq; [reflexivity|by eapply lookup_lt_Some]|exact Ha].
    + by eauto.
    + by destruct (signal_handlers r).
  - injection E as <- <-. apply Hm; try (by destruct (pipe_ok a)). destruct (pipe_ok a); eauto.
  - specialize (Hb n eq_refl). destruct (shards r !! n) as [s'|]; injection E as <- <-; apply Hm; eauto; [|done].
    intros a'. destruct (em s'); simpl; intros [= <-]; lia.
  - specialize (Hb n eq_refl). destruct (shards r !! n) as [s'|]; [|discriminate]. cbn [mbind option_bind] in E. destruct (alive s'); [|discriminate].
    injection E as <- <-. apply Hm; eauto. intros a'. destruct (running_ s'); simpl; intros [= <-]; lia.
  - specialize (Hb n eq_refl). destruct (shards r !! n) as [s'|]; [|discriminate]. cbn [mbind option_bind] in E. destruct (alive s'); [|discriminate].
    destruct (accepted a); injection E as <- <-; apply Hm; eauto; try (simpl; apply Hk; lia); simpl; intros a' [= <-]; lia.
  - specialize (Hb n eq_refl). destruct (shards r !! n) as [s'|]; [|discriminate]. cbn [mbind option_bind] in E. destruct (alive s'); [|discriminate].
    injection E as <- <-; apply Hm; eauto; try (simpl; apply Hk; lia); simpl; intros a' [= <-]; lia.
  - injection E as <- <-. apply Hm; by eauto.
  - injection E as <- <-. apply Hm; try (by destruct (signal_selfpipe r)). destruct (signal_selfpipe r); eauto.
  - destruct (shards r !! n) as [s'|]; injection E as <- <-; apply Hm; eauto; try done; destruct (pc s'); simpl; try done; by rewrite Ec.
  - injection E as <- <-. apply Hm; eauto. destruct (signal_thread r); simpl; try done; by rewrite Ec.
Qed.

Lemma run_missed acts r r' i : missed i r -> forallb own acts = true -> run acts r = Some r' -> missed i r'.
Proof.
  revert r. induction acts as [|x acts IH]; intros r M; cbn [forallb run]; [by intros _ [= <-]|].
  intros [Hx Ho]%andb_prop. destruct (step x r) as [r1|] eqn:E; [|discriminate]. cbn [mbind option_bind]. apply IH; [|done].
  destruct x as [k a|j a|ev|k]; [| | |done]; cbn [step] in E.
  - injection E as <-. destruct M as (Hst & (s & Hs & Ha) & Hp). split; [done|]. split; [|done]. simpl.
    destruct (decide (i = k)) as [->|Hne]; [|exists s; by rewrite list_lookup_alter_ne].
    exists (thread_step a s). rewrite list_lookup_alter_eq, Hs. split; [done|]. by apply thread_step_unasked.
  - destruct (callers r !! j) as [c|] eqn:Hc; [|by injection E as <-].
    destruct (caller_step a c r) as [[c' r2]|] eqn:Es; [|discriminate]. cbn [mbind option_bind] in E. injection E as <-.
    by eapply missed_caller.
  - injection E as <-. destruct M as (Hst & Hs & Hp). unfold missed, signal_step.
    destruct (signal_thread r); try done; destruct ev; try done; try (by destruct (signal_stop_ r));
      destruct (signal_selfpipe r) as [|[]|]; done.
Qed.

(** a shard that had not published its event manager when a shutdown went by is
    never stopped: whatever happens afterwards its thread does not end, unless it
    failed to start, and [join], and with it the destructor, waits for ever. *)
Theorem missed_shard_never_ends ss topo sigs scripts acts1 acts2 r1 r2 i :
  fresh ss -> forallb own (acts1 ++ acts2) = true ->
  run acts1 (new_runtime ss topo sigs scripts) = Some r1 -> missed i r1 -> run acts2 r1 = Some r2 ->
  exists s, shards r2 !! i = Some s /\ (pc s = TExit -> failed s = true) /\
    forall j c a, callers r2 !! j = Some c -> cpc c = CJoin i -> pc s <> TNone -> failed s = false ->
      caller_step a c r2 = Some (c, r2).
Proof.
  intros Hf Ho H1 M H2. rewrite forallb_app in Ho. apply andb_prop in Ho as [Ho1 Ho2].
  destruct (rt_run_inv acts1 _ (new_runtime_inv ss topo sigs scripts Hf) Ho1) as (r & E & V). rewrite H1 in E. injection E as <-.
  destruct (rt_run_inv acts2 _ V Ho2) as (r & E & V2). rewrite H2 in E. injection E as <-.
  destruct (run_missed _ _ _ _ M Ho2 H2) as (_ & (s & Hs & Ha) & _). exists s. split; [done|].
  assert (pc s = TExit -> failed s = true) as Hx.
  { intros Ep. pose proof (v_ok _ V2 _ _ Hs) as Ok. unfold shard_ok in Ok. rewrite Ep in Ok.
    unfold asked in Ha. destruct (stop_ s); [done|]. intuition congruence. }
  split; [done|]. intros j c a Hc Ec Hn Hfl. unfold caller_step, start_step, shutdown_step, join_step. rewrite Ec, Hs.
  destruct (pc s) eqn:Ep; try done. specialize (Hx eq_refl). congruence.
Qed.

(** ** Placement *)

Definition wants_physical (c : ThreadConfig) : bool := match placement c with OnePerPhysicalCore => true | _ => false end.

(** The cores of the shards that want a physical core of their own. *)
Definition physical_of (cs : list ThreadConfig) (l : list Z) : list Z :=
  omap (fun x => if wants_physical (fst x) then Some (snd x) else None) (zip cs l).

Lemma physical_of_placements topo cs i p :
  (p + count_if wants_physical cs <= length (physical_cores topo))%nat ->
  physical_of cs (placements topo i p cs) = take (count_if wants_physical cs) (drop p (physical_cores topo)).
Proof.
  revert i p. induction cs as [|c cs IH]; intros i p Hn; [done|].
  assert (physical_of (c :: cs) (placements topo i p (c :: cs)) =
    (if wants_physical c then [fst (place topo i p c)] else []) ++ physical_of cs (placements topo (S i) (snd (place topo i p c)) cs)) as ->.
  { cbn [placements]. destruct (place topo i p c) as [core p']. unfold physical_of. simpl. by destruct (wants_physical c). }
  cbn [count_if] in *. unfold place, wants_physical in *. destruct (placement c); simpl in *; try (by rewrite IH by lia).
  destruct (physical_cores topo) as [|x xs] eqn:E; [simpl in Hn; lia|]. rewrite <- E in *. cbn [snd fst].
  rewrite IH by lia. rewrite Nat.mod_small by lia.
  destruct (lookup_lt_is_Some_2 (physical_cores topo) p) as [y Hy]; [lia|].
  rewrite (drop_S _ _ _ Hy). cbn [take]. rewrite nth_lookup, Hy. done.
Qed.

(** shards that each want a physical core get different ones, of different physical
    cores, however they are mixed with other shards, as long as there are enough. *)
Theorem physical_shards_apart topo cs :
  NoDup (id <$> topo) -> (count_if wants_physical cs <= length (physical_cores topo))%nat ->
  let l := physical_of cs (placements topo 0 0 cs) in
  length l = count_if wants_physical cs /\ NoDup l /\
  exists cl, cl `sublist_of` topo /\ l = id <$> cl /\ NoDup (key <$> cl).
Proof.
  intros Hd Hn l. assert (l = id <$> take (count_if wants_physical cs) (firsts ∅ topo)) as El.
  { subst l. rewrite physical_of_placements by lia. rewrite drop_0. unfold physical_cores. by rewrite fmap_take. }
  destruct (firsts_spec ∅ topo) as (Hs & Hk & _).
  assert (take (count_if wants_physical cs) (firsts ∅ topo) `sublist_of` topo) as Hsub
    by (etrans; [apply sublist_take|exact Hs]).
  rewrite El. split_and!.
  - rewrite length_fmap, length_take. unfold physical_cores in Hn. rewrite length_fmap in Hn. lia.
  - eapply sublist_NoDup; [exact Hd|]. by apply fmap_sublist.
  - exists (take (count_if wants_physical cs) (firsts ∅ topo)). split_and!; [done|done|].
    eapply sublist_NoDup; [exact Hk|]. apply fmap_sublist, sublist_take.
Qed.

(** [start] gives the shards the cores of [placements]. *)
Lemma start_places k a j c r i p :
  callers r !! j = Some c -> cpc c = CStart i p -> length (shards r) = (i + k)%nat ->
  exists r', run (replicate k (ACaller j a)) r = Some r' /\
    requested_core <$> drop i (shards r') = placements (topo_ r) i p (cfg <$> drop i (shards r)) /\
    take i (shards r') = take i (shards r).
Proof.
  revert c r i p. induction k as [|k IH]; intros c r i p Hc Ec Hl; cbn [replicate run].
  { exists r. rewrite !drop_ge by lia. done. }
  destruct (lookup_lt_is_Some_2 (shards r) i) as [s Hs]; [lia|]. cbn [step]. rewrite Hc. unfold caller_step, start_step, shutdown_step, join_step. rewrite Ec, Hs.
  destruct (place (topo_ r) i p (cfg s)) as [core p'] eqn:Ep. cbn [mbind option_bind].
  set (s' := set_pc TPin _). set (r1 := set_callers _ _).
  assert (shards r1 = <[i := s']> (shards r)) as E1 by done.
  destruct (IH (mkCaller (CStart (S i) p') (script c)) r1 (S i) p') as (r' & Er & E2 & E3).
  - subst r1. simpl. rewrite list_lookup_insert_eq; [done|by eapply lookup_lt_Some].
  - done.
  - rewrite E1, length_insert. lia.
  - exists r'. split; [exact Er|].
    assert (shards r' !! i = Some s') as Hs'.
    { rewrite <- (lookup_take_lt (shards r') (S i)), E3, lookup_take_lt, E1 by lia. rewrite list_lookup_insert_eq; [done|]. by eapply lookup_lt_Some. }
    split.
    + rewrite (drop_S _ _ _ Hs'), (drop_S _ _ _ Hs), !fmap_cons. cbn [placements]. rewrite Ep, E2, E1.
      change (topo_ r1) with (topo_ r). rewrite drop_insert_lt by lia. done.
    + transitivity (take i (take (S i) (shards r'))); [by rewrite take_take, Nat.min_l by lia|].
      rewrite E3, E1, take_take, Nat.min_l by lia. by rewrite take_insert_ge by lia.
Qed.

(** ** Groups *)

(** Registered functions run once each, in order, before the loop begins. *)
Definition setup_ok (s : Shard) : Prop :=
  match pc s with
  | TNone | TPin | TFail | TSched _ | TMake _ | TPublish | TReady => ran s = []
  | TSetup n => (n <= length (setup s))%nat /\ ran s = take (length (setup s) - n) (setup s)
  | TExit => ran s = setup s \/ ran s = []
  | _ => ran s = setup s
  end.

Lemma thread_step_setup a s : setup_ok s -> setup_ok (thread_step a s).
Proof.
  unfold setup_ok, thread_step, poll_once. destruct (pc s) as [| | |co|co| | |[|n]| | | | | |] eqn:E; shard_cases; rewrite ?E; try (by auto).
  - intros ->. split; [lia|]. by rewrite Nat.sub_diag.
  - rewrite Nat.sub_0_r. intros [_ ->]. by rewrite firstn_all.
  - intros [Hn ->]. split; [lia|]. destruct (lookup_lt_is_Some_2 (setup s) (length (setup s) - S n)) as [f Hf]; [lia|].
    rewrite Hf. simpl. replace (length (setup s) - n)%nat with (S (length (setup s) - S n)) by lia. by rewrite (take_S_r _ _ f Hf).
Qed.

Lemma spawned_fresh nm n c ss : fresh ss -> fresh (fst (spawn_group nm n c ss)).
Proof.
  intros H. simpl. apply Forall_app. split; [done|]. apply Forall_fmap, Forall_true. intros i. by exists (shard_name nm i), c, [].
Qed.

Lemma each_fresh g f ss : fresh ss -> fresh (each g f ss).
Proof.
  intros H. unfold each, fresh. apply Forall_lookup_2. intros i s Hl. rewrite list_lookup_imap in Hl.
  destruct (ss !! i) as [s0|] eqn:E; [|done]. simpl in Hl. injection Hl as <-.
  destruct (Forall_lookup_1 _ _ _ _ H E) as (nm & c & fs & ->). destruct (_ && _); [|by eauto]. by exists nm, c, (fs ++ [f]).
Qed.

(** ** Witnesses and faults *)

Definition yes : Answer := mkAnswer PinOk true true true true.
Definition unpinned : ThreadConfig := mkThread empty_set NoPlacement true.
Definition two_shards : list Shard := each (0, 2)%nat 5 (fst (spawn_group (Http.str "io") 2 unpinned [])).
Definition owner_script : list Call := KStart :: destructor.

Definition calls (n : nat) : list Act := replicate n (ACaller 0 yes).
Definition thread (i n : nat) : list Act := replicate n (AThread i yes).

(** The threads are launched; the first is in its loop, the second is ready. *)
Definition both_ready : list Act := calls 4 ++ thread 0 8 ++ thread 1 5.

Lemma two_shards_fresh : fresh two_shards.
Proof. apply each_fresh, spawned_fresh. constructor. Qed.

Lemma runtime_uses_live_managers_witness :
  is_Some (run (both_ready ++ calls 10 ++ thread 0 9 ++ thread 1 9 ++ calls 6) (new_runtime two_shards [] [] [owner_script])).
Proof. apply (runtime_uses_live_managers two_shards); [apply two_shards_fresh|vm_compute; reflexivity]. Defined.

Lemma shutdown_ends_every_shard_witness :
  exists r3 s3, run (both_ready ++ calls 10 ++ thread 1 8) (new_runtime two_shards [] [] [owner_script]) = Some r3 /\
    shards r3 !! 1%nat = Some s3 /\ pc s3 = TExit /\ ran s3 = [5%nat].
Proof.
  destruct (run both_ready (new_runtime two_shards [] [] [owner_script])) as [r1|] eqn:E1; [|by vm_compute in E1].
  destruct (run (calls 10) r1) as [r2|] eqn:E2; [|by vm_compute in E1; injection E1 as <-; vm_compute in E2].
  destruct (run (thread 1 8) r2) as [r3|] eqn:E3; [|by vm_compute in E1; injection E1 as <-; vm_compute in E2; injection E2 as <-; vm_compute in E3].
  destruct (shards r2 !! 1%nat) as [s2|] eqn:S2; [|by vm_compute in E1; injection E1 as <-; vm_compute in E2; injection E2 as <-].
  destruct (shards r3 !! 1%nat) as [s3|] eqn:S3;
    [|by vm_compute in E1; injection E1 as <-; vm_compute in E2; injection E2 as <-; vm_compute in E3; injection E3 as <-].
  exists r3, s3.
  assert (pc s3 = TExit) as Hx.
  { apply (shutdown_ends_every_shard two_shards [] [] [owner_script] both_ready (calls 10) (thread 1 8) r1 r2 r3 1 s2 s3);
      [apply two_shards_fresh|vm_compute; reflexivity|exact E1|..];
      vm_compute in E1; injection E1 as <-; [reflexivity|repeat constructor|exact E2|..];
      vm_compute in E2; injection E2 as <-; [reflexivity|repeat constructor|exact E3|exact S2|exact S3|].
    vm_compute in S2. injection S2 as <-. vm_compute. lia. }
  vm_compute in E1. injection E1 as <-. vm_compute in E2. injection E2 as <-. vm_compute in E3. injection E3 as <-.
  vm_compute in S3. injection S3 as <-. split_and!; [vm_compute; reflexivity|reflexivity|exact Hx|reflexivity].
Defined.

(** The destructor runs while the second thread has not come to publish its loop. *)
Definition too_early : list Act := calls 4 ++ thread 0 8 ++ calls 8.

Lemma missed_shard_never_ends_witness :
  exists r2 s, run (too_early ++ thread 0 9 ++ thread 1 40 ++ calls 9) (new_runtime two_shards [] [] [owner_script]) = Some r2 /\
    shards r2 !! 1%nat = Some s /\ (pc s = TExit -> failed s = true).
Proof.
  destruct (run too_early (new_runtime two_shards [] [] [owner_script])) as [r1|] eqn:E1; [|by vm_compute in E1].
  destruct (run (thread 0 9 ++ thread 1 40 ++ calls 9) r1) as [r2|] eqn:E2; [|by vm_compute in E1; injection E1 as <-; vm_compute in E2].
  destruct (missed_shard_never_ends two_shards [] [] [owner_script] too_early (thread 0 9 ++ thread 1 40 ++ calls 9) r1 r2 1)
    as (s & Hs & Hx & _); [apply two_shards_fresh|vm_compute; reflexivity|exact E1| |exact E2|].
  - vm_compute in E1. injection E1 as <-. split; [reflexivity|]. split; [eexists; split; reflexivity|].
    intros [|j] c a Hc Hp; [|done]. simpl in Hc. injection Hc as <-. done.
  - exists r2, s. split; [|split; [exact Hs|exact Hx]].
    vm_compute in E1. injection E1 as <-. vm_compute in E2. injection E2 as <-. vm_compute. reflexivity.
Defined.

(** The first loop stops itself and ends between the load of its pointer and its
    use by the shutdown. *)
Lemma shutdown_races_with_stop :
  run (both_ready ++ calls 2 ++ [AppStop 0] ++ thread 0 5 ++ calls 1) (new_runtime two_shards [] [] [owner_script]) = None.
Proof. vm_compute. reflexivity. Qed.

(** The signal thread sees [signal_stop_] and closes the pipe before the shutdown
    writes to it. *)
Lemma shutdown_writes_closed_pipe :
  stray <$> run (calls 5 ++ replicate 3 (ASignal EvNone) ++ calls 5 ++ [ASignal (EvSignal 15)] ++ replicate 2 (ASignal EvNone) ++ calls 1)
                (new_runtime two_shards [] [15] [owner_script]) = Some 1%nat.
Proof. vm_compute. reflexivity. Qed.

Definition smt_box : list Core := (fun i => mkCore i 0 (i mod 4) (-1) [i]) <$> zrange 0 7.

Lemma physical_shards_apart_witness :
  let cs := [mkThread empty_set OnePerPhysicalCore true; unpinned; mkThread empty_set OnePerPhysicalCore true] in
  physical_of cs (placements smt_box 0 0 cs) = [0; 1] /\ NoDup (physical_of cs (placements smt_box 0 0 cs)).
Proof.
  split; [vm_compute; reflexivity|]. apply (physical_shards_apart smt_box); [|vm_compute; lia].
  apply (bool_decide_eq_true_1 (NoDup (id <$> smt_box))). vm_compute. reflexivity.
Defined.

End Runtime.
