(* ===== verification/AdminPages.v ===== *)
(** * The admin endpoint's pages

    The queries, formats and pages of [src/src/admin/server.cpp] (its anonymous
    namespace up to the gather), and the decoder of [/flight] pages
    [src/tools/afx-flight].  Texts are lists of bytes; [lit] reads a literal in which
    a single quote stands for a double one.  [snprintf] cuts at its buffer.  Doubles
    are pairs [m * 2 ^ e] rounded to 53 bits; what is divided and multiplied here
    are counters of 64 bits, so exponents stay in range.

    The pages are read back by [Json.value], a reader of RFC 8259 texts without
    white space, and by [decode]. *)

From stdpp Require Import base option gmap list strings sorting.
From Stdlib Require Import ZArith Lia.
From S2P Require Import Prelude Histogram FlightRecorder Http Runtime.
Local Open Scope Z_scope.
Local Open Scope afx_scope.

(** ** JSON texts *)

Module Json.

Inductive json :=
  | JStr (s : list Z)
  | JNum (lexeme : list Z)
  | JBool (b : bool)
  | JArr (l : list json)
  | JObj (l : list (list Z * json)).

Definition is_digit (c : Z) : bool := (48 <=? c) && (c <=? 57).

(** [-? (0 | [1-9][0-9]* ) (\. [0-9]+)?], the numbers without exponent. *)
Definition fraction_ok (v : list Z) : bool :=
  match v with
  | [] => true
  | c :: v => (c =? 46) && negb (bool_decide (v = [])) && forallb is_digit v
  end.
Fixpoint digits_ok (v : list Z) : bool :=
  match v with
  | [] => true
  | c :: v' => if is_digit c then digits_ok v' else fraction_ok v
  end.
Definition unsigned_ok (v : list Z) : bool :=
  match v with
  | [] => false
  | c :: v => if c =? 48 then fraction_ok v else is_digit c && digits_ok v
  end.
Definition number_ok (v : list Z) : bool :=
  match v with
  | c :: v' => if c =? 45 then unsigned_ok v' else unsigned_ok v
  | [] => false
  end.

Definition number_char (c : Z) : bool := is_digit c || (c =? 45) || (c =? 46) || (c =? 43) || (c =? 69) || (c =? 101).

Fixpoint span (P : Z -> bool) (l : list Z) : list Z * list Z :=
  match l with
  | c :: l' => if P c then let '(a, b) := span P l' in (c :: a, b) else ([], l)
  | [] => ([], [])
  end.

(** The characters of a string up to its closing quote. *)
Fixpoint chars (l : list Z) : option (list Z * list Z) :=
  match l with
  | [] => None
  | c :: l =>
      if c =? 34 then Some ([], l)
      else if c =? 92 then
        match l with
        | d :: l =>
            '(s, r) ← chars l;
            if (d =? 34) || (d =? 92) || (d =? 47) then Some (d :: s, r)
            else if d =? 110 then Some (10 :: s, r)
            else if d =? 116 then Some (9 :: s, r)
            else if d =? 114 then Some (13 :: s, r)
            else None
        | [] => None
        end
      else if c <? 32 then None
      else '(s, r) ← chars l; Some (c :: s, r)
  end.

Definition string_at (l : list Z) : option (list Z * list Z) :=
  match l with c :: l => if c =? 34 then chars l else None | [] => None end.

Definition eat (x : list Z) (l : list Z) : option (list Z) :=
  if bool_decide (take (length x) l = x) then Some (drop (length x) l) else None.

(** [item (, item)*] up to the closing character. *)
Fixpoint items {A} (item : list Z -> option (A * list Z)) (close : Z) (fuel : nat) (l : list Z) : option (list A * list Z) :=
  match fuel with
  | O => None
  | S f =>
      '(x, r) ← item l;
      match r with
      | c :: r =>
          if c =? 44 then '(xs, r) ← items item close f r; Some (x :: xs, r)
          else if c =? close then Some ([x], r) else None
      | [] => None
      end
  end.

Definition items_or_none {A} (item : list Z -> option (A * list Z)) (close : Z) (fuel : nat) (l : list Z)
    : option (list A * list Z) :=
  match l with c :: r => if c =? close then Some ([], r) else items item close fuel l | [] => None end.

Definition member {A} (value : list Z -> option (A * list Z)) (l : list Z) : option ((list Z * A) * list Z) :=
  '(k, r) ← string_at l;
  r ← eat [58] r;
  '(v, r) ← value r;
  Some ((k, v), r).

Fixpoint value (fuel : nat) (l : list Z) : option (json * list Z) :=
  match fuel with
  | O => None
  | S f =>
      match l with
      | [] => None
      | c :: r =>
          if c =? 34 then '(s, r) ← chars r; Some (JStr s, r)
          else if c =? 91 then '(xs, r) ← items_or_none (value f) 93 f r; Some (JArr xs, r)
          else if c =? 123 then '(xs, r) ← items_or_none (member (value f)) 125 f r; Some (JObj xs, r)
          else if c =? 116 then r ← eat (Http.str "true") l; Some (JBool true, r)
          else if c =? 102 then r ← eat (Http.str "false") l; Some (JBool false, r)
          else
            let '(x, r) := span number_char l in
            if number_ok x then Some (JNum x, r) else None
      end
  end.

(** A whole text. *)
Definition read (l : list Z) : option json :=
  match value (S (length l)) l with Some (v, []) => Some v | _ => None end.

End Json.

Module Pages.
Import Json.

(** ** Literals, numbers and buffers *)

Definition lit (s : string) : list Z := map (fun c => if c =? 39 then 34 else c) (Http.str s).

(** [%llu], [%lld]. *)
Definition udec (n : Z) : list Z := Http.to_string n.
Definition dec (n : Z) : list Z := if n <? 0 then 45 :: udec (- n) else udec n.

Definition snprintf (size : nat) (s : list Z) : list Z := take (size - 1) s.

(** ** Doubles *)

(** The integer nearest to [n / d], the even one of two. *)
Definition nearest (n d : Z) : Z :=
  let q := n / d in
  let r := n mod d in
  if 2 * r <? d then q else if d <? 2 * r then q + 1 else if Z.even q then q else q + 1.

Record double := mkDouble { mant : Z; expo : Z }.

(** [n / d] rounded to 53 bits. *)
Definition round (n d : Z) : double :=
  if n =? 0 then mkDouble 0 0
  else
    let at_exp e := (n * 2 ^ Z.max 0 (- e), d * 2 ^ Z.max 0 e) in
    let e := Z.log2 n - Z.log2 d - 52 in
    let e := let '(a, b) := at_exp e in if a / b <? 2 ^ 52 then e - 1 else e in
    let '(a, b) := at_exp e in mkDouble (nearest a b) e.

Definition of_u64 (n : Z) : double := round n 1.
Definition num_den (x : double) : Z * Z := (mant x * 2 ^ Z.max 0 (expo x), 2 ^ Z.max 0 (- expo x)).
Definition div (x y : double) : double :=
  let '(a, b) := num_den x in let '(c, d) := num_den y in round (a * d) (b * c).
Definition mul (x y : double) : double :=
  let '(a, b) := num_den x in let '(c, d) := num_den y in round (a * c) (b * d).

Fixpoint fixed_digits (k : nat) (n : Z) : list Z :=
  match k with O => [] | S k => fixed_digits k (n / 10) ++ [48 + n mod 10] end.

(** [%.kf] of a double that is not negative. *)
Definition fixed (k : nat) (x : double) : list Z :=
  let '(a, b) := num_den x in
  let n := nearest (a * 10 ^ Z.of_nat k) b in
  let i := n / 10 ^ Z.of_nat k in
  Http.digits (S (Z.to_nat (Z.log2 i))) i ++ match k with O => [] | _ => 46 :: fixed_digits k n end.

(** ** Queries *)

Fixpoint qget_from (fuel : nat) (query key : list Z) : list Z :=
  match fuel with
  | O => []
  | S f =>
      if bool_decide (query = []) then []
      else
        let amp := Http.find 38 query in
        let kv := match amp with None => query | Some n => take n query end in
        let next := match amp with None => [] | Some n => qget_from f (drop (S n) query) key end in
        match Http.find 61 kv with
        | Some eq => if bool_decide (take eq kv = key) then drop (S eq) kv else next
        | None => next
        end
  end.
Definition qget (query key : list Z) : list Z := qget_from (S (length query)) query key.

Definition is_space (c : Z) : bool := (c =? 32) || ((9 <=? c) && (c <=? 13)).
Fixpoint skip_space (v : list Z) : list Z :=
  match v with c :: v' => if is_space c then skip_space v' else v | [] => [] end.
Fixpoint digits_value (n : Z) (v : list Z) : Z :=
  match v with c :: v => if is_digit c then digits_value (10 * n + (c - 48)) v else n | [] => n end.

(** [std::atoll], which is [strtoll]: out of range it saturates. *)
Definition clamp (n : Z) : Z := Z.max (- 2 ^ 63) (Z.min (2 ^ 63 - 1) n).
Definition atoll (v : list Z) : Z :=
  match skip_space v with
  | c :: v' =>
      if c =? 45 then clamp (- digits_value 0 v')
      else if c =? 43 then clamp (digits_value 0 v')
      else clamp (digits_value 0 (c :: v'))
  | [] => 0
  end.

Definition qnum (q k : list Z) (dflt : Z) : Z :=
  match qget q k with [] => dflt | v => atoll v end.

(** ** Formatting *)

Definition esc (c : Z) : list Z :=
  (if (c =? 34) || (c =? 92) || (c =? 10) then [92] else []) ++ [if c =? 10 then 110 else c].
Definition jesc (s : list Z) : list Z := concat (map esc s).

Definition conn_state_name (s : Z) : list Z :=
  if s =? 0 then Http.str "connecting"
  else if s =? 1 then Http.str "established"
  else if s =? 2 then Http.str "shutdown_write"
  else if s =? 3 then Http.str "closing"
  else if s =? 4 then Http.str "closed"
  else Http.str "?".

Definition bool_text (b : bool) : list Z := if b then Http.str "true" else Http.str "false".

(** ** What a shard reports *)

Record Stats := mkStats {
  iterations : Z; idle_iterations : Z; spins : Z; blocks : Z; wakeups : Z;
  accepts : Z; conns_opened : Z; conns_closed : Z; bytes_in : Z; bytes_out : Z;
  msgs_in : Z; msgs_out : Z; frame_errors : Z;
  write_hwm_hits : Z; write_drops : Z;
  mailbox_pushes : Z; mailbox_pops : Z; mailbox_full : Z;
  timers_armed : Z; timers_fired : Z; timers_cancelled : Z; timer_coalesced : Z; groups_cancelled : Z;
  deadline_expired_before_start : Z; deadline_expired_in_flight : Z;
  callback_errors : Z; internal_errors : Z;
  coro_spawned : Z; coro_completed : Z; coro_heap_frames : Z }.

Definition stats0 : Stats :=
  mkStats 0 0 0 0 0 0 0 0 0 0 0 0 0 0 0 0 0 0 0 0 0 0 0 0 0 0 0 0 0 0.

Definition idle_ratio (s : Stats) : double :=
  if iterations s =? 0 then mkDouble 0 0 else div (of_u64 (idle_iterations s)) (of_u64 (iterations s)).

Record LatencyMetrics := mkLatency {
  iteration_ns : Hist.Histogram; timer_lateness_ns : Hist.Histogram; mailbox_queue_ns : Hist.Histogram;
  recv_to_handler_ns : Hist.Histogram; write_queue_depth : Hist.Histogram; deadline_headroom_ns : Hist.Histogram;
  nic_to_kernel_ns : Hist.Histogram; kernel_to_dequeue_ns : Hist.Histogram; dequeue_to_handler_ns : Hist.Histogram;
  stage_ns : list Hist.Histogram }.

Definition latency0 : LatencyMetrics :=
  mkLatency Hist.empty Hist.empty Hist.empty Hist.empty Hist.empty Hist.empty Hist.empty Hist.empty Hist.empty
    (replicate 7 Hist.empty).

Definition kStageNames : list string :=
  ["mailbox"%string; "timers"%string; "wait"%string; "completions"%string; "defer"%string; "flush"%string; "bookkeeping"%string].

Record ConnInfo := mkConnInfo {
  ci_id : Z; ci_gen : Z; ci_role : list Z; ci_name : list Z; ci_peer : list Z; ci_state : Z;
  ci_queued : Z; ci_open_ns : Z }.

Record FlightRecord := mkFlight { tsc : Z; kind : Z; handle : Z; fa : Z; fb : Z; trace : Z }.

Record ShardSnap := mkSnap {
  s_name : list Z;
  s_stats : Stats;
  s_lat : LatencyMetrics;
  s_conns : list ConnInfo;
  s_flight : list FlightRecord;
  s_cfg : list Z;
  s_ok : bool }.

Definition snap0 : ShardSnap := mkSnap [] stats0 latency0 [] [] [] false.

(** ** [/stats] *)

(** The counters, in the order of the page. *)
Definition stats_fields (s : Stats) : list (string * list Z) :=
  [("iterations"%string, udec (iterations s)); ("idle_iterations"%string, udec (idle_iterations s));
   ("idle_ratio"%string, fixed 4 (idle_ratio s)); ("spins"%string, udec (spins s)); ("blocks"%string, udec (blocks s));
   ("wakeups"%string, udec (wakeups s)); ("accepts"%string, udec (accepts s)); ("conns_opened"%string, udec (conns_opened s));
   ("conns_closed"%string, udec (conns_closed s)); ("conns_live"%string, udec (conns_opened s ⊟ conns_closed s));
   ("bytes_in"%string, udec (bytes_in s)); ("bytes_out"%string, udec (bytes_out s)); ("msgs_in"%string, udec (msgs_in s));
   ("msgs_out"%string, udec (msgs_out s)); ("frame_errors"%string, udec (frame_errors s));
   ("write_hwm_hits"%string, udec (write_hwm_hits s)); ("write_drops"%string, udec (write_drops s));
   ("mailbox_pushes"%string, udec (mailbox_pushes s)); ("mailbox_pops"%string, udec (mailbox_pops s));
   ("mailbox_full"%string, udec (mailbox_full s)); ("timers_armed"%string, udec (timers_armed s));
   ("timers_fired"%string, udec (timers_fired s)); ("timers_cancelled"%string, udec (timers_cancelled s));
   ("timer_coalesced"%string, udec (timer_coalesced s));
   ("deadline_expired_before_start"%string, udec (deadline_expired_before_start s));
   ("deadline_expired_in_flight"%string, udec (deadline_expired_in_flight s));
   ("callback_errors"%string, udec (callback_errors s)); ("internal_errors"%string, udec (internal_errors s));
   ("coro_spawned"%string, udec (coro_spawned s)); ("coro_completed"%string, udec (coro_completed s));
   ("coro_heap_frames"%string, udec (coro_heap_frames s))].

(** [,"name":value]. *)
Definition field_text (f : string * list Z) : list Z := lit ",'" ++ Http.str (fst f) ++ lit "':" ++ snd f.

(** What the format of [stats_json] prints after the name. *)
Definition stats_text (s : ShardSnap) : list Z :=
  lit "','ok':" ++ bool_text (s_ok s) ++ concat (map field_text (stats_fields (s_stats s))) ++ Http.str "}".

Definition stats_json (s : ShardSnap) : list Z :=
  lit "{'name':'" ++ jesc (s_name s) ++ snprintf 1024 (stats_text s).

(** Texts each followed by a comma, the last comma removed ([pop_back]). *)
Definition comma_each (l : list (list Z)) : list Z := concat (map (fun x => x ++ [44]) l).
Definition pop_comma (o : list Z) : list Z := if bool_decide (last o = Some 44) then removelast o else o.

Definition stats_page (timed_out : bool) (snaps : list ShardSnap) : list Z :=
  pop_comma (lit "{'timeout':" ++ bool_text timed_out ++ lit ",'shards':[" ++ comma_each (map stats_json snaps))
  ++ Http.str "]}".

(** ** [/metrics] *)

Definition mean (h : Hist.Histogram) : double :=
  if Hist.count_ h =? 0 then mkDouble 0 0 else div (of_u64 (Hist.total_ h)) (of_u64 (Hist.count_ h)).

(** The buckets that are printed: upper bound and cumulative count. *)
Fixpoint bucket_rows (bkt : nat) (cum : Z) (bs : list Z) : list (Z * Z) :=
  match bs with
  | [] => []
  | b :: bs =>
      let cum := cum ⊞ b in
      (if b =? 0 then [] else [(u64 (Z.shiftl 2 (Z.of_nat bkt)), cum)]) ++ bucket_rows (S bkt) cum bs
  end.
Definition histo_rows (h : Hist.Histogram) : list (Z * Z) := bucket_rows 0 0 (Hist.buckets_ h).

Definition histo_prom (name labels : list Z) (h : Hist.Histogram) : list Z :=
  concat (map (fun '(le, cum) =>
      snprintf 256 (name ++ Http.str "{" ++ labels ++ lit ",le='" ++ udec le ++ lit "'} " ++ udec cum ++ [10])) (histo_rows h))
  ++ snprintf 256 (name ++ Http.str "{" ++ labels ++ lit ",le='+Inf'} " ++ udec (Hist.count_ h) ++ [10])
  ++ snprintf 256 (name ++ Http.str "_sum{" ++ labels ++ Http.str "} " ++ fixed 0 (mul (mean h) (of_u64 (Hist.count_ h))) ++ [10]
                   ++ name ++ Http.str "_count{" ++ labels ++ Http.str "} " ++ udec (Hist.count_ h) ++ [10]).

(** The series of [metrics_prom], in order. *)
Definition metric_fields (s : Stats) : list (string * list Z) :=
  [("iterations_total"%string, udec (iterations s)); ("idle_iterations_total"%string, udec (idle_iterations s));
   ("spins_total"%string, udec (spins s)); ("blocks_total"%string, udec (blocks s));
   ("wakeups_total"%string, udec (wakeups s)); ("accepts_total"%string, udec (accepts s));
   ("conns_opened_total"%string, udec (conns_opened s)); ("conns_closed_total"%string, udec (conns_closed s));
   ("conns_live"%string, udec (conns_opened s ⊟ conns_closed s)); ("bytes_in_total"%string, udec (bytes_in s));
   ("bytes_out_total"%string, udec (bytes_out s)); ("msgs_in_total"%string, udec (msgs_in s));
   ("msgs_out_total"%string, udec (msgs_out s)); ("frame_errors_total"%string, udec (frame_errors s));
   ("write_hwm_hits_total"%string, udec (write_hwm_hits s)); ("write_drops_total"%string, udec (write_drops s));
   ("mailbox_pushes_total"%string, udec (mailbox_pushes s)); ("mailbox_pops_total"%string, udec (mailbox_pops s));
   ("mailbox_full_total"%string, udec (mailbox_full s)); ("timers_armed_total"%string, udec (timers_armed s));
   ("timers_fired_total"%string, udec (timers_fired s)); ("timers_cancelled_total"%string, udec (timers_cancelled s));
   ("timer_coalesced_total"%string, udec (timer_coalesced s)); ("groups_cancelled_total"%string, udec (groups_cancelled s));
   ("deadline_expired_before_start_total"%string, udec (deadline_expired_before_start s));
   ("deadline_expired_in_flight_total"%string, udec (deadline_expired_in_flight s));
   ("idle_ratio"%string, fixed 4 (idle_ratio s)); ("callback_errors_total"%string, udec (callback_errors s));
   ("internal_errors_total"%string, udec (internal_errors s)); ("coro_spawned_total"%string, udec (coro_spawned s));
   ("coro_completed_total"%string, udec (coro_completed s)); ("coro_heap_frames_total"%string, udec (coro_heap_frames s))].

Definition metric_line (lbl : list Z) (f : string * list Z) : list Z :=
  Http.str "afx_" ++ Http.str (fst f) ++ Http.str "{" ++ lbl ++ Http.str "} " ++ snd f ++ [10].

Definition shard_label (shard : Z) : list Z := snprintf 32 (lit "shard='" ++ dec shard ++ lit "'").

Definition metrics_prom (s : ShardSnap) (shard : Z) : list Z :=
  let lbl := shard_label shard in
  let l := s_lat s in
  snprintf 3072 (concat (map (metric_line lbl) (metric_fields (s_stats s))))
  ++ histo_prom (Http.str "afx_iteration_ns") lbl (iteration_ns l)
  ++ histo_prom (Http.str "afx_timer_lateness_ns") lbl (timer_lateness_ns l)
  ++ histo_prom (Http.str "afx_mailbox_queue_ns") lbl (mailbox_queue_ns l)
  ++ histo_prom (Http.str "afx_recv_to_handler_ns") lbl (recv_to_handler_ns l)
  ++ histo_prom (Http.str "afx_write_queue_depth") lbl (write_queue_depth l)
  ++ histo_prom (Http.str "afx_deadline_headroom_ns") lbl (deadline_headroom_ns l)
  ++ histo_prom (Http.str "afx_nic_to_kernel_ns") lbl (nic_to_kernel_ns l)
  ++ histo_prom (Http.str "afx_kernel_to_dequeue_ns") lbl (kernel_to_dequeue_ns l)
  ++ histo_prom (Http.str "afx_dequeue_to_handler_ns") lbl (dequeue_to_handler_ns l)
  ++ concat (zip_with (fun st h =>
       histo_prom (Http.str "afx_stage_ns") (snprintf 48 (lbl ++ lit ",stage='" ++ Http.str st ++ lit "'")) h)
       kStageNames (stage_ns l)).

Definition metrics_page (snaps : list ShardSnap) : list Z :=
  concat (imap (fun i s => if s_ok s then metrics_prom s (Z.of_nat i) else []) snaps).

(** ** [/conns], [/placement] and [/config] *)

Definition conn_row (ci : ConnInfo) : list Z :=
  snprintf 256 (lit "{'id':" ++ udec (ci_id ci) ++ lit ",'gen':" ++ udec (ci_gen ci) ++ lit ",'role':'")
  ++ jesc (ci_role ci) ++ lit "','source':'" ++ jesc (ci_name ci) ++ lit "','peer':'" ++ jesc (ci_peer ci)
  ++ snprintf 256 (lit "','state':'" ++ conn_state_name (ci_state ci) ++ lit "','queued_bytes':" ++ udec (ci_queued ci)
                   ++ lit ",'open_ns':" ++ udec (ci_open_ns ci) ++ Http.str "},").

Definition conns_json (s : ShardSnap) : list Z :=
  [91] ++ pop_comma (concat (map conn_row (s_conns s))) ++ [93].

(** [if (o.size() > 1) o.pop_back()]. *)
Definition pop_long (o : list Z) : list Z := if (1 <? length o)%nat then removelast o else o.

Definition conns_page (snaps : list ShardSnap) : list Z :=
  pop_long ([91] ++ comma_each (map conns_json snaps)) ++ [93].

(** A shard's row and its NUMA node. *)
Definition placement_row (si : Runtime.ShardInfo * Z) : list Z :=
  let '(i, node) := si in
  lit "{'name':'" ++ jesc (Runtime.i_name i)
  ++ snprintf 256 (lit "','requested_core':" ++ dec (Runtime.i_requested i) ++ lit ",'bound_core':" ++ dec (Runtime.i_bound i)
       ++ lit ",'numa_node':" ++ dec node ++ lit ",'running':" ++ bool_text (Runtime.i_running i)
       ++ lit ",'failed':" ++ bool_text (Runtime.i_failed i) ++ Http.str "},").
Definition placement_page (infos : list (Runtime.ShardInfo * Z)) : list Z :=
  pop_long ([91] ++ concat (map placement_row infos)) ++ [93].

Definition config_row (s : ShardSnap) : list Z :=
  lit "{'name':'" ++ jesc (s_name s) ++ lit "','ok':" ++ bool_text (s_ok s)
  ++ (if s_ok s then lit ",'config':'" ++ jesc (s_cfg s) ++ lit "'" else []) ++ Http.str "},".
Definition config_page (snaps : list ShardSnap) : list Z :=
  pop_comma ([91] ++ concat (map config_row snaps)) ++ [93].

Record EmConfig := mkEmConfig {
  wait_block : bool; wait_spin : bool; spin_budget : Z; timer_tick : Z; stall_threshold : Z; arena_bytes : Z;
  mailbox_capacity : Z; chaos_on : bool; profile_stages : bool }.

(** The text a shard prints for [/config]. *)
Definition config_text (c : EmConfig) : list Z :=
  let on_off (b : bool) := if b then Http.str "on" else Http.str "off" in
  snprintf 256
    (Http.str "wait=" ++ (if wait_block c then Http.str "block" else if wait_spin c then Http.str "spin" else Http.str "spin_then_block")
     ++ Http.str " spin_budget_ns=" ++ dec (spin_budget c) ++ Http.str " timer_tick_ns=" ++ dec (timer_tick c)
     ++ Http.str " stall_threshold_ns=" ++ dec (stall_threshold c) ++ Http.str " arena_bytes=" ++ udec (arena_bytes c)
     ++ Http.str " mailbox_capacity=" ++ udec (mailbox_capacity c) ++ Http.str " chaos=" ++ on_off (chaos_on c)
     ++ Http.str " profile_stages=" ++ on_off (profile_stages c)).

(** ** [/flight] *)

Fixpoint le_bytes (n : nat) (v : Z) : list Z :=
  match n with O => [] | S n => v mod 256 :: le_bytes n (v / 256) end.

(** The 32 bytes of a [FlightRecord] and the 16 of a shard's header. *)
Definition record_bytes (r : FlightRecord) : list Z :=
  le_bytes 8 (tsc r) ++ le_bytes 1 (kind r) ++ [0; 0; 0] ++ le_bytes 4 (handle r) ++ le_bytes 4 (fa r) ++ le_bytes 4 (fb r)
  ++ le_bytes 8 (trace r).
Definition MAGIC : list Z := Http.str "AFXFLT01".
Definition flight_header (shard n : Z) : list Z := MAGIC ++ le_bytes 4 shard ++ le_bytes 4 n.

Definition flight_frame (i : nat) (s : ShardSnap) : list Z :=
  flight_header (u32 (Z.of_nat i)) (u32 (zlen (s_flight s))) ++ concat (map record_bytes (s_flight s)).
Definition flight_bin (snaps : list ShardSnap) : list Z := concat (imap flight_frame snaps).

(** ** The decoder of flight pages, [afx-flight] *)

Definition KINDS : list string :=
  ["Accept"%string; "Recv"%string; "Frame"%string; "Send"%string; "TimerFire"%string; "StateChange"%string;
   "ItcPost"%string; "ItcRun"%string; "Wakeup"%string; "Backpressure"%string; "Drop"%string;
   "DeadlineExpired"%string; "CallbackError"%string; "User"%string].
Definition kind_name (k : Z) : list Z :=
  match KINDS !! Z.to_nat k with Some n => Http.str n | None => Http.str "kind_" ++ udec k end.

Fixpoint of_le (bs : list Z) : Z := match bs with [] => 0 | b :: bs => b + 256 * of_le bs end.
Definition field_at (off n : nat) (buf : list Z) : Z := of_le (take n (drop off buf)).

Record Decoded := mkDecoded {
  seq_ : nat; shard_ : Z; tsc_ : Z; kind_ : list Z; handle_ : Z; a_ : Z; b_ : Z; trace_ : Z }.

Definition decode_rec (buf : list Z) (off : nat) (shard : Z) : Decoded :=
  mkDecoded (off / 32) shard (field_at off 8 buf) (kind_name (field_at (off + 8) 1 buf)) (field_at (off + 12) 4 buf)
    (field_at (off + 16) 4 buf) (field_at (off + 20) 4 buf) (field_at (off + 24) 8 buf).

(** [for _ in range(n)], and the offset after it. *)
Fixpoint decode_recs (n : nat) (buf : list Z) (off : nat) (shard : Z) : list Decoded * nat :=
  match n with
  | O => ([], off)
  | S n =>
      if (length buf <? off + 32)%nat then ([], off)
      else let '(l, o) := decode_recs n buf (off + 32) shard in (decode_rec buf off shard :: l, o)
  end.

Fixpoint decode_frames (fuel : nat) (buf : list Z) (off : nat) : list Decoded :=
  match fuel with
  | O => []
  | S fuel =>
      if (off + 16 <=? length buf)%nat then
        if bool_decide (take 8 (drop off buf) = MAGIC) then
          let '(l, o) := decode_recs (Z.to_nat (field_at (off + 12) 4 buf)) buf (off + 16) (field_at (off + 8) 4 buf) in
          l ++ decode_frames fuel buf o
        else []
      else []
  end.

Definition decode (buf : list Z) : list Decoded * bool :=
  if bool_decide (take 8 buf = MAGIC) then (decode_frames (length buf) buf 0, true)
  else ((fun i => decode_rec buf (i * 32) (-1)) <$> seq 0 (length buf / 32), false).

(** [recs.sort(key=...)], a stable sort. *)
Definition key_le (x y : Decoded) : bool :=
  (tsc_ x <? tsc_ y) || ((tsc_ x =? tsc_ y) &&
  ((shard_ x <? shard_ y) || ((shard_ x =? shard_ y) && (trace_ x <=? trace_ y)))).
Fixpoint insert_rec (x : Decoded) (l : list Decoded) : list Decoded :=
  match l with
  | [] => [x]
  | y :: l' => if key_le x y then x :: l else y :: insert_rec x l'
  end.
Definition sort_recs (l : list Decoded) : list Decoded := foldr insert_rec [] l.

(** ** Printed values are read back *)

Fixpoint join (l : list (list Z)) : list Z :=
  match l with [] => [] | [x] => x | x :: l => x ++ 44 :: join l end.

Fixpoint print (v : json) : list Z :=
  match v with
  | JStr s => 34 :: jesc s ++ [34]
  | JNum x => x
  | JBool b => bool_text b
  | JArr l => 91 :: join (map print l) ++ [93]
  | JObj l => 123 :: join (map (fun '(k, v) => 34 :: jesc k ++ 34 :: 58 :: print v) l) ++ [125]
  end.
Definition print_member (m : list Z * json) : list Z := 34 :: jesc (fst m) ++ 34 :: 58 :: print (snd m).

(** A text [jesc] escapes: no control character but the line feed. *)
Definition clean (s : list Z) : Prop := Forall (fun c => c = 10 \/ 32 <= c) s.

Inductive wf : json -> Prop :=
  | wf_str s : clean s -> wf (JStr s)
  | wf_num x : number_ok x = true -> wf (JNum x)
  | wf_bool b : wf (JBool b)
  | wf_arr l : Forall wf l -> wf (JArr l)
  | wf_obj l : Forall (fun m => clean (fst m) /\ wf (snd m)) l -> wf (JObj l).

(** What may follow a value. *)
Definition stops (r : list Z) : Prop := match r with [] => True | c :: _ => number_char c = false end.

Lemma chars_jesc s r : clean s -> chars (jesc s ++ 34 :: r) = Some (s, r).
Proof.
  induction 1 as [|c s Hc Hs IH]; [done|]. change (jesc (c :: s)) with (esc c ++ jesc s).
  rewrite <-app_assoc. unfold esc. destruct (Z.eqb_spec c 34) as [->|H1]; [cbn; by rewrite IH|].
  destruct (Z.eqb_spec c 92) as [->|H2]; [cbn; by rewrite IH|].
  destruct (Z.eqb_spec c 10) as [->|H3]; [cbn; by rewrite IH|].
  cbn [orb app chars]. rewrite (proj2 (Z.eqb_neq c 34)), (proj2 (Z.eqb_neq c 92)) by done.
  rewrite (proj2 (Z.ltb_ge c 32)) by (destruct Hc; [done|lia]). by rewrite IH.
Qed.

Lemma span_app (P : Z -> bool) x r :
  forallb P x = true -> match r with [] => True | c :: _ => P c = false end -> span P (x ++ r) = (x, r).
Proof.
  intros Hx Hr. induction x as [|c x IH]; cbn in *.
  - destruct r as [|c r]; [done|]. cbn. by rewrite Hr.
  - apply andb_true_iff in Hx as [-> Hx]. by rewrite (IH Hx).
Qed.

Lemma digit_number_char v : forallb is_digit v = true -> forallb number_char v = true.
Proof.
  induction v as [|c v IH]; [done|]. cbn. intros [H1 H2]%andb_true_iff. rewrite (IH H2). unfold number_char. by rewrite H1.
Qed.
Lemma fraction_chars v : fraction_ok v = true -> forallb number_char v = true.
Proof.
  destruct v as [|c v]; [done|]. cbn [fraction_ok]. intros [[H1 _]%andb_true_iff H2]%andb_true_iff. cbn [forallb].
  apply Z.eqb_eq in H1 as ->. by apply digit_number_char.
Qed.
Lemma digits_ok_chars v : digits_ok v = true -> forallb number_char v = true.
Proof.
  induction v as [|c v IH]; [done|]. cbn [digits_ok]. destruct (is_digit c) eqn:E; [|by intros; apply fraction_chars].
  intros H. cbn [forallb]. rewrite (IH H). unfold number_char. by rewrite E.
Qed.
Lemma unsigned_chars v : unsigned_ok v = true -> forallb number_char v = true /\ exists c v', v = c :: v' /\ is_digit c = true.
Proof.
  destruct v as [|c v]; [done|]. cbn [unsigned_ok]. destruct (Z.eqb_spec c 48) as [->|Hc].
  - intros H%fraction_chars. split; [exact H|by exists 48, v].
  - intros [H1 H2]%andb_true_iff. split; [|by exists c, v]. cbn [forallb]. rewrite (digits_ok_chars _ H2). unfold number_char.
    by rewrite H1.
Qed.
Lemma number_chars x : number_ok x = true ->
  forallb number_char x = true /\ exists c x', x = c :: x' /\ (c = 45 \/ 48 <= c <= 57).
Proof.
  destruct x as [|c x]; [done|]. cbn [number_ok]. destruct (Z.eqb_spec c 45) as [->|Hc]; intros H.
  - apply unsigned_chars in H as [H _]. split; [exact H|]. exists 45, x. split; [done|by left].
  - apply unsigned_chars in H as [H (d & y & [= -> ->] & Hd)]. split; [exact H|]. exists d, y. split; [done|].
    right. unfold is_digit in Hd. lia.
Qed.

Lemma eat_app x r : eat x (x ++ r) = Some r.
Proof. unfold eat. rewrite take_app_length, drop_app_length. by rewrite bool_decide_eq_true_2. Qed.

(** How a printed value begins. *)
Lemma print_head v : wf v -> exists c r, print v = c :: r /\ c <> 93 /\ c <> 125.
Proof.
  intros [s|x Hx|b|l|l]; cbn [print]; [by eexists _, _| |by destruct b; eexists _, _|by eexists _, _|by eexists _, _].
  apply number_chars in Hx as [_ (c & y & -> & Hc)]. exists c, y. split; [done|lia].
Qed.

Lemma items_join {A} (item : list Z -> option (A * list Z)) (pr : A -> list Z) close l r : forall fuel,
  (forall x k, x ∈ l -> stops k -> item (pr x ++ k) = Some (x, k)) ->
  l <> [] -> (length l <= fuel)%nat -> close <> 44 -> number_char close = false ->
  items item close fuel (join (map pr l) ++ close :: r) = Some (l, r).
Proof.
  induction l as [|x l IH]; intros fuel Hi Hn Hf H44 Hc; [done|]. destruct fuel as [|fuel]; [cbn in Hf; lia|].
  destruct l as [|y l].
  - cbn [map join items]. rewrite (Hi x (close :: r)); [|left|exact Hc]. cbn [mbind option_bind].
    rewrite (proj2 (Z.eqb_neq close 44)), Z.eqb_refl by done. done.
  - change (join (map pr (x :: y :: l))) with (pr x ++ 44 :: join (map pr (y :: l))). rewrite <-app_assoc. cbn [items].
    rewrite (Hi x); [|left|done]. cbn [mbind option_bind app]. rewrite Z.eqb_refl.
    rewrite IH; [done| |done|cbn in *; lia|done|done]. intros z k Hz. apply Hi. by right.
Qed.

Lemma items_none_join {A} (item : list Z -> option (A * list Z)) (pr : A -> list Z) close l r fuel :
  (forall x k, x ∈ l -> stops k -> item (pr x ++ k) = Some (x, k)) ->
  (forall x, x ∈ l -> exists c y, pr x = c :: y /\ c <> close) ->
  (length l <= fuel)%nat -> close <> 44 -> number_char close = false ->
  items_or_none item close fuel (join (map pr l) ++ close :: r) = Some (l, r).
Proof.
  intros Hi Hh Hf H44 Hc. unfold items_or_none. destruct l as [|x l]; [cbn; by rewrite Z.eqb_refl|].
  destruct (Hh x) as (c & y & Hx & Hcc); [left|].
  assert (exists z, join (map pr (x :: l)) ++ close :: r = c :: z) as [z Hz].
  { destruct l as [|x' l]; cbn [map join]; rewrite Hx; by eexists. }
  rewrite Hz. rewrite (proj2 (Z.eqb_neq c close)) by done. rewrite <-Hz. by apply items_join.
Qed.

Lemma join_longer {A} (pr : A -> list Z) l :
  (forall x, x ∈ l -> pr x <> []) -> (length l <= length (join (map pr l)))%nat /\
  forall x, x ∈ l -> (length (pr x) <= length (join (map pr l)))%nat.
Proof.
  induction l as [|x l IH]; intros Hp; [split; [done|intros x Hx; by inversion Hx]|].
  assert (length (pr x) <> 0)%nat by (intros H%length_zero_iff_nil; apply (Hp x); [left|done]).
  destruct IH as [IH1 IH2]; [intros y Hy; apply Hp; by right|].
  destruct l as [|y l].
  - cbn [map join length]. split; [lia|]. intros z Hz. inversion Hz as [|? ? ? Hz']; subst; [lia|inversion Hz'].
  - change (join (map pr (x :: y :: l))) with (pr x ++ 44 :: join (map pr (y :: l))). rewrite length_app. cbn [length].
    split; [cbn [length] in IH1; lia|]. intros z Hz. inversion Hz as [|? ? ? Hz']; subst; [lia|].
    specialize (IH2 z Hz'). lia.
Qed.

Lemma member_print p m k :
  clean (fst m) -> p (print (snd m) ++ k) = Some (snd m, k) -> member p (print_member m ++ k) = Some (m, k).
Proof.
  intros Hc Hp. unfold member, print_member. cbn [app string_at]. rewrite Z.eqb_refl, <-app_assoc. cbn [app].
  rewrite (chars_jesc _ _ Hc). cbn [mbind option_bind]. change (58 :: print (snd m) ++ k) with ([58] ++ (print (snd m) ++ k)).
  rewrite eat_app. cbn [mbind option_bind]. rewrite Hp. by destruct m.
Qed.

Lemma print_obj l : print (JObj l) = 123 :: join (map print_member l) ++ [125].
Proof. cbn [print]. do 2 f_equal. f_equal. apply map_ext. by intros [k v]. Qed.

(** Reading what was printed. *)
Lemma value_print f : forall v r, wf v -> stops r -> (length (print v) < f)%nat -> value f (print v ++ r) = Some (v, r).
Proof.
  induction f as [|f IH]; intros v r Hv Hr Hl; [lia|]. destruct Hv as [s Hs|x Hx|b|l Hw|l Hw].
  - cbn [print app value]. rewrite Z.eqb_refl, <-app_assoc. cbn [app]. by rewrite (chars_jesc _ _ Hs).
  - cbn [print]. pose proof (number_chars x Hx) as [Hc (c & y & -> & Hd)]. cbn [app value].
    rewrite !(proj2 (Z.eqb_neq c _)) by lia. change (c :: y ++ r) with ((c :: y) ++ r).
    rewrite (span_app _ _ _ Hc Hr). by rewrite Hx.
  - cbn [print]. destruct b; cbn [bool_text]; reflexivity.
  - change (print (JArr l)) with (91 :: join (map print l) ++ [93]) in *. cbn [length] in Hl. rewrite length_app in Hl.
    cbn [length] in Hl. rewrite Forall_forall in Hw.
    destruct (join_longer print l) as [H1 H2]; [intros v Hin; destruct (print_head v (Hw v Hin)) as (? & ? & -> & _); done|].
    cbn [app value]. cbn [Z.eqb Pos.eqb]. rewrite <-app_assoc. cbn [app].
    rewrite items_none_join; [done| | |lia|done|done].
    + intros v k Hin Hk. apply IH; [by apply Hw|done|specialize (H2 v Hin); lia].
    + intros v Hin. destruct (print_head v (Hw v Hin)) as (c & y & -> & Hc & _). by exists c, y.
  - rewrite print_obj in *. cbn [length] in Hl. rewrite length_app in Hl. cbn [length] in Hl. rewrite Forall_forall in Hw.
    destruct (join_longer print_member l) as [H1 H2]; [done|].
    cbn [app value]. cbn [Z.eqb Pos.eqb]. rewrite <-app_assoc. cbn [app].
    rewrite items_none_join; [done| | |lia|done|done].
    + intros m k Hin Hk. destruct (Hw m Hin) as [Hm1 Hm2]. apply member_print; [done|]. apply IH; [done|done|].
      assert (length (print (snd m)) < length (print_member m))%nat; [|specialize (H2 m Hin); lia].
      unfold print_member. cbn [length]. rewrite length_app. cbn [length]. lia.
    + intros m Hin. by exists 34, (jesc (fst m) ++ 34 :: 58 :: print (snd m)).
Qed.

Lemma read_print v : wf v -> read (print v) = Some v.
Proof.
  intros Hv. unfold read. pose proof (value_print (S (length (print v))) v [] Hv I ltac:(lia)) as H.
  rewrite app_nil_r in H. by rewrite H.
Qed.

(** ** Numbers are JSON numbers *)

Lemma digits_lead f n : 0 < n < 10 ^ Z.of_nat f ->
  exists c r, Http.digits f n = c :: r /\ c <> 48 /\ is_digit c = true /\ forallb is_digit r = true.
Proof.
  revert n. induction f as [|f IH]; intros n Hn; [cbn in Hn; lia|]. cbn [Http.digits].
  pose proof (Z.mod_pos_bound n 10 ltac:(lia)) as Hm.
  assert (is_digit (48 + n mod 10) = true) as Hd by (unfold is_digit; lia).
  destruct (Z.ltb_spec n 10) as [H|H].
  - exists (48 + n mod 10), []. rewrite (Z.mod_small n 10) in * by lia. split; [done|]. split; [lia|done].
  - destruct (IH (n / 10)) as (c & r & -> & H1 & H2 & H3).
    { split; [apply Z.div_str_pos; lia|]. apply Z.div_lt_upper_bound; [lia|].
      rewrite Nat2Z.inj_succ, Z.pow_succ_r in Hn by lia. lia. }
    exists c, (r ++ [48 + n mod 10]). split; [done|]. split; [done|]. split; [done|].
    rewrite forallb_app, H3. cbn [forallb]. by rewrite Hd.
Qed.

Lemma digits_ok_app v w : forallb is_digit v = true -> fraction_ok w = true -> digits_ok (v ++ w) = true.
Proof.
  intros Hv Hw. induction v as [|c v IH].
  - destruct w as [|c w]; [done|]. cbn [app digits_ok]. cbn [fraction_ok] in Hw.
    pose proof Hw as [[->%Z.eqb_eq _]%andb_true_iff _]%andb_true_iff. exact Hw.
  - cbn in Hv. apply andb_true_iff in Hv as [H1 H2]. cbn [app digits_ok]. rewrite H1. by apply IH.
Qed.

Lemma unsigned_digits f n w : 0 <= n < 10 ^ Z.of_nat f -> (0 < f)%nat -> fraction_ok w = true ->
  unsigned_ok (Http.digits f n ++ w) = true.
Proof.
  intros Hn Hf Hw. destruct (Z.eq_dec n 0) as [->|Hz].
  - destruct f as [|f]; [lia|]. exact Hw.
  - destruct (digits_lead f n) as (c & r & -> & H1 & H2 & H3); [lia|]. cbn [app unsigned_ok].
    rewrite (proj2 (Z.eqb_neq c 48)) by done. rewrite H2. by apply digits_ok_app.
Qed.

Lemma unsigned_number v : unsigned_ok v = true -> number_ok v = true.
Proof.
  intros H. destruct (unsigned_chars v H) as [_ (c & y & -> & Hd)]. cbn [number_ok].
  rewrite (proj2 (Z.eqb_neq c 45)); [done|]. unfold is_digit in Hd. lia.
Qed.

Lemma udec_unsigned n : 0 <= n < 10 ^ 20 -> unsigned_ok (udec n) = true.
Proof. intros Hn. rewrite <-(app_nil_r (udec n)). by apply (unsigned_digits 20); [..|lia|]. Qed.
Lemma udec_number n : is_u64 n -> number_ok (udec n) = true.
Proof. unfold is_u64. intros Hn. apply unsigned_number, udec_unsigned. lia. Qed.
Lemma dec_number n : - 2 ^ 63 <= n < 2 ^ 63 -> number_ok (dec n) = true.
Proof.
  intros Hn. unfold dec. destruct (Z.ltb_spec n 0); [|apply unsigned_number, udec_unsigned; lia].
  cbn [number_ok Z.eqb Pos.eqb]. apply udec_unsigned. lia.
Qed.

Lemma nearest_nonneg n d : 0 <= n -> 0 <= d -> 0 <= nearest n d.
Proof.
  intros Hn Hd. unfold nearest. assert (0 <= n / d).
  { destruct (Z.eq_dec d 0) as [->|]; [by rewrite Zdiv_0_r|apply Z.div_pos; lia]. }
  repeat case_match; lia.
Qed.
Lemma round_nonneg n d : 0 <= n -> 0 <= d -> 0 <= mant (round n d).
Proof.
  intros Hn Hd. unfold round. case_match; [done|]. cbn [mant].
  pose proof (Z.pow_nonneg 2). apply nearest_nonneg; apply Z.mul_nonneg_nonneg; auto with lia.
Qed.
Lemma div_nonneg x y : 0 <= mant x -> 0 <= mant y -> 0 <= mant (div x y).
Proof.
  intros Hx Hy. unfold div, num_den. pose proof (Z.pow_nonneg 2) as Hp. apply round_nonneg; repeat apply Z.mul_nonneg_nonneg; auto with lia.
Qed.
Lemma fixed_digits_ok k n : forallb is_digit (fixed_digits k n) = true.
Proof.
  revert n. induction k as [|k IH]; intros n; [done|]. cbn [fixed_digits]. rewrite forallb_app, IH. cbn.
  pose proof (Z.mod_pos_bound n 10 ltac:(lia)). unfold is_digit. lia.
Qed.
Lemma fixed_number k x : 0 <= mant x -> number_ok (fixed k x) = true.
Proof.
  intros Hx. unfold fixed, num_den. pose proof (Z.pow_nonneg 2) as Hp. pose proof (Z.pow_pos_nonneg 10 (Z.of_nat k)) as Ht.
  set (n := nearest _ _). assert (0 <= n) as Hn.
  { apply nearest_nonneg; repeat apply Z.mul_nonneg_nonneg; auto with lia. }
  assert (0 <= n / 10 ^ Z.of_nat k) as Hi by (apply Z.div_pos; lia). set (i := n / _) in *. clearbody i.
  apply unsigned_number, unsigned_digits; [|lia|].
  - split; [done|]. rewrite Nat2Z.inj_succ, Z2Nat.id by apply Z.log2_nonneg.
    apply Z.lt_le_trans with (2 ^ Z.succ (Z.log2 i)).
    + destruct (Z.eq_dec i 0) as [->|]; [done|apply Z.log2_spec; lia].
    + apply Z.pow_le_mono_l. pose proof (Z.log2_nonneg i). lia.
  - destruct k as [|k]; [done|]. cbn [fraction_ok]. rewrite fixed_digits_ok, andb_true_r. cbn [Z.eqb Pos.eqb andb].
    rewrite bool_decide_eq_false_2; [done|]. cbn [fixed_digits]. intros H. by apply app_eq_nil in H as [_ ?].
Qed.

(** ** Joining rows *)

Lemma join_cons x l : join (x :: l) = x ++ concat (map (cons 44) l).
Proof.
  revert x. induction l as [|y l IH]; intros x; [cbn; by rewrite app_nil_r|].
  change (join (x :: y :: l)) with (x ++ 44 :: join (y :: l)). by rewrite IH.
Qed.

Lemma comma_each_join x l : comma_each (x :: l) = join (x :: l) ++ [44].
Proof.
  revert x. induction l as [|y l IH]; intros x; [unfold comma_each; cbn; by rewrite app_nil_r|].
  change (comma_each (x :: y :: l)) with ((x ++ [44]) ++ comma_each (y :: l)). rewrite IH.
  change (join (x :: y :: l)) with (x ++ 44 :: join (y :: l)). by rewrite <-!app_assoc.
Qed.

Lemma pop_comma_each pre l : last pre <> Some 44 -> pop_comma (pre ++ comma_each l) = pre ++ join l.
Proof.
  intros Hp. unfold pop_comma. destruct l as [|x l].
  - cbn [comma_each map concat join]. rewrite !app_nil_r. by rewrite bool_decide_eq_false_2.
  - rewrite comma_each_join, app_assoc, last_snoc, removelast_last. by rewrite bool_decide_eq_true_2.
Qed.
Lemma pop_long_each c l : Forall (fun x => x <> []) l -> pop_long ([c] ++ comma_each l) = c :: join l.
Proof.
  intros Hl. unfold pop_long. destruct Hl as [|x l Hx Hl]; [done|]. rewrite comma_each_join, app_assoc.
  rewrite removelast_last. case_match eqn:E; [done|]. apply Nat.ltb_ge in E. rewrite !length_app in E. cbn in E. lia.
Qed.

Lemma snprintf_fits size s : (length s < size)%nat -> snprintf size s = s.
Proof. intros H. apply take_ge. lia. Qed.

Lemma udec_len n : is_u64 n -> (length (udec n) <= 20)%nat.
Proof. unfold is_u64. intros Hn. apply Http.digits_len; lia. Qed.
Lemma dec_len n : - 2 ^ 63 <= n < 2 ^ 63 -> (length (dec n) <= 20)%nat.
Proof.
  intros Hn. unfold dec. destruct (Z.ltb_spec n 0); [|apply udec_len; unfold is_u64; lia].
  assert (length (udec (- n)) <= 19)%nat; [|cbn [length]; lia]. apply Http.digits_len; [lia|]. lia.
Qed.
Lemma state_name_len s : (length (conn_state_name s) <= 14)%nat.
Proof. unfold conn_state_name. repeat case_match; cbn; lia. Qed.
Lemma bool_text_len b : (length (bool_text b) <= 5)%nat.
Proof. destruct b; cbn; lia. Qed.

Lemma str_len s : length (Http.str s) = String.length s.
Proof. unfold Http.str. rewrite length_map. induction s; cbn; [done|by f_equal]. Qed.
Lemma lit_len s : length (lit s) = String.length s.
Proof. unfold lit. by rewrite length_map, str_len. Qed.

(** ** The values of the pages *)

Definition stats_value (s : ShardSnap) : json :=
  JObj ([(Http.str "name", JStr (s_name s)); (Http.str "ok", JBool (s_ok s))]
        ++ map (fun f => (Http.str (fst f), JNum (snd f))) (stats_fields (s_stats s))).
Definition stats_page_value (timed_out : bool) (snaps : list ShardSnap) : json :=
  JObj [(Http.str "timeout", JBool timed_out); (Http.str "shards", JArr (map stats_value snaps))].

Definition conn_value (ci : ConnInfo) : json :=
  JObj [(Http.str "id", JNum (udec (ci_id ci))); (Http.str "gen", JNum (udec (ci_gen ci)));
        (Http.str "role", JStr (ci_role ci)); (Http.str "source", JStr (ci_name ci)); (Http.str "peer", JStr (ci_peer ci));
        (Http.str "state", JStr (conn_state_name (ci_state ci))); (Http.str "queued_bytes", JNum (udec (ci_queued ci)));
        (Http.str "open_ns", JNum (udec (ci_open_ns ci)))].
Definition conns_page_value (snaps : list ShardSnap) : json :=
  JArr (map (fun s => JArr (map conn_value (s_conns s))) snaps).

Definition placement_value (si : Runtime.ShardInfo * Z) : json :=
  let '(i, node) := si in
  JObj [(Http.str "name", JStr (Runtime.i_name i)); (Http.str "requested_core", JNum (dec (Runtime.i_requested i)));
        (Http.str "bound_core", JNum (dec (Runtime.i_bound i))); (Http.str "numa_node", JNum (dec node));
        (Http.str "running", JBool (Runtime.i_running i)); (Http.str "failed", JBool (Runtime.i_failed i))].

Definition config_value (s : ShardSnap) : json :=
  JObj ([(Http.str "name", JStr (s_name s)); (Http.str "ok", JBool (s_ok s))]
        ++ if s_ok s then [(Http.str "config", JStr (s_cfg s))] else []).

(** The machine types of the rows, and texts without control characters. *)
Definition counters (s : Stats) : list Z :=
  [iterations s; idle_iterations s; spins s; blocks s; wakeups s; accepts s; conns_opened s; conns_closed s; bytes_in s;
   bytes_out s; msgs_in s; msgs_out s; frame_errors s; write_hwm_hits s; write_drops s; mailbox_pushes s; mailbox_pops s;
   mailbox_full s; timers_armed s; timers_fired s; timers_cancelled s; timer_coalesced s; groups_cancelled s;
   deadline_expired_before_start s; deadline_expired_in_flight s; callback_errors s; internal_errors s; coro_spawned s;
   coro_completed s; coro_heap_frames s].
Definition conn_ok (ci : ConnInfo) : Prop :=
  is_u32 (ci_id ci) /\ is_u32 (ci_gen ci) /\ is_u64 (ci_queued ci) /\ is_u64 (ci_open_ns ci) /\
  clean (ci_role ci) /\ clean (ci_name ci) /\ clean (ci_peer ci).
Definition is_int (n : Z) : Prop := - 2 ^ 31 <= n < 2 ^ 31.
Definition info_ok (si : Runtime.ShardInfo * Z) : Prop :=
  clean (Runtime.i_name (fst si)) /\ is_int (Runtime.i_requested (fst si)) /\ is_int (Runtime.i_bound (fst si)) /\ is_int (snd si).
Record snap_ok (s : ShardSnap) : Prop := {
  so_name : clean (s_name s);
  so_cfg : clean (s_cfg s);
  so_stats : Forall is_u64 (counters (s_stats s));
  so_conns : Forall conn_ok (s_conns s) }.

Lemma clean_str s : forallb (fun c => 32 <=? c) (Http.str s) = true -> clean (Http.str s).
Proof.
  intros H. apply Forall_forall. intros c Hc. rewrite forallb_forall in H. right. apply Z.leb_le, H. by apply list_elem_of_In.
Qed.

Ltac keys := first [apply clean_str; reflexivity | assumption].

Lemma idle_ratio_nonneg s : is_u64 (iterations s) -> is_u64 (idle_iterations s) -> 0 <= mant (idle_ratio s).
Proof.
  intros H1 H2. unfold idle_ratio. case_match; [done|]. apply div_nonneg; apply round_nonneg; unfold is_u64 in *; lia.
Qed.

Lemma stats_value_wf s : snap_ok s -> wf (stats_value s).
Proof.
  intros [Hn _ Hs _]. constructor. constructor; [split; [keys|by constructor]|]. constructor; [split; [keys|constructor]|].
  assert (number_ok (fixed 4 (idle_ratio (s_stats s))) = true) as Hi.
  { apply fixed_number, idle_ratio_nonneg; [apply (proj1 (Forall_forall _ _) Hs); cbn; set_solver|].
    apply (proj1 (Forall_forall _ _) Hs); cbn; set_solver. }
  unfold counters in Hs. rewrite !Forall_cons in Hs. destruct_and!. unfold stats_fields. cbn [map fst snd].
  assert (is_u64 (conns_opened (s_stats s) ⊟ conns_closed (s_stats s))) by apply u64_range.
  repeat (apply Forall_cons; split; [split; [apply clean_str; reflexivity|constructor; first [exact Hi|by apply udec_number]]|]).
  constructor.
Qed.

Lemma conn_value_wf ci : conn_ok ci -> wf (conn_value ci).
Proof.
  intros (H1 & H2 & H3 & H4 & H5 & H6 & H7).
  assert (is_u64 (ci_id ci) /\ is_u64 (ci_gen ci)) as [? ?] by (unfold is_u32, is_u64 in *; lia). constructor.
  assert (clean (conn_state_name (ci_state ci))) by (unfold conn_state_name; repeat case_match; by apply clean_str).
  repeat (apply Forall_cons; split; [split; [keys|constructor; first [by apply udec_number|assumption]]|]). constructor.
Qed.

Lemma placement_value_wf si : info_ok si -> wf (placement_value si).
Proof.
  destruct si as [i node]. intros (H1 & H2 & H3 & H4). unfold is_int in *. cbn [fst snd] in *. constructor.
  repeat (apply Forall_cons; split; [split; [keys|constructor; first [apply dec_number; lia|assumption]]|]). constructor.
Qed.

Lemma config_value_wf s : snap_ok s -> wf (config_value s).
Proof.
  intros [H1 H2 _ _]. unfold config_value. constructor. constructor; [split; [keys|by constructor]|].
  constructor; [split; [keys|constructor]|]. destruct (s_ok s); constructor; [split; [keys|by constructor]|constructor].
Qed.

(** ** The pages print their values *)

(** A literal that needs no escape. *)
Lemma jesc_plain s : forallb (fun c => negb ((c =? 34) || (c =? 92) || (c =? 10))) s = true -> jesc s = s.
Proof.
  induction s as [|c s IH]; [done|]. cbn [forallb]. intros [H1 H2]%andb_true_iff. change (jesc (c :: s)) with (esc c ++ jesc s).
  rewrite (IH H2). unfold esc. apply negb_true_iff in H1. rewrite H1. apply orb_false_iff in H1 as [_ ->]. done.
Qed.
Lemma jesc_str s : forallb (fun c => negb ((c =? 34) || (c =? 92) || (c =? 10))) (Http.str s) = true -> jesc (Http.str s) = Http.str s.
Proof. apply jesc_plain. Qed.

(** Flattens the printed members of an object whose keys are literals. *)
Ltac flatten := rewrite ?jesc_str by reflexivity; repeat (rewrite <-?app_assoc; cbn [app]).

Lemma conn_row_print ci : conn_ok ci -> conn_row ci = print (conn_value ci) ++ [44].
Proof.
  intros (H1 & H2 & H3 & H4 & _).
  assert (is_u64 (ci_id ci) /\ is_u64 (ci_gen ci)) as [Hi Hg] by (unfold is_u32, is_u64 in *; lia).
  pose proof (udec_len _ Hi). pose proof (udec_len _ Hg). pose proof (udec_len _ H3). pose proof (udec_len _ H4).
  pose proof (state_name_len (ci_state ci)). unfold conn_row.
  rewrite !snprintf_fits by (rewrite !length_app, !lit_len, ?str_len; cbn [String.length]; lia).
  unfold conn_value. cbn [print map join].
  rewrite (jesc_plain (conn_state_name _)) by (unfold conn_state_name; repeat case_match; reflexivity). flatten. reflexivity.
Qed.

Lemma placement_row_print si : info_ok si -> placement_row si = print (placement_value si) ++ [44].
Proof.
  destruct si as [i node]. intros (_ & H2 & H3 & H4). unfold is_int in *. cbn [fst snd] in *.
  pose proof (dec_len (Runtime.i_requested i)). pose proof (dec_len (Runtime.i_bound i)). pose proof (dec_len node).
  pose proof (bool_text_len (Runtime.i_running i)). pose proof (bool_text_len (Runtime.i_failed i)). unfold placement_row.
  rewrite snprintf_fits by (rewrite !length_app, !lit_len, ?str_len; cbn [String.length]; lia).
  unfold placement_value. cbn [print map join]. flatten. reflexivity.
Qed.

Lemma config_row_print s : config_row s = print (config_value s) ++ [44].
Proof. unfold config_row, config_value. destruct (s_ok s); cbn [print app map join]; flatten; reflexivity. Qed.

Lemma stats_members s l :
  Forall (fun f : string * list Z => jesc (Http.str (fst f)) = Http.str (fst f)) l ->
  print (JObj ([(Http.str "name", JStr (s_name s)); (Http.str "ok", JBool (s_ok s))] ++ map (fun f => (Http.str (fst f), JNum (snd f))) l))
  = lit "{'name':'" ++ jesc (s_name s) ++ lit "','ok':" ++ bool_text (s_ok s) ++ concat (map field_text l) ++ Http.str "}".
Proof.
  intros Hl. rewrite print_obj. cbn [app map]. rewrite join_cons. cbn [map concat].
  assert (concat (map (cons 44) (map print_member (map (fun f => (Http.str (fst f), JNum (snd f))) l))) = concat (map field_text l)) as ->.
  { induction Hl as [|f l Hf Hl IH]; [done|]. cbn [map concat]. rewrite IH. unfold print_member, field_text. cbn [fst snd print].
    rewrite Hf. flatten. reflexivity. }
  unfold print_member. cbn [fst snd print]. flatten. reflexivity.
Qed.

Lemma stats_json_print s : (length (stats_text s) < 1024)%nat -> stats_json s = print (stats_value s).
Proof.
  intros Hl. unfold stats_json. rewrite snprintf_fits by done. unfold stats_value. rewrite stats_members; [done|].
  unfold stats_fields. repeat (apply Forall_cons; split; [reflexivity|]). constructor.
Qed.

Lemma comma_rows {A} (row : A -> list Z) (val : A -> json) l :
  Forall (fun x => row x = print (val x) ++ [44]) l -> concat (map row l) = comma_each (map print (map val l)).
Proof. induction 1 as [|x l Hx Hl IH]; [done|]. unfold comma_each in *. cbn [map concat]. by rewrite Hx, IH. Qed.

Lemma print_nonempty l : Forall wf l -> Forall (fun x => x <> []) (map print l).
Proof. induction 1 as [|v l Hv Hl IH]; constructor; [|done]. by destruct (print_head v Hv) as (c & r & -> & _). Qed.

Lemma stats_page_print b snaps :
  Forall (fun s => (length (stats_text s) < 1024)%nat) snaps -> stats_page b snaps = print (stats_page_value b snaps).
Proof.
  intros Hs. unfold stats_page. assert (map stats_json snaps = map print (map stats_value snaps)) as ->.
  { induction Hs as [|s l H1 H2 IH]; [done|]. cbn [map]. by rewrite IH, stats_json_print. }
  rewrite !app_assoc, pop_comma_each; [|by destruct b]. unfold stats_page_value. cbn [print map join]. flatten. by destruct b.
Qed.

Lemma conns_json_print s : Forall conn_ok (s_conns s) -> conns_json s = print (JArr (map conn_value (s_conns s))).
Proof.
  intros Hs. unfold conns_json. rewrite (comma_rows _ conn_value) by (eapply Forall_impl; [exact Hs|exact conn_row_print]).
  pose proof (pop_comma_each [] (map print (map conn_value (s_conns s)))) as H. cbn [app] in H. by rewrite H.
Qed.

Lemma conns_value_wf snaps : Forall snap_ok snaps -> Forall wf (map (fun s => JArr (map conn_value (s_conns s))) snaps).
Proof.
  intros Hs. apply Forall_map. eapply Forall_impl; [exact Hs|]. intros s [_ _ _ H]. constructor. apply Forall_map.
  eapply Forall_impl; [exact H|exact conn_value_wf].
Qed.

Lemma conns_page_print snaps : Forall snap_ok snaps -> conns_page snaps = print (conns_page_value snaps).
Proof.
  intros Hs. unfold conns_page. assert (map conns_json snaps = map print (map (fun s => JArr (map conn_value (s_conns s))) snaps)) as ->.
  { induction Hs as [|s l [_ _ _ H1] H2 IH]; [done|]. cbn [map]. by rewrite IH, conns_json_print. }
  by rewrite pop_long_each by by apply print_nonempty, conns_value_wf.
Qed.

Lemma placement_page_print infos :
  Forall info_ok infos -> placement_page infos = print (JArr (map placement_value infos)).
Proof.
  intros Hs. unfold placement_page. rewrite (comma_rows _ placement_value) by (eapply Forall_impl; [exact Hs|exact placement_row_print]).
  rewrite pop_long_each; [done|]. apply print_nonempty, Forall_map. eapply Forall_impl; [exact Hs|exact placement_value_wf].
Qed.

Lemma config_page_print snaps : config_page snaps = print (JArr (map config_value snaps)).
Proof.
  unfold config_page. rewrite (comma_rows _ config_value) by (apply Forall_true; exact config_row_print). by rewrite pop_comma_each.
Qed.

(** C19: the JSON pages of the admin endpoint are JSON texts that say what they should.  For shard names, connection
    labels and peers without control characters other than the line feed, whatever other characters they
    contain (quotes and backslashes too), reading [/conns], [/placement] and [/config] gives one row for each
    connection, shard and configuration, with the fields in order and their texts and numbers; and so does
    [/stats], as long as the counters of each shard fit its buffer of 1024 bytes. *)
Theorem pages_are_json timed_out snaps infos :
  Forall snap_ok snaps -> Forall info_ok infos ->
  read (conns_page snaps) = Some (conns_page_value snaps) /\
  read (config_page snaps) = Some (JArr (map config_value snaps)) /\
  read (placement_page infos) = Some (JArr (map placement_value infos)) /\
  (Forall (fun s => (length (stats_text s) < 1024)%nat) snaps ->
   read (stats_page timed_out snaps) = Some (stats_page_value timed_out snaps)).
Proof.
  intros Hs Hi. rewrite (conns_page_print _ Hs), config_page_print, (placement_page_print _ Hi).
  split; [|split; [|split]].
  - apply read_print. constructor. by apply conns_value_wf.
  - apply read_print. constructor. apply Forall_map. eapply Forall_impl; [exact Hs|exact config_value_wf].
  - apply read_print. constructor. apply Forall_map. eapply Forall_impl; [exact Hi|exact placement_value_wf].
  - intros Hl. rewrite (stats_page_print _ _ Hl). apply read_print. constructor.
    constructor; [split; [keys|constructor]|]. constructor; [split; [keys|]|constructor]. constructor. apply Forall_map.
    eapply Forall_impl; [exact Hs|exact stats_value_wf].
Qed.

(** Thirty counters of twenty digits do not fit: the page is cut and is no JSON text. *)
Lemma stats_page_cut :
  let s := mkSnap [] (mkStats u64_max u64_max u64_max u64_max u64_max u64_max u64_max 0 u64_max u64_max u64_max u64_max u64_max u64_max
             u64_max u64_max u64_max u64_max u64_max u64_max u64_max u64_max u64_max u64_max u64_max u64_max u64_max u64_max u64_max
             u64_max) latency0 [] [] [] true in
  Forall is_u64 (counters (s_stats s)) /\ read (stats_page false [s]) = None.
Proof. split; [|vm_compute; reflexivity]. unfold is_u64, u64_max. repeat (apply Forall_cons; split; [cbn; lia|]). constructor. Qed.

(** A tab in a name is not escaped. *)
Lemma tab_is_not_escaped : read (config_page [mkSnap [97; 9; 98] stats0 latency0 [] [] [] true]) = None.
Proof. vm_compute. reflexivity. Qed.

(** ** Histogram series *)

Lemma bucket_log2 v : 0 <= v -> Hist.bucket v = Z.to_nat (Z.log2 v).
Proof. intros Hv. unfold Hist.bucket. rewrite Z.log2_lor by lia. change (Z.log2 1) with 0. pose proof (Z.log2_nonneg v). f_equal. lia. Qed.

Lemma below_pow b v : 0 <= v -> Hist.below (S b) v = (v <? 2 ^ Z.of_nat (S b)).
Proof.
  intros Hv. unfold Hist.below. rewrite (bucket_log2 v Hv). pose proof (Z.log2_nonneg v) as Hn.
  destruct (Z.eq_dec v 0) as [->|Hz].
  - change (Z.log2 0) with 0. symmetry. apply Z.ltb_lt. apply Z.pow_pos_nonneg; lia.
  - pose proof (Z.log2_lt_pow2 v (Z.of_nat (S b)) ltac:(lia)) as Hi.
    destruct (Z.ltb_spec v (2 ^ Z.of_nat (S b))) as [H|H]; [apply Nat.ltb_lt; apply Hi in H; lia|].
    apply Nat.ltb_ge. assert (~ Z.log2 v < Z.of_nat (S b)) by (rewrite <-Hi; lia). lia.
Qed.

Lemma count_below b l : Hist.values_ok l -> count_if (Hist.below (S b)) l = count_if (fun v => v <? 2 ^ Z.of_nat (S b)) l.
Proof.
  induction 1 as [|v l Hv Hl IH]; [done|]. cbn [count_if]. rewrite IH. by rewrite below_pow by lia.
Qed.

Lemma bucket_rows_spec l n : zlen l < 2 ^ 64 -> forall b le cum,
  (le, cum) ∈ bucket_rows b (Z.of_nat (count_if (Hist.below b) l)) ((fun b => u64 (Z.of_nat (count_if (Hist.in_bucket b) l))) <$> seq b n)
  <-> exists c, (b <= c < b + n)%nat /\ count_if (Hist.in_bucket c) l <> 0%nat /\
        le = u64 (2 ^ Z.of_nat (S c)) /\ cum = Z.of_nat (count_if (Hist.below (S c)) l).
Proof.
  intros Hl. induction n as [|n IH]; intros b le cum.
  - cbn. split; [intros H; by inversion H|intros (c & Hc & _); lia].
  - cbn [seq fmap list_fmap bucket_rows]. pose proof (count_if_length (Hist.in_bucket b) l) as H1.
    pose proof (count_if_length (Hist.below (S b)) l) as H2. pose proof (Hist.below_S b l) as H3. unfold zlen in Hl.
    rewrite (u64_small (Z.of_nat (count_if (Hist.in_bucket b) l))) by lia. rewrite (u64_small (_ + _)) by lia.
    rewrite <-Nat2Z.inj_add, <-H3. rewrite elem_of_app, IH.
    assert (Z.shiftl 2 (Z.of_nat b) = 2 ^ Z.of_nat (S b)) as ->.
    { rewrite Z.shiftl_mul_pow2, Nat2Z.inj_succ, Z.pow_succ_r by lia. lia. }
    destruct (Z.eqb_spec (Z.of_nat (count_if (Hist.in_bucket b) l)) 0) as [Hz|Hz].
    + split; [intros [H|(c & Hc & H)]; [by inversion H|]; exists c; split; [lia|done]|].
      intros (c & Hc & Hn & H). right. exists c. split; [|done]. destruct (Nat.eq_dec c b) as [->|]; lia.
    + rewrite list_elem_of_singleton. split.
      * intros [[= -> ->]|(c & Hc & H)]; [exists b; split; [lia|]; split; [lia|done]|exists c; split; [lia|done]].
      * intros (c & Hc & Hn & -> & ->). destruct (Nat.eq_dec c b) as [->|]; [by left|]. right. exists c. split; [lia|done].
Qed.

Lemma histo_rows_spec l le cum : Hist.values_ok l -> zlen l < 2 ^ 64 ->
  (le, cum) ∈ histo_rows (Hist.record_all l) <->
  exists c, (c < 64)%nat /\ count_if (Hist.in_bucket c) l <> 0%nat /\
    le = u64 (2 ^ Z.of_nat (S c)) /\ cum = Z.of_nat (count_if (fun v => v <? 2 ^ Z.of_nat (S c)) l).
Proof.
  intros Hv Hl. unfold histo_rows. rewrite (Hist.record_all_summary l Hv). cbn [Hist.buckets_ Hist.summary].
  pose proof (bucket_rows_spec l Hist.nbuckets Hl 0 le cum) as H.
  assert (count_if (Hist.below 0) l = 0%nat) as H0 by (clear; induction l; cbn; lia). rewrite H0 in H. change (Z.of_nat 0) with 0 in H.
  rewrite H. split; intros (c & Hc & Hn & -> & ->); exists c; (split; [unfold Hist.nbuckets in *; lia|]); rewrite count_below by done; done.
Qed.

Lemma count_if_pos (P : Z -> bool) l v : v ∈ l -> P v = true -> count_if P l <> 0%nat.
Proof. induction 1 as [v l|v w l Hv IH]; intros HP; cbn [count_if]; [rewrite HP; lia|]. specialize (IH HP). lia. Qed.

(** a histogram's series on [/metrics] is cumulative: each line counts exactly the recorded values below its bound,
    and every value below [2 ^ 63] is counted first by a line whose bound is at most twice the value (zero counting as
    one), so the buckets tell every value up to a factor of two; the count printed for [+Inf] is the number of
    values.  The bound of the last bucket wraps to zero: values of [2 ^ 63] and more give a line that claims all
    values are at most zero. *)
Theorem histogram_series_cumulative l :
  Hist.values_ok l -> zlen l < 2 ^ 64 ->
  (forall le cum, (le, cum) ∈ histo_rows (Hist.record_all l) -> le <> 0 -> cum = Z.of_nat (count_if (fun v => v <? le) l)) /\
  (forall v, v ∈ l -> v < 2 ^ 63 -> exists le cum, (le, cum) ∈ histo_rows (Hist.record_all l) /\ v < le <= 2 * Z.max 1 v) /\
  (forall v, v ∈ l -> 2 ^ 63 <= v -> (0, zlen l) ∈ histo_rows (Hist.record_all l)) /\
  Hist.count_ (Hist.record_all l) = zlen l.
Proof.
  intros Hv Hl. split; [|split; [|split]].
  - intros le cum H Hle. apply histo_rows_spec in H as (c & Hc & _ & -> & ->); [|done|done].
    rewrite u64_small; [done|]. split; [apply Z.pow_nonneg; lia|]. apply Z.pow_lt_mono_r; [lia|lia|].
    destruct (Nat.eq_dec c 63) as [->|]; [|lia]. by cbn in Hle.
  - intros v Hin Hb. assert (0 <= v < 2 ^ 64) as Hr by exact (proj1 (Forall_forall _ _) Hv v Hin).
    assert (Z.log2 v < 63) as Hg by (destruct (Z.eq_dec v 0) as [->|]; [done|apply Z.log2_lt_pow2; lia]).
    pose proof (Z.log2_nonneg v) as Hp. set (c := Z.to_nat (Z.log2 v)).
    assert (u64 (2 ^ Z.of_nat (S c)) = 2 ^ Z.succ (Z.log2 v)) as He.
    { replace (Z.of_nat (S c)) with (Z.succ (Z.log2 v)) by lia. apply u64_small. split; [apply Z.pow_nonneg; lia|].
      apply Z.pow_lt_mono_r; lia. }
    exists (2 ^ Z.succ (Z.log2 v)), (Z.of_nat (count_if (fun v => v <? 2 ^ Z.of_nat (S c)) l)). split.
    + apply histo_rows_spec; [done|done|]. exists c. split; [lia|]. split; [|by rewrite He].
      apply (count_if_pos _ l v Hin). unfold Hist.in_bucket. rewrite bucket_log2 by lia. by rewrite bool_decide_eq_true_2.
    + destruct (Z.eq_dec v 0) as [->|Hz]; [done|]. pose proof (Z.log2_spec v ltac:(lia)). rewrite Z.pow_succ_r in * by lia. lia.
  - intros v Hin Hb. assert (0 <= v < 2 ^ 64) as Hr by exact (proj1 (Forall_forall _ _) Hv v Hin). apply histo_rows_spec; [done|done|]. exists 63%nat.
    split; [lia|]. split.
    + apply (count_if_pos _ l v Hin). unfold Hist.in_bucket. rewrite bucket_log2 by lia. apply bool_decide_eq_true_2.
      rewrite (Z.log2_unique v 63); [done|lia|lia].
    + split; [done|]. unfold zlen. f_equal. symmetry. apply count_if_all. intros i x Hx. apply Z.ltb_lt.
      apply list_elem_of_lookup_2 in Hx. assert (0 <= x < 2 ^ 64) by exact (proj1 (Forall_forall _ _) Hv x Hx). cbn. lia.
  - rewrite (Hist.record_all_summary l Hv). cbn [Hist.count_ Hist.summary]. apply u64_small. pose proof (zlen_nonneg l). lia.
Qed.

(** ** Queries *)

Fixpoint render_query (kvs : list (list Z * list Z)) : list Z :=
  match kvs with
  | [] => []
  | [(k, v)] => k ++ 61 :: v
  | (k, v) :: kvs => (k ++ 61 :: v) ++ 38 :: render_query kvs
  end.
Definition param_ok (kv : list Z * list Z) : Prop :=
  Forall (fun c => c <> 61 /\ c <> 38) (fst kv) /\ Forall (fun c => c <> 38) (snd kv).
Fixpoint first_value (kvs : list (list Z * list Z)) (key : list Z) : list Z :=
  match kvs with [] => [] | (k, v) :: kvs => if bool_decide (k = key) then v else first_value kvs key end.

Lemma qget_pair k v key (next : list Z) : param_ok (k, v) ->
  match Http.find 61 (k ++ 61 :: v) with
  | Some eq => if bool_decide (take eq (k ++ 61 :: v) = key) then drop (S eq) (k ++ 61 :: v) else next
  | None => next
  end = if bool_decide (k = key) then v else next.
Proof.
  intros [Hk _]. cbn [fst] in Hk. rewrite Http.find_none by (eapply Forall_impl; [exact Hk|by intros c [? ?]]).
  rewrite take_app_length. replace (S (length k)) with (length (k ++ [61])) by (rewrite length_app; cbn; lia).
  replace (k ++ 61 :: v) with ((k ++ [61]) ++ v) by by rewrite <-app_assoc. by rewrite drop_app_length.
Qed.

Lemma pair_no_amp k v : param_ok (k, v) -> Forall (fun c => c <> 38) (k ++ 61 :: v).
Proof. intros [Hk Hv]. apply Forall_app. split; [eapply Forall_impl; [exact Hk|by intros c [? ?]]|by constructor]. Qed.

Lemma qget_from_render kvs key : forall f, Forall param_ok kvs -> (length (render_query kvs) < f)%nat ->
  qget_from f (render_query kvs) key = first_value kvs key.
Proof.
  induction kvs as [|[k v] kvs IH]; intros f Hp Hf; (destruct f as [|f]; [lia|]); [done|].
  apply Forall_cons in Hp as [Hkv Hp]. cbn [first_value]. destruct kvs as [|p kvs].
  - cbn [render_query qget_from]. rewrite bool_decide_eq_false_2 by (intros H; by apply app_eq_nil in H as [_ ?]).
    rewrite (Http.find_absent 38) by by apply pair_no_amp. apply (qget_pair k v key []). exact Hkv.
  - change (render_query ((k, v) :: p :: kvs)) with ((k ++ 61 :: v) ++ 38 :: render_query (p :: kvs)) in *. cbn [qget_from].
    rewrite bool_decide_eq_false_2 by (intros H; by apply app_eq_nil in H as [_ ?]).
    rewrite (Http.find_none 38) by by apply pair_no_amp. rewrite take_app_length.
    replace (S (length (k ++ 61 :: v))) with (length ((k ++ 61 :: v) ++ [38])) by (rewrite (length_app _ [38]); cbn; lia).
    replace ((k ++ 61 :: v) ++ 38 :: render_query (p :: kvs)) with (((k ++ 61 :: v) ++ [38]) ++ render_query (p :: kvs))
      by by rewrite <-app_assoc.
    rewrite drop_app_length, IH; [by apply qget_pair|done|].
    rewrite (length_app (k ++ 61 :: v)) in Hf. cbn [length] in Hf. lia.
Qed.

(** A parameter of a query is found by its name, the first of several. *)
Lemma qget_render kvs key : Forall param_ok kvs -> qget (render_query kvs) key = first_value kvs key.
Proof. intros Hp. apply qget_from_render; [done|lia]. Qed.

(** ** Flight pages *)

Lemma le_bytes_len n v : length (le_bytes n v) = n.
Proof. revert v. induction n as [|n IH]; intros v; [done|]. cbn. by rewrite IH. Qed.
Lemma of_le_bytes n v : 0 <= v < 256 ^ Z.of_nat n -> of_le (le_bytes n v) = v.
Proof.
  revert v. induction n as [|n IH]; intros v Hv; [cbn in *; lia|]. cbn [le_bytes of_le].
  rewrite Nat2Z.inj_succ, Z.pow_succ_r in Hv by lia. rewrite IH.
  - pose proof (Z.div_mod v 256 ltac:(lia)). lia.
  - split; [apply Z.div_pos; lia|apply Z.div_lt_upper_bound; lia].
Qed.
Lemma record_bytes_len r : length (record_bytes r) = 32%nat.
Proof. unfold record_bytes. by rewrite !length_app, !le_bytes_len. Qed.
Lemma records_len rs : length (concat (map record_bytes rs)) = (32 * length rs)%nat.
Proof. induction rs as [|r rs IH]; [done|]. cbn [map concat length]. rewrite length_app, record_bytes_len, IH. lia. Qed.
Lemma frame_len i s : length (flight_frame i s) = (16 + 32 * length (s_flight s))%nat.
Proof. unfold flight_frame, flight_header. by rewrite !length_app, !le_bytes_len, records_len. Qed.

Definition flight_ok (r : FlightRecord) : Prop :=
  is_u64 (tsc r) /\ 0 <= kind r < 2 ^ 8 /\ is_u32 (handle r) /\ is_u32 (fa r) /\ is_u32 (fb r) /\ is_u64 (trace r).

(** What a decoded record says, and what it should say. *)
Definition content (d : Decoded) : Z * Z * list Z * Z * Z * Z * Z :=
  (shard_ d, tsc_ d, kind_ d, handle_ d, a_ d, b_ d, trace_ d).
Definition tagged (shard : Z) (r : FlightRecord) : Z * Z * list Z * Z * Z * Z * Z :=
  (shard, tsc r, kind_name (kind r), handle r, fa r, fb r, trace r).

Lemma field_at_app pre n v post : 0 <= v < 256 ^ Z.of_nat n -> field_at (length pre) n (pre ++ le_bytes n v ++ post) = v.
Proof.
  intros Hv. unfold field_at. rewrite drop_app_length. rewrite take_app_le by (rewrite le_bytes_len; lia).
  rewrite take_ge by (rewrite le_bytes_len; lia). by apply of_le_bytes.
Qed.
Lemma field_at_skip k pre n v x post :
  length x = k -> 0 <= v < 256 ^ Z.of_nat n -> field_at (length pre + k) n (pre ++ x ++ le_bytes n v ++ post) = v.
Proof. intros <- Hv. rewrite app_assoc, <-length_app. by apply field_at_app. Qed.

Lemma decode_rec_app pre r post shard : flight_ok r ->
  content (decode_rec (pre ++ record_bytes r ++ post) (length pre) shard) = tagged shard r.
Proof.
  intros (H1 & H2 & H3 & H4 & H5 & H6). unfold is_u32, is_u64 in *. unfold content, decode_rec, tagged.
  cbn [shard_ tsc_ kind_ handle_ a_ b_ trace_]. unfold record_bytes. rewrite <-!app_assoc.
  rewrite (field_at_app pre 8 (tsc r)) by (cbn; lia). rewrite (field_at_skip 8 pre 1 (kind r)) by (done || cbn; lia).
  replace (field_at (length pre + 12) 4 _) with (handle r).
  2:{ symmetry. rewrite (app_assoc (le_bytes 8 _)), (app_assoc (_ ++ _) [0; 0; 0]).
      apply (field_at_skip 12 pre 4 (handle r)); [by rewrite !length_app, !le_bytes_len|cbn; lia]. }
  replace (field_at (length pre + 16) 4 _) with (fa r).
  2:{ symmetry. rewrite (app_assoc (le_bytes 8 _)), (app_assoc (_ ++ _) [0; 0; 0]), (app_assoc (_ ++ _) (le_bytes 4 (handle r))).
      apply (field_at_skip 16 pre 4 (fa r)); [by rewrite !length_app, !le_bytes_len|cbn; lia]. }
  replace (field_at (length pre + 20) 4 _) with (fb r).
  2:{ symmetry. rewrite (app_assoc (le_bytes 8 _)), (app_assoc (_ ++ _) [0; 0; 0]), (app_assoc (_ ++ _) (le_bytes 4 (handle r))),
        (app_assoc (_ ++ _) (le_bytes 4 (fa r))).
      apply (field_at_skip 20 pre 4 (fb r)); [by rewrite !length_app, !le_bytes_len|cbn; lia]. }
  replace (field_at (length pre + 24) 8 _) with (trace r); [done|].
  symmetry. rewrite (app_assoc (le_bytes 8 _)), (app_assoc (_ ++ _) [0; 0; 0]), (app_assoc (_ ++ _) (le_bytes 4 (handle r))),
    (app_assoc (_ ++ _) (le_bytes 4 (fa r))), (app_assoc (_ ++ _) (le_bytes 4 (fb r))).
  apply (field_at_skip 24 pre 8 (trace r)); [by rewrite !length_app, !le_bytes_len|cbn; lia].
Qed.

Lemma decode_recs_app rs shard post : forall pre, Forall flight_ok rs ->
  exists l, decode_recs (length rs) (pre ++ concat (map record_bytes rs) ++ post) (length pre) shard
            = (l, (length pre + 32 * length rs)%nat) /\ content <$> l = tagged shard <$> rs.
Proof.
  induction rs as [|r rs IH]; intros pre Hr; [exists []; cbn; split; [f_equal; lia|done]|].
  apply Forall_cons in Hr as [Hr Hrs]. cbn [length map concat decode_recs]. rewrite <-app_assoc.
  destruct (IH (pre ++ record_bytes r) Hrs) as (l & Hl & Hc). rewrite <-app_assoc in Hl.
  rewrite (length_app pre), record_bytes_len in Hl. rewrite Hl.
  rewrite (proj2 (Nat.ltb_ge _ _)) by (rewrite !length_app, record_bytes_len; lia).
  eexists. split; [f_equal; lia|]. cbn [fmap list_fmap] in *. by rewrite decode_rec_app, Hc.
Qed.

Lemma decode_frame_head pre i s post : is_u32 (Z.of_nat i) -> is_u32 (zlen (s_flight s)) ->
  let buf := pre ++ flight_frame i s ++ post in
  take 8 (drop (length pre) buf) = MAGIC /\ field_at (length pre + 8) 4 buf = Z.of_nat i /\
  field_at (length pre + 12) 4 buf = zlen (s_flight s).
Proof.
  unfold is_u32. intros Hi Hn. cbn zeta. unfold flight_frame, flight_header. rewrite !u32_small by lia. rewrite <-!app_assoc.
  split; [by rewrite drop_app_length|]. split; [apply field_at_skip; [done|cbn; lia]|].
  rewrite (app_assoc MAGIC). apply field_at_skip; [by rewrite length_app, le_bytes_len|cbn; lia].
Qed.

Definition snap_flight_ok (s : ShardSnap) : Prop := Forall flight_ok (s_flight s) /\ is_u32 (zlen (s_flight s)).

Lemma decode_frames_app snaps : forall fuel k pre,
  Forall snap_flight_ok snaps -> Z.of_nat (k + length snaps) < 2 ^ 32 -> (length snaps <= fuel)%nat ->
  content <$> decode_frames fuel (pre ++ concat (imap (fun i => flight_frame (k + i)) snaps)) (length pre)
  = concat (imap (fun i s => tagged (Z.of_nat (k + i)) <$> s_flight s) snaps).
Proof.
  induction snaps as [|s snaps IH]; intros fuel k pre Hs Hk Hf.
  - cbn [imap concat]. rewrite app_nil_r. destruct fuel; [done|]. cbn [decode_frames].
    by rewrite (proj2 (Nat.leb_gt _ _)) by lia.
  - destruct fuel as [|fuel]; [cbn in Hf; lia|]. apply Forall_cons in Hs as [[Hr Hn] Hs]. cbn [imap concat length] in *.
    rewrite Nat.add_0_r. set (tl := concat _). cbn [decode_frames].
    destruct (decode_frame_head pre k s tl) as (H1 & H2 & H3); [unfold is_u32; lia|done|].
    rewrite (proj2 (Nat.leb_le _ _)) by (rewrite !length_app, frame_len; lia).
    rewrite bool_decide_eq_true_2 by exact H1. rewrite H2, H3. unfold zlen. rewrite Nat2Z.id.
    assert (exists h, length h = 16%nat /\ flight_frame k s = h ++ concat (map record_bytes (s_flight s))) as (h & Hh & Hfr).
    { exists (flight_header (u32 (Z.of_nat k)) (u32 (zlen (s_flight s)))). split; [|done].
      unfold flight_header. by rewrite !length_app, !le_bytes_len. }
    destruct (decode_recs_app (s_flight s) (Z.of_nat k) tl (pre ++ h) Hr) as (l & Hl & Hc).
    rewrite (length_app pre), Hh, <-app_assoc in Hl. rewrite Hfr, <-(app_assoc h), Hl. rewrite fmap_app, Hc. f_equal.
    specialize (IH fuel (S k) (pre ++ flight_frame k s) Hs ltac:(lia) ltac:(lia)).
    rewrite (length_app pre), frame_len, Hfr, <-!app_assoc in IH.
    replace (length pre + 16 + 32 * length (s_flight s))%nat with (length pre + (16 + 32 * length (s_flight s)))%nat by lia.
    unfold tl. rewrite (imap_ext (fun i => flight_frame (k + S i)) (fun i => flight_frame (S k + i))) by (intros; f_equal; lia).
    rewrite IH. f_equal. apply imap_ext. intros i x _. cbn. by rewrite Nat.add_succ_r.
Qed.

(** The decoder's sort. *)
Definition le_key (x y : Decoded) : Prop := key_le x y = true.

Lemma key_le_trans x y z : key_le x y = true -> key_le y z = true -> key_le x z = true.
Proof. unfold key_le. lia. Qed.
Lemma key_le_total x y : key_le x y = false -> key_le y x = true.
Proof. unfold key_le. lia. Qed.

Lemma insert_rec_perm x l : insert_rec x l ≡ₚ x :: l.
Proof. induction l as [|y l IH]; [done|]. cbn. case_match; [done|]. rewrite IH. apply Permutation_swap. Qed.
Lemma sort_recs_perm l : sort_recs l ≡ₚ l.
Proof. induction l as [|x l IH]; [done|]. change (insert_rec x (sort_recs l) ≡ₚ x :: l). by rewrite insert_rec_perm, IH. Qed.

Lemma insert_rec_sorted x l : StronglySorted le_key l -> StronglySorted le_key (insert_rec x l).
Proof.
  induction 1 as [|y l Hl IH Hy]; cbn; [by repeat constructor|]. destruct (key_le x y) eqn:E.
  - constructor; [by constructor|]. constructor; [done|]. eapply Forall_impl; [exact Hy|]. intros z. by apply key_le_trans.
  - constructor; [done|]. rewrite insert_rec_perm. constructor; [by apply key_le_total|done].
Qed.
Lemma sort_recs_sorted l : StronglySorted le_key (sort_recs l).
Proof. induction l as [|x l IH]; [constructor|]. by apply insert_rec_sorted. Qed.

Lemma insert_rec_first x l : Forall (fun y => key_le x y = true) l -> insert_rec x l = x :: l.
Proof. intros Hl. destruct l as [|y l]; [done|]. apply Forall_cons in Hl as [H _]. cbn. by rewrite H. Qed.
Lemma sort_recs_id l : StronglySorted le_key l -> sort_recs l = l.
Proof. induction 1 as [|x l Hl IH Hx]; [done|]. change (insert_rec x (sort_recs l) = x :: l). rewrite IH. by apply insert_rec_first. Qed.

Lemma insert_rec_filter (i : Z) x l : StronglySorted le_key l ->
  filter (fun d => shard_ d = i) (insert_rec x l)
  = if decide (shard_ x = i) then insert_rec x (filter (fun d => shard_ d = i) l) else filter (fun d => shard_ d = i) l.
Proof.
  induction 1 as [|y l Hl IH Hy]; [cbn [insert_rec]; rewrite filter_cons, filter_nil; by case_decide|].
  cbn [insert_rec]. destruct (key_le x y) eqn:E.
  - rewrite (filter_cons _ x). case_decide; [|done]. rewrite insert_rec_first; [done|].
    apply Forall_forall. intros z [_ Hz]%list_elem_of_filter. apply elem_of_cons in Hz as [->|Hz]; [done|].
    apply (key_le_trans x y z E). exact (proj1 (Forall_forall _ _) Hy z Hz).
  - rewrite !(filter_cons _ y), IH. destruct (decide (shard_ y = i)), (decide (shard_ x = i)); try done. cbn [insert_rec]. by rewrite E.
Qed.
Lemma sort_recs_filter i l : filter (fun d => shard_ d = i) (sort_recs l) = sort_recs (filter (fun d => shard_ d = i) l).
Proof.
  induction l as [|x l IH]; [done|]. cbn [sort_recs foldr]. fold (sort_recs l).
  rewrite insert_rec_filter, IH by apply sort_recs_sorted. rewrite filter_cons. by case_decide.
Qed.

(** Records of one shard, told apart by their tag. *)
Definition shard_of (t : Z * Z * list Z * Z * Z * Z * Z) : Z := let '(sh, _, _, _, _, _, _) := t in sh.

Lemma filter_content i (l : list Decoded) : content <$> filter (fun d => shard_ d = i) l = filter (fun t => shard_of t = i) (content <$> l).
Proof.
  induction l as [|d l IH]; [done|]. cbn [fmap list_fmap]. rewrite !filter_cons.
  change (shard_of (content d)) with (shard_ d). case_decide; cbn [fmap list_fmap]; by rewrite IH.
Qed.

Lemma filter_tagged i j (l : list FlightRecord) :
  filter (fun t => shard_of t = i) (tagged j <$> l) = if decide (j = i) then tagged j <$> l else [].
Proof.
  induction l as [|r l IH]; [by case_decide|]. cbn [fmap list_fmap]. rewrite filter_cons, IH. change (shard_of (tagged j r)) with j.
  by case_decide.
Qed.

Lemma filter_shard i s snaps : forall k, snaps !! i = Some s ->
  filter (fun t => shard_of t = Z.of_nat (k + i)) (concat (imap (fun j s => tagged (Z.of_nat (k + j)) <$> s_flight s) snaps))
  = tagged (Z.of_nat (k + i)) <$> s_flight s.
Proof.
  assert (forall k m snaps, (k < m)%nat ->
    filter (fun t => shard_of t = Z.of_nat k) (concat (imap (fun j s => tagged (Z.of_nat (m + j)) <$> s_flight s) snaps)) = []) as Hgt.
  { clear. intros k m snaps. revert m. induction snaps as [|s snaps IH]; intros m Hm; [done|]. cbn [imap concat].
    rewrite filter_app, filter_tagged. case_decide; [lia|]. cbn [app]. rewrite <-(IH (S m)) by lia. do 2 f_equal. apply imap_ext.
    intros j x _. cbn. by rewrite Nat.add_succ_r. }
  revert i. induction snaps as [|s' snaps IH]; intros i k Hi; [done|]. cbn [imap concat]. rewrite filter_app, filter_tagged, Nat.add_0_r.
  rewrite (imap_ext ((fun j s => tagged (Z.of_nat (k + j)) <$> s_flight s) ∘ S) (fun j s => tagged (Z.of_nat (S k + j)) <$> s_flight s))
    by (intros j x _; cbn; by rewrite Nat.add_succ_r).
  destruct i as [|i].
  - injection Hi as ->. rewrite Nat.add_0_r, Hgt by lia. case_decide; [by rewrite app_nil_r|lia].
  - case_decide; [lia|]. cbn [app]. rewrite Nat.add_succ_r, <-Nat.add_succ_l. by apply IH.
Qed.

(** The order a recorder writes its records in. *)
Definition in_order (a b : FlightRecord) : Prop := tsc a < tsc b \/ (tsc a = tsc b /\ trace a <= trace b).

Lemma content_sorted sh rs : StronglySorted in_order rs -> forall l, content <$> l = tagged sh <$> rs -> StronglySorted le_key l.
Proof.
  assert (forall d e a b, content d = tagged sh a -> content e = tagged sh b -> in_order a b -> key_le d e = true) as Hk.
  { intros d e a b [= H1 H2 _ _ _ _ H3] [= H4 H5 _ _ _ _ H6] Ho. unfold in_order, key_le in *. lia. }
  induction 1 as [|a rs Hrs IH Ha]; intros l Hl.
  - apply fmap_nil_inv in Hl as ->. constructor.
  - destruct l as [|d l]; [done|]. cbn [fmap list_fmap] in Hl.
    assert (content d = tagged sh a) as Hd by congruence. assert (content <$> l = tagged sh <$> rs) as Hl' by (cbn; congruence).
    constructor; [by apply IH|]. apply Forall_forall. intros e He.
    assert (content e ∈ tagged sh <$> rs) as Hin by (rewrite <-Hl'; apply list_elem_of_fmap; by exists e).
    apply list_elem_of_fmap in Hin as (b & Hb & Hin). eapply Hk; [exact Hd|exact Hb|]. by eapply Forall_forall in Ha.
Qed.

(** C20: the decoder reads back what [/flight] writes.  For any number of shards and records, decoding the page gives every
    record of every shard with its fields, tagged with its shard; the timeline printed is a reordering of these,
    sorted by time stamp; and on it the records of a shard whose stamps never go back stand in the order the shard recorded
    them. *)
Theorem flight_page_timeline snaps :
  snaps <> [] -> Z.of_nat (length snaps) < 2 ^ 32 -> Forall snap_flight_ok snaps ->
  exists recs, decode (flight_bin snaps) = (recs, true) /\
    content <$> recs = concat (imap (fun i s => tagged (Z.of_nat i) <$> s_flight s) snaps) /\
    sort_recs recs ≡ₚ recs /\ StronglySorted le_key (sort_recs recs) /\
    forall i s, snaps !! i = Some s -> StronglySorted in_order (s_flight s) ->
      content <$> filter (fun d => shard_ d = Z.of_nat i) (sort_recs recs) = tagged (Z.of_nat i) <$> s_flight s.
Proof.
  intros Hne Hl Hs. unfold decode, flight_bin. rewrite bool_decide_eq_true_2 by by destruct snaps.
  assert (length snaps <= length (concat (imap flight_frame snaps)))%nat as Hf.
  { clear. generalize flight_frame frame_len. intros f Hf. revert f Hf. induction snaps as [|s snaps IH]; intros f Hf; [done|].
    cbn [imap concat length]. rewrite length_app, Hf. specialize (IH (f ∘ S)). cbn in IH. specialize (IH ltac:(intros; apply Hf)). lia. }
  set (recs := decode_frames _ _ _).
  assert (content <$> recs = concat (imap (fun i s => tagged (Z.of_nat i) <$> s_flight s) snaps)) as H
    by exact (decode_frames_app snaps _ 0 [] Hs ltac:(cbn; lia) Hf).
  clearbody recs. exists recs. split; [done|].
  split; [exact H|]. split; [apply sort_recs_perm|]. split; [apply sort_recs_sorted|]. intros i s Hi Ho.
  assert (content <$> filter (fun d => shard_ d = Z.of_nat i) recs = tagged (Z.of_nat i) <$> s_flight s) as Hc.
  { rewrite filter_content, H. exact (filter_shard i s snaps 0 Hi). }
  rewrite sort_recs_filter, sort_recs_id; [exact Hc|]. exact (content_sorted _ _ Ho _ Hc).
Qed.

(** ** Witnesses *)

Definition demo_snap (nm : list Z) (conns : list ConnInfo) (flight : list FlightRecord) : ShardSnap :=
  mkSnap nm (mkStats 40 10 1 2 3 4 5 2 700 900 11 12 0 0 0 21 21 0 8 6 1 0 0 0 0 0 0 0 0 0) latency0 conns flight (Http.str "wait=block") true.
Definition demo_conn : ConnInfo := mkConnInfo 3 1 (Http.str "server") (lit "a'b\") (Http.str "127.0.0.1:9") 1 17 100.
Definition demo_info : Runtime.ShardInfo * Z := (Runtime.mkInfo (Http.str "io-0") (-1) (-1) true false, 0).

Lemma demo_clean s : forallb (fun c => (c =? 10) || (32 <=? c)) s = true -> clean s.
Proof.
  intros H. apply Forall_forall. intros c Hc. rewrite forallb_forall in H. apply list_elem_of_In in Hc. apply H in Hc. lia.
Qed.

Lemma pages_are_json_witness :
  read (conns_page [demo_snap [112] [demo_conn] []]) = Some (conns_page_value [demo_snap [112] [demo_conn] []]) /\
  read (stats_page true [demo_snap [112] [demo_conn] []]) = Some (stats_page_value true [demo_snap [112] [demo_conn] []]).
Proof.
  assert (Forall snap_ok [demo_snap [112] [demo_conn] []]) as Hs.
  { constructor; [|constructor]. split; [by apply demo_clean|by apply demo_clean| |].
    - repeat (apply Forall_cons; split; [unfold is_u64; cbn; lia|]). constructor.
    - constructor; [|constructor]. unfold conn_ok, is_u32, is_u64. cbn. repeat split; try lia; by apply demo_clean. }
  assert (Forall info_ok [demo_info]) as Hi.
  { constructor; [|constructor]. unfold info_ok, is_int. cbn. split; [by apply demo_clean|lia]. }
  destruct (pages_are_json true _ _ Hs Hi) as (H1 & _ & _ & H2). split; [exact H1|]. apply H2. constructor; [|constructor].
  vm_compute. lia.
Defined.

Lemma histogram_series_cumulative_witness :
  histo_rows (Hist.record_all [3; 5; 4; 0]) = [(2, 1); (4, 2); (8, 4)] /\
  4 = Z.of_nat (count_if (fun v => v <? 8) [3; 5; 4; 0]) /\ (0, 1) ∈ histo_rows (Hist.record_all [2 ^ 63]).
Proof.
  split; [vm_compute; reflexivity|]. split.
  - assert (Hist.values_ok [3; 5; 4; 0]) as Hv by (repeat (apply Forall_cons; split; [lia|]); constructor).
    apply (proj1 (histogram_series_cumulative [3; 5; 4; 0] Hv ltac:(vm_compute; reflexivity)) 8 4); [|lia].
    vm_compute. right. right. left.
  - assert (Hist.values_ok [2 ^ 63]) as Hv by (apply Forall_cons; split; [lia|constructor]).
    destruct (histogram_series_cumulative [2 ^ 63] Hv ltac:(vm_compute; reflexivity)) as (_ & _ & H & _).
    apply (H (2 ^ 63)); [left|lia].
Defined.

Definition demo_flight : list ShardSnap :=
  [demo_snap [] [] [mkFlight 10 0 1 0 0 0; mkFlight 30 3 1 64 0 7]; demo_snap [] [] []; demo_snap [] [] [mkFlight 20 9 2 0 0 5]].

Lemma flight_page_timeline_witness :
  exists recs, decode (flight_bin demo_flight) = (recs, true) /\ map tsc_ (sort_recs recs) = [10; 20; 30] /\
    content <$> filter (fun d => shard_ d = 0) (sort_recs recs) = tagged 0 <$> [mkFlight 10 0 1 0 0 0; mkFlight 30 3 1 64 0 7].
Proof.
  assert (Forall snap_flight_ok demo_flight) as Hs.
  { repeat (apply Forall_cons; split; [split; [repeat (apply Forall_cons; split; [unfold flight_ok, is_u32, is_u64; cbn; lia|]);
      constructor|unfold is_u32, zlen; cbn; lia]|]). constructor. }
  destruct (flight_page_timeline demo_flight ltac:(discriminate) ltac:(cbn; lia) Hs) as (recs & H1 & _ & _ & _ & H2).
  exists recs. split; [exact H1|]. split.
  - assert (recs = fst (decode (flight_bin demo_flight))) as -> by by rewrite H1. vm_compute. reflexivity.
  - apply (H2 0%nat _ eq_refl). constructor; [repeat constructor|]. constructor; [|constructor]. left. cbn. lia.
Defined.

End Pages.
