(* ===== verification/Udp.v ===== *)
(** * Datagram sockets

    [UdpSocket] of [src/include/afx/net/udp_socket.hpp] and the datagram calls of
    [src/src/net/udp.cpp], as built for Linux.  The kernel's receive queue is part
    of the state: datagrams, and errors that the next receive reports.  The
    framer is a parameter with the laws of Protocol.v; a handler may close the
    socket, as any function of what was delivered so far. *)

From stdpp Require Import base option gmap list.
From Stdlib Require Import ZArith Lia.
From S2P Require Import Prelude Backend Protocol.
Local Open Scope Z_scope.

Module Udp.
Import Framing.

(** ** Addresses and socket options *)

Definition AF_INET : Z := 2.
Definition AF_INET6 : Z := 10.
Definition EBADF : Z := 9.
Definition EAGAIN : Z := 11.
Definition UIO_MAXIOV : nat := 1024.

Record SockAddr := mkAddr { family : Z; in_addr : Z; scope_id : Z; port : Z }.

(** A [setsockopt] call. *)
Inductive Level := IPPROTO_IP | IPPROTO_IPV6.
Inductive OptName :=
  | ADD_MEMBERSHIP | DROP_MEMBERSHIP | JOIN_GROUP | LEAVE_GROUP | ADD_SOURCE_MEMBERSHIP | DROP_SOURCE_MEMBERSHIP
  | MULTICAST_TTL | MULTICAST_HOPS | MULTICAST_LOOP | MULTICAST_IF.
Record SockOpt := mkOpt { level : Level; optname : OptName; value : list Z }.

(** The interface of a membership: the default unless the families agree. *)
Definition iface4 (iface : SockAddr) : Z := if family iface =? AF_INET then in_addr iface else 0.
Definition iface6 (iface : SockAddr) : Z := if family iface =? AF_INET6 then scope_id iface else 0.

Definition membership (n4 n6 : OptName) (group iface : SockAddr) : Result SockOpt :=
  if family group =? AF_INET then Val (mkOpt IPPROTO_IP n4 [in_addr group; iface4 iface])
  else if family group =? AF_INET6 then Val (mkOpt IPPROTO_IPV6 n6 [in_addr group; iface6 iface])
  else Bad (make_error Net Invalid).

Definition join_group : SockAddr -> SockAddr -> Result SockOpt := membership ADD_MEMBERSHIP JOIN_GROUP.
Definition leave_group : SockAddr -> SockAddr -> Result SockOpt := membership DROP_MEMBERSHIP LEAVE_GROUP.

Definition source_membership (n : OptName) (group src iface : SockAddr) : Result SockOpt :=
  if negb (family group =? AF_INET) || negb (family src =? AF_INET) then Bad (make_error Net Unsupported)
  else Val (mkOpt IPPROTO_IP n [in_addr group; in_addr src; iface4 iface]).

Definition join_source : SockAddr -> SockAddr -> SockAddr -> Result SockOpt := source_membership ADD_SOURCE_MEMBERSHIP.
Definition leave_source : SockAddr -> SockAddr -> SockAddr -> Result SockOpt := source_membership DROP_SOURCE_MEMBERSHIP.

(** [sock_family] is what [getsockname] answers. *)
Definition set_multicast_ttl (sock_family : Result Z) (ttl : Z) : Result SockOpt :=
  match sock_family with
  | Bad e => Bad e
  | Val f => Val (if f =? AF_INET6 then mkOpt IPPROTO_IPV6 MULTICAST_HOPS [ttl] else mkOpt IPPROTO_IP MULTICAST_TTL [ttl])
  end.

Definition set_multicast_loop (on : bool) : SockOpt := mkOpt IPPROTO_IP MULTICAST_LOOP [if on then 1 else 0].

Definition set_multicast_if (iface : SockAddr) : Result SockOpt :=
  if family iface =? AF_INET then Val (mkOpt IPPROTO_IP MULTICAST_IF [in_addr iface])
  else if family iface =? AF_INET6 then Val (mkOpt IPPROTO_IPV6 MULTICAST_IF [scope_id iface])
  else Bad (make_error Net Invalid).

(** ** The socket *)

Section Socket.
Context {M : Type} (parse : list Z -> ParseResult M).

Inductive Event :=
  | OnMessages (from : SockAddr) (ms : list M)
  | OnDatagram (from : SockAddr) (bytes : list Z)
  | OnError (e : Error).

(** What the application does in a handler, and the capacity of [msgs_]. *)
Context (closes : list Event -> bool) (capacity : nat).

Inductive Item := Datagram (from : SockAddr) (bytes : list Z) | SoError (errno : Z).

Record UdpSocket := mkUdp {
  recv_batch : nat;
  max_datagram : nat;
  on_messages : bool;
  on_datagram : bool;
  on_error : bool;
  fd_ : option Z;
  watch_ : bool;
  bound_ : option SockAddr;
  drains_ : Z;
  datagrams_in_ : Z;
  queue : list Item;                       (* in the kernel *)
  wire : list (SockAddr * list Z);         (* datagrams the kernel accepted *)
  closed_fds : list Z;
  log : list Event }.

Definition set_fd f w b u := mkUdp (recv_batch u) (max_datagram u) (on_messages u) (on_datagram u) (on_error u) f w b (drains_ u) (datagrams_in_ u) (queue u) (wire u) (closed_fds u) (log u).
Definition set_counts d n u := mkUdp (recv_batch u) (max_datagram u) (on_messages u) (on_datagram u) (on_error u) (fd_ u) (watch_ u) (bound_ u) d n (queue u) (wire u) (closed_fds u) (log u).
Definition set_kernel q w c u := mkUdp (recv_batch u) (max_datagram u) (on_messages u) (on_datagram u) (on_error u) (fd_ u) (watch_ u) (bound_ u) (drains_ u) (datagrams_in_ u) q w c (log u).
Definition set_log l u := mkUdp (recv_batch u) (max_datagram u) (on_messages u) (on_datagram u) (on_error u) (fd_ u) (watch_ u) (bound_ u) (drains_ u) (datagrams_in_ u) (queue u) (wire u) (closed_fds u) l.

Definition close (u : UdpSocket) : UdpSocket :=
  let u := if watch_ u then set_fd (fd_ u) false (bound_ u) u else u in
  match fd_ u with
  | Some fd => set_fd None (watch_ u) (bound_ u) (set_kernel (queue u) (wire u) (closed_fds u ++ [fd]) u)
  | None => u
  end.

(** [open]: the answers of the system calls and of [watch]. *)
Definition open (created : Result Z) (bind : Result unit) (local : option SockAddr) (watch : Result unit)
    (u : UdpSocket) : Result unit * UdpSocket :=
  match created with
  | Bad e => (Bad e, u)
  | Val fd =>
      let u := set_fd (Some fd) (watch_ u) (bound_ u) u in
      match bind with
      | Bad e => (Bad e, close u)
      | Val _ =>
          let u := set_fd (fd_ u) (watch_ u) (match local with Some a => Some a | None => bound_ u end) u in
          match watch with
          | Bad e => (Bad e, close u)
          | Val _ => (Val tt, set_fd (fd_ u) true (bound_ u) u)
          end
      end
  end.

(** A handler is called. *)
Definition call (ev : Event) (u : UdpSocket) : UdpSocket :=
  let u := set_log (log u ++ [ev]) u in
  if closes (log u) then close u else u.

Definition report (e : Error) (u : UdpSocket) : UdpSocket := if on_error u then call (OnError e) u else u.

(** ** Receiving *)

(** [recvmmsg] on a queue: datagrams up to the room, cut to their buffers; an error
    is reported only when it comes first. *)
Fixpoint take_datagrams (room max : nat) (q : list Item) : list (SockAddr * list Z) * list Item :=
  match room, q with
  | S room, Datagram from bytes :: q =>
      let '(ds, q) := take_datagrams room max q in ((from, take max bytes) :: ds, q)
  | _, _ => ([], q)
  end.

Definition recv_datagrams (u : UdpSocket) : Result (list (SockAddr * list Z)) * UdpSocket :=
  match recv_batch u, fd_ u with
  | O, _ => (Val [], u)
  | _, None => (Bad (errno_error EBADF), u)
  | n, Some _ =>
      match queue u with
      | SoError e :: q =>
          let u := set_kernel q (wire u) (closed_fds u) u in
          if e =? EAGAIN then (Val [], u) else (Bad (errno_error e), u)
      | q =>
          let '(ds, q) := take_datagrams (Nat.min n UIO_MAXIOV) (max_datagram u) q in
          (Val ds, set_kernel q (wire u) (closed_fds u) u)
      end
  end.

(** The loop of [deliver] over what is left of a datagram; [None] is a framer that
    consumes nothing. *)
Fixpoint deliver_loop (fuel : nat) (from : SockAddr) (rest : list Z) (msgs : list M) (u : UdpSocket) : option UdpSocket :=
  let finish u := match msgs with [] => u | _ => call (OnMessages from msgs) u end in
  match rest, fuel with
  | [], _ => Some (finish u)
  | _, O => None
  | _, S fuel =>
      match parse rest with
      | PMessage m k =>
          let rest := drop (Z.to_nat k) rest in
          let msgs := msgs ++ [m] in
          if (length msgs =? capacity)%nat then deliver_loop fuel from rest [] (call (OnMessages from msgs) u)
          else deliver_loop fuel from rest msgs u
      | PNeedMore _ => Some (finish (report (make_error Frame Truncated) u))
      | PError e => Some (finish (report e u))
      end
  end.

Definition deliver (rx : SockAddr * list Z) (u : UdpSocket) : option UdpSocket :=
  if on_datagram u then Some (call (OnDatagram (fst rx) (snd rx)) u)
  else if on_messages u then deliver_loop (length (snd rx)) (fst rx) (snd rx) [] u
  else Some u.

Fixpoint deliver_all (ds : list (SockAddr * list Z)) (u : UdpSocket) : option UdpSocket :=
  match ds with
  | [] => Some u
  | d :: ds => u ← deliver d u; deliver_all ds u
  end.

Fixpoint on_readable (fuel : nat) (u : UdpSocket) : option UdpSocket :=
  match fuel with
  | O => None
  | S fuel =>
      match recv_datagrams u with
      | (Bad e, u) => Some (report e u)
      | (Val [], u) => Some u
      | (Val ds, u) =>
          u ← deliver_all ds (set_counts (u64 (drains_ u + 1)) (u64 (datagrams_in_ u + zlen ds)) u);
          if (length ds <? recv_batch u)%nat then Some u else on_readable fuel u
      end
  end.

(** ** Sending *)

(** What [sendmmsg] answers: how many datagrams it took, or an error. *)
Inductive Sent := SentSome (n : nat) | SendError (errno : Z).

Definition send_datagrams (ms : list (SockAddr * list Z)) (a : Sent) (u : UdpSocket) : Result Z * UdpSocket :=
  match ms with
  | [] => (Val 0, u)
  | _ =>
      match a with
      | SendError e => if e =? EAGAIN then (Val 0, u) else (Bad (errno_error e), u)
      | SentSome n =>
          let ds := take n ms in
          (Val (zlen ds), set_kernel (queue u) (wire u ++ ds) (closed_fds u) u)
      end
  end.

Definition send_batch (ms : list (SockAddr * list Z)) (a : Sent) (u : UdpSocket) : Result Z * UdpSocket :=
  match fd_ u with
  | None => (Bad (make_error Internal Closed), u)
  | Some _ => send_datagrams ms a u
  end.

Definition send_to (to : SockAddr) (bytes : list Z) (a : Sent) (u : UdpSocket) : Result unit * UdpSocket :=
  match fd_ u with
  | None => (Bad (make_error Internal Closed), u)
  | Some _ =>
      match send_datagrams [(to, bytes)] a u with
      | (Bad e, u) => (Bad e, u)
      | (Val _, u) => (Val tt, u)
      end
  end.

End Socket.

(** ** What is delivered *)

Section Facts.
Context {M : Type} (parse : list Z -> ParseResult M) {L : FramerLaws parse}.
Context (closes : list (Event (M := M)) -> bool) (capacity : nat) (Hcap : (0 < capacity)%nat).
Notation Sock := (UdpSocket (M := M)).
Notation Ev := (Event (M := M)).

(** The messages of one datagram, and the error that ends it. *)
Fixpoint frames (fuel : nat) (rest : list Z) : list M * option Error :=
  match rest, fuel with
  | [], _ | _, O => ([], None)
  | _, S fuel =>
      match parse rest with
      | PMessage m k => let '(ms, e) := frames fuel (drop (Z.to_nat k) rest) in (m :: ms, e)
      | PNeedMore _ => ([], Some (make_error Frame Truncated))
      | PError e => ([], Some e)
      end
  end.

Definition frames_of (bytes : list Z) : list M * option Error := frames (length bytes) bytes.

(** What the handlers are told of a datagram from [from] with messages [ms] that [err]
    ends: full batches, the error if a handler takes it, and the rest of the messages
    in a batch that is neither empty nor full. *)
Definition tells (on_error : bool) (from : SockAddr) (ms : list M) (err : option Error) (evs : list Ev) : Prop :=
  exists full rest, Forall (fun b => length b = capacity) full /\ (length rest < capacity)%nat /\ concat full ++ rest = ms /\
    evs = (OnMessages from <$> full) ++ (if on_error then OnError <$> option_list err else []) ++
          (match rest with [] => [] | _ => [OnMessages from rest] end).

Definition datagram_log (on_error : bool) (rx : SockAddr * list Z) (evs : list Ev) : Prop :=
  let '(ms, err) := frames_of (snd rx) in tells on_error (fst rx) ms err evs.

(** What handlers do not touch; a socket that no handler closes stays open. *)
Record kept (u u' : Sock) : Prop := {
  k_batch : recv_batch u' = recv_batch u;
  k_max : max_datagram u' = max_datagram u;
  k_handlers : on_messages u' = on_messages u /\ on_datagram u' = on_datagram u /\ on_error u' = on_error u;
  k_counts : drains_ u' = drains_ u /\ datagrams_in_ u' = datagrams_in_ u;
  k_kernel : queue u' = queue u /\ wire u' = wire u;
  k_open : (forall l, closes l = false) -> fd_ u' = fd_ u }.

Lemma kept_refl u : kept u u.
Proof. by split. Qed.

Lemma udp_kept_trans u1 u2 u3 : kept u1 u2 -> kept u2 u3 -> kept u1 u3.
Proof.
  intros [A1 B1 (C1 & C2 & C3) (D1 & D2) (E1 & E2) F1] [A2 B2 (C4 & C5 & C6) (D3 & D4) (E3 & E4) F2].
  split; [congruence|congruence|split_and!; congruence|split; congruence|split; congruence|].
  intros H. rewrite F2, F1; done.
Qed.


(** One call: the event is logged. *)
Lemma call_spec ev u : kept u (call closes ev u) /\ log (call closes ev u) = log u ++ [ev].
Proof.
  unfold call, close. simpl. destruct (closes (log u ++ [ev])) eqn:E; [|done].
  destruct (watch_ u); simpl; destruct (fd_ u) eqn:Ef; simpl; (split; [split; simpl; try done; intros H; by rewrite H in E|done]).
Qed.

Lemma report_spec e u :
  kept u (report closes e u) /\ log (report closes e u) = log u ++ (if on_error u then [OnError e] else []).
Proof. unfold report. destruct (on_error u); [apply call_spec|split; [apply kept_refl|by rewrite app_nil_r]]. Qed.

(** What a part of a delivery adds to the log. *)
Record delivered (u u' : Sock) (from : SockAddr) (ms : list M) (err : option Error) : Prop := {
  dl_kept : kept u u';
  dl_log : exists evs, log u' = log u ++ evs /\ tells (on_error u) from ms err evs }.

(** The rest of the batch goes out at the end. *)
Lemma delivered_finish u from msgs :
  (length msgs < capacity)%nat ->
  delivered u (match msgs with [] => u | _ => call closes (OnMessages from msgs) u end) from msgs None.
Proof.
  intros Hl. destruct (call_spec (OnMessages from msgs) u) as [K E]. destruct msgs as [|x l].
  - split; [apply kept_refl|]. exists []. split; [by rewrite app_nil_r|]. exists [], []. split_and!; try done. by destruct (on_error u).
  - split; [done|]. eexists. split; [exact E|]. exists [], (x :: l). split_and!; try done. by destruct (on_error u).
Qed.

Lemma delivered_error u from msgs e :
  (length msgs < capacity)%nat ->
  delivered u (match msgs with [] => report closes e u | _ => call closes (OnMessages from msgs) (report closes e u) end) from msgs (Some e).
Proof.
  intros Hl. destruct (report_spec e u) as [K E]. destruct (call_spec (OnMessages from msgs) (report closes e u)) as [K1 E1].
  split; [destruct msgs; [done|by eapply udp_kept_trans]|].
  exists ((if on_error u then [OnError e] else []) ++ match msgs with [] => [] | _ => [OnMessages from msgs] end). split.
  - rewrite app_assoc, <- E. destruct msgs; [by rewrite app_nil_r|done].
  - exists [], msgs. split_and!; try done.
Qed.

(** A full batch goes out as soon as it is. *)
Lemma delivered_full u u' from b ms err :
  length b = capacity -> delivered (call closes (OnMessages from b) u) u' from ms err -> delivered u u' from (b ++ ms) err.
Proof.
  intros Hb [K (evs & E & full & rest & F & R & C & ->)]. destruct (call_spec (OnMessages from b) u) as [K1 E1].
  split; [by eapply udp_kept_trans|]. eexists. split; [rewrite E, E1, <- app_assoc; reflexivity|].
  destruct (k_handlers _ _ K1) as (_ & _ & ->). exists (b :: full), rest.
  split_and!; [by constructor|done|simpl; by rewrite <- app_assoc, C|done].
Qed.

Lemma deliver_loop_spec fuel from rest msgs u :
  (length rest <= fuel)%nat -> (length msgs < capacity)%nat ->
  exists u', deliver_loop parse closes capacity fuel from rest msgs u = Some u' /\
    delivered u u' from (msgs ++ fst (frames fuel rest)) (snd (frames fuel rest)).
Proof.
  revert rest msgs u. induction fuel as [|fuel IH]; intros rest msgs u Hf Hm.
  { destruct rest; [|simpl in Hf; lia]. eexists. split; [reflexivity|]. simpl. rewrite app_nil_r. apply delivered_finish. lia. }
  destruct rest as [|b rest0] eqn:Er; [eexists; split; [reflexivity|]; simpl; rewrite app_nil_r; apply delivered_finish; lia|].
  rewrite <- Er in *. assert (rest <> []) as Hne by (by rewrite Er).
  assert (deliver_loop parse closes capacity (S fuel) from rest msgs u =
    match parse rest with
    | PMessage m k =>
        if (length (msgs ++ [m]) =? capacity)%nat
        then deliver_loop parse closes capacity fuel from (drop (Z.to_nat k) rest) [] (call closes (OnMessages from (msgs ++ [m])) u)
        else deliver_loop parse closes capacity fuel from (drop (Z.to_nat k) rest) (msgs ++ [m]) u
    | PNeedMore _ => Some (match msgs with [] => report closes (make_error Frame Truncated) u
                           | _ => call closes (OnMessages from msgs) (report closes (make_error Frame Truncated) u) end)
    | PError e => Some (match msgs with [] => report closes e u | _ => call closes (OnMessages from msgs) (report closes e u) end)
    end) as -> by (by rewrite Er).
  assert (frames (S fuel) rest =
    match parse rest with
    | PMessage m k => let '(ms, e) := frames fuel (drop (Z.to_nat k) rest) in (m :: ms, e)
    | PNeedMore _ => ([], Some (make_error Frame Truncated))
    | PError e => ([], Some e)
    end) as -> by (by rewrite Er).
  destruct (parse rest) as [msg k|n|e] eqn:Ep.
  - destruct (parse_bound rest msg k Ep) as [Hk Hk'].
    assert (length (drop (Z.to_nat k) rest) <= fuel)%nat as Hd by (rewrite length_drop; unfold zlen in Hk'; lia).
    destruct (frames fuel (drop (Z.to_nat k) rest)) as [ms e] eqn:Efr. cbn [fst snd].
    destruct (Nat.eqb_spec (length (msgs ++ [msg])) capacity) as [Hfull|Hfull].
    + set (u1 := call closes (OnMessages from (msgs ++ [msg])) u).
      destruct (IH (drop (Z.to_nat k) rest) [] u1 Hd Hcap) as (u' & -> & D). exists u'. split; [done|].
      rewrite Efr in D. simpl in D. replace (msgs ++ msg :: ms) with ((msgs ++ [msg]) ++ ms) by (by rewrite <- app_assoc).
      by apply delivered_full.
    + rewrite length_app in Hfull. simpl in Hfull.
      destruct (IH (drop (Z.to_nat k) rest) (msgs ++ [msg]) u Hd) as (u' & -> & D); [rewrite length_app; simpl; lia|].
      exists u'. split; [done|]. rewrite Efr in D. simpl in D. by rewrite <- app_assoc in D.
  - eexists. split; [reflexivity|]. cbn [fst snd]. rewrite app_nil_r.
    by apply delivered_error.
  - eexists. split; [reflexivity|]. cbn [fst snd]. rewrite app_nil_r. by apply delivered_error.
Qed.

(** What a whole delivery adds. *)
Record delivered_all (u u' : Sock) (ds : list (SockAddr * list Z)) : Prop := {
  da_kept : kept u u';
  da_log : exists parts, log u' = log u ++ concat parts /\ Forall2 (datagram_log (on_error u)) ds parts }.

Lemma udp_deliver_total rx u : exists u', deliver parse closes capacity rx u = Some u' /\ kept u u'.
Proof.
  unfold deliver. destruct (on_datagram u); [eexists; split; [reflexivity|]; by apply call_spec|].
  destruct (on_messages u); [|eexists; split; [reflexivity|apply kept_refl]].
  destruct (deliver_loop_spec (length (snd rx)) (fst rx) (snd rx) [] u) as (u' & -> & D); [done|done|]. exists u'. split; [done|apply D].
Qed.

Lemma deliver_all_total ds u : exists u', deliver_all parse closes capacity ds u = Some u' /\ kept u u'.
Proof.
  revert u. induction ds as [|d ds IH]; intros u; simpl; [eexists; split; [reflexivity|apply kept_refl]|].
  destruct (udp_deliver_total d u) as (u1 & -> & K1). simpl. destruct (IH u1) as (u2 & -> & K2). eexists. split; [reflexivity|by eapply udp_kept_trans].
Qed.

Lemma deliver_all_spec ds u :
  on_messages u = true -> on_datagram u = false ->
  exists u', deliver_all parse closes capacity ds u = Some u' /\ delivered_all u u' ds.
Proof.
  revert u. induction ds as [|d ds IH]; intros u Hm Hd; simpl.
  { eexists. split; [reflexivity|]. split; [apply kept_refl|]. exists []. by rewrite app_nil_r. }
  unfold deliver at 1. rewrite Hm, Hd.
  destruct (deliver_loop_spec (length (snd d)) (fst d) (snd d) [] u) as (u1 & -> & [K1 (l1 & E1 & T1)]); [done|done|].
  simpl. pose proof (k_handlers _ _ K1) as (H1 & H2 & H3).
  destruct (IH u1) as (u2 & -> & [K2 (l2 & E2 & T2)]); [congruence|congruence|]. eexists. split; [reflexivity|].
  split; [by eapply udp_kept_trans|]. exists (l1 :: l2). split; [by rewrite E2, E1, <- app_assoc|].
  rewrite H3 in T2. constructor; [|done]. unfold datagram_log, frames_of. by destruct (frames _ _).
Qed.

(** ** Readiness *)

Lemma take_datagrams_shrinks n max q ds q' :
  take_datagrams n max q = (ds, q') -> (length q' + length ds = length q)%nat /\ (length ds <= n)%nat.
Proof.
  revert q ds q'. induction n as [|n IH]; intros q ds q'; [intros [= <- <-]; simpl; lia|].
  destruct q as [|[from bytes|e] q]; simpl; [intros [= <- <-]; simpl; lia| |intros [= <- <-]; simpl; lia].
  destruct (take_datagrams n max q) as [ds0 q0] eqn:E. intros [= <- <-]. destruct (IH q ds0 q0 E). simpl. lia.
Qed.

(** Enough fuel for a readiness event: one receive for each datagram queued, and one
    that finds nothing. *)
Lemma on_readable_total u : exists u', on_readable parse closes capacity (S (length (queue u))) u = Some u'.
Proof.
  remember (S (length (queue u))) as fuel eqn:Ef. assert (length (queue u) < fuel)%nat as Hf by lia. clear Ef.
  revert u Hf. induction fuel as [|fuel IH]; intros u Hf; [lia|]. cbn [on_readable].
  destruct (recv_datagrams u) as [[[|d ds]|e] u1] eqn:Er; [by eauto| |by eauto].
  set (u2 := set_counts _ _ u1). destruct (deliver_all_total (d :: ds) u2) as (u3 & -> & K). cbn [mbind option_bind].
  destruct (_ <? _)%nat; [by eauto|]. apply IH. destruct (k_kernel _ _ K) as [-> _]. subst u2. simpl.
  unfold recv_datagrams in Er. destruct (recv_batch u) as [|n]; [done|]. destruct (fd_ u); [|done].
  destruct (queue u) as [|[from bytes|e] q] eqn:Eq.
  - by destruct n.
  - destruct (take_datagrams (Nat.min (S n) UIO_MAXIOV) (max_datagram u) (Datagram from bytes :: q)) as [ds' q'] eqn:Et.
    injection Er as E1 E2. subst u1. destruct (take_datagrams_shrinks _ _ _ _ _ Et) as [H1 _]. rewrite E1 in H1. simpl in *. lia.
  - destruct (e =? EAGAIN); done.
Qed.

Definition cut (max : nat) (it : Item) : SockAddr * list Z :=
  match it with Datagram from bytes => (from, take max bytes) | SoError _ => (mkAddr 0 0 0 0, []) end.
Definition is_datagram (it : Item) : Prop := match it with Datagram _ _ => True | SoError _ => False end.

Lemma take_datagrams_spec n max q :
  Forall is_datagram q -> take_datagrams n max q = (cut max <$> take n q, drop n q).
Proof.
  revert q. induction n as [|n IH]; intros q Hq; [by rewrite drop_0|]. destruct Hq as [|[from bytes|e] q Hd Hq]; [done| |done].
  simpl. by rewrite IH.
Qed.

(** C37: a readiness event of an open socket with a message handler and no datagram
    handler empties the receive queue, with as many receives as it takes: every
    datagram is cut to its buffer and framed on its own, in order, and its messages
    are delivered in order, a batch as soon as it is full and the rest at the end,
    after the error that ends the datagram early, which is reported once if there
    is a handler for it; and the counters count.  The conditions are that no handler
    closes the socket, that no error is queued and that [recv_batch] is not more than
    the kernel takes in one call (see [oversized_batch_strands]). *)
Theorem udp_delivers_every_datagram u fd :
  fd_ u = Some fd -> on_messages u = true -> on_datagram u = false -> (forall l, closes l = false) ->
  (0 < recv_batch u <= UIO_MAXIOV)%nat -> Forall is_datagram (queue u) ->
  exists u' parts, on_readable parse closes capacity (S (length (queue u))) u = Some u' /\ queue u' = [] /\
    log u' = log u ++ concat parts /\ Forall2 (datagram_log (on_error u)) (cut (max_datagram u) <$> queue u) parts /\
    datagrams_in_ u' mod 2 ^ 64 = (datagrams_in_ u + zlen (queue u)) mod 2 ^ 64.
Proof.
  intros Hfd Hm Hd Hc Hb Hq. remember (S (length (queue u))) as fuel eqn:Ef. assert (length (queue u) < fuel)%nat as Hf by lia. clear Ef.
  revert u Hfd Hm Hd Hb Hq Hf. induction fuel as [|fuel IH]; intros u Hfd Hm Hd Hb Hq Hf; [lia|]. cbn [on_readable].
  assert (recv_datagrams u = (Val (cut (max_datagram u) <$> take (recv_batch u) (queue u)),
    set_kernel (drop (recv_batch u) (queue u)) (wire u) (closed_fds u) u)) as ->.
  { unfold recv_datagrams. rewrite Hfd. destruct (recv_batch u) as [|n] eqn:En; [lia|]. rewrite Nat.min_l by lia.
    pose proof (take_datagrams_spec (S n) (max_datagram u) (queue u) Hq) as Ht.
    destruct Hq as [|[from bytes|e] q Hx Hq]; [by rewrite Ht|by rewrite Ht|done]. }
  destruct (queue u) as [|it q] eqn:Eq.
  { destruct (recv_batch u); simpl; eexists _, []; split_and!; try done; by rewrite ?app_nil_r, ?Z.add_0_r. }
  rewrite <- Eq in *. set (ds := cut (max_datagram u) <$> take (recv_batch u) (queue u)).
  assert (length ds = Nat.min (recv_batch u) (length (queue u))) as Hlen by (subst ds; by rewrite length_fmap, length_take).
  destruct ds as [|d ds0] eqn:Eds; [rewrite Eq in Hlen; simpl in Hlen; lia|]. rewrite <- Eds in *. set (u1 := set_kernel _ _ _ u).
  set (u2 := set_counts _ _ u1).
  destruct (deliver_all_spec ds u2 Hm Hd) as (u3 & -> & [K (l3 & E3 & T3)]). cbn [mbind option_bind].
  pose proof K as [K1 K2 (K3 & K4 & K5) (K6 & K7) (K8 & K9) K10].
  assert (take (recv_batch u) (queue u) ++ drop (recv_batch u) (queue u) = queue u) as Hsplit by apply take_drop.
  destruct (Nat.ltb_spec (length ds) (recv_batch u3)) as [Hlt|Hge].
  - assert (drop (recv_batch u) (queue u) = []) as Hnil by (apply drop_ge; rewrite K1 in Hlt; simpl in Hlt; lia).
    assert (take (recv_batch u) (queue u) = queue u) as Hall by (by rewrite Hnil, app_nil_r in Hsplit).
    exists u3, l3. split_and!; [done|by rewrite K8|done|by subst ds; rewrite Hall in T3|].
    rewrite K7. subst u2 u1. simpl. unfold u64. rewrite Z.mod_mod by lia. do 2 f_equal. unfold zlen. subst ds. by rewrite length_fmap, Hall.
  - assert (queue u3 = drop (recv_batch u) (queue u)) as Eq3 by (by rewrite K8).
    rewrite K1 in Hge. simpl in Hge.
    destruct (IH u3) as (u' & evs & -> & Q' & L' & T' & C').
    + rewrite K10; done.
    + by rewrite K3.
    + by rewrite K4.
    + by rewrite K1.
    + rewrite Eq3. by apply Forall_drop.
    + rewrite Eq3, length_drop. lia.
    + exists u', (l3 ++ evs). assert (max_datagram u3 = max_datagram u) as Em by (by rewrite K2).
      assert (cut (max_datagram u) <$> queue u = ds ++ (cut (max_datagram u3) <$> queue u3)) as Ecut.
      { rewrite Em, Eq3. subst ds. by rewrite <- fmap_app, Hsplit. }
      split_and!; [done|done|by rewrite L', E3, concat_app, app_assoc| |].
      * rewrite Ecut. apply Forall2_app; [done|]. by rewrite K5 in T'.
      * rewrite C', K7, Eq3. subst u2 u1. simpl. unfold u64. rewrite Zplus_mod_idemp_l. f_equal. unfold zlen. subst ds.
        rewrite length_drop, length_fmap, length_take in *. lia.
Qed.

(** A batch larger than the kernel takes at once looks like a short read: what is
    left stays queued, and an edge-triggered watch does not report it again. *)
Lemma oversized_batch_strands u fd q :
  fd_ u = Some fd -> (UIO_MAXIOV < recv_batch u)%nat -> queue u = q -> Forall is_datagram q -> q <> [] -> (forall l, closes l = false) ->
  exists u', on_readable parse closes capacity (S (length q)) u = Some u' /\ queue u' = drop UIO_MAXIOV q.
Proof.
  intros Hfd Hb Eq Hq Hne Hc. cbn [on_readable].
  assert (recv_datagrams u = (Val (cut (max_datagram u) <$> take UIO_MAXIOV q), set_kernel (drop UIO_MAXIOV q) (wire u) (closed_fds u) u)) as ->.
  { unfold recv_datagrams. rewrite Hfd, Eq. destruct (recv_batch u) as [|n] eqn:En; [lia|]. rewrite Nat.min_r by lia.
    pose proof (take_datagrams_spec UIO_MAXIOV (max_datagram u) q Hq) as Ht.
    destruct Hq as [|[from bytes|e] q0 Hx Hq]; [by rewrite Ht|by rewrite Ht|done]. }
  set (ds := cut (max_datagram u) <$> take UIO_MAXIOV q).
  assert (length ds <= UIO_MAXIOV)%nat as Hlen by (subst ds; rewrite length_fmap, length_take; lia).
  assert (ds <> []) as Hds by (subst ds; by destruct q).
  destruct ds as [|d ds0] eqn:Eds; [done|]. rewrite <- Eds in *. set (u2 := set_counts _ _ _).
  destruct (deliver_all_total ds u2) as (u3 & -> & K). cbn [mbind option_bind]. rewrite (k_batch _ _ K).
  change (recv_batch u2) with (recv_batch u). destruct (Nat.ltb_spec (length ds) (recv_batch u)); [|lia].
  exists u3. split; [done|]. by destruct (k_kernel _ _ K) as [-> _].
Qed.

End Facts.

(** A datagram that the kernel has no room for is lost without an error. *)
Lemma send_to_reports_success {M} to bytes (u : UdpSocket (M := M)) fd :
  fd_ u = Some fd -> send_to to bytes (SendError EAGAIN) u = (Val tt, u).
Proof. unfold send_to. by intros ->. Qed.

(** What a socket accepted was sent, in order; a closed one sends nothing. *)
Lemma send_batch_sends {M} ms a (u : UdpSocket (M := M)) :
  match send_batch ms a u with
  | (Val n, u') => wire u' = wire u ++ take (Z.to_nat n) ms /\ fd_ u <> None
  | (Bad _, u') => u' = u
  end.
Proof.
  unfold send_batch, send_datagrams. destruct (fd_ u); [|done]. destruct ms as [|x ms]; [by rewrite app_nil_r|].
  destruct a as [n|e]; [|destruct (e =? EAGAIN); [by rewrite app_nil_r|done]].
  split; [|done]. cbn [set_kernel wire]. f_equal. unfold zlen. rewrite Nat2Z.id, length_take.
  destruct (Nat.min_spec n (length (x :: ms))) as [[_ ->]|[H ->]]; [done|]. by rewrite !take_ge by lia.
Qed.

(** Leaving a group names the group and the interface that joining it did. *)
Lemma leave_matches_join group iface :
  match join_group group iface, leave_group group iface with
  | Val a, Val b => level a = level b /\ value a = value b
  | Bad e, Bad e' => e = e'
  | _, _ => False
  end.
Proof. unfold join_group, leave_group, membership. destruct (_ =? AF_INET); [done|]. by destruct (_ =? AF_INET6). Qed.

(** ** Witness *)

(** Frames of a length byte and as many bytes. *)
Definition small_body (h : list Z) : Result Z := Val (nth 0 h 0 mod 256).

Lemma small_fits : sizes_fit 1 small_body.
Proof.
  split; [lia|]. intros h n [= <-]. pose proof (Z.mod_pos_bound (nth 0 h 0) 256 ltac:(lia)). lia.
Qed.

#[local] Instance small_laws : FramerLaws (framer 1 (fun _ => Val tt) small_body) := framer_laws 1 (fun _ => Val tt) small_body small_fits.

Definition peer : SockAddr := mkAddr AF_INET 1 0 9.
Definition some_socket : UdpSocket :=
  mkUdp (M := FrameView) 2 16 true false true (Some 7) true None 0 0
    [Datagram peer [1; 5; 2; 6; 7; 0]; Datagram peer [3; 1]; Datagram peer [0]] [] [] [].

Lemma udp_delivers_every_datagram_witness :
  exists u' parts, on_readable (framer 1 (fun _ => Val tt) small_body) (fun _ => false) 2 4 some_socket = Some u' /\ queue u' = [] /\
    log u' = concat parts /\
    log u' = [OnMessages peer [([1], [5]); ([2], [6; 7])]; OnMessages peer [([0], [])];
              OnError (make_error Frame Truncated); OnMessages peer [([0], [])]].
Proof.
  destruct (udp_delivers_every_datagram (framer 1 (fun _ => Val tt) small_body) (fun _ => false) 2 ltac:(lia) some_socket 7)
    as (u' & parts & E & Q & El & _); [reflexivity|reflexivity|reflexivity|done|simpl; unfold UIO_MAXIOV; lia|by repeat constructor|].
  exists u', parts. split; [exact E|]. split; [exact Q|]. split; [exact El|].
  vm_compute in E. injection E as <-. reflexivity.
Defined.

End Udp.
