(* ===== verification/Connection.v ===== *)
(** * Connections

    [Connection] of [src/include/afx/net/connection.hpp] with the flow control
    types of [src/include/afx/net/socket.hpp]: the state machine, the framed read
    path, the write queue with its watermarks and overflow policies, the
    coroutine session mode, and teardown.

    The application is a parameter: [react] says, from everything that has
    happened, which operations the code behind a callback or a resumed coroutine
    performs before it returns; they run in place, re-entrantly.  So is what
    the backend does with a receive while it holds another, and with a cancelled one
    ([Receives]); [reads] holds the receives that may still bring bytes.  What the
    connection asks of its EventManager, backend and application is recorded in
    [trace].  [read_buf_] is the buffer of [IoBuffer.v], down to the block of
    memory, because a read in flight holds a span of it; [write_buf_] is the
    sequence of its readable bytes. *)

From stdpp Require Import base option gmap list.
From Stdlib Require Import ZArith Lia.
From S2P Require Import Prelude IoBuffer Backend Epoll Protocol.
Local Open Scope Z_scope.

Module Conn.
Import Framing.

(** ** Data *)

Inductive ConnState := Connecting | Established | ShutdownWrite | Closing | SClosed.

Inductive CloseReason :=
  | PeerFin | LocalClose | FrameError | IdleTimeout | WriteOverflowed | CError | CConnectFailed
  | CShutdown | HeldOverflow.

Inductive WriteOverflow := Disconnect | DropNewest | DropOldest | StopReading.

Record FlowControl := mkFlow {
  write_high_watermark : Z;
  write_low_watermark : Z;
  on_overflow : WriteOverflow;
  auto_pause_reads : bool }.

(** The defaults: 1 MiB, 256 KiB, [Disconnect], pause reads. *)
Definition default_flow : FlowControl := mkFlow 1048576 262144 Disconnect true.

Inductive SendResult := Sent | Queued | Backpressured | Dropped | RClosed.

#[global] Instance connstate_eq_dec : EqDecision ConnState.
Proof. solve_decision. Defined.
#[global] Instance overflow_eq_dec : EqDecision WriteOverflow.
Proof. solve_decision. Defined.
#[global] Instance sendresult_eq_dec : EqDecision SendResult.
Proof. solve_decision. Defined.
#[global] Instance reason_eq_dec : EqDecision CloseReason.
Proof. solve_decision. Defined.

Record Params := mkParams {
  flow : FlowControl;
  idle_read_timeout : Z;
  read_buffer_size : Z;
  p_timestamping : bool;
  fd_passing : bool }.

Definition kCoroHeldCap : nat := 256.
(** [batch_.reserve(64)]. *)
Definition kBatchCap : nat := 64.
Definition kFdInboxCap : nat := 8.

Inductive Stat := BytesIn | BytesOut | MsgsIn | FrameErrors | WriteHwmHits | WriteDrops | ConnsClosed.

(** The flight-recorder events a connection writes. *)
Inductive RecKind := RecRecv | RecSend | RecBackpressure.

Section Connection.
Context {Msg : Type}.

(** The code outside the connection that it runs synchronously. *)
Inductive Callback :=
  | CbOpen
  | CbMessages (ms : list Msg)
  | CbClose (r : CloseReason)
  | CbError (e : Error)
  | CbWritable
  | CbFds (fds : list Z)
  | CbResumeRecv (r : Result (list Msg))
  | CbResumeSend (r : SendResult).

(** What the connection asks of the world; [EQueue] marks the bytes copied into
    the write buffer. *)
Inductive Eff :=
  | ESubmitRecv (off len : Z)
  | EQueue (bs : list Z)
  | ESubmitSend (bs : list Z)
  | ECancelRecv
  | ENoteWrite
  | EShutdownWr
  | EDetach
  | ECloseFd
  | ECancelGroup
  | EArmIdle
  | ECancelIdle
  | EReleaseSink
  | EDeferNotify (r : CloseReason)
  | ENotify (r : CloseReason)
  | ESetTimestamping
  | ESetInbox
  | ECloseRight (fd : Z)
  | EStat (s : Stat) (n : Z)
  | ERecord (kind : RecKind) (n : Z)
  | ECall (k : Callback).

(** What application code may do to the connection. *)
Inductive UserOp :=
  | USend (bs : list Z)
  | USendScatter (parts : list (list Z))
  | UShutdownWrite
  | UClose (r : CloseReason)
  | URecvReady
  | UAwaitRecv
  | UAwaitSend (bs : list Z)
  | UUnawaitRecv
  | UUnawaitSend.

(** A parked coroutine is [recv_h] and [send_h]: the handle is set. *)
Record CoroState := mkCoro {
  recv_h : bool;
  send_h : option (list Z);
  held : list Msg;
  delivered : list Msg;
  armed : bool;
  on : bool }.

Definition coro0 : CoroState := mkCoro false None [] [] false false.

(** [reads] are the reads that may still bring bytes, each the span it was given with
    the block it is in: [IoBuffer] only ever replaces its block by a larger one. *)
Record Connection := mkConn {
  state_ : ConnState;
  fd_open : bool;
  read_buf_ : Buffer.IoBuffer;
  write_buf_ : list Z;
  write_inflight_ : Z;
  parse_need_ : Z;
  backpressured_ : bool;
  read_paused_ : bool;
  group_ : bool;
  idle_timer_ : bool;
  batch_ : list Msg;
  fd_inbox_ : list Z;
  coro_ : CoroState;
  reads : list (Z * Z * Z);
  trace : list Eff }.

Definition set_state x c := mkConn x (fd_open c) (read_buf_ c) (write_buf_ c) (write_inflight_ c)
  (parse_need_ c) (backpressured_ c) (read_paused_ c) (group_ c) (idle_timer_ c) (batch_ c) (fd_inbox_ c)
  (coro_ c) (reads c) (trace c).
Definition set_fd x c := mkConn (state_ c) x (read_buf_ c) (write_buf_ c) (write_inflight_ c)
  (parse_need_ c) (backpressured_ c) (read_paused_ c) (group_ c) (idle_timer_ c) (batch_ c) (fd_inbox_ c)
  (coro_ c) (reads c) (trace c).
Definition set_rb x c := mkConn (state_ c) (fd_open c) x (write_buf_ c) (write_inflight_ c)
  (parse_need_ c) (backpressured_ c) (read_paused_ c) (group_ c) (idle_timer_ c) (batch_ c) (fd_inbox_ c)
  (coro_ c) (reads c) (trace c).
Definition set_wb x c := mkConn (state_ c) (fd_open c) (read_buf_ c) x (write_inflight_ c)
  (parse_need_ c) (backpressured_ c) (read_paused_ c) (group_ c) (idle_timer_ c) (batch_ c) (fd_inbox_ c)
  (coro_ c) (reads c) (trace c).
Definition set_inflight x c := mkConn (state_ c) (fd_open c) (read_buf_ c) (write_buf_ c) x
  (parse_need_ c) (backpressured_ c) (read_paused_ c) (group_ c) (idle_timer_ c) (batch_ c) (fd_inbox_ c)
  (coro_ c) (reads c) (trace c).
Definition set_need x c := mkConn (state_ c) (fd_open c) (read_buf_ c) (write_buf_ c) (write_inflight_ c)
  x (backpressured_ c) (read_paused_ c) (group_ c) (idle_timer_ c) (batch_ c) (fd_inbox_ c)
  (coro_ c) (reads c) (trace c).
Definition set_bp x c := mkConn (state_ c) (fd_open c) (read_buf_ c) (write_buf_ c) (write_inflight_ c)
  (parse_need_ c) x (read_paused_ c) (group_ c) (idle_timer_ c) (batch_ c) (fd_inbox_ c)
  (coro_ c) (reads c) (trace c).
Definition set_paused x c := mkConn (state_ c) (fd_open c) (read_buf_ c) (write_buf_ c) (write_inflight_ c)
  (parse_need_ c) (backpressured_ c) x (group_ c) (idle_timer_ c) (batch_ c) (fd_inbox_ c)
  (coro_ c) (reads c) (trace c).
Definition set_group x c := mkConn (state_ c) (fd_open c) (read_buf_ c) (write_buf_ c) (write_inflight_ c)
  (parse_need_ c) (backpressured_ c) (read_paused_ c) x (idle_timer_ c) (batch_ c) (fd_inbox_ c)
  (coro_ c) (reads c) (trace c).
Definition set_idle x c := mkConn (state_ c) (fd_open c) (read_buf_ c) (write_buf_ c) (write_inflight_ c)
  (parse_need_ c) (backpressured_ c) (read_paused_ c) (group_ c) x (batch_ c) (fd_inbox_ c)
  (coro_ c) (reads c) (trace c).
Definition set_batch x c := mkConn (state_ c) (fd_open c) (read_buf_ c) (write_buf_ c) (write_inflight_ c)
  (parse_need_ c) (backpressured_ c) (read_paused_ c) (group_ c) (idle_timer_ c) x (fd_inbox_ c)
  (coro_ c) (reads c) (trace c).
Definition set_inbox x c := mkConn (state_ c) (fd_open c) (read_buf_ c) (write_buf_ c) (write_inflight_ c)
  (parse_need_ c) (backpressured_ c) (read_paused_ c) (group_ c) (idle_timer_ c) (batch_ c) x
  (coro_ c) (reads c) (trace c).
Definition set_coro x c := mkConn (state_ c) (fd_open c) (read_buf_ c) (write_buf_ c) (write_inflight_ c)
  (parse_need_ c) (backpressured_ c) (read_paused_ c) (group_ c) (idle_timer_ c) (batch_ c) (fd_inbox_ c)
  x (reads c) (trace c).
Definition set_reads x c := mkConn (state_ c) (fd_open c) (read_buf_ c) (write_buf_ c) (write_inflight_ c)
  (parse_need_ c) (backpressured_ c) (read_paused_ c) (group_ c) (idle_timer_ c) (batch_ c) (fd_inbox_ c)
  (coro_ c) x (trace c).
(** Appends to the trace. *)
Definition eff (e : Eff) (c : Connection) : Connection :=
  mkConn (state_ c) (fd_open c) (read_buf_ c) (write_buf_ c) (write_inflight_ c)
  (parse_need_ c) (backpressured_ c) (read_paused_ c) (group_ c) (idle_timer_ c) (batch_ c) (fd_inbox_ c)
  (coro_ c) (reads c) (trace c ++ [e]).

Definition upd_coro (f : CoroState -> CoroState) (c : Connection) : Connection := set_coro (f (coro_ c)) c.
Definition set_armed b k := mkCoro (recv_h k) (send_h k) (held k) (delivered k) b (on k).
Definition set_recv_h b k := mkCoro b (send_h k) (held k) (delivered k) (armed k) (on k).
Definition set_send_h b k := mkCoro (recv_h k) b (held k) (delivered k) (armed k) (on k).
Definition set_held l k := mkCoro (recv_h k) (send_h k) l (delivered k) (armed k) (on k).
Definition set_delivered l k := mkCoro (recv_h k) (send_h k) (held k) l (armed k) (on k).

Definition is_state (s : ConnState) (c : Connection) : bool := bool_decide (state_ c = s).

(** The application and the framework around the connection: the framer, the
    parameters, which optional handlers are installed, what application code
    does, whether the EventManager's loop is running, and what the backend does with
    receives, in each case given what happened so far: [takes_second], whether it
    takes a receive while one it took may still bring bytes; [drops], whether a
    cancelled receive is gone at once, or may still complete. *)
Record Receives := mkReceives { takes_second : list Eff -> bool; drops : list Eff -> bool }.
Context (parse : list Z -> ParseResult Msg)
        (params : Params)
        (installed : Callback -> bool)
        (react : list Eff -> Callback -> list UserOp)
        (is_running : list Eff -> bool)
        (receives : Receives).

(** [Connection(...)]: registered with its EventManager, not yet open. *)
Definition connection0 (coro : bool) : Connection :=
  mkConn Connecting true (Buffer.make (read_buffer_size params) 64) [] 0 0 false false true false [] []
    (mkCoro false None [] [] false coro) [] [].

(** ** Reads *)

(** [em_->submit_recv], whose result is ignored. *)
Definition submit_recv (off len : Z) (c : Connection) : Connection :=
  let c := eff (ESubmitRecv off len) c in
  let span := (off, len, Buffer.cap_ (read_buf_ c)) in
  match reads c with
  | [] => set_reads [span] c
  | rs => if takes_second receives (trace c) then set_reads (rs ++ [span]) c else c
  end.

Definition arm_recv (c : Connection) : option Connection :=
  if read_paused_ c || negb (is_state Established c) then Some c
  else
    '(b, (off, len)) ← Buffer.writable (Z.max (parse_need_ c) 4096) (read_buf_ c);
    Some (submit_recv off len (set_rb b c)).

Definition arm_drain_recv (c : Connection) : option Connection :=
  if negb (fd_open c) then Some c
  else
    '(b, (off, len)) ← Buffer.writable 4096 (read_buf_ c);
    Some (submit_recv off len (set_rb b c)).

Definition rearm_recv (c : Connection) : option Connection :=
  if on (coro_ c) then
    if negb (armed (coro_ c)) then arm_recv (upd_coro (set_armed true) c) else Some c
  else arm_recv c.

Definition pause_reads (c : Connection) : Connection :=
  let c := eff ECancelRecv (set_paused true c) in
  if drops receives (trace c) then set_reads [] c else c.

(** ** Timers *)

Definition arm_idle_timer (c : Connection) : Connection :=
  if idle_read_timeout params =? 0 then c
  else
    let c := if idle_timer_ c then eff ECancelIdle c else c in
    set_idle true (eff EArmIdle c).

(** ** Operations

    Each takes [cb], what running a callback does to the connection. *)

Section Operations.
Context (cb : Callback -> Connection -> option Connection).

(** A handler that is not installed is not called. *)
Definition call (k : Callback) (c : Connection) : option Connection :=
  if installed k then cb k c else Some c.

(** Resuming a parked coroutine. *)
Definition resume (k : Callback) (c : Connection) : option Connection := cb k c.

(** The coroutine waiters that [teardown] wakes with an error. *)
Definition wake_recv_closed (c : Connection) : option Connection :=
  if recv_h (coro_ c)
  then resume (CbResumeRecv (Bad (make_error Net Closed))) (upd_coro (set_recv_h false) c)
  else Some c.
Definition wake_send_closed (c : Connection) : option Connection :=
  if send_h (coro_ c) is Some _
  then resume (CbResumeSend RClosed) (upd_coro (set_send_h None) c)
  else Some c.

Definition teardown (r : CloseReason) (c : Connection) : option Connection :=
  let c := if fd_open c then set_reads [] (set_fd false (eff ECloseFd (eff EDetach c))) else c in
  let c := if group_ c then set_group false (eff ECancelGroup c) else c in
  let c := eff (EStat ConnsClosed 1) c in
  c ← call (CbClose r) c;
  let c := set_state SClosed (eff EReleaseSink c) in
  c ← wake_recv_closed c;
  c ← wake_send_closed c;
  Some (eff (if is_running (trace c) then EDeferNotify r else ENotify r) c).

Definition close (r : CloseReason) (c : Connection) : option Connection :=
  if is_state Closing c || is_state SClosed c then Some c
  else teardown r (set_state Closing c).

Definition check_write_watermark (c : Connection) : Connection :=
  if negb (backpressured_ c) && (write_high_watermark (flow params) <=? zlen (write_buf_ c)) then
    let c := eff (EStat WriteHwmHits 1) (set_bp true c) in
    let c := if auto_pause_reads (flow params) then pause_reads c else c in
    eff (ERecord RecBackpressure (zlen (write_buf_ c))) c
  else c.

(** [writable], [memcpy] and [commit] on [write_buf_]. *)
Definition queue_bytes (bs : list Z) (c : Connection) : Connection :=
  eff (EQueue bs) (set_wb (write_buf_ c ++ bs) c).
(** [write_buf_.consume(n)]. *)
Definition consume_bytes (n : Z) (c : Connection) : Connection :=
  set_wb (drop (Z.to_nat n) (write_buf_ c)) c.

Definition apply_overflow (bs : list Z) (c : Connection) : option (SendResult * Connection) :=
  let c := eff (EStat WriteHwmHits 1) c in
  match on_overflow (flow params) with
  | Disconnect => c ← close WriteOverflowed c; Some (RClosed, c)
  | DropNewest => Some (Dropped, eff (EStat WriteDrops 1) c)
  | DropOldest =>
      let c := consume_bytes (zlen bs) (eff (EStat WriteDrops 1) c) in
      Some (Queued, eff ENoteWrite (queue_bytes bs c))
  | StopReading => Some (Backpressured, eff ENoteWrite (queue_bytes bs (pause_reads c)))
  end.

Definition apply_overflow_parts (parts : list (list Z)) (c : Connection) : option (SendResult * Connection) :=
  let c := eff (EStat WriteHwmHits 1) c in
  match on_overflow (flow params) with
  | Disconnect => c ← close WriteOverflowed c; Some (RClosed, c)
  | DropNewest => Some (Dropped, eff (EStat WriteDrops 1) c)
  | DropOldest =>
      let c := foldl (fun c p => consume_bytes (zlen p) c) (eff (EStat WriteDrops 1) c) parts in
      Some (Queued, eff ENoteWrite (foldl (fun c p => queue_bytes p c) c parts))
  | StopReading =>
      Some (Backpressured, eff ENoteWrite (foldl (fun c p => queue_bytes p c) (pause_reads c) parts))
  end.

Definition send (bs : list Z) (c : Connection) : option (SendResult * Connection) :=
  if negb (is_state Established c) then Some (RClosed, c)
  else if write_high_watermark (flow params) <? zlen (write_buf_ c) + zlen bs then apply_overflow bs c
  else Some (Queued, check_write_watermark (eff ENoteWrite (queue_bytes bs c))).

Definition send_scatter (parts : list (list Z)) (c : Connection) : option (SendResult * Connection) :=
  if negb (is_state Established c) then Some (RClosed, c)
  else if write_high_watermark (flow params) <? zlen (write_buf_ c) + zlen (concat parts)
  then apply_overflow_parts parts c
  else Some (Queued, check_write_watermark (eff ENoteWrite (foldl (fun c p => queue_bytes p c) c parts))).

Definition shutdown_write (c : Connection) : Connection :=
  if negb (is_state Established c) then c
  else
    let c := arm_idle_timer (set_state ShutdownWrite c) in
    if (write_inflight_ c =? 0) && bool_decide (write_buf_ c = []) && fd_open c
    then eff EShutdownWr c else c.

(** ** Coroutine sessions *)

Definition coro_recv_ready (c : Connection) : Connection :=
  match held (coro_ c) with
  | [] => c
  | ms => upd_coro (fun k => set_held [] (set_delivered ms k)) c
  end.

Definition coro_await_recv (c : Connection) : option Connection :=
  let c := upd_coro (set_recv_h true) c in
  if negb (armed (coro_ c)) then arm_recv (upd_coro (set_armed true) c) else Some c.

Definition coro_await_send (bs : list Z) (c : Connection) : Connection := upd_coro (set_send_h (Some bs)) c.
Definition coro_unawait_recv (c : Connection) : Connection := upd_coro (set_recv_h false) c.
Definition coro_unawait_send (c : Connection) : Connection := upd_coro (set_send_h None) c.

Definition coro_writable (c : Connection) : option Connection :=
  match send_h (coro_ c) with
  | None => Some c
  | Some bs =>
      '(r, c) ← send bs c;
      if bool_decide (r = Backpressured) then Some c
      else resume (CbResumeSend r) (coro_unawait_send c)
  end.

(** ** Completions *)

Definition start (c : Connection) : option Connection :=
  let c := set_state Established c in
  let c := if p_timestamping params then eff ESetTimestamping c else c in
  let c := if fd_passing params then eff ESetInbox c else c in
  c ← call CbOpen c;
  rearm_recv (arm_idle_timer c).

Definition on_connect_result (result : Z) (c : Connection) : option Connection :=
  if negb (is_state Connecting c) then Some c
  else if result <? 0 then
    if result =? - Epoll.ECANCELED then Some c else close CConnectFailed c
  else start c.

Definition deliver_fds (flags : Z) (c : Connection) : option Connection :=
  c ← (if Epoll.any flags FdTrunc
       then call (CbError (make_error Net Truncated)) (eff (EStat FrameErrors 1) c) else Some c);
  let fds := fd_inbox_ c in
  c ← (if installed (CbFds fds) then cb (CbFds fds) c
       else Some (foldl (fun c f => eff (ECloseRight f) c) c fds));
  Some (set_inbox [] c).

Definition dispatch_batch (c : Connection) : option Connection :=
  let c := eff (EStat MsgsIn 1) c in
  if on (coro_ c) then
    if recv_h (coro_ c) then resume (CbResumeRecv (Val (batch_ c))) (coro_unawait_recv c)
    else if (length (held (coro_ c)) + length (batch_ c) <=? kCoroHeldCap)%nat
    then Some (upd_coro (fun k => set_held (held k ++ batch_ c) k) c)
    else close HeldOverflow c
  else call (CbMessages (batch_ c)) c.

(** The [for (;;)] of [on_recv]; [true] when the function goes on after it.  Each
    iteration that does not leave the loop consumes input, which bounds it. *)
Fixpoint parse_loop (fuel : nat) (c : Connection) : option (bool * Connection) :=
  match fuel with
  | O => None
  | S fuel =>
      match parse (Buffer.readable (read_buf_ c)) with
      | PNeedMore n => Some (true, set_need n c)
      | PError e =>
          c ← call (CbError e) (eff (EStat FrameErrors 1) c);
          c ← close FrameError c;
          Some (false, c)
      | PMessage m k =>
          let c := set_batch (batch_ c ++ [m]) c in
          let c := set_need 0 (set_rb (Buffer.consume k (read_buf_ c)) c) in
          if (length (batch_ c) =? kBatchCap)%nat then
            c ← dispatch_batch c;
            let c := set_batch [] c in
            if negb (is_state Established c) then Some (false, c) else parse_loop fuel c
          else parse_loop fuel c
      end
  end.

Definition on_recv (result flags : Z) (c : Connection) : option Connection :=
  let c := if on (coro_ c) then upd_coro (set_armed false) c else c in
  if negb (is_state Established c) then
    if on (coro_ c) || negb (is_state ShutdownWrite c) then Some c
    else if result =? 0 then close PeerFin c
    else if (result <? 0) && negb (result =? - Epoll.EAGAIN) && negb (result =? - Epoll.ECANCELED)
    then close CError c
    else arm_drain_recv (arm_idle_timer c)
  else if result <? 0 then
    if (result =? - Epoll.EAGAIN) || (result =? - Epoll.ECANCELED) then rearm_recv c else close CError c
  else if result =? 0 then close PeerFin c
  else
    b ← Buffer.commit result (read_buf_ c);
    let c := eff (ERecord RecRecv (u32 result)) (eff (EStat BytesIn result) (set_rb b c)) in
    c ← (if Epoll.any flags (Z.lor HasFds FdTrunc) then deliver_fds flags c else Some c);
    let c := set_batch [] (arm_idle_timer c) in
    '(more, c) ← parse_loop (S (Z.to_nat (Buffer.size (read_buf_ c)))) c;
    if negb more then Some c
    else
      c ← (if bool_decide (batch_ c = []) then Some c else dispatch_batch c);
      if is_state Established c && negb (on (coro_ c)) then arm_recv c
      else if is_state ShutdownWrite c && negb (on (coro_ c)) then arm_drain_recv c
      else Some c.

Definition flush_write (c : Connection) : Connection :=
  if negb (write_inflight_ c =? 0) || bool_decide (write_buf_ c = []) then c
  else if negb (is_state Established c) && negb (is_state ShutdownWrite c) then c
  else eff (ESubmitSend (write_buf_ c)) (set_inflight (zlen (write_buf_ c)) c).

(** The writable edge of [on_sent]. *)
Definition relieve (c : Connection) : option Connection :=
  if backpressured_ c && (zlen (write_buf_ c) <=? write_low_watermark (flow params)) then
    let c := set_bp false c in
    c ← (if read_paused_ c then rearm_recv (set_paused false c) else Some c);
    if on (coro_ c) then coro_writable c
    else if installed CbWritable && is_state Established c then cb CbWritable c else Some c
  else Some c.

Definition on_sent (result : Z) (c : Connection) : option Connection :=
  let c := set_inflight 0 c in
  if result <? 0 then
    if result =? - Epoll.ECANCELED then Some c else close CError c
  else
    let c := eff (ERecord RecSend (u32 result)) (eff (EStat BytesOut result) (consume_bytes result c)) in
    let c := if is_state ShutdownWrite c && bool_decide (write_buf_ c = []) && fd_open c
             then eff EShutdownWr c else c in
    c ← relieve c;
    Some (if bool_decide (write_buf_ c = []) then c else eff ENoteWrite c).

Definition on_completion (kind : OpKind) (result flags : Z) (c : Connection) : option Connection :=
  match kind with
  | OpConnect => on_connect_result result c
  | OpRecv => on_recv result flags c
  | OpSend => on_sent result c
  | OpFlushWrite => Some (flush_write c)
  | _ => Some c
  end.

(** [resolve]: [live] says whether the sink table still holds the handle. *)
Definition resolve (live : bool) (c : Connection) : option Connection :=
  if live && negb (is_state SClosed c) then Some c else None.

(** The tasks [Handle::send] and [Handle::close] post to the owning thread. *)
Definition handle_send_task (live : bool) (bs : list Z) (c : Connection) : option Connection :=
  match resolve live c with Some c => snd <$> send bs c | None => Some c end.
Definition handle_close_task (live : bool) (c : Connection) : option Connection :=
  match resolve live c with Some c => close LocalClose c | None => Some c end.

(** The destructor. *)
Definition destroy (c : Connection) : Connection :=
  let c := if fd_open c then eff ECloseFd (eff EDetach c) else c in
  if group_ c then eff ECancelGroup c else c.

(** One operation of application code. *)
Definition user_op (o : UserOp) (c : Connection) : option Connection :=
  match o with
  | USend bs => snd <$> send bs c
  | USendScatter parts => snd <$> send_scatter parts c
  | UShutdownWrite => Some (shutdown_write c)
  | UClose r => close r c
  | URecvReady => Some (coro_recv_ready c)
  | UAwaitRecv => coro_await_recv c
  | UAwaitSend bs => Some (coro_await_send bs c)
  | UUnawaitRecv => Some (coro_unawait_recv c)
  | UUnawaitSend => Some (coro_unawait_send c)
  end.

End Operations.

(** ** Application code *)

Fixpoint run_ops (f : UserOp -> Connection -> option Connection) (os : list UserOp) (c : Connection)
    : option Connection :=
  match os with
  | [] => Some c
  | o :: os => c ← f o c; run_ops f os c
  end.

(** Running a callback: the operations [react] lists for it, one after another;
    callbacks they cause nest, up to the given depth. *)
Fixpoint run_cb (depth : nat) (k : Callback) (c : Connection) : option Connection :=
  match depth with
  | O => None
  | S d =>
      let c := eff (ECall k) c in
      run_ops (user_op (run_cb d)) (react (trace c) k) c
  end.

(** A close runs callbacks from inside a callback, and nothing runs a callback
    from inside those: two levels are all there are ([run_cb_total]). *)
Definition app : Callback -> Connection -> option Connection := run_cb 2.


(** ** Observations on a trace *)

Definition msg_of (e : Eff) : list Msg := match e with ECall (CbMessages ms) => ms | _ => [] end.
Definition queued_of (e : Eff) : list Z := match e with EQueue bs => bs | _ => [] end.
Definition sub_of (e : Eff) : list (list Z) := match e with ESubmitSend bs => [bs] | _ => [] end.
Definition end_of (e : Eff) : list Eff :=
  match e with
  | ECloseFd | EReleaseSink | EDeferNotify _ | ENotify _ | ECall (CbClose _) => [e]
  | _ => []
  end.

(** The messages handed to the application, the bytes queued for sending, the
    sends submitted, and the steps of closing, in order. *)
Definition msgs (t : list Eff) : list Msg := concat (map msg_of t).
Definition queued (t : list Eff) : list Z := concat (map queued_of t).
Definition subs (t : list Eff) : list (list Z) := concat (map sub_of t).
Definition closing (t : list Eff) : list Eff := concat (map end_of t).

Lemma msgs_app t u : msgs (t ++ u) = msgs t ++ msgs u.
Proof. unfold msgs. by rewrite map_app, concat_app. Qed.
Lemma queued_app t u : queued (t ++ u) = queued t ++ queued u.
Proof. unfold queued. by rewrite map_app, concat_app. Qed.
Lemma subs_app t u : subs (t ++ u) = subs t ++ subs u.
Proof. unfold subs. by rewrite map_app, concat_app. Qed.
Lemma closing_app t u : closing (t ++ u) = closing t ++ closing u.
Proof. unfold closing. by rewrite map_app, concat_app. Qed.

(** ** Invariants *)

(** The read buffer is well formed and has room for what the framer asks. *)
Record buf_ok (c : Connection) : Prop := {
  bo_io : Buffer.io_ok (read_buf_ c);
  bo_roomy : Buffer.roomy (read_buf_ c);
  bo_head : Buffer.headroom_ (read_buf_ c) = 64;
  bo_size : Buffer.size_ (read_buf_ c) < 2 ^ 59;
  bo_need : 0 <= parse_need_ c < 2 ^ 60 }.

(** What a close does, in this order: the descriptor is closed, [on_close] runs,
    the sink is released, the owner is notified. *)
Definition closing_seq (r : CloseReason) (n : Eff) : list Eff :=
  [ECloseFd] ++ (if installed (CbClose r) then [ECall (CbClose r)] else []) ++ [EReleaseSink; n].

Definition is_open (c : Connection) : Prop :=
  state_ c = Connecting \/ state_ c = Established \/ state_ c = ShutdownWrite.

(** Between events a connection is open and has done none of that, or closed and
    has done it exactly once. *)
Definition life (c : Connection) : Prop :=
  is_open c /\ fd_open c = true /\ closing (trace c) = []
  \/ state_ c = SClosed /\ fd_open c = false /\
     exists r n, (n = EDeferNotify r \/ n = ENotify r) /\ closing (trace c) = closing_seq r n.

Definition inv (c : Connection) : Prop := buf_ok c /\ life c.

(** Not yet asked to stop: the read side is live or will be. *)
Definition active (c : Connection) : Prop := state_ c = Connecting \/ state_ c = Established.

(** [c'] comes from [c] by operations that neither deliver messages nor submit
    sends nor touch what has been received; under [P] the read side is untouched
    but for a read that may have been cancelled. *)
Record follows (P : Prop) (c c' : Connection) : Prop := {
  f_rd : Buffer.readable (read_buf_ c') = Buffer.readable (read_buf_ c);
  f_need : parse_need_ c' = parse_need_ c;
  f_batch : batch_ c' = batch_ c;
  f_on : on (coro_ c') = on (coro_ c);
  f_infl : write_inflight_ c' = write_inflight_ c;
  f_state : active c' -> state_ c' = state_ c;
  f_trace : exists l, trace c' = trace c ++ l /\ msgs l = [] /\ subs l = []
    /\ (on_overflow (flow params) <> DropOldest -> write_buf_ c' = write_buf_ c ++ queued l);
  f_same : P -> read_buf_ c' = read_buf_ c /\ (reads c' = reads c \/ reads c' = []) }.

Lemma follows_refl P c : follows P c c.
Proof. constructor; try done; [|naive_solver]. exists []. by rewrite !app_nil_r. Qed.

Lemma follows_trans P c1 c2 c3 : follows P c1 c2 -> follows P c2 c3 -> follows P c1 c3.
Proof.
  intros [R1 N1 B1 O1 I1 S1 (l1&T1&M1&U1&W1) P1] [R2 N2 B2 O2 I2 S2 (l2&T2&M2&U2&W2) P2].
  constructor; try congruence.
  - intros Ha. rewrite (S2 Ha). apply S1. unfold active in *. by rewrite <- (S2 Ha).
  - exists (l1 ++ l2). rewrite msgs_app, subs_app, queued_app, M1, M2, U1, U2, T2, T1, app_assoc.
    repeat split; try done. intros Hp. by rewrite W2, W1, app_assoc.
  - intros p. destruct (P1 p) as (?&H1), (P2 p) as (?&H2).
    split; [congruence|]. destruct H2 as [->|]; [|by right]. done.
Qed.

(** A step that leaves the fields the invariants speak of alone. *)
Lemma follows_frame P c c' l :
  read_buf_ c' = read_buf_ c -> parse_need_ c' = parse_need_ c -> batch_ c' = batch_ c ->
  on (coro_ c') = on (coro_ c) -> write_inflight_ c' = write_inflight_ c ->
  (active c' -> state_ c' = state_ c) ->
  (reads c' = reads c \/ reads c' = []) ->
  trace c' = trace c ++ l -> msgs l = [] -> subs l = [] ->
  (on_overflow (flow params) <> DropOldest -> write_buf_ c' = write_buf_ c ++ queued l) ->
  follows P c c'.
Proof. intros E1 E2 E3 E4 E5 E6 E7 E8 E9 E10 E11. constructor; try congruence; [done|by exists l|done]. Qed.

Lemma inv_frame c c' l :
  inv c -> read_buf_ c' = read_buf_ c -> parse_need_ c' = parse_need_ c ->
  state_ c' = state_ c \/ state_ c = Established /\ state_ c' = ShutdownWrite ->
  fd_open c' = fd_open c -> trace c' = trace c ++ l -> closing l = [] -> inv c'.
Proof.
  intros [[B1 B2 B3 B4 B5] L] E1 E2 E3 E4 E5 E6. split; [constructor; by rewrite ?E1, ?E2|].
  unfold life, is_open in *. rewrite E4, E5, closing_app, E6, app_nil_r.
  destruct E3 as [->|[E3 ->]]; [done|]. rewrite E3 in L. destruct L as [L|[L _]]; [|done].
  left. naive_solver.
Qed.

(** An operation on a connection in good order succeeds, keeps it so, and
    follows. *)
Definition ok (P : Prop) (c : Connection) (x : option Connection) : Prop :=
  exists c', x = Some c' /\ inv c' /\ follows P c c'.

Lemma ok_ret P c c' l :
  inv c -> read_buf_ c' = read_buf_ c -> parse_need_ c' = parse_need_ c -> batch_ c' = batch_ c ->
  on (coro_ c') = on (coro_ c) -> write_inflight_ c' = write_inflight_ c ->
  state_ c' = state_ c \/ state_ c = Established /\ state_ c' = ShutdownWrite ->
  (reads c' = reads c \/ reads c' = []) -> fd_open c' = fd_open c ->
  trace c' = trace c ++ l -> closing l = [] -> msgs l = [] -> subs l = [] ->
  (on_overflow (flow params) <> DropOldest -> write_buf_ c' = write_buf_ c ++ queued l) ->
  ok P c (Some c').
Proof.
  intros. exists c'. split; [done|]. split; [by eapply inv_frame|].
  eapply follows_frame; try done. unfold active. intuition congruence.
Qed.

Lemma ok_bind P c x (f : Connection -> option Connection) :
  ok P c x -> (forall c', inv c' -> follows P c c' -> ok P c' (f c')) -> ok P c (x ≫= f).
Proof.
  intros (c1&->&I1&F1) H. simpl. destruct (H c1 I1 F1) as (c2&E&I2&F2).
  exists c2. split; [done|]. split; [done|]. by eapply follows_trans.
Qed.

Lemma ok_refl P c : inv c -> ok P c (Some c).
Proof. intros. exists c. split; [done|]. split; [done|apply follows_refl]. Qed.

(** ** A connection that is closing *)

(** Operations of callback-style applications. *)
Definition callback_op (o : UserOp) : Prop :=
  match o with USend _ | USendScatter _ | UShutdownWrite | UClose _ => True | _ => False end.
Definition callback_app : Prop := forall t k, Forall callback_op (react t k).

Definition dead (c : Connection) : Prop := state_ c = Closing \/ state_ c = SClosed.

Lemma dead_not_established c : dead c -> is_state Established c = false.
Proof. intros [H|H]; unfold is_state; rewrite H; done. Qed.

Lemma dead_stops c : dead c -> (is_state Closing c || is_state SClosed c)%bool = true.
Proof. intros [H|H]; unfold is_state; rewrite H; done. Qed.

Lemma set_coro_id c : set_coro (coro_ c) c = c.
Proof. by destruct c. Qed.

Lemma dead_set_coro k c : dead (set_coro k c) <-> dead c.
Proof. done. Qed.

Lemma arm_recv_dead c : is_state Established c = false -> arm_recv c = Some c.
Proof. intros He. unfold arm_recv. by rewrite He, orb_true_r. Qed.

(** Nothing an application does to a closing connection has an effect on it. *)
Lemma dead_op cb o c :
  dead c -> exists k, user_op cb o c = Some (set_coro k c) /\ on k = on (coro_ c).
Proof.
  intros Hd. pose proof (dead_not_established c Hd) as He. pose proof (dead_stops c Hd) as Hs.
  destruct o; cbn [user_op]; unfold send, send_scatter, shutdown_write, close; rewrite ?He, ?Hs; cbn [negb fmap option_fmap option_map snd].
  1-4: exists (coro_ c); by rewrite set_coro_id.
  - unfold coro_recv_ready. destruct (held (coro_ c)) eqn:Eh; [exists (coro_ c); by rewrite set_coro_id|].
    by eexists.
  - unfold coro_await_recv, upd_coro.
    destruct (negb (armed _)); [rewrite arm_recv_dead by exact He|]; eexists; split; reflexivity.
  - by eexists.
  - by eexists.
  - by eexists.
Qed.

Lemma dead_ops cb os c :
  dead c -> exists k, run_ops (user_op cb) os c = Some (set_coro k c) /\ on k = on (coro_ c).
Proof.
  revert c. induction os as [|o os IH]; intros c Hd; simpl.
  { exists (coro_ c). by rewrite set_coro_id. }
  destruct (dead_op cb o c Hd) as (k&->&Hk). simpl.
  destruct (IH (set_coro k c)) as (k'&->&Hk'); [by apply dead_set_coro|].
  exists k'. split; [done|]. rewrite Hk'. done.
Qed.

Lemma dead_cb d k c :
  dead c -> exists k', run_cb (S d) k c = Some (set_coro k' (eff (ECall k) c)) /\ on k' = on (coro_ c).
Proof. intros Hd. simpl. by apply (dead_ops (run_cb d) _ (eff (ECall k) c)). Qed.

(** The effects a call adds when a handler is there or a coroutine is parked. *)
Definition calm (l : list Eff) : Prop := msgs l = [] /\ subs l = [] /\ queued l = [].

Lemma calm_app l l' : calm l -> calm l' -> calm (l ++ l').
Proof. unfold calm. rewrite msgs_app, subs_app, queued_app. by intros (->&->&->) (->&->&->). Qed.

(** [c'] is [c] with a longer trace and other coroutine waiters. *)
Definition with_trace (t : list Eff) (k : CoroState) (c : Connection) : Connection :=
  mkConn (state_ c) (fd_open c) (read_buf_ c) (write_buf_ c) (write_inflight_ c)
    (parse_need_ c) (backpressured_ c) (read_paused_ c) (group_ c) (idle_timer_ c) (batch_ c) (fd_inbox_ c)
    k (reads c) t.
Definition traced (l : list Eff) (c c' : Connection) : Prop :=
  exists k, on k = on (coro_ c) /\ c' = with_trace (trace c ++ l) k c.

Lemma eff_wt e t k c : eff e (with_trace t k c) = with_trace (t ++ [e]) k c.
Proof. reflexivity. Qed.
Lemma wt_wt t k t' k' c : with_trace t k (with_trace t' k' c) = with_trace t k c.
Proof. reflexivity. Qed.
Lemma state_wt x t k c : set_state x (with_trace t k c) = with_trace t k (set_state x c).
Proof. reflexivity. Qed.

Lemma traced_refl c : traced [] c c.
Proof. exists (coro_ c). rewrite app_nil_r. by destruct c. Qed.

Lemma traced_trans l1 l2 c1 c2 c3 : traced l1 c1 c2 -> traced l2 c2 c3 -> traced (l1 ++ l2) c1 c3.
Proof.
  intros (k1&O1&->) (k2&O2&->). exists k2. rewrite O2. split; [done|].
  unfold with_trace. cbn. by rewrite app_assoc.
Qed.

Lemma traced_dead l c c' : traced l c c' -> dead c -> dead c'.
Proof. by intros (k&_&->). Qed.

Lemma cb_dead d k c : dead c -> exists c', run_cb (S d) k c = Some c' /\ traced [ECall k] c c'.
Proof. intros Hd. destruct (dead_cb d k c Hd) as (k'&->&Hk). eexists. split; [done|]. by exists k'. Qed.

Lemma call_dead d k c :
  dead c -> exists c', call (run_cb (S d)) k c = Some c'
    /\ traced (if installed k then [ECall k] else []) c c'.
Proof.
  intros Hd. unfold call. destruct (installed k); [by apply cb_dead|].
  exists c. split; [done|apply traced_refl].
Qed.

Lemma wake_recv_dead d c :
  dead c -> exists c' l, wake_recv_closed (run_cb (S d)) c = Some c' /\ traced l c c'
    /\ calm l /\ closing l = [].
Proof.
  intros Hd. unfold wake_recv_closed. destruct (recv_h _); [|exists c, []; split; [done|]; split; [apply traced_refl|done]].
  destruct (cb_dead d (CbResumeRecv (Bad (make_error Net Closed))) (upd_coro (set_recv_h false) c) Hd)
    as (c'&E&(k&Hk&Ec)).
  eexists c', _. split; [exact E|]. split; [exists k; split; [exact Hk|exact Ec]|]. split; [repeat split|]; done.
Qed.

Lemma wake_send_dead d c :
  dead c -> exists c' l, wake_send_closed (run_cb (S d)) c = Some c' /\ traced l c c'
    /\ calm l /\ closing l = [].
Proof.
  intros Hd. unfold wake_send_closed. destruct (send_h _); [|exists c, []; split; [done|]; split; [apply traced_refl|done]].
  destruct (cb_dead d (CbResumeSend RClosed) (upd_coro (set_send_h None) c) Hd) as (c'&E&(k&Hk&Ec)).
  eexists c', _. split; [exact E|]. split; [exists k; split; [exact Hk|exact Ec]|]. split; [repeat split|]; done.
Qed.

(** [teardown] after its bookkeeping. *)
Lemma teardown_tail d r c :
  dead c ->
  exists k l n,
    (c ← call (run_cb (S d)) (CbClose r) c;
     let c := set_state SClosed (eff EReleaseSink c) in
     c ← wake_recv_closed (run_cb (S d)) c;
     c ← wake_send_closed (run_cb (S d)) c;
     Some (eff (if is_running (trace c) then EDeferNotify r else ENotify r) c))
      = Some (set_state SClosed (with_trace (trace c ++ l) k c))
    /\ on k = on (coro_ c) /\ calm l /\ (n = EDeferNotify r \/ n = ENotify r)
    /\ ECloseFd :: closing l = closing_seq r n.
Proof.
  intros Hd. destruct (call_dead d (CbClose r) c Hd) as (c1&->&(k1&O1&->)). cbn [mbind option_bind].
  rewrite eff_wt, state_wt. set (c0 := set_state SClosed c). set (c1 := with_trace _ k1 c0).
  assert (dead c1) as Hd1 by (by right).
  destruct (wake_recv_dead d c1 Hd1) as (c2&l2&->&(k2&O2&E2)&C2&K2). cbn [mbind option_bind].
  assert (dead c2) as Hd2 by (rewrite E2; by right).
  destruct (wake_send_dead d c2 Hd2) as (c3&l3&->&(k3&O3&->)&C3&K3). cbn [mbind option_bind].
  set (n := if is_running _ then _ else _).
  exists k3, ((if installed (CbClose r) then [ECall (CbClose r)] else []) ++ [EReleaseSink] ++ l2 ++ l3 ++ [n]), n.
  split; [|split; [|split; [|split]]].
  - rewrite eff_wt, E2, wt_wt. subst c1. rewrite wt_wt, state_wt. cbn [trace with_trace].
    by rewrite <- !app_assoc.
  - rewrite O3, E2. cbn [coro_ with_trace]. by rewrite O2.
  - repeat apply calm_app; try done; [|]; subst n; [by destruct (installed _)|by destruct (is_running _)].
  - subst n. destruct (is_running _); auto.
  - rewrite !closing_app, K2, K3. unfold closing_seq. assert (closing [n] = [n]) as -> by (subst n; by destruct (is_running _)).
    by destruct (installed (CbClose r)).
Qed.

(** Closing an open connection: it ends closed, having taken the closing steps
    once and in order, and nothing else of it has changed. *)
Lemma close_open d r c :
  is_open c -> fd_open c = true ->
  exists c' l n, close (run_cb (S d)) r c = Some c'
    /\ state_ c' = SClosed /\ fd_open c' = false /\ read_buf_ c' = read_buf_ c
    /\ write_buf_ c' = write_buf_ c /\ write_inflight_ c' = write_inflight_ c
    /\ parse_need_ c' = parse_need_ c /\ batch_ c' = batch_ c /\ on (coro_ c') = on (coro_ c)
    /\ reads c' = [] /\ trace c' = trace c ++ l /\ calm l
    /\ (n = EDeferNotify r \/ n = ENotify r) /\ closing l = closing_seq r n.
Proof.
  intros Ho Hf. unfold close.
  assert ((is_state Closing c || is_state SClosed c)%bool = false) as ->.
  { unfold is_state, is_open in *. destruct Ho as [H|[H|H]]; by rewrite H. }
  unfold teardown. cbn [fd_open set_state]. rewrite Hf. cbv zeta. cbn [group_ set_reads set_fd eff set_state].
  destruct (group_ c) eqn:Eg;
    (match goal with |- context [call _ (CbClose r) ?x] =>
       destruct (teardown_tail d r x) as (k&l&n&E&O&C&N&K); [by left|] end; cbv zeta in E; rewrite E; eexists _, _, n;
     split; [done|]; cbn [state_ fd_open read_buf_ write_buf_ write_inflight_ parse_need_ batch_ coro_ reads
       trace with_trace set_state eff set_group set_reads set_fd]; rewrite <- !app_assoc;
     do 7 (split; [reflexivity|]); split; [exact O|]; split; [reflexivity|]; split; [reflexivity|];
     split; [repeat apply calm_app; done|]; split; [exact N|]; rewrite !closing_app; exact K).
Qed.

Lemma close_ok d r P c : inv c -> ok P c (close (run_cb (S d)) r c).
Proof.
  intros [B L]. pose proof L as [(Ho&Hf&Hc)|(Hs&Hf&Hc)].
  - destruct (close_open d r c Ho Hf) as (c'&l&n&E&S'&F'&R&W&I&N&Ba&On&Sp&T&(M&U&Q)&Hn&K).
    exists c'. split; [done|]. split.
    + split; [destruct B; constructor; by rewrite ?R, ?N|]. right. split; [done|]. split; [done|].
      exists r, n. split; [done|]. by rewrite T, closing_app, Hc, K.
    + constructor; try congruence; [unfold active; rewrite S'; by intros [|]| |].
      * exists l. split; [done|]. split; [done|]. split; [done|]. intros _. by rewrite Q, app_nil_r, W.
      * intros _. split; [done|by right].
  - unfold close. rewrite dead_stops by (by right). apply ok_refl. by split.
Qed.

(** ** Operations keep a connection in good order *)

Lemma ok_then P c c1 x : ok P c (Some c1) -> (inv c1 -> ok P c1 x) -> ok P c x.
Proof.
  intros (c'&Ec&I1&F1) Hx. injection Ec as <-. destruct (Hx I1) as (c2&->&I2&F2).
  exists c2. split; [done|]. split; [done|]. by eapply follows_trans.
Qed.

(** Steps that only write fields the invariants do not constrain. *)
Ltac ok_step l := eapply (ok_ret _ _ _ l); cbn; auto.

Lemma eff_ok P e c :
  end_of e = [] -> msg_of e = [] -> sub_of e = [] -> queued_of e = [] -> inv c -> ok P c (Some (eff e c)).
Proof.
  intros H1 H2 H3 H4 I. ok_step [e]; unfold closing, msgs, subs, queued; simpl;
    rewrite ?H1, ?H2, ?H3, ?H4; by rewrite ?app_nil_r.
Qed.

Lemma pause_reads_ok P c : inv c -> ok P c (Some (pause_reads c)).
Proof. intros I. unfold pause_reads. cbv zeta. case_match; ok_step [@ECancelRecv]; by rewrite app_nil_r. Qed.

Lemma queue_bytes_ok P bs c : inv c -> ok P c (Some (queue_bytes bs c)).
Proof. intros I. ok_step [EQueue bs]. intros _. unfold queued. simpl. by rewrite app_nil_r. Qed.

Lemma queue_parts_ok P parts c : inv c -> ok P c (Some (foldl (fun c p => queue_bytes p c) c parts)).
Proof.
  revert c. induction parts as [|p parts IH]; intros c I; simpl; [by apply ok_refl|].
  eapply ok_then; [by apply queue_bytes_ok|]. apply IH.
Qed.

(** Dropping queued bytes, which only the policy [DropOldest] does. *)
Lemma consume_bytes_ok P n c :
  on_overflow (flow params) = DropOldest -> inv c -> ok P c (Some (consume_bytes n c)).
Proof. intros Hp I. ok_step (@nil Eff); [by rewrite app_nil_r|done]. Qed.

Lemma consume_parts_ok P (parts : list (list Z)) c :
  on_overflow (flow params) = DropOldest -> inv c ->
  ok P c (Some (foldl (fun c p => consume_bytes (zlen p) c) c parts)).
Proof.
  intros Hp. revert c. induction parts as [|p parts IH]; intros c I; simpl; [by apply ok_refl|].
  eapply ok_then; [by apply consume_bytes_ok|]. apply IH.
Qed.

Lemma check_write_watermark_ok P c : inv c -> ok P c (Some (check_write_watermark c)).
Proof.
  intros I. unfold check_write_watermark. case_test; [|by apply ok_refl].
  eapply (ok_then _ _ (eff (EStat WriteHwmHits 1) (set_bp true c))); [ok_step [EStat WriteHwmHits 1]; by rewrite app_nil_r|].
  intros I1. destruct (auto_pause_reads _).
  - eapply ok_then; [by apply pause_reads_ok|]. by apply eff_ok.
  - by apply eff_ok.
Qed.

Lemma arm_idle_timer_ok P c : inv c -> ok P c (Some (arm_idle_timer c)).
Proof.
  intros I. unfold arm_idle_timer. case_test; [by apply ok_refl|]. destruct (idle_timer_ c).
  - ok_step [@ECancelIdle; EArmIdle]; [by rewrite <- app_assoc|by rewrite app_nil_r].
  - ok_step [@EArmIdle]. by rewrite app_nil_r.
Qed.

(** A result of [send]. *)
Definition ok2 (P : Prop) (c : Connection) (x : option (SendResult * Connection)) : Prop :=
  exists r c', x = Some (r, c') /\ inv c' /\ follows P c c'.

Lemma ok2_ret P c r c' : ok P c (Some c') -> ok2 P c (Some (r, c')).
Proof. intros (c1&Ec&I&F). injection Ec as <-. by exists r, c'. Qed.

Lemma ok2_bind P c x r : ok P c x -> ok2 P c (x ≫= fun c => Some (r, c)).
Proof. intros (c'&->&I&F). by exists r, c'. Qed.

Lemma ok2_snd P c x : ok2 P c x -> ok P c (snd <$> x).
Proof. intros (r&c'&->&I&F). by exists c'. Qed.

Lemma apply_overflow_ok d P bs c : inv c -> ok2 P c (apply_overflow (run_cb (S d)) bs c).
Proof.
  intros I. unfold apply_overflow. pose proof (eff_ok P (EStat WriteHwmHits 1) c eq_refl eq_refl eq_refl eq_refl I) as E1.
  destruct (on_overflow (flow params)) eqn:Hp.
  - apply ok2_bind. eapply ok_then; [exact E1|]. apply close_ok.
  - apply ok2_ret. eapply ok_then; [exact E1|]. by apply eff_ok.
  - apply ok2_ret. eapply ok_then; [exact E1|]. intros I1. eapply ok_then; [by apply (eff_ok P (EStat WriteDrops 1))|].
    intros I2. eapply ok_then; [by apply consume_bytes_ok|]. intros I3.
    eapply ok_then; [by apply queue_bytes_ok|]. by apply eff_ok.
  - apply ok2_ret. eapply ok_then; [exact E1|]. intros I1. eapply ok_then; [by apply pause_reads_ok|].
    intros I2. eapply ok_then; [by apply queue_bytes_ok|]. by apply eff_ok.
Qed.

Lemma apply_overflow_parts_ok d P parts c : inv c -> ok2 P c (apply_overflow_parts (run_cb (S d)) parts c).
Proof.
  intros I. unfold apply_overflow_parts. pose proof (eff_ok P (EStat WriteHwmHits 1) c eq_refl eq_refl eq_refl eq_refl I) as E1.
  destruct (on_overflow (flow params)) eqn:Hp.
  - apply ok2_bind. eapply ok_then; [exact E1|]. apply close_ok.
  - apply ok2_ret. eapply ok_then; [exact E1|]. by apply eff_ok.
  - apply ok2_ret. eapply ok_then; [exact E1|]. intros I1. eapply ok_then; [by apply (eff_ok P (EStat WriteDrops 1))|].
    intros I2. eapply ok_then; [by apply consume_parts_ok|]. intros I3.
    eapply ok_then; [by apply queue_parts_ok|]. by apply eff_ok.
  - apply ok2_ret. eapply ok_then; [exact E1|]. intros I1. eapply ok_then; [by apply pause_reads_ok|].
    intros I2. eapply ok_then; [by apply queue_parts_ok|]. by apply eff_ok.
Qed.

Lemma send_ok d P bs c : inv c -> ok2 P c (send (run_cb (S d)) bs c).
Proof.
  intros I. unfold send. case_test; [by apply ok2_ret, ok_refl|]. case_test; [by apply apply_overflow_ok|].
  apply ok2_ret. eapply ok_then; [by apply queue_bytes_ok|]. intros I1.
  eapply ok_then; [by apply (eff_ok P ENoteWrite)|]. apply check_write_watermark_ok.
Qed.

Lemma send_scatter_ok d P parts c : inv c -> ok2 P c (send_scatter (run_cb (S d)) parts c).
Proof.
  intros I. unfold send_scatter. case_test; [by apply ok2_ret, ok_refl|]. case_test; [by apply apply_overflow_parts_ok|].
  apply ok2_ret. eapply ok_then; [by apply queue_parts_ok|]. intros I1.
  eapply ok_then; [by apply (eff_ok P ENoteWrite)|]. apply check_write_watermark_ok.
Qed.

Lemma shutdown_write_ok P c : inv c -> ok P c (Some (shutdown_write c)).
Proof.
  intros I. unfold shutdown_write. case_test; [by apply ok_refl|].
  assert (state_ c = Established) as Hs by (by apply bool_decide_eq_true in E).
  assert (ok P c (Some (set_state ShutdownWrite c))) as E1.
  { ok_step (@nil Eff); by rewrite app_nil_r. }
  eapply ok_then; [exact E1|]. intros I1. eapply ok_then; [by apply arm_idle_timer_ok|]. intros I2.
  case_test; [by apply eff_ok|by apply ok_refl].
Qed.

(** ** Arming reads *)

Lemma ok_weaken (P Q : Prop) c x : (P -> Q) -> ok Q c x -> ok P c x.
Proof.
  intros HPQ (c'&->&I&[F1 F2 F3 F4 F5 F6 F7 F8]). exists c'. split; [done|]. split; [done|].
  constructor; try done. intros p. by apply F8, HPQ.
Qed.

(** The backend holds one receive at a time. *)
Definition one_read : Prop := forall t, takes_second receives t = false.

(** There is at most one read in flight, and its span is the free tail of the read
    buffer, large enough for what another arming would ask. *)
Definition tail_ok (c : Connection) : Prop :=
  one_read /\
  match reads c with
  | [] => True
  | [(off, len, cap)] =>
      let b := read_buf_ c in
      off = Buffer.start_ b + Buffer.size_ b
      /\ len = Buffer.cap_ b - Buffer.start_ b - Buffer.size_ b
      /\ cap = Buffer.cap_ b /\ 4096 <= len /\ (active c -> parse_need_ c <= len)
  | _ => False
  end.

(** No read in flight. *)
Definition no_read (c : Connection) : Prop := one_read /\ reads c = [].

Lemma no_read_tail c : no_read c -> tail_ok c.
Proof. intros [H1 H2]. unfold tail_ok. by rewrite H2. Qed.

(** Getting a span of [n] bytes and submitting it. *)
Definition arm_span (n : Z) (c : Connection) : option Connection :=
  '(b, (off, len)) ← Buffer.writable n (read_buf_ c);
  Some (submit_recv off len (set_rb b c)).

Lemma arm_span_ok n c :
  inv c -> 0 <= n < 2 ^ 60 ->
  ok False c (arm_span n c)
  /\ (active c /\ n = Z.max (parse_need_ c) 4096 \/ ~ active c /\ n = 4096 ->
      tail_ok c -> forall c', arm_span n c = Some c' -> tail_ok c').
Proof.
  intros [[B1 B2 B3 B4 B5] L] Hn. unfold arm_span.
  destruct (Buffer.writable_ok n (read_buf_ c)) as (b&->&H1&H2&H3&H4&H5&H6&H7); [done|done|lia|lia|].
  cbn [mbind option_bind].
  set (off := Buffer.start_ b + Buffer.size_ b). set (len := Buffer.cap_ b - Buffer.start_ b - Buffer.size_ b).
  assert (exists rs, submit_recv off len (set_rb b c) = set_reads rs (eff (ESubmitRecv off len) (set_rb b c)) /\
    (one_read -> rs = match reads c with [] => [(off, len, Buffer.cap_ b)] | rs => rs end)) as (rs&->&Hrs).
  { unfold submit_recv. cbn [reads eff set_rb trace read_buf_]. destruct (reads c) as [|r rs] eqn:Er; [by eexists|].
    case_match eqn:Et; [|exists (r :: rs); split; [destruct c; simpl in Er; by subst|done]]. eexists. split; [done|]. intros Ho. by rewrite Ho in Et. }
  split.
  - eexists. split; [done|]. split; [split|].
    + constructor; cbn; congruence || lia.
    + unfold life, is_open in *. cbn [state_ fd_open trace eff set_rb set_reads]. by rewrite closing_app, app_nil_r.
    + constructor; cbn; try done. eexists. split; [done|]. split; [done|]. split; [done|]. intros _. by rewrite app_nil_r.
  - intros Hc [Ho Ht] c' [= <-]. split; [done|]. specialize (Hrs Ho). subst rs. cbn [reads set_reads].
    destruct (reads c) as [|[[off0 len0] cap0] [|]] eqn:Es; [| |done]; cbn [eff set_rb set_reads read_buf_ parse_need_].
    + repeat split; try done; destruct Hc as [[Ha ->]|[Ha ->]]; try (subst len; lia). intros Ha'. by contradict Ha.
    + destruct Ht as (E1&E2&E3&E4&E5).
      rewrite H7; [done|]. destruct Hc as [[Ha ->]|[Ha ->]]; [specialize (E5 Ha)|]; lia.
Qed.

Lemma arm_recv_ok c :
  inv c -> ok False c (arm_recv c) /\ (tail_ok c -> forall c', arm_recv c = Some c' -> tail_ok c').
Proof.
  intros I. unfold arm_recv. destruct (read_paused_ c || negb (is_state Established c)) eqn:E;
    [split; [by apply ok_refl|by intros ? ? [= <-]]|].
  pose proof I as [[_ _ _ _ ?] _]. destruct (arm_span_ok (Z.max (parse_need_ c) 4096) c I) as [H1 H2]; [lia|].
  split; [exact H1|]. intros Ht. apply H2; [|done]. left. split; [|done]. right.
  apply orb_false_iff in E as [_ E]. by apply negb_false_iff, bool_decide_eq_true in E.
Qed.

Lemma set_coro_ok k c : on k = on (coro_ c) -> inv c -> ok False c (Some (set_coro k c)).
Proof. intros Hk I. ok_step (@nil Eff); by rewrite app_nil_r. Qed.

Lemma rearm_recv_ok c :
  inv c -> ok False c (rearm_recv c) /\ (tail_ok c -> forall c', rearm_recv c = Some c' -> tail_ok c').
Proof.
  intros I. unfold rearm_recv. destruct (on (coro_ c)); [|by apply arm_recv_ok].
  destruct (negb (armed (coro_ c))); [|split; [by apply ok_refl|by intros ? ? [= <-]]].
  destruct (set_coro_ok (set_armed true (coro_ c)) c eq_refl I) as (c1&Ec&I1&F1).
  split.
  - eapply ok_then; [by exists c1|]. injection Ec as <-. intros _. by apply arm_recv_ok.
  - injection Ec as <-. intros Ht. by apply (arm_recv_ok (upd_coro (set_armed true) c) I1).
Qed.

(** ** Application code keeps a connection in good order *)

Lemma user_op_ok d (P : Prop) o c :
  inv c -> (P -> callback_op o) -> ok P c (user_op (run_cb (S d)) o c).
Proof.
  intros I Hp. destruct o; cbn [user_op].
  - by apply ok2_snd, send_ok.
  - by apply ok2_snd, send_scatter_ok.
  - by apply shutdown_write_ok.
  - by apply close_ok.
  - apply (ok_weaken P False); [by intros p; apply Hp in p|]. unfold coro_recv_ready.
    destruct (held (coro_ c)); [by apply ok_refl|by apply set_coro_ok].
  - apply (ok_weaken P False); [by intros p; apply Hp in p|]. unfold coro_await_recv.
    eapply ok_then; [by apply (set_coro_ok (set_recv_h true (coro_ c)))|]. intros I1.
    destruct (negb (armed _)); [|by apply ok_refl].
    eapply ok_then; [by apply (set_coro_ok (set_armed true (set_recv_h true (coro_ c))))|].
    intros I2. by apply arm_recv_ok.
  - apply (ok_weaken P False); [by intros p; apply Hp in p|]. by apply set_coro_ok.
  - apply (ok_weaken P False); [by intros p; apply Hp in p|]. by apply set_coro_ok.
  - apply (ok_weaken P False); [by intros p; apply Hp in p|]. by apply set_coro_ok.
Qed.

Lemma run_ops_ok d (P : Prop) os c :
  inv c -> (P -> Forall callback_op os) -> ok P c (run_ops (user_op (run_cb (S d))) os c).
Proof.
  revert c. induction os as [|o os IH]; intros c I Hp; simpl; [by apply ok_refl|].
  apply ok_bind.
  - apply user_op_ok; [done|]. intros p. by apply Hp, Forall_cons in p as [??].
  - intros c' I' F'. apply IH; [done|]. intros p. by apply Hp, Forall_cons in p as [??].
Qed.

(** Two levels of callbacks are enough from any state: running a callback
    succeeds, keeps the connection in good order, and follows the call. *)
Lemma run_cb_total k c :
  end_of (ECall k) = [] -> inv c -> ok callback_app (eff (ECall k) c) (app k c).
Proof.
  intros He I.
  change (app k c) with
    (run_ops (user_op (run_cb 1)) (react (trace (eff (ECall k) c)) k) (eff (ECall k) c)).
  apply (run_ops_ok 0).
  - apply (inv_frame c _ [ECall k]); try done; [by left|]. unfold closing. cbn [map concat]. by rewrite He.
  - intros Hc. apply Hc.
Qed.

(** A callback that is not a message delivery follows outright. *)
Lemma app_ok k c :
  end_of (ECall k) = [] -> msg_of (ECall k) = [] -> inv c -> ok callback_app c (app k c).
Proof.
  intros He Hm I. eapply ok_then; [by apply (eff_ok callback_app (ECall k))|].
  intros _. by apply run_cb_total.
Qed.

Lemma call_ok k c :
  end_of (ECall k) = [] -> msg_of (ECall k) = [] -> inv c -> ok callback_app c (call app k c).
Proof. intros. unfold call. destruct (installed k); [by apply app_ok|by apply ok_refl]. Qed.

Lemma app_close_ok r P c : inv c -> ok P c (close app r c).
Proof. apply close_ok. Qed.

Lemma app_send_ok bs P c : inv c -> ok2 P c (send app bs c).
Proof. apply send_ok. Qed.

(** ** What every handler keeps *)

(** The write side of [c'] comes from that of [c] by queueing bytes. *)
Record wfollows (c c' : Connection) : Prop := {
  w_infl : write_inflight_ c' = write_inflight_ c;
  w_trace : exists l, trace c' = trace c ++ l /\ subs l = []
    /\ (on_overflow (flow params) <> DropOldest -> write_buf_ c' = write_buf_ c ++ queued l) }.

Lemma wfollows_refl c : wfollows c c.
Proof. constructor; [done|]. exists []. by rewrite !app_nil_r. Qed.

Lemma wfollows_trans c1 c2 c3 : wfollows c1 c2 -> wfollows c2 c3 -> wfollows c1 c3.
Proof.
  intros [I1 (l1&T1&U1&W1)] [I2 (l2&T2&U2&W2)]. constructor; [congruence|]. exists (l1 ++ l2).
  rewrite subs_app, queued_app, U1, U2, T2, T1, app_assoc. repeat split. intros Hp. by rewrite W2, W1, app_assoc.
Qed.

Lemma wfollows_of P c c' : follows P c c' -> wfollows c c'.
Proof. intros [_ _ _ _ I _ (l&T&_&U&W) _]. constructor; [done|by exists l]. Qed.

Lemma readable_size c : inv c -> zlen (Buffer.readable (read_buf_ c)) = Buffer.size_ (read_buf_ c).
Proof. intros [[[L1 _ P1 _] _ _ _ _] _]. unfold Buffer.readable. apply region_len; lia. Qed.

(** [c'] has the received bytes, the parse state and the mode of [c]. *)
Record kept (c c' : Connection) : Prop := {
  k_write : wfollows c c';
  k_rd : Buffer.readable (read_buf_ c') = Buffer.readable (read_buf_ c);
  k_need : parse_need_ c' = parse_need_ c;
  k_batch : batch_ c' = batch_ c;
  k_on : on (coro_ c') = on (coro_ c);
  k_state : active c' -> state_ c' = state_ c }.

Lemma kept_of P c c' : follows P c c' -> kept c c'.
Proof. intros F. pose proof F as [R N B O I S T Q]. constructor; try done. by eapply wfollows_of. Qed.

Lemma kept_trans c1 c2 c3 : kept c1 c2 -> kept c2 c3 -> kept c1 c3.
Proof.
  intros [W1 R1 N1 B1 O1 S1] [W2 R2 N2 B2 O2 S2]. constructor; try congruence; [by eapply wfollows_trans|].
  intros Ha. rewrite (S2 Ha). apply S1. unfold active in *. by rewrite <- (S2 Ha).
Qed.

(** Running a callback, whatever it delivers. *)
Lemma app_kept k c :
  end_of (ECall k) = [] -> inv c ->
  exists c', app k c = Some c' /\ inv c' /\ kept c c'
    /\ msgs (trace c') = msgs (trace c) ++ msg_of (ECall k)
    /\ (callback_app -> read_buf_ c' = read_buf_ c /\ (reads c' = reads c \/ reads c' = [])).
Proof.
  intros He I. destruct (run_cb_total k c He I) as (c'&E&I'&F). exists c'. split; [done|]. split; [done|].
  split; [|split].
  - eapply kept_trans; [|by eapply kept_of]. constructor; try done. constructor; [done|].
    exists [ECall k]. split; [done|]. split; [done|]. intros _. cbn. by rewrite app_nil_r.
  - destruct F as [_ _ _ _ _ _ (l&T&M&_) _]. rewrite T. cbn [trace eff]. rewrite !msgs_app, M, app_nil_r.
    unfold msgs at 2. cbn [map concat]. by rewrite app_nil_r.
  - intros Hc. by apply F.
Qed.

Lemma dispatch_batch_ok c :
  inv c ->
  exists c', dispatch_batch app c = Some c' /\ inv c' /\ kept c c'
    /\ (callback_app -> on (coro_ c) = false -> installed (CbMessages (batch_ c)) = true ->
        read_buf_ c' = read_buf_ c /\ (reads c' = reads c \/ reads c' = [])
        /\ msgs (trace c') = msgs (trace c) ++ batch_ c).
Proof.
  intros I. unfold dispatch_batch.
  destruct (eff_ok False (EStat MsgsIn 1) c eq_refl eq_refl eq_refl eq_refl I) as (c1&Ec&I1&F1).
  injection Ec as <-. set (c1 := eff (EStat MsgsIn 1) c) in *. apply kept_of in F1.
  change (on (coro_ c1)) with (on (coro_ c)). change (recv_h (coro_ c1)) with (recv_h (coro_ c)).
  destruct (on (coro_ c)) eqn:Eon; [destruct (recv_h (coro_ c)); [|case_match]|].
  - destruct (set_coro_ok (set_recv_h false (coro_ c1)) c1 eq_refl I1) as (c2&Ec&I2&F2). injection Ec as <-.
    destruct (app_kept (CbResumeRecv (Val (batch_ c1))) _ eq_refl I2) as (c'&E&I'&K&_).
    exists c'. split; [exact E|]. split; [done|]. split; [|done].
    eapply kept_trans; [exact F1|]. eapply kept_trans; [by eapply kept_of|exact K].
  - destruct (set_coro_ok (set_held (held (coro_ c1) ++ batch_ c1) (coro_ c1)) c1 eq_refl I1) as (c2&Ec&I2&F2).
    injection Ec as <-. eexists. split; [done|]. split; [exact I2|]. split; [|done].
    eapply kept_trans; [exact F1|]. by eapply kept_of.
  - destruct (app_close_ok HeldOverflow False c1 I1) as (c'&E&I'&F'). exists c'. split; [done|]. split; [done|].
    split; [|done]. eapply kept_trans; [exact F1|]. by eapply kept_of.
  - unfold call. destruct (installed _) eqn:Ei.
    + destruct (app_kept (CbMessages (batch_ c1)) c1 eq_refl I1) as (c'&E&I'&K&M&S').
      exists c'. split; [done|]. split; [done|]. split; [by eapply kept_trans|]. intros Hc _ _.
      destruct (S' Hc) as [S1 S2]. split; [done|]. split; [done|].
      rewrite M. unfold c1. cbn [trace eff]. rewrite msgs_app. cbn. by rewrite app_nil_r.
    + exists c1. split; [done|]. split; [done|]. split; [done|]. intros _ _ Hi.
      change (batch_ c1) with (batch_ c) in Ei. congruence.
Qed.

Lemma close_closed d r c c' : inv c -> close (run_cb (S d)) r c = Some c' -> state_ c' = SClosed.
Proof.
  intros [_ [(Ho&Hf&_)|(Hs&_)]] E.
  - destruct (close_open d r c Ho Hf) as (c1&l&n&E1&S1&_). congruence.
  - unfold close in E. rewrite dead_stops in E by (by right). by injection E as <-.
Qed.

(** ** The framed stream *)

Context {Hlaws : FramerLaws parse}.

(** [f] is the bytes of message [m], whatever follows them. *)
Definition frame_of (m : Msg) (f : list Z) : Prop :=
  f <> [] /\ forall x, parse (f ++ x) = PMessage m (zlen f).

(** The messages delivered so far are the first frames of the stream. *)
Definition sound (stream : list Z) (c : Connection) : Prop :=
  exists fs rest, Forall2 frame_of (msgs (trace c)) fs /\ stream = concat fs ++ rest.

(** Together with the messages being collected and the bytes in the buffer they
    are all of it. *)
Definition framed (stream : list Z) (c : Connection) : Prop :=
  exists fs fb, Forall2 frame_of (msgs (trace c)) fs /\ Forall2 frame_of (batch_ c) fb
    /\ stream = concat fs ++ concat fb ++ Buffer.readable (read_buf_ c).

Lemma framed_sound s c : framed s c -> sound s c.
Proof. intros (fs&fb&H&_&E). exists fs. by eexists. Qed.

Lemma parse_cut bs m k :
  parse bs = PMessage m k ->
  0 < k <= zlen bs /\ frame_of m (take (Z.to_nat k) bs) /\ bs = take (Z.to_nat k) bs ++ drop (Z.to_nat k) bs.
Proof.
  intros E. pose proof (parse_bound bs m k E). split; [done|]. split; [|by rewrite take_drop].
  assert (zlen (take (Z.to_nat k) bs) = k) as Hl by (unfold zlen in *; rewrite length_take; lia).
  split; [intros H0; rewrite H0 in Hl; unfold zlen in Hl; simpl in Hl; lia|].
  intros x. rewrite Hl. by apply parse_stable, parse_local.
Qed.

(** One message taken off the buffer into the batch. *)
Lemma take_message m k c :
  inv c -> parse (Buffer.readable (read_buf_ c)) = PMessage m k ->
  let c' := set_need 0 (set_rb (Buffer.consume k (read_buf_ c)) (set_batch (batch_ c ++ [m]) c)) in
  inv c' /\ wfollows c c' /\ Buffer.size_ (read_buf_ c') < Buffer.size_ (read_buf_ c)
  /\ forall s, framed s c -> framed s c'.
Proof.
  intros I E c'. destruct (parse_cut _ _ _ E) as (Hk&Hf&Hcut).
  pose proof (readable_size c I) as Hsz. pose proof I as [[B1 B2 B3 B4 B5] L].
  destruct (Buffer.consume_ok k (read_buf_ c) B1 ltac:(lia)) as (C1&C2&C3&C4&C5).
  split; [|split; [|split]].
  - split; [|exact L]. constructor; cbn [c' read_buf_ parse_need_ set_need set_rb];
      [done|by apply C2|congruence|lia|lia].
  - constructor; [done|]. exists []. cbn [c' trace write_buf_ set_need set_rb set_batch]. by rewrite !app_nil_r.
  - cbn [c' read_buf_ set_need set_rb]. lia.
  - intros s (fs&fb&Hfs&Hfb&Es). exists fs, (fb ++ [take (Z.to_nat k) (Buffer.readable (read_buf_ c))]).
    split; [done|]. split; [by apply Forall2_app; [|constructor]|].
    cbn [read_buf_ c' set_need set_rb]. rewrite C3, concat_app. cbn [concat]. rewrite app_nil_r, <- app_assoc, <- Hcut. done.
Qed.

Lemma framed_kept s c c' :
  framed s c -> kept c c' -> msgs (trace c') = msgs (trace c) -> framed s c'.
Proof. intros (fs&fb&H1&H2&E) [_ R _ B _ _] M. exists fs, fb. by rewrite M, B, R. Qed.

(** The batch handed over. *)
Lemma framed_dispatched s c c' :
  framed s c -> kept c c' -> msgs (trace c') = msgs (trace c) ++ batch_ c -> framed s (set_batch [] c').
Proof.
  intros (fs&fb&H1&H2&E) [_ R _ _ _ _] M. exists (fs ++ fb), []. cbn [trace set_batch batch_ read_buf_].
  rewrite M, R, concat_app, <- app_assoc. split; [by apply Forall2_app|]. split; [constructor|done].
Qed.

(** A callback-mode connection whose application handles messages. *)
Definition cb_mode (c : Connection) : Prop :=
  callback_app /\ (forall ms, installed (CbMessages ms) = true) /\ on (coro_ c) = false.

(** What the parse loop does: it ends, either because the framer needs more,
    still established if it was, or because the connection is not established; in callback mode with no read in flight the stream
    stays framed. *)
Definition parsed (c : Connection) (more : bool) (c' : Connection) : Prop :=
  inv c' /\ wfollows c c' /\ on (coro_ c') = on (coro_ c)
  /\ Buffer.size_ (read_buf_ c') <= Buffer.size_ (read_buf_ c)
  /\ (active c' -> state_ c' = state_ c \/ state_ c' = Established)
  /\ (if more then (state_ c = Established -> state_ c' = Established)
                   /\ exists n, parse (Buffer.readable (read_buf_ c')) = PNeedMore n
      else state_ c' <> Established)
  /\ (cb_mode c -> reads c = [] ->
      reads c' = [] /\ forall s, framed s c -> if more then framed s c' else sound s c').

Lemma parsed_trans c c1 more c' :
  (state_ c1 = Established \/ state_ c1 = state_ c \/ more = false) ->
  (active c1 -> state_ c1 = state_ c \/ state_ c1 = Established) -> wfollows c c1 -> on (coro_ c1) = on (coro_ c) ->
  Buffer.size_ (read_buf_ c1) <= Buffer.size_ (read_buf_ c) ->
  (cb_mode c -> reads c = [] -> reads c1 = [] /\ forall s, framed s c -> framed s c1) ->
  parsed c1 more c' -> parsed c more c'.
Proof.
  intros Hst A1 W O Z Q (I'&W'&O'&Z'&A'&S'&Q'). split; [done|]. split; [by eapply wfollows_trans|]. split; [congruence|].
  split; [lia|]. split.
  { intros Ha. destruct (A' Ha) as [E|E]; [|by right]. rewrite E. apply A1. unfold active in *. by rewrite <- E. }
  split.
  { destruct more; [|done]. destruct S' as [S1 S2]. split; [|done]. intros Hs. apply S1.
    destruct Hst as [|[|]]; [done|congruence|done]. }
  intros Hm Hr. destruct (Q Hm Hr) as [Hr1 Hf1].
  destruct Q' as [? Hf']; [by destruct Hm as (?&?&?); split; [|split; [|congruence]]|done|]. split; [done|].
  intros s Hf. by apply Hf', Hf1.
Qed.

(** A message error: the handler is told and the connection closes. *)
Lemma parse_error_ok e c :
  inv c -> exists c', (c ← call app (CbError e) (eff (EStat FrameErrors 1) c);
                       c ← close app FrameError c; Some (false, c)) = Some (false, c') /\ parsed c false c'.
Proof.
  intros I. assert (ok callback_app c (call app (CbError e) (eff (EStat FrameErrors 1) c))) as (c1&->&I1&F1).
  { eapply ok_then; [by apply (eff_ok callback_app (EStat FrameErrors 1))|]. by apply call_ok. }
  cbn [mbind option_bind]. destruct (app_close_ok FrameError callback_app c1 I1) as (c2&E2&I2&F2).
  rewrite E2. cbn [mbind option_bind]. exists c2. split; [done|].
  pose proof (follows_trans _ _ _ _ F1 F2) as F. pose proof (kept_of _ _ _ F) as K.
  split; [done|]. split; [by apply K|]. split; [by apply K|]. split; [|split; [|split]].
  - rewrite <- !readable_size by done. by rewrite (k_rd _ _ K).
  - intros Ha. left. by apply K.
  - by rewrite (close_closed _ _ _ _ I1 E2).
  - intros (Hc&_) Hr. destruct (f_same _ _ _ F Hc) as [_ Hs]. split; [destruct Hs; congruence|].
    intros s Hf. destruct F as [_ _ _ _ _ _ (l&T&M&_) _]. apply framed_sound. eapply framed_kept; [done..|].
    by rewrite T, msgs_app, M, app_nil_r.
Qed.

Lemma parse_loop_ok fuel c :
  inv c -> Buffer.size_ (read_buf_ c) < Z.of_nat fuel ->
  exists more c', parse_loop app fuel c = Some (more, c') /\ parsed c more c'.
Proof.
  revert c. induction fuel as [|fuel IH]; intros c I Hf.
  { pose proof I as [[[_ _ ? _] _ _ _ _] _]. lia. }
  cbn [parse_loop]. destruct (parse (Buffer.readable (read_buf_ c))) as [m k|n|e] eqn:Ep.
  - cbv zeta. change (read_buf_ (set_batch ?x c)) with (read_buf_ c).
    destruct (take_message m k c I Ep) as (I1&W1&Z1&F1).
    set (c1 := set_need 0 (set_rb (Buffer.consume k (read_buf_ c)) (set_batch (batch_ c ++ [m]) c))) in *.
    case_match.
    + destruct (dispatch_batch_ok c1 I1) as (c2&->&I2&K2&Q2). cbn [mbind option_bind].
      assert (inv (set_batch [] c2)) as I3 by (destruct I2 as [[] ?]; by split; [constructor|]).
      assert (forall more c', state_ c2 = Established \/ more = false ->
                parsed (set_batch [] c2) more c' -> parsed c more c') as Hstep.
      { intros more c' Hst. apply parsed_trans.
        - cbn [state_ set_batch]. tauto.
        - intros A. left. by apply (k_state _ _ K2).
        - eapply wfollows_trans; [exact W1|]. by destruct K2 as [[] _ _ _ _ _]; constructor.
        - cbn [coro_ set_batch]. by rewrite (k_on _ _ K2).
        - cbn [read_buf_ set_batch]. rewrite <- (readable_size c2 I2), (k_rd _ _ K2), readable_size by done. lia.
        - intros (Hc&Hi&Ho) Hr. destruct (Q2 Hc Ho (Hi _)) as (_&Hsp&Hm). cbn [reads set_batch].
          split; [by destruct Hsp as [->|]|]. intros s Hfr. eapply framed_dispatched; [by apply F1|done|done]. }
      case_match eqn:Est.
      * exists false, (set_batch [] c2). split; [done|]. apply Hstep; [by right|]. split; [done|]. split; [apply wfollows_refl|].
        split; [done|]. split; [lia|]. split; [by left|]. split; [by apply negb_true_iff, bool_decide_eq_false in Est|].
        intros _ Hr. split; [done|]. intros s. apply framed_sound.
      * apply negb_false_iff, bool_decide_eq_true in Est.
        destruct (IH (set_batch [] c2)) as (more&c'&E&P');
          [done| |exists more, c'; split; [done|apply Hstep; [by left|done]]].
        cbn [read_buf_ set_batch]. rewrite <- (readable_size c2 I2), (k_rd _ _ K2), readable_size by done. lia.
    + destruct (IH c1) as (more&c'&E&P'); [done|lia|]. exists more, c'. split; [done|].
      apply (parsed_trans c c1); [right; by left|by left|exact W1|done|lia| |exact P']. intros _ Hr. by split.
  - exists true, (set_need n c). split; [done|]. split; [|split; [|split; [done|split; [done|split; [by left|split]]]]].
    + destruct I as [[] L]. split; [|exact L]. constructor; try done. cbn [parse_need_ set_need]. by eapply parse_need.
    + constructor; [done|]. exists []. cbn [trace write_buf_ set_need]. by rewrite !app_nil_r.
    + split; [done|by exists n].
    + intros _ Hr. by split.
  - destruct (parse_error_ok e c I) as (c'&E&P'). exists false, c'. by split.
Qed.

(** ** Received completions *)

Lemma deliver_fds_ok flags c : inv c -> ok callback_app c (deliver_fds app flags c).
Proof.
  intros I. unfold deliver_fds. apply ok_bind.
  - case_test; [|by apply ok_refl].
    eapply ok_then; [by apply (eff_ok callback_app (EStat FrameErrors 1))|]. by apply call_ok.
  - intros c1 I1 _. apply ok_bind.
    + case_test; [by apply app_ok|]. generalize (fd_inbox_ c1) as fds. intros fds. clear E. revert c1 I1.
      induction fds as [|f fds IH]; intros c1 I1; simpl; [by apply ok_refl|].
      eapply ok_then; [by apply (eff_ok callback_app (ECloseRight f))|]. apply IH.
    + intros c2 I2 _. ok_step (@nil Eff); by rewrite app_nil_r.
Qed.

Lemma arm_drain_recv_ok c :
  inv c -> ok False c (arm_drain_recv c)
    /\ (~ active c -> tail_ok c -> forall c', arm_drain_recv c = Some c' -> tail_ok c').
Proof.
  intros I. unfold arm_drain_recv. case_test; [split; [by apply ok_refl|by intros ? ? ? [= <-]]|].
  destruct (arm_span_ok 4096 c I) as [H1 H2]; [lia|]. split; [exact H1|]. intros Ha Ht. apply H2; auto.
Qed.

(** What a handler keeps when it has taken in [n] bytes. *)
Definition handled (n : Z) (c : Connection) (x : option Connection) : Prop :=
  exists c', x = Some c' /\ inv c' /\ wfollows c c' /\ on (coro_ c') = on (coro_ c)
    /\ (active c' -> state_ c' = state_ c \/ state_ c' = Established)
    /\ Buffer.size_ (read_buf_ c') <= Buffer.size_ (read_buf_ c) + n.

Lemma handled_ok P c x : inv c -> ok P c x -> handled 0 c x.
Proof.
  intros I (c'&->&I'&F). exists c'. split; [done|]. split; [done|]. pose proof (kept_of _ _ _ F) as K.
  split; [apply K|]. split; [apply K|]. split; [intros A; left; by apply K|].
  rewrite <- !readable_size by done. rewrite (k_rd _ _ K). lia.
Qed.

(** Between events: the messages delivered and the buffer are the stream, and
    the buffer holds no complete message. *)
Definition caught_up (s : list Z) (c : Connection) : Prop :=
  framed s (set_batch [] c) /\ (s = [] \/ exists n, parse (Buffer.readable (read_buf_ c)) = PNeedMore n).

(** [on_recv] after the bytes are committed: parse, dispatch, arm. *)
Definition take_in (c : Connection) : option Connection :=
  '(more, c) ← parse_loop app (S (Z.to_nat (Buffer.size (read_buf_ c)))) c;
  if negb more then Some c
  else
    c ← (if bool_decide (batch_ c = []) then Some c else dispatch_batch app c);
    if is_state Established c && negb (on (coro_ c)) then arm_recv c
    else if is_state ShutdownWrite c && negb (on (coro_ c)) then arm_drain_recv c
    else Some c.

Lemma is_state_true x c : is_state x c = true -> state_ c = x.
Proof. apply bool_decide_eq_true. Qed.
Lemma is_state_false x c : is_state x c = false -> state_ c <> x.
Proof. apply bool_decide_eq_false. Qed.

(** The batch left after the loop. *)
Lemma last_batch_ok c :
  inv c ->
  exists c', (if bool_decide (batch_ c = []) then Some c else dispatch_batch app c) = Some c'
    /\ inv c' /\ kept c c'
    /\ (cb_mode c -> reads c = [] ->
        reads c' = [] /\ forall s, framed s c -> framed s (set_batch [] c')).
Proof.
  intros I. case_bool_decide as Hb.
  - exists c. split; [done|]. split; [done|]. split; [by eapply kept_of, (follows_refl False)|].
    intros _ Hr. split; [done|]. intros s (fs&fb&H1&H2&E). exists fs, fb. by rewrite Hb in H2.
  - destruct (dispatch_batch_ok c I) as (c'&E&I'&K&Q). exists c'. split; [done|]. split; [done|]. split; [done|].
    intros (Hc&Hi&Ho) Hr. destruct (Q Hc Ho (Hi _)) as (_&Hs&Hm). split; [by destruct Hs as [->|]|].
    intros s Hf. by eapply framed_dispatched.
Qed.

Lemma sound_msgs s c c' : sound s c -> msgs (trace c') = msgs (trace c) -> sound s c'.
Proof. intros (fs&rest&H1&E) M. exists fs, rest. by rewrite M. Qed.

Lemma follows_msgs P c c' : follows P c c' -> msgs (trace c') = msgs (trace c).
Proof. intros [_ _ _ _ _ _ (l&T&M&_) _]. by rewrite T, msgs_app, M, app_nil_r. Qed.

Lemma framed_boundary s c c' :
  framed s (set_batch [] c) -> msgs (trace c') = msgs (trace c) ->
  Buffer.readable (read_buf_ c') = Buffer.readable (read_buf_ c) -> framed s (set_batch [] c').
Proof. intros (fs&fb&H1&H2&E) M R. exists fs, fb. cbn [trace batch_ read_buf_ set_batch] in *. by rewrite M, R. Qed.

(** The arming after the last batch. *)
Lemma arm_after_ok c :
  inv c ->
  let x := if is_state Established c && negb (on (coro_ c)) then arm_recv c
           else if is_state ShutdownWrite c && negb (on (coro_ c)) then arm_drain_recv c else Some c in
  ok False c x
  /\ (no_read c -> forall c', x = Some c' -> tail_ok c').
Proof.
  intros I x. subst x. pose proof (no_read_tail c) as Ht.
  case_test; [|case_test].
  - split; [by apply arm_recv_ok|]. intros Hr c' Ec. eapply arm_recv_ok; [done|auto|done].
  - split; [by apply arm_drain_recv_ok|]. intros Hr c' Ec. eapply arm_drain_recv_ok; [done| |auto|done].
    apply is_state_true in H. unfold active. rewrite H. by intros [|].
  - split; [by apply ok_refl|]. intros Hr c' [= <-]. auto.
Qed.

Lemma take_in_ok c :
  inv c ->
  handled 0 c (take_in c)
  /\ forall c', take_in c = Some c' -> cb_mode c -> no_read c -> forall s, framed s c ->
       sound s c' /\ tail_ok c' /\ (state_ c' = Established -> caught_up s c').
Proof.
  intros I. unfold take_in, Buffer.size.
  destruct (parse_loop_ok (S (Z.to_nat (Buffer.size_ (read_buf_ c)))) c I) as (more&c1&->&I1&W1&O1&Z1&A1&S1&Q1).
  { pose proof I as [[[_ _ ? _] _ _ _ _] _]. lia. }
  cbn [mbind option_bind]. destruct more; cbn [negb].
  - destruct (last_batch_ok c1 I1) as (c2&->&I2&K2&Q2). cbn [mbind option_bind]. destruct S1 as [_ (n&Hn)].
    destruct (arm_after_ok c2 I2) as [(c3&E3&I3&F3) T3]. pose proof (kept_of _ _ _ F3) as K3.
    pose proof (kept_trans _ _ _ K2 K3) as K. rewrite E3. split.
    + exists c3. split; [done|]. split; [done|]. split; [by eapply wfollows_trans; [|apply K]|].
      split; [rewrite (k_on _ _ K); done|].
      split; [intros A; rewrite (k_state _ _ K A); apply A1; unfold active in *; by rewrite <- (k_state _ _ K A)|].
      rewrite <- (readable_size c3 I3), (k_rd _ _ K), readable_size by done. lia.
    + intros c' Ec Hm [Hone Hr] s Hf. injection Ec as <-. destruct (Q1 Hm Hr) as [Hr1 Hf1].
      destruct Q2 as [Hr2 Hf2]; [destruct Hm as (?&?&?); by split; [|split; [|congruence]]|done|].
      assert (framed s (set_batch [] c3)) as Hf3.
      { eapply framed_boundary; [by apply Hf2, Hf1|by eapply follows_msgs|by apply K3]. }
      split; [by apply framed_sound in Hf3|]. split; [by apply T3; [split|]|]. intros Hs.
      split; [done|right; exists n; by rewrite (k_rd _ _ K)].
  - split; [exists c1; split; [done|]; split; [done|]; split; [done|]; split; [done|]; split; [done|lia]|].
    intros c' Ec Hm [Hone Hr] s Hf. injection Ec as <-. destruct (Q1 Hm Hr) as [Hr1 Hf1]. split; [by apply Hf1|].
    split; [by apply no_read_tail|done].
Qed.

(** ** Events *)

(** What can happen to a connection: it is started by its acceptor, a connect,
    receive or send completes, the loop flushes writes, the application operates
    on it outside any callback, or its idle timer fires.  A receive completion says
    which of the reads in flight it ends, if any (the completion of a read that was
    dropped when it was cancelled ends none), and one that got bytes comes with
    those bytes, the completion's flags and the descriptors the backend put in the
    inbox. *)
Inductive Event :=
  | EvStart
  | EvConnect (result : Z)
  | EvRecv (k : nat) (bs : list Z) (flags : Z) (fds : list Z)
  | EvRecvRes (k : nat) (result : Z)
  | EvSent (result : Z)
  | EvFlush
  | EvUser (o : UserOp)
  | EvIdle.

(** A read in flight writes at the span it was given; [None] when the block that
    span is in has been replaced.  Events that no read in flight can cause are
    ignored. *)
Definition fits (k : nat) (bs : list Z) (c : Connection) : bool :=
  match reads c !! k with Some (_, len, _) => (0 <? zlen bs) && (zlen bs <=? len) | None => false end.

Definition deliver (k : nat) (bs : list Z) (flags : Z) (fds : list Z) (c : Connection) : option Connection :=
  match reads c !! k with
  | None => Some c
  | Some (off, len, cap) =>
      if negb (fits k bs c) then Some c
      else if negb (cap =? Buffer.cap_ (read_buf_ c)) then None
      else
        b ← Buffer.store_span off bs (read_buf_ c);
        on_recv app (zlen bs) flags (set_inbox fds (set_reads (delete k (reads c)) (set_rb b c)))
  end.

Definition step (ev : Event) (c : Connection) : option Connection :=
  match ev with
  | EvStart => if is_state Connecting c then start app c else Some c
  | EvConnect r => on_completion app OpConnect r 0 c
  | EvRecv k bs flags fds => deliver k bs flags fds c
  | EvRecvRes k r =>
      if 0 <? r then Some c
      else on_completion app OpRecv r 0 (set_reads (delete k (reads c)) c)
  | EvSent r => on_completion app OpSend r 0 c
  | EvFlush => on_completion app OpFlushWrite 0 0 c
  | EvUser o => user_op app o c
  | EvIdle => close app IdleTimeout c
  end.

(** The bytes an event adds to the stream the framer sees. *)
Definition taken (ev : Event) (c : Connection) : list Z :=
  match ev with
  | EvRecv k bs _ _ => if is_state Established c && fits k bs c then bs else []
  | _ => []
  end.

(** Runs events, collecting the received stream. *)
Fixpoint run (evs : list Event) (c : Connection) (stream : list Z) : option (Connection * list Z) :=
  match evs with
  | [] => Some (c, stream)
  | ev :: evs => c' ← step ev c; run evs c' (stream ++ taken ev c)
  end.

Definition ev_bytes (ev : Event) : Z := match ev with EvRecv _ bs _ _ => zlen bs | _ => 0 end.
Definition total_bytes (evs : list Event) : Z := foldr (fun ev n => ev_bytes ev + n) 0 evs.

(** ** Steps keep a connection in good order *)

(** Success, good order, and the read side: what was received is unchanged and a
    span in flight stays the tail of the buffer. *)
Definition okt (c : Connection) (x : option Connection) : Prop :=
  exists c', x = Some c' /\ inv c' /\ follows False c c'
    /\ (callback_app -> tail_ok c -> tail_ok c').

Lemma follows_active P c c' : follows P c c' -> active c' -> active c.
Proof. intros F Ha. unfold active in *. by rewrite <- (f_state _ _ _ F Ha). Qed.

Lemma okt_bind c x (f : Connection -> option Connection) :
  okt c x -> (forall c', inv c' -> follows False c c' -> okt c' (f c')) -> okt c (x ≫= f).
Proof.
  intros (c1&->&I1&F1&T1) H. simpl. destruct (H c1 I1 F1) as (c2&E&I2&F2&T2).
  exists c2. split; [done|]. split; [done|]. split; [by eapply follows_trans|auto].
Qed.

Lemma okt_of c x : ok callback_app c x -> okt c x.
Proof.
  intros (c'&->&I&F). exists c'. split; [done|]. split; [done|]. split.
  - destruct F. constructor; done.
  - intros Hc [Ho Hk]. split; [done|]. destruct (f_same _ _ _ F Hc) as [Hb [Hs|Hs]]; rewrite Hs; [|done].
    destruct (reads c) as [|[[off len] cap] [|]]; [done| |done]. rewrite Hb, (f_need _ _ _ F).
    destruct Hk as (?&?&?&?&Ht). repeat split; try done. intros Ha. by apply Ht, (follows_active _ _ _ F).
Qed.

Lemma okt_arm c : inv c -> okt c (arm_recv c).
Proof.
  intros I. destruct (arm_recv_ok c I) as [(c'&E&I'&F) T]. exists c'. split; [done|]. split; [done|].
  split; [done|]. intros _ Ht. by eapply T.
Qed.

Lemma okt_rearm c : inv c -> okt c (rearm_recv c).
Proof.
  intros I. destruct (rearm_recv_ok c I) as [(c'&E&I'&F) T]. exists c'. split; [done|]. split; [done|].
  split; [done|]. intros _ Ht. by eapply T.
Qed.

Lemma okt_then c c1 x :
  ok callback_app c (Some c1) -> (inv c1 -> okt c1 x) -> okt c x.
Proof.
  intros O H. destruct (okt_of _ _ O) as (c'&E&I1&F1&T1). injection E as <-.
  destruct (H I1) as (c2&->&I2&F2&T2). exists c2. split; [done|]. split; [done|].
  split; [by eapply follows_trans|auto].
Qed.

Lemma coro_writable_okt c : inv c -> okt c (coro_writable app c).
Proof.
  intros I. unfold coro_writable. destruct (send_h (coro_ c)) as [bs|]; [|by apply okt_of, ok_refl].
  destruct (app_send_ok bs callback_app c I) as (r&c1&->&I1&F1). cbn [mbind option_bind].
  assert (ok callback_app c (Some c1)) as O1 by (by exists c1). case_test; [by apply okt_of|].
  eapply okt_then; [exact O1|]. intros _. eapply okt_then; [|intros I2; by apply okt_of, app_ok].
  unfold coro_unawait_send. ok_step (@nil Eff); by rewrite app_nil_r.
Qed.

Lemma relieve_okt c : inv c -> okt c (relieve app c).
Proof.
  intros I. unfold relieve. case_test; [|by apply okt_of, ok_refl].
  eapply (okt_then c (set_bp false c)); [ok_step (@nil Eff); by rewrite app_nil_r|]. intros I1. apply okt_bind.
  - case_test; [|by apply okt_of, ok_refl].
    eapply (okt_then _ (set_paused false (set_bp false c))); [ok_step (@nil Eff); by rewrite app_nil_r|].
    apply okt_rearm.
  - intros c' I' _. destruct (on (coro_ c')); [by apply coro_writable_okt|].
    case_test; [|by apply okt_of, ok_refl]. by apply okt_of, app_ok.
Qed.

Lemma start_ok c :
  inv c -> state_ c = Connecting ->
  inv (set_state Established c) /\ okt (set_state Established c) (start app c).
Proof.
  intros I Hs. assert (inv (set_state Established c)) as I1.
  { destruct I as [[] L]. split; [by constructor|]. destruct L as [(?&?&?)|(?&_)]; [|congruence].
    left. split; [|done]. right. by left. }
  split; [done|]. unfold start.
  set (c1 := set_state Established c) in *.
  assert (ok callback_app c1 (Some (if p_timestamping params then eff ESetTimestamping c1 else c1))) as O1.
  { destruct (p_timestamping params); [by apply eff_ok|by apply ok_refl]. }
  eapply okt_then; [exact O1|]. set (c2 := if p_timestamping params then _ else _). intros I2.
  eapply (okt_then _ (if fd_passing params then eff ESetInbox c2 else c2)).
  { destruct (fd_passing params); [by apply eff_ok|by apply ok_refl]. }
  intros I3. apply okt_bind; [by apply okt_of, call_ok|]. intros c4 I4 _.
  eapply okt_then; [by apply arm_idle_timer_ok|]. apply okt_rearm.
Qed.

(** A receive completion without bytes, or on a connection that no longer reads. *)
Lemma on_recv_done r flags c :
  inv c -> r <= 0 \/ state_ c <> Established -> okt c (on_recv app r flags c).
Proof.
  intros I Hr. unfold on_recv.
  eapply (okt_then c (if on (coro_ c) then upd_coro (set_armed false) c else c)).
  { case_match; [ok_step (@nil Eff); by rewrite app_nil_r|by apply ok_refl]. }
  set (c1 := if on (coro_ c) then _ else _). intros I1.
  assert (state_ c1 = state_ c) as Hs by (subst c1; by destruct (on (coro_ c))).
  case_test; [|case_test; [case_test|]].
  - case_test; [by apply okt_of, ok_refl|]. case_test; [by apply okt_of, app_close_ok|].
    case_test; [by apply okt_of, app_close_ok|]. apply is_state_false in E.
    eapply okt_then; [by apply arm_idle_timer_ok|]. intros I2.
    destruct (arm_drain_recv_ok _ I2) as [(c3&E3&I3&F3) T3]. exists c3. split; [done|]. split; [done|]. split; [done|].
    intros _ Ht. eapply T3; [|done|done]. bool_to_prop. apply is_state_true in H0.
    assert (state_ (arm_idle_timer c1) = state_ c1) as Hst.
    { unfold arm_idle_timer. case_match; [done|]. by case_match. }
    unfold active. rewrite Hst, H0. by intros [|].
  - by apply okt_rearm.
  - by apply okt_of, app_close_ok.
  - apply is_state_true in E. rewrite Hs in E. case_test; [by apply okt_of, app_close_ok|]. lia || (destruct Hr; [lia|done]).
Qed.

(** The connection once the bytes are committed. *)
Lemma committed_ok n b c :
  inv c -> 0 < n < 2 ^ 59 -> Buffer.size_ (read_buf_ c) + n < 2 ^ 59 ->
  Buffer.commit n (read_buf_ c) = Some b ->
  let c1 := eff (ERecord RecRecv (u32 n)) (eff (EStat BytesIn n) (set_rb b c)) in
  inv c1 /\ wfollows c c1 /\ msgs (trace c1) = msgs (trace c)
  /\ Buffer.size_ b = Buffer.size_ (read_buf_ c) + n.
Proof.
  intros [[B1 B2 B3 B4 B5] L] Hn Hz E c1.
  destruct (Buffer.commit_ok n _ _ B1 ltac:(lia) E) as (C1&C2&C3&C4). split; [|split; [|split]].
  - split; [constructor; cbn [c1 read_buf_ parse_need_ eff set_rb]; [done|by apply C2|congruence|lia|done]|].
    unfold life, is_open in *. cbn [c1 state_ fd_open trace eff set_rb]. by rewrite !closing_app, !app_nil_r.
  - constructor; [done|]. exists [EStat BytesIn n; ERecord RecRecv (u32 n)].
    cbn [c1 trace write_buf_ eff set_rb]. rewrite <- app_assoc. split; [done|]. split; [done|].
    intros _. by rewrite app_nil_r.
  - cbn [c1 trace eff set_rb]. by rewrite !msgs_app, !app_nil_r.
  - done.
Qed.

(** Clearing the batch is not visible to the other invariants. *)
Lemma set_batch_inv c : inv c -> inv (set_batch [] c).
Proof. intros [[] L]. by split; [constructor|]. Qed.

Lemma on_recv_data n flags b c :
  inv c -> state_ c = Established -> 0 < n < 2 ^ 59 -> Buffer.size_ (read_buf_ c) + n < 2 ^ 59 ->
  Buffer.commit n (read_buf_ c) = Some b ->
  handled n c (on_recv app n flags c)
  /\ forall c', on_recv app n flags c = Some c' -> cb_mode c -> no_read c ->
       forall s, framed s (set_batch [] (set_rb b c)) ->
       sound s c' /\ tail_ok c' /\ (state_ c' = Established -> caught_up s c').
Proof.
  intros I Hs Hn Hz E. unfold on_recv.
  set (c0 := if on (coro_ c) then _ else _).
  assert (exists k, c0 = set_coro k c /\ on k = on (coro_ c)) as (k&Hc0&Hk).
  { subst c0. destruct (on (coro_ c)) eqn:Eo; [by eexists|]. exists (coro_ c). by rewrite set_coro_id. }
  rewrite Hc0. clear c0 Hc0. set (c0 := set_coro k c).
  assert (inv c0) as I0 by (by destruct I as [[] L]; split; [constructor|]).
  assert (is_state Established c0 = true) as -> by (by apply bool_decide_eq_true). cbn [negb].
  rewrite (proj2 (Z.ltb_ge n 0)), (proj2 (Z.eqb_neq n 0)) by lia.
  change (read_buf_ c0) with (read_buf_ c). rewrite E. cbn [mbind option_bind].
  destruct (committed_ok n b c0 I0 Hn Hz E) as (I1&W1&M1&Z1). cbv zeta.
  set (c1 := eff (ERecord RecRecv (u32 n)) (eff (EStat BytesIn n) (set_rb b c0))) in *.
  assert (ok callback_app c1 (if Epoll.any flags (Z.lor HasFds FdTrunc) then deliver_fds app flags c1 else Some c1))
    as (c2&->&I2&F2) by (destruct (Epoll.any _ _); [by apply deliver_fds_ok|by apply ok_refl]).
  cbn [mbind option_bind].
  destruct (arm_idle_timer_ok callback_app c2 I2) as (c3&E3&I3&F3). injection E3 as <-.
  pose proof (follows_trans _ _ _ _ F2 F3) as F. pose proof (kept_of _ _ _ F) as K.
  set (c3 := arm_idle_timer c2) in *. fold (take_in (set_batch [] c3)).
  destruct (take_in_ok (set_batch [] c3) (set_batch_inv _ I3)) as [(c4&E4&I4&W4&O4&A4&Z4) Q4]. split.
  - exists c4. split; [exact E4|]. split; [done|]. split; [|split; [|split]].
    + apply (wfollows_trans c c1); [destruct W1; by constructor|].
      eapply wfollows_trans; [by apply K|]. by destruct W4; constructor.
    + rewrite O4. cbn [coro_ set_batch]. by rewrite (k_on _ _ K).
    + intros A. destruct (A4 A) as [E5|E5]; [|by right]. cbn [state_ set_batch] in E5. left. rewrite E5.
      apply (k_state _ _ K). unfold active in *. by rewrite <- E5.
    + cbn [read_buf_ set_batch] in Z4. rewrite <- (readable_size c3 I3), (k_rd _ _ K), readable_size in Z4 by done.
      change (read_buf_ c1) with b in Z4. change (read_buf_ c0) with (read_buf_ c) in Z1. lia.
  - intros c' E' Hm [Hone Hr] s Hf. apply (Q4 c' E').
    + destruct Hm as (Hc&Hi&Ho). split; [done|]. split; [done|]. cbn [coro_ set_batch]. rewrite (k_on _ _ K).
      change (coro_ c1) with k. congruence.
    + split; [done|]. cbn [reads set_batch]. destruct Hm as (Hc&_). destruct (f_same _ _ _ F Hc) as [_ [->| ->]]; done.
    + eapply framed_boundary; [exact Hf| |].
      * rewrite (follows_msgs _ _ _ F), M1. done.
      * rewrite (k_rd _ _ K). done.
Qed.

(** [c'] differs from [c] on the write side and in its trace only. *)
Record same_read (c c' : Connection) : Prop := {
  s_rb : read_buf_ c' = read_buf_ c;
  s_need : parse_need_ c' = parse_need_ c;
  s_on : on (coro_ c') = on (coro_ c);
  s_state : state_ c' = state_ c;
  s_span : reads c' = reads c \/ reads c' = [];
  s_msgs : msgs (trace c') = msgs (trace c) }.

(** [on_sent] up to the writable edge. *)
Definition settle (r : Z) (c : Connection) : Connection :=
  let c := set_inflight 0 c in
  let c := eff (ERecord RecSend (u32 r)) (eff (EStat BytesOut r) (consume_bytes r c)) in
  if is_state ShutdownWrite c && bool_decide (write_buf_ c = []) && fd_open c then eff EShutdownWr c else c.

Lemma settle_ok r c : inv c -> inv (settle r c) /\ same_read c (settle r c).
Proof.
  intros [[B1 B2 B3 B4 B5] L]. unfold settle. case_match; split.
  - split; [by constructor|]. unfold life, is_open in *. cbn [state_ fd_open trace eff consume_bytes set_wb set_inflight].
    by rewrite !closing_app, !app_nil_r.
  - constructor; try done; [by left|]. cbn [trace eff consume_bytes set_wb set_inflight]. by rewrite !msgs_app, !app_nil_r.
  - split; [by constructor|]. unfold life, is_open in *. cbn [state_ fd_open trace eff consume_bytes set_wb set_inflight].
    by rewrite !closing_app, !app_nil_r.
  - constructor; try done; [by left|]. cbn [trace eff consume_bytes set_wb set_inflight]. by rewrite !msgs_app, !app_nil_r.
Qed.

Lemma on_sent_ok r c :
  inv c ->
  let c1 := if r <? 0 then set_inflight 0 c else settle r c in
  inv c1 /\ same_read c c1 /\ okt c1 (on_sent app r c).
Proof.
  intros I. cbv zeta. unfold on_sent. destruct (Z.ltb_spec r 0) as [Hr|Hr].
  - assert (inv (set_inflight 0 c)) as I1 by (by destruct I as [[] L]; split; [constructor|]).
    split; [done|]. split; [by constructor; try done; left|].
    case_match; [by apply okt_of, ok_refl|by apply okt_of, app_close_ok].
  - destruct (settle_ok r c I) as [I1 S1]. split; [done|]. split; [done|]. fold (settle r c).
    change (let c0 := _ in let c1 := _ in _ ≫= _) with
      (c ← relieve app (settle r c); Some (if bool_decide (write_buf_ c = []) then c else eff ENoteWrite c)).
    apply okt_bind; [by apply relieve_okt|]. intros c' I' _. apply okt_of.
    case_match; [by apply ok_refl|by apply eff_ok].
Qed.

Lemma flush_write_ok c : inv c -> inv (flush_write c) /\ same_read c (flush_write c).
Proof.
  intros I. unfold flush_write.
  assert (inv c /\ same_read c c) as H0 by (split; [done|by constructor; try done; left]).
  case_match; [done|]. case_match; [done|]. destruct I as [[] L]. split.
  - split; [by constructor|]. unfold life, is_open in *. cbn [state_ fd_open trace eff set_inflight].
    by rewrite closing_app, app_nil_r.
  - constructor; try done; [by left|]. cbn [trace eff set_inflight]. by rewrite msgs_app, app_nil_r.
Qed.

(** ** A callback-mode connection and its stream *)

Definition good (s : list Z) (c : Connection) : Prop :=
  inv c /\ cb_mode c /\ sound s c /\ tail_ok c /\ (active c -> caught_up s c).

Lemma good_okt s c x : good s c -> okt c x -> exists c', x = Some c' /\ good s c' /\ follows False c c'.
Proof.
  intros (I&(Hc&Hi&Ho)&Hs&Ht&Ha) (c'&->&I'&F&T). exists c'. split; [done|]. split; [|done].
  split; [done|]. split; [split; [done|split; [done|by rewrite (f_on _ _ _ F)]]|].
  split; [by eapply sound_msgs, follows_msgs|]. split; [auto|].
  intros A'. destruct (Ha (follows_active _ _ _ F A')) as [H1 H2]. split.
  - eapply framed_boundary; [done|by eapply follows_msgs|apply F].
  - by rewrite (f_rd _ _ _ F).
Qed.

Lemma good_same s c c' : good s c -> inv c' -> same_read c c' -> good s c'.
Proof.
  intros (I&(Hc&Hi&Ho)&Hs&Ht&Ha) I' [R N O S P M]. split; [done|].
  split; [split; [done|split; [done|by rewrite O]]|]. split; [by eapply sound_msgs|].
  unfold tail_ok, active in *. rewrite S. split; [destruct Ht; split; [done|]; destruct P as [P|P]; rewrite P; [by rewrite R, N|done]|].
  intros A. destruct (Ha A) as [H1 H2].
  split; [eapply framed_boundary; [done|done|by rewrite R]|by rewrite R].
Qed.

Lemma okt_size c x c' : inv c -> okt c x -> x = Some c' -> Buffer.size_ (read_buf_ c') = Buffer.size_ (read_buf_ c).
Proof.
  intros I (c1&->&I'&F&_) [= <-]. rewrite <- !readable_size by done. by rewrite (f_rd _ _ _ F).
Qed.

(** A step that succeeded, what it did to the stream, and how much it stored. *)
Definition stepped (n : Z) (s' : list Z) (c : Connection) (x : option Connection) : Prop :=
  exists c', x = Some c' /\ good s' c' /\ Buffer.size_ (read_buf_ c') <= Buffer.size_ (read_buf_ c) + n.

Lemma stepped_okt s n c c1 x :
  0 <= n -> good s c1 -> Buffer.size_ (read_buf_ c1) = Buffer.size_ (read_buf_ c) -> okt c1 x -> stepped n s c x.
Proof.
  intros Hn G Hz O. destruct (good_okt s c1 x G O) as (c'&->&G'&F). exists c'. split; [done|]. split; [done|].
  rewrite <- (readable_size c'), (f_rd _ _ _ F), readable_size by (apply G || apply G'). lia.
Qed.

Lemma stepped_refl s n c : 0 <= n -> good s c -> stepped n s c (Some c).
Proof. intros Hn G. exists c. split; [done|]. split; [done|lia]. Qed.

(** Starting: the state becomes [Established] and nothing else moves. *)
Lemma start_good s n c :
  0 <= n -> good s c -> state_ c = Connecting -> stepped n s c (start app c).
Proof.
  intros Hn (I&Hm&Hs&Ht&Ha) Hc. destruct (start_ok c I Hc) as [I1 O1].
  apply (stepped_okt s n c (set_state Established c)); [done| |done|done].
  split; [done|]. split; [done|]. split; [done|]. split.
  - destruct Ht as [Ho Ht]. split; [done|]. unfold active in *. cbn [reads set_state read_buf_ parse_need_].
    destruct (reads c) as [|[[? ?] ?] [|]]; [done| |done].
    destruct Ht as (?&?&?&?&Ht). repeat split; try done. intros _. apply Ht. by left.
  - intros _. apply Ha. by left.
Qed.

(** Bytes arriving in the span of the read in flight. *)
Lemma deliver_good s k bs flags fds c :
  good s c -> Buffer.size_ (read_buf_ c) + zlen bs < 2 ^ 59 ->
  stepped (zlen bs) (s ++ taken (EvRecv k bs flags fds) c) c (deliver k bs flags fds c).
Proof.
  intros G Hz. pose proof (zlen_nonneg bs) as Hn. unfold deliver, taken.
  assert (fits k bs c = false -> stepped (zlen bs) (s ++ (if is_state Established c && fits k bs c then bs else [])) c (Some c)) as Hno.
  { intros ->. rewrite andb_false_r, app_nil_r. by apply stepped_refl. }
  destruct (reads c !! k) as [[[off len] cap]|] eqn:Es; [|apply Hno; unfold fits; by rewrite Es].
  destruct (fits k bs c) eqn:Ef; cbn [negb]; [|by apply Hno]. clear Hno. rewrite andb_true_r.
  pose proof G as (I&Hm&Hs&Ht&Ha). pose proof I as [[B1 B2 B3 B4 B5] L].
  destruct Ht as [Hone Ht]. destruct (reads c) as [|[[off0 len0] cap0] [|]] eqn:Er; [done| |done].
  destruct k as [|k]; [|done]. injection Es as -> -> ->. destruct Ht as (->&->&->&Hl&_). rewrite Z.eqb_refl. cbn [negb].
  unfold fits in Ef. rewrite Er in Ef. cbn [lookup list_lookup] in Ef. apply andb_true_iff in Ef as [E1 E2]. bool_to_prop.
  destruct (Buffer.fill_tail_ok bs (read_buf_ c) B1 E2) as (b1&b2&Eb1&Eb2&R1&R2). rewrite Eb1. cbn [mbind option_bind].
  destruct (Buffer.store_span_ok _ _ _ _ B1 Eb1) as (C1&C2&C3&C4&C5).
  pose proof (Buffer.io_pos _ B1) as Hpos.
  change (delete 0%nat _) with (@nil (Z * Z * Z)). set (c1 := set_inbox fds (set_reads [] (set_rb b1 c))).
  assert (inv c1) as I1.
  { split; [|exact L]. constructor; cbn [c1 read_buf_ parse_need_ set_inbox set_reads set_rb]; try done; try congruence. }
  destruct (is_state Established c) eqn:Est.
  - apply is_state_true in Est. destruct (Ha ltac:(by right)) as [Hf _].
    destruct (on_recv_data (zlen bs) flags b2 c1 I1 Est) as [(c'&E'&I'&W'&O'&A'&Z') Q']; [lia|change (read_buf_ c1) with b1; lia|done|].
    destruct (Q' c' E' Hm (conj Hone eq_refl) (s ++ bs)) as (Q1&Q2&Q3).
    { destruct Hf as (fs&fb&H1&H2&Hf). exists fs, fb. cbn [read_buf_ set_batch set_rb] in *. rewrite R2, Hf, <- !app_assoc. done. }
    change (coro_ c1) with (coro_ c) in O'.
    exists c'. split; [done|]. split; [|change (read_buf_ c1) with b1 in Z'; lia].
    split; [done|]. split; [by destruct Hm as (?&?&?); split; [|split; [|congruence]]|]. split; [done|]. split; [done|].
    intros A. apply Q3. destruct (A' A) as [->|]; done.
  - rewrite app_nil_r. apply is_state_false in Est.
    apply (stepped_okt s (zlen bs) c c1); [done| |change (read_buf_ c1) with b1; lia|apply on_recv_done; auto].
    split; [done|]. split; [done|]. split; [done|]. split; [by apply no_read_tail|]. intros A. destruct (Ha A) as [H1 H2].
    split; [eapply framed_boundary; [done|done|exact R1]|]. change (read_buf_ c1) with b1. by rewrite R1.
Qed.

Lemma tail_delete k c : tail_ok c -> delete k (reads c) = reads c \/ delete k (reads c) = [].
Proof. intros [_ H]. destruct (reads c) as [|[[? ?] ?] [|]]; [by left; destruct k| |done]. destruct k; [by right|left; by destruct k]. Qed.

Lemma set_reads_inv rs c : inv c -> inv (set_reads rs c).
Proof. intros [[] L]. by split; [constructor|]. Qed.

Definition callback_ev (ev : Event) : Prop := match ev with EvUser o => callback_op o | _ => True end.

Lemma step_good s ev c :
  good s c -> callback_ev ev -> Buffer.size_ (read_buf_ c) + ev_bytes ev < 2 ^ 59 ->
  stepped (ev_bytes ev) (s ++ taken ev c) c (step ev c).
Proof.
  intros G Hev Hz. pose proof G as (I&_).
  destruct ev as [|r|k bs flags fds|k r|r| |o|]; cbn [step ev_bytes taken] in *; rewrite ?app_nil_r.
  - case_test; [|by apply stepped_refl]. by apply start_good, is_state_true.
  - cbn [on_completion]. unfold on_connect_result. destruct (is_state Connecting c) eqn:Es; cbn [negb]; [|by apply stepped_refl].
    case_test; [case_test; [by apply stepped_refl|]|by apply start_good, is_state_true].
    apply (stepped_okt s 0 c c); [lia|done|done|by apply okt_of, app_close_ok].
  - by apply deliver_good.
  - destruct (Z.ltb_spec 0 r); [by apply stepped_refl|]. cbn [on_completion]. set (c1 := set_reads _ c).
    assert (inv c1) as I1 by (by apply set_reads_inv).
    apply (stepped_okt s 0 c c1); [lia| |done|apply on_recv_done; [done|by left]].
    eapply good_same; [done|done|]. constructor; try done. apply tail_delete, G.
  - cbn [on_completion]. destruct (on_sent_ok r c I) as (I1&S1&O1).
    eapply stepped_okt; [lia|by eapply good_same|by rewrite (s_rb _ _ S1)|exact O1].
  - cbn [on_completion]. destruct (flush_write_ok c I) as [I1 S1].
    exists (flush_write c). split; [done|]. split; [by eapply good_same|]. rewrite (s_rb _ _ S1). lia.
  - apply (stepped_okt s 0 c c); [lia|done|done|]. apply okt_of, (user_op_ok 1 callback_app); done.
  - apply (stepped_okt s 0 c c); [lia|done|done|]. by apply okt_of, app_close_ok.
Qed.

Lemma total_nonneg evs : 0 <= total_bytes evs.
Proof.
  induction evs as [|ev evs IH]; [done|]. unfold total_bytes in *. cbn [foldr]. destruct ev; cbn [ev_bytes]; try lia.
  pose proof (zlen_nonneg bs). lia.
Qed.

Lemma run_good s evs c :
  good s c -> Forall callback_ev evs -> Buffer.size_ (read_buf_ c) + total_bytes evs < 2 ^ 59 ->
  exists c' s', run evs c s = Some (c', s') /\ good s' c'.
Proof.
  revert s c. induction evs as [|ev evs IH]; intros s c G Hev Hz; cbn [run]; [by exists c, s|].
  apply Forall_cons in Hev as [H1 H2]. unfold total_bytes in Hz. cbn [foldr] in Hz. fold (total_bytes evs) in Hz.
  pose proof (total_nonneg evs).
  destruct (step_good s ev c G H1) as (c'&->&G'&Z'); [lia|]. cbn [mbind option_bind]. apply IH; [done|done|lia].
Qed.

(** A connection as its constructor leaves it. *)
Lemma connection0_inv coro : 0 <= read_buffer_size params < 2 ^ 62 -> inv (connection0 coro).
Proof.
  intros Hp. destruct (Buffer.buffer_make_ok (read_buffer_size params) 64) as (M1&M2&M3); [lia|lia|].
  split; [|by left; split; [left|]]. constructor; cbn [connection0 read_buf_ parse_need_]; try done; lia || (simpl; lia).
Qed.

Lemma connection0_good :
  one_read -> 0 <= read_buffer_size params < 2 ^ 62 -> callback_app -> (forall ms, installed (CbMessages ms) = true) ->
  good [] (connection0 false).
Proof.
  intros Ho Hp Hc Hi. destruct (Buffer.buffer_make_ok (read_buffer_size params) 64) as (M1&M2&M3); [lia|lia|].
  split; [by apply connection0_inv|]. split; [done|]. split; [by exists [], []|]. split; [by apply no_read_tail|].
  intros _. split; [|by left]. exists [], []. cbn [connection0 set_batch read_buf_ batch_ trace]. rewrite M3. done.
Qed.

(** ** Any connection, event by event *)

(** Where the write side stands before the part of a step that only queues. *)
Definition write_base (ev : Event) (c : Connection) : Connection :=
  match ev with
  | EvSent r => if r <? 0 then set_inflight 0 c else settle r c
  | EvFlush => flush_write c
  | _ => c
  end.

Definition advanced (ev : Event) (c c' : Connection) : Prop :=
  inv c' /\ wfollows (write_base ev c) c'
  /\ Buffer.size_ (read_buf_ c') <= Buffer.size_ (read_buf_ c) + ev_bytes ev.

Lemma okt_ok c x : okt c x -> ok False c x.
Proof. intros (c'&->&I&F&_). by exists c'. Qed.

Lemma ok_advanced n c c1 x c' :
  inv c -> inv c1 -> Buffer.readable (read_buf_ c1) = Buffer.readable (read_buf_ c) -> 0 <= n ->
  ok False c1 x -> x = Some c' ->
  inv c' /\ wfollows c1 c' /\ Buffer.size_ (read_buf_ c') <= Buffer.size_ (read_buf_ c) + n.
Proof.
  intros I I1 R Hn (c2&->&I2&F2) [= <-]. split; [done|]. split; [by eapply wfollows_of|].
  rewrite <- !readable_size by done. rewrite (f_rd _ _ _ F2), R. lia.
Qed.

Lemma deliver_advanced k bs flags fds c c' :
  inv c -> Buffer.size_ (read_buf_ c) + zlen bs < 2 ^ 59 ->
  deliver k bs flags fds c = Some c' -> advanced (EvRecv k bs flags fds) c c'.
Proof.
  intros I Hz E. pose proof (zlen_nonneg bs) as Hn. unfold deliver in E. unfold advanced. cbn [write_base ev_bytes].
  assert (inv c /\ wfollows c c /\ Buffer.size_ (read_buf_ c) <= Buffer.size_ (read_buf_ c) + zlen bs) as Hid
    by (split; [done|]; split; [apply wfollows_refl|lia]).
  destruct (reads c !! k) as [[[off len] cap]|] eqn:Es; [|by injection E as <-].
  destruct (fits k bs c) eqn:Ef; cbn [negb] in E; [|by injection E as <-].
  destruct (cap =? _); cbn [negb] in E; [|done].
  destruct (Buffer.store_span off bs (read_buf_ c)) as [b1|] eqn:Eb1; [|done]. cbn [mbind option_bind] in E.
  pose proof I as [[B1 B2 B3 B4 B5] L]. destruct (Buffer.store_span_ok _ _ _ _ B1 Eb1) as (C1&C2&C3&C4&C5).
  pose proof (Buffer.io_pos _ B1). set (c1 := set_inbox fds (set_reads _ (set_rb b1 c))) in *.
  assert (inv c1) as I1.
  { split; [|exact L]. constructor; cbn [c1 read_buf_ parse_need_ set_inbox set_reads set_rb]; try done; try congruence. }
  assert (forall x, wfollows c1 x -> wfollows c x) as Hw by (intros x [? ?]; by constructor).
  destruct (decide (state_ c = Established)) as [Est|Est].
  - unfold fits in Ef. rewrite Es in Ef. apply andb_true_iff in Ef as [E1 E2]. bool_to_prop.
    destruct (Buffer.commit (zlen bs) (read_buf_ c1)) as [b2|] eqn:Eb2.
    + destruct (on_recv_data (zlen bs) flags b2 c1 I1 Est) as [(c2&E3&I2&W2&O2&A2&Z2) _];
        [lia|change (read_buf_ c1) with b1; lia|done|].
      rewrite E in E3. injection E3 as <-. change (read_buf_ c1) with b1 in Z2. split; [done|]. split; [auto|lia].
    + exfalso. unfold on_recv in E.
      assert (forall (b : bool) x y, read_buf_ (if b then upd_coro x y else y) = read_buf_ y) as Hr by (by intros []).
      assert (forall (b : bool) x y s, is_state s (if b then upd_coro x y else y) = is_state s y) as Hi by (by intros []).
      rewrite Hi, Hr, Eb2 in E. assert (is_state Established c1 = true) as Ht by (by apply bool_decide_eq_true).
      rewrite Ht, (proj2 (Z.ltb_ge (zlen bs) 0)), (proj2 (Z.eqb_neq (zlen bs) 0)) in E by lia. done.
  - destruct (on_recv_done (zlen bs) flags c1 I1 ltac:(by right)) as (c2&E3&I2&F2&_).
    rewrite E in E3. injection E3 as <-. split; [done|]. split; [apply Hw; by eapply wfollows_of|].
    rewrite <- (readable_size c' I2), (f_rd _ _ _ F2), readable_size by done. change (read_buf_ c1) with b1. lia.
Qed.

Lemma step_advanced ev c c' :
  inv c -> Buffer.size_ (read_buf_ c) + ev_bytes ev < 2 ^ 59 -> step ev c = Some c' -> advanced ev c c'.
Proof.
  intros I Hz E. assert (advanced EvIdle c c) as Hid.
  { split; [done|]. split; [apply wfollows_refl|]. cbn [ev_bytes]. lia. }
  assert (state_ c = Connecting -> start app c = Some c' -> advanced EvIdle c c') as Hst.
  { intros Hc E'. destruct (start_ok c I Hc) as [I1 O1].
    destruct (ok_advanced 0 c _ _ c' I I1 eq_refl ltac:(lia) (okt_ok _ _ O1) E') as (H1&H2&H3). split; [done|]. split; [|done].
    destruct H2. by constructor. }
  destruct ev as [|r|k bs flags fds|k r|r| |o|]; cbn [step] in E; unfold advanced; cbn [write_base ev_bytes] in *.
  - case_match eqn:Es; [by apply Hst, E; apply is_state_true in Es|by injection E as <-].
  - cbn [on_completion] in E. unfold on_connect_result in E. destruct (is_state Connecting c) eqn:Es; cbn [negb] in E; [|by injection E as <-].
    case_match; [case_match; [by injection E as <-|]|by apply Hst, E; apply is_state_true in Es].
    eapply ok_advanced; [done|done|done|lia|by apply app_close_ok|done].
  - by apply (deliver_advanced k bs flags fds).
  - case_match; [by injection E as <-|]. bool_to_prop. cbn [on_completion] in E. set (c1 := set_reads _ c) in E.
    assert (inv c1) as I1 by (by apply set_reads_inv).
    assert (inv c' /\ wfollows c1 c' /\ Buffer.size_ (read_buf_ c') <= Buffer.size_ (read_buf_ c) + 0) as (?&[? ?]&?).
    { eapply ok_advanced; [done|done|done|lia| |exact E]. apply okt_ok, on_recv_done; [done|by left]. }
    split; [done|]. split; [by constructor|done].
  - cbn [on_completion] in E. destruct (on_sent_ok r c I) as (I1&S1&O1).
    eapply ok_advanced; [done|done|by rewrite (s_rb _ _ S1)|lia|by apply okt_ok|done].
  - cbn [on_completion] in E. injection E as <-. destruct (flush_write_ok c I) as [I1 S1].
    split; [done|]. split; [apply wfollows_refl|]. rewrite (s_rb _ _ S1). lia.
  - eapply ok_advanced; [done|done|done|lia| |exact E]. by apply (user_op_ok 1).
  - eapply ok_advanced; [done|done|done|lia|by apply app_close_ok|done].
Qed.

Lemma run_inv s evs c c' s' :
  inv c -> Buffer.size_ (read_buf_ c) + total_bytes evs < 2 ^ 59 -> run evs c s = Some (c', s') -> inv c'.
Proof.
  revert s c. induction evs as [|ev evs IH]; intros s c I Hz E; cbn [run] in E; [by injection E as <- <-|].
  unfold total_bytes in Hz. cbn [foldr] in Hz. fold (total_bytes evs) in Hz. pose proof (total_nonneg evs).
  destruct (step ev c) as [c1|] eqn:E1; [|done]. cbn [mbind option_bind] in E.
  destruct (step_advanced ev c c1 I ltac:(lia) E1) as (I1&_&Z1). eapply IH; [exact I1|lia|exact E].
Qed.

(** ** The sent stream *)

(** The bytes of the last send submitted. *)
Definition last_sub (c : Connection) : list Z := default [] (last (subs (trace c))).

(** Runs events, collecting what the sends put on the wire: a send completion
    only happens for a send in flight, with at most its length, and comes with the
    number of bytes of that send the kernel took. *)
Fixpoint run_wire (evs : list (Event * Z)) (c : Connection) (wire : list Z) : option (Connection * list Z) :=
  match evs with
  | [] => Some (c, wire)
  | (EvSent r, n) :: evs =>
      if (0 <? write_inflight_ c) && (r <=? write_inflight_ c) then
        c' ← step (EvSent r) c; run_wire evs c' (wire ++ take (Z.to_nat n) (last_sub c))
      else run_wire evs c wire
  | (ev, _) :: evs => c' ← step ev c; run_wire evs c' wire
  end.



Context (Hpolicy : on_overflow (flow params) <> DropOldest).






(** ** Properties *)

(** C1: the messages a callback-mode connection delivers are the frames of the
    byte stream it received, whatever the chunks.  For a connection that is not used
    by coroutines and has a message handler, over a backend that takes no second
    receive while one it took may still bring bytes, and for every sequence of
    events and whatever the application does in its callbacks (sends, half-closes,
    closes, idle timeouts, errors and cancelled reads included), every handler
    returns, the delivered messages are, in order, the first frames of the stream,
    and while the connection is established they and the bytes waiting in the read
    buffer are all of it and no complete frame is waiting.  The conditions are
    needed: [coroutine_repark_corrupts_stream], [resumed_read_corrupts_stream]. *)
Theorem connection_frames_the_stream evs :
  one_read -> callback_app -> (forall ms, installed (CbMessages ms) = true) ->
  0 <= read_buffer_size params < 2 ^ 62 -> Forall callback_ev evs -> total_bytes evs < 2 ^ 59 ->
  exists c stream, run evs (connection0 false) [] = Some (c, stream)
    /\ exists fs rest, Forall2 frame_of (msgs (trace c)) fs /\ stream = concat fs ++ rest
       /\ (state_ c = Established ->
           rest = Buffer.readable (read_buf_ c) /\ (stream = [] \/ exists n, parse rest = PNeedMore n)).
Proof.
  intros Ho Hc Hi Hp Hev Hz. pose proof (connection0_good Ho Hp Hc Hi) as G.
  destruct (run_good [] evs (connection0 false) G Hev) as (c&s&E&(I&Hm&Hs&Ht&Ha)); [exact Hz|].
  exists c, s. split; [done|]. destruct (decide (state_ c = Established)) as [Est|Est].
  - destruct (Ha ltac:(by right)) as [(fs&fb&H1&H2&Es) Hn]. apply Forall2_nil_inv_l in H2 as ->.
    exists fs, (Buffer.readable (read_buf_ c)). split; [done|]. split; [exact Es|]. by split.
  - destruct Hs as (fs&rest&H1&Es). by exists fs, rest.
Qed.

(** C3: a connection closes exactly once.  In callback and in coroutine mode,
    over any backend, after any events the connection is open with its descriptor open and no
    closing step taken, or it is closed, its descriptor closed, and the closing
    steps of one reason were taken once and in order: descriptor closed,
    [on_close] called, sink released, owner notified. *)
Theorem connection_closes_exactly_once coro evs c stream :
  0 <= read_buffer_size params < 2 ^ 62 -> total_bytes evs < 2 ^ 59 ->
  run evs (connection0 coro) [] = Some (c, stream) ->
  is_open c /\ fd_open c = true /\ closing (trace c) = []
  \/ state_ c = SClosed /\ fd_open c = false /\
     exists r n, (n = EDeferNotify r \/ n = ENotify r) /\ closing (trace c) = closing_seq r n.
Proof.
  intros Hp Hz E. apply (run_inv [] evs (connection0 coro) c stream); [by apply connection0_inv|done|done].
Qed.


(** ** A stall under [StopReading] *)

(** The write side draining: flushes, sends that complete, and the completion of
    the read that was cancelled. *)
Definition drain_ev (ev : Event) : Prop :=
  match ev with EvFlush => True | EvSent r => 0 <= r | EvRecvRes _ r => r = - Epoll.ECANCELED | _ => False end.

(** Reads paused without the mark that would resume them. *)
Definition stuck (rs : list (Z * Z * Z)) (c : Connection) : Prop :=
  state_ c = Established /\ read_paused_ c = true /\ backpressured_ c = false /\ reads c `sublist_of` rs.

Lemma settle_stuck rs r c : stuck rs c -> stuck rs (settle r c).
Proof.
  intros (S1&S2&S3&S4). unfold settle.
  change (is_state ShutdownWrite (eff (ERecord RecSend (u32 r)) (eff (EStat BytesOut r) (consume_bytes r (set_inflight 0 c)))))
    with (is_state ShutdownWrite c).
  assert (is_state ShutdownWrite c = false) as -> by (apply bool_decide_eq_false; congruence). by repeat split.
Qed.

Lemma stuck_step rs ev c : stuck rs c -> drain_ev ev -> exists c', step ev c = Some c' /\ stuck rs c'.
Proof.
  intros Hst Hev. pose proof Hst as (S1&S2&S3&S4). destruct ev as [|r|k bs flags fds|k r|r| |o|]; try done; cbn [drain_ev step] in *.
  - subst r. cbn [on_completion]. change (0 <? - Epoll.ECANCELED) with false. cbv iota.
    assert (stuck rs (set_reads (delete k (reads c)) c)) as Hst' by (split; [done|]; split; [done|]; split; [done|]; etrans; [apply sublist_delete|exact S4]).
    clear Hst S1 S2 S3 S4. revert Hst'. generalize (set_reads (delete k (reads c)) c). clear c k. intros c Hst. unfold on_recv.
    set (c0 := if on (coro_ c) then upd_coro (set_armed false) c else c).
    assert (stuck rs c0) as (T1&T2&T3&T4) by (subst c0; by destruct (on (coro_ c))).
    assert (is_state Established c0 = true) as -> by (by apply bool_decide_eq_true). cbn [negb].
    change (- Epoll.ECANCELED <? 0) with true. change (- Epoll.ECANCELED =? - Epoll.ECANCELED) with true. rewrite orb_true_r.
    assert (forall k, arm_recv (set_coro k c0) = Some (set_coro k c0)) as Ha.
    { intros k. unfold arm_recv. cbn [read_paused_ set_coro]. by rewrite T2. }
    unfold rearm_recv. destruct (on (coro_ c0)); [destruct (negb (armed (coro_ c0)))|].
    + unfold upd_coro. rewrite Ha. eexists. split; [done|]. by repeat split.
    + by exists c0.
    + specialize (Ha (coro_ c0)). rewrite set_coro_id in Ha. exists c0. by split.
  - cbn [on_completion]. pose proof (settle_stuck rs r c Hst) as Hs'. unfold on_sent.
    rewrite (proj2 (Z.ltb_ge r 0)) by done. fold (settle r c).
    change (let c0 := _ in let c1 := _ in _ ≫= _) with
      (c ← relieve app (settle r c); Some (if bool_decide (write_buf_ c = []) then c else eff ENoteWrite c)).
    pose proof Hs' as (T1&T2&T3&T4). unfold relieve. rewrite T3. cbn [andb mbind option_bind].
    eexists. split; [done|]. by case_match.
  - cbn [on_completion]. eexists. split; [done|]. unfold flush_write. case_match; [done|]. by case_match.
Qed.

(** under [StopReading] an overflow pauses reads for good.  Once a send
    overflows the high watermark of a connection that was not yet marked as
    backpressured, the bytes are queued and reads are paused, and however much
    of the queue is then sent (all of it included) no read is ever armed again, and
    none is in flight but what the pause left there: only the mark, which this path does not set, makes a drained queue resume
    reads. *)
Theorem stop_reading_overflow_never_resumes bs c evs :
  on_overflow (flow params) = StopReading -> state_ c = Established -> backpressured_ c = false ->
  write_high_watermark (flow params) < zlen (write_buf_ c) + zlen bs -> Forall drain_ev evs ->
  exists c1, send app bs c = Some (Backpressured, c1) /\ write_buf_ c1 = write_buf_ c ++ bs
    /\ forall stream, exists c2, run evs c1 stream = Some (c2, stream)
       /\ read_paused_ c2 = true /\ reads c2 `sublist_of` reads c1.
Proof.
  intros Hp Hs Hb Hw Hev. unfold send.
  assert (is_state Established c = true) as -> by (by apply bool_decide_eq_true). cbn [negb].
  rewrite (proj2 (Z.ltb_lt _ _)) by done. unfold apply_overflow. rewrite Hp. eexists. split; [done|].
  split; [unfold pause_reads; cbv zeta; by case_match|].
  set (c1 := eff ENoteWrite _). assert (stuck (reads c1) c1) as Hst.
  { subst c1. unfold pause_reads. cbv zeta. by case_match; repeat split. }
  generalize dependent (reads c1). intros rs Hst. clearbody c1. intros stream. revert c1 Hst. induction Hev as [|ev evs He Hev IH]; intros c1 Hst; cbn [run].
  - exists c1. split; [done|]. by destruct Hst as (?&?&?&?).
  - destruct (stuck_step rs ev c1 Hst He) as (c2&->&H2). cbn [mbind option_bind].
    assert (taken ev c1 = []) as -> by (by destruct ev). rewrite app_nil_r. by apply IH.
Qed.
End Connection.

(** ** Concrete connections

    A protocol whose one-byte header is the length of the body. *)

Definition bytes_parse : list Z -> ParseResult FrameView := framer 1 any_header byte_size.
#[global] Instance bytes_laws : FramerLaws bytes_parse := framer_laws 1 any_header byte_size byte_sizes_fit.

Definition small_params : Params := mkParams (mkFlow 8 4 StopReading true) 0 128 false false.
Definition every_handler {Msg : Type} (k : @Callback Msg) : bool := true.
Definition loop_runs {Msg : Type} (t : list (@Eff Msg)) : bool := true.

(** A backend that holds one receive and drops it when it is cancelled, and one that
    takes any number and leaves them in flight. *)
Definition one_receive {Msg : Type} : @Receives Msg := mkReceives (fun _ => false) (fun _ => true).
Definition many_receives {Msg : Type} : @Receives Msg := mkReceives (fun _ => true) (fun _ => false).

(** An application that answers every batch with one byte. *)
Definition answering {Msg : Type} (t : list (@Eff Msg)) (k : @Callback Msg) : list UserOp :=
  match k with CbMessages _ => [USend [9]] | _ => [] end.

Lemma answering_callback : callback_app (Msg := FrameView) answering.
Proof. intros t []; simpl; repeat constructor. Qed.

Definition demo_events : list Event :=
  [EvStart; EvRecv 0 [2; 7] 0 []; EvRecv 0 [8; 0; 1] 0 []; EvFlush; EvSent 1; EvUser (UClose LocalClose); EvRecvRes 0 0].

Lemma connection_frames_the_stream_witness :
  exists c stream, run bytes_parse small_params every_handler answering loop_runs one_receive demo_events
      (connection0 small_params false) [] = Some (c, stream)
    /\ exists fs rest, Forall2 (frame_of bytes_parse) (msgs (trace c)) fs /\ stream = concat fs ++ rest
       /\ (state_ c = Established ->
           rest = Buffer.readable (read_buf_ c) /\ (stream = [] \/ exists n, bytes_parse rest = PNeedMore n)).
Proof.
  apply (connection_frames_the_stream bytes_parse small_params every_handler answering loop_runs one_receive demo_events
           (fun _ => eq_refl) answering_callback (fun _ => eq_refl)).
  - simpl. lia.
  - unfold demo_events. repeat constructor.
  - vm_compute. reflexivity.
Defined.

Lemma connection_closes_exactly_once_witness :
  exists c stream, run bytes_parse small_params every_handler answering loop_runs one_receive demo_events
      (connection0 small_params false) [] = Some (c, stream)
    /\ (is_open c /\ fd_open c = true /\ closing (trace c) = []
        \/ state_ c = SClosed /\ fd_open c = false /\
           exists r n, (n = EDeferNotify r \/ n = ENotify r) /\ closing (trace c) = closing_seq every_handler r n).
Proof.
  destruct (run bytes_parse small_params every_handler answering loop_runs one_receive demo_events
      (connection0 small_params false) []) as [[c stream]|] eqn:E.
  - exists c, stream. split; [reflexivity|].
    apply (connection_closes_exactly_once bytes_parse small_params every_handler answering loop_runs one_receive
             false demo_events c stream); [simpl; lia|vm_compute; reflexivity|exact E].
  - exfalso. vm_compute in E. discriminate.
Defined.



Definition open_connection : @Connection FrameView := set_state Established (connection0 small_params false).

Lemma stop_reading_overflow_never_resumes_witness :
  exists c1, send small_params every_handler loop_runs one_receive
        (app small_params every_handler answering loop_runs one_receive) [1; 2; 3; 4; 5; 6; 7; 8; 9] open_connection
      = Some (Backpressured, c1)
    /\ write_buf_ c1 = write_buf_ open_connection ++ [1; 2; 3; 4; 5; 6; 7; 8; 9]
    /\ forall stream, exists c2, run bytes_parse small_params every_handler answering loop_runs one_receive
         [EvFlush; EvRecvRes 0 (-125); EvSent 9] c1 stream = Some (c2, stream)
       /\ read_paused_ c2 = true /\ reads c2 `sublist_of` reads c1.
Proof.
  apply (stop_reading_overflow_never_resumes bytes_parse small_params every_handler answering loop_runs one_receive);
    try reflexivity. repeat constructor; simpl; lia.
Defined.

(** An application that half-closes when it gets a batch. *)
Definition half_closing {Msg : Type} (t : list (@Eff Msg)) (k : @Callback Msg) : list UserOp :=
  match k with CbMessages _ => [UShutdownWrite] | _ => [] end.

(** What remains to be read after [n] empty messages arrive in one read. *)
Definition after_half_close (n : nat) : option (ConnState * bool) :=
  '(c, _) ← run bytes_parse small_params every_handler half_closing loop_runs one_receive
    [EvStart; EvRecv 0 (replicate n 0) 0 []] (connection0 small_params false) [];
  Some (state_ c, bool_decide (reads c <> [])).

(** a half-close made from a full batch leaves no read outstanding.  When the
    handler half-closes on the last batch of a read, the drain read that waits
    for the peer's end of stream is armed; when it does so on a batch that
    filled the scratch vector (64 messages), the read loop returns without
    arming it, so the half-closed connection never sees the peer close. *)
Theorem half_close_on_full_batch_arms_no_read :
  after_half_close 63 = Some (ShutdownWrite, true) /\ after_half_close 64 = Some (ShutdownWrite, false).
Proof. split; vm_compute; reflexivity. Qed.

(** A session that parks again each time it is given a batch. *)
Definition session (t : list (@Eff FrameView)) (k : @Callback FrameView) : list UserOp :=
  match k with CbOpen => [UAwaitRecv] | CbResumeRecv (Val _) => [UAwaitRecv] | _ => [] end.

(** The batches the session was given. *)
Definition resumed (t : list (@Eff FrameView)) : list (list FrameView) :=
  omap (fun e => match e with ECall (CbResumeRecv (Val ms)) => Some ms | _ => None end) t.

Definition session_run (evs : list Event) : option (list (list FrameView)) :=
  '(c, _) ← run bytes_parse small_params every_handler session loop_runs one_receive evs (connection0 small_params true) [];
  Some (drop 1 (resumed (trace c))).

(** parking again in the middle of a read corrupts the stream.  A session
    that awaits the next batch as soon as it gets one has its read armed while
    the parse loop still runs, at the end of the bytes then in the buffer; when
    the loop drains the buffer, [consume] moves its start back, and the bytes
    the read brings are not where [commit] exposes them.  After 65 empty
    messages in one read, the frame [[2; 7; 8]] arrives as three empty messages;
    after 64 it arrives as itself. *)
Theorem coroutine_repark_corrupts_stream :
  session_run [EvStart; EvRecv 0 (replicate 64 0) 0 []; EvRecv 0 [2; 7; 8] 0 []] = Some [[([2], [7; 8])]]
  /\ session_run [EvStart; EvRecv 0 (replicate 65 0) 0 []; EvRecv 0 [2; 7; 8] 0 []]
     = Some [[([0], [])]; [([0], []); ([0], []); ([0], [])]].
Proof. split; vm_compute; reflexivity. Qed.

(** The stream and the messages when reads are paused with one in flight and resumed
    before it has ended, over a given backend. *)
Definition resumed_run (be : Receives) : option (list Z * list FrameView) :=
  '(c, stream) ← run bytes_parse small_params every_handler (fun _ _ => []) loop_runs be
    [EvStart; EvUser (USend [1; 2; 3; 4]); EvFlush; EvUser (USend [5; 6; 7; 8]); EvSent 4;
     EvRecv 0 [2; 7] 0 []; EvRecv 0 [8] 0 []] (connection0 small_params false) [];
  Some (stream, msgs (trace c)).

(** resuming reads while a cancelled receive is still in flight corrupts the stream.
    Reads are paused at the high watermark and resumed when the send in flight
    completes; over a backend that then takes a second receive, both write at the
    end of the buffer as it was, and the second overwrites what the first brought:
    the frame [[2; 7; 8]] is never delivered.  Over a backend that refuses the second
    receive until the first has ended, it is. *)
Theorem resumed_read_corrupts_stream :
  resumed_run many_receives = Some ([2; 7; 8], [])
  /\ resumed_run (mkReceives (fun _ => false) (fun _ => false)) = Some ([2; 7; 8], [([2], [7; 8])]).
Proof. split; vm_compute; reflexivity. Qed.

(** ** Over the epoll backend *)

(** The last completion of a writable event, and the backend after it. *)
Definition epoll_writable (fd : Z) (e : Epoll.EpollBackend) : option (Z * Epoll.EpollBackend) :=
  '(s, out, e) ← Epoll.on_writable Epoll.small_kernel 10 fd (Epoll.fd_ref e fd) 4 [] e;
  c ← last out;
  Some (result c, Epoll.fd_put fd s e).

(** Queues [bs], flushes it to an epoll backend whose first write takes two
    bytes, completes that send, and flushes again: the bytes queued and those on
    the wire. *)
Definition send_over_epoll (bs : list Z) : option (list Z * list Z) :=
  let run := run bytes_parse small_params every_handler answering loop_runs one_receive in
  '(c, _) ← run [EvUser (USend bs); EvFlush] open_connection [];
  let e := snd (Epoll.submit_send Epoll.small_kernel 9 3 (last_sub c) Epoll.epoll0) in
  '(r, e) ← epoll_writable 3 e;
  '(c, _) ← run [EvSent r; EvFlush] c [];
  let e := snd (Epoll.submit_send Epoll.small_kernel 9 3 (last_sub c) e) in
  Some (queued (trace c), Epoll.wire 3 (Epoll.log e)).

(** over the epoll backend a partial write makes a connection send bytes
    twice.  The backend reports only the bytes of the second write; the
    connection consumes that many, keeps as many bytes as the first write took
    at the end of its buffer, and sends them again. *)
Theorem epoll_partial_write_duplicates_bytes :
  send_over_epoll [1; 2; 3; 4; 5] = Some ([1; 2; 3; 4; 5], [1; 2; 3; 4; 5; 4; 5]).
Proof. vm_compute. reflexivity. Qed.

(** ** Dropping the oldest bytes *)

Definition dropping_params : Params := mkParams (mkFlow 8 4 DropOldest true) 0 128 false false.

(** Under [DropOldest], an overflow while a send is in flight discards the new
    bytes: the drop takes the front of the buffer, which is the send in flight,
    and its completion takes as many bytes again. *)
Theorem drop_oldest_in_flight_loses_newest :
  match run_wire bytes_parse dropping_params every_handler answering loop_runs one_receive
    [(EvStart, 0); (EvUser (USend [1; 2; 3; 4; 5; 6]), 0); (EvFlush, 0); (EvUser (USend [7; 8; 9; 10]), 0); (EvSent 6, 6)]
    (connection0 dropping_params false) [] with
  | Some (c, wire) => wire = [1; 2; 3; 4; 5; 6] /\ write_buf_ c = []
      /\ queued (trace c) = [1; 2; 3; 4; 5; 6; 7; 8; 9; 10]
  | None => False
  end.
Proof. vm_compute. repeat split. Qed.

End Conn.
