(* ===== verification/Admin.v ===== *)
(** * The admin endpoint

    [src/include/afx/admin/server.hpp] and [src/src/admin/server.cpp]: routing, the
    gather that collects a page's data from every shard, toggles and responses.
    Pages are AdminPages.v, requests Http.v and the connections they arrive on
    Connection.v; the server's thread is AdminServer.v.

    [Admin] interleaves the admin thread with the shards' threads: the loop of
    [gather_start] posts one task at a time while shards run theirs, a shard's task
    takes its slot, fills it and posts back, and timers fire between tasks.  A shard
    that is not there, or whose mailbox refuses, and an admin mailbox that
    refuses, are choices of the schedule.  [raced] records that a page was rendered
    while a shard was writing a slot of it. *)

From stdpp Require Import base option gmap list strings.
From Stdlib Require Import ZArith Lia.
From S2P Require Import Prelude FlightRecorder Http Runtime AdminPages Backend Connection.
Local Open Scope Z_scope.

Module Admin.
Import Http Pages.

(** ** Shards *)

Inductive GatherKind := GStats | GMetrics | GConns | GFlight | GConfig.
#[global] Instance gather_kind_eq : EqDecision GatherKind.
Proof. solve_decision. Defined.

Inductive Task := TGather (g : nat) | TStall (ns : Z) | TChaos (on : bool).

(** What a shard's task reads. *)
Record ShardData := mkData {
  d_name : list Z;
  d_stats : Stats;
  d_lat : LatencyMetrics;
  d_conns : list ConnInfo;
  d_recorder : @Recorder.FlightRecorder FlightRecord;
  d_config : EmConfig }.

(** A shard: its data, the tasks in its mailbox, and the gather whose slot it is
    writing. *)
Record Shard := mkShard { data : ShardData; queue : list Task; busy : option nat }.

(** The task of [gather_start]: only what the page needs is copied. *)
Definition fill (k : GatherKind) (d : ShardData) (s : ShardSnap) : ShardSnap :=
  mkSnap (d_name d)
    (match k with GStats | GMetrics => d_stats d | _ => s_stats s end)
    (match k with GMetrics => d_lat d | _ => s_lat s end)
    (match k with GConns => s_conns s ++ d_conns d | _ => s_conns s end)
    (match k with GFlight => Recorder.snapshot Recorder.kCapacity (d_recorder d) | _ => s_flight s end)
    (match k with GConfig => config_text (d_config d) | _ => s_cfg s end)
    true.

Definition set_stall (ns : Z) (c : EmConfig) : EmConfig :=
  mkEmConfig (wait_block c) (wait_spin c) (spin_budget c) (timer_tick c) ns (arena_bytes c) (mailbox_capacity c) (chaos_on c) (profile_stages c).
Definition set_chaos (on : bool) (c : EmConfig) : EmConfig :=
  mkEmConfig (wait_block c) (wait_spin c) (spin_budget c) (timer_tick c) (stall_threshold c) (arena_bytes c) (mailbox_capacity c) on (profile_stages c).
Definition with_config (f : EmConfig -> EmConfig) (s : Shard) : Shard :=
  let d := data s in
  mkShard (mkData (d_name d) (d_stats d) (d_lat d) (d_conns d) (d_recorder d) (f (d_config d))) (queue s) (busy s).

(** ** State *)

Record Gather := mkGather {
  g_kind : GatherKind;
  reply_conn : nat;
  arrived : nat;
  snaps : list ShardSnap;
  deadline : bool }.

Notation HttpConn := (@Conn.Connection HttpRequest).

(** Where the admin thread is: between tasks, in [on_messages], or in the loop of
    [gather_start]. *)
Inductive Pc :=
  | Idle
  | Serving (id : nat) (rest : list HttpRequest)
  | Starting (g i : nat) (id : nat) (rest : list HttpRequest).

Record Admin := mkAdmin {
  pc : Pc;
  conns : gmap nat HttpConn;
  gathers : list Gather;
  inbox : list nat;             (* arrivals posted to the admin thread *)
  shards : list Shard;
  placement : list (Runtime.ShardInfo * Z);
  log_level : Z;
  answers : list (nat * bool);  (* gathers answered, and whether at the deadline *)
  raced : bool }.

Definition set_pc p a := mkAdmin p (conns a) (gathers a) (inbox a) (shards a) (placement a) (log_level a) (answers a) (raced a).
Definition set_conns c a := mkAdmin (pc a) c (gathers a) (inbox a) (shards a) (placement a) (log_level a) (answers a) (raced a).
Definition set_gathers g a := mkAdmin (pc a) (conns a) g (inbox a) (shards a) (placement a) (log_level a) (answers a) (raced a).
Definition set_inbox i a := mkAdmin (pc a) (conns a) (gathers a) i (shards a) (placement a) (log_level a) (answers a) (raced a).
Definition set_shards s a := mkAdmin (pc a) (conns a) (gathers a) (inbox a) s (placement a) (log_level a) (answers a) (raced a).
Definition set_level l a := mkAdmin (pc a) (conns a) (gathers a) (inbox a) (shards a) (placement a) l (answers a) (raced a).
Definition note_answer g t r a := mkAdmin (pc a) (conns a) (gathers a) (inbox a) (shards a) (placement a) (log_level a) (answers a ++ [(g, t)]) (raced a || r).

Definition bump (g : Gather) : Gather := mkGather (g_kind g) (reply_conn g) (S (arrived g)) (snaps g) (deadline g).
Definition set_deadline (d : bool) (g : Gather) : Gather := mkGather (g_kind g) (reply_conn g) (arrived g) (snaps g) d.
Definition set_snap (i : nat) (f : ShardSnap -> ShardSnap) (g : Gather) : Gather :=
  mkGather (g_kind g) (reply_conn g) (arrived g) (alter f i (snaps g)) (deadline g).
Definition upd_gather (f : Gather -> Gather) (g : nat) (a : Admin) : Admin := set_gathers (alter f g (gathers a)) a.
Definition push_task (t : Task) (s : Shard) : Shard := mkShard (data s) (queue s ++ [t]) (busy s).

Section Admin.
Context (request_timeout : Z)
        (version_text build : list Z)      (* [AFX_VERSION], [__DATE__ __TIME__] *)
        (chaos_compiled : bool).

(** ** Responses *)

(** The server installs [on_messages] alone, and leaves the flow control at its
    default. *)
Definition params : Conn.Params := Conn.mkParams Conn.default_flow request_timeout 65536 false false.
Definition installed (k : @Conn.Callback HttpRequest) : bool := match k with Conn.CbMessages _ => true | _ => false end.
Definition in_loop (t : list (@Conn.Eff HttpRequest)) : bool := true.
Definition no_callback (k : @Conn.Callback HttpRequest) (c : HttpConn) : option HttpConn := Some c.
Definition conn_send (bs : list Z) (c : HttpConn) : HttpConn :=
  match Conn.send params installed in_loop Conn.one_receive no_callback bs c with Some (_, c) => c | None => c end.

Definition response_head (status ctype : list Z) (len : Z) : list Z :=
  str "HTTP/1.1 " ++ status ++ CRLF ++ str "content-type: " ++ ctype ++ CRLF ++ str "content-length: " ++ to_string len
  ++ CRLF ++ str "connection: close" ++ CRLF ++ CRLF.

(** [respond_text] and [respond_bin] on the connection they resolved. *)
Definition reply_text (status ctype body : list Z) (c : HttpConn) : HttpConn :=
  Conn.shutdown_write params (conn_send (response_head status ctype (zlen body) ++ body) c).
Definition reply_bin (body : list Z) (c : HttpConn) : HttpConn :=
  let c := conn_send (response_head (str "200 OK") (str "application/octet-stream") (zlen body)) c in
  Conn.shutdown_write params (if bool_decide (body = []) then c else conn_send body c).

Definition resolve (id : nat) (a : Admin) : option HttpConn := c ← conns a !! id; Conn.resolve true c.

Definition respond_text (id : nat) (status ctype body : list Z) (a : Admin) : Admin :=
  match resolve id a with Some c => set_conns (<[id := reply_text status ctype body c]> (conns a)) a | None => a end.
Definition respond_bin (id : nat) (body : list Z) (a : Admin) : Admin :=
  match resolve id a with Some c => set_conns (<[id := reply_bin body c]> (conns a)) a | None => a end.

(** ** Gathering *)

Definition respond_page (g : Gather) (timed_out : bool) (a : Admin) : Admin :=
  let json := str "application/json" in
  match g_kind g with
  | GStats => respond_text (reply_conn g) (str "200 OK") json (stats_page timed_out (snaps g)) a
  | GMetrics => respond_text (reply_conn g) (str "200 OK") (str "text/plain; version=0.0.4") (metrics_page (snaps g)) a
  | GConns => respond_text (reply_conn g) (str "200 OK") json (conns_page (snaps g)) a
  | GFlight => respond_bin (reply_conn g) (flight_bin (snaps g)) a
  | GConfig => respond_text (reply_conn g) (str "200 OK") json (config_page (snaps g)) a
  end.

Definition being_written (g : nat) (a : Admin) : bool := existsb (fun s => bool_decide (busy s = Some g)) (shards a).

Definition gather_finish (g : nat) (timed_out : bool) (a : Admin) : Admin :=
  match gathers a !! g with
  | Some G =>
      if deadline G then note_answer g timed_out (being_written g a) (respond_page G timed_out (upd_gather (set_deadline false) g a))
      else if negb timed_out then a
      else note_answer g timed_out (being_written g a) (respond_page G timed_out a)
  | None => a
  end.

Definition gather_arrive (g : nat) (a : Admin) : Admin :=
  let a := upd_gather bump g a in
  match gathers a !! g with
  | Some G => if (arrived G =? length (snaps G))%nat then gather_finish g false a else a
  | None => a
  end.

(** What [gather_start] finds at a shard. *)
Inductive Reach := NoManager | Refused | Taken.

(** The beginning of [gather_start], and one round of its loop; after the last round,
    its end. *)
Definition gather_begin (k : GatherKind) (id : nat) (rest : list HttpRequest) (a : Admin) : Admin :=
  set_pc (Starting (length (gathers a)) 0 id rest)
    (set_gathers (gathers a ++ [mkGather k id 0 (replicate (length (shards a)) snap0) false]) a).

Definition gather_round (r : Reach) (g i : nat) (id : nat) (rest : list HttpRequest) (a : Admin) : Admin :=
  if (i <? length (shards a))%nat then
    let a := match r with
             | NoManager | Refused => upd_gather bump g a
             | Taken => set_shards (alter (push_task (TGather g)) i (shards a)) a
             end in
    set_pc (Starting g (S i) id rest) a
  else
    let a := set_pc (Serving id rest) a in
    match gathers a !! g with
    | Some G =>
        if (length (snaps G) =? arrived G)%nat then gather_finish g false a
        else upd_gather (set_deadline true) g a
    | None => a
    end.

(** ** Toggles *)

(** The loop over the shards from index [i]: posts that were taken, shards tried, and
    the shards. *)
Fixpoint for_each_loop (shard : Z) (t : Task) (rs : list Reach) (i : nat) (l : list Shard) : nat * nat * list Shard :=
  match l with
  | [] => (0%nat, 0%nat, [])
  | s :: l =>
      let '(d, n, l') := for_each_loop shard t (tail rs) (S i) l in
      if (0 <=? shard) && negb (Z.of_nat i =? shard) then (d, n, s :: l')
      else match default NoManager (head rs) with
           | NoManager => (d, n, s :: l')
           | Refused => (d, S n, s :: l')
           | Taken => (S d, S n, push_task t s :: l')
           end
  end.

Definition for_each_shard (shard : Z) (t : Task) (rs : list Reach) (id : nat) (a : Admin) : Admin :=
  let '(applied, target, l) := for_each_loop shard t rs 0 (shards a) in
  respond_text id (str "200 OK") (str "application/json")
    (snprintf 128 (lit "{'applied':" ++ udec (Z.of_nat applied) ++ lit ",'targeted':" ++ udec (Z.of_nat target) ++ str "}"))
    (set_shards l a).

(** ** Routing *)

Definition is_path (r : HttpRequest) (m p : string) : bool := bool_decide (method r = str m) && bool_decide (path r = str p).

Definition version_page : list Z :=
  snprintf 256 (lit "{'version':'" ++ version_text ++ lit "','build':'" ++ build ++ lit "','chaos_compiled':"
                ++ bool_text chaos_compiled ++ str "}").

Definition index_page : list Z :=
  str "GET /healthz /version /stats /metrics /conns /placement /config /flight" ++ [LF]
  ++ str "POST /admin/stall_threshold?ns=N[&shard=i]" ++ [LF]
  ++ str "POST /admin/chaos?on=0|1[&shard=i]" ++ [LF]
  ++ str "POST /admin/log_level?level=debug|info|warn|error" ++ [LF].

Definition level_of (lv : list Z) : Z :=
  if bool_decide (lv = str "debug") then 3
  else if bool_decide (lv = str "warn") then 1
  else if bool_decide (lv = str "error") then 0
  else 2.

(** The page gathered for a request. *)
Definition gathered (r : HttpRequest) : option GatherKind :=
  if is_path r "GET" "/stats" then Some GStats
  else if is_path r "GET" "/metrics" then Some GMetrics
  else if is_path r "GET" "/conns" then Some GConns
  else if is_path r "GET" "/flight" then Some GFlight
  else if is_path r "GET" "/config" then Some GConfig
  else None.

(** The requests answered at once. *)
Definition answer_now (rs : list Reach) (r : HttpRequest) (id : nat) (a : Admin) : Admin :=
  let ok := str "200 OK" in
  let json := str "application/json" in
  let shard := qnum (query r) (str "shard") (-1) in
  if is_path r "GET" "/healthz" then respond_text id ok (str "text/plain") (str "ok" ++ [LF]) a
  else if is_path r "GET" "/version" then respond_text id ok json version_page a
  else if is_path r "GET" "/placement" then respond_text id ok json (placement_page (placement a)) a
  else if is_path r "POST" "/admin/stall_threshold" then
    for_each_shard shard (TStall (qnum (query r) (str "ns") 0)) rs id a
  else if is_path r "POST" "/admin/chaos" then
    for_each_shard shard (TChaos (negb (qnum (query r) (str "on") 0 =? 0))) rs id a
  else if is_path r "POST" "/admin/log_level" then
    respond_text id ok json (lit "{'applied':1}") (set_level (level_of (qget (query r) (str "level"))) a)
  else if is_path r "GET" "/" then respond_text id ok (str "text/plain") index_page a
  else respond_text id (str "404 Not Found") (str "text/plain") (str "not found" ++ [LF]) a.

Definition route (rs : list Reach) (r : HttpRequest) (id : nat) (rest : list HttpRequest) (a : Admin) : Admin :=
  let skip := set_pc (Serving id rest) in
  match resolve id a with
  | Some c =>
      if Conn.is_state Conn.Established c then
        match gathered r with
        | Some k => gather_begin k id rest a
        | None => answer_now rs r id (skip a)
        end
      else skip a
  | None => skip a
  end.

(** ** Steps *)

Inductive Action :=
  | AMessages (id : nat) (batch : list HttpRequest)  (* the admin thread enters [on_messages] *)
  | ARoute (rs : list Reach)                         (* it routes the next request of the batch *)
  | ARound (r : Reach)                               (* a round of [gather_start] *)
  | AReturn                                          (* [on_messages] returns *)
  | AArrive                                          (* it runs the next task of its mailbox *)
  | ADeadline (g : nat)                              (* a gather's timer fires *)
  | AConn (id : nat) (c : option HttpConn)           (* the loop serves or drops a connection *)
  | ATask (i : nat)                                  (* a shard begins its next task *)
  | ADone (i : nat) (posted : bool)                  (* it ends a gather's task *)
  | AWork (i : nat) (d : ShardData).                 (* it does other work *)

Definition take_task (i : nat) (s : Shard) (a : Admin) : Admin :=
  match busy s, queue s with
  | None, TGather g :: q => set_shards (<[i := mkShard (data s) q (Some g)]> (shards a)) a
  | None, TStall ns :: q => set_shards (<[i := with_config (set_stall ns) (mkShard (data s) q None)]> (shards a)) a
  | None, TChaos on :: q =>
      set_shards (<[i := with_config (if chaos_compiled then set_chaos on else id) (mkShard (data s) q None)]> (shards a)) a
  | _, _ => a
  end.

Definition end_task (i : nat) (posted : bool) (s : Shard) (a : Admin) : Admin :=
  match busy s with
  | Some g =>
      let kind := default GStats (g_kind <$> gathers a !! g) in
      let a := upd_gather (set_snap i (fill kind (data s))) g a in
      let a := set_shards (<[i := mkShard (data s) (queue s) None]> (shards a)) a in
      if posted then set_inbox (inbox a ++ [g]) a else upd_gather bump g a
  | None => a
  end.

Definition step (a : Admin) (x : Action) : Admin :=
  match x with
  | AMessages id batch => match pc a with Idle => set_pc (Serving id batch) a | _ => a end
  | ARoute rs => match pc a with Serving id (r :: rest) => route rs r id rest a | _ => a end
  | ARound r => match pc a with Starting g i id rest => gather_round r g i id rest a | _ => a end
  | AReturn => match pc a with Serving id [] => set_pc Idle a | _ => a end
  | AArrive => match pc a, inbox a with Idle, g :: q => gather_arrive g (set_inbox q a) | _, _ => a end
  | ADeadline g =>
      match pc a, gathers a !! g with
      | Idle, Some G => if deadline G then gather_finish g true a else a
      | _, _ => a
      end
  | AConn id c => match pc a with Idle => set_conns (partial_alter (fun _ => c) id (conns a)) a | _ => a end
  | ATask i => match shards a !! i with Some s => take_task i s a | None => a end
  | ADone i posted => match shards a !! i with Some s => end_task i posted s a | None => a end
  | AWork i d =>
      match shards a !! i with
      | Some s => match busy s with None => set_shards (<[i := mkShard d (queue s) None]> (shards a)) a | Some _ => a end
      | None => a
      end
  end.

Definition run (xs : list Action) (a : Admin) : Admin := foldl step a xs.

Definition admin0 (ds : list ShardData) (infos : list (Runtime.ShardInfo * Z)) : Admin :=
  mkAdmin Idle ∅ [] [] ((fun d => mkShard d [] None) <$> ds) infos 2 [] false.

(** ** The gather's accounts *)

Definition is_gather (g : nat) (t : Task) : bool := match t with TGather g' => bool_decide (g' = g) | _ => false end.
Definition load (g : nat) (s : Shard) : nat :=
  (count_if (is_gather g) (queue s) + if bool_decide (busy s = Some g) then 1 else 0)%nat.
Definition pending (g : nat) (ss : list Shard) : nat := sum_list_with (load g) ss.
Definition posted_back (g : nat) (q : list nat) : nat := count_if (fun x => bool_decide (x = g)) q.
Definition answered (g : nat) (l : list (nat * bool)) : nat := count_if (fun x => bool_decide (fst x = g)) l.
Definition starting (p : Pc) (g : nat) : option nat :=
  match p with Starting g' i _ _ => if bool_decide (g' = g) then Some i else None | _ => None end.

(** The shards [gather_start] has asked. *)
Definition asked (n : nat) (st : option nat) : nat := match st with Some i => i | None => n end.

(** Every shard is accounted for: not yet asked, asked, its answer on the way, or
    arrived.  A gather is being started, waits for its deadline, has been answered
    once, or was lost because nothing was ever on its way. *)
Definition gather_ok (n P Q : nat) (st : option nat) (ans : nat) (G : Gather) : Prop :=
  length (snaps G) = n /\ (arrived G + P + Q = asked n st)%nat /\
  match st with
  | Some i => (i <= n)%nat /\ deadline G = false /\ ans = 0%nat
  | None => (deadline G = true /\ ans = 0%nat) \/ (deadline G = false /\ ans = 1%nat) \/
            (deadline G = false /\ ans = 0%nat /\ arrived G = n)
  end.

Definition account (p : Pc) (gs : list Gather) (q : list nat) (ss : list Shard) (ans : list (nat * bool)) (g : nat) : Prop :=
  match gs !! g with
  | Some G => gather_ok (length ss) (pending g ss) (posted_back g q) (starting p g) (answered g ans) G
  | None => pending g ss = 0%nat /\ posted_back g q = 0%nat /\ starting p g = None /\ answered g ans = 0%nat
  end.

Definition inv (a : Admin) : Prop :=
  (forall g, account (pc a) (gathers a) (inbox a) (shards a) (answers a) g) /\
  (raced a = true -> exists g, (g, true) ∈ answers a).

(** The parts of the state the accounts are about. *)
Definition same_accounts (a b : Admin) : Prop :=
  gathers b = gathers a /\ inbox b = inbox a /\ answers b = answers a /\ raced b = raced a /\
  length (shards b) = length (shards a) /\ (forall g, pending g (shards b) = pending g (shards a)).

Lemma admin_inv_same a b : same_accounts a b -> (forall g, starting (pc b) g = starting (pc a) g) -> inv a -> inv b.
Proof.
  intros (H1 & H2 & H3 & H4 & H5 & H6) Hp [Ha Hr]. split.
  - intros g. specialize (Ha g). unfold account in *. by rewrite H1, H2, H3, H5, H6, Hp.
  - by rewrite H3, H4.
Qed.

Lemma respond_text_same id st ct body a : same_accounts a (respond_text id st ct body a) /\ pc (respond_text id st ct body a) = pc a.
Proof. unfold respond_text. case_match; done. Qed.
Lemma respond_bin_same id body a : same_accounts a (respond_bin id body a) /\ pc (respond_bin id body a) = pc a.
Proof. unfold respond_bin. case_match; done. Qed.
Lemma respond_page_same G t a : same_accounts a (respond_page G t a) /\ pc (respond_page G t a) = pc a.
Proof. unfold respond_page. destruct (g_kind G); first [apply respond_text_same|apply respond_bin_same]. Qed.

Lemma pending_insert g i s s' ss : ss !! i = Some s -> (pending g (<[i := s']> ss) + load g s = pending g ss + load g s')%nat.
Proof.
  intros Hi. rewrite <-(take_drop_middle ss i s Hi) at 2. rewrite (insert_take_drop ss i s') by by eapply lookup_lt_Some.
  unfold pending. rewrite !sum_list_with_app. cbn [sum_list_with]. lia.
Qed.

Lemma for_each_loop_same shard t : (forall g, is_gather g t = false) -> forall l rs i,
  length (snd (for_each_loop shard t rs i l)) = length l /\ forall g, pending g (snd (for_each_loop shard t rs i l)) = pending g l.
Proof.
  intros Ht. induction l as [|s l IH]; intros rs i; [done|]. cbn [for_each_loop].
  specialize (IH (tail rs) (S i)). destruct (for_each_loop shard t (tail rs) (S i) l) as [[d n] l']. cbn [snd] in IH.
  destruct IH as [H1 H2].
  assert (forall s', (forall g, load g s' = load g s) -> length (s' :: l') = length (s :: l) /\ forall g, pending g (s' :: l') = pending g (s :: l)) as Hc.
  { intros s' Hs. split; [cbn; by rewrite H1|]. intros g. change (load g s' + pending g l' = load g s + pending g l)%nat. by rewrite Hs, H2. }
  repeat case_match; cbn [snd]; apply Hc; try done. intros g. unfold load. cbn [queue busy push_task]. rewrite count_if_app. cbn [count_if].
  rewrite Ht. lia.
Qed.

Lemma for_each_shard_same shard t rs id a : (forall g, is_gather g t = false) ->
  same_accounts a (for_each_shard shard t rs id a) /\ pc (for_each_shard shard t rs id a) = pc a.
Proof.
  intros Ht. unfold for_each_shard. destruct (for_each_loop_same shard t Ht (shards a) rs 0) as [H1 H2].
  destruct (for_each_loop shard t rs 0 (shards a)) as [[d n] l]. cbn [snd] in *.
  match goal with |- context [respond_text ?i ?x ?y ?z ?b] => destruct (respond_text_same i x y z b) as [(E1 & E2 & E3 & E4 & E5 & E6) Hp] end.
  split; [|exact Hp]. unfold same_accounts. rewrite E1, E2, E3, E4, E5. repeat split; [exact H1|]. intros g. rewrite E6. apply H2.
Qed.

Lemma answer_now_same rs r id a : same_accounts a (answer_now rs r id a) /\ pc (answer_now rs r id a) = pc a.
Proof.
  unfold answer_now. repeat case_match; try apply respond_text_same; try (apply for_each_shard_same; done).
  match goal with |- context [respond_text ?i ?x ?y ?z ?b] => exact (respond_text_same i x y z b) end.
Qed.

(** A change of one gather, the others' accounts kept. *)
Lemma account_alter p gs q ss ans f g g' :
  g' <> g -> account p gs q ss ans g' -> account p (alter f g gs) q ss ans g'.
Proof. intros Hne. unfold account. by rewrite list_lookup_alter_ne. Qed.

Lemma gather_finish_inv g timed_out a G :
  (forall g', account (pc a) (gathers a) (inbox a) (shards a) (answers a) g') ->
  (raced a = true -> exists g, (g, true) ∈ answers a) ->
  gathers a !! g = Some G -> starting (pc a) g = None -> deadline G = true ->
  (timed_out = false -> being_written g a = false) -> inv (gather_finish g timed_out a).
Proof.
  intros Ha Hr Hg Hs Hd Hw. unfold gather_finish. rewrite Hg, Hd.
  destruct (respond_page_same G timed_out (upd_gather (set_deadline false) g a)) as [(H1 & H2 & H3 & H4 & H5 & H6) Hp].
  split.
  - intros g'. cbn [pc gathers inbox shards answers note_answer]. rewrite Hp, H1, H2, H3. specialize (Ha g').
    assert (forall x y, account (pc a) (alter (set_deadline false) g (gathers a)) (inbox a) (shards a) (answers a ++ [(g, timed_out)]) g' ->
      length x = length (shards a) -> (forall g, pending g x = pending g (shards a)) -> y = shards a ->
      account (pc a) (alter (set_deadline false) g (gathers a)) (inbox a) x (answers a ++ [(g, timed_out)]) g') as Hcopy.
    { intros x y H Hx Hy _. unfold account in *. by rewrite Hx, Hy. }
    apply (Hcopy _ (shards a)); [|exact H5|exact H6|done]. unfold account in *. unfold answered in *. rewrite count_if_app. cbn [count_if fst].
    destruct (decide (g' = g)) as [->|Hne].
    + rewrite list_lookup_alter_eq, Hg in *. cbn [fmap option_fmap option_map]. unfold gather_ok in *. rewrite Hs in *.
      cbn [set_deadline snaps arrived deadline asked] in *. rewrite bool_decide_eq_true_2 by done.
      destruct Ha as (A1 & A2 & [[_ A3]|[[A3 _]|(A3 & _)]]); [|by rewrite Hd in A3|by rewrite Hd in A3].
      split; [exact A1|]. split; [exact A2|]. right. left. split; [done|lia].
    + rewrite list_lookup_alter_ne by done. rewrite bool_decide_eq_false_2 by done. rewrite !Nat.add_0_r. exact Ha.
  - cbn [raced answers note_answer]. rewrite H3, H4. intros H. apply orb_true_iff in H as [H|H].
    + destruct (Hr H) as [g' Hg']. exists g'. apply elem_of_app. by left.
    + destruct timed_out; [exists g; apply elem_of_app; right; left|]. rewrite (Hw eq_refl) in H. done.
Qed.

Lemma being_written_pending g a : pending g (shards a) = 0%nat -> being_written g a = false.
Proof.
  unfold being_written. induction (shards a) as [|s ss IH]; [done|]. cbn [existsb].
  change (pending g (s :: ss)) with (load g s + pending g ss)%nat. intros H. rewrite IH by lia. unfold load in H.
  destruct (bool_decide (busy s = Some g)); [lia|done].
Qed.

Lemma gather_arrive_inv g q a : inv a -> pc a = Idle -> inbox a = g :: q -> inv (gather_arrive g (set_inbox q a)).
Proof.
  intros [Ha Hr] Hp Hq. pose proof (Ha g) as Hg. unfold account in Hg. rewrite Hq in Hg. unfold posted_back in Hg. cbn [count_if] in Hg.
  rewrite bool_decide_eq_true_2 in Hg by done. destruct (gathers a !! g) as [G|] eqn:HG; [|lia].
  rewrite Hp in Hg. cbn [starting] in Hg. destruct Hg as (G1 & G2 & G3). cbn [asked] in G2.
  set (b := upd_gather bump g (set_inbox q a)).
  assert (gathers b !! g = Some (bump G)) as Hb.
  { unfold b, upd_gather. cbn [gathers set_gathers set_inbox]. rewrite list_lookup_alter_eq, HG. done. }
  assert (forall g', account (pc b) (gathers b) (inbox b) (shards b) (answers b) g') as Hacc.
  { intros g'. unfold b, upd_gather. cbn [gathers set_gathers set_inbox pc inbox shards answers].
    destruct (decide (g' = g)) as [->|Hne].
    - unfold account. rewrite list_lookup_alter_eq, HG. cbn [fmap option_fmap option_map]. unfold gather_ok. rewrite Hp. cbn [starting asked].
      cbn [bump snaps arrived deadline]. split; [exact G1|]. unfold posted_back. split; [lia|].
      destruct G3 as [G3|[G3|(_ & _ & G3)]]; [by left|by right; left|lia].
    - apply account_alter; [done|]. specialize (Ha g'). unfold account in *. rewrite Hq in Ha. unfold posted_back in *. cbn [count_if] in Ha.
      rewrite bool_decide_eq_false_2 in Ha by done. exact Ha. }
  unfold gather_arrive. fold b. rewrite Hb. cbn [bump arrived snaps]. case_match eqn:E; [|by split].
  apply Nat.eqb_eq in E. destruct (deadline G) eqn:Hd.
  - apply (gather_finish_inv g false b (bump G)); [done|exact Hr|done|by cbn; rewrite Hp|done|]. intros _.
    apply being_written_pending. change (pending g (shards a) = 0%nat). lia.
  - unfold gather_finish. rewrite Hb. cbn [bump deadline]. rewrite Hd. by split.
Qed.

Lemma alter_at {A} (f : A -> A) (i : nat) (x : A) (l : list A) : l !! i = Some x -> alter f i l = <[i := f x]> l.
Proof.
  intros Hi. apply list_eq. intros j. destruct (decide (j = i)) as [->|Hne].
  - rewrite list_lookup_alter_eq, Hi, list_lookup_insert_eq; [done|by eapply lookup_lt_Some].
  - by rewrite list_lookup_alter_ne, list_lookup_insert_ne.
Qed.

Lemma load_push g g' s : load g' (push_task (TGather g) s) = (load g' s + if bool_decide (g = g') then 1 else 0)%nat.
Proof. unfold load. cbn [queue busy push_task]. rewrite count_if_app. cbn [count_if is_gather]. lia. Qed.

(** Moving from one round to the next. *)
Lemma round_inv a b g i id rest G G' :
  inv a -> pc a = Starting g i id rest -> pc b = Starting g (S i) id rest -> (i < length (shards a))%nat ->
  gathers a !! g = Some G -> gathers b = <[g := G']> (gathers a) -> inbox b = inbox a -> answers b = answers a -> raced b = raced a ->
  length (shards b) = length (shards a) -> (forall g', g' <> g -> pending g' (shards b) = pending g' (shards a)) ->
  length (snaps G') = length (snaps G) -> deadline G' = deadline G ->
  (arrived G' + pending g (shards b) = S (arrived G + pending g (shards a)))%nat -> inv b.
Proof.
  intros [Ha Hr] Hp Hpb Hi HG Hgs Hq Hans Hrc Hl Hpend Hsn Hd Hsum. split; [|by rewrite Hans, Hrc].
  intros g'. specialize (Ha g'). unfold account in *. rewrite Hgs, Hq, Hans, Hl, Hpb. rewrite Hp in Ha. cbn [starting] in *.
  destruct (decide (g' = g)) as [->|Hne].
  - rewrite list_lookup_insert_eq by by eapply lookup_lt_Some. rewrite HG in Ha. rewrite bool_decide_eq_true_2 in * by done.
    unfold gather_ok in *. cbn [asked] in *. rewrite Hsn, Hd. destruct Ha as (A1 & A2 & A3 & A4 & A5). repeat split; (done || lia).
  - rewrite list_lookup_insert_ne, Hpend by done. rewrite bool_decide_eq_false_2 in * by done. exact Ha.
Qed.

(** The end of the loop. *)
Lemma last_round_inv g i id rest a : inv a -> pc a = Starting g i id rest -> (length (shards a) <= i)%nat ->
  inv (gather_round Taken g i id rest a).
Proof.
  intros [Ha Hr] Hp Hi. unfold gather_round. rewrite (proj2 (Nat.ltb_ge _ _)) by done. cbn [gathers set_pc].
  pose proof (Ha g) as Hg. unfold account in Hg. rewrite Hp in Hg. cbn [starting] in Hg. rewrite bool_decide_eq_true_2 in Hg by done.
  destruct (gathers a !! g) as [G|] eqn:HG; [|destruct Hg as (_ & _ & Hg & _); discriminate].
  destruct Hg as (G1 & G2 & G3 & G4 & G5). cbn [asked] in G2.
  assert (forall g', g' <> g -> account (Serving id rest) (gathers a) (inbox a) (shards a) (answers a) g') as Hother.
  { intros g' Hne. specialize (Ha g'). unfold account in *. rewrite Hp in Ha. cbn [starting] in *. by rewrite bool_decide_eq_false_2 in Ha. }
  case_match eqn:E.
  - apply Nat.eqb_eq in E. unfold gather_finish. cbn [gathers set_pc]. rewrite HG, G4. cbn [negb]. split; [|exact Hr]. intros g'.
    cbn [pc gathers inbox shards answers set_pc]. destruct (decide (g' = g)) as [->|]; [|by apply Hother].
    unfold account. rewrite HG. cbn [starting]. split; [exact G1|]. split; [cbn [asked]; lia|]. right. right. repeat split; (done || lia).
  - split; [|exact Hr]. intros g'. cbn [pc gathers inbox shards answers set_pc upd_gather set_gathers].
    destruct (decide (g' = g)) as [->|]; [|apply account_alter; [done|by apply Hother]].
    unfold account. rewrite list_lookup_alter_eq, HG. cbn [fmap option_fmap option_map starting]. split; [exact G1|].
    split; [cbn [asked set_deadline arrived]; lia|]. left. done.
Qed.

Lemma gather_round_inv r g i id rest a : inv a -> pc a = Starting g i id rest -> inv (gather_round r g i id rest a).
Proof.
  intros Hinv Hp. destruct (Nat.ltb_spec i (length (shards a))) as [Hi|Hi].
  - pose proof (proj1 Hinv g) as Hg. unfold account in Hg. rewrite Hp in Hg. cbn [starting] in Hg.
    rewrite bool_decide_eq_true_2 in Hg by done.
    destruct (gathers a !! g) as [G|] eqn:HG; [|destruct Hg as (_ & _ & Hg & _); discriminate]. clear Hg.
    destruct (lookup_lt_is_Some_2 (shards a) i Hi) as [s Hs]. unfold gather_round. rewrite (proj2 (Nat.ltb_lt _ _) Hi).
    assert (inv (set_pc (Starting g (S i) id rest) (upd_gather bump g a))) as Hbump.
    { apply (round_inv a _ g i id rest G (bump G) Hinv Hp); try reflexivity; [exact Hi|exact HG|..].
      exact (alter_at bump g G (gathers a) HG). }
    destruct r; [exact Hbump|exact Hbump|].
    pose proof (fun g' => pending_insert g' i s (push_task (TGather g) s) (shards a) Hs) as Hpi.
    apply (round_inv a _ g i id rest G G Hinv Hp); try reflexivity; [exact Hi|exact HG|..];
      cbn [gathers shards set_pc set_shards]; rewrite ?(alter_at (push_task (TGather g)) i s (shards a) Hs).
    + symmetry. by apply list_insert_id.
    + apply length_insert.
    + intros g' Hne. specialize (Hpi g'). rewrite load_push, bool_decide_eq_false_2 in Hpi by done. lia.
    + specialize (Hpi g). rewrite load_push, bool_decide_eq_true_2 in Hpi by done. lia.
  - assert (gather_round r g i id rest a = gather_round Taken g i id rest a) as ->
      by (unfold gather_round; by rewrite (proj2 (Nat.ltb_ge _ _)) by done).
    by apply last_round_inv.
Qed.

Lemma gather_begin_inv k id rest r p a : inv a -> pc a = Serving p (r :: rest) -> inv (gather_begin k id rest a).
Proof.
  intros [Ha Hr] Hp. split; [|exact Hr]. intros g. specialize (Ha g). unfold account in *. rewrite Hp in Ha.
  cbn [gather_begin pc gathers inbox shards answers set_pc set_gathers starting] in *.
  destruct (decide (g = length (gathers a))) as [->|Hne].
  - rewrite lookup_ge_None_2 in Ha by done. destruct Ha as (A1 & A2 & _ & A4). rewrite list_lookup_middle by done.
    rewrite bool_decide_eq_true_2 by done. unfold gather_ok. cbn [snaps arrived deadline asked]. rewrite length_replicate.
    repeat split; (done || lia).
  - rewrite bool_decide_eq_false_2 by done. destruct (Nat.lt_ge_cases g (length (gathers a))).
    + rewrite lookup_app_l by done. exact Ha.
    + rewrite lookup_ge_None_2 in Ha by done. rewrite lookup_ge_None_2; [exact Ha|]. rewrite length_app. cbn. lia.
Qed.

Lemma take_task_inv i s a : inv a -> shards a !! i = Some s -> inv (take_task i s a).
Proof.
  intros Hinv Hs.
  assert (forall s', (forall g, load g s' = load g s) -> inv (set_shards (<[i := s']> (shards a)) a)) as Hsame.
  { intros s' Hl. refine (admin_inv_same a _ _ _ Hinv); [|done]. repeat split; [apply length_insert|]. intros g.
    pose proof (pending_insert g i s s' (shards a) Hs) as H. rewrite Hl in H. cbn [shards set_shards]. lia. }
  unfold take_task. destruct (busy s) eqn:Hb; [exact Hinv|]. destruct (queue s) as [|[g|ns|on] q] eqn:Hq; [exact Hinv|..];
    apply Hsame; intros g'; unfold load; cbn [queue busy with_config]; rewrite Hq, Hb; cbn [count_if is_gather].
  - repeat case_bool_decide; simplify_eq; lia.
  - done.
  - done.
Qed.

Lemma end_task_inv i posted s a : inv a -> shards a !! i = Some s -> inv (end_task i posted s a).
Proof.
  intros Hinv Hs. unfold end_task. destruct (busy s) as [g|] eqn:Hb; [|exact Hinv]. cbn zeta.
  destruct Hinv as [Ha Hr]. set (kind := default _ _).
  pose proof (fun g' => pending_insert g' i s (mkShard (data s) (queue s) None) (shards a) Hs) as Hpi.
  assert (forall g', load g' s = load g' (mkShard (data s) (queue s) None) + if bool_decide (g = g') then 1 else 0)%nat as Hload.
  { intros g'. unfold load. cbn [queue busy]. rewrite Hb. repeat case_bool_decide; simplify_eq; lia. }
  assert (exists G, gathers a !! g = Some G) as [G HG].
  { pose proof (Ha g) as Hg. unfold account in Hg. destruct (gathers a !! g) as [G|]; [by exists G|]. destruct Hg as [Hg _].
    specialize (Hpi g). rewrite Hload, bool_decide_eq_true_2 in Hpi by done. lia. }
  assert (forall b gb q, b = mkAdmin (pc a) (conns a) gb q (<[i := mkShard (data s) (queue s) None]> (shards a)) (placement a) (log_level a)
      (answers a) (raced a) -> (forall g', g' <> g -> gb !! g' = gathers a !! g' /\ posted_back g' q = posted_back g' (inbox a)) ->
      (exists G', gb !! g = Some G' /\ length (snaps G') = length (snaps G) /\ deadline G' = deadline G /\
        (arrived G' + posted_back g q = S (arrived G + posted_back g (inbox a)))%nat /\ (arrived G <= arrived G')%nat) -> inv b) as Hall.
  { intros b gb q -> Hoth (G' & HG' & E1 & E2 & E3 & E4). split; [|exact Hr]. intros g'. cbn [pc gathers inbox shards answers].
    specialize (Ha g'). specialize (Hpi g'). unfold account in *. rewrite length_insert. rewrite Hload in Hpi.
    destruct (decide (g' = g)) as [->|Hne].
    - rewrite HG'. rewrite HG in Ha. rewrite bool_decide_eq_true_2 in Hpi by done. unfold gather_ok in *. rewrite E1, E2.
      destruct Ha as (A1 & A2 & A3). split; [exact A1|]. split; [lia|]. destruct (starting (pc a) g) as [k|]; [exact A3|].
      cbn [asked] in A2. destruct A3 as [A3|[A3|(_ & _ & A3)]]; [by left|by right; left|lia].
    - destruct (Hoth g' Hne) as [-> ->]. rewrite bool_decide_eq_false_2 in Hpi by done.
      replace (pending g' (<[i:=_]> (shards a))) with (pending g' (shards a)) by lia. exact Ha. }
  destruct posted.
  - refine (Hall _ _ _ eq_refl _ _).
    + intros g' Hne. split; [by apply list_lookup_alter_ne|]. unfold posted_back. cbn. rewrite count_if_app. cbn [count_if].
      rewrite bool_decide_eq_false_2 by done. lia.
    + eexists. split; [cbn [gathers set_inbox set_shards upd_gather set_gathers]; rewrite list_lookup_alter_eq, HG; reflexivity|]. cbn [set_snap snaps deadline arrived]. rewrite length_alter.
      repeat split; [|lia]. unfold posted_back. cbn. rewrite count_if_app. cbn [count_if]. rewrite bool_decide_eq_true_2 by done. lia.
  - refine (Hall _ _ _ eq_refl _ _).
    + intros g' Hne. split; [|done]. cbn [gathers set_inbox set_shards upd_gather set_gathers]. by rewrite !list_lookup_alter_ne.
    + eexists. split; [cbn [gathers set_inbox set_shards upd_gather set_gathers]; rewrite !list_lookup_alter_eq, HG; reflexivity|]. cbn [set_snap bump snaps deadline arrived]. rewrite length_alter.
      repeat split; lia.
Qed.

Lemma admin_step_inv a x : inv a -> inv (step a x).
Proof.
  intros Hinv. assert (forall p, (forall g, starting p g = None) -> (forall g, starting (pc a) g = None) -> inv (set_pc p a)) as Hpc.
  { intros p H1 H2. refine (admin_inv_same a _ _ _ Hinv); [done|]. intros g. cbn [pc set_pc]. by rewrite H1, H2. }
  destruct x as [id b|rs|r| | |g|id c|i|i posted|i d]; cbn [step].
  - destruct (pc a) eqn:Hp; [|exact Hinv..]. by apply Hpc.
  - destruct (pc a) as [|id [|r rest]|] eqn:Hp; [exact Hinv|exact Hinv| |exact Hinv]. unfold route.
    assert (inv (set_pc (Serving id rest) a)) as Hs by (by apply Hpc).
    destruct (resolve id a); [|exact Hs]. case_match; [|exact Hs]. destruct (gathered r); [by eapply gather_begin_inv|].
    destruct (answer_now_same rs r id (set_pc (Serving id rest) a)) as [H1 H2]. refine (admin_inv_same _ _ H1 _ Hs). intros g. by rewrite H2.
  - destruct (pc a) eqn:Hp; [exact Hinv|exact Hinv|]. by apply gather_round_inv.
  - destruct (pc a) as [|id [|r rest]|] eqn:Hp; [exact Hinv| |exact Hinv|exact Hinv]. by apply Hpc.
  - destruct (pc a) eqn:Hp; [|exact Hinv..]. destruct (inbox a) eqn:Hq; [exact Hinv|]. by apply gather_arrive_inv.
  - destruct (pc a) eqn:Hp; [|exact Hinv..]. destruct (gathers a !! g) as [G|] eqn:HG; [|exact Hinv].
    destruct (deadline G) eqn:Hd; [|exact Hinv]. destruct Hinv as [Ha Hr].
    by apply (gather_finish_inv g true a G); [..|by rewrite Hp|exact Hd|].
  - destruct (pc a); [|exact Hinv..]. by refine (admin_inv_same a _ _ _ Hinv).
  - destruct (shards a !! i) as [s|] eqn:Hs; [|exact Hinv]. by apply take_task_inv.
  - destruct (shards a !! i) as [s|] eqn:Hs; [|exact Hinv]. by apply end_task_inv.
  - destruct (shards a !! i) as [s|] eqn:Hs; [|exact Hinv]. destruct (busy s) eqn:Hb; [exact Hinv|].
    refine (admin_inv_same a _ _ _ Hinv); [|done]. repeat split; [apply length_insert|]. intros g. cbn [shards set_shards].
    pose proof (pending_insert g i s (mkShard d (queue s) None) (shards a) Hs) as H. unfold load in H. cbn [queue busy] in H.
    rewrite Hb in H. lia.
Qed.

Lemma admin_run_inv xs a : inv a -> inv (run xs a).
Proof. revert a. induction xs as [|x xs IH]; intros a Ha; [exact Ha|]. apply IH. by apply admin_step_inv. Qed.

Lemma admin0_inv ds infos : inv (admin0 ds infos).
Proof.
  split; [|done]. intros g. unfold account. cbn. repeat split; try done. induction ds as [|d ds IH]; [done|]. cbn in *.
  unfold pending in IH. by rewrite IH.
Qed.

(** C18: a page that is gathered from the shards is answered once.  Whatever the interleaving of the admin thread with the
    shards, whichever shards cannot be reached and whichever answers are lost, no gather is answered twice; one
    that waits for its deadline is answered when the deadline passes; a gather that has not been answered and
    waits for nothing is one of which nothing is on its way any more; and a page is rendered while a shard still writes
    to it only at a deadline. *)
Theorem gather_answers_once ds infos xs :
  let a := run xs (admin0 ds infos) in
  (forall g, (answered g (answers a) <= 1)%nat) /\
  (forall g G, gathers a !! g = Some G -> deadline G = true -> pc a = Idle ->
     answered g (answers a) = 0%nat /\ answered g (answers (step a (ADeadline g))) = 1%nat) /\
  (forall g G, gathers a !! g = Some G -> starting (pc a) g = None -> deadline G = false -> answered g (answers a) = 0%nat ->
     arrived G = length (snaps G) /\ pending g (shards a) = 0%nat /\ posted_back g (inbox a) = 0%nat) /\
  (raced a = true -> exists g, (g, true) ∈ answers a).
Proof.
  intros a. assert (inv a) as [Ha Hr] by apply admin_run_inv, admin0_inv. split; [|split; [|split; [|exact Hr]]].
  - intros g. specialize (Ha g). unfold account in Ha. destruct (gathers a !! g) as [G|]; [|lia]. destruct Ha as (_ & _ & H).
    destruct (starting (pc a) g); lia.
  - intros g G HG Hd Hp. pose proof (Ha g) as H0. pose proof (proj1 (admin_step_inv a (ADeadline g) (conj Ha Hr)) g) as H1.
    unfold account in H0. rewrite HG, Hp in H0. cbn [starting] in H0. destruct H0 as (_ & _ & [[_ H0]|[[H0 _]|(H0 & _)]]);
      [|congruence|congruence]. split; [exact H0|].
    cbn [step]. rewrite Hp, HG, Hd. unfold gather_finish. rewrite HG, Hd. unfold answered in *. cbn [answers note_answer].
    destruct (respond_page_same G true (upd_gather (set_deadline false) g a)) as [(_ & _ & -> & _) _]. rewrite count_if_app.
    cbn [answers upd_gather set_gathers count_if fst]. rewrite H0. by rewrite bool_decide_eq_true_2.
  - intros g G HG Hs Hd H0. specialize (Ha g). unfold account in Ha. rewrite HG, Hs in Ha. destruct Ha as (A1 & A2 & A3).
    cbn [asked] in A2. destruct A3 as [[A3 _]|[[_ A3]|(_ & _ & A3)]]; [congruence|lia|lia].
Qed.

(** ** Gathers nobody answers *)

Definition lost (g : nat) (a : Admin) : Prop :=
  exists G, gathers a !! g = Some G /\ deadline G = false /\ arrived G = length (shards a) /\
    starting (pc a) g = None /\ answered g (answers a) = 0%nat.

(** Nothing of gather [g] has changed. *)
Definition untouched (g : nat) (a b : Admin) : Prop :=
  gathers b !! g = gathers a !! g /\ answered g (answers b) = answered g (answers a) /\ length (shards b) = length (shards a).

Lemma same_untouched g a b : same_accounts a b -> untouched g a b.
Proof. intros (H1 & _ & H2 & _ & H3 & _). unfold untouched. by rewrite H1, H2, H3. Qed.

Lemma gather_finish_other g g' t a : g' <> g -> untouched g a (gather_finish g' t a) /\ pc (gather_finish g' t a) = pc a.
Proof.
  intros Hne. unfold gather_finish. destruct (gathers a !! g') as [G|]; [|done].
  assert (forall b, untouched g a b -> pc b = pc a ->
    untouched g a (note_answer g' t (being_written g' a) (respond_page G t b)) /\
    pc (note_answer g' t (being_written g' a) (respond_page G t b)) = pc a) as Hn.
  { intros b (H1 & H2 & H3) Hb. destruct (respond_page_same G t b) as [(E1 & _ & E2 & _ & E3 & _) E4].
    split; [|cbn [pc note_answer]; by rewrite E4]. unfold untouched. cbn [gathers answers shards note_answer]. rewrite E1, E2, E3.
    split; [exact H1|]. split; [|exact H3]. unfold answered in *. rewrite count_if_app. cbn [count_if fst].
    rewrite bool_decide_eq_false_2 by done. lia. }
  case_match; [|case_match; [done|by apply Hn]]. apply Hn; [|done]. unfold untouched. cbn [gathers answers shards upd_gather set_gathers].
  by rewrite list_lookup_alter_ne.
Qed.

Lemma lost_step g a x : inv a -> lost g a -> lost g (step a x).
Proof.
  intros Hinv (G & HG & Hd & Harr & Hst & H0).
  assert (pending g (shards a) = 0%nat /\ posted_back g (inbox a) = 0%nat) as [HP HQ].
  { pose proof (proj1 Hinv g) as Ha. unfold account in Ha. rewrite HG, Hst in Ha. destruct Ha as (_ & Ha & _). cbn [asked] in Ha. lia. }
  assert (forall b, untouched g a b -> starting (pc b) g = None -> lost g b) as Hk.
  { intros b (H1 & H2 & H3) Hp. exists G. rewrite H1, H2, H3. done. }
  assert (lost g a) as Hl by by exists G.
  destruct x as [id b|rs|r| | |g'|id c|i|i posted|i d]; cbn [step].
  - destruct (pc a) eqn:Hp; [|exact Hl..]. by apply Hk.
  - destruct (pc a) as [|id [|r rest]|] eqn:Hp; [exact Hl|exact Hl| |exact Hl]. unfold route.
    assert (lost g (set_pc (Serving id rest) a)) as Hs by by apply Hk.
    destruct (resolve id a); [|exact Hs]. case_match; [|exact Hs]. pose proof (lookup_lt_Some _ _ _ HG) as Hlt. destruct (gathered r).
    + apply Hk; [|cbn; by rewrite bool_decide_eq_false_2 by lia]. unfold untouched. cbn. by rewrite lookup_app_l.
    + destruct (answer_now_same rs r id (set_pc (Serving id rest) a)) as [U1 U2]. apply Hk; [exact (same_untouched g _ _ U1)|by rewrite U2].
  - destruct (pc a) as [| |g' i id rest] eqn:Hp; [exact Hl|exact Hl|]. cbn [starting] in Hst. case_bool_decide as Hne; [done|].
    unfold gather_round. case_match.
    + apply Hk; [|cbn; by rewrite bool_decide_eq_false_2]. unfold untouched.
      destruct r; cbn [gathers answers shards upd_gather set_gathers set_pc set_shards];
        rewrite ?list_lookup_alter_ne, ?length_alter by done; done.
    + cbn [gathers set_pc]. destruct (gathers a !! g') as [G'|]; [|by apply Hk]. case_match.
      * destruct (gather_finish_other g g' false (set_pc (Serving id rest) a) Hne) as [U1 U2]. apply Hk; [exact U1|by rewrite U2].
      * apply Hk; [|done]. unfold untouched. cbn [gathers answers shards upd_gather set_gathers set_pc]. by rewrite list_lookup_alter_ne.
  - destruct (pc a) as [|id [|r rest]|] eqn:Hp; [exact Hl| |exact Hl|exact Hl]. by apply Hk.
  - destruct (pc a) eqn:Hp; [|exact Hl..]. destruct (inbox a) as [|g' q] eqn:Hq; [exact Hl|].
    assert (g' <> g) as Hne by (intros ->; cbn in HQ; rewrite bool_decide_eq_true_2 in HQ by done; lia).
    unfold gather_arrive. set (b := upd_gather bump g' (set_inbox q a)).
    assert (untouched g a b) as Hb by (unfold untouched; cbn [b gathers answers shards upd_gather set_gathers set_inbox]; by rewrite list_lookup_alter_ne).
    assert (lost g b) as Hlb by (apply Hk; [exact Hb|cbn; by rewrite Hp]).
    destruct (gathers b !! g'); [|exact Hlb]. case_match; [|exact Hlb]. destruct (gather_finish_other g g' false b Hne) as [U1 U2].
    apply Hk; [|rewrite U2; cbn; by rewrite Hp]. destruct Hb as (B1 & B2 & B3), U1 as (C1 & C2 & C3). unfold untouched.
    by rewrite C1, C2, C3.
  - destruct (pc a) eqn:Hp; [|exact Hl..]. destruct (decide (g' = g)) as [->|Hne]; [by rewrite HG, Hd|].
    destruct (gathers a !! g') as [G'|]; [|exact Hl]. case_match; [|exact Hl].
    destruct (gather_finish_other g g' true a Hne) as [U1 U2]. apply Hk; [exact U1|by rewrite U2, Hp].
  - destruct (pc a) eqn:Hp; [|exact Hl..]. apply Hk; [done|cbn; by rewrite Hp].
  - destruct (shards a !! i) as [s|]; [|exact Hl]. unfold take_task. repeat case_match; try exact Hl; (apply Hk; [|done]);
      unfold untouched; cbn [gathers answers shards set_shards]; by rewrite length_insert.
  - destruct (shards a !! i) as [s|] eqn:Hs; [|exact Hl]. unfold end_task. destruct (busy s) as [g'|] eqn:Hb; [|exact Hl].
    assert (g' <> g) as Hne.
    { intros ->. pose proof (pending_insert g i s (mkShard (data s) (queue s) None) (shards a) Hs) as H. unfold load in H. cbn [queue busy] in H.
      rewrite Hb, bool_decide_eq_true_2, bool_decide_eq_false_2 in H by done. lia. }
    apply Hk; [|by destruct posted]. unfold untouched.
    destruct posted; cbn [gathers answers shards set_inbox set_shards upd_gather set_gathers]; rewrite ?list_lookup_alter_ne by done;
      by rewrite length_insert.
  - destruct (shards a !! i) as [s|]; [|exact Hl]. case_match; [exact Hl|]. apply Hk; [|done]. unfold untouched.
    cbn [gathers answers shards set_shards]. by rewrite length_insert.
Qed.

Lemma lost_run g xs a : inv a -> lost g a -> lost g (run xs a).
Proof.
  revert a. induction xs as [|x xs IH]; intros a Ha Hl; [exact Hl|]. apply IH; [by apply admin_step_inv|by apply lost_step].
Qed.

(** Rounds that reach nobody. *)
Lemma empty_rounds us : forall a g i id rest G,
  Forall (fun r => r <> Taken) us -> pc a = Starting g i id rest -> gathers a !! g = Some G -> (i + length us <= length (shards a))%nat ->
  arrived G = i -> exists G', let b := run (map ARound us) a in
    pc b = Starting g (i + length us) id rest /\ gathers b !! g = Some G' /\ arrived G' = (i + length us)%nat /\
    length (snaps G') = length (snaps G) /\ deadline G' = deadline G /\ shards b = shards a /\ answers b = answers a.
Proof.
  induction us as [|r us IH]; intros a g i id rest G Hu Hp HG Hl Harr; [exists G; cbn; rewrite Nat.add_0_r; repeat split; done|].
  apply Forall_cons in Hu as [Hr Hu]. cbn [map run foldl length] in *.
  assert (step a (ARound r) = set_pc (Starting g (S i) id rest) (upd_gather bump g a)) as ->.
  { cbn [step]. rewrite Hp. unfold gather_round. rewrite (proj2 (Nat.ltb_lt _ _)) by lia. by destruct r. }
  set (b := set_pc _ _). assert (gathers b !! g = Some (bump G)) as Hb.
  { cbn [b gathers set_pc upd_gather set_gathers]. by rewrite list_lookup_alter_eq, HG. }
  destruct (IH b g (S i) id rest (bump G) Hu eq_refl Hb ltac:(cbn; lia) ltac:(cbn; lia)) as (G' & H). exists G'. cbn zeta in *.
  rewrite Nat.add_succ_r, <-Nat.add_succ_l. exact H.
Qed.

(** a request for a gathered page is never answered when no shard can be reached.  If, at every shard, there is no event
    manager or its mailbox refuses (before the shards have started, after they have stopped, or when all
    mailboxes are full), the gather counts all shards as arrived before it has a deadline, takes itself for already
    finished, and neither an arrival nor a timer ever answers it: the client waits until its connection times out. *)
Theorem unreachable_gather_never_answered ds infos xs a id r rest c k us rs last ys :
  a = run xs (admin0 ds infos) -> pc a = Serving id (r :: rest) -> resolve id a = Some c -> Conn.state_ c = Conn.Established ->
  gathered r = Some k -> Forall (fun u => u <> Taken) us -> length us = length (shards a) ->
  answered (length (gathers a)) (answers (run (ARoute rs :: map ARound us ++ ARound last :: ys) a)) = 0%nat.
Proof.
  intros Ha Hp Hc Hest Hk Hu Hl. assert (inv a) as Hinv by (rewrite Ha; apply admin_run_inv, admin0_inv). clear Ha.
  set (g := length (gathers a)). cbn [run foldl]. fold (run (map ARound us ++ ARound last :: ys) (step a (ARoute rs))).
  assert (step a (ARoute rs) = gather_begin k id rest a) as E.
  { cbn [step]. rewrite Hp. unfold route. rewrite Hc. unfold Conn.is_state. by rewrite bool_decide_eq_true_2, Hk. }
  pose proof (admin_step_inv a (ARoute rs) Hinv) as Hb. rewrite E in *. set (b := gather_begin k id rest a) in *.
  assert (gathers b !! g = Some (mkGather k id 0 (replicate (length (shards a)) snap0) false)) as HG.
  { cbn [b gather_begin gathers set_pc set_gathers]. by apply list_lookup_middle. }
  assert (answered g (answers a) = 0%nat) as H0.
  { pose proof (proj1 Hinv g) as H. unfold account in H. rewrite lookup_ge_None_2 in H by done. apply H. }
  unfold run. rewrite foldl_app. fold (run (map ARound us) b).
  destruct (empty_rounds us b g 0 id rest _ Hu eq_refl HG ltac:(cbn; lia) eq_refl) as (G' & E1 & E2 & E3 & E4 & E5 & E6 & E7).
  pose proof (admin_run_inv (map ARound us) b Hb) as Hd. set (d := run (map ARound us) b) in *. cbn [foldl].
  fold (run ys (step d (ARound last))). cbn [snaps deadline] in *. rewrite length_replicate in E4.
  assert (shards b = shards a /\ answers b = answers a) as [Hsb Hab] by done.
  assert (lost g (step d (ARound last))) as Hlost.
  { cbn [step]. rewrite E1. unfold gather_round. rewrite E6, (proj2 (Nat.ltb_ge _ _)) by (rewrite Hsb; cbn; lia).
    cbn [gathers set_pc]. rewrite E2. rewrite (proj2 (Nat.eqb_eq _ _)) by (rewrite E4, E3; cbn; lia).
    unfold gather_finish. cbn [gathers set_pc]. rewrite E2, E5. cbn [negb]. exists G'. cbn [gathers set_pc shards pc starting answers].
    rewrite E6, E7, Hsb, Hab. repeat split; try done. rewrite E3. cbn. lia. }
  apply (lost_run g ys) in Hlost; [|by apply admin_step_inv]. destruct Hlost as (_ & _ & _ & _ & _ & H). exact H.
Qed.

(** ** The size of a reply *)

Lemma conn_send_fits bs c : Conn.state_ c = Conn.Established -> zlen (Conn.write_buf_ c) + zlen bs <= 1048576 ->
  Conn.state_ (conn_send bs c) = Conn.Established /\ Conn.write_buf_ (conn_send bs c) = Conn.write_buf_ c ++ bs.
Proof.
  intros Hs Hl. unfold conn_send, Conn.send, Conn.is_state. rewrite bool_decide_eq_true_2 by done. cbn [negb params Conn.flow].
  change (Conn.write_high_watermark Conn.default_flow) with 1048576. rewrite (proj2 (Z.ltb_ge _ _)) by done.
  unfold Conn.check_write_watermark. case_match; done.
Qed.

Lemma conn_send_over bs c : Conn.state_ c = Conn.Established -> 1048576 < zlen (Conn.write_buf_ c) + zlen bs ->
  Conn.state_ (conn_send bs c) = Conn.SClosed /\ Conn.fd_open (conn_send bs c) = false /\
  Conn.write_buf_ (conn_send bs c) = Conn.write_buf_ c.
Proof.
  intros Hs Hl. unfold conn_send, Conn.send, Conn.is_state. rewrite bool_decide_eq_true_2 by done. cbn [negb params Conn.flow].
  change (Conn.write_high_watermark Conn.default_flow) with 1048576. rewrite (proj2 (Z.ltb_lt _ _)) by done.
  unfold Conn.apply_overflow, Conn.close, Conn.is_state. cbn [Conn.on_overflow params Conn.flow Conn.default_flow].
  change (Conn.state_ (Conn.eff _ c)) with (Conn.state_ c). rewrite Hs, !bool_decide_eq_false_2 by done.
  unfold Conn.teardown, Conn.wake_recv_closed, Conn.wake_send_closed, Conn.call, Conn.resume, installed, no_callback. destruct c as
    [st fd rb wb wi pn bp rp gr it bt fi [rh sh hd dl ar on] sp tr]. destruct fd, gr, rh, sh; done.
Qed.

Lemma shutdown_established (c : HttpConn) : Conn.state_ c = Conn.Established ->
  Conn.state_ (Conn.shutdown_write params c) = Conn.ShutdownWrite /\ Conn.write_buf_ (Conn.shutdown_write params c) = Conn.write_buf_ c.
Proof.
  intros Hs. unfold Conn.shutdown_write, Conn.is_state. rewrite bool_decide_eq_true_2 by done. cbn [negb].
  assert (forall d : HttpConn, Conn.state_ (Conn.arm_idle_timer params d) = Conn.state_ d /\ Conn.write_buf_ (Conn.arm_idle_timer params d) = Conn.write_buf_ d) as Ha.
  { intros d. unfold Conn.arm_idle_timer. case_match; [done|]. by destruct (Conn.idle_timer_ d). }
  case_match; exact (Ha (Conn.set_state Conn.ShutdownWrite c)).
Qed.
Lemma shutdown_closed (c : HttpConn) : Conn.state_ c = Conn.SClosed -> Conn.shutdown_write params c = c.
Proof. intros Hs. unfold Conn.shutdown_write, Conn.is_state. by rewrite bool_decide_eq_false_2 by by rewrite Hs. Qed.

Lemma digits_fuel_len f n : (length (digits f n) <= f)%nat.
Proof. revert n. induction f as [|f IH]; intros n; [done|]. cbn [digits]. rewrite length_app. specialize (IH (n / 10)). case_match; cbn [length]; lia. Qed.
Lemma bin_head_len n : zlen (response_head (str "200 OK") (str "application/octet-stream") n) <= 200.
Proof.
  unfold zlen, response_head. rewrite !length_app, !str_len. pose proof (digits_fuel_len 20 n) as H. unfold to_string. cbn [String.length]. cbn [length CRLF]. lia.
Qed.

(** A page that fits the write buffer of a fresh connection is queued whole and the connection is closed behind it; one that
    does not closes the connection at once. *)
Lemma reply_text_limit st ct body c : Conn.state_ c = Conn.Established -> Conn.write_buf_ c = [] ->
  let page := response_head st ct (zlen body) ++ body in
  let c' := reply_text st ct body c in
  (zlen page <= 1048576 -> Conn.state_ c' = Conn.ShutdownWrite /\ Conn.write_buf_ c' = page) /\
  (1048576 < zlen page -> Conn.state_ c' = Conn.SClosed /\ Conn.write_buf_ c' = []).
Proof.
  intros Hs Hw page c'. unfold c', reply_text. fold page. split; intros Hl.
  - destruct (conn_send_fits page c Hs) as [H1 H2]; [by rewrite Hw|]. destruct (shutdown_established _ H1) as [-> ->]. by rewrite H2, Hw.
  - destruct (conn_send_over page c Hs) as (H1 & _ & H2); [by rewrite Hw|]. rewrite (shutdown_closed _ H1). by rewrite H1, H2.
Qed.

Lemma reply_bin_over body c : Conn.state_ c = Conn.Established -> Conn.write_buf_ c = [] -> 1048576 < zlen body ->
  Conn.state_ (reply_bin body c) = Conn.SClosed /\ Conn.fd_open (reply_bin body c) = false /\
  Conn.write_buf_ (reply_bin body c) = response_head (str "200 OK") (str "application/octet-stream") (zlen body).
Proof.
  intros Hs Hw Hl. unfold reply_bin. cbn zeta. rewrite bool_decide_eq_false_2 by (intros ->; change (zlen (@nil Z)) with 0 in Hl; lia).
  set (h := response_head _ _ _). assert (zlen h <= 200) by apply bin_head_len.
  destruct (conn_send_fits h c Hs) as [H1 H2]; [rewrite Hw; change (zlen (@nil Z)) with 0; lia|]. rewrite Hw in H2. cbn [app] in H2.
  destruct (conn_send_over body (conn_send h c) H1) as (E1 & E2 & E3); [rewrite H2; pose proof (zlen_nonneg h); lia|].
  rewrite (shutdown_closed _ E1). by rewrite E1, E2, E3.
Qed.

Definition total_records (l : list ShardSnap) : Z := foldr (fun s n => zlen (s_flight s) + n) 0 l.

Lemma flight_bin_len l : zlen (flight_bin l) = 16 * zlen l + 32 * total_records l.
Proof.
  unfold flight_bin, zlen. generalize flight_frame, frame_len. intros f Hf. revert f Hf.
  induction l as [|s l IH]; intros f Hf; [done|]. cbn [imap concat length total_records foldr]. rewrite length_app, Hf. fold (total_records l).
  specialize (IH (f ∘ S) ltac:(intros; apply Hf)). unfold zlen. lia.
Qed.

(** a [/flight] page of more than a mebibyte cannot be fetched: on a fresh connection the admin server queues the head of
    the response, finds the body over the write watermark its connections have by default, and closes the
    connection; nothing of the page is sent.  Eight shards whose recorders are full are enough. *)
Theorem flight_page_cut_off l c :
  Conn.state_ c = Conn.Established -> Conn.write_buf_ c = [] -> 1048576 < 16 * zlen l + 32 * total_records l ->
  let c' := reply_bin (flight_bin l) c in
  Conn.state_ c' = Conn.SClosed /\ Conn.fd_open c' = false /\
  Conn.write_buf_ c' = response_head (str "200 OK") (str "application/octet-stream") (16 * zlen l + 32 * total_records l).
Proof. intros Hs Hw Hl. cbn zeta. rewrite <-flight_bin_len. apply reply_bin_over; [done|done|]. by rewrite flight_bin_len. Qed.

End Admin.

(** ** Witnesses and schedules *)

Definition demo_config : EmConfig := mkEmConfig true false 0 1000000 0 0 256 false false.
Definition demo_data : ShardData :=
  mkData (str "io-0") stats0 latency0 [] (Recorder.mkRecorder [] 0) demo_config.
Definition demo_request (p : string) : HttpRequest := mkRequest (str "GET") (str p) [] (str "HTTP/1.1") [] 0.
Definition demo_conn0 : HttpConn := Conn.set_state Conn.Established (Conn.connection0 (Conn.mkParams Conn.default_flow 10 64 false false) false).
Definition demo_run (xs : list Action) (ds : list ShardData) : Admin := run 10 [] [] false xs (admin0 ds []).

(** A request for [/stats] on connection 0, up to its first round. *)
Definition ask_stats : list Action := [AConn 0 (Some demo_conn0); AMessages 0 [demo_request "/stats"]].

Lemma flight_page_cut_off_witness :
  let c := reply_bin 10 (flight_bin (replicate 8 (demo_snap [] [] (replicate 4096 (mkFlight 0 0 0 0 0 0))))) demo_conn0 in
  Conn.state_ c = Conn.SClosed /\ Conn.fd_open c = false.
Proof.
  cbn zeta. destruct (flight_page_cut_off 10 (replicate 8 (demo_snap [] [] (replicate 4096 (mkFlight 0 0 0 0 0 0)))) demo_conn0
    eq_refl eq_refl ltac:(vm_compute; reflexivity)) as (H1 & H2 & _). by split.
Defined.

Lemma unreachable_gather_never_answered_witness :
  let a := run 10 [] [] false ask_stats (admin0 [demo_data; demo_data] []) in
  answered (length (gathers a)) (answers (run 10 [] [] false
    (ARoute [] :: map ARound [NoManager; Refused] ++ ARound Taken :: [AReturn; AArrive; ADeadline 0]) a)) = 0%nat.
Proof.
  set (a := run _ _ _ _ _ _). cbv zeta.
  assert (a = run 10 [] [] false ask_stats (admin0 [demo_data; demo_data] [])) as Ha by reflexivity. clearbody a.
  eapply unreachable_gather_never_answered; [exact Ha|rewrite ?Ha; try (vm_compute; reflexivity)..].
  repeat constructor; discriminate.
Defined.

(** A deadline that passes while a shard is filling its slot: the page is rendered from a slot being written. *)
Lemma deadline_reads_torn_slot :
  let a := demo_run (ask_stats ++ [ARoute []; ARound Taken; ARound Taken; AReturn; ATask 0; ADeadline 0]) [demo_data] in
  raced a = true /\ answers a = [(0%nat, true)].
Proof. vm_compute. split; reflexivity. Qed.

(** With nothing in the way the page is complete. *)
Lemma gather_completes :
  let a := demo_run (ask_stats ++ [ARoute []; ARound Taken; ARound Taken; AReturn; ATask 0; ADone 0 true; AArrive]) [demo_data] in
  answers a = [(0%nat, false)] /\ raced a = false /\
  (Conn.write_buf_ <$> conns a !! 0%nat) =
    Some (let page := stats_page false [fill GStats demo_data snap0] in
          response_head (str "200 OK") (str "application/json") (zlen page) ++ page).
Proof. vm_compute. repeat split; reflexivity. Qed.

(** A request behind one that gathers is answered before it, and the page gathered is then dropped. *)
Lemma second_request_overtakes :
  let a := demo_run [AConn 0 (Some demo_conn0); AMessages 0 [demo_request "/stats"; demo_request "/healthz"];
                     ARoute []; ARound Taken; ARound Taken; ARoute []; AReturn; ATask 0; ADone 0 true; AArrive] [demo_data] in
  answers a = [(0%nat, false)] /\
  (Conn.write_buf_ <$> conns a !! 0%nat) = Some (response_head (str "200 OK") (str "text/plain") 3 ++ str "ok" ++ [LF]).
Proof. vm_compute. split; reflexivity. Qed.

(** [shard=x] in a toggle selects shard 0: a text that is no number counts as 0. *)
Lemma bad_shard_toggles_first :
  let r := mkRequest (str "POST") (str "/admin/stall_threshold") (str "ns=5&shard=x") (str "HTTP/1.1") [] 0 in
  let a := demo_run [AConn 0 (Some demo_conn0); AMessages 0 [r]; ARoute [Taken; Taken]; AReturn; ATask 0; ATask 1] [demo_data; demo_data] in
  (stall_threshold ∘ d_config ∘ data) <$> shards a = [5; 0].
Proof. vm_compute. reflexivity. Qed.

End Admin.
