(* ===== verification/AdminServer.v ===== *)
(** * The admin server's thread

    [AdminServer::start], [stop] and [thread_main] of
    [src/include/afx/admin/server.hpp] and [src/src/admin/server.cpp], interleaved one
    access to the shared members at a time, in one order that all threads see.
    [faulted] records that the event manager was used after its end.  Serving
    requests is Admin.v; here an iteration of the loop is counted. *)

From stdpp Require Import base option list.
From Stdlib Require Import ZArith Lia.
From S2P Require Import Prelude.

Module Lifecycle.

(** Where [thread_main] is.  [UErr] and [RErr] are its way out when it cannot listen. *)
Inductive Tpc := TNone | TMake | TPublish | TListen | UErr | RErr | TBound | TCheck | TReady | TLoop | TUnpublish | TDestroy | TExit.

Inductive Call := KStart | KStop.
Inductive Res := RInvalid | RExpired | RError | RBound.

(** Where the owner is: [OWait n] has [n] polls left, [OReq] to [OClear] are [stop],
    called by [start] itself when [b]. *)
Inductive Opc := ONext | OWait (n : nat) | ORecheck | OResult | OReq (b : bool) | OLoad (b : bool) | OCall (b : bool) | OJoin (b : bool) | OClear (b : bool).

Record Server := mkServer {
  opc : Opc;
  script : list Call;
  results : list Res;
  joinable : bool;
  tpc : Tpc;
  em_ : bool;             (* the published pointer is not null *)
  alive : bool;           (* the event manager exists *)
  em_stop : bool;         (* its [stop_] *)
  stop_req_ : bool;
  ready_ : bool;
  late : bool;            (* the thread was started after a [stop] *)
  served : nat;           (* iterations of the loop, and those of a late thread *)
  served_late : nat;
  expired : bool;         (* a [start] has given up *)
  faulted : bool }.       (* the manager was used after its end *)

Definition set_owner p k r s := mkServer p k r (joinable s) (tpc s) (em_ s) (alive s) (em_stop s) (stop_req_ s) (ready_ s) (late s) (served s) (served_late s) (expired s) (faulted s).
Definition go p s := set_owner p (script s) (results s) s.
Definition finish r s := set_owner ONext (script s) (results s ++ [r]) s.
Definition set_thread j t l s := mkServer (opc s) (script s) (results s) j t (em_ s) (alive s) (em_stop s) (stop_req_ s) (ready_ s) l (served s) (served_late s) (expired s) (faulted s).
Definition at_pc t s := set_thread (joinable s) t (late s) s.
Definition set_em e a st s := mkServer (opc s) (script s) (results s) (joinable s) (tpc s) e a st (stop_req_ s) (ready_ s) (late s) (served s) (served_late s) (expired s) (faulted s).
Definition set_flags q r s := mkServer (opc s) (script s) (results s) (joinable s) (tpc s) (em_ s) (alive s) (em_stop s) q r (late s) (served s) (served_late s) (expired s) (faulted s).
Definition set_ghost n m e f s := mkServer (opc s) (script s) (results s) (joinable s) (tpc s) (em_ s) (alive s) (em_stop s) (stop_req_ s) (ready_ s) (late s) n m e f.

Definition server0 (k : list Call) : Server :=
  mkServer ONext k [] false TNone false false false false false false 0 0 false false.

Definition kPolls : nat := 2000.

(** [thread_main], one access at a time; [ok]: the server could listen. *)
Definition thread_step (ok : bool) (s : Server) : Server :=
  match tpc s with
  | TNone | TExit => s
  | TMake => at_pc TPublish (set_em (em_ s) true false s)
  | TPublish => at_pc TListen (set_em true (alive s) (em_stop s) s)
  | TListen => at_pc (if ok then TBound else UErr) s
  | UErr => at_pc RErr (set_em false (alive s) (em_stop s) s)
  | RErr => at_pc TDestroy (set_flags (stop_req_ s) true s)
  | TBound => at_pc TCheck s
  | TCheck => at_pc TReady (if stop_req_ s then set_em (em_ s) (alive s) true s else s)
  | TReady => at_pc TLoop (set_flags (stop_req_ s) true s)
  | TLoop =>
      if em_stop s then at_pc TUnpublish s
      else set_ghost (S (served s)) (if late s then S (served_late s) else served_late s) (expired s) (faulted s) s
  | TUnpublish => at_pc TDestroy (set_em false (alive s) (em_stop s) s)
  | TDestroy => at_pc TExit (set_em (em_ s) false (em_stop s) s)
  end.

(** [start] and [stop], one access at a time. *)
Definition owner_step (s : Server) : Server :=
  match opc s with
  | ONext =>
      match script s with
      | [] => s
      | KStart :: k =>
          if joinable s then set_owner ONext k (results s ++ [RInvalid]) s
          else set_owner (OWait kPolls) k (results s) (set_thread true TMake (stop_req_ s) s)
      | KStop :: k => set_owner (OReq false) k (results s) s
      end
  | OWait O => go ORecheck s
  | OWait (S n) => if ready_ s then go ORecheck s else go (OWait n) s
  | ORecheck =>
      if ready_ s then go OResult s else go (OReq true) (set_ghost (served s) (served_late s) true (faulted s) s)
  | OResult => finish (if em_ s then RBound else RError) s
  | OReq b => go (OLoad b) (set_flags true (ready_ s) s)
  | OLoad b => go (if em_ s then OCall b else OJoin b) s
  | OCall b =>
      go (OJoin b) (if alive s then set_em (em_ s) (alive s) true s
                    else set_ghost (served s) (served_late s) (expired s) true s)
  | OJoin b =>
      if joinable s then
        match tpc s with TExit => go (OClear b) (set_thread false TExit (late s) s) | _ => s end
      else go (OClear b) s
  | OClear b =>
      let s := set_em false (alive s) (em_stop s) s in
      if b then finish RExpired s else go ONext s
  end.

(** A schedule: [None] is a step of the owner. *)
Definition step (s : Server) (x : option bool) : Server :=
  match x with Some ok => thread_step ok s | None => owner_step s end.
Definition run (xs : list (option bool)) (s : Server) : Server := foldl step s xs.

(** ** Invariant

    The states are finite but for the counters, so the invariant is a test and its
    preservation a case analysis. *)

(** The thread is between publishing its manager and taking it back. *)
Definition published (t : Tpc) : bool :=
  match t with TListen | UErr | TBound | TCheck | TReady | TLoop | TUnpublish => true | _ => false end.
Definition has_manager (t : Tpc) : bool := match t with TNone | TMake | TExit => false | _ => true end.
Definition serving (t : Tpc) : bool := match t with TReady | TLoop => true | _ => false end.
Definition in_loop (t : Tpc) : bool := match t with TLoop => true | _ => false end.
Definition past_ready (t : Tpc) : bool := match t with TLoop | TUnpublish | TDestroy | TExit => true | _ => false end.
Definition before_run (t : Tpc) : bool := match t with TUnpublish => false | _ => true end.
Definition halted (t : Tpc) : bool := match t with TNone | TExit => true | _ => false end.

Definition asked (o : Opc) : bool := match o with OLoad _ | OCall _ => true | _ => false end.
Definition calling (o : Opc) : bool := match o with OCall _ => true | _ => false end.
Definition starting (o : Opc) : bool := match o with OWait _ | ORecheck | OResult => true | _ => false end.
Definition stopping (o : Opc) : bool := match o with OLoad _ | OCall _ | OJoin _ | OClear _ => true | _ => false end.
Definition clearing (o : Opc) : bool := match o with OClear _ => true | _ => false end.
(** [start] has returned, or has seen [ready_]. *)
Definition started (o : Opc) : bool := match o with ONext | OResult | OReq _ | OLoad _ | OCall _ => true | _ => false end.

Definition ok (s : Server) : bool :=
  let o := opc s in let t := tpc s in let j := joinable s in
  let first := negb (late s) && j in
  Bool.eqb (alive s) (has_manager t) && Bool.eqb (em_ s) (published t) &&
  (if j then negb (clearing o) && match t with TNone => false | _ => true end else halted t && negb (starting o) && negb (calling o)) &&
  implb (stopping o) (stop_req_ s) &&
  (* a thread that serves after a stop was requested is told, or will be *)
  implb (serving t && stop_req_ s) (em_stop s || asked o) &&
  implb (late s) (stop_req_ s && implb (serving t) (em_stop s)) &&
  (* the first thread: not told before a stop, and [start] has waited for it *)
  implb (first && negb (stopping o)) (negb (stop_req_ s) && before_run t && implb (has_manager t) (negb (em_stop s))) &&
  implb (first && ready_ s) (past_ready t) &&
  implb (first && negb (expired s) && started o) (ready_ s) &&
  implb (first && negb (expired s) && asked o && published t) (in_loop t && negb (em_stop s)) &&
  implb (first && negb (expired s) && calling o) (in_loop t) &&
  implb (negb (late s) && negb j && negb (stop_req_ s)) (negb (ready_ s)) &&
  implb (faulted s) (expired s || late s).

Definition inv (s : Server) : Prop := ok s = true /\ served_late s = 0%nat.

Lemma lifecycle_thread x s : inv s -> inv (thread_step x s).
Proof.
  destruct s as [o k r j t em al st sr rd lt sv sl ex fl]. intros [H Hl]. cbn in Hl. subst sl. destruct t; destruct j; try discriminate H.
  all: destruct em; try discriminate H; destruct al; try discriminate H.
  all: destruct lt, sr; try discriminate H.
  all: destruct o; try discriminate H.
  all: destruct st; try discriminate H; destruct rd; try discriminate H; destruct ex, fl; try discriminate H.
  all: split; [destruct x; exact eq_refl|exact eq_refl].
Qed.

Lemma lifecycle_owner s : inv s -> inv (owner_step s).
Proof.
  destruct s as [o k r j t em al st sr rd lt sv sl ex fl]. intros [H Hl]. cbn in Hl. subst sl. destruct o; destruct j; try discriminate H.
  all: destruct t; try discriminate H.
  all: destruct em; try discriminate H; destruct al; try discriminate H.
  all: destruct lt, sr; try discriminate H.
  all: destruct st; try discriminate H; destruct rd; try discriminate H; destruct ex, fl; try discriminate H.
  all: split; [|first [exact eq_refl|destruct k as [|[] k]; exact eq_refl|destruct n; exact eq_refl|destruct b; exact eq_refl]].
  all: first [exact eq_refl|destruct k as [|[] k]; exact eq_refl|destruct n; exact eq_refl|destruct b; exact eq_refl].
Qed.

Lemma lifecycle_run xs s : inv s -> inv (run xs s).
Proof.
  revert s. induction xs as [|x xs IH]; intros s Hs; [exact Hs|]. apply IH. destruct x; [by apply lifecycle_thread|by apply lifecycle_owner].
Qed.

(** The steps a thread that has been told still takes. *)
Definition left_ (t : Tpc) : nat :=
  match t with
  | TNone | TExit => 0 | TDestroy => 1 | TUnpublish | RErr => 2 | TLoop | UErr => 3 | TReady => 4 | TCheck => 5 | TBound => 6 | TListen => 7
  | TPublish => 8 | TMake => 9
  end.

(** The thread will not serve another request. *)
Definition told (s : Server) : bool := stop_req_ s && implb (serving (tpc s)) (em_stop s).

Lemma told_thread x s : inv s -> told s = true -> told (thread_step x s) = true /\
  (left_ (tpc (thread_step x s)) <= left_ (tpc s) - 1)%nat /\ joinable (thread_step x s) = joinable s.
Proof.
  intros _. destruct s as [o k r j t em al st sr rd lt sv sl ex fl]. unfold told. cbn. intros H. destruct sr; [|done].
  destruct t, st; try discriminate H; destruct x; cbn; repeat split; lia.
Qed.

Lemma told_run oks s : inv s -> told s = true ->
  (left_ (tpc (run (Some <$> oks) s)) <= left_ (tpc s) - length oks)%nat /\ joinable (run (Some <$> oks) s) = joinable s.
Proof.
  revert s. induction oks as [|x oks IH]; intros s Hs Ht; [cbn; split; [lia|done]|].
  destruct (told_thread x s Hs Ht) as (H1 & H2 & H3). destruct (IH (thread_step x s) (lifecycle_thread x s Hs) H1) as [H4 H5].
  change (run (Some <$> x :: oks) s) with (run (Some <$> oks) (thread_step x s)). rewrite H5. cbn [length]. split; [lia|exact H3].
Qed.

(** C21: the life of the admin server.  Whatever sequence of [start] and [stop] its owner calls and however the owner and the
    server's thread interleave: (1) once [stop] waits for the thread, nine steps of the thread end it, whatever it was doing, so [stop]
    returns; (2) a thread started after a [stop] never runs an iteration of its loop: the request to stop is never
    withdrawn, and a server that has been stopped cannot be started again; (3) the event manager is used after its end
    only if a [start] has given up waiting for its thread, or the server is started again. *)
Theorem admin_server_lifecycle calls xs :
  let s := run xs (server0 calls) in
  (forall b oks, opc s = OJoin b -> joinable s = true -> (9 <= length oks)%nat -> tpc (run (Some <$> oks) s) = TExit) /\
  served_late s = 0%nat /\ (faulted s = true -> expired s = true \/ late s = true).
Proof.
  intros s. assert (inv s) as Hs by by apply lifecycle_run. split; [|split; [apply Hs|]].
  - intros b oks Ho Hj Hn. assert (told s = true) as Ht.
    { destruct Hs as [H _]. clear Hn. destruct s as [o k r j t em al st sr rd lt sv sl ex fl]. cbn in Ho, Hj. subst o j. unfold told. cbn.
      destruct sr; [|destruct t, em, al, lt, rd, ex, fl; discriminate H].
      destruct t, st; try done; destruct em, al; try discriminate H; destruct lt, rd, ex, fl; discriminate H. }
    destruct (told_run oks s Hs Ht) as [H1 H2]. rewrite Hj in H2. assert (left_ (tpc s) <= 9)%nat by (destruct (tpc s); cbn; lia).
    pose proof (lifecycle_run (Some <$> oks) s Hs) as [H3 _]. set (e := run (Some <$> oks) s) in *. clearbody e.
    destruct e as [o k r j t em al st sr rd lt sv sl ex fl]. cbn in H1, H2. subst j. cbn. destruct t; cbn in H1; try lia; [|done].
    destruct o, em, al; discriminate H3.
  - destruct Hs as [H _]. clearbody s. destruct s as [o k r j t em al st sr rd lt sv sl ex fl]. cbn. intros ->. destruct ex; [by left|].
    destruct lt; [by right|]. destruct t, em, al, j; try discriminate H; destruct o, st, sr, rd; discriminate H.
Qed.

(** A [start] that gives up just as the thread fails to listen uses a manager that is gone. *)
Lemma give_up_uses_dead_manager :
  faulted (run (None :: [Some true; Some true] ++ replicate 2004 None ++ replicate 4 (Some false) ++ [None]) (server0 [KStart])) = true.
Proof. vm_compute. reflexivity. Qed.

(** Start, stop and start again: [start] reports an error that says no error, or an address where nobody serves. *)
Lemma restart_reports :
  results (run (None :: replicate 7 (Some true) ++ replicate 4 None ++ replicate 4 None ++ replicate 3 (Some true) ++ replicate 8 None)
    (server0 [KStart; KStop; KStart])) = [RBound; RError].
Proof. vm_compute. reflexivity. Qed.

End Lifecycle.
