(* ===== verification/Server.v ===== *)
(** * TcpServer

    [TcpServer] of [src/include/afx/net/tcp_server.hpp]: the accept pipeline and the
    table of connections.  A connection is here its identity and its descriptor
    (Connection.v has the object); its identity is the handle of its sink, so the
    identities of live connections differ (HandleTable.v).  The answers of the
    system and of the pool are arguments of the steps. *)

From stdpp Require Import base option gmap list.
From Stdlib Require Import ZArith Lia.
From S2P Require Import Prelude.
Local Open Scope Z_scope.
Local Open Scope afx_scope.

Module Server.

Record ConnId := mkId { idx : Z; gen : Z }.
#[global] Instance conn_id_eq_dec : EqDecision ConnId.
Proof. solve_decision. Defined.
Definition id_ok (i : ConnId) : Prop := 0 <= idx i < 2 ^ 32 /\ 0 <= gen i < 2 ^ 32.

Definition key (i : ConnId) : Z := Z.lor (u64 (Z.shiftl (idx i) 32)) (gen i).

Definition ECANCELED : Z := 125.

(** [submitted] lists the descriptors accepts were submitted on, [armed] counts the
    operations in flight, [closed] are the accepted descriptors the server closed,
    [ended] those of connections that ended, [listeners] the listeners it closed. *)
Record TcpServer := mkServer {
  listen_fd_ : Z;
  armed : Z;
  submitted : list Z;
  conns_ : gmap Z (ConnId * Z);
  accepted : list Z;
  closed : list Z;
  ended : list Z;
  listeners : list Z;
  accepts : Z;
  internal_errors : Z;
  conns_opened : Z }.

Definition set_accept (n : Z) (l : list Z) (s : TcpServer) : TcpServer :=
  mkServer (listen_fd_ s) n l (conns_ s) (accepted s) (closed s) (ended s) (listeners s)
    (accepts s) (internal_errors s) (conns_opened s).

(** A completion of the accept operation, and how the system answers: whether the
    backend takes another accept, whether the options apply, and the object the pool
    gives. *)
Record Completion := mkCompletion { result : Z; more : bool }.
Record Answers := mkAnswers { arms : bool; applies : bool; object : option ConnId }.

(** The backend may refuse: its queue is full, or the descriptor is not one. *)
Definition submit_accept (arms : bool) (s : TcpServer) : TcpServer :=
  set_accept (if arms then armed s + 1 else armed s) (submitted s ++ [listen_fd_ s]) s.

(** [open], once the listener is bound: the result of the first accept is its own. *)
Definition open_ (arms : bool) (fd : Z) : option TcpServer :=
  let s := submit_accept arms (mkServer fd 0 [] ∅ [] [] [] [] 0 0 0) in
  if arms then Some s else None.

Definition close_fd (fd : Z) (s : TcpServer) : TcpServer :=
  mkServer (listen_fd_ s) (armed s) (submitted s) (conns_ s) (accepted s) (closed s ++ [fd]) (ended s) (listeners s)
    (accepts s) (internal_errors s) (conns_opened s).

(** [max]: [max_connections].  The result of the accept that is submitted is ignored. *)
Definition on_accept (max : Z) (c : Completion) (a : Answers) (s : TcpServer) : TcpServer :=
  let s := if more c then s else set_accept (armed s - 1) (submitted s) s in
  let s := if negb (more c) && negb (result c =? - ECANCELED) then submit_accept (arms a) s else s in
  if result c <? 0 then
    if result c =? - ECANCELED then s
    else mkServer (listen_fd_ s) (armed s) (submitted s) (conns_ s) (accepted s) (closed s) (ended s) (listeners s)
           (accepts s) (internal_errors s + 1) (conns_opened s)
  else
    let s := mkServer (listen_fd_ s) (armed s) (submitted s) (conns_ s) (accepted s ++ [result c]) (closed s) (ended s) (listeners s)
               (accepts s + 1) (internal_errors s) (conns_opened s) in
    if max <=? Z.of_nat (size (conns_ s)) then close_fd (result c) s
    else if negb (applies a) then close_fd (result c) s
    else match object a with
         | None => close_fd (result c) s
         | Some id =>
             mkServer (listen_fd_ s) (armed s) (submitted s) (<[key id := (id, result c)]> (conns_ s)) (accepted s) (closed s)
               (ended s) (listeners s) (accepts s) (internal_errors s) (conns_opened s + 1)
         end.

Definition conn (id : ConnId) (s : TcpServer) : option (ConnId * Z) := conns_ s !! key id.

(** The notification that a connection, whose teardown closed its descriptor, is gone. *)
Definition on_conn_gone (id : ConnId) (s : TcpServer) : TcpServer :=
  match conns_ s !! key id with
  | None => s
  | Some (_, fd) =>
      mkServer (listen_fd_ s) (armed s) (submitted s) (delete (key id) (conns_ s)) (accepted s) (closed s) (ended s ++ [fd])
        (listeners s) (accepts s) (internal_errors s) (conns_opened s)
  end.

(** The listener is closed; the backend answers the accept it cancels with a
    completion of its own. *)
Definition stop_accepting (s : TcpServer) : TcpServer :=
  if listen_fd_ s <? 0 then s
  else mkServer (-1) (armed s) (submitted s) (conns_ s) (accepted s) (closed s) (ended s) (listeners s ++ [listen_fd_ s])
         (accepts s) (internal_errors s) (conns_opened s).

Inductive Event := Accept (c : Completion) (a : Answers) | Gone (id : ConnId) | Stop.

Definition step (max : Z) (s : TcpServer) (e : Event) : TcpServer :=
  match e with Accept c a => on_accept max c a s | Gone id => on_conn_gone id s | Stop => stop_accepting s end.
Definition run (max : Z) (l : list Event) (s : TcpServer) : TcpServer := foldl (step max) s l.

(** ** Identities *)

Lemma key_value i : id_ok i -> key i = idx i * 2 ^ 32 + gen i.
Proof.
  intros [Hi Hg]. unfold key. rewrite Z.shiftl_mul_pow2 by lia. rewrite u64_small by nia.
  assert (Z.land (idx i * 2 ^ 32) (gen i) = 0) as H0.
  { apply Z.bits_inj'. intros n Hn. rewrite Z.land_spec, Z.bits_0. destruct (Z.lt_ge_cases n 32).
    - by rewrite Z.mul_pow2_bits_low by lia.
    - destruct (decide (gen i = 0)) as [->|]; [by rewrite Z.bits_0, andb_false_r|].
      rewrite (Z.bits_above_log2 (gen i)), andb_false_r; [done|lia|]. apply (Z.lt_le_trans _ 32); [|done].
      apply Z.log2_lt_pow2; lia. }
  pose proof (Z.add_lor_land (idx i * 2 ^ 32) (gen i)). lia.
Qed.

Lemma key_inj i j : id_ok i -> id_ok j -> key i = key j -> i = j.
Proof.
  intros Hi Hj H. rewrite !key_value in H by done. destruct i as [a b], j as [c d], Hi, Hj. cbn in *.
  assert (a = c) as -> by nia. assert (b = d) as -> by lia. done.
Qed.

(** ** Accounting *)

(** The pool gives an identity no live connection has. *)
Definition fresh (max : Z) (s : TcpServer) (e : Event) : Prop :=
  match e with
  | Accept c a =>
      match object a with Some id => id_ok id /\ map_Forall (fun _ f => fst f <> id) (conns_ s) | None => True end
  | Gone id => id_ok id
  | Stop => True
  end.

Fixpoint all_fresh (max : Z) (l : list Event) (s : TcpServer) : Prop :=
  match l with [] => True | e :: l => fresh max s e /\ all_fresh max l (step max s e) end.

Definition owned (s : TcpServer) : list Z := (fun p => snd (snd p)) <$> map_to_list (conns_ s).

Record inv (max : Z) (s : TcpServer) : Prop := {
  sv_keys : forall k f, conns_ s !! k = Some f -> k = key (fst f) /\ id_ok (fst f);
  sv_size : Z.of_nat (size (conns_ s)) <= Z.max max 0;
  sv_fds : accepted s ≡ₚ closed s ++ ended s ++ owned s;
  sv_count : accepts s = zlen (accepted s);
  sv_opened : conns_opened s = zlen (ended s) + Z.of_nat (size (conns_ s));
  sv_armed : armed s <= 1 }.

Lemma insert_owned k v s m :
  conns_ s !! k = None -> conns_ m = <[k := v]> (conns_ s) -> owned m ≡ₚ snd v :: owned s.
Proof. intros Hk E. unfold owned. rewrite E, map_to_list_insert by done. done. Qed.

Lemma on_accept_inv max c a s : fresh max s (Accept c a) -> inv max s -> inv max (on_accept max c a s).
Proof.
  intros Hf I0. unfold on_accept.
  set (s1 := if more c then s else _). set (s2 := if negb (more c) && _ then _ else _).
  assert (inv max s2 /\ conns_ s2 = conns_ s) as [[K S F C O A] E2].
  { unfold s2, s1. destruct I0 as [K S F C O A]. destruct (more c); cbn [negb andb]; [by split|].
    destruct (result c =? - ECANCELED); [|unfold submit_accept; destruct (arms a)]; (split; [constructor; cbn; try done; lia|done]). }
  clearbody s2. clear s1 I0.
  assert (zlen (accepted s2 ++ [result c]) = accepts s2 + 1) as Hz.
  { rewrite zlen_app. unfold zlen at 2. cbn. lia. }
  assert (forall t, t = mkServer (listen_fd_ s2) (armed s2) (submitted s2) (conns_ s2) (accepted s2 ++ [result c]) (closed s2 ++ [result c]) (ended s2)
               (listeners s2) (accepts s2 + 1) (internal_errors s2) (conns_opened s2) -> inv max t) as Hclosed.
  { intros t ->. constructor; try done; cbn. unfold owned. cbn. change (fmap _ _) with (owned s2). rewrite F, <- !app_assoc.
    apply Permutation_app_head. rewrite (Permutation_app_comm [result c]). by rewrite <- !app_assoc. }
  destruct (result c <? 0); [destruct (_ =? _); by constructor|]. cbv zeta. cbn [conns_].
  destruct (max <=? _) eqn:Em; [by apply Hclosed|]. destruct (negb (applies a)); [by apply Hclosed|].
  cbn in Hf. destruct (object a) as [id|]; [|by apply Hclosed]. destruct Hf as [Hid Hn]. rewrite <- E2 in Hn.
  assert (conns_ s2 !! key id = None) as Hk.
  { destruct (conns_ s2 !! key id) as [f|] eqn:E; [|done]. destruct (K _ _ E) as [Hx Hy]. apply (key_inj _ _ Hid Hy) in Hx. subst id.
    by destruct (map_Forall_lookup_1 _ _ _ _ Hn E). }
  constructor; cbn.
  - intros k f. destruct (decide (k = key id)) as [->|].
    + rewrite lookup_insert_eq. intros [= <-]. done.
    + rewrite lookup_insert_ne by done. apply K.
  - rewrite map_size_insert_None by done. apply Z.leb_gt in Em. lia.
  - rewrite (insert_owned (key id) (id, result c) s2) by done. cbn. rewrite F. rewrite <- !app_assoc. apply Permutation_app_head, Permutation_app_head.
    by rewrite Permutation_app_comm.
  - by symmetry.
  - rewrite map_size_insert_None by done. lia.
  - done.
Qed.

Lemma on_conn_gone_inv max id s : id_ok id -> inv max s -> inv max (on_conn_gone id s).
Proof.
  intros Hid [K S F C O A]. unfold on_conn_gone. destruct (conns_ s !! key id) as [[i fd]|] eqn:E; [|done].
  assert (Z.of_nat (size (conns_ s)) = Z.of_nat (size (delete (key id) (conns_ s))) + 1) as Hs.
  { rewrite map_size_delete_Some by eauto. assert (size (conns_ s) <> 0)%nat by (intros Hz; apply map_size_empty_inv in Hz; rewrite Hz in E; by rewrite lookup_empty in E). lia. }
  constructor; cbn; try done.
  - intros k f. destruct (decide (k = key id)) as [->|]; [by rewrite lookup_delete_eq|]. rewrite lookup_delete_ne by done. apply K.
  - lia.
  - etransitivity; [exact F|]. rewrite <- !app_assoc. do 2 apply Permutation_app_head. unfold owned. cbn.
    rewrite <- (map_to_list_delete (conns_ s) (key id) (i, fd)) by done. done.
  - rewrite zlen_app. unfold zlen at 2. cbn. lia.
Qed.

(** A completion that is no cancellation and after which another accept is taken. *)
Definition serves (e : Event) : bool :=
  match e with Accept c a => negb (result c =? - ECANCELED) && (more c || arms a) | Gone _ => true | Stop => false end.

Lemma step_armed max s e : serves e = true -> armed (step max s e) = armed s.
Proof.
  intros He. destruct e as [c a|id|]; [|cbn; unfold on_conn_gone; by destruct (conns_ s !! key id) as [[i fd]|]|done].
  cbn in He. apply andb_true_iff in He as [Hc Ha]. cbn. unfold on_accept. rewrite Hc, andb_true_r.
  destruct (more c); cbn [negb orb] in *; [|rewrite Ha]; repeat (case_match; cbn); done || lia.
Qed.

(** The listener is open until it is closed, once. *)
Definition stopped (l : list Event) : bool := existsb (fun e => match e with Stop => true | _ => false end) l.

Lemma run_listener max l s :
  let s' := run max l s in
  if stopped l && (0 <=? listen_fd_ s) then listen_fd_ s' = -1 /\ listeners s' = listeners s ++ [listen_fd_ s]
  else listen_fd_ s' = listen_fd_ s /\ listeners s' = listeners s.
Proof.
  cbv zeta. revert s. unfold run. induction l as [|e l IH]; intros s; [done|]. cbn [foldl stopped existsb]. fold (stopped l).
  specialize (IH (step max s e)). destruct e as [c a|id|]; cbn [orb].
  - assert (listen_fd_ (step max s (Accept c a)) = listen_fd_ s /\ listeners (step max s (Accept c a)) = listeners s) as [E1 E2].
    { cbn. unfold on_accept, submit_accept. repeat (case_match; cbn); done. }
    by rewrite E1, E2 in IH.
  - assert (listen_fd_ (step max s (Gone id)) = listen_fd_ s /\ listeners (step max s (Gone id)) = listeners s) as [E1 E2].
    { cbn. unfold on_conn_gone. by destruct (conns_ s !! key id) as [[i fd]|]. }
    by rewrite E1, E2 in IH.
  - cbn [step] in *. unfold stop_accepting in *. destruct (Z.ltb_spec (listen_fd_ s) 0); [|rewrite (proj2 (Z.leb_le _ _)) by lia].
    + rewrite (proj2 (Z.leb_gt _ _)) in * by lia. by rewrite andb_false_r in *.
    + cbn in IH. by rewrite andb_false_r in IH.
Qed.

Lemma run_server_inv max l s : all_fresh max l s -> inv max s -> inv max (run max l s).
Proof.
  revert s. unfold run. induction l as [|e l IH]; intros s Hf Hi; [done|]. destruct Hf as [He Hf]. apply IH; [done|].
  destruct e; [by apply on_accept_inv|by apply on_conn_gone_inv|]. cbn. unfold stop_accepting.
  destruct (_ <? 0); [done|]. destruct Hi. by constructor.
Qed.

(** C40: A server accounts for every descriptor it accepts.  After any accept
    completions, notifications and stops, when the pool gives each connection an
    identity no live one has: the accepted descriptors are exactly those it closed
    itself, those of connections that ended and those of the connections in its
    table, each once; the table never exceeds [max_connections]; the listener is
    closed once, by the first stop; and never more than one accept is in flight, and
    exactly one as long as no accept is cancelled, none is refused by the backend
    and accepting has not been stopped, errors and full tables included. *)
Theorem server_accounts_for_descriptors max fd l s0 :
  open_ true fd = Some s0 -> 0 <= fd -> all_fresh max l s0 ->
  let s := run max l s0 in
  accepted s ≡ₚ closed s ++ ended s ++ owned s /\ Z.of_nat (size (conns_ s)) <= Z.max max 0 /\
  conns_opened s = zlen (ended s) + Z.of_nat (size (conns_ s)) /\
  (if stopped l then listen_fd_ s = -1 /\ listeners s = [fd] else listen_fd_ s = fd /\ listeners s = []) /\
  armed s <= 1 /\ (forallb serves l = true -> armed s = 1).
Proof.
  intros [= <-] Hfd Hf s. set (s0 := submit_accept true _) in *.
  destruct (run_server_inv max l s0 Hf) as [K S F C O A].
  { constructor; cbn; try done; try lia. by rewrite map_size_empty; lia. }
  pose proof (run_listener max l s0) as L. cbv zeta in L. rewrite (proj2 (Z.leb_le 0 (listen_fd_ s0))), andb_true_r in L by (cbn; lia).
  do 3 (split; [done|]). split; [exact L|]. split; [done|]. intros Hc. change 1 with (armed s0). subst s. clear -Hc.
  unfold run. generalize s0. induction l as [|e l IH]; intros s; [done|]. cbn in Hc. apply andb_true_iff in Hc as [He Hc]. cbn [foldl].
  rewrite (IH Hc). by apply step_armed.
Qed.

(** A refused accept ends the pipeline.  The result of submitting the next accept is
    not looked at: when the backend has no room for it, nothing is in flight any
    more and no completion comes that would submit another, while the listener
    stays open. *)
Lemma refused_accept_stops_server :
  exists s0, open_ true 3 = Some s0 /\
  let s := run 2 [Accept (mkCompletion 7 false) (mkAnswers false true (Some (mkId 0 1)))] s0 in
  armed s = 0 /\ listen_fd_ s = 3 /\ internal_errors s = 0.
Proof. eexists. split; [reflexivity|]. vm_compute. done. Qed.

(** A completion that was on its way when accepting stopped submits an accept on a
    closed listener.  Where the backend takes it, as a ring does, it fails and is
    submitted again, once for each failure. *)
Lemma stopped_server_resubmits n :
  exists s0, open_ true 3 = Some s0 /\
  let s := run 2 (Stop :: Accept (mkCompletion 7 false) (mkAnswers true true None) ::
                  replicate n (Accept (mkCompletion (-9) false) (mkAnswers true true None))) s0 in
  armed s = 1 /\ submitted s = 3 :: replicate (S n) (-1) /\ internal_errors s = Z.of_nat n.
Proof.
  eexists. split; [reflexivity|]. cbv zeta. unfold run. cbn [foldl]. set (s := step _ _ _).
  assert (armed s = 1 /\ listen_fd_ s = -1 /\ submitted s = [3; -1] /\ internal_errors s = 0) as (A & L & Su & Er) by (vm_compute; done).
  change (3 :: replicate (S n) (-1)) with ([3; -1] ++ replicate n (-1)). rewrite <- Su. change (Z.of_nat n) with (0 + Z.of_nat n). rewrite <- Er.
  clear Su Er. clearbody s. revert s A L. induction n as [|n IH]; intros s A L; [split_and!; [done|by rewrite app_nil_r|simpl; lia]|].
  cbn [replicate foldl]. set (s1 := step _ s _).
  assert (armed s1 = armed s - 1 + 1 /\ listen_fd_ s1 = listen_fd_ s /\ submitted s1 = submitted s ++ [listen_fd_ s] /\
          internal_errors s1 = internal_errors s + 1) as (A1 & L1 & S1 & E1) by done.
  destruct (IH s1) as (H1 & H2 & H3); [lia|congruence|]. split_and!; [done| |].
  - by rewrite H2, S1, L, <- app_assoc.
  - rewrite H3, E1. lia.
Qed.

Definition demo_events : list Event :=
  [Accept (mkCompletion 7 false) (mkAnswers true true (Some (mkId 0 1)));
   Accept (mkCompletion 8 true) (mkAnswers true true (Some (mkId 1 1)));
   Accept (mkCompletion 9 false) (mkAnswers true true (Some (mkId 2 1)));
   Gone (mkId 0 1);
   Accept (mkCompletion (-24) false) (mkAnswers true true None)].

Lemma server_accounts_for_descriptors_witness :
  exists s0, open_ true 3 = Some s0 /\
  let s := run 2 demo_events s0 in
  accepted s ≡ₚ closed s ++ ended s ++ owned s /\ closed s = [9] /\ ended s = [7] /\ armed s = 1.
Proof.
  eexists. split; [reflexivity|]. cbv zeta.
  edestruct (server_accounts_for_descriptors 2 3 demo_events) as (H & _ & _ & _ & _ & Ha); [reflexivity|lia| |].
  { cbn [all_fresh demo_events fresh object id_ok idx gen].
    repeat split; try lia; apply (bool_decide_unpack _); vm_compute; exact I. }
  split; [exact H|]. split; [vm_compute; reflexivity|]. split; [vm_compute; reflexivity|]. apply Ha. reflexivity.
Defined.

End Server.
