(* ===== verification/Dns.v ===== *)
(** * Resolver

    [Resolver::resolve] and [Resolver::run_job] of [src/include/afx/net/dns.hpp] and
    [src/src/net/dns.cpp]: a request runs on the resolver's own loop and its answer
    comes back through the requester's mailbox, racing the requester's timer.
    Whether the two mailboxes accept is up to the environment, and what
    [getaddrinfo] answers is an argument of the step. *)

From stdpp Require Import base option gmap list.
From Stdlib Require Import ZArith Lia.
From S2P Require Import Prelude.
Local Open Scope Z_scope.

Module Dns.
Section Lookup.
Context {A : Type}.

(** What the callback receives. *)
Inductive Answer := Addrs (l : list A) | ResolveFailed | Expired.

(** [done], the timer while armed, the job in the resolver's mailbox with its
    deadline, the answer in the requester's mailbox, the calls of the callback. *)
Record State := mkState {
  done : bool;
  timer : option Z;
  job : option (option Z);
  reply : option Answer;
  calls : list Answer }.

Definition resolve (now timeout : Z) (accepted : bool) : State :=
  mkState false (if 0 <? timeout then Some (now + timeout) else None)
    (if accepted then Some (if timeout =? 0 then None else Some (now + timeout)) else None) None [].

(** What a job finds at [now]: past its deadline it looks nothing up and reports no
    error either. *)
Definition lookup (now : Z) (deadline : option Z) (gai : option (list A)) : Answer :=
  if match deadline with Some d => d <=? now | None => false end then Addrs []
  else match gai with Some (a :: l) => Addrs (a :: l) | _ => ResolveFailed end.

Definition run_job (now : Z) (gai : option (list A)) (accepted : bool) (s : State) : option State :=
  match job s with
  | Some deadline =>
      Some (mkState (done s) (timer s) None (if accepted then Some (lookup now deadline gai) else None) (calls s))
  | None => None
  end.

Definition run_reply (s : State) : option State :=
  match reply s with
  | Some a =>
      Some (if done s then mkState true (timer s) (job s) None (calls s)
            else mkState true None (job s) None (calls s ++ [a]))
  | None => None
  end.

Definition run_timer (now : Z) (s : State) : option State :=
  match timer s with
  | Some d =>
      if now <? d then None
      else Some (if done s then mkState true None (job s) (reply s) (calls s)
                 else mkState true None (job s) (reply s) (calls s ++ [Expired]))
  | None => None
  end.

Inductive Action := Work (now : Z) (gai : option (list A)) (accepted : bool) | Reply | Timer (now : Z).

Definition step (a : Action) (s : State) : option State :=
  match a with
  | Work now gai ok => run_job now gai ok s
  | Reply => run_reply s
  | Timer now => run_timer now s
  end.

Fixpoint run (l : list Action) (s : State) : option State :=
  match l with [] => Some s | a :: l => match step a s with Some s => run l s | None => None end end.

Definition refuses (a : Action) : bool := match a with Work _ _ ok => negb ok | _ => false end.

(** The callback has run exactly when [done] is set; until then something is to come,
    if anything could be. *)
Definition inv (live : bool) (s : State) : Prop :=
  length (calls s) = (if done s then 1%nat else 0%nat) /\
  (live = true -> done s = false -> is_Some (timer s) \/ is_Some (job s) \/ is_Some (reply s)).

Lemma step_live live a s s' :
  step a s = Some s' -> (live = true -> refuses a = false \/ is_Some (timer s)) -> inv live s ->
  inv live s' /\ (done s' = false -> is_Some (timer s) -> is_Some (timer s')).
Proof.
  intros H Hr [Hc Hl]. destruct a as [now gai ok| |now]; cbn in H.
  - unfold run_job in H. destruct (job s) as [d|]; [|done]. simplify_eq. split; [split; [done|]|done]. cbn. intros Hv Hd.
    destruct (Hr Hv) as [Ho|Ht]; [|auto]. destruct ok; [|done]. eauto.
  - unfold run_reply in H. destruct (reply s) as [a|]; [|done]. simplify_eq.
    destruct (done s) eqn:Ed; repeat split; cbn; try done. rewrite length_app, Hc. done.
  - unfold run_timer in H. destruct (timer s) as [d|]; [|done]. destruct (now <? d); [done|]. simplify_eq.
    destruct (done s) eqn:Ed; repeat split; cbn; try done. rewrite length_app, Hc. done.
Qed.

(** The callback runs once: with a positive timeout, or when both mailboxes
    accept, it has run exactly once when nothing of the request is left; and in any
    case it never runs twice. *)
Theorem resolver_answers_once now timeout accepted l s :
  run l (resolve now timeout accepted) = Some s ->
  (length (calls s) <= 1)%nat /\
  (0 < timeout \/ (accepted = true /\ forallb (fun a => negb (refuses a)) l = true) ->
   timer s = None -> job s = None -> reply s = None -> length (calls s) = 1%nat).
Proof.
  intros H.
  assert (forall live l s0, run l s0 = Some s -> inv live s0 ->
    (live = true -> (done s0 = false -> is_Some (timer s0)) \/ forallb (fun a => negb (refuses a)) l = true) -> inv live s) as Hrun.
  { clear. intros live l. induction l as [|a l IH]; intros s0 H Hi Hl; cbn in H; [by simplify_eq|].
    destruct (step a s0) as [s1|] eqn:E; [|done].
    destruct (done s0) eqn:Ed.
    - destruct (step_live false a s0 s1 E) as [[Hc _] _]; [done|by split; [apply Hi|]|].
      assert (done s1 = true) as Ed1.
      { destruct a as [? ? ?| |now0]; cbn in E; unfold run_job, run_reply, run_timer in E; rewrite ?Ed in E.
        - destruct (job s0); by simplify_eq.
        - destruct (reply s0); by simplify_eq.
        - destruct (timer s0) as [d|]; [|done]. destruct (now0 <? d); by simplify_eq. }
      apply (IH s1 H); [|intros _; left; congruence]. split; [done|]. congruence.
    - destruct (step_live live a s0 s1 E) as [Hi1 Ht]; [|done|].
      + intros Hv. destruct (Hl Hv) as [Ht|Hf]; [right; auto|]. left. cbn in Hf. apply andb_true_iff in Hf as [Hf _]. by apply negb_true_iff.
      + apply (IH s1 H Hi1). intros Hv. destruct (Hl Hv) as [Hs|Hf]; [left; auto|]. right. cbn in Hf. by apply andb_true_iff in Hf as [_ Hf]. }
  split.
  - destruct (Hrun false l _ H) as [Hc _]; [by split|done|]. destruct (done s); lia.
  - intros Hv H1 H2 H3. destruct (Hrun true l _ H) as [Hc Hl].
    + split; [done|]. intros _ _. cbn. destruct Hv as [Ht|[-> _]]; [left; rewrite (proj2 (Z.ltb_lt _ _)) by lia|right; left]; eauto.
    + intros _. destruct Hv as [Ht|[_ Hf]]; [left|by right]. intros _. cbn. rewrite (proj2 (Z.ltb_lt _ _)) by lia. eauto.
    + destruct (done s); [done|]. destruct (Hl eq_refl eq_refl) as [[? ?]|[[? ?]|[? ?]]]; congruence.
Qed.

End Lookup.
Arguments Action : clear implicits.

(** A job that starts past its deadline, before the requester's timer has run,
    answers success with no address: neither the addresses nor [Expired]. *)
Lemma late_job_answers_no_address :
  exists s, run [Work 60 (Some [1; 2]) true; Reply] (resolve 0 50 true) = Some s /\ calls s = [Addrs []] /\ timer s = None.
Proof. eexists. split; [vm_compute; reflexivity|]. done. Qed.

End Dns.
