(* ===== verification/Client.v ===== *)
(** * TcpClient

    [Backoff] and [TcpClient] of [src/include/afx/net/tcp_client.hpp]: connecting with
    a deadline, sequential failover, Happy Eyeballs, reconnecting with backoff.

    A connection object is here an index into [conns] and where it is in its life
    (Connection.v has the object itself): closing it runs the close handler and
    defers the owner's notification.  The environment chooses what happens next: a
    connect completes or fails, a connection is lost, a timer that is due fires, the
    oldest deferred notification runs, the resolver answers, time passes.  What the
    code asks of the system (creating a socket, taking an object from the pool,
    the random jitter, [getaddrinfo], the ambient deadline) is an argument. *)

From stdpp Require Import base option gmap list.
From Stdlib Require Import ZArith Lia.
From S2P Require Import Prelude Context Connection.
Local Open Scope Z_scope.

Module Client.
Import Connection.Conn(CloseReason(..)).

Inductive ClientState := Disconnected | Connecting | Connected | ReconnectWait.
#[global] Instance client_state_eq_dec : EqDecision ClientState.
Proof. solve_decision. Defined.

(** ** Backoff *)
Record Backoff := mkBackoff { initial : Z; max : Z; current : Z }.

Definition next (b : Backoff) : Z * Backoff :=
  let d := if current b =? 0 then initial b else current b in
  (d, mkBackoff (initial b) (max b) (Z.min (d * 2) (max b))).

Definition reset (b : Backoff) : Backoff := mkBackoff (initial b) (max b) 0.

(** ** Configuration and environment *)
Record SockAddr := mkAddr { v6 : bool; host : Z }.

(** A unix path or a numeric address, or a name with or without a resolver. *)
Inductive Target := Literal (a : SockAddr) | Name (resolver : bool).

Record ClientConfig := mkConfig {
  target : Target;
  connect_timeout : Z;
  reconnect : Backoff;
  auto_reconnect : bool;
  happy_eyeballs : bool;
  he_stagger : Z }.

(** [creates] and [constructs] answer the n-th request for a socket and for an
    object, [jitter] scales the n-th delay. *)
Record Env := mkEnv {
  creates : nat -> bool;
  constructs : nat -> bool;
  jitter : nat -> Z -> Z;
  getaddrinfo : option (list SockAddr);
  ambient : Z -> Ctx.Deadline }.

(** ** State *)
Inductive ConnPhase := CConnecting | CEstablished | CClosed | CFreed.

(** [attempt]: constructed with [attempt_handlers_]. *)
Record ConnObj := mkObj { phase : ConnPhase; attempt : bool }.

Inductive TimerKind := ConnectTimeout (id : nat) | Reconnect | HeTimeout | Stagger.
Record Timer := mkTimer { group : nat; due : Z; what : TimerKind }.

Inductive UserEvent := UState (s : ClientState) | UOpen (id : nat) | UClosed (id : nat) (r : CloseReason) | UError.

Record TcpClient := mkClient {
  conn_ : option nat;
  pending_ : list nat;
  closing_ : list nat;
  addrs_ : list SockAddr;
  he_addrs_ : list SockAddr;
  addr_idx_ : nat;
  he_next_ : nat;
  he_won_ : bool;
  resolving_ : bool;
  state_ : ClientState;
  backoff : Backoff;
  group_ : option nat;
  he_group_ : option nat;
  (* the loop and the pool *)
  conns : list ConnObj;
  gone : list (nat * CloseReason);
  timers : list Timer;
  now : Z;
  groups : nat;
  asked : nat;
  log : list UserEvent;
  faults : nat }.

Definition set_conn (c : option nat) (s : TcpClient) : TcpClient := mkClient c (pending_ s) (closing_ s) (addrs_ s) (he_addrs_ s) (addr_idx_ s) (he_next_ s) (he_won_ s) (resolving_ s) (state_ s) (backoff s)
  (group_ s) (he_group_ s) (conns s) (gone s) (timers s) (now s) (groups s) (asked s) (log s) (faults s).
Definition set_lists (p c : list nat) (s : TcpClient) : TcpClient := mkClient (conn_ s) p c (addrs_ s) (he_addrs_ s) (addr_idx_ s) (he_next_ s) (he_won_ s) (resolving_ s) (state_ s) (backoff s)
  (group_ s) (he_group_ s) (conns s) (gone s) (timers s) (now s) (groups s) (asked s) (log s) (faults s).
Definition set_addrs (l : list SockAddr) (s : TcpClient) : TcpClient := mkClient (conn_ s) (pending_ s) (closing_ s) l (he_addrs_ s) (addr_idx_ s) (he_next_ s) (he_won_ s) (resolving_ s) (state_ s) (backoff s)
  (group_ s) (he_group_ s) (conns s) (gone s) (timers s) (now s) (groups s) (asked s) (log s) (faults s).
Definition set_idx (i : nat) (s : TcpClient) : TcpClient := mkClient (conn_ s) (pending_ s) (closing_ s) (addrs_ s) (he_addrs_ s) i (he_next_ s) (he_won_ s) (resolving_ s) (state_ s) (backoff s)
  (group_ s) (he_group_ s) (conns s) (gone s) (timers s) (now s) (groups s) (asked s) (log s) (faults s).
Definition set_he (l : list SockAddr) (n : nat) (w : bool) (s : TcpClient) : TcpClient := mkClient (conn_ s) (pending_ s) (closing_ s) (addrs_ s) l (addr_idx_ s) n w (resolving_ s) (state_ s) (backoff s)
  (group_ s) (he_group_ s) (conns s) (gone s) (timers s) (now s) (groups s) (asked s) (log s) (faults s).
Definition set_resolving (b : bool) (s : TcpClient) : TcpClient := mkClient (conn_ s) (pending_ s) (closing_ s) (addrs_ s) (he_addrs_ s) (addr_idx_ s) (he_next_ s) (he_won_ s) b (state_ s) (backoff s)
  (group_ s) (he_group_ s) (conns s) (gone s) (timers s) (now s) (groups s) (asked s) (log s) (faults s).
Definition set_st (x : ClientState) (l : list UserEvent) (s : TcpClient) : TcpClient := mkClient (conn_ s) (pending_ s) (closing_ s) (addrs_ s) (he_addrs_ s) (addr_idx_ s) (he_next_ s) (he_won_ s) (resolving_ s) x (backoff s)
  (group_ s) (he_group_ s) (conns s) (gone s) (timers s) (now s) (groups s) (asked s) l (faults s).
Definition set_backoff (b : Backoff) (s : TcpClient) : TcpClient := mkClient (conn_ s) (pending_ s) (closing_ s) (addrs_ s) (he_addrs_ s) (addr_idx_ s) (he_next_ s) (he_won_ s) (resolving_ s) (state_ s) b
  (group_ s) (he_group_ s) (conns s) (gone s) (timers s) (now s) (groups s) (asked s) (log s) (faults s).
Definition set_groups (g h : option nat) (n : nat) (s : TcpClient) : TcpClient := mkClient (conn_ s) (pending_ s) (closing_ s) (addrs_ s) (he_addrs_ s) (addr_idx_ s) (he_next_ s) (he_won_ s) (resolving_ s) (state_ s) (backoff s)
  g h (conns s) (gone s) (timers s) (now s) n (asked s) (log s) (faults s).
Definition set_conns (l : list ConnObj) (s : TcpClient) : TcpClient := mkClient (conn_ s) (pending_ s) (closing_ s) (addrs_ s) (he_addrs_ s) (addr_idx_ s) (he_next_ s) (he_won_ s) (resolving_ s) (state_ s) (backoff s)
  (group_ s) (he_group_ s) l (gone s) (timers s) (now s) (groups s) (asked s) (log s) (faults s).
Definition set_gone (l : list (nat * CloseReason)) (s : TcpClient) : TcpClient := mkClient (conn_ s) (pending_ s) (closing_ s) (addrs_ s) (he_addrs_ s) (addr_idx_ s) (he_next_ s) (he_won_ s) (resolving_ s) (state_ s) (backoff s)
  (group_ s) (he_group_ s) (conns s) l (timers s) (now s) (groups s) (asked s) (log s) (faults s).
Definition set_timers (l : list Timer) (s : TcpClient) : TcpClient := mkClient (conn_ s) (pending_ s) (closing_ s) (addrs_ s) (he_addrs_ s) (addr_idx_ s) (he_next_ s) (he_won_ s) (resolving_ s) (state_ s) (backoff s)
  (group_ s) (he_group_ s) (conns s) (gone s) l (now s) (groups s) (asked s) (log s) (faults s).
Definition set_now (t : Z) (s : TcpClient) : TcpClient := mkClient (conn_ s) (pending_ s) (closing_ s) (addrs_ s) (he_addrs_ s) (addr_idx_ s) (he_next_ s) (he_won_ s) (resolving_ s) (state_ s) (backoff s)
  (group_ s) (he_group_ s) (conns s) (gone s) (timers s) t (groups s) (asked s) (log s) (faults s).
Definition ask (s : TcpClient) : TcpClient := mkClient (conn_ s) (pending_ s) (closing_ s) (addrs_ s) (he_addrs_ s) (addr_idx_ s) (he_next_ s) (he_won_ s) (resolving_ s) (state_ s) (backoff s)
  (group_ s) (he_group_ s) (conns s) (gone s) (timers s) (now s) (groups s) (S (asked s)) (log s) (faults s).
Definition say (e : UserEvent) (s : TcpClient) : TcpClient := mkClient (conn_ s) (pending_ s) (closing_ s) (addrs_ s) (he_addrs_ s) (addr_idx_ s) (he_next_ s) (he_won_ s) (resolving_ s) (state_ s) (backoff s)
  (group_ s) (he_group_ s) (conns s) (gone s) (timers s) (now s) (groups s) (asked s) (log s ++ [e]) (faults s).
Definition fault (s : TcpClient) : TcpClient := mkClient (conn_ s) (pending_ s) (closing_ s) (addrs_ s) (he_addrs_ s) (addr_idx_ s) (he_next_ s) (he_won_ s) (resolving_ s) (state_ s) (backoff s)
  (group_ s) (he_group_ s) (conns s) (gone s) (timers s) (now s) (groups s) (asked s) (log s) (S (faults s)).

Definition set_state (x : ClientState) (s : TcpClient) : TcpClient :=
  if bool_decide (state_ s = x) then s else set_st x (log s ++ [UState x]) s.

Definition obj (s : TcpClient) (id : nat) : option ConnObj := conns s !! id.
Definition set_phase (id : nat) (p : ConnPhase) (s : TcpClient) : TcpClient :=
  set_conns (alter (fun o => mkObj p (attempt o)) id (conns s)) s.

(** [EM::after], and [EM::cancel_group] of a group that may be unset. *)
Definition after (g : option nat) (d : Z) (k : TimerKind) (s : TcpClient) : TcpClient :=
  match g with Some g => set_timers (timers s ++ [mkTimer g (now s + d) k]) s | None => s end.
Definition cancel_group (g : option nat) (s : TcpClient) : TcpClient :=
  match g with Some g => set_timers (filter (fun t => group t <> g) (timers s)) s | None => s end.

(** [pool_.destroy]: a second destruction is a fault. *)
Definition destroy (id : nat) (s : TcpClient) : TcpClient :=
  match obj s id with
  | Some o => match phase o with CFreed => fault s | _ => set_phase id CFreed s end
  | None => fault s
  end.

Definition is_conn (id : nat) (s : TcpClient) : bool := bool_decide (conn_ s = Some id).

(** [he_lost] for an attempt, the user's handler otherwise. *)
Definition on_close (id : nat) (attempt : bool) (r : CloseReason) (s : TcpClient) : TcpClient :=
  if attempt && negb (is_conn id s) then s else say (UClosed id r) s.

(** [Connection::close]. *)
Definition close (id : nat) (r : CloseReason) (s : TcpClient) : TcpClient :=
  match obj s id with
  | Some o =>
      match phase o with
      | CConnecting | CEstablished =>
          let s := on_close id (attempt o) r (set_phase id CClosed s) in
          set_gone (gone s ++ [(id, r)]) s
      | _ => s
      end
  | None => s
  end.

Definition on_connected (s : TcpClient) : TcpClient := set_state Connected (set_backoff (reset (backoff s)) s).

Section Ops.
Variable env : Env.
Variable cfg : ClientConfig.

Definition connect_budget (s : TcpClient) : Z :=
  let d := ambient env (now s) in
  if Ctx.is_set d then Z.min (connect_timeout cfg) (Ctx.remaining (now s) d) else connect_timeout cfg.

Definition schedule_reconnect (s : TcpClient) : TcpClient :=
  if negb (auto_reconnect cfg) then s
  else
    let s := set_state ReconnectWait s in
    let '(d, b) := next (backoff s) in
    let s := set_backoff b s in
    after (group_ s) (jitter env (asked s) d) Reconnect (ask s).

Definition retry_later (s : TcpClient) : TcpClient := schedule_reconnect (set_state Disconnected s).

(** A new connection object, when the pool has one. *)
Definition construct (attempt : bool) (s : TcpClient) : option nat * TcpClient :=
  let ok := constructs env (asked s) in
  let s := ask s in
  if ok then (Some (length (conns s)), set_conns (conns s ++ [mkObj CConnecting attempt]) s) else (None, s).

Definition create (s : TcpClient) : bool * TcpClient := (creates env (asked s), ask s).

(** [connect_next] over the addresses not tried yet. *)
Fixpoint connect_from (rest : list SockAddr) (s : TcpClient) : TcpClient :=
  match rest with
  | [] => retry_later s
  | _ :: rest =>
      let s := set_idx (S (addr_idx_ s)) s in
      let '(ok, s) := create s in
      if negb ok then connect_from rest s
      else
        let s := match conn_ s with
                 | Some id => set_conn None (destroy id (close id LocalClose s))
                 | None => s
                 end in
        match construct false s with
        | (None, s) => schedule_reconnect s
        | (Some id, s) =>
            let s := set_state Connecting (set_conn (Some id) s) in
            after (group_ s) (connect_budget s) (ConnectTimeout id) s
        end
  end.

Definition connect_next (s : TcpClient) : TcpClient := connect_from (drop (addr_idx_ s) (addrs_ s)) s.

(** [he_launch] and [he_attempt_done] over the candidates not launched yet. *)
Fixpoint he_launch_from (rest : list SockAddr) (s : TcpClient) : TcpClient :=
  if he_won_ s then s
  else match rest with
  | [] => s
  | _ :: rest =>
      let failed (s : TcpClient) : TcpClient :=
        if he_won_ s || negb (bool_decide (pending_ s = [])) then s
        else match rest with [] => retry_later s | _ => he_launch_from rest s end in
      let s := set_he (he_addrs_ s) (S (he_next_ s)) (he_won_ s) s in
      let '(ok, s) := create s in
      if negb ok then failed s
      else
        match construct true s with
        | (None, s) => failed s
        | (Some id, s) => set_state Connecting (set_lists (pending_ s ++ [id]) (closing_ s) s)
        end
  end.

Definition candidates (s : TcpClient) : list SockAddr := drop (he_next_ s) (he_addrs_ s).
Definition he_launch (s : TcpClient) : TcpClient := he_launch_from (candidates s) s.

Definition he_attempt_done (s : TcpClient) : TcpClient :=
  if he_won_ s || negb (bool_decide (pending_ s = [])) then s
  else match candidates s with [] => retry_later s | _ => he_launch s end.

Definition arm_stagger (s : TcpClient) : TcpClient :=
  if he_won_ s || bool_decide (candidates s = []) then s else after (he_group_ s) (he_stagger cfg) Stagger s.

(** The alternation of families. *)
Fixpoint interleave (a b : list SockAddr) : list SockAddr :=
  match a, b with
  | x :: a, y :: b => x :: y :: interleave a b
  | [], b => b
  | a, [] => a
  end.
Definition he_order (l : list SockAddr) : list SockAddr :=
  interleave (filter (fun a => v6 a = true) l) (filter (fun a => v6 a = false) l).

Definition he_begin (s : TcpClient) : TcpClient :=
  let s := set_groups (group_ s) (Some (groups s)) (S (groups s)) s in
  let s := set_he (he_order (addrs_ s)) 0 false s in
  match he_addrs_ s with
  | [] => retry_later s
  | _ => arm_stagger (he_launch (after (he_group_ s) (connect_budget s) HeTimeout s))
  end.

Definition begin_connect (s : TcpClient) : TcpClient :=
  let s := set_idx 0 s in
  if happy_eyeballs cfg && (1 <? zlen (addrs_ s)) then he_begin s else connect_next s.

Definition he_timeout (s : TcpClient) : TcpClient :=
  let s := set_he (he_addrs_ s) (length (he_addrs_ s)) (he_won_ s) s in
  foldl (fun s id => close id CConnectFailed s) s (pending_ s).

(** The losers go to [closing_] one by one, each closed there. *)
Definition he_win (id : nat) (s : TcpClient) : TcpClient :=
  if he_won_ s then (if decide (id ∈ pending_ s) then close id LocalClose s else s)
  else if decide (id ∈ pending_ s) then
    let losers := filter (fun j => j <> id) (pending_ s) in
    let s := set_lists [] (closing_ s) (set_conn (Some id) (set_he (he_addrs_ s) (he_next_ s) true s)) in
    let s := foldl (fun s j => close j LocalClose (set_lists [] (closing_ s ++ [j]) s)) s losers in
    let s := set_groups (group_ s) None (groups s) (cancel_group (he_group_ s) s) in
    say (UOpen id) (on_connected s)
  else s.

(** The open handler of the connection: [he_win], or the wrapped user handler. *)
Definition on_open (id : nat) (attempt : bool) (s : TcpClient) : TcpClient :=
  if attempt then he_win id s else say (UOpen id) (on_connected s).

Definition reclaim_attempt (id : nat) (s : TcpClient) : bool * TcpClient :=
  if decide (id ∈ pending_ s) then
    let s := destroy id s in
    (true, he_attempt_done (set_lists (filter (fun j => j <> id) (pending_ s)) (closing_ s) s))
  else if decide (id ∈ closing_ s) then
    let s := destroy id s in
    (true, set_lists (pending_ s) (filter (fun j => j <> id) (closing_ s)) s)
  else (false, s).

Definition on_conn_gone (id : nat) (r : CloseReason) (s : TcpClient) : TcpClient :=
  let '(ours, s) :=
    if is_conn id s then (true, set_conn None (destroy id s)) else reclaim_attempt id s in
  if negb ours then s
  else if bool_decide (r = CConnectFailed) then
    if negb (happy_eyeballs cfg) || bool_decide (he_addrs_ s = []) then connect_next s else s
  else if negb (bool_decide (state_ s = Disconnected)) then schedule_reconnect s else s.

(** [start]; the error is that of the blocking resolution. *)
Definition start (s : TcpClient) : bool * TcpClient :=
  if bool_decide (is_Some (conn_ s)) || resolving_ s || negb (bool_decide (pending_ s = []))
     || negb (bool_decide (closing_ s = [])) then (true, s)
  else
    let s := set_groups (Some (groups s)) (he_group_ s) (S (groups s)) s in
    match target cfg with
    | Literal a => (true, begin_connect (set_addrs [a] s))
    | Name true => (true, set_resolving true (set_state Connecting s))
    | Name false =>
        match getaddrinfo env with
        | Some (a :: l) => (true, begin_connect (set_addrs (a :: l) s))
        | _ => (false, s)
        end
    end.

(** The resolver's callback. *)
Definition resolved (r : option (list SockAddr)) (s : TcpClient) : TcpClient :=
  let s := set_resolving false s in
  match r with
  | None => retry_later (say UError s)
  | Some l => begin_connect (set_addrs l s)
  end.

Definition fire (k : TimerKind) (s : TcpClient) : TcpClient :=
  match k with
  | ConnectTimeout id =>
      match obj s id with
      | Some o => match phase o with CConnecting => close id CConnectFailed s | _ => s end
      | None => s
      end
  | Reconnect => begin_connect s
  | HeTimeout => he_timeout s
  | Stagger => arm_stagger (he_launch s)
  end.

Inductive Action :=
  | Resolved (r : option (list SockAddr))
  | ConnectOk (id : nat)
  | ConnectErr (id : nat)
  | Lost (id : nat) (r : CloseReason)
  | Fire (k : nat)
  | Notify
  | Advance (dt : Z).

Definition step (a : Action) (s : TcpClient) : option TcpClient :=
  match a with
  | Resolved r => if resolving_ s then Some (resolved r s) else None
  | ConnectOk id =>
      match obj s id with
      | Some (mkObj CConnecting at_) => Some (on_open id at_ (set_phase id CEstablished s))
      | _ => None
      end
  | ConnectErr id =>
      match obj s id with Some (mkObj CConnecting _) => Some (close id CConnectFailed s) | _ => None end
  | Lost id r =>
      if bool_decide (r = CConnectFailed) then None
      else match obj s id with
           | Some (mkObj CEstablished _) => Some (close id r s)
           | Some (mkObj CConnecting _) => if is_conn id s then Some (close id r s) else None
           | _ => None
           end
  | Fire k =>
      match timers s !! k with
      | Some t => if due t <=? now s then Some (fire (what t) (set_timers (delete k (timers s)) s)) else None
      | None => None
      end
  | Notify => match gone s with (id, r) :: l => Some (on_conn_gone id r (set_gone l s)) | [] => None end
  | Advance dt => if 0 <=? dt then Some (set_now (now s + dt) s) else None
  end.

Fixpoint run (l : list Action) (s : TcpClient) : option TcpClient :=
  match l with [] => Some s | a :: l => match step a s with Some s => run l s | None => None end end.

Definition client : TcpClient :=
  mkClient None [] [] [] [] 0 0 false false Disconnected (reconnect cfg) None None [] [] [] 0 0 0 [] 0.


(** ** Invariant *)

Definition he_mode (s : TcpClient) : bool := happy_eyeballs cfg && (1 <? zlen (addrs_ s)).
Definition tracked (s : TcpClient) : list nat := option_list (conn_ s) ++ pending_ s ++ closing_ s.
Definition has_timer (k : TimerKind) (l : list Timer) : Prop := exists t, t ∈ l /\ what t = k.

Definition in_phase (s : TcpClient) (id : nat) (p : ConnPhase) : Prop := phase <$> obj s id = Some p.

(** What a connection waits for: its own end, the timer [k] that bounds its attempt
    among the timers [l], or its notification. *)
Definition watched (l : list Timer) (s : TcpClient) (k : TimerKind) (id : nat) : Prop :=
  in_phase s id CEstablished \/ (in_phase s id CConnecting /\ has_timer k l) \/ (in_phase s id CClosed /\ exists r, (id, r) ∈ gone s).

Record inv (s : TcpClient) : Prop := {
  v_nodup : NoDup (tracked s);
  v_live : forall id, id ∈ tracked s -> exists p, in_phase s id p /\ p <> CFreed;
  v_gone : forall id r, (id, r) ∈ gone s -> in_phase s id CClosed \/ in_phase s id CFreed;
  v_won : he_won_ s = true -> pending_ s = [];
  v_cand : he_won_ s = false -> candidates s <> [] -> has_timer HeTimeout (timers s);
  v_he : he_addrs_ s <> [] -> he_mode s = true;
  v_seq : forall id, conn_ s = Some id -> in_phase s id CConnecting -> he_mode s = false;
  v_fail : forall id, conn_ s = Some id -> (id, CConnectFailed) ∈ gone s -> he_mode s = false;
  v_group : is_Some (group_ s);
  v_res : resolving_ s = false;
  v_faults : faults s = O;
  v_att : pending_ s ++ closing_ s <> [] -> he_addrs_ s <> [] }.

Record watch (l : list Timer) (s : TcpClient) : Prop := {
  w_conn : forall id, conn_ s = Some id -> watched l s (ConnectTimeout id) id;
  w_pending : forall id, id ∈ pending_ s -> watched l s HeTimeout id }.

(** What both are about. *)
Definition frame (s : TcpClient) :=
  (conn_ s, pending_ s, closing_ s, (addrs_ s, he_addrs_ s, he_next_ s, he_won_ s, resolving_ s), (group_ s, conns s, gone s, timers s, faults s)).

Lemma client_inv_frame s s' : frame s = frame s' -> inv s -> inv s'.
Proof.
  destruct s, s'. unfold frame. cbn. intros H. simplify_eq. intros []. by constructor.
Qed.
Lemma watch_frame l s s' : frame s = frame s' -> watch l s -> watch l s'.
Proof. destruct s, s'. unfold frame. cbn. intros H. simplify_eq. intros [? ?]. by constructor. Qed.

Lemma frame_set_state x s : frame (set_state x s) = frame s.
Proof. unfold set_state. by case_bool_decide. Qed.
Lemma frame_on_connected s : frame (on_connected s) = frame s.
Proof. unfold on_connected. by rewrite frame_set_state. Qed.

#[local] Instance conn_phase_eq_dec : EqDecision ConnPhase.
Proof. solve_decision. Defined.
#[local] Instance in_phase_dec s id p : Decision (in_phase s id p).
Proof. unfold in_phase. apply _. Defined.

Lemma in_phase_det s id p q : in_phase s id p -> in_phase s id q -> p = q.
Proof. unfold in_phase. intros H1 H2. rewrite H1 in H2. by simplify_eq. Qed.

Lemma has_timer_app k l l' : has_timer k l -> has_timer k (l ++ l').
Proof. intros (t & Ht & Hk). exists t. rewrite elem_of_app. auto. Qed.
Lemma has_timer_incl k l l' : l ⊆ l' -> has_timer k l -> has_timer k l'.
Proof. intros Hl (t & Ht & Hk). exists t. auto. Qed.

Lemma watch_incl l l' s : l ⊆ l' -> watch l s -> watch l' s.
Proof.
  intros Hl [H1 H2]. constructor; intros id Hid;
    [destruct (H1 id Hid) as [?|[[? ?]|?]]|destruct (H2 id Hid) as [?|[[? ?]|?]]]; unfold watched; eauto 6 using has_timer_incl.
Qed.

(** *** One connection *)

Lemma in_phase_set id p s j q :
  in_phase (set_phase id p s) j q <-> (j = id /\ p = q /\ is_Some (obj s id)) \/ (j <> id /\ in_phase s j q).
Proof.
  unfold in_phase, set_phase, obj. cbn. destruct (decide (j = id)) as [->|Hj].
  - rewrite list_lookup_alter_eq. destruct (conns s !! id); cbn; split.
    + intros H. simplify_eq. left. eauto.
    + intros [(_ & -> & _)|[? _]]; done.
    + done.
    + intros [(_ & _ & [? ?])|[? _]]; done.
  - rewrite list_lookup_alter_ne by done. naive_solver.
Qed.

Lemma in_phase_some s id p : in_phase s id p -> is_Some (obj s id).
Proof. unfold in_phase. destruct (obj s id); [eauto|done]. Qed.

Definition closed (id : nat) (r : CloseReason) (s : TcpClient) : TcpClient := set_gone (gone s ++ [(id, r)]) (set_phase id CClosed s).

Lemma close_cases id r s :
  (close id r s = s /\ ~ in_phase s id CConnecting /\ ~ in_phase s id CEstablished) \/
  (frame (close id r s) = frame (closed id r s) /\ (in_phase s id CConnecting \/ in_phase s id CEstablished)).
Proof.
  unfold close, in_phase, closed. destruct (obj s id) as [[ph at_]|]; cbn; [|left; by repeat split].
  destruct ph; cbn; try (left; by repeat split); right; (split; [|auto]);
    unfold on_close; destruct (at_ && _); reflexivity.
Qed.

Lemma closed_inv id r s :
  in_phase s id CConnecting \/ in_phase s id CEstablished ->
  (r = CConnectFailed -> conn_ s = Some id -> he_mode s = false) -> inv s -> inv (closed id r s).
Proof.
  intros Hp Hr [N L G W C H Sq F Gr R Fa At].
  assert (is_Some (obj s id)) as Ho by (destruct Hp; eauto using in_phase_some).
  assert (forall j q, in_phase (closed id r s) j q <-> (j = id /\ CClosed = q) \/ (j <> id /\ in_phase s j q)) as E.
  { intros j q. change (in_phase (closed id r s) j q) with (in_phase (set_phase id CClosed s) j q). rewrite in_phase_set. naive_solver. }
  constructor; try done.
  - intros j Hj. destruct (L j Hj) as (q & Hq & Hn). destruct (decide (j = id)) as [->|].
    + exists CClosed. rewrite E. auto.
    + exists q. rewrite E. auto.
  - intros j q. cbn. rewrite elem_of_app, list_elem_of_singleton, !E. intros [Hg|Hg]; [|simplify_eq; auto].
    destruct (decide (j = id)); [auto|]. destruct (G _ _ Hg); auto.
  - intros j Hj. rewrite E. intros [[_ ?]|[_ ?]]; [done|]. by apply (Sq j).
  - intros j Hj. cbn. rewrite elem_of_app, list_elem_of_singleton. intros [Hg|Hg]; [by apply (F j)|]. simplify_eq. by apply Hr.
Qed.

(** Every connection but [id] is waited for. *)
Definition watch_but (id : nat) (l : list Timer) (s : TcpClient) : Prop :=
  (forall j, j <> id -> conn_ s = Some j -> watched l s (ConnectTimeout j) j) /\
  (forall j, j <> id -> j ∈ pending_ s -> watched l s HeTimeout j).

Lemma watch_all_but id l s : watch l s -> watch_but id l s.
Proof. intros [H1 H2]. split; auto. Qed.

Lemma closed_watch l id r s : is_Some (obj s id) -> watch_but id l s -> watch l (closed id r s).
Proof.
  intros Ho [H1 H2].
  assert (forall k j, (j <> id -> watched l s k j) -> watched l (closed id r s) k j) as Hw.
  { intros k j H. assert (forall q, in_phase (closed id r s) j q <-> (j = id /\ CClosed = q) \/ (j <> id /\ in_phase s j q)) as E.
    { intros q. change (in_phase (closed id r s) j q) with (in_phase (set_phase id CClosed s) j q). rewrite in_phase_set. naive_solver. }
    unfold watched. rewrite !E. cbn. destruct (decide (j = id)) as [->|Hne].
    - right. right. split; [auto|]. exists r. rewrite elem_of_app, list_elem_of_singleton. auto.
    - destruct (H Hne) as [?|[[? ?]|[? [x ?]]]]; [tauto|tauto|].
      right. right. split; [tauto|]. exists x. rewrite elem_of_app. by left. }
  constructor; intros j Hj; apply Hw; auto.
Qed.

Lemma close_inv id r s : (r = CConnectFailed -> conn_ s = Some id -> he_mode s = false) -> inv s -> inv (close id r s).
Proof.
  intros Hr Hi. destruct (close_cases id r s) as [[-> _]|[E Hp]]; [done|].
  apply (client_inv_frame (closed id r s)); [done|]. by apply closed_inv.
Qed.

Lemma close_watch l id r s : watch l s -> watch l (close id r s).
Proof.
  intros H. destruct (close_cases id r s) as [[-> _]|[E Hp]]; [done|].
  apply (watch_frame l (closed id r s)); [done|]. apply closed_watch; [|by apply watch_all_but]. destruct Hp; eauto using in_phase_some.
Qed.

(** Closing leaves the connection closed, unless it was freed. *)
Lemma client_close_closed id r s : close id r s = s \/ in_phase (close id r s) id CClosed.
Proof.
  destruct (close_cases id r s) as [[-> _]|[E Hp]]; [by left|right].
  assert (in_phase (closed id r s) id CClosed) as H.
  { change (in_phase (set_phase id CClosed s) id CClosed). rewrite in_phase_set. left. split; [done|]. split; [done|]. destruct Hp; eauto using in_phase_some. }
  unfold in_phase, obj in *. assert (conns (close id r s) = conns (closed id r s)) as -> by (unfold frame in E; by simplify_eq). done.
Qed.

(** Freeing a connection that is no longer tracked. *)
Definition freed (id : nat) (c : option nat) (p cl : list nat) (s : TcpClient) : TcpClient :=
  set_lists p cl (set_conn c (set_phase id CFreed s)).

Lemma freed_inv id c p cl s :
  id ∈ tracked s -> c = conn_ s \/ c = None -> p `sublist_of` pending_ s -> cl `sublist_of` closing_ s ->
  id ∉ option_list c ++ p ++ cl -> inv s -> inv (freed id c p cl s).
Proof.
  intros Hid Hc Hp Hcl Hn [N L G W C H Sq F Gr R Fa At].
  assert (option_list c `sublist_of` option_list (conn_ s)) as Hc' by (destruct Hc as [-> | ->]; [done|apply sublist_nil_l]).
  assert (tracked (freed id c p cl s) `sublist_of` tracked s) as Hsub by (by repeat apply sublist_app).
  assert (forall j, c = Some j -> conn_ s = Some j) as Hcj by (destruct Hc as [-> | ->]; done).
  assert (is_Some (obj s id)) as Ho by (destruct (L id Hid) as (q & Hq & _); eauto using in_phase_some).
  assert (forall j q, in_phase (freed id c p cl s) j q <-> (j = id /\ CFreed = q /\ is_Some (obj s id)) \/ (j <> id /\ in_phase s j q)) as E
    by (intros; apply in_phase_set).
  constructor; try done.
  - by apply (sublist_NoDup _ _ N).
  - intros j Hj. assert (j <> id) as Hne by (intros ->; by apply Hn). destruct (L j) as (q & Hq & Hnq).
    { by apply (sublist_subseteq _ _ Hsub). } exists q. rewrite E. auto.
  - intros j r Hg. rewrite !E. destruct (decide (j = id)) as [->|]; [auto|]. destruct (G j r Hg); auto.
  - intros Hw. cbn. specialize (W Hw). rewrite W in Hp. by apply sublist_nil_r in Hp.
  - cbn. intros j Hj. rewrite E. intros [(_ & ? & _)|[_ ?]]; [done|]. apply (Sq j); auto.
  - cbn. intros j Hj. apply (F j). auto.
  - cbn. intros Hx. apply At. intros [E1 E2]%app_eq_nil. rewrite E1 in Hp. rewrite E2 in Hcl. apply sublist_nil_r in Hp, Hcl. by subst.
Qed.

Lemma freed_watch l id c p cl s :
  c = conn_ s \/ c = None -> p `sublist_of` pending_ s -> id ∉ option_list c ++ p -> watch_but id l s -> watch l (freed id c p cl s).
Proof.
  intros Hc Hp Hn [H1 H2].
  assert (forall k j, j <> id -> watched l s k j -> watched l (freed id c p cl s) k j) as Hw.
  { intros k j Hne H. assert (forall q, in_phase (freed id c p cl s) j q <-> in_phase s j q) as E.
    { intros q. change (in_phase (set_phase id CFreed s) j q <-> in_phase s j q). rewrite in_phase_set. naive_solver. }
    unfold watched. by rewrite !E. }
  constructor; cbn; intros j Hj; (assert (j <> id) as Hne by (intros ->; apply Hn; rewrite elem_of_app; subst; set_solver)); apply Hw; [done| |done|].
  - apply H1; [done|]. destruct Hc; congruence.
  - apply H2; [done|]. by apply (sublist_subseteq _ _ Hp).
Qed.

(** *** Retrying *)

Definition good (s : TcpClient) : Prop := inv s /\ watch (timers s) s.

(** Something is in flight or due. *)
Definition busy (s : TcpClient) : Prop := has_timer Reconnect (timers s) \/ is_Some (conn_ s) \/ pending_ s <> [].
Definition awake (s : TcpClient) : Prop := auto_reconnect cfg = true -> state_ s <> Disconnected.
Definition settled (s : TcpClient) : Prop := good s /\ awake s /\ (auto_reconnect cfg = true -> busy s).

Lemma good_frame s s' : frame s = frame s' -> good s -> good s'.
Proof.
  intros E [H1 H2]. split; [by apply (client_inv_frame s)|]. assert (timers s' = timers s) as -> by (unfold frame in E; by simplify_eq).
  by apply (watch_frame _ s).
Qed.

Lemma add_timers_good l s : good s -> good (set_timers (timers s ++ l) s).
Proof.
  intros [[N L G W C H Sq F Gr R Fa At] Hw]. split.
  - constructor; try done. cbn. intros. apply has_timer_app. auto.
  - apply (watch_incl (timers s)); [set_solver|]. destruct Hw. by constructor.
Qed.

Lemma after_good g d k s : good s -> good (after g d k s).
Proof. unfold after. destruct g; [apply add_timers_good|done]. Qed.

Lemma after_has g d k s : is_Some g -> has_timer k (timers (after g d k s)).
Proof. intros [x ->]. cbn. eexists. rewrite elem_of_app, list_elem_of_singleton. split; [by right|done]. Qed.

Lemma state_set_state x s : state_ (set_state x s) = x.
Proof. unfold set_state. by case_bool_decide. Qed.

Lemma schedule_settled s : good s -> settled (schedule_reconnect s).
Proof.
  intros Hg. unfold schedule_reconnect, settled, awake. destruct (auto_reconnect cfg); cbn [negb]; [|done].
  destruct (next (backoff (set_state ReconnectWait s))) as [d b].
  set (s1 := ask _). assert (good s1) as H1 by (apply (good_frame s); [symmetry; apply frame_set_state|done]).
  split; [by apply after_good|].
  split; intros _; [|left; apply after_has, H1]. unfold after. destruct (group_ _); cbn; rewrite state_set_state; done.
Qed.

Lemma set_state_good x s : good s -> good (set_state x s).
Proof. apply good_frame. symmetry. apply frame_set_state. Qed.

Lemma retry_later_settled s : good s -> settled (retry_later s).
Proof. intros Hg. by apply schedule_settled, set_state_good. Qed.

Lemma close_good id r s : (r = CConnectFailed -> conn_ s = Some id -> he_mode s = false) -> good s -> good (close id r s).
Proof.
  intros Hr [H1 H2]. split; [by apply close_inv|].
  assert (timers (close id r s) = timers s) as ->; [|by apply close_watch].
  destruct (close_cases id r s) as [[-> _]|[E _]]; [done|]. unfold frame in E. by simplify_eq.
Qed.

(** What closing leaves alone. *)
Lemma close_keeps id r s :
  conn_ (close id r s) = conn_ s /\ pending_ (close id r s) = pending_ s /\ timers (close id r s) = timers s /\
  state_ (close id r s) = state_ s /\ addrs_ (close id r s) = addrs_ s /\ he_addrs_ (close id r s) = he_addrs_ s /\
  closing_ (close id r s) = closing_ s.
Proof.
  unfold close. destruct (obj s id) as [[ph at_]|]; [|done]. destruct ph; cbn; try done; unfold on_close; by destruct (at_ && _).
Qed.

Lemma close_settled id r s :
  (r = CConnectFailed -> conn_ s = Some id -> he_mode s = false) -> settled s -> settled (close id r s).
Proof.
  intros Hr (Hg & Ha & Hb). destruct (close_keeps id r s) as (E1 & E2 & E3 & E4 & _).
  split; [by apply close_good|]. unfold awake, busy in *. by rewrite E1, E2, E3, E4.
Qed.

(** *** Connecting in sequence *)

Lemma destroy_freed id s : (exists p, in_phase s id p /\ p <> CFreed) -> destroy id s = set_phase id CFreed s.
Proof.
  intros (p & Hp & Hn). unfold destroy, in_phase in *. destruct (obj s id) as [[q at_]|]; [|done]. cbn in *. simplify_eq.
  by destruct p.
Qed.

(** The connection is destroyed and no longer held. *)
Lemma drop_conn_good id s :
  conn_ s = Some id -> inv s -> watch_but id (timers s) s -> good (set_conn None (destroy id s)).
Proof.
  intros Hc Hi Hw. assert (id ∈ tracked s) as Ht by (unfold tracked; rewrite Hc; by left).
  rewrite destroy_freed by (by apply v_live).
  pose proof (v_nodup _ Hi) as Hn. unfold tracked in Hn. rewrite Hc in Hn. cbn in Hn. apply NoDup_cons in Hn as [Hn _].
  apply (good_frame (freed id None (pending_ s) (closing_ s) s)); [done|]. split.
  - apply freed_inv; auto.
  - apply freed_watch; auto. cbn. set_solver.
Qed.

Lemma new_conn_good g d s :
  conn_ s = None -> he_mode s = false -> good s ->
  good (set_timers (timers s ++ [mkTimer g d (ConnectTimeout (length (conns s)))])
         (set_conn (Some (length (conns s))) (set_conns (conns s ++ [mkObj CConnecting false]) s))).
Proof.
  intros Hc Hm [[N L G W C H Sq F Gr R Fa At] [W1 W2]]. set (id := length (conns s)).
  set (s1 := set_conn _ _). assert (forall j q, in_phase s j q -> in_phase s1 j q) as E.
  { intros j q. unfold in_phase, obj. cbn. destruct (conns s !! j) eqn:Ej; [|done]. intros Hq. cbn in Hq.
    rewrite (lookup_app_l_Some _ _ _ _ Ej). done. }
  assert (in_phase s1 id CConnecting) as Hid.
  { unfold in_phase, obj, id. cbn. rewrite lookup_app_r, Nat.sub_diag by lia. done. }
  assert (forall j q, in_phase s j q -> j <> id) as Hne.
  { intros j q Hq ->. unfold in_phase, obj, id in Hq. rewrite lookup_ge_None_2 in Hq by lia. done. }
  set (t := mkTimer _ _ _). unfold tracked in *. rewrite Hc in N, L.
  change (forall j q, in_phase s j q -> in_phase (set_timers (timers s ++ [t]) s1) j q) in E.
  split; [constructor|constructor]; cbn; try done; unfold tracked; cbn.
  - apply NoDup_cons. split; [|done]. intros Hin. destruct (L id Hin) as (q & Hq & _). by apply (Hne id q).
  - intros j Hj. apply elem_of_cons in Hj as [->|Hj]; [by exists CConnecting|]. destruct (L j Hj) as (q & Hq & Hqn). eauto.
  - intros j r Hg'. destruct (G j r Hg'); auto.
  - intros. apply has_timer_app. auto.
  - intros j Hj. simplify_eq. right. left. split; [done|]. exists t. set_solver.
  - intros j Hj. destruct (W2 j Hj) as [?|[[? ?]|[? ?]]]; unfold watched; eauto 7 using has_timer_app.
Qed.

Lemma connect_from_settled rest s : he_mode s = false -> good s -> settled (connect_from rest s).
Proof.
  revert s. induction rest as [|a rest IH]; intros s Hm Hg; cbn [connect_from]; [by apply retry_later_settled|].
  set (s1 := set_idx _ s). cbn [create]. destruct (creates env (asked s1)); cbn [negb]; [|apply IH; [done|by apply (good_frame s)]].
  assert (exists s2, match conn_ (ask s1) with Some id => set_conn None (destroy id (close id LocalClose (ask s1))) | None => ask s1 end = s2 /\
            conn_ s2 = None /\ he_mode s2 = false /\ good s2) as (s2 & -> & Hc & Hm2 & Hg2).
  { assert (good (ask s1)) as Hg1 by (by apply (good_frame s)). destruct (conn_ (ask s1)) as [id|] eqn:Hc; [|by eexists].
    eexists. split; [done|]. split; [done|]. destruct (close_keeps id LocalClose (ask s1)) as (E1 & _ & _ & _ & E5 & _).
    destruct (close_good id LocalClose (ask s1)) as [Hi [W1 W2]]; [done|done|].
    split; [|apply drop_conn_good; [by rewrite E1|done|by split; auto]].
    transitivity (he_mode (close id LocalClose (ask s1))); [|unfold he_mode in *; by rewrite E5].
    unfold destroy. destruct (obj _ id) as [[[] ?]|]; done. }
  unfold construct. destruct (constructs env (asked s2)); cbn.
  - set (s3 := set_state _ _). set (id := length (conns s2)).
    assert (frame s3 = frame (set_conn (Some id) (set_conns (conns s2 ++ [mkObj CConnecting false]) s2))) as E
      by (unfold s3; by rewrite frame_set_state).
    assert (state_ s3 = Connecting) as Es by apply state_set_state. clearbody s3.
    destruct (v_group _ (proj1 Hg2)) as [g Hgr]. unfold frame in E. cbn in E. rewrite Hgr in E. injection E as E1 E2 E3 E4 E5 E6 E7 E8 E9 E10 E11 E12 E13.
    rewrite E9. cbn [after]. split; [|unfold awake, busy; cbn; rewrite Es, E1; eauto].
    rewrite E12. apply (good_frame (set_timers (timers s2 ++ [mkTimer g (now s3 + connect_budget s3) (ConnectTimeout id)])
         (set_conn (Some id) (set_conns (conns s2 ++ [mkObj CConnecting false]) s2)))); [unfold frame; cbn; congruence|by apply new_conn_good].
  - apply schedule_settled. by apply (good_frame s2).
Qed.


(** *** Happy Eyeballs *)

Lemma interleave_perm a b : interleave a b ≡ₚ a ++ b.
Proof.
  revert b. induction a as [|x a IH]; intros [|y b]; cbn; [done|done|by rewrite app_nil_r|].
  rewrite IH. by rewrite <- Permutation_middle.
Qed.

(** Every address is tried, once. *)
Lemma he_order_perm l : he_order l ≡ₚ l.
Proof.
  unfold he_order. rewrite interleave_perm. induction l as [|[[] h] l IH]; [done| |].
  - rewrite filter_cons_True, filter_cons_False by done. cbn [app]. by rewrite IH.
  - rewrite filter_cons_False, filter_cons_True by done. by rewrite <- Permutation_middle, IH.
Qed.

Lemma new_attempt_good s :
  he_addrs_ s <> [] -> he_won_ s = false -> has_timer HeTimeout (timers s) -> good s ->
  good (set_lists (pending_ s ++ [length (conns s)]) (closing_ s) (set_conns (conns s ++ [mkObj CConnecting true]) s)).
Proof.
  intros Hne0 Hw Ht [[N L G W C H Sq F Gr R Fa At] [W1 W2]]. set (id := length (conns s)). set (s1 := set_lists _ _ _).
  assert (forall j q, in_phase s j q -> in_phase s1 j q) as E.
  { intros j q. unfold in_phase, obj. cbn. destruct (conns s !! j) eqn:Ej; [|done]. intros Hq. cbn in Hq.
    rewrite (lookup_app_l_Some _ _ _ _ Ej). done. }
  assert (in_phase s1 id CConnecting) as Hid.
  { unfold in_phase, obj, id. cbn. rewrite lookup_app_r, Nat.sub_diag by lia. done. }
  assert (forall j q, in_phase s j q -> j <> id) as Hne.
  { intros j q Hq ->. unfold in_phase, obj, id in Hq. rewrite lookup_ge_None_2 in Hq by lia. done. }
  assert (tracked s1 ≡ₚ id :: tracked s) as Hp by (unfold tracked; cbn; solve_Permutation).
  assert (forall j, conn_ s = Some j -> exists q, in_phase s j q /\ j <> id) as Hcn.
  { intros j Hj. destruct (L j) as (q & Hq & _); [unfold tracked; rewrite Hj; by left|]. eauto. }
  split; constructor; cbn; try done.
  - rewrite Hp. apply NoDup_cons. split; [|done]. intros Hin. destruct (L id Hin) as (q & Hq & _). by apply (Hne id q).
  - intros j. rewrite Hp, elem_of_cons. intros [->|Hj]; [by exists CConnecting|]. destruct (L j Hj) as (q & Hq & Hqn). eauto.
  - intros j r Hg'. destruct (G j r Hg'); auto.
  - congruence.
  - intros j Hj Hc. apply (Sq j); [done|]. destruct (Hcn j Hj) as (q & Hq & _). pose proof (in_phase_det _ _ _ _ (E _ _ Hq) Hc). by subst.
  - intros j Hj. destruct (W1 j Hj) as [?|[[? ?]|[? ?]]]; unfold watched; eauto 7.
  - intros j. rewrite elem_of_app, list_elem_of_singleton. intros [Hj| ->]; [|unfold watched; eauto].
    destruct (W2 j Hj) as [?|[[? ?]|[? ?]]]; unfold watched; eauto 7.
Qed.

Lemma next_candidate_good s : good s -> he_won_ s = false -> good (set_he (he_addrs_ s) (S (he_next_ s)) (he_won_ s) s).
Proof.
  intros [[N L G W C H Sq F Gr R Fa At] [W1 W2]] Hw. split; constructor; try done. cbn. intros _ Hc. apply C; [done|]. intros Hn. apply Hc.
  unfold candidates in *. cbn. assert (drop 1 (drop (he_next_ s) (he_addrs_ s)) = []) as E by (by rewrite Hn).
  rewrite drop_drop in E. by replace (S (he_next_ s)) with (he_next_ s + 1)%nat by lia.
Qed.

Lemma he_launch_from_settled rest s :
  rest = candidates s -> rest <> [] -> he_won_ s = false -> (pending_ s <> [] -> awake s) -> good s ->
  settled (he_launch_from rest s).
Proof.
  revert s. induction rest as [|a rest IH]; intros s Hr Hn Hw Ha Hg; [done|]. cbn [he_launch_from]. rewrite Hw.
  set (s1 := set_he _ _ _ s). 
  set (failed := fun s' : TcpClient => if he_won_ s' || negb (bool_decide (pending_ s' = [])) then s'
                   else match rest with [] => retry_later s' | _ => he_launch_from rest s' end).
  assert (good s1) as Hg1.
  { unfold s1. rewrite <- Hw. by apply next_candidate_good. }
  assert (rest = candidates s1) as Hr1.
  { unfold candidates in *. cbn. assert (drop 1 (a :: rest) = drop 1 (drop (he_next_ s) (he_addrs_ s))) as E by (by rewrite <- Hr).
    rewrite drop_drop in E. cbn in E. by replace (S (he_next_ s)) with (he_next_ s + 1)%nat by lia. }
  assert (forall s', frame s' = frame s1 -> state_ s' = state_ s1 -> settled (failed s')) as Hfail.
  { intros s' E Es. assert (good s') as Hg' by (by apply (good_frame s1)).
    assert (pending_ s' = pending_ s /\ he_won_ s' = false /\ candidates s' = candidates s1) as (Ep & Ew & Ec).
    { unfold frame in E. cbn in E. injection E as E1 E2 E3 E4 E5 E6 E7. unfold candidates. by rewrite E5, E6. }
    unfold failed. rewrite Ew, Ep. cbn [orb].
    case_bool_decide as Hpe; cbn [negb].
    - destruct rest as [|b rest]; [by apply retry_later_settled|]. apply IH; try done; [congruence|by rewrite Ep].
    - split; [done|]. unfold awake, busy. rewrite Es, Ep. split; [by apply Ha|]. auto. }
  cbn [create]. destruct (creates env (asked s1)); cbn [negb]; [|by apply Hfail].
  unfold construct. destruct (constructs env (asked (ask s1))); [|by apply Hfail].
  set (s2 := ask (ask s1)). assert (good s2) as Hg2 by (by apply (good_frame s1)).
  split; [apply set_state_good, (new_attempt_good s2); [|done| |done]|].
  - cbn. intros E. unfold candidates in Hr. rewrite E in Hr. by rewrite drop_nil in Hr.
  - apply (v_cand _ (proj1 Hg)); [done|]. by rewrite <- Hr.
  - unfold awake, busy. rewrite state_set_state. split; [done|]. intros _. right. right.
    unfold set_state. case_bool_decide; cbn; by intros [_ ?]%app_eq_nil.
Qed.

Lemma he_launch_settled s :
  candidates s <> [] -> he_won_ s = false -> (pending_ s <> [] -> awake s) -> good s -> settled (he_launch s).
Proof. intros. by apply he_launch_from_settled. Qed.

Lemma he_attempt_done_settled s : he_won_ s = false -> (pending_ s <> [] -> awake s) -> good s -> settled (he_attempt_done s).
Proof.
  intros Hw Ha Hg. unfold he_attempt_done. rewrite Hw. cbn [orb]. case_bool_decide as Hp; cbn [negb].
  - destruct (candidates s) eqn:Ec; [by apply retry_later_settled|]. apply he_launch_settled; try done. by rewrite Ec.
  - split; [done|]. unfold busy. auto.
Qed.

Lemma after_settled g d k s : settled s -> settled (after g d k s).
Proof.
  intros (Hg & Ha & Hb). split; [by apply after_good|]. unfold after, awake, busy in *. destruct g; cbn; [|done].
  split; [done|]. intros H. destruct (Hb H) as [?|?]; [left; by apply has_timer_app|auto].
Qed.

Lemma arm_stagger_settled s : settled s -> settled (arm_stagger s).
Proof. intros H. unfold arm_stagger. destruct (_ || _); [done|]. by apply after_settled. Qed.

Lemma he_begin_settled s : he_mode s = true -> (pending_ s <> [] -> awake s) -> good s -> settled (he_begin s).
Proof.
  intros Hm Ha [[N L G W C H Sq F Gr R Fa At] [W1 W2]]. unfold he_begin.
  set (s1 := set_he (he_order _) 0 false _). cbn [he_addrs_ s1].
  destruct (he_addrs_ s1) as [|a l] eqn:Eo.
  { exfalso. unfold he_mode in Hm. apply andb_true_iff in Hm as [_ Hm]. apply Z.ltb_lt in Hm.
    assert (length (addrs_ s) = 0)%nat as El by (rewrite <- (Permutation_length (he_order_perm (addrs_ s))); change (he_order (addrs_ s) = []) in Eo; by rewrite Eo).
    unfold zlen in Hm. lia. }
  apply arm_stagger_settled. set (s2 := after _ _ _ _). assert (good s2) as Hg2.
  { split; constructor; try done; cbn.
    - intros _ _. eexists. rewrite elem_of_app, list_elem_of_singleton. split; [by right|done].
    - intros _ Hx. change (he_addrs_ s1 = []) in Hx. congruence.
    - intros j Hj. destruct (W1 j Hj) as [?|[[? ?]|[? ?]]]; unfold watched; eauto 7 using has_timer_app.
    - intros j Hj. destruct (W2 j Hj) as [?|[[? ?]|[? ?]]]; unfold watched; eauto 7 using has_timer_app. }
  apply he_launch_settled; try done. unfold candidates. cbn. intros Hc. cbn in Eo. rewrite drop_0 in Hc. congruence.
Qed.

Lemma begin_connect_settled s : (pending_ s <> [] -> awake s) -> good s -> settled (begin_connect s).
Proof.
  intros Ha Hg. unfold begin_connect. change (happy_eyeballs cfg && (1 <? zlen (addrs_ (set_idx 0 s)))) with (he_mode s).
  assert (good (set_idx 0 s)) as Hg0 by (by apply (good_frame s)).
  destruct (he_mode s) eqn:Em; [by apply he_begin_settled|]. by apply connect_from_settled.
Qed.


(** *** Ends of attempts *)

Lemma close_other id r s j p : j <> id -> in_phase (close id r s) j p <-> in_phase s j p.
Proof.
  intros Hj. destruct (close_cases id r s) as [[-> _]|[E _]]; [done|].
  assert (in_phase (closed id r s) j p <-> in_phase s j p) as <-.
  { change (in_phase (set_phase id CClosed s) j p <-> in_phase s j p). rewrite in_phase_set. naive_solver. }
  unfold in_phase, obj. assert (conns (close id r s) = conns (closed id r s)) as -> by (unfold frame in E; by simplify_eq). done.
Qed.

Lemma close_ends id r s j : j = id \/ ~ in_phase s j CConnecting -> ~ in_phase (close id r s) j CConnecting.
Proof.
  intros Hj Hc. destruct (decide (j = id)) as [->|Hne]; [|rewrite close_other in Hc by done; destruct Hj; done].
  destruct (close_cases id r s) as [[E [? _]]|[_ _]]; [by rewrite E in Hc|].
  destruct (client_close_closed id r s) as [E|E]; [|by pose proof (in_phase_det _ _ _ _ E Hc)].
  rewrite E in Hc. destruct (close_cases id r s) as [[_ [? _]]|[Ef _]]; [done|].
  assert (in_phase (closed id r s) id CClosed) as H.
  { change (in_phase (set_phase id CClosed s) id CClosed). rewrite in_phase_set. left. eauto using in_phase_some. }
  unfold in_phase, obj in H, Hc. rewrite E in Ef. assert (conns s = conns (closed id r s)) as Ec by (unfold frame in Ef; by simplify_eq).
  rewrite <- Ec in H. rewrite H in Hc. done.
Qed.

Definition close_all (r : CloseReason) (l : list nat) (s : TcpClient) : TcpClient := foldl (fun s id => close id r s) s l.

Lemma close_all_spec T r l s :
  inv s -> watch T s -> (r = CConnectFailed -> forall id, id ∈ l -> conn_ s <> Some id) ->
  let s' := close_all r l s in
  inv s' /\ watch T s' /\ conn_ s' = conn_ s /\ pending_ s' = pending_ s /\ closing_ s' = closing_ s /\ timers s' = timers s /\
  state_ s' = state_ s /\ (forall j, j ∈ l \/ ~ in_phase s j CConnecting -> ~ in_phase s' j CConnecting) /\
  (forall j p, j ∉ l -> in_phase s' j p <-> in_phase s j p).
Proof.
  unfold close_all. revert s. induction l as [|id l IH]; intros s Hi Hw Hr; cbn [foldl].
  - do 7 (split; [done|]). split; [|done]. intros j [?|?]; [set_solver|done].
  - destruct (close_keeps id r s) as (E1 & E2 & E3 & E4 & _ & _ & E5).
    destruct (IH (close id r s)) as (H1 & H2 & H3 & H4 & H5 & H6 & H7 & H8 & H9).
    + apply close_inv; [|done]. intros Hc Hx. exfalso. by apply (Hr Hc id); [left|].
    + by apply close_watch.
    + intros Hc j Hj. rewrite E1. apply Hr; [done|by right].
    + rewrite E1 in H3. rewrite E2 in H4. rewrite E3 in H6. rewrite E4 in H7. rewrite E5 in H5.
      do 7 (split; [done|]). split.
      * intros j Hj. apply H8. destruct (decide (j ∈ l)); [by left|right]. apply close_ends.
        destruct Hj as [Hj|]; [|by right]. apply elem_of_cons in Hj as [?|?]; [by left|done].
      * intros j p Hj. apply not_elem_of_cons in Hj as [Hj1 Hj2]. rewrite H9 by done. by apply close_other.
Qed.

Lemma close_all_won r l s : he_won_ (close_all r l s) = he_won_ s.
Proof.
  unfold close_all. revert s. induction l as [|id l IH]; intros s; [done|]. cbn. rewrite IH. unfold close.
  destruct (obj s id) as [[ph at_]|]; [|done]. destruct ph; try done; cbn; unfold on_close; by destruct (at_ && _).
Qed.

Lemma has_timer_delete k l i t : has_timer k l -> l !! i = Some t -> what t <> k -> has_timer k (delete i l).
Proof.
  intros (u & Hu & Hk) Hi Hne. exists u. split; [|done]. apply list_elem_of_lookup in Hu as [j Hj].
  destruct (decide (j = i)) as [->|Hji]; [simplify_eq|]. rewrite delete_take_drop, elem_of_app. destruct (decide (j < i)%nat).
  - left. apply list_elem_of_lookup. exists j. by rewrite lookup_take_lt.
  - right. apply list_elem_of_lookup. exists (j - Datatypes.S i)%nat. rewrite lookup_drop. rewrite <- Hj. f_equal. lia.
Qed.

Lemma pending_not_conn s id : inv s -> id ∈ pending_ s -> conn_ s <> Some id.
Proof.
  intros Hi Hp Hc. pose proof (v_nodup _ Hi) as N. unfold tracked in N. rewrite Hc in N. cbn in N. apply NoDup_cons in N as [N _]. set_solver.
Qed.

(** A timer that bounds no attempt has fired. *)
Lemma pop_timer_settled k t s :
  timers s !! k = Some t -> (forall id, what t <> ConnectTimeout id) -> what t <> HeTimeout -> (what t <> Reconnect -> settled s) ->
  good s -> good (set_timers (delete k (timers s)) s) /\ (what t <> Reconnect -> settled (set_timers (delete k (timers s)) s)).
Proof.
  intros Ht H1 H2 Hs [[N L G W C H Sq F Gr R Fa At] [W1 W2]].
  assert (good (set_timers (delete k (timers s)) s)) as Hg.
  { split; constructor; try done; cbn; eauto using has_timer_delete.
    - intros j Hj. destruct (W1 j Hj) as [?|[[? ?]|[? ?]]]; unfold watched; eauto 7 using has_timer_delete.
    - intros j Hj. destruct (W2 j Hj) as [?|[[? ?]|[? ?]]]; unfold watched; eauto 7 using has_timer_delete. }
  split; [done|]. intros Hn. destruct (Hs Hn) as (_ & Ha & Hb). split; [done|]. split; [done|]. intros Hau. unfold busy in *. cbn.
  destruct (Hb Hau) as [?|?]; eauto using has_timer_delete.
Qed.

Lemma he_timeout_settled k t s :
  timers s !! k = Some t -> what t = HeTimeout -> settled s -> settled (he_timeout (set_timers (delete k (timers s)) s)).
Proof.
  intros Ht Hk ([Hi Hw] & Ha & Hb). unfold he_timeout. set (s2 := set_he _ _ _ _).
  assert (inv s2) as Hi2.
  { destruct Hi as [N L G W C H Sq F Gr R Fa At]. constructor; try done. intros _ Hc. exfalso. apply Hc.
    unfold candidates. cbn. apply drop_all. }
  assert (watch (timers s) s2) as Hw2 by (destruct Hw; by constructor).
  change (foldl _ s2 (pending_ s2)) with (close_all CConnectFailed (pending_ s) s2).
  destruct (close_all_spec (timers s) CConnectFailed (pending_ s) s2 Hi2 Hw2) as (H1 & [V1 V2] & H3 & H4 & H5 & H6 & H7 & H8 & H9).
  { intros _ id Hid. by apply (pending_not_conn s2). }
  set (s3 := close_all _ _ _) in *. clearbody s3. cbn in H6. split; [split; [done|]|].
  - rewrite H6. constructor; intros j Hj.
    + destruct (V1 j Hj) as [?|[[? Hx]|[? ?]]]; unfold watched; [auto| |auto]. right. left. split; [done|].
      apply (has_timer_delete _ _ _ t); [done|done|]. by rewrite Hk.
    + destruct (V2 j Hj) as [?|[[Hx _]|[? ?]]]; unfold watched; [auto| |auto]. exfalso. apply (H8 j); [|done]. left. rewrite H4 in Hj. done.
  - unfold awake, busy in *. rewrite H3, H4, H6, H7. split; [done|]. intros Hau. destruct (Hb Hau) as [?|?]; [left|by right].
    apply (has_timer_delete _ _ _ t); [done|done|]. by rewrite Hk.
Qed.

Lemma connect_timeout_settled k t id s :
  timers s !! k = Some t -> what t = ConnectTimeout id -> settled s ->
  settled (fire (ConnectTimeout id) (set_timers (delete k (timers s)) s)).
Proof.
  intros Ht Hk ([Hi [W1 W2]] & Ha & Hb). set (s1 := set_timers _ s).
  assert (inv s1) as Hi1.
  { destruct Hi as [N L G W C H Sq F Gr R Fa At]. constructor; try done. cbn. intros H1 H2. apply (has_timer_delete _ _ _ t); auto. by rewrite Hk. }
  assert (auto_reconnect cfg = true -> busy s1) as Hb1.
  { intros Hau. destruct (Hb Hau) as [?|?]; [left|by right]. apply (has_timer_delete _ _ _ t); [done|done|]. by rewrite Hk. }
  assert (forall j, id <> j -> conn_ s = Some j -> watched (timers s1) s1 (ConnectTimeout j) j) as V1.
  { intros j Hj Hc. destruct (W1 j Hc) as [?|[[? ?]|[? ?]]]; unfold watched; [auto| |auto]. right. left. split; [done|].
    apply (has_timer_delete _ _ _ t); [done|done|]. rewrite Hk. congruence. }
  assert (forall j, j ∈ pending_ s1 -> watched (timers s1) s1 HeTimeout j) as V2.
  { intros j Hj. destruct (W2 j Hj) as [?|[[? ?]|[? ?]]]; unfold watched; [auto| |auto]. right. left. split; [done|].
    apply (has_timer_delete _ _ _ t); [done|done|]. by rewrite Hk. }
  cbn [fire]. destruct (decide (in_phase s1 id CConnecting)) as [Hp|Hp].
  - assert (match obj s1 id with Some o => match phase o with CConnecting => close id CConnectFailed s1 | _ => s1 end | None => s1 end
            = close id CConnectFailed s1) as ->.
    { unfold in_phase in Hp. destruct (obj s1 id) as [[[] ?]|]; done. }
    destruct (close_keeps id CConnectFailed s1) as (E1 & E2 & E3 & E4 & _).
    destruct (close_cases id CConnectFailed s1) as [[_ [? _]]|[E _]]; [done|].
    split; [split|].
    + apply close_inv; [|done]. intros _ Hc. by apply (v_seq _ Hi1 id).
    + rewrite E3. apply (watch_frame _ (closed id CConnectFailed s1)); [done|].
      apply closed_watch; [eauto using in_phase_some|]. split; [|auto]. intros j Hj. by apply V1.
    + unfold awake, busy in *. by rewrite E1, E2, E3, E4.
  - assert (match obj s1 id with Some o => match phase o with CConnecting => close id CConnectFailed s1 | _ => s1 end | None => s1 end = s1) as ->.
    { unfold in_phase in Hp. destruct (obj s1 id) as [[[] ?]|]; done. }
    split; [split; [done|constructor; [|done]]|done]. intros j Hj. destruct (decide (id = j)) as [<-|Hne]; [|by apply V1].
    destruct (W1 id Hj) as [?|[[? _]|?]]; unfold watched; [auto|done|auto].
Qed.


(** *** Events *)

Lemma establish_settled id s : in_phase s id CConnecting -> settled s -> settled (set_phase id CEstablished s).
Proof.
  intros Hp ([[N L G W C H Sq F Gr R Fa At] [W1 W2]] & Hab). set (s1 := set_phase _ _ s).
  assert (forall j q, in_phase s1 j q <-> (j = id /\ CEstablished = q) \/ (j <> id /\ in_phase s j q)) as E.
  { intros j q. unfold s1. rewrite in_phase_set. pose proof (in_phase_some _ _ _ Hp). naive_solver. }
  assert (forall k j, watched (timers s) s k j -> watched (timers s) s1 k j) as Hw.
  { intros k j Hj. unfold watched. rewrite !E. cbn. destruct (decide (j = id)) as [->|]; [tauto|]. destruct Hj as [?|[?|?]]; tauto. }
  split; [|done]. split; constructor; try done; cbn; auto.
  - intros j Hj. destruct (L j Hj) as (q & Hq & Hn). destruct (decide (j = id)) as [->|].
    + exists CEstablished. rewrite E. auto.
    + exists q. rewrite E. auto.
  - intros j r Hg. rewrite !E. destruct (decide (j = id)) as [->|]; [|destruct (G j r Hg); tauto].
    destruct (G id r Hg) as [Hq|Hq]; by pose proof (in_phase_det _ _ _ _ Hp Hq).
  - intros j Hj. rewrite E. intros [[_ ?]|[_ ?]]; [done|]. by apply (Sq j).
Qed.

Lemma close_lists id r p c s : close id r (set_lists p c s) = set_lists p c (close id r s).
Proof.
  unfold close. change (obj (set_lists p c s) id) with (obj s id). destruct (obj s id) as [[ph at_]|]; [|done].
  destruct ph; try done; cbn; unfold on_close; cbn; change (is_conn id (set_phase id CClosed (set_lists p c s))) with (is_conn id (set_phase id CClosed s));
    by destruct (at_ && _).
Qed.

Lemma close_all_lists r l p c s : close_all r l (set_lists p c s) = set_lists p c (close_all r l s).
Proof. unfold close_all. revert s. induction l as [|id l IH]; intros s; [done|]. cbn. by rewrite close_lists, IH. Qed.

(** Moving the losers one by one is moving them all, then closing them. *)
Lemma losers_closed r l s :
  pending_ s = [] ->
  foldl (fun s j => close j r (set_lists [] (closing_ s ++ [j]) s)) s l = close_all r l (set_lists [] (closing_ s ++ l) s).
Proof.
  revert s. induction l as [|j l IH]; intros s Hp; cbn [foldl].
  - rewrite app_nil_r. destruct s. cbn in *. by subst.
  - destruct (close_keeps j r (set_lists [] (closing_ s ++ [j]) s)) as (_ & E2 & _ & _ & _ & _ & E7).
    rewrite IH by (by rewrite E2). rewrite E7. cbn. rewrite <- app_assoc. cbn. unfold close_all. cbn [foldl].
    f_equal. rewrite !close_lists. by destruct (close j r s).
Qed.

Lemma filter_ne_perm id (l : list nat) : NoDup l -> id ∈ l -> l ≡ₚ id :: filter (fun j => j <> id) l.
Proof.
  intros Hn Hi. apply NoDup_Permutation; [done| |].
  - apply NoDup_cons. split; [|by apply NoDup_filter]. rewrite list_elem_of_filter. tauto.
  - intros j. rewrite elem_of_cons, list_elem_of_filter. destruct (decide (j = id)) as [->|]; tauto.
Qed.

Lemma he_win_settled id s : in_phase s id CEstablished -> settled s -> settled (he_win id s).
Proof.
  intros He Hs. pose proof Hs as ([[N L G W C H Sq F Gr R Fa At] [W1 W2]] & _). unfold he_win.
  destruct (he_won_ s) eqn:Ew; [destruct (decide _); [by apply close_settled|done]|]. destruct (decide _) as [Hin|]; [|done].
  set (losers := filter _ _). set (s1 := set_lists [] _ _). rewrite losers_closed by done. set (s2 := set_lists _ _ s1).
  assert (NoDup (pending_ s)) as Np by (by apply NoDup_app in N as (_ & _ & N%NoDup_app); destruct N).
  pose proof (filter_ne_perm id (pending_ s) Np Hin) as Hperm. fold losers in Hperm.
  assert (forall j, j ∈ tracked s2 -> j ∈ tracked s) as Hsub.
  { intros j. unfold tracked. cbn. rewrite Hperm. rewrite !elem_of_app, !elem_of_cons, elem_of_app. tauto. }
  assert (inv s2) as Hi2.
  { constructor; try done.
    - apply NoDup_app in N as (_ & _ & N). unfold tracked. cbn. rewrite Hperm in N. cbn in N.
      by rewrite (Permutation_app_comm (closing_ s) losers).
    - intros j Hj. by apply L, Hsub.
    - intros j Hj Hc. cbn in Hj. simplify_eq. by pose proof (in_phase_det _ _ _ _ He Hc).
    - intros j Hj Hg. cbn in Hj. simplify_eq. destruct (G j _ Hg) as [Hq|Hq]; by pose proof (in_phase_det _ _ _ _ He Hq).
    - intros _. apply At. intros [E _]%app_eq_nil. rewrite E in Hin. by apply elem_of_nil in Hin. }
  assert (watch [] s2) as Hw2.
  { constructor; cbn; [|intros j Hj; by apply elem_of_nil in Hj]. intros j Hj. simplify_eq. by left. }
  destruct (close_all_spec [] LocalClose losers s2 Hi2 Hw2) as (H1 & H2 & H3 & H4 & H5 & H6 & H7 & H8 & H9); [done|].
  set (s3 := close_all _ _ _) in *. set (s4 := set_groups _ _ _ _).
  assert (he_won_ s3 = true) as Hw3 by (unfold s3; by rewrite close_all_won). clearbody s3.
  assert (good s4) as Hg4.
  { assert (forall T, good (set_timers T s3)) as HT.
    { intros T. split; [|apply (watch_incl []); [set_solver|destruct H2; by constructor]].
      destruct H1. constructor; try done. cbn. congruence. }
    apply (good_frame (set_timers (timers (cancel_group (he_group_ s3) s3)) s3)); [|apply HT]. unfold s4, cancel_group. by destruct (he_group_ s3). }
  assert (conn_ s4 = Some id) as Hc4 by (unfold s4, cancel_group; by destruct (he_group_ s3); cbn; rewrite H3).
  clearbody s4. split; [apply (good_frame s4); [rewrite <- (frame_on_connected s4); done|done]|].
  unfold awake, busy, on_connected. cbn. rewrite state_set_state. split; [done|]. intros _. right. left.
  unfold set_state. case_bool_decide; cbn; rewrite Hc4; eauto.
Qed.


Lemma on_open_settled id at_ s : in_phase s id CEstablished -> settled s -> settled (on_open id at_ s).
Proof.
  intros He Hs. unfold on_open. destruct at_; [by apply he_win_settled|]. destruct Hs as (Hg & _ & Hb).
  split; [apply (good_frame s); [rewrite <- (frame_on_connected s); done|done]|].
  unfold awake, busy, on_connected in *. cbn. rewrite state_set_state. split; [done|]. unfold set_state. by case_bool_decide.
Qed.

(** The notification of [id] has been taken from the queue. *)
Lemma taken_inv id r l s : gone s = (id, r) :: l -> inv s -> inv (set_gone l s).
Proof.
  intros E [N L G W C H Sq F Gr R Fa At]. constructor; try done; cbn.
  - intros j q Hj. apply (G j q). rewrite E. by right.
  - intros j Hj Hg. apply (F j); [done|]. rewrite E. by right.
Qed.

Lemma taken_watch id r l T s : gone s = (id, r) :: l -> watch T s -> watch_but id T (set_gone l s).
Proof.
  intros E [W1 W2].
  assert (forall k j, j <> id -> watched T s k j -> watched T (set_gone l s) k j) as Hw.
  { intros k j Hj [?|[?|[? [q Hq]]]]; [by left|by right; left|]. right. right. split; [done|]. exists q. rewrite E in Hq.
    apply elem_of_cons in Hq as [?|?]; [congruence|done]. }
  split; intros j Hj Hx; apply Hw; auto.
Qed.

Lemma destroy_state id s : state_ (destroy id s) = state_ s.
Proof. unfold destroy. by destruct (obj s id) as [[[] ?]|]. Qed.

Lemma reclaim_settled id s :
  inv s -> watch_but id (timers s) s -> conn_ s <> Some id -> awake s -> (auto_reconnect cfg = true -> busy s) ->
  let '(ours, s') := reclaim_attempt id s in
  settled s' /\ (ours = true -> he_mode s = true /\ he_addrs_ s <> []).
Proof.
  intros Hi Hw Hc Ha Hb. unfold reclaim_attempt. destruct (decide _) as [Hp|Hp]; [|destruct (decide _) as [Hcl|Hcl]].
  - assert (id ∈ tracked s) as Ht by (unfold tracked; rewrite !elem_of_app; auto).
    rewrite destroy_freed by (by apply (v_live _ Hi)).
    pose proof (v_nodup _ Hi) as N. apply NoDup_app in N as (_ & N1 & N). apply NoDup_app in N as (_ & N2 & _).
    assert (he_addrs_ s <> []) as Hne by (apply (v_att _ Hi); intros [E _]%app_eq_nil; rewrite E in Hp; by apply elem_of_nil in Hp).
    split; [|intros _; split; [by apply (v_he _ Hi)|done]].
    assert (he_won_ s = false) as Hwn.
    { destruct (he_won_ s) eqn:E; [|done]. rewrite (v_won _ Hi E) in Hp. by apply elem_of_nil in Hp. }
    apply he_attempt_done_settled; [done|done|].
    apply (good_frame (freed id (conn_ s) (filter (fun j => j <> id) (pending_ s)) (closing_ s) s)); [done|].
    assert (id ∉ option_list (conn_ s)) as Hno by (destruct (conn_ s); cbn; [rewrite list_elem_of_singleton; congruence|apply not_elem_of_nil]).
    assert (id ∉ filter (fun j => j <> id) (pending_ s)) as Hnf by (rewrite list_elem_of_filter; tauto).
    split; [apply freed_inv|apply freed_watch]; auto using sublist_filter.
    + rewrite !not_elem_of_app. auto.
    + rewrite not_elem_of_app. auto.
  - assert (id ∈ tracked s) as Ht by (unfold tracked; rewrite !elem_of_app; auto).
    rewrite destroy_freed by (by apply (v_live _ Hi)).
    assert (he_addrs_ s <> []) as Hne by (apply (v_att _ Hi); intros [_ E]%app_eq_nil; rewrite E in Hcl; by apply elem_of_nil in Hcl).
    split; [|intros _; split; [by apply (v_he _ Hi)|done]].
    assert (id ∉ option_list (conn_ s)) as Hno by (destruct (conn_ s); cbn; [rewrite list_elem_of_singleton; congruence|apply not_elem_of_nil]).
    assert (id ∉ filter (fun j => j <> id) (closing_ s)) as Hnf by (rewrite list_elem_of_filter; tauto).
    split; [|done]. apply (good_frame (freed id (conn_ s) (pending_ s) (filter (fun j => j <> id) (closing_ s)) s)); [done|].
    split; [apply freed_inv|apply freed_watch]; auto using sublist_filter.
    + rewrite !not_elem_of_app. auto.
    + rewrite not_elem_of_app. auto.
  - split; [|done]. split; [|done]. split; [done|]. destruct Hw as [W1 W2]. constructor; intros j Hj; [apply W1|apply W2]; congruence.
Qed.

Lemma retry_later_addrs s : he_addrs_ (retry_later s) = he_addrs_ s.
Proof.
  unfold retry_later, schedule_reconnect, set_state. destruct (auto_reconnect cfg); cbn [negb]; [|by case_bool_decide].
  destruct (next _) as [d b]. unfold after. destruct (group_ _); cbn; repeat (case_bool_decide; cbn); done.
Qed.

Lemma he_launch_from_addrs rest s : he_addrs_ (he_launch_from rest s) = he_addrs_ s.
Proof.
  revert s. induction rest as [|a rest IH]; intros s; cbn [he_launch_from]; destruct (he_won_ s) eqn:Ew; try done.
  assert (forall s', he_addrs_ s' = he_addrs_ s -> he_addrs_ (if he_won_ s' || negb (bool_decide (pending_ s' = [])) then s'
            else match rest with [] => retry_later s' | _ => he_launch_from rest s' end) = he_addrs_ s) as Hf.
  { intros s' E. destruct (_ || _); [done|]. destruct rest; [by rewrite retry_later_addrs|by rewrite IH]. }
  cbn [create]. set (s1 := set_he _ _ _ _). destruct (creates env (asked s1)); cbn [negb]; [|by apply Hf].
  unfold construct. destruct (constructs env _); [|by apply Hf]. unfold set_state. by case_bool_decide.
Qed.

Lemma reclaim_addrs id s : he_addrs_ (snd (reclaim_attempt id s)) = he_addrs_ s.
Proof.
  assert (he_addrs_ (destroy id s) = he_addrs_ s) as Ed by (unfold destroy; by destruct (obj s id) as [[[] ?]|]).
  unfold reclaim_attempt. destruct (decide _); [|by destruct (decide _)]. cbn. unfold he_attempt_done. destruct (_ || _); [done|].
  destruct (candidates _); [by rewrite retry_later_addrs|]. unfold he_launch. by rewrite he_launch_from_addrs.
Qed.

Lemma on_conn_gone_settled id r l s : gone s = (id, r) :: l -> settled s -> settled (on_conn_gone id r (set_gone l s)).
Proof.
  intros E ([Hi Hw] & Ha & Hb). pose proof (taken_inv _ _ _ _ E Hi) as Hi1. pose proof (taken_watch _ _ _ _ _ E Hw) as Hw1.
  unfold on_conn_gone. set (s1 := set_gone l s) in *.
  destruct (is_conn id s1) eqn:Ec; [apply bool_decide_eq_true in Ec|apply bool_decide_eq_false in Ec].
  - pose proof (drop_conn_good id s1 Ec Hi1 Hw1) as Hg. set (s2 := set_conn None _) in *. cbn [negb].
    assert (awake s2) as Ha2 by (unfold awake, s2; cbn; by rewrite destroy_state).
    case_bool_decide as Hr.
    + subst r. assert (he_mode s = false) as Hm by (apply (v_fail _ Hi id); [done|rewrite E; by left]).
      assert (he_mode s2 = false /\ he_addrs_ s2 = he_addrs_ s) as [Hm2 Hh].
      { unfold s2. rewrite destroy_freed by (apply (v_live _ Hi1); unfold tracked; rewrite Ec; by left). done. }
      assert (he_addrs_ s2 = []) as ->.
      { rewrite Hh. destruct (he_addrs_ s) eqn:Eh; [done|]. rewrite (v_he _ Hi) in Hm; [done|by rewrite Eh]. }
      rewrite orb_true_r. by apply connect_from_settled.
    + case_bool_decide as Hst; cbn [negb]; [|by apply schedule_settled]. split; [done|]. split; [done|]. intros Hau. by destruct (Ha2 Hau).
  - pose proof (reclaim_settled id s1 Hi1 Hw1 Ec Ha Hb) as Hrec. destruct (reclaim_attempt id s1) as [ours s2] eqn:Er.
    destruct Hrec as [Hs2 Ho]. destruct ours; [|done]. cbn [negb]. destruct (Ho eq_refl) as [Hm Hne].
    assert (he_addrs_ s2 = he_addrs_ s1 /\ happy_eyeballs cfg = true) as [Eh Ehe].
    { unfold he_mode in Hm. apply andb_true_iff in Hm as [Hh _]. split; [|done].
      pose proof (reclaim_addrs id s1) as Hra. by rewrite Er in Hra. }
    case_bool_decide.
    + rewrite Eh, Ehe. rewrite bool_decide_eq_false_2 by done. done.
    + case_bool_decide; [done|]. apply schedule_settled, Hs2.
Qed.


(** While the resolver works nothing else is under way. *)
Definition waiting (s : TcpClient) : Prop :=
  resolving_ s = true /\ conn_ s = None /\ pending_ s = [] /\ closing_ s = [] /\ he_addrs_ s = [] /\ he_won_ s = false /\
  conns s = [] /\ gone s = [] /\ timers s = [] /\ is_Some (group_ s) /\ faults s = O /\ state_ s <> Disconnected /\ addrs_ s = [].

Lemma fresh_good s l :
  conn_ s = None -> pending_ s = [] -> closing_ s = [] -> he_addrs_ s = [] -> gone s = [] -> is_Some (group_ s) ->
  faults s = O -> resolving_ s = false -> good (set_addrs l s).
Proof.
  intros H1 H2 H3 H4 H5 H6 H7 H8. assert (tracked (set_addrs l s) = []) as E by (unfold tracked; cbn; by rewrite H1, H2, H3).
  split; constructor; cbn; rewrite ?E, ?H1, ?H2, ?H3, ?H4, ?H5; try done.
  - constructor.
  - intros id Hid. by apply elem_of_nil in Hid.
  - intros id r Hid. by apply elem_of_nil in Hid.
  - intros _ Hc. exfalso. apply Hc. unfold candidates. cbn. rewrite ?H4. apply drop_nil.
  - intros id Hid. by apply elem_of_nil in Hid.
Qed.

Definition reachable_inv (s : TcpClient) : Prop := waiting s \/ settled s.

Lemma resolved_settled r s : waiting s -> settled (resolved r s).
Proof.
  intros (H1 & H2 & H3 & H4 & H5 & H6 & H7 & H8 & H9 & H10 & H11 & _). unfold resolved.
  assert (forall l, good (set_addrs l (set_resolving false s))) as Hf by (intros l; by apply fresh_good).
  destruct r as [l|].
  - apply begin_connect_settled; [|apply Hf]. intros Hp. by destruct Hp.
  - apply retry_later_settled. apply (good_frame (set_addrs (addrs_ s) (set_resolving false s))); [done|apply Hf].
Qed.

Lemma step_reachable a s s' : step a s = Some s' -> reachable_inv s -> reachable_inv s'.
Proof.
  intros H [Hw|Hs].
  - destruct a as [r|id|id|id r|k| |dt]; cbn in H; pose proof Hw as (H1 & H2 & H3 & H4 & H5 & H6 & H7 & H8 & H9 & _);
      unfold obj in H; rewrite ?H1, ?H7, ?H8, ?H9 in H; cbn in H; try done.
    + simplify_eq. right. by apply resolved_settled.
    + by case_bool_decide.
    + destruct (0 <=? dt); [|done]. simplify_eq. by left.
  - right. pose proof Hs as ([Hi Hwt] & Ha & Hb). destruct a as [r|id|id|id r|k| |dt]; cbn in H.
    + by rewrite (v_res _ Hi) in H.
    + destruct (obj s id) as [[[] at_]|] eqn:Eo; simplify_eq.
      assert (in_phase s id CConnecting) as Hp by (unfold in_phase; by rewrite Eo).
      apply on_open_settled; [|by apply establish_settled]. rewrite in_phase_set. left. eauto.
    + destruct (obj s id) as [[[] at_]|] eqn:Eo; simplify_eq. apply close_settled; [|done]. intros _ Hc. apply (v_seq _ Hi id); [done|].
      unfold in_phase. by rewrite Eo.
    + case_bool_decide; [done|]. destruct (obj s id) as [[[] at_]|]; try done; [destruct (is_conn id s); [|done]|]; simplify_eq;
        by apply close_settled.
    + destruct (timers s !! k) as [t|] eqn:Et; [|done]. destruct (_ <=? _); [|done]. simplify_eq.
      destruct (what t) as [id| | |] eqn:Ek.
      * by apply (connect_timeout_settled k t).
      * destruct (pop_timer_settled k t s) as [Hg _]; try done; rewrite ?Ek; try done. by apply begin_connect_settled.
      * by apply (he_timeout_settled k t).
      * destruct (pop_timer_settled k t s) as [Hg Hs']; try done; rewrite ?Ek; try done. specialize (Hs' ltac:(congruence)).
        cbn [fire]. apply arm_stagger_settled. unfold he_launch. set (s1 := set_timers _ _) in *.
        destruct (candidates s1) eqn:Ec; [cbn; by destruct (he_won_ s)|]. destruct (he_won_ s1) eqn:Ew; [cbn [he_launch_from]; by rewrite Ew|].
        rewrite <- Ec. apply he_launch_settled; try done. by rewrite Ec.
    + destruct (gone s) as [|[id r] l] eqn:Eg; [done|]. simplify_eq. by apply on_conn_gone_settled.
    + destruct (0 <=? dt); [|done]. simplify_eq. split; [|done]. by apply (good_frame s).
Qed.

Lemma run_reachable l s s' : run l s = Some s' -> reachable_inv s -> reachable_inv s'.
Proof.
  revert s. induction l as [|a l IH]; intros s H Hs; cbn in H; [by simplify_eq|].
  destruct (step a s) as [s1|] eqn:E; [|done]. apply (IH s1 H). by apply (step_reachable a s).
Qed.

Lemma start_reachable s : start (client) = (true, s) -> reachable_inv s.
Proof.
  unfold start. cbn. intros H. set (s1 := set_groups _ _ _ _) in H.
  assert (forall a l, settled (begin_connect (set_addrs (a :: l) s1))) as Hb.
  { intros a l. apply begin_connect_settled; [done|]. by apply fresh_good. }
  destruct (target cfg) as [a|[]].
  - simplify_eq. right. apply Hb.
  - simplify_eq. left. unfold waiting, set_state. cbn. repeat split; eauto.
  - destruct (getaddrinfo env) as [[|a l]|]; simplify_eq. right. apply Hb.
Qed.

(** *** The addresses *)

(** Only [start] and the resolver's answer set them. *)
Definition resolution (s : TcpClient) : bool * list SockAddr := (resolving_ s, addrs_ s).

Lemma set_state_resolution x s : resolution (set_state x s) = resolution s.
Proof. unfold set_state. by case_bool_decide. Qed.

Lemma after_resolution g d k s : resolution (after g d k s) = resolution s.
Proof. by destruct g. Qed.

Lemma destroy_resolution id s : resolution (destroy id s) = resolution s.
Proof. unfold destroy. by destruct (obj s id) as [[[] ?]|]. Qed.

Lemma close_resolution id r s : resolution (close id r s) = resolution s.
Proof. unfold close. destruct (obj s id) as [[[] at_]|]; try done; unfold on_close; cbn; by destruct (_ && _). Qed.

Lemma schedule_resolution s : resolution (schedule_reconnect s) = resolution s.
Proof.
  unfold schedule_reconnect. destruct (negb _); [done|]. destruct (next _). rewrite after_resolution.
  apply (set_state_resolution ReconnectWait).
Qed.

Lemma retry_resolution s : resolution (retry_later s) = resolution s.
Proof. unfold retry_later. by rewrite schedule_resolution, set_state_resolution. Qed.

Lemma connect_from_resolution rest s : resolution (connect_from rest s) = resolution s.
Proof.
  revert s. induction rest as [|a rest IH]; intros s; cbn [connect_from]; [apply retry_resolution|]. cbn [create].
  destruct (creates env _); cbn [negb]; [|by rewrite IH]. set (s1 := match conn_ _ with Some _ => _ | None => _ end).
  assert (resolution s1 = resolution s) as E1.
  { unfold s1. destruct (conn_ _) as [id|]; [|done]. etransitivity; [apply (destroy_resolution id)|]. by rewrite close_resolution. }
  clearbody s1. unfold construct. destruct (constructs env _).
  - rewrite after_resolution, set_state_resolution. apply E1.
  - rewrite schedule_resolution. apply E1.
Qed.

Lemma he_launch_from_resolution rest s : resolution (he_launch_from rest s) = resolution s.
Proof.
  revert s. induction rest as [|a rest IH]; intros s; cbn [he_launch_from]; destruct (he_won_ s) eqn:Ew; try done.
  assert (forall s', resolution s' = resolution s -> resolution (if he_won_ s' || negb (bool_decide (pending_ s' = [])) then s'
            else match rest with [] => retry_later s' | _ => he_launch_from rest s' end) = resolution s) as Hf.
  { intros s' E. destruct (_ || _); [done|]. destruct rest; [by rewrite retry_resolution|by rewrite IH]. }
  cbn [create]. set (s1 := set_he _ _ _ _). destruct (creates env (asked s1)); cbn [negb]; [|by apply Hf].
  unfold construct. destruct (constructs env _); [|by apply Hf]. by rewrite set_state_resolution.
Qed.

Lemma arm_stagger_resolution s : resolution (arm_stagger s) = resolution s.
Proof. unfold arm_stagger. destruct (_ || _); [done|apply after_resolution]. Qed.

Lemma begin_connect_resolution s : resolution (begin_connect s) = resolution s.
Proof.
  unfold begin_connect, he_begin, connect_next, he_launch. destruct (_ && _); [|by rewrite connect_from_resolution].
  cbv zeta. destruct (he_addrs_ _); [by rewrite retry_resolution|].
  by rewrite arm_stagger_resolution, he_launch_from_resolution, after_resolution.
Qed.

Lemma foldl_resolution (f : TcpClient -> nat -> TcpClient) l s :
  (forall s id, resolution (f s id) = resolution s) -> resolution (foldl f s l) = resolution s.
Proof. intros Hf. revert s. induction l as [|id l IH]; intros s; [done|]. cbn [foldl]. by rewrite IH. Qed.

Lemma cancel_group_resolution g s : resolution (cancel_group g s) = resolution s.
Proof. unfold cancel_group. by destruct g. Qed.

Lemma on_connected_resolution s : resolution (on_connected s) = resolution s.
Proof. unfold on_connected. by rewrite set_state_resolution. Qed.

Lemma on_open_resolution id at_ s : resolution (on_open id at_ s) = resolution s.
Proof.
  unfold on_open, he_win. destruct at_; [|apply (on_connected_resolution s)].
  destruct (he_won_ s); [destruct (decide _); [apply close_resolution|done]|]. destruct (decide _); [|done]. cbv zeta.
  etransitivity; [apply (on_connected_resolution)|]. etransitivity; [apply cancel_group_resolution|].
  rewrite foldl_resolution; [done|]. intros. by rewrite close_resolution.
Qed.

Lemma reclaim_resolution id s : resolution (snd (reclaim_attempt id s)) = resolution s.
Proof.
  unfold reclaim_attempt. destruct (decide _); [|destruct (decide _); [apply (destroy_resolution id s)|done]].
  cbn [snd]. unfold he_attempt_done, he_launch. destruct (_ || _); [apply (destroy_resolution id s)|].
  destruct (candidates _); rewrite ?retry_resolution, ?he_launch_from_resolution; apply (destroy_resolution id s).
Qed.

Lemma on_conn_gone_resolution id r s : resolution (on_conn_gone id r s) = resolution s.
Proof.
  unfold on_conn_gone. set (p := if is_conn id s then _ else _). assert (resolution (snd p) = resolution s) as Ep.
  { unfold p. destruct (is_conn id s); [apply (destroy_resolution id s)|apply reclaim_resolution]. }
  destruct p as [ours s1]. cbn [snd] in Ep. destruct (negb ours); [done|]. case_bool_decide.
  - destruct (_ || _); [|done]. unfold connect_next. by rewrite connect_from_resolution.
  - destruct (negb _); [by rewrite schedule_resolution|done].
Qed.

Lemma fire_resolution k s : resolution (fire k s) = resolution s.
Proof.
  destruct k as [id| | |]; cbn [fire].
  - destruct (obj s id) as [[[] ?]|]; cbn [phase]; try done. apply close_resolution.
  - apply begin_connect_resolution.
  - unfold he_timeout. rewrite foldl_resolution; [done|]. intros. apply close_resolution.
  - unfold he_launch. by rewrite arm_stagger_resolution, he_launch_from_resolution.
Qed.

(** The resolver's answer, when it is a failure or holds no address. *)
Definition unresolved (a : Action) : bool := match a with Resolved None | Resolved (Some []) => true | _ => false end.

(** There is an address to try, or one to come. *)
Definition known (s : TcpClient) : Prop := resolving_ s = true \/ addrs_ s <> [].

Lemma known_resolution s s' : resolution s = resolution s' -> known s' -> known s.
Proof. unfold resolution, known. intros E. by injection E as -> ->. Qed.

Lemma step_known a s s' : step a s = Some s' -> unresolved a = false -> known s -> known s'.
Proof.
  intros H Hu Hs. destruct a as [[[|x l]|]|id|id|id r|k| |dt]; try done; cbn in H.
  - destruct (resolving_ s); [|done]. injection H as <-. right. unfold resolved.
    pose proof (begin_connect_resolution (set_addrs (x :: l) (set_resolving false s))) as E. injection E as _ ->. done.
  - destruct (obj s id) as [[[] at_]|]; simplify_eq. by apply (known_resolution _ s); [rewrite on_open_resolution|].
  - destruct (obj s id) as [[[] at_]|]; simplify_eq. by apply (known_resolution _ s); [rewrite close_resolution|].
  - case_bool_decide; [done|]. destruct (obj s id) as [[[] at_]|]; try done; [destruct (is_conn id s); [|done]|]; simplify_eq;
      (by apply (known_resolution _ s); [rewrite close_resolution|]).
  - destruct (timers s !! k); [|done]. destruct (_ <=? _); [|done]. simplify_eq.
    by apply (known_resolution _ s); [rewrite fire_resolution|].
  - destruct (gone s) as [|[id r] l]; [done|]. simplify_eq. by apply (known_resolution _ s); [rewrite on_conn_gone_resolution|].
  - destruct (0 <=? dt); [|done]. by simplify_eq.
Qed.

Lemma run_known l s s' : run l s = Some s' -> existsb unresolved l = false -> known s -> known s'.
Proof.
  revert s. induction l as [|a l IH]; intros s H Hu Hs; cbn in H; [by simplify_eq|]. cbn [existsb] in Hu. apply orb_false_iff in Hu as [Ha Hl].
  destruct (step a s) as [s1|] eqn:E; [|done]. apply (IH s1 H Hl). by apply (step_known a s).
Qed.

Lemma start_known s : start client = (true, s) -> known s.
Proof.
  unfold start. cbn. intros H. set (s1 := set_groups _ _ _ _) in H.
  assert (forall a l, known (begin_connect (set_addrs (a :: l) s1))) as Hb.
  { intros a l. apply (known_resolution _ (set_addrs (a :: l) s1)); [apply begin_connect_resolution|by right]. }
  destruct (target cfg) as [a|[]].
  - simplify_eq. apply Hb.
  - simplify_eq. by left.
  - destruct (getaddrinfo env) as [[|a l]|]; simplify_eq. apply Hb.
Qed.

(** C12: A client that reconnects always has something under way.  Once started,
    whatever happens (connects that succeed, fail or never complete, connections lost,
    timers, notifications, the resolver's answer, sockets or objects refused), its
    state is not "disconnected", and the resolver is at work, or a reconnection is
    scheduled, or it has a connection or an attempt that is established, or bounded by
    a timer, or about to be reported.  Unless the resolver answered with a failure or
    with no address, it has an address to try, or the resolver still works; after such
    an answer the reconnections it goes on scheduling attempt nothing
    ([failed_resolution_is_final]). *)
Theorem client_never_stuck l s0 s :
  start client = (true, s0) -> run l s0 = Some s -> auto_reconnect cfg = true ->
  state_ s <> Disconnected /\
  (resolving_ s = true \/ has_timer Reconnect (timers s) \/
   (exists id, conn_ s = Some id /\ watched (timers s) s (ConnectTimeout id) id) \/
   (exists id, id ∈ pending_ s /\ watched (timers s) s HeTimeout id)) /\
  (existsb unresolved l = false -> resolving_ s = true \/ addrs_ s <> []).
Proof.
  intros H0 H Hau. pose proof (fun Hu => run_known l s0 s H Hu (start_known s0 H0)) as Hk.
  destruct (run_reachable l s0 s H (start_reachable s0 H0)) as [Hw|([_ [W1 W2]] & Ha & Hb)].
  - destruct Hw as (H1 & _ & _ & _ & _ & _ & _ & _ & _ & _ & _ & Hst & _). auto.
  - split; [by apply Ha|]. split; [|exact Hk]. right. destruct (Hb Hau) as [?|[[id Hid]|Hp]]; [auto| |].
    + right. left. eauto.
    + right. right. destruct (pending_ s) as [|id p] eqn:E; [done|]. exists id. split; [by left|]. apply W2. rewrite ?E. by left.
Qed.

(** A client destroys each connection object at most once, and holds no destroyed
    one: after any run no object was destroyed twice, and the current connection, the
    attempts in flight and the losers being closed are distinct, live objects. *)
Theorem client_frees_once l s0 s :
  start client = (true, s0) -> run l s0 = Some s ->
  faults s = O /\ NoDup (tracked s) /\ (forall id, id ∈ tracked s -> exists p, in_phase s id p /\ p <> CFreed).
Proof.
  intros H0 H. destruct (run_reachable l s0 s H (start_reachable s0 H0)) as [Hw|([[N L _ _ _ _ _ _ _ _ Fa _] _] & _)]; [|done].
  destruct Hw as (H1 & H2 & H3 & H4 & H5 & H6 & H7 & H8 & H9 & H10 & H11 & _). unfold tracked. rewrite H2, H3, H4.
  split; [done|]. split; [constructor|]. intros id Hid. by apply elem_of_nil in Hid.
Qed.

(** Without an address nothing is ever attempted. *)
Definition addressless (s : TcpClient) : Prop :=
  resolving_ s = false /\ addrs_ s = [] /\ he_addrs_ s = [] /\ conn_ s = None /\ pending_ s = [] /\ conns s = [] /\ gone s = [].

Lemma retry_later_addressless s : addressless s -> addressless (retry_later s).
Proof.
  unfold retry_later, schedule_reconnect, set_state, addressless. intros H. destruct (auto_reconnect cfg); cbn [negb]; [|by case_bool_decide].
  destruct (next _) as [d b]. unfold after. destruct (group_ _); cbn; repeat (case_bool_decide; cbn); done.
Qed.

Lemma begin_connect_addressless s : addressless s -> addressless (begin_connect s).
Proof.
  intros H. unfold begin_connect. pose proof H as (_ & E & _). change (addrs_ (set_idx 0 s)) with (addrs_ s). rewrite E at 1.
  change (1 <? zlen []) with false. rewrite andb_false_r. unfold connect_next. change (addrs_ (set_idx 0 s)) with (addrs_ s). rewrite E.
  rewrite drop_nil. by apply retry_later_addressless.
Qed.

Lemma step_addressless a s s' : step a s = Some s' -> addressless s -> addressless s'.
Proof.
  intros H Hs. pose proof Hs as (H1 & H2 & H3 & H4 & H5 & H6 & H7).
  destruct a as [r|id|id|id r|k| |dt]; cbn in H; unfold obj in H; rewrite ?H1, ?H6, ?H7 in H; cbn in H; try done.
  - by case_bool_decide.
  - destruct (timers s !! k) as [t|]; [|done]. destruct (_ <=? _); [|done]. simplify_eq.
    set (s1 := set_timers _ s). assert (addressless s1) as Hs1 by done. destruct (what t); cbn [fire].
    + unfold obj. cbn. by rewrite H6.
    + by apply begin_connect_addressless.
    + unfold he_timeout. cbn. by rewrite H5.
    + assert (candidates s1 = []) as Ec by (unfold candidates; cbn; rewrite H3; apply drop_nil).
      unfold he_launch. rewrite Ec. cbn. assert ((if he_won_ s then s1 else s1) = s1) as -> by (by destruct (he_won_ s)).
      unfold arm_stagger. rewrite Ec. by rewrite orb_true_r.
  - destruct (0 <=? dt); [|done]. by simplify_eq.
Qed.

(** A failed resolution is never retried.  When the resolver reports a failure (or
    no address), no connection is ever attempted again, however long the client goes
    on scheduling reconnections: a reconnection reuses the empty address list. *)
Theorem failed_resolution_is_final r l s0 s :
  start client = (true, s0) -> r = None \/ r = Some [] -> run (Resolved r :: l) s0 = Some s -> conns s = [] /\ conn_ s = None.
Proof.
  intros H0 Hr H. cbn [run] in H. destruct (step (Resolved r) s0) as [s1|] eqn:E1; [|done].
  assert (addressless s1) as Ha.
  { cbn in E1. destruct (resolving_ s0) eqn:Er; [|done]. simplify_eq.
    destruct (start_reachable s0 H0) as [(H1 & H2 & H3 & H4 & H5 & H6 & H7 & H8 & _ & _ & _ & _ & H9)|((Hi & _) & _)]; [|by rewrite (v_res _ Hi) in Er].
    unfold resolved. destruct Hr as [-> | ->]; [by apply retry_later_addressless|by apply begin_connect_addressless]. }
  clear -H Ha. revert s1 Ha H. induction l as [|a l IH]; intros s1 Ha H; cbn in H; [simplify_eq; by destruct Ha as (_ & _ & _ & ? & _ & ? & _)|].
  destruct (step a s1) as [s2|] eqn:E; [|done]. apply (IH s2); [|done]. by apply (step_addressless a s1).
Qed.

End Ops.

(** ** Backoff *)

(** The delays of consecutive failures. *)
Fixpoint delays (n : nat) (b : Backoff) : list Z :=
  match n with O => [] | S n => let '(d, b) := next b in d :: delays n b end.

Lemma delays_from n b c :
  0 < c <= max b -> (current b = c \/ (current b = 0 /\ initial b = c)) ->
  forall k, (k < n)%nat -> delays n b !! k = Some (Z.min (c * 2 ^ Z.of_nat k) (max b)).
Proof.
  revert b c. induction n as [|n IH]; intros b c Hc Hb k Hk; [lia|]. cbn [delays].
  assert (next b = (c, mkBackoff (initial b) (max b) (Z.min (c * 2) (max b)))) as ->.
  { unfold next. destruct Hb as [-> |[-> ->]]; [|done]. by rewrite (proj2 (Z.eqb_neq c 0)) by lia. }
  destruct k as [|k]; cbn [lookup list_lookup].
  - f_equal. cbn [Z.of_nat]. rewrite Z.pow_0_r. lia.
  - rewrite (IH _ (Z.min (c * 2) (max b))) by (cbn; auto; lia). f_equal. cbn [max].
    rewrite Nat2Z.inj_succ, Z.pow_succ_r by lia. pose proof (Z.pow_pos_nonneg 2 (Z.of_nat k)). nia.
Qed.

(** Backoff doubles up to its maximum, and starts again after a reset. *)
Theorem backoff_doubles n b k :
  0 < initial b <= max b -> (k < n)%nat -> delays n (reset b) !! k = Some (Z.min (initial b * 2 ^ Z.of_nat k) (max b)).
Proof. intros Hb Hk. apply (delays_from n (reset b) (initial b)); [done|by right|done]. Qed.

(** ** Runs *)

Definition demo_env : Env := mkEnv (fun _ => true) (fun _ => true) (fun _ d => d) None (fun _ => None).
Definition demo_cfg : ClientConfig := mkConfig (Name true) 5000 (mkBackoff 100 30000 0) true true 250.
Definition demo_addrs : list SockAddr := [mkAddr false 4; mkAddr true 6].
Definition demo_start : TcpClient := snd (start demo_env demo_cfg (client demo_cfg)).

Lemma client_never_stuck_witness :
  exists s, run demo_env demo_cfg [Resolved (Some demo_addrs); ConnectErr 0; Notify; ConnectErr 1; Notify] demo_start = Some s /\
    state_ s <> Disconnected.
Proof.
  eexists. split; [vm_compute; reflexivity|].
  exact (proj1 (client_never_stuck demo_env demo_cfg [Resolved (Some demo_addrs); ConnectErr 0; Notify; ConnectErr 1; Notify] demo_start _
    ltac:(vm_compute; reflexivity) ltac:(vm_compute; reflexivity) ltac:(reflexivity))).
Defined.

Lemma client_frees_once_witness :
  exists s, run demo_env demo_cfg [Resolved (Some demo_addrs); Advance 250; Fire 1; ConnectOk 1; Notify] demo_start = Some s /\
    faults s = O /\ NoDup (tracked s).
Proof.
  eexists. split; [vm_compute; reflexivity|].
  destruct (client_frees_once demo_env demo_cfg [Resolved (Some demo_addrs); Advance 250; Fire 1; ConnectOk 1; Notify] demo_start _
    ltac:(vm_compute; reflexivity) ltac:(vm_compute; reflexivity)) as (H1 & H2 & _).
  split; [exact H1|exact H2].
Defined.

Lemma failed_resolution_is_final_witness :
  exists s, run demo_env demo_cfg [Resolved None; Advance 100; Fire 0; Advance 200; Fire 0] demo_start = Some s /\
    conns s = [] /\ conn_ s = None.
Proof.
  eexists. split; [vm_compute; reflexivity|].
  apply (failed_resolution_is_final demo_env demo_cfg None [Advance 100; Fire 0; Advance 200; Fire 0] demo_start); [|by left|];
    vm_compute; reflexivity.
Defined.

(** The end of a losing attempt starts a second connection.  Two addresses race,
    the second attempt wins and the user is told; when the loser's close is
    reported, the client schedules a reconnection although it is connected; that
    reconnection wins too and replaces the current connection, and the first one
    stays established with nothing left that would ever close or free it. *)
Theorem he_loser_starts_second_connection :
  exists s, run demo_env demo_cfg [Resolved (Some demo_addrs); Advance 250; Fire 1; ConnectOk 1; Notify; Advance 100; Fire 0; ConnectOk 2]
              demo_start = Some s /\
    in_phase s 1 CEstablished /\ in_phase s 2 CEstablished /\ tracked s = [2%nat] /\
    log s = [UState Connecting; UState Connected; UOpen 1; UState ReconnectWait; UState Connecting; UState Connected; UOpen 2].
Proof. eexists. split; [vm_compute; reflexivity|]. repeat split. Qed.

(** The deadline of a round of attempts outlives it: a round that failed early leaves
    its deadline armed, and the deadline ends the attempts of the next round after
    100 of their 5000 time units. *)
Lemma stale_deadline_ends_next_round :
  exists s, run demo_env demo_cfg [Resolved (Some demo_addrs); ConnectErr 0; Notify; ConnectErr 1; Notify; Advance 4900; Fire 2;
                                   Advance 100; Fire 0] demo_start = Some s /\
    now s = 5000 /\ gone s = [(2%nat, CConnectFailed)].
Proof. eexists. split; [vm_compute; reflexivity|]. repeat split. Qed.

(** Without automatic reconnection a client whose connection ended still reports
    itself connected. *)
Lemma lost_client_reports_connected :
  let cfg := mkConfig (Literal (mkAddr false 4)) 5000 (mkBackoff 100 30000 0) false true 250 in
  exists s, run demo_env cfg [ConnectOk 0; Lost 0 PeerFin; Notify] (snd (start demo_env cfg (client cfg))) = Some s /\
    conn_ s = None /\ state_ s = Connected.
Proof. eexists. split; [vm_compute; reflexivity|]. repeat split. Qed.

End Client.
