(* ===== verification/CoroConn.v ===== *)
(** * Awaiting on connections ([coro/conn.hpp])

    The awaiters [RecvOp], [SendOp] and [ConnectOp], the slots of a connection and of
    a client in which they register ([coro_] of [net/connection.hpp], [state_fn_] of
    [net/tcp_client.hpp]), and the cancel slot of a promise ([coro/task.hpp]).

    The world is one connection, one client and any number of coroutines.  An
    operation is in [ops] from the time its coroutine suspends to the time it is
    answered or destroyed; its number is its address, so that a write to an operation
    that is not there is a write to a frame that is gone and sets [fault], as does a
    use of the connection after its memory was given back.  [log] is the answers, in
    order.  What a resumed coroutine does next are the next steps: every caller of
    [resume_under_ctx] ends with it except [teardown], which is therefore two steps. *)

From stdpp Require Import base option gmap list.
From Stdlib Require Import ZArith Lia.
From S2P Require Import Prelude Backend Connection Client.
Import Errors.
Local Open Scope Z_scope.

Module ConnOps.

Inductive Kind := RecvOp | SendOp | ConnectOp.
Inductive Answer := ARecv (r : Result (list Z)) | ASend (r : Conn.SendResult) | AConnect (r : Result unit).

#[global] Instance kind_eq_dec : EqDecision Kind.
Proof. solve_decision. Defined.
#[global] Instance send_result_eq_dec : EqDecision Conn.SendResult.
Proof. solve_decision. Defined.

(** The connection is open, is waking its waiters in [teardown], or is destroyed. *)
Inductive Life := Open | Waking | Gone.
#[global] Instance life_eq_dec : EqDecision Life.
Proof. solve_decision. Defined.

(** [conn_] and [p_] say whether the pointers are set; [err_] is the member of [ConnectOp]. *)
Record Op := mkOp {
  kind : Kind; task : nat; conn_ : bool; p_ : bool; out_ : Answer; err_ : Error;
  parked_ : bool; cancelled_ : bool }.

(** [cancel_fn] is the operation whose thunk is installed, [at_] the one at which the
    coroutine is suspended. *)
Record Promise := mkPromise { stopped_ : bool; cancel_fn : option nat; at_ : option nat }.

Record World := mkWorld {
  life : Life;
  recv_h : option nat;
  send_h : option nat;
  held : list Z;
  cstate : Client.ClientState;
  cconn : bool;
  state_fn_ : option nat;
  ops : gmap nat Op;
  tasks : gmap nat Promise;
  next : nat;
  fault : bool;
  log : list (nat * Answer);
  arrived : list Z }.

Definition set_life x w := mkWorld x (recv_h w) (send_h w) (held w) (cstate w) (cconn w) (state_fn_ w) (ops w) (tasks w) (next w) (fault w) (log w) (arrived w).
Definition set_recv_h x w := mkWorld (life w) x (send_h w) (held w) (cstate w) (cconn w) (state_fn_ w) (ops w) (tasks w) (next w) (fault w) (log w) (arrived w).
Definition set_send_h x w := mkWorld (life w) (recv_h w) x (held w) (cstate w) (cconn w) (state_fn_ w) (ops w) (tasks w) (next w) (fault w) (log w) (arrived w).
Definition set_held x w := mkWorld (life w) (recv_h w) (send_h w) x (cstate w) (cconn w) (state_fn_ w) (ops w) (tasks w) (next w) (fault w) (log w) (arrived w).
Definition set_cstate x b w := mkWorld (life w) (recv_h w) (send_h w) (held w) x b (state_fn_ w) (ops w) (tasks w) (next w) (fault w) (log w) (arrived w).
Definition on_state_change x w := mkWorld (life w) (recv_h w) (send_h w) (held w) (cstate w) (cconn w) x (ops w) (tasks w) (next w) (fault w) (log w) (arrived w).
Definition set_ops x w := mkWorld (life w) (recv_h w) (send_h w) (held w) (cstate w) (cconn w) (state_fn_ w) x (tasks w) (next w) (fault w) (log w) (arrived w).
Definition set_tasks x w := mkWorld (life w) (recv_h w) (send_h w) (held w) (cstate w) (cconn w) (state_fn_ w) (ops w) x (next w) (fault w) (log w) (arrived w).
Definition set_next x w := mkWorld (life w) (recv_h w) (send_h w) (held w) (cstate w) (cconn w) (state_fn_ w) (ops w) (tasks w) x (fault w) (log w) (arrived w).
Definition set_fault w := mkWorld (life w) (recv_h w) (send_h w) (held w) (cstate w) (cconn w) (state_fn_ w) (ops w) (tasks w) (next w) true (log w) (arrived w).
Definition set_log x w := mkWorld (life w) (recv_h w) (send_h w) (held w) (cstate w) (cconn w) (state_fn_ w) (ops w) (tasks w) (next w) (fault w) x (arrived w).
Definition set_arrived x w := mkWorld (life w) (recv_h w) (send_h w) (held w) (cstate w) (cconn w) (state_fn_ w) (ops w) (tasks w) (next w) (fault w) (log w) x.

Definition world0 : World := mkWorld Open None None [] Client.Connecting false None ∅ ∅ 0 false [] [].

Definition closed_err : Error := make_error Net Closed.
Definition cancelled_err : Error := make_error Cancelled Stopped.
Definition connect_err : Error := make_error Net ConnectFailed.

(** [Connection::resolve], [ConnRef::valid] and [ConnRef::resolve]. *)
Definition resolve (w : World) : bool := bool_decide (life w = Open).

(** ** The promise *)

Definition promise (t : nat) (w : World) : Promise := default (mkPromise false None None) (tasks w !! t).
Definition put_promise (t : nat) (p : Promise) (w : World) : World := set_tasks (<[t := p]> (tasks w)) w.

Definition stop_requested (t : nat) (ctx_stop : bool) (w : World) : bool := stopped_ (promise t w) || ctx_stop.
Definition set_cancel (t i : nat) (w : World) : World :=
  put_promise t (mkPromise (stopped_ (promise t w)) (Some i) (at_ (promise t w))) w.
Definition clear_cancel (t : nat) (w : World) : World :=
  put_promise t (mkPromise (stopped_ (promise t w)) None (at_ (promise t w))) w.
Definition suspend (t : nat) (i : option nat) (w : World) : World :=
  put_promise t (mkPromise (stopped_ (promise t w)) (cancel_fn (promise t w)) i) w.

(** ** The slots of the connection and of the client *)

(** A call on [conn_]. *)
Definition with_conn (f : World -> World) (w : World) : World :=
  if bool_decide (life w = Gone) then set_fault w else f w.

Definition coro_unawait_recv : World -> World := set_recv_h None.
Definition coro_unawait_send : World -> World := set_send_h None.
Definition coro_await_recv (i : nat) : World -> World := set_recv_h (Some i).
Definition coro_await_send (i : nat) : World -> World := set_send_h (Some i).

Definition slot (k : Kind) (w : World) : option nat :=
  match k with RecvOp => recv_h w | SendOp => send_h w | ConnectOp => state_fn_ w end.

(** ** The awaiters *)

Definition no_error : Error := mkError 0 Ok.
Definition new_op (k : Kind) (t : nat) : Op :=
  mkOp k t false false
    (match k with RecvOp => ARecv (Bad closed_err) | SendOp => ASend Conn.RClosed | ConnectOp => AConnect (Val tt) end)
    no_error false false.
Definition set_out a o := mkOp (kind o) (task o) (conn_ o) (p_ o) a (err_ o) (parked_ o) (cancelled_ o).
Definition set_conn o := mkOp (kind o) (task o) true (p_ o) (out_ o) (err_ o) (parked_ o) (cancelled_ o).
Definition set_p o := mkOp (kind o) (task o) (conn_ o) true (out_ o) (err_ o) (parked_ o) (cancelled_ o).
Definition set_err e o := mkOp (kind o) (task o) (conn_ o) (p_ o) (out_ o) e (parked_ o) (cancelled_ o).
Definition set_parked b o := mkOp (kind o) (task o) (conn_ o) (p_ o) (out_ o) (err_ o) b (cancelled_ o).
Definition set_cancelled o := mkOp (kind o) (task o) (conn_ o) (p_ o) (out_ o) (err_ o) (parked_ o) true.

Definition put_op (i : nat) (o : Op) (w : World) : World := set_ops (<[i := o]> (ops w)) w.

Definition RecvOp_await_ready (o : Op) (w : World) : bool * Op * World :=
  if resolve w then
    match held w with
    | [] => (false, set_conn o, w)
    | ms => (true, set_out (ARecv (Val ms)) (set_conn o), set_held [] w)
    end
  else (true, set_out (ARecv (Bad closed_err)) o, w).

Definition RecvOp_await_suspend (ctx_stop : bool) (i : nat) (o : Op) (w : World) : bool * Op * World :=
  let o := set_p o in
  if stop_requested (task o) ctx_stop w then (false, set_out (ARecv (Bad cancelled_err)) o, w)
  else (true, set_parked true o, with_conn (coro_await_recv i) (set_cancel (task o) i w)).

Definition RecvOp_await_resume (o : Op) (w : World) : Answer * Op * World :=
  let '(o, w) := if p_ o then (set_parked false o, clear_cancel (task o) w) else (o, w) in (out_ o, o, w).

Definition RecvOp_dtor (o : Op) (w : World) : World :=
  if parked_ o && conn_ o then with_conn coro_unawait_recv w else w.

(** [r] is what [send] of the connection returns.  A [send] that closes the connection
    is the steps of [teardown] followed by an await that finds it closed. *)
Definition SendOp_await_ready (r : Conn.SendResult) (o : Op) (w : World) : bool * Op * World :=
  if resolve w then (negb (bool_decide (r = Conn.Backpressured)), set_out (ASend r) (set_conn o), w)
  else (true, set_out (ASend Conn.RClosed) o, w).

Definition SendOp_await_suspend (ctx_stop : bool) (i : nat) (o : Op) (w : World) : bool * Op * World :=
  let o := set_p o in
  if stop_requested (task o) ctx_stop w then (false, set_cancelled (set_out (ASend Conn.RClosed) o), w)
  else (true, set_parked true o, with_conn (coro_await_send i) (set_cancel (task o) i w)).

Definition SendOp_await_resume (o : Op) (w : World) : Answer * Op * World :=
  let '(o, w) := if p_ o then (set_parked false o, clear_cancel (task o) w) else (o, w) in
  if cancelled_ o then (ASend Conn.RClosed, o, w) else (out_ o, o, w).

Definition SendOp_dtor (o : Op) (w : World) : World :=
  if parked_ o && conn_ o then with_conn coro_unawait_send w else w.

Definition ConnectOp_await_ready (o : Op) (w : World) : bool * Op * World :=
  (bool_decide (cstate w = Client.Connected) || bool_decide (cstate w = Client.Disconnected), o, w).

Definition ConnectOp_await_suspend (ctx_stop : bool) (i : nat) (o : Op) (w : World) : bool * Op * World :=
  let o := set_p o in
  if stop_requested (task o) ctx_stop w then (false, set_err cancelled_err o, w)
  else (true, set_parked true o, on_state_change (Some i) (set_cancel (task o) i w)).

Definition ConnectOp_await_resume (o : Op) (w : World) : Answer * Op * World :=
  let '(o, w) := if p_ o then (set_parked false o, clear_cancel (task o) w) else (o, w) in
  if negb (error_ok (err_ o)) then (AConnect (Bad (err_ o)), o, w)
  else if cconn w then (AConnect (Val tt), o, w)
  else (AConnect (Bad connect_err), o, w).

Definition ConnectOp_dtor (o : Op) (w : World) : World := if parked_ o then on_state_change None w else w.

(** The awaiter's own method. *)
Definition await_ready (r : Conn.SendResult) (o : Op) (w : World) : bool * Op * World :=
  match kind o with
  | RecvOp => RecvOp_await_ready o w
  | SendOp => SendOp_await_ready r o w
  | ConnectOp => ConnectOp_await_ready o w
  end.
Definition await_suspend (ctx_stop : bool) (i : nat) (o : Op) (w : World) : bool * Op * World :=
  match kind o with
  | RecvOp => RecvOp_await_suspend ctx_stop i o w
  | SendOp => SendOp_await_suspend ctx_stop i o w
  | ConnectOp => ConnectOp_await_suspend ctx_stop i o w
  end.
Definition await_resume (o : Op) (w : World) : Answer * Op * World :=
  match kind o with
  | RecvOp => RecvOp_await_resume o w
  | SendOp => SendOp_await_resume o w
  | ConnectOp => ConnectOp_await_resume o w
  end.
Definition destroy_op (o : Op) (w : World) : World :=
  match kind o with RecvOp => RecvOp_dtor o w | SendOp => SendOp_dtor o w | ConnectOp => ConnectOp_dtor o w end.

(** The end of the full expression: the result, and the awaiter destroyed. *)
Definition complete (i : nat) (o : Op) (w : World) : World :=
  let '(a, o, w) := await_resume o w in
  let w := destroy_op o w in
  set_log (log w ++ [(i, a)]) w.

(** [co_await c.recv()], [co_await c.send(b)], [co_await connect(cli)] in task [t]. *)
Definition co_await (k : Kind) (t : nat) (ctx_stop : bool) (r : Conn.SendResult) (w : World) : World :=
  let i := next w in
  let '(ready, o, w) := await_ready r (new_op k t) (set_next (S i) w) in
  if ready then complete i o w
  else
    let '(suspended, o, w) := await_suspend ctx_stop i o w in
    if suspended then suspend t (Some i) (put_op i o w) else complete i o w.

(** [resume_under_ctx] on a coroutine suspended at operation [i]. *)
Definition resume (i : nat) (w : World) : World :=
  match ops w !! i with
  | None => set_fault w
  | Some o => complete i o (suspend (task o) None (set_ops (delete i (ops w)) w))
  end.

(** [*out = a] with the pointer registered for operation [i]. *)
Definition write_out (i : nat) (a : Answer) (w : World) : World :=
  match ops w !! i with None => set_fault w | Some o => put_op i (set_out a o) w end.

Definition RecvOp_cancel_thunk (i : nat) (o : Op) (w : World) : World :=
  let w := with_conn coro_unawait_recv w in
  resume i (put_op i (set_out (ARecv (Bad cancelled_err)) (set_parked false o)) w).

Definition SendOp_cancel_thunk (i : nat) (o : Op) (w : World) : World :=
  let w := with_conn coro_unawait_send w in resume i (put_op i (set_cancelled (set_parked false o)) w).

Definition ConnectOp_cancel_thunk (i : nat) (o : Op) (w : World) : World :=
  let w := on_state_change None w in resume i (put_op i (set_err cancelled_err (set_parked false o)) w).

(** The thunk that operation [i] installed. *)
Definition cancel_thunk (i : nat) (w : World) : World :=
  match ops w !! i with
  | None => set_fault w
  | Some o =>
      match kind o with
      | RecvOp => RecvOp_cancel_thunk i o w
      | SendOp => SendOp_cancel_thunk i o w
      | ConnectOp => ConnectOp_cancel_thunk i o w
      end
  end.

Definition request_stop (t : nat) (w : World) : World :=
  let p := promise t w in
  let w := put_promise t (mkPromise true (cancel_fn p) (at_ p)) w in
  match cancel_fn p with None => w | Some i => cancel_thunk i (clear_cancel t w) end.

(** Destroying a suspended frame. *)
Definition destroy (t : nat) (w : World) : World :=
  let w' := set_tasks (delete t (tasks w)) w in
  match at_ (promise t w) with
  | None => w'
  | Some i => match ops w !! i with None => set_fault w' | Some o => destroy_op o (set_ops (delete i (ops w')) w') end
  end.

(** ** The connection and the client *)

(** [teardown] up to the waiter of [recv], and the rest. *)
Definition close (w : World) : World :=
  if resolve w then
    let w := set_life Waking w in
    match recv_h w with
    | None => w
    | Some i => resume i (write_out i (ARecv (Bad closed_err)) (coro_unawait_recv w))
    end
  else w.

Definition teardown_rest (w : World) : World :=
  if bool_decide (life w = Waking) then
    set_life Gone
      match send_h w with
      | None => w
      | Some i => resume i (write_out i (ASend Conn.RClosed) (coro_unawait_send w))
      end
  else w.

(** A parsed batch ([dispatch_batch] in coroutine mode). *)
Definition batch (ms : list Z) (w : World) : World :=
  match recv_h w with
  | Some i => resume i (write_out i (ARecv (Val ms)) (coro_unawait_recv (set_arrived (arrived w ++ ms) w)))
  | None =>
      if (length (held w) + length ms <=? Conn.kCoroHeldCap)%nat
      then set_held (held w ++ ms) (set_arrived (arrived w ++ ms) w)
      else close w
  end.

Definition coro_writable (r : Conn.SendResult) (w : World) : World :=
  match send_h w with
  | None => w
  | Some i =>
      if bool_decide (r = Conn.Backpressured) then w
      else resume i (write_out i (ASend r) (coro_unawait_send w))
  end.

Definition on_state (i : nat) (s : Client.ClientState) (w : World) : World :=
  match ops w !! i with
  | None => set_fault w
  | Some o =>
      if negb (parked_ o) then w
      else if bool_decide (s = Client.Connected) || bool_decide (s = Client.Disconnected) then
        let o := if bool_decide (s = Client.Disconnected) then set_err connect_err o else o in
        resume i (clear_cancel (task o) (on_state_change None (put_op i (set_parked false o) w)))
      else w
  end.

(** [set_state] of the client; [c] says whether it has a connection. *)
Definition set_state (s : Client.ClientState) (c : bool) (w : World) : World :=
  let w := set_cstate s c w in
  match state_fn_ w with None => w | Some i => on_state i s w end.

(** ** Runs *)

Inductive Step :=
  | SAwait (k : Kind) (t : nat) (ctx_stop : bool) (r : Conn.SendResult)
  | SBatch (ms : list Z)
  | SWritable (r : Conn.SendResult)
  | SClose
  | STeardownRest
  | SState (s : Client.ClientState) (c : bool)
  | SStop (t : nat)
  | SDestroy (t : nat).

Definition step (w : World) (s : Step) : World :=
  match s with
  | SAwait k t c r => co_await k t c r w
  | SBatch ms => batch ms w
  | SWritable r => coro_writable r w
  | SClose => close w
  | STeardownRest => teardown_rest w
  | SState s c => set_state s c w
  | SStop t => request_stop t w
  | SDestroy t => destroy t w
  end.

(** A suspended coroutine awaits nothing else; a connection parses and drains while it is open. *)
Definition allowed (w : World) (s : Step) : bool :=
  match s with
  | SAwait _ t _ _ => bool_decide (at_ (promise t w) = None)
  | SBatch _ | SWritable _ => resolve w
  | _ => true
  end.

(** No second coroutine waits for the same thing. *)
Definition alone (w : World) (s : Step) : bool :=
  match s with SAwait k _ _ _ => bool_decide (slot k w = None) | _ => true end.

Fixpoint run (ok : World -> Step -> bool) (ss : list Step) (w : World) : option World :=
  match ss with
  | [] => Some w
  | s :: ss => if ok w s then run ok ss (step w s) else None
  end.

(** What the coroutines received. *)
Definition batch_of (x : nat * Answer) : list Z := match x.2 with ARecv (Val ms) => ms | _ => [] end.
Definition received (w : World) : list Z := concat (map batch_of (log w)).

(** ** The three awaiters alike *)

(** [coro_unawait_recv], [coro_unawait_send] or [on_state_change({})], as the kind has it. *)
Definition leave (k : Kind) (w : World) : World :=
  match k with
  | RecvOp => with_conn coro_unawait_recv w
  | SendOp => with_conn coro_unawait_send w
  | ConnectOp => on_state_change None w
  end.
Definition enter (k : Kind) (i : nat) (w : World) : World :=
  match k with
  | RecvOp => with_conn (set_recv_h (Some i)) w
  | SendOp => with_conn (set_send_h (Some i)) w
  | ConnectOp => on_state_change (Some i) w
  end.

Definition suspend_form (ctx_stop : bool) (i : nat) (o : Op) (w : World) : bool * Op * World :=
  let o := set_p o in
  if stop_requested (task o) ctx_stop w then
    (false,
     match kind o with
     | RecvOp => set_out (ARecv (Bad cancelled_err)) o
     | SendOp => set_cancelled (set_out (ASend Conn.RClosed) o)
     | ConnectOp => set_err cancelled_err o
     end, w)
  else (true, set_parked true o, enter (kind o) i (set_cancel (task o) i w)).

Definition resume_form (o : Op) (w : World) : Answer * Op * World :=
  let '(o, w) := if p_ o then (set_parked false o, clear_cancel (task o) w) else (o, w) in
  (match kind o with
   | RecvOp => out_ o
   | SendOp => if cancelled_ o then ASend Conn.RClosed else out_ o
   | ConnectOp =>
       if negb (error_ok (err_ o)) then AConnect (Bad (err_ o))
       else if cconn w then AConnect (Val tt) else AConnect (Bad connect_err)
   end, o, w).

Definition destroy_form (o : Op) (w : World) : World :=
  match kind o with
  | ConnectOp => if parked_ o then leave ConnectOp w else w
  | k => if parked_ o && conn_ o then leave k w else w
  end.

Definition thunk_form (i : nat) (w : World) : World :=
  match ops w !! i with
  | None => set_fault w
  | Some o =>
      let w := leave (kind o) w in
      let o := set_parked false o in
      resume i (put_op i
        (match kind o with
         | RecvOp => set_out (ARecv (Bad cancelled_err)) o
         | SendOp => set_cancelled o
         | ConnectOp => set_err cancelled_err o
         end) w)
  end.

Lemma await_suspend_form c i o w : await_suspend c i o w = suspend_form c i o w.
Proof. by unfold await_suspend, suspend_form; cbn [kind set_p]; destruct (kind o). Qed.

Lemma await_resume_form o w : await_resume o w = resume_form o w.
Proof.
  unfold await_resume, resume_form, RecvOp_await_resume, SendOp_await_resume, ConnectOp_await_resume.
  destruct o as [[] ? ? [] ? ? ? []]; cbn -[clear_cancel]; by repeat case_match.
Qed.

Lemma destroy_op_form o w : destroy_op o w = destroy_form o w.
Proof. by unfold destroy_op, destroy_form; destruct (kind o). Qed.

Lemma cancel_thunk_form i w : cancel_thunk i w = thunk_form i w.
Proof. unfold cancel_thunk, thunk_form. destruct (ops w !! i) as [o|]; [|done]. cbn [kind set_parked]. by destruct (kind o). Qed.

(** ** The invariant *)

(** An operation in flight is parked, with its thunk installed. *)
Definition in_flight (o : Op) : Prop :=
  p_ o = true /\ err_ o = no_error /\ parked_ o = true /\ cancelled_ o = false /\ conn_ o = negb (bool_decide (kind o = ConnectOp)).

(** [k] can be awaited by somebody when the connection is in state [l]. *)
Definition usable (k : Kind) (l : Life) : Prop :=
  match k with RecvOp => l = Open | SendOp => l <> Gone | ConnectOp => True end.

Record inv (w : World) : Prop := {
  i_fault : fault w = false;
  i_once : NoDup (map fst (log w));
  i_old : forall i, i ∈ map fst (log w) -> (i < next w)%nat /\ ops w !! i = None;
  i_op : forall i o, ops w !! i = Some o ->
    (i < next w)%nat /\ in_flight o /\ at_ (promise (task o) w) = Some i /\ slot (kind o) w = Some i /\ usable (kind o) (life w);
  i_slot : forall k i, slot k w = Some i -> exists o, ops w !! i = Some o /\ kind o = k;
  i_thunk : forall t, cancel_fn (promise t w) = at_ (promise t w);
  i_task : forall t i, at_ (promise t w) = Some i -> exists o, ops w !! i = Some o /\ task o = t;
  i_held : is_Some (recv_h w) -> held w = [];
  i_stream : received w ++ held w = arrived w }.

Lemma promise_put t t' p w : promise t (put_promise t' p w) = if decide (t = t') then p else promise t w.
Proof.
  unfold promise, put_promise; cbn [tasks set_tasks]. case_decide as E.
  - by rewrite E, lookup_insert_eq.
  - by rewrite lookup_insert_ne by done.
Qed.

(** The world after operation [i] was answered with [x], or destroyed. *)
Definition entry (i : nat) (x : option Answer) : list (nat * Answer) := match x with Some a => [(i, a)] | None => [] end.
Definition messages (x : option Answer) : list Z := match x with Some a => batch_of (O, a) | None => [] end.

Record answered (i : nat) (o : Op) (x : option Answer) (w w' : World) : Prop := {
  a_ops : ops w' = delete i (ops w);
  a_next : next w' = next w;
  a_log : log w' = log w ++ entry i x;
  a_fault : fault w' = fault w;
  a_tasks : forall t, cancel_fn (promise t w') = (if decide (t = task o) then None else cancel_fn (promise t w))
    /\ at_ (promise t w') = if decide (t = task o) then None else at_ (promise t w);
  a_slot : forall k, slot k w' = if decide (k = kind o) then None else slot k w;
  a_held : held w' = held w;
  a_arrived : arrived w' = arrived w ++ messages x }.

Lemma entry_elem i j x : j ∈ map fst (entry i x) -> j = i.
Proof. destruct x; cbn; [by intros ->%list_elem_of_singleton|by intros ?%elem_of_nil]. Qed.

Lemma received_entry w i x w' : log w' = log w ++ entry i x -> received w' = received w ++ messages x.
Proof.
  intros E. unfold received. rewrite E, map_app, concat_app. f_equal. destruct x as [a|]; cbn; [|done]. by rewrite app_nil_r.
Qed.

(** The life of the connection may have gone on to [l], with nobody left behind. *)
Lemma inv_answered i o x w w' :
  inv w -> ops w !! i = Some o -> answered i o x w w' -> (held w = [] \/ messages x = []) ->
  (forall k, k <> kind o -> usable k (life w) -> usable k (life w')) -> inv w'.
Proof.
  intros I Ho A Hh Hl. destruct (i_op w I i o Ho) as (Hn & Hf & Hat & Hsl & _).
  constructor.
  - rewrite (a_fault _ _ _ _ _ A). apply I.
  - rewrite (a_log _ _ _ _ _ A), map_app. apply NoDup_app. split; [apply I|]. split; [|destruct x; [apply NoDup_singleton|constructor]].
    intros j Hj Hj'. apply entry_elem in Hj' as ->. destruct (i_old w I _ Hj) as [_ E]. congruence.
  - intros j. rewrite (a_log _ _ _ _ _ A), (a_next _ _ _ _ _ A), (a_ops _ _ _ _ _ A), map_app, elem_of_app, lookup_delete_None.
    intros [Hj| ->%entry_elem]; [apply (i_old w I) in Hj; tauto|]. tauto.
  - intros j o' Hj. rewrite (a_ops _ _ _ _ _ A) in Hj. apply lookup_delete_Some in Hj as [Hne Hj].
    destruct (i_op w I j o' Hj) as (Hn' & Hf' & Hat' & Hsl' & Hu').
    assert (task o' <> task o) as Ht by (intros E; rewrite E in Hat'; congruence).
    assert (kind o' <> kind o) as Hk by (intros E; rewrite E in Hsl'; congruence).
    rewrite (a_next _ _ _ _ _ A), (proj2 (a_tasks _ _ _ _ _ A _)), (a_slot _ _ _ _ _ A). rewrite !decide_False by done. auto 10.
  - intros k j. rewrite (a_slot _ _ _ _ _ A), (a_ops _ _ _ _ _ A). case_decide as Hk; [done|]. intros Hj.
    destruct (i_slot w I k j Hj) as (o' & Ho' & Hk'). exists o'. rewrite lookup_delete_ne; [done|]. intros ->. congruence.
  - intros t. destruct (a_tasks _ _ _ _ _ A t) as [-> ->]. case_decide; [done|apply I].
  - intros t j. rewrite (proj2 (a_tasks _ _ _ _ _ A t)), (a_ops _ _ _ _ _ A). case_decide as Ht; [done|]. intros Hj.
    destruct (i_task w I t j Hj) as (o' & Ho' & Hk'). exists o'. rewrite lookup_delete_ne; [done|]. intros ->. congruence.
  - rewrite (a_held _ _ _ _ _ A). change (recv_h w') with (slot RecvOp w'). rewrite (a_slot _ _ _ _ _ A).
    case_decide; [by intros [? ?]|]. apply I.
  - rewrite (received_entry w i x w' (a_log _ _ _ _ _ A)), (a_held _ _ _ _ _ A), (a_arrived _ _ _ _ _ A), <- (i_stream w I).
    destruct Hh as [-> | ->]; by rewrite ?app_nil_r.
Qed.

(** Answering an operation that is no longer parked. *)
Definition answer (o : Op) (w : World) : Answer := (resume_form o w).1.1.

Lemma answer_same o w w' : cconn w = cconn w' -> answer o w = answer o w'.
Proof. intros E. unfold answer, resume_form. destruct (p_ o); cbn -[clear_cancel]; by rewrite ?E; cbn; rewrite ?E. Qed.

Lemma complete_unparked i o w :
  p_ o = true \/ parked_ o = false ->
  complete i o w =
    let w' := if p_ o then clear_cancel (task o) w else w in set_log (log w ++ [(i, answer o w)]) w'.
Proof.
  intros H. unfold complete, answer. rewrite await_resume_form. unfold resume_form. destruct (p_ o) eqn:Ep.
  - rewrite destroy_op_form. unfold destroy_form. cbn -[clear_cancel]. by destruct (kind o).
  - destruct H as [?|H]; [done|]. rewrite destroy_op_form. unfold destroy_form. cbn. rewrite H. by destruct (kind o).
Qed.

(** [resume] on an operation whose registration was undone; [o'] is what was written
    into it, and [w1] the world without its registration. *)
Lemma resume_answered i o o' w w1 :
  ops w !! i = Some o -> ops w1 = <[i := o']> (ops w) -> task o' = task o -> p_ o' = true ->
  next w1 = next w -> log w1 = log w -> fault w1 = fault w -> held w1 = held w ->
  (forall t, t <> task o -> promise t w1 = promise t w) ->
  (forall k, slot k w1 = if decide (k = kind o) then None else slot k w) ->
  arrived w1 = arrived w ++ messages (Some (answer o' w1)) ->
  answered i o (Some (answer o' w1)) w (resume i w1).
Proof.
  intros Ho Eo Et Ep En El Ef Eh Hp Hs Ea. unfold resume. rewrite Eo, lookup_insert_eq.
  rewrite complete_unparked by auto. rewrite Ep, Et.
  rewrite (answer_same o' (suspend (task o) None _) w1) by done.
  constructor; try done.
  - cbn. apply delete_insert_eq.
  - cbn. by rewrite El.
  - intros t. unfold clear_cancel, suspend.
    change (promise t (set_log ?l ?w)) with (promise t w). rewrite !promise_put.
    destruct (decide (t = task o)); [cbn; by rewrite decide_True by done|].
    change (promise t (set_ops ?l ?w)) with (promise t w). by rewrite Hp.
Qed.

(** ** Every step keeps the invariant *)

Lemma inv_fault_free i o w : inv w -> ops w !! i = Some o -> life w = Gone -> kind o = ConnectOp.
Proof. intros I Ho Hl. destruct (i_op w I i o Ho) as (_ & _ & _ & _ & Hu). rewrite Hl in Hu. by destruct (kind o). Qed.

Lemma write_out_there i o a w : ops w !! i = Some o -> write_out i a w = put_op i (set_out a o) w.
Proof. intros E. unfold write_out. by rewrite E. Qed.

Lemma answer_out o a w : in_flight o -> kind o <> ConnectOp -> answer (set_out a o) w = a.
Proof.
  intros (Hp & _ & _ & Hc & _) Hk. unfold answer, resume_form. cbn [p_ set_out]. rewrite Hp. cbn -[clear_cancel]. rewrite Hc.
  by destruct (kind o).
Qed.

(** What the connection does to wake a waiter: the registration undone, [a] written,
    the coroutine resumed; [w1] is [w] with [ms] arrived and the connection in another
    state. *)
Lemma wake_answered k i o a ms w w1 :
  inv w -> ops w !! i = Some o -> kind o = k -> k <> ConnectOp ->
  messages (Some a) = ms ->
  (exists l, w1 = set_life l (set_arrived (arrived w ++ ms) w)) ->
  answered i o (Some a) w (resume i (write_out i a (match k with RecvOp => coro_unawait_recv w1 | _ => coro_unawait_send w1 end)))
  /\ life (resume i (write_out i a (match k with RecvOp => coro_unawait_recv w1 | _ => coro_unawait_send w1 end))) = life w1.
Proof.
  intros I Ho Hk Hne Hms [l ->]. destruct (i_op w I i o Ho) as (_ & Hf & _ & Hs & _). assert (p_ o = true) as Hp by apply Hf.
  set (w2 := match k with RecvOp => _ | _ => _ end).
  assert (ops w2 = ops w) as E2 by (by destruct k).
  rewrite (write_out_there i o a w2) by congruence.
  assert (answer (set_out a o) (put_op i (set_out a o) w2) = a) as Ha2.
  { apply answer_out; [done|congruence]. }
  split.
  - rewrite <- Ha2 at 1. apply resume_answered; try done; try (by destruct k).
    + intros k'. rewrite Hk. destruct k, k'; done.
    + rewrite Ha2, Hms. by destruct k.
  - unfold resume. cbn [ops put_op set_ops]. rewrite lookup_insert_eq.
    rewrite complete_unparked by auto. cbn [p_ set_out]. rewrite Hp. by destruct k.
Qed.

(** Only the life of the connection goes on, and nobody waits for what it no longer does. *)
Lemma inv_life l w : inv w -> (forall k, is_Some (slot k w) -> usable k (life w) -> usable k l) -> inv (set_life l w).
Proof.
  intros I Hl. destruct I. constructor; try done. intros i o Ho. destruct (i_op0 i o Ho) as (? & ? & ? & Hsl & ?).
  split; [done|]. split; [done|]. split; [done|]. split; [done|]. apply Hl; [by exists i|done].
Qed.

Lemma close_answered w i : inv w -> life w = Open -> recv_h w = Some i ->
  exists o, ops w !! i = Some o /\ kind o = RecvOp /\ answered i o (Some (ARecv (Bad closed_err))) w (close w) /\ life (close w) = Waking.
Proof.
  intros I El Es. destruct (i_slot w I RecvOp i Es) as (o & Ho & Hk). exists o. split; [done|]. split; [done|].
  unfold close, resolve. rewrite bool_decide_eq_true_2 by done. change (recv_h (set_life Waking w)) with (recv_h w). rewrite Es.
  apply (wake_answered RecvOp i o (ARecv (Bad closed_err)) [] w (set_life Waking w)); try done.
  exists Waking. rewrite app_nil_r. by destruct w.
Qed.

Lemma close_quiet w : recv_h w = None -> life w = Open -> close w = set_life Waking w.
Proof. intros Es El. unfold close, resolve. rewrite bool_decide_eq_true_2 by done. cbn -[set_life]. cbn. by rewrite Es. Qed.

Lemma ops_close_inv w : inv w -> inv (close w).
Proof.
  intros I. destruct (decide (life w = Open)) as [El|El].
  - destruct (recv_h w) as [i|] eqn:Es.
    + destruct (close_answered w i I El Es) as (o & Ho & Hk & A & L).
      apply (inv_answered _ _ _ _ _ I Ho A); [by right|]. rewrite L, Hk. intros []; cbn; congruence.
    + rewrite close_quiet by done. apply inv_life; [done|]. intros [] [i Hi]; cbn in *; congruence.
  - unfold close, resolve. by rewrite bool_decide_eq_false_2.
Qed.

Lemma teardown_rest_answered w i : inv w -> life w = Waking -> send_h w = Some i ->
  exists o, ops w !! i = Some o /\ kind o = SendOp /\ answered i o (Some (ASend Conn.RClosed)) w (teardown_rest w).
Proof.
  intros I El Es. destruct (i_slot w I SendOp i Es) as (o & Ho & Hk). exists o. split; [done|]. split; [done|].
  unfold teardown_rest. rewrite bool_decide_eq_true_2, Es by done.
  destruct (wake_answered SendOp i o (ASend Conn.RClosed) [] w w I Ho Hk) as [A _]; try done.
  { exists (life w). rewrite app_nil_r. by destruct w. }
  destruct A. by constructor.
Qed.

Lemma teardown_rest_life w : life w = Waking -> life (teardown_rest w) = Gone.
Proof. intros El. unfold teardown_rest. by rewrite bool_decide_eq_true_2. Qed.

Lemma teardown_rest_inv w : inv w -> inv (teardown_rest w).
Proof.
  intros I. destruct (decide (life w = Waking)) as [El|El].
  - destruct (send_h w) as [i|] eqn:Es.
    + destruct (teardown_rest_answered w i I El Es) as (o & Ho & Hk & A).
      apply (inv_answered _ _ _ _ _ I Ho A); [by right|]. rewrite teardown_rest_life, Hk, El by done. intros []; cbn; congruence.
    + unfold teardown_rest. rewrite bool_decide_eq_true_2, Es by done. apply inv_life; [done|]. rewrite El.
      intros [] [i Hi]; cbn in *; congruence.
  - unfold teardown_rest. by rewrite bool_decide_eq_false_2.
Qed.

Lemma batch_inv ms w : resolve w = true -> inv w -> inv (batch ms w).
Proof.
  intros Hr I. unfold batch. change (recv_h w) with (slot RecvOp w). destruct (slot RecvOp w) as [i|] eqn:Es.
  - destruct (i_slot w I _ _ Es) as (o & Ho & Hk).
    destruct (wake_answered RecvOp i o (ARecv (Val ms)) ms w (set_arrived (arrived w ++ ms) w) I Ho Hk) as [A L]; try done.
    { by exists (life w). }
    apply (inv_answered _ _ _ _ _ I Ho A); [left; apply I; by exists i|]. by rewrite L.
  - case_match; [|by apply ops_close_inv]. destruct I. constructor; try done.
    + intros [? E]. cbn in Es, E. congruence.
    + change (received w ++ (held w ++ ms) = arrived w ++ ms). rewrite <- i_stream0. by rewrite app_assoc.
Qed.

Lemma coro_writable_inv r w : inv w -> inv (coro_writable r w).
Proof.
  intros I. unfold coro_writable. change (send_h w) with (slot SendOp w). destruct (slot SendOp w) as [i|] eqn:Es; [|done].
  case_bool_decide as Er; [done|]. destruct (i_slot w I _ _ Es) as (o & Ho & Hk).
  destruct (wake_answered SendOp i o (ASend r) [] w w I Ho Hk) as [A L]; try done.
  { exists (life w). rewrite app_nil_r. by destruct w. }
  apply (inv_answered _ _ _ _ _ I Ho A); [by right|]. by rewrite L.
Qed.

(** A change of the promises' stop flags and of the client's state only. *)
Lemma inv_flags w w' :
  inv w -> life w' = life w -> ops w' = ops w -> next w' = next w -> log w' = log w -> fault w' = fault w ->
  held w' = held w -> arrived w' = arrived w -> (forall k, slot k w' = slot k w) ->
  (forall t, cancel_fn (promise t w') = cancel_fn (promise t w) /\ at_ (promise t w') = at_ (promise t w)) -> inv w'.
Proof.
  intros I El Eo En Eg Ef Eh Ea Es Et. constructor; try (rewrite ?Ef, ?Eg, ?En, ?Eo; apply I).
  - intros i o. rewrite Eo, En, El, Es, (proj2 (Et _)). apply I.
  - intros k i. rewrite Es, Eo. apply I.
  - intros t. rewrite (proj1 (Et t)), (proj2 (Et t)). apply I.
  - intros t i. rewrite (proj2 (Et t)), Eo. apply I.
  - change (recv_h w') with (slot RecvOp w'). rewrite Es, Eh. apply I.
  - unfold received. rewrite Eg, Eh, Ea. apply I.
Qed.

Lemma leave_usable k w : usable k (life w) ->
  leave k w = match k with RecvOp => coro_unawait_recv w | SendOp => coro_unawait_send w | ConnectOp => on_state_change None w end.
Proof. destruct k; cbn; unfold with_conn; [intros ->|intros H; rewrite bool_decide_eq_false_2 by done|]; done. Qed.

(** The answer of a cancelled operation. *)
Definition cancelled_answer (k : Kind) : Answer :=
  match k with
  | RecvOp => ARecv (Bad cancelled_err)
  | SendOp => ASend Conn.RClosed
  | ConnectOp => AConnect (Bad cancelled_err)
  end.

Lemma request_stop_answered t i w :
  inv w -> at_ (promise t w) = Some i ->
  exists o, ops w !! i = Some o /\ answered i o (Some (cancelled_answer (kind o))) w (request_stop t w)
    /\ life (request_stop t w) = life w.
Proof.
  intros I Hat. destruct (i_task w I t i Hat) as (o & Ho & Ht). exists o. split; [done|].
  destruct (i_op w I i o Ho) as (_ & Hf & _ & Hs & Hu). assert (p_ o = true) as Hp by apply Hf.
  unfold request_stop. rewrite (i_thunk w I t), Hat. set (w1 := clear_cancel t _).
  rewrite cancel_thunk_form. unfold thunk_form. change (ops w1) with (ops w). rewrite Ho. rewrite (leave_usable _ w1) by done.
  set (w2 := match kind o with RecvOp => coro_unawait_recv w1 | _ => _ end).
  set (o' := match kind (set_parked false o) with RecvOp => _ | _ => _ end).
  assert (p_ o' = true /\ task o' = task o) as [Hp' Ht'] by (unfold o'; cbn [kind set_parked]; by destruct (kind o)).
  assert (answer o' (put_op i o' w2) = cancelled_answer (kind o)) as Ea.
  { unfold answer, resume_form. rewrite Hp'. cbn -[clear_cancel o']. unfold o'. cbn [kind set_parked]. by destruct (kind o) eqn:Hk; cbn; rewrite Hk. }
  split.
  - rewrite <- Ea. apply (resume_answered i o o'); try done; try (unfold w2; by destruct (kind o)).
    + intros t' Hne. transitivity (promise t' w1); [unfold w2; by destruct (kind o)|].
      unfold w1, clear_cancel. rewrite !promise_put. rewrite !decide_False by congruence. done.
    + intros k. unfold w2. destruct (kind o), k; done.
    + rewrite Ea. unfold w2. destruct (kind o); cbn; by rewrite app_nil_r.
  - unfold resume. cbn [ops put_op set_ops]. rewrite lookup_insert_eq. rewrite complete_unparked by auto. rewrite Hp'.
    unfold w2. by destruct (kind o).
Qed.

Lemma request_stop_inv t w : inv w -> inv (request_stop t w).
Proof.
  intros I. destruct (at_ (promise t w)) as [i|] eqn:Hat.
  - destruct (request_stop_answered t i w I Hat) as (o & Ho & A & L).
    apply (inv_answered _ _ _ _ _ I Ho A); [right; by destruct (kind o)|]. by rewrite L.
  - unfold request_stop. rewrite (i_thunk w I t), Hat.
    apply (inv_flags w); try done. intros t'. rewrite promise_put. case_decide; [|done]. subst t'. cbn. by rewrite Hat, (i_thunk w I t).
Qed.

Lemma promise_delete t t' w :
  promise t' (set_tasks (delete t (tasks w)) w) = if decide (t' = t) then mkPromise false None None else promise t' w.
Proof.
  unfold promise; cbn [tasks set_tasks]. case_decide as E; [subst; by rewrite lookup_delete_eq|by rewrite lookup_delete_ne by done].
Qed.

Lemma destroy_inv t w : inv w -> inv (destroy t w).
Proof.
  intros I. unfold destroy. set (w1 := set_tasks _ w). destruct (at_ (promise t w)) as [i|] eqn:Hat.
  - destruct (i_task w I t i Hat) as (o & Ho & Ht). rewrite Ho.
    destruct (i_op w I i o Ho) as (_ & (_ & _ & Hpk & _ & Hc) & _ & Hs & Hu).
    change (ops w1) with (ops w). set (w2 := set_ops _ w1).
    assert (destroy_op o w2 = leave (kind o) w2) as ->.
    { rewrite destroy_op_form. unfold destroy_form. rewrite Hpk, Hc. by destruct (kind o). }
    rewrite (leave_usable _ w2) by done. apply (inv_answered i o None w _ I Ho); [|by right|by destruct (kind o)].
    constructor; try (by destruct (kind o)).
    + destruct (kind o); cbn; by rewrite app_nil_r.
    + intros t'. rewrite Ht. assert (forall x : World, tasks x = tasks w1 -> promise t' x = if decide (t' = t) then mkPromise false None None else promise t' w) as Hx.
      { intros x E. rewrite <- (promise_delete t t' w). unfold promise. by rewrite E. }
      rewrite Hx by (by destruct (kind o)). by case_decide.
    + intros k. destruct (kind o), k; done.
    + destruct (kind o); cbn; by rewrite app_nil_r.
  - apply (inv_flags w); try done. intros t'. unfold w1. rewrite promise_delete. case_decide; [|done]. subst t'.
    cbn. by rewrite (i_thunk w I t), Hat.
Qed.

Definition settles (s : Client.ClientState) : bool := bool_decide (s = Client.Connected) || bool_decide (s = Client.Disconnected).

Lemma set_state_answered s c w i :
  inv (set_cstate s c w) -> state_fn_ w = Some i -> settles s = true ->
  exists o r, ops w !! i = Some o /\ answered i o (Some (AConnect r)) (set_cstate s c w) (set_state s c w)
    /\ life (set_state s c w) = life w.
Proof.
  unfold set_state. set (w1 := set_cstate s c w). intros I1 Es Hs. change (state_fn_ w1) with (state_fn_ w). rewrite Es.
  destruct (i_slot w1 I1 ConnectOp i Es) as (o & Ho & Hk). exists o.
  destruct (i_op w1 I1 i o Ho) as (_ & (Hp & _ & Hpk & _) & _). unfold on_state. fold (settles s). rewrite Ho, Hpk, Hs. cbn [negb].
  set (o' := if bool_decide _ then _ else _).
  assert (task o' = task o /\ p_ (set_parked false o') = true /\ kind o' = ConnectOp) as (Ht' & Hp' & Hk') by (unfold o'; by case_match).
  set (w2 := clear_cancel _ _).
  assert (exists r, answer (set_parked false o') w2 = AConnect r) as [r Er].
  { unfold answer, resume_form. rewrite Hp'. cbn -[w2]. rewrite Hk'. repeat case_match; by eexists. }
  exists r. split; [done|]. split.
  - rewrite <- Er. apply resume_answered; try done.
    + intros t Hne. unfold w2, clear_cancel. rewrite promise_put, decide_False by congruence. done.
    + intros k. rewrite Hk. by destruct k.
    + rewrite Er. cbn. by rewrite app_nil_r.
  - unfold resume. change (ops w2) with (<[i := set_parked false o']> (ops w1)). rewrite lookup_insert_eq.
    rewrite complete_unparked by auto. by rewrite Hp'.
Qed.

Lemma set_state_inv s c w : inv w -> inv (set_state s c w).
Proof.
  intros I. assert (inv (set_cstate s c w)) as I1 by (by apply (inv_flags w)).
  destruct (state_fn_ w) as [i|] eqn:Es; [|unfold set_state; cbn; by rewrite Es].
  destruct (settles s) eqn:Hs.
  - destruct (set_state_answered s c w i I1 Es Hs) as (o & r & Ho & A & L).
    apply (inv_answered _ _ _ _ _ I1 Ho A); [by right|]. by rewrite L.
  - unfold set_state. change (state_fn_ (set_cstate s c w)) with (state_fn_ w). rewrite Es. unfold on_state. fold (settles s). rewrite Hs.
    destruct (i_slot w I ConnectOp i Es) as (o & Ho & _). change (ops (set_cstate s c w)) with (ops w). rewrite Ho. by case_match.
Qed.

(** An await that is answered without suspending. *)
Lemma inv_immediate a w w' :
  inv w -> life w' = life w -> ops w' = ops w -> next w' = S (next w) -> log w' = log w ++ [(next w, a)] ->
  fault w' = fault w -> arrived w' = arrived w -> (forall k, slot k w' = slot k w) ->
  (forall t, cancel_fn (promise t w') = cancel_fn (promise t w) /\ at_ (promise t w') = at_ (promise t w)) ->
  messages (Some a) ++ held w' = held w -> inv w'.
Proof.
  intros I El Eo En Eg Ef Ea Es Et Eh.
  assert (next w ∉ map fst (log w)) as Hnew by (intros H%(i_old w I); lia).
  constructor; try (rewrite ?Ef; apply I).
  - rewrite Eg, map_app. apply NoDup_app. split; [apply I|]. split; [|apply NoDup_singleton].
    intros j Hj Hj'%list_elem_of_singleton. by subst j.
  - intros i. rewrite Eg, map_app, elem_of_app, En, Eo. intros [Hi%(i_old w I)|Hi%list_elem_of_singleton]; [split; [lia|tauto]|].
    cbn in Hi. subst i. split; [lia|]. destruct (ops w !! next w) as [o|] eqn:E; [|done]. apply (i_op w I) in E. lia.
  - intros i o Ho. rewrite Eo in Ho. destruct (i_op w I i o Ho) as (? & ?). rewrite En, El, Es, (proj2 (Et _)). split; [lia|done].
  - intros k i. rewrite Es, Eo. apply I.
  - intros t. rewrite (proj1 (Et t)), (proj2 (Et t)). apply I.
  - intros t i. rewrite (proj2 (Et t)), Eo. apply I.
  - change (recv_h w') with (slot RecvOp w'). rewrite Es. intros H%(i_held w I). rewrite H in Eh. by apply app_eq_nil in Eh as [_ ?].
  - rewrite (received_entry w (next w) (Some a) w' Eg), Ea, <- (i_stream w I), <- app_assoc. by rewrite Eh.
Qed.

(** An await that suspends. *)
Lemma inv_parked k t o w w' :
  inv w -> at_ (promise t w) = None -> slot k w = None -> usable k (life w) -> (k = RecvOp -> held w = []) ->
  in_flight o -> kind o = k -> task o = t ->
  life w' = life w -> ops w' = <[next w := o]> (ops w) -> next w' = S (next w) -> log w' = log w -> fault w' = fault w ->
  arrived w' = arrived w -> held w' = held w ->
  (forall k', slot k' w' = if decide (k' = k) then Some (next w) else slot k' w) ->
  (forall t', cancel_fn (promise t' w') = (if decide (t' = t) then Some (next w) else cancel_fn (promise t' w))
     /\ at_ (promise t' w') = if decide (t' = t) then Some (next w) else at_ (promise t' w)) -> inv w'.
Proof.
  intros I Hat Hsl Hu Hh Hf Hk Ht El Eo En Eg Ef Ea Eh Es Et.
  assert (ops w !! next w = None) as Hn.
  { destruct (ops w !! next w) as [x|] eqn:E; [|done]. apply (i_op w I) in E. lia. }
  assert (forall i x, ops w !! i = Some x -> ops w' !! i = Some x) as Hkeep.
  { intros i x Hx. rewrite Eo, lookup_insert_ne; [done|]. intros <-. congruence. }
  constructor; try (rewrite ?Ef, ?Eg; apply I).
  - intros i. rewrite Eg, En, Eo. intros Hi%(i_old w I). split; [lia|]. rewrite lookup_insert_ne by lia. tauto.
  - intros i x. rewrite Eo, En, El. intros [[<- <-]|[Hne Hx]]%lookup_insert_Some.
    + rewrite Hk, Ht, Es, (proj2 (Et _)). rewrite !decide_True by done. auto 10.
    + destruct (i_op w I i x Hx) as (? & ? & Hat' & Hsl' & ?).
      assert (task x <> t) by congruence. assert (kind x <> k) by congruence.
      rewrite Es, (proj2 (Et _)). rewrite !decide_False by done. auto 10.
  - intros k' i. rewrite Es. case_decide as E; [intros [= <-]|intros Hi].
    + exists o. rewrite Eo, lookup_insert_eq. split; [done|congruence].
    + destruct (i_slot w I k' i Hi) as (x & Hx & ?). exists x. split; [by apply Hkeep|done].
  - intros t'. destruct (Et t') as [-> ->]. case_decide; [done|apply I].
  - intros t' i. rewrite (proj2 (Et t')). case_decide as E; [intros [= <-]|intros Hi].
    + exists o. rewrite Eo, lookup_insert_eq. split; [done|congruence].
    + destruct (i_task w I t' i Hi) as (x & Hx & ?). exists x. split; [by apply Hkeep|done].
  - change (recv_h w') with (slot RecvOp w'). rewrite Es, Eh. case_decide; [intros _; by apply Hh|apply I].
  - unfold received. rewrite Eg, Eh, Ea. apply I.
Qed.

Lemma complete_inv o h w :
  inv w -> parked_ o = false -> at_ (promise (task o) w) = None ->
  messages (Some (answer o w)) ++ h = held w ->
  inv (complete (next w) o (set_next (S (next w)) (set_held h w))).
Proof.
  intros I Hpk Hat Hm. rewrite complete_unparked by auto. cbv zeta. set (w1 := set_next _ _).
  rewrite (answer_same o w1 w) by done.
  apply (inv_immediate (answer o w) w); try done; try (by destruct (p_ o)).
  - intros t. destruct (p_ o); [|done]. change (promise t (set_log ?l ?x)) with (promise t x).
    unfold clear_cancel. rewrite promise_put. case_decide as E; [|done]. subst t. cbn [cancel_fn at_].
    change (promise (task o) w1) with (promise (task o) w). by rewrite (i_thunk w I), Hat.
Qed.

Lemma co_await_inv k t c r w :
  inv w -> at_ (promise t w) = None -> slot k w = None -> inv (co_await k t c r w).
Proof.
  intros I Hat Hsl. unfold co_await. set (i := next w). set (w1 := set_next (S i) w).
  assert (w1 = set_next (S i) (set_held (held w) w)) as Ew by (unfold w1; by destruct w).
  assert (forall o, kind o = k -> task o = t -> parked_ o = false -> p_ o = false -> err_ o = no_error -> cancelled_ o = false ->
    conn_ o = negb (bool_decide (k = ConnectOp)) -> usable k (life w) -> (k = RecvOp -> held w = []) ->
    inv (let '(suspended, o, w) := await_suspend c i o w1 in
         if suspended then suspend t (Some i) (put_op i o w) else complete i o w)) as Hsus.
  { intros o Hk Ht Hpk Hp He Hc Hcn Hu Hh. rewrite await_suspend_form. unfold suspend_form. change (task (set_p o)) with (task o).
    destruct (stop_requested (task o) c w1).
    - rewrite Ew. apply complete_inv; try done; cbn [kind set_p]; rewrite Hk; destruct k; try done; cbn; try by rewrite Ht.
      all: unfold answer, resume_form; cbn; rewrite ?Hk; cbn; done.
    - change (kind (set_p o)) with (kind o). rewrite Hk, Ht.
      set (w2 := set_cancel t i w1).
      assert (enter k i w2 = match k with RecvOp => set_recv_h (Some i) w2 | SendOp => set_send_h (Some i) w2 | ConnectOp => on_state_change (Some i) w2 end) as ->.
      { destruct k; cbn; unfold with_conn; [..|done]; cbn in Hu; rewrite bool_decide_eq_false_2; cbn; congruence. }
      apply (inv_parked k t (set_parked true (set_p o)) w); try done; try (by destruct k).
      + split; [done|]. repeat split; try done. cbn. by rewrite Hk.
      + intros k'. by destruct k, k'.
      + intros t'. unfold suspend. rewrite promise_put.
        assert (forall x, tasks x = tasks w2 -> promise t' x = if decide (t' = t) then mkPromise (stopped_ (promise t w)) (Some i) None else promise t' w) as Hx.
        { intros x E. transitivity (promise t' w2); [unfold promise; by rewrite E|]. unfold w2, set_cancel. rewrite promise_put.
          destruct (decide (t' = t)); [|reflexivity]. change (promise t w1) with (promise t w). by rewrite Hat. }
        destruct (decide (t' = t)) as [E|E]; [subst t'; cbn [cancel_fn at_]; rewrite Hx by (by destruct k); done|].
        rewrite Hx by (by destruct k). done. }
  unfold await_ready, RecvOp_await_ready, SendOp_await_ready, ConnectOp_await_ready. cbn [kind new_op]. destruct k; cbv beta iota.
  - change (resolve w1) with (resolve w). destruct (resolve w) eqn:El; [apply bool_decide_eq_true in El|].
    + change (held w1) with (held w). destruct (held w) as [|m ms] eqn:Eh; [by apply Hsus|].
      change (set_held [] w1) with (set_next (S i) (set_held [] w)). apply complete_inv; try done. cbn. by rewrite app_nil_r.
    + rewrite Ew. by apply complete_inv.
  - change (resolve w1) with (resolve w). destruct (resolve w) eqn:El; [apply bool_decide_eq_true in El|].
    + destruct (bool_decide (r = Conn.Backpressured)); [apply Hsus; try done; cbn; congruence|].
      cbn [negb]. rewrite Ew. by apply complete_inv.
    + rewrite Ew. by apply complete_inv.
  - destruct (_ || _); [|by apply Hsus]. rewrite Ew. apply complete_inv; try done.
    unfold answer, resume_form. cbn. by destruct (cconn w).
Qed.

Lemma ops_step_inv w s : allowed w s && alone w s = true -> inv w -> inv (step w s).
Proof.
  intros H I. bool_to_prop. destruct s; cbn [step allowed alone] in *.
  - apply bool_decide_eq_true in H, H0. by apply co_await_inv.
  - by apply batch_inv.
  - by apply coro_writable_inv.
  - by apply ops_close_inv.
  - by apply teardown_rest_inv.
  - by apply set_state_inv.
  - by apply request_stop_inv.
  - by apply destroy_inv.
Qed.

Lemma ops_run_inv ss w w' : run (fun w s => allowed w s && alone w s) ss w = Some w' -> inv w -> inv w'.
Proof.
  revert w. induction ss as [|s ss IH]; intros w; cbn [run]; [by intros [= ->]|].
  destruct (allowed w s && alone w s) eqn:E; [|done]. intros H I. apply (IH _ H). by apply ops_step_inv.
Qed.

Lemma inv0 : inv world0.
Proof.
  constructor; try done; try (by constructor).
  - by intros i ?%elem_of_nil.
  - by intros [] i.
Qed.

(** C24: As long as no two coroutines wait for the same thing of a connection or a client,
    nothing is written into a frame or a connection that is gone; every await is
    answered at most once; one that is suspended is registered where it will be woken and
    can be cancelled; and what the coroutines receive, followed by what is held back for
    the next of them, is what the connection delivered, in order. *)
Theorem conn_awaits_answered_once ss w :
  run (fun w s => allowed w s && alone w s) ss world0 = Some w ->
  fault w = false
  /\ NoDup (map fst (log w))
  /\ (forall i o, ops w !! i = Some o ->
        i ∉ map fst (log w) /\ slot (kind o) w = Some i /\ cancel_fn (promise (task o) w) = Some i)
  /\ received w ++ held w = arrived w.
Proof.
  intros H. pose proof (ops_run_inv _ _ _ H inv0) as I. split; [apply I|]. split; [apply I|]. split; [|apply I].
  intros i o Ho. destruct (i_op w I i o Ho) as (_ & _ & Hat & Hs & _). split; [|by rewrite (i_thunk w I)].
  intros Hi%(i_old w I). destruct Hi. congruence.
Qed.

(** ** Who waits is woken *)

(** Whether an answer tells the coroutine that the connection is closed. *)
Definition says_closed (a : Answer) : Prop := a = ARecv (Bad closed_err) \/ a = ASend Conn.RClosed.

Lemma answered_in_log i o a w w' : answered i o (Some a) w w' -> (i, a) ∈ log w'.
Proof. intros A. rewrite (a_log _ _ _ _ _ A). apply elem_of_app. right. by apply list_elem_of_singleton. Qed.

Lemma teardown_rest_log w x : inv w -> x ∈ log w -> x ∈ log (teardown_rest w).
Proof.
  intros I Hx. destruct (decide (life w = Waking)) as [El|El]; [|unfold teardown_rest; by rewrite bool_decide_eq_false_2].
  destruct (send_h w) as [i|] eqn:Es.
  - destruct (teardown_rest_answered w i I El Es) as (o & _ & _ & A). rewrite (a_log _ _ _ _ _ A). apply elem_of_app. by left.
  - unfold teardown_rest. by rewrite bool_decide_eq_true_2, Es.
Qed.

Lemma close_keeps_send w i : inv w -> send_h w = Some i -> life w <> Gone -> send_h (close w) = Some i /\ life (close w) = Waking.
Proof.
  intros I Hs Hl. destruct (decide (life w = Open)) as [El|El].
  - destruct (recv_h w) as [j|] eqn:Es; [|by rewrite close_quiet].
    destruct (close_answered w j I El Es) as (o & _ & Hk & A & L). split; [|done].
    change (send_h (close w)) with (slot SendOp (close w)). rewrite (a_slot _ _ _ _ _ A), Hk. by rewrite decide_False.
  - unfold close, resolve. rewrite bool_decide_eq_false_2 by done. split; [done|]. by destruct (life w).
Qed.

(** C25: As long as no two coroutines wait for the same thing, a coroutine suspended on a
    connection or a client is always woken by what should wake it: a stop request answers it with the error of a cancellation, the teardown of
    the connection answers it as closed, and a client that settles, connected or not,
    answers the coroutine that waits for it. *)
Theorem conn_waiters_are_woken ss w i o :
  run (fun w s => allowed w s && alone w s) ss world0 = Some w -> ops w !! i = Some o ->
  (i, cancelled_answer (kind o)) ∈ log (request_stop (task o) w)
  /\ (kind o <> ConnectOp -> exists a, says_closed a /\ (i, a) ∈ log (teardown_rest (close w)))
  /\ (kind o = ConnectOp -> forall s c, settles s = true -> exists r, (i, AConnect r) ∈ log (set_state s c w)).
Proof.
  intros H Ho. pose proof (ops_run_inv _ _ _ H inv0) as I. destruct (i_op w I i o Ho) as (_ & _ & Hat & Hs & Hu).
  split; [|split].
  - destruct (request_stop_answered (task o) i w I Hat) as (o' & Ho' & A & _).
    assert (o' = o) as -> by congruence. by eapply answered_in_log.
  - intros Hk. destruct (kind o) eqn:Ek; [| |done]; cbn in Hs, Hu.
    + exists (ARecv (Bad closed_err)). split; [by left|]. destruct (close_answered w i I Hu Hs) as (o' & _ & _ & A & _).
      apply teardown_rest_log; [by apply ops_close_inv|]. by eapply answered_in_log.
    + exists (ASend Conn.RClosed). split; [by right|]. destruct (close_keeps_send w i I Hs Hu) as [Hs' Hl].
      destruct (teardown_rest_answered (close w) i) as (o' & _ & _ & A); [by apply ops_close_inv|done|done|]. by eapply answered_in_log.
  - intros Hk s c Hset. rewrite Hk in Hs. cbn in Hs.
    destruct (set_state_answered s c w i) as (o' & r & _ & A & _); [by apply (inv_flags w)|done|done|].
    exists r. by eapply answered_in_log.
Qed.

(** ** Witnesses and limits *)

Definition demo : list Step :=
  [ SAwait ConnectOp 0 false Conn.Queued; SState Client.Connected true;
    SAwait RecvOp 1 false Conn.Queued; SBatch [1; 2]; SBatch [3]; SAwait RecvOp 1 false Conn.Queued;
    SAwait SendOp 2 false Conn.Backpressured; SAwait RecvOp 3 false Conn.Queued; SDestroy 3;
    SAwait RecvOp 1 false Conn.Queued; SBatch [4]; SAwait RecvOp 1 false Conn.Queued;
    SState Client.ReconnectWait false; SAwait ConnectOp 4 false Conn.Queued ].

Abbreviation demo_run := (run (fun w s => allowed w s && alone w s) demo world0).

Lemma conn_awaits_answered_once_witness :
  match demo_run with
  | Some w =>
      received w = [1; 2; 3; 4] /\
      (fault w = false
       /\ NoDup (map fst (log w))
       /\ (forall i o, ops w !! i = Some o ->
             i ∉ map fst (log w) /\ slot (kind o) w = Some i /\ cancel_fn (promise (task o) w) = Some i)
       /\ received w ++ held w = arrived w)
  | None => False
  end.
Proof.
  destruct demo_run as [w|] eqn:E; [|vm_compute in E; discriminate].
  split; [vm_compute in E; injection E as <-; vm_compute; reflexivity|].
  exact (conn_awaits_answered_once demo w E).
Defined.

Lemma conn_waiters_are_woken_witness :
  match demo_run with
  | Some w =>
      exists o, ops w !! 3%nat = Some o /\ kind o = SendOp /\
      ((3%nat, cancelled_answer (kind o)) ∈ log (request_stop (task o) w)
       /\ (kind o <> ConnectOp -> exists a, says_closed a /\ (3%nat, a) ∈ log (teardown_rest (close w)))
       /\ (kind o = ConnectOp -> forall s c, settles s = true -> exists r, (3%nat, AConnect r) ∈ log (set_state s c w)))
  | None => False
  end.
Proof.
  destruct demo_run as [w|] eqn:E; [|vm_compute in E; discriminate].
  destruct (ops w !! 3%nat) as [o|] eqn:Eo; [|vm_compute in E; injection E as <-; vm_compute in Eo; discriminate].
  exists o. split; [reflexivity|]. split.
  - vm_compute in E; injection E as <-; vm_compute in Eo; injection Eo as <-; reflexivity.
  - exact (conn_waiters_are_woken demo w 3 o E Eo).
Defined.

(** A second coroutine that awaits [recv] on the connection takes the place of the
    first, which is not woken by data nor by the close; a stop request that comes after
    that uses the connection that is gone. *)
Lemma second_recv_strands_first :
  match run allowed [SAwait RecvOp 1 false Conn.Queued; SAwait RecvOp 2 false Conn.Queued; SBatch [7]; SClose; STeardownRest] world0 with
  | Some w => log w = [(1%nat, ARecv (Val [7]))] /\ is_Some (ops w !! O) /\ fault w = false /\ fault (request_stop 1 w) = true
  | None => False
  end.
Proof. vm_compute. repeat split. by eexists. Qed.

(** [SendOp] suspends only when [send] says [Backpressured], and that is when [send] has
    queued the bytes; the retry of [coro_writable] queues them again. *)
Section SentTwice.
Context {Msg : Type} (params : Conn.Params) (installed : @Conn.Callback Msg -> bool)
        (is_running : list (@Conn.Eff Msg) -> bool) (receives : @Conn.Receives Msg)
        (cb : @Conn.Callback Msg -> @Conn.Connection Msg -> option (@Conn.Connection Msg)).

Lemma backpressured_means_queued bs c c1 :
  Conn.send params installed is_running receives cb bs c = Some (Conn.Backpressured, c1) ->
  Conn.write_buf_ c1 = Conn.write_buf_ c ++ bs.
Proof.
  unfold Conn.send, Conn.apply_overflow, Conn.pause_reads. cbv zeta. repeat case_match; try done; try (by intros [= <-]).
  destruct (Conn.close _ _ _ _ _) as [?|]; done.
Qed.

Lemma retry_queues_again bs c :
  Conn.send_h (Conn.coro_ c) = Some bs -> Conn.state_ c = Conn.Established ->
  zlen (Conn.write_buf_ c) + zlen bs <= Conn.write_high_watermark (Conn.flow params) ->
  exists c', Conn.coro_writable params installed is_running receives cb c = cb (Conn.CbResumeSend Conn.Queued) c'
    /\ Conn.write_buf_ c' = Conn.write_buf_ c ++ bs.
Proof.
  intros Hh Hs Hw. unfold Conn.coro_writable. rewrite Hh. unfold Conn.send, Conn.is_state.
  rewrite bool_decide_eq_true_2 by done. cbn [negb]. rewrite (proj2 (Z.ltb_ge _ _)) by done. cbn [mbind option_bind].
  eexists. split; [reflexivity|]. unfold Conn.coro_unawait_send, Conn.check_write_watermark, Conn.pause_reads. cbv zeta. by repeat case_match.
Qed.
End SentTwice.

End ConnOps.
