(* ===== verification/Sim.v ===== *)
(** * The simulated backend and network

    [SimBackend] of [src/include/afx/backend/sim.hpp] and
    [src/src/backend/sim.cpp], and [SimNet] of [src/include/afx/sim/net.hpp] and
    [src/src/sim/net.cpp]: backends whose sends become events of a shared fabric
    with latencies and faults, ordered by due time and then by the order they
    were scheduled in.

    Backends are named by numbers in the map of a [World].  The random generator
    is a parameter of the section; the sockets the kernel allocates ([socket]) and
    the port a descriptor is bound to ([port_of]) are arguments of the operations
    that ask for them.  Virtual times are integers of nanoseconds. *)

From stdpp Require Import base option gmap list.
From Stdlib Require Import ZArith Lia Sorted.
From S2P Require Import Prelude Backend Epoll.
Local Open Scope Z_scope.

Module Sim.

(** ** Data *)

(** [recv_len] is the size of [recv_buf] and [recv_mem] what was last put at its
    start. *)
Record FdState := mkFd {
  interest : Interest;
  watch_ud : UserData;
  recv_armed : bool;
  recv_ud : UserData;
  recv_len : Z;
  recv_mem : list Z;
  accept_armed : bool;
  accept_ud : UserData;
  inbound : list Z;
  outbound : list Z;
  peer_closed : bool;
  peer_err : Z;
  connect_pending : bool;
  connect_ud : UserData }.

Definition fd_state0 : FdState := mkFd INone 0 false 0 0 [] false 0 [] [] false 0 false 0.

Definition set_watch i u s := mkFd i u (recv_armed s) (recv_ud s) (recv_len s) (recv_mem s)
  (accept_armed s) (accept_ud s) (inbound s) (outbound s) (peer_closed s) (peer_err s)
  (connect_pending s) (connect_ud s).
Definition set_recv b u n s := mkFd (interest s) (watch_ud s) b u n (recv_mem s)
  (accept_armed s) (accept_ud s) (inbound s) (outbound s) (peer_closed s) (peer_err s)
  (connect_pending s) (connect_ud s).
Definition set_recv_armed b s := set_recv b (recv_ud s) (recv_len s) s.
Definition set_recv_mem m s := mkFd (interest s) (watch_ud s) (recv_armed s) (recv_ud s) (recv_len s) m
  (accept_armed s) (accept_ud s) (inbound s) (outbound s) (peer_closed s) (peer_err s)
  (connect_pending s) (connect_ud s).
Definition set_accept b u s := mkFd (interest s) (watch_ud s) (recv_armed s) (recv_ud s) (recv_len s) (recv_mem s)
  b u (inbound s) (outbound s) (peer_closed s) (peer_err s)
  (connect_pending s) (connect_ud s).
Definition set_inbound l s := mkFd (interest s) (watch_ud s) (recv_armed s) (recv_ud s) (recv_len s) (recv_mem s)
  (accept_armed s) (accept_ud s) l (outbound s) (peer_closed s) (peer_err s)
  (connect_pending s) (connect_ud s).
Definition set_outbound l s := mkFd (interest s) (watch_ud s) (recv_armed s) (recv_ud s) (recv_len s) (recv_mem s)
  (accept_armed s) (accept_ud s) (inbound s) l (peer_closed s) (peer_err s)
  (connect_pending s) (connect_ud s).
Definition set_peer c e s := mkFd (interest s) (watch_ud s) (recv_armed s) (recv_ud s) (recv_len s) (recv_mem s)
  (accept_armed s) (accept_ud s) (inbound s) (outbound s) c e
  (connect_pending s) (connect_ud s).
Definition set_connect b u s := mkFd (interest s) (watch_ud s) (recv_armed s) (recv_ud s) (recv_len s) (recv_mem s)
  (accept_armed s) (accept_ud s) (inbound s) (outbound s) (peer_closed s) (peer_err s) b u.

(** [net_] tells whether the backend is attached to the fabric. *)
Record SimBackend := mkBe {
  fds_ : gmap Z FdState;
  ready_ : list Completion;
  next_fd_ : Z;
  wake_count_ : Z;
  net_ : bool }.

Definition sim_backend0 : SimBackend := mkBe ∅ [] 1000 0 false.

Definition set_fds m b := mkBe m (ready_ b) (next_fd_ b) (wake_count_ b) (net_ b).
Definition set_ready r b := mkBe (fds_ b) r (next_fd_ b) (wake_count_ b) (net_ b).
Definition set_net n b := mkBe (fds_ b) (ready_ b) (next_fd_ b) (wake_count_ b) n.
Definition set_next n b := mkBe (fds_ b) (ready_ b) n (wake_count_ b) (net_ b).

Inductive SimKind :=
  | KBytes (dst fd : Z) (bytes : list Z)
  | KAccept (dst fd peer_fd : Z)
  | KConnectDone (dst fd : Z) (ud : UserData) (result : Z)
  | KPeerFin (dst fd : Z)
  | KPeerReset (dst fd err : Z)
  | KPartitionEnd (link : nat)
  | KPost (shard : Z) (task : nat).

Record SimEvent := mkEv { due : Z; seq : Z; kind : SimKind }.

Record Link := mkLink {
  la : Z; a_fd : Z; lb : Z; b_fd : Z; partitioned : bool; next_free_ab : Z; next_free_ba : Z }.

Definition set_partitioned p l := mkLink (la l) (a_fd l) (lb l) (b_fd l) p (next_free_ab l) (next_free_ba l).
Definition set_free (ab : bool) t l :=
  mkLink (la l) (a_fd l) (lb l) (b_fd l) (partitioned l)
    (if ab then t else next_free_ab l) (if ab then next_free_ba l else t).

Section Fabric.
(** The generator: its state, a draw, the comparison of a draw with a
    probability, and a draw scaled to an integer below a bound. *)
Context {Rng D Prob : Type}
        (rng_draw : Rng -> D * Rng)
        (below : D -> Prob -> bool)
        (positive : Prob -> bool)
        (scale : D -> Z -> Z).

Record FaultProfile := mkFaults {
  packet_loss : Prob;
  partial_reads : bool;
  slow_peer : Prob;
  reset_chance : Prob;
  partition_chance : Prob;
  partition_window : Z * Z;
  min_latency : Z;
  max_latency : Z;
  slow_latency : Z }.

(** [q_] holds the pending events in the order [pop] takes them. *)
Record SimNet := mkNet {
  q_ : list SimEvent;
  fd_link_ : gmap Z nat;
  listeners_ : gmap Z (Z * Z);
  links_ : list Link;
  faults_ : FaultProfile;
  rng_ : Rng;
  seq_ : Z;
  dropped_ : Z;
  now_ : Z }.

Definition set_q x n := mkNet x (fd_link_ n) (listeners_ n) (links_ n) (faults_ n) (rng_ n) (seq_ n) (dropped_ n) (now_ n).
Definition set_fd_link x n := mkNet (q_ n) x (listeners_ n) (links_ n) (faults_ n) (rng_ n) (seq_ n) (dropped_ n) (now_ n).
Definition set_listeners x n := mkNet (q_ n) (fd_link_ n) x (links_ n) (faults_ n) (rng_ n) (seq_ n) (dropped_ n) (now_ n).
Definition set_links x n := mkNet (q_ n) (fd_link_ n) (listeners_ n) x (faults_ n) (rng_ n) (seq_ n) (dropped_ n) (now_ n).
Definition set_faults x n := mkNet (q_ n) (fd_link_ n) (listeners_ n) (links_ n) x (rng_ n) (seq_ n) (dropped_ n) (now_ n).
Definition set_rng x n := mkNet (q_ n) (fd_link_ n) (listeners_ n) (links_ n) (faults_ n) x (seq_ n) (dropped_ n) (now_ n).
Definition set_seq x n := mkNet (q_ n) (fd_link_ n) (listeners_ n) (links_ n) (faults_ n) (rng_ n) x (dropped_ n) (now_ n).
Definition set_dropped x n := mkNet (q_ n) (fd_link_ n) (listeners_ n) (links_ n) (faults_ n) (rng_ n) (seq_ n) x (now_ n).
Definition set_now x n := mkNet (q_ n) (fd_link_ n) (listeners_ n) (links_ n) (faults_ n) (rng_ n) (seq_ n) (dropped_ n) x.

(** The backends, the fabric, and how many sockets the kernel has handed out. *)
Record World := mkWorld { bes : gmap Z SimBackend; net : SimNet; sockets : Z }.

Definition set_bes x w := mkWorld x (net w) (sockets w).
Definition upd_net (f : SimNet -> SimNet) w := mkWorld (bes w) (f (net w)) (sockets w).
Definition be_ref (w : World) (i : Z) : SimBackend := default sim_backend0 (bes w !! i).
Definition be_put (i : Z) (b : SimBackend) (w : World) : World := set_bes (<[i := b]> (bes w)) w.
Definition upd_be (i : Z) (f : SimBackend -> SimBackend) (w : World) : World := be_put i (f (be_ref w i)) w.

(** [fds_[fd]], created if absent, and written back. *)
Definition sim_fd (b : SimBackend) (fd : Z) : FdState := default fd_state0 (fds_ b !! fd).
Definition sim_put (fd : Z) (s : FdState) (b : SimBackend) : SimBackend := set_fds (<[fd := s]> (fds_ b)) b.

(** ** The event queue *)

(** [Later]: later due times, then later sequence numbers. *)
Definition later (x y : SimEvent) : bool :=
  if negb (due x =? due y) then due y <? due x else seq y <? seq x.

(** [std::priority_queue::push]. *)
Fixpoint insert_ev (ev : SimEvent) (q : list SimEvent) : list SimEvent :=
  match q with
  | [] => [ev]
  | x :: q => if later x ev then ev :: x :: q else x :: insert_ev ev q
  end.

Definition push (due : Z) (k : SimKind) (n : SimNet) : SimNet :=
  set_seq (u64 (seq_ n + 1)) (set_q (insert_ev (mkEv due (seq_ n) k) (q_ n)) n).

Definition due_next (t : Z) (n : SimNet) : bool :=
  match q_ n with [] => false | ev :: _ => due ev <=? t end.
Definition pop (n : SimNet) : option (SimEvent * SimNet) :=
  match q_ n with [] => None | ev :: q => Some (ev, set_q q n) end.
Definition next_due (n : SimNet) : option Z :=
  match q_ n with [] => None | ev :: _ => Some (due ev) end.

(** ** Draws *)

Definition draw (n : SimNet) : D * SimNet :=
  let '(d, g) := rng_draw (rng_ n) in (d, set_rng g n).

(** [p > 0 && draw() < p]. *)
Definition chance (p : Prob) (n : SimNet) : bool * SimNet :=
  if positive p then let '(d, n) := draw n in (below d p, n) else (false, n).

Definition latency (n : SimNet) : Z * SimNet :=
  let lo := min_latency (faults_ n) in
  let hi := max_latency (faults_ n) in
  if hi <=? lo then (lo, n)
  else let '(d, n) := draw n in (lo + scale d (hi - lo), n).

(** ** Deliveries *)

(** [link_for]: the link of a descriptor, and the far end. *)
Definition link_for (src fd : Z) (n : SimNet) : option (nat * Link * (Z * Z)) :=
  i ← fd_link_ n !! fd;
  l ← links_ n !! i;
  Some (i, l, if (la l =? src) && (a_fd l =? fd) then (lb l, b_fd l) else (la l, a_fd l)).

(** What becomes of a delivery. *)
Inductive Fate := Lost | Reset | NewPartition | Carried.

Definition fate (l : Link) (n : SimNet) : Fate * SimNet :=
  if partitioned l then (Lost, n)
  else
    let '(loss, n) := chance (packet_loss (faults_ n)) n in
    if loss then (Lost, n)
    else
      let '(rst, n) := chance (reset_chance (faults_ n)) n in
      if rst then (Reset, n)
      else
        if positive (partition_chance (faults_ n)) && (0 <? snd (partition_window (faults_ n))) then
          let '(d, n) := draw n in
          if below d (partition_chance (faults_ n)) then (NewPartition, n) else (Carried, n)
        else (Carried, n).

(** [RST] both directions, each after its own latency. *)
Definition schedule_reset (src fd dst dst_fd : Z) (n : SimNet) : SimNet :=
  let '(d1, n) := latency n in
  let n := push (now_ n + d1) (KPeerReset dst dst_fd 104) n in
  let '(d2, n) := latency n in
  let n := push (now_ n + d2) (KPeerReset src fd 104) n in
  set_fd_link (delete dst_fd (delete fd (fd_link_ n))) n.

Definition start_partition (i : nat) (n : SimNet) : SimNet :=
  let n := set_links (alter (set_partitioned true) i (links_ n)) n in
  let '(lo, hi) := partition_window (faults_ n) in
  let '(d, n) := draw n in
  let n := push (now_ n + (lo + scale d (hi - lo))) (KPartitionEnd i) n in
  set_dropped (u64 (dropped_ n + 1)) n.

(** The fragments of a delivery at successive instants: fragment [i] of [frags]
    is the rest when it is the last and a drawn part otherwise; yields how many
    there were. *)
Fixpoint fragment (fuel : nat) (i frags : Z) (dst dst_fd due : Z) (bs : list Z) (n : SimNet) : Z * SimNet :=
  match fuel with
  | O => (i, n)
  | S fuel =>
      if (i <? frags) && (0 <? zlen bs) then
        let '(k, n) :=
          if i + 1 =? frags then (zlen bs, n)
          else let '(d, n) := draw n in (1 + scale d (zlen bs), n) in
        let n := push (due + i) (KBytes dst dst_fd (take (Z.to_nat k) bs)) n in
        fragment fuel (i + 1) frags dst dst_fd due (drop (Z.to_nat k) bs) n
      else (i, n)
  end.

(** A carried delivery: no earlier than the direction's watermark, which then
    moves past its last fragment. *)
Definition carry (src fd : Z) (i : nat) (l : Link) (dst dst_fd : Z) (bs : list Z) (n : SimNet) : SimNet :=
  let '(d, n) := latency n in
  let '(slow, n) := chance (slow_peer (faults_ n)) n in
  let d := if slow then d + slow_latency (faults_ n) else d in
  let ab := (la l =? src) && (a_fd l =? fd) in
  let nf := if ab then next_free_ab l else next_free_ba l in
  let due := Z.max (now_ n + d) nf in
  let '(k, n) :=
    if partial_reads (faults_ n) && (1 <? zlen bs) then
      let '(d, n) := draw n in
      fragment 4 0 (2 + scale d 3) dst dst_fd due bs n
    else (1, push due (KBytes dst dst_fd bs) n) in
  set_links (alter (set_free ab (due + k)) i (links_ n)) n.

Definition deliver_bytes (src fd : Z) (iov : list (list Z)) (n : SimNet) : SimNet :=
  match link_for src fd n with
  | None => n
  | Some (i, l, (dst, dst_fd)) =>
      let '(f, n) := fate l n in
      match f with
      | Lost => set_dropped (u64 (dropped_ n + 1)) n
      | Reset => schedule_reset src fd dst dst_fd n
      | NewPartition => start_partition i n
      | Carried => carry src fd i l dst dst_fd (concat iov) n
      end
  end.

Definition net_detach (src fd : Z) (n : SimNet) : SimNet :=
  let n := set_listeners (filter (fun p => p.2 <> (src, fd)) (listeners_ n)) n in
  match link_for src fd n with
  | None => n
  | Some (i, l, (dst, dst_fd)) =>
      let n := set_fd_link (delete dst_fd (delete fd (fd_link_ n))) n in
      if partitioned l then n
      else let '(d, n) := latency n in push (now_ n + d) (KPeerFin dst dst_fd) n
  end.

(** [getsockname] reports port 0 for a descriptor that is not an IP socket. *)
Definition listen (port_of : Z -> Z) (b listen_fd : Z) (n : SimNet) : SimNet :=
  if port_of listen_fd =? 0 then n
  else set_listeners (<[port_of listen_fd := (b, listen_fd)]> (listeners_ n)) n.

Definition post (shard : Z) (task : nat) (delay : Z) (n : SimNet) : SimNet :=
  push (now_ n + delay) (KPost shard task) n.

Definition partition (link : nat) (window : Z) (n : SimNet) : SimNet :=
  if (length (links_ n) <=? link)%nat then n
  else
    let n := set_links (alter (set_partitioned true) link (links_ n)) n in
    push (now_ n + window) (KPartitionEnd link) n.

(** ** The backend *)

(** [push] of a completion. *)
Definition complete (u : UserData) (res : Z) (b : SimBackend) : SimBackend :=
  set_ready (ready_ b ++ [plain u res]) b.

(** [pump_recv] in a build without random splitting ([AFX_DEBUG_CHAOS]): the
    descriptor's state after it, and the completion it queues. *)
Definition pump_recv (s : FdState) : FdState * option Completion :=
  if negb (recv_armed s) then (s, None)
  else if negb (peer_err s =? 0) then
    (set_recv_armed false s, Some (plain (recv_ud s) (- peer_err s)))
  else
    match inbound s with
    | [] => if peer_closed s then (set_recv_armed false s, Some (plain (recv_ud s) 0)) else (s, None)
    | bs =>
        let n := Z.min (zlen bs) (recv_len s) in
        let s := set_inbound (drop (Z.to_nat n) bs) (set_recv_mem (take (Z.to_nat n) bs) s) in
        (set_recv_armed false s, Some (plain (recv_ud s) (Epoll.i32 n)))
    end.

(** Puts a descriptor through [pump_recv]. *)
Definition pump (fd : Z) (s : FdState) (b : SimBackend) : SimBackend :=
  let '(s, c) := pump_recv s in
  let b := sim_put fd s b in
  match c with Some c => set_ready (ready_ b ++ [c]) b | None => b end.

Definition sim_attach (fd : Z) (i : Interest) (u : UserData) (b : SimBackend) : SimBackend :=
  sim_put fd (set_watch i u (sim_fd b fd)) b.

Definition submit_recv (u : UserData) (fd len : Z) (b : SimBackend) : SimBackend :=
  pump fd (set_recv true u len (sim_fd b fd)) b.

Definition feed (fd : Z) (bs : list Z) (b : SimBackend) : SimBackend :=
  let s := set_inbound (inbound (sim_fd b fd) ++ bs) (sim_fd b fd) in pump fd s b.

Definition close_peer (fd : Z) (b : SimBackend) : SimBackend :=
  let s := sim_fd b fd in pump fd (set_peer true (peer_err s) s) b.

Definition fail_peer (fd err : Z) (b : SimBackend) : SimBackend :=
  let s := sim_fd b fd in pump fd (set_peer (peer_closed s) err s) b.

Definition deliver_connect (fd : Z) (u : UserData) (result : Z) (b : SimBackend) : SimBackend :=
  let s := sim_fd b fd in
  if negb (connect_pending s) || negb (connect_ud s =? u) then sim_put fd s b
  else complete u (Epoll.i32 result) (sim_put fd (set_connect false (connect_ud s) s) b).

Definition deliver_accept (listen_fd peer_fd : Z) (b : SimBackend) : SimBackend :=
  let s := sim_fd b listen_fd in
  let b := sim_put listen_fd s b in
  let b := sim_put peer_fd (sim_fd b peer_fd) b in
  if negb (accept_armed s) then b
  else complete (accept_ud s) peer_fd (sim_put listen_fd (set_accept false (accept_ud s) s) b).

Definition deliver_watch (fd : Z) (readiness : Interest) (b : SimBackend) : SimBackend :=
  match fds_ b !! fd with
  | None => b
  | Some s =>
      complete (watch_ud s) (Z.lor (if has readiness Readable then ReadyRead else 0)
                                   (if has readiness Writable then ReadyWrite else 0)) b
  end.

Definition sent (fd : Z) (b : SimBackend) : list Z :=
  match fds_ b !! fd with None => [] | Some s => outbound s end.
Definition recv_pending (fd : Z) (b : SimBackend) : bool :=
  match fds_ b !! fd with None => false | Some s => recv_armed s end.

(** One descriptor in the loop of [cancel]. *)
Definition cancel_one (u : UserData) (b : SimBackend) (p : Z * FdState) : SimBackend :=
  let '(fd, s) := p in
  let r := recv_armed s && (recv_ud s =? u) in
  let a := accept_armed s && (accept_ud s =? u) in
  let c := connect_pending s && (connect_ud s =? u) in
  let n := ((if r then 1 else 0) + (if a then 1 else 0) + (if c then 1 else 0))%nat in
  let s := if r then set_recv_armed false s else s in
  let s := if a then set_accept false (accept_ud s) s else s in
  let s := if c then set_connect false (connect_ud s) s else s in
  set_ready (ready_ b ++ replicate n (plain u (- Epoll.ECANCELED))) (sim_put fd s b).
Definition sim_cancel (u : UserData) (b : SimBackend) : SimBackend :=
  foldl (cancel_one u) b (map_to_list (fds_ b)).

Definition sim_wait (cap : nat) (b : SimBackend) : list Completion * SimBackend :=
  (take cap (ready_ b), set_ready (drop cap (ready_ b)) b).

Definition sim_wake (b : SimBackend) : SimBackend :=
  mkBe (fds_ b) (ready_ b) (next_fd_ b) (wake_count_ b + 1) (net_ b).

(** ** The backend on its fabric *)

(** [add_fd]: a fresh socket, or a virtual identifier when there is none. *)
Definition add_fd (socket : Z -> Z) (i : Z) (w : World) : Z * World :=
  let s := socket (sockets w) in
  let w := mkWorld (bes w) (net w) (sockets w + 1) in
  if s <? 0 then
    let fd := next_fd_ (be_ref w i) in
    (fd, upd_be i (fun b => sim_put fd (sim_fd b fd) (set_next (fd + 1) b)) w)
  else (s, upd_be i (fun b => sim_put s (sim_fd b s) b) w).

Definition sim_detach (i fd : Z) (w : World) : World :=
  let w := if net_ (be_ref w i) then upd_net (net_detach i fd) w else w in
  upd_be i (fun b => set_fds (delete fd (fds_ b)) b) w.

Definition submit_sendv (i : Z) (u : UserData) (fd : Z) (iov : list (list Z)) (w : World) : World :=
  let total := zlen (concat iov) in
  let w := upd_be i (fun b =>
    let s := sim_fd b fd in
    complete u (Epoll.i32 total) (sim_put fd (set_outbound (outbound s ++ concat iov) s) b)) w in
  if net_ (be_ref w i) && negb (total =? 0) then upd_net (deliver_bytes i fd iov) w else w.

Definition submit_send (i : Z) (u : UserData) (fd : Z) (bs : list Z) (w : World) : World :=
  submit_sendv i u fd [bs] w.

Definition submit_accept (port_of : Z -> Z) (i : Z) (u : UserData) (listen_fd : Z) (w : World) : World :=
  let w := upd_be i (fun b => sim_put listen_fd (set_accept true u (sim_fd b listen_fd)) b) w in
  if net_ (be_ref w i) then upd_net (listen port_of i listen_fd) w else w.

(** [SimNet::connect]: refused after one hop when nothing listens on the port,
    otherwise a link to a fresh descriptor of the listener. *)
Definition net_connect (socket : Z -> Z) (src fd port : Z) (u : UserData) (w : World) : World :=
  match listeners_ (net w) !! port with
  | None =>
      upd_net (fun n => let '(d, n) := latency n in push (now_ n + d) (KConnectDone src fd u (-111)) n) w
  | Some (srv, listen_fd) =>
      let '(peer_fd, w) := add_fd socket srv w in
      upd_net (fun n =>
        let link := length (links_ n) in
        let n := set_links (links_ n ++ [mkLink src fd srv peer_fd false 0 0]) n in
        let n := set_fd_link (<[peer_fd := link]> (<[fd := link]> (fd_link_ n))) n in
        let '(half, n) := latency n in
        let n := push (now_ n + half) (KConnectDone src fd u 0) n in
        push (now_ n + half) (KAccept srv listen_fd peer_fd) n) w
  end.

Definition submit_connect (socket : Z -> Z) (i : Z) (u : UserData) (fd port : Z) (w : World) : World :=
  if net_ (be_ref w i) then
    let w := upd_be i (fun b => sim_put fd (set_connect true u (sim_fd b fd)) b) w in
    net_connect socket i fd port u w
  else upd_be i (fun b => complete u 0 (sim_put fd (sim_fd b fd) b)) w.

(** [SimNet::apply]. *)
Definition apply (ev : SimEvent) (w : World) : World :=
  match kind ev with
  | KBytes d fd bs => upd_be d (feed fd bs) w
  | KAccept d fd peer => upd_be d (deliver_accept fd peer) w
  | KConnectDone d fd u r => upd_be d (deliver_connect fd u r) w
  | KPeerFin d fd => upd_be d (close_peer fd) w
  | KPeerReset d fd e => upd_be d (fail_peer fd e) w
  | KPartitionEnd i =>
      if (i <? length (links_ (net w)))%nat
      then upd_net (fun n => set_links (alter (set_partitioned false) i (links_ n)) n) w else w
  | KPost _ _ => w
  end.

(** Delivers every event due by now, earliest first. *)
Fixpoint run_due (fuel : nat) (w : World) : World :=
  match fuel with
  | O => w
  | S fuel =>
      if due_next (now_ (net w)) (net w) then
        match pop (net w) with
        | Some (ev, n) => run_due fuel (apply ev (mkWorld (bes w) n (sockets w)))
        | None => w
        end
      else w
  end.

(** ** The order of bytes *)

(** The bytes an event brings to descriptor [f] of backend [d]. *)
Definition bytes_of (d f : Z) (k : SimKind) : list Z :=
  match k with KBytes d' f' bs => if (d' =? d) && (f' =? f) then bs else [] | _ => [] end.
Definition is_to (d f : Z) (ev : SimEvent) : Prop :=
  match kind ev with KBytes d' f' _ => d' = d /\ f' = f | _ => False end.
Definition bytes_to (d f : Z) (q : list SimEvent) : list Z := concat (map (fun ev => bytes_of d f (kind ev)) q).

(** Every event queued for that descriptor is due before [t]. *)
Definition bound (d f t : Z) (n : SimNet) : Prop := Forall (fun ev => is_to d f ev -> due ev < t) (q_ n).

Definition in_order (q : list SimEvent) : Prop := StronglySorted (fun x y => due x <= due y) q.

Lemma bytes_to_nil d f q : Forall (fun ev => ~ is_to d f ev) q -> bytes_to d f q = [].
Proof.
  induction 1 as [|ev q Hev Hq IH]; [done|]. unfold bytes_to in *. cbn [map concat]. rewrite IH, app_nil_r.
  unfold bytes_of, is_to in *. destruct (kind ev); try done. case_test; [|done]. by contradict Hev.
Qed.

Lemma insert_in ev q x : x ∈ insert_ev ev q <-> x = ev \/ x ∈ q.
Proof.
  induction q as [|y q IH]; simpl; [rewrite list_elem_of_singleton; set_solver|].
  case_match; rewrite ?elem_of_cons, ?IH; tauto.
Qed.

Lemma later_due x y : later x y = true -> due y <= due x.
Proof. unfold later. destruct (Z.eqb_spec (due x) (due y)); simpl; [lia|]. intros ?%Z.ltb_lt. lia. Qed.
Lemma not_later_due x y : later x y = false -> due x <= due y.
Proof. unfold later. destruct (Z.eqb_spec (due x) (due y)); simpl; [lia|]. intros ?%Z.ltb_ge. lia. Qed.

Lemma insert_in_order ev q : in_order q -> in_order (insert_ev ev q).
Proof.
  induction 1 as [|x q Hq IH Hx]; simpl; [by repeat constructor|]. case_match eqn:E.
  - apply later_due in E. constructor; [by constructor|]. constructor; [done|].
    eapply Forall_impl; [exact Hx|]. simpl. intros. lia.
  - apply not_later_due in E. constructor; [done|]. apply Forall_forall. intros y Hy.
    apply insert_in in Hy as [->|Hy]; [done|]. rewrite Forall_forall in Hx. by apply Hx.
Qed.

(** An event due after all those of its descriptor is the last of them. *)
Lemma insert_bytes d f ev q :
  in_order q -> (is_to d f ev -> Forall (fun x => is_to d f x -> due x < due ev) q) ->
  bytes_to d f (insert_ev ev q) = bytes_to d f q ++ bytes_of d f (kind ev).
Proof.
  intros Hq Hb. induction Hq as [|x q Hq IH Hx]; simpl; [unfold bytes_to; simpl; by rewrite app_nil_r|].
  case_match eqn:E.
  - change (bytes_to d f (ev :: x :: q)) with (bytes_of d f (kind ev) ++ bytes_to d f (x :: q)).
    destruct (bytes_of d f (kind ev)) eqn:Eb; [by rewrite app_nil_r|].
    assert (is_to d f ev) as Ht.
    { unfold bytes_of, is_to in *. destruct (kind ev); try done. case_test_in Eb; [|done]. by bool_to_prop. }
    rewrite bytes_to_nil; [by rewrite app_nil_r|]. specialize (Hb Ht). apply later_due in E.
    constructor; [intros Hx'; apply Forall_cons in Hb as [Hb _]; specialize (Hb Hx'); lia|].
    apply Forall_forall. intros y Hy Hty. rewrite Forall_forall in Hx. specialize (Hx y Hy).
    apply Forall_cons in Hb as [_ Hb]. rewrite Forall_forall in Hb. specialize (Hb y Hy Hty). lia.
  - unfold bytes_to in *. cbn [map concat]. rewrite IH, app_assoc; [done|]. intros Ht. by apply Hb, Forall_cons in Ht as [_ ?].
Qed.

(** Scheduling an event. *)
Lemma push_bytes d f t k n :
  in_order (q_ n) -> (is_to d f (mkEv t 0 k) -> bound d f t n) ->
  in_order (q_ (push t k n)) /\ bytes_to d f (q_ (push t k n)) = bytes_to d f (q_ n) ++ bytes_of d f k
  /\ (forall t', bound d f t' n -> (is_to d f (mkEv t 0 k) -> t < t') -> bound d f t' (push t k n)).
Proof.
  intros Ho Hb. split; [by apply insert_in_order|]. split; [by apply insert_bytes|].
  intros t' Ht Hk. unfold bound. apply Forall_forall. intros x Hx Hto.
  apply insert_in in Hx as [->|Hx]; [by apply Hk|]. unfold bound in Ht. rewrite Forall_forall in Ht. auto.
Qed.

(** A step that only draws. *)
Definition drew (n n' : SimNet) : Prop := exists g, n' = set_rng g n.

Lemma drew_refl n : drew n n.
Proof. exists (rng_ n). by destruct n. Qed.
Lemma drew_trans n1 n2 n3 : drew n1 n2 -> drew n2 n3 -> drew n1 n3.
Proof. intros (g&->) (g'&->). by exists g'. Qed.
Lemma draw_drew n : drew n (snd (draw n)).
Proof. unfold draw. destruct (rng_draw (rng_ n)). by eexists. Qed.
Lemma chance_drew p n : drew n (snd (chance p n)).
Proof.
  unfold chance. destruct (positive p); [|apply drew_refl]. pose proof (draw_drew n) as H. by destruct (draw n).
Qed.
Lemma latency_drew n : drew n (snd (latency n)).
Proof.
  unfold latency. case_match; [apply drew_refl|]. pose proof (draw_drew n) as H0. by destruct (draw n).
Qed.
Lemma fate_drew l n : drew n (snd (fate l n)).
Proof.
  unfold fate. destruct (partitioned l); [apply drew_refl|].
  pose proof (chance_drew (packet_loss (faults_ n)) n) as H1. destruct (chance _ n) as [b1 n1]. destruct b1; [done|].
  pose proof (chance_drew (reset_chance (faults_ n1)) n1) as H2. destruct (chance _ n1) as [b2 n2]. simpl in *.
  pose proof (drew_trans _ _ _ H1 H2) as H3. destruct b2; [done|]. case_match; [|done].
  pose proof (draw_drew n2) as H4. destruct (draw n2) as [x n3]. simpl in *.
  pose proof (drew_trans _ _ _ H3 H4). by destruct (below x _).
Qed.

(** From [n] to [n'] the bytes [bs] are scheduled last for descriptor [f] of
    [d], and nothing for any other. *)
Record scheduled (d f : Z) (bs : list Z) (n n' : SimNet) : Prop := {
  s_order : in_order (q_ n) -> in_order (q_ n');
  s_bytes : forall d' f', bytes_to d' f' (q_ n') =
              bytes_to d' f' (q_ n) ++ (if (d =? d') && (f =? f') then bs else []);
  s_bound : forall d' f' t, ~ (d = d' /\ f = f') -> bound d' f' t n -> bound d' f' t n';
  s_links : links_ n' = links_ n }.

Lemma scheduled_drew d f n n' : drew n n' -> scheduled d f [] n n'.
Proof. intros (g&->). constructor; intros; try done. simpl. by destruct (_ && _); rewrite app_nil_r. Qed.

Lemma scheduled_trans d f b1 b2 n1 n2 n3 :
  scheduled d f b1 n1 n2 -> scheduled d f b2 n2 n3 -> scheduled d f (b1 ++ b2) n1 n3.
Proof.
  intros [] []. constructor; [auto| |auto|congruence].
  intros d' f'. rewrite s_bytes1, s_bytes0, <- app_assoc. by case_test.
Qed.

Lemma scheduled_push d f t bs n :
  in_order (q_ n) -> bound d f t n -> scheduled d f bs n (push t (KBytes d f bs) n).
Proof.
  intros Ho Hb. constructor; [by intros; apply insert_in_order| | |done].
  - intros d' f'. destruct (push_bytes d' f' t (KBytes d f bs) n Ho) as (_&H&_); [|done].
    by intros [-> ->].
  - intros d' f' t' Hne Hb'. destruct (push_bytes d' f' t (KBytes d f bs) n Ho) as (_&_&H);
      [by intros [-> ->]|]. apply H; [done|]. intros Ht. by destruct Hne.
Qed.

(** A draw scales to a number below the bound. *)
Definition scales : Prop := forall d n, 0 < n -> 0 <= scale d n < n.

(** The fragments of a delivery are its bytes in order. *)
Lemma fragment_scheduled fuel : scales -> forall i frags d f t bs n,
  0 <= i -> frags - i <= Z.of_nat fuel -> (i < frags \/ bs = []) ->
  in_order (q_ n) -> bound d f (t + i) n ->
  let r := fragment fuel i frags d f t bs n in
  scheduled d f bs n (snd r) /\ i <= fst r /\ bound d f (t + fst r) (snd r).
Proof.
  intros Hs. induction fuel as [|fuel IH]; intros i frags d f t bs n Hi Hf Hb Ho Hbd; simpl.
  { destruct Hb as [?| ->]; [lia|]. repeat split; try done; try lia. apply scheduled_drew, drew_refl. }
  destruct (Z.ltb_spec i frags), (Z.ltb_spec 0 (zlen bs)) as [Hl|Hl]; simpl.
  2-4: assert (bs = []) as ->
    by (destruct Hb as [?|]; [|done]; destruct bs; [done|]; unfold zlen in *; simpl in *; lia);
       split; [apply scheduled_drew, drew_refl|split; [simpl; lia|done]].
  set (c := if i + 1 =? frags then (zlen bs, n) else _).
  assert (drew n (snd c) /\ 0 < fst c <= zlen bs /\ (fst c = zlen bs \/ i + 1 < frags)) as (Hd&Hk&Hr).
  { subst c. destruct (Z.eqb_spec (i + 1) frags); [split; [apply drew_refl|simpl; lia]|].
    pose proof (draw_drew n) as H'. destruct (draw n) as [x n1]. simpl in *.
    specialize (Hs x (zlen bs) Hl). split; [done|lia]. }
  destruct c as [k n1]. simpl in Hd, Hk, Hr. destruct Hd as (g&->).
  set (n2 := push (t + i) _ _).
  assert (scheduled d f (take (Z.to_nat k) bs) n n2) as Hsch.
  { apply (scheduled_trans d f [] _ n (set_rng g n)); [apply scheduled_drew; by exists g|by apply scheduled_push]. }
  specialize (IH (i + 1) frags d f t (drop (Z.to_nat k) bs) n2).
  destruct IH as (H1&H2&H3); [lia|lia| |by apply (s_order _ _ _ _ _ Hsch)| |].
  { destruct Hr as [->|?]; [right|by left]. unfold zlen. rewrite Nat2Z.id. apply drop_all. }
  { apply (push_bytes d f (t + i) (KBytes d f (take (Z.to_nat k) bs)) (set_rng g n) Ho); [done| |lia].
    eapply Forall_impl; [exact Hbd|]. simpl. intros ev Hev Hto. specialize (Hev Hto). lia. }
  split; [|split; [lia|done]]. rewrite <- (take_drop (Z.to_nat k) bs) at 1. by apply (scheduled_trans d f _ _ n n2).
Qed.

(** ** The wiring of the fabric *)

(** Where a direction of a link leads, and its watermark. *)
Definition dest (l : Link) (ab : bool) : Z * Z := if ab then (lb l, b_fd l) else (la l, a_fd l).
Definition free (l : Link) (ab : bool) : Z := if ab then next_free_ab l else next_free_ba l.

(** The queue is in order of due times, every queued byte is due before the
    watermark of its direction, and no two directions lead to the same place. *)
Record wired (n : SimNet) : Prop := {
  w_order : in_order (q_ n);
  w_bound : forall i l ab, links_ n !! i = Some l -> bound (dest l ab).1 (dest l ab).2 (free l ab) n;
  w_distinct : forall i j l m ab cd, links_ n !! i = Some l -> links_ n !! j = Some m ->
                 dest l ab = dest m cd -> i = j /\ ab = cd }.

(** Everything of a link but whether it is partitioned. *)
Definition wires (l : Link) : (Z * Z) * (Z * Z) * (Z * Z) :=
  (dest l true, dest l false, (free l true, free l false)).

(** A step that schedules no bytes and moves no watermark. *)
Record quiet (n n' : SimNet) : Prop := {
  q_order : in_order (q_ n) -> in_order (q_ n');
  q_bytes : in_order (q_ n) -> forall d f, bytes_to d f (q_ n') = bytes_to d f (q_ n);
  q_bound : forall d f t, bound d f t n -> bound d f t n';
  q_links : wires <$> links_ n' = wires <$> links_ n }.

Lemma wires_dest l m ab : wires l = wires m -> dest l ab = dest m ab /\ free l ab = free m ab.
Proof. unfold wires. intros E. injection E as E1 E2 E3 E4 E5 E6. destruct ab; unfold dest, free in *; split; congruence. Qed.

Lemma quiet_link n n' i l : quiet n n' -> links_ n' !! i = Some l ->
  exists m, links_ n !! i = Some m /\ wires m = wires l.
Proof.
  intros [_ _ _ Hl] Hi. assert ((wires <$> links_ n) !! i = Some (wires l)) as H.
  { rewrite <- Hl. by rewrite list_lookup_fmap, Hi. }
  rewrite list_lookup_fmap in H. destruct (links_ n !! i) as [m|]; [|done]. exists m. split; [done|]. change (Some (wires m) = Some (wires l)) in H. congruence.
Qed.

Lemma quiet_wired n n' : quiet n n' -> wired n -> wired n'.
Proof.
  intros Hq [Ho Hb Hd]. constructor; [by apply Hq| |].
  - intros i l ab Hi. destruct (quiet_link n n' i l Hq Hi) as (m&Hm&Hw).
    destruct (wires_dest m l ab Hw) as [<- <-]. by apply Hq, (Hb i).
  - intros i j l m ab cd Hi Hj. destruct (quiet_link n n' i l Hq Hi) as (l'&Hl&Hw).
    destruct (quiet_link n n' j m Hq Hj) as (m'&Hm&Hw').
    destruct (wires_dest l' l ab Hw) as [<- _], (wires_dest m' m cd Hw') as [<- _]. by apply (Hd i j l' m').
Qed.

Lemma net_quiet_refl n : quiet n n.
Proof. by constructor. Qed.
Lemma net_quiet_trans n1 n2 n3 : quiet n1 n2 -> quiet n2 n3 -> quiet n1 n3.
Proof. intros [] []. constructor; [auto| |auto|congruence]. intros. rewrite q_bytes1, q_bytes0; auto. Qed.
Lemma quiet_drew n n' : drew n n' -> quiet n n'.
Proof. intros (g&->). by constructor. Qed.

(** An event that is not bytes. *)
Definition silent (k : SimKind) : Prop := match k with KBytes _ _ _ => False | _ => True end.

Lemma quiet_push t k n : silent k -> quiet n (push t k n).
Proof.
  intros Hk. assert (forall d f, ~ is_to d f (mkEv t (seq_ n) k)) as Hn by (intros ?? H; by destruct k).
  constructor; [apply insert_in_order| | |done].
  - intros Ho d f. destruct (push_bytes d f t k n Ho) as (_&->&_); [by intros ?%Hn|].
    destruct k; try done; simpl; by rewrite app_nil_r.
  - intros d f t' Hb. apply Forall_forall. intros x Hx. apply insert_in in Hx as [->|Hx]; [by intros ?%Hn|].
    unfold bound in Hb. rewrite Forall_forall in Hb. auto.
Qed.

Lemma wires_partitioned p i (ls : list Link) : wires <$> alter (set_partitioned p) i ls = wires <$> ls.
Proof.
  apply list_eq. intros j. rewrite !list_lookup_fmap. destruct (decide (i = j)) as [->|Hne].
  - rewrite list_lookup_alter_eq. by destruct (ls !! j).
  - by rewrite list_lookup_alter_ne.
Qed.

Lemma quiet_partitioned p i n : quiet n (set_links (alter (set_partitioned p) i (links_ n)) n).
Proof. constructor; try done. apply wires_partitioned. Qed.

(** Setters of the parts the wiring does not look at. *)
Lemma quiet_fd_link x n : quiet n (set_fd_link x n).
Proof. by constructor. Qed.
Lemma quiet_listeners x n : quiet n (set_listeners x n).
Proof. by constructor. Qed.
Lemma quiet_dropped x n : quiet n (set_dropped x n).
Proof. by constructor. Qed.
Lemma quiet_now x n : quiet n (set_now x n).
Proof. by constructor. Qed.
Lemma quiet_latency n : quiet n (snd (latency n)).
Proof. apply quiet_drew, latency_drew. Qed.
Lemma quiet_draw n : quiet n (snd (draw n)).
Proof. apply quiet_drew, draw_drew. Qed.
Lemma quiet_then_push t k n m : silent k -> quiet n m -> quiet n (push t k m).
Proof. intros Hk H. eapply net_quiet_trans; [exact H|by apply quiet_push]. Qed.

Lemma schedule_reset_quiet src fd d f n : quiet n (schedule_reset src fd d f n).
Proof.
  unfold schedule_reset. pose proof (quiet_latency n) as H1. destruct (latency n) as [d1 n1]. simpl in H1.
  set (n2 := push _ _ n1). pose proof (quiet_latency n2) as H2. destruct (latency n2) as [d2 n3]. simpl in H2.
  eapply net_quiet_trans; [|apply quiet_fd_link]. apply quiet_then_push; [done|].
  eapply net_quiet_trans; [|exact H2]. by apply quiet_then_push.
Qed.

Lemma start_partition_quiet i n : quiet n (start_partition i n).
Proof.
  unfold start_partition. set (n1 := set_links _ n). cbv zeta. destruct (partition_window _) as [lo hi].
  pose proof (quiet_draw n1) as H1. destruct (draw n1) as [d n2]. simpl in H1.
  eapply net_quiet_trans; [|apply quiet_dropped]. apply quiet_then_push; [done|].
  eapply net_quiet_trans; [apply quiet_partitioned|exact H1].
Qed.

Lemma net_detach_quiet src fd n : quiet n (net_detach src fd n).
Proof.
  unfold net_detach. set (n1 := set_listeners _ n). cbv zeta.
  destruct (link_for src fd n1) as [[[i l] [d f]]|]; [|apply quiet_listeners].
  eapply net_quiet_trans; [apply quiet_listeners|]. destruct (partitioned l); [apply quiet_fd_link|].
  eapply net_quiet_trans; [apply quiet_fd_link|]. set (n2 := set_fd_link _ n1).
  pose proof (quiet_latency n2) as H. destruct (latency n2) as [d2 n3]. simpl in H.
  by apply quiet_then_push.
Qed.

Lemma partition_quiet i t n : quiet n (partition i t n).
Proof.
  unfold partition. destruct (_ <=? _)%nat; [apply net_quiet_refl|].
  apply quiet_then_push; [done|apply quiet_partitioned].
Qed.

Lemma set_free_free ab cd t l : free (set_free ab t l) cd = if bool_decide (ab = cd) then t else free l cd.
Proof. by destruct ab, cd. Qed.

(** A carried delivery is scheduled after all that its direction was given. *)
Lemma carry_wired src fd i l bs n :
  scales -> wired n -> links_ n !! i = Some l ->
  let ab := (la l =? src) && (a_fd l =? fd) in
  let n' := carry src fd i l (dest l ab).1 (dest l ab).2 bs n in
  wired n' /\ forall d f, bytes_to d f (q_ n') =
    bytes_to d f (q_ n) ++ (if ((dest l ab).1 =? d) && ((dest l ab).2 =? f) then bs else []).
Proof.
  intros Hs [Ho Hb Hdi] Hi ab. unfold carry. cbv zeta. fold ab. fold (free l ab).
  pose proof (latency_drew n) as H1. destruct (latency n) as [d1 n1]. simpl in H1.
  pose proof (chance_drew (slow_peer (faults_ n1)) n1) as H2. destruct (chance _ n1) as [sl n2]. simpl in H2.
  pose proof (drew_trans _ _ _ H1 H2) as (g&->). clear H1 H2. cbn [set_rng now_ faults_ links_].
  set (t := Z.max _ (free l ab)). set (D' := dest l ab).
  set (r := if partial_reads (faults_ n) && (1 <? zlen bs) then _ else _).
  assert (bound D'.1 D'.2 t n) as Hbt.
  { eapply Forall_impl; [exact (Hb i l ab Hi)|]. simpl. intros ev Hev Hto. specialize (Hev Hto). lia. }
  assert (scheduled D'.1 D'.2 bs n (snd r) /\ bound D'.1 D'.2 (t + fst r) (snd r)) as [Hsch Hbr].
  { subst r. destruct (partial_reads (faults_ n) && (1 <? zlen bs)).
    - pose proof (draw_drew (set_rng g n)) as (g'&E). destruct (draw _) as [x n3]. simpl in E. subst n3.
      change (set_rng g' (set_rng g n)) with (set_rng g' n).
      assert (0 <= scale x 3 < 3) as Hx by (apply Hs; lia).
      destruct (fragment_scheduled 4 Hs 0 (2 + scale x 3) D'.1 D'.2 t bs (set_rng g' n)) as (H&?&?);
        [lia|lia|left; lia|done|by rewrite Z.add_0_r|]. split; [|done].
      apply (scheduled_trans _ _ [] _ n (set_rng g' n)); [apply scheduled_drew; by exists g'|exact H].
    - simpl. split.
      + apply (scheduled_trans _ _ [] _ n (set_rng g n)); [apply scheduled_drew; by exists g|by apply scheduled_push].
      + apply (push_bytes _ _ t (KBytes D'.1 D'.2 bs) (set_rng g n) Ho); [done| |lia].
        eapply Forall_impl; [exact Hbt|]. simpl. intros ev Hev Hto. specialize (Hev Hto). lia. }
  destruct r as [k n3]. cbn [fst snd set_rng q_ links_] in *. destruct Hsch as [Hso Hsb Hsd Hsl].
  split; [|exact Hsb]. rewrite Hsl.
  assert (forall j m, alter (set_free ab (t + k)) i (links_ n) !! j = Some m ->
    exists m0, links_ n !! j = Some m0 /\ (forall cd, dest m cd = dest m0 cd) /\
      (forall cd, free m cd = if bool_decide (i = j /\ ab = cd) then t + k else free m0 cd)) as Halt.
  { intros j m Hm. destruct (decide (i = j)) as [->|Hne].
    - rewrite list_lookup_alter_eq, Hi in Hm. injection Hm as <-. exists l. split; [done|].
      split; intros cd; [by destruct cd|]. rewrite set_free_free. repeat case_bool_decide; tauto.
    - rewrite list_lookup_alter_ne in Hm by done. exists m. split; [done|]. split; [done|].
      intros cd. rewrite bool_decide_eq_false_2; [done|tauto]. }
  constructor; [by apply Hso| |].
  - intros j m cd Hm. destruct (Halt j m Hm) as (m0&Hm0&Hde&Hfr). rewrite Hde, Hfr.
    destruct (bool_decide_reflect (i = j /\ ab = cd)) as [[<- <-]|Hne]; [by assert (m0 = l) as -> by congruence|].
    apply Hsd; [|by apply (Hb j)]. intros [E1 E2]. apply Hne, (Hdi i j l m0); [done..|].
    rewrite (surjective_pairing (dest m0 cd)), <- E1, <- E2. apply surjective_pairing.
  - intros j j' m m' cd cd' Hm Hm'. destruct (Halt j m Hm) as (m0&Hm0&->&_), (Halt j' m' Hm') as (m1&Hm1&->&_).
    by apply (Hdi j j').
Qed.

(** The bytes of a send the fabric carries to descriptor [f] of [d]. *)
Definition carried_to (d f src fd : Z) (iov : list (list Z)) (n : SimNet) : list Z :=
  match link_for src fd n with
  | Some (_, l, (d', f')) =>
      match fst (fate l n) with
      | Carried => if (d' =? d) && (f' =? f) then concat iov else []
      | _ => []
      end
  | None => []
  end.

Lemma deliver_bytes_wired src fd iov n :
  scales -> wired n ->
  let n' := deliver_bytes src fd iov n in
  wired n' /\ forall d f, bytes_to d f (q_ n') = bytes_to d f (q_ n) ++ carried_to d f src fd iov n.
Proof.
  intros Hs Hw. assert (forall n', quiet n n' -> wired n' /\ forall d f, bytes_to d f (q_ n') = bytes_to d f (q_ n) ++ []) as Hq.
  { intros n' H. split; [by apply (quiet_wired n)|]. intros d f. rewrite app_nil_r. apply (q_bytes _ _ H), Hw. }
  unfold deliver_bytes, carried_to. destruct (link_for src fd n) as [[[i l] [d0 f0]]|] eqn:El; [|by apply Hq].
  assert (links_ n !! i = Some l /\ (d0, f0) = dest l ((la l =? src) && (a_fd l =? fd))) as [Hi Hd].
  { unfold link_for in El. destruct (fd_link_ n !! fd) as [i'|]; [|done]. simpl in El.
    destruct (links_ n !! i') as [l'|] eqn:E'; [|done]. simpl in El. injection El as -> -> E3. split; [done|].
    rewrite <- E3. done. }
  pose proof (fate_drew l n) as (g&Hg). destruct (fate l n) as [ft n1]. simpl in Hg. subst n1. cbn [fst].
  assert (quiet n (set_rng g n)) as Hr by (apply quiet_drew; by exists g).
  destruct ft; try (apply Hq; eapply net_quiet_trans; [exact Hr|]).
  - apply quiet_dropped.
  - apply schedule_reset_quiet.
  - apply start_partition_quiet.
  - pose proof (carry_wired src fd i l (concat iov) (set_rng g n) Hs (quiet_wired _ _ Hr Hw) Hi) as H.
    cbv zeta in H. rewrite <- Hd in H. exact H.
Qed.

(** ** Runs *)

(** The state of a descriptor of a backend. *)
Definition view (w : World) (d f : Z) : FdState := sim_fd (be_ref w d) f.

(** What happens to a fabric and its backends: the submissions of the shards,
    faults, the advance of virtual time and the delivery of the next due event. *)
Inductive Step :=
  | DoSend (i : Z) (u : UserData) (fd : Z) (iov : list (list Z))
  | DoRecv (i : Z) (u : UserData) (fd len : Z)
  | DoCancel (i : Z) (u : UserData)
  | DoDetach (i fd : Z)
  | DoPartition (link : nat) (window : Z)
  | DoTick (t : Z)
  | DoDeliver.

Definition deliver_next (w : World) : World :=
  if due_next (now_ (net w)) (net w) then
    match pop (net w) with
    | Some (ev, n) => apply ev (mkWorld (bes w) n (sockets w))
    | None => w
    end
  else w.

Definition step (s : Step) (w : World) : World :=
  match s with
  | DoSend i u fd iov => submit_sendv i u fd iov w
  | DoRecv i u fd len => upd_be i (submit_recv u fd len) w
  | DoCancel i u => upd_be i (sim_cancel u) w
  | DoDetach i fd => sim_detach i fd w
  | DoPartition l t => upd_net (partition l t) w
  | DoTick t => upd_net (set_now t) w
  | DoDeliver => deliver_next w
  end.

(** What the completion of a receive hands the application: as many bytes of its
    buffer as the result says, none when the receive fails. *)
Definition handed (s : FdState) : list Z :=
  match pump_recv s with
  | (s', Some c) => if peer_err s =? 0 then take (Z.to_nat (result c)) (recv_mem s') else []
  | (_, None) => []
  end.

(** The receive state an event leaves a descriptor in before it is pumped. *)
Definition arrival (ev : SimEvent) (d f : Z) (s : FdState) : option FdState :=
  match kind ev with
  | KBytes d' f' bs => if (d' =? d) && (f' =? f) then Some (set_inbound (inbound s ++ bs) s) else None
  | KPeerFin d' f' => if (d' =? d) && (f' =? f) then Some (set_peer true (peer_err s) s) else None
  | KPeerReset d' f' e => if (d' =? d) && (f' =? f) then Some (set_peer (peer_closed s) e s) else None
  | _ => None
  end.

(** The bytes a step hands the application at descriptor [f] of [d]. *)
Definition received (d f : Z) (s : Step) (w : World) : list Z :=
  match s with
  | DoRecv i u fd len => if (i =? d) && (fd =? f) then handed (set_recv true u len (view w d f)) else []
  | DoDeliver =>
      match q_ (net w) with
      | ev :: _ => if due ev <=? now_ (net w) then from_option handed [] (arrival ev d f (view w d f)) else []
      | [] => []
      end
  | _ => []
  end.

(** The bytes a step gives the fabric for descriptor [f] of [d], and carried. *)
Definition carried (d f : Z) (s : Step) (w : World) : list Z :=
  match s with
  | DoSend i u fd iov => if net_ (be_ref w i) then carried_to d f i fd iov (net w) else []
  | _ => []
  end.

Fixpoint run (l : list Step) (w : World) : World :=
  match l with [] => w | s :: l => run l (step s w) end.
Fixpoint received_in (d f : Z) (l : list Step) (w : World) : list Z :=
  match l with [] => [] | s :: l => received d f s w ++ received_in d f l (step s w) end.
Fixpoint carried_in (d f : Z) (l : list Step) (w : World) : list Z :=
  match l with [] => [] | s :: l => carried d f s w ++ carried_in d f l (step s w) end.

(** A step that leaves the descriptor open and whose buffers are of a size a
    completion can report. *)
Definition keeps (d f : Z) (s : Step) : Prop :=
  match s with
  | DoRecv _ _ _ len => 0 <= len < 2 ^ 31
  | DoDetach i fd => ~ (i = d /\ fd = f)
  | _ => True
  end.

Lemma be_ref_upd i g w d : be_ref (upd_be i g w) d = if i =? d then g (be_ref w i) else be_ref w d.
Proof.
  unfold be_ref, upd_be, be_put. simpl. destruct (Z.eqb_spec i d) as [->|Hne].
  - by rewrite lookup_insert_eq.
  - by rewrite lookup_insert_ne.
Qed.
Lemma sim_fd_put fd s b f : sim_fd (sim_put fd s b) f = if fd =? f then s else sim_fd b f.
Proof.
  unfold sim_fd, sim_put. simpl. destruct (Z.eqb_spec fd f) as [->|Hne].
  - by rewrite lookup_insert_eq.
  - by rewrite lookup_insert_ne.
Qed.
Lemma view_upd i g w d f : view (upd_be i g w) d f = if i =? d then sim_fd (g (be_ref w i)) f else view w d f.
Proof. unfold view. rewrite be_ref_upd. by destruct (i =? d). Qed.
Lemma sim_fd_pump fd s b f : sim_fd (pump fd s b) f = if fd =? f then fst (pump_recv s) else sim_fd b f.
Proof.
  unfold pump. destruct (pump_recv s) as [s' [c|]]; simpl; [|apply sim_fd_put].
  rewrite <- sim_fd_put. done.
Qed.

(** What is not handed over waits, and the buffer's size is kept. *)
Definition sized (w : World) : Prop := forall d f, 0 <= recv_len (view w d f) < 2 ^ 31.

Lemma handed_split s : 0 <= recv_len s < 2 ^ 31 ->
  inbound s = handed s ++ inbound (fst (pump_recv s)) /\ recv_len (fst (pump_recv s)) = recv_len s.
Proof.
  intros Hl. unfold handed, pump_recv. destruct (recv_armed s); [|done]. simpl.
  destruct (peer_err s =? 0); [|done]. simpl. destruct (inbound s) as [|x bs] eqn:E.
  - by destruct (peer_closed s); simpl; rewrite E.
  - simpl. set (n := Z.min _ _). assert (0 <= n < 2 ^ 31) as Hn.
    { subst n. pose proof (zlen_nonneg (x :: bs)). lia. }
    split; [|done]. rewrite Epoll.i32_small by lia. rewrite take_take, Nat.min_id. by rewrite take_drop.
Qed.

(** The bytes waiting at a descriptor and the size of its buffer are as before. *)
Definition untouched (s s' : FdState) : Prop := inbound s' = inbound s /\ recv_len s' = recv_len s.

Lemma cancel_untouched u b f : untouched (sim_fd b f) (sim_fd (sim_cancel u b) f).
Proof.
  unfold sim_cancel.
  assert (forall l b', (forall fd s, (fd, s) ∈ l -> s = sim_fd b fd) ->
    (forall f, untouched (sim_fd b f) (sim_fd b' f)) -> forall f, untouched (sim_fd b f) (sim_fd (foldl (cancel_one u) b' l) f)) as H.
  { induction l as [|[fd s] l IH]; intros b' Hl Hb; [done|]. simpl. apply IH; [set_solver|].
    intros f'. change (sim_fd (set_ready _ ?b) f') with (sim_fd b f'). rewrite sim_fd_put.
    destruct (Z.eqb_spec fd f') as [->|]; [|done]. rewrite (Hl f' s) by set_solver.
    by destruct (recv_armed _ && _), (accept_armed _ && _), (connect_pending _ && _). }
  apply H; [|done]. intros fd s Hs. apply elem_of_map_to_list in Hs. unfold sim_fd. by rewrite Hs.
Qed.

Lemma apply_view ev w d f :
  match arrival ev d f (view w d f) with
  | Some s => view (apply ev w) d f = fst (pump_recv s)
  | None => untouched (view w d f) (view (apply ev w) d f)
  end.
Proof.
  unfold apply, arrival. destruct (kind ev) as [d' f' bs|d' f' p|d' f' u r|d' f'|d' f' e|i|]; rewrite ?view_upd; try done.
  - destruct (Z.eqb_spec d' d) as [->|]; [|done]. simpl. unfold feed. rewrite sim_fd_pump.
    by destruct (Z.eqb_spec f' f) as [->|].
  - destruct (Z.eqb_spec d' d) as [->|]; [|done]. unfold deliver_accept.
    set (b := be_ref w d). assert (forall b', untouched (sim_fd b f) (sim_fd b' f) -> untouched (sim_fd b f) (sim_fd (sim_put p (sim_fd b' p) b') f)) as Hp.
    { intros b' H. rewrite sim_fd_put. by destruct (Z.eqb_spec p f) as [->|]. }
    assert (untouched (sim_fd b f) (sim_fd (sim_put f' (sim_fd b f') b) f)) as H0.
    { rewrite sim_fd_put. by destruct (Z.eqb_spec f' f) as [->|]. }
    destruct (accept_armed _); simpl; [|by apply Hp].
    change (sim_fd (complete _ _ ?b) f) with (sim_fd b f). rewrite sim_fd_put.
    destruct (Z.eqb_spec f' f) as [->|]; [done|by apply Hp].
  - destruct (Z.eqb_spec d' d) as [->|]; [|done]. unfold deliver_connect.
    destruct (_ || _); [|change (sim_fd (complete _ _ ?b) f) with (sim_fd b f)]; rewrite sim_fd_put;
      by destruct (Z.eqb_spec f' f) as [->|].
  - destruct (Z.eqb_spec d' d) as [->|]; [|done]. simpl. unfold close_peer. rewrite sim_fd_pump.
    by destruct (Z.eqb_spec f' f) as [->|].
  - destruct (Z.eqb_spec d' d) as [->|]; [|done]. simpl. unfold fail_peer. rewrite sim_fd_pump.
    by destruct (Z.eqb_spec f' f) as [->|].
  - by destruct (_ <? _)%nat.
Qed.

Lemma apply_net ev w : quiet (net w) (net (apply ev w)).
Proof.
  unfold apply. destruct (kind ev); try apply net_quiet_refl.
  destruct (_ <? _)%nat; [apply quiet_partitioned|apply net_quiet_refl].
Qed.

Lemma arrival_inbound ev d f s :
  match arrival ev d f s with
  | Some s' => inbound s' = inbound s ++ bytes_of d f (kind ev) /\ recv_len s' = recv_len s
  | None => bytes_of d f (kind ev) = []
  end.
Proof.
  unfold arrival, bytes_of. destruct (kind ev); try done; destruct (_ && _); simpl; rewrite ?app_nil_r; done.
Qed.

(** One step conserves the bytes on their way to a descriptor, in order. *)
Definition conserves (d f : Z) (s : Step) (w : World) : Prop :=
  let w' := step s w in
  wired (net w') /\ sized w' /\
  received d f s w ++ inbound (view w' d f) ++ bytes_to d f (q_ (net w')) =
  inbound (view w d f) ++ bytes_to d f (q_ (net w)) ++ carried d f s w.

Lemma conserves_quiet d f s w :
  let w' := step s w in
  wired (net w) -> sized w -> quiet (net w) (net w') ->
  (forall d' f', recv_len (view w' d' f') = recv_len (view w d' f') \/ 0 <= recv_len (view w' d' f') < 2 ^ 31) ->
  received d f s w ++ inbound (view w' d f) = inbound (view w d f) -> carried d f s w = [] ->
  conserves d f s w.
Proof.
  intros w' Hw Hz Hq Hl Hr Hc. subst w'. unfold conserves. cbv zeta. split; [by apply (quiet_wired (net w))|]. split.
  - intros d' f'. destruct (Hl d' f') as [->|]; auto.
  - by rewrite Hc, app_nil_r, app_assoc, Hr, (q_bytes _ _ Hq) by apply Hw.
Qed.

Lemma view_net g w d f : view (upd_net g w) d f = view w d f.
Proof. done. Qed.

Lemma conserves_send d f i u fd iov w :
  scales -> wired (net w) -> sized w -> conserves d f (DoSend i u fd iov) w.
Proof.
  intros Hs Hw Hz. unfold conserves, step, submit_sendv, received, carried. cbv zeta.
  set (g := fun b => _). set (w1 := upd_be i g w).
  assert (forall d' f', untouched (view w d' f') (view w1 d' f')) as Hv.
  { intros d' f'. subst w1 g. rewrite view_upd. destruct (Z.eqb_spec i d') as [->|]; [|done].
    change (sim_fd (complete _ _ ?b) f') with (sim_fd b f'). rewrite sim_fd_put.
    by destruct (Z.eqb_spec fd f') as [->|]. }
  assert (net_ (be_ref w1 i) = net_ (be_ref w i)) as Hn.
  { subst w1. by rewrite be_ref_upd, Z.eqb_refl. }
  rewrite Hn. clearbody g. destruct (deliver_bytes_wired i fd iov (net w) Hs Hw) as [H1 H2].
  destruct (net_ (be_ref w i)); simpl.
  - destruct (Z.eqb_spec (zlen (concat iov)) 0) as [E|E]; simpl.
    + split; [done|]. split; [intros d' f'; destruct (Hv d' f') as [_ ->]; apply Hz|].
      destruct (Hv d f) as [-> _]. assert (carried_to d f i fd iov (net w) = []) as ->; [|by rewrite app_nil_r].
      unfold carried_to. assert (concat iov = []) as -> by (destruct (concat iov); done).
      repeat case_match; done.
    + split; [done|]. split; [intros d' f'; rewrite view_net; destruct (Hv d' f') as [_ ->]; apply Hz|].
      rewrite view_net. destruct (Hv d f) as [-> _]. by rewrite H2.
  - split; [done|]. split; [intros d' f'; destruct (Hv d' f') as [_ ->]; apply Hz|].
    destruct (Hv d f) as [-> _]. by rewrite app_nil_r.
Qed.

Lemma conserves_recv d f i u fd len w :
  wired (net w) -> sized w -> 0 <= len < 2 ^ 31 -> conserves d f (DoRecv i u fd len) w.
Proof.
  intros Hw Hz Hl.
  assert (forall d' f', view (step (DoRecv i u fd len) w) d' f' =
    if (i =? d') && (fd =? f') then fst (pump_recv (set_recv true u len (view w d' f'))) else view w d' f') as Hv.
  { intros d' f'. simpl. rewrite view_upd. unfold submit_recv. destruct (Z.eqb_spec i d') as [->|]; [|done].
    rewrite sim_fd_pump. by destruct (Z.eqb_spec fd f') as [->|]. }
  apply conserves_quiet; [done|done|apply net_quiet_refl| | |done].
  - intros d' f'. rewrite Hv. destruct (_ && _); [right|by left].
    destruct (handed_split (set_recv true u len (view w d' f')) Hl) as [_ ->]. done.
  - rewrite Hv. simpl. destruct (_ && _); [|done]. symmetry.
    apply (handed_split (set_recv true u len (view w d f)) Hl).
Qed.

Lemma conserves_deliver d f w : wired (net w) -> sized w -> conserves d f DoDeliver w.
Proof.
  intros Hw Hz. unfold conserves, step, received, carried, deliver_next, due_next, pop. cbv zeta.
  rewrite !app_nil_r. destruct (q_ (net w)) as [|ev q] eqn:Eq; [by rewrite app_nil_l, Eq|].
  destruct (due ev <=? now_ (net w)); [|by rewrite app_nil_l, Eq].
  set (w1 := mkWorld _ _ _).
  assert (wired (net w1)) as Hw1.
  { destruct Hw as [Ho Hb Hd]. unfold in_order in Ho. rewrite Eq in Ho. apply StronglySorted_inv in Ho as [Ho _].
    constructor; [done| |done]. intros i l ab Hi. specialize (Hb i l ab Hi). unfold bound in *. rewrite Eq in Hb.
    by apply Forall_cons in Hb as [_ Hb]. }
  pose proof (apply_net ev w1) as Hq. split; [by apply (quiet_wired (net w1))|].
  assert (forall d' f', 0 <= recv_len (view (apply ev w1) d' f') < 2 ^ 31 /\
    from_option handed [] (arrival ev d' f' (view w d' f')) ++ inbound (view (apply ev w1) d' f') =
    inbound (view w d' f') ++ bytes_of d' f' (kind ev)) as Hv.
  { intros d' f'. pose proof (apply_view ev w1 d' f') as Ha. pose proof (arrival_inbound ev d' f' (view w d' f')) as Hi.
    change (view w1 d' f') with (view w d' f') in Ha. specialize (Hz d' f').
    destruct (arrival ev d' f' (view w d' f')) as [s|]; simpl.
    - destruct Hi as [Hi Hl]. rewrite Ha. rewrite <- Hl in Hz. destruct (handed_split s Hz) as [<- ->]. done.
    - destruct Ha as [-> ->]. by rewrite Hi, app_nil_r. }
  split; [intros d' f'; apply Hv|]. rewrite (q_bytes _ _ Hq) by apply Hw1. rewrite app_assoc, (proj2 (Hv d f)).
  subst w1. cbn [net q_ set_q]. unfold bytes_to. cbn [map concat]. by rewrite app_assoc.
Qed.

Lemma step_conserves d f s w :
  scales -> wired (net w) -> sized w -> keeps d f s -> conserves d f s w.
Proof.
  intros Hs Hw Hz Hk. destruct s as [i u fd iov|i u fd len|i u|i fd|l t|t|].
  - by apply conserves_send.
  - by apply conserves_recv.
  - assert (forall d' f', untouched (view w d' f') (view (step (DoCancel i u) w) d' f')) as Hv.
    { intros d' f'. simpl. rewrite view_upd. destruct (Z.eqb_spec i d') as [->|]; [apply cancel_untouched|done]. }
    apply conserves_quiet; [done|done|apply net_quiet_refl| | |done].
    + intros d' f'. left. apply Hv.
    + apply Hv.
  - assert (forall d' f', view (step (DoDetach i fd) w) d' f' = if (i =? d') && (fd =? f') then fd_state0 else view w d' f') as Hv.
    { intros d' f'. simpl. unfold sim_detach. rewrite view_upd.
      set (w1 := if net_ _ then _ else w). assert (be_ref w1 = be_ref w) as Hb by (subst w1; by destruct (net_ _)).
      unfold view. rewrite Hb. destruct (Z.eqb_spec i d') as [->|]; [|done]. unfold sim_fd. simpl.
      destruct (Z.eqb_spec fd f') as [->|]; [by rewrite lookup_delete_eq|by rewrite lookup_delete_ne]. }
    apply conserves_quiet; [done|done| | | |done].
    + simpl. unfold sim_detach. destruct (net_ _); [apply net_detach_quiet|apply net_quiet_refl].
    + intros d' f'. rewrite Hv. destruct (_ && _); [right; simpl; lia|by left].
    + rewrite Hv. simpl in Hk. destruct (Z.eqb_spec i d) as [->|], (Z.eqb_spec fd f) as [->|]; simpl; try done. by destruct Hk.
  - apply conserves_quiet; [done|done|apply partition_quiet|by left|done|done].
  - apply conserves_quiet; [done|done|apply quiet_now|by left|done|done].
  - by apply conserves_deliver.
Qed.

(** C31: The simulated network is an ordered byte stream in each direction.  Over
    any sequence of sends, receives, cancellations, closes of other descriptors,
    partitions, advances of virtual time and deliveries, under any fault profile
    and any draws, what the application has been handed at a descriptor, followed
    by what waits in its backend and what is still in the event queue, is what
    was there at first followed by the bytes of the sends the fabric carried, in
    the order they were sent: latencies and fragmentation reorder, lose and
    duplicate nothing. *)
Theorem sim_stream_in_order d f l w :
  scales -> wired (net w) -> sized w -> Forall (keeps d f) l ->
  received_in d f l w ++ inbound (view (run l w) d f) ++ bytes_to d f (q_ (net (run l w))) =
  inbound (view w d f) ++ bytes_to d f (q_ (net w)) ++ carried_in d f l w.
Proof.
  intros Hs. revert w. induction l as [|s l IH]; intros w Hw Hz Hk; simpl; [by rewrite app_nil_r|].
  apply Forall_cons in Hk as [Hk Hl]. destruct (step_conserves d f s w Hs Hw Hz Hk) as (Hw'&Hz'&E).
  rewrite <- app_assoc, (IH _ Hw' Hz' Hl). rewrite !app_assoc in *. by rewrite E.
Qed.

End Fabric.

(** ** A small fabric *)

(** A generator that counts in steps of 37 modulo 100, probabilities in
    hundredths, and sockets numbered from 10. *)
Definition count_draw (g : Z) : Z * Z := (g mod 100, g + 37).
Definition count_below (d p : Z) : bool := d <? p.
Definition count_positive (p : Z) : bool := 0 <? p.
Definition count_scale (d n : Z) : Z := d mod 100 * n / 100.
Definition count_socket (k : Z) : Z := 10 + k.

Lemma count_scales : scales count_scale.
Proof.
  intros d n Hn. unfold count_scale. pose proof (Z.mod_pos_bound d 100 ltac:(lia)).
  split; [apply Z.div_pos; nia|apply Z.div_lt_upper_bound; nia].
Qed.

(** A client, backend 1, connected by descriptor 5 to descriptor 10 of a server,
    backend 2, that listens on port 80. *)
Definition fabric (partial : bool) (lo hi : Z) : World :=
  mkWorld (<[2 := set_net true sim_backend0]> (<[1 := set_net true sim_backend0]> ∅))
    (mkNet [] ∅ (<[80 := (2, 3)]> ∅) [] (mkFaults 0 partial 0 0 0 (0, 0) lo hi 0) 0 0 0 0) 0.
Definition connected (partial : bool) (lo hi : Z) : World :=
  net_connect count_draw count_scale count_socket 1 5 80 0 (fabric partial lo hi).

Definition sample_steps : list Step :=
  [DoSend 1 7 5 [[1; 2]; [3]]; DoSend 1 7 5 [[4; 5; 6; 7]]; DoRecv 2 9 10 2; DoTick 1000;
   DoDeliver; DoDeliver; DoDeliver; DoDeliver; DoDeliver; DoRecv 2 9 10 3].

Lemma sim_stream_in_order_witness :
  received_in count_draw count_below count_positive count_scale 2 10 sample_steps (connected true 5 25) = [1; 2; 3] /\
  carried_in count_draw count_below count_positive count_scale 2 10 sample_steps (connected true 5 25) = [1; 2; 3; 4; 5; 6; 7] /\
  received_in count_draw count_below count_positive count_scale 2 10 sample_steps (connected true 5 25)
    ++ inbound (view (run count_draw count_below count_positive count_scale sample_steps (connected true 5 25)) 2 10)
    ++ bytes_to 2 10 (q_ (net (run count_draw count_below count_positive count_scale sample_steps (connected true 5 25))))
  = [] ++ [] ++ carried_in count_draw count_below count_positive count_scale 2 10 sample_steps (connected true 5 25).
Proof.
  split; [vm_compute; reflexivity|]. split; [vm_compute; reflexivity|].
  apply (sim_stream_in_order count_draw count_below count_positive count_scale 2 10 sample_steps (connected true 5 25)).
  - apply count_scales.
  - constructor.
    + vm_compute. repeat constructor; discriminate.
    + intros i l ab Hi. apply Forall_forall. intros ev Hev Hto. exfalso.
      assert (forall e, e ∈ q_ (net (connected true 5 25)) -> silent (kind e)) as Hsil.
      { apply Forall_forall. vm_compute. repeat constructor. }
      specialize (Hsil ev Hev). unfold is_to in Hto. by destruct (kind ev).
    + intros i j l m ab cd Hi Hj. vm_compute in Hi, Hj. destruct i as [|i], j as [|j]; try done.
      injection Hi as <-. injection Hj as <-. by destruct ab, cd.
  - intros d f. unfold view, sim_fd, be_ref.
    assert (bes (connected true 5 25) = <[2 := sim_put 10 fd_state0 (set_net true sim_backend0)]> (<[1 := set_net true sim_backend0]> ∅)) as -> by (vm_compute; reflexivity).
    destruct (decide (d = 2)) as [->|]; [rewrite lookup_insert_eq|rewrite lookup_insert_ne by done].
    + simpl. destruct (decide (f = 10)) as [->|]; [by vm_compute|]. by rewrite lookup_insert_ne.
    + destruct (decide (d = 1)) as [->|]; [by rewrite lookup_insert_eq|]. by rewrite lookup_insert_ne.
  - unfold sample_steps, keeps. repeat constructor; lia.
Defined.

(** A close overtakes the data sent before it.  On a fabric without faults
    and with a latency of ten nanoseconds, a client sends a byte, sends another
    and closes, all at the same instant; the second send waits for the first's
    watermark but the end of the stream does not, so the server's reads return
    the first byte and then the end of the stream, with the second byte still in
    the queue. *)
Theorem sim_close_overtakes_data :
  let w := connected false 10 10 in
  let w := step count_draw count_below count_positive count_scale (DoSend 1 7 5 [[65]]) w in
  let w := step count_draw count_below count_positive count_scale (DoSend 1 7 5 [[66]]) w in
  let w := step count_draw count_below count_positive count_scale (DoDetach 1 5) w in
  let w := step count_draw count_below count_positive count_scale (DoRecv 2 9 10 100) w in
  let w := run_due 10 (upd_net (set_now 10) w) in
  let w' := step count_draw count_below count_positive count_scale (DoRecv 2 9 10 100) w in
  ready_ (be_ref w' 2) = [plain 9 1; plain 9 0] /\ map kind (q_ (net w')) = [KBytes 2 10 [66]].
Proof. vm_compute. split; reflexivity. Qed.

End Sim.
