(* ===== verification/SimRuntime.v ===== *)
(** * The simulation driver

    [SimRuntime] of [src/include/afx/sim/runtime.hpp] and [src/src/sim/runtime.cpp]: shards
    that share the fabric of Sim.v and run on one thread in virtual time.

    What a shard is to the driver is the type class [Shard]: an event manager that can
    be polled, given a task, told the time and asked when its next timer is due.  An
    iteration sees the whole world and yields the operations it performed on its backend
    and on the driver; the world changes by these operations only.  The hook
    [step_fn_] likewise yields what it did.  The generator of the fabric, the shuffle of
    [std::shuffle] and the sockets of the kernel are parameters.  Loops without a bound
    in the source take [fuel]; [deliveries] is a ghost: the instants at which the events
    of the trace were applied. *)

From stdpp Require Import base option gmap list sorting.
From Stdlib Require Import ZArith Lia Sorted.
From S2P Require Import Prelude Backend Sim.
Local Open Scope Z_scope.

Module SimRuntime.

(** [TimePoint::max()]. *)
Definition time_max : Z := 2 ^ 63 - 1.

(** What code that holds the driver can ask of it. *)
Inductive Hook {Prob : Type} :=
  | HPost (shard : Z) (task : nat) (delay : Z)
  | HInject (f : @Sim.FaultProfile Prob)
  | HPartition (link : nat) (window : Z).
Arguments Hook : clear implicits.

(** What an iteration of a shard does to its backend. *)
Inductive Act {Prob : Type} :=
  | AAttach (fd : Z) (i : Interest) (u : UserData)
  | ADetach (fd : Z)
  | ARecv (u : UserData) (fd len : Z)
  | ASendv (u : UserData) (fd : Z) (iov : list (list Z))
  | AAccept (u : UserData) (fd : Z)
  | AConnect (u : UserData) (fd port : Z)
  | ACancel (u : UserData)
  | AWait (cap : nat)
  | AWake
  | AHook (h : Hook Prob).
Arguments Act : clear implicits.

(** An event manager as the driver sees it; [poll_once] gets its number and the world. *)
Class Shard (Rng Prob EM : Type) := {
  new_em : nat -> EM;
  poll_once : nat -> EM -> @Sim.World Rng Prob -> bool * list (Act Prob) * EM;
  next_wakeup : EM -> Z * EM;
  mailbox_post : nat -> EM -> EM;
  clock_set : Z -> EM -> EM }.

(** ** The trace *)

Record EventRecord := mkRecord {
  r_seq : Z; r_due : Z; r_kind : Z; r_fd : Z; r_aux : Z; r_hash : Z; r_shard : Z }.

Definition fnv1a (b : list Z) : Z :=
  foldl (fun h c => u64 (Z.lxor h (u8 c) * 1099511628211)) 1469598103934665603 b.

(** The members [kind], [fd], [aux], [bytes] and [shard] of an event; those that
    [push]'s caller left alone have the values of the declaration. *)
Definition event_fields (k : Sim.SimKind) : Z * Z * Z * list Z * Z :=
  let size_max := 2 ^ 64 - 1 in
  match k with
  | Sim.KBytes _ fd bs => (0, fd, 0, bs, size_max)
  | Sim.KAccept _ fd peer => (1, fd, peer, [], size_max)
  | Sim.KConnectDone _ fd _ r => (2, fd, r, [], size_max)
  | Sim.KPeerFin _ fd => (3, fd, 0, [], size_max)
  | Sim.KPeerReset _ fd e => (4, fd, e, [], size_max)
  | Sim.KPartitionEnd l => (5, -1, Z.of_nat l, [], size_max)
  | Sim.KPost s _ => (6, -1, 0, [], s)
  end.

Definition record (ev : Sim.SimEvent) : EventRecord :=
  let '(k, fd, aux, bs, s) := event_fields (Sim.kind ev) in
  mkRecord (Sim.seq ev) (Sim.due ev) (u8 k) (u32 fd) (u32 aux) (fnv1a bs) (u32 s).

Section Driver.
Context {Rng D Prob EM Shuffle : Type}
        (rng_draw : Rng -> D * Rng) (below : D -> Prob -> bool) (positive : Prob -> bool) (scale : D -> Z -> Z)
        (socket : Z -> Z) (port_of : Z -> Z)
        (shuffle : list nat -> Shuffle -> list nat * Shuffle)
        `{SH : Shard Rng Prob EM}.

Abbreviation World := (@Sim.World Rng Prob).
Abbreviation SimNet := (@Sim.SimNet Rng Prob).

Record SimRuntime := mkSim {
  world : World;                 (* [net_] and the backends of the shards *)
  rng_ : Shuffle;
  shards_ : list EM;
  order_ : list nat;
  trace_ : list EventRecord;
  now_ : Z;
  steps_ : Z;
  invariants_held_ : bool;
  deliveries : list Z }.

Definition set_world w r := mkSim w (rng_ r) (shards_ r) (order_ r) (trace_ r) (now_ r) (steps_ r) (invariants_held_ r) (deliveries r).
Definition set_shards x r := mkSim (world r) (rng_ r) x (order_ r) (trace_ r) (now_ r) (steps_ r) (invariants_held_ r) (deliveries r).
Definition set_order x g r := mkSim (world r) g (shards_ r) x (trace_ r) (now_ r) (steps_ r) (invariants_held_ r) (deliveries r).
Definition set_steps x r := mkSim (world r) (rng_ r) (shards_ r) (order_ r) (trace_ r) (now_ r) x (invariants_held_ r) (deliveries r).
Definition set_held x r := mkSim (world r) (rng_ r) (shards_ r) (order_ r) (trace_ r) (now_ r) (steps_ r) x (deliveries r).
Definition net_of (r : SimRuntime) : SimNet := Sim.net (world r).

(** ** Operations on the world *)

Definition hook (h : Hook Prob) (w : World) : World :=
  match h with
  | HPost s t d => Sim.upd_net (Sim.post s t d) w
  | HInject f => Sim.upd_net (Sim.set_faults f) w
  | HPartition l t => Sim.upd_net (Sim.partition l t) w
  end.

Definition act (i : Z) (w : World) (a : Act Prob) : World :=
  match a with
  | AAttach fd n u => Sim.upd_be i (Sim.sim_attach fd n u) w
  | ADetach fd => Sim.sim_detach rng_draw scale i fd w
  | ARecv u fd len => Sim.upd_be i (Sim.submit_recv u fd len) w
  | ASendv u fd iov => Sim.submit_sendv rng_draw below positive scale i u fd iov w
  | AAccept u fd => Sim.submit_accept port_of i u fd w
  | AConnect u fd port => Sim.submit_connect rng_draw scale socket i u fd port w
  | ACancel u => Sim.upd_be i (Sim.sim_cancel u) w
  | AWait cap => Sim.upd_be i (fun b => snd (Sim.sim_wait cap b)) w
  | AWake => Sim.upd_be i Sim.sim_wake w
  | AHook h => hook h w
  end.

(** ** Construction *)

Definition SimRuntime_ctor (net : SimNet) (g : Shuffle) : SimRuntime :=
  mkSim (Sim.mkWorld ∅ net 0) g [] [] [] 0 0 true [].

(** [setup] is a first piece of the application's code, run on the new shard. *)
Definition add_shard (setup : EM -> World -> list (Act Prob) * EM) (r : SimRuntime) : SimRuntime :=
  let i := length (shards_ r) in
  let em := clock_set (now_ r) (new_em i) in
  let w := Sim.be_put (Z.of_nat i) (Sim.set_net true Sim.sim_backend0) (world r) in
  let '(acts, em) := setup em w in
  let w := foldl (act (Z.of_nat i)) w acts in
  set_order (order_ r ++ [i]) (rng_ r) (set_shards (shards_ r ++ [em]) (set_world w r)).

Definition add_shards (n : nat) (setup : EM -> World -> list (Act Prob) * EM) (r : SimRuntime) : SimRuntime :=
  Nat.iter n (add_shard setup) r.

Definition post (shard : Z) (task : nat) (delay : Z) (r : SimRuntime) : SimRuntime :=
  set_world (hook (HPost shard task delay) (world r)) r.
Definition inject (f : Sim.FaultProfile) (r : SimRuntime) : SimRuntime :=
  set_world (hook (HInject f) (world r)) r.

(** ** Driving *)

Definition set_time (t : Z) (r : SimRuntime) : SimRuntime :=
  mkSim (Sim.upd_net (Sim.set_now t) (world r)) (rng_ r) (map (clock_set t) (shards_ r)) (order_ r) (trace_ r) t
    (steps_ r) (invariants_held_ r) (deliveries r).

Definition poll (i : nat) (r : SimRuntime) : bool * SimRuntime :=
  match shards_ r !! i with
  | None => (false, r)
  | Some em =>
      let '(b, acts, em) := poll_once i em (world r) in
      (b, set_shards (<[i := em]> (shards_ r)) (set_world (foldl (act (Z.of_nat i)) (world r) acts) r))
  end.

(** The inner loop of [drain_all]. *)
Fixpoint poll_shard (n : nat) (i : nat) (r : SimRuntime) : bool * SimRuntime :=
  match n with
  | O => (false, r)
  | S n => let '(b, r) := poll i r in if b then (true, snd (poll_shard n i r)) else (false, r)
  end.

Fixpoint drain_order (l : list nat) (any : bool) (r : SimRuntime) : bool * SimRuntime :=
  match l with
  | [] => (any, r)
  | i :: l => let '(b, r) := poll_shard 1024 i r in drain_order l (any || b) r
  end.

Definition drain_all (r : SimRuntime) : bool * SimRuntime :=
  let '(ord, g) := shuffle (order_ r) (rng_ r) in drain_order ord false (set_order ord g r).

Definition apply (ev : Sim.SimEvent) (r : SimRuntime) : SimRuntime :=
  match Sim.kind ev with
  | Sim.KPost s t =>
      if Z.of_nat (length (shards_ r)) <=? s then r
      else set_shards (alter (mailbox_post t) (Z.to_nat s) (shards_ r)) r
  | _ => set_world (Sim.apply ev (world r)) r
  end.

(** The hook of [on_step]: what it asks of the driver, and whether it called
    [mark_invariant_broken]. *)
Context (step_fn_ : option (SimRuntime -> list (Hook Prob) * bool)).

Definition after_step (r : SimRuntime) : SimRuntime :=
  let r := set_steps (u64 (steps_ r + 1)) r in
  match step_fn_ with
  | None => r
  | Some f =>
      let '(hs, broken) := f r in
      set_held (invariants_held_ r && negb broken) (set_world (foldl (fun w h => hook h w) (world r) hs) r)
  end.

(** [pop], [record] and [apply] of the next event. *)
Definition take_event (r : SimRuntime) : SimRuntime :=
  match Sim.pop (net_of r) with
  | None => r
  | Some (ev, n) =>
      apply ev (mkSim (Sim.upd_net (fun _ => n) (world r)) (rng_ r) (shards_ r) (order_ r) (trace_ r ++ [record ev])
        (now_ r) (steps_ r) (invariants_held_ r) (deliveries r ++ [now_ r]))
  end.

Definition deliver (r : SimRuntime) : SimRuntime := after_step (snd (drain_all (take_event r))).

(** [while (net_.due_next(now_))], and whether it delivered anything. *)
Fixpoint due_loop (fuel : nat) (progressed : bool) (r : SimRuntime) : option (bool * SimRuntime) :=
  if Sim.due_next (now_ r) (net_of r) then
    match fuel with O => None | S fuel => due_loop fuel true (deliver r) end
  else Some (progressed, r).

(** The minimum of [t] and the shards' next wake-ups. *)
Fixpoint min_wakeup (t : Z) (l : list EM) : Z * list EM :=
  match l with
  | [] => (t, [])
  | em :: l =>
      let '(w, em) := next_wakeup em in
      let '(t, l) := min_wakeup (Z.min w t) l in (t, em :: l)
  end.

Definition next_due (r : SimRuntime) : Z := match Sim.next_due (net_of r) with Some d => d | None => time_max end.

(** The end of an iteration that found nothing to do. *)
Definition jump (next : Z) (r : SimRuntime) : SimRuntime :=
  after_step (set_time (if next <=? now_ r then now_ r + 1 else next) r).

Fixpoint run_until (fuel : nat) (target : Z) (r : SimRuntime) : option SimRuntime :=
  if now_ r <? target then
    match fuel with
    | O => None
    | S fuel =>
        '(_, r) ← due_loop fuel false r;
        let '(any, r) := drain_all r in
        if any then run_until fuel target r
        else
          let '(next, l) := min_wakeup (Z.min (next_due r) target) (shards_ r) in
          run_until fuel target (jump next (set_shards l r))
    end
  else Some (set_time target r).

Definition run_for (fuel : nat) (d : Z) (r : SimRuntime) : option SimRuntime := run_until fuel (now_ r + d) r.

Fixpoint run_until_idle (fuel : nat) (max_steps : nat) (r : SimRuntime) : option (bool * SimRuntime) :=
  match max_steps with
  | O => Some (false, r)
  | S max_steps =>
      '(progressed, r) ← due_loop fuel false r;
      let '(any, r) := drain_all r in
      if any || progressed then run_until_idle fuel max_steps r
      else
        let '(next, l) := min_wakeup time_max (shards_ r) in
        let r := set_shards l r in
        let next := Z.min (next_due r) next in
        if next =? time_max then Some (true, r) else run_until_idle fuel max_steps (jump next r)
  end.

End Driver.

(** ** What an operation does to the queue of events *)

Section Growth.
Context {Rng D Prob : Type}
        (rng_draw : Rng -> D * Rng) (below : D -> Prob -> bool) (positive : Prob -> bool) (scale : D -> Z -> Z)
        (socket : Z -> Z) (port_of : Z -> Z).
Abbreviation World := (@Sim.World Rng Prob).
Abbreviation SimNet := (@Sim.SimNet Rng Prob).

(** Profiles, hooks and operations without negative delays. *)
Definition sane_faults (f : @Sim.FaultProfile Prob) : Prop :=
  0 <= Sim.min_latency f /\ 0 <= Sim.slow_latency f /\ 0 <= fst (Sim.partition_window f) <= snd (Sim.partition_window f).
Definition sane_hook (h : Hook Prob) : Prop :=
  match h with HPost _ _ d => 0 <= d | HInject f => sane_faults f | HPartition _ t => 0 <= t end.
Definition sane_act (a : Act Prob) : Prop := match a with AHook h => sane_hook h | _ => True end.

(** The queue is as it was. *)
Definition alike (n n' : SimNet) : Prop :=
  Sim.q_ n' = Sim.q_ n /\ Sim.seq_ n' = Sim.seq_ n /\ Sim.now_ n' = Sim.now_ n
  /\ (sane_faults (Sim.faults_ n) -> sane_faults (Sim.faults_ n')).

(** The queue gains events that are not due before the present. *)
Inductive grown (n : SimNet) : SimNet -> Prop :=
  | grown_refl : grown n n
  | grown_alike n1 n2 : grown n n1 -> alike n1 n2 -> grown n n2
  | grown_push n1 t k : grown n n1 -> Sim.now_ n1 <= t -> grown n (Sim.push t k n1).

Lemma grown_trans n1 n2 n3 : grown n1 n2 -> grown n2 n3 -> grown n1 n3.
Proof. intros H. induction 1; [done|by eapply grown_alike|by apply grown_push]. Qed.

Lemma alike_grown n n' : alike n n' -> grown n n'.
Proof. apply grown_alike, grown_refl. Qed.

Lemma grown_now n n' : grown n n' -> Sim.now_ n' = Sim.now_ n.
Proof. induction 1 as [|? ? ? ? (_ & _ & -> & _)|]; done. Qed.

Lemma grown_sane n n' : grown n n' -> sane_faults (Sim.faults_ n) -> sane_faults (Sim.faults_ n').
Proof. induction 1 as [|? ? ? ? (_ & _ & _ & ?)|]; auto. Qed.

Context (scale_nonneg : forall d n, 0 <= n -> 0 <= scale d n).

Lemma alike_drew n n' : Sim.drew n n' -> alike n n'.
Proof. by intros [g ->]. Qed.

Lemma latency_ok n d n' :
  sane_faults (Sim.faults_ n) -> Sim.latency rng_draw scale n = (d, n') ->
  0 <= d /\ alike n n' /\ sane_faults (Sim.faults_ n').
Proof.
  intros Hs E. pose proof (Sim.latency_drew rng_draw scale n) as Hd. rewrite E in Hd. cbn [snd] in Hd.
  apply alike_drew in Hd as Ha. split; [|split; [done|by apply Ha]]. unfold Sim.latency in E.
  destruct (Z.leb_spec (Sim.max_latency (Sim.faults_ n)) (Sim.min_latency (Sim.faults_ n))).
  - injection E as <- <-. apply Hs.
  - destruct (Sim.draw rng_draw n) as [x n1]. injection E as <- <-. destruct Hs as [Hm _].
    pose proof (scale_nonneg x (Sim.max_latency (Sim.faults_ n) - Sim.min_latency (Sim.faults_ n))). lia.
Qed.

(** A latency is drawn and an event scheduled after it. *)
Lemma grown_after n0 n d n' k :
  sane_faults (Sim.faults_ n) -> grown n0 n -> Sim.latency rng_draw scale n = (d, n') ->
  grown n0 (Sim.push (Sim.now_ n' + d) k n') /\ sane_faults (Sim.faults_ n').
Proof.
  intros Hs Hg E. destruct (latency_ok n d n' Hs E) as (Hd & Ha & Hs'). split; [|done].
  apply grown_push; [by eapply grown_alike|lia].
Qed.

Lemma reset_grown src fd dst dst_fd n :
  sane_faults (Sim.faults_ n) -> grown n (Sim.schedule_reset rng_draw scale src fd dst dst_fd n).
Proof.
  intros Hs. unfold Sim.schedule_reset. destruct (Sim.latency _ _ n) as [d1 n1] eqn:E1.
  destruct (grown_after n n d1 n1 (Sim.KPeerReset dst dst_fd 104) Hs (grown_refl n) E1) as [H1 Hs1].
  destruct (Sim.latency _ _ (Sim.push _ _ n1)) as [d2 n2] eqn:E2.
  edestruct (fun Hs2 => grown_after n _ d2 n2 (Sim.KPeerReset src fd 104) Hs2 H1 E2) as [H2 _]; [exact Hs1|].
  eapply grown_alike; [exact H2|done].
Qed.

Lemma partition_start_grown i n :
  sane_faults (Sim.faults_ n) -> grown n (Sim.start_partition rng_draw scale i n).
Proof.
  intros (Hm & Hsl & Hw). unfold Sim.start_partition. cbn [Sim.faults_ Sim.set_links].
  destruct (Sim.partition_window (Sim.faults_ n)) as [lo hi]. cbn [fst snd] in Hw.
  destruct (Sim.draw rng_draw _) as [d n1] eqn:E. set (n0 := Sim.set_links _ n) in E.
  pose proof (Sim.draw_drew rng_draw n0) as Hd. rewrite E in Hd. apply alike_drew in Hd.
  assert (grown n n1) as H1 by (eapply grown_alike; [by apply (alike_grown n n0)|exact Hd]).
  pose proof (scale_nonneg d (hi - lo) ltac:(lia)) as Hd0.
  eapply grown_alike; [apply (grown_push n n1 (Sim.now_ n1 + (lo + scale d (hi - lo))) (Sim.KPartitionEnd i) H1); lia|done].
Qed.

Lemma fragment_grown fuel n0 i frags dst fd t bs n :
  0 <= i -> Sim.now_ n <= t -> grown n0 n -> grown n0 (snd (Sim.fragment rng_draw scale fuel i frags dst fd t bs n)).
Proof.
  revert i bs n. induction fuel as [|fuel IH]; intros i bs n Hi Ht Hg; cbn [Sim.fragment]; [done|].
  destruct (_ && _); [|done].
  destruct (if _ =? frags then _ else _) as [k n1] eqn:E.
  assert (alike n n1) as Ha.
  { destruct (i + 1 =? frags); [by injection E as <- <-|]. pose proof (Sim.draw_drew rng_draw n) as Hd.
    destruct (Sim.draw rng_draw n). injection E as <- <-. by apply alike_drew. }
  destruct Ha as (Hq & Hseq & Hn & Hf). apply IH; [lia|cbn; lia|].
  apply grown_push; [by eapply grown_alike|lia].
Qed.

Lemma carry_grown src fd i l dst dst_fd bs n :
  sane_faults (Sim.faults_ n) -> grown n (Sim.carry rng_draw below positive scale src fd i l dst dst_fd bs n).
Proof.
  intros Hs. unfold Sim.carry. destruct (Sim.latency _ _ n) as [d n1] eqn:E1.
  destruct (latency_ok n d n1 Hs E1) as (Hd & H1 & Hs1).
  destruct (Sim.chance _ _ _ _ n1) as [slow n2] eqn:E2.
  pose proof (Sim.chance_drew rng_draw below positive (Sim.slow_peer (Sim.faults_ n1)) n1) as H2. rewrite E2 in H2.
  apply alike_drew in H2. pose proof (grown_alike n n1 n2 (alike_grown _ _ H1) H2) as Hg.
  pose proof (grown_sane _ _ Hg Hs) as (_ & Hsl & _). cbn zeta.
  set (t := Z.max _ _). assert (Sim.now_ n2 <= t) as Ht by (unfold t; destruct slow; lia).
  destruct (if _ && (1 <? _) then _ else _) as [k n3] eqn:E3.
  apply (grown_alike n n3); [|done]. destruct (Sim.partial_reads (Sim.faults_ n2) && (1 <? zlen bs)).
  - destruct (Sim.draw rng_draw n2) as [x n4] eqn:E4. pose proof (Sim.draw_drew rng_draw n2) as H4. rewrite E4 in H4.
    apply alike_drew in H4. pose proof (fragment_grown 4 n 0 (2 + scale x 3) dst dst_fd t bs n4) as Hf.
    rewrite E3 in Hf. cbn [snd] in Hf, H4. apply Hf; [lia| |by eapply grown_alike]. by destruct H4 as (_ & _ & -> & _).
  - injection E3 as <- <-. by apply grown_push.
Qed.

Lemma deliver_bytes_grown src fd iov n :
  sane_faults (Sim.faults_ n) -> grown n (Sim.deliver_bytes rng_draw below positive scale src fd iov n).
Proof.
  intros Hs. unfold Sim.deliver_bytes. destruct (Sim.link_for _ _ _) as [[[i l] [dst dst_fd]]|]; [|apply grown_refl].
  destruct (Sim.fate _ _ _ l n) as [f n1] eqn:E. pose proof (Sim.fate_drew rng_draw below positive l n) as Hd.
  rewrite E in Hd. apply alike_drew in Hd as Ha. apply alike_grown in Ha as Hg. pose proof (grown_sane _ _ Hg Hs) as Hs1.
  destruct f; [by eapply grown_alike|..]; (eapply grown_trans; [exact Hg|]);
    [by apply reset_grown|by apply partition_start_grown|by apply carry_grown].
Qed.

Lemma net_detach_grown src fd n :
  sane_faults (Sim.faults_ n) -> grown n (Sim.net_detach rng_draw scale src fd n).
Proof.
  intros Hs. unfold Sim.net_detach. set (n1 := Sim.set_listeners _ n). assert (grown n n1) as H1 by by apply alike_grown.
  destruct (Sim.link_for _ _ _) as [[[i l] [dst dst_fd]]|]; [|done].
  set (n2 := Sim.set_fd_link _ n1). assert (grown n n2) as H2 by by eapply grown_alike.
  destruct (Sim.partitioned l); [done|]. destruct (Sim.latency _ _ n2) as [d n3] eqn:E3.
  exact (proj1 (grown_after n n2 d n3 (Sim.KPeerFin dst dst_fd) Hs H2 E3)).
Qed.

Lemma net_connect_grown src fd port u w :
  sane_faults (Sim.faults_ (Sim.net w)) ->
  grown (Sim.net w) (Sim.net (Sim.net_connect rng_draw scale socket src fd port u w)).
Proof.
  intros Hs. unfold Sim.net_connect. destruct (Sim.listeners_ _ !! _) as [[srv lfd]|].
  - destruct (Sim.add_fd socket srv w) as [peer w1] eqn:E1.
    assert (Sim.net w1 = Sim.net w) as Hw by (unfold Sim.add_fd in E1; destruct (_ <? 0); by injection E1 as <- <-).
    cbn [Sim.net Sim.upd_net]. rewrite Hw. set (n1 := Sim.set_fd_link _ _). assert (grown (Sim.net w) n1) as H1 by by apply alike_grown.
    destruct (Sim.latency _ _ n1) as [d n2] eqn:E2.
    destruct (grown_after (Sim.net w) n1 d n2 (Sim.KConnectDone src fd u 0) Hs H1 E2) as [H2 _].
    destruct (latency_ok n1 d n2 Hs E2) as (Hd & _ & _). apply grown_push; [exact H2|cbn; lia].
  - cbn [Sim.net Sim.upd_net]. destruct (Sim.latency _ _ (Sim.net w)) as [d n2] eqn:E2.
    exact (proj1 (grown_after _ _ d n2 (Sim.KConnectDone src fd u (-111)) Hs (grown_refl _) E2)).
Qed.

Lemma hook_grown h w : sane_hook h -> grown (Sim.net w) (Sim.net (hook h w)).
Proof.
  destruct h as [s t d|f|l t]; cbn [sane_hook hook Sim.net Sim.upd_net]; intros Hh.
  - apply grown_push; [apply grown_refl|lia].
  - by apply alike_grown.
  - unfold Sim.partition. destruct (_ <=? l)%nat; [apply grown_refl|]. apply grown_push; [by apply alike_grown|cbn; lia].
Qed.

Lemma act_grown i w a :
  sane_faults (Sim.faults_ (Sim.net w)) -> sane_act a ->
  grown (Sim.net w) (Sim.net (act rng_draw below positive scale socket port_of i w a)).
Proof.
  intros Hs Ha. destruct a; cbn [act sane_act] in *; try apply grown_refl.
  - unfold Sim.sim_detach. cbn [Sim.net Sim.upd_be Sim.be_put Sim.set_bes].
    destruct (Sim.net_ _); [by apply net_detach_grown|apply grown_refl].
  - unfold Sim.submit_sendv. destruct (_ && _); [by apply deliver_bytes_grown|apply grown_refl].
  - unfold Sim.submit_accept. destruct (Sim.net_ _); [|apply grown_refl]. cbn [Sim.net Sim.upd_net].
    unfold Sim.listen. destruct (_ =? 0); [apply grown_refl|by apply alike_grown].
  - unfold Sim.submit_connect. destruct (Sim.net_ _); [|apply grown_refl].
    exact (net_connect_grown i fd port u (Sim.upd_be i _ w) Hs).
  - by apply hook_grown.
Qed.

(** A sequence of operations, each of which schedules nothing in the past. *)
Lemma fold_grown {A} (f : World -> A -> World) (ok : A -> Prop) l w :
  (forall w a, sane_faults (Sim.faults_ (Sim.net w)) -> ok a -> grown (Sim.net w) (Sim.net (f w a))) ->
  sane_faults (Sim.faults_ (Sim.net w)) -> Forall ok l -> grown (Sim.net w) (Sim.net (foldl f w l)).
Proof.
  intros Hf. revert w. induction l as [|a l IH]; intros w Hs Hl; cbn [foldl]; [apply grown_refl|].
  apply Forall_cons in Hl as [Ha Hl]. pose proof (Hf w a Hs Ha) as H1.
  eapply grown_trans; [exact H1|]. apply IH; [by eapply grown_sane|done].
Qed.

End Growth.

(** ** The timeline *)

Section Timeline.
Context {Rng D Prob EM Shuffle : Type}
        (rng_draw : Rng -> D * Rng) (below : D -> Prob -> bool) (positive : Prob -> bool) (scale : D -> Z -> Z)
        (socket : Z -> Z) (port_of : Z -> Z)
        (shuffle : list nat -> Shuffle -> list nat * Shuffle)
        `{SH : Shard Rng Prob EM}.
Abbreviation SimNet := (@Sim.SimNet Rng Prob).
Abbreviation Driver := (@SimRuntime Rng Prob EM Shuffle).
Context (step_fn_ : option (Driver -> list (Hook Prob) * bool)).

(** The numbers of the first [n] events. *)
Definition numbers (n : nat) : list Z := map (fun k => u64 (Z.of_nat k)) (List.seq 0 n).

(** The trace and the queue at instant [now]: both are in order of due times and the
    trace comes first; no event was applied early, nor more than a nanosecond late; and
    every number given to an event is that of one event, recorded or queued. *)
Record timeline (now : Z) (trace : list EventRecord) (times : list Z) (n : SimNet) : Prop := {
  tl_now : Sim.now_ n = now;
  tl_sane : sane_faults (Sim.faults_ n);
  tl_order : Sim.in_order (Sim.q_ n);
  tl_late : Forall (fun ev => now - 1 <= Sim.due ev) (Sim.q_ n);
  tl_trace : StronglySorted Z.le (map r_due trace);
  tl_front : Forall (fun d => d <= now /\ Forall (fun ev => d <= Sim.due ev) (Sim.q_ n)) (map r_due trace);
  tl_on_time : Forall2 (fun rec t => r_due rec <= t <= r_due rec + 1) trace times;
  tl_times : StronglySorted Z.le times;
  tl_past : Forall (fun t => t <= now) times;
  tl_numbers : exists N, Sim.seq_ n = u64 (Z.of_nat N) /\ map r_seq trace ++ map Sim.seq (Sim.q_ n) ≡ₚ numbers N }.

(** Nothing in the queue is overdue. *)
Definition fresh (now : Z) (n : SimNet) : Prop := Forall (fun ev => now <= Sim.due ev) (Sim.q_ n).

Definition on_time (r : Driver) : Prop := timeline (now_ r) (trace_ r) (deliveries r) (net_of r).

Lemma insert_perm ev q : Sim.insert_ev ev q ≡ₚ ev :: q.
Proof.
  induction q as [|x q IH]; cbn [Sim.insert_ev]; [done|]. destruct (Sim.later x ev); [done|].
  rewrite IH. apply Permutation_swap.
Qed.

Lemma numbers_snoc n : numbers (S n) = numbers n ++ [u64 (Z.of_nat n)].
Proof. unfold numbers. by rewrite seq_S, map_app. Qed.

Lemma timeline_alike now tr ts n n' : alike n n' -> timeline now tr ts n -> timeline now tr ts n'.
Proof.
  intros (Hq & Hs & Hn & Hf) []. constructor; try done; rewrite ?Hq, ?Hs, ?Hn; auto.
Qed.

Lemma timeline_push now tr ts t k n : now <= t -> timeline now tr ts n -> timeline now tr ts (Sim.push t k n).
Proof.
  intros Ht []. unfold Sim.push. constructor; cbn [Sim.now_ Sim.set_seq Sim.set_q Sim.faults_ Sim.q_ Sim.seq_]; try done.
  - by apply Sim.insert_in_order.
  - rewrite insert_perm. constructor; [cbn; lia|done].
  - eapply Forall_impl; [exact tl_front0|]. cbn beta. intros d [Hd Hq]. split; [done|]. rewrite insert_perm.
    constructor; [cbn; lia|done].
  - destruct tl_numbers0 as (N & HN & Hp). exists (S N). rewrite HN. split.
    + rewrite Nat2Z.inj_succ. unfold u64. by rewrite Zplus_mod_idemp_l.
    + rewrite insert_perm. cbn [map Sim.seq]. rewrite numbers_snoc, <- Hp.
      rewrite <- Permutation_middle, <- Permutation_cons_append. done.
Qed.

Lemma timeline_grown now tr ts n n' : grown n n' -> timeline now tr ts n -> timeline now tr ts n'.
Proof.
  induction 1 as [|n1 n2 _ IH Ha|n1 t k _ IH Ht]; intros Htl; [done|by eapply timeline_alike; [|apply IH]|].
  specialize (IH Htl). apply timeline_push; [|done]. by rewrite <- (tl_now _ _ _ _ IH).
Qed.

Lemma fresh_grown n n' : grown n n' -> fresh (Sim.now_ n) n -> fresh (Sim.now_ n) n'.
Proof.
  unfold fresh. induction 1 as [|n1 n2 _ IH (Hq & _)|n1 t k Hg IH Ht]; intros Hf; [done|rewrite Hq; auto|].
  cbn [Sim.q_ Sim.push Sim.set_seq Sim.set_q]. rewrite insert_perm. constructor; [|by apply IH].
  cbn [Sim.due]. by rewrite <- (grown_now _ _ Hg).
Qed.

Lemma sorted_snoc (l : list Z) x : StronglySorted Z.le l -> Forall (fun y => y <= x) l -> StronglySorted Z.le (l ++ [x]).
Proof.
  induction 1 as [|y l Hl IH Hy]; intros Hx; cbn [app]; [by repeat constructor|].
  apply Forall_cons in Hx as [Hyx Hx]. constructor; [by apply IH|]. apply Forall_app. split; [done|by repeat constructor].
Qed.

(** The next due event moves from the queue to the trace. *)
Lemma timeline_pop now tr ts n ev q :
  Sim.q_ n = ev :: q -> Sim.due ev <= now -> timeline now tr ts n ->
  timeline now (tr ++ [record ev]) (ts ++ [now]) (Sim.set_q q n).
Proof.
  intros Hq Hd []. rewrite Hq in *. apply Forall_cons in tl_late0 as [Hl Hls].
  assert (r_due (record ev) = Sim.due ev /\ r_seq (record ev) = Sim.seq ev) as [Er Es]
    by (unfold record; by destruct (event_fields _) as [[[[? ?] ?] ?] ?]).
  assert (Forall (fun x => Sim.due ev <= Sim.due x) q) as Hev by by inversion tl_order0.
  constructor; cbn [Sim.now_ Sim.set_q Sim.faults_ Sim.q_ Sim.seq_]; rewrite ?map_app; cbn [map]; rewrite ?Er, ?Es; try done.
  - by inversion tl_order0.
  - apply sorted_snoc; [done|]. eapply Forall_impl; [exact tl_front0|]. cbn beta. intros d [_ Hd']. by apply Forall_cons in Hd' as [? _].
  - apply Forall_app. split; [|by repeat constructor]. eapply Forall_impl; [exact tl_front0|]. cbn beta.
    intros d [? Hd']. by apply Forall_cons in Hd' as [_ ?].
  - apply Forall2_app; [done|]. constructor; [rewrite Er; lia|done].
  - by apply sorted_snoc.
  - apply Forall_app. split; [done|]. by repeat constructor.
  - destruct tl_numbers0 as (N & HN & Hp). exists N. split; [done|]. rewrite <- Hp. by rewrite <- app_assoc.
Qed.

(** Time moves on to an instant that no queued event is overdue at by more than a
    nanosecond. *)
Lemma timeline_tick now tr ts n t :
  now <= t -> Forall (fun ev => t - 1 <= Sim.due ev) (Sim.q_ n) -> timeline now tr ts n -> timeline t tr ts (Sim.set_now t n).
Proof.
  intros Ht Hq []. constructor; cbn [Sim.now_ Sim.set_now Sim.faults_ Sim.q_ Sim.seq_]; try done.
  - eapply Forall_impl; [exact tl_front0|]. cbn beta. intros d [? ?]. split; [lia|done].
  - eapply Forall_impl; [exact tl_past0|]. cbn beta. lia.
Qed.

(** ** The steps of the driver *)

(** What the driver relies on: draws scale to numbers that are not negative, and
    neither shards nor the hook schedule anything in the past. *)
Context (scale_nonneg : forall d n, 0 <= n -> 0 <= scale d n)
        (polite : forall i em w, Forall sane_act (snd (fst (poll_once (EM:=EM) i em w))))
        (polite_hook : forall f r, step_fn_ = Some f -> Forall sane_hook (fst (f r))).

Abbreviation act := (act rng_draw below positive scale socket port_of).
Abbreviation poll := (poll rng_draw below positive scale socket port_of).
Abbreviation poll_shard := (poll_shard rng_draw below positive scale socket port_of).
Abbreviation drain_order := (drain_order rng_draw below positive scale socket port_of).
Abbreviation drain_all := (drain_all rng_draw below positive scale socket port_of shuffle).
Abbreviation deliver := (deliver rng_draw below positive scale socket port_of shuffle step_fn_).
Abbreviation due_loop := (due_loop rng_draw below positive scale socket port_of shuffle step_fn_).
Abbreviation run_until := (run_until rng_draw below positive scale socket port_of shuffle step_fn_).
Abbreviation run_until_idle := (run_until_idle rng_draw below positive scale socket port_of shuffle step_fn_).
Abbreviation after_step := (after_step step_fn_).
Abbreviation jump := (jump step_fn_).

(** A part of the driver that only lets shards and hooks act. *)
Record busy (r r' : Driver) : Prop := {
  b_now : now_ r' = now_ r;
  b_trace : trace_ r' = trace_ r;
  b_times : deliveries r' = deliveries r;
  b_grown : sane_faults (Sim.faults_ (net_of r)) -> grown (net_of r) (net_of r') }.

Lemma busy_refl r : busy r r.
Proof. constructor; try done. intros _. apply grown_refl. Qed.

Lemma busy_trans r1 r2 r3 : busy r1 r2 -> busy r2 r3 -> busy r1 r3.
Proof.
  intros [] []. constructor; [congruence..|]. intros Hs. specialize (b_grown0 Hs).
  eapply grown_trans; [exact b_grown0|]. by apply b_grown1, (grown_sane _ _ b_grown0).
Qed.

Lemma busy_on_time r r' : busy r r' -> on_time r -> on_time r'.
Proof.
  intros [Hn Ht Hd Hg] H. unfold on_time. rewrite Hn, Ht, Hd. eapply timeline_grown; [|exact H].
  apply Hg, (tl_sane _ _ _ _ H).
Qed.

Lemma busy_fresh r r' : busy r r' -> on_time r -> fresh (now_ r) (net_of r) -> fresh (now_ r') (net_of r').
Proof.
  intros [Hn _ _ Hg] H Hf. rewrite Hn, <- (tl_now _ _ _ _ H). apply fresh_grown; [apply Hg, (tl_sane _ _ _ _ H)|].
  by rewrite (tl_now _ _ _ _ H).
Qed.

Lemma acts_busy i l r : Forall sane_act l -> busy r (set_world (foldl (act i) (world r) l) r).
Proof.
  intros Hl. constructor; try done. intros Hs. unfold net_of. cbn [world set_world].
  apply (fold_grown (act i) sane_act); [|done..]. intros w a. by apply act_grown.
Qed.

Lemma hooks_busy l r : Forall sane_hook l -> busy r (set_world (foldl (fun w h => hook h w) (world r) l) r).
Proof.
  intros Hl. constructor; try done. intros Hs. unfold net_of. cbn [world set_world].
  apply (fold_grown (fun w h => hook h w) sane_hook); [|done..]. intros w h _. apply hook_grown.
Qed.

Lemma poll_busy i r : busy r (snd (poll i r)).
Proof.
  unfold SimRuntime.poll. destruct (shards_ r !! i) as [em|]; [|apply busy_refl].
  pose proof (polite i em (world r)) as Hp. destruct (poll_once i em (world r)) as [[b acts] em']. cbn [fst snd] in *.
  eapply busy_trans; [by apply (acts_busy (Z.of_nat i) acts)|]. constructor; try done. intros _. apply grown_refl.
Qed.

Lemma poll_shard_busy n i r : busy r (snd (poll_shard n i r)).
Proof.
  revert r. induction n as [|n IH]; intros r; cbn [SimRuntime.poll_shard]; [apply busy_refl|].
  pose proof (poll_busy i r) as H1. destruct (poll i r) as [b r1]. destruct b; [|done]. by eapply busy_trans.
Qed.

Lemma drain_order_busy l any r : busy r (snd (drain_order l any r)).
Proof.
  revert any r. induction l as [|i l IH]; intros any r; cbn [SimRuntime.drain_order]; [apply busy_refl|].
  pose proof (poll_shard_busy 1024 i r) as H1. destruct (poll_shard 1024 i r) as [b r1]. by eapply busy_trans.
Qed.

Lemma drain_all_busy r : busy r (snd (drain_all r)).
Proof.
  unfold SimRuntime.drain_all. destruct (shuffle (order_ r) (rng_ r)) as [ord g].
  eapply busy_trans; [|apply drain_order_busy]. constructor; try done. intros _. apply grown_refl.
Qed.

Lemma after_step_busy r : busy r (after_step r).
Proof.
  unfold SimRuntime.after_step. set (r1 := set_steps _ r).
  assert (busy r r1) as H1 by (constructor; try done; intros _; apply grown_refl).
  destruct step_fn_ as [f|] eqn:Ef; [|done]. pose proof (polite_hook f r1 eq_refl) as Hp.
  destruct (f r1) as [hs broken]. cbn [fst] in Hp. eapply busy_trans; [exact H1|].
  eapply busy_trans; [by apply (hooks_busy hs)|]. constructor; try done. intros _. apply grown_refl.
Qed.

Lemma apply_busy ev r : busy r (apply ev r).
Proof.
  unfold apply. destruct (Sim.kind ev) eqn:Ek.
  all: try (constructor; try done; intros _; unfold net_of; cbn [world set_world]; unfold Sim.apply; rewrite Ek).
  all: try apply grown_refl.
  - destruct (_ <? _)%nat; [by apply alike_grown|apply grown_refl].
  - destruct (_ <=? _); constructor; try done; intros _; apply grown_refl.
Qed.

Lemma take_event_on_time r : Sim.due_next (now_ r) (net_of r) = true -> on_time r -> on_time (take_event r).
Proof.
  unfold Sim.due_next, take_event, Sim.pop. destruct (Sim.q_ (net_of r)) as [|ev q] eqn:Eq; [done|].
  intros Hd%Z.leb_le H. eapply busy_on_time; [apply apply_busy|]. unfold on_time, net_of in *.
  cbn [now_ trace_ deliveries world Sim.net Sim.upd_net]. by apply timeline_pop.
Qed.

Lemma deliver_on_time r : Sim.due_next (now_ r) (net_of r) = true -> on_time r -> on_time (deliver r).
Proof.
  intros Hd H. eapply busy_on_time; [apply after_step_busy|]. eapply busy_on_time; [apply drain_all_busy|].
  by apply take_event_on_time.
Qed.

Lemma take_event_now (r : Driver) : now_ (take_event r) = now_ r.
Proof. unfold take_event. destruct (Sim.pop _) as [[ev n]|]; [|done]. by rewrite (b_now _ _ (apply_busy ev _)). Qed.

Lemma deliver_now r : now_ (deliver r) = now_ r.
Proof.
  unfold SimRuntime.deliver. rewrite (b_now _ _ (after_step_busy _)), (b_now _ _ (drain_all_busy _)). apply take_event_now.
Qed.

(** When nothing more is due, what is queued lies ahead. *)
Lemma not_due_fresh r : Sim.due_next (now_ r) (net_of r) = false -> on_time r -> fresh (now_ r) (net_of r).
Proof.
  unfold Sim.due_next, fresh. intros Hd H. pose proof (tl_order _ _ _ _ H) as Ho.
  destruct (Sim.q_ (net_of r)) as [|ev q]; [done|]. apply Z.leb_gt in Hd. inversion Ho as [|? ? _ Hf]; subst.
  constructor; [lia|]. eapply Forall_impl; [exact Hf|]. cbn beta. lia.
Qed.

Lemma due_loop_on_time fuel p r p' r' :
  due_loop fuel p r = Some (p', r') -> on_time r -> on_time r' /\ fresh (now_ r') (net_of r') /\ now_ r' = now_ r.
Proof.
  revert p r. induction fuel as [|fuel IH]; intros p r; cbn [SimRuntime.due_loop];
    destruct (Sim.due_next (now_ r) (net_of r)) eqn:Ed; try done.
  - intros [= <- <-] H. split; [done|]. by split; [apply not_due_fresh|].
  - intros E H. destruct (IH _ _ E) as (H1 & H2 & H3); [by apply deliver_on_time|]. by rewrite deliver_now in H3.
  - intros [= <- <-] H. split; [done|]. by split; [apply not_due_fresh|].
Qed.

Lemma min_wakeup_le t l : fst (min_wakeup t l) <= t.
Proof.
  revert t. induction l as [|em l IH]; intros t; cbn [min_wakeup]; [done|].
  destruct (next_wakeup em) as [w em']. specialize (IH (Z.min w t)). destruct (min_wakeup (Z.min w t) l) as [t' l'].
  cbn [fst] in *. lia.
Qed.

Lemma jump_on_time next r :
  next <= next_due r -> fresh (now_ r) (net_of r) -> on_time r ->
  on_time (jump next r) /\ now_ (jump next r) = Z.max next (now_ r + 1).
Proof.
  intros Hn Hf H. unfold SimRuntime.jump. set (t := if _ <=? _ then _ else _).
  assert (t = Z.max next (now_ r + 1)) as Et by (unfold t; destruct (Z.leb_spec next (now_ r)); lia).
  split; [|by rewrite (b_now _ _ (after_step_busy _))]. eapply busy_on_time; [apply after_step_busy|].
  unfold on_time, net_of in *. cbn [now_ trace_ deliveries set_time world Sim.net Sim.upd_net].
  apply (timeline_tick (now_ r)); [lia| |done].
  unfold fresh, next_due, Sim.next_due in *. pose proof (tl_order _ _ _ _ H) as Ho. unfold net_of in *.
  destruct (Sim.q_ (Sim.net (world r))) as [|ev q] eqn:Eq; [done|]. apply Forall_cons in Hf as [He Hf].
  inversion Ho as [|? ? _ Hq]; subst. constructor; [lia|].
  apply Forall_forall. intros x Hx. pose proof (proj1 (Forall_forall _ _) Hf x Hx) as H1.
  pose proof (proj1 (Forall_forall _ _) Hq x Hx) as H2. cbn beta in *. lia.
Qed.

Lemma run_until_on_time fuel target r r' :
  run_until fuel target r = Some r' -> now_ r <= target -> on_time r -> on_time r' /\ now_ r' = target.
Proof.
  revert r. induction fuel as [|fuel IH]; intros r; cbn [SimRuntime.run_until];
    destruct (Z.ltb_spec (now_ r) target) as [Hlt|Hge]; try done.
  1, 3: intros [= <-] Hle H; assert (target = now_ r) as -> by lia; split; [|done];
        apply (timeline_tick (now_ r)); [done|apply (tl_late _ _ _ _ H)|exact H].
  destruct (due_loop fuel false r) as [[p r1]|] eqn:E1; [|done]. cbn [mbind option_bind].
  intros E _ H. destruct (due_loop_on_time _ _ _ _ _ E1 H) as (H1 & Hf1 & Hn1).
  pose proof (drain_all_busy r1) as Hb. destruct (drain_all r1) as [any r2]. cbn [snd] in Hb.
  pose proof (busy_on_time _ _ Hb H1) as H2. pose proof (busy_fresh _ _ Hb H1 Hf1) as Hf2.
  pose proof (b_now _ _ Hb) as Hn2. destruct any; [apply IH in E; [done|lia|done]|].
  pose proof (min_wakeup_le (Z.min (next_due r2) target) (shards_ r2)) as Hw.
  destruct (min_wakeup _ (shards_ r2)) as [next l]. cbn [fst] in Hw.
  destruct (jump_on_time next (set_shards l r2)) as [H3 Hn3]; [unfold next_due, net_of in *; cbn; lia|done|done|].
  apply IH in E; [done| |done]. rewrite Hn3. cbn [now_ set_shards]. lia.
Qed.

Lemma run_until_idle_on_time fuel k r b r' :
  run_until_idle fuel k r = Some (b, r') -> on_time r -> on_time r' /\ now_ r <= now_ r'.
Proof.
  revert r. induction k as [|k IH]; intros r; cbn [SimRuntime.run_until_idle]; [by intros [= <- <-]|].
  destruct (due_loop fuel false r) as [[p r1]|] eqn:E1; [|done]. cbn [mbind option_bind].
  intros E H. destruct (due_loop_on_time _ _ _ _ _ E1 H) as (H1 & Hf1 & Hn1).
  pose proof (drain_all_busy r1) as Hb. destruct (drain_all r1) as [any r2]. cbn [snd] in Hb.
  pose proof (busy_on_time _ _ Hb H1) as H2. pose proof (busy_fresh _ _ Hb H1 Hf1) as Hf2.
  pose proof (b_now _ _ Hb) as Hn2.
  destruct (any || p); [apply IH in E as [? ?]; [split; [done|lia]|done]|].
  destruct (min_wakeup time_max (shards_ r2)) as [next l]. set (r3 := set_shards l r2) in E.
  destruct (_ =? time_max); [injection E as <- <-; split; [done|cbn; lia]|].
  destruct (jump_on_time (Z.min (next_due r3) next) r3) as [H3 Hn3]; [lia|done|done|].
  apply IH in E as [? ?]; [split; [done|]|done]. rewrite Hn3 in *. change (now_ r3) with (now_ r2) in *. lia.
Qed.

End Timeline.

(** ** Termination

    Every instant brings only so much work: some measure of what is left to do falls
    with each iteration that did something and with each event applied.  How much
    there is at the next instant is not limited. *)

Section Termination.
Context {Rng D Prob EM Shuffle : Type}
        (rng_draw : Rng -> D * Rng) (below : D -> Prob -> bool) (positive : Prob -> bool) (scale : D -> Z -> Z)
        (socket : Z -> Z) (port_of : Z -> Z)
        (shuffle : list nat -> Shuffle -> list nat * Shuffle)
        `{SH : Shard Rng Prob EM}.
Abbreviation Driver := (@SimRuntime Rng Prob EM Shuffle).
Context (step_fn_ : option (Driver -> list (Hook Prob) * bool)).
Abbreviation poll := (poll rng_draw below positive scale socket port_of).
Abbreviation poll_shard := (poll_shard rng_draw below positive scale socket port_of).
Abbreviation drain_order := (drain_order rng_draw below positive scale socket port_of).
Abbreviation drain_all := (drain_all rng_draw below positive scale socket port_of shuffle).
Abbreviation deliver := (deliver rng_draw below positive scale socket port_of shuffle step_fn_).
Abbreviation due_loop := (due_loop rng_draw below positive scale socket port_of shuffle step_fn_).
Abbreviation run_until := (run_until rng_draw below positive scale socket port_of shuffle step_fn_).
Abbreviation run_until_idle := (run_until_idle rng_draw below positive scale socket port_of shuffle step_fn_).
Abbreviation after_step := (after_step step_fn_).
Abbreviation jump := (jump step_fn_).

Record finite_work (left : Driver -> nat) : Prop := {
  fw_poll : forall i r, (left (snd (poll i r)) <= left r)%nat
              /\ (fst (poll i r) = true -> (left (snd (poll i r)) < left r)%nat);
  fw_take : forall r, Sim.due_next (now_ r) (net_of r) = true -> (left (take_event r) < left r)%nat;
  fw_after : forall r, (left (after_step r) <= left r)%nat;
  fw_order : forall ord g r, left (set_order ord g r) = left r }.

(** *** The instant does not move while shards run *)

Lemma after_step_now (r : Driver) : now_ (after_step r) = now_ r.
Proof. unfold SimRuntime.after_step. destruct step_fn_ as [f|]; [|done]. by destruct (f _). Qed.

Lemma poll_now i (r : Driver) : now_ (snd (poll i r)) = now_ r.
Proof. unfold SimRuntime.poll. destruct (shards_ r !! i); [|done]. by destruct (poll_once _ _ _) as [[? ?] ?]. Qed.

Lemma poll_shard_now n i (r : Driver) : now_ (snd (poll_shard n i r)) = now_ r.
Proof.
  revert r. induction n as [|n IH]; intros r; cbn [SimRuntime.poll_shard]; [done|].
  pose proof (poll_now i r) as H. destruct (poll i r) as [[|] r1]; cbn [snd] in *; [by rewrite IH|done].
Qed.

Lemma drain_now (r : Driver) : now_ (snd (drain_all r)) = now_ r.
Proof.
  unfold SimRuntime.drain_all. destruct (shuffle _ _) as [ord g]. change (now_ r) with (now_ (set_order ord g r)).
  generalize (set_order ord g r), false. clear r. induction ord as [|i l IH]; intros r any; cbn [SimRuntime.drain_order]; [done|].
  pose proof (poll_shard_now 1024 i r) as H. destruct (poll_shard 1024 i r) as [b r1]. by rewrite IH.
Qed.

Lemma delivered_now (r : Driver) : now_ (deliver r) = now_ r.
Proof. unfold SimRuntime.deliver. by rewrite after_step_now, drain_now, take_event_now. Qed.

Lemma jump_now next (r : Driver) : now_ (jump next r) = Z.max next (now_ r + 1).
Proof. unfold SimRuntime.jump. rewrite after_step_now. cbn [now_ set_time]. destruct (Z.leb_spec next (now_ r)); lia. Qed.

(** *** More fuel gives the same result *)

Lemma due_loop_more fuel fuel' p r x : (fuel <= fuel')%nat -> due_loop fuel p r = Some x -> due_loop fuel' p r = Some x.
Proof.
  revert fuel' p r. induction fuel as [|fuel IH]; intros fuel' p r Hle; destruct fuel' as [|fuel']; try lia;
    cbn [SimRuntime.due_loop]; destruct (Sim.due_next _ _); try done. apply IH. lia.
Qed.

Lemma run_until_more fuel fuel' target r x :
  (fuel <= fuel')%nat -> run_until fuel target r = Some x -> run_until fuel' target r = Some x.
Proof.
  revert fuel' r. induction fuel as [|fuel IH]; intros fuel' r Hle; destruct fuel' as [|fuel']; try lia;
    cbn [SimRuntime.run_until]; destruct (_ <? _); try done.
  destruct (due_loop fuel false r) as [[p r1]|] eqn:E1; [|done]. rewrite (due_loop_more fuel fuel' _ _ _ ltac:(lia) E1).
  cbn [mbind option_bind]. destruct (drain_all r1) as [any r2]. destruct any; [apply IH; lia|].
  destruct (min_wakeup _ _) as [next l]. apply IH. lia.
Qed.

Context (left : Driver -> nat) (FW : finite_work left).

Lemma poll_shard_left n i (r : Driver) : (left (snd (poll_shard n i r)) <= left r)%nat
  /\ (fst (poll_shard n i r) = true -> (left (snd (poll_shard n i r)) < left r)%nat).
Proof.
  revert r. induction n as [|n IH]; intros r; cbn [SimRuntime.poll_shard]; [done|].
  destruct (fw_poll left FW i r) as [H1 H2]. destruct (poll i r) as [[|] r1]; cbn [fst snd] in *; [|done].
  destruct (IH r1) as [H3 _]. specialize (H2 eq_refl). split; [lia|]. intros _. lia.
Qed.

Lemma drain_order_left l any (r : Driver) : (left (snd (drain_order l any r)) <= left r)%nat
  /\ (any = false -> fst (drain_order l any r) = true -> (left (snd (drain_order l any r)) < left r)%nat).
Proof.
  revert any r. induction l as [|i l IH]; intros any r; cbn [SimRuntime.drain_order]; [by split; [|intros ->]|].
  destruct (poll_shard_left 1024 i r) as [H1 H2]. destruct (poll_shard 1024 i r) as [b r1]; cbn [fst snd] in *.
  destruct (IH (any || b) r1) as [H3 H4]. split; [lia|]. intros -> Ht. destruct b; [specialize (H2 eq_refl); lia|].
  specialize (H4 eq_refl Ht). lia.
Qed.

Lemma drain_left (r : Driver) : (left (snd (drain_all r)) <= left r)%nat
  /\ (fst (drain_all r) = true -> (left (snd (drain_all r)) < left r)%nat).
Proof.
  unfold SimRuntime.drain_all. destruct (shuffle _ _) as [ord g]. rewrite <- (fw_order left FW ord g r).
  destruct (drain_order_left ord false (set_order ord g r)) as [H1 H2]. split; [done|]. by apply H2.
Qed.

Lemma deliver_left (r : Driver) : Sim.due_next (now_ r) (net_of r) = true -> (left (deliver r) < left r)%nat.
Proof.
  intros H. pose proof (fw_take left FW r H) as H1. pose proof (drain_left (take_event r)) as [H2 _].
  pose proof (fw_after left FW (snd (drain_all (take_event r)))) as H3. unfold SimRuntime.deliver. lia.
Qed.

(** The events due at an instant are delivered. *)
Lemma due_loop_ends m p (r : Driver) : (left r <= m)%nat ->
  exists p' r', due_loop m p r = Some (p', r') /\ now_ r' = now_ r /\ (left r' <= left r)%nat.
Proof.
  revert p r. induction m as [|m IH]; intros p r Hm; cbn [SimRuntime.due_loop];
    destruct (Sim.due_next (now_ r) (net_of r)) eqn:Ed; try (by eauto).
  - pose proof (deliver_left r Ed). lia.
  - pose proof (deliver_left r Ed) as Hd. destruct (IH true (deliver r)) as (p' & r' & H1 & H2 & H3); [lia|].
    exists p', r'. split; [done|]. rewrite H2, delivered_now. split; [done|lia].
Qed.

Lemma run_until_ends target k : forall m (r : Driver), Z.to_nat (target - now_ r) = k -> (left r <= m)%nat ->
  exists fuel r', run_until fuel target r = Some r'.
Proof.
  induction k as [k IHk] using lt_wf_ind. induction m as [m IHm] using lt_wf_ind. intros r Hk Hm.
  destruct (Z.ltb_spec (now_ r) target) as [Hlt|Hge].
  2: { exists O, (set_time target r). cbn [SimRuntime.run_until]. by rewrite (proj2 (Z.ltb_ge _ _)). }
  destruct (due_loop_ends m false r Hm) as (p & r1 & E1 & Hn1 & Hl1).
  pose proof (drain_left r1) as [Hl2 Hs2]. pose proof (drain_now r1) as Hn2. destruct (drain_all r1) as [any r2] eqn:E2.
  cbn [fst snd] in *.
  assert (exists fuel r', (if any then run_until fuel target r2
    else let '(next, l) := min_wakeup (Z.min (next_due r2) target) (shards_ r2) in
         run_until fuel target (jump next (set_shards l r2))) = Some r') as (fuel & r' & E).
  { destruct any.
    - specialize (Hs2 eq_refl). apply (IHm (left r2)); [lia|rewrite Hn2, Hn1; done|done].
    - destruct (min_wakeup _ _) as [next l]. set (r3 := jump next (set_shards l r2)).
      assert (now_ r + 1 <= now_ r3) by (unfold r3; rewrite jump_now; cbn [now_ set_shards]; lia).
      apply (IHk (Z.to_nat (target - now_ r3)) ltac:(lia) (left r3) r3); done. }
  exists (S (fuel + m)), r'. cbn [SimRuntime.run_until]. rewrite (proj2 (Z.ltb_lt _ _)) by done.
  rewrite (due_loop_more m (fuel + m) _ _ _ ltac:(lia) E1). cbn [mbind option_bind]. rewrite E2.
  destruct any; [by apply (run_until_more fuel); [lia|]|].
  destruct (min_wakeup _ _) as [next l]. by apply (run_until_more fuel); [lia|].
Qed.

Lemma run_until_target fuel target r r' : run_until fuel target r = Some r' -> now_ r' = target.
Proof.
  revert r. induction fuel as [|fuel IH]; intros r; cbn [SimRuntime.run_until]; destruct (_ <? _); try done;
    try (by intros [= <-]).
  destruct (due_loop fuel false r) as [[p r1]|]; [|done]. cbn [mbind option_bind]. destruct (drain_all r1) as [[|] r2]; [apply IH|].
  destruct (min_wakeup _ _) as [next l]. apply IH.
Qed.

End Termination.

(** ** Scenarios *)

Section Scenarios.
Context {Rng D Prob EM Shuffle : Type}
        (rng_draw : Rng -> D * Rng) (below : D -> Prob -> bool) (positive : Prob -> bool) (scale : D -> Z -> Z)
        (socket : Z -> Z) (port_of : Z -> Z)
        (shuffle : list nat -> Shuffle -> list nat * Shuffle)
        `{SH : Shard Rng Prob EM}.
Abbreviation Driver := (@SimRuntime Rng Prob EM Shuffle).
Context (step_fn_ : option (Driver -> list (Hook Prob) * bool)).
Abbreviation run_for := (run_for rng_draw below positive scale socket port_of shuffle step_fn_).
Abbreviation run_until := (run_until rng_draw below positive scale socket port_of shuffle step_fn_).
Abbreviation run_until_idle := (run_until_idle rng_draw below positive scale socket port_of shuffle step_fn_).

(** What a scenario does with the driver. *)
Inductive Cmd :=
  | CAddShards (n : nat) (setup : EM -> @Sim.World Rng Prob -> list (Act Prob) * EM)
  | CPost (shard : Z) (task : nat) (delay : Z)
  | CInject (f : @Sim.FaultProfile Prob)
  | CRunFor (d : Z)
  | CIdle (max_steps : nat).

Definition perform (fuel : nat) (c : Cmd) (r : Driver) : option Driver :=
  match c with
  | CAddShards n setup => Some (add_shards rng_draw below positive scale socket port_of n setup r)
  | CPost s t d => Some (post s t d r)
  | CInject f => Some (inject f r)
  | CRunFor d => run_for fuel d r
  | CIdle k => snd <$> run_until_idle fuel k r
  end.

Fixpoint scenario (fuel : nat) (cs : list Cmd) (r : Driver) : option Driver :=
  match cs with [] => Some r | c :: cs => r ← perform fuel c r; scenario fuel cs r end.

Definition sane_cmd (c : Cmd) : Prop :=
  match c with
  | CAddShards _ setup => forall em w, Forall sane_act (fst (setup em w))
  | CPost _ _ d => 0 <= d
  | CInject f => sane_faults f
  | CRunFor d => 0 <= d
  | CIdle _ => True
  end.

Lemma add_shard_on_time setup (r : Driver) :
  (forall d n, 0 <= n -> 0 <= scale d n) -> (forall em w, Forall sane_act (fst (setup em w))) ->
  on_time r -> on_time (add_shard rng_draw below positive scale socket port_of setup r).
Proof.
  intros Hsc Hs H. unfold add_shard. set (i := length _). set (w := Sim.be_put _ _ (world r)).
  pose proof (Hs (clock_set (now_ r) (new_em i)) w) as Hp. destruct (setup _ w) as [acts em]. cbn [fst] in Hp.
  pose proof (acts_busy rng_draw below positive scale socket port_of Hsc (Z.of_nat i) acts (set_world w r) Hp) as Hb.
  exact (busy_on_time _ _ Hb H).
Qed.

Lemma perform_on_time fuel c (r r' : Driver) :
  (forall d n, 0 <= n -> 0 <= scale d n) ->
  (forall i em w, Forall sane_act (snd (fst (poll_once (EM:=EM) i em w)))) ->
  (forall f r, step_fn_ = Some f -> Forall sane_hook (fst (f r))) ->
  sane_cmd c -> perform fuel c r = Some r' -> on_time r -> on_time r'.
Proof.
  intros Hsc Hp Hh Hc E H. destruct c; cbn [perform sane_cmd] in *.
  - injection E as <-. unfold add_shards. induction n as [|n IH]; [done|]. by apply add_shard_on_time.
  - injection E as <-. eapply busy_on_time; [|exact H]. apply (hooks_busy [HPost shard task delay]). by apply Forall_singleton.
  - injection E as <-. eapply busy_on_time; [|exact H]. apply (hooks_busy [HInject f]). by apply Forall_singleton.
  - eapply run_until_on_time in E as [? _]; [done|done|done|done|lia|done].
  - destruct (run_until_idle fuel max_steps r) as [[b r1]|] eqn:E1; [|done]. injection E as <-.
    eapply run_until_idle_on_time in E1 as [? _]; done.
Qed.

Lemma scenario_on_time fuel cs (r r' : Driver) :
  (forall d n, 0 <= n -> 0 <= scale d n) ->
  (forall i em w, Forall sane_act (snd (fst (poll_once (EM:=EM) i em w)))) ->
  (forall f r, step_fn_ = Some f -> Forall sane_hook (fst (f r))) ->
  Forall sane_cmd cs -> scenario fuel cs r = Some r' -> on_time r -> on_time r'.
Proof.
  intros Hsc Hp Hh Hcs. revert r. induction Hcs as [|c cs Hc Hcs IH]; intros r; cbn [scenario]; [by intros [= ->]|].
  destruct (perform fuel c r) as [r1|] eqn:E1; [|done]. cbn [mbind option_bind]. intros E H. apply (IH r1 E).
  by eapply perform_on_time.
Qed.

(** C32: Whatever the shards do, with delays, durations and fault latencies that are not
    negative, the trace of a simulation is in order of due times; each
    event was applied at the instant it was due or one nanosecond later, and these
    instants never go back; and every event ever scheduled is recorded once or still
    queued, none of them overdue by more than a nanosecond. *)
Theorem sim_timeline fuel cs net g r :
  (forall d n, 0 <= n -> 0 <= scale d n) ->
  (forall i em w, Forall sane_act (snd (fst (poll_once (EM:=EM) i em w)))) ->
  (forall f r, step_fn_ = Some f -> Forall sane_hook (fst (f r))) ->
  Sim.q_ net = [] -> Sim.seq_ net = 0 -> Sim.now_ net = 0 -> sane_faults (Sim.faults_ net) ->
  Forall sane_cmd cs -> scenario fuel cs (SimRuntime_ctor net g) = Some r ->
  StronglySorted Z.le (map r_due (trace_ r))
  /\ Forall2 (fun rec t => r_due rec <= t <= r_due rec + 1) (trace_ r) (deliveries r)
  /\ StronglySorted Z.le (deliveries r)
  /\ Forall (fun ev => now_ r - 1 <= Sim.due ev) (Sim.q_ (net_of r))
  /\ exists N, map r_seq (trace_ r) ++ map Sim.seq (Sim.q_ (net_of r)) ≡ₚ numbers N.
Proof.
  intros Hsc Hp Hh Hq Hseq Hnow Hf Hcs E.
  assert (on_time (SimRuntime_ctor net g : Driver)) as H0.
  { constructor; cbn [now_ trace_ deliveries net_of world SimRuntime_ctor Sim.net map]; rewrite ?Hq; try (by constructor); try done.
    exists O. by rewrite Hseq. }
  destruct (scenario_on_time fuel cs _ r Hsc Hp Hh Hcs E H0) as [].
  destruct tl_numbers0 as (N & _ & HN). repeat split; try done. by exists N.
Qed.

(** C33: When each instant brings only finitely much work, virtual time reaches every
    target, however much work each later instant may bring: [run_until] returns, with
    the clock at the target. *)
Theorem sim_time_reaches_target left target (r : Driver) :
  finite_work rng_draw below positive scale socket port_of step_fn_ left ->
  exists fuel r', run_until fuel target r = Some r' /\ now_ r' = target.
Proof.
  intros FW. edestruct (run_until_ends rng_draw below positive scale socket port_of shuffle step_fn_ left FW target)
    as (fuel & r' & E); [done|done|].
  exists fuel, r'. split; [exact E|]. exact (run_until_target _ _ _ _ _ _ _ _ _ _ _ _ E).
Qed.

(** A target in the past moves the clocks back. *)
Lemma run_until_goes_back fuel target (r : Driver) :
  target < now_ r -> exists r', run_until fuel target r = Some r' /\ now_ r' < now_ r /\ Sim.now_ (net_of r') < now_ r.
Proof.
  intros H. exists (set_time target r). split; [|done]. destruct fuel; cbn [SimRuntime.run_until];
    by rewrite (proj2 (Z.ltb_ge _ _)) by lia.
Qed.

End Scenarios.

(** The hash recorded for an event without payload is not zero. *)
Lemma empty_payload_hash : fnv1a [] = 1469598103934665603.
Proof. reflexivity. Qed.

(** ** Witnesses *)

(** A shard that sends three bytes on descriptor 5 for every task it is given and has a
    timer every ten nanoseconds; each iteration runs one task or fires the timer. *)
Record Pinger := mkPinger { pings : nat; p_clock : Z; p_wake : Z }.

#[local] Instance pinger : Shard Z Z Pinger := {
  new_em _ := mkPinger 0 0 10;
  poll_once _ em _ :=
    match pings em with
    | S k => (true, [ASendv 7 5 [[1; 2; 3]]], mkPinger k (p_clock em) (p_wake em))
    | O => if p_wake em <=? p_clock em then (true, [AWait 8], mkPinger 0 (p_clock em) (p_clock em + 10)) else (false, [], em)
    end;
  next_wakeup em := (p_wake em, em);
  mailbox_post _ em := mkPinger (S (pings em)) (p_clock em) (p_wake em);
  clock_set t em := mkPinger (pings em) t (p_wake em) }.

Definition calm_net : @Sim.SimNet Z Z :=
  Sim.mkNet [] ∅ ∅ [] (Sim.mkFaults 0 true 0 0 0 (0, 0) 5 25 0) 0 0 0 0.
Definition reversed (l : list nat) (g : Z) : list nat * Z := (rev l, g + 1).
Definition demo_port (fd : Z) : Z := if fd =? 3 then 80 else 0.

Definition demo_scenario : list (@Cmd Z Z Pinger) :=
  [CAddShards 1 (fun em _ => ([AAccept 1 3], em)); CAddShards 1 (fun em _ => ([AConnect 2 5 80], em));
   CPost 1 0 20; CRunFor 100].

Abbreviation demo_run :=
  (scenario Sim.count_draw Sim.count_below Sim.count_positive Sim.count_scale Sim.count_socket demo_port reversed None 60
    demo_scenario (SimRuntime_ctor calm_net 0)).

Lemma count_scale_nonneg d n : 0 <= n -> 0 <= Sim.count_scale d n.
Proof. intros Hn. unfold Sim.count_scale. pose proof (Z.mod_pos_bound d 100 ltac:(lia)). apply Z.div_pos; nia. Qed.

Lemma pinger_polite i (em : Pinger) w : Forall sane_act (snd (fst (poll_once i em w))).
Proof. cbn. destruct (pings em); [case_match|]; cbn; by repeat constructor. Qed.

Lemma sim_timeline_witness :
  match demo_run with
  | Some r =>
      map r_due (trace_ r) = [5; 5; 20; 32; 33; 34] /\
      (StronglySorted Z.le (map r_due (trace_ r))
       /\ Forall2 (fun rec t => r_due rec <= t <= r_due rec + 1) (trace_ r) (deliveries r)
       /\ StronglySorted Z.le (deliveries r)
       /\ Forall (fun ev => now_ r - 1 <= Sim.due ev) (Sim.q_ (net_of r))
       /\ exists N, map r_seq (trace_ r) ++ map Sim.seq (Sim.q_ (net_of r)) ≡ₚ numbers N)
  | None => False
  end.
Proof.
  destruct demo_run as [r|] eqn:E; [|vm_compute in E; discriminate].
  split; [vm_compute in E; injection E as <-; vm_compute; reflexivity|].
  apply (sim_timeline Sim.count_draw Sim.count_below Sim.count_positive Sim.count_scale Sim.count_socket demo_port reversed None
    60 demo_scenario calm_net 0 r).
  - apply count_scale_nonneg.
  - apply pinger_polite.
  - discriminate.
  - reflexivity.
  - reflexivity.
  - reflexivity.
  - unfold sane_faults. cbn. lia.
  - repeat constructor; cbn; try lia; intros; by repeat constructor.
  - exact E.
Defined.

(** A shard with tasks to run and a timer every ten nanoseconds that is armed again for
    ever. *)
Record Ticker := mkTicker { tasks : nat; t_clock : Z; t_wake : Z }.

#[local] Instance ticker : Shard Z Z Ticker := {
  new_em _ := mkTicker 0 0 10;
  poll_once _ em _ :=
    match tasks em with
    | S k => (true, [], mkTicker k (t_clock em) (t_wake em))
    | O => if t_wake em <=? t_clock em then (true, [], mkTicker 0 (t_clock em) (t_clock em + 10)) else (false, [], em)
    end;
  next_wakeup em := (t_wake em, em);
  mailbox_post _ em := mkTicker (S (tasks em)) (t_clock em) (t_wake em);
  clock_set t em := mkTicker (tasks em) t (t_wake em) }.

Definition load (em : Ticker) : nat := tasks em + if t_wake em <=? t_clock em then 1 else 0.
Definition ticks_left (r : @SimRuntime Z Z Ticker Z) : nat :=
  sum_list_with load (shards_ r) + 2 * length (Sim.q_ (net_of r)).

Lemma sum_insert {A} (f : A -> nat) l i x y :
  l !! i = Some x -> (sum_list_with f (<[i := y]> l) + f x = sum_list_with f l + f y)%nat.
Proof.
  revert i. induction l as [|z l IH]; intros i; [done|]. destruct i as [|i]; cbn [lookup list_lookup]; [intros [= ->]; cbn; lia|].
  intros H. specialize (IH i H). change (<[S i := y]> (z :: l)) with (z :: <[i := y]> l). cbn [sum_list_with]. lia.
Qed.

Lemma sum_alter {A} (f : A -> nat) (g : A -> A) l i :
  (forall x, f (g x) = S (f x)) -> (sum_list_with f (alter g i l) <= S (sum_list_with f l))%nat.
Proof.
  intros Hg. revert i. induction l as [|z l IH]; intros i; [destruct i; cbn; lia|]. destruct i as [|i]; [cbn; rewrite Hg; lia|].
  specialize (IH i). change (alter g (S i) (z :: l)) with (z :: alter g i l). cbn [sum_list_with]. lia.
Qed.

Lemma apply_queue ev (w : @Sim.World Z Z) : Sim.q_ (Sim.net (Sim.apply ev w)) = Sim.q_ (Sim.net w).
Proof. unfold Sim.apply. destruct (Sim.kind ev); try done. by destruct (_ <? _)%nat. Qed.

Lemma ticker_finite_work :
  finite_work Sim.count_draw Sim.count_below Sim.count_positive Sim.count_scale Sim.count_socket demo_port None ticks_left.
Proof.
  split; [| |done|done].
  - intros i r. unfold poll. destruct (shards_ r !! i) as [em|] eqn:Ei; [|done]. cbn [poll_once ticker].
    unfold ticks_left, net_of.
    destruct (tasks em) as [|k] eqn:Et; [destruct (t_wake em <=? t_clock em) eqn:Ew|];
      cbn [fst snd foldl shards_ set_shards set_world world];
      match goal with |- context [<[i := ?y]> _] => pose proof (sum_insert load _ _ _ y Ei) as Hs end;
      unfold load in Hs at 2 4; cbn [tasks t_wake t_clock] in Hs; rewrite Et in Hs; rewrite ?Ew in Hs.
    + rewrite (proj2 (Z.leb_gt _ _)) in Hs by lia. lia.
    + split; [lia|done].
    + lia.
  - intros r. unfold Sim.due_next, take_event, Sim.pop. destruct (Sim.q_ (net_of r)) as [|ev q] eqn:Eq; [done|]. intros _.
    unfold ticks_left, apply, net_of in *. rewrite Eq.
    destruct (Sim.kind ev) eqn:Ek; cbn [shards_ set_world set_shards world]; rewrite ?apply_queue; try (cbn; lia).
    destruct (_ <=? _); cbn [shards_ set_world set_shards world Sim.net Sim.upd_net Sim.q_ Sim.set_q length]; [lia|].
    pose proof (sum_alter load (mailbox_post task) (shards_ r) (Z.to_nat shard)) as Hs.
    specialize (Hs ltac:(intros em; unfold load; cbn; lia)). lia.
Qed.

Lemma sim_time_reaches_target_witness :
  exists fuel r', run_until Sim.count_draw Sim.count_below Sim.count_positive Sim.count_scale Sim.count_socket demo_port reversed None
      fuel 1000 (post 0 0 20 (add_shards Sim.count_draw Sim.count_below Sim.count_positive Sim.count_scale Sim.count_socket demo_port
        3 (fun em _ => ([], em)) (SimRuntime_ctor (EM := Ticker) calm_net 0))) = Some r' /\ now_ r' = 1000.
Proof.
  apply (sim_time_reaches_target Sim.count_draw Sim.count_below Sim.count_positive Sim.count_scale Sim.count_socket demo_port reversed
    None ticks_left). exact ticker_finite_work.
Defined.

End SimRuntime.
